(* ===== verification/_CoqProject ===== *)
-Q . S2P
Prelude.v
PyString.v
PoolTypes.v
PoolStore.v
PoolReconciler.v
PoolSync.v
PoolManager.v
PoolAsync.v
Retry.v
EndpointCache.v
AsyncEndpoint.v
Regex.v
Validators.v
PyText.v
PyCodec.v
ClientErrors.v
SandboxClient.v
RedisServer.v
RedisStore.v
RedisProtocol.v
RedisSafety.v
RedisRefine.v
RedisPool.v
AsyncStores.v
Sha256.v
Signing.v
IngressConfig.v
Gateway.v
SignedRoutes.v
RateLimiter.v
KubeCache.v
KubeVolumes.v
KubeStorage.v
RenewIntent.v
Tenants.v
TenantHttp.v
ServerProxy.v
DockerLifecycle.v
DockerExpiry.v
DockerMounts.v
DockerSandboxes.v
ListFilter.v
SnapshotRepo.v
SnapshotService.v
SnapshotRecovery.v
CallTree.v
SnapshotRuntimes.v
DockerSnapshots.v
Resources.v
