(* ===== verification/Prelude.v ===== *)
(** * OpenSandbox: a verification development

    OpenSandbox runs sandboxes (containers) for other programs.  A lifecycle
    server creates, snapshots and deletes them and proxies requests into them; a
    gateway in front of the cluster routes requests to them by signed or plain
    routes; a Python SDK talks to the server over HTTP and keeps pools of warm
    sandboxes, in memory or in Redis.  This library models the parts of the code
    that decide what happens, as executable Rocq definitions, and proves what
    makes them correct.  Paths below are relative to
    [src/opensandbox_unified_bench/]; SDK is
    [sdks/sandbox/python/src/opensandbox/], SERVER is
    [server/opensandbox_server/] and GATEWAY is [components/ingress/pkg/].

    ** Parts, files and sources

    Shared:
    - [Prelude] (this file): the state and exception monad with its weakest
      preconditions, insertion-ordered dictionaries, counting in lists, tactics
      and hint databases.  [PyString]: the [str] methods in use.  [Regex]:
      regular expressions by derivatives.  [PyText]: ISO instants and JSON
      strings.  [PyCodec]: numbers in a base, [int] and [str], UTF-8, base64.

    SDK pools:
    - [PoolTypes] (SDK [pool_types.py], [exceptions/sandbox.py]): enums, records,
      configuration checks, and the store protocol as the class [PoolStateStore]
      with the laws [PoolStoreLaws] its clients rely on.
    - [PoolStore] (SDK [_pool_store.py]): the in-memory store, one function per
      method on the record of its fields; it is an instance of the class and of
      the laws.
    - [PoolReconciler] (SDK [_pool_reconciler.py]): the back-off state and the
      reconcile tick.  It introduces the [World] the pool code runs in: a store,
      the pool's fields, a log of what was done, and an environment that answers
      every call leaving the process and may change the store between any two
      calls.
    - [PoolSync] (SDK [sync/pool.py]): [SandboxPoolSync]: start, shutdown,
      acquire, warm-up, resize, draining, snapshots, the locked tick, the
      scheduler.
    - [PoolManager] (SDK [pool_manager.py]): destroying a shared pool, proved
      against the laws of the store and not against an implementation.
    - [PoolAsync] (SDK [pool_async.py], [_async_pool_reconciler.py]): the asyncio
      pool in the same world, with cancellations as answers of awaited calls.
    - [RedisServer]: what the stores need of Redis, as a class with laws and an
      executable instance.  [RedisStore] (SDK [redis_pool_store.py]): the Lua
      scripts and the client's operations.  [RedisProtocol], [RedisSafety],
      [RedisRefine], [RedisPool]: any number of clients interleaved request by
      request, with requests and replies lost; what stays true of them; the
      queue compared with the in-memory one; the pool code run over Redis.
    - [AsyncStores] (SDK [_async_pool_store.py], [async_redis_pool_store.py]): the
      asyncio stores.
    - [Retry] (SDK [transport/]): retry policy, decision, back-off, Retry-After,
      per-attempt time-outs, and both retrying transports, which share one loop.
    - [EndpointCache] (SDK [adapters/endpoint_cache.py]): the LRU and TTL cache
      that merges concurrent fetches, as a step function on the cache, its
      in-flight entries and its threads.  [AsyncEndpoint]: its asyncio variant,
      which refines it.

    SDK sandboxes:
    - [ClientErrors] (SDK [adapters/sandboxes_adapter.py], [adapters/converter/],
      [exceptions/sandbox.py], [api/lifecycle/]): how a response becomes a result
      or a [SandboxException], the pipeline of every call of the lifecycle API.
    - [SandboxClient] (SDK [sync/sandbox.py], [sandbox.py], [config/]): creating,
      connecting to, resuming and destroying a sandbox, waiting until it is
      ready, and who closes the transport; every call may fail or be cancelled.

    Routes into sandboxes:
    - [Sha256], [Signing] (SERVER [services/signing.py]): the hash, and the
      signature of a route with its base-36 expiry.
    - [IngressConfig] (SERVER [config.py]): signing keys and the ingress block.
    - [Gateway] (GATEWAY [signature/], [proxy/], [sandbox/endpoint.go]): parsing
      and verifying routes, access to protected sandboxes, error answers.
    - [SignedRoutes] (SERVER [services/helpers.py], [services/k8s/],
      [api/lifecycle.py]): the endpoints the server gives out, composed with the
      gateway that receives them.
    - [ServerProxy] (SERVER [api/proxy.py]): requests and WebSockets proxied by
      the server itself.

    Server:
    - [Tenants] (SERVER [tenants/], [middleware/auth.py]): the tenants file and
      its reloads, start-up checks, the authentication middleware.
      [TenantHttp] (SERVER [tenants/http_provider.py]): tenants looked up at a
      remote endpoint by concurrent threads.
    - [RateLimiter] (SERVER [services/k8s/rate_limiter.py]): the token bucket.
    - [KubeCache] (SERVER [services/k8s/informer.py], [client.py],
      [label_selector.py]): the cache of Kubernetes objects: its watcher, the
      clients that read and write through it and other writers, interleaved
      call by call over an API server that is a log of events; label selectors.
    - [KubeVolumes], [KubeStorage] (SERVER [services/k8s/kubernetes_service.py]):
      the volume claims of sandboxes on Kubernetes: making them, guarding them
      against other sandboxes, rolling back, and removing them, as threads whose
      calls to the API server may fail with or without effect.
    - [RenewIntent] (SERVER [integrations/renew_intent/]): renewing a sandbox's
      expiration when it is used: the controller, and the consumer with its
      queue, its lock per sandbox and the eviction of those locks.
    - [DockerLifecycle], [DockerExpiry], [DockerMounts] (SERVER
      [services/docker/docker_service.py], [ossfs_mixin.py]): creating, renewing,
      deleting and expiring sandboxes on Docker, and restarts of the server, as
      interleaved threads over shared timers, files and mounts, with every call
      to the daemon free to fail; that expirations are carried out; that mounts
      are counted.  [DockerSandboxes] (SERVER [services/docker/metadata.py],
      [port_allocator.py], [docker_service.py], [services/sandbox_service.py]):
      metadata patches on both runtimes, reported states, listings, ports.
      [ListFilter] (SDK and server [list_sandboxes]): how a metadata filter
      travels from the clients through [urllib.parse] to those listings.
    - [Validators] (SERVER [services/validators.py]): the request checks.
      [Resources] (SERVER [services/helpers.py], [provider_common.py],
      [windows_common.py]): resource limits of containers, pods and Windows
      guests, and the environments of a sandbox and its sidecar.
    - [SnapshotRepo] (SERVER [services/snapshot_models.py],
      [snapshot_repository.py], [repositories/snapshots/sqlite.py]): snapshot
      records, the repository interface with its laws (a finite map, listed
      newest first), and the SQLite repository, which discharges them.
    - [SnapshotService], [SnapshotRecovery] (SERVER
      [services/snapshot_service.py]): the snapshot life cycle.  Operations are
      trees of calls; a system of threads interleaves them call by call over any
      repository that obeys the laws.  [SnapshotRuntimes] (SERVER
      [services/k8s/snapshot_runtime.py]), [DockerSnapshots] (SERVER
      [services/docker/snapshot_runtime.py]): the two runtimes behind it, against
      an API server and a daemon; both discharge what the recovery assumes of a
      runtime ([kubernetes_runtime_ok], [docker_runtime_ok]).

    ** What the theorems show

    - Pool: no sandbox id is handed out twice ([no_double_handout]); an acquire
      loses no sandbox, whatever other clients do ([acquire_no_leak]), tries a
      bounded number of candidates and falls through to a direct creation when
      the store is down; a reconcile tick orphans nothing and stays within the
      deficit; once a destroy has begun nothing enters the pool, and it runs to
      its end with true counts; start is all or nothing; shutdown stops within
      its time-out; operations are balanced on every path.
    - Redis: over any interleaving of clients with lost messages no id is handed
      out twice, the primary lock is exclusive, a destroy fences writers out and
      completes; taking from the Redis queue returns what the in-memory queue
      returns.
    - Asynchronous variants: the store behaves as the synchronous one and never
      blocks on its own lock; an acquire gives the same result, calls and
      fields; a tick accounts for what its warm-ups created; warm-ups clean up
      and draining ends under cancellation.
    - Retry: at most [max_retries + 1] attempts, none after the deadline, each
      phase and each sleep bounded; requests that are not idempotent are only
      repeated when nothing was sent.
    - Endpoint cache: bounded, one fetch per key and generation, every waiter can
      be served, no stale entry after an invalidation, exact TTL; the asyncio
      cache refines the thread-safe one, step by step.
    - Sandbox objects: a constructor that fails kills what it made and closes the
      transport it owns, and only that one; one that succeeds returns a sandbox
      found healthy; waiting ends; which answers of the server callers get to
      see as such ([error_answers_reported]).
    - Routes: expiries and their texts correspond one to one; the hashed bytes
      determine what is signed; a signed endpoint is accepted by the gateway
      until it expires and leads where it should; a protected sandbox is only
      reached with its token or a valid signature; server and gateway read the
      same keys out of a key ring; which requests for endpoints are refused.
    - Server proxy: the header a backend receives, name by name; nothing is sent
      for a caller without the secure-access token; the backend's response is
      released exactly once on every path; WebSockets are gated in the same way
      and relayed in order; redirects stay in the route and come back as the
      path the backend named.
    - Tenants: exactly which requests are let through and as whom; after any
      reloads a key belongs to the one tenant the last readable file lists it
      for; concurrent HTTP lookups never mix keys up, deny without a refusal, or
      ask twice at once.
    - Rates and renewals: no window exceeds burst plus rate; renewals of a
      sandbox exclude each other and keep their interval while the table of
      locks holds all sandboxes in use; the table is bounded; a renewal never
      brings an expiration forward.
    - Kubernetes objects: from a full list until a client writes into the cache,
      a synced cache is exactly one version of the API server's objects, and an
      open stream catches up; every answer was a real version of the object.
    - Volume claims: a sandbox whose claims are being removed has no workload and
      never will; a live sandbox keeps its storage while nobody makes a claim
      under a name some request is about to remove or patch; no claim is orphaned
      while the API server answers; waiting for a sandbox ends.
    - Sandboxes on Docker: an expiration that was given is carried out by the
      server's own timers and threads as long as the daemon answers, across
      renewals and restarts; whatever fails, a timer never ends a sandbox before
      one of its expirations and no reference to a mount is leaked; metadata
      patches agree with those on Kubernetes while they remove no original key;
      listings are complete; a filter on labels reaches them as it was written
      by the asynchronous client; allocated ports are distinct.
    - Validators: accepted host paths stay inside the allow-list; volumes, labels
      and time-outs are accepted exactly when the rules say so.  Resources: which
      texts are memory limits; CPU limits fit 64 bits; accepted limits of Windows
      guests reach them; the sandbox sees one setting of its sidecar at most.
    - Snapshots: every interleaving, crashes included, keeps to the state
      machine; recovery ends and finishes what can be finished; tenants are
      isolated; listings are complete, exact and chronological although
      instants are compared as text; rows are read back unchanged.  What the
      runtimes report as READY or deleted is so, and waiting for an object ends
      in time ([create_snapshot_settles]); names of snapshots are distinct.
    - Lemmas that are not properties show where the code does something other
      than its comments say or than it means to: in the pools
      [snapshot_entries_repeat], [renew_error_leaks_created],
      [fence_after_stale_leaks], [start_close_error_sticks],
      [interrupted_owner_returns_none], [cancelled_acquire_leaks],
      [cancelled_start_sticks], [rejected_task_drops_kills],
      [warmup_close_error_leaks], [cancelled_warmup_keeps_siblings],
      [cancelled_owner_cancels_waiters]; in the clients
      [plain_text_error_misread], [unregistered_status_misread],
      [unretried_called_retryable], [raw_body_unbounded],
      [interrupted_create_leaks], [cancelled_connect_leaks],
      [cancelled_clean_up_leaks], [blank_image_leaks], [shared_config_closed],
      [clock_set_back_prolongs], [prefixed_label_not_found],
      [separator_splits_filter]; in Redis
      [remove_idle_race_strands], [millis_loses_one],
      [stores_differ_on_expired_put]; in the transports [consumed_body_resent];
      in the routes [unpadded_key_diverges], [signed_uri_without_token]; in the
      proxy [bad_gateway_shows_token], [padded_port_redirect_escapes],
      [second_connection_ignored], [routing_header_doubled],
      [repeated_field_lost]; in the server [newline_name_accepted],
      [backslash_escapes_prefix], [root_prefix_allows_only_root],
      [recovery_resubmits], [crowd_starves_recovery], [change_at_start_missed],
      [late_waiter_serves_stale], [evicted_waiter_races]; on Docker
      [renewed_but_killed], [retry_drops_renewed_timer],
      [failed_expiry_leaves_running], [failed_delete_leaves_running],
      [failed_creation_abandons], [unlisted_restart_abandons],
      [repeated_delete_unmounts], [double_delete_unmounts],
      [unmount_races_creation], [removed_label_returns],
      [pause_of_paused_unguarded], [narrow_range_never_ends],
      [timed_out_commit_orphans_image], [silent_daemon_fails_snapshot], [limits_dropped],
      [tiny_cpu_unlimited], [memory_limit_unbounded], [millicores_lose_one]; in the cache of
      Kubernetes objects [write_through_skips_events], [late_read_resurrects],
      [resync_drops_created], [late_patch_regresses]; with volume claims
      [sweep_deletes_recreated], [missing_claim_not_refused],
      [unrelated_not_found_sweeps], [owner_attached_to_recreated],
      [failed_rollback_abandons_claim].

    ** Conventions and bounds

    Instants and durations are integers (microseconds) or, in [RateLimiter] and
    [TenantHttp], rational seconds; other [float] values are exact rationals, or
    binary floating point where rounding shows ([PoolTypes], [RedisStore]).
    Strings are sequences of the 256 Latin-1 characters, in the gateway of ASCII
    ones; Python integers are unbounded and so is [Z]; Lua numbers are integers
    below 2^53.  Exceptions are kept by class with what callers branch on;
    [CancelledError] is no [Exception].  A call that leaves the process gets its
    answer from an argument: an environment, a function, or the step that
    receives it.  In [RedisProtocol] a request reaches the server as one step,
    between requests of others, and either message may be lost.  Tasks gathered
    by asyncio run one after the other in [PoolAsync].  Base64 is decoded as by
    Python 3.10.

    Loops that Python writes [while True] take fuel; a theorem about such a loop
    gives the fuel that is enough: the number of sandboxes present plus one for
    draining, one more than the length of the list for the Lua scripts, one pass
    more than there are unfinished records for the recovery, the drain time-out
    in clock ticks for the shutdown, one attempt more than there are retries for
    the transports, and for the eviction of locks the table's length plus one,
    squared, and two turns more than polling intervals fit into the time-out for
    the readiness of a sandbox.  The search for a free port ends with enough fuel
    as soon as a port that can be bound and is not taken will be drawn
    ([distinct_ends]); the waits for a pod and for a snapshot take their time-out
    divided by the polling interval, and two turns.

    ** Not modelled

    Thread joins, the copying of connection settings, HTTP and WebSocket clients,
    TOML and JSON decoding of whole documents, schema migration and the command
    line are calls to libraries or input and output, and stay outside.  Of the
    Docker runtime the life cycle, the mount counts, metadata, listings and
    ports are modelled; images, networks, the egress sidecar, the Windows
    profile and other volumes are calls to the daemon.  Of the Kubernetes
    runtime endpoint resolution, metadata patches, the cache of custom objects
    and volume claims are modelled; building its objects is not.  Of the SDK's
    sandbox objects the operations that only pass a call on, and the decoding of
    successful answers but endpoints, are not modelled.  Cancelling a request is
    modelled for the asynchronous pool and client and the proxy only. *)

From Stdlib Require Import ZArith Lia.
From stdpp Require Import base numbers strings gmap list.

#[global] Set Default Goal Selector "!".
#[global] Open Scope Z_scope.

Declare Scope osb_scope.
Delimit Scope osb_scope with osb.

(** Hint database with the lemmas that automate the common cases. *)
Create HintDb osb.
Create Rewrite HintDb osb.
Create Rewrite HintDb pool_checks.

(** ** Exceptions and results *)

(** A Python call either returns a value or raises an exception.  Exceptions
    are kept by class, with the data a caller can branch on; messages built
    from f-strings are not. *)
Inductive res (E A : Type) : Type :=
  | Ok (a : A)
  | Raise (e : E).
Arguments Ok {E A} a.
Arguments Raise {E A} e.

Definition is_ok {E A} (r : res E A) : bool :=
  match r with Ok _ => true | Raise _ => false end.

(** Sequencing pure code that may raise, with stdpp's notation [x ← m; k]. *)
#[global] Instance res_mret {E} : MRet (res E) := fun _ a => Ok a.
#[global] Instance res_mbind {E} : MBind (res E) :=
  fun _ _ k m => match m with Ok a => k a | Raise e => Raise e end.

Lemma res_bind_ok {E A B} (m : res E A) (k : A -> res E B) b :
  m ≫= k = Ok b <-> exists a, m = Ok a /\ k a = Ok b.
Proof. destruct m; cbn; naive_solver. Qed.

(** ** A state and exception monad

    A stateful Python operation maps the state to its result and the state it
    leaves behind; an exception keeps the mutations made before it. *)
Definition M (S E A : Type) : Type := S -> res E A * S.

Definition ret {S E A} (a : A) : M S E A := fun s => (Ok a, s).
Definition throw {S E A} (e : E) : M S E A := fun s => (Raise e, s).
Definition bind {S E A B} (m : M S E A) (k : A -> M S E B) : M S E B :=
  fun s => match m s with
           | (Ok a, s') => k a s'
           | (Raise e, s') => (Raise e, s')
           end.
Definition gets {S E A} (f : S -> A) : M S E A := fun s => (Ok (f s), s).
Definition modify {S E} (f : S -> S) : M S E unit := fun s => (Ok tt, f s).

(** [try: m except ...]: the handler answers [Some] for the exceptions its
    [except] clauses match and [None] for the ones that propagate. *)
Definition catch {S E A} (m : M S E A) (h : E -> option (M S E A)) : M S E A :=
  fun s => match m s with
           | (Ok a, s') => (Ok a, s')
           | (Raise e, s') => match h e with
                              | Some k => k s'
                              | None => (Raise e, s')
                              end
           end.

(** [try: m finally: f], where [f] itself never raises. *)
Definition finally {S E A} (m : M S E A) (f : S -> S) : M S E A :=
  fun s => let '(r, s') := m s in (r, f s').

(** The outcome of [m] as a value: what a future holds. *)
Definition attempt {S E A} (m : M S E A) : M S E (res E A) :=
  fun s => let '(r, s') := m s in (Ok r, s').

(** Lifts a computation on a component of the state. *)
Definition zoom {S T E A} (get : S -> T) (set : T -> S -> S) (m : M T E A) : M S E A :=
  fun s => let '(r, t) := m (get s) in (r, set t s).

Fixpoint for_each {S E A} (f : A -> M S E unit) (l : list A) : M S E unit :=
  match l with
  | [] => ret tt
  | x :: l => bind (f x) (fun _ => for_each f l)
  end.

Notation "x <-- m ;; k" := (bind m (fun x => k))
  (at level 100, m at next level, right associativity) : osb_scope.
Notation "m ;;; k" := (bind m (fun _ => k))
  (at level 100, right associativity) : osb_scope.
#[global] Open Scope osb_scope.

(** ** Weakest preconditions over the monad *)

Definition wp {S E A} (m : M S E A) (Q : res E A -> S -> Prop) (s : S) : Prop :=
  let '(r, s') := m s in Q r s'.

Lemma wp_ret {S E A} (a : A) (Q : res E A -> S -> Prop) s :
  Q (Ok a) s -> wp (ret a) Q s.
Proof. done. Qed.

Lemma wp_throw {S E A} (e : E) (Q : res E A -> S -> Prop) s :
  Q (Raise e) s -> wp (throw e) Q s.
Proof. done. Qed.

Lemma wp_gets {S E A} (f : S -> A) (Q : res E A -> S -> Prop) s :
  Q (Ok (f s)) s -> wp (gets f) Q s.
Proof. done. Qed.

Lemma wp_modify {S E} (f : S -> S) (Q : res E unit -> S -> Prop) s :
  Q (Ok tt) (f s) -> wp (modify f) Q s.
Proof. done. Qed.

Lemma wp_bind {S E A B} (m : M S E A) (k : A -> M S E B) Q s :
  wp m (fun r s' => match r with
                    | Ok a => wp (k a) Q s'
                    | Raise e => Q (Raise e) s'
                    end) s ->
  wp (bind m k) Q s.
Proof. unfold wp, bind. destruct (m s) as [[a|e] s']; done. Qed.

Lemma wp_catch {S E A} (m : M S E A) h (Q : res E A -> S -> Prop) s :
  wp m (fun r s' => match r with
                    | Ok a => Q (Ok a) s'
                    | Raise e => match h e with
                                 | Some k => wp k Q s'
                                 | None => Q (Raise e) s'
                                 end
                    end) s ->
  wp (catch m h) Q s.
Proof. unfold wp, catch. destruct (m s) as [[a|e] s']; [done|]. by destruct (h e). Qed.

Lemma wp_finally {S E A} (m : M S E A) f (Q : res E A -> S -> Prop) s :
  wp m (fun r s' => Q r (f s')) s -> wp (finally m f) Q s.
Proof. unfold wp, finally. by destruct (m s). Qed.

Lemma wp_attempt {S E A} (m : M S E A) (Q : res E (res E A) -> S -> Prop) s :
  wp m (fun r s' => Q (Ok r) s') s -> wp (attempt m) Q s.
Proof. unfold wp, attempt. by destruct (m s). Qed.

Lemma wp_mono {S E A} (m : M S E A) (P Q : res E A -> S -> Prop) s :
  wp m P s -> (forall r s', P r s' -> Q r s') -> wp m Q s.
Proof. unfold wp. destruct (m s). auto. Qed.

Lemma wp_and {S E A} (m : M S E A) (P Q : res E A -> S -> Prop) s :
  wp m P s -> wp m Q s -> wp m (fun r s' => P r s' /\ Q r s') s.
Proof. unfold wp. destruct (m s). auto. Qed.

(** A loop over a list keeps an invariant its body keeps. *)
Lemma wp_for_each {S E A} (f : A -> M S E unit) (l : list A) (I : S -> Prop) s :
  (forall x s, x ∈ l -> I s -> wp (f x) (fun _ => I) s) ->
  I s -> wp (for_each f l) (fun _ => I) s.
Proof.
  revert s. induction l as [|x l IH]; intros s Hf Hs; [done|].
  cbn [for_each]. apply wp_bind. eapply wp_mono; [apply Hf; [set_solver|done]|].
  intros [?|?] s' HI; [|done]. apply IH; [|done]. intros; apply Hf; set_solver.
Qed.

(** One step of a symbolic execution: the rule of the head operation. *)
Ltac wp_step :=
  cbn beta iota;
  lazymatch goal with
  | |- wp (ret _) _ _ => apply wp_ret
  | |- wp (throw _) _ _ => apply wp_throw
  | |- wp (gets _) _ _ => apply wp_gets
  | |- wp (modify _) _ _ => apply wp_modify
  | |- wp (bind _ _) _ _ => apply wp_bind
  | |- wp (catch _ _) _ _ => apply wp_catch
  | |- wp (finally _ _) _ _ => apply wp_finally
  | |- wp (attempt _) _ _ => apply wp_attempt
  end;
  cbn beta iota.

(** ** Ordered dictionaries

    A Python [dict] (and [OrderedDict]) iterates in insertion order; it is an
    association list whose keys do not repeat.  Assigning an existing key keeps
    its position, assigning a new one appends. *)
Section odict.
Context {K V : Type} `{EqDecision K}.
Implicit Types (d : list (K * V)) (k : K) (v : V).

Fixpoint od_get k d : option V :=
  match d with
  | [] => None
  | (k', v) :: d => if decide (k = k') then Some v else od_get k d
  end.

Fixpoint od_set k v d : list (K * V) :=
  match d with
  | [] => [(k, v)]
  | (k', v') :: d => if decide (k = k') then (k', v) :: d else (k', v') :: od_set k v d
  end.

(** [d.pop(k, None)] / [del d[k]] *)
Definition od_del k d : list (K * V) := filter (fun kv => kv.1 ≠ k) d.

Definition od_mem k d : bool := bool_decide (k ∈ d.*1).

Definition od_wf d : Prop := NoDup d.*1.

Lemma od_get_None k d : od_get k d = None <-> k ∉ d.*1.
Proof.
  induction d as [|[k' v] d IH]; csimpl; [set_solver|].
  case_decide; set_solver.
Qed.

Lemma od_get_is_Some k d : is_Some (od_get k d) <-> k ∈ d.*1.
Proof.
  rewrite <- not_eq_None_Some, od_get_None.
  destruct (decide (k ∈ d.*1)); naive_solver.
Qed.

Lemma od_mem_spec k d : od_mem k d = true <-> is_Some (od_get k d).
Proof. unfold od_mem. by rewrite bool_decide_eq_true, od_get_is_Some. Qed.

Lemma od_mem_false k d : od_mem k d = false <-> od_get k d = None.
Proof. unfold od_mem. by rewrite bool_decide_eq_false, od_get_None. Qed.

Lemma od_get_set_eq k v d : od_get k (od_set k v d) = Some v.
Proof.
  induction d as [|[k' v'] d IH]; csimpl; [by case_decide|].
  case_decide; csimpl; by case_decide.
Qed.

Lemma od_get_set_ne k k' v d : k ≠ k' -> od_get k (od_set k' v d) = od_get k d.
Proof.
  intros Hne. induction d as [|[k2 v2] d IH]; csimpl; [by case_decide|].
  destruct (decide (k' = k2)); csimpl; case_decide; congruence.
Qed.

Lemma od_keys_set k v d :
  (od_set k v d).*1 = if decide (k ∈ d.*1) then d.*1 else d.*1 ++ [k].
Proof.
  induction d as [|[k' v'] d IH]; csimpl; [done|].
  destruct (decide (k = k')) as [->|Hne]; csimpl.
  - rewrite decide_True; set_solver.
  - rewrite IH. repeat case_decide; set_solver.
Qed.

Lemma od_wf_set k v d : od_wf d -> od_wf (od_set k v d).
Proof.
  unfold od_wf. rewrite od_keys_set. case_decide; [done|].
  intros Hd. apply NoDup_app. split_and!; [done|set_solver|apply NoDup_singleton].
Qed.

Lemma od_keys_del k d : (od_del k d).*1 = filter (fun k' => k' ≠ k) d.*1.
Proof.
  unfold od_del. induction d as [|[k' v'] d IH]; csimpl; [done|].
  rewrite !filter_cons. simpl. case_decide; csimpl; by rewrite IH.
Qed.

Lemma od_wf_del k d : od_wf d -> od_wf (od_del k d).
Proof. unfold od_wf. rewrite od_keys_del. apply NoDup_filter. Qed.

Lemma od_get_del_eq k d : od_get k (od_del k d) = None.
Proof. apply od_get_None. rewrite od_keys_del, list_elem_of_filter. naive_solver. Qed.

Lemma od_get_del_ne k k' d : k ≠ k' -> od_get k (od_del k' d) = od_get k d.
Proof.
  intros Hne. unfold od_del. induction d as [|[k2 v2] d IH]; csimpl; [done|].
  rewrite filter_cons. simpl.
  destruct (decide (k2 ≠ k')); csimpl; case_decide; naive_solver.
Qed.

Lemma od_get_elem k v d : od_get k d = Some v -> (k, v) ∈ d.
Proof.
  induction d as [|[k' v'] d IH]; csimpl; [done|].
  case_decide; set_solver.
Qed.

Lemma od_elem_get k v d : od_wf d -> (k, v) ∈ d -> od_get k d = Some v.
Proof.
  unfold od_wf. induction d as [|[k' v'] d IH]; csimpl; [set_solver|].
  rewrite NoDup_cons. intros [Hk Hd] [Heq|Hin]%elem_of_cons.
  - simplify_eq. by case_decide.
  - case_decide; [|auto]. subst. destruct Hk.
    apply list_elem_of_fmap. by exists (k', v).
Qed.

Lemma od_del_not_in k d : od_get k d = None -> od_del k d = d.
Proof.
  unfold od_del. induction d as [|[k' v'] d IH]; csimpl; [done|].
  case_decide; [done|]. intros Hn. rewrite filter_cons_True by naive_solver.
  by rewrite IH.
Qed.

Lemma od_length_del k v d :
  od_wf d -> od_get k d = Some v -> S (length (od_del k d)) = length d.
Proof.
  unfold od_wf. induction d as [|[k' v'] d IH]; csimpl; [done|].
  rewrite NoDup_cons. intros [Hk Hd]. unfold od_del. rewrite filter_cons. simpl.
  destruct (decide (k = k')) as [->|Hne].
  - intros _. rewrite decide_False by naive_solver. f_equal.
    change (length (od_del k' d) = length d).
    by rewrite od_del_not_in by by apply od_get_None.
  - intros Hg. rewrite decide_True by congruence. csimpl. f_equal. by apply IH.
Qed.

Lemma od_get_app k d1 d2 :
  od_get k (d1 ++ d2) = match od_get k d1 with Some v => Some v | None => od_get k d2 end.
Proof. induction d1 as [|[k' v'] d1 IH]; csimpl; [done|]. by case_decide. Qed.

Lemma od_wf_filter_keys (P : K -> Prop) `{!forall k, Decision (P k)} d :
  od_wf d -> od_wf (filter (fun kv => P kv.1) d).
Proof.
  unfold od_wf. intros Hd. eapply sublist_NoDup; [exact Hd|]. clear Hd.
  induction d as [|[k' v'] d IH]; [done|]. rewrite filter_cons. simpl.
  case_decide; csimpl; by constructor.
Qed.

Lemma od_get_filter_keys (P : K -> Prop) `{!forall k, Decision (P k)} k d :
  od_get k (filter (fun kv => P kv.1) d) = if decide (P k) then od_get k d else None.
Proof.
  induction d as [|[k' v'] d IH]; [by case_decide|]. rewrite filter_cons. simpl.
  destruct (decide (P k')) as [Hp|Hp]; csimpl; destruct (decide (k = k')) as [->|Hne].
  - by rewrite decide_True.
  - apply IH.
  - by rewrite IH, !decide_False.
  - apply IH.
Qed.

Lemma od_set_new k v d : od_get k d = None -> od_set k v d = (d ++ [(k, v)])%list.
Proof.
  induction d as [|[k' v'] d IH]; csimpl; [done|]. case_decide; [done|]. intros Hd. by rewrite IH.
Qed.

Lemma od_set_app_last k v v' d :
  od_get k d = None -> od_set k v (d ++ [(k, v')]) = (d ++ [(k, v)])%list.
Proof.
  induction d as [|[k' v0] d IH]; csimpl; [by rewrite decide_True|].
  case_decide; [done|]. intros Hd. by rewrite IH.
Qed.

Lemma od_length_set_old k v d : is_Some (od_get k d) -> length (od_set k v d) = length d.
Proof.
  induction d as [|[k' v'] d IH]; csimpl; [by intros []|].
  case_decide; csimpl; [done|]. intros Hd. by rewrite IH.
Qed.

Lemma od_length_set_new k v d :
  od_get k d = None -> length (od_set k v d) = S (length d).
Proof.
  induction d as [|[k' v'] d IH]; csimpl; [done|].
  case_decide; [done|]. intros Hn. csimpl. by rewrite IH.
Qed.
End odict.

#[export] Hint Resolve od_wf_set od_wf_del od_get_set_eq od_get_del_eq : osb.
#[export] Hint Rewrite @od_get_set_eq @od_get_del_eq : osb.

(** ** Counting occurrences *)

Definition count {A} `{EqDecision A} (x : A) (l : list A) : nat :=
  length (filter (fun y => y = x) l).

Section count.
Context {A : Type} `{EqDecision A}.

Lemma count_app (x : A) l1 l2 : count x (l1 ++ l2) = (count x l1 + count x l2)%nat.
Proof. unfold count. by rewrite filter_app, length_app. Qed.

Lemma count_cons (x y : A) l :
  count x (y :: l) = ((if decide (y = x) then 1 else 0) + count x l)%nat.
Proof. unfold count. rewrite filter_cons. case_decide; done. Qed.

Lemma count_pos (x : A) l : (0 < count x l)%nat <-> x ∈ l.
Proof.
  induction l as [|y l IH]; [unfold count; simpl; set_solver by lia|].
  rewrite count_cons, elem_of_cons, <- IH. case_decide; naive_solver lia.
Qed.

Lemma count_NoDup (x : A) l : NoDup l -> (count x l <= 1)%nat.
Proof.
  induction 1 as [|y l Hy Hl IH]; [unfold count; simpl; lia|].
  rewrite count_cons. case_decide; [|lia]. subst.
  rewrite <- count_pos in Hy. lia.
Qed.
End count.

(** ** Filters *)

Lemma filter_keeps_all {A} (P : A -> Prop) `{forall x, Decision (P x)} (l : list A) : Forall P l -> filter P l = l.
Proof. induction 1 as [|x l Hx Hl IH]; [done|]. rewrite filter_cons_True by done. by rewrite IH. Qed.

Lemma filter_keeps_none {A} (P : A -> Prop) `{forall x, Decision (P x)} (l : list A) : Forall (fun x => ~ P x) l -> filter P l = [].
Proof. induction 1 as [|x l Hx Hl IH]; [done|]. rewrite filter_cons_False by done. by rewrite IH. Qed.

Lemma filter_congr {A} (P Q : A -> Prop) `{forall x, Decision (P x)} `{forall x, Decision (Q x)} (l : list A) :
  Forall (fun x => P x <-> Q x) l -> filter P l = filter Q l.
Proof.
  induction 1 as [|x l Hx Hl IH]; [done|].
  destruct (decide (P x)); [rewrite !filter_cons_True by tauto|rewrite !filter_cons_False by tauto]; by rewrite IH.
Qed.

(** ** Pages *)

(** Reading a page out of [n] consecutive ones. *)
Lemma concat_windows {A} (s n : nat) (l : list A) :
  concat (map (fun i => take s (drop (i * s) l)) (seq 0 n)) = take (n * s) l.
Proof.
  induction n as [|n IH]; [done|]. rewrite seq_S, map_app, concat_app, IH. cbn [map concat].
  rewrite app_nil_r. replace (S n * s)%nat with (n * s + s)%nat by lia.
  rewrite <- (take_drop (n * s) (take (n * s + s) l)), take_take, Nat.min_l, skipn_firstn_comm by lia.
  do 2 f_equal. lia.
Qed.

(** ** Tactics *)


(** Splits the boolean tests and matches of the goal and of the hypotheses. *)
Ltac split_ifs :=
  repeat match goal with
  | |- context [if ?b then _ else _] => let E := fresh "E" in destruct b eqn:E
  | H : context [if ?b then _ else _] |- _ => let E := fresh "E" in destruct b eqn:E
  end.

Ltac bool_lia :=
  rewrite ?andb_true_iff, ?andb_false_iff, ?orb_true_iff, ?orb_false_iff,
    ?negb_true_iff, ?negb_false_iff, ?Z.leb_le, ?Z.leb_gt, ?Z.ltb_lt, ?Z.ltb_ge,
    ?Z.eqb_eq, ?Z.eqb_neq in *; lia.
