(* ===== verification/PyString.v ===== *)
(** * Python strings

    The [str] operations the sources use, on strings whose characters are code
    points below 256 (Latin-1): [ascii] is the 8-bit character type, and the
    white-space and lower-casing tables below are those of Python for that
    range. *)

From Stdlib Require Import ZArith Lia Ascii String.
From stdpp Require Import base numbers strings list.
From S2P Require Import Prelude.

Open Scope string_scope.
Open Scope Z_scope.

Definition code (c : ascii) : Z := Z.of_N (N_of_ascii c).
Definition chars (s : string) : list ascii := list_ascii_of_string s.
Definition of_chars (l : list ascii) : string := string_of_list_ascii l.

Definition between (lo hi : Z) (c : ascii) : bool := (lo <=? code c) && (code c <=? hi).

(** [str.isspace] for one character: tab to carriage return, the separators
    28 to 31, space, NEL (133) and no-break space (160). *)
Definition is_space (c : ascii) : bool :=
  between 9 13 c || between 28 32 c || (code c =? 133) || (code c =? 160).

Definition is_digit (c : ascii) : bool := between 48 57 c.
Definition is_lower_az (c : ascii) : bool := between 97 122 c.
Definition is_upper_az (c : ascii) : bool := between 65 90 c.
Definition is_alnum_az (c : ascii) : bool := is_lower_az c || is_upper_az c || is_digit c.

(** [str.lower] for one character: A-Z and the Latin-1 capitals 192 to 222
    except the multiplication sign 215 move up by 32. *)
Definition lower_char (c : ascii) : ascii :=
  if is_upper_az c || (between 192 222 c && negb (code c =? 215))
  then ascii_of_N (N_of_ascii c + 32) else c.

Definition lower (s : string) : string := of_chars (map lower_char (chars s)).

Fixpoint drop_while (p : ascii -> bool) (l : list ascii) : list ascii :=
  match l with
  | [] => []
  | c :: l => if p c then drop_while p l else c :: l
  end.

Definition strip_list (p : ascii -> bool) (l : list ascii) : list ascii :=
  rev (drop_while p (rev (drop_while p l))).

Definition strip (s : string) : string := of_chars (strip_list is_space (chars s)).

(** [not s or not s.strip()] *)
Definition is_blank (s : string) : bool := (s =? "")%string || (strip s =? "")%string.

Definition startswith (s p : string) : bool := String.prefix p s.

Definition endswith (s p : string) : bool :=
  bool_decide (chars p `suffix_of` chars s).

Definition str_len (s : string) : Z := Z.of_nat (String.length s).

(** [needle in text] *)
Fixpoint is_infix (needle l : list ascii) : bool :=
  bool_decide (take (length needle) l = needle) ||
  match l with [] => false | _ :: l => is_infix needle l end.

(** [s.split(c)]: never empty. *)
Fixpoint split_list (c : ascii) (l : list ascii) : list (list ascii) :=
  match l with
  | [] => [[]]
  | x :: l =>
      if decide (x = c) then [] :: split_list c l
      else match split_list c l with
           | [] => [[x]]
           | w :: ws => (x :: w) :: ws
           end
  end.

Definition split (s : string) (c : ascii) : list string :=
  map of_chars (split_list c (chars s)).

(** [s.replace(a, b)] for single characters. *)
Definition replace_char (a b : ascii) (s : string) : string :=
  of_chars (map (fun c => if decide (c = a) then b else c) (chars s)).

(** ** Lemmas *)

Lemma of_chars_chars s : of_chars (chars s) = s.
Proof. apply string_of_list_ascii_of_string. Qed.

Lemma chars_of_chars l : chars (of_chars l) = l.
Proof. apply list_ascii_of_string_of_list_ascii. Qed.

Lemma chars_inj s1 s2 : chars s1 = chars s2 -> s1 = s2.
Proof. intros H. by rewrite <- (of_chars_chars s1), H, of_chars_chars. Qed.

Lemma chars_app s1 s2 : chars (s1 +:+ s2) = (chars s1 ++ chars s2)%list.
Proof. induction s1 as [|c s1 IH]; simpl; [done|]. by rewrite <- IH. Qed.

Lemma length_chars s : length (chars s) = String.length s.
Proof. induction s; simpl; congruence. Qed.

Lemma startswith_spec s p : startswith s p = true <-> chars p `prefix_of` chars s.
Proof.
  unfold startswith. revert s. induction p as [|c p IH]; intros [|d s]; simpl.
  - split; [|done]. intros _. apply prefix_nil.
  - split; [|done]. intros _. apply prefix_nil.
  - split; [done|]. by intros ?%prefix_nil_not.
  - destruct (ascii_dec c d) as [->|Hne].
    + rewrite IH. split; [apply prefix_cons|apply prefix_cons_inv_2].
    + split; [done|]. by intros ?%prefix_cons_inv_1.
Qed.

Lemma drop_while_nil p l : drop_while p l = [] <-> forallb p l = true.
Proof. induction l as [|c l IH]; simpl; [done|]. by destruct (p c). Qed.

Lemma drop_while_suffix p l : drop_while p l `suffix_of` l.
Proof.
  induction l as [|c l IH]; simpl; [done|].
  destruct (p c); [by apply suffix_cons_r|done].
Qed.

Lemma forallb_rev {A} (p : A -> bool) l : forallb p (rev l) = forallb p l.
Proof.
  induction l as [|c l IH]; simpl; [done|].
  rewrite forallb_app, IH. simpl. destruct (p c), (forallb p l); done.
Qed.

Lemma drop_while_forallb p q l : forallb q l = true -> forallb q (drop_while p l) = true.
Proof.
  induction l as [|c l IH]; simpl; [done|]. rewrite andb_true_iff. intros [Hc Hl].
  destruct (p c); [auto|]. simpl. by rewrite Hc, Hl.
Qed.

(** A string is blank exactly when all its characters are white space. *)
Lemma is_blank_spec s : is_blank s = forallb is_space (chars s).
Proof.
  unfold is_blank, strip, strip_list.
  destruct (forallb is_space (chars s)) eqn:Hs.
  - apply orb_true_iff. right.
    by rewrite (proj2 (drop_while_nil _ _) Hs).
  - apply orb_false_iff. split.
    + destruct s; [by simpl in Hs|done].
    + apply String.eqb_neq. intros H.
      apply (f_equal chars) in H. rewrite chars_of_chars in H. simpl in H.
      apply (f_equal (@rev ascii)) in H. rewrite rev_involutive in H. simpl in H.
      apply drop_while_nil in H. rewrite forallb_rev in H.
      destruct (drop_while is_space (chars s)) as [|c l] eqn:Hd.
      * apply drop_while_nil in Hd. congruence.
      * assert (is_space c = false) as Hc.
        { clear -Hd. induction (chars s) as [|x xs IH]; simpl in Hd; [done|].
          destruct (is_space x) eqn:E; [auto|]. by inversion Hd; subst. }
        simpl in H. by rewrite Hc in H.
Qed.

Lemma split_list_none c l : c ∉ l -> split_list c l = [l].
Proof.
  induction l as [|x l IH]; [done|]. intros Hc. cbn [split_list]. apply not_elem_of_cons in Hc as [Hx Hc].
  by rewrite decide_False, IH.
Qed.

Lemma split_list_cons c l : exists w ws, split_list c l = w :: ws.
Proof.
  induction l as [|x l (w & ws & IH)]; simpl; [eauto|].
  case_decide; [eauto|]. rewrite IH. eauto.
Qed.
