(* ===== verification/PoolTypes.v ===== *)
(** * Sandbox pool types

    [sdks/sandbox/python/src/opensandbox/pool_types.py]: the acquire policies,
    the pool states, the configuration records with their validation, the
    [PoolStateStore] protocol as a type class and the helpers that call its
    optional near-expiry methods.  Time spans and instants are integers, in
    microseconds, the resolution of [timedelta] and [datetime]. *)

From Stdlib Require Import ZArith Lia String SpecFloat.
From stdpp Require Import base numbers strings gmap list.
From S2P Require Import Prelude PyString.

Open Scope string_scope.
Open Scope Z_scope.

Definition seconds (n : Z) : Z := n * 1000000.
Definition milliseconds (n : Z) : Z := n * 1000.

(** ** Enumerations *)

Inductive AcquirePolicy :=
  | FAIL_FAST
  | DIRECT_CREATE
  | RETRY_NEXT_IDLE
  | RETRY_NEXT_IDLE_THEN_CREATE.

Inductive PoolState := HEALTHY | DEGRADED | DRAINING | STOPPED.

Inductive PoolLifecycleState :=
  | LC_NOT_STARTED | LC_STARTING | LC_RUNNING | LC_DRAINING | LC_STOPPED.

Inductive PoolDestroyState := ACTIVE | DESTROYING | DESTROYED.

Inductive PoolDestroyStrategy := FORCE.

Inductive PooledSandboxCreateReason := R_WARMUP | R_DIRECT_CREATE.

#[global] Instance AcquirePolicy_eq_dec : EqDecision AcquirePolicy.
Proof. solve_decision. Defined.
#[global] Instance PoolState_eq_dec : EqDecision PoolState.
Proof. solve_decision. Defined.
#[global] Instance PoolLifecycleState_eq_dec : EqDecision PoolLifecycleState.
Proof. solve_decision. Defined.
#[global] Instance PooledSandboxCreateReason_eq_dec : EqDecision PooledSandboxCreateReason.
Proof. solve_decision. Defined.
#[global] Instance PoolDestroyState_eq_dec : EqDecision PoolDestroyState.
Proof. solve_decision. Defined.

Definition RETRY_POLICIES : list AcquirePolicy :=
  [RETRY_NEXT_IDLE; RETRY_NEXT_IDLE_THEN_CREATE].
Definition FALLTHROUGH_POLICIES : list AcquirePolicy :=
  [DIRECT_CREATE; RETRY_NEXT_IDLE_THEN_CREATE].

Definition effective_max_idle_attempts (policy : AcquirePolicy) (max_acquire_retries : Z) : Z :=
  if bool_decide (policy ∈ RETRY_POLICIES) then Z.max 1 max_acquire_retries else 1.

Definition policy_falls_through_to_direct_create (policy : AcquirePolicy) : bool :=
  bool_decide (policy ∈ FALLTHROUGH_POLICIES).

(** ** Exceptions the pool raises or handles

    [ValueError] keeps the constant text of its message. [OtherException] is
    any other subclass of [Exception]; [NonException] is a [BaseException]
    that is not one ([KeyboardInterrupt], [SystemExit]), which [except
    Exception] does not catch. *)
Inductive exc :=
  | ValueError (msg : string)
  | PoolEmptyException
  | PoolAcquireFailedException
  | PoolStateStoreUnavailableException
  | PoolNotRunningException (state : PoolLifecycleState)
  | PoolDestroyedException (state : PoolDestroyState)
  | PoolDestroyIncompleteException
  | OtherException (name : string)
  | NonException (name : string).

#[global] Instance exc_eq_dec : EqDecision exc.
Proof. solve_decision. Defined.

Definition is_Exception (e : exc) : bool :=
  match e with NonException _ => false | _ => true end.

Definition is_PoolDestroyed (e : exc) : bool :=
  match e with PoolDestroyedException _ => true | _ => false end.

Definition is_StoreUnavailable (e : exc) : bool :=
  match e with PoolStateStoreUnavailableException => true | _ => false end.

(** ** Records *)

Record PoolDestroyOptions := {
  do_strategy : PoolDestroyStrategy;
  do_tombstone_ttl : option Z;
  do_drain_timeout : Z;
}.

Record PoolDestroyResult := {
  dr_pool_name : string;
  dr_state : PoolDestroyState;
  dr_drained_idle_count : Z;
  dr_killed_idle_count : Z;
  dr_persistent_state_cleared : bool;
}.

Record IdleEntry := { ie_sandbox_id : string; ie_expires_at : Z }.

Record StoreCounters := { sc_idle_count : Z }.

Record TakeIdleResult := {
  ti_sandbox_id : option string;
  ti_discarded_alive : list string;
}.

#[global] Instance IdleEntry_eq_dec : EqDecision IdleEntry.
Proof. solve_decision. Defined.

(** ** Validation helpers *)

Definition require_text (value : string) (message : string) : res exc unit :=
  if is_blank value then Raise (ValueError message) else Ok tt.

Definition require_positive (value : Z) (message : string) : res exc unit :=
  if value <=? 0 then Raise (ValueError message) else Ok tt.

Definition require (ok : bool) (message : string) : res exc unit :=
  if ok then Ok tt else Raise (ValueError message).

(** Runs checks in order; the first one that raises decides. *)
Fixpoint checks (l : list (res exc unit)) : res exc unit :=
  match l with
  | [] => Ok tt
  | Ok _ :: l => checks l
  | Raise e :: _ => Raise e
  end.

Definition PoolDestroyOptions_post_init (o : PoolDestroyOptions) : res exc unit :=
  checks
    [ match do_tombstone_ttl o with
      | Some ttl => require_positive ttl "tombstone_ttl must be positive"
      | None => Ok tt
      end;
      require (negb (do_drain_timeout o <? 0)) "drain_timeout must be non-negative" ].

(** [timedelta / 2]: microseconds divided and rounded half to even. *)
Definition half_even (us : Z) : Z :=
  let q := us / 2 in
  if us mod 2 =? 0 then q else if Z.even q then q else q + 1.

Definition DEFAULT_ACQUIRE_MIN_REMAINING_TTL_CAP : Z := seconds 60.

Definition default_acquire_min_remaining_ttl (idle_timeout : Z) : Z :=
  let half := half_even idle_timeout in
  if DEFAULT_ACQUIRE_MIN_REMAINING_TTL_CAP <? half
  then DEFAULT_ACQUIRE_MIN_REMAINING_TTL_CAP else half.

Definition require_acquire_min_remaining_ttl (ttl idle_timeout : Z) : res exc unit :=
  checks
    [ require (negb (ttl <? 0)) "acquire_min_remaining_ttl must be non-negative";
      require (negb (idle_timeout <=? ttl)) "acquire_min_remaining_ttl must be strictly less than idle_timeout" ].

(** [ceil(n * 0.2)] in IEEE binary64, as CPython evaluates it: [n] is rounded
    to a double, multiplied by the double nearest to 0.2 and the product
    rounded.  [None] is the [OverflowError] of an integer no double holds. *)
Definition float_of_int (n : Z) : spec_float := binary_normalize 53 1024 n 0 false.
Definition float_0_2 : spec_float := S754_finite false 7205759403792794 (-55).

Definition float_ceil (f : spec_float) : option Z :=
  match f with
  | S754_zero _ => Some 0
  | S754_finite s m e =>
      let v := if s then Z.neg m else Z.pos m in
      Some (if 0 <=? e then v * 2 ^ e else - ((- v) / 2 ^ (- e)))
  | _ => None
  end.

Definition ceil_fifth (n : Z) : option Z :=
  match float_of_int n with
  | S754_infinity _ => None
  | f => float_ceil (SFmul 53 1024 f float_0_2)
  end.

(** ** [PoolConfig]

    The fields [__post_init__] reads.  The objects it only stores (the state
    store, connection settings, creation template and user callbacks) are
    arguments of the operations that use them. *)
Record PoolConfigInput := {
  in_pool_name : string;
  in_max_idle : Z;
  in_owner_id : option string;
  in_warmup_concurrency : option Z;
  in_primary_lock_ttl : Z;
  in_reconcile_interval : Z;
  in_degraded_threshold : Z;
  in_acquire_ready_timeout : Z;
  in_acquire_health_check_polling_interval : Z;
  in_acquire_skip_health_check : bool;
  in_warmup_ready_timeout : Z;
  in_warmup_health_check_polling_interval : Z;
  in_warmup_skip_health_check : bool;
  in_idle_timeout : Z;
  in_drain_timeout : Z;
  in_acquire_min_remaining_ttl : option Z;
  in_max_acquire_retries : Z;
}.

(** The configuration after [__post_init__]: the optional fields are set. *)
Record PoolConfig := {
  pool_name : string;
  max_idle : Z;
  owner_id : string;
  warmup_concurrency : Z;
  primary_lock_ttl : Z;
  reconcile_interval : Z;
  degraded_threshold : Z;
  acquire_ready_timeout : Z;
  acquire_health_check_polling_interval : Z;
  acquire_skip_health_check : bool;
  warmup_ready_timeout : Z;
  warmup_health_check_polling_interval : Z;
  warmup_skip_health_check : bool;
  idle_timeout : Z;
  drain_timeout : Z;
  acquire_min_remaining_ttl : Z;
  max_acquire_retries : Z;
}.

(** [uuid] is the text of the fresh [uuid4()]. *)
Definition PoolConfig_post_init (uuid : string) (i : PoolConfigInput) : res exc PoolConfig :=
  let owner := match in_owner_id i with
               | Some o => if (o =? "")%string then "pool-owner-" +:+ uuid else o
               | None => "pool-owner-" +:+ uuid
               end in
  match (match in_warmup_concurrency i with
         | Some w => Some w
         | None => c ← ceil_fifth (in_max_idle i); Some (Z.max 1 c)
         end) with
  | None => Raise (OtherException "OverflowError")
  | Some wc =>
    let min_ttl := match in_acquire_min_remaining_ttl i with
                   | Some t => t
                   | None => default_acquire_min_remaining_ttl (in_idle_timeout i)
                   end in
    match checks
      [ require_text (in_pool_name i) "pool_name must not be blank";
        require_text owner "owner_id must not be blank";
        require (negb (in_max_idle i <? 0)) "max_idle must be >= 0";
        require (negb (wc <=? 0)) "warmup_concurrency must be positive";
        require (negb (in_degraded_threshold i <=? 0)) "degraded_threshold must be positive";
        require_positive (in_primary_lock_ttl i) "primary_lock_ttl must be positive";
        require_positive (in_reconcile_interval i) "reconcile_interval must be positive";
        require_positive (in_acquire_ready_timeout i) "acquire_ready_timeout must be positive";
        require_positive (in_acquire_health_check_polling_interval i)
          "acquire_health_check_polling_interval must be positive";
        require_positive (in_warmup_ready_timeout i) "warmup_ready_timeout must be positive";
        require_positive (in_warmup_health_check_polling_interval i)
          "warmup_health_check_polling_interval must be positive";
        require_positive (in_idle_timeout i) "idle_timeout must be positive";
        require (negb (in_drain_timeout i <? 0)) "drain_timeout must be non-negative";
        require (negb (in_max_acquire_retries i <? 1)) "max_acquire_retries must be >= 1";
        require_acquire_min_remaining_ttl min_ttl (in_idle_timeout i) ] with
    | Raise e => Raise e
    | Ok _ => Ok {|
        pool_name := in_pool_name i;
        max_idle := in_max_idle i;
        owner_id := owner;
        warmup_concurrency := wc;
        primary_lock_ttl := in_primary_lock_ttl i;
        reconcile_interval := in_reconcile_interval i;
        degraded_threshold := in_degraded_threshold i;
        acquire_ready_timeout := in_acquire_ready_timeout i;
        acquire_health_check_polling_interval := in_acquire_health_check_polling_interval i;
        acquire_skip_health_check := in_acquire_skip_health_check i;
        warmup_ready_timeout := in_warmup_ready_timeout i;
        warmup_health_check_polling_interval := in_warmup_health_check_polling_interval i;
        warmup_skip_health_check := in_warmup_skip_health_check i;
        idle_timeout := in_idle_timeout i;
        drain_timeout := in_drain_timeout i;
        acquire_min_remaining_ttl := min_ttl;
        max_acquire_retries := in_max_acquire_retries i;
      |}
    end
  end.

(** [dataclasses.replace(self, max_idle=n)] builds a new instance from the
    current fields, so [__post_init__] runs again. *)
Definition to_input (c : PoolConfig) : PoolConfigInput := {|
  in_pool_name := pool_name c;
  in_max_idle := max_idle c;
  in_owner_id := Some (owner_id c);
  in_warmup_concurrency := Some (warmup_concurrency c);
  in_primary_lock_ttl := primary_lock_ttl c;
  in_reconcile_interval := reconcile_interval c;
  in_degraded_threshold := degraded_threshold c;
  in_acquire_ready_timeout := acquire_ready_timeout c;
  in_acquire_health_check_polling_interval := acquire_health_check_polling_interval c;
  in_acquire_skip_health_check := acquire_skip_health_check c;
  in_warmup_ready_timeout := warmup_ready_timeout c;
  in_warmup_health_check_polling_interval := warmup_health_check_polling_interval c;
  in_warmup_skip_health_check := warmup_skip_health_check c;
  in_idle_timeout := idle_timeout c;
  in_drain_timeout := drain_timeout c;
  in_acquire_min_remaining_ttl := Some (acquire_min_remaining_ttl c);
  in_max_acquire_retries := max_acquire_retries c;
|}.

Definition set_input_max_idle (n : Z) (i : PoolConfigInput) : PoolConfigInput := {|
  in_pool_name := in_pool_name i;
  in_max_idle := n;
  in_owner_id := in_owner_id i;
  in_warmup_concurrency := in_warmup_concurrency i;
  in_primary_lock_ttl := in_primary_lock_ttl i;
  in_reconcile_interval := in_reconcile_interval i;
  in_degraded_threshold := in_degraded_threshold i;
  in_acquire_ready_timeout := in_acquire_ready_timeout i;
  in_acquire_health_check_polling_interval := in_acquire_health_check_polling_interval i;
  in_acquire_skip_health_check := in_acquire_skip_health_check i;
  in_warmup_ready_timeout := in_warmup_ready_timeout i;
  in_warmup_health_check_polling_interval := in_warmup_health_check_polling_interval i;
  in_warmup_skip_health_check := in_warmup_skip_health_check i;
  in_idle_timeout := in_idle_timeout i;
  in_drain_timeout := in_drain_timeout i;
  in_acquire_min_remaining_ttl := in_acquire_min_remaining_ttl i;
  in_max_acquire_retries := in_max_acquire_retries i;
|}.

Definition with_max_idle (uuid : string) (n : Z) (c : PoolConfig) : res exc PoolConfig :=
  PoolConfig_post_init uuid (set_input_max_idle n (to_input c)).

(** ** The [PoolStateStore] protocol

    A store keeps its state in [St].  The two near-expiry methods are
    optional: a store that predates them has [None], which is what
    [getattr(store, name, None)] finds. *)
Class PoolStateStore (St : Type) := {
  try_take_idle : string -> M St exc (option string);
  put_idle : string -> string -> M St exc unit;
  remove_idle : string -> string -> M St exc unit;
  try_acquire_primary_lock : string -> string -> Z -> M St exc bool;
  renew_primary_lock : string -> string -> Z -> M St exc bool;
  release_primary_lock : string -> string -> M St exc unit;
  reap_expired_idle : string -> Z -> M St exc unit;
  snapshot_counters : string -> M St exc StoreCounters;
  snapshot_idle_entries : string -> M St exc (list IdleEntry);
  get_max_idle : string -> M St exc (option Z);
  set_max_idle : string -> Z -> M St exc unit;
  set_idle_entry_ttl : string -> Z -> M St exc unit;
  get_destroy_state : string -> M St exc PoolDestroyState;
  begin_destroy : string -> string -> M St exc unit;
  clear_pool_state : string -> M St exc unit;
  mark_destroyed : string -> string -> option Z -> M St exc unit;
  try_take_idle_min_ttl : option (string -> Z -> M St exc TakeIdleResult);
  reap_expired_idle_min_ttl : option (string -> Z -> Z -> M St exc (list string));
}.

Section store_helpers.
Context {St : Type} `{!PoolStateStore St}.

Definition plain_take (pool : string) : M St exc TakeIdleResult :=
  id <-- try_take_idle pool ;;
  ret {| ti_sandbox_id := id; ti_discarded_alive := [] |}.

Definition try_take_idle_with_min_ttl (pool : string) (min_ttl : option Z)
  : M St exc TakeIdleResult :=
  match min_ttl with
  | None => plain_take pool
  | Some ttl =>
      if ttl <=? 0 then plain_take pool
      else match try_take_idle_min_ttl with
           | Some method => method pool ttl
           | None => plain_take pool
           end
  end.

Definition plain_reap (pool : string) (now : Z) : M St exc (list string) :=
  reap_expired_idle pool now ;;; ret [].

Definition reap_expired_idle_with_min_ttl (pool : string) (now : Z) (min_ttl : option Z)
  : M St exc (list string) :=
  match min_ttl with
  | None => plain_reap pool now
  | Some ttl =>
      if ttl <=? 0 then plain_reap pool now
      else match reap_expired_idle_min_ttl with
           | Some method => method pool now ttl
           | None => plain_reap pool now
           end
  end.
End store_helpers.

(** What a client of a store relies on: a well-formedness invariant, the ids
    idle in a pool, and how taking and the destroy fence act on them. *)
Class PoolStoreLaws (St : Type) `{!PoolStateStore St} := {
  st_wf : St -> Prop;
  idle_ids : St -> string -> list string;
  (** the namespace is being destroyed and its marker does not expire *)
  fenced : St -> string -> Prop;
  (** a tombstone is written for the namespace *)
  tombstoned : St -> string -> Prop;
  law_take : forall pool s, st_wf s ->
    wp (try_take_idle pool) (fun r s' =>
      st_wf s' /\ (fenced s pool -> fenced s' pool) /\
      match r with
      | Ok (Some id) => id ∈ idle_ids s pool /\ (id ∉ idle_ids s' pool) /\
                        idle_ids s' pool ⊆ idle_ids s pool /\
                        (length (idle_ids s' pool) < length (idle_ids s pool))%nat
      | Ok None => idle_ids s' pool = []
      | Raise _ => idle_ids s' pool ⊆ idle_ids s pool
      end) s;
  law_begin_destroy : forall pool owner s, st_wf s ->
    wp (begin_destroy pool owner) (fun r s' =>
      st_wf s' /\ idle_ids s' pool = idle_ids s pool /\
      match r with Ok _ => fenced s' pool | Raise _ => True end) s;
  (** the fence: no put gets through once the namespace is being destroyed *)
  law_fenced_put : forall pool id s, st_wf s -> fenced s pool ->
    wp (put_idle pool id) (fun r s' =>
      is_ok r = false /\ st_wf s' /\ fenced s' pool /\ idle_ids s' pool = idle_ids s pool) s;
  law_destroy_state : forall pool s, st_wf s ->
    wp (get_destroy_state pool) (fun _ s' => st_wf s' /\ idle_ids s' pool = idle_ids s pool) s;
  law_clear : forall pool s, st_wf s ->
    wp (clear_pool_state pool) (fun r s' =>
      st_wf s' /\ (fenced s pool -> fenced s' pool) /\
      match r with Ok _ => idle_ids s' pool = [] | Raise _ => True end) s;
  law_mark_destroyed : forall pool owner ttl s, st_wf s ->
    wp (mark_destroyed pool owner ttl) (fun r s' =>
      st_wf s' /\ idle_ids s' pool = idle_ids s pool /\
      match r with Ok _ => tombstoned s' pool | Raise _ => True end) s;
}.

(** ** Theorems *)

Record valid_config (c : PoolConfig) : Prop := {
  vc_pool_name : is_blank (pool_name c) = false;
  vc_owner_id : is_blank (owner_id c) = false;
  vc_max_idle : 0 <= max_idle c;
  vc_warmup_concurrency : 0 < warmup_concurrency c;
  vc_degraded_threshold : 0 < degraded_threshold c;
  vc_primary_lock_ttl : 0 < primary_lock_ttl c;
  vc_reconcile_interval : 0 < reconcile_interval c;
  vc_acquire_ready_timeout : 0 < acquire_ready_timeout c;
  vc_acquire_polling : 0 < acquire_health_check_polling_interval c;
  vc_warmup_ready_timeout : 0 < warmup_ready_timeout c;
  vc_warmup_polling : 0 < warmup_health_check_polling_interval c;
  vc_idle_timeout : 0 < idle_timeout c;
  vc_drain_timeout : 0 <= drain_timeout c;
  vc_max_acquire_retries : 1 <= max_acquire_retries c;
  vc_min_ttl : 0 <= acquire_min_remaining_ttl c < idle_timeout c;
}.

Definition set_config_max_idle (n : Z) (c : PoolConfig) : PoolConfig := {|
  pool_name := pool_name c;
  max_idle := n;
  owner_id := owner_id c;
  warmup_concurrency := warmup_concurrency c;
  primary_lock_ttl := primary_lock_ttl c;
  reconcile_interval := reconcile_interval c;
  degraded_threshold := degraded_threshold c;
  acquire_ready_timeout := acquire_ready_timeout c;
  acquire_health_check_polling_interval := acquire_health_check_polling_interval c;
  acquire_skip_health_check := acquire_skip_health_check c;
  warmup_ready_timeout := warmup_ready_timeout c;
  warmup_health_check_polling_interval := warmup_health_check_polling_interval c;
  warmup_skip_health_check := warmup_skip_health_check c;
  idle_timeout := idle_timeout c;
  drain_timeout := drain_timeout c;
  acquire_min_remaining_ttl := acquire_min_remaining_ttl c;
  max_acquire_retries := max_acquire_retries c;
|}.

Lemma checks_ok l : checks l = Ok tt <-> Forall (fun r => r = Ok tt) l.
Proof.
  induction l as [|[[]|e] l IH]; simpl.
  - split; [constructor|done].
  - rewrite IH. split; [by constructor|by inversion 1].
  - split; [done|by inversion 1].
Qed.

Lemma checks_total l : checks l = Ok tt \/ exists e, checks l = Raise e.
Proof. induction l as [|[[]|e] l IH]; simpl; eauto. Qed.

Lemma require_ok b m : require b m = Ok tt <-> b = true.
Proof. by destruct b. Qed.

Lemma require_positive_ok v m : require_positive v m = Ok tt <-> 0 < v.
Proof. unfold require_positive. split_ifs; split; (done || bool_lia). Qed.

Lemma require_text_ok v m : require_text v m = Ok tt <-> is_blank v = false.
Proof. unfold require_text. by destruct (is_blank v). Qed.

Lemma require_min_ttl_ok t i :
  require_acquire_min_remaining_ttl t i = Ok tt <-> 0 <= t < i.
Proof.
  unfold require_acquire_min_remaining_ttl.
  rewrite checks_ok, !Forall_cons, Forall_nil, !require_ok, !negb_true_iff.
  rewrite Z.ltb_ge, Z.leb_gt. lia.
Qed.

#[export] Hint Rewrite checks_ok require_ok require_positive_ok require_text_ok
  require_min_ttl_ok : pool_checks.

Lemma half_even_lt n : 0 < n -> 0 <= half_even n < n.
Proof.
  intros Hn. unfold half_even.
  pose proof (Z.div_mod n 2 ltac:(lia)). pose proof (Z.mod_pos_bound n 2 ltac:(lia)).
  split_ifs; try bool_lia.
  rewrite <- Z.negb_odd, negb_false_iff in E0. apply Z.odd_spec in E0 as [k Hk].
  bool_lia.
Qed.

(** The default near-expiry threshold is scaled so that it never triggers
    the configuration error its docstring excludes (it stays non-negative and
    below the idle time-out), and it never exceeds 60 s. *)
Theorem default_min_ttl_bounds idle :
  0 < idle ->
  0 <= default_acquire_min_remaining_ttl idle < idle /\
  default_acquire_min_remaining_ttl idle <= seconds 60.
Proof.
  intros H. pose proof (half_even_lt _ H).
  unfold default_acquire_min_remaining_ttl, DEFAULT_ACQUIRE_MIN_REMAINING_TTL_CAP, seconds.
  split_ifs; bool_lia.
Qed.

Lemma default_min_ttl_witness :
  0 < seconds 30 /\
  (0 <= default_acquire_min_remaining_ttl (seconds 30) < seconds 30 /\
   default_acquire_min_remaining_ttl (seconds 30) <= seconds 60).
Proof.
  split; [unfold seconds; lia|].
  apply (default_min_ttl_bounds (seconds 30)). unfold seconds. lia.
Defined.

Lemma ceil_fifth_examples :
  ceil_fifth 0 = Some 0 /\ ceil_fifth 10 = Some 2 /\ ceil_fifth 36 = Some 8.
Proof. vm_compute. done. Qed.

(** Whatever [__post_init__] accepts satisfies every constraint the pool
    relies on, with the owner, the warm-up concurrency and the near-expiry
    threshold resolved. *)
Theorem PoolConfig_post_init_valid uuid i c :
  PoolConfig_post_init uuid i = Ok c -> valid_config c.
Proof.
  unfold PoolConfig_post_init. intros H.
  match type of H with context [match ?w with Some _ => _ | None => _ end] =>
    destruct w as [wc|]; [|done] end.
  match type of H with context [checks ?l] => destruct (checks_total l) as [Hc|[e He]] end.
  - rewrite Hc in H. injection H as <-.
    autorewrite with pool_checks in Hc. rewrite !Forall_cons in Hc.
    autorewrite with pool_checks in Hc. destruct_and!.
    constructor; simpl; (done || bool_lia).
  - by rewrite He in H.
Qed.

(** [with_max_idle] re-runs the validation and changes only [max_idle]: a
    valid configuration resized to [n] is accepted exactly for [n >= 0]. *)
Theorem with_max_idle_spec uuid n c :
  valid_config c ->
  with_max_idle uuid n c =
    if n <? 0 then Raise (ValueError "max_idle must be >= 0")
    else Ok (set_config_max_idle n c).
Proof.
  intros [].
  assert ((owner_id c =? "")%string = false) as Ho.
  { apply String.eqb_neq. intros He. by rewrite He in vc_owner_id0. }
  unfold with_max_idle, PoolConfig_post_init, to_input, set_input_max_idle.
  cbn -[checks require_text]. rewrite Ho. cbn -[checks require_text].
  destruct (n <? 0) eqn:Hn.
  - by rewrite !(proj2 (require_text_ok _ _)) by done.
  - match goal with |- context [checks ?l] => assert (checks l = Ok tt) as -> end; [|done].
    autorewrite with pool_checks. rewrite !Forall_cons. autorewrite with pool_checks.
    split_and!; try (done || bool_lia); by constructor.
Qed.

(** ** Witnesses *)

Definition demo_input : PoolConfigInput := {|
  in_pool_name := "demo"; in_max_idle := 10; in_owner_id := None;
  in_warmup_concurrency := None; in_primary_lock_ttl := seconds 60;
  in_reconcile_interval := seconds 30; in_degraded_threshold := 3;
  in_acquire_ready_timeout := seconds 30;
  in_acquire_health_check_polling_interval := milliseconds 200;
  in_acquire_skip_health_check := false;
  in_warmup_ready_timeout := seconds 30;
  in_warmup_health_check_polling_interval := milliseconds 200;
  in_warmup_skip_health_check := false;
  in_idle_timeout := seconds 86400; in_drain_timeout := seconds 30;
  in_acquire_min_remaining_ttl := None; in_max_acquire_retries := 3;
|}.

Definition demo_config : PoolConfig := {|
  pool_name := "demo"; max_idle := 10; owner_id := "pool-owner-u1";
  warmup_concurrency := 2; primary_lock_ttl := seconds 60;
  reconcile_interval := seconds 30; degraded_threshold := 3;
  acquire_ready_timeout := seconds 30;
  acquire_health_check_polling_interval := milliseconds 200;
  acquire_skip_health_check := false;
  warmup_ready_timeout := seconds 30;
  warmup_health_check_polling_interval := milliseconds 200;
  warmup_skip_health_check := false;
  idle_timeout := seconds 86400; drain_timeout := seconds 30;
  acquire_min_remaining_ttl := seconds 60; max_acquire_retries := 3;
|}.

Lemma PoolConfig_post_init_witness :
  PoolConfig_post_init "u1" demo_input = Ok demo_config /\ valid_config demo_config.
Proof.
  split; [vm_compute; reflexivity|].
  apply (PoolConfig_post_init_valid "u1" demo_input). vm_compute. reflexivity.
Defined.

Lemma demo_config_valid : valid_config demo_config.
Proof. constructor; vm_compute; (done || (split; done)). Qed.

Lemma with_max_idle_witness :
  with_max_idle "u2" (-1) demo_config = Raise (ValueError "max_idle must be >= 0") /\
  with_max_idle "u2" 4 demo_config = Ok (set_config_max_idle 4 demo_config).
Proof.
  split.
  - exact (with_max_idle_spec "u2" (-1) demo_config demo_config_valid).
  - exact (with_max_idle_spec "u2" 4 demo_config demo_config_valid).
Defined.
