(* ===== verification/PoolStore.v ===== *)
(** * In-memory pool store

    [sdks/sandbox/python/src/opensandbox/_pool_store.py],
    [InMemoryPoolStateStore].  Every method body runs under the store's
    re-entrant lock, so one method call is one atomic step on the state and an
    interleaving of threads is a sequence of calls.  [_now()] reads a clock
    that is part of the state: reading [n] is [clock n]. *)

From Stdlib Require Import ZArith Lia String.
From stdpp Require Import base numbers strings gmap list.
From S2P Require Import Prelude PyString PoolTypes.

Open Scope string_scope.
Open Scope Z_scope.

(** ** State *)

Record PoolIdleState := mkIdle {
  entries : list (string * IdleEntry);
  queue : list string;
}.

Record DestroyStateEntry := {
  dse_state : PoolDestroyState;
  dse_expires_at : option Z;
  dse_owner_id : string;
}.

Record InMemoryPoolStateStore := mkStore {
  default_idle_ttl : Z;
  idle_ttl_by_pool : gmap string Z;
  destroy_state_by_pool : gmap string DestroyStateEntry;
  pools : gmap string PoolIdleState;
  clock : nat -> Z;
  tick : nat;
}.

Definition set_idle_ttls (m : gmap string Z) (s : InMemoryPoolStateStore) :=
  mkStore (default_idle_ttl s) m (destroy_state_by_pool s) (pools s) (clock s) (tick s).
Definition set_destroys (m : gmap string DestroyStateEntry) (s : InMemoryPoolStateStore) :=
  mkStore (default_idle_ttl s) (idle_ttl_by_pool s) m (pools s) (clock s) (tick s).
Definition set_pools (m : gmap string PoolIdleState) (s : InMemoryPoolStateStore) :=
  mkStore (default_idle_ttl s) (idle_ttl_by_pool s) (destroy_state_by_pool s) m (clock s) (tick s).
Definition set_tick (n : nat) (s : InMemoryPoolStateStore) :=
  mkStore (default_idle_ttl s) (idle_ttl_by_pool s) (destroy_state_by_pool s) (pools s) (clock s) n.

(** [InMemoryPoolStateStore()] *)
Definition init_store (clk : nat -> Z) : InMemoryPoolStateStore :=
  mkStore (seconds 86400) ∅ ∅ ∅ clk 0.

Local Abbreviation SM A := (M InMemoryPoolStateStore exc A).

(** ** Operations *)

Definition now_ : SM Z := fun s => (Ok (clock s (tick s)), set_tick (S (tick s)) s).

Definition put_pool (pool : string) (st : PoolIdleState) (s : InMemoryPoolStateStore) :=
  set_pools (<[pool := st]> (pools s)) s.

(** The [while state.queue] loop of [try_take_idle]. *)
Fixpoint take_loop (now : Z) (q : list string) (es : list (string * IdleEntry))
  : option string * PoolIdleState :=
  match q with
  | [] => (None, mkIdle es [])
  | id :: q =>
      match od_get id es with
      | None => take_loop now q es
      | Some e =>
          if now <? ie_expires_at e then (Some id, mkIdle (od_del id es) q)
          else take_loop now q (od_del id es)
      end
  end.

Definition im_try_take_idle (pool : string) : SM (option string) :=
  st <-- gets (fun s => pools s !! pool) ;;
  match st with
  | None => ret None
  | Some st =>
      now <-- now_ ;;
      let '(r, st') := take_loop now (queue st) (entries st) in
      modify (put_pool pool st') ;;; ret r
  end.

(** The loop of [try_take_idle_min_ttl]; [acc] is [discarded_alive]. *)
Fixpoint take_min_loop (now cutoff : Z) (acc : list string) (q : list string)
    (es : list (string * IdleEntry)) : TakeIdleResult * PoolIdleState :=
  match q with
  | [] => ({| ti_sandbox_id := None; ti_discarded_alive := acc |}, mkIdle es [])
  | id :: q =>
      match od_get id es with
      | None => take_min_loop now cutoff acc q es
      | Some e =>
          if cutoff <? ie_expires_at e then
            ({| ti_sandbox_id := Some id; ti_discarded_alive := acc |}, mkIdle (od_del id es) q)
          else
            take_min_loop now cutoff
              (if now <? ie_expires_at e then acc ++ [id] else acc)%list q (od_del id es)
      end
  end.

Definition im_try_take_idle_min_ttl (pool : string) (min_ttl : Z) : SM TakeIdleResult :=
  if min_ttl <=? 0 then
    id <-- im_try_take_idle pool ;;
    ret {| ti_sandbox_id := id; ti_discarded_alive := [] |}
  else
    st <-- gets (fun s => pools s !! pool) ;;
    match st with
    | None => ret {| ti_sandbox_id := None; ti_discarded_alive := [] |}
    | Some st =>
        now <-- now_ ;;
        let '(r, st') := take_min_loop now (now + min_ttl) [] (queue st) (entries st) in
        modify (put_pool pool st') ;;; ret r
    end.

Definition im_get_destroy_state (pool : string) : SM PoolDestroyState :=
  entry <-- gets (fun s => destroy_state_by_pool s !! pool) ;;
  match entry with
  | None => ret ACTIVE
  | Some e =>
      match dse_expires_at e with
      | None => ret (dse_state e)
      | Some t =>
          now <-- now_ ;;
          if t <=? now then
            modify (fun s => set_destroys (delete pool (destroy_state_by_pool s)) s) ;;;
            ret ACTIVE
          else ret (dse_state e)
      end
  end.

Definition reject_if_destroyed_locked (pool : string) : SM unit :=
  st <-- im_get_destroy_state pool ;;
  if bool_decide (st = ACTIVE) then ret tt else throw (PoolDestroyedException st).

Definition resolve_idle_ttl (pool : string) (s : InMemoryPoolStateStore) : Z :=
  default (default_idle_ttl s) (idle_ttl_by_pool s !! pool).

Definition im_put_idle (pool sandbox_id : string) : SM unit :=
  if is_blank sandbox_id then throw (ValueError "sandbox_id must not be blank")
  else
    reject_if_destroyed_locked pool ;;;
    st <-- gets (fun s => default (mkIdle [] []) (pools s !! pool)) ;;
    now <-- now_ ;;
    ttl <-- gets (resolve_idle_ttl pool) ;;
    let q := if od_mem sandbox_id (entries st) then queue st
             else (queue st ++ [sandbox_id])%list in
    let es := if od_mem sandbox_id (entries st) then entries st
              else od_set sandbox_id
                     {| ie_sandbox_id := sandbox_id; ie_expires_at := now + ttl |} (entries st) in
    modify (put_pool pool (mkIdle es q)).

Definition im_remove_idle (pool sandbox_id : string) : SM unit :=
  st <-- gets (fun s => pools s !! pool) ;;
  match st with
  | None => ret tt
  | Some st => modify (put_pool pool (mkIdle (od_del sandbox_id (entries st)) (queue st)))
  end.

Definition im_try_acquire_primary_lock (pool owner : string) (ttl : Z) : SM bool :=
  st <-- im_get_destroy_state pool ;; ret (bool_decide (st = ACTIVE)).

Definition im_renew_primary_lock (pool owner : string) (ttl : Z) : SM bool :=
  st <-- im_get_destroy_state pool ;; ret (bool_decide (st = ACTIVE)).

Definition im_release_primary_lock (pool owner : string) : SM unit := ret tt.

(** [_reap_locked] on the record of one pool. *)
Definition reap_pool (now : Z) (st : PoolIdleState) : PoolIdleState :=
  let expired := filter (fun kv => bool_decide (ie_expires_at kv.2 <= now)) (entries st) in
  let es := foldl (fun es kv => od_del kv.1 es) (entries st) expired in
  match expired with
  | [] => mkIdle es (queue st)
  | _ => mkIdle es (filter (fun id => od_mem id es) (queue st))
  end.

Definition reap_locked (pool : string) (now : Z) : SM unit :=
  st <-- gets (fun s => pools s !! pool) ;;
  match st with
  | None => ret tt
  | Some st => modify (put_pool pool (reap_pool now st))
  end.

Definition im_reap_expired_idle (pool : string) (now : Z) : SM unit := reap_locked pool now.

(** One pass of the [for] loop of [reap_expired_idle_min_ttl]. *)
Definition reap_min_step (now cutoff : Z) (acc : list string * list (string * IdleEntry))
    (kv : string * IdleEntry) : list string * list (string * IdleEntry) :=
  let '(discarded, es) := acc in
  if cutoff <? ie_expires_at kv.2 then (discarded, es)
  else ((if now <? ie_expires_at kv.2 then discarded ++ [kv.1] else discarded)%list,
        od_del kv.1 es).

Definition reap_min_pool (now cutoff : Z) (st : PoolIdleState) : list string * PoolIdleState :=
  let '(discarded, es) := foldl (reap_min_step now cutoff) ([], entries st) (entries st) in
  (discarded, mkIdle es (filter (fun id => od_mem id es) (queue st))).

Definition im_reap_expired_idle_min_ttl (pool : string) (now min_ttl : Z) : SM (list string) :=
  if min_ttl <=? 0 then im_reap_expired_idle pool now ;;; ret []
  else
    st <-- gets (fun s => pools s !! pool) ;;
    match st with
    | None => ret []
    | Some st =>
        let '(discarded, st') := reap_min_pool now (now + min_ttl) st in
        modify (put_pool pool st') ;;; ret discarded
    end.

Definition im_snapshot_counters (pool : string) : SM StoreCounters :=
  now <-- now_ ;;
  reap_locked pool now ;;;
  st <-- gets (fun s => pools s !! pool) ;;
  ret {| sc_idle_count := match st with
                          | None => 0
                          | Some st => Z.of_nat (length (entries st))
                          end |}.

Definition im_snapshot_idle_entries (pool : string) : SM (list IdleEntry) :=
  now <-- now_ ;;
  reap_locked pool now ;;;
  st <-- gets (fun s => pools s !! pool) ;;
  ret match st with
      | None => []
      | Some st => omap (fun id => od_get id (entries st)) (queue st)
      end.

Definition im_get_max_idle (pool : string) : SM (option Z) := ret None.

Definition im_set_max_idle (pool : string) (n : Z) : SM unit :=
  reject_if_destroyed_locked pool ;;; ret tt.

Definition im_set_idle_entry_ttl (pool : string) (ttl : Z) : SM unit :=
  if ttl <=? 0 then throw (ValueError "idle_ttl must be positive")
  else
    reject_if_destroyed_locked pool ;;;
    modify (fun s => set_idle_ttls (<[pool := ttl]> (idle_ttl_by_pool s)) s).

Definition im_begin_destroy (pool owner : string) : SM unit :=
  if is_blank owner then throw (ValueError "owner_id must not be blank")
  else
    existing <-- im_get_destroy_state pool ;;
    if bool_decide (existing = DESTROYED) then throw (PoolDestroyedException DESTROYED)
    else modify (fun s => set_destroys
           (<[pool := {| dse_state := DESTROYING; dse_expires_at := None;
                         dse_owner_id := owner |}]> (destroy_state_by_pool s)) s).

Definition im_clear_pool_state (pool : string) : SM unit :=
  modify (fun s => set_idle_ttls (delete pool (idle_ttl_by_pool s))
                     (set_pools (delete pool (pools s)) s)).

Definition im_mark_destroyed (pool owner : string) (tombstone_ttl : option Z) : SM unit :=
  if is_blank owner then throw (ValueError "owner_id must not be blank")
  else match tombstone_ttl with
  | None =>
      modify (fun s => set_destroys
        (<[pool := {| dse_state := DESTROYED; dse_expires_at := None;
                      dse_owner_id := owner |}]> (destroy_state_by_pool s)) s)
  | Some ttl =>
      if ttl <=? 0 then throw (ValueError "tombstone_ttl must be positive")
      else
        now <-- now_ ;;
        modify (fun s => set_destroys
          (<[pool := {| dse_state := DESTROYED; dse_expires_at := Some (now + ttl);
                        dse_owner_id := owner |}]> (destroy_state_by_pool s)) s)
  end.

#[global] Instance InMemory_store : PoolStateStore InMemoryPoolStateStore := {
  try_take_idle := im_try_take_idle;
  put_idle := im_put_idle;
  remove_idle := im_remove_idle;
  try_acquire_primary_lock := im_try_acquire_primary_lock;
  renew_primary_lock := im_renew_primary_lock;
  release_primary_lock := im_release_primary_lock;
  reap_expired_idle := im_reap_expired_idle;
  snapshot_counters := im_snapshot_counters;
  snapshot_idle_entries := im_snapshot_idle_entries;
  get_max_idle := im_get_max_idle;
  set_max_idle := im_set_max_idle;
  set_idle_entry_ttl := im_set_idle_entry_ttl;
  get_destroy_state := im_get_destroy_state;
  begin_destroy := im_begin_destroy;
  clear_pool_state := im_clear_pool_state;
  mark_destroyed := im_mark_destroyed;
  try_take_idle_min_ttl := Some im_try_take_idle_min_ttl;
  reap_expired_idle_min_ttl := Some im_reap_expired_idle_min_ttl;
}.

(** ** The loops against a reference *)

(** The entry of [id] outlives [t]. *)
Definition outlives (t : Z) (es : list (string * IdleEntry)) (id : string) : bool :=
  match od_get id es with Some e => t <? ie_expires_at e | None => false end.

(** The entry of [id] is alive at [now] but not beyond [cutoff]. *)
Definition near_expiry (now cutoff : Z) (es : list (string * IdleEntry)) (id : string) : bool :=
  outlives now es id && negb (outlives cutoff es id).

Definition od_del_all {V} (ids : list string) (es : list (string * V)) : list (string * V) :=
  filter (fun kv => kv.1 ∉ ids) es.

Lemma od_del_all_get {V} ids (es : list (string * V)) k :
  od_get k (od_del_all ids es) = if decide (k ∈ ids) then None else od_get k es.
Proof.
  unfold od_del_all. induction es as [|[k' v] es IH]; csimpl; [by case_decide|].
  rewrite filter_cons. simpl. repeat (case_decide; csimpl); naive_solver.
Qed.

Lemma od_del_all_cons {V} id ids (es : list (string * V)) :
  od_del_all ids (od_del id es) = od_del_all (id :: ids) es.
Proof.
  unfold od_del_all, od_del. rewrite list_filter_filter.
  apply list_filter_iff. intros kv. set_solver.
Qed.

Lemma outlives_del_ne t es id x :
  x ≠ id -> outlives t (od_del id es) x = outlives t es x.
Proof. intros. unfold outlives. by rewrite od_get_del_ne. Qed.

Lemma outlives_del_eq t es id : outlives t (od_del id es) id = false.
Proof. unfold outlives. by rewrite od_get_del_eq. Qed.

Lemma near_expiry_del now cutoff es id x :
  near_expiry now cutoff (od_del id es) x = true <->
  x ≠ id /\ near_expiry now cutoff es x = true.
Proof.
  unfold near_expiry. destruct (decide (x = id)) as [->|Hne].
  - rewrite !outlives_del_eq. naive_solver.
  - rewrite !outlives_del_ne by done. naive_solver.
Qed.

(** What one run of the near-expiry loop does: it pops a prefix of the queue
    none of whose ids outlives the cutoff, drops the entries of everything it
    pops, reports exactly the popped ids that are still alive (each once), and
    stops at the first id that outlives the cutoff. *)
Definition take_min_result now cutoff acc q es (r : TakeIdleResult) (st : PoolIdleState) : Prop :=
  exists pre ds,
    match ti_sandbox_id r with
    | Some id => q = (pre ++ id :: queue st)%list /\ outlives cutoff es id = true /\
                 entries st = od_del_all (pre ++ [id]) es
    | None => pre = q /\ queue st = [] /\ entries st = od_del_all pre es
    end /\
    (forall x, x ∈ pre -> outlives cutoff es x = false) /\
    ti_discarded_alive r = (acc ++ ds)%list /\ NoDup ds /\
    (forall x, x ∈ ds <-> x ∈ pre /\ near_expiry now cutoff es x = true).

(** Popping an id that does not outlive the cutoff. *)
Lemma take_min_result_pop now cutoff acc id q es r st :
  outlives cutoff es id = false ->
  take_min_result now cutoff
    (if near_expiry now cutoff es id then acc ++ [id] else acc)%list q (od_del id es) r st ->
  take_min_result now cutoff acc (id :: q) es r st.
Proof.
  intros Hout (pre & ds & Hr & Hpre & Hds & Hnd & Hin).
  exists (id :: pre), (if near_expiry now cutoff es id then id :: ds else ds).
  assert (id ∉ ds) as Hid by (rewrite Hin, near_expiry_del; naive_solver).
  split_and!.
  - destruct (ti_sandbox_id r) as [i|].
    + destruct Hr as (-> & Ho & ->). rewrite od_del_all_cons. split_and!; [done| |done].
      destruct (decide (i = id)) as [->|]; [by rewrite outlives_del_eq in Ho|].
      by rewrite outlives_del_ne in Ho.
    + destruct Hr as (-> & -> & ->). by rewrite od_del_all_cons.
  - intros x [->|Hx]%elem_of_cons; [done|]. destruct (decide (x = id)) as [->|]; [done|].
    rewrite <- (Hpre x Hx). by rewrite outlives_del_ne.
  - rewrite Hds. destruct (near_expiry _ _ es id); [by rewrite <- app_assoc|done].
  - destruct (near_expiry _ _ es id); [by constructor|done].
  - intros x. destruct (near_expiry now cutoff es id) eqn:Hn;
      [rewrite !elem_of_cons|rewrite elem_of_cons]; rewrite Hin, near_expiry_del;
      (destruct (decide (x = id)) as [->|]; [rewrite Hn|]; intuition congruence).
Qed.

Lemma take_min_loop_spec now cutoff q : forall acc es,
  now <= cutoff ->
  let '(r, st) := take_min_loop now cutoff acc q es in
  take_min_result now cutoff acc q es r st.
Proof.
  induction q as [|id q IH]; intros acc es Hle; simpl.
  - exists [], []. simpl. rewrite app_nil_r.
    split_and!; try done; [|set_solver|constructor|set_solver].
    unfold od_del_all. symmetry. induction es as [|kv es IHes]; [done|].
    rewrite filter_cons_True by set_solver. by f_equal.
  - destruct (od_get id es) as [e|] eqn:Hid.
    + destruct (cutoff <? ie_expires_at e) eqn:Hc.
      * exists [], []. simpl. rewrite app_nil_r.
        assert (outlives cutoff es id = true) by (unfold outlives; by rewrite Hid).
        split_and!; try done; [|set_solver|constructor|set_solver].
        unfold od_del_all, od_del. apply list_filter_iff. set_solver.
      * specialize (IH (if now <? ie_expires_at e then acc ++ [id] else acc)%list
                      (od_del id es) Hle).
        destruct (take_min_loop _ _ _ q _) as [r st].
        assert (outlives cutoff es id = false) by (unfold outlives; by rewrite Hid).
        apply take_min_result_pop; [done|].
        unfold near_expiry, outlives. rewrite Hid, Hc, andb_true_r. done.
    + specialize (IH acc es Hle). destruct (take_min_loop _ _ _ q _) as [r st].
      assert (outlives cutoff es id = false) as Ho by (unfold outlives; by rewrite Hid).
      apply take_min_result_pop; [done|].
      unfold near_expiry, outlives. rewrite Hid. simpl. by rewrite od_del_not_in.
Qed.

(** The plain loop is the near-expiry loop with the cutoff at the present. *)
Lemma take_loop_min now q : forall acc es,
  take_min_loop now now acc q es =
  let '(r, st) := take_loop now q es in
  ({| ti_sandbox_id := r; ti_discarded_alive := acc |}, st).
Proof.
  induction q as [|id q IH]; intros acc es; simpl; [done|].
  destruct (od_get id es) as [e|]; [|done].
  destruct (now <? ie_expires_at e) eqn:E; [done|]. by rewrite IH.
Qed.

(** ** Reaping against a reference *)

Lemma foldl_od_del (l es : list (string * IdleEntry)) :
  foldl (fun es kv => od_del kv.1 es) es l = od_del_all l.*1 es.
Proof.
  revert es. induction l as [|kv l IH]; intros es; csimpl.
  - unfold od_del_all. symmetry. induction es as [|x es IHes]; [done|].
    rewrite filter_cons_True by set_solver. by f_equal.
  - by rewrite IH, od_del_all_cons.
Qed.

Lemma reap_min_foldl now cutoff (l : list (string * IdleEntry)) : forall ds es,
  foldl (reap_min_step now cutoff) (ds, es) l =
  ((ds ++ (filter (fun kv => now < ie_expires_at kv.2 <= cutoff) l).*1)%list,
   od_del_all (filter (fun kv => ie_expires_at kv.2 <= cutoff) l).*1 es).
Proof.
  induction l as [|kv l IH]; intros ds es; csimpl.
  - rewrite app_nil_r. f_equal. apply (foldl_od_del []).
  - rewrite !filter_cons.
    destruct (Z.ltb_spec cutoff (ie_expires_at kv.2)).
    + rewrite !decide_False by lia. apply IH.
    + rewrite (decide_True (P := _ <= _)) by lia. rewrite IH. csimpl.
      rewrite od_del_all_cons.
      destruct (Z.ltb_spec now (ie_expires_at kv.2)).
      * rewrite decide_True by lia. csimpl. by rewrite <- app_assoc.
      * by rewrite decide_False by lia.
Qed.

Lemma od_elem_filter_keys (P : string * IdleEntry -> Prop) `{!forall x, Decision (P x)} es k :
  od_wf es ->
  k ∈ (filter P es).*1 <-> exists e, od_get k es = Some e /\ P (k, e).
Proof.
  intros Hwf. rewrite list_elem_of_fmap. split.
  - intros ([k' e] & -> & [HP Hin]%list_elem_of_filter). exists e.
    split; [by apply od_elem_get|done].
  - intros (e & He & HP). exists (k, e). split; [done|].
    apply list_elem_of_filter. split; [done|]. by apply od_get_elem.
Qed.

Lemma od_wf_filter {V} (P : string * V -> Prop) `{!forall x, Decision (P x)} es :
  od_wf es -> od_wf (filter P es).
Proof.
  intros Hes. eapply sublist_NoDup; [exact Hes|]. apply fmap_sublist, sublist_filter.
Qed.

Lemma od_del_all_wf {V} ids (es : list (string * V)) : od_wf es -> od_wf (od_del_all ids es).
Proof. apply od_wf_filter. Qed.

(** ** Well-formedness *)

(** The keys of [entries] do not repeat, an entry carries its own key, and
    every entry is still reachable through the queue. *)
Definition wf_idle (st : PoolIdleState) : Prop :=
  od_wf (entries st) /\
  forall k e, od_get k (entries st) = Some e -> k ∈ queue st /\ ie_sandbox_id e = k.

Definition store_wf (s : InMemoryPoolStateStore) : Prop :=
  forall pool st, pools s !! pool = Some st -> wf_idle st.

Definition members (s : InMemoryPoolStateStore) (pool : string) : list string :=
  match pools s !! pool with Some st => (entries st).*1 | None => [] end.

Lemma wf_take_min now cutoff acc st r st' :
  wf_idle st -> take_min_result now cutoff acc (queue st) (entries st) r st' -> wf_idle st'.
Proof.
  intros [Hnd Hq] (pre & ds & Hr & _).
  assert (exists popped, queue st = (popped ++ queue st')%list /\
            entries st' = od_del_all popped (entries st)) as (popped & Hp & He).
  { destruct (ti_sandbox_id r) as [id|].
    - destruct Hr as (-> & _ & He). exists (pre ++ [id])%list. by rewrite <- app_assoc.
    - destruct Hr as (-> & -> & He). exists (queue st). by rewrite app_nil_r. }
  split; [rewrite He; by apply od_del_all_wf|].
  intros k e. rewrite He, od_del_all_get. case_decide as Hk; [done|].
  intros [Hin ?]%Hq. rewrite Hp in Hin. set_solver.
Qed.

Lemma wf_reap now st : wf_idle st -> wf_idle (reap_pool now st).
Proof.
  intros [Hnd Hq]. unfold reap_pool. rewrite foldl_od_del. set (ex := filter _ _).
  assert (forall k e, od_get k (od_del_all ex.*1 (entries st)) = Some e ->
            od_get k (entries st) = Some e) as Hsub.
  { intros k e. rewrite od_del_all_get. by case_decide. }
  assert (forall q, (forall k, k ∈ queue st -> od_mem k (od_del_all ex.*1 (entries st)) ->
            k ∈ q) -> wf_idle (mkIdle (od_del_all ex.*1 (entries st)) q)) as Hgoal.
  { intros q Hqq. split; [by apply od_del_all_wf|]. simpl. intros k e Hk.
    destruct (Hq k e (Hsub _ _ Hk)) as [Hin He]. split; [|done]. apply Hqq; [done|].
    apply Is_true_true, od_mem_spec. eauto. }
  destruct ex; apply Hgoal; [done|]. intros k Hin Hm. apply list_elem_of_filter. done.
Qed.

Lemma reap_min_pool_unfold now cutoff st :
  reap_min_pool now cutoff st =
  ((filter (fun kv => now < ie_expires_at kv.2 <= cutoff) (entries st)).*1,
   let es := od_del_all (filter (fun kv => ie_expires_at kv.2 <= cutoff) (entries st)).*1
               (entries st) in
   mkIdle es (filter (fun id => od_mem id es) (queue st))).
Proof. unfold reap_min_pool. by rewrite reap_min_foldl. Qed.

Lemma wf_reap_min now cutoff st : wf_idle st -> wf_idle (reap_min_pool now cutoff st).2.
Proof.
  intros [Hnd Hq]. rewrite reap_min_pool_unfold. simpl. set (ids := (filter _ _).*1).
  split; simpl; [by apply od_del_all_wf|]. intros k e Hk.
  assert (od_get k (entries st) = Some e) as Hk'.
  { rewrite od_del_all_get in Hk. by case_decide. }
  destruct (Hq _ _ Hk') as [Hin He]. split; [|done]. apply list_elem_of_filter.
  split; [|done]. apply Is_true_true, od_mem_spec. eauto.
Qed.

Lemma wf_put st id e :
  wf_idle st -> od_get id (entries st) = None -> ie_sandbox_id e = id ->
  wf_idle (mkIdle (od_set id e (entries st)) (queue st ++ [id])).
Proof.
  intros [Hnd Hq] Hn He. split; simpl; [auto with osb|].
  intros k e'. destruct (decide (k = id)) as [->|Hne].
  - rewrite od_get_set_eq. intros [= <-]. set_solver.
  - rewrite od_get_set_ne by done. intros [? ?]%Hq. set_solver.
Qed.

Lemma wf_remove st id : wf_idle st -> wf_idle (mkIdle (od_del id (entries st)) (queue st)).
Proof.
  intros [Hnd Hq]. split; simpl; [auto with osb|].
  intros k e Hk. destruct (decide (k = id)) as [->|Hne].
  - by rewrite od_get_del_eq in Hk.
  - rewrite od_get_del_ne in Hk by done. by apply Hq.
Qed.

Lemma wf_put_pool s pool st : store_wf s -> wf_idle st -> store_wf (put_pool pool st s).
Proof.
  intros Hs Hst p st'. simpl. destruct (decide (p = pool)) as [->|Hne].
  - rewrite lookup_insert_eq. by intros [= <-].
  - rewrite lookup_insert_ne by done. apply Hs.
Qed.

Lemma wf_empty : wf_idle (mkIdle [] []).
Proof. split; [constructor|done]. Qed.

#[export] Hint Resolve wf_take_min wf_reap wf_reap_min wf_put wf_remove wf_put_pool wf_empty : osb.

(** ** The ledger of a store

    [Put pool id]: a [put_idle] that returned.  [Handed pool id]: [id] was
    given to a caller, either to be used or, as a near-expiry discard, to be
    killed. *)
Inductive ledger_event := Put (pool id : string) | Handed (pool id : string).

#[global] Instance ledger_event_eq_dec : EqDecision ledger_event.
Proof. solve_decision. Defined.

(** One call of the store's interface. *)
Inductive store_op :=
  | OpTake (pool : string)
  | OpTakeMin (pool : string) (ttl : Z)
  | OpPut (pool id : string)
  | OpRemove (pool id : string)
  | OpAcquireLock (pool owner : string) (ttl : Z)
  | OpRenewLock (pool owner : string) (ttl : Z)
  | OpReleaseLock (pool owner : string)
  | OpReap (pool : string) (now : Z)
  | OpReapMin (pool : string) (now ttl : Z)
  | OpCounters (pool : string)
  | OpEntries (pool : string)
  | OpSetMaxIdle (pool : string) (n : Z)
  | OpSetTtl (pool : string) (ttl : Z)
  | OpGetDestroy (pool : string)
  | OpBeginDestroy (pool owner : string)
  | OpClear (pool : string)
  | OpMarkDestroyed (pool owner : string) (ttl : option Z).

Definition run_call {A} (m : SM A) (ev : A -> list ledger_event) (s : InMemoryPoolStateStore)
  : list ledger_event * InMemoryPoolStateStore :=
  match m s with
  | (Ok a, s') => (ev a, s')
  | (Raise _, s') => ([], s')
  end.

Definition run_op (op : store_op) : InMemoryPoolStateStore ->
    list ledger_event * InMemoryPoolStateStore :=
  match op with
  | OpTake p => run_call (im_try_take_idle p)
                  (fun r => match r with Some id => [Handed p id] | None => [] end)
  | OpTakeMin p ttl => run_call (im_try_take_idle_min_ttl p ttl)
      (fun r => (map (Handed p) (ti_discarded_alive r) ++
                 match ti_sandbox_id r with Some id => [Handed p id] | None => [] end)%list)
  | OpPut p id => run_call (im_put_idle p id) (fun _ => [Put p id])
  | OpRemove p id => run_call (im_remove_idle p id) (fun _ => [])
  | OpAcquireLock p o ttl => run_call (im_try_acquire_primary_lock p o ttl) (fun _ => [])
  | OpRenewLock p o ttl => run_call (im_renew_primary_lock p o ttl) (fun _ => [])
  | OpReleaseLock p o => run_call (im_release_primary_lock p o) (fun _ => [])
  | OpReap p now => run_call (im_reap_expired_idle p now) (fun _ => [])
  | OpReapMin p now ttl => run_call (im_reap_expired_idle_min_ttl p now ttl) (map (Handed p))
  | OpCounters p => run_call (im_snapshot_counters p) (fun _ => [])
  | OpEntries p => run_call (im_snapshot_idle_entries p) (fun _ => [])
  | OpSetMaxIdle p n => run_call (im_set_max_idle p n) (fun _ => [])
  | OpSetTtl p ttl => run_call (im_set_idle_entry_ttl p ttl) (fun _ => [])
  | OpGetDestroy p => run_call (im_get_destroy_state p) (fun _ => [])
  | OpBeginDestroy p o => run_call (im_begin_destroy p o) (fun _ => [])
  | OpClear p => run_call (im_clear_pool_state p) (fun _ => [])
  | OpMarkDestroyed p o ttl => run_call (im_mark_destroyed p o ttl) (fun _ => [])
  end.

Fixpoint run_ops (ops : list store_op) (s : InMemoryPoolStateStore)
  : list ledger_event * InMemoryPoolStateStore :=
  match ops with
  | [] => ([], s)
  | op :: ops =>
      let '(ev, s1) := run_op op s in
      let '(evs, s2) := run_ops ops s1 in
      ((ev ++ evs)%list, s2)
  end.

(** A call from [s] to [s'] with ledger events [ev]: ids handed out plus ids
    left are covered by ids put plus ids present before. *)
Definition balanced (s : InMemoryPoolStateStore) (ev : list ledger_event)
    (s' : InMemoryPoolStateStore) : Prop :=
  store_wf s' /\
  forall pool id,
    (count (Handed pool id) ev + count id (members s' pool) <=
     count (Put pool id) ev + count id (members s pool))%nat.

Lemma count_map_other {A B} `{EqDecision A, EqDecision B} (f : A -> B) (l : list A) b :
  (forall a, f a ≠ b) -> count b (map f l) = 0%nat.
Proof.
  intros Hf. induction l as [|a l IH]; simpl; [done|].
  rewrite count_cons, decide_False by apply Hf. done.
Qed.

Lemma count_map_inj {A B} `{EqDecision A, EqDecision B} (f : A -> B) `{!Inj (=) (=) f} l a :
  count (f a) (map f l) = count a l.
Proof.
  induction l as [|x l IH]; simpl; [done|]. rewrite !count_cons, IH. f_equal.
  destruct (decide (x = a)) as [->|Hne]; [by rewrite decide_True|].
  rewrite decide_False; [done|]. by intros ?%(inj f).
Qed.

#[global] Instance Handed_inj p : Inj (=) (=) (Handed p).
Proof. by intros ?? [=]. Qed.
#[global] Instance Put_inj p : Inj (=) (=) (Put p).
Proof. by intros ?? [=]. Qed.

Lemma members_pools s s' p : pools s' !! p = pools s !! p -> members s' p = members s p.
Proof. unfold members. by intros ->. Qed.

Lemma balanced_same s s' : store_wf s -> pools s' = pools s -> balanced s [] s'.
Proof.
  intros Hwf Hp. split; [unfold store_wf; by rewrite Hp|].
  intros p id. by rewrite (members_pools s s' p) by by rewrite Hp.
Qed.

Lemma balanced_pool s s' p st handed puts :
  store_wf s -> pools s' = <[p := st]> (pools s) -> wf_idle st ->
  (forall id, (count id handed + count id (entries st).*1 <=
               count id puts + count id (members s p))%nat) ->
  balanced s (map (Handed p) handed ++ map (Put p) puts) s'.
Proof.
  intros Hwf Hp Hst Hc. split.
  { intros q st'. rewrite Hp. destruct (decide (q = p)) as [->|].
    - rewrite lookup_insert_eq. by intros [= <-].
    - rewrite lookup_insert_ne by done. apply Hwf. }
  intros q id. rewrite !count_app. destruct (decide (q = p)) as [->|Hne].
  - rewrite !count_map_inj by apply _. rewrite !count_map_other by done.
    unfold members at 1. rewrite Hp, lookup_insert_eq. specialize (Hc id). lia.
  - rewrite !count_map_other by (by intros ? [=]).
    rewrite (members_pools s s') by (by rewrite Hp, lookup_insert_ne). lia.
Qed.

Lemma run_call_balanced {A} (m : SM A) ev s :
  wp m (fun r s' => balanced s (match r with Ok a => ev a | Raise _ => [] end) s') s ->
  balanced s (run_call m ev s).1 (run_call m ev s).2.
Proof. unfold wp, run_call. by destruct (m s) as [[a|e] s']. Qed.

Lemma wp_now (Q : res exc Z -> _ -> Prop) s :
  Q (Ok (clock s (tick s))) (set_tick (S (tick s)) s) -> wp now_ Q s.
Proof. done. Qed.

Lemma wp_get_destroy_state pool (Q : res exc PoolDestroyState -> _ -> Prop) s :
  (forall st s', pools s' = pools s -> Q (Ok st) s') ->
  wp (im_get_destroy_state pool) Q s.
Proof.
  intros HQ. unfold im_get_destroy_state. repeat wp_step.
  destruct (destroy_state_by_pool s !! pool) as [e|]; [|by wp_step; apply HQ].
  destruct (dse_expires_at e) as [t|]; [|by wp_step; apply HQ].
  unfold wp, bind, now_. split_ifs; by apply HQ.
Qed.

Lemma wp_reject pool (Q : res exc unit -> _ -> Prop) s :
  (forall r s', pools s' = pools s -> Q r s') -> wp (reject_if_destroyed_locked pool) Q s.
Proof.
  intros HQ. unfold reject_if_destroyed_locked. wp_step. apply wp_get_destroy_state.
  intros st s' Hs. case_bool_decide; wp_step; by apply HQ.
Qed.

Lemma count_members s p st id :
  pools s !! p = Some st -> count id (members s p) = count id (entries st).*1.
Proof. unfold members. by intros ->. Qed.

Lemma count_key_present (es : list (string * IdleEntry)) id e :
  od_wf es -> od_get id es = Some e -> count id es.*1 = 1%nat.
Proof.
  intros Hwf He. assert (0 < count id es.*1)%nat.
  { apply count_pos, od_get_is_Some. eauto. }
  pose proof (count_NoDup id es.*1 Hwf). lia.
Qed.

Lemma count_key_absent (es : list (string * IdleEntry)) id :
  od_get id es = None -> count id es.*1 = 0%nat.
Proof. intros Hn%od_get_None. rewrite <- count_pos in Hn. lia. Qed.

(** Counting keys when a sublist of the keys is removed. *)
Lemma count_del_all ids (es : list (string * IdleEntry)) id :
  od_wf es ->
  count id (od_del_all ids es).*1 =
  (if decide (id ∈ ids) then 0 else count id es.*1)%nat.
Proof.
  intros Hwf. pose proof (od_del_all_get ids es id) as Hg.
  destruct (decide (id ∈ ids)); [by apply count_key_absent|].
  destruct (od_get id es) as [e|] eqn:He.
  - rewrite (count_key_present es id e) by done.
    apply (count_key_present _ _ e); [by apply od_del_all_wf|done].
  - by rewrite !count_key_absent.
Qed.

(** Each id a take hands out leaves the entries and was there before. *)
Lemma take_min_count now cutoff st r st' id :
  now <= cutoff -> wf_idle st ->
  take_min_result now cutoff [] (queue st) (entries st) r st' ->
  (count id (ti_discarded_alive r ++
             match ti_sandbox_id r with Some i => [i] | None => [] end) +
   count id (entries st').*1 <= count id (entries st).*1)%nat.
Proof.
  intros Hle [Hwf _] (pre & ds & Hr & Hpre & Hds & Hnd & Hin).
  rewrite Hds. simpl. rewrite count_app.
  assert (Hpresent : forall t, outlives t (entries st) id = true ->
            count id (entries st).*1 = 1%nat).
  { intros t. unfold outlives. destruct (od_get id (entries st)) as [e|] eqn:He; [|done].
    intros _. by apply (count_key_present _ _ e). }
  pose proof (count_NoDup id ds Hnd) as Hds1. pose proof (count_pos id ds) as Hpos.
  rewrite Hin in Hpos. unfold near_expiry in Hpos. rewrite andb_true_iff in Hpos.
  destruct (ti_sandbox_id r) as [i|]; [destruct Hr as (_ & Hi & ->) | destruct Hr as (_ & _ & ->)];
    rewrite count_del_all by done.
  - rewrite count_cons. change (count id []) with 0%nat.
    destruct (decide (i = id)) as [->|Hne].
    + rewrite decide_True by set_solver. rewrite (Hpresent cutoff Hi).
      destruct (decide (0 < count id ds)%nat) as [H0|]; [|lia].
      apply Hpos in H0 as (_ & _ & H0). by rewrite Hi in H0.
    + destruct (decide (0 < count id ds)%nat) as [H0|].
      * apply Hpos in H0 as (Hp & Ha & _). rewrite (Hpresent now Ha).
        rewrite decide_True by set_solver. lia.
      * case_decide; lia.
  - change (count id []) with 0%nat. destruct (decide (0 < count id ds)%nat) as [H0|].
    + apply Hpos in H0 as (Hp & Ha & _). rewrite (Hpresent now Ha).
      rewrite decide_True by set_solver. lia.
    + case_decide; lia.
Qed.

(** The events of a result, with the failing calls recording none. *)
Abbreviation evs_of ev := (fun r => match r with Ok a => ev a | Raise _ => [] end).

Lemma bal_take pool s :
  store_wf s ->
  wp (im_try_take_idle pool)
     (fun r s' => balanced s
        (evs_of (fun r => match r with Some id => [Handed pool id] | None => [] end) r) s') s.
Proof.
  intros Hwf. unfold im_try_take_idle. repeat wp_step.
  destruct (pools s !! pool) as [st|] eqn:Hst; [|by wp_step; apply balanced_same].
  unfold wp, bind, now_. simpl.
  set (now := clock s (tick s)).
  pose proof (take_min_loop_spec now now (queue st) [] (entries st) (Z.le_refl _)) as Hspec.
  rewrite take_loop_min in Hspec. destruct (take_loop now _ _) as [r st'] eqn:E. simpl.
  pose proof (fun id => take_min_count now now st _ st' id (Z.le_refl _) (Hwf _ _ Hst) Hspec) as Hc.
  assert (wf_idle st') as Hst' by (eapply wf_take_min; [exact (Hwf _ _ Hst)|exact Hspec]).
  simpl in Hc.
  replace (match r with Some id => [Handed pool id] | None => [] end)
    with (map (Handed pool) (match r with Some i => [i] | None => [] end) ++ map (Put pool) [])%list
    by (by destruct r).
  eapply balanced_pool; [done|reflexivity|done|].
  intros id. rewrite (count_members s pool st id Hst). exact (Hc id).
Qed.

Lemma bal_take_min pool ttl s :
  store_wf s ->
  wp (im_try_take_idle_min_ttl pool ttl)
     (fun r s' => balanced s
        (evs_of (fun r => (map (Handed pool) (ti_discarded_alive r) ++
           match ti_sandbox_id r with Some id => [Handed pool id] | None => [] end)%list) r) s') s.
Proof.
  intros Hwf. unfold im_try_take_idle_min_ttl. destruct (Z.leb_spec ttl 0).
  { wp_step. eapply wp_mono; [by apply bal_take|]. by intros [[id|]|e] s'. }
  repeat wp_step. destruct (pools s !! pool) as [st|] eqn:Hst; [|by wp_step; apply balanced_same].
  unfold wp, bind, now_. simpl. set (now := clock s (tick s)).
  pose proof (take_min_loop_spec now (now + ttl) (queue st) [] (entries st) ltac:(lia)) as Hspec.
  destruct (take_min_loop _ _ _ _ _) as [r st'] eqn:E. simpl.
  pose proof (fun id => take_min_count now (now + ttl) st _ st' id ltac:(lia) (Hwf _ _ Hst) Hspec) as Hc.
  assert (wf_idle st') as Hst' by (eapply wf_take_min; [exact (Hwf _ _ Hst)|exact Hspec]).
  replace (map (Handed pool) (ti_discarded_alive r) ++
           match ti_sandbox_id r with Some id => [Handed pool id] | None => [] end)%list
    with (map (Handed pool) (ti_discarded_alive r ++
            match ti_sandbox_id r with Some i => [i] | None => [] end) ++ map (Put pool) [])%list
    by (rewrite map_app; simpl; rewrite app_nil_r; by destruct (ti_sandbox_id r)).
  eapply balanced_pool; [done|reflexivity|done|].
  intros id. rewrite (count_members s pool st id Hst). exact (Hc id).
Qed.

(** A call that only drops entries of one pool. *)
Lemma bal_shrink s s' pool st st' :
  store_wf s -> pools s !! pool = Some st -> pools s' = <[pool := st']> (pools s) ->
  wf_idle st' -> (forall id, (count id (entries st').*1 <= count id (entries st).*1)%nat) ->
  balanced s [] s'.
Proof.
  intros Hwf Hst Hp Hst' Hc. apply (balanced_pool s s' pool st' [] []); try done.
  intros id. rewrite (count_members s pool st id Hst). exact (Hc id).
Qed.

Lemma count_od_del id (es : list (string * IdleEntry)) x :
  (count x (od_del id es).*1 <= count x es.*1)%nat.
Proof.
  unfold od_del. induction es as [|kv es IH]; csimpl; [done|].
  rewrite filter_cons. case_decide; csimpl; rewrite ?count_cons; lia.
Qed.

Lemma reap_pool_entries now st :
  entries (reap_pool now st) =
  od_del_all (filter (fun kv => bool_decide (ie_expires_at kv.2 <= now)) (entries st)).*1
    (entries st).
Proof. unfold reap_pool. rewrite foldl_od_del. by destruct (filter _ (entries st)). Qed.

Lemma bal_reap_locked pool now s0 s :
  store_wf s0 -> pools s = pools s0 ->
  wp (reap_locked pool now) (fun _ s' => balanced s0 [] s') s.
Proof.
  intros Hwf Heq. unfold reap_locked. repeat wp_step.
  destruct (pools s !! pool) as [st|] eqn:Hst; wp_step; [|by apply balanced_same].
  rewrite Heq in Hst. pose proof (Hwf _ _ Hst) as Hst'.
  eapply (bal_shrink s0 _ pool st); [done|done|simpl; by rewrite Heq|auto with osb|].
  intros id. rewrite reap_pool_entries, count_del_all by apply Hst'. case_decide; lia.
Qed.

Lemma bal_reap_min pool now ttl s :
  store_wf s ->
  wp (im_reap_expired_idle_min_ttl pool now ttl)
     (fun r s' => balanced s (evs_of (map (Handed pool)) r) s') s.
Proof.
  intros Hwf. unfold im_reap_expired_idle_min_ttl. destruct (Z.leb_spec ttl 0).
  { unfold im_reap_expired_idle. wp_step. eapply wp_mono; [by apply (bal_reap_locked pool now s)|].
    by intros [[]|e] s' ?. }
  repeat wp_step. destruct (pools s !! pool) as [st|] eqn:Hst; [|by wp_step; apply balanced_same].
  pose proof (wf_reap_min now (now + ttl) st (Hwf _ _ Hst)) as Hwf'.
  rewrite reap_min_pool_unfold in *. simpl in Hwf'. repeat wp_step.
  rewrite <- (app_nil_r (map _ _)). change [] with (map (Put pool) []).
  eapply balanced_pool; [done|reflexivity|exact Hwf'|]. simpl.
  intros id. rewrite (count_members s pool st id Hst). destruct (Hwf _ _ Hst) as [Hnd _].
  rewrite count_del_all by done.
  set (ds := (filter (fun kv => now < _ <= _) _).*1).
  assert (NoDup ds) as Hds.
  { by apply od_wf_filter. }
  pose proof (count_NoDup id ds Hds). change (count id []) with 0%nat.
  destruct (decide (0 < count id ds)%nat) as [Hp|]; [|case_decide; lia].
  apply count_pos in Hp. apply od_elem_filter_keys in Hp as (e & He & Hx); [|done].
  rewrite (count_key_present _ _ e) by done. rewrite decide_True; [lia|].
  apply od_elem_filter_keys; [done|]. exists e. simpl in *. split; [done|lia].
Qed.

Lemma bal_put pool id s :
  store_wf s ->
  wp (im_put_idle pool id) (fun r s' => balanced s (evs_of (fun _ => [Put pool id]) r) s') s.
Proof.
  intros Hwf. unfold im_put_idle. destruct (is_blank id); [by wp_step; apply balanced_same|].
  wp_step. apply wp_reject. intros [[]|e] s1 Hp; [|by apply balanced_same].
  wp_step. wp_step. wp_step. apply wp_now. repeat wp_step. simpl. rewrite Hp. set (st := default _ _).
  assert (wf_idle st) as Hst.
  { unfold st. destruct (pools s !! pool) eqn:E; [by apply (Hwf pool)|apply wf_empty]. }
  assert (Hm : members s pool = (entries st).*1).
  { unfold members, st. by destruct (pools s !! pool). }
  change [Put pool id] with (map (Handed pool) [] ++ map (Put pool) [id])%list.
  eapply balanced_pool; [done|simpl; by rewrite Hp| |].
  - destruct (od_mem id (entries st)) eqn:E; [by destruct st|].
    apply wf_put; [done|by apply od_mem_false|done].
  - intros x. rewrite Hm. simpl. rewrite count_cons. change (count x []) with 0%nat.
    destruct (od_mem id (entries st)) eqn:E; [lia|].
    rewrite od_keys_set. apply od_mem_false, od_get_None in E.
    rewrite decide_False by done. rewrite count_app, count_cons.
    change (count x []) with 0%nat. lia.
Qed.

Lemma bal_remove pool id s :
  store_wf s -> wp (im_remove_idle pool id) (fun _ s' => balanced s [] s') s.
Proof.
  intros Hwf. unfold im_remove_idle. repeat wp_step.
  destruct (pools s !! pool) as [st|] eqn:Hst; wp_step; [|by apply balanced_same].
  eapply (bal_shrink s _ pool st); [done|done|done|eauto with osb|].
  intros x. apply count_od_del.
Qed.

Lemma bal_snapshot {A} (f : option PoolIdleState -> A) pool s :
  store_wf s ->
  wp (now <-- now_ ;; reap_locked pool now ;;;
      st <-- gets (fun s => pools s !! pool) ;; ret (f st))
     (fun _ s' => balanced s [] s') s.
Proof.
  intros Hwf. wp_step. apply wp_now. wp_step.
  eapply wp_mono; [by apply (bal_reap_locked pool _ s)|].
  intros [[]|e] s' Hb; [|done]. by repeat wp_step.
Qed.

Lemma bal_clear pool s :
  store_wf s -> wp (im_clear_pool_state pool) (fun _ s' => balanced s [] s') s.
Proof.
  intros Hwf. unfold im_clear_pool_state. wp_step. split.
  - intros q st. simpl. rewrite lookup_delete_Some. naive_solver.
  - intros q id. unfold members. simpl. destruct (decide (q = pool)) as [->|].
    + rewrite lookup_delete_eq. unfold count. simpl. lia.
    + by rewrite lookup_delete_ne.
Qed.

(** A call that leaves the pools alone. *)
Lemma bal_keeps {A} (m : SM A) s :
  store_wf s -> wp m (fun _ s' => pools s' = pools s) s ->
  wp m (fun _ s' => balanced s [] s') s.
Proof. intros Hwf Hm. eapply wp_mono; [exact Hm|]. intros r s' ?. by apply balanced_same. Qed.

Lemma keeps_lock pool s :
  wp (st <-- im_get_destroy_state pool ;; ret (bool_decide (st = ACTIVE)))
     (fun _ s' => pools s' = pools s) s.
Proof. wp_step. apply wp_get_destroy_state. intros st s' ?. by wp_step. Qed.

Lemma keeps_set_max_idle pool n s :
  wp (im_set_max_idle pool n) (fun _ s' => pools s' = pools s) s.
Proof. unfold im_set_max_idle. wp_step. apply wp_reject. intros [[]|e] s' ?; by try wp_step. Qed.

Lemma keeps_set_ttl pool ttl s :
  wp (im_set_idle_entry_ttl pool ttl) (fun _ s' => pools s' = pools s) s.
Proof.
  unfold im_set_idle_entry_ttl. case_match; [by wp_step|].
  wp_step. apply wp_reject. intros [[]|e] s' ?; by try wp_step.
Qed.

Lemma keeps_begin_destroy pool owner s :
  wp (im_begin_destroy pool owner) (fun _ s' => pools s' = pools s) s.
Proof.
  unfold im_begin_destroy. case_match; [by wp_step|]. wp_step. apply wp_get_destroy_state.
  intros st s' ?. case_bool_decide; by wp_step.
Qed.

Lemma keeps_mark_destroyed pool owner ttl s :
  wp (im_mark_destroyed pool owner ttl) (fun _ s' => pools s' = pools s) s.
Proof.
  unfold im_mark_destroyed. case_match; [by wp_step|]. destruct ttl as [t|]; [|by wp_step].
  destruct (t <=? 0); [by wp_step|]. wp_step. apply wp_now. by wp_step.
Qed.

Lemma run_op_balanced op s :
  store_wf s -> balanced s (run_op op s).1 (run_op op s).2.
Proof.
  intros Hwf. destruct op; cbn [run_op]; apply run_call_balanced.
  - by apply bal_take.
  - by apply bal_take_min.
  - by apply bal_put.
  - eapply wp_mono; [by apply bal_remove|]. by intros [[]|].
  - eapply wp_mono; [apply bal_keeps; [done|apply keeps_lock]|]. by intros [|].
  - eapply wp_mono; [apply bal_keeps; [done|apply keeps_lock]|]. by intros [|].
  - by apply balanced_same.
  - eapply wp_mono; [by apply (bal_reap_locked pool now s)|]. by intros [|].
  - by apply bal_reap_min.
  - eapply wp_mono; [by apply (bal_snapshot _ pool s Hwf)|]. by intros [|].
  - eapply wp_mono; [by apply (bal_snapshot _ pool s Hwf)|]. by intros [|].
  - eapply wp_mono; [apply bal_keeps; [done|apply keeps_set_max_idle]|]. by intros [|].
  - eapply wp_mono; [apply bal_keeps; [done|apply keeps_set_ttl]|]. by intros [|].
  - eapply wp_mono; [apply bal_keeps; [done|by apply wp_get_destroy_state]|]. by intros [|].
  - eapply wp_mono; [apply bal_keeps; [done|apply keeps_begin_destroy]|]. by intros [|].
  - eapply wp_mono; [by apply bal_clear|]. by intros [|].
  - eapply wp_mono; [apply bal_keeps; [done|apply keeps_mark_destroyed]|]. by intros [|].
Qed.

Lemma run_ops_balanced ops : forall s,
  store_wf s -> balanced s (run_ops ops s).1 (run_ops ops s).2.
Proof.
  induction ops as [|op ops IH]; intros s Hwf; simpl; [by apply balanced_same|].
  pose proof (run_op_balanced op s Hwf) as [Hwf1 Hb1].
  destruct (run_op op s) as [ev s1]. simpl in *.
  pose proof (IH s1 Hwf1) as [Hwf2 Hb2]. destruct (run_ops ops s1) as [evs s2]. simpl in *.
  split; [done|]. intros pool id. rewrite !count_app.
  specialize (Hb1 pool id). specialize (Hb2 pool id). lia.
Qed.

Lemma init_store_wf clk : store_wf (init_store clk).
Proof. intros p st. simpl. by rewrite lookup_empty. Qed.

(** ** Theorems *)

(** In every store reached from a fresh one by any sequence of calls, the
    keys of a pool's entries are distinct, each entry carries its key, and each
    entry is still reachable through the queue, so that no idle sandbox is
    stranded. *)
Theorem store_invariant clk ops : store_wf (run_ops ops (init_store clk)).2.
Proof. apply run_ops_balanced, init_store_wf. Qed.

(** C2: no sandbox is handed out twice: over any sequence of calls from a
    fresh store, an id leaves the pool (to a caller or as a near-expiry discard)
    at most as often as [put_idle] accepted it. *)
Theorem no_double_handout clk ops pool id :
  let evs := (run_ops ops (init_store clk)).1 in
  (count (Handed pool id) evs <= count (Put pool id) evs)%nat.
Proof.
  intros evs. destruct (run_ops_balanced ops (init_store clk) (init_store_wf clk)) as [_ Hb].
  specialize (Hb pool id). unfold members at 2 in Hb. simpl in Hb. rewrite lookup_empty in Hb.
  change (count id []) with 0%nat in Hb. subst evs. lia.
Qed.

Lemma head_filter_first (P : string -> bool) pre (id : string) rest :
  (forall x, x ∈ pre -> P x = false) -> P id = true ->
  head (filter P (pre ++ id :: rest)%list) = Some id.
Proof.
  intros Hpre Hid. rewrite filter_app. rewrite (filter_cons_True P id) by by rewrite Hid.
  replace (filter P pre) with (@nil string); [done|]. symmetry.
  induction pre as [|x pre IH]; [done|]. rewrite filter_cons_False.
  - apply IH. intros; apply Hpre; set_solver.
  - rewrite Hpre by set_solver. naive_solver.
Qed.

Lemma head_filter_none (P : string -> bool) (l : list string) :
  (forall x, x ∈ l -> P x = false) -> head (filter P l) = None.
Proof.
  intros Hl. induction l as [|x l IH]; [done|]. rewrite filter_cons_False.
  - apply IH. intros; apply Hl; set_solver.
  - rewrite Hl by set_solver. naive_solver.
Qed.

(** The outcome of the near-expiry loop is the first id that outlives the
    cutoff, and it drops exactly the entries it popped. *)
Lemma take_min_first now cutoff acc q es r st :
  take_min_result now cutoff acc q es r st ->
  ti_sandbox_id r = head (filter (outlives cutoff es) q) /\
  exists popped, q = (popped ++ queue st)%list /\ entries st = od_del_all popped es /\
    (ti_sandbox_id r = None -> queue st = []).
Proof.
  intros (pre & ds & Hr & Hpre & _). destruct (ti_sandbox_id r) as [id|].
  - destruct Hr as (-> & Hid & ->). split; [by rewrite head_filter_first|].
    exists (pre ++ [id])%list. by rewrite <- app_assoc.
  - destruct Hr as (-> & Hq & ->). split; [by rewrite head_filter_none|].
    exists q. by rewrite Hq, app_nil_r.
Qed.

(** [try_take_idle] is first-in first-out: it returns the first queued id
    whose entry has not expired at the time it reads, drops the entries of
    every id it pops and leaves the rest of the queue. *)
Theorem try_take_idle_fifo pool s st :
  pools s !! pool = Some st ->
  let now := clock s (tick s) in
  exists popped st',
    im_try_take_idle pool s =
      (Ok (head (filter (outlives now (entries st)) (queue st))),
       put_pool pool st' (set_tick (S (tick s)) s)) /\
    queue st = (popped ++ queue st')%list /\
    entries st' = od_del_all popped (entries st).
Proof.
  intros Hst now.
  pose proof (take_min_loop_spec now now (queue st) [] (entries st) (Z.le_refl _)) as Hspec.
  rewrite take_loop_min in Hspec. destruct (take_loop now _ _) as [r st'] eqn:E.
  apply take_min_first in Hspec as (Hr & popped & Hq & He & _). simpl in Hr.
  exists popped, st'. split; [|done].
  unfold im_try_take_idle, bind, gets, now_, modify, ret. rewrite Hst. simpl. fold now.
  by rewrite E, <- Hr.
Qed.

(** [try_take_idle_min_ttl] returns the first queued id whose entry outlives
    [now + min_ttl]; the ids it reports as discarded are distinct, were idle, and
    are exactly the popped ones that are alive at [now] but expire within
    [min_ttl]; everything popped leaves the entries. *)
Theorem try_take_idle_min_ttl_spec pool ttl s st :
  0 < ttl -> pools s !! pool = Some st ->
  let now := clock s (tick s) in
  exists popped st' ds,
    im_try_take_idle_min_ttl pool ttl s =
      (Ok {| ti_sandbox_id := head (filter (outlives (now + ttl) (entries st)) (queue st));
             ti_discarded_alive := ds |},
       put_pool pool st' (set_tick (S (tick s)) s)) /\
    queue st = (popped ++ queue st')%list /\
    entries st' = od_del_all popped (entries st) /\
    NoDup ds /\
    (forall id, id ∈ ds <-> id ∈ popped /\ near_expiry now (now + ttl) (entries st) id = true).
Proof.
  intros Httl Hst now.
  pose proof (take_min_loop_spec now (now + ttl) (queue st) [] (entries st) ltac:(lia)) as Hspec.
  destruct (take_min_loop _ _ _ _ _) as [[r ds] st'] eqn:E.
  pose proof (take_min_first _ _ _ _ _ _ _ Hspec) as [Hr _]. simpl in Hr.
  destruct Hspec as (pre & ds' & Hq & Hpre & Hds & Hnd & Hin). simpl in Hds, Hq. subst ds'.
  assert (im_try_take_idle_min_ttl pool ttl s =
      (Ok {| ti_sandbox_id := r; ti_discarded_alive := ds |},
       put_pool pool st' (set_tick (S (tick s)) s))) as Heq.
  { unfold im_try_take_idle_min_ttl, bind, gets, now_, modify, ret.
    rewrite (proj2 (Z.leb_gt _ _)) by done. rewrite Hst. simpl. fold now. by rewrite E. }
  rewrite Heq, Hr. destruct (head _) as [id|] eqn:Eh; subst r; simpl in Hq.
  - destruct Hq as (Hq & Hid & He). exists (pre ++ [id])%list, st', ds.
    split_and!; [done|by rewrite <- app_assoc|done|done|].
    intros x. rewrite Hin, elem_of_app, list_elem_of_singleton.
    split; [naive_solver|]. intros [[?| ->] Hn]; [done|].
    unfold near_expiry in Hn. rewrite Hid, andb_false_r in Hn. done.
  - destruct Hq as (-> & Hq & He). exists (queue st), st', ds.
    rewrite Hq, app_nil_r. done.
Qed.

(** [reap_expired_idle_min_ttl] evicts exactly the entries that expire by
    [now + min_ttl] and returns exactly the evicted ids whose server-side TTL
    has not elapsed, each once. *)
Theorem reap_min_ttl_spec pool now ttl s st :
  0 < ttl -> store_wf s -> pools s !! pool = Some st ->
  exists st' ds,
    im_reap_expired_idle_min_ttl pool now ttl s = (Ok ds, put_pool pool st' s) /\
    NoDup ds /\
    (forall id, id ∈ ds <-> near_expiry now (now + ttl) (entries st) id = true) /\
    (forall id, od_get id (entries st') =
       if outlives (now + ttl) (entries st) id then od_get id (entries st) else None).
Proof.
  intros Httl Hwf Hst. destruct (Hwf _ _ Hst) as [Hnd _].
  unfold im_reap_expired_idle_min_ttl, bind, gets, modify, ret.
  rewrite (proj2 (Z.leb_gt _ _)) by done. rewrite Hst, reap_min_pool_unfold.
  eexists _, _. split; [reflexivity|]. simpl. split_and!.
  - by apply od_wf_filter.
  - intros id. rewrite od_elem_filter_keys by done. unfold near_expiry, outlives. simpl.
    destruct (od_get id (entries st)) as [e|]; [|naive_solver].
    rewrite andb_true_iff, negb_true_iff, Z.ltb_lt, Z.ltb_ge. naive_solver lia.
  - intros id. rewrite od_del_all_get. unfold outlives.
    destruct (od_get id (entries st)) as [e|] eqn:He.
    + case_decide as Hin.
      * apply od_elem_filter_keys in Hin as (e' & He' & Hx); [|done]. simplify_eq. simpl in Hx.
        by rewrite (proj2 (Z.ltb_ge _ _)) by lia.
      * destruct (Z.ltb_spec (now + ttl) (ie_expires_at e)); [done|]. destruct Hin.
        apply od_elem_filter_keys; [done|]. exists e. done.
    + by case_decide.
Qed.

(** The namespace is marked for destruction by a marker that does not expire. *)
Definition is_fenced (s : InMemoryPoolStateStore) (pool : string) : Prop :=
  exists owner, destroy_state_by_pool s !! pool =
    Some {| dse_state := DESTROYING; dse_expires_at := None; dse_owner_id := owner |}.

(** The calls that may end a fence: writing the tombstone. *)
Definition ends_fence (pool : string) (op : store_op) : bool :=
  match op with OpMarkDestroyed p _ _ => bool_decide (p = pool) | _ => false end.

Lemma fenced_get s pool : is_fenced s pool -> im_get_destroy_state pool s = (Ok DESTROYING, s).
Proof.
  intros [o Ho]. unfold im_get_destroy_state, bind, gets. rewrite Ho. by destruct s.
Qed.

Lemma fenced_reject s pool :
  is_fenced s pool ->
  reject_if_destroyed_locked pool s = (Raise (PoolDestroyedException DESTROYING), s).
Proof.
  intros Hf. unfold reject_if_destroyed_locked, bind. by rewrite fenced_get.
Qed.

(** Calls on any namespace leave another namespace's marker alone. *)
Lemma get_destroy_other s p pool :
  is_fenced s pool -> is_fenced (im_get_destroy_state p s).2 pool.
Proof.
  intros Hf. destruct (decide (p = pool)) as [->|Hne]; [by rewrite fenced_get|].
  destruct Hf as [o Ho]. exists o. unfold im_get_destroy_state, bind, gets, now_, modify, ret.
  destruct (destroy_state_by_pool s !! p) as [[d [t|] w]|]; simpl; try done.
  split_ifs; simpl; [|done]. by rewrite lookup_delete_ne.
Qed.

Lemma wp_get_destroy_fenced s p pool (Q : res exc PoolDestroyState -> _ -> Prop) :
  is_fenced s pool ->
  (forall st s', is_fenced s' pool -> Q (Ok st) s') -> wp (im_get_destroy_state p) Q s.
Proof.
  intros Hf HQ. pose proof (get_destroy_other s p pool Hf) as Hf'.
  pose proof (wp_get_destroy_state p (fun r _ => exists st, r = Ok st) s) as Hr.
  unfold wp in *. destruct (im_get_destroy_state p s) as [r s'].
  destruct Hr as [st ->]; [by eauto|]. by apply HQ.
Qed.

Lemma wp_reject_fenced s p pool (Q : res exc unit -> _ -> Prop) :
  is_fenced s pool ->
  (forall r s', is_fenced s' pool -> Q r s') -> wp (reject_if_destroyed_locked p) Q s.
Proof.
  intros Hf HQ. unfold reject_if_destroyed_locked. wp_step.
  eapply wp_get_destroy_fenced; [exact Hf|]. intros st s' Hf'. case_bool_decide; wp_step; by apply HQ.
Qed.

Lemma run_call_fenced {A} (m : SM A) ev s pool :
  wp m (fun _ s' => is_fenced s' pool) s -> is_fenced (run_call m ev s).2 pool.
Proof. unfold wp, run_call. by destruct (m s) as [[a|e] s']. Qed.

Ltac fence :=
  repeat first
    [ done
    | match goal with
      | |- wp (im_get_destroy_state _) _ _ =>
          eapply wp_get_destroy_fenced; [eassumption|]; intros ? ? ?
      | |- wp (reject_if_destroyed_locked _) _ _ =>
          eapply wp_reject_fenced; [eassumption|]; intros [[]|] ? ?
      | |- wp now_ _ _ => apply wp_now
      | |- wp (let '(_, _) := ?x in _) _ _ => destruct x
      | |- wp (match ?x with _ => _ end) _ _ => destruct x
      end
    | wp_step ].

Lemma run_op_fenced op s pool :
  ends_fence pool op = false -> is_fenced s pool -> is_fenced (run_op op s).2 pool.
Proof.
  intros He Hf. destruct op; cbn [run_op]; apply run_call_fenced;
    unfold im_try_take_idle_min_ttl, im_try_take_idle, im_put_idle, im_remove_idle,
      im_try_acquire_primary_lock, im_renew_primary_lock, im_release_primary_lock,
      im_reap_expired_idle_min_ttl, im_reap_expired_idle, im_snapshot_counters,
      im_snapshot_idle_entries, reap_locked, im_set_max_idle, im_set_idle_entry_ttl,
      im_clear_pool_state, im_begin_destroy, im_mark_destroyed; try (by fence).
  - fence. destruct (decide (pool0 = pool)) as [->|Hne].
    + exists owner. simpl. by rewrite lookup_insert_eq.
    + destruct H as [o Ho]. exists o. simpl. by rewrite lookup_insert_ne.
  - simpl in He. case_bool_decide as Hne; [done|].
    fence; destruct Hf as [o Ho]; exists o; simpl; by rewrite lookup_insert_ne.
Qed.

(** With the namespace fenced, a call records no [Put] for it. *)
Lemma run_op_fenced_no_put op s pool id :
  is_fenced s pool -> count (Put pool id) (run_op op s).1 = 0%nat.
Proof.
  intros Hf.
  assert (Hmap : forall p l, count (Put pool id) (map (Handed p) l) = 0%nat)
    by (intros; by apply count_map_other).
  destruct op; cbn [run_op]; unfold run_call;
    try (match goal with |- context [match ?m s with _ => _ end] =>
           destruct (m s) as [[?|?] ?] end; try done; apply Hmap).
  - destruct (im_try_take_idle _ _) as [[[?|]|?] ?]; done.
  - destruct (im_try_take_idle_min_ttl _ _ _) as [[r|?] ?]; [|done]. simpl.
    rewrite count_app, Hmap. by destruct (ti_sandbox_id r).
  - destruct (decide (pool0 = pool)) as [->|Hne].
    + unfold im_put_idle. destruct (is_blank id0); [done|]. unfold bind at 1.
      by rewrite fenced_reject.
    + destruct (im_put_idle _ _ _) as [[?|?] ?]; [|done]. simpl.
      rewrite count_cons, decide_False; [done|]. congruence.
Qed.

(** C5: once [begin_destroy] has marked a namespace, and until a tombstone is
    written for it, no sequence of calls by any number of clients adds an idle
    sandbox to it: the marker stays, no [put_idle] is accepted, and both lock
    calls are refused. *)
Theorem destroy_fence ops pool : forall s,
  is_fenced s pool -> store_wf s -> Forall (fun op => ends_fence pool op = false) ops ->
  let '(evs, s') := run_ops ops s in
  is_fenced s' pool /\
  (forall id, count (Put pool id) evs = 0%nat) /\
  members s' pool ⊆ members s pool /\
  (forall owner ttl, im_try_acquire_primary_lock pool owner ttl s' = (Ok false, s')) /\
  (forall owner ttl, im_renew_primary_lock pool owner ttl s' = (Ok false, s')).
Proof.
  induction ops as [|op ops IH]; intros s Hf Hwf Hops; simpl.
  - split_and!; try done; intros; unfold im_try_acquire_primary_lock, im_renew_primary_lock, bind;
      by rewrite fenced_get.
  - apply Forall_cons in Hops as [Hop Hops].
    pose proof (run_op_fenced op s pool Hop Hf) as Hf1.
    pose proof (fun id => run_op_fenced_no_put op s pool id Hf) as Hp1.
    pose proof (run_op_balanced op s Hwf) as [Hwf1 Hb1].
    destruct (run_op op s) as [ev s1]. simpl in *. specialize (IH s1 Hf1 Hwf1 Hops).
    destruct (run_ops ops s1) as [evs s2]. destruct IH as (Hf2 & Hp2 & Hm & Ha & Hr).
    split_and!; try done.
    + intros id. by rewrite count_app, Hp1, Hp2.
    + intros id Hid%Hm%count_pos. apply count_pos. specialize (Hb1 pool id).
      rewrite Hp1 in Hb1. lia.
Qed.

(** ** The laws the clients of a store rely on *)

Lemma take_none_empty now st r st' :
  wf_idle st -> take_min_result now now [] (queue st) (entries st) r st' ->
  ti_sandbox_id r = None -> (entries st').*1 = [].
Proof.
  intros [_ Hq] Hspec Hr. apply take_min_first in Hspec as (_ & popped & Hp & He & Hn).
  rewrite (Hn Hr), app_nil_r in Hp. apply elem_of_nil_inv. intros k Hk.
  apply od_get_is_Some in Hk as [e Hk]. rewrite He, od_del_all_get in Hk.
  case_decide as Hin; [done|]. apply Hq in Hk as [Hk _]. by rewrite Hp in Hk.
Qed.

Lemma od_del_all_keys_length {V} ids (es : list (string * V)) id :
  id ∈ ids -> id ∈ es.*1 -> (length (od_del_all ids es).*1 < length es.*1)%nat.
Proof.
  intros Hid. rewrite !length_fmap. unfold od_del_all.
  induction es as [|[k v] es IH]; csimpl; [set_solver|].
  pose proof (length_filter (fun kv : string * V => kv.1 ∉ ids) es).
  rewrite filter_cons. intros [->|Hin]%elem_of_cons.
  - rewrite decide_False by naive_solver. lia.
  - specialize (IH Hin). case_decide; simpl; lia.
Qed.

Lemma take_law pool s :
  store_wf s ->
  wp (im_try_take_idle pool) (fun r s' =>
    store_wf s' /\ (is_fenced s pool -> is_fenced s' pool) /\
    match r with
    | Ok (Some id) => id ∈ members s pool /\ (id ∉ members s' pool) /\
        members s' pool ⊆ members s pool /\
        (length (members s' pool) < length (members s pool))%nat
    | Ok None => members s' pool = []
    | Raise _ => members s' pool ⊆ members s pool
    end) s.
Proof.
  intros Hwf. unfold im_try_take_idle. repeat wp_step.
  destruct (pools s !! pool) as [st|] eqn:Hst;
    [|wp_step; split_and!; [done|done|]; unfold members; by rewrite Hst].
  wp_step. apply wp_now.
  set (now := clock s (tick s)). pose proof (Hwf _ _ Hst) as Hwf0.
  pose proof (take_min_loop_spec now now (queue st) [] (entries st) (Z.le_refl _)) as Hspec.
  rewrite take_loop_min in Hspec. destruct (take_loop now _ _) as [r st'].
  repeat wp_step. assert (wf_idle st') by eauto with osb.
  split; [by apply wf_put_pool|]. split; [done|].
  unfold members. simpl. rewrite lookup_insert_eq, Hst.
  destruct r as [id|]; [|by eapply take_none_empty in Hspec].
  destruct Hspec as (pre & ds & (Hq & Hid & He) & _). rewrite He.
  assert (Hin : id ∈ (entries st).*1).
  { apply od_get_is_Some. unfold outlives in Hid. destruct (od_get id _); [eauto|done]. }
  split_and!; [done| | |apply (od_del_all_keys_length _ _ id); set_solver].
  - rewrite <- od_get_is_Some, od_del_all_get, decide_True by set_solver. by intros [? ?].
  - intros k. rewrite <- !od_get_is_Some, od_del_all_get. case_decide; [by intros [? ?]|done].
Qed.

Definition is_tombstoned (s : InMemoryPoolStateStore) (pool : string) : Prop :=
  exists owner t, destroy_state_by_pool s !! pool =
    Some {| dse_state := DESTROYED; dse_expires_at := t; dse_owner_id := owner |}.

Lemma mark_law pool owner ttl s :
  store_wf s ->
  wp (im_mark_destroyed pool owner ttl) (fun r s' =>
    store_wf s' /\ members s' pool = members s pool /\
    match r with Ok _ => is_tombstoned s' pool | Raise _ => True end) s.
Proof.
  intros Hwf. unfold im_mark_destroyed. destruct (is_blank owner); [by wp_step|].
  destruct ttl as [t|]; [|wp_step; split_and!; [done..|]; eexists _, _; simpl; by rewrite lookup_insert_eq].
  destruct (t <=? 0); [by wp_step|]. wp_step. apply wp_now. wp_step.
  split_and!; [done..|]. eexists _, _. simpl. by rewrite lookup_insert_eq.
Qed.

(** Under a fence no call of another client adds a member. *)
Lemma fenced_members_shrink op s pool :
  is_fenced s pool -> store_wf s -> ends_fence pool op = false ->
  is_fenced (run_op op s).2 pool /\ store_wf (run_op op s).2 /\
  (length (members (run_op op s).2 pool) <= length (members s pool))%nat.
Proof.
  intros Hf Hwf Hop. pose proof (run_op_fenced op s pool Hop Hf) as Hf1.
  pose proof (fun id => run_op_fenced_no_put op s pool id Hf) as Hp1.
  pose proof (run_op_balanced op s Hwf) as [Hwf1 Hb1].
  destruct (run_op op s) as [ev s1]. simpl in *. split_and!; [done..|].
  apply submseteq_length, NoDup_submseteq.
  - unfold members. destruct (pools s1 !! pool) as [st|] eqn:E; [|apply NoDup_nil_2].
    by apply (Hwf1 pool st E).
  - intros id Hid%count_pos. apply count_pos. specialize (Hb1 pool id). rewrite Hp1 in Hb1. lia.
Qed.

#[global] Program Instance InMemory_laws : PoolStoreLaws InMemoryPoolStateStore := {
  st_wf := store_wf;
  idle_ids := members;
  fenced := is_fenced;
  tombstoned := is_tombstoned;
}.
Next Obligation. intros pool s Hwf. by apply take_law. Qed.
Next Obligation.
  intros pool owner s Hwf. simpl. unfold im_begin_destroy.
  destruct (is_blank owner); [by wp_step|].
  wp_step. apply wp_get_destroy_state. intros st s' Hp. pose proof (balanced_same s s' Hwf Hp) as [? _].
  assert (members s' pool = members s pool) by (apply members_pools; by rewrite Hp).
  case_bool_decide; wp_step; split_and!; try done.
  exists owner. simpl. by rewrite lookup_insert_eq.
Qed.
Next Obligation.
  intros pool id s Hwf Hf. simpl. unfold im_put_idle.
  destruct (is_blank id); [by wp_step|]. unfold wp, bind at 1. by rewrite fenced_reject.
Qed.
Next Obligation.
  intros pool s Hwf. apply wp_get_destroy_state. intros st s' Hp.
  pose proof (balanced_same s s' Hwf Hp) as [? _]. split; [done|]. apply members_pools. by rewrite Hp.
Qed.
Next Obligation.
  intros pool s Hwf. simpl. unfold im_clear_pool_state. wp_step. split_and!; [|done|].
  - intros p st. simpl. rewrite lookup_delete_Some. intros [_ Hp]. by apply (Hwf p).
  - unfold members. simpl. by rewrite lookup_delete_eq.
Qed.
Next Obligation. intros pool owner ttl s Hwf. by apply mark_law. Qed.

(** [remove_idle] leaves the id in the queue, so putting the same id again
    queues it twice: the snapshot then lists the one entry twice while the
    counter reports one. *)
Lemma snapshot_entries_repeat :
  let s := (run_ops [OpPut "p" "a"; OpRemove "p" "a"; OpPut "p" "a"]
              (init_store (fun n => Z.of_nat n))).2 in
  (exists e, (im_snapshot_idle_entries "p" s).1 = Ok [e; e]) /\
  (im_snapshot_counters "p" s).1 = Ok {| sc_idle_count := 1 |}.
Proof. split; [eexists|]; vm_compute; done. Qed.

(** ** Witnesses *)

Definition demo_clock (n : nat) : Z := Z.of_nat n.

(** A pool with two idle sandboxes; the first was stamped with a short TTL. *)
Definition demo_store : InMemoryPoolStateStore :=
  (run_ops [OpSetTtl "p" 5; OpPut "p" "a"; OpSetTtl "p" 1000; OpPut "p" "b"]
     (init_store demo_clock)).2.

Definition demo_pool : PoolIdleState :=
  mkIdle [("a", {| ie_sandbox_id := "a"; ie_expires_at := 5 |});
          ("b", {| ie_sandbox_id := "b"; ie_expires_at := 1001 |})] ["a"; "b"].

Lemma demo_store_pool : pools demo_store !! "p" = Some demo_pool.
Proof. vm_compute. reflexivity. Qed.

Lemma demo_store_wf : store_wf demo_store.
Proof. apply run_ops_balanced, init_store_wf. Qed.

Lemma try_take_idle_fifo_witness :
  exists popped st',
    im_try_take_idle "p" demo_store =
      (Ok (head (filter (outlives 2 (entries demo_pool)) (queue demo_pool))),
       put_pool "p" st' (set_tick 3 demo_store)) /\
    queue demo_pool = (popped ++ queue st')%list /\
    entries st' = od_del_all popped (entries demo_pool).
Proof. exact (try_take_idle_fifo "p" demo_store demo_pool demo_store_pool). Defined.

Lemma try_take_idle_min_ttl_witness :
  exists popped st' ds,
    im_try_take_idle_min_ttl "p" 10 demo_store =
      (Ok {| ti_sandbox_id := head (filter (outlives 12 (entries demo_pool)) (queue demo_pool));
             ti_discarded_alive := ds |},
       put_pool "p" st' (set_tick 3 demo_store)) /\
    queue demo_pool = (popped ++ queue st')%list /\
    entries st' = od_del_all popped (entries demo_pool) /\
    NoDup ds /\
    (forall id, id ∈ ds <-> id ∈ popped /\ near_expiry 2 12 (entries demo_pool) id = true).
Proof.
  apply (try_take_idle_min_ttl_spec "p" 10 demo_store demo_pool); [lia|apply demo_store_pool].
Defined.

Lemma reap_min_ttl_witness :
  exists st' ds,
    im_reap_expired_idle_min_ttl "p" 2 10 demo_store = (Ok ds, put_pool "p" st' demo_store) /\
    NoDup ds /\
    (forall id, id ∈ ds <-> near_expiry 2 12 (entries demo_pool) id = true) /\
    (forall id, od_get id (entries st') =
       if outlives 12 (entries demo_pool) id then od_get id (entries demo_pool) else None).
Proof.
  apply (reap_min_ttl_spec "p" 2 10 demo_store demo_pool);
    [lia|apply demo_store_wf|apply demo_store_pool].
Defined.

Lemma destroy_fence_witness :
  let s := (run_op (OpBeginDestroy "p" "manager") demo_store).2 in
  let '(evs, s') := run_ops [OpPut "p" "c"; OpTake "p"] s in
  is_fenced s' "p" /\
  (forall id, count (Put "p" id) evs = 0%nat) /\
  members s' "p" ⊆ members s "p" /\
  (forall owner ttl, im_try_acquire_primary_lock "p" owner ttl s' = (Ok false, s')) /\
  (forall owner ttl, im_renew_primary_lock "p" owner ttl s' = (Ok false, s')).
Proof.
  intros s. apply (destroy_fence [OpPut "p" "c"; OpTake "p"] "p" s).
  - exists "manager". vm_compute. reflexivity.
  - apply run_op_balanced, demo_store_wf.
  - repeat constructor.
Defined.
