(* ===== verification/PoolReconciler.v ===== *)
(** * Pool reconciliation

    [sdks/sandbox/python/src/opensandbox/_pool_reconciler.py]: the back-off
    bookkeeping ([ReconcileState]) and one reconcile tick.

    The tick runs in a [World]: a state store, the pool instance's fields, and
    an environment that answers every call that leaves the process (clock,
    executor, sandbox service).  Other threads and processes act between the
    calls of the modelled one: before each store call the environment may
    replace the store's state, and before each read of the life-cycle field it
    may change that field.  The log records calls in order; the code has no
    such variable. *)

From Stdlib Require Import ZArith Lia String.
From stdpp Require Import base numbers strings gmap list.
From S2P Require Import Prelude PyString PoolTypes.

Open Scope string_scope.
Open Scope Z_scope.

(** ** Reconcile state *)

Record ReconcileState := mkRS {
  rs_degraded_threshold : Z;
  rs_backoff_base : Z;
  rs_backoff_max : Z;
  rs_failure_count : Z;
  rs_state : PoolState;
  (** the exception whose text the code keeps *)
  rs_last_error : option exc;
  rs_backoff_until : option Z;
  rs_backoff_attempts : Z;
}.

Definition init_reconcile_state (threshold : Z) : ReconcileState :=
  mkRS threshold (seconds 30) (seconds 86400) 0 HEALTHY None None 0.

Definition record_success (rs : ReconcileState) : ReconcileState :=
  mkRS (rs_degraded_threshold rs) (rs_backoff_base rs) (rs_backoff_max rs) 0
    (if bool_decide (rs_state rs = DEGRADED) then HEALTHY else rs_state rs) None None 0.

(** [now] is the clock reading of the back-off branch. *)
Definition record_failures (now : Z) (count : Z) (err : option exc) (rs : ReconcileState)
  : ReconcileState :=
  if count <=? 0 then rs
  else
    let failures := rs_failure_count rs + count in
    if rs_degraded_threshold rs <=? failures then
      let attempts := rs_backoff_attempts rs + 1 in
      let exponent := Z.min (attempts - 1) 30 in
      let delay := Z.min (rs_backoff_base rs * Z.shiftl 1 exponent) (rs_backoff_max rs) in
      mkRS (rs_degraded_threshold rs) (rs_backoff_base rs) (rs_backoff_max rs) failures
        DEGRADED err (Some (now + delay)) attempts
    else
      mkRS (rs_degraded_threshold rs) (rs_backoff_base rs) (rs_backoff_max rs) failures
        (rs_state rs) err (rs_backoff_until rs) (rs_backoff_attempts rs).

Definition record_failure (now : Z) (err : option exc) (rs : ReconcileState) : ReconcileState :=
  record_failures now 1 err rs.

Definition is_backoff_active (now : Z) (rs : ReconcileState) : bool :=
  match rs_backoff_until rs with
  | None => false
  | Some until => bool_decide (rs_state rs = DEGRADED) && (now <? until)
  end.

(** ** The world of a pool instance *)

Inductive event :=
  | ECount (n : Z)             (** the idle count a tick acted on *)
  | ECreated (id : string)     (** a warm-up future holds this sandbox *)
  | EPut (id : string)         (** [put_idle] returned *)
  | EDiscard (id : string)     (** handed to the discard callback *)
  | ETake (id : string)        (** taken out of the store *)
  | EDropped (id : string)     (** reported by the store as a near-expiry discard *)
  | EKill (id : string) (ok : bool)
  | ESubmitKill (ids : list string)
  | EKillSkipped (id : string) (** a best-effort kill with no manager to call *)
  | EConnect (id : string) (ok : bool)
  | ERenew (id : string) (ok : bool)
  | EClose (id : string)
  | ECreateCall (reason : PooledSandboxCreateReason) (id : option string)
  | EReturn (id : string).

#[global] Instance event_eq_dec : EqDecision event.
Proof. solve_decision. Defined.

(** The environment: answers to the calls that leave the process, each a
    function of the number of steps so far. *)
Record Env (St : Type) := mkEnv {
  e_now : nat -> Z;
  e_monotonic : nat -> Z;
  e_store_steps : nat -> St -> St;
  e_lifecycle_steps : nat -> PoolLifecycleState -> PoolLifecycleState;
  e_in_flight_steps : nat -> Z -> Z;
  e_submit : nat -> bool;
  e_connect : nat -> string -> res exc unit;
  e_create : nat -> PooledSandboxCreateReason -> res exc string;
  e_renew : nat -> string -> Z -> res exc unit;
  e_kill : nat -> string -> res exc unit;
  e_close : nat -> string -> res exc unit;
  (** [None] when no [warmup_sandbox_preparer] is configured *)
  e_prepare : option (nat -> string -> res exc unit);
  e_create_manager : nat -> res exc unit;
  e_close_manager : nat -> res exc unit;
  e_start_thread : nat -> res exc unit;
}.

Record World (St : Type) := mkWorld {
  w_store : St;
  w_rs : ReconcileState;
  w_lifecycle : PoolLifecycleState;
  w_in_flight : Z;
  w_executor : bool;
  w_manager : bool;
  w_stop_event : bool;
  w_scheduler : bool;
  w_current_max_idle : Z;
  w_env : Env St;
  w_step : nat;
  w_log : list event;
}.
Arguments mkEnv {St}.
Arguments e_now {St}. Arguments e_monotonic {St}. Arguments e_store_steps {St}.
Arguments e_lifecycle_steps {St}. Arguments e_in_flight_steps {St}. Arguments e_submit {St}. Arguments e_connect {St}.
Arguments e_create {St}. Arguments e_renew {St}. Arguments e_kill {St}.
Arguments e_close {St}. Arguments e_prepare {St}. Arguments e_create_manager {St}.
Arguments e_close_manager {St}. Arguments e_start_thread {St}.
Arguments mkWorld {St}.
Arguments w_store {St}. Arguments w_rs {St}. Arguments w_lifecycle {St}.
Arguments w_in_flight {St}. Arguments w_executor {St}. Arguments w_manager {St}.
Arguments w_stop_event {St}. Arguments w_scheduler {St}.
Arguments w_current_max_idle {St}. Arguments w_env {St}. Arguments w_step {St}.
Arguments w_log {St}.

Section world.
Context {St : Type}.
Implicit Types w : World St.

Definition set_store (x : St) w : World St :=
  mkWorld x (w_rs w) (w_lifecycle w) (w_in_flight w) (w_executor w) (w_manager w)
    (w_stop_event w) (w_scheduler w) (w_current_max_idle w) (w_env w) (w_step w) (w_log w).
Definition set_rs (x : ReconcileState) w : World St :=
  mkWorld (w_store w) x (w_lifecycle w) (w_in_flight w) (w_executor w) (w_manager w)
    (w_stop_event w) (w_scheduler w) (w_current_max_idle w) (w_env w) (w_step w) (w_log w).
Definition set_lifecycle (x : PoolLifecycleState) w : World St :=
  mkWorld (w_store w) (w_rs w) x (w_in_flight w) (w_executor w) (w_manager w)
    (w_stop_event w) (w_scheduler w) (w_current_max_idle w) (w_env w) (w_step w) (w_log w).
Definition set_in_flight (x : Z) w : World St :=
  mkWorld (w_store w) (w_rs w) (w_lifecycle w) x (w_executor w) (w_manager w)
    (w_stop_event w) (w_scheduler w) (w_current_max_idle w) (w_env w) (w_step w) (w_log w).
Definition set_executor (x : bool) w : World St :=
  mkWorld (w_store w) (w_rs w) (w_lifecycle w) (w_in_flight w) x (w_manager w)
    (w_stop_event w) (w_scheduler w) (w_current_max_idle w) (w_env w) (w_step w) (w_log w).
Definition set_manager (x : bool) w : World St :=
  mkWorld (w_store w) (w_rs w) (w_lifecycle w) (w_in_flight w) (w_executor w) x
    (w_stop_event w) (w_scheduler w) (w_current_max_idle w) (w_env w) (w_step w) (w_log w).
Definition set_stop_event (x : bool) w : World St :=
  mkWorld (w_store w) (w_rs w) (w_lifecycle w) (w_in_flight w) (w_executor w) (w_manager w)
    x (w_scheduler w) (w_current_max_idle w) (w_env w) (w_step w) (w_log w).
Definition set_scheduler (x : bool) w : World St :=
  mkWorld (w_store w) (w_rs w) (w_lifecycle w) (w_in_flight w) (w_executor w) (w_manager w)
    (w_stop_event w) x (w_current_max_idle w) (w_env w) (w_step w) (w_log w).
Definition set_current_max_idle (x : Z) w : World St :=
  mkWorld (w_store w) (w_rs w) (w_lifecycle w) (w_in_flight w) (w_executor w) (w_manager w)
    (w_stop_event w) (w_scheduler w) x (w_env w) (w_step w) (w_log w).
Definition bump w : World St :=
  mkWorld (w_store w) (w_rs w) (w_lifecycle w) (w_in_flight w) (w_executor w) (w_manager w)
    (w_stop_event w) (w_scheduler w) (w_current_max_idle w) (w_env w) (S (w_step w)) (w_log w).
Definition add_log (l : list event) w : World St :=
  mkWorld (w_store w) (w_rs w) (w_lifecycle w) (w_in_flight w) (w_executor w) (w_manager w)
    (w_stop_event w) (w_scheduler w) (w_current_max_idle w) (w_env w) (w_step w) (w_log w ++ l)%list.

(** A call the environment answers. *)
Definition ask {A} (f : Env St -> nat -> A) : M (World St) exc A :=
  fun w => (Ok (f (w_env w) (w_step w)), bump w).

Definition answer {A} (r : res exc A) : M (World St) exc A := fun w => (r, w).

Definition log (e : event) : M (World St) exc unit := modify (add_log [e]).

(** A call to the state store, after the steps of other clients. *)
Definition store_call {A} (m : M St exc A) : M (World St) exc A :=
  fun w => let st := e_store_steps (w_env w) (w_step w) (w_store w) in
           let '(r, st') := m st in (r, bump (set_store st' w)).

Definition datetime_now : M (World St) exc Z := ask e_now.
Definition monotonic : M (World St) exc Z := ask e_monotonic.

(** Reading [self._lifecycle_state], which other threads may have changed. *)
Definition read_lifecycle : M (World St) exc PoolLifecycleState :=
  fun w => let l := e_lifecycle_steps (w_env w) (w_step w) (w_lifecycle w) in
           (Ok l, bump (set_lifecycle l w)).
End world.

(** [try: m except Exception: k] *)
Definition except_Exception {S A} (m : M S exc A) (k : exc -> M S exc A) : M S exc A :=
  catch m (fun e => if is_Exception e then Some (k e) else None).

(** [for x in l] with an early [return] as the result [Some]. *)
Fixpoint for_return {S E A B} (f : A -> M S E (option B)) (l : list A) : M S E (option B) :=
  match l with
  | [] => ret None
  | x :: l => r <-- f x ;; match r with Some b => ret (Some b) | None => for_return f l end
  end.

(** ** One reconcile tick *)

Section tick.
Context {St : Type} `{!PoolStateStore St}.
Local Abbreviation WM A := (M (World St) exc A).

(** the two callbacks a pool passes to the reconciler *)
Context (create_one : WM (option string)) (on_discard_sandbox : string -> WM unit).

(** [int(config.warmup_concurrency or 1)] *)
Definition concurrency (c : PoolConfig) : Z :=
  if warmup_concurrency c =? 0 then 1 else warmup_concurrency c.

Definition renew_lock (c : PoolConfig) : WM bool :=
  store_call (renew_primary_lock (pool_name c) (owner_id c) (primary_lock_ttl c)).

Definition call_discard (id : string) : WM unit :=
  log (EDiscard id) ;;; on_discard_sandbox id.

(** [_discard]: the callback with its exceptions logged and swallowed *)
Definition discard (id : string) : WM unit :=
  except_Exception (call_discard id) (fun _ => ret tt).

(** One pass of the loop of [_shrink_excess_idle]; [Some tt] is [return]. *)
Definition shrink_one (c : PoolConfig) (i : nat) : WM (option unit) :=
  primary <-- renew_lock c ;;
  if primary then
    id <-- store_call (try_take_idle (pool_name c)) ;;
    match id with
    | None => ret (Some tt)
    | Some id => log (ETake id) ;;; discard id ;;; ret None
    end
  else ret (Some tt).

Definition shrink_excess_idle (c : PoolConfig) (to_remove : Z) : WM unit :=
  r <-- for_return (shrink_one c) (seq 0 (Z.to_nat to_remove)) ;;
  match r with
  | Some _ => ret tt
  | None => renew_lock c ;;; ret tt
  end.

(** [executor.submit] called [n] times: how many were accepted, and whether
    the executor refused one, which raises. *)
Fixpoint submit_all (n : nat) : WM (nat * bool) :=
  match n with
  | O => ret (0%nat, true)
  | S n =>
      ok <-- ask e_submit ;;
      if ok : bool then r <-- submit_all n ;; ret (S r.1, r.2) else ret (0%nat, false)
  end.

(** The accepted futures run to completion; a future holds a result or an
    exception. *)
Definition run_future : WM (res exc (option string)) :=
  r <-- attempt create_one ;;
  match r with
  | Ok (Some id) => log (ECreated id) ;;; ret r
  | _ => ret r
  end.

Fixpoint run_futures (n : nat) : WM (list (res exc (option string))) :=
  match n with
  | O => ret []
  | S n => r <-- run_future ;; rs <-- run_futures n ;; ret (r :: rs)
  end.

Definition create_batch (n : nat) : WM (list (res exc (option string))) :=
  sub <-- submit_all n ;;
  rs <-- run_futures sub.1 ;;
  if sub.2 then ret rs else throw (OtherException "RuntimeError").

(** The loop over [futures]: created ids, number of failures, last error. *)
Fixpoint harvest (rs : list (res exc (option string))) (ids : list string) (failures : Z)
    (err : option exc) : res exc (list string * Z * option exc) :=
  match rs with
  | [] => Ok (ids, failures, err)
  | Ok (Some id) :: rs => harvest rs (ids ++ [id])%list failures err
  | Ok None :: rs => harvest rs ids (failures + 1) None
  | Raise e :: rs => if is_Exception e then harvest rs ids (failures + 1) (Some e) else Raise e
  end.

Definition drop_created (c : PoolConfig) (id : string) : WM unit :=
  except_Exception (store_call (remove_idle (pool_name c) id)) (fun _ => ret tt) ;;;
  discard id.

(** The loop over [created_ids]. *)
Fixpoint put_created (c : PoolConfig) (ids : list string) : WM unit :=
  match ids with
  | [] => ret tt
  | id :: rest =>
      primary <-- renew_lock c ;;
      if primary : bool then
        r <-- attempt (store_call (put_idle (pool_name c) id)) ;;
        match r with
        | Ok _ => log (EPut id) ;;; modify (fun w => set_rs (record_success (w_rs w)) w) ;;;
                  put_created c rest
        | Raise e =>
            if is_Exception e then
              now <-- datetime_now ;;
              modify (fun w => set_rs (record_failure now (Some e) (w_rs w)) w) ;;;
              for_each (drop_created c) (id :: rest)
            else throw e
        end
      else for_each discard (id :: rest)
  end.

Definition run_primary_replenish_once (c : PoolConfig) : WM unit :=
  now <-- datetime_now ;;
  discarded_alive <-- store_call
    (reap_expired_idle_with_min_ttl (pool_name c) now (Some (acquire_min_remaining_ttl c))) ;;
  for_each call_discard discarded_alive ;;;
  counters <-- store_call (snapshot_counters (pool_name c)) ;;
  let idle := sc_idle_count counters in
  log (ECount idle) ;;;
  let to_remove := Z.min (Z.max 0 (idle - max_idle c)) (concurrency c) in
  if 0 <? to_remove then shrink_excess_idle c to_remove
  else
    let to_create := Z.min (Z.max 0 (max_idle c - idle)) (concurrency c) in
    rs <-- gets w_rs ;;
    if (to_create =? 0) || is_backoff_active now rs then renew_lock c ;;; ret tt
    else
      primary <-- renew_lock c ;;
      if primary : bool then
        futures <-- create_batch (Z.to_nat to_create) ;;
        h <-- answer (harvest futures [] 0 None) ;;
        let '(created_ids, failure_count, last_error) := h in
        now <-- datetime_now ;;
        modify (fun w => set_rs (record_failures now failure_count last_error (w_rs w)) w) ;;;
        put_created c created_ids
      else ret tt.

Definition run_reconcile_tick (c : PoolConfig) : WM unit :=
  primary <-- store_call
    (try_acquire_primary_lock (pool_name c) (owner_id c) (primary_lock_ttl c)) ;;
  if primary : bool then run_primary_replenish_once c else ret tt.
End tick.

(** ** A logic of traces

    [logs m P]: from every world, [m] only appends to the log, and the result
    and the appended events satisfy [P].  Values read from the world are
    arbitrary, so what is proved this way holds under any interference. *)
Section traces.
Context {St : Type}.
Local Abbreviation WM A := (M (World St) exc A).

Definition logs {A} (m : WM A) (P : res exc A -> list event -> Prop) : Prop :=
  forall w, wp m (fun r w' => exists l, w_log w' = (w_log w ++ l)%list /\ P r l) w.

Lemma logs_mono {A} (m : WM A) (P Q : res exc A -> list event -> Prop) :
  logs m P -> (forall r l, P r l -> Q r l) -> logs m Q.
Proof.
  intros Hm HPQ w. eapply wp_mono; [apply Hm|]. naive_solver.
Qed.

(** A computation that leaves the log alone. *)
Lemma logs_silent {A} (m : WM A) (P : res exc A -> list event -> Prop) :
  (forall w, w_log (m w).2 = w_log w) -> (forall r, P r []) -> logs m P.
Proof.
  intros Hs HP w. specialize (Hs w). unfold wp. destruct (m w) as [r w'].
  exists []. by rewrite app_nil_r.
Qed.

Lemma logs_ret {A} (a : A) (P : res exc A -> list event -> Prop) :
  P (Ok a) [] -> logs (ret a) P.
Proof. intros HP w. exists []. by rewrite app_nil_r. Qed.

Lemma logs_throw {A} e (P : res exc A -> list event -> Prop) :
  P (Raise e) [] -> logs (throw e) P.
Proof. intros HP w. exists []. by rewrite app_nil_r. Qed.

Lemma logs_answer {A} (r : res exc A) (P : res exc A -> list event -> Prop) :
  P r [] -> logs (answer r) P.
Proof. intros HP w. exists []. by rewrite app_nil_r. Qed.

Lemma logs_log e (P : res exc unit -> list event -> Prop) : P (Ok tt) [e] -> logs (log e) P.
Proof. intros HP w. by exists [e]. Qed.

Lemma logs_gets {A} (f : World St -> A) (P : res exc A -> list event -> Prop) :
  (forall a, P (Ok a) []) -> logs (gets f) P.
Proof. intros HP w. exists []. by rewrite app_nil_r. Qed.

Lemma logs_ask {A} (f : Env St -> nat -> A) (P : res exc A -> list event -> Prop) :
  (forall a, P (Ok a) []) -> logs (ask f) P.
Proof. intros HP w. exists []. by rewrite app_nil_r. Qed.

Lemma logs_read_lifecycle (P : res exc PoolLifecycleState -> list event -> Prop) :
  (forall a, P (Ok a) []) -> logs read_lifecycle P.
Proof. intros HP w. exists []. by rewrite app_nil_r. Qed.

Lemma logs_modify (f : World St -> World St) (P : res exc unit -> list event -> Prop) :
  (forall w, w_log (f w) = w_log w) -> P (Ok tt) [] -> logs (modify f) P.
Proof. intros Hf HP w. exists []. by rewrite app_nil_r. Qed.

Lemma logs_store_call {A} (m : M St exc A) (P : res exc A -> list event -> Prop) :
  (forall r, P r []) -> logs (store_call m) P.
Proof.
  intros HP w. unfold wp, store_call. destruct (m _) as [r st].
  exists []. by rewrite app_nil_r.
Qed.

Lemma logs_bind {A B} (m : WM A) (k : A -> WM B) P :
  logs m (fun r l => match r with
                     | Ok a => logs (k a) (fun r' l' => P r' (l ++ l')%list)
                     | Raise e => P (Raise e) l
                     end) ->
  logs (bind m k) P.
Proof.
  intros Hm w. apply wp_bind. eapply wp_mono; [apply Hm|].
  intros [a|e] w' (l & Hl & HP); [|by eauto].
  eapply wp_mono; [apply HP|]. intros r w'' (l' & Hl' & HP'). exists (l ++ l')%list.
  by rewrite Hl', Hl, app_assoc.
Qed.

Lemma logs_catch {A} (m : WM A) h P :
  logs m (fun r l => match r with
                     | Ok a => P (Ok a) l
                     | Raise e => match h e with
                                  | Some k => logs k (fun r' l' => P r' (l ++ l')%list)
                                  | None => P (Raise e) l
                                  end
                     end) ->
  logs (catch m h) P.
Proof.
  intros Hm w. apply wp_catch. eapply wp_mono; [apply Hm|].
  intros [a|e] w' (l & Hl & HP); [by eauto|]. destruct (h e) as [k|]; [|by eauto].
  eapply wp_mono; [apply HP|]. intros r w'' (l' & Hl' & HP'). exists (l ++ l')%list.
  by rewrite Hl', Hl, app_assoc.
Qed.

Lemma logs_attempt {A} (m : WM A) (P : res exc (res exc A) -> list event -> Prop) :
  logs m (fun r l => P (Ok r) l) -> logs (attempt m) P.
Proof. intros Hm w. apply wp_attempt, Hm. Qed.

Lemma logs_finally {A} (m : WM A) f (P : res exc A -> list event -> Prop) :
  (forall w, w_log (f w) = w_log w) -> logs m P -> logs (finally m f) P.
Proof.
  intros Hf Hm w. apply wp_finally. eapply wp_mono; [apply Hm|]. intros r w'.
  by rewrite Hf.
Qed.

Lemma logs_and {A} (m : WM A) P Q :
  logs m P -> logs m Q -> logs m (fun r l => P r l /\ Q r l).
Proof.
  intros HP HQ w. eapply wp_mono; [apply (wp_and _ _ _ _ (HP w) (HQ w))|].
  intros r w' [(l & Hl & H1) (l' & Hl' & H2)]. exists l. split_and!; [done..|].
  rewrite Hl in Hl'. by apply app_inv_head in Hl' as ->.
Qed.

(** A loop all of whose passes satisfy a property closed under appending. *)
Lemma logs_for_each {A} (f : A -> WM unit) (P : list event -> Prop) (l : list A) :
  P [] -> (forall l1 l2, P l1 -> P l2 -> P (l1 ++ l2)%list) ->
  (forall x, x ∈ l -> logs (f x) (fun _ => P)) ->
  logs (for_each f l) (fun _ => P).
Proof.
  intros Hnil Happ Hf. induction l as [|x l IH]; cbn [for_each].
  - by apply logs_ret.
  - apply logs_bind. eapply logs_mono; [apply Hf; set_solver|].
    intros [[]|e] l1 H1; [|done]. eapply logs_mono; [apply IH; intros; apply Hf; set_solver|].
    intros r l2 H2. by apply Happ.
Qed.
End traces.

Ltac logs_step :=
  cbn beta iota;
  lazymatch goal with
  | |- logs (ret _) _ => apply logs_ret
  | |- logs (throw _) _ => apply logs_throw
  | |- logs (answer _) _ => apply logs_answer
  | |- logs (log _) _ => apply logs_log
  | |- logs (gets _) _ => apply logs_gets; intros ?
  | |- logs (ask _) _ => apply logs_ask; intros ?
  | |- logs datetime_now _ => apply logs_ask; intros ?
  | |- logs monotonic _ => apply logs_ask; intros ?
  | |- logs read_lifecycle _ => apply logs_read_lifecycle; intros ?
  | |- logs (modify _) _ => apply logs_modify; [done|]
  | |- logs (store_call _) _ => apply logs_store_call; intros [?|?]
  | |- logs (bind _ _) _ => apply logs_bind
  | |- logs (catch _ _) _ => apply logs_catch
  | |- logs (except_Exception _ _) _ => apply logs_catch
  | |- logs (attempt _) _ => apply logs_attempt
  | |- logs (finally _ _) _ => apply logs_finally; [done|]
  end;
  cbn beta iota.

(** ** What a tick logs *)

Definition created_of (l : list event) : list string :=
  omap (fun e => match e with ECreated id => Some id | _ => None end) l.
Definition puts_of (l : list event) : list string :=
  omap (fun e => match e with EPut id => Some id | _ => None end) l.
Definition takes_of (l : list event) : list string :=
  omap (fun e => match e with ETake id => Some id | _ => None end) l.
Definition discards_of (l : list event) : list string :=
  omap (fun e => match e with EDiscard id => Some id | _ => None end) l.
Definition counts_of (l : list event) : list Z :=
  omap (fun e => match e with ECount n => Some n | _ => None end) l.

(** Events that no projection above sees. *)
Definition quiet (l : list event) : Prop :=
  created_of l = [] /\ puts_of l = [] /\ takes_of l = [] /\ discards_of l = [] /\ counts_of l = [].

Lemma created_app l1 l2 : created_of (l1 ++ l2) = (created_of l1 ++ created_of l2)%list.
Proof. apply omap_app. Qed.
Lemma puts_app l1 l2 : puts_of (l1 ++ l2) = (puts_of l1 ++ puts_of l2)%list.
Proof. apply omap_app. Qed.
Lemma takes_app l1 l2 : takes_of (l1 ++ l2) = (takes_of l1 ++ takes_of l2)%list.
Proof. apply omap_app. Qed.
Lemma discards_app l1 l2 : discards_of (l1 ++ l2) = (discards_of l1 ++ discards_of l2)%list.
Proof. apply omap_app. Qed.
Lemma counts_app l1 l2 : counts_of (l1 ++ l2) = (counts_of l1 ++ counts_of l2)%list.
Proof. apply omap_app. Qed.
#[export] Hint Rewrite created_app puts_app takes_app discards_app counts_app : osb.
#[export] Hint Rewrite @length_app @app_nil_r : osb.

Lemma quiet_nil : quiet [].
Proof. done. Qed.

Lemma quiet_app l1 l2 : quiet l1 -> quiet l2 -> quiet (l1 ++ l2).
Proof.
  intros (H1 & H2 & H3 & H4 & H5) (K1 & K2 & K3 & K4 & K5). unfold quiet.
  autorewrite with osb. by rewrite H1, H2, H3, H4, H5, K1, K2, K3, K4, K5.
Qed.
#[export] Hint Resolve quiet_nil quiet_app : osb.

(** Events of a part of a tick that neither creates, takes, puts nor counts. *)
Definition only_discards (l : list event) : Prop :=
  created_of l = [] /\ puts_of l = [] /\ takes_of l = [] /\ counts_of l = [].

Lemma only_discards_nil : only_discards [].
Proof. done. Qed.

Lemma only_discards_app l1 l2 : only_discards l1 -> only_discards l2 -> only_discards (l1 ++ l2).
Proof.
  intros (H1 & H2 & H3 & H4) (K1 & K2 & K3 & K4). unfold only_discards.
  autorewrite with osb. by rewrite H1, H2, H3, H4, K1, K2, K3, K4.
Qed.

Lemma quiet_only_discards l : quiet l -> only_discards l.
Proof. unfold quiet, only_discards. naive_solver. Qed.
#[export] Hint Resolve only_discards_nil only_discards_app quiet_only_discards : osb.

(** The callbacks only make calls the projections do not see. *)
Class QuietCallbacks {St} (create_one : M (World St) exc (option string))
    (on_discard : string -> M (World St) exc unit) : Prop := {
  quiet_create : logs create_one (fun _ => quiet);
  quiet_discard : forall id, logs (on_discard id) (fun _ => quiet);
}.

Ltac tally := autorewrite with osb; split_and!; simpl; (done || lia).

Section tick_facts.
Context {St : Type} `{!PoolStateStore St}.
Context (create_one : M (World St) exc (option string))
        (on_discard : string -> M (World St) exc unit).
Context `{!QuietCallbacks create_one on_discard}.

Lemma logs_call_discard id :
  logs (call_discard on_discard id)
    (fun _ l => only_discards l /\ id ∈ discards_of l).
Proof.
  unfold call_discard. logs_step. logs_step. eapply logs_mono; [apply quiet_discard|].
  intros r l (? & ? & ? & ? & ?). split; [done|]. simpl. set_solver.
Qed.

Lemma logs_discard id :
  logs (discard on_discard id) (fun _ l => only_discards l /\ id ∈ discards_of l).
Proof.
  unfold discard. logs_step. eapply logs_mono; [apply logs_call_discard|].
  intros [[]|e] l Hl; [done|]. destruct (is_Exception e); [|done].
  logs_step. by rewrite app_nil_r.
Qed.

Lemma logs_drop_created c id :
  logs (drop_created on_discard c id) (fun r l => only_discards l /\
    (r = Ok tt -> id ∈ discards_of l)).
Proof.
  unfold drop_created. logs_step. logs_step. logs_step; cbn beta iota.
  - eapply logs_mono; [apply logs_discard|]. naive_solver.
  - destruct (is_Exception e); [|done]. logs_step.
    eapply logs_mono; [apply logs_discard|]. naive_solver.
Qed.

(** Discarding a list one by one: if the loop completes, all were handed over. *)
Lemma logs_discard_all (f : string -> M (World St) exc unit) ids :
  (forall id, logs (f id) (fun r l => only_discards l /\ (r = Ok tt -> id ∈ discards_of l))) ->
  logs (for_each f ids) (fun r l => only_discards l /\ (r = Ok tt -> ids ⊆ discards_of l)).
Proof.
  intros Hf. induction ids as [|id ids IH]; cbn [for_each].
  - logs_step. split; [apply only_discards_nil|]. set_solver.
  - logs_step. eapply logs_mono; [apply Hf|]. intros [[]|e] l [Ho Hid]; [|done].
    eapply logs_mono; [apply IH|]. intros r l' [Ho' Hids]. split; [by apply only_discards_app|].
    intros ->. rewrite discards_app. specialize (Hid eq_refl). specialize (Hids eq_refl).
    set_solver.
Qed.

Lemma logs_discard_each ids :
  logs (for_each (discard on_discard) ids)
    (fun r l => only_discards l /\ (r = Ok tt -> ids ⊆ discards_of l)).
Proof.
  apply logs_discard_all. intros id. eapply logs_mono; [apply logs_discard|]. naive_solver.
Qed.

Lemma logs_shrink_one c i :
  logs (shrink_one on_discard c i)
    (fun _ l => created_of l = [] /\ puts_of l = [] /\ counts_of l = [] /\
                (length (takes_of l) <= 1)%nat).
Proof.
  unfold shrink_one, renew_lock. logs_step. logs_step; [|tally].
  destruct a; [|logs_step; tally]. logs_step. logs_step; [|tally].
  destruct a as [id|]; [|logs_step; tally]. logs_step. logs_step. logs_step.
  eapply logs_mono; [apply logs_discard|]. intros [[]|e] l [(H1 & H2 & H3 & H4) _].
  - logs_step. autorewrite with osb. simpl. rewrite H1, H2, H3, H4. tally.
  - simpl. rewrite H1, H2, H3, H4. tally.
Qed.

Lemma logs_shrink_loop c (n m : nat) :
  logs (for_return (shrink_one on_discard c) (seq m n))
    (fun _ l => created_of l = [] /\ puts_of l = [] /\ counts_of l = [] /\
                (length (takes_of l) <= n)%nat).
Proof.
  revert m. induction n as [|n IH]; intros m; cbn [seq for_return].
  - by logs_step.
  - logs_step. eapply logs_mono; [apply logs_shrink_one|].
    intros [[b|]|e] l (H1 & H2 & H3 & H4).
    + logs_step. autorewrite with osb. split_and!; (done || lia).
    + eapply logs_mono; [apply IH|]. intros r l' (K1 & K2 & K3 & K4).
      autorewrite with osb. rewrite H1, H2, H3, K1, K2, K3. split_and!; (done || lia).
    + split_and!; (done || lia).
Qed.

Lemma logs_shrink c n :
  logs (shrink_excess_idle on_discard c n)
    (fun _ l => created_of l = [] /\ puts_of l = [] /\ counts_of l = [] /\
                (length (takes_of l) <= Z.to_nat n)%nat).
Proof.
  unfold shrink_excess_idle. logs_step. eapply logs_mono; [apply logs_shrink_loop|].
  intros [[b|]|e] l Hl; [|unfold renew_lock|done].
  - logs_step. by autorewrite with osb.
  - logs_step. logs_step; [logs_step|]; by autorewrite with osb.
Qed.

(** The ids the futures hold, in order. *)
Definition ids_of (rs : list (res exc (option string))) : list string :=
  omap (fun r => match r with Ok o => o | Raise _ => None end) rs.

Lemma logs_run_futures n :
  logs (run_futures create_one n) (fun r l =>
    puts_of l = [] /\ takes_of l = [] /\ counts_of l = [] /\ (length (created_of l) <= n)%nat /\
    match r with Ok rs => created_of l = ids_of rs | Raise _ => True end).
Proof.
  induction n as [|n IH]; cbn [run_futures].
  - by logs_step.
  - logs_step. unfold run_future. logs_step. logs_step.
    eapply logs_mono; [apply quiet_create|]. intros r l (H1 & H2 & H3 & H4 & H5).
    assert (Hrest : forall l1 a, created_of l1 = ids_of [a] -> puts_of l1 = [] ->
      takes_of l1 = [] -> counts_of l1 = [] ->
      logs (bind (run_futures create_one n) (fun rs => ret (a :: rs)))
        (fun r l' => puts_of (l1 ++ l') = [] /\ takes_of (l1 ++ l') = [] /\
           counts_of (l1 ++ l') = [] /\ (length (created_of (l1 ++ l')) <= S n)%nat /\
           match r with Ok rs => created_of (l1 ++ l') = ids_of rs | Raise _ => True end)).
    { intros l1 a E1 E2 E3 E4. logs_step. eapply logs_mono; [apply IH|].
      assert (length (created_of l1) <= 1)%nat by (rewrite E1; by destruct a as [[|]|]; simpl; lia).
      intros [rs|e] l2 (K1 & K2 & K3 & K4 & K5); [logs_step|]; autorewrite with osb;
        rewrite E2, E3, E4, K1, K2, K3; split_and!; try (done || lia).
      rewrite E1, K5. by destruct a as [[|]|]. }
    destruct r as [[id|]|e]; [logs_step; logs_step; logs_step|logs_step|logs_step];
      apply Hrest; autorewrite with osb; simpl; by rewrite ?H1, ?H2, ?H3, ?H5.
Qed.

Lemma logs_submit_all n :
  logs (submit_all (St := St) n) (fun r l => l = [] /\
    match r with Ok (k, _) => (k <= n)%nat | Raise _ => False end).
Proof.
  induction n as [|n IH]; cbn [submit_all].
  - by logs_step.
  - logs_step. logs_step. destruct a; [|logs_step; split; [done|lia]].
    logs_step. eapply logs_mono; [apply IH|]. intros [[k b]|e] l [-> Hk]; [|done].
    logs_step. split; [done|]. simpl. lia.
Qed.

Lemma logs_create_batch n :
  logs (create_batch create_one n) (fun r l =>
    puts_of l = [] /\ takes_of l = [] /\ counts_of l = [] /\ (length (created_of l) <= n)%nat /\
    match r with Ok rs => created_of l = ids_of rs | Raise _ => True end).
Proof.
  unfold create_batch. logs_step. eapply logs_mono; [apply logs_submit_all|].
  intros [[k b]|e] l [-> Hk]; [|done]. logs_step.
  eapply logs_mono; [apply logs_run_futures|]. intros [rs|e] l (H1 & H2 & H3 & H4 & H5).
  - simpl. destruct b; logs_step; autorewrite with osb; split_and!; (done || (simpl in *; lia)).
  - split_and!; (done || (simpl in *; lia)).
Qed.

Lemma harvest_ids rs : forall ids failures err ids' f e,
  harvest rs ids failures err = Ok (ids', f, e) -> ids' = (ids ++ ids_of rs)%list.
Proof.
  induction rs as [|[[id|]|x] rs IH]; intros ids failures err ids' f e; simpl.
  - intros [= -> _ _]. by rewrite app_nil_r.
  - intros ->%IH. by rewrite <- app_assoc.
  - by intros ->%IH.
  - destruct (is_Exception x); [|done]. by intros ->%IH.
Qed.

Lemma logs_put_created c ids :
  logs (put_created on_discard c ids) (fun r l =>
    created_of l = [] /\ takes_of l = [] /\ counts_of l = [] /\
    (length (puts_of l) <= length ids)%nat /\
    (r = Ok tt -> forall id, id ∈ ids -> id ∈ puts_of l \/ id ∈ discards_of l)).
Proof.
  induction ids as [|id ids IH]; cbn [put_created].
  - logs_step. tally || (split_and!; try done; set_solver).
  - unfold renew_lock. logs_step. logs_step; [|split_and!; simpl; (done || lia)].
    destruct a; simpl.
    + logs_step. logs_step. logs_step; cbn beta iota.
      * logs_step. logs_step. logs_step. logs_step.
        eapply logs_mono; [apply IH|]. intros r l (H1 & H2 & H3 & H4 & H5).
        simpl. split_and!; try (done || lia). intros Hr x [->|Hx]%elem_of_cons; [set_solver|].
        specialize (H5 Hr x Hx). set_solver.
      * destruct (is_Exception e); [|logs_step; split_and!; simpl; (done || lia)].
        logs_step. logs_step. logs_step. logs_step.
        eapply logs_mono; [apply (logs_discard_all _ (id :: ids)), logs_drop_created|].
        intros r l [(H1 & H2 & H3 & H4) H5]. simpl. rewrite H2. split_and!; simpl; try (done || lia).
        intros Hr x Hx. right. by apply H5.
    + eapply logs_mono; [apply (logs_discard_each (id :: ids))|].
      intros r l [(H1 & H2 & H3 & H4) H5]. simpl. rewrite H2. split_and!; simpl; try (done || lia).
      intros Hr x Hx. right. by apply H5.
Qed.

(** What one tick may log: nothing but discards before it counts; after it
    counted [n], creations or takes within the bounds of [n], and a tick that
    returns leaves no created sandbox unaccounted for. *)
Definition tick_log (c : PoolConfig) (r : res exc unit) (l : list event) : Prop :=
  match counts_of l with
  | [] => created_of l = [] /\ puts_of l = [] /\ takes_of l = []
  | n :: _ =>
      Z.of_nat (length (created_of l)) <= Z.min (Z.max 0 (max_idle c - n)) (concurrency c) /\
      (length (puts_of l) <= length (created_of l))%nat /\
      Z.of_nat (length (takes_of l)) <= Z.min (Z.max 0 (n - max_idle c)) (concurrency c)
  end /\
  (r = Ok tt -> forall id, id ∈ created_of l -> id ∈ puts_of l \/ id ∈ discards_of l).

Lemma concurrency_pos c : 0 < warmup_concurrency c -> 0 < concurrency c.
Proof. unfold concurrency. split_ifs; lia. Qed.

Lemma tick_log_silent c r l : only_discards l -> tick_log c r l.
Proof using Type.
  intros (H1 & H2 & H3 & H4). unfold tick_log. rewrite H1, H2, H3, H4.
  split; [done|]. by intros _ id Hid%elem_of_nil.
Qed.

(** After counting [n]: creations within the bounds, all accounted for. *)
Lemma tick_log_created c n l0 (r : res exc unit) l :
  only_discards l0 -> takes_of l = [] -> counts_of l = [] ->
  (length (created_of l) <= Z.to_nat (Z.min (Z.max 0 (max_idle c - n)) (concurrency c)))%nat ->
  (length (puts_of l) <= length (created_of l))%nat ->
  (r = Ok tt -> forall id, id ∈ created_of l -> id ∈ puts_of l \/ id ∈ discards_of l) ->
  0 < concurrency c -> tick_log c r (l0 ++ ECount n :: l).
Proof using Type.
  intros (A1 & A2 & A3 & A4) H1 H2 H3 H4 H5 Hc. unfold tick_log. autorewrite with osb. simpl.
  rewrite A1, A2, A3, A4, H1. simpl. split; [lia|].
  intros Hr id Hid. specialize (H5 Hr id Hid). rewrite !elem_of_app. tauto.
Qed.

Lemma logs_create_and_put c n l0 :
  only_discards l0 ->
  logs (futures <-- create_batch create_one
          (Z.to_nat (Z.min (Z.max 0 (max_idle c - n)) (concurrency c))) ;;
        h <-- answer (harvest futures [] 0 None) ;;
        let '(created_ids, failure_count, last_error) := h in
        now <-- datetime_now ;;
        modify (fun w => set_rs (record_failures now failure_count last_error (w_rs w)) w) ;;;
        put_created on_discard c created_ids)
       (fun r l => 0 < concurrency c -> tick_log c r (l0 ++ ECount n :: l)).
Proof.
  intros Hl0. logs_step. eapply logs_mono; [apply logs_create_batch|].
  intros [rs|e] l1 (B1 & B2 & B3 & B4 & B5);
    [|by apply tick_log_created; try done; rewrite B1; simpl; lia].
  logs_step. logs_step. destruct (harvest rs [] 0 None) as [[[ids f] er]|e] eqn:Hh;
    [|autorewrite with osb; apply tick_log_created; try done; rewrite B1; simpl; lia].
  apply harvest_ids in Hh as ->. simpl. logs_step. logs_step. logs_step. logs_step.
  eapply logs_mono; [apply logs_put_created|]. intros r l2 (C1 & C2 & C3 & C4 & C5).
  rewrite !app_nil_l. apply tick_log_created; autorewrite with osb;
    rewrite ?B1, ?B2, ?B3, ?C1, ?C2, ?C3, ?B5; simpl; autorewrite with osb; try done.
  - rewrite <- B5. lia.
  - lia.
  - intros Hr id Hid. destruct (C5 Hr id Hid); set_solver.
Qed.

(** The rest of a tick once the store was reaped, with the creating branch
    left open. *)
Lemma logs_tick_rest c now ids (create : Z -> M (World St) exc unit) :
  (forall n l0, only_discards l0 ->
     logs (create (Z.min (Z.max 0 (max_idle c - n)) (concurrency c)))
       (fun r l => 0 < concurrency c -> tick_log c r (l0 ++ ECount n :: l))) ->
  logs (for_each (call_discard on_discard) ids ;;;
        counters <-- store_call (snapshot_counters (pool_name c)) ;;
        let idle := sc_idle_count counters in
        log (ECount idle) ;;;
        let to_remove := Z.min (Z.max 0 (idle - max_idle c)) (concurrency c) in
        if 0 <? to_remove then shrink_excess_idle on_discard c to_remove
        else
          let to_create := Z.min (Z.max 0 (max_idle c - idle)) (concurrency c) in
          rs <-- gets w_rs ;;
          if (to_create =? 0) || is_backoff_active now rs then renew_lock c ;;; ret tt
          else
            primary <-- renew_lock c ;;
            if primary : bool then create to_create else ret tt)
    (fun r l => 0 < concurrency c -> tick_log c r l).
Proof.
  intros Hcreate.
  logs_step. eapply logs_mono; [apply (logs_for_each _ only_discards); auto with osb|].
  { intros x _. eapply logs_mono; [apply logs_call_discard|]. naive_solver. }
  intros [[]|e] l0 Hl0; [|by intros; apply tick_log_silent].
  logs_step. logs_step; [|intros; apply tick_log_silent; auto with osb].
  cbn zeta. logs_step. logs_step. simpl. set (n := sc_idle_count _).
  assert (Hnone : forall (r : res exc unit) l, takes_of l = [] -> counts_of l = [] ->
    created_of l = [] -> puts_of l = [] -> 0 < concurrency c ->
    tick_log c r (l0 ++ ECount n :: l)).
  { intros r l H1 H2 H3 H4 Hc. apply tick_log_created; rewrite ?H3, ?H4; simpl; try (done || lia).
    intros _ id. set_solver. }
  destruct (0 <? _) eqn:Hrem.
  - eapply logs_mono; [apply logs_shrink|]. intros r l (H1 & H2 & H3 & H4) Hc.
    destruct Hl0 as (A1 & A2 & A3 & A4). unfold tick_log. autorewrite with osb. simpl.
    rewrite A1, A2, A3, A4, H1, H2. simpl. split; [lia|]. set_solver.
  - logs_step. logs_step. destruct (_ || _); unfold renew_lock at 1; logs_step; logs_step.
    + logs_step. by apply Hnone.
    + by apply Hnone.
    + destruct a1; simpl; [|logs_step; by apply Hnone]. by apply Hcreate.
    + by apply Hnone.
Qed.

Lemma logs_tick c :
  logs (run_reconcile_tick create_one on_discard c)
    (fun r l => 0 < concurrency c -> tick_log c r l).
Proof.
  unfold run_reconcile_tick. logs_step. logs_step; [|by intros; apply tick_log_silent].
  destruct a; [|by logs_step; intros; apply tick_log_silent].
  unfold run_primary_replenish_once. do 4 logs_step; [|by intros; apply tick_log_silent].
  apply (logs_tick_rest c a a0 (fun k => futures <-- create_batch create_one (Z.to_nat k) ;; _)).
  intros n l0. apply logs_create_and_put.
Qed.
End tick_facts.

(** ** Theorems *)

Section tick_theorems.
Context {St : Type} `{!PoolStateStore St}.
Context (create_one : M (World St) exc (option string))
        (on_discard : string -> M (World St) exc unit).
Context `{!QuietCallbacks create_one on_discard}.

(** C4: under any store, any environment and any interference by other
    clients, a reconcile tick that returns has accounted for every sandbox its
    warm-up futures created: each was put into the store or handed to the
    discard callback. *)
Theorem reconcile_no_orphan c :
  0 < warmup_concurrency c ->
  logs (run_reconcile_tick create_one on_discard c) (fun r l =>
    r = Ok tt -> forall id, id ∈ created_of l -> id ∈ puts_of l \/ id ∈ discards_of l).
Proof.
  intros Hc. eapply logs_mono; [by apply logs_tick|].
  intros r l Hl. apply Hl. by apply concurrency_pos.
Qed.

(** A tick that counted [n] idle sandboxes creates at most
    [max_idle - n], takes out at most [n - max_idle], in both cases at most
    [warmup_concurrency], puts back no more than it created, and so never
    shrinks and grows at once; a tick that counted nothing does neither. *)
Theorem reconcile_bounded c :
  0 < warmup_concurrency c ->
  logs (run_reconcile_tick create_one on_discard c) (fun _ l =>
    match counts_of l with
    | [] => created_of l = [] /\ puts_of l = [] /\ takes_of l = []
    | n :: _ =>
        Z.of_nat (length (created_of l)) <= Z.min (Z.max 0 (max_idle c - n)) (warmup_concurrency c) /\
        (length (puts_of l) <= length (created_of l))%nat /\
        Z.of_nat (length (takes_of l)) <= Z.min (Z.max 0 (n - max_idle c)) (warmup_concurrency c)
    end).
Proof.
  intros Hc. eapply logs_mono; [by apply logs_tick|].
  intros r l Hl. destruct (Hl (concurrency_pos c Hc)) as [Hl' _].
  assert (concurrency c = warmup_concurrency c) as <-; [|done].
  unfold concurrency. split_ifs; bool_lia.
Qed.
End tick_theorems.

(** Failures recorded one at a time, at the given instants. *)
Definition fail_at (times : list Z) (rs : ReconcileState) : ReconcileState :=
  foldl (fun rs t => record_failure t None rs) rs times.

Definition backoff_delay (k : Z) : Z :=
  Z.min (seconds 30 * 2 ^ Z.min k 30) (seconds 86400).

Lemma fail_at_app ts t rs : fail_at (ts ++ [t]) rs = record_failure t None (fail_at ts rs).
Proof. unfold fail_at. by rewrite foldl_app. Qed.

Lemma fail_at_inv th ts :
  0 < th ->
  let rs := fail_at ts (init_reconcile_state th) in
  let n := Z.of_nat (length ts) in
  rs_degraded_threshold rs = th /\ rs_backoff_base rs = seconds 30 /\
  rs_backoff_max rs = seconds 86400 /\ rs_failure_count rs = n /\
  rs_backoff_attempts rs = Z.max 0 (n - th + 1) /\
  rs_state rs = (if th <=? n then DEGRADED else HEALTHY) /\
  (if th <=? n then exists t, last ts = Some t /\ rs_backoff_until rs = Some (t + backoff_delay (n - th))
   else rs_backoff_until rs = None).
Proof.
  intros Hth. induction ts as [|t ts IH] using rev_ind; intros rs n.
  - subst rs n. simpl. rewrite (proj2 (Z.leb_gt _ _)) by lia. split_and!; try done. lia.
  - subst rs n. rewrite fail_at_app, length_app. simpl in IH |- *.
    destruct IH as (H1 & H2 & H3 & H4 & H5 & H6 & H7).
    set (rs := fail_at ts _) in *. set (m := Z.of_nat (length ts)) in *.
    replace (Z.of_nat (length ts + 1)) with (m + 1) by lia.
    unfold record_failure, record_failures. simpl. rewrite H1, H4.
    destruct (Z.leb_spec th (m + 1)); simpl.
    + split_and!; try (done || lia). exists t. split; [by rewrite last_snoc|]. rewrite H2, H3, H5.
      unfold backoff_delay. do 3 f_equal.
      replace (Z.max 0 (m - th + 1) + 1 - 1) with (m + 1 - th) by lia.
      rewrite Z.shiftl_mul_pow2 by lia. lia.
    + rewrite (proj2 (Z.leb_gt _ _)) in H6, H7 by lia. split_and!; try (done || lia).
Qed.

(** With the default settings the pool degrades exactly when the
    consecutive failures reach the threshold, and then backs off from the last
    failure for 30 s doubled once per further failure, never more than a day;
    one success clears both. *)
Theorem backoff_schedule th ts t :
  0 < th -> last ts = Some t ->
  let rs := fail_at ts (init_reconcile_state th) in
  let n := Z.of_nat (length ts) in
  (rs_state rs = DEGRADED <-> th <= n) /\
  (forall now, is_backoff_active now rs = true <->
     th <= n /\ now < t + Z.min (seconds 30 * 2 ^ Z.min (n - th) 30) (seconds 86400)) /\
  (forall now, is_backoff_active now (record_success rs) = false) /\
  rs_state (record_success rs) = HEALTHY.
Proof.
  intros Hth Hlast rs n.
  destruct (fail_at_inv th ts Hth) as (_ & _ & _ & _ & _ & H6 & H7).
  fold rs n in H6, H7. destruct (Z.leb_spec th n).
  - destruct H7 as (t' & Ht' & Hu). rewrite Hlast in Ht'. simplify_eq.
    split_and!; try done; [|by unfold record_success; simpl; rewrite H6].
    intros now. unfold is_backoff_active. rewrite Hu, H6. simpl.
    rewrite Z.ltb_lt. unfold backoff_delay. naive_solver.
  - split_and!; try done; [rewrite H6; naive_solver lia| |by unfold record_success; simpl; rewrite H6].
    intros now. unfold is_backoff_active. rewrite H7. naive_solver lia.
Qed.

Lemma backoff_schedule_witness :
  let rs := fail_at [0; 10; 20; 30] (init_reconcile_state 3) in
  (rs_state rs = DEGRADED <-> 3 <= 4) /\
  (forall now, is_backoff_active now rs = true <->
     3 <= 4 /\ now < 30 + Z.min (seconds 30 * 2 ^ Z.min (4 - 3) 30) (seconds 86400)) /\
  (forall now, is_backoff_active now (record_success rs) = false) /\
  rs_state (record_success rs) = HEALTHY.
Proof. apply (backoff_schedule 3 [0; 10; 20; 30] 30); [lia|reflexivity]. Defined.

(** ** A store whose lock renewal fails

    The protocol with [renew_primary_lock] answering once and then raising
    [PoolStateStoreUnavailableException], as the Redis store does when the
    connection drops. *)
Definition outage_store : PoolStateStore nat := {|
  try_take_idle := fun _ => ret None;
  put_idle := fun _ _ => ret tt;
  remove_idle := fun _ _ => ret tt;
  try_acquire_primary_lock := fun _ _ _ => ret true;
  renew_primary_lock := fun _ _ _ n =>
    match n with
    | O => (Ok true, 1%nat)
    | _ => (Raise PoolStateStoreUnavailableException, n)
    end;
  release_primary_lock := fun _ _ => ret tt;
  reap_expired_idle := fun _ _ => ret tt;
  snapshot_counters := fun _ => ret {| sc_idle_count := 0 |};
  snapshot_idle_entries := fun _ => ret [];
  get_max_idle := fun _ => ret None;
  set_max_idle := fun _ _ => ret tt;
  set_idle_entry_ttl := fun _ _ => ret tt;
  get_destroy_state := fun _ => ret ACTIVE;
  begin_destroy := fun _ _ => ret tt;
  clear_pool_state := fun _ => ret tt;
  mark_destroyed := fun _ _ _ => ret tt;
  try_take_idle_min_ttl := None;
  reap_expired_idle_min_ttl := None;
|}.

(** An environment in which every call succeeds and nobody interferes. *)
Definition calm_env {St} : Env St := {|
  e_now := Z.of_nat;
  e_monotonic := Z.of_nat;
  e_store_steps := fun _ st => st;
  e_lifecycle_steps := fun _ l => l;
  e_in_flight_steps := fun _ n => n;
  e_submit := fun _ => true;
  e_connect := fun _ _ => Ok tt;
  e_create := fun n _ => Ok "sb";
  e_renew := fun _ _ _ => Ok tt;
  e_kill := fun _ _ => Ok tt;
  e_close := fun _ _ => Ok tt;
  e_prepare := None;
  e_create_manager := fun _ => Ok tt;
  e_close_manager := fun _ => Ok tt;
  e_start_thread := fun _ => Ok tt;
|}.

Definition calm_world {St} (st : St) : World St := {|
  w_store := st; w_rs := init_reconcile_state 3; w_lifecycle := LC_RUNNING;
  w_in_flight := 0; w_executor := true; w_manager := true;
  w_stop_event := false; w_scheduler := true; w_current_max_idle := 10;
  w_env := calm_env; w_step := 0; w_log := [];
|}.

(** The exception path of the put loop is not covered by the cleanup: if the
    renewal before [put_idle] raises, the sandboxes already created are neither
    put nor discarded. *)
Lemma renew_error_leaks_created :
  exists w', @run_reconcile_tick nat outage_store (ret (Some "sb-1")) (fun _ => ret tt) demo_config
      (calm_world 0%nat) = (Raise PoolStateStoreUnavailableException, w') /\
    created_of (w_log w') = ["sb-1"; "sb-1"] /\ puts_of (w_log w') = [] /\
    discards_of (w_log w') = [].
Proof. eexists. split; [vm_compute; reflexivity|]. vm_compute. done. Qed.
