(* ===== verification/PoolSync.v ===== *)
(** * Synchronous sandbox pool

    [sdks/sandbox/python/src/opensandbox/sync/pool.py], [SandboxPoolSync]: the
    life cycle of a pool instance, acquiring a sandbox, warm-up, resizing and
    draining.  The instance's fields are those of [World]; the configuration is
    an argument.  Log messages, thread names and the text of exceptions are not
    modelled. *)

From Stdlib Require Import ZArith Lia String.
From stdpp Require Import base numbers strings gmap list.
From S2P Require Import Prelude PyString PoolTypes PoolStore PoolReconciler.

Open Scope string_scope.
Open Scope Z_scope.

Section pool.
Context {St : Type} `{!PoolStateStore St}.
Local Abbreviation WM A := (M (World St) exc A).
Context (cfg : PoolConfig).

(** ** Calls on sandboxes and the manager *)

Definition sandbox_kill (id : string) : WM unit :=
  r <-- ask (fun e n => e_kill e n id) ;;
  log (EKill id (is_ok r)) ;;; answer r.

Definition sandbox_close (id : string) : WM unit :=
  r <-- ask (fun e n => e_close e n id) ;;
  log (EClose id) ;;; answer r.

Definition sandbox_renew (id : string) (timeout : Z) : WM unit :=
  r <-- ask (fun e n => e_renew e n id timeout) ;;
  log (ERenew id (is_ok r)) ;;; answer r.

Definition sandbox_connect (id : string) : WM unit :=
  r <-- ask (fun e n => e_connect e n id) ;;
  log (EConnect id (is_ok r)) ;;; answer r.

(** [sandbox_factory.create(...)] or [sandbox_creator(context)] *)
Definition build_sandbox (reason : PooledSandboxCreateReason) : WM string :=
  r <-- ask (fun e n => e_create e n reason) ;;
  log (ECreateCall reason (match r with Ok id => Some id | Raise _ => None end)) ;;;
  answer r.

Definition create_sandbox_manager : WM unit :=
  r <-- ask e_create_manager ;; answer r.

(** [try: m except Exception: pass] *)
Definition best_effort (m : WM unit) : WM unit := except_Exception m (fun _ => ret tt).

Definition kill_sandbox_best_effort (id : string) : WM bool :=
  m <-- gets w_manager ;;
  if m : bool then except_Exception (sandbox_kill id ;;; ret true) (fun _ => ret false)
  else log (EKillSkipped id) ;;; ret false.

Definition discard_sandbox_callback (id : string) : WM unit :=
  kill_sandbox_best_effort id ;;; ret tt.

Definition kill_discarded_alive (ids : list string) : WM unit :=
  for_each discard_sandbox_callback ids.

Definition schedule_kill_discarded_alive (ids : list string) : WM unit :=
  match ids with
  | [] => ret tt
  | _ =>
      executor <-- gets w_executor ;;
      if executor : bool then
        accepted <-- ask e_submit ;;
        if accepted : bool then log (ESubmitKill ids) else kill_discarded_alive ids
      else kill_discarded_alive ids
  end.

(** ** Namespace checks *)

Definition ensure_pool_namespace_active : WM unit :=
  st <-- store_call (get_destroy_state (pool_name cfg)) ;;
  if bool_decide (st = ACTIVE) then ret tt else throw (PoolDestroyedException st).

Definition ensure_pool_namespace_active_for_acquire (policy : AcquirePolicy) : WM unit :=
  catch ensure_pool_namespace_active (fun e =>
    if is_StoreUnavailable e then
      Some (if policy_falls_through_to_direct_create policy then ret tt else throw e)
    else None).

Definition raise_if_pool_namespace_destroyed : WM unit :=
  catch ensure_pool_namespace_active (fun e =>
    if is_PoolDestroyed e then None
    else if is_Exception e then Some (ret tt) else None).

Definition fence_cleanup (id : string) : WM unit :=
  best_effort (sandbox_kill id) ;;; best_effort (sandbox_close id).

Definition ensure_pool_namespace_active_after_create (id : string)
    (policy : option AcquirePolicy) : WM unit :=
  catch ensure_pool_namespace_active (fun e =>
    if is_StoreUnavailable e then
      match policy with
      | Some p => if policy_falls_through_to_direct_create p then Some (ret tt)
                  else Some (fence_cleanup id ;;; throw e)
      | None => Some (fence_cleanup id ;;; throw e)
      end
    else Some (fence_cleanup id ;;; throw e)).

(** ** In-flight operations *)

Definition begin_operation : WM unit :=
  modify (fun w => set_in_flight (w_in_flight w + 1) w).

Definition end_operation (w : World St) : World St :=
  let n := w_in_flight w - 1 in set_in_flight (if n <=? 0 then 0 else n) w.

(** The [while self._in_flight > 0] loop: each pass waits on the condition,
    during which other threads end operations. *)
Fixpoint await_loop (fuel : nat) (deadline : Z) : WM bool :=
  match fuel with
  | O => throw (NonException "out of fuel")
  | S fuel =>
      in_flight <-- (fun w => let n := e_in_flight_steps (w_env w) (w_step w) (w_in_flight w) in
                              (Ok n, bump (set_in_flight n w))) ;;
      if 0 <? in_flight then
        now <-- monotonic ;;
        if deadline - now <=? 0 then ret false else await_loop fuel deadline
      else ret true
  end.

Definition await_in_flight_drain (fuel : nat) (timeout : Z) : WM bool :=
  start <-- monotonic ;; await_loop fuel (start + timeout).

(** ** Creating *)

Definition direct_create (timeout : option Z) (policy : AcquirePolicy) : WM string :=
  ensure_pool_namespace_active_for_acquire policy ;;;
  id <-- build_sandbox R_DIRECT_CREATE ;;
  match timeout with
  | None => ret tt
  | Some t =>
      r <-- attempt (sandbox_renew id t) ;;
      match r with
      | Ok _ => ret tt
      | Raise e =>
          (* try: kill() finally: close(); then re-raise *)
          k <-- attempt (sandbox_kill id) ;;
          sandbox_close id ;;;
          match k with Ok _ => throw e | Raise e' => throw e' end
      end
  end ;;;
  ensure_pool_namespace_active_after_create id (Some policy) ;;;
  ret id.

Definition create_one_body (id : string) : WM (option string) :=
  prepare <-- gets (fun w => e_prepare (w_env w)) ;;
  match prepare with
  | Some f => r <-- ask (fun _ n => f n id) ;; answer r
  | None => ret tt
  end ;;;
  st <-- read_lifecycle ;;
  if bool_decide (st = LC_RUNNING) then
    sandbox_renew id (idle_timeout cfg) ;;;
    ensure_pool_namespace_active_after_create id None ;;;
    ret (Some id)
  else best_effort (sandbox_kill id) ;;; ret None.

Definition create_one_sandbox : WM (option string) :=
  begin_operation ;;;
  finally
    (ensure_pool_namespace_active ;;;
     id <-- build_sandbox R_WARMUP ;;
     r <-- attempt (except_Exception (create_one_body id)
                      (fun e => best_effort (sandbox_kill id) ;;; throw e)) ;;
     sandbox_close id ;;;
     answer r)
    end_operation.

(** ** Acquire *)

(** The [while attempt < max_attempts] loop; [n] passes are left.  The result
    is the acquired sandbox, or [None] when the loop ends without one, with
    the pending kills and whether a candidate was tried. *)
Fixpoint acquire_loop (policy : AcquirePolicy) (timeout : option Z) (n : nat)
    (pending : list string) (attempted : bool) : WM (option string * list string * bool) :=
  match n with
  | O => ret (None, pending, attempted)
  | S n =>
    t <-- attempt (store_call (try_take_idle_with_min_ttl (pool_name cfg)
                     (Some (acquire_min_remaining_ttl cfg)))) ;;
    match t with
    | Raise e =>
        if is_StoreUnavailable e then
          if policy_falls_through_to_direct_create policy then ret (None, pending, attempted)
          else schedule_kill_discarded_alive pending ;;; throw e
        else throw e
    | Ok take =>
      for_each (fun id => log (EDropped id)) (ti_discarded_alive take) ;;;
      let pending := (pending ++ ti_discarded_alive take)%list in
      match ti_sandbox_id take with
      | None => ret (None, pending, attempted)
      | Some id =>
        log (ETake id) ;;;
        conn <-- attempt (sandbox_connect id) ;;
        match conn with
        | Raise e =>
            if is_PoolDestroyed e then schedule_kill_discarded_alive pending ;;; throw e
            else if is_Exception e then
              store_call (remove_idle (pool_name cfg) id) ;;;
              schedule_kill_discarded_alive [id] ;;;
              st <-- read_lifecycle ;;
              if bool_decide (st = LC_RUNNING) then
                ensure_pool_namespace_active ;;;
                acquire_loop policy timeout n pending true
              else
                st <-- read_lifecycle ;;
                raise_if_pool_namespace_destroyed ;;;
                schedule_kill_discarded_alive pending ;;;
                throw (PoolNotRunningException st)
            else throw e
        | Ok _ =>
            r <-- attempt (match timeout with Some t => sandbox_renew id t | None => ret tt end ;;;
                           ensure_pool_namespace_active_after_create id None) ;;
            match r with
            | Ok _ => schedule_kill_discarded_alive pending ;;; ret (Some id, pending, true)
            | Raise e =>
                if is_PoolDestroyed e then schedule_kill_discarded_alive pending ;;; throw e
                else if is_Exception e then
                  best_effort (sandbox_kill id) ;;;
                  best_effort (sandbox_close id) ;;;
                  schedule_kill_discarded_alive pending ;;;
                  throw e
                else throw e
            end
        end
      end
    end
  end.

Definition acquire_body (timeout : option Z) (policy : AcquirePolicy) : WM string :=
  st <-- read_lifecycle ;;
  if bool_decide (st = LC_RUNNING) then
    ensure_pool_namespace_active_for_acquire policy ;;;
    let max_attempts := effective_max_idle_attempts policy (max_acquire_retries cfg) in
    r <-- acquire_loop policy timeout (Z.to_nat max_attempts) [] false ;;
    let '(sandbox, pending, attempted) := r in
    match sandbox with
    | Some id => ret id
    | None =>
        schedule_kill_discarded_alive pending ;;;
        if policy_falls_through_to_direct_create policy then direct_create timeout policy
        else if attempted : bool then throw PoolAcquireFailedException
        else throw PoolEmptyException
    end
  else
    st <-- read_lifecycle ;;
    raise_if_pool_namespace_destroyed ;;;
    throw (PoolNotRunningException st).

Definition acquire (timeout : option Z) (policy : AcquirePolicy) : WM string :=
  st <-- read_lifecycle ;;
  if bool_decide (st = LC_RUNNING) then
    begin_operation ;;; finally (acquire_body timeout policy) end_operation
  else
    st <-- read_lifecycle ;;
    raise_if_pool_namespace_destroyed ;;;
    throw (PoolNotRunningException st).

(** ** Life cycle *)

Definition release_primary_lock_best_effort : WM unit :=
  best_effort (store_call (release_primary_lock (pool_name cfg) (owner_id cfg))).

(** [_stop_reconcile]; joining threads and shutting the executor down only
    wait, so they leave the fields alone. *)
Definition stop_reconcile (join_scheduler : bool) : WM unit :=
  modify (set_stop_event true) ;;;
  (if join_scheduler then modify (set_scheduler false) else ret tt) ;;;
  modify (set_executor false) ;;;
  release_primary_lock_best_effort.

Definition close_provider : WM unit :=
  m <-- gets w_manager ;;
  if m : bool then
    r <-- ask e_close_manager ;; answer r ;;; modify (set_manager false)
  else ret tt.

Definition start_body : WM unit :=
  ensure_pool_namespace_active ;;;
  create_sandbox_manager ;;;
  modify (set_manager true) ;;;
  store_call (set_idle_entry_ttl (pool_name cfg) (idle_timeout cfg)) ;;;
  store_call (set_max_idle (pool_name cfg) (max_idle cfg)) ;;;
  modify (set_executor true) ;;;
  modify (set_stop_event false) ;;;
  modify (set_scheduler true) ;;;
  modify (set_lifecycle LC_RUNNING) ;;;
  r <-- ask e_start_thread ;; answer r.

Definition start : WM unit :=
  st <-- gets w_lifecycle ;;
  if bool_decide (st = LC_RUNNING \/ st = LC_STARTING) then ret tt
  else
    modify (set_lifecycle LC_STARTING) ;;;
    except_Exception start_body (fun e =>
      stop_reconcile true ;;;
      close_provider ;;;
      modify (set_lifecycle LC_STOPPED) ;;;
      throw e).

Definition shutdown (fuel : nat) (graceful : bool) : WM unit :=
  st <-- gets w_lifecycle ;;
  if bool_decide (st = LC_STOPPED) then ret tt
  else if negb graceful then
    stop_reconcile true ;;;
    modify (set_lifecycle LC_STOPPED) ;;;
    close_provider
  else
    modify (set_lifecycle LC_DRAINING) ;;;
    stop_reconcile true ;;;
    await_in_flight_drain fuel (drain_timeout cfg) ;;;
    modify (set_lifecycle LC_STOPPED) ;;;
    close_provider.

Definition stop_after_pool_namespace_destroyed : WM unit :=
  st <-- gets w_lifecycle ;;
  if bool_decide (st = LC_STOPPED) then ret tt
  else
    stop_reconcile false ;;;
    modify (set_lifecycle LC_STOPPED) ;;;
    close_provider.

(** ** Size and snapshots *)

Definition resolve_max_idle : WM Z :=
  shared <-- store_call (get_max_idle (pool_name cfg)) ;;
  match shared with
  | Some n => ret n
  | None => gets w_current_max_idle
  end.

Definition resize (n : Z) : WM unit :=
  if n <? 0 then throw (ValueError "max_idle must be >= 0")
  else
    ensure_pool_namespace_active ;;;
    store_call (set_max_idle (pool_name cfg) n) ;;;
    modify (set_current_max_idle n).

Record PoolSnapshot := {
  ps_state : PoolState;
  ps_lifecycle_state : PoolLifecycleState;
  ps_idle_count : Z;
  ps_max_idle : Z;
  ps_failure_count : Z;
  ps_backoff_active : bool;
  ps_last_error : option exc;
  ps_in_flight_operations : Z;
}.

Definition snapshot : WM PoolSnapshot :=
  lc <-- read_lifecycle ;;
  rs <-- gets w_rs ;;
  let state := match lc with
               | LC_NOT_STARTED | LC_STOPPED => STOPPED
               | LC_DRAINING => DRAINING
               | _ => rs_state rs
               end in
  counters <-- store_call (snapshot_counters (pool_name cfg)) ;;
  n <-- resolve_max_idle ;;
  now <-- datetime_now ;;
  in_flight <-- gets w_in_flight ;;
  ret {| ps_state := state; ps_lifecycle_state := lc;
         ps_idle_count := sc_idle_count counters; ps_max_idle := n;
         ps_failure_count := rs_failure_count rs;
         ps_backoff_active := is_backoff_active now rs;
         ps_last_error := rs_last_error rs;
         ps_in_flight_operations := in_flight |}.

Definition pool_snapshot_idle_entries : WM (list IdleEntry) :=
  store_call (snapshot_idle_entries (pool_name cfg)).

(** ** Draining the idle buffer *)

(** The [try] block of [release_all_idle]: its outcome, and whether a
    temporary manager was created for the [finally] block to close. *)
Fixpoint release_loop (fuel : nat) (count : Z) (temporary : bool) : WM (res exc Z * bool) :=
  match fuel with
  | O => throw (NonException "out of fuel")
  | S fuel =>
      r <-- attempt (store_call (try_take_idle (pool_name cfg))) ;;
      match r with
      | Raise e => ret (Raise e, temporary)
      | Ok None => ret (Ok count, temporary)
      | Ok (Some id) =>
          log (ETake id) ;;;
          m <-- gets w_manager ;;
          made <-- (if m || temporary then ret (Ok tt) else attempt create_sandbox_manager) ;;
          match made with
          | Ok _ =>
              killed <-- attempt (best_effort (sandbox_kill id)) ;;
              match killed with
              | Ok _ => release_loop fuel (count + 1) (temporary || negb m)
              | Raise e => ret (Raise e, temporary || negb m)
              end
          | Raise e =>
              if is_Exception e then release_loop fuel (count + 1) temporary
              else ret (Raise e, temporary)
          end
      end
  end.

Definition release_all_idle (fuel : nat) : WM Z :=
  r <-- release_loop fuel 0 false ;;
  (if r.2 : bool then c <-- ask e_close_manager ;; answer c else ret tt) ;;;
  answer r.1.

(** [release_all_idle_parallel]: the ids taken until the buffer is empty, or
    until the store raises an [Exception], which is kept for later. *)
Fixpoint drain_loop (fuel : nat) (ids : list string) : WM (list string * option exc) :=
  match fuel with
  | O => throw (NonException "out of fuel")
  | S fuel =>
      r <-- attempt (store_call (try_take_idle (pool_name cfg))) ;;
      match r with
      | Ok None => ret (ids, None)
      | Ok (Some id) => log (ETake id) ;;; drain_loop fuel (ids ++ [id])%list
      | Raise e => if is_Exception e then ret (ids, Some e) else throw e
      end
  end.

(** The kills run on a thread pool and all of them are awaited; they are
    independent calls, listed here in the order of submission. *)
Definition release_all_idle_parallel (fuel : nat) (max_workers : Z) : WM Z :=
  if max_workers <=? 0 then throw (ValueError "max_workers must be positive")
  else
    d <-- drain_loop fuel [] ;;
    let '(ids, drain_error) := d in
    (match ids with
     | [] => ret tt
     | _ =>
         m <-- gets w_manager ;;
         if m : bool then for_each (fun id => best_effort (sandbox_kill id)) ids
         else
           made <-- attempt create_sandbox_manager ;;
           match made with
           | Ok _ =>
               r <-- attempt (for_each (fun id => best_effort (sandbox_kill id)) ids) ;;
               c <-- ask e_close_manager ;; answer c ;;; answer r
           | Raise e => if is_Exception e then ret tt else throw e
           end
     end) ;;;
    match drain_error with
    | Some e => throw e
    | None => ret (Z.of_nat (length ids))
    end.

(** ** The reconcile worker *)

Definition run_reconcile_tick_locked : WM unit :=
  st <-- read_lifecycle ;;
  if bool_decide (st = LC_RUNNING) then
    begin_operation ;;;
    finally
      (except_Exception
        (st <-- read_lifecycle ;;
         if bool_decide (st = LC_RUNNING) then
           d <-- store_call (get_destroy_state (pool_name cfg)) ;;
           if bool_decide (d = ACTIVE) then
             n <-- resolve_max_idle ;;
             c <-- answer (with_max_idle "" n cfg) ;;
             run_reconcile_tick create_one_sandbox discard_sandbox_callback c
           else stop_after_pool_namespace_destroyed
         else ret tt)
        (fun _ => ret tt))
      end_operation
  else ret tt.

Definition pool_reconcile_tick : WM unit :=
  st <-- read_lifecycle ;;
  if bool_decide (st = LC_RUNNING) then
    executor <-- gets w_executor ;;
    if executor : bool then run_reconcile_tick_locked else ret tt
  else ret tt.

(** [_run_scheduler]; [woken n] says whether the wait that ends at step [n] saw
    the stop event rather than timed out.  The result of the loop says whether
    it ended within [fuel] ticks. *)
Fixpoint scheduler_loop (woken : nat -> bool) (fuel : nat) : WM bool :=
  match fuel with
  | O => ret false
  | S fuel =>
      stop <-- gets w_stop_event ;;
      if stop : bool then ret true
      else
        pool_reconcile_tick ;;;
        stopped <-- ask (fun _ n => woken n) ;;
        if stopped : bool then ret true else scheduler_loop woken fuel
  end.

Definition run_scheduler (woken : nat -> bool) (fuel : nat) : WM bool :=
  let initial_delay := if 0 <? max_idle cfg then 0 else reconcile_interval cfg in
  stopped <-- (if 0 <? initial_delay then ask (fun _ n => woken n) else ret false) ;;
  if stopped : bool then ret true else scheduler_loop woken fuel.
End pool.

(** ** Emitting only certain events *)

(** A property of logs that holds of the empty log and is closed under
    appending. *)
Class LogClosed (P : list event -> Prop) : Prop := {
  lc_nil : P [];
  lc_app : forall l1 l2, P l1 -> P l2 -> P (l1 ++ l2)%list;
}.

#[global] Instance quiet_closed : LogClosed quiet.
Proof. constructor; auto with osb. Qed.

Definition emits {St A} (P : list event -> Prop) (m : M (World St) exc A) : Prop :=
  logs m (fun _ => P).

Section emits.
Context {St : Type} (P : list event -> Prop) `{!LogClosed P}.
Local Abbreviation WM A := (M (World St) exc A).

Lemma emits_bind {A B} (m : WM A) (k : A -> WM B) :
  emits P m -> (forall a, emits P (k a)) -> emits P (bind m k).
Proof.
  intros Hm Hk. apply logs_bind. eapply logs_mono; [apply Hm|]. intros [a|e] l Hl; [|done].
  eapply logs_mono; [apply Hk|]. intros r l' Hl'. by apply lc_app.
Qed.

Lemma emits_catch {A} (m : WM A) h :
  emits P m -> (forall e k, h e = Some k -> emits P k) -> emits P (catch m h).
Proof.
  intros Hm Hh. apply logs_catch. eapply logs_mono; [apply Hm|]. intros [a|e] l Hl; [done|].
  destruct (h e) as [k|] eqn:E; [|done]. eapply logs_mono; [by eapply Hh|].
  intros r l' Hl'. by apply lc_app.
Qed.

Lemma emits_except {A} (m : WM A) k :
  emits P m -> (forall e, emits P (k e)) -> emits P (except_Exception m k).
Proof. intros Hm Hk. apply emits_catch; [done|]. intros e k'. by destruct (is_Exception e); intros [= <-]. Qed.

Lemma emits_attempt {A} (m : WM A) : emits P m -> emits P (attempt m).
Proof. intros Hm. apply logs_attempt. exact Hm. Qed.

Lemma emits_finally {A} (m : WM A) f :
  (forall w, w_log (f w) = w_log w) -> emits P m -> emits P (finally m f).
Proof. apply logs_finally. Qed.

Lemma emits_ret {A} (a : A) : emits (St := St) P (ret a).
Proof. apply logs_ret, lc_nil. Qed.
Lemma emits_throw {A} e : emits (St := St) P (throw (A := A) e).
Proof. apply logs_throw, lc_nil. Qed.
Lemma emits_answer {A} (r : res exc A) : emits (St := St) P (answer r).
Proof. apply logs_answer, lc_nil. Qed.
Lemma emits_gets {A} (f : World St -> A) : emits P (gets f).
Proof. apply logs_gets. intros. apply lc_nil. Qed.
Lemma emits_ask {A} (f : Env St -> nat -> A) : emits P (ask f).
Proof. apply logs_ask. intros. apply lc_nil. Qed.
Lemma emits_read_lifecycle : emits (St := St) P read_lifecycle.
Proof. apply logs_read_lifecycle. intros. apply lc_nil. Qed.
Lemma emits_modify (f : World St -> World St) :
  (forall w, w_log (f w) = w_log w) -> emits P (modify f).
Proof. intros Hf. apply logs_modify; [done|apply lc_nil]. Qed.
Lemma emits_store_call {A} (m : M St exc A) : emits P (store_call m).
Proof. apply logs_store_call. intros. apply lc_nil. Qed.
Lemma emits_log e : P [e] -> emits (St := St) P (log e).
Proof. intros HP. apply logs_log. exact HP. Qed.
Lemma emits_for_each {A} (f : A -> WM unit) (l : list A) :
  (forall x, emits P (f x)) -> emits P (for_each f l).
Proof. intros Hf. apply logs_for_each; [apply lc_nil|apply lc_app|]. intros; apply Hf. Qed.
End emits.

(** Walks through a computation, splitting its tests; leaves the logged
    events as goals. *)
Ltac emits_step :=
  cbn beta iota;
  lazymatch goal with
  | |- emits _ (bind _ _) => apply emits_bind; [apply _| |intros ?]
  | |- emits _ (catch _ _) => apply emits_catch; [apply _| |intros ? ? ?]
  | |- emits _ (except_Exception _ _) => apply emits_except; [apply _| |intros ?]
  | |- emits _ (attempt _) => apply emits_attempt
  | |- emits _ (finally _ _) => apply emits_finally; [done|]
  | |- emits _ (ret _) => apply emits_ret, _
  | |- emits _ (throw _) => apply emits_throw, _
  | |- emits _ (answer _) => apply emits_answer, _
  | |- emits _ (gets _) => apply emits_gets, _
  | |- emits _ (ask _) => apply emits_ask, _
  | |- emits _ datetime_now => apply emits_ask, _
  | |- emits _ monotonic => apply emits_ask, _
  | |- emits _ read_lifecycle => apply emits_read_lifecycle, _
  | |- emits _ (modify _) => apply emits_modify; [apply _|done]
  | |- emits _ (store_call _) => apply emits_store_call, _
  | |- emits _ (log _) => apply emits_log; try done
  | |- emits _ (for_each _ _) => apply emits_for_each; [apply _|intros ?]
  | |- emits _ (match ?x with _ => _ end) => destruct x
  | H : (match ?x with _ => _ end) = Some _ |- emits _ _ => destruct x
  | H : Some _ = Some _ |- emits _ _ => injection H as <-
  | H : None = Some _ |- emits _ _ => discriminate H
  end.

Section pool_facts.
Context {St : Type} `{!PoolStateStore St} (cfg : PoolConfig).

#[export] Instance pool_callbacks_quiet :
  QuietCallbacks (create_one_sandbox cfg) (discard_sandbox_callback (St := St)).
Proof.
  constructor.
  - change (emits quiet (create_one_sandbox (St := St) cfg)).
    unfold create_one_sandbox, create_one_body, begin_operation, best_effort,
      ensure_pool_namespace_active_after_create, fence_cleanup, ensure_pool_namespace_active,
      build_sandbox, sandbox_close, sandbox_kill, sandbox_renew, best_effort.
    repeat emits_step.
  - intros id. change (emits quiet (discard_sandbox_callback (St := St) id)).
    unfold discard_sandbox_callback, kill_sandbox_best_effort, sandbox_kill.
    repeat emits_step.
Qed.
End pool_facts.

(** ** What an acquire obtains and disposes of *)

(** Sandboxes that came into the hands of the calling pool. *)
Definition obtained_of (l : list event) : list string :=
  omap (fun e => match e with
                 | ETake id | EDropped id | ECreateCall _ (Some id) => Some id
                 | _ => None
                 end) l.

(** Sandboxes whose removal was attempted, submitted, or given up for want of a
    manager. *)
Definition disposed_of (l : list event) : list string :=
  l ≫= (fun e => match e with
                 | EKill id _ | EKillSkipped id => [id]
                 | ESubmitKill ids => ids
                 | _ => []
                 end).

Lemma obtained_app l1 l2 : obtained_of (l1 ++ l2) = (obtained_of l1 ++ obtained_of l2)%list.
Proof. apply omap_app. Qed.
Lemma disposed_app l1 l2 : disposed_of (l1 ++ l2) = (disposed_of l1 ++ disposed_of l2)%list.
Proof. apply bind_app. Qed.
#[export] Hint Rewrite obtained_app disposed_app : osb.
#[global] Typeclasses Opaque obtained_of disposed_of.

(** An exception that neither reports an outage or the end of the namespace nor
    unwinds the thread. *)
Definition clean (e : exc) : bool :=
  is_Exception e && negb (is_StoreUnavailable e) && negb (is_PoolDestroyed e).

Definition raises_outage {St A} (m : M St exc A) : Prop :=
  forall s, wp m (fun r _ => match r with Ok _ => True | Raise e => clean e = false end) s.

(** What [PoolStateStore] documents of the calls [acquire] makes: they fail
    with [PoolStateStoreUnavailableException] and nothing else. *)
Class OutageStore (St : Type) `{!PoolStateStore St} : Prop := {
  outage_take : forall pool ttl, raises_outage (try_take_idle_with_min_ttl pool ttl);
  outage_remove : forall pool id, raises_outage (remove_idle pool id);
  outage_destroy_state : forall pool, raises_outage (get_destroy_state pool);
}.

Section acquire_facts.
Context {St : Type} `{!PoolStateStore St} `{!OutageStore St} (cfg : PoolConfig).
Local Abbreviation WM A := (M (World St) exc A).

Lemma logs_outage_call {A} (m : M St exc A) P :
  raises_outage m -> (forall a, P (Ok a) []) -> (forall e, clean e = false -> P (Raise e) []) ->
  logs (store_call m) P.
Proof.
  intros Hm HO HR w. unfold wp, store_call.
  specialize (Hm (e_store_steps (w_env w) (w_step w) (w_store w))). unfold wp in Hm.
  destruct (m _) as [[a|e] st]; exists []; rewrite app_nil_r; auto.
Qed.

Definition disposes {A} (ids : list string) (r : res exc A) (l : list event) : Prop :=
  obtained_of l = [] /\
  match r with Ok _ => ids ⊆ disposed_of l | Raise e => is_Exception e = false end.

Lemma logs_sandbox_kill id :
  logs (sandbox_kill (St := St) id) (fun _ l => obtained_of l = [] /\ disposed_of l = [id]).
Proof. unfold sandbox_kill. do 5 logs_step. done. Qed.

Lemma logs_sandbox_close id :
  logs (sandbox_close (St := St) id) (fun _ l => obtained_of l = [] /\ disposed_of l = []).
Proof. unfold sandbox_close. do 5 logs_step. done. Qed.

Lemma disposes_intro {A} (a : A) ids l :
  obtained_of l = [] -> disposed_of l = ids -> disposes ids (Ok a) l.
Proof. intros ? <-. by split. Qed.

Lemma logs_best_effort_kill id : logs (best_effort (sandbox_kill (St := St) id)) (disposes [id]).
Proof.
  unfold best_effort. logs_step. eapply logs_mono; [apply logs_sandbox_kill|].
  intros [[]|e] l [H1 H2]; [by apply disposes_intro|]. destruct (is_Exception e) eqn:E; [|done].
  logs_step. autorewrite with osb. by apply disposes_intro.
Qed.

Lemma logs_best_effort_close id : logs (best_effort (sandbox_close (St := St) id)) (disposes []).
Proof.
  unfold best_effort. logs_step. eapply logs_mono; [apply logs_sandbox_close|].
  intros [[]|e] l [H1 H2]; [by apply disposes_intro|]. destruct (is_Exception e) eqn:E; [|done].
  logs_step. autorewrite with osb. by apply disposes_intro.
Qed.

Lemma logs_discard_callback id : logs (discard_sandbox_callback (St := St) id) (disposes [id]).
Proof.
  unfold discard_sandbox_callback, kill_sandbox_best_effort. logs_step. logs_step. logs_step.
  destruct a.
  - logs_step. logs_step. eapply logs_mono; [apply logs_sandbox_kill|].
    intros [[]|e] l [H1 H2].
    + logs_step. logs_step. autorewrite with osb. by apply disposes_intro.
    + destruct (is_Exception e) eqn:E; [|done]. logs_step. logs_step. autorewrite with osb.
      by apply disposes_intro.
  - logs_step. logs_step. logs_step. logs_step. split; [done|]. simpl. set_solver.
Qed.

Lemma logs_kill_discarded ids : logs (kill_discarded_alive (St := St) ids) (disposes ids).
Proof.
  unfold kill_discarded_alive. induction ids as [|id ids IH]; cbn [for_each].
  - logs_step. split; [done|set_solver].
  - logs_step. eapply logs_mono; [apply logs_discard_callback|].
    intros [[]|e] l [H1 H2]; [|done]. eapply logs_mono; [apply IH|].
    intros [[]|e] l' [K1 K2]; unfold disposes; autorewrite with osb; rewrite H1, K1;
      (split; [done|]); [set_solver|done].
Qed.

Lemma logs_schedule_kill ids : logs (schedule_kill_discarded_alive (St := St) ids) (disposes ids).
Proof.
  unfold schedule_kill_discarded_alive. destruct ids as [|id ids].
  { logs_step. split; [done|set_solver]. }
  logs_step. logs_step. destruct a; [|apply logs_kill_discarded].
  logs_step. logs_step. destruct a; [|apply logs_kill_discarded].
  logs_step. split; [done|]. simpl. by rewrite app_nil_r.
Qed.

(** A check that logs nothing and only fails with an outage or a fence. *)
Definition unclean_check {A} (r : res exc A) (l : list event) : Prop :=
  l = [] /\ match r with Ok _ => True | Raise e => clean e = false end.

Lemma logs_namespace_active : logs (ensure_pool_namespace_active (St := St) cfg) unclean_check.
Proof.
  unfold ensure_pool_namespace_active. logs_step.
  apply logs_outage_call; [apply outage_destroy_state| |by split].
  intros st. case_bool_decide; logs_step; by split.
Qed.

Lemma logs_namespace_active_for_acquire policy :
  logs (ensure_pool_namespace_active_for_acquire (St := St) cfg policy) unclean_check.
Proof.
  unfold ensure_pool_namespace_active_for_acquire. logs_step.
  eapply logs_mono; [apply logs_namespace_active|]. intros [[]|e] l [-> He]; [done|].
  destruct (is_StoreUnavailable e) eqn:E; [|done].
  destruct (policy_falls_through_to_direct_create policy); logs_step; by split.
Qed.

Lemma logs_raise_if_destroyed :
  logs (raise_if_pool_namespace_destroyed (St := St) cfg) unclean_check.
Proof.
  unfold raise_if_pool_namespace_destroyed. logs_step.
  eapply logs_mono; [apply logs_namespace_active|]. intros [[]|e] l [-> He]; [done|].
  destruct (is_PoolDestroyed e); [done|]. destruct (is_Exception e) eqn:E; [|done].
  logs_step. by split.
Qed.

Lemma logs_fence_cleanup id : logs (fence_cleanup (St := St) id) (disposes [id]).
Proof.
  unfold fence_cleanup. logs_step. eapply logs_mono; [apply logs_best_effort_kill|].
  intros [[]|e] l [H1 H2]; [|done]. eapply logs_mono; [apply logs_best_effort_close|].
  intros [[]|e] l' [K1 K2]; unfold disposes; autorewrite with osb; rewrite H1, K1;
    (split; [done|]); [set_solver|done].
Qed.

Lemma logs_active_after_create id policy :
  logs (ensure_pool_namespace_active_after_create (St := St) cfg id policy)
    (fun r l => obtained_of l = [] /\
       match r with Ok _ => True | Raise e => clean e = false end).
Proof.
  unfold ensure_pool_namespace_active_after_create. logs_step.
  eapply logs_mono; [apply logs_namespace_active|]. intros [[]|e] l [-> He]; [done|].
  assert (Hc : logs (fence_cleanup (St := St) id ;;; throw (A := unit) e)
    (fun r l' => obtained_of ([] ++ l') = [] /\
       match r with Ok _ => True | Raise e => clean e = false end)).
  { logs_step. eapply logs_mono; [apply logs_fence_cleanup|]. intros [[]|e'] l [H1 H2].
    - logs_step. by autorewrite with osb.
    - unfold clean. by rewrite H2. }
  destruct (is_StoreUnavailable e); [|exact Hc]. destruct policy as [p|]; [|exact Hc].
  destruct (policy_falls_through_to_direct_create p); [by logs_step|exact Hc].
Qed.

(** No obtained sandbox is left over: [kept] are the ones the caller still
    holds. *)
Definition accounted (kept : list string) (l : list event) : Prop :=
  obtained_of l ⊆ (kept ++ disposed_of l)%list.

Lemma accounted_app kept l1 l2 :
  accounted kept l1 -> accounted kept l2 -> accounted kept (l1 ++ l2).
Proof. unfold accounted. autorewrite with osb. set_solver. Qed.

Definition acquired (pending : list string) (r : res exc string) (l : list event) : Prop :=
  match r with
  | Ok id => id ∈ obtained_of l /\ pending ++ obtained_of l ⊆ id :: disposed_of l
  | Raise e => clean e = true -> pending ++ obtained_of l ⊆ disposed_of l
  end%list.

Lemma logs_sandbox_renew id t :
  logs (sandbox_renew (St := St) id t) (fun _ l => obtained_of l = [] /\ disposed_of l = []).
Proof. unfold sandbox_renew. do 5 logs_step. done. Qed.

Lemma logs_sandbox_connect id :
  logs (sandbox_connect (St := St) id) (fun _ l => obtained_of l = [] /\ disposed_of l = []).
Proof. unfold sandbox_connect. do 5 logs_step. done. Qed.

Lemma logs_build_sandbox reason :
  logs (build_sandbox (St := St) reason) (fun r l => disposed_of l = [] /\
    obtained_of l = match r with Ok id => [id] | Raise _ => [] end).
Proof. unfold build_sandbox. do 5 logs_step. by destruct a. Qed.

(** Renewing a fresh sandbox: on failure it has been killed. *)
Lemma logs_renew_or_kill id timeout :
  logs (match timeout with
        | None => ret tt
        | Some t =>
            r <-- attempt (sandbox_renew (St := St) id t) ;;
            match r with
            | Ok _ => ret tt
            | Raise e =>
                k <-- attempt (sandbox_kill id) ;;
                sandbox_close id ;;;
                match k with Ok _ => throw e | Raise e' => throw e' end
            end
        end)
    (fun r l => obtained_of l = [] /\ match r with Ok _ => True | Raise _ => id ∈ disposed_of l end).
Proof.
  destruct timeout as [t|]; [|by logs_step].
  logs_step. logs_step. eapply logs_mono; [apply logs_sandbox_renew|].
  intros [[]|e] l [H1 H2]; [logs_step; by autorewrite with osb|].
  logs_step. logs_step. eapply logs_mono; [apply logs_sandbox_kill|]. intros k l1 [K1 K2].
  assert (Hl : forall l2, obtained_of l2 = [] ->
    obtained_of (l ++ l1 ++ l2) = [] /\ id ∈ disposed_of (l ++ l1 ++ l2)).
  { intros l2 H3. autorewrite with osb. rewrite H1, K1, K2, H3. set_solver. }
  logs_step. eapply logs_mono; [apply logs_sandbox_close|]. intros [[]|e'] l2 [L1 L2].
  - destruct k as [[]|e']; logs_step; autorewrite with osb; specialize (Hl l2 L1);
      by autorewrite with osb in Hl.
  - by apply Hl.
Qed.

Lemma logs_direct_create timeout policy :
  logs (direct_create (St := St) cfg timeout policy) (acquired []).
Proof.
  unfold direct_create. logs_step. eapply logs_mono; [apply logs_namespace_active_for_acquire|].
  intros [[]|e] l [-> He]; [|by intros ?; congruence].
  logs_step. eapply logs_mono; [apply logs_build_sandbox|].
  intros [id|e] l0 [H1 H2]; [|intros _; simpl; rewrite H2; set_solver].
  logs_step. eapply logs_mono; [apply logs_renew_or_kill|]. intros [[]|e] l1 [K1 K2].
  - logs_step. eapply logs_mono; [apply logs_active_after_create|].
    intros [[]|e] l2 [L1 L2]; [|by intros ?; congruence]. logs_step.
    simpl. autorewrite with osb. rewrite H2, K1, L1. set_solver.
  - intros _. simpl. autorewrite with osb. rewrite H2, K1. set_solver.
Qed.

Definition loop_post (pending : list string) (r : res exc (option string * list string * bool))
    (l : list event) : Prop :=
  match r with
  | Ok (Some id, _, _) => acquired pending (Ok id) l
  | Ok (None, pending', _) => (pending ++ obtained_of l ⊆ pending' ++ disposed_of l)%list
  | Raise e => acquired pending (Raise e) l
  end.

Lemma incl_prefix (p o0 d0 o d k : list string) :
  (o0 ⊆ p ++ d0 -> p ++ o ⊆ k ++ d -> p ++ (o0 ++ o) ⊆ k ++ (d0 ++ d))%list.
Proof.
  intros H0 H x. specialize (H0 x). specialize (H x). rewrite !elem_of_app in *. tauto.
Qed.

(** Events before which everything obtained was disposed of or is pending. *)
Lemma loop_post_prefix pending r l0 l :
  obtained_of l0 ⊆ (pending ++ disposed_of l0)%list ->
  loop_post pending r l -> loop_post pending r (l0 ++ l).
Proof.
  intros H0. destruct r as [[[[id|] p] b]|e]; simpl; autorewrite with osb.
  - intros [Hid H]. split; [set_solver|]. by apply (incl_prefix _ _ _ _ _ [id]).
  - by apply incl_prefix.
  - intros H Hc. by apply (incl_prefix _ _ _ _ _ []), H.
Qed.

Lemma loop_post_unclean pending e l : clean e = false -> loop_post pending (Raise e) l.
Proof. intros He Hc. congruence. Qed.

Lemma unclean_NonException e : is_Exception e = false -> clean e = false.
Proof. unfold clean. by intros ->. Qed.

Lemma logs_log_dropped ids :
  logs (for_each (fun id => log (St := St) (EDropped id)) ids)
    (fun r l => r = Ok tt /\ obtained_of l = ids /\ disposed_of l = []).
Proof.
  induction ids as [|id ids IH]; cbn [for_each]; [by logs_step|]. logs_step. logs_step.
  eapply logs_mono; [apply IH|]. intros r l (-> & H1 & H2). simpl. by rewrite H1, H2.
Qed.

(** Scheduling the pending kills and then raising. *)
Lemma logs_schedule_throw pending e l0 :
  obtained_of l0 ⊆ (pending ++ disposed_of l0)%list ->
  logs (schedule_kill_discarded_alive (St := St) pending ;;; throw e)
    (fun r l => loop_post pending r (l0 ++ l)).
Proof.
  intros H0. logs_step. eapply logs_mono; [apply logs_schedule_kill|].
  intros [[]|e'] l [H1 H2]; [|by apply loop_post_unclean, unclean_NonException].
  logs_step. intros _. autorewrite with osb. rewrite H1. set_solver.
Qed.

(** A candidate that could not be reached. *)
Lemma logs_stale policy timeout n id pending l0 :
  obtained_of l0 ⊆ (id :: pending ++ disposed_of l0)%list ->
  (forall pending b, logs (acquire_loop (St := St) cfg policy timeout n pending b) (loop_post pending)) ->
  logs (store_call (remove_idle (pool_name cfg) id) ;;;
        schedule_kill_discarded_alive [id] ;;;
        st <-- read_lifecycle ;;
        if bool_decide (st = LC_RUNNING) then
          ensure_pool_namespace_active cfg ;;;
          acquire_loop cfg policy timeout n pending true
        else
          st <-- read_lifecycle ;;
          raise_if_pool_namespace_destroyed cfg ;;;
          schedule_kill_discarded_alive pending ;;;
          throw (PoolNotRunningException st))
    (fun r l => loop_post pending r (l0 ++ l)).
Proof.
  intros H0 IH. logs_step. apply logs_outage_call; [apply outage_remove| |auto using loop_post_unclean].
  intros _. logs_step. eapply logs_mono; [apply logs_schedule_kill|].
  intros [[]|e] l1 [H1 H2]; [|by apply loop_post_unclean, unclean_NonException].
  logs_step. logs_step. case_bool_decide.
  - logs_step. eapply logs_mono; [apply logs_namespace_active|].
    intros [[]|e] l [-> He]; [|by apply loop_post_unclean]. eapply logs_mono; [apply IH|].
    intros r l2. rewrite !app_nil_l, app_assoc. apply loop_post_prefix.
    autorewrite with osb. rewrite H1. set_solver.
  - logs_step. logs_step. logs_step. eapply logs_mono; [apply logs_raise_if_destroyed|].
    intros [[]|e] l [-> He]; [|by apply loop_post_unclean].
    eapply logs_mono; [apply (logs_schedule_throw pending _ (l0 ++ l1))|].
    + autorewrite with osb. rewrite H1. set_solver.
    + intros r l. by rewrite !app_nil_l, <- app_assoc.
Qed.

(** A candidate that answered: renewed and checked against the fence. *)
Lemma logs_connected timeout id pending l0 :
  id ∈ obtained_of l0 ->
  obtained_of l0 ⊆ (id :: pending ++ disposed_of l0)%list ->
  logs (r <-- attempt (match timeout with
                       | Some t => sandbox_renew id t
                       | None => ret tt
                       end ;;;
                       ensure_pool_namespace_active_after_create cfg id None) ;;
        match r with
        | Ok _ => schedule_kill_discarded_alive pending ;;; ret (Some id, pending, true)
        | Raise e =>
            if is_PoolDestroyed e then schedule_kill_discarded_alive pending ;;; throw e
            else if is_Exception e then
              best_effort (sandbox_kill id) ;;;
              best_effort (sandbox_close id) ;;;
              schedule_kill_discarded_alive pending ;;;
              throw e
            else throw e
        end)
    (fun r l => loop_post pending r (l0 ++ l)).
Proof.
  intros Hid H0. logs_step. logs_step.
  eapply (logs_mono _ (fun r l => obtained_of l = [] )).
  { logs_step. eapply (logs_mono _ (fun r l => obtained_of l = [])).
    - destruct timeout as [t|]; [|by logs_step]. eapply logs_mono; [apply logs_sandbox_renew|].
      naive_solver.
    - intros [[]|e] l Hl; [|done]. eapply logs_mono; [apply logs_active_after_create|].
      intros r l' [Hl' _]. autorewrite with osb. by rewrite Hl, Hl'. }
  intros [[]|e] l1 H1.
  - logs_step. eapply logs_mono; [apply logs_schedule_kill|].
    intros [[]|e] l2 [K1 K2]; [|by apply loop_post_unclean, unclean_NonException].
    logs_step. simpl. autorewrite with osb. rewrite H1, K1. set_solver.
  - destruct (is_PoolDestroyed e) eqn:Ed; [|destruct (is_Exception e) eqn:Ee].
    + logs_step. eapply logs_mono; [apply logs_schedule_kill|].
      intros [[]|e'] l2 [K1 K2]; [|by apply loop_post_unclean, unclean_NonException].
      logs_step. apply loop_post_unclean. unfold clean. by rewrite Ed, andb_false_r.
    + logs_step. eapply logs_mono; [apply logs_best_effort_kill|].
      intros [[]|e'] l2 [K1 K2]; [|by apply loop_post_unclean, unclean_NonException].
      logs_step. eapply logs_mono; [apply logs_best_effort_close|].
      intros [[]|e'] l3 [L1 L2]; [|by apply loop_post_unclean, unclean_NonException].
      eapply logs_mono; [apply (logs_schedule_throw pending e (l0 ++ l1 ++ l2 ++ l3))|].
      * autorewrite with osb. rewrite H1, K1, L1. set_solver.
      * intros r l. cbn beta. by rewrite <- ?app_assoc.
    + logs_step. by apply loop_post_unclean, unclean_NonException.
Qed.

Lemma logs_acquire_loop policy timeout n : forall pending b,
  logs (acquire_loop (St := St) cfg policy timeout n pending b) (loop_post pending).
Proof.
  induction n as [|n IH]; intros pending b; cbn [acquire_loop].
  { logs_step. simpl. set_solver. }
  logs_step. logs_step. apply logs_outage_call; [apply outage_take| |].
  - intros take. logs_step. eapply logs_mono; [apply logs_log_dropped|].
    intros r l0 (-> & D1 & D2). set (pending' := (pending ++ _)%list).
    assert (Hw : forall r l, loop_post pending' r l -> loop_post pending r l).
    { intros [[[[id|] p] b']|e] l; simpl; set_solver. }
    destruct (ti_sandbox_id take) as [id|].
    + logs_step. logs_step. logs_step. logs_step. eapply logs_mono; [apply logs_sandbox_connect|].
      intros conn l1 [C1 C2].
      assert (Hl : obtained_of (l0 ++ [ETake id] ++ l1) ⊆
                   id :: pending' ++ disposed_of (l0 ++ [ETake id] ++ l1)).
      { autorewrite with osb. rewrite D1, C1. set_solver. }
      destruct conn as [[]|e].
      * eapply logs_mono; [apply (logs_connected timeout id pending' (l0 ++ [ETake id] ++ l1))|].
        -- autorewrite with osb. set_solver.
        -- done.
        -- intros r l. cbn beta. rewrite <- ?app_assoc. apply Hw.
      * destruct (is_PoolDestroyed e) eqn:Ed; [|destruct (is_Exception e) eqn:Ee].
        -- logs_step. eapply logs_mono; [apply logs_schedule_kill|].
           intros [[]|e'] l2 [K1 K2]; [|by apply loop_post_unclean, unclean_NonException].
           logs_step. apply loop_post_unclean. unfold clean. by rewrite Ed, andb_false_r.
        -- eapply logs_mono; [by apply (logs_stale policy timeout n id pending' (l0 ++ [ETake id] ++ l1))|].
           intros r l. cbn beta. rewrite <- ?app_assoc. apply Hw.
        -- logs_step. by apply loop_post_unclean, unclean_NonException.
    + logs_step. simpl. autorewrite with osb. rewrite D1. set_solver.
  - intros e He. destruct (is_StoreUnavailable e) eqn:Es; [|by logs_step; apply loop_post_unclean].
    destruct (policy_falls_through_to_direct_create policy).
    + logs_step. simpl. set_solver.
    + eapply (logs_schedule_throw pending e []). set_solver.
Qed.
End acquire_facts.

(** ** Candidates and creations *)

Definition creates_of (l : list event) : list PooledSandboxCreateReason :=
  omap (fun e => match e with ECreateCall reason _ => Some reason | _ => None end) l.

Lemma creates_app l1 l2 : creates_of (l1 ++ l2) = (creates_of l1 ++ creates_of l2)%list.
Proof. apply omap_app. Qed.
#[export] Hint Rewrite creates_app : osb.

Definition no_candidate (l : list event) : Prop := takes_of l = [] /\ creates_of l = [].

#[global] Instance no_candidate_closed : LogClosed no_candidate.
Proof.
  constructor; [done|]. unfold no_candidate. intros l1 l2 [H1 H2] [K1 K2].
  autorewrite with osb. by rewrite H1, H2, K1, K2.
Qed.

Section attempt_facts.
Context {St : Type} `{!PoolStateStore St} (cfg : PoolConfig).

Lemma emits_schedule_kill ids : emits no_candidate (schedule_kill_discarded_alive (St := St) ids).
Proof.
  unfold schedule_kill_discarded_alive, kill_discarded_alive, discard_sandbox_callback,
    kill_sandbox_best_effort, sandbox_kill. repeat emits_step.
Qed.

Lemma emits_checks :
  emits no_candidate (ensure_pool_namespace_active (St := St) cfg) /\
  emits no_candidate (raise_if_pool_namespace_destroyed (St := St) cfg) /\
  (forall policy, emits no_candidate (ensure_pool_namespace_active_for_acquire (St := St) cfg policy)) /\
  (forall id policy, emits no_candidate
     (ensure_pool_namespace_active_after_create (St := St) cfg id policy)).
Proof.
  unfold raise_if_pool_namespace_destroyed, ensure_pool_namespace_active_for_acquire,
    ensure_pool_namespace_active_after_create, fence_cleanup, sandbox_kill, sandbox_close,
    best_effort, ensure_pool_namespace_active.
  split_and!; intros; repeat emits_step.
Qed.

Lemma logs_of_emits {A} P (m : M (World St) exc A) : emits P m -> logs m (fun _ => P).
Proof. done. Qed.

Definition few_takes (n : nat) (l : list event) : Prop :=
  (length (takes_of l) <= n)%nat /\ creates_of l = [].

Lemma few_takes_prefix n l0 l : no_candidate l0 -> few_takes n l -> few_takes n (l0 ++ l).
Proof.
  intros [H1 H2] [K1 K2]. unfold few_takes. autorewrite with osb. by rewrite H1, H2, K2.
Qed.

Lemma few_takes_nothing n l : no_candidate l -> few_takes n l.
Proof. intros [H1 H2]. unfold few_takes. rewrite H1. simpl. split; [lia|done]. Qed.

Lemma few_takes_take n id l : few_takes n l -> few_takes (S n) (ETake id :: l).
Proof. intros [H1 H2]. split; simpl; [lia|done]. Qed.

Lemma logs_few_bind {A B} n (m : M (World St) exc A) (k : A -> M (World St) exc B) :
  emits no_candidate m -> (forall a, logs (k a) (fun _ => few_takes n)) ->
  logs (bind m k) (fun _ => few_takes n).
Proof.
  intros Hm Hk. logs_step. eapply logs_mono; [apply Hm|].
  intros [a|e] l Hl; [|by apply few_takes_nothing].
  eapply logs_mono; [apply Hk|]. intros r l'. by apply few_takes_prefix.
Qed.

Lemma logs_few_silent {A} n (m : M (World St) exc A) :
  emits no_candidate m -> logs m (fun _ => few_takes n).
Proof. intros Hm. eapply logs_mono; [apply Hm|]. intros r l. apply few_takes_nothing. Qed.

Lemma logs_loop_takes policy timeout n : forall pending b,
  logs (acquire_loop (St := St) cfg policy timeout n pending b) (fun _ => few_takes n).
Proof.
  destruct emits_checks as (C1 & C2 & C3 & C4).
  induction n as [|n IH]; intros pending b; cbn [acquire_loop]; [by logs_step|].
  apply logs_few_bind; [repeat emits_step|]. intros [take|e].
  2:{ apply logs_few_silent. repeat (apply emits_schedule_kill || emits_step). }
  apply logs_few_bind; [repeat emits_step|]. intros _.
  destruct (ti_sandbox_id take) as [id|]; [|apply logs_few_silent; repeat emits_step].
  logs_step. logs_step. eapply (logs_mono _ (fun _ => few_takes n)); [|intros; by apply few_takes_take].
  apply logs_few_bind; [unfold sandbox_connect; repeat emits_step|]. intros [[]|e].
  { apply logs_few_silent. unfold best_effort, sandbox_kill, sandbox_close, sandbox_renew.
    repeat (apply emits_schedule_kill || apply C4 || emits_step). }
  destruct (is_PoolDestroyed e); [|destruct (is_Exception e)];
    [apply logs_few_silent; repeat (apply emits_schedule_kill || emits_step)| |
     apply logs_few_silent; repeat emits_step].
  apply logs_few_bind; [repeat emits_step|]. intros _.
  apply logs_few_bind; [apply emits_schedule_kill|]. intros _.
  apply logs_few_bind; [repeat emits_step|]. intros st. case_bool_decide.
  - apply logs_few_bind; [apply C1|]. intros _. apply IH.
  - apply logs_few_silent. repeat (apply emits_schedule_kill || apply C2 || emits_step).
Qed.

Lemma logs_direct_create_once timeout policy :
  logs (direct_create (St := St) cfg timeout policy) (fun _ l => takes_of l = [] /\
    (creates_of l = [] \/ creates_of l = [R_DIRECT_CREATE])).
Proof.
  destruct emits_checks as (C1 & C2 & C3 & C4). unfold direct_create. logs_step.
  eapply logs_mono; [apply C3|]. intros [[]|e] l [H1 H2]; [|by auto].
  unfold build_sandbox. do 6 logs_step.
  destruct a as [id|e]; [|autorewrite with osb; simpl; rewrite H1, H2; by auto].
  eapply logs_mono; [apply (logs_of_emits no_candidate)|].
  - unfold sandbox_renew, sandbox_kill, sandbox_close. repeat (apply C4 || emits_step).
  - intros r l' [K1 K2]. autorewrite with osb. simpl. rewrite H1, H2, K1, K2. by auto.
Qed.
End attempt_facts.

(** ** Preserving a relation between the worlds before and after *)

Definition preserves {St A} (R : World St -> World St -> Prop) (m : M (World St) exc A) : Prop :=
  forall w, wp m (fun _ w' => R w w') w.

Section preserves.
Context {St : Type} (R : World St -> World St -> Prop) `{!PreOrder R}.
Local Abbreviation WM A := (M (World St) exc A).

Lemma preserves_bind {A B} (m : WM A) (k : A -> WM B) :
  preserves R m -> (forall a, preserves R (k a)) -> preserves R (bind m k).
Proof.
  intros Hm Hk w. apply wp_bind. eapply wp_mono; [apply Hm|]. intros [a|e] w' Hw; [|done].
  eapply wp_mono; [apply Hk|]. intros r w'' Hw'. by transitivity w'.
Qed.

Lemma preserves_catch {A} (m : WM A) h :
  preserves R m -> (forall e k, h e = Some k -> preserves R k) -> preserves R (catch m h).
Proof.
  intros Hm Hh w. apply wp_catch. eapply wp_mono; [apply Hm|]. intros [a|e] w' Hw; [done|].
  destruct (h e) as [k|] eqn:E; [|done]. eapply wp_mono; [by eapply Hh|].
  intros r w'' Hw'. by transitivity w'.
Qed.

Lemma preserves_except {A} (m : WM A) k :
  preserves R m -> (forall e, preserves R (k e)) -> preserves R (except_Exception m k).
Proof.
  intros Hm Hk. apply preserves_catch; [done|]. intros e k'. by destruct (is_Exception e); intros [= <-].
Qed.

Lemma preserves_attempt {A} (m : WM A) : preserves R m -> preserves R (attempt m).
Proof. intros Hm w. apply wp_attempt, Hm. Qed.

Lemma preserves_ret {A} (a : A) : preserves R (ret a).
Proof. intros w. apply wp_ret. reflexivity. Qed.
Lemma preserves_throw {A} e : preserves R (throw (A := A) e).
Proof. intros w. apply wp_throw. reflexivity. Qed.
Lemma preserves_answer {A} (r : res exc A) : preserves R (answer r).
Proof. intros w. unfold wp, answer. reflexivity. Qed.
Lemma preserves_gets {A} (f : World St -> A) : preserves R (gets f).
Proof. intros w. apply wp_gets. reflexivity. Qed.
Lemma preserves_modify f : (forall w, R w (f w)) -> preserves R (modify f).
Proof. intros Hf w. apply wp_modify, Hf. Qed.

Lemma preserves_for_each {A} (f : A -> WM unit) (l : list A) :
  (forall x, preserves R (f x)) -> preserves R (for_each f l).
Proof.
  intros Hf. induction l as [|x l IH]; cbn [for_each]; [apply preserves_ret|].
  by apply preserves_bind.
Qed.

Lemma preserves_for_return {A B} (f : A -> WM (option B)) (l : list A) :
  (forall x, preserves R (f x)) -> preserves R (for_return f l).
Proof.
  intros Hf. induction l as [|x l IH]; cbn [for_return]; [apply preserves_ret|].
  apply preserves_bind; [done|]. intros [b|]; [apply preserves_ret|done].
Qed.
End preserves.

(** The count of operations in flight is the one before. *)
Definition same_in_flight {St} (w w' : World St) : Prop :=
  0 <= w_in_flight w -> w_in_flight w' = w_in_flight w.

#[global] Instance same_in_flight_preorder {St} : PreOrder (same_in_flight (St := St)).
Proof.
  split; [done|]. intros w1 w2 w3 H12 H23 H. unfold same_in_flight in *.
  rewrite H23; rewrite H12 by done; done.
Qed.

Section in_flight.
Context {St : Type} `{!PoolStateStore St}.
Local Abbreviation WM A := (M (World St) exc A).

Lemma in_flight_store_call {A} (m : M St exc A) : preserves same_in_flight (store_call m).
Proof. intros w. unfold wp, store_call. by destruct (m _). Qed.

Lemma in_flight_ask {A} (f : Env St -> nat -> A) : preserves same_in_flight (ask f).
Proof. done. Qed.

Lemma in_flight_read : preserves (St := St) same_in_flight read_lifecycle.
Proof. done. Qed.

(** [self._begin_operation(); try: ... finally: self._end_operation()] *)
Lemma in_flight_operation {A} (m : WM A) :
  preserves same_in_flight m ->
  preserves same_in_flight (begin_operation ;;; finally m end_operation).
Proof.
  intros Hm w. apply wp_bind. unfold begin_operation. apply wp_modify. apply wp_finally.
  eapply wp_mono; [apply Hm|]. intros r w' Hw H. unfold same_in_flight in *. simpl in *.
  rewrite Hw by lia. split_ifs; bool_lia.
Qed.
End in_flight.

Ltac flight_step :=
  cbn beta iota;
  lazymatch goal with
  | |- preserves _ (bind begin_operation (fun _ => finally _ end_operation)) =>
      apply in_flight_operation
  | |- preserves _ (bind _ _) => apply preserves_bind; [apply _| |intros ?]
  | |- preserves _ (except_Exception _ _) => apply preserves_except; [apply _| |intros ?]
  | |- preserves _ (catch _ _) => apply preserves_catch; [apply _| |intros ? ? ?]
  | |- preserves _ (attempt _) => apply preserves_attempt
  | |- preserves _ (ret _) => apply preserves_ret, _
  | |- preserves _ (throw _) => apply preserves_throw, _
  | |- preserves _ (answer _) => apply preserves_answer, _
  | |- preserves _ (gets _) => apply preserves_gets, _
  | |- preserves _ (ask _) => apply in_flight_ask
  | |- preserves _ datetime_now => apply in_flight_ask
  | |- preserves _ read_lifecycle => apply in_flight_read
  | |- preserves _ (log _) => done
  | |- preserves _ (modify _) => apply preserves_modify; done
  | |- preserves _ (store_call _) => apply in_flight_store_call
  | |- preserves _ (for_each _ _) => apply preserves_for_each; [apply _|intros ?]
  | |- preserves _ (for_return _ _) => apply preserves_for_return; [apply _|intros ?]
  | |- preserves _ (match ?x with _ => _ end) => destruct x
  | H : (match ?x with _ => _ end) = Some _ |- preserves _ _ => destruct x
  | H : Some _ = Some _ |- preserves _ _ => injection H as <-
  | H : None = Some _ |- preserves _ _ => discriminate H
  end.

Section in_flight_facts.
Context {St : Type} `{!PoolStateStore St} (cfg : PoolConfig).

Lemma in_flight_schedule ids :
  preserves same_in_flight (schedule_kill_discarded_alive (St := St) ids).
Proof.
  unfold schedule_kill_discarded_alive, kill_discarded_alive, discard_sandbox_callback,
    kill_sandbox_best_effort, sandbox_kill. repeat flight_step.
Qed.

Lemma in_flight_checks :
  preserves same_in_flight (ensure_pool_namespace_active (St := St) cfg) /\
  preserves same_in_flight (raise_if_pool_namespace_destroyed (St := St) cfg) /\
  (forall policy, preserves same_in_flight
     (ensure_pool_namespace_active_for_acquire (St := St) cfg policy)) /\
  (forall id policy, preserves same_in_flight
     (ensure_pool_namespace_active_after_create (St := St) cfg id policy)).
Proof.
  unfold raise_if_pool_namespace_destroyed, ensure_pool_namespace_active_for_acquire,
    ensure_pool_namespace_active_after_create, fence_cleanup, sandbox_kill, sandbox_close,
    best_effort, ensure_pool_namespace_active.
  split_and!; intros; repeat flight_step.
Qed.

Lemma in_flight_loop policy timeout n : forall pending b,
  preserves same_in_flight (acquire_loop (St := St) cfg policy timeout n pending b).
Proof.
  destruct in_flight_checks as (C1 & C2 & C3 & C4).
  induction n as [|n IH]; intros pending b; cbn [acquire_loop]; [flight_step|].
  unfold sandbox_connect, sandbox_renew, sandbox_kill, sandbox_close, best_effort.
  repeat (apply IH || apply in_flight_schedule || apply C1 || apply C2 || apply C3 ||
          apply C4 || flight_step).
Qed.

Lemma in_flight_acquire timeout policy :
  preserves same_in_flight (acquire (St := St) cfg timeout policy).
Proof.
  destruct in_flight_checks as (C1 & C2 & C3 & C4).
  unfold acquire, acquire_body, direct_create, build_sandbox, sandbox_renew, sandbox_kill,
    sandbox_close.
  repeat (apply in_flight_loop || apply in_flight_schedule || apply C1 || apply C2 ||
          apply C3 || apply C4 || flight_step).
Qed.

Lemma in_flight_create_one : preserves same_in_flight (create_one_sandbox (St := St) cfg).
Proof.
  destruct in_flight_checks as (C1 & C2 & C3 & C4).
  unfold create_one_sandbox, create_one_body, build_sandbox, best_effort, sandbox_kill,
    sandbox_renew, sandbox_close.
  repeat (apply C1 || apply C4 || flight_step).
Qed.

Lemma in_flight_futures n :
  preserves same_in_flight (run_futures (create_one_sandbox (St := St) cfg) n).
Proof.
  induction n as [|n IH]; cbn [run_futures]; unfold run_future;
    repeat (apply IH || apply in_flight_create_one || flight_step).
Qed.

Lemma in_flight_submit n : preserves same_in_flight (submit_all (St := St) n).
Proof. induction n as [|n IH]; cbn [submit_all]; repeat (apply IH || flight_step). Qed.

Lemma in_flight_put c ids :
  preserves same_in_flight (put_created (discard_sandbox_callback (St := St)) c ids).
Proof.
  induction ids as [|id ids IH]; cbn [put_created];
    unfold renew_lock, drop_created, discard, call_discard, discard_sandbox_callback,
      kill_sandbox_best_effort, sandbox_kill; repeat (apply IH || flight_step).
Qed.

Lemma in_flight_tick : preserves same_in_flight (pool_reconcile_tick (St := St) cfg).
Proof.
  unfold pool_reconcile_tick, run_reconcile_tick_locked, resolve_max_idle,
    stop_after_pool_namespace_destroyed, stop_reconcile, release_primary_lock_best_effort,
    best_effort, close_provider, run_reconcile_tick, run_primary_replenish_once,
    shrink_excess_idle, shrink_one, create_batch, discard, call_discard,
    discard_sandbox_callback, kill_sandbox_best_effort, sandbox_kill, renew_lock.
  repeat (apply in_flight_futures || apply in_flight_submit || apply in_flight_put || flight_step).
Qed.
End in_flight_facts.

(** ** The in-memory store fails as documented *)

Lemma raises_outage_no_raise {St A} (m : M St exc A) :
  (forall s, is_ok (m s).1 = true) -> raises_outage m.
Proof. intros Hm s. specialize (Hm s). unfold wp. by destruct (m s) as [[]]. Qed.

Lemma im_take_ok pool s : is_ok (im_try_take_idle pool s).1 = true.
Proof.
  unfold im_try_take_idle, bind, gets. simpl. destruct (pools s !! pool); [|done].
  unfold now_, modify, ret. simpl. by destruct (take_loop _ _ _).
Qed.

#[global] Instance InMemory_outage : OutageStore InMemoryPoolStateStore.
Proof.
  split; intros; apply raises_outage_no_raise; intros s.
  - assert (Hp : is_ok (plain_take pool s).1 = true).
    { unfold plain_take, bind. simpl. pose proof (im_take_ok pool s).
      by destruct (im_try_take_idle pool s) as [[]]. }
    unfold try_take_idle_with_min_ttl. destruct ttl as [t|]; [|done].
    destruct (t <=? 0) eqn:Ht; [done|]. simpl. unfold im_try_take_idle_min_ttl. rewrite Ht.
    unfold bind, gets. destruct (pools s !! pool); [|done].
    unfold now_, modify, ret. simpl. by destruct (take_min_loop _ _ _ _ _).
  - simpl. unfold im_remove_idle, bind, gets, modify, ret. by destruct (pools s !! pool).
  - simpl. unfold im_get_destroy_state, bind, gets, modify, ret.
    destruct (destroy_state_by_pool s !! pool) as [d|]; [|done].
    destruct (dse_expires_at d); [|done]. unfold now_. simpl. by destruct (_ <=? _).
Qed.

(** ** Theorems: acquire *)

Lemma logs_acquire {St} `{!PoolStateStore St} `{!OutageStore St} cfg timeout policy :
  logs (acquire (St := St) cfg timeout policy) (acquired []).
Proof.
  assert (Hstop : forall l, l = [] -> logs (st <-- read_lifecycle ;;
      raise_if_pool_namespace_destroyed cfg ;;; throw (PoolNotRunningException st))
      (fun r l' => acquired [] r (l ++ l'))).
  { intros l ->. logs_step. logs_step. logs_step. eapply logs_mono; [apply logs_raise_if_destroyed|].
    intros [[]|e] l [-> He]; [|by intros ?; congruence]. logs_step. intros _. set_solver. }
  unfold acquire. logs_step. logs_step. case_bool_decide; [|by apply Hstop].
  unfold begin_operation. logs_step. logs_step. logs_step. unfold acquire_body.
  logs_step. logs_step. case_bool_decide; [|by apply Hstop].
  logs_step. eapply logs_mono; [apply logs_namespace_active_for_acquire|].
  intros [[]|e] l [-> He]; [|by intros ?; congruence].
  logs_step. eapply logs_mono; [apply logs_acquire_loop|].
  intros [[[[id|] pending] b]|e] l Hl; [by logs_step; autorewrite with osb| |done].
  logs_step. eapply logs_mono; [apply logs_schedule_kill|].
  intros [[]|e] l1 [H1 H2]; [|by intros ?; apply unclean_NonException in H2; congruence].
  simpl in Hl. assert (Hall : obtained_of (l ++ l1) ⊆ disposed_of (l ++ l1)).
  { autorewrite with osb. rewrite H1. set_solver. }
  destruct (policy_falls_through_to_direct_create policy).
  - eapply logs_mono; [apply logs_direct_create|]. intros r l2 Hr.
    rewrite !app_nil_l, app_assoc. destruct r as [id|e]; simpl in *.
    + rewrite obtained_app, (disposed_app (l ++ l1)). set_solver.
    + intros Hc. specialize (Hr Hc). rewrite obtained_app, (disposed_app (l ++ l1)). set_solver.
  - destruct b; logs_step; intros _; rewrite !app_nil_l, !app_nil_r; done.
Qed.


(** An idle buffer of two: "a" is near expiry, "b" has an hour left. *)
Definition demo_pool_store : InMemoryPoolStateStore :=
  (run_ops [OpSetTtl "demo" (seconds 20); OpPut "demo" "a"; OpSetTtl "demo" (seconds 3600);
            OpPut "demo" "b"] (init_store demo_clock)).2.


(** An environment where connecting fails and another client destroys the
    namespace before the given step. *)
Definition fenced_env (k : nat) : Env InMemoryPoolStateStore := {|
  e_now := Z.of_nat; e_monotonic := Z.of_nat;
  e_store_steps := fun n st => if (n =? k)%nat then (im_begin_destroy "demo" "m" st).2 else st;
  e_lifecycle_steps := fun _ l => l; e_in_flight_steps := fun _ n => n;
  e_submit := fun _ => true;
  e_connect := fun _ _ => Raise (OtherException "SandboxReadyTimeoutException");
  e_create := fun _ _ => Ok "sb"; e_renew := fun _ _ _ => Ok tt; e_kill := fun _ _ => Ok tt;
  e_close := fun _ _ => Ok tt; e_prepare := None; e_create_manager := fun _ => Ok tt;
  e_close_manager := fun _ => Ok tt; e_start_thread := fun _ => Ok tt;
|}.

Definition set_env {St} (e : Env St) (w : World St) : World St :=
  mkWorld (w_store w) (w_rs w) (w_lifecycle w) (w_in_flight w) (w_executor w) (w_manager w)
    (w_stop_event w) (w_scheduler w) (w_current_max_idle w) e (w_step w) (w_log w).

(** The exception is needed: when the namespace check that follows a failed
    connect raises, the near-expiry sandboxes collected so far are dropped
    without a kill. *)
Lemma fence_after_stale_leaks :
  let r := acquire demo_config None RETRY_NEXT_IDLE
             (set_env (fenced_env 8) (calm_world demo_pool_store)) in
  r.1 = Raise (PoolDestroyedException DESTROYING) /\
  obtained_of (w_log r.2) = ["a"; "b"] /\ disposed_of (w_log r.2) = ["b"].
Proof. vm_compute. done. Qed.

(** An acquire takes at most [max_acquire_retries] candidates under a
    retrying policy and at most one otherwise, and creates a sandbox directly
    only under a policy that falls through, and then exactly one. *)
Theorem acquire_candidates_bounded {St} `{!PoolStateStore St} cfg timeout policy :
  logs (acquire (St := St) cfg timeout policy) (fun _ l =>
    Z.of_nat (length (takes_of l)) <= effective_max_idle_attempts policy (max_acquire_retries cfg) /\
    (creates_of l = [] \/
     policy_falls_through_to_direct_create policy = true /\ creates_of l = [R_DIRECT_CREATE])).
Proof.
  assert (Hpos : 1 <= effective_max_idle_attempts policy (max_acquire_retries cfg)).
  { unfold effective_max_idle_attempts. case_bool_decide; lia. }
  set (n := effective_max_idle_attempts _ _) in *.
  destruct (emits_checks (St := St) cfg) as (C1 & C2 & C3 & C4).
  assert (Hstop : logs (st <-- read_lifecycle ;; raise_if_pool_namespace_destroyed cfg ;;;
      throw (A := string) (PoolNotRunningException st)) (fun _ => few_takes (Z.to_nat n))).
  { apply logs_few_silent. repeat (apply C2 || emits_step). }
  eapply (logs_mono _ (fun _ l => (length (takes_of l) <= Z.to_nat n)%nat /\ (creates_of l = [] \/
     policy_falls_through_to_direct_create policy = true /\ creates_of l = [R_DIRECT_CREATE])));
    [|intros r l [H1 H2]; split; [lia|done]].
  assert (Hweak : forall A (m : M (World St) exc A), logs m (fun _ => few_takes (Z.to_nat n)) ->
    logs m (fun _ l => (length (takes_of l) <= Z.to_nat n)%nat /\ (creates_of l = [] \/
     policy_falls_through_to_direct_create policy = true /\ creates_of l = [R_DIRECT_CREATE]))).
  { intros A m Hm. eapply logs_mono; [apply Hm|]. intros r l [H1 H2]. by auto. }
  unfold acquire. logs_step. logs_step. case_bool_decide; [|by apply Hweak].
  unfold begin_operation. logs_step. logs_step. logs_step. unfold acquire_body.
  logs_step. logs_step. case_bool_decide; [|by apply Hweak].
  logs_step. eapply logs_mono; [apply C3|]. intros [[]|e] l0 [A1 A2];
    [|simpl; rewrite A1, A2; simpl; split; [lia|by left]].
  logs_step. eapply logs_mono; [apply logs_loop_takes|]. fold n.
  assert (Hl : forall l l', few_takes (Z.to_nat n) l -> takes_of l' = [] -> (creates_of l' = [] \/
     policy_falls_through_to_direct_create policy = true /\ creates_of l' = [R_DIRECT_CREATE]) ->
    (length (takes_of ([] ++ [] ++ [] ++ l0 ++ l ++ l')) <= Z.to_nat n)%nat /\
    (creates_of ([] ++ [] ++ [] ++ l0 ++ l ++ l') = [] \/
     policy_falls_through_to_direct_create policy = true /\
     creates_of ([] ++ [] ++ [] ++ l0 ++ l ++ l') = [R_DIRECT_CREATE])).
  { intros l l' [B1 B2] B3 B4. autorewrite with osb. simpl. rewrite A1, A2, B2, B3. simpl.
    split; [lia|done]. }
  intros [[[[id|] pending] b]|e] l Hf;
    [by logs_step; apply Hl; auto| |specialize (Hl l [] Hf eq_refl (or_introl eq_refl));
      by rewrite app_nil_r in Hl].
  logs_step. eapply logs_mono; [apply emits_schedule_kill|]. intros [[]|e] l1 [D1 D2];
    [|by apply Hl; auto].
  destruct (policy_falls_through_to_direct_create policy).
  - eapply logs_mono; [apply logs_direct_create_once|]. intros r l2 [E1 E2].
    apply Hl; [done| |]; autorewrite with osb; rewrite ?D1, ?D2, ?E1; naive_solver.
  - destruct b; logs_step; apply Hl; autorewrite with osb; auto.
Qed.

(** An acquire and a reconcile tick leave the count of operations in
    flight, which a graceful shutdown waits for, as they found it, on every
    path. *)
Theorem operations_balanced {St} `{!PoolStateStore St} cfg timeout policy (w : World St) :
  0 <= w_in_flight w ->
  w_in_flight (acquire cfg timeout policy w).2 = w_in_flight w /\
  w_in_flight (pool_reconcile_tick cfg w).2 = w_in_flight w /\
  w_in_flight (create_one_sandbox cfg w).2 = w_in_flight w.
Proof.
  intros Hw. pose proof (in_flight_acquire cfg timeout policy w) as H1.
  pose proof (in_flight_tick cfg w) as H2. pose proof (in_flight_create_one cfg w) as H3.
  unfold wp in *. destruct (acquire _ _ _ _), (pool_reconcile_tick _ _), (create_one_sandbox _ _).
  by split_and!; [apply H1|apply H2|apply H3].
Qed.

Lemma operations_balanced_witness :
  w_in_flight (acquire demo_config None FAIL_FAST (calm_world demo_store)).2 = 0 /\
  w_in_flight (pool_reconcile_tick demo_config (calm_world demo_store)).2 = 0 /\
  w_in_flight (create_one_sandbox demo_config (calm_world demo_store)).2 = 0.
Proof. apply (operations_balanced demo_config None FAIL_FAST (calm_world demo_store)). vm_compute. done. Defined.

(** ** Symbolic execution of pool code *)

Section world_wp.
Context {St : Type}.
Implicit Types w : World St.

Lemma wp_ask {A} (f : Env St -> nat -> A) Q w :
  Q (Ok (f (w_env w) (w_step w))) (bump w) -> wp (ask f) Q w.
Proof. done. Qed.

Lemma wp_answer {A} (r : res exc A) Q w : Q r w -> wp (answer r) Q w.
Proof. done. Qed.

Lemma wp_log e Q w : Q (Ok tt) (add_log [e] w) -> wp (log e) Q w.
Proof. done. Qed.

Lemma wp_read_lifecycle Q w :
  (let l := e_lifecycle_steps (w_env w) (w_step w) (w_lifecycle w) in
   Q (Ok l) (bump (set_lifecycle l w))) -> wp read_lifecycle Q w.
Proof. done. Qed.

Lemma wp_store_call {A} (m : M St exc A) Q w :
  wp m (fun r st => Q r (bump (set_store st w)))
    (e_store_steps (w_env w) (w_step w) (w_store w)) ->
  wp (store_call m) Q w.
Proof. unfold wp, store_call. by destruct (m _). Qed.

(** A read of the life cycle that nobody else changes. *)
Lemma wp_read_stable lc Q w :
  w_lifecycle w = lc -> e_lifecycle_steps (w_env w) (w_step w) lc = lc ->
  Q (Ok lc) (bump (set_lifecycle lc w)) -> wp read_lifecycle Q w.
Proof. intros Hl Hs HQ. apply wp_read_lifecycle. by rewrite Hl, Hs. Qed.
End world_wp.

Ltac pool_step :=
  cbn beta iota;
  lazymatch goal with
  | |- wp (ask _) _ _ => apply wp_ask
  | |- wp datetime_now _ _ => apply wp_ask
  | |- wp monotonic _ _ => apply wp_ask
  | |- wp (answer _) _ _ => apply wp_answer
  | |- wp (log _) _ _ => apply wp_log
  | |- wp (except_Exception _ _) _ _ => apply wp_catch
  | |- wp begin_operation _ _ => apply wp_modify
  | _ => wp_step
  end;
  cbn beta iota.

(** ** Theorems: store outages *)

(** Every call [acquire] makes to the store fails with an outage. *)
Class StoreDown (St : Type) `{!PoolStateStore St} : Prop := {
  down_take : forall pool ttl s,
    (try_take_idle_with_min_ttl pool ttl s).1 = Raise PoolStateStoreUnavailableException;
  down_destroy_state : forall pool s,
    (get_destroy_state pool s).1 = Raise PoolStateStoreUnavailableException;
}.

Section outage.
Context {St : Type} `{!PoolStateStore St} `{!StoreDown St} (cfg : PoolConfig).

Lemma wp_down {A} (m : M St exc A) Q (w : World St) :
  (forall s, (m s).1 = Raise PoolStateStoreUnavailableException) ->
  (forall st, Q (Raise PoolStateStoreUnavailableException) (bump (set_store st w))) ->
  wp (store_call m) Q w.
Proof.
  intros Hm HQ. apply wp_store_call. unfold wp.
  specialize (Hm (e_store_steps (w_env w) (w_step w) (w_store w))).
  destruct (m _) as [r st]. simpl in Hm. subst. apply HQ.
Qed.

Lemma wp_namespace_down Q (w : World St) :
  (forall st, Q (Raise PoolStateStoreUnavailableException) (bump (set_store st w))) ->
  wp (ensure_pool_namespace_active cfg) Q w.
Proof.
  intros HQ. unfold ensure_pool_namespace_active. pool_step.
  apply wp_down; [apply down_destroy_state|done].
Qed.

Lemma wp_namespace_for_acquire_down policy Q (w : World St) :
  (forall st, Q (if policy_falls_through_to_direct_create policy then Ok tt
                 else Raise PoolStateStoreUnavailableException) (bump (set_store st w))) ->
  wp (ensure_pool_namespace_active_for_acquire cfg policy) Q w.
Proof.
  intros HQ. unfold ensure_pool_namespace_active_for_acquire. pool_step.
  apply wp_namespace_down. intros st. specialize (HQ st). simpl.
  destruct (policy_falls_through_to_direct_create policy); by pool_step.
Qed.

(** With the store down the loop gives up at its first take. *)
Lemma wp_loop_down policy timeout n Q (w : World St) :
  policy_falls_through_to_direct_create policy = true ->
  (forall st, Q (Ok (None, [], false)) (bump (set_store st w))) -> (0 < n)%nat ->
  wp (acquire_loop cfg policy timeout n [] false) Q w.
Proof.
  intros Hp HQ Hn. destruct n as [|n]; [lia|]. cbn [acquire_loop]. pool_step. pool_step.
  apply wp_down; [apply down_take|]. intros st. simpl. rewrite Hp. pool_step. apply HQ.
Qed.

Lemma wp_direct_create_down timeout policy (w : World St) :
  policy_falls_through_to_direct_create policy = true ->
  (forall n, is_ok (e_create (w_env w) n R_DIRECT_CREATE) = true) ->
  (forall n id t, e_renew (w_env w) n id t = Ok tt) ->
  wp (direct_create cfg timeout policy) (fun r _ =>
    exists id n, r = Ok id /\ e_create (w_env w) n R_DIRECT_CREATE = Ok id) w.
Proof.
  intros Hp Hc Hr. unfold direct_create. pool_step. apply wp_namespace_for_acquire_down.
  intros st. rewrite Hp. pool_step. unfold build_sandbox. do 2 pool_step. simpl.
  specialize (Hc (S (w_step w))). destruct (e_create _ _ _) as [id|] eqn:Hk; [|done].
  do 4 pool_step.
  assert (Hend : forall w', wp (ensure_pool_namespace_active_after_create (St := St) cfg id
      (Some policy) ;;; ret id)
    (fun r _ => exists id n, r = Ok id /\ e_create (w_env w) n R_DIRECT_CREATE = Ok id) w').
  { intros w'. pool_step. unfold ensure_pool_namespace_active_after_create. pool_step.
    apply wp_namespace_down. intros st4. simpl. rewrite Hp. pool_step. pool_step.
    by exists id, (S (w_step w)). }
  destruct timeout as [t|]; [|pool_step; apply Hend].
  unfold sandbox_renew. do 4 pool_step. simpl. rewrite Hr. do 4 pool_step. apply Hend.
Qed.

(** With the store down for the whole call, an acquire on a running pool
    still returns a directly created sandbox under a policy that falls
    through, and reports the outage under the others. *)
Theorem acquire_outage timeout policy (w : World St) :
  w_lifecycle w = LC_RUNNING ->
  (forall n, e_lifecycle_steps (w_env w) n LC_RUNNING = LC_RUNNING) ->
  (forall n, is_ok (e_create (w_env w) n R_DIRECT_CREATE) = true) ->
  (forall n id t, e_renew (w_env w) n id t = Ok tt) ->
  if policy_falls_through_to_direct_create policy
  then exists id n, (acquire cfg timeout policy w).1 = Ok id /\
                    e_create (w_env w) n R_DIRECT_CREATE = Ok id
  else (acquire cfg timeout policy w).1 = Raise PoolStateStoreUnavailableException.
Proof.
  intros Hl Hs Hc Hr.
  enough (wp (acquire cfg timeout policy) (fun r _ =>
    if policy_falls_through_to_direct_create policy
    then exists id n, r = Ok id /\ e_create (w_env w) n R_DIRECT_CREATE = Ok id
    else r = Raise PoolStateStoreUnavailableException) w) as H.
  { unfold wp in H. by destruct (acquire cfg timeout policy w). }
  unfold acquire. pool_step. apply (wp_read_stable LC_RUNNING); [done..|].
  rewrite bool_decide_true by done. do 3 pool_step. unfold acquire_body. pool_step.
  apply (wp_read_stable LC_RUNNING); [done..|]. rewrite bool_decide_true by done.
  pool_step. apply wp_namespace_for_acquire_down. intros st.
  destruct (policy_falls_through_to_direct_create policy) eqn:Hp; [|done].
  pool_step. apply wp_loop_down; [done| |unfold effective_max_idle_attempts; case_bool_decide; lia].
  intros st2. pool_step. unfold schedule_kill_discarded_alive. pool_step.
  eapply wp_mono; [by apply wp_direct_create_down|done].
Qed.
End outage.

(** A store that never answers. *)
Definition down_store : PoolStateStore unit :=
  let down A : M unit exc A := throw PoolStateStoreUnavailableException in {|
  try_take_idle := fun _ => down _; put_idle := fun _ _ => down _;
  remove_idle := fun _ _ => down _; try_acquire_primary_lock := fun _ _ _ => down _;
  renew_primary_lock := fun _ _ _ => down _; release_primary_lock := fun _ _ => down _;
  reap_expired_idle := fun _ _ => down _; snapshot_counters := fun _ => down _;
  snapshot_idle_entries := fun _ => down _; get_max_idle := fun _ => down _;
  set_max_idle := fun _ _ => down _; set_idle_entry_ttl := fun _ _ => down _;
  get_destroy_state := fun _ => down _; begin_destroy := fun _ _ => down _;
  clear_pool_state := fun _ => down _; mark_destroyed := fun _ _ _ => down _;
  try_take_idle_min_ttl := None; reap_expired_idle_min_ttl := None |}.

Lemma down_store_down : @StoreDown unit down_store.
Proof.
  split; [|done]. intros pool ttl s. unfold try_take_idle_with_min_ttl.
  destruct ttl as [t|]; [|done]. by destruct (t <=? 0).
Qed.

Lemma acquire_outage_witness :
  exists id n, (@acquire unit down_store demo_config (Some 5) DIRECT_CREATE (calm_world tt)).1 = Ok id /\
    e_create (w_env (calm_world tt)) n R_DIRECT_CREATE = Ok id.
Proof.
  exact (@acquire_outage unit down_store down_store_down demo_config (Some 5) DIRECT_CREATE
    (calm_world tt) eq_refl (fun _ => eq_refl) (fun _ => eq_refl) (fun _ _ _ => eq_refl)).
Defined.

(** ** Theorems: life cycle *)

(** The fields that say what a pool instance runs. *)
Definition running_parts {St} (w : World St) : bool * bool * bool * bool :=
  (w_manager w, w_executor w, w_scheduler w, w_stop_event w).

Section lifecycle.
Context {St : Type} `{!PoolStateStore St} (cfg : PoolConfig).
Implicit Types w : World St.

(** The calls that can only wait leave everything but the step count and the
    number of operations in flight alone. *)
Definition waited w w' : Prop :=
  w_lifecycle w' = w_lifecycle w /\ running_parts w' = running_parts w /\ w_env w' = w_env w.

Lemma wp_await_loop fuel : forall deadline w,
  (forall n, e_monotonic (w_env w) n < e_monotonic (w_env w) (S n)) ->
  deadline - e_monotonic (w_env w) (w_step w) < Z.of_nat fuel ->
  (0 < fuel)%nat ->
  wp (await_loop fuel deadline) (fun r w' => is_ok r = true /\ waited w w') w.
Proof.
  induction fuel as [|fuel IH]; intros deadline w Hc Hd Hf; [lia|]. cbn [await_loop].
  pool_step. unfold wp at 1. cbn beta iota. destruct (0 <? _); [|by pool_step].
  do 2 pool_step. simpl. destruct (deadline - _ <=? 0) eqn:Ed; [by pool_step|].
  pose proof (Hc (w_step w)). pose proof (Hc (S (w_step w))).
  eapply wp_mono; [apply IH; simpl; [done|bool_lia|bool_lia]|]. done.
Qed.

Lemma wp_stop_reconcile w :
  wp (stop_reconcile cfg true) (fun r w' =>
    match r with Ok _ => True | Raise e => is_Exception e = false end /\
    w_lifecycle w' = w_lifecycle w /\ w_env w' = w_env w /\
    running_parts w' = (w_manager w, false, false, true)) w.
Proof.
  unfold stop_reconcile, release_primary_lock_best_effort, best_effort.
  do 7 pool_step. apply wp_store_call. unfold wp at 1.
  destruct (release_primary_lock _ _ _) as [[[]|e] st]; [done|].
  destruct (is_Exception e) eqn:E; [by pool_step|done].
Qed.

Lemma wp_close_provider w :
  (forall n, e_close_manager (w_env w) n = Ok tt) ->
  wp close_provider (fun r w' => r = Ok tt /\ w_lifecycle w' = w_lifecycle w /\
    running_parts w' = (false, w_executor w, w_scheduler w, w_stop_event w)) w.
Proof.
  intros Hc. unfold close_provider. do 2 pool_step. destruct (w_manager w) eqn:Hm.
  - do 3 pool_step. rewrite Hc. do 2 pool_step. done.
  - pool_step. unfold running_parts. by rewrite Hm.
Qed.

(** A shutdown of a pool that is not stopped returns, even if operations
    never drain: the drain loop ends by its deadline, so a fuel above the
    drain time-out is enough.  It leaves the pool stopped with its manager,
    executor and scheduler gone and the scheduler told to stop. *)
Theorem shutdown_stops fuel graceful w :
  w_lifecycle w <> LC_STOPPED ->
  (forall s e, (release_primary_lock (pool_name cfg) (owner_id cfg) s).1 = Raise e ->
     is_Exception e = true) ->
  (forall n, e_close_manager (w_env w) n = Ok tt) ->
  (forall n, e_monotonic (w_env w) n < e_monotonic (w_env w) (S n)) ->
  drain_timeout cfg < Z.of_nat fuel -> (0 < fuel)%nat ->
  wp (shutdown cfg fuel graceful) (fun r w' => r = Ok tt /\ w_lifecycle w' = LC_STOPPED /\
    running_parts w' = (false, false, false, true)) w.
Proof.
  intros Hl Hr Hc Hm Hf H0.
  assert (Hstop : forall w, wp (stop_reconcile cfg true) (fun r w' => r = Ok tt /\
    w_lifecycle w' = w_lifecycle w /\ w_env w' = w_env w /\
    running_parts w' = (w_manager w, false, false, true)) w).
  { intros w0. unfold stop_reconcile, release_primary_lock_best_effort, best_effort.
    do 7 pool_step. apply wp_store_call. unfold wp at 1.
    destruct (release_primary_lock _ _ _) as [[[]|e] st] eqn:E; [done|].
    rewrite (Hr _ e (f_equal fst E)). by pool_step. }
  unfold shutdown. do 2 pool_step. rewrite bool_decide_false by done. destruct graceful; simpl.
  - do 3 pool_step. eapply wp_mono; [apply Hstop|]. intros r w1 (-> & H1 & H2 & H3).
    simpl in H2. pool_step. unfold await_in_flight_drain. do 2 pool_step.
    rewrite H2. pose proof (Hm (w_step w1)) as Hm1.
    eapply wp_mono; [apply wp_await_loop; simpl; rewrite ?H2; [done|lia|done]|].
    intros [b|] w2 (Hb & H4 & H5 & H6); [|done]. do 2 pool_step.
    eapply wp_mono; [apply wp_close_provider|].
    + simpl in *. rewrite H6, H2. done.
    + intros r w3 (-> & H7 & H8). simpl in *. split_and!; [done..|]. rewrite H8.
      unfold running_parts in *. simpl in *. congruence.
  - pool_step. eapply wp_mono; [apply Hstop|]. intros r w1 (-> & H1 & H2 & H3).
    do 2 pool_step. eapply wp_mono; [apply wp_close_provider|].
    + simpl in *. by rewrite H2.
    + intros r w3 (-> & H7 & H8). simpl in *. split_and!; [done..|]. rewrite H8.
      unfold running_parts in *. simpl in *. congruence.
Qed.

(** Starting a pool either leaves it running with a manager, an executor
    and a scheduler, or, when any step fails, stopped with none of them and
    the lock released as far as the store allows. *)
Theorem start_all_or_nothing w :
  w_lifecycle w <> LC_RUNNING -> w_lifecycle w <> LC_STARTING ->
  (forall n, e_close_manager (w_env w) n = Ok tt) ->
  wp (start cfg) (fun r w' =>
    match r with
    | Ok _ => w_lifecycle w' = LC_RUNNING /\ running_parts w' = (true, true, true, false)
    | Raise e => is_Exception e = true ->
        w_lifecycle w' = LC_STOPPED /\ running_parts w' = (false, false, false, true)
    end) w.
Proof.
  intros Hr Hs Hc. unfold start. do 2 pool_step. rewrite bool_decide_false by naive_solver.
  do 3 pool_step.
  enough (wp (start_body cfg) (fun r w' => w_env w' = w_env w /\
    (r = Ok tt -> w_lifecycle w' = LC_RUNNING /\ running_parts w' = (true, true, true, false)))
    (set_lifecycle LC_STARTING w)) as Hbody.
  - eapply wp_mono; [apply Hbody|]. intros [[]|e] w1 [He Hok]; [by apply Hok|].
    destruct (is_Exception e) eqn:Ee; [|by intros ?; congruence].
    pool_step. eapply wp_mono; [apply wp_stop_reconcile|]. intros [[]|e'] w2 (H1 & H2 & H3 & H4);
      [|by intros ?; congruence].
    pool_step. eapply wp_mono; [apply wp_close_provider; by rewrite H3, He|].
    intros r w3 (-> & H5 & H6). do 3 pool_step. intros _. split; [done|].
    unfold running_parts in *. simpl. congruence.
  - assert (Hcall : forall A (m : M St exc A) (w0 : World St),
      wp (store_call m) (fun _ w' => w_env w' = w_env w0 /\ w_lifecycle w' = w_lifecycle w0 /\
        running_parts w' = running_parts w0) w0).
    { intros A m w0. apply wp_store_call. unfold wp. by destruct (m _). }
    unfold start_body, ensure_pool_namespace_active, create_sandbox_manager. do 2 pool_step.
    eapply wp_mono; [apply Hcall|]. intros [st|e] w1 (E1 & L1 & R1); [|done].
    case_bool_decide; [|by pool_step]. do 4 pool_step. destruct (e_create_manager _ _) as [[]|]; [|done].
    do 4 pool_step. eapply wp_mono; [apply Hcall|]. intros [[]|e] w2 (E2 & L2 & R2); [|simpl in *; split; [congruence|done]].
    pool_step. eapply wp_mono; [apply Hcall|]. intros [[]|e] w3 (E3 & L3 & R3);
      simpl in *; [|split; [congruence|done]].
    do 11 pool_step. simpl. split; [congruence|]. intros Hth. split; [done|].
    unfold running_parts in *. simpl in *. congruence.
Qed.
End lifecycle.

(** A started pool whose operations never drain. *)
Definition busy_world : World InMemoryPoolStateStore :=
  set_in_flight 1 (calm_world demo_pool_store).

Lemma shutdown_stops_witness :
  wp (shutdown demo_config (Z.to_nat 30000001) true) (fun r w' => r = Ok tt /\ w_lifecycle w' = LC_STOPPED /\
    running_parts w' = (false, false, false, true)) busy_world.
Proof.
  apply (shutdown_stops demo_config (Z.to_nat 30000001) true busy_world);
    [discriminate|discriminate|reflexivity|intros n; simpl; lia| |lia].
  change (drain_timeout demo_config) with 30000000. lia.
Defined.

Lemma start_all_or_nothing_witness :
  wp (start demo_config) (fun r w' =>
    match r with
    | Ok _ => w_lifecycle w' = LC_RUNNING /\ running_parts w' = (true, true, true, false)
    | Raise e => is_Exception e = true ->
        w_lifecycle w' = LC_STOPPED /\ running_parts w' = (false, false, false, true)
    end) (set_lifecycle LC_NOT_STARTED busy_world).
Proof.
  apply (start_all_or_nothing demo_config (set_lifecycle LC_NOT_STARTED busy_world));
    [discriminate|discriminate|reflexivity].
Defined.

(** An exception of [close] in the clean-up of a failed start leaves the pool
    marked as running without an executor, and [start] then does nothing. *)
Lemma start_close_error_sticks :
  let e := mkEnv (St := InMemoryPoolStateStore) Z.of_nat Z.of_nat (fun _ st => st) (fun _ l => l)
    (fun _ n => n) (fun _ => true) (fun _ _ => Ok tt) (fun _ _ => Ok "sb") (fun _ _ _ => Ok tt)
    (fun _ _ => Ok tt) (fun _ _ => Ok tt) None (fun _ => Ok tt)
    (fun _ => Raise (OtherException "HTTPError")) (fun _ => Raise (OtherException "RuntimeError")) in
  let w := (start demo_config (set_env e (set_lifecycle LC_NOT_STARTED busy_world))).2 in
  w_lifecycle w = LC_RUNNING /\ w_executor w = false /\ start demo_config w = (Ok tt, w).
Proof. vm_compute. done. Qed.

(** ** The scheduler *)

Section scheduler.
Context {St : Type} `{!PoolStateStore St} (cfg : PoolConfig).
Implicit Types w : World St.

(** The namespace is being destroyed, or is destroyed, and stays so. *)
Definition ns_fenced : Prop :=
  forall s, exists st s', get_destroy_state (pool_name cfg) s = (Ok st, s') /\ st <> ACTIVE.

(** The calls a stop makes end without interrupting it, and nobody else changes
    the life cycle. *)
Definition can_stop w : Prop :=
  (forall s e, (release_primary_lock (pool_name cfg) (owner_id cfg) s).1 = Raise e ->
     is_Exception e = true) /\
  (forall n, e_close_manager (w_env w) n = Ok tt) /\
  (forall n l, e_lifecycle_steps (w_env w) n l = l).

Lemma wp_stop_fenced w :
  can_stop w -> w_lifecycle w <> LC_STOPPED ->
  wp (stop_after_pool_namespace_destroyed cfg) (fun r w' => r = Ok tt /\
    w_lifecycle w' = LC_STOPPED /\ running_parts w' = (false, false, w_scheduler w, true)) w.
Proof.
  intros (Hr & Hc & _) Hl. unfold stop_after_pool_namespace_destroyed. do 2 pool_step.
  rewrite bool_decide_false by done. unfold stop_reconcile, release_primary_lock_best_effort,
    best_effort. do 8 pool_step. apply wp_store_call. unfold wp at 1.
  assert (Hend : forall st, wp (modify (set_lifecycle LC_STOPPED) ;;; close_provider)
    (fun r w' => r = Ok tt /\ w_lifecycle w' = LC_STOPPED /\
       running_parts w' = (false, false, w_scheduler w, true))
    (bump (set_store st (set_executor false (set_stop_event true w))))).
  { intros st. do 2 pool_step. eapply wp_mono; [by apply wp_close_provider|].
    intros r w1 (-> & H1 & H2). done. }
  destruct (release_primary_lock _ _ _) as [[[]|e] st] eqn:E; [apply Hend|].
  rewrite (Hr _ e (f_equal fst E)). pool_step. apply Hend.
Qed.

Lemma wp_fenced_tick w :
  ns_fenced -> can_stop w -> w_lifecycle w = LC_RUNNING -> w_executor w = true ->
  wp (pool_reconcile_tick cfg) (fun r w' => r = Ok tt /\ w_lifecycle w' = LC_STOPPED /\
    running_parts w' = (false, false, w_scheduler w, true)) w.
Proof.
  intros Hfence Hs Hl Hx. pose proof Hs as (_ & _ & Hq).
  unfold pool_reconcile_tick, run_reconcile_tick_locked.
  pool_step. apply (wp_read_stable LC_RUNNING); [done|apply Hq|]. rewrite bool_decide_true by done.
  do 2 pool_step. simpl. rewrite Hx. pool_step.
  apply (wp_read_stable LC_RUNNING); [done|apply Hq|]. rewrite bool_decide_true by done.
  do 5 pool_step. apply (wp_read_stable LC_RUNNING); [done|apply Hq|].
  rewrite bool_decide_true by done. pool_step. apply wp_store_call. unfold wp at 1. simpl.
  destruct (Hfence (e_store_steps (w_env w) (S (S (S (w_step w)))) (w_store w)))
    as (st & s' & -> & Hne).
  rewrite bool_decide_false by done.
  eapply wp_mono; [by apply wp_stop_fenced|]. intros r w1 (-> & H1 & H2). done.
Qed.

(** The scheduler ends by itself after its first tick in a fenced namespace,
    and leaves the instance stopped. *)
Theorem scheduler_ends_when_fenced woken fuel w :
  ns_fenced -> can_stop w -> w_lifecycle w = LC_RUNNING -> w_executor w = true ->
  w_stop_event w = false -> (2 <= fuel)%nat ->
  wp (scheduler_loop cfg woken fuel) (fun r w' => r = Ok true /\ w_lifecycle w' = LC_STOPPED /\
    running_parts w' = (false, false, w_scheduler w, true)) w.
Proof.
  intros Hfence Hs Hl Hx He Hf. destruct fuel as [|[|fuel]]; [lia..|]. cbn [scheduler_loop].
  do 2 pool_step. rewrite He. pool_step. eapply wp_mono; [by apply wp_fenced_tick|].
  intros r w1 (-> & H1 & H2). do 2 pool_step. destruct (woken _); [by pool_step|].
  do 2 pool_step. pose proof H2 as H3. unfold running_parts in H3. simplify_eq/=.
  destruct (w_stop_event w1); [by pool_step|done].
Qed.
End scheduler.

(** ** Theorems: draining *)

Section drain.
Context {St : Type} `{!PoolStateStore St} `{!PoolStoreLaws St} (cfg : PoolConfig).
Implicit Types w : World St.

(** Nobody else uses the store, and the service fails with exceptions only. *)
Definition alone w : Prop :=
  (forall n st, e_store_steps (w_env w) n st = st) /\
  (forall n id e, e_kill (w_env w) n id = Raise e -> is_Exception e = true) /\
  (forall n, e_create_manager (w_env w) n = Ok tt) /\
  (forall n, e_close_manager (w_env w) n = Ok tt).

Lemma alone_env w w' : w_env w' = w_env w -> alone w -> alone w'.
Proof. unfold alone. by intros ->. Qed.

(** The buffer is empty and every sandbox taken out of it was killed, as far
    as the service let it. *)
Definition drained w (r : res exc Z) (w' : World St) : Prop :=
  exists l, w_log w' = (w_log w ++ l)%list /\ st_wf (w_store w') /\ takes_of l ⊆ disposed_of l /\
    match r with
    | Ok n => idle_ids (w_store w') (pool_name cfg) = [] /\ n = Z.of_nat (length (takes_of l))
    | Raise e => exists st, (try_take_idle (pool_name cfg) st).1 = Raise e
    end.

Lemma wp_take w Q :
  alone w -> st_wf (w_store w) ->
  (forall r st, st_wf st ->
    match r with
    | Ok (Some id) =>
        (length (idle_ids st (pool_name cfg)) < length (idle_ids (w_store w) (pool_name cfg)))%nat
    | Ok None => idle_ids st (pool_name cfg) = []
    | Raise e => (try_take_idle (pool_name cfg) (w_store w)).1 = Raise e
    end -> Q r (bump (set_store st w))) ->
  wp (store_call (try_take_idle (pool_name cfg))) Q w.
Proof.
  intros (Ha & _) Hwf HQ. apply wp_store_call. rewrite Ha.
  pose proof (law_take (pool_name cfg) _ Hwf) as Hlaw. unfold wp in *.
  destruct (try_take_idle _ _) as [r st]. destruct Hlaw as (H1 & _ & H2). apply HQ; [done|].
  destruct r as [[id|]|]; naive_solver.
Qed.

Lemma wp_kill_alone id w :
  alone w -> wp (best_effort (sandbox_kill id)) (fun r w' => r = Ok tt /\ w_env w' = w_env w /\
    w_store w' = w_store w /\ exists b, w_log w' = (w_log w ++ [EKill id b])%list) w.
Proof.
  intros (_ & Hk & _). unfold best_effort, sandbox_kill. do 6 pool_step.
  destruct (e_kill _ _ _) as [[]|e] eqn:E.
  - split_and!; [done..|]. by eexists.
  - rewrite (Hk _ _ _ E). pool_step. split_and!; [done..|]. by eexists.
Qed.

Lemma wp_release_loop fuel : forall count temp w,
  alone w -> st_wf (w_store w) ->
  (length (idle_ids (w_store w) (pool_name cfg)) < fuel)%nat ->
  wp (release_loop cfg fuel count temp) (fun r w' => w_env w' = w_env w /\
    exists r' b, r = Ok (r', b) /\
      drained w (match r' with Ok n => Ok (n - count) | Raise e => Raise e end) w') w.
Proof.
  induction fuel as [|fuel IH]; intros count temp w Ha Hwf Hf; [lia|]. cbn [release_loop].
  do 2 pool_step. apply wp_take; [done..|]. intros r st Hst Hr. destruct r as [[id|]|e].
  - do 5 pool_step. set (w1 := add_log _ _).
    assert (Hgo : wp (killed <-- attempt (best_effort (sandbox_kill (St := St) id)) ;;
        match killed with
        | Ok _ => release_loop cfg fuel (count + 1) (temp || negb (w_manager w1))
        | Raise e => ret (Raise e, temp || negb (w_manager w1))
        end) (fun r w' => w_env w' = w_env w /\ exists r' b, r = Ok (r', b) /\
          drained w (match r' with Ok n => Ok (n - count) | Raise e => Raise e end) w')
        (if w_manager w1 || temp then w1 else bump w1)).
    { do 2 pool_step. eapply wp_mono; [apply wp_kill_alone; by destruct (_ || _)|].
      intros rk w2 (-> & He & Hs & b & Hl).
      eapply wp_mono; [apply IH|].
      - eapply alone_env; [|apply Ha]. rewrite He. by destruct (_ || _).
      - rewrite Hs. by destruct (_ || _).
      - rewrite Hs. destruct (_ || _); simpl; lia.
      - intros r w3 (He3 & r' & b' & -> & l & Hl3 & Hwf3 & Hsub & Hres). split.
        + rewrite He3, He. by destruct (_ || _).
        + exists r', b'. split; [done|]. exists (ETake id :: EKill id b :: l).
          rewrite Hl3, Hl. split_and!; [|done|simpl; set_solver|].
          * destruct (_ || _); simpl; by rewrite <- !app_assoc.
          * destruct r' as [n|]; [|done]. destruct Hres as [Hi Hn]. split; [done|]. simpl. lia. }
    change (w_manager (add_log [ETake id] (bump (set_store st w)))) with (w_manager w1).
    destruct (w_manager w1 || temp) eqn:Em; [by pool_step|].
    pool_step. unfold create_sandbox_manager. do 3 pool_step.
    destruct Ha as (_ & _ & Hm & _). simpl. rewrite Hm. done.
  - pool_step. split; [done|]. eexists _, _. split; [done|]. exists [].
    rewrite Z.sub_diag, app_nil_r. done.
  - pool_step. split; [done|]. eexists _, _. split; [done|]. exists [].
    rewrite app_nil_r. by eauto.
Qed.

(** With as much fuel as there are idle sandboxes, and one more, draining
    a pool ends; unless the store itself raises it returns the number of
    sandboxes it took, none is left, and a kill was sent for every one. *)
Theorem release_all_idle_drains fuel w :
  alone w -> st_wf (w_store w) ->
  (length (idle_ids (w_store w) (pool_name cfg)) < fuel)%nat ->
  wp (release_all_idle cfg fuel) (drained w) w.
Proof.
  intros Ha Hwf Hf. unfold release_all_idle. pool_step.
  eapply wp_mono; [by apply wp_release_loop|]. intros r w1 (He & r' & b & -> & Hd).
  pool_step. simpl. destruct b; do 2 pool_step.
  - destruct Ha as (_ & _ & _ & Hc). rewrite He, Hc. do 2 pool_step.
    destruct r' as [n|]; [|done]. by rewrite Z.sub_0_r in Hd.
  - destruct r' as [n|]; [|done]. by rewrite Z.sub_0_r in Hd.
Qed.
End drain.

Lemma release_all_idle_witness :
  wp (release_all_idle demo_config 3) (drained demo_config (calm_world demo_pool_store))
    (calm_world demo_pool_store).
Proof.
  apply (release_all_idle_drains demo_config 3 (calm_world demo_pool_store)).
  - unfold alone. split_and!; done.
  - apply run_ops_balanced, init_store_wf.
  - vm_compute. lia.
Defined.

(** ** Witnesses: the reconciler with the callbacks of a pool *)

Lemma reconcile_no_orphan_witness :
  let m := run_reconcile_tick (create_one_sandbox demo_config)
             (discard_sandbox_callback (St := InMemoryPoolStateStore)) demo_config in
  created_of (w_log (m (calm_world demo_pool_store)).2) = ["sb"; "sb"] /\
  logs m (fun r l =>
    r = Ok tt -> forall id, id ∈ created_of l -> id ∈ puts_of l \/ id ∈ discards_of l).
Proof.
  split; [vm_compute; reflexivity|].
  apply (reconcile_no_orphan (create_one_sandbox demo_config)
    (discard_sandbox_callback (St := InMemoryPoolStateStore)) demo_config). vm_compute. reflexivity.
Defined.

Lemma reconcile_bounded_witness :
  logs (run_reconcile_tick (create_one_sandbox demo_config)
          (discard_sandbox_callback (St := InMemoryPoolStateStore)) demo_config) (fun _ l =>
    match counts_of l with
    | [] => created_of l = [] /\ puts_of l = [] /\ takes_of l = []
    | n :: _ =>
        Z.of_nat (length (created_of l)) <= Z.min (Z.max 0 (10 - n)) 2 /\
        (length (puts_of l) <= length (created_of l))%nat /\
        Z.of_nat (length (takes_of l)) <= Z.min (Z.max 0 (n - 10)) 2
    end).
Proof.
  apply (reconcile_bounded (create_one_sandbox demo_config)
    (discard_sandbox_callback (St := InMemoryPoolStateStore)) demo_config). vm_compute. reflexivity.
Defined.
