(* ===== verification/PoolManager.v ===== *)
(** * Pool manager

    [sdks/sandbox/python/src/opensandbox/pool_manager.py]: destroying a shared
    pool namespace while other processes keep using it.  The manager is proved
    against [PoolStoreLaws], the interface of PoolTypes.v; the in-memory store
    discharges it. *)

From Stdlib Require Import ZArith Lia String.
From stdpp Require Import base numbers strings gmap list.
From S2P Require Import Prelude PyString PoolTypes PoolStore PoolReconciler PoolSync.

Open Scope string_scope.
Open Scope Z_scope.

#[global] Instance PoolDestroyStrategy_eq_dec : EqDecision PoolDestroyStrategy.
Proof. solve_decision. Defined.

Definition validate_destroy_options (o : PoolDestroyOptions) : res exc unit :=
  if bool_decide (do_strategy o = FORCE) then Ok tt
  else Raise (ValueError "Only FORCE pool destroy strategy is supported").

Section manager.
Context {St : Type} `{!PoolStateStore St}.
Local Abbreviation WM A := (M (World St) exc A).
Context (owner : string) (pool : string) (o : PoolDestroyOptions).

(** The result for a namespace that is destroyed already. *)
Definition already_destroyed : PoolDestroyResult :=
  {| dr_pool_name := pool; dr_state := DESTROYED; dr_drained_idle_count := 0;
     dr_killed_idle_count := 0; dr_persistent_state_cleared := false |}.

(** The [while True] loop of [destroy]. *)
Fixpoint destroy_loop (fuel : nat) (deadline : Z) (drained killed : Z) : WM (Z * Z) :=
  match fuel with
  | O => throw (NonException "out of fuel")
  | S fuel =>
      id <-- store_call (try_take_idle pool) ;;
      match id with
      | None => ret (drained, killed)
      | Some id =>
          log (ETake id) ;;;
          ok <-- except_Exception (sandbox_kill id ;;; ret true) (fun _ => ret false) ;;
          late <-- (if 0 <? do_drain_timeout o then
                      now <-- monotonic ;; ret (deadline <? now)
                    else ret false) ;;
          if late : bool then throw PoolDestroyIncompleteException
          else destroy_loop fuel deadline (drained + 1) (if ok : bool then killed + 1 else killed)
      end
  end.

(** [try: m except Exception as exc: raise PoolDestroyIncompleteException] *)
Definition or_incomplete (m : WM unit) : WM unit :=
  except_Exception m (fun _ => throw PoolDestroyIncompleteException).

Definition destroy_drain (fuel : nat) (deadline : Z) : WM PoolDestroyResult :=
  d <-- destroy_loop fuel deadline 0 0 ;;
  or_incomplete (store_call (clear_pool_state pool)) ;;;
  or_incomplete (store_call (mark_destroyed pool owner (do_tombstone_ttl o))) ;;;
  ret {| dr_pool_name := pool; dr_state := DESTROYED; dr_drained_idle_count := d.1;
         dr_killed_idle_count := d.2; dr_persistent_state_cleared := true |}.

(** What follows the fence; the manager is closed on every path. *)
Definition destroy_fenced (fuel : nat) : WM PoolDestroyResult :=
  create_sandbox_manager ;;;
  start <-- monotonic ;;
  r <-- attempt (destroy_drain fuel (start + do_drain_timeout o)) ;;
  c <-- ask e_close_manager ;; answer c ;;;
  answer r.

Definition destroy (fuel : nat) : WM PoolDestroyResult :=
  answer (validate_destroy_options o) ;;;
  state <-- store_call (get_destroy_state pool) ;;
  if bool_decide (state = DESTROYED) then ret already_destroyed
  else
    b <-- attempt (store_call (begin_destroy pool owner)) ;;
    match b with
    | Raise e => if is_PoolDestroyed e then ret already_destroyed else throw e
    | Ok _ => destroy_fenced fuel
    end.
End manager.

(** Sandboxes whose kill the service confirmed. *)
Definition killed_of (l : list event) : list string :=
  omap (fun e => match e with EKill id true => Some id | _ => None end) l.

Lemma killed_app l1 l2 : killed_of (l1 ++ l2) = (killed_of l1 ++ killed_of l2)%list.
Proof. apply omap_app. Qed.
#[export] Hint Rewrite killed_app : osb.

Definition raises_exceptions {St A} (m : M St exc A) : Prop :=
  forall s e, (m s).1 = Raise e -> is_Exception e = true.

(** The store's calls fail with subclasses of [Exception]. *)
Class ExceptionsOnly (St : Type) `{!PoolStateStore St} : Prop := {
  eo_take : forall pool, raises_exceptions (try_take_idle pool);
  eo_destroy_state : forall pool, raises_exceptions (get_destroy_state pool);
  eo_begin : forall pool owner, raises_exceptions (begin_destroy pool owner);
  eo_clear : forall pool, raises_exceptions (clear_pool_state pool);
  eo_mark : forall pool owner ttl, raises_exceptions (mark_destroyed pool owner ttl);
}.

Section destroy_facts.
Context {St : Type} `{!PoolStateStore St} `{!PoolStoreLaws St} `{!ExceptionsOnly St}.
Context (owner pool : string) (o : PoolDestroyOptions).
Implicit Types w : World St.

(** The other clients of the store are well behaved: a fence stays until the
    manager lifts it and lets nothing in.  The service fails with exceptions. *)
Record shared w : Prop := {
  sh_wf : forall n st, st_wf st -> st_wf (e_store_steps (w_env w) n st);
  sh_fence : forall n st, st_wf st -> fenced st pool ->
    fenced (e_store_steps (w_env w) n st) pool /\
    (length (idle_ids (e_store_steps (w_env w) n st) pool) <= length (idle_ids st pool))%nat;
  sh_kill : forall n id e, e_kill (w_env w) n id = Raise e -> is_Exception e = true;
  sh_create : forall n e, e_create_manager (w_env w) n = Raise e -> is_Exception e = true;
  sh_close : forall n e, e_close_manager (w_env w) n = Raise e -> is_Exception e = true;
}.

Lemma shared_env w w' : w_env w' = w_env w -> shared w -> shared w'.
Proof. intros He []. by constructor; rewrite He. Qed.

(** A call on the fenced store. *)
Lemma wp_fenced_call {A} (m : M St exc A) (P : res exc A -> St -> Prop) w Q :
  shared w -> st_wf (w_store w) -> fenced (w_store w) pool ->
  (forall st, st_wf st -> fenced st pool ->
     (length (idle_ids st pool) <= length (idle_ids (w_store w) pool))%nat -> wp m P st) ->
  raises_exceptions m ->
  (forall r st, P r st -> (forall e, r = Raise e -> is_Exception e = true) ->
     Q r (bump (set_store st w))) ->
  wp (store_call m) Q w.
Proof.
  intros Hsh Hwf Hf Hm He HQ. apply wp_store_call.
  destruct (sh_fence w Hsh (w_step w) _ Hwf Hf) as [Hf' Hlen].
  specialize (Hm _ (sh_wf w Hsh (w_step w) _ Hwf) Hf' Hlen).
  specialize (He (e_store_steps (w_env w) (w_step w) (w_store w))).
  unfold wp in *. destruct (m _) as [r st]. apply HQ; [done|]. intros e ->. by apply He.
Qed.

Lemma wp_fenced_take w Q :
  shared w -> st_wf (w_store w) -> fenced (w_store w) pool ->
  (forall r st, st_wf st -> fenced st pool ->
     match r with
     | Ok (Some _) => (length (idle_ids st pool) < length (idle_ids (w_store w) pool))%nat
     | Ok None => True
     | Raise e => is_Exception e = true
     end -> Q r (bump (set_store st w))) ->
  wp (store_call (try_take_idle pool)) Q w.
Proof.
  intros Hsh Hwf Hf HQ.
  apply (wp_fenced_call _ (fun r st => st_wf st /\ fenced st pool /\
    match r with
    | Ok (Some _) => (length (idle_ids st pool) < length (idle_ids (w_store w) pool))%nat
    | _ => True
    end)); [done..| |apply eo_take|].
  - intros st Hst Hfst Hlen. eapply wp_mono; [by apply law_take|].
    intros r st' (H1 & H2 & H3). split_and!; [done|by apply H2|].
    destruct r as [[id|]|]; [|done|done]. destruct H3 as (_ & _ & _ & ?). lia.
  - intros r st (H1 & H2 & H3) He. apply HQ; [done..|]. destruct r as [[id|]|e]; by auto.
Qed.

Lemma wp_destroy_kill id w :
  shared w ->
  wp (except_Exception (sandbox_kill id ;;; ret true) (fun _ => ret false)) (fun r w' =>
    w_env w' = w_env w /\ w_store w' = w_store w /\
    exists b, r = Ok b /\ w_log w' = (w_log w ++ [EKill id b])%list) w.
Proof.
  intros Hsh. unfold sandbox_kill. do 7 pool_step. destruct (e_kill _ _ _) as [[]|e] eqn:E.
  - pool_step. split_and!; [done..|]. by eexists.
  - rewrite (sh_kill w Hsh _ _ _ E). pool_step. split_and!; [done..|]. by eexists.
Qed.

(** What the drain loop leaves: everything it took was sent a kill. *)
Definition drain_log w w' (l : list event) : Prop :=
  w_log w' = (w_log w ++ l)%list /\ takes_of l ⊆ disposed_of l /\
  (length (killed_of l) <= length (takes_of l))%nat.

Definition loop_result d k w (r : res exc (Z * Z)) w' : Prop :=
  w_env w' = w_env w /\ st_wf (w_store w') /\ fenced (w_store w') pool /\
  exists l, drain_log w w' l /\
    match r with
    | Ok (d', k') => d' = d + Z.of_nat (length (takes_of l)) /\
                     k' = k + Z.of_nat (length (killed_of l))
    | Raise e => is_Exception e = true
    end.

(** One sandbox taken and sent a kill before the rest of the loop. *)
Lemma loop_result_cons d k w w1 r w2 id b :
  w_env w1 = w_env w -> w_log w1 = (w_log w ++ [ETake id; EKill id b])%list ->
  loop_result (d + 1) (if b then k + 1 else k) w1 r w2 -> loop_result d k w r w2.
Proof.
  intros He Hl (H1 & H2 & H3 & l & (H4 & H5 & H6) & H7). split_and!; [congruence|done..|].
  exists (ETake id :: EKill id b :: l). unfold drain_log. split_and!.
  - rewrite H4, Hl. by rewrite <- app_assoc.
  - simpl. set_solver.
  - destruct b; simpl; lia.
  - destruct r as [[d' k']|e]; [|done]. destruct b; simpl in *; lia.
Qed.

Lemma wp_destroy_loop fuel deadline : forall d k w,
  shared w -> st_wf (w_store w) -> fenced (w_store w) pool ->
  (length (idle_ids (w_store w) pool) < fuel)%nat ->
  wp (destroy_loop pool o fuel deadline d k) (loop_result d k w) w.
Proof.
  induction fuel as [|fuel IH]; intros d k w Hsh Hwf Hf Hfuel; [lia|]. cbn [destroy_loop].
  assert (Hnone : forall st (r : res exc (Z * Z)), st_wf st -> fenced st pool ->
    match r with Ok (d', k') => d' = d /\ k' = k | Raise e => is_Exception e = true end ->
    loop_result d k w r (bump (set_store st w))).
  { intros st r Hst Hfst Hr. split_and!; [done..|]. exists []. unfold drain_log.
    rewrite app_nil_r. split; [done|]. destruct r as [[d' k']|]; simpl; [lia|done]. }
  pool_step. apply wp_fenced_take; [done..|]. intros r st Hst Hfst Hr.
  destruct r as [[id|]|e]; [|pool_step; by apply Hnone|by apply Hnone].
  do 3 pool_step. eapply wp_mono; [by apply wp_destroy_kill, (shared_env w)|].
  intros rk w1 (He & Hs & b & -> & Hl). simpl in *. rewrite <- app_assoc in Hl. cbn [app] in Hl.
  assert (Hgo : forall (late : bool) w2, w_env w2 = w_env w1 -> w_store w2 = w_store w1 ->
    w_log w2 = w_log w1 ->
    wp (if late then throw PoolDestroyIncompleteException
        else destroy_loop pool o fuel deadline (d + 1) (if b then k + 1 else k))
      (loop_result d k w) w2).
  { intros late w2 E1 E2 E3. eapply wp_mono; [|intros r w3; by apply (loop_result_cons _ _ _ w2 _ _ id b); congruence].
    destruct late; [pool_step|apply IH]; rewrite ?E2, ?Hs; [|by apply (shared_env w); congruence|done..|simpl; lia].
    split_and!; rewrite ?E2, ?Hs; [done..|]. exists []. unfold drain_log. by rewrite app_nil_r. }
  pool_step. destruct (0 <? do_drain_timeout o); [do 3 pool_step; by apply Hgo|pool_step; by apply (Hgo false)].
Qed.

(** How a destroy ends: see [destroy_completes]. *)
Definition destroyed w (r : res exc PoolDestroyResult) w' : Prop :=
  exists l, drain_log w w' l /\
    match r with
    | Ok res => dr_state res = DESTROYED /\ dr_pool_name res = pool /\
        dr_drained_idle_count res = Z.of_nat (length (takes_of l)) /\
        dr_killed_idle_count res = Z.of_nat (length (killed_of l)) /\
        (dr_persistent_state_cleared res = true ->
           idle_ids (w_store w') pool = [] /\ tombstoned (w_store w') pool)
    | Raise e => is_Exception e = true
    end.

Lemma destroyed_silent w w' r :
  w_log w' = w_log w ->
  match r with Ok res => res = already_destroyed pool | Raise e => is_Exception e = true end ->
  destroyed w r w'.
Proof.
  intros Hl Hr. exists []. unfold drain_log. rewrite app_nil_r. split; [done|].
  destruct r as [res|e]; [|done]. by subst.
Qed.

Lemma wp_or_incomplete (m : M (World St) exc unit) Q w :
  wp m (fun r w' => match r with
                    | Ok _ => Q (Ok tt) w'
                    | Raise e => is_Exception e = true /\ Q (Raise PoolDestroyIncompleteException) w'
                    end) w ->
  wp (or_incomplete m) Q w.
Proof.
  intros Hm. unfold or_incomplete. pool_step. eapply wp_mono; [apply Hm|].
  intros [[]|e] w'; [done|]. intros [-> HQ]. by pool_step.
Qed.

Lemma wp_destroy_drain fuel deadline w :
  shared w -> st_wf (w_store w) -> fenced (w_store w) pool ->
  (length (idle_ids (w_store w) pool) < fuel)%nat ->
  wp (destroy_drain owner pool o fuel deadline) (fun r w' => w_env w' = w_env w /\ destroyed w r w') w.
Proof.
  intros Hsh Hwf Hf Hfuel. unfold destroy_drain. pool_step.
  eapply wp_mono; [by apply wp_destroy_loop|].
  intros r w1 (He & Hwf1 & Hf1 & l & Hl & Hr). destruct r as [[d k]|e]; [|by split; [|exists l]].
  destruct Hr as [-> ->]. simpl.
  pool_step. apply wp_or_incomplete.
  eapply (wp_fenced_call _ (fun r st => st_wf st /\ fenced st pool /\
    (is_ok r = true -> idle_ids st pool = []))); [by apply (shared_env w)|done|done| |apply eo_clear|].
  { intros st Hst Hfst _. eapply wp_mono; [by apply law_clear|].
    intros r st' (H1 & H2 & H3). split_and!; [done|by apply H2|]. by destruct r. }
  intros [[]|e] st (Hst & Hfst & Hempty) Hex; [|by split; [by apply Hex|split; [|exists l]]].
  specialize (Hempty eq_refl). pool_step. apply wp_or_incomplete.
  eapply (wp_fenced_call _ (fun r st => st_wf st /\
    (is_ok r = true -> idle_ids st pool = [] /\ tombstoned st pool)));
    [by apply (shared_env w)|done|done| |apply eo_mark|].
  { intros st' Hst' Hfst' Hlen. simpl in Hlen. rewrite Hempty in Hlen. simpl in Hlen.
    eapply wp_mono; [by apply law_mark_destroyed|].
    intros r st2 (H1 & H2 & H3). split; [done|]. destruct r; [|done]. intros _.
    split; [|done]. rewrite H2. apply nil_length_inv. lia. }
  intros [[]|e] st' (Hst' & Hend) Hex'; [|by split; [by apply Hex'|split; [|exists l]]].
  pool_step. split; [done|]. exists l. split_and!; try done.
Qed.

Lemma wp_destroy_fenced fuel w :
  shared w -> st_wf (w_store w) -> fenced (w_store w) pool ->
  (length (idle_ids (w_store w) pool) < fuel)%nat ->
  wp (destroy_fenced owner pool o fuel) (destroyed w) w.
Proof.
  intros Hsh Hwf Hf Hfuel. unfold destroy_fenced, create_sandbox_manager. do 4 pool_step.
  destruct (e_create_manager _ _) as [[]|e] eqn:Ec;
    [|apply destroyed_silent; [done|by apply (sh_create w Hsh) in Ec]].
  do 4 pool_step. eapply wp_mono; [apply wp_destroy_drain; [by apply (shared_env w)|done..]|].
  intros r w1 [He Hd]. do 4 pool_step. simpl in He. rewrite He.
  destruct (e_close_manager _ _) as [[]|e] eqn:Ec2; [by pool_step|].
  destruct Hd as (l & Hl & _). exists l. split; [done|]. by apply (sh_close w Hsh) in Ec2.
Qed.
End destroy_facts.

(** ** Theorems *)

Section destroy_theorem.
Context {St : Type} `{!PoolStateStore St} `{!PoolStoreLaws St} `{!ExceptionsOnly St}.

(** The run of [destroy], for the theorems about the stores. *)
Lemma destroy_run owner pool o (w : World St) :
  shared pool w -> st_wf (w_store w) ->
  exists n, forall fuel, (n <= fuel)%nat ->
    wp (destroy owner pool o fuel) (destroyed pool w) w.
Proof.
  intros Hsh Hwf.
  assert (Hpre : forall w1, w_env w1 = w_env w -> w_log w1 = w_log w -> st_wf (w_store w1) ->
    exists n, forall fuel, (n <= fuel)%nat ->
      wp (b <-- attempt (store_call (begin_destroy pool owner)) ;;
          match b with
          | Raise e => if is_PoolDestroyed e then ret (already_destroyed pool) else throw e
          | Ok _ => destroy_fenced owner pool o fuel
          end) (destroyed pool w) w1).
  { intros w1 He Hl Hwf1. pose proof (shared_env pool w w1 He Hsh) as Hsh1.
    set (st := e_store_steps (w_env w1) (w_step w1) (w_store w1)).
    pose proof (law_begin_destroy pool owner st (sh_wf _ w1 Hsh1 _ _ Hwf1)) as Hb.
    pose proof (eo_begin pool owner st) as Hex. unfold wp in Hb.
    exists (S (length (idle_ids st pool))). intros fuel Hfuel. do 2 pool_step. apply wp_store_call.
    fold st. unfold wp at 1. destruct (begin_destroy pool owner st) as [[[]|e] st'].
    - destruct Hb as (H1 & H2 & H3).
      eapply wp_mono; [apply wp_destroy_fenced; [by apply (shared_env pool w)|done|done|]|].
      + simpl. rewrite H2. lia.
      + intros r w2 (l & (L1 & L2) & L3). exists l. unfold drain_log in *. simpl in L1.
        rewrite Hl in L1. done.
    - specialize (Hex e eq_refl). destruct (is_PoolDestroyed e); pool_step; by apply destroyed_silent. }
  pose proof (sh_wf _ w Hsh (w_step w) _ Hwf) as Hwf0.
  set (st := e_store_steps (w_env w) (w_step w) (w_store w)) in *.
  pose proof (law_destroy_state pool st Hwf0) as Hd. pose proof (eo_destroy_state pool st) as Hex.
  unfold wp in Hd. destruct (get_destroy_state pool st) as [r st'] eqn:Hget. destruct Hd as [Hst' _].
  destruct (Hpre (bump (set_store st' w)) eq_refl eq_refl Hst') as [n Hn]. exists n.
  intros fuel Hfuel. unfold destroy, validate_destroy_options. pool_step.
  rewrite bool_decide_true by (by destruct (do_strategy o)). do 2 pool_step. apply wp_store_call.
  fold st. unfold wp at 1. rewrite Hget. destruct r as [state|e]; [|by apply destroyed_silent; [|apply Hex]].
  case_bool_decide; [pool_step; by apply destroyed_silent|]. by apply Hn.
Qed.

End destroy_theorem.

(** ** The in-memory store as an instance *)

Lemma get_destroy_state_ok pool s : exists st s', im_get_destroy_state pool s = (Ok st, s').
Proof.
  unfold im_get_destroy_state, bind, gets. destruct (destroy_state_by_pool s !! pool) as [e|]; [|by eauto].
  destruct (dse_expires_at e); [|by eauto]. unfold now_. simpl. destruct (_ <=? _); by eauto.
Qed.

#[global] Instance InMemory_exceptions : ExceptionsOnly InMemoryPoolStateStore.
Proof.
  split; intros; intros s e.
  - pose proof (im_take_ok pool s) as Hok. simpl. by destruct (im_try_take_idle pool s) as [[]].
  - simpl. by destruct (get_destroy_state_ok pool s) as (st & s' & ->).
  - simpl. unfold im_begin_destroy. destruct (is_blank owner); [by intros [= <-]|].
    unfold bind. destruct (get_destroy_state_ok pool s) as (st & s' & ->).
    case_bool_decide; [by intros [= <-]|done].
  - done.
  - simpl. unfold im_mark_destroyed. destruct (is_blank owner); [by intros [= <-]|].
    destruct ttl as [t|]; [|done]. by destruct (t <=? 0); [intros [= <-]|].
Qed.

(** Another client tries to put a sandbox before every call of the manager. *)
Definition intruder_env : Env InMemoryPoolStateStore := {|
  e_now := Z.of_nat; e_monotonic := Z.of_nat;
  e_store_steps := fun n st => (run_op (OpPut "demo" "intruder") st).2;
  e_lifecycle_steps := fun _ l => l; e_in_flight_steps := fun _ n => n;
  e_submit := fun _ => true; e_connect := fun _ _ => Ok tt; e_create := fun _ _ => Ok "sb";
  e_renew := fun _ _ _ => Ok tt;
  e_kill := fun _ id => if bool_decide (id = "a") then Raise (OtherException "ApiError") else Ok tt;
  e_close := fun _ _ => Ok tt; e_prepare := None; e_create_manager := fun _ => Ok tt;
  e_close_manager := fun _ => Ok tt; e_start_thread := fun _ => Ok tt;
|}.

Definition demo_destroy_options : PoolDestroyOptions :=
  {| do_strategy := FORCE; do_tombstone_ttl := None; do_drain_timeout := seconds 60 |}.

Definition intruder_world : World InMemoryPoolStateStore :=
  set_env intruder_env (calm_world demo_pool_store).

