(* ===== verification/PoolAsync.v ===== *)
(** * Asynchronous sandbox pool

    [sdks/sandbox/python/src/opensandbox/pool_async.py] and
    [_async_pool_reconciler.py]: the asyncio pool.  It runs in the same [World]
    as the synchronous one: every [await] of a store or sandbox call is a call
    the environment answers, and a cancellation delivered at such a point is the
    answer [Raise] of a [CancelledError], which is no subclass of [Exception].
    Most methods are the synchronous ones with [await] added, and are named
    here by a definition of their own; what differs is written out: there is no
    executor, kills are scheduled as tasks, warm-ups are gathered, and a warm-up
    that is cancelled cleans up after itself. *)

From Stdlib Require Import ZArith Lia String.
From stdpp Require Import base numbers strings gmap list.
From S2P Require Import Prelude PyString PoolTypes PoolStore PoolReconciler PoolSync PoolManager.

Open Scope string_scope.
Open Scope Z_scope.

Definition CancelledError : exc := NonException "CancelledError".

(** ** Gathering *)

Section gather.
Context {St : Type}.
Local Abbreviation WM A := (M (World St) exc A).

(** The awaitables run to their end; nothing else of the order is visible. *)
Fixpoint run_all {A} (ms : list (WM A)) : WM (list (res exc A)) :=
  match ms with
  | [] => ret []
  | m :: ms => r <-- attempt m ;; rs <-- run_all ms ;; ret (r :: rs)
  end.

(** [asyncio.gather] of [ms]: the first exception, if there is one *)
Fixpoint first_error {A} (rs : list (res exc A)) : res exc unit :=
  match rs with
  | [] => Ok tt
  | Ok _ :: rs => first_error rs
  | Raise e :: _ => Raise e
  end.

Definition gather {A} (ms : list (WM A)) : WM unit :=
  rs <-- run_all ms ;; answer (first_error rs).
End gather.

(** ** One reconcile tick *)

Section tick.
Context {St : Type} `{!PoolStateStore St}.
Local Abbreviation WM A := (M (World St) exc A).
Context (create_one : WM (option string)) (on_discard_sandbox : string -> WM unit).

Definition async_discard (id : string) : WM unit := discard on_discard_sandbox id.
Definition async_shrink_excess_idle (c : PoolConfig) (to_remove : Z) : WM unit :=
  shrink_excess_idle on_discard_sandbox c to_remove.

(** The loop over [results]; any [BaseException] counts as a failure. *)
Fixpoint async_harvest (rs : list (res exc (option string))) (ids : list string) (failures : Z)
    (err : option exc) : list string * Z * option exc :=
  match rs with
  | [] => (ids, failures, err)
  | Ok (Some id) :: rs => async_harvest rs (ids ++ [id])%list failures err
  | Ok None :: rs => async_harvest rs ids (failures + 1) None
  | Raise e :: rs => async_harvest rs ids (failures + 1) (Some e)
  end.

Definition async_run_primary_replenish_once (c : PoolConfig) : WM unit :=
  now <-- datetime_now ;;
  discarded_alive <-- store_call
    (reap_expired_idle_with_min_ttl (pool_name c) now (Some (acquire_min_remaining_ttl c))) ;;
  for_each (call_discard on_discard_sandbox) discarded_alive ;;;
  counters <-- store_call (snapshot_counters (pool_name c)) ;;
  let idle := sc_idle_count counters in
  log (ECount idle) ;;;
  let to_remove := Z.min (Z.max 0 (idle - max_idle c)) (concurrency c) in
  if 0 <? to_remove then async_shrink_excess_idle c to_remove
  else
    let to_create := Z.min (Z.max 0 (max_idle c - idle)) (concurrency c) in
    rs <-- gets w_rs ;;
    if (to_create =? 0) || is_backoff_active now rs then renew_lock c ;;; ret tt
    else
      primary <-- renew_lock c ;;
      if primary : bool then
        results <-- run_futures create_one (Z.to_nat to_create) ;;
        let '(created_ids, failure_count, last_error) := async_harvest results [] 0 None in
        now <-- datetime_now ;;
        modify (fun w => set_rs (record_failures now failure_count last_error (w_rs w)) w) ;;;
        put_created on_discard_sandbox c created_ids
      else ret tt.

Definition run_async_reconcile_tick (c : PoolConfig) : WM unit :=
  primary <-- store_call
    (try_acquire_primary_lock (pool_name c) (owner_id c) (primary_lock_ttl c)) ;;
  if primary : bool then async_run_primary_replenish_once c else ret tt.
End tick.

(** ** The pool *)

Section pool.
Context {St : Type} `{!PoolStateStore St}.
Local Abbreviation WM A := (M (World St) exc A).
Context (cfg : PoolConfig).

(** *** Methods that are the synchronous ones with [await] *)

Definition async_begin_operation : WM unit := begin_operation.
Definition async_end_operation : World St -> World St := end_operation.
Definition async_kill_sandbox_best_effort (id : string) : WM bool := kill_sandbox_best_effort id.
Definition async_discard_sandbox_callback (id : string) : WM unit := discard_sandbox_callback id.
Definition async_create_sandbox_manager : WM unit := create_sandbox_manager.
Definition async_build_sandbox (reason : PooledSandboxCreateReason) : WM string := build_sandbox reason.
Definition async_ensure_pool_namespace_active : WM unit := ensure_pool_namespace_active cfg.
Definition async_ensure_pool_namespace_active_for_acquire (policy : AcquirePolicy) : WM unit :=
  ensure_pool_namespace_active_for_acquire cfg policy.
Definition async_raise_if_pool_namespace_destroyed : WM unit := raise_if_pool_namespace_destroyed cfg.
Definition async_ensure_pool_namespace_active_after_create (id : string) (policy : option AcquirePolicy) : WM unit :=
  ensure_pool_namespace_active_after_create cfg id policy.
Definition async_direct_create (timeout : option Z) (policy : AcquirePolicy) : WM string :=
  direct_create cfg timeout policy.
Definition async_resolve_max_idle : WM Z := resolve_max_idle cfg.
Definition async_resize (n : Z) : WM unit := resize cfg n.
Definition async_snapshot : WM PoolSnapshot := snapshot cfg.
Definition async_snapshot_idle_entries : WM (list IdleEntry) := pool_snapshot_idle_entries cfg.
Definition async_release_all_idle (fuel : nat) : WM Z := release_all_idle cfg fuel.
Definition async_close_provider : WM unit := close_provider.
Definition async_release_primary_lock_best_effort : WM unit := release_primary_lock_best_effort cfg.

(** *** Killing near-expiry sandboxes *)

(** The body of the task: all kills at once. *)
Definition async_kill_discarded_alive (ids : list string) : WM unit :=
  match ids with [] => ret tt | _ => gather (map async_kill_sandbox_best_effort ids) end.

(** [asyncio.create_task]; [e_submit] answers whether there is a running loop.
    On a [RuntimeError] the method returns. *)
Definition async_schedule_kill_discarded_alive (ids : list string) : WM unit :=
  match ids with
  | [] => ret tt
  | _ => accepted <-- ask e_submit ;;
         if accepted : bool then log (ESubmitKill ids) else ret tt
  end.

(** *** Creating *)

(** As the synchronous one, but the clean-up also runs for a [BaseException]. *)
Definition async_create_one_sandbox : WM (option string) :=
  async_begin_operation ;;;
  finally
    (async_ensure_pool_namespace_active ;;;
     id <-- async_build_sandbox R_WARMUP ;;
     r <-- attempt (catch (create_one_body cfg id)
                      (fun e => Some (best_effort (sandbox_kill id) ;;; throw e))) ;;
     sandbox_close id ;;;
     answer r)
    async_end_operation.

(** *** Acquire *)

Fixpoint async_acquire_loop (policy : AcquirePolicy) (timeout : option Z) (n : nat)
    (pending : list string) (attempted : bool) : WM (option string * list string * bool) :=
  match n with
  | O => ret (None, pending, attempted)
  | S n =>
    t <-- attempt (store_call (try_take_idle_with_min_ttl (pool_name cfg)
                     (Some (acquire_min_remaining_ttl cfg)))) ;;
    match t with
    | Raise e =>
        if is_StoreUnavailable e then
          if policy_falls_through_to_direct_create policy then ret (None, pending, attempted)
          else async_schedule_kill_discarded_alive pending ;;; throw e
        else throw e
    | Ok take =>
      for_each (fun id => log (EDropped id)) (ti_discarded_alive take) ;;;
      let pending := (pending ++ ti_discarded_alive take)%list in
      match ti_sandbox_id take with
      | None => ret (None, pending, attempted)
      | Some id =>
        log (ETake id) ;;;
        conn <-- attempt (sandbox_connect id) ;;
        match conn with
        | Raise e =>
            if is_PoolDestroyed e then async_schedule_kill_discarded_alive pending ;;; throw e
            else if is_Exception e then
              store_call (remove_idle (pool_name cfg) id) ;;;
              async_schedule_kill_discarded_alive [id] ;;;
              st <-- read_lifecycle ;;
              if bool_decide (st = LC_RUNNING) then
                async_ensure_pool_namespace_active ;;;
                async_acquire_loop policy timeout n pending true
              else
                st <-- read_lifecycle ;;
                async_raise_if_pool_namespace_destroyed ;;;
                async_schedule_kill_discarded_alive pending ;;;
                throw (PoolNotRunningException st)
            else throw e
        | Ok _ =>
            r <-- attempt (match timeout with Some t => sandbox_renew id t | None => ret tt end ;;;
                           async_ensure_pool_namespace_active_after_create id None) ;;
            match r with
            | Ok _ => async_schedule_kill_discarded_alive pending ;;; ret (Some id, pending, true)
            | Raise e =>
                if is_PoolDestroyed e then async_schedule_kill_discarded_alive pending ;;; throw e
                else if is_Exception e then
                  best_effort (sandbox_kill id) ;;;
                  best_effort (sandbox_close id) ;;;
                  async_schedule_kill_discarded_alive pending ;;;
                  throw e
                else throw e
            end
        end
      end
    end
  end.

Definition async_acquire_body (timeout : option Z) (policy : AcquirePolicy) : WM string :=
  st <-- read_lifecycle ;;
  if bool_decide (st = LC_RUNNING) then
    async_ensure_pool_namespace_active_for_acquire policy ;;;
    let max_attempts := effective_max_idle_attempts policy (max_acquire_retries cfg) in
    r <-- async_acquire_loop policy timeout (Z.to_nat max_attempts) [] false ;;
    let '(sandbox, pending, attempted) := r in
    match sandbox with
    | Some id => ret id
    | None =>
        async_schedule_kill_discarded_alive pending ;;;
        if policy_falls_through_to_direct_create policy then async_direct_create timeout policy
        else if attempted : bool then throw PoolAcquireFailedException
        else throw PoolEmptyException
    end
  else
    st <-- read_lifecycle ;;
    async_raise_if_pool_namespace_destroyed ;;;
    throw (PoolNotRunningException st).

Definition async_acquire (timeout : option Z) (policy : AcquirePolicy) : WM string :=
  st <-- read_lifecycle ;;
  if bool_decide (st = LC_RUNNING) then
    async_begin_operation ;;; finally (async_acquire_body timeout policy) async_end_operation
  else
    st <-- read_lifecycle ;;
    async_raise_if_pool_namespace_destroyed ;;;
    throw (PoolNotRunningException st).

(** *** Life cycle *)

(** [_stop_reconcile].  Awaiting the scheduler task (for five seconds, then
    cancelling it) can raise what the task or a cancellation raises: the answer
    [e_start_thread] of the environment.  Waiting for warm-up tasks, and
    cancelling them, moves no field. *)
Definition async_stop_reconcile (join_scheduler : bool) : WM unit :=
  modify (set_stop_event true) ;;;
  scheduler <-- gets w_scheduler ;;
  (if join_scheduler && scheduler then
     r <-- ask e_start_thread ;; answer r ;;; modify (set_scheduler false)
   else ret tt) ;;;
  async_release_primary_lock_best_effort.

Definition async_start_body : WM unit :=
  async_ensure_pool_namespace_active ;;;
  async_create_sandbox_manager ;;;
  modify (set_manager true) ;;;
  store_call (set_idle_entry_ttl (pool_name cfg) (idle_timeout cfg)) ;;;
  store_call (set_max_idle (pool_name cfg) (max_idle cfg)) ;;;
  modify (set_stop_event false) ;;;
  modify (set_lifecycle LC_RUNNING) ;;;
  modify (set_scheduler true).

Definition async_start : WM unit :=
  st <-- gets w_lifecycle ;;
  if bool_decide (st = LC_RUNNING \/ st = LC_STARTING) then ret tt
  else
    modify (set_lifecycle LC_STARTING) ;;;
    except_Exception async_start_body (fun e =>
      async_stop_reconcile true ;;;
      async_close_provider ;;;
      modify (set_lifecycle LC_STOPPED) ;;;
      throw e).

(** [notified n]: the wait that ends at step [n] was woken rather than timed
    out. *)
Context (notified : nat -> bool).

Definition read_in_flight : WM Z :=
  fun w => let n := e_in_flight_steps (w_env w) (w_step w) (w_in_flight w) in
           (Ok n, bump (set_in_flight n w)).

Fixpoint async_await_loop (fuel : nat) (deadline : Z) : WM bool :=
  match fuel with
  | O => throw (NonException "out of fuel")
  | S fuel =>
      in_flight <-- read_in_flight ;;
      if 0 <? in_flight then
        now <-- monotonic ;;
        if deadline - now <=? 0 then ret false
        else
          woken <-- ask (fun _ n => notified n) ;;
          if woken : bool then async_await_loop fuel deadline
          else in_flight <-- read_in_flight ;; ret (in_flight =? 0)
      else ret true
  end.

Definition async_await_in_flight_drain (fuel : nat) (timeout : Z) : WM bool :=
  start <-- monotonic ;; async_await_loop fuel (start + timeout).

Definition async_shutdown (fuel : nat) (graceful : bool) : WM unit :=
  st <-- gets w_lifecycle ;;
  if bool_decide (st = LC_STOPPED) then ret tt
  else if negb graceful then
    async_stop_reconcile true ;;;
    modify (set_lifecycle LC_STOPPED) ;;;
    async_close_provider
  else
    modify (set_lifecycle LC_DRAINING) ;;;
    async_stop_reconcile false ;;;
    async_await_in_flight_drain fuel (drain_timeout cfg) ;;;
    modify (set_lifecycle LC_STOPPED) ;;;
    async_close_provider.

Definition async_stop_after_pool_namespace_destroyed : WM unit :=
  st <-- gets w_lifecycle ;;
  if bool_decide (st = LC_STOPPED) then ret tt
  else
    async_stop_reconcile false ;;;
    modify (set_lifecycle LC_STOPPED) ;;;
    async_close_provider.

(** *** The reconcile task *)

Definition async_pool_reconcile_tick : WM unit :=
  st <-- read_lifecycle ;;
  if bool_decide (st = LC_RUNNING) then
    st <-- read_lifecycle ;;
    if bool_decide (st = LC_RUNNING) then
      async_begin_operation ;;;
      finally
        (except_Exception
          (st <-- read_lifecycle ;;
           if bool_decide (st = LC_RUNNING) then
             d <-- store_call (get_destroy_state (pool_name cfg)) ;;
             if bool_decide (d = ACTIVE) then
               n <-- async_resolve_max_idle ;;
               c <-- answer (with_max_idle "" n cfg) ;;
               run_async_reconcile_tick async_create_one_sandbox async_discard_sandbox_callback c
             else async_stop_after_pool_namespace_destroyed
           else ret tt)
          (fun _ => ret tt))
        async_end_operation
    else ret tt
  else ret tt.

(** The [while not stop_event.is_set()] loop; the result says whether the loop
    ended within [fuel] ticks. *)
Fixpoint async_scheduler_loop (fuel : nat) : WM bool :=
  match fuel with
  | O => ret false
  | S fuel =>
      stop <-- gets w_stop_event ;;
      if stop : bool then ret true
      else
        async_pool_reconcile_tick ;;;
        woken <-- ask (fun _ n => notified n) ;;
        if woken : bool then ret true else async_scheduler_loop fuel
  end.

Definition async_run_scheduler (fuel : nat) : WM bool :=
  let initial_delay := if 0 <? max_idle cfg then 0 else reconcile_interval cfg in
  if 0 <? initial_delay then
    woken <-- ask (fun _ n => notified n) ;;
    if woken : bool then ret true else async_scheduler_loop fuel
  else async_scheduler_loop fuel.

(** *** Draining in parallel *)

(** [_release_all_idle_parallel], the body of the clean-up task. *)
Definition async_release_task (fuel : nat) : WM Z :=
  d <-- drain_loop cfg fuel [] ;;
  let '(ids, drain_error) := d in
  (match ids with
   | [] => ret tt
   | _ =>
       m <-- gets w_manager ;;
       if m : bool then gather (map (fun id => best_effort (sandbox_kill id)) ids)
       else
         made <-- attempt async_create_sandbox_manager ;;
         match made with
         | Ok _ =>
             r <-- attempt (gather (map (fun id => best_effort (sandbox_kill id)) ids)) ;;
             c <-- ask e_close_manager ;; answer c ;;; answer r
         | Raise e => if is_Exception e then ret tt else throw e
         end
   end) ;;;
  match drain_error with
  | Some e => throw e
  | None => ret (Z.of_nat (length ids))
  end.

(** The loop around [asyncio.shield].  A member of [wakes] is a cancellation of
    the caller, with whether the task is done by then; after the last one the
    task's own outcome ends the wait.  The result is [cancellation] and
    [cleanup_failure]. *)
Fixpoint shield_loop (wakes : list bool) (outcome : res exc Z)
    (cancellation cleanup_failure : option exc) : option exc * option exc :=
  match wakes with
  | done :: wakes =>
      let cancellation := Some (default CancelledError cancellation) in
      if done : bool then (cancellation, cleanup_failure)
      else shield_loop wakes outcome cancellation cleanup_failure
  | [] =>
      match outcome with
      | Ok _ => (cancellation, cleanup_failure)
      | Raise e =>
          if bool_decide (e = CancelledError) then (Some (default e cancellation), cleanup_failure)
          else (cancellation, Some e)
      end
  end.

(** What follows the loop.  The cause attached to a cancellation is not
    modelled. *)
Definition after_shield (outcome : res exc Z) (seen : option exc * option exc) : res exc Z :=
  match seen with
  | (Some c, _) => Raise c
  | (None, Some e) => Raise e
  | (None, None) => outcome
  end.

Definition async_release_all_idle_parallel (fuel : nat) (wakes : list bool) (max_workers : Z)
  : WM Z :=
  if max_workers <=? 0 then throw (ValueError "max_workers must be positive")
  else
    outcome <-- attempt (async_release_task fuel) ;;
    answer (after_shield outcome (shield_loop wakes outcome None None)).
End pool.

(** ** The pool manager *)

(** [SandboxPoolManagerAsync.destroy] is [SandboxPoolManagerSync.destroy] with
    every call awaited. *)
Definition async_destroy {St} `{!PoolStateStore St} (owner pool : string) (o : PoolDestroyOptions)
    (fuel : nat) : M (World St) exc PoolDestroyResult :=
  destroy owner pool o fuel.

(** ** Simulating the synchronous pool

    Background tasks can be created: there is a running event loop. *)
Definition loop_running {St} (w : World St) : Prop := forall n, e_submit (w_env w) n = true.

(** Run in a world that has an executor as well, [m'] gives the same result,
    the same log and the same fields as [m]. *)
Definition simulates {St A} (m m' : M (World St) exc A) : Prop :=
  forall w, loop_running w -> loop_running (m w).2 /\
    m' (set_executor true w) = ((m w).1, set_executor true (m w).2).

Section simulates.
Context {St : Type}.
Local Abbreviation WM A := (M (World St) exc A).

Lemma sim_bind {A B} (m m' : WM A) (k k' : A -> WM B) :
  simulates m m' -> (forall a, simulates (k a) (k' a)) -> simulates (bind m k) (bind m' k').
Proof.
  intros Hm Hk w Hw. unfold bind. destruct (Hm w Hw) as [Hr ->].
  destruct (m w) as [[a|e] w']; [by apply Hk|done].
Qed.

Lemma sim_catch {A} (m m' : WM A) (h h' : exc -> option (WM A)) :
  simulates m m' -> (forall e, option_relation simulates (fun _ => False) (fun _ => False) (h e) (h' e)) ->
  simulates (catch m h) (catch m' h').
Proof.
  intros Hm Hh w Hw. unfold catch. destruct (Hm w Hw) as [Hr ->].
  destruct (m w) as [[a|e] w']; [done|]. simpl. specialize (Hh e).
  destruct (h e) as [k|], (h' e) as [k'|]; simpl in Hh; try done. by apply Hh.
Qed.

Lemma sim_attempt {A} (m m' : WM A) : simulates m m' -> simulates (attempt m) (attempt m').
Proof.
  intros Hm w Hw. unfold attempt. destruct (Hm w Hw) as [Hr ->]. by destruct (m w).
Qed.

Lemma sim_finally {A} (m m' : WM A) f :
  (forall w, w_env (f w) = w_env w) -> (forall w, f (set_executor true w) = set_executor true (f w)) ->
  simulates m m' -> simulates (finally m f) (finally m' f).
Proof.
  intros He Hf Hm w Hw. unfold finally. destruct (Hm w Hw) as [Hr ->].
  destruct (m w) as [r w']. simpl. unfold loop_running. rewrite He, Hf. done.
Qed.

Lemma sim_ret {A} (a : A) : simulates (St := St) (ret a) (ret a).
Proof. done. Qed.
Lemma sim_throw {A} e : simulates (St := St) (throw (A := A) e) (throw e).
Proof. done. Qed.
Lemma sim_answer {A} (r : res exc A) : simulates (St := St) (answer r) (answer r).
Proof. done. Qed.
Lemma sim_log e : simulates (St := St) (log e) (log e).
Proof. done. Qed.
Lemma sim_ask {A} (f : Env St -> nat -> A) : simulates (ask f) (ask f).
Proof. done. Qed.
Lemma sim_read_lifecycle : simulates (St := St) read_lifecycle read_lifecycle.
Proof. done. Qed.
Lemma sim_store_call {A} (m : M St exc A) : simulates (store_call m) (store_call m).
Proof. intros w Hw. unfold store_call. simpl. by destruct (m _). Qed.
Lemma sim_gets {A} (f : World St -> A) :
  (forall w, f (set_executor true w) = f w) -> simulates (gets f) (gets f).
Proof. intros Hf w Hw. unfold gets. by rewrite Hf. Qed.
Lemma sim_modify (f : World St -> World St) :
  (forall w, w_env (f w) = w_env w) -> (forall w, f (set_executor true w) = set_executor true (f w)) ->
  simulates (modify f) (modify f).
Proof. intros He Hf w Hw. unfold modify, loop_running. simpl. by rewrite He, Hf. Qed.
Lemma sim_for_each {A} (f : A -> WM unit) (l : list A) :
  (forall x, simulates (f x) (f x)) -> simulates (for_each f l) (for_each f l).
Proof.
  intros Hf. induction l as [|x l IH]; cbn [for_each]; [apply sim_ret|]. by apply sim_bind.
Qed.

(** A submitted kill is a created task. *)
Lemma sim_schedule ids :
  simulates (async_schedule_kill_discarded_alive (St := St) ids) (schedule_kill_discarded_alive ids).
Proof.
  intros w Hw. destruct ids as [|id ids]; [done|]. unfold async_schedule_kill_discarded_alive,
    schedule_kill_discarded_alive, bind, gets, ask. simpl. rewrite Hw. done.
Qed.
End simulates.

Ltac sim_step :=
  cbn beta iota;
  lazymatch goal with
  | |- simulates (async_schedule_kill_discarded_alive _) _ => apply sim_schedule
  | |- simulates (bind _ _) _ => apply sim_bind; [|intros ?]
  | |- simulates (except_Exception _ _) _ => apply sim_catch; [|intros ?]
  | |- simulates (catch _ _) _ => apply sim_catch; [|intros ?]
  | |- simulates (attempt _) _ => apply sim_attempt
  | |- simulates (finally _ _) _ => apply sim_finally; [done|done|]
  | |- simulates (ret _) _ => apply sim_ret
  | |- simulates (throw _) _ => apply sim_throw
  | |- simulates (answer _) _ => apply sim_answer
  | |- simulates (log _) _ => apply sim_log
  | |- simulates (ask _) _ => apply sim_ask
  | |- simulates read_lifecycle _ => apply sim_read_lifecycle
  | |- simulates (store_call _) _ => apply sim_store_call
  | |- simulates (gets _) _ => apply sim_gets; done
  | |- simulates (modify _) _ => apply sim_modify; done
  | |- simulates (for_each _ _) _ => apply sim_for_each; intros ?
  | |- simulates (match ?x with _ => _ end) _ => destruct x
  | |- option_relation _ _ _ (match ?x with _ => _ end) _ => destruct x
  | |- option_relation _ _ _ (Some _) _ => cbn
  | |- option_relation _ _ _ None _ => exact I
  end.

Section acquire_facts.
Context {St : Type} `{!PoolStateStore St} (cfg : PoolConfig).

Lemma sim_checks :
  simulates (St := St) (ensure_pool_namespace_active cfg) (ensure_pool_namespace_active cfg) /\
  simulates (St := St) (raise_if_pool_namespace_destroyed cfg) (raise_if_pool_namespace_destroyed cfg) /\
  (forall policy, simulates (St := St) (ensure_pool_namespace_active_for_acquire cfg policy)
     (ensure_pool_namespace_active_for_acquire cfg policy)) /\
  (forall id policy, simulates (St := St) (ensure_pool_namespace_active_after_create cfg id policy)
     (ensure_pool_namespace_active_after_create cfg id policy)).
Proof.
  unfold raise_if_pool_namespace_destroyed, ensure_pool_namespace_active_for_acquire,
    ensure_pool_namespace_active_after_create, fence_cleanup, sandbox_kill, sandbox_close,
    best_effort, ensure_pool_namespace_active.
  split_and!; intros; repeat sim_step.
Qed.

Lemma sim_acquire_loop policy timeout n : forall pending b,
  simulates (St := St) (async_acquire_loop cfg policy timeout n pending b)
    (acquire_loop cfg policy timeout n pending b).
Proof.
  destruct sim_checks as (C1 & C2 & C3 & C4).
  induction n as [|n IH]; intros pending b; cbn [async_acquire_loop acquire_loop]; [sim_step|].
  unfold sandbox_connect, sandbox_renew, sandbox_kill, sandbox_close, best_effort.
  repeat (apply IH || apply C1 || apply C2 || apply C3 || apply C4 || sim_step).
Qed.

Lemma sim_acquire timeout policy :
  simulates (St := St) (async_acquire cfg timeout policy) (acquire cfg timeout policy).
Proof.
  destruct sim_checks as (C1 & C2 & C3 & C4).
  unfold async_acquire, acquire, async_acquire_body, acquire_body, async_direct_create, direct_create,
    build_sandbox, sandbox_renew, sandbox_kill, sandbox_close, async_begin_operation, begin_operation.
  repeat (apply sim_acquire_loop || apply C1 || apply C2 || apply C3 || apply C4 || sim_step).
Qed.
End acquire_facts.

(** ** Theorems: acquire *)

(** With a running event loop, acquiring from the asynchronous pool is
    acquiring from the synchronous one: run in the same world, with an executor
    that takes every job, the synchronous [acquire] returns or raises the same,
    makes the same calls in the same order and leaves the same fields. *)
Theorem async_acquire_equivalent {St} `{!PoolStateStore St} cfg timeout policy (w : World St) :
  loop_running w ->
  acquire cfg timeout policy (set_executor true w) =
    ((async_acquire cfg timeout policy w).1, set_executor true (async_acquire cfg timeout policy w).2).
Proof. intros Hw. by apply (sim_acquire cfg timeout policy w Hw). Qed.

(** So it loses no sandbox: what it took, was told to drop or created is
    returned, killed or scheduled to be, unless it raises an outage, the fence
    of a destroyed namespace or a cancellation. *)
Theorem async_acquire_no_leak {St} `{!PoolStateStore St} `{!OutageStore St} cfg timeout policy
    (w : World St) :
  loop_running w ->
  wp (async_acquire cfg timeout policy) (fun r w' => exists l, w_log w' = (w_log w ++ l)%list /\
    acquired [] r l) w.
Proof.
  intros Hw. pose proof (sim_acquire cfg timeout policy w Hw) as [_ Heq].
  pose proof (logs_acquire cfg timeout policy (set_executor true w)) as Hlog.
  unfold wp in *. rewrite Heq in Hlog. destruct (async_acquire _ _ _ _) as [r w']. exact Hlog.
Qed.

(** A world of the demonstration pool with another environment. *)
Definition demo_world (e : Env InMemoryPoolStateStore) : World InMemoryPoolStateStore :=
  set_executor false (set_env e (calm_world demo_pool_store)).

Lemma async_acquire_equivalent_witness :
  loop_running (demo_world calm_env) /\
  (acquire demo_config None DIRECT_CREATE (set_executor true (demo_world calm_env))).1 = Ok "b" /\
  acquire demo_config None DIRECT_CREATE (set_executor true (demo_world calm_env)) =
    ((async_acquire demo_config None DIRECT_CREATE (demo_world calm_env)).1,
     set_executor true (async_acquire demo_config None DIRECT_CREATE (demo_world calm_env)).2).
Proof.
  split_and!; [done|vm_compute; reflexivity|].
  apply (async_acquire_equivalent demo_config None DIRECT_CREATE (demo_world calm_env)). done.
Defined.

(** Without a loop the near-expiry sandboxes are dropped: the fallback the
    comments describe is a [return]. *)
Lemma rejected_task_drops_kills :
  let e := mkEnv (St := InMemoryPoolStateStore) Z.of_nat Z.of_nat (fun _ st => st) (fun _ l => l)
    (fun _ n => n) (fun _ => false) (fun _ _ => Ok tt) (fun _ _ => Ok "sb") (fun _ _ _ => Ok tt)
    (fun _ _ => Ok tt) (fun _ _ => Ok tt) None (fun _ => Ok tt) (fun _ => Ok tt) (fun _ => Ok tt) in
  let r := async_acquire demo_config None DIRECT_CREATE (demo_world e) in
  let s := acquire demo_config None DIRECT_CREATE (set_executor true (demo_world e)) in
  r.1 = Ok "b" /\ obtained_of (w_log r.2) = ["a"; "b"] /\ disposed_of (w_log r.2) = [] /\
  s.1 = Ok "b" /\ disposed_of (w_log s.2) = ["a"].
Proof. vm_compute. done. Qed.

(** An acquire that is cancelled while it connects loses the sandbox it took
    and the ones it was told to drop. *)
Lemma cancelled_acquire_leaks :
  let e := mkEnv (St := InMemoryPoolStateStore) Z.of_nat Z.of_nat (fun _ st => st) (fun _ l => l)
    (fun _ n => n) (fun _ => true) (fun _ _ => Raise CancelledError) (fun _ _ => Ok "sb")
    (fun _ _ _ => Ok tt) (fun _ _ => Ok tt) (fun _ _ => Ok tt) None (fun _ => Ok tt)
    (fun _ => Ok tt) (fun _ => Ok tt) in
  let r := async_acquire demo_config None DIRECT_CREATE (demo_world e) in
  r.1 = Raise CancelledError /\ obtained_of (w_log r.2) = ["a"; "b"] /\
  disposed_of (w_log r.2) = [] /\ (im_try_take_idle "demo" (w_store r.2)).1 = Ok None.
Proof. vm_compute. done. Qed.

(** ** The reconcile tick *)

Lemma async_harvest_ids rs : forall ids failures err,
  (async_harvest rs ids failures err).1.1 = (ids ++ ids_of rs)%list.
Proof.
  induction rs as [|[[id|]|x] rs IH]; intros ids failures err; simpl;
    rewrite ?app_nil_r, ?IH, <- ?app_assoc; done.
Qed.

Section tick_facts.
Context {St : Type} `{!PoolStateStore St}.
Context (create_one : M (World St) exc (option string))
        (on_discard : string -> M (World St) exc unit).
Context `{!QuietCallbacks create_one on_discard}.

Lemma logs_async_create_and_put c n l0 :
  only_discards l0 ->
  logs (results <-- run_futures create_one
          (Z.to_nat (Z.min (Z.max 0 (max_idle c - n)) (concurrency c))) ;;
        let '(created_ids, failure_count, last_error) := async_harvest results [] 0 None in
        now <-- datetime_now ;;
        modify (fun w => set_rs (record_failures now failure_count last_error (w_rs w)) w) ;;;
        put_created on_discard c created_ids)
       (fun r l => 0 < concurrency c -> tick_log c r (l0 ++ ECount n :: l)).
Proof.
  intros Hl0. logs_step. eapply logs_mono; [by eapply logs_run_futures|].
  intros [rs|e] l1 (B2 & B3 & B4 & B5 & B6); [|by apply tick_log_created; try done; rewrite B2; simpl; lia].
  pose proof (async_harvest_ids rs [] 0 None) as Hh.
  destruct (async_harvest rs [] 0 None) as [[ids f] er]. simpl in Hh. subst ids.
  logs_step. logs_step. logs_step. logs_step.
  eapply logs_mono; [by eapply logs_put_created|]. intros r l2 (C1 & C2 & C3 & C4 & C5).
  rewrite !app_nil_l. apply tick_log_created; autorewrite with osb;
    rewrite ?B2, ?B3, ?B4, ?C1, ?C2, ?C3, ?B6; simpl; autorewrite with osb; try done.
  - rewrite <- B6. lia.
  - lia.
  - intros Hr id Hid. destruct (C5 Hr id Hid); set_solver.
Qed.

Lemma logs_async_tick c :
  logs (run_async_reconcile_tick create_one on_discard c)
    (fun r l => 0 < concurrency c -> tick_log c r l).
Proof.
  unfold run_async_reconcile_tick. logs_step. logs_step; [|by intros; apply tick_log_silent].
  destruct a; [|by logs_step; intros; apply tick_log_silent].
  unfold async_run_primary_replenish_once, async_shrink_excess_idle. do 4 logs_step;
    [|by intros; apply tick_log_silent].
  apply (logs_tick_rest create_one on_discard c a a0
           (fun k => results <-- run_futures create_one (Z.to_nat k) ;; _)).
  intros n l0. apply logs_async_create_and_put.
Qed.
End tick_facts.

(** An asynchronous tick that counted [n] idle sandboxes creates or takes
    out no more than the synchronous bounds allow, and when it returns, every
    sandbox its warm-ups created was put into the store or handed to the
    discard callback, whether or not other warm-ups were cancelled. *)
Theorem async_tick_accounts {St} `{!PoolStateStore St}
    (create_one : M (World St) exc (option string)) (on_discard : string -> M (World St) exc unit)
    `{!QuietCallbacks create_one on_discard} c :
  0 < warmup_concurrency c ->
  logs (run_async_reconcile_tick create_one on_discard c) (tick_log c).
Proof.
  intros Hc. eapply logs_mono; [by apply logs_async_tick|]. intros r l Hl.
  by apply Hl, concurrency_pos.
Qed.

(** A warm-up that is cancelled when it starts at an odd step. *)
Definition flaky_create {St} : M (World St) exc (option string) :=
  n <-- ask (fun _ n => n) ;;
  if Nat.odd n then throw CancelledError else ret (Some "sb-1").

(** With such a warm-up the synchronous reconciler raises and orphans the other
    sandbox; the asynchronous one puts it into the store. *)
Lemma cancelled_warmup_keeps_siblings :
  let w := calm_world demo_store in
  let s := (run_reconcile_tick flaky_create (fun _ => ret tt) demo_config w).2 in
  let a := (run_async_reconcile_tick flaky_create (fun _ => ret tt) demo_config w).2 in
  created_of (w_log s) = ["sb-1"] /\ puts_of (w_log s) = [] /\ discards_of (w_log s) = [] /\
  created_of (w_log a) = ["sb-1"] /\ puts_of (w_log a) = ["sb-1"].
Proof. vm_compute. done. Qed.

Section pool_facts.
Context {St : Type} `{!PoolStateStore St} (cfg : PoolConfig).

#[export] Instance async_callbacks_quiet :
  QuietCallbacks (async_create_one_sandbox cfg) (async_discard_sandbox_callback (St := St)).
Proof.
  constructor; [|apply (quiet_discard (create_one := create_one_sandbox cfg))].
  change (emits quiet (async_create_one_sandbox (St := St) cfg)).
  unfold async_create_one_sandbox, create_one_body, async_begin_operation, begin_operation,
    best_effort, async_ensure_pool_namespace_active, ensure_pool_namespace_active_after_create,
    fence_cleanup, ensure_pool_namespace_active, async_build_sandbox, build_sandbox, sandbox_close,
    sandbox_kill, sandbox_renew, best_effort.
  repeat emits_step.
Qed.

Lemma in_flight_async_schedule ids :
  preserves same_in_flight (async_schedule_kill_discarded_alive (St := St) ids).
Proof. unfold async_schedule_kill_discarded_alive. repeat flight_step. Qed.

Lemma in_flight_async_loop policy timeout n : forall pending b,
  preserves same_in_flight (async_acquire_loop (St := St) cfg policy timeout n pending b).
Proof.
  destruct (in_flight_checks (St := St) cfg) as (C1 & C2 & C3 & C4).
  induction n as [|n IH]; intros pending b; cbn [async_acquire_loop]; [flight_step|].
  unfold sandbox_connect, sandbox_renew, sandbox_kill, sandbox_close, best_effort.
  repeat (apply IH || apply in_flight_async_schedule || apply C1 || apply C2 || apply C3 ||
          apply C4 || flight_step).
Qed.

Lemma in_flight_async_acquire timeout policy :
  preserves same_in_flight (async_acquire (St := St) cfg timeout policy).
Proof.
  destruct (in_flight_checks (St := St) cfg) as (C1 & C2 & C3 & C4).
  unfold async_acquire, async_acquire_body, async_direct_create, direct_create, build_sandbox,
    sandbox_renew, sandbox_kill, sandbox_close, async_begin_operation, async_end_operation.
  repeat (apply in_flight_async_loop || apply in_flight_async_schedule || apply C1 || apply C2 ||
          apply C3 || apply C4 || flight_step).
Qed.

Lemma in_flight_async_create_one :
  preserves same_in_flight (async_create_one_sandbox (St := St) cfg).
Proof.
  destruct (in_flight_checks (St := St) cfg) as (C1 & C2 & C3 & C4).
  unfold async_create_one_sandbox, create_one_body, async_build_sandbox, build_sandbox, best_effort,
    sandbox_kill, sandbox_renew, sandbox_close, async_begin_operation, async_end_operation.
  repeat (apply C1 || apply C4 || flight_step).
Qed.

Lemma in_flight_async_futures n :
  preserves same_in_flight (run_futures (async_create_one_sandbox (St := St) cfg) n).
Proof.
  induction n as [|n IH]; cbn [run_futures]; unfold run_future;
    repeat (apply IH || apply in_flight_async_create_one || flight_step).
Qed.

Lemma in_flight_async_tick : preserves same_in_flight (async_pool_reconcile_tick (St := St) cfg).
Proof.
  unfold async_pool_reconcile_tick, async_resolve_max_idle, resolve_max_idle,
    async_stop_after_pool_namespace_destroyed, async_stop_reconcile,
    async_release_primary_lock_best_effort, release_primary_lock_best_effort,
    best_effort, async_close_provider, close_provider, run_async_reconcile_tick,
    async_run_primary_replenish_once, async_shrink_excess_idle, shrink_excess_idle, shrink_one,
    discard, call_discard, async_discard_sandbox_callback, discard_sandbox_callback,
    kill_sandbox_best_effort, sandbox_kill, renew_lock, async_begin_operation, async_end_operation.
  repeat (apply in_flight_async_futures || apply in_flight_put || flight_step).
Qed.
End pool_facts.

(** The asynchronous operations are balanced too, however they end. *)
Theorem async_operations_balanced {St} `{!PoolStateStore St} cfg timeout policy (w : World St) :
  0 <= w_in_flight w ->
  w_in_flight (async_acquire cfg timeout policy w).2 = w_in_flight w /\
  w_in_flight (async_pool_reconcile_tick cfg w).2 = w_in_flight w /\
  w_in_flight (async_create_one_sandbox cfg w).2 = w_in_flight w.
Proof.
  intros Hw. pose proof (in_flight_async_acquire cfg timeout policy w) as H1.
  pose proof (in_flight_async_tick cfg w) as H2. pose proof (in_flight_async_create_one cfg w) as H3.
  unfold wp in *.
  destruct (async_acquire _ _ _ _), (async_pool_reconcile_tick _ _), (async_create_one_sandbox _ _).
  by split_and!; [apply H1|apply H2|apply H3].
Qed.

(** ** Warm-ups clean up after themselves *)

Definition same_env {St} (w w' : World St) : Prop := w_env w' = w_env w.

#[global] Instance same_env_preorder {St} : PreOrder (same_env (St := St)).
Proof. split; [done|]. unfold same_env. by intros w1 w2 w3 -> . Qed.

Definition nothing_obtained (l : list event) : Prop := obtained_of l = [].

#[global] Instance nothing_obtained_closed : LogClosed nothing_obtained.
Proof.
  constructor; [done|]. unfold nothing_obtained. intros l1 l2 H1 H2. autorewrite with osb.
  by rewrite H1, H2.
Qed.

Ltac env_step :=
  cbn beta iota;
  lazymatch goal with
  | |- preserves _ (bind _ _) => apply preserves_bind; [apply _| |intros ?]
  | |- preserves _ (except_Exception _ _) => apply preserves_except; [apply _| |intros ?]
  | |- preserves _ (catch _ _) => apply preserves_catch; [apply _| |intros ? ? ?]
  | |- preserves _ (attempt _) => apply preserves_attempt
  | |- preserves _ (match ?x with _ => _ end) => destruct x
  | |- preserves _ (store_call _) =>
      let w := fresh "w" in intros w; apply wp_store_call; unfold wp; by destruct (_ : _ * _)
  | H : (match ?x with _ => _ end) = Some _ |- preserves _ _ => destruct x
  | H : Some _ = Some _ |- preserves _ _ => injection H as <-
  | H : None = Some _ |- preserves _ _ => discriminate H
  | |- preserves _ _ => done
  end.

Section warmup.
Context {St : Type} `{!PoolStateStore St} (cfg : PoolConfig).
Local Abbreviation WM A := (M (World St) exc A).

Definition guarded_body (id : string) : WM (option string) :=
  catch (create_one_body cfg id) (fun e => Some (best_effort (sandbox_kill id) ;;; throw e)).

Lemma env_guarded_body id : preserves same_env (guarded_body id).
Proof.
  unfold guarded_body, create_one_body, best_effort, sandbox_kill, sandbox_renew,
    ensure_pool_namespace_active_after_create, fence_cleanup, ensure_pool_namespace_active,
    sandbox_close, best_effort. repeat env_step.
Qed.

(** A kill was sent, whatever came of it. *)
Lemma logs_kill_sent id :
  logs (best_effort (sandbox_kill (St := St) id))
    (fun _ l => obtained_of l = [] /\ id ∈ disposed_of l).
Proof.
  unfold best_effort. logs_step. eapply logs_mono; [apply logs_sandbox_kill|].
  intros [[]|e] l [H1 H2]; [rewrite H2; set_solver|].
  destruct (is_Exception e); [logs_step; autorewrite with osb|]; rewrite H1, H2; set_solver.
Qed.

Lemma logs_create_one_body id :
  logs (create_one_body (St := St) cfg id) (fun r l => obtained_of l = [] /\
    match r with Ok (Some id') => id' = id | Ok None => id ∈ disposed_of l | Raise _ => True end).
Proof.
  unfold create_one_body. logs_step. logs_step. logs_step.
  eapply (logs_mono _ (fun _ => nothing_obtained)).
  { change (emits (St := St) nothing_obtained
      (match a with Some f => r <-- ask (fun _ n => f n id) ;; answer r | None => ret tt end)).
    repeat emits_step. }
  intros [[]|e] l1 H1; [|done]. logs_step. logs_step. case_bool_decide.
  - eapply (logs_mono _ (fun r l => nothing_obtained l /\
      match r with Ok (Some id') => id' = id | Ok None => False | Raise _ => True end)).
    + logs_step. eapply logs_mono; [apply logs_sandbox_renew|]. intros [[]|e] l [H2 _]; [|done].
      logs_step. eapply (logs_mono _ (fun _ => nothing_obtained)).
      * change (emits (St := St) nothing_obtained
          (ensure_pool_namespace_active_after_create cfg id None)).
        unfold ensure_pool_namespace_active_after_create, fence_cleanup,
          ensure_pool_namespace_active, best_effort, sandbox_kill, sandbox_close.
        repeat emits_step.
      * unfold nothing_obtained. intros [[]|e] l' H3; [logs_step|]; autorewrite with osb;
          by rewrite H2, H3.
    + unfold nothing_obtained in *. intros [[id'|]|e] l [H2 H3]; autorewrite with osb;
        rewrite H1, H2; done.
  - logs_step. eapply logs_mono; [apply logs_kill_sent|]. unfold nothing_obtained in *.
    intros [[]|e] l [H2 H3]; [logs_step|]; autorewrite with osb; rewrite H1, H2; set_solver.
Qed.

Lemma logs_guarded_body id :
  logs (guarded_body id) (fun r l => obtained_of l = [] /\
    match r with Ok (Some id') => id' = id | _ => id ∈ disposed_of l end).
Proof.
  unfold guarded_body. logs_step. eapply logs_mono; [apply logs_create_one_body|].
  intros [[id'|]|e] l [H1 H2]; [done..|]. logs_step. eapply logs_mono; [apply logs_kill_sent|].
  intros [[]|e'] l' [H3 H4]; [logs_step|]; autorewrite with osb; rewrite H1, H3; set_solver.
Qed.

(** A warm-up whose sandbox can be closed either returns the one sandbox it
    created or has sent a kill for it; a cancellation at any call in between
    makes no difference. *)
Theorem async_warmup_cleans_up w :
  (forall n id, e_close (w_env w) n id = Ok tt) ->
  wp (async_create_one_sandbox cfg) (fun r w' => exists l, w_log w' = (w_log w ++ l)%list /\
    match r with
    | Ok (Some id) => obtained_of l = [id]
    | _ => obtained_of l ⊆ disposed_of l
    end) w.
Proof.
  intros Hclose. unfold async_create_one_sandbox, async_begin_operation, begin_operation.
  pool_step. pool_step. apply wp_finally. pool_step.
  unfold async_ensure_pool_namespace_active, ensure_pool_namespace_active. pool_step.
  apply wp_store_call. unfold wp at 1. destruct (get_destroy_state _ _) as [[st|e] s1]; cycle 1.
  { exists []. by rewrite app_nil_r. }
  case_bool_decide; [|pool_step; exists []; by rewrite app_nil_r]. pool_step. pool_step.
  unfold async_build_sandbox, build_sandbox. do 5 pool_step.
  destruct (e_create _ _ _) as [id|e]; [|by eexists]. pool_step. pool_step.
  eapply wp_mono; [apply (wp_and _ _ _ _ (logs_guarded_body id _) (env_guarded_body id _))|].
  intros r w1 [(l & Hl & H1 & H2) He]. unfold same_env in He. simpl in He.
  pool_step. unfold sandbox_close. do 5 pool_step. rewrite He, Hclose.
  pool_step. simpl. exists (ECreateCall R_WARMUP (Some id) :: l ++ [EClose id])%list.
  rewrite Hl. simpl. rewrite <- !app_assoc. split; [done|].
  rewrite obtained_app, disposed_app, H1. simpl. destruct r as [[id'|]|e]; [by subst|set_solver..].
Qed.
End warmup.

(** A service in which [prepare] is cancelled. *)
Definition cancelled_prepare_env : Env InMemoryPoolStateStore := {|
  e_now := Z.of_nat; e_monotonic := Z.of_nat; e_store_steps := fun _ st => st;
  e_lifecycle_steps := fun _ l => l; e_in_flight_steps := fun _ n => n;
  e_submit := fun _ => true; e_connect := fun _ _ => Ok tt; e_create := fun _ _ => Ok "sb";
  e_renew := fun _ _ _ => Ok tt; e_kill := fun _ _ => Ok tt; e_close := fun _ _ => Ok tt;
  e_prepare := Some (fun _ _ => Raise CancelledError); e_create_manager := fun _ => Ok tt;
  e_close_manager := fun _ => Ok tt; e_start_thread := fun _ => Ok tt;
|}.

Lemma async_warmup_cleans_up_witness :
  let w := demo_world cancelled_prepare_env in
  (async_create_one_sandbox demo_config w).1 = Raise CancelledError /\
  disposed_of (w_log (create_one_sandbox demo_config w).2) = [] /\
  wp (async_create_one_sandbox demo_config) (fun r w' => exists l, w_log w' = (w_log w ++ l)%list /\
    match r with
    | Ok (Some id) => obtained_of l = [id]
    | _ => obtained_of l ⊆ disposed_of l
    end) w.
Proof.
  split_and!; [vm_compute; reflexivity..|].
  apply (async_warmup_cleans_up demo_config (demo_world cancelled_prepare_env)). done.
Defined.

(** Closing is not covered: a sandbox that is ready when [close] raises is
    neither returned nor killed, in both pools. *)
Lemma warmup_close_error_leaks :
  let e := mkEnv (St := InMemoryPoolStateStore) Z.of_nat Z.of_nat (fun _ st => st) (fun _ l => l)
    (fun _ n => n) (fun _ => true) (fun _ _ => Ok tt) (fun _ _ => Ok "sb") (fun _ _ _ => Ok tt)
    (fun _ _ => Ok tt) (fun _ _ => Raise (OtherException "HTTPError")) None (fun _ => Ok tt)
    (fun _ => Ok tt) (fun _ => Ok tt) in
  let a := async_create_one_sandbox demo_config (demo_world e) in
  let s := create_one_sandbox demo_config (demo_world e) in
  a.1 = Raise (OtherException "HTTPError") /\ s.1 = a.1 /\
  obtained_of (w_log a.2) = ["sb"] /\ disposed_of (w_log a.2) = [] /\
  obtained_of (w_log s.2) = ["sb"] /\ disposed_of (w_log s.2) = [].
Proof. vm_compute. done. Qed.

Lemma async_tick_accounts_witness :
  let m := run_async_reconcile_tick (async_create_one_sandbox demo_config)
             (async_discard_sandbox_callback (St := InMemoryPoolStateStore)) demo_config in
  created_of (w_log (m (calm_world demo_pool_store)).2) = ["sb"; "sb"] /\
  logs m (tick_log demo_config).
Proof.
  split; [vm_compute; reflexivity|].
  apply (async_tick_accounts (async_create_one_sandbox demo_config)
    (async_discard_sandbox_callback (St := InMemoryPoolStateStore)) demo_config).
  vm_compute. reflexivity.
Defined.

(** ** Draining in parallel *)

Lemma shield_cancelled wakes outcome f :
  (shield_loop wakes outcome (Some CancelledError) f).1 = Some CancelledError.
Proof.
  induction wakes as [|[] wakes IH]; simpl; [|done|done].
  destruct outcome as [n|e]; [done|]. by case_bool_decide.
Qed.

(** The caller sees the task's outcome, or its own cancellation. *)
Lemma shield_result wakes outcome :
  after_shield outcome (shield_loop wakes outcome None None) =
    match wakes with [] => outcome | _ => Raise CancelledError end.
Proof.
  destruct wakes as [|d wakes]; simpl.
  - destruct outcome as [n|e]; [done|]. case_bool_decide; by subst.
  - destruct d; [done|]. pose proof (shield_cancelled wakes outcome None) as H.
    destruct (shield_loop _ _ _ _) as [c f]. simpl in H. by subst.
Qed.

Section drain.
Context {St : Type} `{!PoolStateStore St} `{!PoolStoreLaws St} (cfg : PoolConfig).
Implicit Types w : World St.

Lemma wp_drain_loop fuel : forall ids w,
  alone w -> st_wf (w_store w) ->
  (length (idle_ids (w_store w) (pool_name cfg)) < fuel)%nat ->
  wp (drain_loop cfg fuel ids) (fun r w' => w_env w' = w_env w /\ w_manager w' = w_manager w /\
    st_wf (w_store w') /\
    exists l, w_log w' = (w_log w ++ l)%list /\
      match r with
      | Ok (ids', None) => ids' = (ids ++ takes_of l)%list /\ idle_ids (w_store w') (pool_name cfg) = []
      | Ok (ids', Some e) => ids' = (ids ++ takes_of l)%list /\
          exists st, (try_take_idle (pool_name cfg) st).1 = Raise e
      | Raise e => is_Exception e = false /\ exists st, (try_take_idle (pool_name cfg) st).1 = Raise e
      end) w.
Proof.
  induction fuel as [|fuel IH]; intros ids w Ha Hwf Hf; [lia|]. cbn [drain_loop].
  do 2 pool_step. apply wp_take; [done..|]. intros r st Hst Hr. destruct r as [[id|]|e].
  - do 2 pool_step. eapply wp_mono; [apply IH; [by eapply alone_env; [|apply Ha]|done|simpl; lia]|].
    intros r w1 (H1 & H2 & H3 & l & Hl & H4). split_and!; [done..|].
    exists (ETake id :: l). rewrite Hl. simpl. rewrite <- app_assoc. split; [done|].
    destruct r as [[ids' [e|]]|e]; simpl in *; [| |done]; destruct H4 as [-> H4];
      rewrite <- app_assoc; done.
  - pool_step. split_and!; [done..|]. exists []. rewrite !app_nil_r. done.
  - destruct (is_Exception e) eqn:He; pool_step; (split_and!; [done..|]); exists [];
      rewrite !app_nil_r; eauto.
Qed.

Lemma wp_gather_kills ids : forall w,
  alone w ->
  wp (run_all (map (fun id => best_effort (sandbox_kill id)) ids)) (fun r w' =>
    (exists rs, r = Ok rs /\ first_error rs = Ok tt) /\ w_env w' = w_env w /\ w_store w' = w_store w /\
    exists l, w_log w' = (w_log w ++ l)%list /\ takes_of l = [] /\ disposed_of l = ids) w.
Proof.
  induction ids as [|id ids IH]; intros w Ha; cbn [map run_all].
  - pool_step. split_and!; [by eexists|done..|]. exists []. by rewrite app_nil_r.
  - do 2 pool_step. eapply wp_mono; [by apply wp_kill_alone|].
    intros r w1 (-> & H1 & H2 & b & H3). pool_step.
    eapply wp_mono; [apply IH; by eapply alone_env|].
    intros r w2 ((rs & -> & Hrs) & K1 & K2 & l & K3 & K4 & K5). pool_step.
    split_and!; [by eexists|congruence|congruence|]. exists (EKill id b :: l).
    rewrite K3, H3, <- app_assoc. simpl. by rewrite K5.
Qed.

(** Every id of the drained buffer has been killed. *)
Definition killed_all (ids : list string) w w' : Prop :=
  w_store w' = w_store w /\
  exists l, w_log w' = (w_log w ++ l)%list /\ takes_of l = [] /\ ids ⊆ disposed_of l.

Lemma wp_release_kills ids w :
  alone w ->
  wp (match ids with
      | [] => ret tt
      | _ =>
          m <-- gets w_manager ;;
          if m : bool then gather (map (fun id => best_effort (sandbox_kill id)) ids)
          else
            made <-- attempt async_create_sandbox_manager ;;
            match made with
            | Ok _ =>
                r <-- attempt (gather (map (fun id => best_effort (sandbox_kill id)) ids)) ;;
                c <-- ask e_close_manager ;; answer c ;;; answer r
            | Raise e => if is_Exception e then ret tt else throw e
            end
      end) (fun r w' => r = Ok tt /\ killed_all ids w w') w.
Proof.
  intros Ha. assert (Hg : forall w0, w_env w0 = w_env w -> w_store w0 = w_store w ->
    w_log w0 = w_log w ->
    wp (gather (map (fun id => best_effort (sandbox_kill id)) ids))
      (fun r w' => r = Ok tt /\ w_env w' = w_env w /\ killed_all ids w w') w0).
  { intros w0 E1 E2 E3. unfold gather. pool_step.
    eapply wp_mono; [apply wp_gather_kills; by eapply alone_env|].
    intros r w1 ((rs & -> & Hrs) & H1 & H2 & l & H3 & H4 & H5). pool_step. rewrite Hrs.
    split; [done|]. split; [congruence|]. split; [congruence|]. exists l. rewrite H3, E3, H5. done. }
  destruct ids as [|id ids].
  { pool_step. split; [done|]. split; [done|]. exists []. rewrite app_nil_r. set_solver. }
  pool_step. pool_step. destruct (w_manager w).
  { eapply wp_mono; [by apply Hg|]. naive_solver. }
  pool_step. unfold async_create_sandbox_manager, create_sandbox_manager. do 3 pool_step.
  destruct Ha as (_ & _ & Hm & Hc). rewrite Hm. do 2 pool_step. apply wp_attempt.
  eapply wp_mono; [by apply Hg|]. intros r w1 (-> & H1 & H2 & H3). do 4 pool_step.
  rewrite H1, Hc. pool_step. done.
Qed.

(** The task itself is not cancelled: the store raises exceptions only. *)
Context (Hstore : forall s, match (try_take_idle (pool_name cfg) s).1 with
                            | Ok _ => True
                            | Raise e => is_Exception e = true
                            end).

Lemma wp_release_task fuel w :
  alone w -> st_wf (w_store w) ->
  (length (idle_ids (w_store w) (pool_name cfg)) < fuel)%nat ->
  wp (async_release_task cfg fuel) (drained cfg w) w.
Proof.
  intros Ha Hwf Hf. unfold async_release_task. pool_step.
  eapply wp_mono; [by apply wp_drain_loop|].
  intros [[ids err]|e] w1 (H1 & H2 & H3 & l & Hl & H4).
  - pool_step. eapply wp_mono; [apply wp_release_kills; by eapply alone_env|].
    intros r w2 (-> & K1 & l' & K2 & K3 & K4).
    assert (Hids : ids = takes_of l) by (destruct err; by destruct H4).
    assert (Hlog : w_log w2 = (w_log w ++ l ++ l')%list) by (by rewrite K2, Hl, app_assoc).
    assert (Hsub : takes_of (l ++ l') ⊆ disposed_of (l ++ l')).
    { autorewrite with osb. rewrite K3, <- Hids. set_solver. }
    destruct err as [e|]; pool_step; exists (l ++ l')%list; rewrite K1; split_and!; try done.
    + by destruct H4.
    + by destruct H4.
    + autorewrite with osb. rewrite K3. simpl. rewrite Hids. lia.
  - destruct H4 as (He & st & Hst). specialize (Hstore st). rewrite Hst in Hstore. congruence.
Qed.

(** Draining a pool in parallel survives cancellations of its caller.
    However many arrive and whenever they do, the clean-up task ends with the
    buffer empty and a kill sent for every sandbox taken out of it; the caller
    gets the number of sandboxes, or its cancellation if there was one. *)
Theorem async_release_shielded fuel wakes workers w :
  alone w -> st_wf (w_store w) ->
  (length (idle_ids (w_store w) (pool_name cfg)) < fuel)%nat -> 0 < workers ->
  wp (async_release_all_idle_parallel cfg fuel wakes workers) (fun r w' =>
    exists outcome, drained cfg w outcome w' /\
      r = match wakes with [] => outcome | _ => Raise CancelledError end) w.
Proof.
  intros Ha Hwf Hf Hw. unfold async_release_all_idle_parallel.
  destruct (workers <=? 0) eqn:E; [bool_lia|]. do 2 pool_step.
  eapply wp_mono; [by apply wp_release_task|]. intros r w1 Hd. pool_step.
  rewrite shield_result. by eauto.
Qed.
End drain.

Lemma async_release_shielded_witness :
  wp (async_release_all_idle_parallel demo_config 3 [false; false; true] 2) (fun r w' =>
    exists outcome, drained demo_config (demo_world calm_env) outcome w' /\ r = Raise CancelledError)
    (demo_world calm_env).
Proof.
  apply (async_release_shielded demo_config) with (fuel := 3%nat) (wakes := [false; false; true]).
  - intros s. pose proof (im_take_ok "demo" s) as Hok. simpl. by destruct (im_try_take_idle _ s) as [[]].
  - unfold alone. split_and!; done.
  - apply run_ops_balanced, init_store_wf.
  - vm_compute. lia.
  - lia.
Defined.

(** ** Life cycle *)

Section lifecycle.
Context {St : Type} `{!PoolStateStore St} (cfg : PoolConfig) (notified : nat -> bool).
Implicit Types w : World St.

(** Stopped for good: no manager, and the scheduler told to stop. *)
Definition async_stopped w : Prop :=
  w_lifecycle w = LC_STOPPED /\ w_manager w = false /\ w_stop_event w = true.

Lemma wp_async_await_loop fuel : forall deadline w,
  (forall n, e_monotonic (w_env w) n < e_monotonic (w_env w) (S n)) ->
  deadline - e_monotonic (w_env w) (w_step w) < Z.of_nat fuel ->
  (0 < fuel)%nat ->
  wp (async_await_loop notified fuel deadline) (fun r w' => is_ok r = true /\ waited w w') w.
Proof.
  induction fuel as [|fuel IH]; intros deadline w Hc Hd Hf; [lia|]. cbn [async_await_loop].
  pool_step. unfold wp at 1, read_in_flight at 1. cbn beta iota. destruct (0 <? _); [|by pool_step].
  do 2 pool_step. simpl. destruct (deadline - _ <=? 0) eqn:Ed; [by pool_step|].
  do 2 pool_step. destruct (notified _).
  - pose proof (Hc (w_step w)). pose proof (Hc (S (w_step w))). pose proof (Hc (S (S (w_step w)))).
    simpl in *. eapply wp_mono; [apply IH; simpl; [done|bool_lia|bool_lia]|]. done.
  - pool_step. unfold wp at 1, read_in_flight. pool_step. done.
Qed.

(** The lock can be released, and the scheduler ends when it is joined. *)
Definition stoppable w : Prop :=
  (forall s e, (release_primary_lock (pool_name cfg) (owner_id cfg) s).1 = Raise e ->
     is_Exception e = true) /\
  (forall n, e_start_thread (w_env w) n = Ok tt) /\
  (forall n, e_close_manager (w_env w) n = Ok tt).

Lemma wp_async_stop_reconcile join w :
  stoppable w ->
  wp (async_stop_reconcile cfg join) (fun r w' => r = Ok tt /\
    w_lifecycle w' = w_lifecycle w /\ w_env w' = w_env w /\ w_manager w' = w_manager w /\
    w_stop_event w' = true /\ w_scheduler w' = w_scheduler w && negb join) w.
Proof.
  intros (Hr & Hj & _). unfold async_stop_reconcile, async_release_primary_lock_best_effort,
    release_primary_lock_best_effort, best_effort. do 4 pool_step. simpl.
  assert (Hrel : forall w0, w_env w0 = w_env w -> w_lifecycle w0 = w_lifecycle w ->
    w_manager w0 = w_manager w -> w_stop_event w0 = true ->
    w_scheduler w0 = w_scheduler w && negb join ->
    wp (except_Exception (store_call (release_primary_lock (pool_name cfg) (owner_id cfg)))
          (fun _ => ret tt)) (fun r w' => r = Ok tt /\
      w_lifecycle w' = w_lifecycle w /\ w_env w' = w_env w /\ w_manager w' = w_manager w /\
      w_stop_event w' = true /\ w_scheduler w' = w_scheduler w && negb join) w0).
  { intros w0 H1 H2 H3 H4 H5. pool_step. apply wp_store_call. unfold wp at 1.
    destruct (release_primary_lock _ _ _) as [[[]|e] st] eqn:E; [done|].
    rewrite (Hr _ e (f_equal fst E)). by pool_step. }
  destruct join; simpl; [destruct (w_scheduler w) eqn:Hs|]; pool_step.
  - do 3 pool_step. simpl. rewrite Hj. pool_step. by apply Hrel.
  - apply Hrel; simpl; by rewrite ?Hs.
  - apply Hrel; simpl; by rewrite ?andb_true_r.
Qed.

Lemma wp_async_close w :
  (forall n, e_close_manager (w_env w) n = Ok tt) ->
  wp async_close_provider (fun r w' => r = Ok tt /\ w_lifecycle w' = w_lifecycle w /\
    w_manager w' = false /\ w_stop_event w' = w_stop_event w /\ w_scheduler w' = w_scheduler w) w.
Proof.
  intros Hc. unfold async_close_provider, close_provider. do 2 pool_step.
  destruct (w_manager w) eqn:Hm; [|by pool_step].
  do 3 pool_step. rewrite Hc. do 2 pool_step. done.
Qed.

(** A shutdown of a pool that is not stopped returns within the drain
    time-out and leaves it stopped. *)
Theorem async_shutdown_stops fuel graceful w :
  w_lifecycle w <> LC_STOPPED -> stoppable w ->
  (forall n, e_monotonic (w_env w) n < e_monotonic (w_env w) (S n)) ->
  drain_timeout cfg < Z.of_nat fuel -> (0 < fuel)%nat ->
  wp (async_shutdown cfg notified fuel graceful) (fun r w' => r = Ok tt /\ async_stopped w') w.
Proof.
  intros Hl Hst Hm Hf H0. pose proof Hst as (_ & _ & Hc). unfold async_shutdown. do 2 pool_step.
  rewrite bool_decide_false by done. destruct graceful; simpl.
  - do 3 pool_step. eapply wp_mono; [by apply wp_async_stop_reconcile|].
    intros r w1 (-> & H1 & H2 & H3 & H4 & H5). simpl in *. pool_step.
    unfold async_await_in_flight_drain. do 2 pool_step. rewrite H2.
    pose proof (Hm (w_step w1)).
    eapply wp_mono; [apply wp_async_await_loop; simpl; rewrite ?H2; [done|lia|done]|].
    intros [b|] w2 (Hb & H6 & H7 & H8); [|done]. simpl in *.
    unfold running_parts in H7. simplify_eq/=. do 2 pool_step.
    eapply wp_mono; [apply wp_async_close; simpl; by rewrite H8, H2|].
    intros r w3 (-> & K1 & K2 & K3 & K4). simpl in *. split; [done|]. split_and!; congruence.
  - pool_step. eapply wp_mono; [by apply wp_async_stop_reconcile|].
    intros r w1 (-> & H1 & H2 & H3 & H4 & H5). do 2 pool_step.
    eapply wp_mono; [apply wp_async_close; simpl; by rewrite H2|].
    intros r w3 (-> & K1 & K2 & K3 & K4). simpl in *. split; [done|]. split_and!; congruence.
Qed.

(** Starting leaves the pool running with a manager and a scheduler, or, when a
    step raises an exception, stopped. *)
Theorem async_start_all_or_nothing w :
  w_lifecycle w <> LC_RUNNING -> w_lifecycle w <> LC_STARTING -> stoppable w ->
  wp (async_start cfg) (fun r w' =>
    match r with
    | Ok _ => w_lifecycle w' = LC_RUNNING /\ w_manager w' = true /\ w_scheduler w' = true /\
        w_stop_event w' = false
    | Raise e => is_Exception e = true -> async_stopped w'
    end) w.
Proof.
  intros Hr Hs Hst. unfold async_start. do 2 pool_step. rewrite bool_decide_false by naive_solver.
  do 3 pool_step.
  enough (wp (async_start_body cfg) (fun r w' => w_env w' = w_env w /\
    (r = Ok tt -> w_lifecycle w' = LC_RUNNING /\ w_manager w' = true /\ w_scheduler w' = true /\
        w_stop_event w' = false)) (set_lifecycle LC_STARTING w)) as Hbody.
  - eapply wp_mono; [apply Hbody|]. intros [[]|e] w1 [He Hok]; [by apply Hok|].
    destruct (is_Exception e) eqn:Ee; [|by intros ?; congruence]. pool_step.
    assert (Hst1 : stoppable w1) by (unfold stoppable; by rewrite He).
    eapply wp_mono; [by apply wp_async_stop_reconcile|].
    intros r w2 (-> & H1 & H2 & H3 & H4 & H5). pool_step.
    eapply wp_mono; [apply wp_async_close; rewrite H2; apply Hst1|].
    intros r w3 (-> & K1 & K2 & K3 & K4). do 3 pool_step. intros _. split_and!; simpl; congruence.
  - assert (Hcall : forall A (m : M St exc A) (w0 : World St),
      wp (store_call m) (fun _ w' => w_env w' = w_env w0 /\ w_manager w' = w_manager w0) w0).
    { intros A m w0. apply wp_store_call. unfold wp. by destruct (m _). }
    unfold async_start_body, async_ensure_pool_namespace_active, ensure_pool_namespace_active,
      async_create_sandbox_manager, create_sandbox_manager. do 2 pool_step.
    eapply wp_mono; [apply Hcall|]. intros [st|e] w1 (E1 & L1); [|done].
    case_bool_decide; [|by pool_step]. do 4 pool_step.
    destruct (e_create_manager _ _) as [[]|]; [|done].
    do 4 pool_step. eapply wp_mono; [apply Hcall|]. intros [[]|e] w2 (E2 & L2);
      [|simpl in *; split; [congruence|done]].
    pool_step. eapply wp_mono; [apply Hcall|]. intros [[]|e] w3 (E3 & L3);
      simpl in *; [|split; [congruence|done]].
    do 5 pool_step. simpl. split; [congruence|]. intros _. split_and!; congruence.
Qed.
End lifecycle.

(** A start that is cancelled is never finished: the pool stays [STARTING], and
    a second [start] returns at once without a manager or a scheduler. *)
Lemma cancelled_start_sticks :
  let e := mkEnv (St := InMemoryPoolStateStore) Z.of_nat Z.of_nat (fun _ st => st) (fun _ l => l)
    (fun _ n => n) (fun _ => true) (fun _ _ => Ok tt) (fun _ _ => Ok "sb") (fun _ _ _ => Ok tt)
    (fun _ _ => Ok tt) (fun _ _ => Ok tt) None (fun _ => Raise CancelledError) (fun _ => Ok tt)
    (fun _ => Ok tt) in
  let w0 := set_scheduler false (set_manager false (set_lifecycle LC_NOT_STARTED (demo_world e))) in
  let r := async_start demo_config w0 in
  r.1 = Raise CancelledError /\ w_lifecycle r.2 = LC_STARTING /\
  async_start demo_config r.2 = (Ok tt, r.2) /\ w_manager r.2 = false /\ w_scheduler r.2 = false.
Proof. vm_compute. done. Qed.

Section scheduler.
Context {St : Type} `{!PoolStateStore St} (cfg : PoolConfig) (notified : nat -> bool).
Implicit Types w : World St.

Definition quiet_lifecycle w : Prop := forall n l, e_lifecycle_steps (w_env w) n l = l.

Lemma wp_async_fenced_tick w :
  ns_fenced cfg (St := St) -> quiet_lifecycle w -> stoppable cfg w -> w_lifecycle w = LC_RUNNING ->
  wp (async_pool_reconcile_tick cfg) (fun r w' => r = Ok tt /\ async_stopped w') w.
Proof.
  intros Hfence Hq Hst Hl. unfold async_pool_reconcile_tick.
  pool_step. apply (wp_read_stable LC_RUNNING); [done|apply Hq|]. rewrite bool_decide_true by done.
  pool_step. apply (wp_read_stable LC_RUNNING); [done|apply Hq|]. rewrite bool_decide_true by done.
  unfold async_begin_operation. do 5 pool_step.
  apply (wp_read_stable LC_RUNNING); [done|apply Hq|]. rewrite bool_decide_true by done.
  pool_step. apply wp_store_call. unfold wp at 1. simpl.
  destruct (Hfence (e_store_steps (w_env w) (S (S (S (w_step w)))) (w_store w))) as (st & s' & -> & Hne).
  rewrite bool_decide_false by done. unfold async_stop_after_pool_namespace_destroyed.
  do 2 pool_step. simpl. pool_step. eapply wp_mono; [by apply wp_async_stop_reconcile|].
  intros r w1 (-> & H1 & H2 & H3 & H4 & H5). do 2 pool_step.
  eapply wp_mono; [apply wp_async_close; simpl; rewrite H2; apply Hst|].
  intros r w2 (-> & K1 & K2 & K3 & K4). simpl in *. split; [done|]. split_and!; simpl; congruence.
Qed.

(** The scheduler ends by itself after its first tick in a fenced namespace,
    and leaves the instance stopped. *)
Theorem async_scheduler_ends_when_fenced fuel w :
  ns_fenced cfg (St := St) -> quiet_lifecycle w -> stoppable cfg w -> w_lifecycle w = LC_RUNNING ->
  w_stop_event w = false -> (2 <= fuel)%nat ->
  wp (async_scheduler_loop cfg notified fuel) (fun r w' => r = Ok true /\ async_stopped w') w.
Proof.
  intros Hfence Hq Hst Hl Hs Hf. destruct fuel as [|[|fuel]]; [lia..|]. cbn [async_scheduler_loop].
  do 2 pool_step. rewrite Hs. pool_step. eapply wp_mono; [by apply wp_async_fenced_tick|].
  intros r w1 [-> Hw1]. do 2 pool_step. destruct (notified _); [by pool_step|].
  do 2 pool_step. destruct Hw1 as (H1 & H2 & H3). simpl. rewrite H3. by pool_step.
Qed.

(** The background task sends every kill, whatever happens to the others. *)
Theorem async_kills_all_sent ids w :
  w_manager w = true ->
  wp (async_kill_discarded_alive ids) (fun _ w' => exists l, w_log w' = (w_log w ++ l)%list /\
    disposed_of l = ids) w.
Proof.
  intros Hm. destruct ids as [|id0 ids0]; [exists []; by rewrite app_nil_r|].
  unfold async_kill_discarded_alive, gather. set (ids := id0 :: ids0). clearbody ids. pool_step.
  enough (wp (run_all (map async_kill_sandbox_best_effort ids)) (fun r w' => exists l,
    w_log w' = (w_log w ++ l)%list /\ disposed_of l = ids) w) as H.
  { eapply wp_mono; [apply H|]. intros [rs|e] w' Hl; [by pool_step|done]. }
  revert w Hm. induction ids as [|id ids IH]; intros w Hm; cbn [map run_all].
  { exists []. by rewrite app_nil_r. }
  do 2 pool_step. unfold async_kill_sandbox_best_effort, kill_sandbox_best_effort, sandbox_kill.
  do 2 pool_step. rewrite Hm. do 7 pool_step.
  assert (Hgo : forall r : res exc bool, wp (rs <-- run_all (map async_kill_sandbox_best_effort ids) ;; ret (r :: rs))
    (fun _ w' => exists l, w_log w' = (w_log w ++ l)%list /\ disposed_of l = id :: ids)
    (add_log [EKill id (is_ok (e_kill (w_env w) (w_step w) id))] (bump w))).
  { intros r. pool_step. eapply wp_mono; [by apply IH|]. intros r' w' (l & Hl & Hd).
    assert (exists l0, w_log w' = (w_log w ++ l0)%list /\ disposed_of l0 = id :: ids) as H0.
    { eexists. rewrite Hl. simpl. rewrite <- app_assoc. split; [done|]. simpl. by rewrite Hd. }
    destruct r' as [rs|e]; [by pool_step|done]. }
  destruct (e_kill _ _ _) as [[]|e] eqn:E; simpl in *; [pool_step; apply Hgo|].
  destruct (is_Exception e); [pool_step|]; apply Hgo.
Qed.
End scheduler.
