(* ===== verification/Retry.v ===== *)
(** * Retrying HTTP transport

    [sdks/sandbox/python/src/opensandbox/transport/]: the policy ([retry.py]),
    the decision and back-off functions ([_decision.py]), the classification of
    httpx exceptions ([_classify.py]) and the two transports that wrap an inner
    one ([_sync_retry.py], [_async_retry.py]).

    A [timedelta] is a number of microseconds.  A Python [float] is an exact
    rational: rounding errors and the overflow of [m**retry_index] are not
    modelled.  The inner transport, the clock, the random generator and the
    HTTP-date parser of the [email] package are arguments.  Log lines, the
    [on_retry] callback beyond the event it receives, and failures to close a
    response, which the code swallows, are not modelled. *)

From Stdlib Require Import ZArith Lia String Ascii QArith Qround.
From stdpp Require Import base numbers strings gmap list.
From S2P Require Import Prelude PyString PoolTypes.

Open Scope string_scope.
Open Scope Z_scope.

(** ** Rationals as floats *)

Definition total_seconds (us : Z) : Q := us # 1000000.

(** [b < a] decides which argument [min(a, b)] and [max(a, b)] return. *)
Definition q_lt (a b : Q) : bool := negb (Qle_bool b a).
Definition q_min (a b : Q) : Q := if q_lt b a then b else a.
Definition q_max (a b : Q) : Q := if q_lt a b then b else a.

Definition round_half_even (q : Q) : Z :=
  let f := Qfloor q in
  let d := Qminus q (inject_Z f) in
  match Qcompare d (1 # 2) with
  | Lt => f
  | Gt => f + 1
  | Eq => if Z.even f then f else f + 1
  end.

(** [timedelta(seconds=q)] *)
Definition of_seconds (q : Q) : Z := round_half_even (Qmult q (inject_Z 1000000)).

(** ** retry.py *)

(** [str.upper] on ASCII text, as HTTP method tokens are. *)
Definition upper_char (c : ascii) : ascii :=
  if is_lower_az c then ascii_of_N (N_of_ascii c - 32) else c.
Definition upper (s : string) : string := of_chars (map upper_char (chars s)).

Definition IDEMPOTENT_METHODS : list string := ["GET"; "HEAD"; "PUT"; "DELETE"; "OPTIONS"].

Definition is_idempotent_method (method : string) : bool :=
  bool_decide (upper method ∈ IDEMPOTENT_METHODS).

Inductive JitterMode := J_NONE | J_FULL | J_DECORRELATED.

Inductive RetryCause :=
  | C_PRE_SEND | C_OPAQUE_TRANSPORT | C_READ_TIMEOUT | C_WRITE_TIMEOUT | C_UNEXPECTED_EOF
  | C_STATUS_408 | C_STATUS_425 | C_STATUS_429 | C_STATUS_500 | C_STATUS_502 | C_STATUS_503
  | C_STATUS_504 | C_STATUS_OTHER.

#[global] Instance RetryCause_eq_dec : EqDecision RetryCause.
Proof. solve_decision. Defined.

(** [RetryCause.for_status]; a code that is no [HTTPStatus] is [STATUS_OTHER]. *)
Definition for_status (status_code : Z) : RetryCause :=
  if status_code =? 408 then C_STATUS_408
  else if status_code =? 425 then C_STATUS_425
  else if status_code =? 429 then C_STATUS_429
  else if status_code =? 500 then C_STATUS_500
  else if status_code =? 502 then C_STATUS_502
  else if status_code =? 503 then C_STATUS_503
  else if status_code =? 504 then C_STATUS_504
  else C_STATUS_OTHER.

Definition DEFAULT_IDEMPOTENT_STATUS : list Z := [429; 502; 503].

Record RetryPolicy := {
  max_retries : Z;
  initial_backoff : Z;
  max_backoff : Z;
  backoff_multiplier : Q;
  jitter : JitterMode;
  retryable_status_codes_idempotent : list Z;
  retryable_status_codes_non_idempotent : list Z;
  per_attempt_timeout : option Z;
  overall_deadline : option Z;
  has_on_retry : bool;
}.

Definition default_policy : RetryPolicy :=
  {| max_retries := 3; initial_backoff := milliseconds 500; max_backoff := seconds 30;
     backoff_multiplier := 2; jitter := J_DECORRELATED;
     retryable_status_codes_idempotent := DEFAULT_IDEMPOTENT_STATUS;
     retryable_status_codes_non_idempotent := [];
     per_attempt_timeout := None; overall_deadline := None; has_on_retry := false |}.

(** [RetryPolicy.disabled] *)
Definition disabled : RetryPolicy :=
  {| max_retries := 0; initial_backoff := milliseconds 500; max_backoff := seconds 30;
     backoff_multiplier := 2; jitter := J_DECORRELATED;
     retryable_status_codes_idempotent := DEFAULT_IDEMPOTENT_STATUS;
     retryable_status_codes_non_idempotent := [];
     per_attempt_timeout := None; overall_deadline := None; has_on_retry := false |}.

Definition wraps_transport (p : RetryPolicy) : bool :=
  (0 <? max_retries p) || bool_decide (is_Some (per_attempt_timeout p)) ||
  bool_decide (is_Some (overall_deadline p)) || has_on_retry p.

Definition retryable_statuses_for (p : RetryPolicy) (method : string) : list Z :=
  if is_idempotent_method method then retryable_status_codes_idempotent p
  else retryable_status_codes_non_idempotent p.

(** [RetryPolicy.__post_init__] *)
Definition RetryPolicy_post_init (p : RetryPolicy) : res exc unit :=
  checks
    [ require (negb (max_retries p <? 0)) "max_retries must be >= 0";
      require (negb (initial_backoff p <? 0)) "initial_backoff must be >= 0";
      require (negb (max_backoff p <? 0)) "max_backoff must be >= 0";
      require (negb (q_lt (backoff_multiplier p) 1)) "backoff_multiplier must be >= 1.0";
      match per_attempt_timeout p with
      | Some t => require (negb (t <=? 0)) "per_attempt_timeout must be > 0 when set"
      | None => Ok tt
      end;
      match overall_deadline p with
      | Some t => require (negb (t <=? 0)) "overall_deadline must be > 0 when set"
      | None => Ok tt
      end ].

(** ** _decision.py *)

Record Outcome := {
  is_transport_error : bool;
  status_code : option Z;
  is_pre_send : bool;
  is_opaque_transport : bool;
  cause : RetryCause;
}.

Definition should_retry (method : string) (outcome : Outcome) (retries_used : Z)
    (policy : RetryPolicy) (elapsed : Z) (cancelled body_replayable : bool) : bool :=
  if max_retries policy <=? retries_used then false
  else if match overall_deadline policy with Some d => d <=? elapsed | None => false end then false
  else if cancelled then false
  else if is_transport_error outcome then
    if is_pre_send outcome then
      if negb body_replayable && (1 <=? retries_used) then false else true
    else is_idempotent_method method
  else match status_code outcome with
       | None => false
       | Some code =>
           if negb body_replayable then false
           else bool_decide (code ∈ retryable_statuses_for policy method)
       end.

(** [uniform a b] is the draw [rng.uniform(a, b)]. *)
Definition compute_backoff (uniform : Q -> Q -> Q) (retry_index : Z) (policy : RetryPolicy)
    (previous_sleep : Z) : Z :=
  let max_s := total_seconds (max_backoff policy) in
  let base_s := total_seconds (initial_backoff policy) in
  let m := backoff_multiplier policy in
  let exp_s := if q_lt 0 base_s then q_min max_s (Qmult base_s (Qpower m retry_index)) else 0%Q in
  let sleep_s :=
    match jitter policy with
    | J_NONE => exp_s
    | J_FULL => if q_lt 0 exp_s then uniform 0%Q exp_s else 0%Q
    | J_DECORRELATED =>
        let prev_s := total_seconds previous_sleep in
        if (retry_index =? 0) || Qle_bool prev_s 0 then q_min base_s max_s
        else
          let upper := q_min max_s (Qmult prev_s m) in
          let lower := base_s in
          if q_lt upper lower then upper else uniform lower upper
    end in
  of_seconds (q_max 0 sleep_s).

Definition RETRY_AFTER_CAP : Z := seconds 60.
Definition MAX_RETRY_AFTER_SECONDS : Z := 100 * 365 * 24 * 3600.

(** [int(raw)] on text: an optional sign, then digits with single underscores
    between them, at most 4300 digits; [None] is [ValueError]. *)
Fixpoint int_digits (l : list ascii) (acc : Z) (n : Z) : option Z :=
  match l with
  | [] => None
  | c :: l =>
      if is_digit c then
        let acc := acc * 10 + (code c - 48) in
        let n := n + 1 in
        match l with
        | [] => if 4300 <? n then None else Some acc
        | u :: l' =>
            if (u =? "_")%char then int_digits l' acc n else int_digits l acc n
        end
      else None
  end.

Definition py_int (raw : string) : option Z :=
  match strip_list is_space (chars raw) with
  | [] => None
  | c :: l =>
      if (c =? "-")%char then Z.opp <$> int_digits l 0 0
      else if (c =? "+")%char then int_digits l 0 0
      else int_digits (c :: l) 0 0
  end.

(** [parsedate raw] is the instant [email.utils.parsedate_to_datetime] returns
    in UTC, [None] if it fails. *)
Definition parse_retry_after (parsedate : string -> option Z) (header_value : option string)
    (now : Z) : option Z :=
  match header_value with
  | None => None
  | Some v =>
      let raw := strip v in
      if (raw =? "")%string then None
      else match py_int raw with
           | Some secs =>
               if secs <? 0 then Some 0 else Some (seconds (Z.min secs MAX_RETRY_AFTER_SECONDS))
           | None =>
               match parsedate raw with
               | None => None
               | Some t => let delta := t - now in if delta <? 0 then Some 0 else Some delta
               end
           end
  end.

Definition apply_retry_after_cap (retry_after : option Z) : option Z :=
  match retry_after with
  | None => None
  | Some t => if RETRY_AFTER_CAP <? t then Some RETRY_AFTER_CAP else Some t
  end.

(** ** _classify.py *)

(** The exceptions an attempt can end with.  [OtherTransportError] is any other
    subclass of [httpx.TransportError]; [OtherError] is anything else. *)
Inductive hx :=
  | ConnectError | ConnectTimeout | PoolTimeout | ReadTimeout | WriteTimeout
  | RemoteProtocolError | OtherTransportError
  | AsyncTimeoutError | CancelledError | OtherError (name : string).

#[global] Instance hx_eq_dec : EqDecision hx.
Proof. solve_decision. Defined.

Definition is_TransportError (e : hx) : bool :=
  match e with AsyncTimeoutError | CancelledError | OtherError _ => false | _ => true end.

Definition classify_transport_exception (e : hx) : Outcome :=
  let outcome te ps op c :=
    {| is_transport_error := te; status_code := None; is_pre_send := ps;
       is_opaque_transport := op; cause := c |} in
  match e with
  | ConnectError | ConnectTimeout => outcome true true false C_PRE_SEND
  | PoolTimeout => outcome true true false C_PRE_SEND
  | ReadTimeout => outcome true false false C_READ_TIMEOUT
  | WriteTimeout => outcome true false false C_WRITE_TIMEOUT
  | RemoteProtocolError => outcome true false false C_UNEXPECTED_EOF
  | OtherTransportError => outcome true false true C_OPAQUE_TRANSPORT
  | _ => outcome false false false C_STATUS_OTHER
  end.

Record Response := {
  resp_status : Z;
  resp_retry_after : option string;
  resp_request_id : option string;
}.

Definition outcome_for_response (r : Response) : Outcome :=
  {| is_transport_error := false; status_code := Some (resp_status r); is_pre_send := false;
     is_opaque_transport := false; cause := for_status (resp_status r) |}.

(** ** Per-attempt time-outs (_async_retry.py) *)

(** [request.extensions["timeout"]]: phase to seconds, [None] for no limit. *)
Definition timeout_dict := list (string * option Q).

Definition PHASES : list string := ["connect"; "read"; "write"; "pool"].

Definition attempt_limit (policy : RetryPolicy) (remaining : option Z) : option Q :=
  let limit := total_seconds <$> per_attempt_timeout policy in
  match remaining with
  | None => limit
  | Some r =>
      let remaining_s := q_max (total_seconds r) 0 in
      Some (match limit with None => remaining_s | Some l => q_min l remaining_s end)
  end.

Definition clamp_phase (limit : Q) (timeout : timeout_dict) (phase : string) : timeout_dict :=
  match od_get phase timeout with
  | None | Some None => od_set phase (Some limit) timeout
  | Some (Some existing) => od_set phase (Some (q_min existing limit)) timeout
  end.

(** [_clamp_attempt_timeout]: the time-outs the request carries afterwards. *)
Definition clamp_attempt_timeout (current : option timeout_dict) (policy : RetryPolicy)
    (baseline : option timeout_dict) (remaining : option Z) : option timeout_dict :=
  match attempt_limit policy remaining with
  | None => current
  | Some limit => Some (foldl (clamp_phase limit) (default [] baseline) PHASES)
  end.

(** ** The transports *)

Record Request := {
  req_method : string;
  req_url : string;
  (** [isinstance(request.stream, httpx.ByteStream)] *)
  is_body_replayable : bool;
  (** the time-out extension, when it is a dict *)
  capture_baseline_timeout : option timeout_dict;
}.

Record RetryEvent := {
  ev_attempt : Z;
  ev_retries_used : Z;
  ev_method : string;
  ev_url : string;
  ev_cause : RetryCause;
  ev_status_code : option Z;
  ev_backoff : Z;
  ev_request_id : option string;
  ev_exception : option hx;
}.

(** What surrounds a transport.  [n_async] answers an attempt under the
    wall-clock limit [asyncio.wait_for] imposes, if any. *)
Record Net := {
  n_clock : nat -> Z;
  n_now : nat -> Z;
  n_uniform : nat -> Q -> Q -> Q;
  n_parsedate : string -> option Z;
  n_sync : nat -> option timeout_dict -> res hx Response;
  n_async : nat -> option timeout_dict -> option Q -> res hx Response;
}.

(** The state of one logical request: readings taken so far and a record of
    the attempts (with the elapsed time and the time-outs of each), the events
    and the sleeps. *)
Record RS := mkRS' {
  rq_step : nat;
  rq_timeout : option timeout_dict;
  rq_attempts : list (Z * option timeout_dict * res hx Response);
  rq_events : list RetryEvent;
  rq_sleeps : list Z;
}.

Section transport.
Context (net : Net) (policy : RetryPolicy) (request : Request).
Local Abbreviation RM A := (M RS hx A).

Definition tick_rs (s : RS) : RS :=
  mkRS' (S (rq_step s)) (rq_timeout s) (rq_attempts s) (rq_events s) (rq_sleeps s).

Definition read_net {A} (f : nat -> A) : RM A := fun s => (Ok (f (rq_step s)), tick_rs s).

Definition set_timeout (t : option timeout_dict) (s : RS) : RS :=
  mkRS' (rq_step s) t (rq_attempts s) (rq_events s) (rq_sleeps s).
Definition add_attempt a (s : RS) : RS :=
  mkRS' (rq_step s) (rq_timeout s) (rq_attempts s ++ [a])%list (rq_events s) (rq_sleeps s).
Definition add_event e (s : RS) : RS :=
  mkRS' (rq_step s) (rq_timeout s) (rq_attempts s) (rq_events s ++ [e])%list (rq_sleeps s).
Definition add_sleep t (s : RS) : RS :=
  mkRS' (rq_step s) (rq_timeout s) (rq_attempts s) (rq_events s) (rq_sleeps s ++ [t])%list.

(** The transport call of the synchronous loop: [except httpx.TransportError]
    keeps the exception, any other one propagates. *)
Definition sync_dispatch (remaining : option Z) : RM (res hx Response) :=
  t <-- gets rq_timeout ;;
  r <-- read_net (fun n => n_sync net n t) ;;
  match r with
  | Ok _ => ret r
  | Raise e => if is_TransportError e then ret r else throw e
  end.

(** [min] of the remaining deadline and [per_attempt_timeout], when set. *)
Definition attempt_deadline (remaining : option Z) : option Q :=
  let d := (fun r => q_max (total_seconds r) 0) <$> remaining in
  match per_attempt_timeout policy with
  | None => d
  | Some t => let pat_s := total_seconds t in
              Some (match d with None => pat_s | Some d => q_min d pat_s end)
  end.

(** The asynchronous call: cancellation propagates, and the [TimeoutError] of
    [wait_for] becomes a [ReadTimeout]. *)
Definition async_dispatch (remaining : option Z) : RM (res hx Response) :=
  t <-- gets rq_timeout ;;
  r <-- read_net (fun n => n_async net n t (attempt_deadline remaining)) ;;
  match r with
  | Ok _ => ret r
  | Raise AsyncTimeoutError => ret (Raise ReadTimeout)
  | Raise e => if is_TransportError e then ret r else throw e
  end.

Definition outcome_of (r : res hx Response) : Outcome :=
  match r with
  | Ok resp => outcome_for_response resp
  | Raise e => classify_transport_exception e
  end.

Context (dispatch : option Z -> RM (res hx Response)).

(** How long to wait before the next attempt. *)
Definition sleep_for (r : res hx Response) (retries_used previous_sleep elapsed : Z) : RM Z :=
  retry_after <-- (match r with
                   | Ok resp =>
                       now <-- read_net (n_now net) ;;
                       ret (apply_retry_after_cap
                              (parse_retry_after (n_parsedate net) (resp_retry_after resp) now))
                   | Raise _ => ret None
                   end) ;;
  s <-- (match retry_after with
         | Some t => ret t
         | None => u <-- read_net (n_uniform net) ;;
                   ret (compute_backoff u retries_used policy previous_sleep)
         end) ;;
  ret (match overall_deadline policy with
       | None => s
       | Some d => let remaining := d - elapsed in
                   if remaining <? s then Z.max remaining 0 else s
       end).

Definition retry_event (r : res hx Response) (retries_used backoff : Z) : RetryEvent :=
  {| ev_attempt := retries_used + 2; ev_retries_used := retries_used;
     ev_method := upper (req_method request); ev_url := req_url request;
     ev_cause := cause (outcome_of r);
     ev_status_code := match r with Ok resp => Some (resp_status resp) | Raise _ => None end;
     ev_backoff := backoff;
     ev_request_id := match r with Ok resp => resp_request_id resp | Raise _ => None end;
     ev_exception := match r with Ok _ => None | Raise e => Some e end |}.

(** The [while True] loop; each pass makes one attempt. *)
Fixpoint retry_loop (fuel : nat) (start previous_sleep retries_used : Z) : RM Response :=
  match fuel with
  | O => throw (OtherError "out of fuel")
  | S fuel =>
      t <-- read_net (n_clock net) ;;
      let elapsed := t - start in
      let remaining := (fun d => d - elapsed) <$> overall_deadline policy in
      if match remaining with Some r => r <=? 0 | None => false end then throw ReadTimeout
      else
        modify (fun s => set_timeout (clamp_attempt_timeout (rq_timeout s) policy
                           (capture_baseline_timeout request) remaining) s) ;;;
        to <-- gets rq_timeout ;;
        r <-- dispatch remaining ;;
        modify (add_attempt (elapsed, to, r)) ;;;
        t <-- read_net (n_clock net) ;;
        let elapsed := t - start in
        if should_retry (upper (req_method request)) (outcome_of r) retries_used policy elapsed
             false (is_body_replayable request) then
          s <-- sleep_for r retries_used previous_sleep elapsed ;;
          modify (add_event (retry_event r retries_used s)) ;;;
          (if 0 <? s then modify (add_sleep s) else ret tt) ;;;
          retry_loop fuel start s (retries_used + 1)
        else match r with Ok resp => ret resp | Raise e => throw e end
  end.

Definition handle_with (fuel : nat) : RM Response :=
  start <-- read_net (n_clock net) ;; retry_loop fuel start 0 0.
End transport.

Definition init_rs (request : Request) : RS :=
  mkRS' 0 (capture_baseline_timeout request) [] [] [].

(** [RetrySyncTransport.handle_request] *)
Definition handle_request (net : Net) (policy : RetryPolicy) (request : Request) (fuel : nat)
  : res hx Response * RS :=
  handle_with net policy request (sync_dispatch net) fuel (init_rs request).

(** [RetryAsyncTransport.handle_async_request] *)
Definition handle_async_request (net : Net) (policy : RetryPolicy) (request : Request) (fuel : nat)
  : res hx Response * RS :=
  handle_with net policy request (async_dispatch net policy) fuel (init_rs request).

(** ** Lemmas on rationals *)

Lemma q_lt_true a b : q_lt a b = true <-> (a < b)%Q.
Proof.
  unfold q_lt. rewrite negb_true_iff. destruct (Qle_bool b a) eqn:E.
  - apply Qle_bool_iff in E. split; [done|]. intros H. by apply Qle_not_lt in E.
  - split; [intros _|done]. apply Qnot_le_lt. intros H. apply Qle_bool_iff in H. congruence.
Qed.

Lemma q_lt_false a b : q_lt a b = false <-> (b <= a)%Q.
Proof. unfold q_lt. by rewrite negb_false_iff, Qle_bool_iff. Qed.

Lemma q_min_le a b : (q_min a b <= a)%Q /\ (q_min a b <= b)%Q.
Proof.
  unfold q_min. destruct (q_lt b a) eqn:E.
  - apply q_lt_true in E. split; [by apply Qlt_le_weak|apply Qle_refl].
  - apply q_lt_false in E. split; [apply Qle_refl|done].
Qed.

Lemma q_min_glb a b c : (c <= a)%Q -> (c <= b)%Q -> (c <= q_min a b)%Q.
Proof. unfold q_min. by destruct (q_lt b a). Qed.

Lemma q_max_bounds a b c : (a <= c)%Q -> (b <= c)%Q -> (a <= q_max a b)%Q /\ (q_max a b <= c)%Q.
Proof.
  intros Ha Hb. unfold q_max. destruct (q_lt a b) eqn:E; [|by split; [apply Qle_refl|]].
  apply q_lt_true in E. split; [by apply Qlt_le_weak|done].
Qed.

Lemma round_half_even_le q n : (q <= inject_Z n)%Q -> round_half_even q <= n.
Proof.
  intros Hq. unfold round_half_even.
  assert (Hf : Qfloor q <= n) by (rewrite <- (Qfloor_Z n); by apply Qfloor_resp_le).
  destruct (Z.eq_dec (Qfloor q) n) as [E|]; [|destruct (_ ?= _)%Q; [destruct (Z.even _)|..]; lia].
  assert (Hd : (q - inject_Z (Qfloor q) <= 0)%Q).
  { rewrite E. apply (Qplus_le_l _ _ (inject_Z n)). ring_simplify. done. }
  assert (Hlt : (q - inject_Z (Qfloor q) ?= 1 # 2)%Q = Lt).
  { apply (proj1 (Qlt_alt _ _)). eapply Qle_lt_trans; [apply Hd|done]. }
  rewrite Hlt. lia.
Qed.

Lemma round_half_even_nonneg q : (0 <= q)%Q -> 0 <= round_half_even q.
Proof.
  intros Hq. unfold round_half_even.
  assert (Hf : 0 <= Qfloor q) by (rewrite <- (Qfloor_Z 0); by apply Qfloor_resp_le).
  destruct (_ ?= _)%Q; [destruct (Z.even _)|..]; lia.
Qed.

Lemma of_seconds_bounds q us :
  (0 <= q)%Q -> (q <= total_seconds us)%Q -> 0 <= of_seconds q <= us.
Proof.
  intros H0 H. unfold of_seconds. split.
  - apply round_half_even_nonneg. by apply Qmult_le_0_compat.
  - apply round_half_even_le.
    eapply Qle_trans; [apply Qmult_le_compat_r; [apply H|done]|].
    unfold total_seconds, Qmult, Qle. simpl. lia.
Qed.

Lemma total_seconds_nonneg us : 0 <= us -> (0 <= total_seconds us)%Q.
Proof. unfold total_seconds, Qle. simpl. lia. Qed.

(** ** The policy and the decision *)

Record valid_policy (p : RetryPolicy) : Prop := {
  vp_max_retries : 0 <= max_retries p;
  vp_initial_backoff : 0 <= initial_backoff p;
  vp_max_backoff : 0 <= max_backoff p;
  vp_multiplier : (1 <= backoff_multiplier p)%Q;
  vp_per_attempt : forall t, per_attempt_timeout p = Some t -> 0 < t;
  vp_deadline : forall t, overall_deadline p = Some t -> 0 < t;
}.

Lemma post_init_valid p : RetryPolicy_post_init p = Ok tt -> valid_policy p.
Proof.
  unfold RetryPolicy_post_init, require. intros H.
  destruct (max_retries p <? 0) eqn:E1; [done|]. destruct (initial_backoff p <? 0) eqn:E2; [done|].
  destruct (max_backoff p <? 0) eqn:E3; [done|].
  destruct (q_lt (backoff_multiplier p) 1) eqn:E4; [done|]. apply q_lt_false in E4.
  simpl in H. destruct (per_attempt_timeout p) as [t|] eqn:Et.
  - destruct (t <=? 0) eqn:E5; [done|]. simpl in H. destruct (overall_deadline p) as [d|] eqn:Ed.
    + destruct (d <=? 0) eqn:E6; [done|]. constructor; try bool_lia; try done; intros; simplify_eq; bool_lia.
    + constructor; try bool_lia; try done; intros; simplify_eq; bool_lia.
  - destruct (overall_deadline p) as [d|] eqn:Ed.
    + destruct (d <=? 0) eqn:E6; [done|]. constructor; try bool_lia; try done; intros; simplify_eq; bool_lia.
    + constructor; try bool_lia; try done; intros; simplify_eq; bool_lia.
Qed.

(** What [random.Random.uniform] documents. *)
Definition uniform_law (u : Q -> Q -> Q) : Prop :=
  forall a b, (a <= b)%Q -> (a <= u a b <= b)%Q.

Lemma backoff_bounds u idx p prev :
  valid_policy p -> uniform_law u -> 0 <= idx ->
  0 <= compute_backoff u idx p prev <= max_backoff p.
Proof.
  intros [_ Hb Hm H1 _ _] Hu Hidx. unfold compute_backoff.
  apply total_seconds_nonneg in Hb. pose proof (total_seconds_nonneg _ Hm) as Hm'.
  set (base := total_seconds (initial_backoff p)) in *. set (mx := total_seconds (max_backoff p)) in *.
  enough (Hx : forall x, (x <= mx)%Q -> 0 <= of_seconds (q_max 0 x) <= max_backoff p).
  { apply Hx. set (e := if q_lt 0 base then _ else _).
    assert (He : (e <= mx)%Q) by (unfold e; destruct (q_lt 0 base); [apply q_min_le|done]).
    destruct (jitter p); [done| |].
    - destruct (q_lt 0 e) eqn:E; [|done]. apply q_lt_true, Qlt_le_weak, Hu in E as [_ E].
      by eapply Qle_trans.
    - destruct (_ || _); [apply q_min_le|]. destruct (q_lt (q_min mx _) base) eqn:E; [apply q_min_le|].
      apply q_lt_false, Hu in E as [_ E]. eapply Qle_trans; [apply E|]. apply q_min_le. }
  intros x Hx. destruct (q_max_bounds 0 x mx Hm' Hx). by apply of_seconds_bounds.
Qed.

(** With a policy the constructor accepts, and a uniform draw that stays
    between its bounds, the computed back-off is never negative and never
    exceeds [max_backoff], in all three jitter modes, for every retry and
    whatever the previous sleep was. *)
Theorem compute_backoff_bounded u idx p prev :
  RetryPolicy_post_init p = Ok tt -> uniform_law u -> 0 <= idx ->
  0 <= compute_backoff u idx p prev <= max_backoff p.
Proof. intros H. apply backoff_bounds, post_init_valid, H. Qed.

Lemma compute_backoff_witness :
  0 <= compute_backoff (fun a b => a) 5 default_policy (seconds 20) <= seconds 30.
Proof.
  apply (compute_backoff_bounded (fun a b => a) 5 default_policy (seconds 20)).
  - vm_compute. reflexivity.
  - intros a b H. split; [apply Qle_refl|exact H].
  - lia.
Defined.

(** ** Time-outs of one attempt *)

Lemma clamp_phase_get limit d phase p :
  exists q, od_get p (clamp_phase limit d phase) =
    (if decide (p = phase) then Some (Some q) else od_get p d) /\ (q <= limit)%Q /\
    (forall b, od_get phase d = Some (Some b) -> (q <= b)%Q).
Proof.
  unfold clamp_phase.
  destruct (od_get phase d) as [[b|]|] eqn:E; [exists (q_min b limit)|exists limit..];
    (split_and!; [|try apply q_min_le; apply Qle_refl|intros b' [= <-] || done]);
    try (apply q_min_le); case_decide; subst; by rewrite ?od_get_set_eq, ?od_get_set_ne.
Qed.

Lemma clamp_phases_get limit l : forall d p,
  NoDup l ->
  if decide (p ∈ l) then
    exists q, od_get p (foldl (clamp_phase limit) d l) = Some (Some q) /\ (q <= limit)%Q /\
      (forall b, od_get p d = Some (Some b) -> (q <= b)%Q)
  else od_get p (foldl (clamp_phase limit) d l) = od_get p d.
Proof.
  induction l as [|x l IH]; intros d p Hnd; [by rewrite decide_False by set_solver|]. cbn [foldl].
  apply NoDup_cons in Hnd as [Hx Hnd]. specialize (IH (clamp_phase limit d x) p Hnd).
  destruct (clamp_phase_get limit d x p) as (q & Hq & Hle & Hb).
  destruct (decide (p = x)) as [->|Hne].
  - rewrite decide_False in IH by done. rewrite decide_True by set_solver.
    exists q. rewrite IH. by split_and!.
  - destruct (decide (p ∈ l)) as [Hin|Hin]; [|rewrite decide_False by set_solver; congruence].
    rewrite decide_True by set_solver. rewrite <- Hq. done.
Qed.

Lemma clamp_attempt_spec cur policy baseline remaining :
  match clamp_attempt_timeout cur policy baseline remaining with
  | None => per_attempt_timeout policy = None /\ remaining = None /\ cur = None
  | Some d =>
      (per_attempt_timeout policy = None /\ remaining = None /\ cur = Some d) \/
      forall phase,
        if decide (phase ∈ PHASES) then
          exists q, od_get phase d = Some (Some q) /\
            (forall t, per_attempt_timeout policy = Some t -> (q <= total_seconds t)%Q) /\
            (forall r, remaining = Some r -> (q <= q_max (total_seconds r) 0)%Q) /\
            (forall b, od_get phase (default [] baseline) = Some (Some b) -> (q <= b)%Q)
        else od_get phase d = od_get phase (default [] baseline)
  end.
Proof.
  unfold clamp_attempt_timeout. destruct (attempt_limit policy remaining) as [limit|] eqn:El.
  - right. intros phase.
    pose proof (clamp_phases_get limit PHASES (default [] baseline) phase) as H.
    assert (Hlim : (forall t, per_attempt_timeout policy = Some t -> (limit <= total_seconds t)%Q) /\
      (forall r, remaining = Some r -> (limit <= q_max (total_seconds r) 0)%Q)).
    { unfold attempt_limit in El. destruct remaining as [r|], (per_attempt_timeout policy) as [t|];
        simpl in El; simplify_eq; split; intros; simplify_eq; apply q_min_le || apply Qle_refl. }
    destruct Hlim as [Ht Hr]. specialize (H (bool_decide_unpack (NoDup PHASES) I)).
    destruct (decide (phase ∈ PHASES)); [|done]. destruct H as (q & Hq & Hle & Hb). exists q.
    split_and!; [done| | |done]; intros; eapply Qle_trans; try apply Hle; auto.
  - unfold attempt_limit in El.
    destruct remaining; [done|]. destruct (per_attempt_timeout policy); [done|].
    destruct cur; by auto.
Qed.

(** When a per-attempt time-out or an overall deadline is set, every phase
    of the attempt (connect, read, write, pool) gets a limit no longer than
    either of them and no longer than what the client had set; phases of other
    names are left alone, and without the two settings nothing changes. *)
Theorem clamp_attempt_timeout_spec cur policy baseline remaining :
  match clamp_attempt_timeout cur policy baseline remaining with
  | None => per_attempt_timeout policy = None /\ remaining = None /\ cur = None
  | Some d =>
      (per_attempt_timeout policy = None /\ remaining = None /\ cur = Some d) \/
      forall phase,
        if decide (phase ∈ PHASES) then
          exists q, od_get phase d = Some (Some q) /\
            (forall t, per_attempt_timeout policy = Some t -> (q <= total_seconds t)%Q) /\
            (forall r, remaining = Some r -> (q <= q_max (total_seconds r) 0)%Q) /\
            (forall b, od_get phase (default [] baseline) = Some (Some b) -> (q <= b)%Q)
        else od_get phase d = od_get phase (default [] baseline)
  end.
Proof. apply clamp_attempt_spec. Qed.

(** ** What the loop does *)

Section loop.
Context (net : Net) (policy : RetryPolicy) (request : Request).
Context (dispatch : option Z -> M RS hx (res hx Response)) (propagates : hx -> Prop).

Definition same_record (s s' : RS) : Prop :=
  rq_attempts s' = rq_attempts s /\ rq_events s' = rq_events s /\ rq_sleeps s' = rq_sleeps s.

(** A transport call leaves the record alone and keeps transport errors. *)
Hypothesis dispatch_ok : forall remaining s,
  wp (dispatch remaining) (fun r s' => same_record s s' /\
    match r with Ok _ => True | Raise e => propagates e end) s.

Local Abbreviation method := (upper (req_method request)).

Definition retried (k : Z) (a : Z * option timeout_dict * res hx Response) : Prop :=
  exists elapsed, should_retry method (outcome_of a.2) k policy elapsed false
                    (is_body_replayable request) = true.

(** The deadline and the time-outs of an attempt. *)
Definition in_time (a : Z * option timeout_dict * res hx Response) : Prop :=
  forall d, overall_deadline policy = Some d -> a.1.1 < d /\
    forall phase, phase ∈ PHASES -> exists dict q, a.1.2 = Some dict /\
      od_get phase dict = Some (Some q) /\ (q <= total_seconds (d - a.1.1))%Q.

Definition short_sleep (t : Z) : Prop :=
  t <= Z.max (max_backoff policy) RETRY_AFTER_CAP.

Definition final (r : res hx Response) (l : list (Z * option timeout_dict * res hx Response)) : Prop :=
  (exists a, last l = Some a /\ a.2 = r) \/
  (r = Raise ReadTimeout /\ is_Some (overall_deadline policy)) \/
  (exists e, r = Raise e /\ propagates e).

Definition loop_spec (used : Z) (s : RS) (r : res hx Response) (s' : RS) : Prop :=
  exists l sl, rq_attempts s' = (rq_attempts s ++ l)%list /\ rq_sleeps s' = (rq_sleeps s ++ sl)%list /\
    Z.of_nat (length l) <= max_retries policy - used + 1 /\ (length sl <= length l)%nat /\
    (forall i a, l !! i = Some a -> (S i < length l)%nat -> retried (used + Z.of_nat i) a) /\
    Forall in_time l /\ Forall short_sleep sl /\ final r l.

Lemma wp_read_net {A} (f : nat -> A) Q s :
  Q (Ok (f (rq_step s))) (tick_rs s) -> wp (read_net f) Q s.
Proof. done. Qed.

Lemma in_time_clamped elapsed t r :
  match (fun d => d - elapsed) <$> overall_deadline policy with
  | Some r => r <=? 0 | None => false
  end = false ->
  in_time (elapsed, clamp_attempt_timeout t policy (capture_baseline_timeout request)
                      ((fun d => d - elapsed) <$> overall_deadline policy), r).
Proof.
  intros Hrem d Hd. simpl. rewrite Hd in Hrem |- *. simpl in Hrem |- *. split; [bool_lia|].
  intros phase Hp. pose proof (clamp_attempt_spec t policy (capture_baseline_timeout request)
    (Some (d - elapsed))) as Hc.
  destruct (clamp_attempt_timeout _ _ _ _) as [dict|]; [|naive_solver].
  destruct Hc as [(? & ? & ?)|Hc]; [done|]. specialize (Hc phase).
  destruct (decide (phase ∈ PHASES)) as [_|]; [|done]. destruct Hc as (q & Hq & _ & Hr & _).
  exists dict, q. split_and!; [done..|]. eapply Qle_trans; [by apply Hr|].
  unfold q_max. destruct (q_lt _ 0) eqn:E; [|apply Qle_refl].
  apply total_seconds_nonneg. bool_lia.
Qed.

Lemma wp_sleep_for r used prev elapsed s :
  valid_policy policy -> (forall n, uniform_law (n_uniform net n)) -> 0 <= used ->
  (forall d, overall_deadline policy = Some d -> elapsed < d) ->
  wp (sleep_for net policy r used prev elapsed) (fun t s' => same_record s s' /\
    exists v, t = Ok v /\ short_sleep v) s.
Proof.
  intros Hv Hu Hused Hd. unfold sleep_for.
  assert (Hcap : forall v s0, short_sleep v -> same_record s s0 ->
    wp (ret (E := hx) (match overall_deadline policy with
       | None => v
       | Some d => let remaining := d - elapsed in
                   if remaining <? v then Z.max remaining 0 else v end))
      (fun t s' => same_record s s' /\ exists v, t = Ok v /\ short_sleep v) s0).
  { intros v s0 Hs0 Hsame. wp_step. split; [done|]. eexists; split; [done|].
    destruct (overall_deadline policy) as [d|]; [|done]. specialize (Hd d eq_refl).
    unfold short_sleep in *. simpl. destruct (Z.ltb_spec (d - elapsed) v); lia. }
  assert (Hback : forall s0, same_record s s0 ->
    wp (u <-- read_net (n_uniform net) ;; ret (compute_backoff u used policy prev))
      (fun t s' => same_record s s' /\ exists v, t = Ok v /\ short_sleep v) s0).
  { intros s0 Hs0. wp_step. apply wp_read_net. wp_step. split; [done|]. eexists; split; [done|].
    destruct (backoff_bounds (n_uniform net (rq_step s0)) used policy prev Hv (Hu _) Hused).
    unfold short_sleep. lia. }
  destruct r as [resp|e]; do 2 wp_step; [apply wp_read_net; do 2 wp_step|wp_step].
  - set (ra := apply_retry_after_cap _). destruct ra as [t|] eqn:Hra.
    + wp_step. apply Hcap; [|done]. unfold ra, apply_retry_after_cap in Hra.
      destruct (parse_retry_after _ _ _) as [t'|]; [|done]. unfold short_sleep.
      destruct (Z.ltb_spec RETRY_AFTER_CAP t'); simplify_eq; lia.
    + eapply wp_mono; [by apply Hback|]. intros t s' [Hs' (v & -> & Hv')]. by apply Hcap.
  - eapply wp_mono; [by apply Hback|]. intros t s' [Hs' (v & -> & Hv')]. by apply Hcap.
Qed.

Lemma loop_spec_cons used s s1 s2 r a sl :
  rq_attempts s1 = (rq_attempts s ++ [a])%list -> rq_sleeps s1 = (rq_sleeps s ++ sl)%list ->
  (length sl <= 1)%nat -> Forall short_sleep sl -> in_time a -> retried used a ->
  (used < max_retries policy) ->
  loop_spec (used + 1) s1 r s2 -> loop_spec used s r s2.
Proof.
  intros Ha Hs Hl Hsl Hin Hre Hlt (l & sl' & H1 & H2 & H3 & H4 & H5 & H6 & H7 & H8).
  exists (a :: l), (sl ++ sl')%list. split_and!.
  - rewrite H1, Ha. by rewrite <- app_assoc.
  - rewrite H2, Hs. by rewrite <- app_assoc.
  - simpl. lia.
  - rewrite length_app. simpl. lia.
  - intros [|i] a' Hi Hlen; simpl in *; simplify_eq; [by rewrite Z.add_0_r|].
    replace (used + Z.of_nat (S i)) with (used + 1 + Z.of_nat i) by lia. apply H5; [done|lia].
  - by constructor.
  - by apply Forall_app.
  - destruct H8 as [(a' & Hlast & Hr)|H8]; [|by right]. left. exists a'. split; [|done].
    destruct l; [done|]. done.
Qed.

(** A last attempt. *)
Lemma loop_spec_last used s s' a :
  used <= max_retries policy -> rq_attempts s' = (rq_attempts s ++ [a])%list ->
  rq_sleeps s' = rq_sleeps s -> in_time a -> loop_spec used s a.2 s'.
Proof.
  intros Hu Ha Hs Hin. exists [a], []. split_and!; [done| |simpl; lia|simpl; lia| |by constructor|done|].
  - by rewrite app_nil_r.
  - intros [|i] a' Hi Hlen; simpl in *; lia.
  - left. by exists a.
Qed.

(** No attempt at all. *)
Lemma loop_spec_none used s s' e :
  used <= max_retries policy -> same_record s s' ->
  (e = ReadTimeout /\ is_Some (overall_deadline policy) \/ propagates e) ->
  loop_spec used s (Raise e) s'.
Proof.
  intros Hu (Ha & He & Hs) Hf. exists [], []. rewrite !app_nil_r.
  split_and!; [done|done|simpl; lia|done|done|done|done|]. right. naive_solver.
Qed.

Lemma should_retry_budget m o k p el c b :
  should_retry m o k p el c b = true ->
  k < max_retries p /\ (forall d, overall_deadline p = Some d -> el < d).
Proof.
  unfold should_retry. destruct (max_retries p <=? k) eqn:E; [done|].
  destruct (overall_deadline p) as [d|]; [|intros _; split; [bool_lia|done]].
  destruct (d <=? el) eqn:E2; [done|]. intros _. split; [bool_lia|]. intros ? [= <-]. bool_lia.
Qed.

Lemma wp_retry_loop fuel : forall start prev used s,
  valid_policy policy -> (forall n, uniform_law (n_uniform net n)) ->
  0 <= used <= max_retries policy -> max_retries policy - used < Z.of_nat fuel ->
  wp (retry_loop net policy request dispatch fuel start prev used) (loop_spec used s) s.
Proof.
  induction fuel as [|fuel IH]; intros start prev used s Hv Hu Hused Hfuel; [lia|].
  cbn [retry_loop]. wp_step. apply wp_read_net. set (elapsed := n_clock net _ - start).
  destruct (match _ with Some r => r <=? 0 | None => false end) eqn:Hrem.
  { wp_step. apply loop_spec_none; [lia|done|]. left. split; [done|].
    destruct (overall_deadline policy); [by eauto|done]. }
  pose proof (fun t r => in_time_clamped elapsed t r Hrem) as Hin.
  do 5 wp_step. eapply wp_mono; [apply dispatch_ok|].
  intros [r|e] s1 [(R1 & R2 & R3) Hr]; [|by apply loop_spec_none; [lia| |right]].
  do 3 wp_step. apply wp_read_net. set (elapsed' := n_clock net _ - start).
  set (a := (elapsed, _, r)). simpl in *.
  destruct (should_retry _ _ _ _ _ _ _) eqn:Hsr.
  - destruct (should_retry_budget _ _ _ _ _ _ _ Hsr) as [Hlt Hdl].
    wp_step. eapply wp_mono; [by apply wp_sleep_for; [| |lia|]|].
    intros t s2 [(S1 & S2 & S3) (v & -> & Hv')]. do 3 wp_step. simpl in *.
    assert (Hgo : forall s3 sl, rq_attempts s3 = rq_attempts s2 ->
      rq_sleeps s3 = (rq_sleeps s2 ++ sl)%list -> (length sl <= 1)%nat -> Forall short_sleep sl ->
      wp (retry_loop net policy request dispatch fuel start v (used + 1)) (loop_spec used s) s3).
    { intros s3 sl A1 A2 A3 A4. eapply wp_mono; [apply IH; [done|done|lia|lia]|].
      intros r' s4. apply (loop_spec_cons _ _ _ _ _ a sl); [congruence|congruence|done|done|apply Hin| |done].
      by eexists. }
    destruct (0 <? v); wp_step;
      [apply (Hgo _ [v]); try done; by constructor|
       apply (Hgo _ []); rewrite ?app_nil_r; simpl; try done; lia].
  - destruct r as [resp|e]; wp_step; (apply (loop_spec_last used s _ a);
      [lia|simpl; by rewrite R1|done|apply Hin]).
Qed.
End loop.

Lemma sync_dispatch_ok net remaining s :
  wp (sync_dispatch net remaining) (fun r s' => same_record s s' /\
    match r with
    | Ok _ => True
    | Raise e => is_TransportError e = false /\ exists n t, n_sync net n t = Raise e
    end) s.
Proof.
  unfold sync_dispatch. do 3 wp_step. apply wp_read_net.
  destruct (n_sync _ _ _) as [resp|e] eqn:E; [by wp_step|].
  destruct (is_TransportError e) eqn:Et; wp_step; (split; [done|]); [done|]. split; [done|]. by eexists _, _.
Qed.

Lemma async_dispatch_ok net policy remaining s :
  wp (async_dispatch net policy remaining) (fun r s' => same_record s s' /\
    match r with
    | Ok _ => True
    | Raise e => is_TransportError e = false /\ e <> AsyncTimeoutError /\
                 exists n t d, n_async net n t d = Raise e
    end) s.
Proof.
  unfold async_dispatch. do 3 wp_step. apply wp_read_net.
  destruct (n_async _ _ _ _) as [resp|e] eqn:E; [by wp_step|].
  destruct e; simpl; wp_step; split; try done; split_and!; try done; by eexists _, _, _.
Qed.

Definition handled (net : Net) (policy : RetryPolicy) (request : Request) (propagates : hx -> Prop)
    (r : res hx Response * RS) : Prop :=
  loop_spec policy request propagates 0 (init_rs request) r.1 r.2.

Lemma handle_with_spec net policy request dispatch propagates fuel :
  (forall remaining s, wp (dispatch remaining) (fun r s' => same_record s s' /\
      match r with Ok _ => True | Raise e => propagates e end) s) ->
  valid_policy policy -> (forall n, uniform_law (n_uniform net n)) ->
  max_retries policy < Z.of_nat fuel ->
  handled net policy request propagates (handle_with net policy request dispatch fuel (init_rs request)).
Proof.
  intros Hd Hv Hu Hf. pose proof (vp_max_retries _ Hv).
  assert (H0 : wp (handle_with net policy request dispatch fuel)
    (loop_spec policy request propagates 0 (init_rs request)) (init_rs request)).
  { unfold handle_with. wp_step. apply wp_read_net.
    eapply wp_mono; [by apply (wp_retry_loop net policy request dispatch propagates Hd); [| |lia|lia]|].
    done. }
  unfold handled, wp in *. by destruct (handle_with _ _ _ _ _ _).
Qed.

(** C31: with fuel for [max_retries + 1] passes the synchronous transport makes
    at most that many attempts and ends with the result of its last attempt,
    with a [ReadTimeout] when a deadline is set, or with an exception of the
    inner transport that is no transport error; every attempt but the last was
    one the policy allows to retry; each attempt starts before the deadline
    with all its phases limited to the time left; and no sleep is longer than
    [max_backoff] or the 60-second cap on a Retry-After. *)
Theorem handle_request_spec net policy request fuel :
  RetryPolicy_post_init policy = Ok tt -> (forall n, uniform_law (n_uniform net n)) ->
  max_retries policy < Z.of_nat fuel ->
  let '(r, s) := handle_request net policy request fuel in
  Z.of_nat (length (rq_attempts s)) <= max_retries policy + 1 /\
  (forall i a, rq_attempts s !! i = Some a -> (S i < length (rq_attempts s))%nat ->
     exists elapsed, should_retry (upper (req_method request)) (outcome_of a.2) (Z.of_nat i) policy
                       elapsed false (is_body_replayable request) = true) /\
  Forall (in_time policy) (rq_attempts s) /\
  Forall (fun t => t <= Z.max (max_backoff policy) (seconds 60)) (rq_sleeps s) /\
  final policy (fun e => is_TransportError e = false /\ exists n t, n_sync net n t = Raise e)
    r (rq_attempts s).
Proof.
  intros Hp Hu Hf. apply post_init_valid in Hp.
  pose proof (handle_with_spec net policy request _ _ fuel (sync_dispatch_ok net) Hp Hu Hf) as H.
  fold (handle_request net policy request fuel) in H.
  destruct (handle_request net policy request fuel) as [r s].
  destruct H as (l & sl & H1 & H2 & H3 & H4 & H5 & H6 & H7 & H8). simpl in *. subst.
  split_and!; [lia|done..].
Qed.

(** The same holds of the asynchronous transport, where the wall-clock
    limit of an attempt shows as a [ReadTimeout] and cancellation propagates. *)
Theorem handle_async_request_spec net policy request fuel :
  RetryPolicy_post_init policy = Ok tt -> (forall n, uniform_law (n_uniform net n)) ->
  max_retries policy < Z.of_nat fuel ->
  let '(r, s) := handle_async_request net policy request fuel in
  Z.of_nat (length (rq_attempts s)) <= max_retries policy + 1 /\
  (forall i a, rq_attempts s !! i = Some a -> (S i < length (rq_attempts s))%nat ->
     exists elapsed, should_retry (upper (req_method request)) (outcome_of a.2) (Z.of_nat i) policy
                       elapsed false (is_body_replayable request) = true) /\
  Forall (in_time policy) (rq_attempts s) /\
  Forall (fun t => t <= Z.max (max_backoff policy) (seconds 60)) (rq_sleeps s) /\
  final policy (fun e => is_TransportError e = false /\ e <> AsyncTimeoutError /\
      exists n t d, n_async net n t d = Raise e) r (rq_attempts s).
Proof.
  intros Hp Hu Hf. apply post_init_valid in Hp.
  pose proof (handle_with_spec net policy request _ _ fuel (async_dispatch_ok net policy) Hp Hu Hf) as H.
  fold (handle_async_request net policy request fuel) in H.
  destruct (handle_async_request net policy request fuel) as [r s].
  destruct H as (l & sl & H1 & H2 & H3 & H4 & H5 & H6 & H7 & H8). simpl in *. subst.
  split_and!; [lia|done..].
Qed.

(** ** Safety for requests that are not idempotent *)

Lemma should_retry_non_idempotent m o k p el c b :
  should_retry m o k p el c b = true -> is_idempotent_method m = false ->
  retryable_status_codes_non_idempotent p = [] ->
  is_transport_error o = true /\ is_pre_send o = true /\ (b = false -> k < 1).
Proof.
  unfold should_retry, retryable_statuses_for. intros H Hi Hn. rewrite Hi, Hn in H.
  destruct (_ <=? k); [done|]. destruct (match overall_deadline p with Some _ => _ | None => _ end); [done|].
  destruct c; [done|]. destruct (is_transport_error o).
  - destruct (is_pre_send o); [|done]. split_and!; [done..|]. intros ->. simpl in H.
    destruct (1 <=? k) eqn:E; [done|]. bool_lia.
  - destruct (status_code o); [|done]. by destruct b.
Qed.

(** Under a policy that lists no status for them, as the default does, a
    request that is not idempotent is sent again only while no byte of it was
    written: every attempt but the last failed to connect or to get a
    connection from the pool.  With a body that cannot be replayed at most one
    such failure is retried. *)
Theorem non_idempotent_sent_once net policy request fuel :
  RetryPolicy_post_init policy = Ok tt -> (forall n, uniform_law (n_uniform net n)) ->
  max_retries policy < Z.of_nat fuel ->
  is_idempotent_method (upper (req_method request)) = false ->
  retryable_status_codes_non_idempotent policy = [] ->
  let s := (handle_request net policy request fuel).2 in
  (forall i a, rq_attempts s !! i = Some a -> (S i < length (rq_attempts s))%nat ->
     a.2 ∈ [Raise ConnectError; Raise ConnectTimeout; Raise PoolTimeout]) /\
  (is_body_replayable request = false -> (length (rq_attempts s) <= 2)%nat).
Proof.
  intros Hp Hu Hf Hi Hn. apply post_init_valid in Hp.
  pose proof (handle_with_spec net policy request _ _ fuel (sync_dispatch_ok net) Hp Hu Hf) as H.
  fold (handle_request net policy request fuel) in H.
  destruct (handle_request net policy request fuel) as [r s].
  destruct H as (l & sl & H1 & _ & _ & _ & H5 & _). simpl in *. subst. split.
  - intros i [[el t] a] Ha Hlen. destruct (H5 i _ Ha Hlen) as [e He]. simpl in *.
    destruct (should_retry_non_idempotent _ _ _ _ _ _ _ He Hi Hn) as (Ht & Hps & _).
    destruct a as [resp|x]; [done|]. destruct x; try done; set_solver.
  - intros Hrep. destruct (decide (2 < length (rq_attempts s))%nat) as [Hl|]; [|lia].
    destruct (lookup_lt_is_Some_2 (rq_attempts s) 1 ltac:(lia)) as [a Ha].
    destruct (H5 1%nat a Ha Hl) as [e He]. rewrite Hrep in He.
    destruct (should_retry_non_idempotent _ _ _ _ _ _ _ He Hi Hn) as (_ & _ & Hk).
    specialize (Hk eq_refl). lia.
Qed.

(** The guard does not cover the post-send branch: an idempotent upload whose
    body can be read once is sent again after a read time-out. *)
Lemma consumed_body_resent :
  should_retry "PUT" (classify_transport_exception ReadTimeout) 0 default_policy 0 false false = true.
Proof. reflexivity. Qed.

(** ** Witnesses *)

(** A connection failure, then 503 with a Retry-After beyond the cap, then 200. *)
Definition demo_net : Net := {|
  n_clock := fun n => Z.of_nat n; n_now := fun n => Z.of_nat n;
  n_uniform := fun _ a _ => a; n_parsedate := fun _ => None;
  n_sync := fun n _ =>
    if (n <? 3)%nat then Raise ConnectError
    else if (n <? 9)%nat then
      Ok {| resp_status := 503; resp_retry_after := Some " 3_600 "; resp_request_id := None |}
    else Ok {| resp_status := 200; resp_retry_after := None; resp_request_id := None |};
  n_async := fun n _ _ =>
    if (n <? 7)%nat then Raise AsyncTimeoutError
    else Ok {| resp_status := 200; resp_retry_after := None; resp_request_id := None |};
|}.

Definition demo_request : Request :=
  {| req_method := "get"; req_url := "/sandboxes"; is_body_replayable := true;
     capture_baseline_timeout := Some [("read", Some (5 # 1))] |}.

Lemma demo_uniform n : uniform_law (n_uniform demo_net n).
Proof. intros a b H. split; [apply Qle_refl|exact H]. Qed.

Lemma handle_request_witness :
  (handle_request demo_net default_policy demo_request 4).1 =
    Ok {| resp_status := 200; resp_retry_after := None; resp_request_id := None |} /\
  rq_sleeps (handle_request demo_net default_policy demo_request 4).2 = [milliseconds 500; seconds 60] /\
  let '(r, s) := handle_request demo_net default_policy demo_request 4 in
  Z.of_nat (length (rq_attempts s)) <= 3 + 1 /\
  (forall i a, rq_attempts s !! i = Some a -> (S i < length (rq_attempts s))%nat ->
     exists elapsed, should_retry "GET" (outcome_of a.2) (Z.of_nat i) default_policy
                       elapsed false true = true) /\
  Forall (in_time default_policy) (rq_attempts s) /\
  Forall (fun t => t <= Z.max (seconds 30) (seconds 60)) (rq_sleeps s) /\
  final default_policy (fun e => is_TransportError e = false /\ exists n t, n_sync demo_net n t = Raise e)
    r (rq_attempts s).
Proof.
  split_and!; [vm_compute; reflexivity..|].
  apply (handle_request_spec demo_net default_policy demo_request 4);
    [vm_compute; reflexivity|apply demo_uniform|vm_compute; reflexivity].
Defined.

Lemma handle_async_request_witness :
  (handle_async_request demo_net default_policy demo_request 4).1 =
    Ok {| resp_status := 200; resp_retry_after := None; resp_request_id := None |} /\
  let '(r, s) := handle_async_request demo_net default_policy demo_request 4 in
  Z.of_nat (length (rq_attempts s)) <= 3 + 1 /\
  (forall i a, rq_attempts s !! i = Some a -> (S i < length (rq_attempts s))%nat ->
     exists elapsed, should_retry "GET" (outcome_of a.2) (Z.of_nat i) default_policy
                       elapsed false true = true) /\
  Forall (in_time default_policy) (rq_attempts s) /\
  Forall (fun t => t <= Z.max (seconds 30) (seconds 60)) (rq_sleeps s) /\
  final default_policy (fun e => is_TransportError e = false /\ e <> AsyncTimeoutError /\
      exists n t d, n_async demo_net n t d = Raise e) r (rq_attempts s).
Proof.
  split_and!; [vm_compute; reflexivity|].
  apply (handle_async_request_spec demo_net default_policy demo_request 4);
    [vm_compute; reflexivity|apply demo_uniform|vm_compute; reflexivity].
Defined.

Definition demo_post : Request :=
  {| req_method := "post"; req_url := "/sandboxes"; is_body_replayable := false;
     capture_baseline_timeout := None |}.

Lemma non_idempotent_sent_once_witness :
  let s := (handle_request demo_net default_policy demo_post 4).2 in
  length (rq_attempts s) = 2%nat /\
  (forall i a, rq_attempts s !! i = Some a -> (S i < length (rq_attempts s))%nat ->
     a.2 ∈ [Raise ConnectError; Raise ConnectTimeout; Raise PoolTimeout]) /\
  (false = false -> (length (rq_attempts s) <= 2)%nat).
Proof.
  intros s. split; [vm_compute; reflexivity|].
  apply (non_idempotent_sent_once demo_net default_policy demo_post 4);
    [vm_compute; reflexivity|apply demo_uniform|vm_compute; reflexivity..].
Defined.
