(* ===== verification/EndpointCache.v ===== *)
(** * Endpoint cache

    [sdks/sandbox/python/src/opensandbox/adapters/endpoint_cache.py]: the LRU
    and TTL cache of sandbox endpoints that merges concurrent fetches of a key.

    The threads of the synchronous cache interleave at the points where they do
    not hold the lock.  A state holds the cache's fields, the in-flight entries
    (objects shared by reference, so kept in a heap), and for every thread
    inside [get_or_fetch] where it stands.  A step is one locked section, the
    wake-up of a waiter, or another operation on the cache; [now] is the clock
    reading of the step.  An endpoint and a port are left abstract as strings. *)

From Stdlib Require Import ZArith Lia String.
From stdpp Require Import base numbers strings gmap list.
From S2P Require Import Prelude PoolTypes.

Open Scope string_scope.
Open Scope Z_scope.

(** (sandbox id, rest of the key) *)
Definition key := (string * string)%type.

Definition entry := (string * Z)%type.

(** ** The ordered dict and its eviction *)

Definition move_to_end (k : key) (c : list (key * entry)) : list (key * entry) :=
  match od_get k c with
  | Some v => (od_del k c ++ [(k, v)])%list
  | None => c
  end.

(** [while len(self._cache) >= self._maxsize: self._cache.popitem(last=False)] *)
Fixpoint evict (maxsize : Z) (c : list (key * entry)) : list (key * entry) :=
  match c with
  | [] => []
  | _ :: c' => if maxsize <=? Z.of_nat (length c) then evict maxsize c' else c
  end.

Definition put_locked (maxsize ttl now : Z) (k : key) (e : string) (c : list (key * entry))
  : list (key * entry) :=
  if od_mem k c then od_set k (e, now + ttl) (move_to_end k c)
  else od_set k (e, now + ttl) (evict maxsize c).

Definition cache_get (now : Z) (k : key) (c : list (key * entry))
  : option string * list (key * entry) :=
  match od_get k c with
  | None => (None, c)
  | Some (endpoint, expires_at) =>
      if expires_at <=? now then (None, od_del k c) else (Some endpoint, move_to_end k c)
  end.

(** ** State *)

(** [_InflightEntry] *)
Record InflightEntry := mkInf {
  inf_set : bool;
  inf_result : option string;
  inf_error : option exc;
}.

(** Where a thread stands in [get_or_fetch]. *)
Inductive pc :=
  | Waiting (k : key) (inf : nat)
  | Fetching (k : key) (inf : nat) (gen_before : Z)
  | Finishing (k : key) (inf : nat) (r : res exc (option string))
  | Returned (r : res exc (option string)).

Record ECState := mkEC {
  ec_maxsize : Z;
  ec_ttl : Z;
  ec_cache : list (key * entry);
  ec_inflight : list (key * nat);
  ec_heap : list InflightEntry;
  ec_generation : Z;
  ec_threads : gmap nat pc;
}.

(** [EndpointCache.__init__] *)
Definition init_cache (maxsize ttl : Z) : ECState :=
  mkEC (Z.max 1 maxsize) ttl [] [] [] 0 ∅.

Definition set_cache c (s : ECState) : ECState :=
  mkEC (ec_maxsize s) (ec_ttl s) c (ec_inflight s) (ec_heap s) (ec_generation s) (ec_threads s).
Definition set_inflight i (s : ECState) : ECState :=
  mkEC (ec_maxsize s) (ec_ttl s) (ec_cache s) i (ec_heap s) (ec_generation s) (ec_threads s).
Definition set_heap h (s : ECState) : ECState :=
  mkEC (ec_maxsize s) (ec_ttl s) (ec_cache s) (ec_inflight s) h (ec_generation s) (ec_threads s).
Definition set_generation g (s : ECState) : ECState :=
  mkEC (ec_maxsize s) (ec_ttl s) (ec_cache s) (ec_inflight s) (ec_heap s) g (ec_threads s).
Definition set_thread (t : nat) (p : pc) (s : ECState) : ECState :=
  mkEC (ec_maxsize s) (ec_ttl s) (ec_cache s) (ec_inflight s) (ec_heap s) (ec_generation s)
    (<[t := p]> (ec_threads s)).

(** ** Steps *)

Inductive action :=
  | AGet (k : key)
  | APut (k : key) (e : string)
  | AInvalidate (sandbox_id : string)
  | AStart (t : nat) (k : key)                     (** enter [get_or_fetch] *)
  | AFetched (t : nat) (r : res exc string)        (** [fetch()] ended *)
  | AFinish (t : nat)                              (** the [finally] block *)
  | AWake (t : nat).                               (** [inf.event.wait()] returned *)

Definition do_get (now : Z) (k : key) (s : ECState) : option string * ECState :=
  let '(r, c) := cache_get now k (ec_cache s) in (r, set_cache c s).

Definition do_put (now : Z) (k : key) (e : string) (s : ECState) : ECState :=
  set_cache (put_locked (ec_maxsize s) (ec_ttl s) now k e (ec_cache s)) s.

Definition do_invalidate (sandbox_id : string) (s : ECState) : ECState :=
  let s := set_generation (ec_generation s + 1) s in
  let s := set_cache (filter (fun kv => kv.1.1 <> sandbox_id) (ec_cache s)) s in
  set_inflight (filter (fun kv => kv.1.1 <> sandbox_id) (ec_inflight s)) s.

(** The first locked section of [get_or_fetch]. *)
Definition do_start (now : Z) (t : nat) (k : key) (s : ECState) : ECState :=
  match cache_get now k (ec_cache s) with
  | (Some endpoint, c) => set_thread t (Returned (Ok (Some endpoint))) (set_cache c s)
  | (None, c) =>
      let s := set_cache c s in
      match od_get k (ec_inflight s) with
      | Some i => set_thread t (Waiting k i) s
      | None =>
          let i := length (ec_heap s) in
          set_thread t (Fetching k i (ec_generation s))
            (set_inflight (od_set k i (ec_inflight s))
               (set_heap (ec_heap s ++ [mkInf false None None])%list s))
      end
  end.

Definition heap_upd (i : nat) (f : InflightEntry -> InflightEntry) (s : ECState) : ECState :=
  set_heap (alter f i (ec_heap s)) s.

(** The owner after its fetch: [inf.error] is only set for an [Exception]. *)
Definition do_fetched (now : Z) (t : nat) (k : key) (i : nat) (gen : Z) (r : res exc string)
    (s : ECState) : ECState :=
  match r with
  | Ok endpoint =>
      let s := if ec_generation s =? gen then do_put now k endpoint s else s in
      set_thread t (Finishing k i (Ok (Some endpoint)))
        (heap_upd i (fun e => mkInf (inf_set e) (Some endpoint) (inf_error e)) s)
  | Raise x =>
      set_thread t (Finishing k i (Raise x))
        (if is_Exception x
         then heap_upd i (fun e => mkInf (inf_set e) (inf_result e) (Some x)) s else s)
  end.

Definition do_finish (t : nat) (k : key) (i : nat) (r : res exc (option string)) (s : ECState)
  : ECState :=
  let s := if bool_decide (od_get k (ec_inflight s) = Some i)
           then set_inflight (od_del k (ec_inflight s)) s else s in
  set_thread t (Returned r) (heap_upd i (fun e => mkInf true (inf_result e) (inf_error e)) s).

Definition wake_result (e : InflightEntry) : res exc (option string) :=
  match inf_error e with Some x => Raise x | None => Ok (inf_result e) end.

(** [None]: the step is not enabled. *)
Definition exec (now : Z) (a : action) (s : ECState) : option ECState :=
  match a with
  | AGet k => Some (do_get now k s).2
  | APut k e => Some (do_put now k e s)
  | AInvalidate sandbox_id => Some (do_invalidate sandbox_id s)
  | AStart t k =>
      match ec_threads s !! t with
      | None | Some (Returned _) => Some (do_start now t k s)
      | _ => None
      end
  | AFetched t r =>
      match ec_threads s !! t with
      | Some (Fetching k i gen) => Some (do_fetched now t k i gen r s)
      | _ => None
      end
  | AFinish t =>
      match ec_threads s !! t with
      | Some (Finishing k i r) => Some (do_finish t k i r s)
      | _ => None
      end
  | AWake t =>
      match ec_threads s !! t with
      | Some (Waiting k i) =>
          e ← ec_heap s !! i;
          if inf_set e then Some (set_thread t (Returned (wake_result e)) s) else None
      | _ => None
      end
  end.

(** Reachability: any interleaving of any number of threads. *)
Inductive reachable (maxsize ttl : Z) : ECState -> Prop :=
  | reach_init : reachable maxsize ttl (init_cache maxsize ttl)
  | reach_step now a s s' :
      reachable maxsize ttl s -> exec now a s = Some s' -> reachable maxsize ttl s'.

(** ** Invariant *)

Definition owner_of (p : pc) : option (key * nat) :=
  match p with
  | Fetching k i _ | Finishing k i _ => Some (k, i)
  | _ => None
  end.

(** What the shared entry of an owner holds. *)
Definition entry_of (p : pc) : InflightEntry :=
  match p with
  | Finishing _ _ (Ok x) => mkInf false x None
  | Finishing _ _ (Raise x) => mkInf false None (if is_Exception x then Some x else None)
  | _ => mkInf false None None
  end.

Record bounded (s : ECState) : Prop := {
  b_max : 1 <= ec_maxsize s;
  b_size : Z.of_nat (length (ec_cache s)) <= ec_maxsize s;
  b_keys : od_wf (ec_cache s);
}.

Record flights (s : ECState) : Prop := {
  f_keys : od_wf (ec_inflight s);
  f_owner : forall k i, od_get k (ec_inflight s) = Some i ->
    exists t p, ec_threads s !! t = Some p /\ owner_of p = Some (k, i);
  f_entry : forall t p k i, ec_threads s !! t = Some p -> owner_of p = Some (k, i) ->
    ec_heap s !! i = Some (entry_of p);
  f_unique : forall t t' p p' k k' i, ec_threads s !! t = Some p -> ec_threads s !! t' = Some p' ->
    owner_of p = Some (k, i) -> owner_of p' = Some (k', i) -> t = t';
  f_waiting : forall t k i, ec_threads s !! t = Some (Waiting k i) ->
    exists e, ec_heap s !! i = Some e /\
      (inf_set e = true \/ exists t' p, ec_threads s !! t' = Some p /\ owner_of p = Some (k, i));
  f_gen : forall t k i g, ec_threads s !! t = Some (Fetching k i g) ->
    g <= ec_generation s /\ (g = ec_generation s -> od_get k (ec_inflight s) = Some i);
}.

(** *** The cache *)

Lemma move_to_end_keys k c : od_wf c -> od_wf (move_to_end k c) /\
  length (move_to_end k c) = length c /\ (forall k', od_get k' (move_to_end k c) = od_get k' c).
Proof.
  intros Hc. unfold move_to_end. destruct (od_get k c) as [v|] eqn:E; [|done].
  pose proof (od_length_del k v c Hc E) as Hl. split_and!.
  - unfold od_wf. rewrite fmap_app, NoDup_app. split_and!; [by apply od_wf_del| |apply NoDup_singleton].
    intros x. rewrite od_keys_del, list_elem_of_filter. simpl. set_solver.
  - rewrite length_app. simpl. lia.
  - intros k'. rewrite od_get_app. destruct (decide (k' = k)) as [->|Hne].
    + rewrite od_get_del_eq, E. simpl. by rewrite decide_True.
    + rewrite od_get_del_ne by done. destruct (od_get k' c); [done|]. simpl. by rewrite decide_False.
Qed.

Lemma evict_spec m c : 1 <= m -> od_wf c ->
  od_wf (evict m c) /\ Z.of_nat (length (evict m c)) < m /\ evict m c `suffix_of` c.
Proof.
  intros Hm. induction c as [|[k v] c IH]; intros Hc; simpl; [split_and!; [done|lia|done]|].
  destruct (m <=? _) eqn:E.
  - apply NoDup_cons in Hc as [_ Hc]. destruct (IH Hc) as (H1 & H2 & H3).
    split_and!; [done..|by apply suffix_cons_r].
  - split_and!; [done| |done]. simpl. bool_lia.
Qed.

Lemma put_locked_spec m ttl now k e c :
  1 <= m -> od_wf c -> Z.of_nat (length c) <= m ->
  od_wf (put_locked m ttl now k e c) /\ Z.of_nat (length (put_locked m ttl now k e c)) <= m /\
  od_get k (put_locked m ttl now k e c) = Some (e, now + ttl) /\
  (forall k', k' <> k -> od_mem k c = true -> od_get k' (put_locked m ttl now k e c) = od_get k' c).
Proof.
  intros Hm Hc Hl. unfold put_locked. destruct (od_mem k c) eqn:E.
  - destruct (move_to_end_keys k c Hc) as (H1 & H2 & H3). apply od_mem_spec in E as [v Hv].
    split_and!; [by apply od_wf_set| |apply od_get_set_eq|].
    + rewrite od_length_set_old by (rewrite H3; eauto). lia.
    + intros k' Hne _. rewrite od_get_set_ne by done. apply H3.
  - destruct (evict_spec m c Hm Hc) as (H1 & H2 & H3). apply od_mem_false in E.
    assert (Hn : od_get k (evict m c) = None).
    { apply od_get_None. intros Hin. apply od_get_None in E. destruct E.
      destruct H3 as [pre ->]. rewrite fmap_app. set_solver. }
    split_and!; [by apply od_wf_set| |apply od_get_set_eq|done].
    rewrite od_length_set_new by done. lia.
Qed.

Lemma cache_get_spec now k c :
  od_wf c -> od_wf (cache_get now k c).2 /\ (length (cache_get now k c).2 <= length c)%nat.
Proof.
  intros Hc. unfold cache_get. destruct (od_get k c) as [[e t]|] eqn:E; [|done].
  destruct (t <=? now); simpl.
  - split; [by apply od_wf_del|]. pose proof (od_length_del _ _ _ Hc E). lia.
  - destruct (move_to_end_keys k c Hc) as (? & -> & _). done.
Qed.

Definition same_cache (s s' : ECState) : Prop :=
  ec_maxsize s' = ec_maxsize s /\ ec_cache s' = ec_cache s.

Lemma bounded_same s s' : same_cache s s' -> bounded s -> bounded s'.
Proof. intros [Hm Hc] []. constructor; congruence. Qed.

Lemma bounded_put now k e s : bounded s -> bounded (do_put now k e s).
Proof.
  intros [H1 H2 H3]. destruct (put_locked_spec (ec_maxsize s) (ec_ttl s) now k e _ H1 H3 H2)
    as (? & ? & _). by constructor.
Qed.

Lemma bounded_lookup now k s : bounded s -> bounded (set_cache (cache_get now k (ec_cache s)).2 s).
Proof.
  intros [H1 H2 H3]. destruct (cache_get_spec now k (ec_cache s) H3).
  constructor; simpl; [done|lia|done].
Qed.

Lemma bounded_exec now a s s' : bounded s -> exec now a s = Some s' -> bounded s'.
Proof.
  intros Hb. destruct a as [k|k e|sid|t k|t r|t|t]; simpl.
  - intros [= <-]. unfold do_get. pose proof (bounded_lookup now k s Hb).
    by destruct (cache_get _ _ _).
  - intros [= <-]. by apply bounded_put.
  - intros [= <-]. destruct Hb as [H1 H2 H3]. constructor; simpl; [done| |exact (od_wf_filter_keys (fun k : key => k.1 <> sid) (ec_cache s) H3)].
    eapply Z.le_trans; [apply inj_le, length_filter|done].
  - assert (Hst : bounded (do_start now t k s)).
    { unfold do_start. pose proof (bounded_lookup now k s Hb) as Hc.
      destruct (cache_get now k (ec_cache s)) as [[e|] c]; [by eapply bounded_same; [|exact Hc]|].
      destruct (od_get k _); by eapply bounded_same; [|exact Hc]. }
    destruct (ec_threads s !! t) as [[]|]; congruence.
  - destruct (ec_threads s !! t) as [[]|]; try done. intros [= <-]. unfold do_fetched.
    destruct r as [e|x].
    + destruct (_ =? _); [|by apply (bounded_same s)].
      by apply (bounded_same (do_put now k e s)); [|apply bounded_put].
    + destruct (is_Exception x); by apply (bounded_same s).
  - destruct (ec_threads s !! t) as [[]|]; try done. intros [= <-]. unfold do_finish.
    case_bool_decide; by apply (bounded_same s).
  - destruct (ec_threads s !! t) as [[]|]; try done. destruct (ec_heap s !! _) as [e|]; [|done].
    simpl. destruct (inf_set e); [|done]. intros [= <-]. by apply (bounded_same s).
Qed.

Lemma reachable_bounded m ttl s : reachable m ttl s -> bounded s.
Proof.
  induction 1 as [|now a s s' _ IH Hs]; [|by eapply bounded_exec].
  constructor; simpl; [lia|lia|apply NoDup_nil_2].
Qed.

(** *** The flights *)

(** A step that leaves the flights alone. *)
Lemma flights_same s s' :
  ec_inflight s' = ec_inflight s -> ec_heap s' = ec_heap s -> ec_generation s' = ec_generation s ->
  ec_threads s' = ec_threads s -> flights s -> flights s'.
Proof. intros Hi Hh Hg Ht []. constructor; rewrite ?Hi, ?Hh, ?Hg, ?Ht; done. Qed.

(** A thread that owns nothing changes to a state that owns nothing. *)
Lemma flights_bystander s t p :
  flights s -> owner_of p = None ->
  (forall p0, ec_threads s !! t = Some p0 -> owner_of p0 = None) ->
  (forall k i, p = Waiting k i -> od_get k (ec_inflight s) = Some i) ->
  flights (set_thread t p s).
Proof.
  intros [F1 F2 F3 F4 F5 F6] Hp Hold Hw. constructor; simpl; [done|..].
  - intros k i Hki. destruct (F2 k i Hki) as (t0 & p0 & H1 & H2). exists t0, p0.
    rewrite lookup_insert_ne; [done|]. intros ->. apply Hold in H1. congruence.
  - intros t0 p0 k i. rewrite lookup_insert_Some. intros [[-> ->]|[_ H1]] H2; [congruence|by eapply F3].
  - intros t1 t2 p1 p2 k1 k2 i. rewrite !lookup_insert_Some.
    intros [[-> ->]|[_ H1]] [[-> ->]|[_ H2]] H3 H4; [done|congruence|congruence|by eapply F4].
  - intros t0 k i. rewrite lookup_insert_Some. intros [[<- E]|[_ H1]].
    + destruct (F2 k i (Hw k i E)) as (t1 & p1 & H1 & H2).
      eexists. split; [by eapply F3|]. right. exists t1, p1.
      rewrite lookup_insert_ne; [done|]. intros ->. apply Hold in H1. congruence.
    + destruct (F5 t0 k i H1) as (e & He & Hor). exists e. split; [done|].
      destruct Hor as [|(t1 & p1 & H2 & H3)]; [by left|]. right. exists t1, p1.
      rewrite lookup_insert_ne; [done|]. intros ->. apply Hold in H2. congruence.
  - intros t0 k i g. rewrite lookup_insert_Some. intros [[<- E]|[_ H1]]; [by subst p|by eapply F6].
Qed.

(** A new flight for a key that has none. *)
Lemma flights_new s t k :
  flights s -> od_get k (ec_inflight s) = None ->
  (forall p0, ec_threads s !! t = Some p0 -> owner_of p0 = None) ->
  flights (set_thread t (Fetching k (length (ec_heap s)) (ec_generation s))
    (set_inflight (od_set k (length (ec_heap s)) (ec_inflight s))
       (set_heap (ec_heap s ++ [mkInf false None None])%list s))).
Proof.
  intros [F1 F2 F3 F4 F5 F6] Hk Hold. set (n := length (ec_heap s)).
  assert (Hfresh : forall t0 p0 k0, ec_threads s !! t0 = Some p0 -> owner_of p0 = Some (k0, n) -> False).
  { intros t0 p0 k0 H1 H2. specialize (F3 _ _ _ _ H1 H2). apply lookup_lt_Some in F3. lia. }
  assert (Hne : forall t0 p0 k0 i0, ec_threads s !! t0 = Some p0 -> owner_of p0 = Some (k0, i0) -> t <> t0).
  { intros t0 p0 k0 i0 H1 H2 ->. apply Hold in H1. congruence. }
  constructor; simpl.
  - by apply od_wf_set.
  - intros k0 i. destruct (decide (k0 = k)) as [->|Hd].
    + rewrite od_get_set_eq. intros [= <-]. eexists t, _. by rewrite lookup_insert_eq.
    + rewrite od_get_set_ne by done. intros Hki. destruct (F2 k0 i Hki) as (t0 & p0 & H1 & H2).
      exists t0, p0. rewrite lookup_insert_ne by eauto. done.
  - intros t0 p0 k0 i. rewrite lookup_insert_Some. intros [[<- <-]|[_ H1]].
    + simpl. intros [= <- <-]. unfold n. by rewrite list_lookup_middle.
    + intros H2. apply lookup_app_l_Some. by eapply F3.
  - intros t1 t2 p1 p2 k1 k2 i. rewrite !lookup_insert_Some.
    intros [[<- <-]|[_ H1]] [[<- <-]|[_ H2]] H3 H4; [done| | |by eapply F4];
      simpl in *; simplify_eq; naive_solver.
  - intros t0 k0 i. rewrite lookup_insert_Some. intros [[<- E]|[_ H1]]; [done|].
    destruct (F5 t0 k0 i H1) as (e & He & Hor). exists e. split; [by apply lookup_app_l_Some|].
    destruct Hor as [|(t1 & p1 & H2 & H3)]; [by left|]. right. exists t1, p1.
    rewrite lookup_insert_ne by eauto. done.
  - intros t0 k0 i g. rewrite lookup_insert_Some. intros [[<- E]|[_ H1]].
    + simplify_eq. split; [lia|]. by rewrite od_get_set_eq.
    + destruct (F6 t0 k0 i g H1) as [H2 H3]. split; [done|]. intros Hg. specialize (H3 Hg).
      rewrite od_get_set_ne by congruence. done.
Qed.

(** The owner of a flight moves on; its entry is the only one that changes. *)
Lemma flights_owner_moves s t k i p r h :
  flights s -> ec_threads s !! t = Some p -> owner_of p = Some (k, i) ->
  h !! i = Some (entry_of (Finishing k i r)) -> (forall j, j <> i -> h !! j = ec_heap s !! j) ->
  flights (set_thread t (Finishing k i r) (set_heap h s)).
Proof.
  intros [F1 F2 F3 F4 F5 F6] Ht Hp Hi Hj.
  assert (Hown : forall t0 k0 i0, (exists p0, ec_threads s !! t0 = Some p0 /\ owner_of p0 = Some (k0, i0)) ->
    exists p0, <[t := Finishing k i r]> (ec_threads s) !! t0 = Some p0 /\ owner_of p0 = Some (k0, i0)).
  { intros t0 k0 i0 (p0 & H1 & H2). destruct (decide (t = t0)) as [<-|Hne].
    - eexists. rewrite lookup_insert_eq. split; [done|]. simpl. congruence.
    - eexists. rewrite lookup_insert_ne by done. done. }
  constructor; simpl; [done|..].
  - intros k0 i0 Hki. destruct (F2 k0 i0 Hki) as (t0 & p0 & H1 & H2).
    destruct (Hown t0 k0 i0) as (p1 & ? & ?); eauto.
  - intros t0 p0 k0 i0. rewrite lookup_insert_Some. intros [[<- <-]|[Hne H1]] H2; [by simplify_eq/=|].
    rewrite Hj; [by eapply F3|]. intros ->. destruct Hne. by eapply F4.
  - intros t1 t2 p1 p2 k1 k2 j. rewrite !lookup_insert_Some.
    intros [[<- <-]|[_ H1]] [[<- <-]|[_ H2]] H3 H4; simplify_eq/=;
      [done|by apply (F4 _ _ _ _ _ _ _ Ht H2 Hp H4)|by apply (F4 _ _ _ _ _ _ _ H1 Ht H3 Hp)|
       by apply (F4 _ _ _ _ _ _ _ H1 H2 H3 H4)].
  - intros t0 k0 i0. rewrite lookup_insert_Some. intros [[<- E]|[_ H1]]; [done|].
    destruct (F5 t0 k0 i0 H1) as (e & He & Hor). destruct (decide (i0 = i)) as [->|Hne].
    + eexists. split; [exact Hi|]. right. destruct Hor as [Hset|(t1 & p1 & H2)].
      * rewrite (F3 _ _ _ _ Ht Hp) in He. simplify_eq. by destruct p as [| |? ? []|].
      * destruct (Hown t1 k0 i) as (p2 & ? & ?); eauto.
    + exists e. rewrite Hj by done. split; [done|]. destruct Hor as [|(t1 & p1 & H2)]; [by left|].
      right. destruct (Hown t1 k0 i0) as (p2 & ? & ?); eauto.
  - intros t0 k0 i0 g. rewrite lookup_insert_Some. intros [[<- E]|[_ H1]]; [done|by eapply F6].
Qed.

(** The owner leaves: its entry is set and, if still registered, withdrawn. *)
Lemma flights_finish s t k i r :
  flights s -> ec_threads s !! t = Some (Finishing k i r) -> flights (do_finish t k i r s).
Proof.
  intros [F1 F2 F3 F4 F5 F6] Ht. unfold do_finish.
  set (infl := if bool_decide (od_get k (ec_inflight s) = Some i)
               then od_del k (ec_inflight s) else ec_inflight s).
  assert (Hget : forall k0 i0, od_get k0 infl = Some i0 -> od_get k0 (ec_inflight s) = Some i0 /\ i0 <> i).
  { intros k0 i0. unfold infl. case_bool_decide as Hb.
    - destruct (decide (k0 = k)) as [->|Hne]; [by rewrite od_get_del_eq|].
      rewrite od_get_del_ne by done. intros Hk0. split; [done|]. intros ->.
      destruct (F2 k0 i Hk0) as (t0 & p0 & H1 & H2).
      assert (t0 = t) as -> by (eapply F4; eauto). simplify_eq/=. 
    - intros Hk0. split; [done|]. intros ->. destruct (F2 k0 i Hk0) as (t0 & p0 & H1 & H2).
      assert (t0 = t) as -> by (eapply F4; eauto). by simplify_eq/=. }
  assert (Hkeep : forall k0 i0, od_get k0 (ec_inflight s) = Some i0 -> i0 <> i -> od_get k0 infl = Some i0).
  { intros k0 i0 H1 H2. unfold infl. case_bool_decide; [|done].
    rewrite od_get_del_ne; [done|]. intros ->. congruence. }
  set (s1 := if bool_decide _ then set_inflight _ s else s).
  assert (Hs1 : ec_inflight s1 = infl /\ ec_heap s1 = ec_heap s /\ ec_threads s1 = ec_threads s /\
                ec_generation s1 = ec_generation s).
  { unfold s1, infl. by case_bool_decide. }
  destruct Hs1 as (E1 & E2 & E3 & E4). pose proof (F3 _ _ _ _ Ht eq_refl) as Hentry.
  constructor; simpl; rewrite ?E1, ?E2, ?E3, ?E4.
  - unfold infl. case_bool_decide; [by apply od_wf_del|done].
  - intros k0 i0 Hki. apply Hget in Hki as [Hki Hne]. destruct (F2 k0 i0 Hki) as (t0 & p0 & H1 & H2).
    exists t0, p0. rewrite lookup_insert_ne; [done|]. intros ->. simplify_eq/=.
  - intros t0 p0 k0 i0. rewrite lookup_insert_Some. intros [[<- <-]|[Hne H1]] H2; [done|].
    rewrite list_lookup_alter_ne; [by eapply F3|]. intros ->. destruct Hne. by eapply F4.
  - intros t1 t2 p1 p2 k1 k2 j. rewrite !lookup_insert_Some.
    intros [[<- <-]|[_ H1]] [[<- <-]|[_ H2]] H3 H4; try done. by eapply F4.
  - intros t0 k0 i0. rewrite lookup_insert_Some. intros [[<- E]|[_ H1]]; [done|].
    destruct (F5 t0 k0 i0 H1) as (e & He & Hor). destruct (decide (i0 = i)) as [->|Hne].
    + rewrite list_lookup_alter_eq, Hentry. simpl. eexists. split; [done|]. by left.
    + rewrite list_lookup_alter_ne by done. exists e. split; [done|].
      destruct Hor as [|(t1 & p1 & H2 & H3)]; [by left|]. right. exists t1, p1.
      rewrite lookup_insert_ne; [done|]. intros ->. simplify_eq/=.
  - intros t0 k0 i0 g. rewrite lookup_insert_Some. intros [[<- E]|[Hne H1]]; [done|].
    destruct (F6 t0 k0 i0 g H1) as [H2 H3]. split; [done|]. intros Hg. apply Hkeep; [by apply H3|].
    intros ->. destruct Hne. by eapply (F4 _ _ _ _ _ _ _ Ht H1).
Qed.

Lemma flights_invalidate sid s : flights s -> flights (do_invalidate sid s).
Proof.
  intros [F1 F2 F3 F4 F5 F6]. constructor; simpl; try done.
  - exact (od_wf_filter_keys (fun k : key => k.1 <> sid) (ec_inflight s) F1).
  - intros k i Hki.
    pose proof (od_get_filter_keys (fun k : key => k.1 <> sid) k (ec_inflight s)) as Hf.
    pose proof (eq_trans (eq_sym Hf) Hki) as Hk. case_decide; [by apply F2|done].
  - intros t k i g H1. destruct (F6 t k i g H1). split; lia.
Qed.

Lemma flights_exec now a s s' : flights s -> exec now a s = Some s' -> flights s'.
Proof.
  intros Hf. destruct a as [k|k e|sid|t k|t r|t|t]; simpl.
  - intros [= <-]. unfold do_get. destruct (cache_get _ _ _). by apply (flights_same s).
  - intros [= <-]. by apply (flights_same s).
  - intros [= <-]. by apply flights_invalidate.
  - intros H. assert (Hold : forall p0, ec_threads s !! t = Some p0 -> owner_of p0 = None).
    { intros p0 Hp. rewrite Hp in H. by destruct p0. }
    assert (s' = do_start now t k s) as ->.
    { destruct (ec_threads s !! t) as [[]|]; by simplify_eq. }
    unfold do_start. destruct (cache_get now k (ec_cache s)) as [[e|] c].
    + apply flights_bystander; [by apply (flights_same s)|done|done|done].
    + simpl. destruct (od_get k (ec_inflight s)) as [i|] eqn:Hk.
      * apply flights_bystander; [by apply (flights_same s)|done|done|]. by intros ? ? [= <- <-].
      * apply (flights_new (set_cache c s)); [by apply (flights_same s)|done|done].
  - destruct (ec_threads s !! t) as [[]|] eqn:Ht; try done. intros [= <-]. unfold do_fetched.
    pose proof (f_entry s Hf _ _ _ _ Ht eq_refl) as He.
    destruct r as [e|x].
    + set (s1 := if ec_generation s =? gen_before then do_put now k e s else s).
      assert (ec_heap s1 = ec_heap s /\ ec_threads s1 = ec_threads s /\ flights s1) as (E1 & E2 & Hf1).
      { unfold s1. destruct (_ =? _); [|done]. split_and!; [done..|]. by apply (flights_same s). }
      unfold heap_upd. eapply (flights_owner_moves s1 t); [done|by rewrite E2|done|..].
      * rewrite list_lookup_alter_eq, E1, He. done.
      * intros j Hj. by rewrite list_lookup_alter_ne.
    + destruct (is_Exception x) eqn:Ex.
      * unfold heap_upd. eapply (flights_owner_moves s t); [done|done|done|..].
        -- rewrite list_lookup_alter_eq, He. simpl. by rewrite Ex.
        -- intros j Hj. by rewrite list_lookup_alter_ne.
      * eapply (flights_same (set_thread t (Finishing k inf (Raise x)) (set_heap (ec_heap s) s)));
          [done..|]. eapply (flights_owner_moves s t); [done|done|done| |done]. simpl. by rewrite Ex.
  - destruct (ec_threads s !! t) as [[]|] eqn:Ht; try done. intros [= <-]. by apply flights_finish.
  - destruct (ec_threads s !! t) as [[]|] eqn:Ht; try done. destruct (ec_heap s !! _) as [e|]; [|done].
    simpl. destruct (inf_set e); [|done]. intros [= <-]. apply flights_bystander; [done..| |done].
    intros p0 Hp. by rewrite Hp in Ht; simplify_eq.
Qed.

Lemma reachable_flights m ttl s : reachable m ttl s -> flights s.
Proof.
  induction 1 as [|now a s s' _ IH Hs]; [|by eapply flights_exec].
  constructor; simpl; [apply NoDup_nil_2|done|..]; intros; by rewrite lookup_empty in *.
Qed.

(** ** Theorems *)

Fixpoint run (l : list (Z * action)) (s : ECState) : option ECState :=
  match l with
  | [] => Some s
  | (now, a) :: l => s' ← exec now a s; run l s'
  end.

Lemma run_reachable l m ttl s s' : reachable m ttl s -> run l s = Some s' -> reachable m ttl s'.
Proof.
  revert s. induction l as [|[now a] l IH]; intros s Hs; simpl; [by intros [= <-]|].
  destruct (exec now a s) as [s1|] eqn:E; [|done]. simpl. apply IH. by eapply reach_step.
Qed.

Definition demo_key : key := ("sb-1", "8080").

(** Two threads ask for the same endpoint, the first one owns the fetch. *)
Definition demo_flight : option ECState :=
  run [(0, AStart 1 demo_key); (1, AStart 2 demo_key)] (init_cache 0 600).

Definition demo_flight_state : ECState := default (init_cache 0 600) demo_flight.

Lemma demo_flight_reachable : reachable 0 600 demo_flight_state.
Proof.
  apply (run_reachable [(0, AStart 1 demo_key); (1, AStart 2 demo_key)] 0 600 (init_cache 0 600)).
  - apply reach_init.
  - vm_compute. reflexivity.
Qed.

(** Whatever the threads do and in whatever order, the cache never holds
    more than [max(1, maxsize)] entries and never two for one key. *)
Theorem cache_bounded m ttl s :
  reachable m ttl s ->
  Z.of_nat (length (ec_cache s)) <= Z.max 1 m /\ NoDup (ec_cache s).*1.
Proof.
  intros Hr. assert (ec_maxsize s = Z.max 1 m) as <-.
  { induction Hr as [|now a s s' Hr IH Hs]; [done|]. rewrite <- IH. clear IH Hr.
    destruct a as [k|k e|sid|t k|t r|t|t]; simpl in Hs.
    - unfold do_get in Hs. destruct (cache_get _ _ _). by simplify_eq.
    - by simplify_eq.
    - by simplify_eq.
    - destruct (ec_threads s !! t) as [[]|]; simplify_eq; unfold do_start;
        destruct (cache_get _ _ _) as [[]]; simpl; try done; by destruct (od_get _ _).
    - destruct (ec_threads s !! t) as [[]|]; simplify_eq. unfold do_fetched.
      destruct r as [|x]; [by destruct (_ =? _)|by destruct (is_Exception x)].
    - destruct (ec_threads s !! t) as [[]|]; simplify_eq. unfold do_finish. by case_bool_decide.
    - destruct (ec_threads s !! t) as [[]|]; simplify_eq. destruct (ec_heap s !! _) as [e|]; [|done].
      simpl in Hs. by destruct (inf_set e); simplify_eq. }
  destruct (reachable_bounded m ttl s Hr) as [? ? ?]. done.
Qed.

Lemma cache_bounded_witness :
  Z.of_nat (length (ec_cache demo_flight_state)) <= Z.max 1 0 /\ NoDup (ec_cache demo_flight_state).*1.
Proof. apply (cache_bounded 0 600 demo_flight_state). exact demo_flight_reachable. Defined.

(** Single flight.  At any moment at most one thread fetches a key on
    behalf of callers that arrived since the last invalidation: two fetches
    running at once for the same key, both begun in the current generation,
    are the same thread's. *)
Theorem single_flight m ttl s t t' k i i' :
  reachable m ttl s ->
  ec_threads s !! t = Some (Fetching k i (ec_generation s)) ->
  ec_threads s !! t' = Some (Fetching k i' (ec_generation s)) -> t = t'.
Proof.
  intros Hr H1 H2. destruct (reachable_flights m ttl s Hr) as [_ _ _ F4 _ F6].
  destruct (F6 _ _ _ _ H1) as [_ G1]. destruct (F6 _ _ _ _ H2) as [_ G2].
  specialize (G1 eq_refl). specialize (G2 eq_refl). simplify_eq.
  by apply (F4 _ _ _ _ _ _ _ H1 H2 eq_refl eq_refl).
Qed.

Lemma single_flight_witness :
  ec_threads demo_flight_state !! 1%nat = Some (Fetching demo_key 0 (ec_generation demo_flight_state)) /\
  1%nat = 1%nat.
Proof.
  split; [vm_compute; reflexivity|].
  apply (single_flight 0 600 demo_flight_state 1 1 demo_key 0 0);
    [exact demo_flight_reachable|vm_compute; reflexivity..].
Defined.

(** Two runs of the loop body: the owner's fetch ends and its waiter wakes. *)
Definition landing (t t' : nat) (r : res exc string) : list (Z * action) :=
  [(0, AFetched t' r); (0, AFinish t'); (0, AWake t)].

(** No waiter is left behind.  A thread that waits on a flight whose event
    is set can return at once; otherwise the flight has an owner, and when the
    owner's fetch returns a value or raises an [Exception], the waiter returns
    that value or raises that exception. *)
Theorem waiter_served m ttl s t k i :
  reachable m ttl s -> ec_threads s !! t = Some (Waiting k i) ->
  (exists s', exec 0 (AWake t) s = Some s') \/
  (exists t' x s', ec_threads s !! t' = Some (Finishing k i x) /\
     run [(0, AFinish t'); (0, AWake t)] s = Some s') \/
  (exists t' g, ec_threads s !! t' = Some (Fetching k i g) /\
     forall r, match r with Ok _ => True | Raise x => is_Exception x = true end ->
     exists s', run (landing t t' r) s = Some s' /\
       ec_threads s' !! t = Some (Returned (match r with Ok e => Ok (Some e) | Raise x => Raise x end))).
Proof.
  intros Hr Hw. destruct (reachable_flights m ttl s Hr) as [_ _ F3 _ F5 _].
  destruct (F5 t k i Hw) as (e & He & [Hset|(t' & p & Hp & Ho)]).
  { left. simpl. rewrite Hw, He. simpl. rewrite Hset. by eauto. }
  assert (Hne : t <> t') by (intros ->; simplify_eq/=).
  pose proof (F3 _ _ _ _ Hp Ho) as Hentry. destruct p as [|k0 i0 g|k0 i0 x|]; simplify_eq/=; right.
  - right. exists t', g. split; [done|]. intros r Hx. unfold landing, run.
    cbn [exec]. rewrite Hp. cbn [mbind option_bind].
    assert (Hland : forall s1 r', ec_threads s1 !! t = Some (Waiting k i) ->
      ec_heap s1 !! i = Some (entry_of (Finishing k i r')) ->
      match r' with Ok _ => True | Raise x => is_Exception x = true end ->
      exists s2, (s0 ← exec 0 (AWake t) (do_finish t' k i r' (set_thread t' (Finishing k i r') s1)); Some s0)
        = Some s2 /\ ec_threads s2 !! t = Some (Returned r')).
    { intros s1 r' H1 H2 H3. unfold do_finish. set (s2 := if bool_decide _ then _ else _).
      assert (ec_threads s2 = <[t' := Finishing k i r']> (ec_threads s1) /\ ec_heap s2 = ec_heap s1)
        as [E1 E2] by (unfold s2; by case_bool_decide).
      simpl. rewrite lookup_insert_ne by done. rewrite E1, E2, lookup_insert_ne, H1 by done. simpl.
      rewrite list_lookup_alter_eq, H2. simpl. eexists. split; [done|]. simpl.
      rewrite lookup_insert_eq. unfold wake_result. destruct r' as [v|x]; simpl; [done|]. by rewrite H3. }
    unfold do_fetched. destruct r as [v|x].
    + cbn [exec set_thread ec_threads]. rewrite lookup_insert_eq. cbn [mbind option_bind].
      apply (Hland _ (Ok (Some v))); [| |done].
      * by destruct (_ =? _).
      * unfold heap_upd. simpl. rewrite list_lookup_alter_eq. destruct (_ =? _); simpl; by rewrite He.
    + rewrite Hx. cbn [exec set_thread ec_threads]. rewrite lookup_insert_eq. cbn [mbind option_bind].
      apply (Hland _ (Raise x)); [done| |done]. unfold heap_upd. simpl.
      rewrite list_lookup_alter_eq, He. simpl. by rewrite Hx.
  - left. exists t', x. unfold run. cbn [exec]. rewrite Hp. cbn [mbind option_bind].
    unfold do_finish. set (s2 := if bool_decide _ then _ else _).
    assert (ec_threads s2 = ec_threads s /\ ec_heap s2 = ec_heap s)
      as [E1 E2] by (unfold s2; by case_bool_decide).
    simpl. rewrite lookup_insert_ne by done. rewrite E1, E2, Hw. simpl.
    rewrite list_lookup_alter_eq, He. simpl. by eauto.
Qed.

Lemma waiter_served_witness :
  ec_threads demo_flight_state !! 2%nat = Some (Waiting demo_key 0) /\
  ((exists s', exec 0 (AWake 2) demo_flight_state = Some s') \/
   (exists t' x s', ec_threads demo_flight_state !! t' = Some (Finishing demo_key 0 x) /\
      run [(0, AFinish t'); (0, AWake 2)] demo_flight_state = Some s') \/
   (exists t' g, ec_threads demo_flight_state !! t' = Some (Fetching demo_key 0 g) /\
      forall r, match r with Ok _ => True | Raise x => is_Exception x = true end ->
      exists s', run (landing 2 t' r) demo_flight_state = Some s' /\
        ec_threads s' !! 2%nat =
          Some (Returned (match r with Ok e => Ok (Some e) | Raise x => Raise x end)))).
Proof.
  split; [vm_compute; reflexivity|].
  apply (waiter_served 0 600 demo_flight_state 2 demo_key 0);
    [exact demo_flight_reachable|vm_compute; reflexivity].
Defined.

(** A fetch that ends with an exception outside [Exception] sets the event but
    neither the result nor the error: the waiter returns [None]. *)
Lemma interrupted_owner_returns_none :
  exists s', run (landing 2 1 (Raise (NonException "KeyboardInterrupt"))) demo_flight_state = Some s' /\
    ec_threads s' !! 2%nat = Some (Returned (Ok None)).
Proof. eexists. split; [vm_compute; reflexivity|]. vm_compute. reflexivity. Qed.

(** The generation of a fetch that was running at an invalidation stays behind. *)
Lemma exec_generation now a s s' : exec now a s = Some s' -> ec_generation s <= ec_generation s'.
Proof.
  destruct a as [k|k e|sid|t k|t r|t|t]; simpl.
  - intros [= <-]. unfold do_get. by destruct (cache_get _ _ _).
  - by intros [= <-].
  - intros [= <-]. simpl. lia.
  - destruct (ec_threads s !! t) as [[]|]; try done; intros [= <-]; unfold do_start;
      destruct (cache_get _ _ _) as [[]]; simpl; try done; by destruct (od_get _ _).
  - destruct (ec_threads s !! t) as [[]|]; try done. intros [= <-]. unfold do_fetched.
    destruct r as [|x]; [by destruct (_ =? _)|by destruct (is_Exception x)].
  - destruct (ec_threads s !! t) as [[]|]; try done. intros [= <-]. unfold do_finish.
    by case_bool_decide.
  - destruct (ec_threads s !! t) as [[]|]; try done. destruct (ec_heap s !! _) as [e|]; [|done].
    simpl. destruct (inf_set e); [|done]. by intros [= <-].
Qed.

Lemma run_generation l s s' : run l s = Some s' -> ec_generation s <= ec_generation s'.
Proof.
  revert s. induction l as [|[now a] l IH]; intros s; simpl; [by intros [= <-]|].
  destruct (exec now a s) as [s1|] eqn:E; [|done]. simpl. intros H%IH.
  apply exec_generation in E. lia.
Qed.

(** A fetch that was running when its sandbox's endpoints were invalidated
    never fills the cache, however late it ends and whatever happened in
    between; and an invalidation leaves no entry and no flight of that sandbox. *)
Theorem invalidated_fetch_not_cached m ttl s sid l s' t k i g now r :
  reachable m ttl s -> ec_threads s !! t = Some (Fetching k i g) ->
  run l (do_invalidate sid s) = Some s' -> ec_threads s' !! t = Some (Fetching k i g) ->
  (forall k', k'.1 = sid -> od_get k' (ec_cache (do_invalidate sid s)) = None /\
                            od_get k' (ec_inflight (do_invalidate sid s)) = None) /\
  exists s2, exec now (AFetched t r) s' = Some s2 /\ ec_cache s2 = ec_cache s'.
Proof.
  intros Hr Ht Hrun Ht'. destruct (reachable_flights m ttl s Hr) as [_ _ _ _ _ F6].
  destruct (F6 _ _ _ _ Ht) as [Hg _]. apply run_generation in Hrun. simpl in Hrun. split.
  - intros k' Hk'.
    pose proof (od_get_filter_keys (fun k : key => k.1 <> sid) k' (ec_cache s)) as H1.
    pose proof (od_get_filter_keys (fun k : key => k.1 <> sid) k' (ec_inflight s)) as H2.
    rewrite decide_False in H1 by naive_solver. rewrite decide_False in H2 by naive_solver. done.
  - simpl. rewrite Ht'. eexists. split; [done|]. unfold do_fetched. destruct r as [e|x].
    + destruct (Z.eqb_spec (ec_generation s') g); [lia|]. done.
    + by destruct (is_Exception x).
Qed.

Definition demo_late_state : ECState :=
  default (init_cache 0 600) (run [(2, AStart 3 demo_key)] (do_invalidate "sb-1" demo_flight_state)).

Lemma invalidated_fetch_witness :
  (forall k', k'.1 = "sb-1" -> od_get k' (ec_cache (do_invalidate "sb-1" demo_flight_state)) = None /\
     od_get k' (ec_inflight (do_invalidate "sb-1" demo_flight_state)) = None) /\
  exists s2, exec 5 (AFetched 1 (Ok "10.0.0.1:8080")) demo_late_state = Some s2 /\
    ec_cache s2 = ec_cache demo_late_state.
Proof.
  apply (invalidated_fetch_not_cached 0 600 demo_flight_state "sb-1" [(2, AStart 3 demo_key)]
    demo_late_state 1 demo_key 0 0 5 (Ok "10.0.0.1:8080"));
    [exact demo_flight_reachable|vm_compute; reflexivity..].
Defined.

(** A stored endpoint is found until its TTL has passed and not after; it
    becomes the last to be evicted, and storing a new key evicts from the least
    recently used end. *)
Theorem put_get_ttl m ttl s k e now now' :
  reachable m ttl s ->
  let s1 := do_put now k e s in
  (do_get now' k s1).1 = (if now' <? now + ec_ttl s then Some e else None) /\
  last (ec_cache s1) = Some (k, (e, now + ec_ttl s)) /\
  (od_get k (ec_cache s) = None -> exists old, ec_cache s = (old ++ removelast (ec_cache s1))%list).
Proof.
  intros Hr s1. destruct (reachable_bounded m ttl s Hr) as [H1 H2 H3].
  destruct (put_locked_spec (ec_maxsize s) (ec_ttl s) now k e _ H1 H3 H2) as (_ & _ & Hget & _).
  assert (Hset : exists c, ec_cache s1 = (c ++ [(k, (e, now + ec_ttl s))])%list /\
    (od_get k (ec_cache s) = None -> c `suffix_of` ec_cache s)).
  { unfold s1, do_put. simpl. unfold put_locked. destruct (od_mem k (ec_cache s)) eqn:Em.
    - apply od_mem_spec in Em as [v Hv]. unfold move_to_end. rewrite Hv.
      exists (od_del k (ec_cache s)). rewrite od_set_app_last by apply od_get_del_eq.
      split; [done|congruence].
    - destruct (evict_spec (ec_maxsize s) (ec_cache s) H1 H3) as (_ & _ & Hsuf).
      apply od_mem_false in Em. exists (evict (ec_maxsize s) (ec_cache s)).
      rewrite od_set_new; [done|]. apply od_get_None. intros Hin. apply od_get_None in Em.
      destruct Em, Hsuf as [pre ->]. rewrite fmap_app. set_solver. }
  destruct Hset as (c & Hc & Hsuf). split_and!.
  - unfold do_get, cache_get. unfold s1, do_put. simpl. rewrite Hget.
    destruct (Z.ltb_spec now' (now + ec_ttl s)), (Z.leb_spec (now + ec_ttl s) now'); (done || lia).
  - by rewrite Hc, last_snoc.
  - intros Hn. destruct (Hsuf Hn) as [old Hold]. exists old. by rewrite Hc, removelast_last.
Qed.

Lemma put_get_ttl_witness :
  let s1 := do_put 7 demo_key "10.0.0.1:8080" demo_flight_state in
  (do_get 606 demo_key s1).1 = (if 606 <? 7 + 600 then Some "10.0.0.1:8080" else None) /\
  last (ec_cache s1) = Some (demo_key, ("10.0.0.1:8080", 7 + 600)) /\
  (od_get demo_key (ec_cache demo_flight_state) = None ->
     exists old, ec_cache demo_flight_state = (old ++ removelast (ec_cache s1))%list).
Proof.
  apply (put_get_ttl 0 600 demo_flight_state demo_key "10.0.0.1:8080" 7 606).
  exact demo_flight_reachable.
Defined.
