(* ===== verification/AsyncEndpoint.v ===== *)
(** * Endpoint cache, asynchronous variant

    [AsyncEndpointCache] of [adapters/endpoint_cache.py], on one event loop: a
    step of a task runs from one [await] to the next.  It refines the
    thread-safe cache of [EndpointCache], whose functions on the ordered dict
    its methods repeat, as long as fetches raise ordinary exceptions. *)

From Stdlib Require Import ZArith Lia String.
From stdpp Require Import base numbers strings gmap list.
From S2P Require Import Prelude PoolTypes EndpointCache.

Open Scope string_scope.
Open Scope Z_scope.

(** ** State *)

(** [asyncio.CancelledError], no subclass of [Exception] *)
Definition cancelled_error : exc := NonException "CancelledError".

(** [asyncio.Future[SandboxEndpoint]]; [None] is pending. *)
Definition future : Type := option (res exc string).

(** Where a task stands in [get_or_fetch]. *)
Inductive task :=
  | TWaiting (k : key) (fut : nat)
  | TFetching (k : key) (fut : nat) (gen_before : Z)
  | TReturned (r : res exc string).

Record AsyncEndpointCache := mkAEC {
  ae_maxsize : Z;
  ae_ttl : Z;
  ae_cache : list (key * entry);
  ae_inflight : list (key * nat);
  ae_futures : list future;
  ae_generation : Z;
  ae_tasks : gmap nat task;
}.

Definition aio_init_cache (maxsize ttl : Z) : AsyncEndpointCache := mkAEC (Z.max 1 maxsize) ttl [] [] [] 0 ∅.

Definition aio_set_cache (c : list (key * entry)) (s : AsyncEndpointCache) : AsyncEndpointCache :=
  mkAEC (ae_maxsize s) (ae_ttl s) c (ae_inflight s) (ae_futures s) (ae_generation s) (ae_tasks s).

Definition aio_set_task (t : nat) (p : task) (s : AsyncEndpointCache) : AsyncEndpointCache :=
  mkAEC (ae_maxsize s) (ae_ttl s) (ae_cache s) (ae_inflight s) (ae_futures s) (ae_generation s) (<[t := p]> (ae_tasks s)).

(** ** Operations *)

Definition aio_get (now : Z) (k : key) (s : AsyncEndpointCache) : option string * AsyncEndpointCache :=
  match od_get k (ae_cache s) with
  | None => (None, s)
  | Some (endpoint, expires_at) =>
      if expires_at <=? now then (None, aio_set_cache (od_del k (ae_cache s)) s)
      else (Some endpoint, aio_set_cache (move_to_end k (ae_cache s)) s)
  end.

Definition aio_put (now : Z) (k : key) (e : string) (s : AsyncEndpointCache) : AsyncEndpointCache :=
  aio_set_cache
    (if od_mem k (ae_cache s) then od_set k (e, now + ae_ttl s) (move_to_end k (ae_cache s))
     else od_set k (e, now + ae_ttl s) (evict (ae_maxsize s) (ae_cache s))) s.

Definition aio_invalidate (sandbox_id : string) (s : AsyncEndpointCache) : AsyncEndpointCache :=
  mkAEC (ae_maxsize s) (ae_ttl s) (filter (fun kv => kv.1.1 <> sandbox_id) (ae_cache s))
    (filter (fun kv => kv.1.1 <> sandbox_id) (ae_inflight s)) (ae_futures s) (ae_generation s + 1) (ae_tasks s).

(** [get_or_fetch] up to its first [await]. *)
Definition aio_start (now : Z) (t : nat) (k : key) (s : AsyncEndpointCache) : AsyncEndpointCache :=
  match aio_get now k s with
  | (Some cached, s) => aio_set_task t (TReturned (Ok cached)) s
  | (None, s) =>
      match od_get k (ae_inflight s) with
      | Some f => aio_set_task t (TWaiting k f) s
      | None =>
          let f := length (ae_futures s) in
          aio_set_task t (TFetching k f (ae_generation s))
            (mkAEC (ae_maxsize s) (ae_ttl s) (ae_cache s) (od_set k f (ae_inflight s)) (ae_futures s ++ [None])%list
               (ae_generation s) (ae_tasks s))
      end
  end.

(** The rest of it, once [fetch()] has ended: the future is completed, whatever
    was raised, and the [finally] block has run. *)
Definition aio_fetched (now : Z) (t : nat) (k : key) (f : nat) (gen_before : Z) (r : res exc string)
    (s : AsyncEndpointCache) : AsyncEndpointCache :=
  let s := match r with
           | Ok endpoint => if ae_generation s =? gen_before then aio_put now k endpoint s else s
           | Raise _ => s
           end in
  let inflight := if bool_decide (od_get k (ae_inflight s) = Some f) then od_del k (ae_inflight s) else ae_inflight s in
  aio_set_task t (TReturned r)
    (mkAEC (ae_maxsize s) (ae_ttl s) (ae_cache s) inflight (alter (fun _ => Some r) f (ae_futures s)) (ae_generation s) (ae_tasks s)).

Inductive aio_action :=
  | BGet (k : key)
  | BPut (k : key) (e : string)
  | BInvalidate (sandbox_id : string)
  | BStart (t : nat) (k : key)
  | BFetched (t : nat) (r : res exc string)
  | BWake (t : nat)          (** the future a task awaits is done *)
  | BCancel (t : nat).       (** a waiting task is cancelled; the future is shielded *)

(** Every call is a task of its own. *)
Definition aio_exec (now : Z) (a : aio_action) (s : AsyncEndpointCache) : option AsyncEndpointCache :=
  match a with
  | BGet k => Some (aio_get now k s).2
  | BPut k e => Some (aio_put now k e s)
  | BInvalidate sandbox_id => Some (aio_invalidate sandbox_id s)
  | BStart t k => match ae_tasks s !! t with None => Some (aio_start now t k s) | Some _ => None end
  | BFetched t r =>
      match ae_tasks s !! t with
      | Some (TFetching k f gen) => Some (aio_fetched now t k f gen r s)
      | _ => None
      end
  | BWake t =>
      match ae_tasks s !! t with
      | Some (TWaiting k f) =>
          match ae_futures s !! f with Some (Some r) => Some (aio_set_task t (TReturned r) s) | _ => None end
      | _ => None
      end
  | BCancel t =>
      match ae_tasks s !! t with
      | Some (TWaiting k f) => Some (aio_set_task t (TReturned (Raise cancelled_error)) s)
      | _ => None
      end
  end.

Fixpoint aio_run (h : list (Z * aio_action)) (s : AsyncEndpointCache) : option AsyncEndpointCache :=
  match h with
  | [] => Some s
  | (now, a) :: h => s' ← aio_exec now a s; aio_run h s'
  end.

(** ** Refinement *)

(** The steps of the thread-safe cache a step stands for. *)
Definition as_sync (na : Z * aio_action) : list (Z * action) :=
  let '(now, a) := na in
  match a with
  | BGet k => [(now, AGet k)]
  | BPut k e => [(now, APut k e)]
  | BInvalidate sandbox_id => [(now, AInvalidate sandbox_id)]
  | BStart t k => [(now, AStart t k)]
  | BFetched t r => [(now, AFetched t r); (now, AFinish t)]
  | BWake t => [(now, AWake t)]
  | BCancel _ => []
  end.

Definition ordinary (na : Z * aio_action) : bool :=
  match na.2 with BFetched _ (Raise x) => is_Exception x | _ => true end.

Definition as_entry (f : future) : InflightEntry :=
  match f with
  | None => mkInf false None None
  | Some (Ok e) => mkInf true (Some e) None
  | Some (Raise x) => mkInf true None (Some x)
  end.

Definition as_result (r : res exc string) : res exc (option string) :=
  match r with Ok e => Ok (Some e) | Raise x => Raise x end.

(** A cancelled task stands for a thread that waits on. *)
Definition same_place (p : option task) (q : option pc) : Prop :=
  match p, q with
  | None, None => True
  | Some (TWaiting k f), Some (Waiting k' f') => k' = k /\ f' = f
  | Some (TFetching k f g), Some (Fetching k' f' g') => k' = k /\ f' = f /\ g' = g
  | Some (TReturned r), Some (Returned r') => r' = as_result r
  | Some (TReturned r), Some (Waiting _ _) => r = Raise cancelled_error
  | _, _ => False
  end.

Record sim (a : AsyncEndpointCache) (s : ECState) : Prop := {
  sm_maxsize : ec_maxsize s = ae_maxsize a;
  sm_ttl : ec_ttl s = ae_ttl a;
  sm_cache : ec_cache s = ae_cache a;
  sm_inflight : ec_inflight s = ae_inflight a;
  sm_heap : ec_heap s = map as_entry (ae_futures a);
  sm_generation : ec_generation s = ae_generation a;
  sm_tasks : forall t, same_place (ae_tasks a !! t) (ec_threads s !! t);
}.

Lemma aio_get_cache now k a : aio_get now k a = ((cache_get now k (ae_cache a)).1, aio_set_cache (cache_get now k (ae_cache a)).2 a).
Proof. unfold aio_get, cache_get. destruct (od_get k (ae_cache a)) as [[e x]|]; [|by destruct a]. by destruct (x <=? now). Qed.

Lemma same_insert a s t p q :
  (forall u, same_place (ae_tasks a !! u) (ec_threads s !! u)) -> same_place (Some p) (Some q) ->
  forall u, same_place (<[t := p]> (ae_tasks a) !! u) (<[t := q]> (ec_threads s) !! u).
Proof.
  intros H Hp u. destruct (decide (u = t)) as [->|]; [by rewrite !lookup_insert_eq|by rewrite !lookup_insert_ne].
Qed.

Lemma sim_start now t k a s : sim a s -> sim (aio_start now t k a) (do_start now t k s).
Proof.
  intros [H1 H2 H3 H4 H5 H6 H7]. unfold aio_start, do_start. rewrite aio_get_cache, H3.
  destruct (cache_get now k (ae_cache a)) as [[e|] c]; simpl.
  - split; simpl; try done. by apply same_insert.
  - rewrite H4. destruct (od_get k (ae_inflight a)) as [f|].
    + split; simpl; try done. by apply same_insert.
    + split; simpl; rewrite ?H5, ?length_map, ?map_app; try done. rewrite H6. by apply same_insert.
Qed.

Lemma pending_entry f : as_entry f = mkInf false None None -> f = None.
Proof. by destruct f as [[]|]. Qed.

(** The two locked sections after the fetch, in one. *)
Lemma sim_fetched now t k f g r a s :
  sim a s -> flights s -> ec_threads s !! t = Some (Fetching k f g) -> match r with Raise x => is_Exception x | Ok _ => true end = true ->
  sim (aio_fetched now t k f g r a) (do_finish t k f (as_result r) (do_fetched now t k f g r s)).
Proof.
  intros [H1 H2 H3 H4 H5 H6 H7] Hf Ht Hr.
  assert (ec_heap s !! f = Some (mkInf false None None)) as Hh by by apply (f_entry _ Hf _ _ k f Ht).
  rewrite H5, list_lookup_fmap in Hh. apply fmap_Some in Hh as (fu & Hfu & Eq). symmetry in Eq. apply pending_entry in Eq as ->.
  assert (forall l : list future, @lookup nat future _ _ f l = Some None -> forall g1 : InflightEntry -> InflightEntry, g1 (mkInf false None None) = as_entry (Some r) ->
    alter g1 f (map as_entry l) = map as_entry (alter (fun _ => Some r) f l)) as Halter.
  { intros l Hl g1 Hg. apply list_eq. intros i. change (map as_entry) with (fmap (M := list) as_entry). rewrite list_lookup_fmap.
    destruct (decide (i = f)) as [->|].
    - rewrite !list_lookup_alter_eq, list_lookup_fmap, Hl. simpl. by rewrite Hg.
    - by rewrite !list_lookup_alter_ne, list_lookup_fmap by done. }
  destruct r as [e|x]; simpl in *; [|rewrite Hr].
  - unfold do_finish, do_fetched, aio_fetched, heap_upd, do_put, put_locked, aio_put. rewrite H6.
    destruct (ae_generation a =? g); simpl; rewrite ?H4; destruct (bool_decide (od_get k (ae_inflight a) = Some f));
      split; simpl; rewrite ?H1, ?H2, ?H3, ?H4, ?H5; try done; try (rewrite list_alter_alter_eq; by apply Halter);
      try (intros u; rewrite insert_insert_eq; by apply same_insert).
  - unfold do_finish, do_fetched, aio_fetched, heap_upd. simpl. rewrite H4. destruct (bool_decide (od_get k (ae_inflight a) = Some f));
      split; simpl; rewrite ?H4, ?H5; try done; try (rewrite list_alter_alter_eq; by apply Halter);
      try (intros u; rewrite insert_insert_eq; by apply same_insert).
Qed.

Lemma sim_step now b a a' s :
  sim a s -> flights s -> ordinary (now, b) = true -> aio_exec now b a = Some a' ->
  exists s', run (as_sync (now, b)) s = Some s' /\ sim a' s'.
Proof.
  intros Hs Hf Ho Hx. pose proof Hs as [H1 H2 H3 H4 H5 H6 H7]. destruct b as [k|k e|sid|t k|t r|t|t]; simpl in Hx.
  - eexists. split; [reflexivity|]. simplify_eq. rewrite aio_get_cache. unfold do_get. simpl. rewrite H3.
    destruct (cache_get now k (ae_cache a)). by split.
  - eexists. split; [reflexivity|]. simplify_eq. unfold do_put, put_locked. rewrite H1, H2, H3. by split.
  - eexists. split; [reflexivity|]. simplify_eq. split; simpl; rewrite ?H3, ?H4, ?H6; done.
  - pose proof (H7 t) as Ht. destruct (ae_tasks a !! t) as [p|]; simplify_eq. unfold same_place in Ht. simpl.
    destruct (ec_threads s !! t) as [q|]; [done|]. eexists. split; [reflexivity|]. by apply sim_start.
  - pose proof (H7 t) as Ht. destruct (ae_tasks a !! t) as [[k f|k f g|r']|]; simplify_eq. unfold same_place in Ht.
    destruct (ec_threads s !! t) as [[k' f'|k' f' g'|k' f' r'|r']|] eqn:Et; try done. destruct Ht as (-> & -> & ->).
    eexists. split; [|by eapply sim_fetched]. simpl. rewrite Et. simpl.
    unfold do_fetched. destruct r as [e|x]; simpl; by rewrite lookup_insert_eq.
  - pose proof (H7 t) as Ht. destruct (ae_tasks a !! t) as [[k f|k f g|r']|]; try done. unfold same_place in Ht.
    destruct (ae_futures a !! f) as [[r|]|] eqn:Ef; simplify_eq.
    destruct (ec_threads s !! t) as [[k' f'|k' f' g'|k' f' r'|r']|] eqn:Et; try done. destruct Ht as (-> & ->).
    assert (ec_heap s !! f = Some (as_entry (Some r))) as Eh by (rewrite H5, list_lookup_fmap; exact (f_equal (fmap as_entry) Ef)).
    exists (set_thread t (Returned (as_result r)) s). split; [|split; simpl; try done; by apply same_insert].
    simpl. rewrite Et. cbn. rewrite Eh. by destruct r.
  - pose proof (H7 t) as Ht. destruct (ae_tasks a !! t) as [[k f|k f g|r']|]; simplify_eq. unfold same_place in Ht.
    destruct (ec_threads s !! t) as [[k' f'|k' f' g'|k' f' r'|r']|] eqn:Et; try done.
    exists s. split; [done|]. split; simpl; try done. intros u. destruct (decide (u = t)) as [->|].
    + by rewrite lookup_insert_eq, Et.
    + rewrite lookup_insert_ne by done. apply H7.
Qed.

Lemma run_app l l' s : EndpointCache.run (l ++ l') s = (EndpointCache.run l s ≫= EndpointCache.run l').
Proof. revert s. induction l as [|[now a] l IH]; intros s; [done|]. simpl. destruct (exec now a s); [apply IH|done]. Qed.

Lemma sim_run h a a' m ttl s :
  sim a s -> reachable m ttl s -> forallb ordinary h = true -> aio_run h a = Some a' ->
  exists s', EndpointCache.run (flat_map as_sync h) s = Some s' /\ sim a' s'.
Proof.
  revert a s. induction h as [|[now b] h IH]; intros a s Hs Hr Ho; simpl in *; [intros [= <-]; eauto|].
  apply andb_prop in Ho as [Ho1 Ho2]. intros (a1 & H1 & H2)%bind_Some.
  destruct (sim_step now b a a1 s Hs (reachable_flights _ _ _ Hr) Ho1 H1) as (s1 & E1 & Hs1).
  destruct (IH a1 s1 Hs1 (run_reachable _ _ _ _ _ Hr E1) Ho2 H2) as (s' & E2 & Hs'). exists s'. split; [|done].
  change (EndpointCache.run (as_sync (now, b) ++ flat_map as_sync h) s = Some s'). rewrite run_app, E1. exact E2.
Qed.


Definition aio_history : list (Z * aio_action) :=
  [(0, BStart 1 demo_key); (1, BStart 2 demo_key); (1, BStart 3 demo_key); (2, BCancel 3); (3, BFetched 1 (Ok "host:80")); (4, BWake 2)].


(** When the task that fetches is cancelled, its [CancelledError] goes into the
    shared future, and tasks that nobody cancelled end with it. *)
Example cancelled_owner_cancels_waiters :
  option_map (fun a => ae_tasks a !! 2%nat)
    (aio_run [(0, BStart 1 demo_key); (1, BStart 2 demo_key); (2, BFetched 1 (Raise cancelled_error)); (3, BWake 2)] (aio_init_cache 4 600))
  = Some (Some (TReturned (Raise cancelled_error))).
Proof. vm_compute. reflexivity. Qed.
