(* ===== verification/Regex.v ===== *)
(** * Regular expressions

    The part of Python's [re] the server's patterns use: character classes,
    concatenation, alternation, options and stars.  Matching is by derivatives,
    proved equal to the usual denotation.  [re.compile("^...$").match] also
    accepts a subject with one trailing newline, which [$] matches before. *)

From Stdlib Require Import ZArith Lia Ascii String.
From stdpp Require Import base numbers strings list.
From S2P Require Import Prelude PyString.

Open Scope string_scope.

Inductive regex :=
  | RNone
  | REps
  | RSet (p : ascii -> bool)
  | RSeq (r1 r2 : regex)
  | RAlt (r1 r2 : regex)
  | RStar (r : regex).

(** [(r)?] *)
Definition ROpt (r : regex) : regex := RAlt REps r.
Definition RChar (c : ascii) : regex := RSet (fun d => bool_decide (d = c)).

(** The denotation. *)
Inductive matches : regex -> list ascii -> Prop :=
  | MEps : matches REps []
  | MSet p c : p c = true -> matches (RSet p) [c]
  | MSeq r1 r2 l1 l2 : matches r1 l1 -> matches r2 l2 -> matches (RSeq r1 r2) (l1 ++ l2)
  | MAltL r1 r2 l : matches r1 l -> matches (RAlt r1 r2) l
  | MAltR r1 r2 l : matches r2 l -> matches (RAlt r1 r2) l
  | MStarNil r : matches (RStar r) []
  | MStarCons r l1 l2 : matches r l1 -> matches (RStar r) l2 -> matches (RStar r) (l1 ++ l2).
#[export] Hint Constructors matches : osb.

Fixpoint nullable (r : regex) : bool :=
  match r with
  | RNone | RSet _ => false
  | REps | RStar _ => true
  | RSeq r1 r2 => nullable r1 && nullable r2
  | RAlt r1 r2 => nullable r1 || nullable r2
  end.

Fixpoint deriv (c : ascii) (r : regex) : regex :=
  match r with
  | RNone | REps => RNone
  | RSet p => if p c then REps else RNone
  | RSeq r1 r2 =>
      if nullable r1 then RAlt (RSeq (deriv c r1) r2) (deriv c r2) else RSeq (deriv c r1) r2
  | RAlt r1 r2 => RAlt (deriv c r1) (deriv c r2)
  | RStar r => RSeq (deriv c r) (RStar r)
  end.

Fixpoint fullmatch (r : regex) (l : list ascii) : bool :=
  match l with
  | [] => nullable r
  | c :: l => fullmatch (deriv c r) l
  end.

Lemma matches_seq_inv r1 r2 l :
  matches (RSeq r1 r2) l -> exists l1 l2, l = (l1 ++ l2)%list /\ matches r1 l1 /\ matches r2 l2.
Proof. inversion 1; subst; by eauto. Qed.

Lemma nullable_spec r : nullable r = true <-> matches r [].
Proof.
  induction r as [| |p|r1 IH1 r2 IH2|r1 IH1 r2 IH2|r IH]; simpl.
  - split; [done|]. inversion 1.
  - split; [constructor|done].
  - split; [done|]. inversion 1.
  - rewrite andb_true_iff, IH1, IH2. split.
    + intros [H1 H2]. by apply (MSeq _ _ [] []).
    + intros (l1 & l2 & E & H1 & H2)%matches_seq_inv. symmetry in E.
      apply app_nil in E as [-> ->]. done.
  - rewrite orb_true_iff, IH1, IH2. split.
    + intros [H|H]; [by apply MAltL|by apply MAltR].
    + inversion 1; auto.
  - split; [constructor|done].
Qed.

Lemma matches_star_cons_inv r c l :
  matches (RStar r) (c :: l) ->
  exists l1 l2, l = (l1 ++ l2)%list /\ matches r (c :: l1) /\ matches (RStar r) l2.
Proof.
  intros H. remember (RStar r) as r0 eqn:Er. remember (c :: l) as l0 eqn:El. revert El.
  induction H as [|p x|? ? ? ? ? ? ? ?|? ? ? ? ?|? ? ? ? ?|r'|r' l1 l2 H1 _ H2 IH2]; intros E; try done.
  injection Er as ->. destruct l1 as [|x l1]; [by apply IH2|]. simplify_eq/=. by eauto.
Qed.

Lemma deriv_spec c r : forall l, matches (deriv c r) l <-> matches r (c :: l).
Proof.
  induction r as [| |p|r1 IH1 r2 IH2|r1 IH1 r2 IH2|r IH]; intros l; simpl.
  - split; inversion 1.
  - split; inversion 1.
  - destruct (p c) eqn:Hp; split; inversion 1; subst; try congruence; by constructor.
  - assert (Hseq : matches (RSeq (deriv c r1) r2) l <->
      exists l1 l2, l = (l1 ++ l2)%list /\ matches r1 (c :: l1) /\ matches r2 l2).
    { split.
      - intros (l1 & l2 & -> & H1 & H2)%matches_seq_inv. apply IH1 in H1. by eauto.
      - intros (l1 & l2 & -> & H1 & H2). apply IH1 in H1. by constructor. }
    assert (Hcons : matches (RSeq r1 r2) (c :: l) <->
      (exists l1 l2, l = (l1 ++ l2)%list /\ matches r1 (c :: l1) /\ matches r2 l2) \/
      (matches r1 [] /\ matches r2 (c :: l))).
    { split.
      - intros ([|x l1] & l2 & E & H1 & H2)%matches_seq_inv; simplify_eq/=; [by auto|].
        left. by eauto.
      - intros [(l1 & l2 & -> & H1 & H2)|[H1 H2]]; [|by apply (MSeq _ _ [])].
        by apply (MSeq _ _ (c :: l1)). }
    rewrite Hcons. destruct (nullable r1) eqn:Hn.
    + apply nullable_spec in Hn. split.
      * inversion 1; subst; [left; by apply Hseq|right; split; [done|by apply IH2]].
      * intros [H|[_ H]]; [apply MAltL; by apply Hseq|apply MAltR; by apply IH2].
    + rewrite Hseq. split; [by auto|]. intros [H|[H _]]; [done|].
      apply nullable_spec in H. congruence.
  - split; inversion 1; subst.
    + apply MAltL. by apply IH1.
    + apply MAltR. by apply IH2.
    + apply MAltL. by apply IH1.
    + apply MAltR. by apply IH2.
  - split.
    + intros (l1 & l2 & -> & H1 & H2)%matches_seq_inv. apply IH in H1.
      by apply (MStarCons _ (c :: l1)).
    + intros (l1 & l2 & -> & H1 & H2)%matches_star_cons_inv. apply IH in H1. by constructor.
Qed.

Lemma fullmatch_spec l : forall r, fullmatch r l = true <-> matches r l.
Proof.
  induction l as [|c l IH]; intros r; simpl; [apply nullable_spec|].
  by rewrite IH, deriv_spec.
Qed.

(** [re.compile(r"^R$").match(s)] *)
Definition match_to_end (r : regex) (s : string) : bool :=
  fullmatch r (chars s) || fullmatch (RSeq r (RChar "010")) (chars s).

Lemma match_to_end_spec r s :
  match_to_end r s = true <->
  matches r (chars s) \/ exists l, chars s = (l ++ ["010"%char])%list /\ matches r l.
Proof.
  unfold match_to_end. rewrite orb_true_iff, !fullmatch_spec. split.
  - intros [H|(l1 & l2 & E & H1 & H2)%matches_seq_inv]; [by left|]. right. exists l1.
    inversion H2 as [|p c Hc| | | | |]; subst. apply bool_decide_eq_true in Hc as ->. done.
  - intros [H|(l & -> & H)]; [by left|]. right. constructor; [done|]. constructor.
    by apply bool_decide_eq_true.
Qed.

(** ** Characterisations of the patterns *)

(** [X([Y]*Z)?]: a first character, then nothing or a tail ending in Z. *)
Definition RLabel (first middle : ascii -> bool) : regex :=
  RSeq (RSet first) (ROpt (RSeq (RStar (RSet middle)) (RSet first))).

Lemma star_set_spec p l : matches (RStar (RSet p)) l <-> forallb p l = true.
Proof.
  split.
  - intros H. remember (RStar (RSet p)) as r. induction H as [| | | | | |r l1 l2 H1 _ H2 IH]; try done.
    simplify_eq. inversion H1; subst. simpl. rewrite IH by done. by rewrite andb_true_r.
  - induction l as [|c l IH]; simpl; [intros; constructor|]. rewrite andb_true_iff.
    intros [Hc Hl]. apply (MStarCons _ [c]); [by constructor|by apply IH].
Qed.

Definition is_label (first middle : ascii -> bool) (l : list ascii) : Prop :=
  exists c, head l = Some c /\ first c = true /\
  exists d, last l = Some d /\ first d = true /\ forallb middle (tail (removelast l)) = true.

Lemma label_spec first middle l :
  matches (RLabel first middle) l <-> is_label first middle l.
Proof.
  unfold RLabel, ROpt, is_label. split.
  - intros (l1 & l2 & -> & H1 & H2)%matches_seq_inv. inversion H1 as [|p c Hc| | | | |]; subst. simpl.
    exists c. split_and!; [done..|]. inversion H2 as [| | |? ? ? H3|? ? ? H3| |]; subst.
    + inversion H3; subst. by exists c.
    + apply matches_seq_inv in H3 as (l1 & l3 & -> & H3 & H4). inversion H4 as [|p d Hd| | | | |]; subst.
      exists d. apply star_set_spec in H3.
      assert (Hrl : removelast (c :: l1 ++ [d]) = c :: l1) by (rewrite app_comm_cons; apply removelast_last).
      split_and!; [by rewrite app_comm_cons, last_snoc|done|].
      change (forallb middle (tail (removelast (c :: l1 ++ [d]))) = true). by rewrite Hrl.
  - intros (c & Hc & Hf & d & Hd & Hg & Hm). destruct l as [|x l]; [done|]. simplify_eq/=.
    apply (MSeq _ _ [c]); [by constructor|]. destruct l as [|y l] using rev_ind; [by apply MAltL, MEps|].
    clear IHl. apply MAltR. rewrite app_comm_cons, last_snoc in Hd. simplify_eq.
    assert (Hrl : removelast (c :: l ++ [d]) = c :: l) by (rewrite app_comm_cons; apply removelast_last).
    change (forallb middle (tail (removelast (c :: l ++ [d]))) = true) in Hm.
    rewrite Hrl in Hm. constructor; [by apply star_set_spec|by constructor].
Qed.

Lemma seq_spec r1 r2 l :
  matches (RSeq r1 r2) l <-> exists l1 l2, l = (l1 ++ l2)%list /\ matches r1 l1 /\ matches r2 l2.
Proof. split; [apply matches_seq_inv|]. intros (l1 & l2 & -> & H1 & H2). by constructor. Qed.

Lemma alt_spec r1 r2 l : matches (RAlt r1 r2) l <-> matches r1 l \/ matches r2 l.
Proof. split; [inversion 1; auto|]. intros [H|H]; [by apply MAltL|by apply MAltR]. Qed.

Lemma eps_spec l : matches REps l <-> l = [].
Proof. split; [by inversion 1|]. intros ->. constructor. Qed.

Lemma set_spec p l : matches (RSet p) l <-> exists c, l = [c] /\ p c = true.
Proof. split; [inversion 1; eauto|]. intros (c & -> & H). by constructor. Qed.

Lemma char_spec c l : matches (RChar c) l <-> l = [c].
Proof.
  unfold RChar. rewrite set_spec. split.
  - intros (d & -> & ->%bool_decide_eq_true). done.
  - intros ->. exists c. by rewrite bool_decide_true.
Qed.

(** [X+] *)
Definition RPlus (p : ascii -> bool) : regex := RSeq (RSet p) (RStar (RSet p)).

Lemma plus_spec p l : matches (RPlus p) l <-> l <> [] /\ forallb p l = true.
Proof.
  unfold RPlus. rewrite seq_spec. split.
  - intros (l1 & l2 & -> & (c & -> & Hc)%set_spec & H%star_set_spec). simpl. by rewrite Hc, H.
  - destruct l as [|c l]; [naive_solver|]. simpl. rewrite andb_true_iff. intros [_ [Hc H]].
    exists [c], l. rewrite set_spec, star_set_spec. eauto.
Qed.

(** A literal. *)
Fixpoint RString (w : list ascii) : regex :=
  match w with [] => REps | c :: w => RSeq (RChar c) (RString w) end.

Lemma string_spec w : forall l, matches (RString w) l <-> l = w.
Proof.
  induction w as [|c w IH]; intros l; cbn [RString]; [apply eps_spec|]. rewrite seq_spec. split.
  - intros (l1 & l2 & -> & ->%char_spec & ->%IH). done.
  - intros ->. exists [c], w. rewrite char_spec, IH. done.
Qed.
