(* ===== verification/Validators.v ===== *)
(** * Request validation

    [server/opensandbox_server/services/validators.py]: the checks every
    container runtime applies to a request.  A failed check raises an
    [HTTPException]; its status and its error code are kept, its message is
    not.  Instants are microseconds since the epoch, UTC. *)

From Stdlib Require Import ZArith Lia Ascii String.
From stdpp Require Import base numbers strings sets list.
From S2P Require Import Prelude PyString Regex.

Open Scope string_scope.
Open Scope Z_scope.

Inductive http := HTTPException (status : Z) (code : string).

#[global] Instance http_eq_dec : EqDecision http.
Proof. solve_decision. Defined.

Definition HTTP_400_BAD_REQUEST : Z := 400.
Definition RESERVED_LABEL_PREFIX : string := "opensandbox.io/".

(** [if bad: raise HTTPException(400, code)] *)
Definition guard (bad : bool) (code : string) : res http unit :=
  if bad then Raise (HTTPException HTTP_400_BAD_REQUEST code) else Ok tt.

Definition then_ {A} (m : res http unit) (k : res http A) : res http A :=
  match m with Ok _ => k | Raise e => Raise e end.
Notation "m >>> k" := (then_ m k) (at level 60, right associativity) : osb_scope.

(** [for x in l: f(x)] *)
Fixpoint for_all {A} (f : A -> res http unit) (l : list A) : res http unit :=
  match l with
  | [] => Ok tt
  | x :: l => f x >>> for_all f l
  end.

Definition ensure_entrypoint (entrypoint : list string) : res http unit :=
  guard (bool_decide (entrypoint = [])) "DOCKER::INVALID_ENTRYPOINT".

(** ** Patterns *)

Definition is_lower_alnum (c : ascii) : bool := is_lower_az c || is_digit c.
Definition is_dash_lower_alnum (c : ascii) : bool := bool_decide (c = "-"%char) || is_lower_alnum c.
Definition is_label_middle (c : ascii) : bool :=
  bool_decide (c = "-"%char) || is_alnum_az c || bool_decide (c = "_"%char) || bool_decide (c = "."%char).

Definition DNS_LABEL_PATTERN : regex := RLabel is_lower_alnum is_dash_lower_alnum.
Definition DNS_SUBDOMAIN_RE : regex :=
  RSeq (RStar (RSeq DNS_LABEL_PATTERN (RChar "."))) DNS_LABEL_PATTERN.
Definition LABEL_NAME_RE : regex := RLabel is_alnum_az is_label_middle.
Definition LABEL_VALUE_RE : regex := ROpt LABEL_NAME_RE.

(** [^[A-Za-z]:] and [^(/|[A-Za-z]:[\\/])], matched at the start only. *)
Definition is_letter (c : ascii) : bool := is_lower_az c || is_upper_az c.
Definition has_drive (s : string) : bool :=
  match chars s with
  | c :: ":"%char :: _ => is_letter c
  | _ => false
  end.
(** [^[A-Za-z]:/] *)
Definition has_drive_slash (s : string) : bool :=
  match chars s with
  | c :: ":"%char :: "/"%char :: _ => is_letter c
  | _ => false
  end.
Definition HOST_PATH_RE (s : string) : bool :=
  match chars s with
  | "/"%char :: _ => true
  | c :: ":"%char :: d :: _ => is_letter c && (bool_decide (d = "\"%char) || bool_decide (d = "/"%char))
  | _ => false
  end.

Definition VOLUME_NAME_RE : regex := RLabel is_lower_alnum is_dash_lower_alnum.
Definition K8S_RESOURCE_NAME_RE : regex := RLabel is_lower_alnum is_dash_lower_alnum.

(** [s[1:]], [s[2:]], [s[:-1]] *)
Definition str_drop (n : nat) (s : string) : string := of_chars (drop n (chars s)).
Definition str_chop (s : string) : string := of_chars (removelast (chars s)).

(** [a in s] for strings *)
Fixpoint contains_list (a l : list ascii) : bool :=
  bool_decide (a `prefix_of` l) ||
  match l with [] => false | _ :: l => contains_list a l end.
Definition contains (a s : string) : bool := contains_list (chars a) (chars s).

Definition normalize_prefix_path (path : string) : string :=
  let normalized := replace_char "\" "/" path in
  let normalized :=
    if has_drive normalized then
      of_chars (match chars normalized with c :: l => lower_char c :: l | [] => [] end)
    else normalized in
  if (1 <? str_len normalized) && endswith normalized "/" then str_chop normalized
  else normalized.

(** ** Labels *)

(** [key.split("/", 1)] when the key has a slash *)
Fixpoint split_once (c : ascii) (l : list ascii) : option (list ascii * list ascii) :=
  match l with
  | [] => None
  | x :: l => if decide (x = c) then Some ([], l)
              else '(a, b) ← split_once c l; Some (x :: a, b)
  end.

Definition is_valid_label_name (name : list ascii) : bool :=
  negb ((63 <? Z.of_nat (length name)) || negb (match_to_end LABEL_NAME_RE (of_chars name))).

Definition is_valid_label_key (key : string) : bool :=
  match split_once "/" (chars key) with
  | Some (prefix, name) =>
      if bool_decide (prefix = []) || bool_decide (name = []) then false
      else if 253 <? Z.of_nat (length prefix) then false
      else if negb (match_to_end DNS_SUBDOMAIN_RE (of_chars prefix)) then false
      else is_valid_label_name name
  | None => is_valid_label_name (chars key)
  end.

Definition is_valid_label_value (value : string) : bool :=
  if 63 <? str_len value then false else match_to_end LABEL_VALUE_RE value.

(** [metadata] in insertion order; an empty dict and [None] pass. *)
Definition ensure_metadata_labels (metadata : option (list (string * string))) : res http unit :=
  for_all (fun '(key, value) =>
    guard (startswith key RESERVED_LABEL_PREFIX) "SANDBOX::INVALID_METADATA_LABEL" >>>
    guard (negb (is_valid_label_key key)) "SANDBOX::INVALID_METADATA_LABEL" >>>
    guard (negb (is_valid_label_value value)) "SANDBOX::INVALID_METADATA_LABEL")
    (default [] metadata).

(** ** Times and ports *)

(** A timestamp with its offset from UTC, [None] for a naive one. *)
Record timestamp := { ts_local : Z; ts_offset : option Z }.

Definition ensure_future_expiration (now : Z) (expires_at : timestamp) : res http Z :=
  let normalized := match ts_offset expires_at with
                    | None => ts_local expires_at
                    | Some off => ts_local expires_at - off
                    end in
  guard (normalized <=? now) "DOCKER::INVALID_EXPIRATION" >>> Ok normalized.

Definition ensure_valid_port (port : Z) : res http unit :=
  guard ((port <? 1) || (65535 <? port)) "DOCKER::INVALID_PORT".

(** [timedelta(seconds=n)] and [datetime + timedelta] for integers; [None] is
    [OverflowError]. *)
Definition timedelta_of_seconds (n : Z) : option Z :=
  let days := n / 86400 in
  if (days <? -999999999) || (999999999 <? days) then None else Some (n * 1000000).
Definition datetime_min : Z := -62135596800000000.
Definition datetime_max : Z := 253402300799999999.
Definition datetime_add (t d : Z) : option Z :=
  let r := t + d in if (r <? datetime_min) || (datetime_max <? r) then None else Some r.

Definition calculate_expiration_or_raise (created_at timeout_seconds : Z) : res http Z :=
  match d ← timedelta_of_seconds timeout_seconds; datetime_add created_at d with
  | Some t => Ok t
  | None => Raise (HTTPException HTTP_400_BAD_REQUEST "SANDBOX::INVALID_PARAMETER")
  end.

Definition ensure_timeout_within_limit (now : Z) (timeout_seconds max_timeout_seconds : option Z)
  : res http unit :=
  match timeout_seconds with
  | None => Ok tt
  | Some n =>
      match calculate_expiration_or_raise now n with
      | Raise e => Raise e
      | Ok _ =>
          match max_timeout_seconds with
          | None => Ok tt
          | Some m => guard (m <? n) "SANDBOX::INVALID_PARAMETER"
          end
      end
  end.

Record PlatformSpec := { pf_os : string; pf_arch : string }.

(** Returns the platform with its normalised fields, which the code assigns. *)
Definition ensure_platform_valid (platform : option PlatformSpec) : res http (option PlatformSpec) :=
  match platform with
  | None => Ok None
  | Some p =>
      let normalized_os := lower (strip (pf_os p)) in
      let normalized_arch := lower (strip (pf_arch p)) in
      guard (negb (bool_decide (normalized_os ∈ ["linux"; "windows"]))) "SANDBOX::INVALID_PARAMETER" >>>
      guard (negb (bool_decide (normalized_arch ∈ ["amd64"; "arm64"]))) "SANDBOX::INVALID_PARAMETER" >>>
      Ok (Some {| pf_os := normalized_os; pf_arch := normalized_arch |})
  end.

(** ** Volumes *)

Definition ensure_valid_volume_name (name : string) : res http unit :=
  guard (name =? "")%string "VOLUME::INVALID_NAME" >>>
  guard (63 <? str_len name) "VOLUME::INVALID_NAME" >>>
  guard (negb (match_to_end VOLUME_NAME_RE name)) "VOLUME::INVALID_NAME".

Definition ensure_valid_mount_path (mount_path : string) : res http unit :=
  guard (mount_path =? "")%string "VOLUME::INVALID_MOUNT_PATH" >>>
  guard (negb (startswith mount_path "/")) "VOLUME::INVALID_MOUNT_PATH".

Definition ensure_valid_sub_path (sub_path : option string) : res http unit :=
  match sub_path with
  | None => Ok tt
  | Some p =>
      if (p =? "")%string then Ok tt
      else
        guard (startswith p "/") "VOLUME::INVALID_SUB_PATH" >>>
        for_all (fun part => guard (part =? "..")%string "VOLUME::INVALID_SUB_PATH") (split p "/")
  end.

Definition ensure_valid_host_path (path : string) (allowed_prefixes : option (list string))
  : res http unit :=
  guard (path =? "")%string "VOLUME::INVALID_HOST_PATH" >>>
  guard (negb (HOST_PATH_RE path)) "VOLUME::INVALID_HOST_PATH" >>>
  let path_fwd := replace_char "\" "/" path in
  let windows_drive_match := has_drive_slash path_fwd in
  let tail_fwd := if windows_drive_match then str_drop 2 path_fwd else path_fwd in
  guard (contains "/.." tail_fwd || (tail_fwd =? "/..")%string) "VOLUME::INVALID_HOST_PATH" >>>
  guard (contains "//" tail_fwd || ((1 <? str_len tail_fwd) && endswith tail_fwd "/"))
    "VOLUME::INVALID_HOST_PATH" >>>
  match allowed_prefixes with
  | None => Ok tt
  | Some prefixes =>
      let norm_path := normalize_prefix_path path in
      let is_allowed := existsb (fun prefix =>
        (norm_path =? normalize_prefix_path prefix)%string ||
        startswith norm_path (normalize_prefix_path prefix +:+ "/")) prefixes in
      guard (negb is_allowed) "VOLUME::HOST_PATH_NOT_ALLOWED"
  end.

Definition ensure_valid_pvc_name (claim_name : string) : res http unit :=
  guard (claim_name =? "")%string "VOLUME::INVALID_PVC_NAME" >>>
  guard (253 <? str_len claim_name) "VOLUME::INVALID_PVC_NAME" >>>
  guard (negb (match_to_end K8S_RESOURCE_NAME_RE claim_name)) "VOLUME::INVALID_PVC_NAME".

Record OSSFS := {
  oss_bucket : string;
  oss_endpoint : string;
  oss_options : option (list string);
  oss_access_key_id : option string;
  oss_access_key_secret : option string;
}.

(** [not s] for an optional string *)
Definition falsy (s : option string) : bool :=
  match s with None => true | Some s => (s =? "")%string end.

Definition ensure_valid_ossfs_volume (ossfs : OSSFS) : res http unit :=
  guard (strip (oss_bucket ossfs) =? "")%string "VOLUME::INVALID_OSSFS_BUCKET" >>>
  guard (strip (oss_endpoint ossfs) =? "")%string "VOLUME::INVALID_OSSFS_ENDPOINT" >>>
  for_all (fun opt =>
    guard (strip opt =? "")%string "VOLUME::INVALID_OSSFS_OPTION" >>>
    guard (startswith (strip opt) "-") "VOLUME::INVALID_OSSFS_OPTION")
    (default [] (oss_options ossfs)) >>>
  guard (falsy (oss_access_key_id ossfs) || falsy (oss_access_key_secret ossfs))
    "VOLUME::INVALID_OSSFS_CREDENTIALS".

Record Volume := {
  vol_name : string;
  vol_host : option string;      (** [host.path] *)
  vol_pvc : option string;       (** [pvc.claim_name] *)
  vol_ossfs : option OSSFS;
  vol_mount_path : string;
  vol_sub_path : option string;
}.

Definition is_given {A} (o : option A) : Z := match o with Some _ => 1 | None => 0 end.

Definition backends_specified (v : Volume) : Z :=
  is_given (vol_host v) + is_given (vol_pvc v) + is_given (vol_ossfs v).

Definition when_given {A} (f : A -> res http unit) (o : option A) : res http unit :=
  match o with Some x => f x | None => Ok tt end.

(** The body of the loop for one volume, its name being new. *)
Definition ensure_volume (allowed : option (list string)) (v : Volume) : res http unit :=
  ensure_valid_volume_name (vol_name v) >>>
  ensure_valid_mount_path (vol_mount_path v) >>>
  ensure_valid_sub_path (vol_sub_path v) >>>
  guard (backends_specified v =? 0) "VOLUME::INVALID_BACKEND" >>>
  guard (1 <? backends_specified v) "VOLUME::INVALID_BACKEND" >>>
  when_given (fun p => ensure_valid_host_path p allowed) (vol_host v) >>>
  when_given ensure_valid_pvc_name (vol_pvc v) >>>
  when_given ensure_valid_ossfs_volume (vol_ossfs v).

Fixpoint ensure_volumes_loop (allowed : option (list string)) (seen : list string) (l : list Volume)
  : res http unit :=
  match l with
  | [] => Ok tt
  | v :: l =>
      guard (bool_decide (vol_name v ∈ seen)) "VOLUME::DUPLICATE_NAME" >>>
      ensure_volume allowed v >>>
      ensure_volumes_loop allowed (vol_name v :: seen) l
  end.

Definition ensure_volumes_valid (volumes : option (list Volume)) (allowed : option (list string))
  : res http unit :=
  ensure_volumes_loop allowed [] (default [] volumes).

(** ** Egress *)

Record EgressConfig := { eg_image : option string; eg_mode : string }.

Definition ensure_egress_configured (has_network_policy : bool) (egress_config : option EgressConfig)
  : res http unit :=
  if negb has_network_policy then Ok tt
  else guard (falsy (c ← egress_config; eg_image c)) "SANDBOX::INVALID_PARAMETER".

(** [credential_proxy] is its [enabled] field; the default action of the policy
    is only logged. *)
Definition ensure_credential_proxy_configured (credential_proxy : option bool)
    (egress_config : option EgressConfig) : res http unit :=
  match credential_proxy with
  | Some true =>
      guard (negb (bool_decide (eg_mode <$> egress_config = Some "dns+nft")))
        "SANDBOX::INVALID_PARAMETER"
  | _ => Ok tt
  end.

Definition GVISOR_NAT_INCOMPATIBLE_RUNTIMES : list string := ["gvisor"].

(** [secure_runtime] is its [type] field. *)
Definition ensure_egress_runtime_compatible (has_network_policy : bool)
    (secure_runtime : option string) (effective_runtime_class : option string) : res http unit :=
  if negb has_network_policy then Ok tt
  else
    let runtime_type :=
      if falsy secure_runtime then
        if falsy effective_runtime_class then None else effective_runtime_class
      else secure_runtime in
    match runtime_type with
    | None => Ok tt
    | Some t => guard (bool_decide (t ∈ GVISOR_NAT_INCOMPATIBLE_RUNTIMES)) "SANDBOX::INVALID_PARAMETER"
    end.

(** ** Reading off what a passed check says *)

Create Rewrite HintDb http_checks.

Lemma guard_ok b c : guard b c = Ok tt <-> b = false.
Proof. unfold guard. by destruct b. Qed.

Lemma then_ok {A} m (k : res http A) x : (m >>> k) = Ok x <-> m = Ok tt /\ k = Ok x.
Proof. unfold then_. destruct m as [[]|]; naive_solver. Qed.

Lemma for_all_ok {A} (f : A -> res http unit) l : for_all f l = Ok tt <-> Forall (fun x => f x = Ok tt) l.
Proof.
  induction l as [|x l IH]; simpl; [by rewrite Forall_nil|]. by rewrite then_ok, IH, Forall_cons.
Qed.

Lemma when_given_ok {A} (f : A -> res http unit) o :
  when_given f o = Ok tt <-> forall x, o = Some x -> f x = Ok tt.
Proof. destruct o; naive_solver. Qed.
#[export] Hint Rewrite guard_ok @then_ok @for_all_ok @when_given_ok : http_checks.
#[export] Hint Rewrite negb_false_iff orb_false_iff andb_false_iff Z.ltb_ge bool_decide_eq_false
  String.eqb_neq : http_checks.

(** A check fails with status 400 or not at all. *)
Definition only_400 {A} (r : res http A) : Prop :=
  match r with Ok _ => True | Raise (HTTPException s _) => s = HTTP_400_BAD_REQUEST end.

Lemma only_400_guard b c : only_400 (guard b c).
Proof. by destruct b. Qed.

Lemma only_400_then {A} m (k : res http A) : only_400 m -> only_400 k -> only_400 (m >>> k).
Proof. by destruct m as [[]|]; intros ? ?. Qed.

Lemma only_400_for_all {A} (f : A -> res http unit) l :
  (forall x, only_400 (f x)) -> only_400 (for_all f l).
Proof. intros Hf. induction l; simpl; [done|by apply only_400_then]. Qed.

Lemma only_400_when {A} (f : A -> res http unit) o :
  (forall x, only_400 (f x)) -> only_400 (when_given f o).
Proof. intros Hf. destruct o; [apply Hf|done]. Qed.
#[export] Hint Resolve only_400_guard only_400_then only_400_for_all only_400_when : osb.

Lemma ensure_volume_400 allowed v : only_400 (ensure_volume allowed v).
Proof.
  unfold ensure_volume, ensure_valid_volume_name, ensure_valid_mount_path, ensure_valid_sub_path,
    ensure_valid_pvc_name.
  repeat (apply only_400_then); auto with osb.
  - destruct (vol_sub_path v) as [p|]; [|done]. destruct (p =? "")%string; [done|]. auto with osb.
  - apply only_400_when. intros p. unfold ensure_valid_host_path.
    repeat (apply only_400_then); auto with osb. destruct allowed; auto with osb. done.
  - apply only_400_when. intros x. unfold ensure_valid_ossfs_volume. auto 10 with osb.
Qed.

(** *** Names *)

(** A DNS label of at most [n] characters, or one followed by a newline. *)
Definition label_or_newline (first middle : ascii -> bool) (s : string) : Prop :=
  is_label first middle (chars s) \/
  exists l, chars s = (l ++ ["010"%char])%list /\ is_label first middle l.

Lemma match_label first middle s :
  match_to_end (RLabel first middle) s = true <-> label_or_newline first middle s.
Proof.
  rewrite match_to_end_spec, label_spec. unfold label_or_newline. by setoid_rewrite label_spec.
Qed.

Definition dns_label_upto (n : Z) (s : string) : Prop :=
  s <> "" /\ str_len s <= n /\ label_or_newline is_lower_alnum is_dash_lower_alnum s.

Lemma volume_name_ok s : ensure_valid_volume_name s = Ok tt <-> dns_label_upto 63 s.
Proof.
  unfold ensure_valid_volume_name, dns_label_upto. autorewrite with http_checks.
  unfold VOLUME_NAME_RE. by rewrite match_label.
Qed.

Lemma pvc_name_ok s : ensure_valid_pvc_name s = Ok tt <-> dns_label_upto 253 s.
Proof.
  unfold ensure_valid_pvc_name, dns_label_upto. autorewrite with http_checks.
  unfold K8S_RESOURCE_NAME_RE. by rewrite match_label.
Qed.

Lemma mount_path_ok s : ensure_valid_mount_path s = Ok tt <-> startswith s "/" = true.
Proof.
  unfold ensure_valid_mount_path. autorewrite with http_checks. split; [naive_solver|].
  intros H. split; [|done]. by intros ->.
Qed.

(** A relative path none of whose components is "..". *)
Definition sub_path_safe (p : string) : Prop :=
  startswith p "/" = false /\ ".." ∉ split p "/".

Lemma sub_path_ok o : ensure_valid_sub_path o = Ok tt <-> forall p, o = Some p -> sub_path_safe p.
Proof.
  destruct o as [p|]; simpl; [|naive_solver].
  assert (Hs : (startswith p "/" = false /\ Forall (fun part => guard (part =? "..")%string
      "VOLUME::INVALID_SUB_PATH" = Ok tt) (split p "/")) <-> sub_path_safe p).
  { unfold sub_path_safe. rewrite Forall_forall. setoid_rewrite guard_ok. setoid_rewrite String.eqb_neq.
    naive_solver. }
  destruct (String.eqb_spec p "") as [->|Hne].
  - split; [|done]. intros _ p [= <-]. unfold sub_path_safe. split; [done|].
    unfold split. simpl. set_solver.
  - rewrite then_ok, guard_ok, for_all_ok, Hs. naive_solver.
Qed.

(** *** Host paths *)

(** Lexical resolution of path components, as a file system without symbolic
    links does it: empty components and "." stay, ".." goes up. *)
Fixpoint resolve_onto (acc : list string) (l : list string) : list string :=
  match l with
  | [] => acc
  | c :: l =>
      if (c =? "")%string || (c =? ".")%string then resolve_onto acc l
      else if (c =? "..")%string then resolve_onto (removelast acc) l
      else resolve_onto (acc ++ [c]) l
  end.
Definition resolve (path : string) : list string := resolve_onto [] (split path "/").

Lemma resolve_onto_app acc l1 l2 : resolve_onto acc (l1 ++ l2) = resolve_onto (resolve_onto acc l1) l2.
Proof. revert acc. induction l1 as [|c l1 IH]; intros acc; simpl; [done|]. split_ifs; apply IH. Qed.

Lemma resolve_onto_grows l : forall acc, ".." ∉ l -> acc `prefix_of` resolve_onto acc l.
Proof.
  induction l as [|c l IH]; intros acc Hl; simpl; [done|].
  destruct (_ || _); [apply IH; set_solver|].
  destruct (String.eqb_spec c "..") as [->|]; [set_solver|].
  etrans; [|apply IH; set_solver]. by apply prefix_app_r.
Qed.

Lemma split_list_app c l1 l2 :
  split_list c (l1 ++ c :: l2) = (split_list c l1 ++ split_list c l2)%list.
Proof.
  induction l1 as [|x l1 IH]; simpl; [by rewrite decide_True|].
  destruct (decide (x = c)); [by rewrite IH|]. rewrite IH.
  by destruct (split_list_cons c l1) as (w & ws & ->).
Qed.

(** A component other than the first follows a separator. *)
Lemma split_list_tail c l w : w ∈ tail (split_list c l) -> exists pre suf, l = (pre ++ c :: w ++ suf)%list.
Proof.
  revert w. induction l as [|x l IH]; intros w; simpl; [set_solver|].
  destruct (split_list_cons c l) as (w0 & ws & E). rewrite E in IH |- *. simpl in IH.
  destruct (decide (x = c)) as [->|Hne]; simpl.
  - intros [->|Hw]%elem_of_cons.
    + assert (Hpre : w0 `prefix_of` l).
      { clear IH. revert w0 ws E. induction l as [|y l IH]; intros w0 ws E; simpl in E.
        - simplify_eq. done.
        - destruct (decide (y = c)); [simplify_eq; apply prefix_nil|].
          destruct (split_list_cons c l) as (w1 & ws1 & E1). rewrite E1 in E. simplify_eq.
          apply prefix_cons. by eapply IH. }
      destruct Hpre as [suf ->]. by exists [], suf.
    + destruct (IH w Hw) as (pre & suf & ->). by exists (c :: pre), suf.
  - intros Hw. destruct (IH w Hw) as (pre & suf & ->). by exists (x :: pre), suf.
Qed.

Lemma contains_list_false a l :
  contains_list a l = false -> forall pre suf, l <> (pre ++ a ++ suf)%list.
Proof.
  induction l as [|x l IH]; simpl; rewrite orb_false_iff, bool_decide_eq_false; intros [Hp Hl] pre suf E.
  - destruct pre; simplify_eq/=. apply Hp. rewrite E. by apply prefix_app_r.
  - destruct pre as [|y pre]; simplify_eq/=; [|by eapply IH].
    apply Hp. rewrite E. by apply prefix_app_r.
Qed.

(** No component of a path that starts with a slash and does not contain "/.."
    is "..". *)
Lemma no_dotdot l :
  contains_list (chars "/..") ("/"%char :: l) = false -> chars ".." ∉ split_list "/" ("/"%char :: l).
Proof.
  intros Hc Hin. cbn [split_list] in Hin. rewrite decide_True in Hin by done.
  apply elem_of_cons in Hin as [?|Hin]; [done|].
  destruct (split_list_tail "/" ("/"%char :: l) (chars "..")) as (pre & suf & E).
  { cbn [split_list]. by rewrite decide_True. }
  by apply (contains_list_false _ _ Hc pre suf).
Qed.

Definition fwd (l : list ascii) : list ascii :=
  map (fun c => if decide (c = "\"%char) then "/"%char else c) l.

Lemma chars_replace s : chars (replace_char "\" "/" s) = fwd (chars s).
Proof. apply chars_of_chars. Qed.

Lemma letter_not_slash c : is_letter c = true -> c <> "/"%char /\ c <> "\"%char /\ c <> "."%char.
Proof. intros H. split_and!; by intros ->. Qed.

Lemma lower_letter c : is_letter c = true -> lower_char c <> "/"%char.
Proof.
  intros H E. assert (Hall : forall x, lower_char x = "/"%char -> x = "/"%char).
  { intros x. destruct x as [[] [] [] [] [] [] [] []]; vm_compute; congruence. }
  apply Hall in E as ->. done.
Qed.

(** The two forms of an accepted path: absolute, or behind a drive letter. *)
Lemma host_path_forms path :
  HOST_PATH_RE path = true ->
  (exists l, fwd (chars path) = "/"%char :: l) \/
  (exists c l, is_letter c = true /\ fwd (chars path) = c :: ":"%char :: "/"%char :: l).
Proof.
  unfold HOST_PATH_RE. intros H. destruct (chars path) as [|c l]; [done|].
  destruct (decide (c = "/"%char)) as [->|Hc]; [left; by eexists|]. right.
  assert (H' : match l with
    | ":"%char :: d :: _ => is_letter c && (bool_decide (d = "\"%char) || bool_decide (d = "/"%char))
    | _ => false end = true).
  { destruct c as [[] [] [] [] [] [] [] []]; first [exact H|done]. }
  clear H. destruct l as [|x [|d l]]; [done|by destruct x as [[] [] [] [] [] [] [] []]|].
  assert (x = ":"%char) as ->.
  { destruct x as [[] [] [] [] [] [] [] []]; done. }
  apply andb_true_iff in H' as [Hl Hd]. exists c, (fwd l). split; [done|].
  destruct (letter_not_slash c Hl) as (_ & Hb & _). simpl. rewrite decide_False by done.
  apply orb_true_iff in Hd as [Hd|Hd]; apply bool_decide_eq_true in Hd as ->; done.
Qed.

Lemma endswith_slash l : endswith (of_chars l) "/" = true <-> exists l', l = (l' ++ ["/"%char])%list.
Proof.
  unfold endswith. rewrite bool_decide_eq_true, chars_of_chars. simpl. split; intros [k ->]; by exists k.
Qed.

Lemma str_len_of_chars l : str_len (of_chars l) = Z.of_nat (length l).
Proof. unfold str_len. by rewrite <- length_chars, chars_of_chars. Qed.

Lemma drive_of_slash l :
  has_drive (of_chars ("/"%char :: l)) = false /\ has_drive_slash (of_chars ("/"%char :: l)) = false.
Proof.
  unfold has_drive, has_drive_slash. rewrite chars_of_chars.
  destruct l as [|[[] [] [] [] [] [] [] []] l]; try done.
  destruct l as [|[[] [] [] [] [] [] [] []] l]; done.
Qed.

Lemma drive_of_letter c l :
  is_letter c = true ->
  has_drive (of_chars (c :: ":"%char :: "/"%char :: l)) = true /\
  has_drive_slash (of_chars (c :: ":"%char :: "/"%char :: l)) = true.
Proof. intros Hc. unfold has_drive, has_drive_slash. by rewrite chars_of_chars. Qed.

Lemma no_dotdot_behind_drive c k :
  is_letter c = true -> chars ".." ∉ tail (split_list "/" k) ->
  chars ".." ∉ split_list "/" (lower_char c :: ":"%char :: k).
Proof.
  intros Hc Hk. pose proof (lower_letter c Hc) as Hlow. cbn [split_list]. rewrite decide_False by done.
  destruct (split_list_cons "/" k) as (w & ws & Ek). rewrite Ek in Hk |- *. simpl in Hk.
  rewrite decide_False by done. intros [Hx|Hx]%elem_of_cons; [|done]. done.
Qed.

(** The normalised form of an accepted path has no ".." component. *)
Lemma host_path_no_dotdot path allowed :
  ensure_valid_host_path path allowed = Ok tt ->
  chars ".." ∉ split_list "/" (chars (normalize_prefix_path path)).
Proof.
  unfold ensure_valid_host_path. cbv zeta. rewrite !then_ok, !guard_ok, negb_false_iff.
  intros (_ & Hre & Hdd & Hslash & _). apply host_path_forms in Hre. unfold normalize_prefix_path.
  assert (Hrep : replace_char "\" "/" path = of_chars (fwd (chars path))).
  { apply chars_inj. by rewrite chars_replace, chars_of_chars. }
  rewrite Hrep in *. destruct Hre as [[l E]|(c & l & Hc & E)]; rewrite E in *.
  - destruct (drive_of_slash l) as [H1 H2]. rewrite H2 in Hdd, Hslash. rewrite H1.
    apply orb_false_iff in Hdd as [Hdd _]. apply orb_false_iff in Hslash as [_ Hend].
    rewrite Hend. unfold contains in Hdd. rewrite chars_of_chars in Hdd |- *. by apply no_dotdot.
  - destruct (drive_of_letter c l Hc) as [H1 H2]. rewrite H2 in Hdd, Hslash. rewrite H1.
    unfold str_drop in Hdd, Hslash. rewrite chars_of_chars in Hdd, Hslash |- *. cbn [drop] in Hdd, Hslash.
    apply orb_false_iff in Hdd as [Hdd _]. unfold contains in Hdd. rewrite chars_of_chars in Hdd.
    apply no_dotdot in Hdd. apply orb_false_iff in Hslash as [_ Hend].
    destruct l as [|x l]; [by apply (no_dotdot_behind_drive c []); [|simpl; set_solver]|].
    assert (Hno : endswith (of_chars (lower_char c :: ":"%char :: "/"%char :: x :: l)) "/" = false).
    { rewrite str_len_of_chars in Hend. simpl in Hend.
      replace (1 <? _) with true in Hend by (symmetry; apply Z.ltb_lt; lia). simpl in Hend.
      apply not_true_iff_false. intros [l' El]%endswith_slash. apply not_true_iff_false in Hend.
      apply Hend, (endswith_slash ("/"%char :: x :: l)). destruct l' as [|a [|b l']]; simplify_eq/=. by exists l'. }
    rewrite Hno, andb_false_r, chars_of_chars. apply no_dotdot_behind_drive; [done|].
    intros Hin. apply Hdd. destruct (split_list_cons "/" ("/"%char :: x :: l)) as (w & ws & Ek).
    rewrite Ek in Hin |- *. simpl in Hin. set_solver.
Qed.

Lemma elem_of_split w s c : w ∈ split s c -> chars w ∈ split_list c (chars s).
Proof. intros (l & -> & Hl)%list_elem_of_fmap. by rewrite chars_of_chars. Qed.



(** On a POSIX host a backslash is no separator: the check accepts a path whose
    real components are not under the prefix. *)
Lemma backslash_escapes_prefix :
  ensure_valid_host_path "/data\etc" (Some ["/data"]) = Ok tt /\
  split "/data\etc" "/" = [""; "data\etc"].
Proof. vm_compute. done. Qed.

(** The root as an allowed prefix allows the root only; a component that merely
    starts with two dots is refused as a traversal. *)
Lemma root_prefix_allows_only_root :
  ensure_valid_host_path "/" (Some ["/"]) = Ok tt /\
  ensure_valid_host_path "/srv" (Some ["/"]) =
    Raise (HTTPException 400 "VOLUME::HOST_PATH_NOT_ALLOWED") /\
  ensure_valid_host_path "/srv/..data" None = Raise (HTTPException 400 "VOLUME::INVALID_HOST_PATH").
Proof. vm_compute. done. Qed.

(** *** Volumes *)

Definition ossfs_ok (x : OSSFS) : Prop :=
  strip (oss_bucket x) <> "" /\ strip (oss_endpoint x) <> "" /\
  Forall (fun o => strip o <> "" /\ startswith (strip o) "-" = false) (default [] (oss_options x)) /\
  falsy (oss_access_key_id x) = false /\ falsy (oss_access_key_secret x) = false.

Lemma ossfs_volume_ok x : ensure_valid_ossfs_volume x = Ok tt <-> ossfs_ok x.
Proof.
  unfold ensure_valid_ossfs_volume, ossfs_ok. autorewrite with http_checks.
  setoid_rewrite then_ok. setoid_rewrite guard_ok. setoid_rewrite String.eqb_neq. done.
Qed.

(** A volume the server should accept: a well-formed name and mount point, a
    sub-path that cannot climb, and exactly one well-formed backend. *)
Record volume_ok (allowed : option (list string)) (v : Volume) : Prop := {
  vo_name : dns_label_upto 63 (vol_name v);
  vo_mount : startswith (vol_mount_path v) "/" = true;
  vo_sub : forall p, vol_sub_path v = Some p -> sub_path_safe p;
  vo_one : backends_specified v = 1;
  vo_host : forall p, vol_host v = Some p -> ensure_valid_host_path p allowed = Ok tt;
  vo_pvc : forall n, vol_pvc v = Some n -> dns_label_upto 253 n;
  vo_ossfs : forall x, vol_ossfs v = Some x -> ossfs_ok x;
}.

Lemma backends_specified_range v : 0 <= backends_specified v <= 3.
Proof.
  unfold backends_specified, is_given. destruct (vol_host v), (vol_pvc v), (vol_ossfs v); lia.
Qed.

Lemma ensure_volume_ok allowed v : ensure_volume allowed v = Ok tt <-> volume_ok allowed v.
Proof.
  unfold ensure_volume.
  rewrite !then_ok, !guard_ok, !when_given_ok, volume_name_ok, mount_path_ok, sub_path_ok.
  setoid_rewrite pvc_name_ok. setoid_rewrite ossfs_volume_ok.
  pose proof (backends_specified_range v). rewrite Z.eqb_neq, Z.ltb_ge. split.
  - intros (? & ? & ? & ? & ? & ? & ? & ?). constructor; try done. lia.
  - intros []. split_and!; try done; lia.
Qed.

Lemma volumes_loop_ok allowed l : forall seen,
  ensure_volumes_loop allowed seen l = Ok tt <->
  NoDup (map vol_name l) /\ (forall v, v ∈ l -> vol_name v ∉ seen) /\ Forall (volume_ok allowed) l.
Proof.
  induction l as [|v l IH]; intros seen; simpl.
  - rewrite Forall_nil. split; [intros _|done]. split_and!; [apply NoDup_nil_2|set_solver|done].
  - rewrite !then_ok, guard_ok, bool_decide_eq_false, ensure_volume_ok, IH, NoDup_cons, Forall_cons.
    assert (Hmap : vol_name v ∉ map vol_name l <-> forall v', v' ∈ l -> vol_name v' <> vol_name v).
    { split.
      - intros Hn v' Hv' E. apply Hn. rewrite <- E. apply list_elem_of_fmap. by eauto.
      - intros Hn (v' & E & Hv')%list_elem_of_fmap. by apply (Hn v'). }
    rewrite Hmap. set_solver.
Qed.

(** The server accepts a list of volumes exactly when their names are
    distinct and each is well formed: the name is a DNS label of at most 63
    characters (a final newline passes too), the mount path is absolute, the
    sub-path is relative without "..", exactly one backend is given and it
    passes its own check.  A rejection is always an HTTP 400. *)
Theorem volumes_valid_spec volumes allowed :
  (ensure_volumes_valid volumes allowed = Ok tt <->
   NoDup (map vol_name (default [] volumes)) /\ Forall (volume_ok allowed) (default [] volumes)) /\
  only_400 (ensure_volumes_valid volumes allowed).
Proof.
  unfold ensure_volumes_valid. split.
  - rewrite volumes_loop_ok. set_solver.
  - generalize (@nil string). induction (default [] volumes) as [|v l IH]; intros seen; simpl; [done|].
    auto using ensure_volume_400 with osb.
Qed.

(** The final newline: [$] matches before it. *)
Lemma newline_name_accepted :
  ensure_valid_volume_name (of_chars (chars "data" ++ ["010"%char])) = Ok tt.
Proof. vm_compute. reflexivity. Qed.

(** *** Labels *)

Definition name_ok (l : list ascii) : Prop :=
  (length l <= 63)%nat /\ label_or_newline is_alnum_az is_label_middle (of_chars l).

Lemma valid_label_name_ok l : is_valid_label_name l = true <-> name_ok l.
Proof.
  unfold is_valid_label_name, name_ok. rewrite negb_true_iff, orb_false_iff, negb_false_iff.
  unfold LABEL_NAME_RE. rewrite match_label, Z.ltb_ge. split; intros [? ?]; split; (done || lia).
Qed.

(** A dotted sequence of DNS labels, or one followed by a newline. *)
Definition dns_subdomain (l : list ascii) : Prop :=
  exists labels, labels <> [] /\ Forall (is_label is_lower_alnum is_dash_lower_alnum) labels /\
    l = (concat (map (fun w => w ++ ["."%char]) (removelast labels)) ++ default [] (last labels))%list.

Lemma dots_spec l :
  matches (RStar (RSeq DNS_LABEL_PATTERN (RChar "."))) l <->
  exists labels, Forall (is_label is_lower_alnum is_dash_lower_alnum) labels /\
    l = concat (map (fun w => w ++ ["."%char])%list labels).
Proof.
  split.
  - intros H. remember (RStar _) as r eqn:Er.
    induction H as [|p x|? ? ? ? ? ? ? ?|? ? ? ? ?|? ? ? ? ?|r'|r' l1 l2 H1 _ H2 IH2]; try done.
    + exists []. done.
    + injection Er as ->. destruct (IH2 eq_refl) as (ws & Hws & ->).
      apply matches_seq_inv in H1 as (w & d & -> & Hw & Hd). inversion Hd as [|p x Hx| | | | |]; subst.
      apply bool_decide_eq_true in Hx as ->. exists (w :: ws). split; [|done].
      constructor; [|done]. by apply label_spec.
  - intros (ws & Hws & ->). induction Hws as [|w ws Hw Hws IH]; simpl; [constructor|].
    apply MStarCons; [|done]. apply MSeq; [by apply label_spec|]. constructor.
    by apply bool_decide_eq_true.
Qed.

Lemma subdomain_spec l : matches DNS_SUBDOMAIN_RE l <-> dns_subdomain l.
Proof.
  unfold DNS_SUBDOMAIN_RE, dns_subdomain. split.
  - intros (l1 & l2 & -> & (ws & Hws & ->)%dots_spec & H2%label_spec)%matches_seq_inv.
    exists (ws ++ [l2])%list. split_and!; [by destruct ws|apply Forall_app; split; [done|by apply Forall_singleton]|].
    by rewrite removelast_last, last_snoc.
  - intros (ws & Hne & Hws & ->). destruct ws as [|w ws] using rev_ind; [done|]. clear IHws.
    apply Forall_app in Hws as [Hws Hw]. rewrite removelast_last, last_snoc. simpl.
    constructor; [apply dots_spec; by exists ws|]. apply label_spec. by apply Forall_singleton.
Qed.

Definition subdomain_or_newline (l : list ascii) : Prop :=
  dns_subdomain l \/ exists l', l = (l' ++ ["010"%char])%list /\ dns_subdomain l'.

(** What a metadata entry has to look like. *)
Definition label_ok (kv : string * string) : Prop :=
  startswith kv.1 RESERVED_LABEL_PREFIX = false /\
  match split_once "/" (chars kv.1) with
  | Some (prefix, name) =>
      prefix <> [] /\ (length prefix <= 253)%nat /\ subdomain_or_newline prefix /\ name_ok name
  | None => name_ok (chars kv.1)
  end /\
  str_len kv.2 <= 63 /\
  (kv.2 = "" \/ kv.2 = of_chars ["010"%char] \/ label_or_newline is_alnum_az is_label_middle kv.2).

Lemma label_key_ok key :
  is_valid_label_key key = true <->
  match split_once "/" (chars key) with
  | Some (prefix, name) =>
      prefix <> [] /\ (length prefix <= 253)%nat /\ subdomain_or_newline prefix /\ name_ok name
  | None => name_ok (chars key)
  end.
Proof.
  unfold is_valid_label_key. destruct (split_once "/" (chars key)) as [[prefix name]|];
    [|apply valid_label_name_ok].
  assert (Hm : match_to_end DNS_SUBDOMAIN_RE (of_chars prefix) = true <-> subdomain_or_newline prefix).
  { rewrite match_to_end_spec, chars_of_chars, subdomain_spec. unfold subdomain_or_newline.
    by setoid_rewrite subdomain_spec. }
  assert (Hn : name_ok name -> name <> []).
  { intros [_ [(c & Hc & _)|(l & E & _)]] ->; [done|]. by destruct l. }
  case_bool_decide; simpl; [naive_solver|]. case_bool_decide; [naive_solver|].
  destruct (253 <? _) eqn:E; [split; [done|]; intros (_ & ? & _); bool_lia|].
  destruct (match_to_end DNS_SUBDOMAIN_RE (of_chars prefix)); simpl; [|naive_solver].
  rewrite valid_label_name_ok. split; [|naive_solver]. intros ?. split_and!; [done|bool_lia|naive_solver|done].
Qed.

Lemma label_value_ok v :
  is_valid_label_value v = true <-> str_len v <= 63 /\
    (v = "" \/ v = of_chars ["010"%char] \/ label_or_newline is_alnum_az is_label_middle v).
Proof.
  unfold is_valid_label_value. destruct (63 <? str_len v) eqn:E; [split; [done|]; intros [? _]; bool_lia|].
  assert (Hopt : forall l, matches LABEL_VALUE_RE l <-> l = [] \/ is_label is_alnum_az is_label_middle l).
  { intros l. unfold LABEL_VALUE_RE, ROpt, LABEL_NAME_RE. rewrite <- label_spec. split.
    - inversion 1 as [| | |? ? ? Hr|? ? ? Hr| |]; subst; [inversion Hr; by auto|by auto].
    - intros [->|H]; [apply MAltL; constructor|by apply MAltR]. }
  rewrite match_to_end_spec, Hopt. setoid_rewrite Hopt. unfold label_or_newline.
  assert (H0 : chars v = [] <-> v = "") by (split; [intros H; by apply chars_inj|by intros ->]).
  assert (H1 : chars v = ["010"%char] <-> v = of_chars ["010"%char]).
  { split; [intros H; apply chars_inj; by rewrite chars_of_chars|by intros ->]. }
  rewrite H0. split.
  - intros H. split; [bool_lia|]. destruct H as [[->|H]|(l & E' & [->|H])]; [by auto|by auto| |].
    + right. left. by apply H1.
    + right. right. right. by eauto.
  - intros [_ [->|[->|[H|(l & E' & H)]]]]; [by auto| |by auto|right; by eauto].
    right. exists []. split; [done|by left].
Qed.

(** Metadata is accepted exactly when no key uses the reserved prefix and
    all keys and values are Kubernetes labels (a name of at most 63 characters
    that starts and ends with an alphanumeric one, behind an optional DNS
    sub-domain of at most 253), up to a final newline in each part. *)
Theorem metadata_labels_spec metadata :
  (ensure_metadata_labels metadata = Ok tt <-> Forall label_ok (default [] metadata)) /\
  only_400 (ensure_metadata_labels metadata).
Proof.
  unfold ensure_metadata_labels. split.
  - rewrite for_all_ok, !Forall_forall.
    assert (Hkv : forall key value,
      (guard (startswith key RESERVED_LABEL_PREFIX) "SANDBOX::INVALID_METADATA_LABEL" >>>
       guard (negb (is_valid_label_key key)) "SANDBOX::INVALID_METADATA_LABEL" >>>
       guard (negb (is_valid_label_value value)) "SANDBOX::INVALID_METADATA_LABEL") = Ok tt <->
      label_ok (key, value)).
    { intros key value. rewrite !then_ok, !guard_ok, !negb_false_iff, label_key_ok, label_value_ok. done. }
    split; intros H [key value] Hin; apply Hkv, (H _ Hin).
  - apply only_400_for_all. intros [key value]. auto with osb.
Qed.

(** *** Time-outs *)

(** A sandbox time-out is accepted exactly when it is within the configured
    maximum and its expiration is a representable instant, and the expiration
    computed from it is that instant, never a wrapped one. *)
Theorem timeout_accepted_spec now n max :
  datetime_min <= now <= datetime_max -> 0 <= n ->
  (ensure_timeout_within_limit now (Some n) max = Ok tt <->
   now + n * 1000000 <= datetime_max /\ (forall m, max = Some m -> n <= m)) /\
  (forall t, calculate_expiration_or_raise now n = Ok t ->
     t = now + n * 1000000 /\ now <= t <= datetime_max) /\
  only_400 (ensure_timeout_within_limit now (Some n) max).
Proof.
  intros Hnow Hn.
  assert (Hcalc : calculate_expiration_or_raise now n =
    if datetime_max <? now + n * 1000000
    then Raise (HTTPException HTTP_400_BAD_REQUEST "SANDBOX::INVALID_PARAMETER")
    else Ok (now + n * 1000000)).
  { unfold calculate_expiration_or_raise, timedelta_of_seconds, datetime_add.
    unfold datetime_min, datetime_max in *. pose proof (Z.div_pos n 86400 Hn ltac:(lia)).
    pose proof (Z.div_mod n 86400 ltac:(lia)). pose proof (Z.mod_pos_bound n 86400 ltac:(lia)).
    destruct (n / 86400 <? -999999999) eqn:E1; [bool_lia|]. destruct (999999999 <? n / 86400) eqn:E2; simpl.
    - destruct (_ <? now + n * 1000000) eqn:E3; [done|]. bool_lia.
    - destruct (now + n * 1000000 <? -62135596800000000) eqn:E4; [bool_lia|]. simpl.
      destruct (253402300799999999 <? now + n * 1000000); done. }
  unfold ensure_timeout_within_limit. rewrite Hcalc.
  destruct (Z.ltb_spec datetime_max (now + n * 1000000)); split_and!.
  - split; [done|]. intros [? _]. lia.
  - done.
  - done.
  - destruct max as [m|]; [|naive_solver]. rewrite guard_ok, Z.ltb_ge. naive_solver.
  - intros t [= <-]. lia.
  - destruct max as [m|]; [apply only_400_guard|done].
Qed.

Lemma timeout_accepted_witness :
  (ensure_timeout_within_limit 1700000000000000 (Some 3600) (Some 86400) = Ok tt <->
   1700000000000000 + 3600 * 1000000 <= datetime_max /\ (forall m, Some 86400 = Some m -> 3600 <= m)) /\
  (forall t, calculate_expiration_or_raise 1700000000000000 3600 = Ok t ->
     t = 1700000000000000 + 3600 * 1000000 /\ 1700000000000000 <= t <= datetime_max) /\
  only_400 (ensure_timeout_within_limit 1700000000000000 (Some 3600) (Some 86400)).
Proof.
  apply (timeout_accepted_spec 1700000000000000 3600 (Some 86400)).
  - vm_compute. split; discriminate.
  - lia.
Defined.
