(* ===== verification/PyText.v ===== *)
(** * Text encodings

    The parts of Python's [datetime] and [json] modules the snapshot repository
    uses to store records in text columns: [datetime.isoformat] and
    [fromisoformat] for UTC instants, and JSON string literals as
    [json.dumps] writes them (ASCII only) and [json.loads] reads them.  The
    readers accept the shapes the writers produce; other inputs are errors.
    The main results are the two round trips, and that comparing ISO texts
    byte by byte orders them as the instants they denote. *)

From Stdlib Require Import ZArith Lia Ascii String.
From stdpp Require Import base numbers strings list.
From S2P Require Import Prelude PyString.

Open Scope string_scope.
Open Scope Z_scope.

(** ** Decimal numbers of fixed width *)

Definition digit (n : Z) : ascii := ascii_of_N (Z.to_N (48 + n)).

(** [%0<w>d] for a number of at most [w] digits *)
Fixpoint pad (w : nat) (n : Z) : list ascii :=
  match w with
  | O => []
  | S w => (pad w (n / 10) ++ [digit (n mod 10)])%list
  end.

Fixpoint undigits (acc : Z) (l : list ascii) : option Z :=
  match l with
  | [] => Some acc
  | c :: l => if is_digit c then undigits (10 * acc + (code c - 48)) l else None
  end.

(** Reads exactly [w] digits. *)
Definition number (w : nat) (l : list ascii) : option (Z * list ascii) :=
  if (length l <? w)%nat then None
  else n ← undigits 0 (take w l); Some (n, drop w l).

Definition literal (c : ascii) (l : list ascii) : option (list ascii) :=
  match l with
  | d :: l => if decide (c = d) then Some l else None
  | [] => None
  end.

(** ** Instants *)

(** A [datetime] whose [tzinfo] is UTC. *)
Record datetime := mkDatetime {
  year : Z; month : Z; day : Z; hour : Z; minute : Z; second : Z; microsecond : Z
}.

#[global] Instance datetime_eq_dec : EqDecision datetime.
Proof. solve_decision. Defined.

Definition is_leap (y : Z) : bool :=
  (y mod 4 =? 0) && (negb (y mod 100 =? 0) || (y mod 400 =? 0)).

Definition days_in_month (y m : Z) : Z :=
  if m =? 2 then (if is_leap y then 29 else 28)
  else if (m =? 4) || (m =? 6) || (m =? 9) || (m =? 11) then 30 else 31.

Definition in_range (lo hi n : Z) : bool := (lo <=? n) && (n <=? hi).

(** What the [datetime] constructor accepts. *)
Definition valid_datetime (d : datetime) : bool :=
  in_range 1 9999 (year d) && in_range 1 12 (month d) &&
  in_range 1 (days_in_month (year d) (month d)) (day d) &&
  in_range 0 23 (hour d) && in_range 0 59 (minute d) && in_range 0 59 (second d) &&
  in_range 0 999999 (microsecond d).

Definition fraction (us : Z) : list ascii :=
  if us =? 0 then [] else "."%char :: pad 6 us.

Definition utc_suffix : list ascii := chars "+00:00".

Definition isoformat_chars (d : datetime) : list ascii :=
  (pad 4 (year d) ++ "-"%char :: pad 2 (month d) ++ "-"%char :: pad 2 (day d) ++
   "T"%char :: pad 2 (hour d) ++ ":"%char :: pad 2 (minute d) ++ ":"%char ::
   pad 2 (second d) ++ fraction (microsecond d) ++ utc_suffix)%list.

Definition isoformat (d : datetime) : string := of_chars (isoformat_chars d).

Definition read_fraction (l : list ascii) : option (Z * list ascii) :=
  match l with
  | "."%char :: l => number 6 l
  | _ => Some (0, l)
  end.

Definition fromisoformat (s : string) : option datetime :=
  '(y, l) ← number 4 (chars s);
  l ← literal "-" l; '(mo, l) ← number 2 l;
  l ← literal "-" l; '(d, l) ← number 2 l;
  l ← literal "T" l; '(h, l) ← number 2 l;
  l ← literal ":" l; '(mi, l) ← number 2 l;
  l ← literal ":" l; '(s, l) ← number 2 l;
  '(us, l) ← read_fraction l;
  let dt := mkDatetime y mo d h mi s us in
  if decide (l = utc_suffix) then (if valid_datetime dt then Some dt else None) else None.

(** ** Orders *)

(** Byte-wise comparison of texts, the [BINARY] collation of SQLite. *)
Fixpoint lex_cmp (a b : list ascii) : comparison :=
  match a, b with
  | [], [] => Eq
  | [], _ :: _ => Lt
  | _ :: _, [] => Gt
  | x :: a, y :: b => match code x ?= code y with Eq => lex_cmp a b | c => c end
  end.

Definition text_cmp (a b : string) : comparison := lex_cmp (chars a) (chars b).

Definition and_then (c d : comparison) : comparison :=
  match c with Eq => d | _ => c end.

(** Chronological order of UTC instants. *)
Definition datetime_cmp (a b : datetime) : comparison :=
  and_then (year a ?= year b) (and_then (month a ?= month b) (and_then (day a ?= day b)
  (and_then (hour a ?= hour b) (and_then (minute a ?= minute b)
  (and_then (second a ?= second b) (microsecond a ?= microsecond b)))))).

(** ** JSON strings *)

Definition hex_digit (n : Z) : ascii :=
  if n <? 10 then digit n else ascii_of_N (Z.to_N (87 + n)).

Definition unhex (c : ascii) : option Z :=
  if is_digit c then Some (code c - 48)
  else if between 97 102 c then Some (code c - 87)
  else if between 65 70 c then Some (code c - 55)
  else None.

Definition quote : ascii := ascii_of_N 34.

(** One character inside a literal. *)
Definition json_escape (c : ascii) : list ascii :=
  if code c =? 34 then ["\"%char; quote]
  else if code c =? 92 then ["\"; "\"]%char
  else if code c =? 10 then ["\"; "n"]%char
  else if code c =? 13 then ["\"; "r"]%char
  else if code c =? 9 then ["\"; "t"]%char
  else if code c =? 12 then ["\"; "f"]%char
  else if code c =? 8 then ["\"; "b"]%char
  else if between 32 126 c then [c]
  else ["\"; "u"; "0"; "0"; hex_digit (code c / 16); hex_digit (code c mod 16)]%char.

Definition json_string (l : list ascii) : list ascii :=
  (quote :: flat_map json_escape l ++ [quote])%list.

Definition json_unescape (c : ascii) : option ascii :=
  if (code c =? 34) || (code c =? 92) || (code c =? 47) then Some c
  else if code c =? 110 then Some (ascii_of_N 10)
  else if code c =? 114 then Some (ascii_of_N 13)
  else if code c =? 116 then Some (ascii_of_N 9)
  else if code c =? 102 then Some (ascii_of_N 12)
  else if code c =? 98 then Some (ascii_of_N 8)
  else None.

(** The body of a literal up to its closing quote, and what follows.  A code
    point above 255 is outside the modelled strings. *)
Fixpoint json_scan (l : list ascii) : option (list ascii * list ascii) :=
  match l with
  | [] => None
  | c :: l =>
      if decide (c = quote) then Some ([], l)
      else if code c <? 32 then None
      else if decide (c = "\"%char) then
        match l with
        | "u"%char :: a :: b :: x :: y :: l =>
            a ← unhex a; b ← unhex b; x ← unhex x; y ← unhex y;
            if (a =? 0) && (b =? 0) then
              '(s, l) ← json_scan l; Some (ascii_of_N (Z.to_N (16 * x + y)) :: s, l)
            else None
        | c :: l => c ← json_unescape c; '(s, l) ← json_scan l; Some (c :: s, l)
        | [] => None
        end
      else '(s, l) ← json_scan l; Some (c :: s, l)
  end.

(** ** Round trips *)

Lemma code_range c : 0 <= code c < 256.
Proof. unfold code. pose proof (N_ascii_bounded c). lia. Qed.

Lemma code_ascii_of_N n : (n < 256)%N -> code (ascii_of_N n) = Z.of_N n.
Proof. intros H. unfold code. by rewrite N_ascii_embedding. Qed.

Lemma code_inj c d : code c = code d -> c = d.
Proof.
  unfold code. intros H. apply N2Z.inj in H.
  by rewrite <- (ascii_N_embedding c), H, ascii_N_embedding.
Qed.

Lemma code_digit n : 0 <= n < 10 -> code (digit n) = 48 + n.
Proof. intros H. unfold digit. rewrite code_ascii_of_N; lia. Qed.

Lemma is_digit_digit n : 0 <= n < 10 -> is_digit (digit n) = true.
Proof. intros H. unfold is_digit, between. rewrite code_digit by done. lia. Qed.

Lemma length_pad w : forall n, length (pad w n) = w.
Proof. induction w as [|w IH]; intros n; simpl; [done|]. rewrite length_app, IH. simpl. lia. Qed.

Lemma undigits_app l1 : forall acc l2,
  undigits acc (l1 ++ l2) = n ← undigits acc l1; undigits n l2.
Proof.
  induction l1 as [|c l1 IH]; intros acc l2; simpl; [done|]. by destruct (is_digit c).
Qed.

Lemma undigits_pad w : forall n acc, 0 <= n < 10 ^ Z.of_nat w ->
  undigits acc (pad w n) = Some (acc * 10 ^ Z.of_nat w + n).
Proof.
  induction w as [|w IH]; intros n acc H; simpl.
  { f_equal. simpl in H. lia. }
  rewrite Nat2Z.inj_succ, Z.pow_succ_r in * by lia.
  rewrite undigits_app, IH; [|split; [apply Z.div_pos|apply Z.div_lt_upper_bound]; lia].
  pose proof (Z.mod_pos_bound n 10 ltac:(lia)). pose proof (Z.div_mod n 10 ltac:(lia)).
  simpl. rewrite is_digit_digit, code_digit by lia. f_equal. lia.
Qed.

Lemma number_pad w n l : 0 <= n < 10 ^ Z.of_nat w -> number w (pad w n ++ l) = Some (n, l).
Proof.
  intros H. unfold number. rewrite length_app, length_pad.
  replace (w + length l <? w)%nat with false by (symmetry; apply Nat.ltb_ge; lia).
  rewrite take_app_length', drop_app_length', undigits_pad by (auto using length_pad).
  done.
Qed.

Lemma literal_eq c l : literal c (c :: l) = Some l.
Proof. simpl. by rewrite decide_True. Qed.

Lemma in_range_spec lo hi n : in_range lo hi n = true <-> lo <= n <= hi.
Proof. unfold in_range. lia. Qed.

Lemma days_in_month_le y m : days_in_month y m <= 31.
Proof. unfold days_in_month. repeat case_match; lia. Qed.

Lemma valid_datetime_ranges d :
  valid_datetime d = true ->
  (0 <= year d < 10 ^ 4 /\ 0 <= month d < 10 ^ 2 /\ 0 <= day d < 10 ^ 2) /\
  (0 <= hour d < 10 ^ 2 /\ 0 <= minute d < 10 ^ 2 /\ 0 <= second d < 10 ^ 2) /\
  0 <= microsecond d < 10 ^ 6.
Proof.
  unfold valid_datetime. rewrite !andb_true_iff, !in_range_spec.
  pose proof (days_in_month_le (year d) (month d)). lia.
Qed.

Lemma read_fraction_fraction us :
  0 <= us < 10 ^ 6 -> read_fraction (fraction us ++ utc_suffix) = Some (us, utc_suffix).
Proof.
  intros H. unfold fraction. destruct (us =? 0) eqn:E.
  - simpl. do 2 f_equal. lia.
  - change (number 6 (pad 6 us ++ utc_suffix) = Some (us, utc_suffix)). by rewrite (number_pad 6).
Qed.

(** Reading back what [isoformat] wrote gives the same instant. *)
Lemma fromisoformat_isoformat d :
  valid_datetime d = true -> fromisoformat (isoformat d) = Some d.
Proof.
  intros Hv. destruct (valid_datetime_ranges d Hv) as ((Hy & Hmo & Hd) & (Hh & Hmi & Hs) & Hus).
  unfold fromisoformat, isoformat, isoformat_chars. rewrite chars_of_chars.
  rewrite (number_pad 4) by done. cbn [mbind option_bind].
  do 5 (rewrite literal_eq; cbn [mbind option_bind];
        rewrite (number_pad 2) by done; cbn [mbind option_bind]).
  rewrite read_fraction_fraction by done. cbn [mbind option_bind].
  rewrite decide_True by done.
  destruct d; simpl in *. by rewrite Hv.
Qed.

(** ** Text order is chronological order *)

Lemma lex_cmp_app a : forall b x y, length a = length b ->
  lex_cmp (a ++ x) (b ++ y) = and_then (lex_cmp a b) (lex_cmp x y).
Proof.
  induction a as [|c a IH]; intros [|d b] x y H; simpl in *; try done.
  rewrite IH by lia. by destruct (code c ?= code d).
Qed.

Lemma lex_cmp_cons c x y : lex_cmp (c :: x) (c :: y) = lex_cmp x y.
Proof. simpl. by rewrite Z.compare_refl. Qed.

Lemma lex_cmp_refl x : lex_cmp x x = Eq.
Proof. induction x; [done|]. by rewrite lex_cmp_cons. Qed.

Lemma compare_div10 a b :
  (a ?= b) = and_then (a / 10 ?= b / 10) (a mod 10 ?= b mod 10).
Proof.
  pose proof (Z.div_mod a 10 ltac:(lia)). pose proof (Z.div_mod b 10 ltac:(lia)).
  pose proof (Z.mod_pos_bound a 10 ltac:(lia)). pose proof (Z.mod_pos_bound b 10 ltac:(lia)).
  destruct (Z.compare_spec (a / 10) (b / 10)); simpl;
    destruct (Z.compare_spec (a mod 10) (b mod 10));
    first [apply Z.compare_eq_iff|apply Z.compare_lt_iff|apply Z.compare_gt_iff]; lia.
Qed.

Lemma lex_cmp_pad w : forall a b, 0 <= a < 10 ^ Z.of_nat w -> 0 <= b < 10 ^ Z.of_nat w ->
  lex_cmp (pad w a) (pad w b) = (a ?= b).
Proof.
  induction w as [|w IH]; intros a b Ha Hb; simpl.
  { simpl in Ha, Hb. symmetry. apply Z.compare_eq_iff. lia. }
  rewrite Nat2Z.inj_succ, Z.pow_succ_r in * by lia.
  rewrite lex_cmp_app by (by rewrite !length_pad).
  rewrite IH by (split; [apply Z.div_pos|apply Z.div_lt_upper_bound]; lia).
  rewrite (compare_div10 a b). f_equal. simpl.
  pose proof (Z.mod_pos_bound a 10 ltac:(lia)). pose proof (Z.mod_pos_bound b 10 ltac:(lia)).
  rewrite !code_digit by lia. rewrite Z.add_compare_mono_l. by destruct (_ ?= _).
Qed.

Lemma lex_cmp_pad_app w a b x y :
  0 <= a < 10 ^ Z.of_nat w -> 0 <= b < 10 ^ Z.of_nat w ->
  lex_cmp (pad w a ++ x) (pad w b ++ y) = and_then (a ?= b) (lex_cmp x y).
Proof. intros. rewrite lex_cmp_app by (by rewrite !length_pad). by rewrite lex_cmp_pad. Qed.

(** An instant without microseconds has no fraction; its text goes on with a
    plus sign, which sorts before the dot. *)
Lemma lex_cmp_fraction a b : 0 <= a < 10 ^ 6 -> 0 <= b < 10 ^ 6 ->
  lex_cmp (fraction a ++ utc_suffix) (fraction b ++ utc_suffix) = (a ?= b).
Proof.
  intros Ha Hb. unfold fraction.
  destruct (a =? 0) eqn:Ea, (b =? 0) eqn:Eb.
  - replace a with b by lia. by rewrite Z.compare_refl.
  - simpl. symmetry. apply Z.compare_lt_iff. lia.
  - simpl. symmetry. apply Z.compare_gt_iff. lia.
  - rewrite <- !app_comm_cons, lex_cmp_cons, (lex_cmp_pad_app 6) by done.
    rewrite lex_cmp_refl. by destruct (a ?= b).
Qed.

Lemma text_cmp_isoformat a b :
  valid_datetime a = true -> valid_datetime b = true ->
  text_cmp (isoformat a) (isoformat b) = datetime_cmp a b.
Proof.
  intros Ha%valid_datetime_ranges Hb%valid_datetime_ranges.
  destruct Ha as ((? & ? & ?) & (? & ? & ?) & ?), Hb as ((? & ? & ?) & (? & ? & ?) & ?).
  unfold text_cmp, isoformat, isoformat_chars, datetime_cmp. rewrite !chars_of_chars.
  rewrite (lex_cmp_pad_app 4) by done.
  do 5 rewrite lex_cmp_cons, (lex_cmp_pad_app 2) by done.
  by rewrite lex_cmp_fraction.
Qed.

(** ** JSON strings *)

(** Every escape is read back as the character it stands for. *)
Lemma json_scan_escape c l :
  json_scan (json_escape c ++ l) = '(s, l) ← json_scan l; Some (c :: s, l).
Proof. destruct c as [[] [] [] [] [] [] [] []]; reflexivity. Qed.

Lemma json_scan_string s l :
  json_scan (flat_map json_escape s ++ quote :: l) = Some (s, l).
Proof.
  induction s as [|c s IH]; [done|].
  cbn [flat_map]. by rewrite <- app_assoc, json_scan_escape, IH.
Qed.

(** ** Comparisons *)

(** A three-way comparison that is a total preorder. *)
Class Comparison {A} (cmp : A -> A -> comparison) : Prop := {
  cmp_opp a b : cmp b a = CompOpp (cmp a b);
  cmp_congr a b c : cmp a b = Eq -> cmp a c = cmp b c;
  cmp_trans a b c : cmp a b = Gt -> cmp b c = Gt -> cmp a c = Gt
}.

#[global] Instance Z_comparison : Comparison Z.compare.
Proof.
  split; intros a b; [apply Z.compare_antisym|intros c H|intros c; rewrite !Z.compare_gt_iff; lia].
  by apply Z.compare_eq_iff in H as ->.
Qed.

Lemma lex_cmp_eq a : forall b, lex_cmp a b = Eq -> a = b.
Proof.
  induction a as [|x a IH]; intros [|y b]; simpl; try done.
  destruct (Z.compare_spec (code x) (code y)) as [H%code_inj| |]; [subst|done|done].
  intros H. f_equal. auto.
Qed.

#[global] Instance lex_comparison : Comparison lex_cmp.
Proof.
  split.
  - intros a. induction a as [|x a IH]; intros [|y b]; simpl; try done.
    rewrite (Z.compare_antisym (code x) (code y)), IH. by destruct (code x ?= code y).
  - by intros a b c ->%lex_cmp_eq.
  - intros a. induction a as [|x a IH]; intros [|y b] [|z c]; simpl; try done.
    destruct (Z.compare_spec (code x) (code y)) as [->| |Hxy]; [|done|].
    + destruct (code y ?= code z); [eauto|done|done].
    + intros _. destruct (Z.compare_spec (code y) (code z)) as [<-| |Hyz]; [|done|];
        by replace (code x ?= _) with Gt by (symmetry; apply Z.compare_gt_iff; lia).
Qed.

(** Comparing by one key, then by another. *)
#[global] Instance and_then_comparison {A} (f g : A -> A -> comparison) :
  Comparison f -> Comparison g -> Comparison (fun a b => and_then (f a b) (g a b)).
Proof.
  intros Hf Hg. split.
  - intros a b. rewrite (cmp_opp (cmp := f) a b), (cmp_opp (cmp := g) a b). by destruct (f a b).
  - intros a b c. destruct (f a b) eqn:E; simpl; try done. intros H.
    by rewrite (cmp_congr (cmp := f) a b c E), (cmp_congr (cmp := g) a b c H).
  - intros a b c. destruct (f a b) eqn:E; simpl; try done; intros H.
    + rewrite (cmp_congr (cmp := f) a b c E). destruct (f b c); simpl; try done.
      by apply (cmp_trans (cmp := g)).
    + destruct (f b c) eqn:F; simpl; try done; intros H'.
      * assert (f c b = Eq) as F' by (rewrite (cmp_opp (cmp := f) b c), F; done).
        rewrite (cmp_opp (cmp := f) c a), (cmp_congr (cmp := f) c b a F').
        by rewrite (cmp_opp (cmp := f) a b), E.
      * by rewrite (cmp_trans (cmp := f) a b c E F).
Qed.

#[global] Instance proj_comparison {A B} (f : A -> A -> comparison) (p : B -> A) :
  Comparison f -> Comparison (fun a b => f (p a) (p b)).
Proof.
  intros Hf. split; intros a b.
  - apply (cmp_opp (cmp := f)).
  - intros c. apply (cmp_congr (cmp := f)).
  - intros c. apply (cmp_trans (cmp := f)).
Qed.

Lemma not_lt_trans {A} (f : A -> A -> comparison) `{!Comparison f} a b c :
  f a b <> Lt -> f b c <> Lt -> f a c <> Lt.
Proof.
  destruct (f a b) eqn:E; [|done|].
  - by rewrite (cmp_congr (cmp := f) a b c E).
  - intros _. destruct (f b c) eqn:F; [|done|].
    + assert (f c b = Eq) as F' by (rewrite (cmp_opp (cmp := f) b c), F; done).
      rewrite (cmp_opp (cmp := f) c a), (cmp_congr (cmp := f) c b a F').
      by rewrite (cmp_opp (cmp := f) a b), E.
    + by rewrite (cmp_trans (cmp := f) a b c E F).
Qed.
