(* ===== verification/PyCodec.v ===== *)
(** * Numbers and bytes as text

    Positional notation in any base with its round trip, Python's [str(int)]
    and [int(text)], UTF-8, and URL-safe base64 ([base64.urlsafe_b64encode]),
    for the code that builds keys, signatures and stored values. *)

From Stdlib Require Import ZArith Lia Ascii String.
From stdpp Require Import base numbers strings sets list.
From S2P Require Import Prelude PyString PyText.

Open Scope string_scope.
Open Scope Z_scope.

(** ** Positional notation *)

(** [while n > 0: n, r = divmod(n, base); chars.append(r)], reversed: the digits
    of [n], most significant first, before [acc]. *)
Fixpoint digits_go (base : Z) (fuel : nat) (n : Z) (acc : list Z) : list Z :=
  match fuel with
  | O => acc
  | S fuel => if 0 <? n then digits_go base fuel (n / base) (n mod base :: acc) else acc
  end.

(** Each pass at least halves [n]. *)
Definition digit_fuel (n : Z) : nat := S (Z.to_nat (Z.log2 n)).

Definition digits_of (base n : Z) : list Z := digits_go base (digit_fuel n) n [].

Definition value_of (base : Z) (ds : list Z) : Z := foldl (fun a d => base * a + d) 0 ds.

Definition is_digit_of (base d : Z) : Prop := 0 <= d < base.

Section positional.
Context (base : Z) (Hbase : 2 <= base).

Lemma value_of_app ds es :
  value_of base (ds ++ es) = value_of base ds * base ^ Z.of_nat (length es) + value_of base es.
Proof using Hbase.
  unfold value_of. rewrite foldl_app. generalize (foldl (fun a d => base * a + d) 0 ds).
  revert ds. induction es as [|e es IH] using rev_ind; intros ds a; simpl; [lia|].
  rewrite !foldl_app, length_app. simpl. rewrite (IH ds a).
  rewrite Nat.add_1_r, Nat2Z.inj_succ, Z.pow_succ_r by lia. lia.
Qed.

Lemma value_of_cons d ds :
  value_of base (d :: ds) = d * base ^ Z.of_nat (length ds) + value_of base ds.
Proof using Hbase.
  change (d :: ds) with ([d] ++ ds)%list. rewrite value_of_app. unfold value_of at 1. simpl. lia.
Qed.

Lemma value_of_nonneg ds : Forall (is_digit_of base) ds -> 0 <= value_of base ds.
Proof using Hbase.
  induction 1 as [|d ds Hd _ IH]; [done|]. rewrite value_of_cons. unfold is_digit_of in Hd. nia.
Qed.

Lemma digits_go_value fuel : forall n acc,
  0 <= n -> n < 2 ^ Z.of_nat fuel ->
  value_of base (digits_go base fuel n acc) =
  n * base ^ Z.of_nat (length acc) + value_of base acc.
Proof using Hbase.
  induction fuel as [|fuel IH]; intros n acc Hn Hlt; cbn [digits_go].
  { simpl in Hlt. replace n with 0 by lia. lia. }
  destruct (0 <? n) eqn:E; [|replace n with 0 by lia; lia].
  rewrite Nat2Z.inj_succ, Z.pow_succ_r in Hlt by lia.
  rewrite IH; [|apply Z.div_pos; lia|].
  - rewrite value_of_cons. cbn [length]. rewrite Nat2Z.inj_succ, Z.pow_succ_r by lia.
    rewrite (Z.div_mod n base) at 3 by lia. lia.
  - apply Z.div_lt_upper_bound; [lia|]. nia.
Qed.

Lemma digit_fuel_enough n : 0 <= n -> n < 2 ^ Z.of_nat (digit_fuel n).
Proof using.
  intros Hn. unfold digit_fuel. destruct (Z.eq_dec n 0) as [->|Hne]; [done|].
  rewrite Nat2Z.inj_succ, Z2Nat.id by apply Z.log2_nonneg. apply Z.log2_spec. lia.
Qed.

(** Writing a number and reading it back. *)
Lemma digits_of_value n : 0 <= n -> value_of base (digits_of base n) = n.
Proof using Hbase.
  intros Hn. unfold digits_of. rewrite digits_go_value by (auto using digit_fuel_enough).
  cbn. lia.
Qed.

Lemma digits_go_range fuel : forall n acc,
  0 <= n -> Forall (is_digit_of base) acc -> Forall (is_digit_of base) (digits_go base fuel n acc).
Proof using Hbase.
  induction fuel as [|fuel IH]; intros n acc Hn Hacc; cbn [digits_go]; [done|].
  destruct (0 <? n); [|done]. apply IH; [apply Z.div_pos; lia|]. constructor; [|done].
  apply Z.mod_pos_bound. lia.
Qed.

Lemma digits_of_range n : 0 <= n -> Forall (is_digit_of base) (digits_of base n).
Proof using Hbase. intros Hn. by apply digits_go_range. Qed.

(** No leading zero. *)
Lemma digits_go_head fuel : forall n acc,
  0 < n -> n < 2 ^ Z.of_nat fuel -> exists d ds, digits_go base fuel n acc = d :: ds /\ 0 < d.
Proof using Hbase.
  induction fuel as [|fuel IH]; intros n acc Hn Hlt; cbn [digits_go]; [simpl in Hlt; lia|].
  rewrite Nat2Z.inj_succ, Z.pow_succ_r in Hlt by lia.
  replace (0 <? n) with true by lia.
  destruct (Z.lt_ge_cases 0 (n / base)) as [Hq|Hq].
  - apply IH; [done|]. apply Z.div_lt_upper_bound; [lia|]. nia.
  - assert (n / base = 0) as Hq0 by (pose proof (Z.div_pos n base ltac:(lia) ltac:(lia)); lia).
    rewrite Hq0. exists (n mod base), acc. split; [by destruct fuel|].
    pose proof (Z.div_mod n base ltac:(lia)). lia.
Qed.

Lemma digits_of_head n : 0 < n -> exists d ds, digits_of base n = d :: ds /\ 0 < d.
Proof using Hbase. intros Hn. apply digits_go_head; [done|]. apply digit_fuel_enough. lia. Qed.

(** Numbers without leading zero have one spelling. *)
Lemma value_of_bounds ds : Forall (is_digit_of base) ds ->
  value_of base ds < base ^ Z.of_nat (length ds).
Proof using Hbase.
  induction 1 as [|d ds Hd Hds IH]; [done|]. rewrite value_of_cons. cbn [length].
  rewrite Nat2Z.inj_succ, Z.pow_succ_r by lia. unfold is_digit_of in Hd. nia.
Qed.

Lemma value_of_inj_length ds : forall es,
  length ds = length es -> Forall (is_digit_of base) ds -> Forall (is_digit_of base) es ->
  value_of base ds = value_of base es -> ds = es.
Proof using Hbase.
  induction ds as [|d ds IH]; intros [|e es] Hl Hd He Hv; simpl in Hl; try done.
  inversion Hd as [|? ? Hd1 Hds]; inversion He as [|? ? He1 Hes]; subst.
  rewrite !value_of_cons in Hv. replace (length es) with (length ds) in Hv by lia.
  pose proof (value_of_bounds ds Hds). pose proof (value_of_nonneg ds Hds).
  pose proof (value_of_bounds es Hes) as Hb. pose proof (value_of_nonneg es Hes).
  replace (length es) with (length ds) in Hb by lia.
  assert (d = e) as -> by nia. f_equal. apply IH; auto; lia.
Qed.

Definition no_leading_zero (ds : list Z) : Prop :=
  match ds with [] => True | d :: _ => 0 < d end.

(** A numeral without leading zeros is as long as its value says. *)
Lemma value_of_leading ds : Forall (is_digit_of base) ds -> no_leading_zero ds -> ds <> [] ->
  base ^ (Z.of_nat (length ds) - 1) <= value_of base ds < base ^ Z.of_nat (length ds).
Proof using Hbase.
  destruct ds as [|x l]; [done|]. intros Hl Hz _. split; [|by apply value_of_bounds].
  inversion Hl; subst. rewrite value_of_cons. cbn [length no_leading_zero] in *.
  rewrite Nat2Z.inj_succ. replace (Z.succ (Z.of_nat (length l)) - 1) with (Z.of_nat (length l)) by lia.
  pose proof (value_of_nonneg l ltac:(done)). nia.
Qed.

Lemma value_of_positive ds : Forall (is_digit_of base) ds -> no_leading_zero ds -> ds <> [] ->
  0 < value_of base ds.
Proof using Hbase.
  intros Hd Hz Hne. pose proof (value_of_leading ds Hd Hz Hne).
  pose proof (Z.pow_pos_nonneg base (Z.of_nat (length ds) - 1)). destruct ds; cbn [length] in *; [done|]. lia.
Qed.

Lemma value_of_inj ds es :
  Forall (is_digit_of base) ds -> Forall (is_digit_of base) es ->
  no_leading_zero ds -> no_leading_zero es -> value_of base ds = value_of base es -> ds = es.
Proof using Hbase.
  intros Hd He Zd Ze Hv. apply value_of_inj_length; try done.
  destruct ds as [|d ds], es as [|e es]; [done| | |].
  1: { pose proof (value_of_positive (e :: es) He Ze ltac:(done)) as H1. rewrite <- Hv in H1. by cbn in H1. }
  1: { pose proof (value_of_positive (d :: ds) Hd Zd ltac:(done)) as H1. rewrite Hv in H1. by cbn in H1. }
  destruct (value_of_leading (d :: ds) Hd Zd ltac:(done)) as [H1 H2].
  destruct (value_of_leading (e :: es) He Ze ltac:(done)) as [H3 H4]. rewrite Hv in H1, H2.
  pose proof (Z.pow_lt_mono_r_iff base (Z.of_nat (length (d :: ds)) - 1) (Z.of_nat (length (e :: es)))
    ltac:(lia) ltac:(lia)) as I1.
  pose proof (Z.pow_lt_mono_r_iff base (Z.of_nat (length (e :: es)) - 1) (Z.of_nat (length (d :: ds)))
    ltac:(lia) ltac:(lia)) as I2.
  lia.
Qed.

(** A number without leading zeros is the numeral of its value. *)
Lemma digits_of_value_of ds : Forall (is_digit_of base) ds -> no_leading_zero ds -> ds <> [] ->
  digits_of base (value_of base ds) = ds.
Proof using Hbase.
  intros Hd Hz Hne. pose proof (value_of_positive ds Hd Hz Hne).
  apply value_of_inj; try done; [apply digits_of_range; lia| |apply digits_of_value; lia].
  by destruct (digits_of_head (value_of base ds)) as (d & es & -> & ?).
Qed.
End positional.

(** ** Decimal integers *)

(** [str(n)] *)
Definition str_of_int (n : Z) : string :=
  of_chars (if n <? 0 then "-"%char :: map digit (digits_of 10 (- n))
            else if n =? 0 then ["0"%char] else map digit (digits_of 10 n)).

(** Digits, with single underscores between them. *)
Fixpoint int_digits (after_digit : bool) (acc : Z) (l : list ascii) : option Z :=
  match l with
  | [] => if after_digit then Some acc else None
  | c :: l =>
      if is_digit c then int_digits true (10 * acc + (code c - 48)) l
      else if decide (c = "_"%char) then if after_digit then int_digits false acc l else None
      else None
  end.

(** What [int] and [float] take for white space: C's in an ASCII text *)
Definition int_space (l : list ascii) (c : ascii) : bool :=
  if forallb (between 0 127) l then between 9 13 c || (code c =? 32) else is_space c.

(** [int(text)], [None] for a [ValueError] *)
Definition int_of_str (s : string) : option Z :=
  match strip_list (int_space (chars s)) (chars s) with
  | [] => None
  | c :: l =>
      if decide (c = "-"%char) then Z.opp <$> int_digits false 0 l
      else if decide (c = "+"%char) then int_digits false 0 l
      else int_digits false 0 (c :: l)
  end.

(** Lua's [tonumber] on the numerals the code passes around: decimal digits. *)
Definition lua_tonumber (s : string) : option Z :=
  match chars s with [] => None | l => undigits 0 l end.

Lemma code_digit_Z n : is_digit_of 10 n -> is_digit (digit n) = true /\ code (digit n) - 48 = n.
Proof. unfold is_digit_of. intros H. rewrite is_digit_digit, code_digit by lia. lia. Qed.

Lemma undigits_map ds : forall acc, Forall (is_digit_of 10) ds ->
  undigits acc (map digit ds) = Some (foldl (fun a d => 10 * a + d) acc ds).
Proof.
  induction ds as [|d ds IH]; intros acc Hds; [done|]. inversion Hds as [|? ? Hd Hds']; subst.
  destruct (code_digit_Z d Hd) as [H1 H2]. cbn [map undigits foldl]. by rewrite H1, H2, IH.
Qed.

Lemma int_digits_map ds : forall b acc, Forall (is_digit_of 10) ds -> ds <> [] ->
  int_digits b acc (map digit ds) = Some (foldl (fun a d => 10 * a + d) acc ds).
Proof.
  induction ds as [|d ds IH]; intros b acc Hds Hne; [done|]. inversion Hds as [|? ? Hd Hds']; subst.
  destruct (code_digit_Z d Hd) as [H1 H2]. cbn [map int_digits foldl]. rewrite H1, H2.
  destruct ds as [|d' ds]; [done|]. by apply IH.
Qed.

(** What a non-negative integer looks like. *)
Lemma str_of_int_digits n : 0 <= n ->
  exists ds, chars (str_of_int n) = map digit ds /\ Forall (is_digit_of 10) ds /\ ds <> [] /\
             value_of 10 ds = n.
Proof.
  intros Hn. unfold str_of_int. rewrite chars_of_chars. replace (n <? 0) with false by lia.
  destruct (n =? 0) eqn:E.
  - exists [0]. split; [done|]. split; [by repeat constructor|]. split; [done|]. cbn. lia.
  - exists (digits_of 10 n). split; [done|]. split; [apply digits_of_range; lia|].
    split; [|apply digits_of_value; lia].
    destruct (digits_of_head 10 ltac:(lia) n) as (d & ds & -> & _); [lia|done].
Qed.

Lemma lua_tonumber_str n : 0 <= n -> lua_tonumber (str_of_int n) = Some n.
Proof.
  intros Hn. destruct (str_of_int_digits n Hn) as (ds & Hc & Hr & Hne & Hv).
  unfold lua_tonumber. rewrite Hc. destruct ds as [|d ds]; [done|].
  change (undigits 0 (map digit (d :: ds)) = Some n). rewrite undigits_map by done.
  f_equal. exact Hv.
Qed.

Lemma str_of_int_inj m n : 0 <= m -> 0 <= n -> str_of_int m = str_of_int n -> m = n.
Proof.
  intros Hm Hn H%(f_equal lua_tonumber). rewrite !lua_tonumber_str in H by done. by injection H.
Qed.

Lemma is_space_digit n : is_digit_of 10 n -> is_space (digit n) = false.
Proof.
  unfold is_digit_of. intros H. unfold is_space, between. rewrite code_digit by lia.
  rewrite !orb_false_iff, !andb_false_iff, !Z.leb_gt, !Z.eqb_neq. lia.
Qed.

Lemma strip_list_id p (l : list ascii) : (forall c, c ∈ l -> p c = false) -> strip_list p l = l.
Proof.
  intros Hp. unfold strip_list.
  assert (forall l, (forall c, c ∈ l -> p c = false) -> drop_while p l = l) as Hd.
  { intros [|c l'] H; [done|]. simpl. rewrite (H c); [done|]. set_solver. }
  rewrite (Hd l Hp), Hd; [apply rev_involutive|].
  intros c Hc. apply Hp. by apply list_elem_of_In, in_rev, list_elem_of_In in Hc.
Qed.

(** [int(str(n)) = n] *)
(** Only a text of characters to strip is stripped to nothing. *)
Lemma strip_list_empty p (l : list ascii) : strip_list p l = [] -> forall c, c ∈ l -> p c = true.
Proof.
  unfold strip_list. intros H c Hc.
  assert (drop_while p (rev (drop_while p l)) = []) as H2
    by (by rewrite <- (rev_involutive (drop_while p _)), H).
  apply drop_while_nil in H2. rewrite forallb_rev in H2.
  destruct (drop_while p l) as [|d r] eqn:E.
  - apply drop_while_nil in E. rewrite forallb_forall in E. by apply E, list_elem_of_In.
  - exfalso. assert (p d = false) as Hd.
    { clear -E. induction l as [|x l IH]; cbn in E; [done|]. destruct (p x) eqn:Ex; [auto|]. congruence. }
    cbn in H2. by rewrite Hd in H2.
Qed.

Lemma not_int_space l c : is_space c = false -> int_space l c = false.
Proof. unfold int_space, is_space, between. intros. case_match; bool_lia. Qed.

Lemma int_of_str_str n : 0 <= n -> int_of_str (str_of_int n) = Some n.
Proof.
  intros Hn. destruct (str_of_int_digits n Hn) as (ds & Hc & Hr & Hne & Hv).
  unfold int_of_str. rewrite Hc, strip_list_id.
  2: { intros c (d & -> & Hd)%list_elem_of_fmap. rewrite Forall_forall in Hr.
       by apply not_int_space, is_space_digit, Hr. }
  destruct ds as [|d ds]; [done|]. cbn [map]. inversion Hr as [|? ? Hd _]; subst.
  assert (forall c, is_digit c = false -> digit d <> c) as Hnd.
  { intros c Hf <-. destruct (code_digit_Z d Hd). congruence. }
  rewrite !decide_False by (by apply Hnd).
  change (digit d :: map digit ds) with (map digit (d :: ds)). rewrite int_digits_map by done. done.
Qed.

(** ** UTF-8 *)

(** [text.encode()], for code points below 256 *)
Definition utf8_char (c : ascii) : list Z :=
  if code c <? 128 then [code c] else [192 + code c / 64; 128 + code c mod 64].

Definition utf8 (s : string) : list Z := flat_map utf8_char (chars s).

Definition is_byte (b : Z) : Prop := 0 <= b < 256.

Lemma utf8_bytes s : Forall is_byte (utf8 s).
Proof.
  unfold utf8. induction (chars s) as [|c l IH]; simpl; [constructor|]. apply Forall_app. split; [|done].
  pose proof (code_range c). unfold utf8_char, is_byte. destruct (code c <? 128) eqn:E.
  - repeat constructor; lia.
  - repeat constructor; try apply Z.add_nonneg_nonneg;
      pose proof (Z.div_lt_upper_bound (code c) 64 4 ltac:(lia) ltac:(lia));
      pose proof (Z.div_pos (code c) 64); pose proof (Z.mod_pos_bound (code c) 64); lia.
Qed.

(** The encoding of one character is never the start of another's. *)
Lemma utf8_char_inj c d x y :
  (utf8_char c ++ x = utf8_char d ++ y)%list -> c = d /\ x = y.
Proof.
  pose proof (code_range c). pose proof (code_range d). unfold utf8_char.
  pose proof (Z.div_mod (code c) 64 ltac:(lia)). pose proof (Z.div_mod (code d) 64 ltac:(lia)).
  destruct (code c <? 128) eqn:Ec, (code d <? 128) eqn:Ed; simpl; intros [=].
  - split; [by apply code_inj|done].
  - pose proof (Z.div_pos (code d) 64). lia.
  - pose proof (Z.div_pos (code c) 64). lia.
  - split; [apply code_inj; lia|done].
Qed.

Lemma utf8_inj s t : utf8 s = utf8 t -> s = t.
Proof.
  unfold utf8. intros H. apply chars_inj. revert H. generalize (chars t). intros l2.
  assert (forall c l, utf8_char c ++ l <> [])%list as Hne.
  { intros c l. unfold utf8_char. by destruct (code c <? 128). }
  revert l2. induction (chars s) as [|c l IH]; intros [|d l2]; simpl; intros H.
  - done.
  - by destruct (Hne d (flat_map utf8_char l2)).
  - by destruct (Hne c (flat_map utf8_char l)).
  - apply utf8_char_inj in H as [-> H]. f_equal. by apply IH.
Qed.

(** ** URL-safe base64 *)

Definition b64_char (n : Z) : ascii :=
  if n <? 26 then ascii_of_N (Z.to_N (65 + n))
  else if n <? 52 then ascii_of_N (Z.to_N (71 + n))
  else if n <? 62 then digit (n - 52)
  else if n =? 62 then "-"%char else "_"%char.

Fixpoint b64_groups (l : list Z) : list ascii :=
  match l with
  | a :: b :: c :: l =>
      b64_char (a / 4) :: b64_char (16 * (a mod 4) + b / 16) ::
      b64_char (4 * (b mod 16) + c / 64) :: b64_char (c mod 64) :: b64_groups l
  | [a; b] => [b64_char (a / 4); b64_char (16 * (a mod 4) + b / 16); b64_char (4 * (b mod 16)); "="%char]
  | [a] => [b64_char (a / 4); b64_char (16 * (a mod 4)); "="%char; "="%char]
  | [] => []
  end.

(** [base64.urlsafe_b64encode(bytes).decode().rstrip("=")] *)
Definition rstrip (p : ascii -> bool) (l : list ascii) : list ascii := rev (drop_while p (rev l)).

Definition b64_tag (l : list Z) : list ascii :=
  rstrip (fun c => bool_decide (c = "="%char)) (b64_groups l).

(** *** The tag determines the bytes *)

(** The 6-bit groups without padding. *)
Fixpoint sextets (l : list Z) : list Z :=
  match l with
  | a :: b :: c :: l =>
      a / 4 :: 16 * (a mod 4) + b / 16 :: 4 * (b mod 16) + c / 64 :: c mod 64 :: sextets l
  | [a; b] => [a / 4; 16 * (a mod 4) + b / 16; 4 * (b mod 16)]
  | [a] => [a / 4; 16 * (a mod 4)]
  | [] => []
  end.

(** Induction three elements at a time. *)
Lemma triple_ind {A} (P : list A -> Prop) :
  P [] -> (forall a, P [a]) -> (forall a b, P [a; b]) ->
  (forall a b c l, P l -> P (a :: b :: c :: l)) -> forall l, P l.
Proof.
  intros H0 H1 H2 H3 l. remember (length l) as n eqn:Hn. assert (length l <= n)%nat as Hl by lia.
  clear Hn. revert l Hl. induction n as [|n IH]; intros [|a [|b [|c l]]] Hl; simpl in Hl; try done; try lia.
  apply H3, IH. lia.
Qed.

Lemma div_mod_split k a : 0 < k -> a = k * (a / k) + a mod k /\ 0 <= a mod k < k.
Proof. intros Hk. split; [apply Z.div_mod; lia|apply Z.mod_pos_bound; lia]. Qed.

(** Adds quotient and remainder facts for the divisions by [k] of the variables. *)
Ltac split_div k a := destruct (div_mod_split k a ltac:(lia)).

Lemma sextets_range l : Forall is_byte l -> Forall (is_digit_of 64) (sextets l).
Proof.
  unfold is_byte, is_digit_of. induction l as [|a|a b|a b c l IH] using triple_ind; cbn [sextets];
    rewrite ?Forall_cons; intros Hl; [constructor| | |];
    destruct_and?; split_div 4 a; try (split_div 16 b); try (split_div 64 c);
    repeat (split; [lia|]); first [apply Forall_nil_2 | by auto].
Qed.

Lemma sextets_inj l : forall m, Forall is_byte l -> Forall is_byte m -> sextets l = sextets m -> l = m.
Proof.
  unfold is_byte. induction l as [|a|a b|a b c l IH] using triple_ind; intros m Hl Hm He;
    (destruct m as [|a' [|b' [|c' m]]]; cbn [sextets] in He; try done;
     try (destruct m as [|? [|? [|? ?]]]; done);
     try (destruct l as [|? [|? [|? ?]]]; done));
    rewrite ?Forall_cons in Hl; rewrite ?Forall_cons in Hm; destruct_and?;
    injection He as He; split_div 4 a; split_div 4 a'; try (split_div 16 b; split_div 16 b');
    try (split_div 64 c; split_div 64 c').
  - f_equal. lia.
  - repeat f_equal; lia.
  - f_equal; [lia|]. f_equal; [lia|]. f_equal; [lia|]. by apply IH.
Qed.

Lemma code_b64_char n : is_digit_of 64 n ->
  code (b64_char n) = if n <? 26 then 65 + n else if n <? 52 then 71 + n
                      else if n <? 62 then n - 4 else if n =? 62 then 45 else 95.
Proof.
  unfold is_digit_of, b64_char. intros Hn.
  destruct (n <? 26) eqn:E1; [rewrite code_ascii_of_N; lia|].
  destruct (n <? 52) eqn:E2; [rewrite code_ascii_of_N; lia|].
  destruct (n <? 62) eqn:E3; [rewrite code_digit; lia|]. by destruct (n =? 62).
Qed.

Lemma b64_char_inj m n : is_digit_of 64 m -> is_digit_of 64 n -> b64_char m = b64_char n -> m = n.
Proof.
  intros Hm Hn H%(f_equal code). rewrite !code_b64_char in H by done.
  unfold is_digit_of in *. split_ifs; bool_lia.
Qed.

(** Letters, digits, [-] and [_]. *)
Lemma b64_char_ne n c : is_digit_of 64 n -> is_alnum_az c = false -> code c <> 45 -> code c <> 95 ->
  b64_char n <> c.
Proof.
  intros Hn Hc H1 H2 <-. revert Hc H1 H2. unfold is_alnum_az, is_lower_az, is_upper_az, is_digit, between.
  rewrite !code_b64_char by done. unfold is_digit_of in Hn. intros. split_ifs; bool_lia.
Qed.

Lemma drop_while_app_true p l1 l2 : forallb p l1 = true -> drop_while p (l1 ++ l2) = drop_while p l2.
Proof. induction l1 as [|c l1 IH]; simpl; [done|]. by intros [-> ?]%andb_true_iff; auto. Qed.

Lemma drop_while_id p l : (forall c, c ∈ l -> p c = false) -> drop_while p l = l.
Proof. destruct l as [|c l]; [done|]. simpl. intros H. by rewrite H by set_solver. Qed.

Lemma rstrip_app p l pad :
  (forall c, c ∈ l -> p c = false) -> forallb p pad = true -> rstrip p (l ++ pad) = l.
Proof.
  intros Hl Hp. unfold rstrip. rewrite rev_app_distr, drop_while_app_true by by rewrite forallb_rev.
  rewrite drop_while_id; [apply rev_involutive|]. intros c Hc. apply Hl.
  by apply list_elem_of_In, in_rev, list_elem_of_In in Hc.
Qed.

Lemma b64_groups_sextets l : exists n, b64_groups l = (map b64_char (sextets l) ++ repeat "="%char n)%list.
Proof.
  induction l as [|a|a b|a b c l [n IH]] using triple_ind; cbn [b64_groups sextets map].
  - by exists 0%nat.
  - by exists 2%nat.
  - by exists 1%nat.
  - exists n. by rewrite IH.
Qed.

Lemma b64_tag_sextets l : Forall is_byte l -> b64_tag l = map b64_char (sextets l).
Proof.
  intros Hl. unfold b64_tag. destruct (b64_groups_sextets l) as [n ->]. apply rstrip_app.
  - intros c (d & -> & Hd)%list_elem_of_fmap. apply bool_decide_eq_false.
    pose proof (sextets_range l Hl) as Hr. rewrite Forall_forall in Hr. by apply b64_char_ne; auto.
  - apply forallb_forall. intros c ->%repeat_spec. by apply bool_decide_eq_true.
Qed.

Lemma map_inj_on {A B} (P : A -> Prop) (f : A -> B) :
  (forall x y, P x -> P y -> f x = f y -> x = y) ->
  forall l m, Forall P l -> Forall P m -> map f l = map f m -> l = m.
Proof.
  intros Hf l. induction l as [|x l IH]; intros [|y m] Hl Hm; simpl; try done.
  inversion Hl; inversion Hm; subst. intros [=]. f_equal; auto.
Qed.

Lemma b64_tag_inj l m : Forall is_byte l -> Forall is_byte m -> b64_tag l = b64_tag m -> l = m.
Proof.
  intros Hl Hm. rewrite !b64_tag_sextets by done. intros He%(map_inj_on _ _ b64_char_inj);
    [by apply sextets_inj|by apply sextets_range..].
Qed.

Lemma b64_tag_chars l c : Forall is_byte l -> c ∈ b64_tag l -> is_alnum_az c = false ->
  code c <> 45 -> code c <> 95 -> False.
Proof.
  intros Hl. rewrite b64_tag_sextets by done. intros (d & -> & Hd)%list_elem_of_fmap H1 H2 H3.
  pose proof (sextets_range l Hl) as Hr. rewrite Forall_forall in Hr.
  by apply (b64_char_ne d (b64_char d)); auto.
Qed.
