(* ===== verification/ClientErrors.v ===== *)
(** * Errors of the SDK's API calls

    [sdks/sandbox/python/src/opensandbox/]: what becomes of the outcome of a
    request.  The generated client ([api/lifecycle/api/]) decodes the response,
    [adapters/converter/response_handler.py] and [exception_converter.py] turn
    it into a result or a [SandboxException] ([exceptions/sandbox.py]), and every
    method of [adapters/sandboxes_adapter.py] runs this pipeline.

    Text is a list of code points, bytes are integers.  JSON decoding, the
    [repr] of a value and the text of exceptions raised by libraries are
    arguments, as is the decoding of the models of successful answers. *)

From Stdlib Require Import ZArith Lia String Ascii QArith.
From stdpp Require Import base numbers strings gmap list.
From S2P Require Import Prelude PyString PoolTypes PyCodec Retry.

Open Scope string_scope.
Open Scope Z_scope.

Definition text := list Z.

Definition lit (s : string) : text := map code (chars s).

(** ** Decoding bytes *)

Definition REPLACEMENT : Z := 65533.

Definition is_tail (b : Z) : bool := (128 <=? b) && (b <? 192).

(** The length of the sequence a byte starts and the range of the second byte. *)
Definition utf8_lead (b : Z) : option (nat * Z * Z) :=
  if b <? 128 then Some (0%nat, 0, 0)
  else if (194 <=? b) && (b <=? 223) then Some (1%nat, 128, 191)
  else if b =? 224 then Some (2%nat, 160, 191)
  else if b =? 237 then Some (2%nat, 128, 159)
  else if (225 <=? b) && (b <=? 239) then Some (2%nat, 128, 191)
  else if b =? 240 then Some (3%nat, 144, 191)
  else if b =? 244 then Some (3%nat, 128, 143)
  else if (241 <=? b) && (b <=? 243) then Some (3%nat, 128, 191)
  else None.

(** The [n] following bytes; a sequence cut short is one replacement. *)
Fixpoint utf8_tail (n : nat) (lo hi acc : Z) (l : list Z) : Z * list Z :=
  match n with
  | O => (acc, l)
  | S n' =>
      match l with
      | b :: l' => if (lo <=? b) && (b <=? hi) then utf8_tail n' 128 191 (acc * 64 + (b - 128)) l' else (REPLACEMENT, l)
      | [] => (REPLACEMENT, [])
      end
  end.

Fixpoint utf8_go (fuel : nat) (l : list Z) : text :=
  match fuel, l with
  | S fuel, b :: l =>
      match utf8_lead b with
      | None => REPLACEMENT :: utf8_go fuel l
      | Some (n, lo, hi) =>
          let first := match n with O => b | 1%nat => b - 192 | 2%nat => b - 224 | _ => b - 240 end in
          let '(c, l) := utf8_tail n lo hi first l in c :: utf8_go fuel l
      end
  | _, _ => []
  end.

(** [body.decode("utf-8", errors="replace")] *)
Definition utf8_decode (l : list Z) : text := utf8_go (length l) l.

(** [str.isspace] *)
Definition is_uspace (c : Z) : bool :=
  ((9 <=? c) && (c <=? 13)) || ((28 <=? c) && (c <=? 32)) || (c =? 133) || (c =? 160) || (c =? 5760) ||
  ((8192 <=? c) && (c <=? 8202)) || (c =? 8232) || (c =? 8233) || (c =? 8239) || (c =? 8287) || (c =? 12288).

Fixpoint drop_uspace (t : text) : text :=
  match t with
  | c :: t' => if is_uspace c then drop_uspace t' else t
  | [] => []
  end.

Definition ustrip (t : text) : text := rev (drop_uspace (rev (drop_uspace t))).

(** ** JSON values *)

Inductive json :=
  | JNull
  | JBool (b : bool)
  | JNumber (is_zero : bool) (repr : text)
  | JString (t : text)
  | JArray (l : list json)
  | JObject (fields : list (text * json)).

Definition truthy (j : json) : bool :=
  match j with
  | JNull => false
  | JBool b => b
  | JNumber z _ => negb z
  | JString t => negb (bool_decide (t = []))
  | JArray l => negb (bool_decide (length l = 0%nat))
  | JObject f => negb (bool_decide (length f = 0%nat))
  end.

(** ** Exceptions *)

(** [SandboxError] *)
Record SandboxError := mkErr { er_code : text; er_message : option text }.

Inductive sandbox_class :=
  | SandboxExceptionC | SandboxApiException | SandboxRateLimitException | SandboxInternalException
  | SandboxTimeoutException | SandboxConnectionException | SandboxUnhealthyException
  | SandboxReadyTimeoutException | InvalidArgumentException.

#[global] Instance sandbox_class_eq_dec : EqDecision sandbox_class.
Proof. solve_decision. Defined.

Record sandbox_exc := mkSX {
  sx_class : sandbox_class;
  sx_message : text;
  sx_error : SandboxError;
  sx_request_id : option string;
  sx_is_retryable : bool;
  (** the remaining fields are those of [SandboxApiException] *)
  sx_status_code : option Z;
  sx_response_body : option (list Z);
  sx_retry_after : option Z;
}.

(** The subclasses of [httpx.TransportError] *)
Inductive httpx_exc :=
  | HConnectError | HReadError | HWriteError | HCloseError
  | HConnectTimeout | HReadTimeout | HWriteTimeout | HPoolTimeout
  | HLocalProtocolError | HRemoteProtocolError | HProxyError | HUnsupportedProtocol.

Definition is_NetworkError (e : httpx_exc) : bool :=
  match e with HConnectError | HReadError | HWriteError | HCloseError => true | _ => false end.

Definition is_TimeoutException (e : httpx_exc) : bool :=
  match e with HConnectTimeout | HReadTimeout | HWriteTimeout | HPoolTimeout => true | _ => false end.

(** What a call may raise.  [OSErr] is any [OSError] that is no
    [ConnectionError]; [ValueErr] any [ValueError] that is no [ValidationError];
    [BaseEx] is no [Exception]: cancellation, an interrupt. *)
Inductive exn :=
  | Sandbox (x : sandbox_exc)
  | UnexpectedStatus (status : Z) (content : list Z)
  | HTTPStatusError (response : Response) (content : list Z)
  | Httpx (e : httpx_exc)
  | ConnectionErr | OSErr | ValidationErr | ValueErr | TypeErr | NotImplementedErr
  | OtherEx (name : string)
  | BaseEx (name : string).

Definition is_Exc (e : exn) : bool := match e with BaseEx _ => false | _ => true end.

Definition is_Sandbox (e : exn) : bool := match e with Sandbox _ => true | _ => false end.

Definition INTERNAL_UNKNOWN_ERROR := lit "INTERNAL_UNKNOWN_ERROR".
Definition UNEXPECTED_RESPONSE := lit "UNEXPECTED_RESPONSE".
Definition RATE_LIMIT := lit "RATE_LIMIT".

(** The constructors the converters call *)
Definition api_exception (m : text) (st : Z) (e : option SandboxError) (rid : option string) (body : option (list Z)) (r : bool) : sandbox_exc :=
  mkSX SandboxApiException m (default (mkErr UNEXPECTED_RESPONSE None) e) rid r (Some st) body None.

Definition rate_limit_exception (m : text) (st : Z) (e : option SandboxError) (rid : option string) (ra : option Z)
    (body : option (list Z)) (r : bool) : sandbox_exc :=
  mkSX SandboxRateLimitException m (default (mkErr RATE_LIMIT (Some m)) e) rid r (Some st) body ra.

Definition internal_exception (m : text) : sandbox_exc :=
  mkSX SandboxInternalException m (mkErr INTERNAL_UNKNOWN_ERROR None) None false None None None.

Definition timeout_exception (m : text) : sandbox_exc :=
  mkSX SandboxTimeoutException m (mkErr (lit "TIMEOUT") (Some m)) None false None None None.

Definition connection_exception (m : text) (r : bool) : sandbox_exc :=
  mkSX SandboxConnectionException m (mkErr (lit "CONNECTION") (Some m)) None r None None None.

Definition invalid_argument (m : text) : sandbox_exc :=
  mkSX InvalidArgumentException m (mkErr (lit "INVALID_ARGUMENT") (Some m)) None false None None None.

Definition ready_timeout (m : text) : sandbox_exc :=
  mkSX SandboxReadyTimeoutException m (mkErr (lit "READY_TIMEOUT") (Some m)) None false None None None.

(** [" | ".join(parts)] of [SandboxException.__str__] *)
Definition exc_str (x : sandbox_exc) : text :=
  (sx_message x ++
   match er_message (sx_error x) with
   | Some ((_ :: _) as m) => lit " | [" ++ er_code (sx_error x) ++ lit "] " ++ m
   | _ => []
   end ++
   match sx_request_id x with
   | Some r => if (r =? "")%string then [] else lit " | request_id=" ++ lit r
   | None => []
   end)%list.

(** ** Decoding a response (api/lifecycle/) *)

(** The members of [http.HTTPStatus] *)
Definition HTTP_STATUSES : list Z :=
  [100; 101; 102; 103; 200; 201; 202; 203; 204; 205; 206; 207; 208; 226; 300; 301; 302; 303; 304; 305; 307; 308;
   400; 401; 402; 403; 404; 405; 406; 407; 408; 409; 410; 411; 412; 413; 414; 415; 416; 417; 418; 421; 422; 423; 424;
   425; 426; 428; 429; 431; 451; 500; 501; 502; 503; 504; 505; 506; 507; 508; 510; 511].

(** [Response.parsed] of the generated client; the models of successful answers
    have no [code] or [message]. *)
Inductive parsed (Model : Type) :=
  | PNone
  | PModel (m : Model)
  | PError (error_code error_message : json).
Arguments PNone {Model}.
Arguments PModel {Model} m.
Arguments PError {Model} error_code error_message.

(** What the generated function of an endpoint knows, and what the adapter's
    method makes of the model; a [None] model is [cast(Any, None)]. *)
Record operation (Model A : Type) := mkOp {
  op_success : Z;
  op_errors : list Z;
  op_from_dict : option (json -> res exn Model);
  op_convert : option Model -> res exn A;
}.
Arguments op_success {Model A} o.
Arguments op_errors {Model A} o.
Arguments op_from_dict {Model A} o.
Arguments op_convert {Model A} o.

(** An element of the list [dict] is called on *)
Definition pair_of (j : json) : res exn (option text * json) :=
  match j with
  | JArray [k; v] => match k with JString t => Ok (Some t, v) | JArray _ | JObject _ => Raise TypeErr | _ => Ok (None, v) end
  | JString [a; b] => Ok (Some [a], JString [b])
  | JObject [(a, _); (b, _)] => Ok (Some a, JString b)
  | JArray _ | JString _ | JObject _ => Raise ValueErr
  | _ => Raise TypeErr
  end.

Fixpoint pairs_of (l : list json) (d : list (text * json)) : res exn (list (text * json)) :=
  match l with
  | [] => Ok d
  | j :: l => kv ← pair_of j; pairs_of l (match kv with (Some k, v) => od_set k v d | _ => d end)
  end.

(** [dict(src_dict)] *)
Definition json_dict (j : json) : res exn (list (text * json)) :=
  match j with
  | JObject f => Ok f
  | JArray l => pairs_of l []
  | JString [] => Ok []
  | JString _ => Raise ValueErr
  | _ => Raise TypeErr
  end.

Definition pop_key (k : string) (d : list (text * json)) : res exn json :=
  match od_get (lit k) d with Some v => Ok v | None => Raise (OtherEx "KeyError") end.

(** [ErrorResponse.from_dict] *)
Definition error_from_dict (j : json) : res exn (json * json) :=
  d ← json_dict j; c ← pop_key "code" d; m ← pop_key "message" d; Ok (c, m).

Definition RETRYABLE_STATUS_CODES : list Z := [429; 502; 503].

Definition RAW_BODY_MESSAGE_LIMIT : nat := 512.
Definition ELLIPSIS : Z := 8230.

Definition raw_body_message_fragment (body : option (list Z)) : option text :=
  match body with
  | None | Some [] => None
  | Some b =>
      match ustrip (utf8_decode b) with
      | [] => None
      | t => Some (if (RAW_BODY_MESSAGE_LIMIT <? length t)%nat then (take RAW_BODY_MESSAGE_LIMIT t ++ [ELLIPSIS])%list else t)
      end
  end.

Definition extract_request_id (r : Response) : option string :=
  match resp_request_id r with
  | None => None
  | Some v => let v := strip v in if (v =? "")%string then None else Some v
  end.

Definition is_JObject (j : json) : bool := match j with JObject _ => true | _ => false end.

Section pipeline.
(** [json.loads] of bytes and of text; [repr]; [str] of an exception; the parser
    of HTTP dates; the clock. *)
Context (loads_bytes : list Z -> option json) (loads : text -> option json) (repr : json -> text)
  (text_of : exn -> text) (parsedate : string -> option Z) (now : Z).

Definition py_str (j : json) : text := match j with JString t => t | _ => repr j end.

Definition str_or_empty (j : json) : text := if truthy j then py_str j else [].

Definition retry_after_of (r : Response) : option Z := parse_retry_after parsedate (resp_retry_after r) now.

(** [_parse_response] *)
Definition parse_response {Model A} (op : operation Model A) (r : Response) (content : list Z) : res exn (parsed Model) :=
  let body := match loads_bytes content with Some j => Ok j | None => Raise ValueErr end in
  if resp_status r =? op_success op then
    match op_from_dict op with
    | None => Ok PNone
    | Some from_dict => j ← body; m ← from_dict j; Ok (PModel m)
    end
  else if bool_decide (resp_status r ∈ op_errors op) then
    j ← body; cm ← error_from_dict j; Ok (PError cm.1 cm.2)
  else Ok PNone.

(** [_build_response] *)
Definition build_api_response {Model A} (op : operation Model A) (r : Response) (content : list Z) : res exn (parsed Model) :=
  if bool_decide (resp_status r ∈ HTTP_STATUSES) then parse_response op r content else Raise ValueErr.

(** ** response_handler.py *)

(** Text that is appended to the message, the fragment of the raw body *)
Definition with_fragment (m : text) (body : option (list Z)) : text :=
  match raw_body_message_fragment body with Some f => (m ++ lit ": " ++ f)%list | None => m end.

Definition http_text (st : Z) : text := (lit "HTTP " ++ lit (str_of_int st))%list.

Definition handle_api_error {Model} (r : Response) (content : list Z) (p : parsed Model) (operation_name : text) : res exn unit :=
  let status_code := resp_status r in
  if status_code <? 300 then Ok tt
  else
    let m := (operation_name ++ lit " failed: " ++ http_text status_code)%list in
    let '(m, e) :=
      match p with
      | PError c msg =>
          (if truthy msg then operation_name ++ lit " failed: " ++ py_str msg
           else if truthy c then operation_name ++ lit " failed: " ++ py_str c else m,
           if truthy c then Some (mkErr (py_str c) (Some (str_or_empty msg))) else None)
      | _ => (m, None)
      end%list in
    let m := match e with None => with_fragment m (Some content) | Some _ => m end in
    let is_retryable := bool_decide (status_code ∈ RETRYABLE_STATUS_CODES) in
    Raise (Sandbox (if status_code =? 429
                    then rate_limit_exception m status_code e (extract_request_id r) (retry_after_of r) (Some content) is_retryable
                    else api_exception m status_code e (extract_request_id r) (Some content) is_retryable)).

(** [require_parsed], which methods without a model do not call *)
Definition require_parsed {Model} (r : Response) (p : parsed Model) (operation_name : text) : res exn Model :=
  match p with
  | PModel m => Ok m
  | PNone => Raise (Sandbox (api_exception (operation_name ++ lit " failed: empty response")%list (resp_status r) None (extract_request_id r) None false))
  | PError _ _ =>
      Raise (Sandbox (api_exception (operation_name ++ lit " failed: unexpected response type")%list (resp_status r) None (extract_request_id r) None false))
  end.

(** ** exception_converter.py *)

(** [_parse_error_body] *)
Definition parse_error_body (content : list Z) : option SandboxError :=
  match content with
  | [] => None
  | _ =>
      let body := utf8_decode content in
      match loads body with
      | None => Some (mkErr UNEXPECTED_RESPONSE (Some body))
      | Some (JObject f) =>
          let f := match od_get (lit "detail") f with Some (JObject d) => d | _ => f end in
          let c := default JNull (od_get (lit "code") f) in
          let m := default JNull (od_get (lit "message") f) in
          if truthy c then Some (mkErr (py_str c) (Some (str_or_empty m))) else None
      | Some _ => None
      end
  end.

(** [_build_api_exception] *)
Definition build_api_exception (st : Z) (content : list Z) (rid : option string) (ra : option Z) : sandbox_exc :=
  let m := (lit "API error: " ++ http_text st)%list in
  let e := parse_error_body content in
  let structured := match e with Some e => negb (bool_decide (er_code e = UNEXPECTED_RESPONSE)) | None => false end in
  let '(m, e) :=
    if structured then
      (match e with Some (mkErr _ (Some ((_ :: _) as t))) => (m ++ lit ": " ++ t)%list | _ => m end, e)
    else match raw_body_message_fragment (Some content) with
         | Some f => ((m ++ lit ": " ++ f)%list, Some (mkErr UNEXPECTED_RESPONSE (Some f)))
         | None => (m, e)
         end in
  let is_retryable := bool_decide (st ∈ RETRYABLE_STATUS_CODES) in
  if st =? 429 then rate_limit_exception m st e rid ra (Some content) is_retryable
  else api_exception m st e rid (Some content) is_retryable.

(** [build_api_exception_from_httpx] of response_handler.py *)
Definition build_api_exception_from_httpx (r : Response) (content : list Z) (operation_name : text) : sandbox_exc :=
  let st := resp_status r in
  let e := parse_error_body content in
  let m := (operation_name ++ lit " failed: " ++ http_text st)%list in
  let m := match e with
           | Some (mkErr _ (Some ((_ :: _) as t))) => (operation_name ++ lit " failed: " ++ t)%list
           | Some _ => m
           | None => with_fragment m (Some content)
           end in
  let is_retryable := bool_decide (st ∈ RETRYABLE_STATUS_CODES) in
  if st =? 429 then rate_limit_exception m st e (extract_request_id r) (retry_after_of r) (Some content) is_retryable
  else api_exception m st e (extract_request_id r) (Some content) is_retryable.

Definition to_sandbox_exception (e : exn) : sandbox_exc :=
  let connectivity := (lit "Network connectivity error: " ++ text_of e)%list in
  match e with
  | Sandbox x => x
  | UnexpectedStatus st content => build_api_exception st content None None
  | HTTPStatusError r content => build_api_exception (resp_status r) content (extract_request_id r) (retry_after_of r)
  | Httpx h =>
      if (match h with HConnectTimeout => true | _ => is_NetworkError h end) then connection_exception connectivity true
      else if is_TimeoutException h then timeout_exception (lit "Request timed out: " ++ text_of e)%list
      else connection_exception connectivity false
  | ConnectionErr => connection_exception connectivity false
  | OSErr => internal_exception connectivity
  | ValidationErr | ValueErr | TypeErr => invalid_argument (text_of e)
  | NotImplementedErr => internal_exception (lit "Operation not supported: " ++ text_of e)%list
  | OtherEx _ | BaseEx _ => internal_exception (lit "Unexpected SDK error occurred: " ++ text_of e)%list
  end.

(** ** The methods of sandboxes_adapter.py *)

(** [except Exception as e: raise ExceptionConverter.to_sandbox_exception(e) from e] *)
Definition converted {A} (r : res exn A) : res exn A :=
  match r with
  | Raise e => if is_Exc e then Raise (Sandbox (to_sandbox_exception e)) else Raise e
  | Ok a => Ok a
  end.

(** A method, given how the request ended: in an exception, or with a response
    and its content. *)
Definition call {Model A} (op : operation Model A) (operation_name : text) (sent : res exn (Response * list Z)) : res exn A :=
  converted
    (rc ← sent; p ← build_api_response op rc.1 rc.2; _ ← handle_api_error rc.1 rc.2 p operation_name;
     match op_from_dict op with
     | Some _ => m ← require_parsed rc.1 p operation_name; op_convert op (Some m)
     | None => op_convert op None
     end).
End pipeline.

(** ** The endpoints *)

(** [Endpoint.from_dict], with [EndpointHeaders.from_dict] *)
Definition endpoint_from_dict (j : json) : res exn (json * option (list (text * json))) :=
  d ← json_dict j; e ← pop_key "endpoint" d;
  match od_get (lit "headers") d with
  | None => Ok (e, None)
  | Some h => h ← json_dict h; Ok (e, Some h)
  end.

(** [SandboxEndpoint] *)
Definition endpoint : Type := text * list (text * text).

Definition is_JString (j : json) : bool := match j with JString _ => true | _ => false end.

(** [to_sandbox_endpoint]; pydantic checks that the fields are strings. *)
Definition to_sandbox_endpoint (m : option (json * option (list (text * json)))) : res exn endpoint :=
  match m with
  | Some (JString e, h) =>
      let h := default [] h in
      if forallb (fun kv => is_JString kv.2) h
      then Ok (e, omap (fun kv => match kv.2 with JString v => Some (kv.1, v) | _ => None end) h)
      else Raise ValidationErr
  | _ => Raise ValidationErr
  end.

Definition get_endpoint_op : operation (json * option (list (text * json))) endpoint :=
  mkOp _ _ 200 [400; 401; 403; 404; 500] (Some endpoint_from_dict) to_sandbox_endpoint.

(** The decoding of a created sandbox's description is an argument. *)
Definition create_op {Model} (from_dict : json -> res exn Model) (to_id : Model -> res exn text) : operation Model text :=
  mkOp _ _ 202 [400; 401; 409; 500] (Some from_dict)
    (fun m => match m with Some m => to_id m | None => Raise (OtherEx "AttributeError") end).

Definition no_model (success : Z) (errors : list Z) : operation unit unit := mkOp _ _ success errors None (fun _ => Ok tt).

Definition kill_op := no_model 204 [401; 403; 404; 409; 500].
Definition pause_op := no_model 202 [401; 403; 404; 409; 500].
Definition resume_op := no_model 202 [401; 403; 404; 409; 500].

(** ** What calls report *)

Lemma pair_of_raises j e : pair_of j = Raise e -> e = TypeErr \/ e = ValueErr.
Proof.
  unfold pair_of. intros H. repeat case_match; simplify_eq; auto.
Qed.

Lemma pairs_of_raises l d e : pairs_of l d = Raise e -> e = TypeErr \/ e = ValueErr.
Proof.
  revert d. induction l as [|j l IH]; intros d H; [done|]. simpl in H.
  destruct (pair_of j) as [kv|e'] eqn:Hj; [by apply IH in H|]. cbn in H. simplify_eq. by apply pair_of_raises in Hj.
Qed.

Lemma pop_key_raises k d e : pop_key k d = Raise e -> e = OtherEx "KeyError".
Proof. unfold pop_key. destruct (od_get (lit k) d); [done|]. by intros [= <-]. Qed.

Lemma error_from_dict_raises j e :
  error_from_dict j = Raise e -> e = TypeErr \/ e = ValueErr \/ e = OtherEx "KeyError".
Proof.
  unfold error_from_dict. destruct (json_dict j) as [d|e'] eqn:Hd; cbn.
  - destruct (pop_key "code" d) eqn:Hc; cbn; [destruct (pop_key "message" d) eqn:Hm; cbn; [done|]|]; intros [= <-]; eauto using pop_key_raises.
  - intros [= <-]. destruct j as [| | |[|? ?]|l|f]; simpl in Hd; simplify_eq; auto. apply pairs_of_raises in Hd. tauto.
Qed.

Section reports.
Context (loads_bytes : list Z -> option json) (loads : text -> option json) (repr : json -> text)
  (text_of : exn -> text) (parsedate : string -> option Z) (now : Z).
Context {Model A : Type} (op : operation Model A) (name : text).
Local Abbreviation call := (call loads_bytes loads repr text_of parsedate now op name).

(** The body is what [ErrorResponse] expects. *)
Definition error_body (content : list Z) : bool :=
  match loads_bytes content with Some j => is_ok (error_from_dict j) | None => false end.

Definition decodable (r : Response) (content : list Z) : bool :=
  bool_decide (resp_status r ∈ HTTP_STATUSES) && (negb (bool_decide (resp_status r ∈ op_errors op)) || error_body content).

(** The exception an answer with an error status that can be read becomes *)
Definition reports (r : Response) (content : list Z) (x : sandbox_exc) : Prop :=
  sx_status_code x = Some (resp_status r) /\ sx_response_body x = Some content /\
  sx_request_id x = extract_request_id r /\
  sx_is_retryable x = bool_decide (resp_status r ∈ RETRYABLE_STATUS_CODES) /\
  (sx_class x, sx_retry_after x) =
    (if resp_status r =? 429 then (SandboxRateLimitException, parse_retry_after parsedate (resp_retry_after r) now)
     else (SandboxApiException, None)).

Lemma handle_api_error_reports r content (p : parsed Model) :
  300 <= resp_status r ->
  exists x, handle_api_error repr parsedate now r content p name = Raise (Sandbox x) /\ reports r content x.
Proof.
  intros Hst. unfold handle_api_error. destruct (Z.ltb_spec (resp_status r) 300); [lia|].
  match goal with |- context [let '(m, e) := ?x in _] => destruct x as [m e] end.
  eexists. split; [reflexivity|]. unfold reports. by destruct (resp_status r =? 429).
Qed.

Lemma parse_ok r content p :
  300 <= resp_status r -> op_success op < 300 -> build_api_response loads_bytes op r content = Ok p -> decodable r content = true.
Proof.
  intros Hst Hop. unfold build_api_response, parse_response, decodable, error_body. destruct (Z.eqb_spec (resp_status r) (op_success op)); [lia|].
  destruct (bool_decide (_ ∈ HTTP_STATUSES)); [|done]. destruct (bool_decide (_ ∈ op_errors op)); [|done]. simpl.
  destruct (loads_bytes content) as [j|]; [|done]. cbn. by destruct (error_from_dict j).
Qed.

Lemma parse_raises r content e :
  300 <= resp_status r -> op_success op < 300 -> build_api_response loads_bytes op r content = Raise e ->
  decodable r content = false /\ (e = TypeErr \/ e = ValueErr \/ e = OtherEx "KeyError").
Proof.
  intros Hst Hop. unfold build_api_response, parse_response, decodable, error_body. destruct (Z.eqb_spec (resp_status r) (op_success op)); [lia|].
  destruct (bool_decide (_ ∈ HTTP_STATUSES)); [|naive_solver]. destruct (bool_decide (_ ∈ op_errors op)); [|done]. simpl.
  destruct (loads_bytes content) as [j|]; [|naive_solver]. cbn. destruct (error_from_dict j) as [|e'] eqn:Hj; [done|]. cbn.
  intros [= <-]. split; [done|]. by apply error_from_dict_raises in Hj.
Qed.

(** C27: Every response with an error status makes a call of the lifecycle API
    raise a [SandboxException].  If the status is a standard one and the body is
    what the API documents for it, or the API documents nothing, the exception
    carries the status, the body, the request id, whether the status is a
    transient one, and for 429 the delay the server asked for; otherwise it is
    an argument or internal error and none of that is left. *)
Theorem error_answers_reported r content :
  op_success op < 300 -> 300 <= resp_status r ->
  exists x, call (Ok (r, content)) = Raise (Sandbox x) /\
    if decodable r content then reports r content x
    else sx_status_code x = None /\ sx_request_id x = None /\ sx_is_retryable x = false /\
         (sx_class x = InvalidArgumentException \/ sx_class x = SandboxInternalException).
Proof.
  intros Hop Hst. unfold ClientErrors.call. cbn. destruct (build_api_response loads_bytes op r content) as [p|e] eqn:Hb; cbn.
  - rewrite (parse_ok r content p Hst Hop Hb). destruct (handle_api_error_reports r content p Hst) as (x & Hx & Hr).
    rewrite Hx. cbn. by exists x.
  - destruct (parse_raises r content e Hst Hop Hb) as [-> He]. destruct He as [->|[->| ->]]; cbn; eexists; (split; [reflexivity|]); naive_solver.
Qed.

(** A call returns only on a response with a status below 300. *)
Lemma call_ok sent a : call sent = Ok a -> exists r content, sent = Ok (r, content) /\ resp_status r < 300.
Proof.
  destruct sent as [[r content]|e]; [|cbn; by destruct (is_Exc e)]. intros H. exists r, content. split; [done|].
  destruct (Z.lt_ge_cases (resp_status r) 300) as [|Hst]; [done|]. exfalso. unfold ClientErrors.call in H. cbn in H.
  destruct (build_api_response loads_bytes op r content) as [p|e]; cbn in H; [|by destruct (is_Exc e)].
  destruct (handle_api_error_reports r content p Hst) as (x & Hx & _). by rewrite Hx in H.
Qed.

(** A call raises sandbox exceptions, and what is no [Exception]. *)
Lemma call_raises sent e : call sent = Raise e -> is_Sandbox e = true \/ is_Exc e = false.
Proof.
  unfold ClientErrors.call. generalize (rc ← sent; p ← build_api_response loads_bytes op rc.1 rc.2;
    _ ← handle_api_error repr parsedate now rc.1 rc.2 p name;
    match op_from_dict op with
    | Some _ => m ← require_parsed rc.1 p name; op_convert op (Some m)
    | None => op_convert op None
    end). intros [?|e']; simpl; [done|]. destruct (is_Exc e') eqn:He; intros [= <-]; auto.
Qed.
End reports.

(** A call without a model ends in something else than an [Exception] only when
    the request does. *)
Lemma no_model_raises loads_bytes loads repr text_of parsedate now success errors name sent e :
  call loads_bytes loads repr text_of parsedate now (no_model success errors) name sent = Raise e -> is_Exc e = false -> sent = Raise e.
Proof.
  destruct sent as [[r content]|e0]; [|cbn; destruct (is_Exc e0) eqn:?; by intros [= <-]]. unfold call. cbn.
  destruct (build_api_response loads_bytes (no_model success errors) r content) as [p|e0] eqn:Hb; cbn.
  - destruct (handle_api_error repr parsedate now r content p name) as [[]|e0] eqn:Hh; cbn; [done|].
    unfold handle_api_error in Hh. destruct (resp_status r <? 300); [done|].
    match type of Hh with context [let '(m, e) := ?x in _] => destruct x as [? ?] end. injection Hh as <-. cbn. by intros [= <-].
  - intros H He. exfalso. unfold build_api_response, parse_response, no_model in Hb. cbn [op_success op_errors op_from_dict] in Hb.
    destruct (bool_decide (resp_status r ∈ HTTP_STATUSES)); [|injection Hb as <-; cbn in H; by simplify_eq].
    destruct (resp_status r =? success); [done|]. destruct (bool_decide (resp_status r ∈ errors)); [|done].
    destruct (loads_bytes content) as [j|]; cbn in Hb; [|injection Hb as <-; cbn in H; by simplify_eq].
    destruct (error_from_dict j) as [|e1] eqn:Hj; [done|]. cbn in Hb. injection Hb as <-. apply error_from_dict_raises in Hj.
    destruct Hj as [->|[->| ->]]; cbn in H; by simplify_eq.
Qed.

(** ** Length of messages *)

Lemma drop_uspace_suffix t : exists p, t = (p ++ drop_uspace t)%list.
Proof. induction t as [|c t [p IH]]; [by exists []|]. simpl. destruct (is_uspace c); [|by exists []]. exists (c :: p). simpl. by f_equal. Qed.

(** A fragment is an infix of the decoded body, or 512 characters of it and an ellipsis. *)
Lemma fragment_bounded body f :
  raw_body_message_fragment body = Some f -> f <> [] /\ (length f <= 513)%nat.
Proof.
  unfold raw_body_message_fragment. destruct body as [[|b l]|]; try done. intros H.
  assert (exists t, t <> [] /\ f = if (RAW_BODY_MESSAGE_LIMIT <? length t)%nat then (take RAW_BODY_MESSAGE_LIMIT t ++ [ELLIPSIS])%list else t)
    as (t & Ht & ->) by (destruct (ustrip _) as [|c t]; [done|injection H as <-; by exists (c :: t)]).
  destruct (Nat.ltb_spec RAW_BODY_MESSAGE_LIMIT (length t)) as [Hl|Hl].
  - rewrite length_app, length_take. split; [by intros [_ ?]%app_nil|]. change (length [ELLIPSIS]) with 1%nat.
    change RAW_BODY_MESSAGE_LIMIT with 512%nat in *. lia.
  - change RAW_BODY_MESSAGE_LIMIT with 512%nat in *. split; [done|lia].
Qed.

Lemma with_fragment_bounded m body : (length (with_fragment m body) <= length m + 515)%nat.
Proof.
  unfold with_fragment. destruct (raw_body_message_fragment body) as [f|] eqn:Hf; [|lia].
  apply fragment_bounded in Hf as [_ ?]. rewrite !length_app. change (length (lit ": ")) with 2%nat. lia.
Qed.

(** ** Cases in which the answer is lost or misread *)

Definition answer (st : Z) : Response := {| resp_status := st; resp_retry_after := None; resp_request_id := Some "r1" |}.

Definition demo_error : json := JObject [(lit "code", JString (lit "SANDBOX_NOT_FOUND")); (lit "message", JString (lit "gone"))].

(** A decoder that reads one document only *)
Definition demo_loads (l : list Z) : option json := if bool_decide (l = lit "{error}") then Some demo_error else None.

Definition demo_kill (r : Response) (content : list Z) : res exn unit :=
  call demo_loads demo_loads (fun _ => []) (fun _ => lit "ValueError") (fun _ => None) 0 kill_op (lit "Kill sandbox s1") (Ok (r, content)).

Lemma error_answers_reported_witness :
  exists x, demo_kill (answer 404) (lit "{error}") = Raise (Sandbox x) /\ sx_status_code x = Some 404 /\
    sx_message x = lit "Kill sandbox s1 failed: gone".
Proof.
  destruct (error_answers_reported demo_loads demo_loads (fun _ => []) (fun _ => lit "ValueError") (fun _ => None) 0
    kill_op (lit "Kill sandbox s1") (answer 404) (lit "{error}") ltac:(vm_compute; reflexivity) ltac:(vm_compute; discriminate)) as (x & Hx & Hr).
  exists x. split; [exact Hx|]. vm_compute in Hx. injection Hx as <-. split; vm_compute; reflexivity.
Defined.

(** An internal server error in plain text, as the server's framework answers
    it, is reported as an invalid argument. *)
Example plain_text_error_misread :
  exists x, demo_kill (answer 500) (lit "Internal Server Error") = Raise (Sandbox x) /\
    sx_class x = InvalidArgumentException /\ sx_status_code x = None /\ sx_response_body x = None.
Proof. eexists. split; [vm_compute; reflexivity|]. vm_compute. auto. Qed.

(** So is any answer whose status is not registered. *)
Example unregistered_status_misread :
  exists x, demo_kill (answer 520) (lit "{error}") = Raise (Sandbox x) /\ sx_class x = InvalidArgumentException /\ sx_status_code x = None.
Proof. eexists. split; [vm_compute; reflexivity|]. vm_compute. auto. Qed.

(** The transport never sends a POST again after a 503, but the exception calls
    it retryable. *)
Example unretried_called_retryable :
  exists r x,
    (handle_request demo_net default_policy demo_post 4).1 = Ok r /\
    (forall retries_used elapsed replayable,
       should_retry "POST" (outcome_of (Ok r)) retries_used default_policy elapsed false replayable = false) /\
    demo_kill r [] = Raise (Sandbox x) /\ sx_is_retryable x = true.
Proof.
  eexists _, _. split; [vm_compute; reflexivity|]. split_and!; [|vm_compute; reflexivity..].
  intros k e b. unfold should_retry. cbn [max_retries overall_deadline default_policy]. by destruct (3 <=? k), b.
Qed.

(** The messages of direct requests carry a body that is no JSON in full. *)
Example raw_body_unbounded :
  let body := replicate 2000 65 in
  (2000 <= length (sx_message (build_api_exception_from_httpx demo_loads (fun _ => []) (fun _ => None) 0 (answer 404) body (lit "Run"))))%nat.
Proof. vm_compute. repeat constructor. Qed.
