(* ===== verification/SandboxClient.v ===== *)
(** * Sandbox objects of the SDK

    [SandboxSync] ([sync/sandbox.py]) and [Sandbox] ([sandbox.py]): creating,
    connecting to and resuming a sandbox, waiting until it is ready, killing and
    closing it, with the transport of their connection configuration
    ([config/connection.py], [config/connection_sync.py]).

    Every call that leaves the process gets its answer from an environment, at
    the step at which it is made: a response, an exception, or, as [BaseEx], an
    interrupt or the cancellation of the task.  Requests go through the pipeline
    of [ClientErrors].  The wall clock moves by what the environment says, and by
    the length of a sleep.  Instants are microseconds.  The adapter of a new
    object has an empty endpoint cache, so both endpoints are fetched; metrics
    are fire and forget and never raise. *)

From Stdlib Require Import ZArith Lia String.
From stdpp Require Import base numbers strings gmap list.
From S2P Require Import Prelude PyString PoolTypes Retry ClientErrors.

Open Scope string_scope.
Open Scope Z_scope.

Definition DEFAULT_EXECD_PORT : Z := 44772.
Definition DEFAULT_EGRESS_PORT : Z := 18080.

(** A transport is named by the step that opened it. *)
Record ConnectionConfig := mkConfig {
  cf_transport : option nat;
  cf_owns_transport : bool;
  cf_retry_policy : RetryPolicy;
}.

(** [model_post_init]; an explicit [None] counts as given. *)
Definition new_config (transport : option (option nat)) (policy : RetryPolicy) : ConnectionConfig :=
  mkConfig (default None transport) (bool_decide (transport = None)) policy.

Inductive event :=
  | EOpenTransport (t : nat) (wrapped : bool)
  | ECloseTransport (t : nat) (ok : bool)
  | ECreated (id : text)                (** the server answered with this id *)
  | EResumed (id : text)
  | EEndpoint (id : text) (port : Z)
  | EHealth (healthy : bool)
  | ESleep (d : Z)
  | EInvalidate (id : text)
  | EPaused (id : text)
  | EKill (id : text) (ok : bool).

Record Env := mkEnv {
  v_tick : nat -> Z;
  v_new_transport : nat -> res exn unit;
  v_adapters : nat -> res exn unit;
  v_post : nat -> res exn (Response * list Z);
  v_resume : nat -> res exn (Response * list Z);
  v_pause : nat -> res exn (Response * list Z);
  v_delete : nat -> res exn (Response * list Z);
  v_endpoint : nat -> Z -> res exn (Response * list Z);
  v_ping : nat -> res exn (Response * list Z);
  v_sleep : nat -> res exn unit;
  v_close : nat -> res exn unit;
  (** which of two gathered calls ended first *)
  v_first : nat -> bool;
  (** decoding, see [ClientErrors] *)
  v_loads_bytes : list Z -> option json;
  v_loads : text -> option json;
  v_repr : json -> text;
  v_text_of : exn -> text;
  v_parsedate : string -> option Z;
  v_model : Type;
  v_from_dict : json -> res exn v_model;
  v_to_id : v_model -> res exn text;
  v_timeout_message : Z -> Z -> option exn -> text;
}.

Record St := mkSt { st_step : nat; st_now : Z; st_log : list event }.

(** The argument [image]: text or a checked [SandboxImageSpec] *)
Inductive image_arg := IText (t : text) | ISpec (t : text).

Record request := mkReq {
  rq_image : option image_arg;
  rq_snapshot_id : option text;
  rq_health_check : option (nat -> res exn bool);
  rq_ready_timeout : Z;
  rq_polling : Z;
  rq_skip_health_check : bool;
}.

Record SandboxObject := mkSandbox {
  sb_id : text;
  sb_config : ConnectionConfig;
  sb_health_check : option (nat -> res exn bool);
}.

(** Not an answer the code could get: the loop ran out of fuel. *)
Definition out_of_fuel : exn := BaseEx "out of fuel".

Section client.
Context (v : Env).
Local Abbreviation CM A := (M St exn A).

(** ** Calls *)

Definition advance (d : Z) (s : St) : St := mkSt (S (st_step s)) (st_now s + d + v_tick v (st_step s)) (st_log s).
Definition add_event (e : event) (s : St) : St := mkSt (st_step s) (st_now s) (st_log s ++ [e])%list.

Definition log (e : event) : CM unit := modify (add_event e).
Definition ask {A} (f : nat -> res exn A) : CM A := fun s => (f (st_step s), advance 0 s).
Definition lift {A} (r : res exn A) : CM A := fun s => (r, s).
Definition read_clock : CM Z := fun s => (Ok (st_now (advance 0 s)), advance 0 s).

Definition request_of {Model A} (op : operation Model A) (name : string) (f : nat -> res exn (Response * list Z)) : CM A :=
  sent <-- attempt (ask f) ;;
  now <-- gets st_now ;;
  lift (call (v_loads_bytes v) (v_loads v) (v_repr v) (v_text_of v) (v_parsedate v) now op (lit name) sent).

Definition create_sandbox : CM text :=
  id <-- request_of (create_op (v_from_dict v) (v_to_id v)) "Create sandbox" (v_post v) ;;
  log (ECreated id) ;;; ret id.

Definition request_resume (id : text) : CM unit :=
  request_of resume_op "Resume sandbox" (v_resume v) ;;; log (EResumed id).

Definition request_pause (id : text) : CM unit :=
  request_of pause_op "Pause sandbox" (v_pause v) ;;; log (EPaused id).

Definition kill_sandbox (id : text) : CM unit :=
  r <-- attempt (request_of kill_op "Kill sandbox" (v_delete v)) ;;
  log (EKill id (is_ok r)) ;;; lift r.

Definition fetch_endpoint (id : text) (port : Z) : CM endpoint :=
  e <-- request_of get_endpoint_op "Get endpoint" (fun n => v_endpoint v n port) ;;
  log (EEndpoint id port) ;;; ret e.

(** ** Transports *)

Definition with_transport_if_missing (c : ConnectionConfig) : CM ConnectionConfig :=
  match cf_transport c with
  | Some _ => ret c
  | None =>
      t <-- gets st_step ;;
      ask (v_new_transport v) ;;;
      log (EOpenTransport t (wraps_transport (cf_retry_policy c))) ;;;
      ret (mkConfig (Some t) true (cf_retry_policy c))
  end.

(** [try: ... except Exception: pass] *)
Definition swallow {A} (m : CM A) : CM unit :=
  catch (m ;;; ret tt) (fun e => if is_Exc e then Some (ret tt) else None).

Definition close_transport_if_owned (c : ConnectionConfig) : CM unit :=
  match cf_transport c with
  | Some t =>
      if cf_owns_transport c then
        swallow (r <-- attempt (ask (v_close v)) ;; log (ECloseTransport t (is_ok r)) ;;; lift r)
      else ret tt
  | None => ret tt
  end.

(** ** Readiness *)

Definition ping_op : operation unit unit := no_model 200 [].

(** [HealthAdapter.ping] inside [is_healthy] or [_ping] *)
Definition ping : CM bool :=
  sent <-- attempt (ask (v_ping v)) ;;
  now <-- gets st_now ;;
  match (rc ← sent; p ← build_api_response (v_loads_bytes v) ping_op rc.1 rc.2;
         handle_api_error (v_repr v) (v_parsedate v) now rc.1 rc.2 p (lit "Ping")) with
  | Ok _ => ret true
  | Raise e => if is_Exc e then ret false else throw e
  end.

Definition is_healthy (check : option (nat -> res exn bool)) : CM bool :=
  match check with
  | Some h => ask h
  | None => ping
  end.

(** [time.sleep] *)
Definition sync_sleep (d : Z) : CM unit :=
  if d <? 0 then throw ValueErr
  else fun s => (v_sleep v (st_step s), add_event (ESleep d) (advance d s)).

(** [asyncio.sleep] *)
Definition aio_sleep (d : Z) : CM unit :=
  fun s => (v_sleep v (st_step s), add_event (ESleep (Z.max 0 d)) (advance (Z.max 0 d) s)).

Fixpoint ready_loop (sleep : Z -> CM unit) (check : option (nat -> res exn bool)) (fuel : nat)
    (timeout deadline polling attempts : Z) (last_exception : option exn) : CM unit :=
  match fuel with
  | O => throw out_of_fuel
  | S fuel =>
      t <-- read_clock ;;
      if deadline <=? t then throw (Sandbox (ready_timeout (v_timeout_message v timeout attempts last_exception)))
      else
        r <-- attempt (is_healthy check) ;;
        match r with
        | Ok true => log (EHealth true)
        | Ok false =>
            log (EHealth false) ;;; sleep polling ;;; ready_loop sleep check fuel timeout deadline polling (attempts + 1) None
        | Raise e =>
            if is_Exc e then
              log (EHealth false) ;;; sleep polling ;;; ready_loop sleep check fuel timeout deadline polling (attempts + 1) (Some e)
            else throw e
        end
  end.

Definition check_ready_with (sleep : Z -> CM unit) (fuel : nat) (check : option (nat -> res exn bool)) (timeout polling : Z) : CM unit :=
  t <-- read_clock ;; ready_loop sleep check fuel timeout (t + timeout) polling 0 None.

(** [SandboxSync.check_ready] and [Sandbox.check_ready] *)
Definition check_ready := check_ready_with sync_sleep.
Definition aio_check_ready := check_ready_with aio_sleep.

(** ** Building an object *)

Definition sync_endpoints (id : text) : CM unit :=
  fetch_endpoint id DEFAULT_EXECD_PORT ;;; fetch_endpoint id DEFAULT_EGRESS_PORT ;;; ret tt.

(** [asyncio.gather]: the first exception is raised. *)
Definition aio_endpoints (id : text) : CM unit :=
  a <-- attempt (fetch_endpoint id DEFAULT_EXECD_PORT) ;;
  b <-- attempt (fetch_endpoint id DEFAULT_EGRESS_PORT) ;;
  first <-- ask (fun n => Ok (v_first v n)) ;;
  match a, b with
  | Ok _, Ok _ => ret tt
  | Raise e, Ok _ | Ok _, Raise e => throw e
  | Raise e, Raise e' => throw (if first : bool then e' else e)
  end.

(** What follows the creation or the resumption: endpoints, adapters, readiness *)
Definition assemble (endpoints : text -> CM unit) (ready : nat -> option (nat -> res exn bool) -> Z -> Z -> CM unit)
    (fuel : nat) (rq : request) (id : text) (c : ConnectionConfig) : CM SandboxObject :=
  endpoints id ;;;
  ask (v_adapters v) ;;;
  (if rq_skip_health_check rq then ret tt else ready fuel (rq_health_check rq) (rq_ready_timeout rq) (rq_polling rq)) ;;;
  ret (mkSandbox id c (rq_health_check rq)).

(** [if isinstance(e, SandboxException): raise; raise SandboxInternalException(...)] *)
Definition reraise {A} (e : exn) : CM A :=
  if is_Sandbox e then throw e else throw (Sandbox (internal_exception (lit "Internal exception: " ++ v_text_of v e)%list)).

(** The handler of [create]: the zombie is killed, the transport closed. *)
Definition clean_up (c : ConnectionConfig) (sandbox_id : option text) : CM unit :=
  (match sandbox_id with Some ((_ :: _) as id) => swallow (kill_sandbox id) | _ => ret tt end) ;;;
  close_transport_if_owned c.

(** The arguments [create] checks before its [try] block; it opens the transport
    in between. *)
Definition prepare (rq : request) (c : ConnectionConfig) : CM ConnectionConfig :=
  if Bool.eqb (bool_decide (rq_image rq = None)) (bool_decide (rq_snapshot_id rq = None))
  then throw (Sandbox (invalid_argument (lit "Exactly one of image or snapshot_id must be specified")))
  else
    c <-- with_transport_if_missing c ;;
    match rq_image rq with
    | Some (IText t) => if bool_decide (ustrip t = []) then throw ValidationErr else ret c
    | _ => ret c
    end.

(** ** Constructors and operations *)

(** [SandboxSync.create]; [sandbox_id] is known to the handler once the server
    has answered. *)
Definition create (fuel : nat) (rq : request) (c : ConnectionConfig) : CM SandboxObject :=
  c <-- prepare rq c ;;
  let handler sandbox_id e : CM SandboxObject :=
    if is_Exc e then clean_up c sandbox_id ;;; reraise e else throw e in
  r <-- attempt (ask (v_adapters v) ;;; create_sandbox) ;;
  match r with
  | Raise e => handler None e
  | Ok id =>
      r <-- attempt (assemble sync_endpoints check_ready fuel rq id c) ;;
      match r with Raise e => handler (Some id) e | Ok sandbox => ret sandbox end
  end.

(** [Sandbox.create]: [except BaseException] *)
Definition aio_create (fuel : nat) (rq : request) (c : ConnectionConfig) : CM SandboxObject :=
  c <-- prepare rq c ;;
  let handler sandbox_id e : CM SandboxObject :=
    clean_up c sandbox_id ;;; (if is_Exc e then reraise e else throw e) in
  r <-- attempt (ask (v_adapters v) ;;; create_sandbox) ;;
  match r with
  | Raise e => handler None e
  | Ok id =>
      r <-- attempt (assemble aio_endpoints aio_check_ready fuel rq id c) ;;
      match r with Raise e => handler (Some id) e | Ok sandbox => ret sandbox end
  end.

(** [connect] and [resume]: [start] is what they do before the endpoints. *)
Definition open_with (endpoints : text -> CM unit) (ready : nat -> option (nat -> res exn bool) -> Z -> Z -> CM unit)
    (start : CM unit) (fuel : nat) (rq : request) (id : text) (c : ConnectionConfig) : CM SandboxObject :=
  if bool_decide (id = []) then throw (Sandbox (invalid_argument (lit "Sandbox ID must be specified")))
  else
    c <-- with_transport_if_missing c ;;
    r <-- attempt (ask (v_adapters v) ;;; start ;;; assemble endpoints ready fuel rq id c) ;;
    match r with
    | Ok sandbox => ret sandbox
    | Raise e => if is_Exc e then close_transport_if_owned c ;;; reraise e else throw e
    end.

Definition connect := open_with sync_endpoints check_ready (ret tt).
Definition aio_connect := open_with aio_endpoints aio_check_ready (ret tt).
Definition resume fuel rq id := open_with sync_endpoints check_ready (request_resume id) fuel rq id.
Definition aio_resume fuel rq id := open_with aio_endpoints aio_check_ready (request_resume id) fuel rq id.

(** The methods of both classes *)
Definition kill (sb : SandboxObject) : CM unit := log (EInvalidate (sb_id sb)) ;;; kill_sandbox (sb_id sb).
Definition pause (sb : SandboxObject) : CM unit := log (EInvalidate (sb_id sb)) ;;; request_pause (sb_id sb).
Definition close_sandbox (sb : SandboxObject) : CM unit := swallow (close_transport_if_owned (sb_config sb)).

(** [try: self.kill() finally: self.close()] *)
Definition destroy_sandbox (sb : SandboxObject) : CM unit := r <-- attempt (kill sb) ;; close_sandbox sb ;;; lift r.
End client.

(** ** Reading logs *)

Definition created (l : list event) : list text := omap (fun e => match e with ECreated id => Some id | _ => None end) l.
Definition killed (l : list event) : list text := omap (fun e => match e with EKill id _ => Some id | _ => None end) l.
Definition opened (l : list event) : list nat := omap (fun e => match e with EOpenTransport t _ => Some t | _ => None end) l.
Definition closed (l : list event) : list nat := omap (fun e => match e with ECloseTransport t _ => Some t | _ => None end) l.
Definition checks_of (l : list event) : list bool := omap (fun e => match e with EHealth b => Some b | _ => None end) l.

Lemma created_ids_app l l' : created (l ++ l') = (created l ++ created l')%list.
Proof. apply omap_app. Qed.
Lemma killed_ids_app l l' : killed (l ++ l') = (killed l ++ killed l')%list.
Proof. apply omap_app. Qed.
Lemma opened_ids_app l l' : opened (l ++ l') = (opened l ++ opened l')%list.
Proof. apply omap_app. Qed.
Lemma closed_ids_app l l' : closed (l ++ l') = (closed l ++ closed l')%list.
Proof. apply omap_app. Qed.
Create Rewrite HintDb logreads.
#[export] Hint Rewrite created_ids_app killed_ids_app opened_ids_app closed_ids_app : logreads.

(** Neither a creation, nor a kill, nor a transport opened or closed *)
Definition quiet (e : event) : bool :=
  match e with ECreated _ | EKill _ _ | EOpenTransport _ _ | ECloseTransport _ _ => false | _ => true end.

(** ** What operations log *)

Section logs.
Context (v : Env).

(** [m] only appends, and what it appends satisfies [P] with its outcome. *)
Definition logs {A} (m : M St exn A) (P : res exn A -> list event -> Prop) : Prop :=
  forall s, exists l, st_log (m s).2 = (st_log s ++ l)%list /\ P (m s).1 l.

Lemma lg_mono {A} (m : M St exn A) (P Q : res exn A -> list event -> Prop) :
  logs m P -> (forall r l, P r l -> Q r l) -> logs m Q.
Proof. intros H HPQ s. destruct (H s) as (l & Hl & HP). exists l. auto. Qed.

Lemma lg_bind {A B} (m : M St exn A) (k : A -> M St exn B) (P : res exn A -> list event -> Prop) Q :
  logs m P -> (forall a l, P (Ok a) l -> logs (k a) (fun r l' => Q r (l ++ l')%list)) ->
  (forall e l, P (Raise e) l -> Q (Raise e) l) -> logs (bind m k) Q.
Proof.
  intros Hm Hk He s. destruct (Hm s) as (l & Hl & HP). unfold bind. destruct (m s) as [[a|e] s'] eqn:Em; simpl in *.
  - destruct (Hk a l HP s') as (l' & Hl' & HQ). exists (l ++ l')%list. rewrite Hl', Hl, app_assoc. done.
  - exists l. split; [done|auto].
Qed.

Lemma lg_attempt {A} (m : M St exn A) P (Q : res exn (res exn A) -> list event -> Prop) :
  logs m P -> (forall r l, P r l -> Q (Ok r) l) -> logs (attempt m) Q.
Proof.
  intros Hm HQ s. destruct (Hm s) as (l & Hl & HP). exists l. unfold attempt. destruct (m s) as [r s']; simpl in *. split; auto.
Qed.

Lemma lg_bind_attempt {A B} (m : M St exn A) (k : res exn A -> M St exn B) P Q :
  logs m P -> (forall r l, P r l -> logs (k r) (fun r' l' => Q r' (l ++ l')%list)) -> logs (bind (attempt m) k) Q.
Proof.
  intros Hm Hk. eapply lg_bind with (P := fun r l => exists r0, r = Ok r0 /\ P r0 l).
  - eapply lg_attempt; [exact Hm|eauto].
  - intros r l (r0 & [= ->] & HP). by apply Hk.
  - by intros e l (r0 & ? & _).
Qed.

Lemma lg_ret {A} (a : A) (Q : res exn A -> list event -> Prop) : Q (Ok a) [] -> logs (ret a) Q.
Proof. intros H s. exists []. by rewrite app_nil_r. Qed.

Lemma lg_throw {A} (e : exn) (Q : res exn A -> list event -> Prop) : Q (Raise e) [] -> logs (throw e) Q.
Proof. intros H s. exists []. by rewrite app_nil_r. Qed.

Lemma lg_lift {A} (r : res exn A) (Q : res exn A -> list event -> Prop) : Q r [] -> logs (lift r) Q.
Proof. intros H s. exists []. by rewrite app_nil_r. Qed.

Lemma lg_log e (Q : res exn unit -> list event -> Prop) : Q (Ok tt) [e] -> logs (log e) Q.
Proof. intros H s. exists [e]. split; [reflexivity|exact H]. Qed.

Lemma lg_ask {A} (f : nat -> res exn A) (Q : res exn A -> list event -> Prop) :
  (forall n, Q (f n) []) -> logs (ask v f) Q.
Proof. intros H s. exists []. split; [by rewrite app_nil_r|apply H]. Qed.

Lemma lg_gets {A} (f : St -> A) (Q : res exn A -> list event -> Prop) : (forall a, Q (Ok a) []) -> logs (gets f) Q.
Proof. intros H s. exists []. split; [by rewrite app_nil_r|apply H]. Qed.

(** An attempt that logs nothing *)
Lemma silent_attempt {A B} (m : M St exn A) (k : res exn A -> M St exn B) Q :
  (forall s, st_log (m s).2 = st_log s) -> (forall r, logs (k r) Q) -> logs (bind (attempt m) k) Q.
Proof.
  intros Hm Hk s. unfold bind, attempt. pose proof (Hm s) as Hs. destruct (m s) as [r s']; simpl in *.
  destruct (Hk r s') as (l & Hl & HQ). exists l. by rewrite Hl, Hs.
Qed.

Lemma silent_bind {A B} (m : M St exn A) (k : A -> M St exn B) Q :
  (forall s, st_log (m s).2 = st_log s) -> (forall a, logs (k a) Q) -> (forall e, Q (Raise e) []) -> logs (bind m k) Q.
Proof.
  intros Hm Hk He s. unfold bind. pose proof (Hm s) as Hs. destruct (m s) as [[a|e] s']; simpl in *.
  - destruct (Hk a s') as (l & Hl & HQ). exists l. by rewrite Hl, Hs.
  - exists []. by rewrite app_nil_r.
Qed.

Lemma logged_bind {A} ev (k : M St exn A) Q :
  logs k (fun r l => Q r (ev :: l)) -> logs (bind (log ev) (fun _ => k)) Q.
Proof.
  intros Hk s. destruct (Hk (add_event ev s)) as (l & Hl & HQ). exists (ev :: l). split; [|done]. unfold bind, log, modify.
  rewrite Hl. simpl. by rewrite <- app_assoc.
Qed.

(** *** Quiet operations *)

Definition quietly {A} (m : M St exn A) : Prop := logs m (fun _ l => Forall (fun e => quiet e = true) l).

Lemma quietly_bind {A B} (m : M St exn A) (k : A -> M St exn B) :
  quietly m -> (forall a, quietly (k a)) -> quietly (bind m k).
Proof.
  intros Hm Hk. eapply lg_bind; [exact Hm|simpl..]; [|auto]. intros a l Hl. eapply lg_mono; [apply Hk|]. simpl. intros _ l' Hl'.
  by apply Forall_app.
Qed.

Lemma quietly_attempt {A} (m : M St exn A) : quietly m -> quietly (attempt m).
Proof. intros Hm. eapply lg_attempt; [exact Hm|auto]. Qed.

Lemma quietly_pure {A} (m : M St exn A) : (forall s, st_log (m s).2 = st_log s) -> quietly m.
Proof. intros H s. exists []. by rewrite app_nil_r, H. Qed.

Lemma quietly_log e : quiet e = true -> quietly (log e).
Proof. intros H. apply lg_log. by constructor. Qed.

Lemma quietly_request {Model A} (op : operation Model A) name f : quietly (request_of v op name f).
Proof. apply quietly_bind; [by apply quietly_attempt, quietly_pure|]. intros ?. apply quietly_bind; intros; by apply quietly_pure. Qed.

Lemma quietly_endpoint id port : quietly (fetch_endpoint v id port).
Proof. apply quietly_bind; [apply quietly_request|]. intros e. apply quietly_bind; [by apply quietly_log|intros; by apply quietly_pure]. Qed.

Lemma quietly_sync_endpoints id : quietly (sync_endpoints v id).
Proof. do 2 (apply quietly_bind; [apply quietly_endpoint|intros _]). by apply quietly_pure. Qed.

Lemma quietly_aio_endpoints id : quietly (aio_endpoints v id).
Proof.
  do 2 (apply quietly_bind; [apply quietly_attempt, quietly_endpoint|intros ?]). apply quietly_bind; [by apply quietly_pure|].
  intros b. destruct a, a0; by apply quietly_pure.
Qed.

Lemma quietly_resume id : quietly (request_resume v id).
Proof. apply quietly_bind; [apply quietly_request|]. intros _. by apply quietly_log. Qed.

Lemma quietly_healthy check : quietly (is_healthy v check).
Proof.
  destruct check as [h|]; [by apply quietly_pure|]. apply quietly_bind; [by apply quietly_attempt, quietly_pure|]. intros sent.
  apply quietly_bind; [by apply quietly_pure|]. intros now. case_match; [by apply quietly_pure|]. case_match; by apply quietly_pure.
Qed.

(** *** Waiting *)

Definition sleeps (sleep : Z -> M St exn unit) : Prop := forall d, quietly (sleep d).

Lemma sleeps_sync : sleeps (sync_sleep v).
Proof. intros d. unfold sync_sleep. destruct (d <? 0); [by apply quietly_pure|]. intros s. exists [ESleep d]. split; [done|by constructor]. Qed.

Lemma sleeps_aio : sleeps (aio_sleep v).
Proof. intros d s. exists [ESleep (Z.max 0 d)]. split; [done|by constructor]. Qed.

(** Waiting that returns ends with a check that found the sandbox healthy. *)
Definition waited (r : res exn unit) (l : list event) : Prop :=
  Forall (fun e => quiet e = true) l /\ (r = Ok tt -> exists l', l = (l' ++ [EHealth true])%list).

Lemma waited_after r l l' : Forall (fun e => quiet e = true) l -> waited r l' -> waited r (l ++ l')%list.
Proof. intros Hl [Hq Hw]. split; [by apply Forall_app|]. intros H. destruct (Hw H) as [l'' ->]. exists (l ++ l'')%list. by rewrite app_assoc. Qed.

Lemma quietly_then {A} (m : M St exn A) (k : A -> M St exn unit) :
  quietly m -> (forall a, logs (k a) waited) -> logs (bind m k) waited.
Proof.
  intros Hm Hk. eapply lg_bind; [exact Hm|simpl..].
  - intros a l Hl. eapply lg_mono; [apply Hk|]. intros r l' Hw. by apply waited_after.
  - intros e l Hl. by split.
Qed.

Lemma waited_throw e : logs (throw e) waited.
Proof. apply lg_throw. by split. Qed.

Lemma ready_loop_waits sleep check fuel timeout deadline polling attempts last :
  sleeps sleep -> logs (ready_loop v sleep check fuel timeout deadline polling attempts last) waited.
Proof.
  intros Hs. revert attempts last. induction fuel as [|fuel IH]; intros attempts last; [apply waited_throw|]. simpl.
  apply quietly_then; [by apply quietly_pure|]. intros t. destruct (deadline <=? t); [apply waited_throw|].
  apply quietly_then; [apply quietly_attempt, quietly_healthy|]. intros [[]|e].
  - apply lg_log. split; [by constructor|]. intros _. by exists [].
  - apply quietly_then; [by apply quietly_log|intros _]. apply quietly_then; [apply Hs|auto].
  - destruct (is_Exc e); [|apply waited_throw]. apply quietly_then; [by apply quietly_log|intros _]. apply quietly_then; [apply Hs|auto].
Qed.

Lemma check_ready_waits sleep fuel check timeout polling :
  sleeps sleep -> logs (check_ready_with v sleep fuel check timeout polling) waited.
Proof. intros Hs. apply quietly_then; [by apply quietly_pure|]. intros t. by apply ready_loop_waits. Qed.

(** *** Building, killing and closing *)

Definition assembled (rq : request) (id : text) (c : ConnectionConfig) (r : res exn SandboxObject) (l : list event) : Prop :=
  Forall (fun e => quiet e = true) l /\
  (forall sb, r = Ok sb -> sb = mkSandbox id c (rq_health_check rq) /\
     (rq_skip_health_check rq = false -> exists l', l = (l' ++ [EHealth true])%list)).

Lemma assemble_logs endpoints ready fuel rq id c :
  (forall id, quietly (endpoints id)) -> (forall fuel check timeout polling, logs (ready fuel check timeout polling) waited) ->
  logs (assemble v endpoints ready fuel rq id c) (assembled rq id c).
Proof.
  intros He Hr. eapply lg_bind; [apply He|simpl|by intros ? ? ?; split; [|intros]].
  intros [] l1 H1. eapply lg_bind; [apply lg_ask with (Q := fun _ l => l = []); done|simpl|].
  2: { intros e l ->. split; [by rewrite app_nil_r|done]. }
  intros [] l2 ->.
  eapply lg_bind with (P := fun r l => Forall (fun e => quiet e = true) l /\
      (r = Ok tt -> rq_skip_health_check rq = false -> exists l', l = (l' ++ [EHealth true])%list)).
  - destruct (rq_skip_health_check rq); [by apply lg_ret; split|]. eapply lg_mono; [apply Hr|]. intros r l [Hq Hw]. split; [done|auto].
  - simpl. intros [] l3 [H3 Hw]. apply lg_ret. rewrite app_nil_r. split; [by apply Forall_app|]. intros sb [= <-]. split; [done|].
    intros Hs. destruct (Hw eq_refl Hs) as [l' ->]. exists (l1 ++ l')%list. by rewrite app_assoc.
  - simpl. intros e l3 [H3 _]. split; [by apply Forall_app|done].
Qed.

Definition nonempty (ids : list text) : list text := filter (fun id => id <> []) ids.

(** What a task that owns a transport closes *)
Definition owned_by (c : ConnectionConfig) : list nat :=
  match cf_transport c with Some t => if cf_owns_transport c then [t] else [] | None => [] end.

Lemma swallow_logs {A} (m : M St exn A) (P : list event -> Prop) :
  logs m (fun _ l => P l) -> logs (swallow m) (fun r l => P l /\ forall e, r = Raise e -> is_Exc e = false).
Proof.
  intros Hm s. destruct (Hm s) as (l & Hl & HP). exists l. unfold swallow, catch, bind, ret. destruct (m s) as [[a|e] s']; simpl in *; [done|].
  destruct (is_Exc e) eqn:He; simpl; (split; [done|split; [done|]]); [done|]. by intros ? [= <-].
Qed.

Lemma close_logs c :
  logs (close_transport_if_owned v c) (fun r l => (created l = [] /\ killed l = [] /\ opened l = [] /\ closed l = owned_by c) /\ forall e, r = Raise e -> is_Exc e = false).
Proof.
  unfold close_transport_if_owned, owned_by. destruct (cf_transport c) as [t|]; [|by apply lg_ret].
  destruct (cf_owns_transport c); [|by apply lg_ret].
  apply swallow_logs with (P := fun l => created l = [] /\ killed l = [] /\ opened l = [] /\ closed l = [t]).
  apply silent_attempt; [done|]. intros r. apply logged_bind. by apply lg_lift.
Qed.

Lemma kill_logs id :
  logs (kill_sandbox v id) (fun _ l => created l = [] /\ killed l = [id] /\ opened l = [] /\ closed l = []).
Proof.
  apply silent_attempt; [done|]. intros r. apply logged_bind. by apply lg_lift.
Qed.

Lemma clean_up_logs c sandbox_id :
  logs (clean_up v c sandbox_id) (fun r l =>
    (created l = [] /\ opened l = [] /\ killed l = nonempty (option_list sandbox_id) /\ (r = Ok tt -> closed l = owned_by c)) /\
    forall e, r = Raise e -> is_Exc e = false).
Proof.
  eapply lg_bind with (P := fun r l => (created l = [] /\ opened l = [] /\ killed l = nonempty (option_list sandbox_id) /\ closed l = []) /\
    forall e, r = Raise e -> is_Exc e = false).
  - destruct sandbox_id as [[|c0 id]|]; [by apply lg_ret| |by apply lg_ret].
    eapply lg_mono; [apply swallow_logs with (P := fun l => created l = [] /\ killed l = [c0 :: id] /\ opened l = [] /\ closed l = []), kill_logs|].
    intros r l [(H1 & H2 & H3 & H4) He]. done.
  - simpl. intros [] l [(H1 & H2 & H3 & H4) _]. eapply lg_mono; [apply close_logs|]. simpl.
    intros r l' [(H1' & H2' & H3' & H4') He]. autorewrite with logreads. rewrite H1, H2, H3, H4, H1', H2', H3', H4'.
    split; [|exact He]. split_and!; rewrite ?app_nil_r; done.
  - simpl. intros e l [(H1 & H2 & H3 & H4) He]. done.
Qed.

(** *** What a constructor leaves behind *)

Lemma quiet_reads l :
  Forall (fun e => quiet e = true) l -> created l = [] /\ killed l = [] /\ opened l = [] /\ closed l = [].
Proof. induction 1 as [|e l He _ (H1 & H2 & H3 & H4)]; [done|]. destruct e; try done; by split_and!. Qed.

(** The configuration a constructor works with, and what obtaining it logs *)
Definition configured (c c' : ConnectionConfig) (l : list event) : Prop :=
  match cf_transport c with
  | Some _ => c' = c /\ l = []
  | None => exists t w, l = [EOpenTransport t w] /\ cf_transport c' = Some t /\ cf_owns_transport c' = true
  end.

Lemma with_transport_logs c :
  logs (with_transport_if_missing v c) (fun r l => match r with Ok c' => configured c c' l | Raise _ => l = [] end).
Proof.
  unfold with_transport_if_missing, configured. destruct (cf_transport c) eqn:Hc; [by apply lg_ret|].
  apply silent_bind; [done| |done]. intros t. apply silent_bind; [done| |done]. intros _. apply logged_bind, lg_ret. eauto.
Qed.

Definition blank_image (rq : request) : bool :=
  match rq_image rq with Some (IText t) => bool_decide (ustrip t = []) | _ => false end.

Lemma prepare_logs rq c :
  blank_image rq = false -> logs (prepare v rq c) (fun r l => match r with Ok c' => configured c c' l | Raise _ => l = [] end).
Proof.
  unfold prepare, blank_image. intros Hb. destruct (Bool.eqb _ _); [by apply lg_throw|].
  eapply lg_bind; [apply with_transport_logs|simpl|auto].
  intros c' l Hc. replace (match rq_image rq with Some (IText t) => if bool_decide (ustrip t = []) then throw ValidationErr else ret c' | _ => ret c' end)
    with (ret (S := St) (E := exn) c').
  - apply lg_ret. by rewrite app_nil_r.
  - destruct (rq_image rq) as [[t|t]|]; [by rewrite Hb|done..].
Qed.

(** The owned transport: the one of the given configuration, or the one opened *)
Definition to_close (c : ConnectionConfig) (l : list event) : list nat :=
  match cf_transport c with Some _ => owned_by c | None => opened l end.

Definition is_base {A} (r : res exn A) : Prop := exists e, r = Raise e /\ is_Exc e = false.

(** The configuration of the new object: the given one, or one with the transport that was opened *)
Definition keeps (c c' : ConnectionConfig) (ts : list nat) : Prop :=
  (c' = c /\ ts = []) \/ exists t, ts = [t] /\ cf_transport c' = Some t /\ cf_owns_transport c' = true.

(** A constructor that succeeds leaves its sandbox alive and its transport open,
    and has waited until the sandbox was healthy.  One that fails did nothing at
    all, or sent a kill for every sandbox it knows it made and closed the
    transport it owns; what it raises, if it is an [Exception], is a
    [SandboxException]. *)
Definition settled (made : SandboxObject -> list text) (rq : request) (c : ConnectionConfig) (r : res exn SandboxObject) (l : list event) : Prop :=
  match r with
  | Ok sb =>
      created l = made sb /\ killed l = [] /\ closed l = [] /\ keeps c (sb_config sb) (opened l) /\
      (rq_skip_health_check rq = false -> exists l', l = (l' ++ [EHealth true])%list)
  | Raise e =>
      l = [] \/
      (killed l = nonempty (created l) /\ closed l = to_close c l /\ (is_Exc e = true -> is_Sandbox e = true))
  end.

Lemma configured_reads c c' l :
  configured c c' l ->
  created l = [] /\ killed l = [] /\ closed l = [] /\ keeps c c' (opened l) /\
  forall l', opened l' = [] -> to_close c (l ++ l')%list = owned_by c'.
Proof.
  unfold configured, keeps, to_close, owned_by. destruct (cf_transport c) eqn:Hc.
  - intros [-> ->]. split_and!; auto. intros l' _. by rewrite Hc.
  - intros (t & w & -> & Ht & Ho). split_and!; try done; [naive_solver|]. intros l' Hl'. rewrite opened_ids_app, Hl', Ht, Ho. done.
Qed.

(** What a handler does, with the sandbox it knows of *)
Definition handled (c : ConnectionConfig) (sandbox_id : option text) (r : res exn SandboxObject) (l : list event) : Prop :=
  exists e, r = Raise e /\ created l = [] /\ opened l = [] /\ killed l = nonempty (option_list sandbox_id) /\
    closed l = owned_by c /\ (is_Exc e = true -> is_Sandbox e = true).

Section constructor.
(** The outcomes for which nothing is promised *)
Context (ex : res exn SandboxObject -> Prop) (handle : ConnectionConfig -> option text -> exn -> M St exn SandboxObject)
  (endpoints : text -> M St exn unit) (ready : nat -> option (nat -> res exn bool) -> Z -> Z -> M St exn unit).
Hypothesis handle_logs : forall c sandbox_id e, logs (handle c sandbox_id e) (fun r l => ex r \/ handled c sandbox_id r l).
Hypothesis endpoints_quiet : forall id, quietly (endpoints id).
Hypothesis ready_waits : forall fuel check timeout polling, logs (ready fuel check timeout polling) waited.

Lemma handled_settles made rq c c' sandbox_id l0 l1 r l2 :
  configured c c' l0 -> created l1 = option_list sandbox_id -> killed l1 = [] -> opened l1 = [] -> closed l1 = [] ->
  handled c' sandbox_id r l2 -> settled made rq c r (l0 ++ l1 ++ l2).
Proof.
  intros (H1 & H2 & H3 & H4 & H5)%configured_reads K1 K2 K3 K4 (e & -> & J1 & J2 & J3 & J4 & J5). right.
  rewrite H5 by (by rewrite opened_ids_app, K3, J2). autorewrite with logreads. rewrite H1, H2, H3, K1, K2, K4, J1, J3, J4. simpl. by rewrite app_nil_r.
Qed.

Lemma create_logs :
  logs (bind (ask v (v_adapters v)) (fun _ => create_sandbox v)) (fun r l => match r with Ok id => l = [ECreated id] | Raise _ => l = [] end).
Proof.
  apply silent_bind; [done| |done]. intros _. apply silent_bind; [|intros id; by apply logged_bind, lg_ret|done].
  intros s. unfold request_of, bind, attempt, ask, gets, lift. done.
Qed.

Lemma built_settles rq c c' id sb l0 l1 :
  configured c c' l0 -> assembled rq id c' (Ok sb) l1 -> settled (fun sb => [sb_id sb]) rq c (Ok sb) (l0 ++ [ECreated id] ++ l1).
Proof.
  intros (H1 & H2 & H3 & H4 & H5)%configured_reads [Hq Hs]. destruct (Hs sb eq_refl) as [-> Hw].
  destruct (quiet_reads l1 Hq) as (K1 & K2 & K3 & K4). unfold settled. autorewrite with logreads.
  rewrite H1, H2, H3, K1, K2, K3, K4. change (opened [ECreated id]) with (@nil nat). rewrite !app_nil_r. split_and!; try done.
  intros Hsk. destruct (Hw Hsk) as [l' ->]. exists (l0 ++ ECreated id :: l')%list. by rewrite <- app_assoc.
Qed.

Lemma create_settles fuel rq c :
  blank_image rq = false ->
  logs (c <-- prepare v rq c ;;
        r <-- attempt (ask v (v_adapters v) ;;; create_sandbox v) ;;
        match r with
        | Raise e => handle c None e
        | Ok id =>
            r <-- attempt (assemble v endpoints ready fuel rq id c) ;;
            match r with Raise e => handle c (Some id) e | Ok sandbox => ret sandbox end
        end)
       (fun r l => ex r \/ settled (fun sb => [sb_id sb]) rq c r l).
Proof.
  intros Hb. eapply lg_bind; [by apply prepare_logs|simpl|by intros e l ->; right; left]. intros c' l0 H0.
  eapply lg_bind_attempt; [apply create_logs|]. intros [id|e] l1 H1; simpl in H1; subst l1.
  - eapply lg_bind_attempt; [by apply assemble_logs|].
    intros [sb|e] l2 H2.
    + apply lg_ret. right. rewrite app_nil_r. by eapply built_settles.
    + eapply lg_mono; [apply handle_logs|]. intros r l3 [|H3]; [by left|right]. rewrite (app_assoc [ECreated id]).
      destruct H2 as [Hq _]. destruct (quiet_reads l2 Hq) as (K1 & K2 & K3 & K4).
      eapply handled_settles; [done|..|done]; autorewrite with logreads; by rewrite ?K1, ?K2, ?K3, ?K4.
  - eapply lg_mono; [apply handle_logs|]. intros r l3 [|H3]; [by left|right]. by apply (handled_settles _ rq c c' None l0 [] r l3).
Qed.

(** [connect] and [resume] *)
Lemma open_settles start fuel rq id c :
  quietly start ->
  (forall c e, logs (if is_Exc e then close_transport_if_owned v c ;;; reraise v e else throw e)
                 (fun r l => ex r \/ handled c None r l)) ->
  logs (open_with v endpoints ready start fuel rq id c) (fun r l => ex r \/ settled (fun _ => []) rq c r l).
Proof.
  intros Hst Hh. unfold open_with. destruct (bool_decide (id = [])); [apply lg_throw; right; by left|].
  eapply lg_bind; [apply with_transport_logs|simpl|by intros e l ->; right; left]. intros c' l0 H0.
  eapply lg_bind_attempt with (P := assembled rq id c').
  - apply silent_bind; [done| |by intros e; split]. intros _.
    eapply lg_bind; [exact Hst|simpl|by intros e l Hl; split]. intros [] l Hl.
    eapply lg_mono; [by apply assemble_logs|]. intros r l' [Hq Hs]. split; [by apply Forall_app|]. intros sb Hsb.
    destruct (Hs sb Hsb) as [-> Hw]. split; [done|]. intros Hsk. destruct (Hw Hsk) as [l'' ->]. exists (l ++ l'')%list. by rewrite app_assoc.
  - intros r l1 [Hq Hs]. destruct (quiet_reads l1 Hq) as (K1 & K2 & K3 & K4). destruct r as [sb|e].
    + apply lg_ret. right. rewrite app_nil_r. destruct (Hs sb eq_refl) as [-> Hw].
      destruct (configured_reads _ _ _ H0) as (H1 & H2 & H3 & H4 & _). unfold settled. autorewrite with logreads.
      rewrite H1, H2, H3, K1, K2, K3, K4, !app_nil_r. split_and!; try done. intros Hsk. destruct (Hw Hsk) as [l' ->].
      exists (l0 ++ l')%list. by rewrite app_assoc.
    + eapply lg_mono; [apply Hh|]. intros r l2 [|H2]; [by left|right]. by apply (handled_settles _ rq c c' None l0 l1 r l2).
Qed.
End constructor.

(** *** The handlers *)

Lemma reraise_logs {A} e : is_Exc e = true -> logs (reraise (A := A) v e) (fun r l => l = [] /\ exists e', r = Raise e' /\ is_Sandbox e' = true).
Proof. intros He. unfold reraise. destruct (is_Sandbox e) eqn:Hs; apply lg_throw; eauto. Qed.

Lemma handler_logs c sandbox_id e (m : M St exn unit) :
  logs m (fun r l => (created l = [] /\ opened l = [] /\ killed l = nonempty (option_list sandbox_id) /\ (r = Ok tt -> closed l = owned_by c)) /\
    forall e, r = Raise e -> is_Exc e = false) ->
  logs (if is_Exc e then m ;;; reraise v e else throw e) (fun r l => is_base r \/ handled c sandbox_id r l).
Proof.
  intros Hm. destruct (is_Exc e) eqn:He; [|by apply lg_throw; left; exists e].
  eapply lg_bind; [exact Hm|simpl|].
  - intros [] l [(H1 & H2 & H3 & H4) _]. eapply lg_mono; [by apply reraise_logs|]. intros r l' (-> & e' & -> & Hs). right. rewrite app_nil_r.
    exists e'. split_and!; auto.
  - intros e' l [_ He']. left. exists e'. split; [done|]. by apply He'.
Qed.

Lemma close_handler c e :
  logs (if is_Exc e then close_transport_if_owned v c ;;; reraise v e else throw e) (fun r l => is_base r \/ handled c None r l).
Proof.
  apply handler_logs. eapply lg_mono; [apply close_logs|]. intros r l [(H1 & H2 & H3 & H4) He]. done.
Qed.

(** The calls of the clean-up end with a response or an [Exception]. *)
Definition uncut : Prop :=
  (forall n e, v_delete v n = Raise e -> is_Exc e = true) /\ (forall n e, v_close v n = Raise e -> is_Exc e = true).

Lemma swallow_ok {A} (m : M St exn A) s : (forall e, (m s).1 = Raise e -> is_Exc e = true) -> (swallow m s).1 = Ok tt.
Proof.
  intros Hm. unfold swallow, catch, bind, ret. destruct (m s) as [[a|e] s']; [done|]. simpl. by rewrite (Hm e eq_refl).
Qed.

Lemma close_ok c s : uncut -> (close_transport_if_owned v c s).1 = Ok tt.
Proof.
  intros [_ Hc]. unfold close_transport_if_owned. destruct (cf_transport c) as [t|]; [|done]. destruct (cf_owns_transport c); [|done].
  apply swallow_ok. intros e He. unfold bind, attempt, ask, lift, log, modify in He. simpl in He. by apply Hc in He.
Qed.

Lemma clean_up_ok c sandbox_id s : uncut -> (clean_up v c sandbox_id s).1 = Ok tt.
Proof.
  intros Hu. pose proof Hu as [Hd _]. unfold clean_up. set (m := match sandbox_id with Some ((_ :: _) as id) => swallow (kill_sandbox v id) | _ => ret tt end).
  assert (forall s, (m s).1 = Ok tt) as Hm.
  { intros s0. unfold m. destruct sandbox_id as [[|a id]|]; [done| |done]. apply swallow_ok. intros e He.
    destruct (is_Exc e) eqn:Hx; [done|]. unfold kill_sandbox, request_of, bind, attempt, ask, gets, lift, log, modify in He. simpl in He.
    apply no_model_raises in He; [|done]. apply Hd in He. congruence. }
  unfold bind. specialize (Hm s). destruct (m s) as [r s1]. simpl in Hm. subst r. by apply close_ok.
Qed.

Lemma aio_handler c sandbox_id e :
  uncut -> logs (clean_up v c sandbox_id ;;; (if is_Exc e then reraise v e else throw e)) (fun r l => False \/ handled c sandbox_id r l).
Proof.
  intros Hu. eapply lg_bind with (P := fun r l => (created l = [] /\ opened l = [] /\ killed l = nonempty (option_list sandbox_id) /\ closed l = owned_by c) /\ r = Ok tt).
  - intros s. destruct (clean_up_logs c sandbox_id s) as (l & Hl & (H1 & H2 & H3 & H4) & _). exists l. rewrite (clean_up_ok c sandbox_id s Hu) in *. auto 10.
  - intros [] l [(H1 & H2 & H3 & H4) _]. destruct (is_Exc e) eqn:He.
    + eapply lg_mono; [by apply reraise_logs|]. intros r l' (-> & e' & -> & Hs). right. rewrite app_nil_r. exists e'. split_and!; auto.
    + apply lg_throw. right. rewrite app_nil_r. exists e. split_and!; auto. by rewrite He.
  - by intros e' l [_ ?].
Qed.
End logs.


(** [destroy_sandbox] sends the kill and then closes the transport the object owns,
    whether the kill failed or not, and ends as the kill did. *)
Theorem destroy_closes v sb s :
  uncut v ->
  exists l, st_log (destroy_sandbox v sb s).2 = (st_log s ++ l)%list /\ killed l = [sb_id sb] /\ closed l = owned_by (sb_config sb) /\
    (destroy_sandbox v sb s).1 = (kill v sb s).1.
Proof.
  intros Hu.
  assert (logs (kill v sb) (fun _ l => killed l = [sb_id sb] /\ closed l = [])) as Hk.
  { apply logged_bind. eapply lg_mono; [apply kill_logs|]. by intros r l (H1 & H2 & H3 & H4). }
  destruct (Hk s) as (l & Hl & H1 & H2). destruct (kill v sb s) as [r s1] eqn:Ek; cbn [fst snd] in *.
  destruct (close_logs v (sb_config sb) s1) as (l' & Hl' & (_ & H3 & _ & H4) & _).
  pose proof (close_ok v (sb_config sb) s1 Hu) as Hok. destruct (close_transport_if_owned v (sb_config sb) s1) as [r2 s2] eqn:Ec; cbn [fst snd] in *.
  subst r2. assert (destroy_sandbox v sb s = (r, s2)) as ->.
  { unfold destroy_sandbox, bind at 1, attempt. rewrite Ek. unfold bind, close_sandbox, swallow, catch, bind. by rewrite Ec. }
  exists (l ++ l')%list. cbn [fst snd]. by rewrite Hl', Hl, app_assoc, killed_ids_app, closed_ids_app, H1, H2, H3, H4.
Qed.

(** ** Waiting ends *)

Section waiting.
Context (v : Env) (sleep : Z -> M St exn unit) (check : option (nat -> res exn bool)) (polling : Z).

(** The wall clock is not set back, a sleep lasts as long as it was asked to or
    is interrupted. *)
Hypothesis clock_forward : forall n, 0 <= v_tick v n.
Hypothesis sleeps_long : forall s, st_now s + polling <= st_now (sleep polling s).2 \/ exists e, (sleep polling s).1 = Raise e.
Hypothesis polling_positive : 0 < polling.

Lemma bind_run {A B} (m : M St exn A) (k : A -> M St exn B) s :
  bind m k s = match m s with (Ok a, s') => k a s' | (Raise e, s') => (Raise e, s') end.
Proof. reflexivity. Qed.

Lemma healthy_forward s : st_now s <= st_now (is_healthy v check s).2.
Proof.
  unfold is_healthy. destruct check as [h|].
  - unfold ask, advance. simpl. pose proof (clock_forward (st_step s)). lia.
  - unfold ping, bind, attempt, ask, gets, ret, throw, advance. simpl. pose proof (clock_forward (st_step s)).
    case_match; [simpl; lia|]. case_match; simpl; lia.
Qed.

(** The next turn of a loop starts a polling interval later. *)
Lemma later_turn deadline now now' : now < deadline -> now + polling <= now' ->
  (deadline - now') / polling + 1 <= (deadline - now) / polling /\ 0 <= (deadline - now) / polling.
Proof.
  intros Hd Hn. split; [|apply Z.div_pos; lia].
  assert ((deadline - now') / polling <= (deadline - now + -1 * polling) / polling) as Hle by (apply Z.div_le_mono; lia).
  rewrite Z.div_add in Hle by lia. lia.
Qed.

(** No answer is the marker for fuel. *)
Hypothesis answers_honest :
  (forall s, (is_healthy v check s).1 <> Raise out_of_fuel) /\ (forall s, (sleep polling s).1 <> Raise out_of_fuel).

(** Beyond the turns that fit into the time left, fuel does not matter. *)
Lemma ready_loop_ends fuel timeout deadline attempts last s :
  (Z.to_nat ((deadline - st_now s) / polling + 1) < fuel)%nat ->
  (ready_loop v sleep check fuel timeout deadline polling attempts last s).1 <> Raise out_of_fuel /\
  forall fuel', (fuel <= fuel')%nat ->
  ready_loop v sleep check fuel' timeout deadline polling attempts last s = ready_loop v sleep check fuel timeout deadline polling attempts last s.
Proof.
  destruct answers_honest as [Hhh Hhs].
  revert attempts last s. induction fuel as [|fuel IH]; intros attempts last s Hf; [lia|].
  enough (forall fuel', (fuel <= fuel')%nat ->
    (ready_loop v sleep check (S fuel) timeout deadline polling attempts last s).1 <> Raise out_of_fuel /\
    ready_loop v sleep check (S fuel') timeout deadline polling attempts last s = ready_loop v sleep check (S fuel) timeout deadline polling attempts last s) as He.
  { split; [by apply (He fuel)|]. intros [|fuel'] Hle; [lia|]. apply He. lia. }
  intros fuel' Hle. cbn [ready_loop]. rewrite !(bind_run (read_clock v)). unfold read_clock. set (s1 := advance v 0 s).
  assert (st_now s <= st_now s1) as Hs1 by (unfold s1, advance; simpl; pose proof (clock_forward (st_step s)); lia).
  clearbody s1. destruct (deadline <=? st_now s1) eqn:Hd; [done|]. apply Z.leb_gt in Hd.
  rewrite !(bind_run (attempt _)). unfold attempt. pose proof (healthy_forward s1) as Hh. specialize (Hhh s1).
  destruct (is_healthy v check s1) as [r s2]; simpl in Hh, Hhh.
  assert (forall a (k k' : M St exn unit),
    (forall s3, st_now s2 + polling <= st_now s3 -> (k s3).1 <> Raise out_of_fuel /\ k' s3 = k s3) ->
    ((log (EHealth a) ;;; sleep polling ;;; k) s2).1 <> Raise out_of_fuel /\
    (log (EHealth a) ;;; sleep polling ;;; k') s2 = (log (EHealth a) ;;; sleep polling ;;; k) s2) as Hstep.
  { intros a k k' Hk. rewrite !(bind_run (log _)). unfold log, modify. rewrite !bind_run. pose proof (sleeps_long (add_event (EHealth a) s2)) as Hsl.
    specialize (Hhs (add_event (EHealth a) s2)).
    destruct (sleep polling (add_event (EHealth a) s2)) as [[[]|e] s3]; simpl in Hsl, Hhs; [|by split; simpl]. apply Hk. destruct Hsl as [Hsl|[e Hsl]]; [exact Hsl|discriminate Hsl]. }
  assert (forall s3 attempts last, st_now s2 + polling <= st_now s3 ->
    (ready_loop v sleep check fuel timeout deadline polling attempts last s3).1 <> Raise out_of_fuel /\
    ready_loop v sleep check fuel' timeout deadline polling attempts last s3 = ready_loop v sleep check fuel timeout deadline polling attempts last s3) as Hrec.
  { intros s3 at' la Hs3. destruct (later_turn deadline (st_now s) (st_now s3)); [lia..|]. destruct (IH at' la s3) as [? ?]; [lia|]. split; [done|auto]. }
  destruct r as [[]|e]; [done|..].
  - apply Hstep. intros; by apply Hrec.
  - destruct (is_Exc e); [|split; [intros [= ->]; by apply Hhh|reflexivity]]. apply Hstep. intros; by apply Hrec.
Qed.

End waiting.

(** ** Concrete runs *)

Definition ok_answer (st : Z) (body : string) : res exn (Response * list Z) := Ok (answer st, lit body).

Definition client_loads (l : list Z) : option json :=
  if bool_decide (l = lit "{id}") then Some (JObject [(lit "id", JString (lit "sb-1"))])
  else if bool_decide (l = lit "{endpoint}") then Some (JObject [(lit "endpoint", JString (lit "host:80"))])
  else None.

Definition interrupt : exn := BaseEx "KeyboardInterrupt".
Definition cancelled : exn := BaseEx "CancelledError".

(** A server that creates [sb-1]; the rest is given by step. *)
Definition demo_env (tick : nat -> Z) (get : nat -> res exn (Response * list Z)) (health : nat -> res exn (Response * list Z))
    (delete : nat -> res exn (Response * list Z)) : Env := {|
  v_tick := tick; v_new_transport := fun _ => Ok tt; v_adapters := fun _ => Ok tt;
  v_post := fun _ => ok_answer 202 "{id}"; v_resume := fun _ => ok_answer 202 ""; v_pause := fun _ => ok_answer 202 "";
  v_delete := delete; v_endpoint := fun n _ => get n; v_ping := health; v_sleep := fun _ => Ok tt; v_close := fun _ => Ok tt;
  v_first := fun _ => false; v_loads_bytes := client_loads; v_loads := client_loads; v_repr := fun _ => []; v_text_of := fun _ => [];
  v_parsedate := fun _ => None; v_model := json; v_from_dict := fun j => d ← json_dict j; pop_key "id" d;
  v_to_id := fun j => match j with JString t => Ok t | _ => Raise ValidationErr end; v_timeout_message := fun _ _ _ => lit "not ready" |}.

Definition forward : nat -> Z := fun _ => 1000.
Definition reachable_endpoint : nat -> res exn (Response * list Z) := fun _ => ok_answer 200 "{endpoint}".
Definition unhealthy : nat -> res exn (Response * list Z) := fun _ => Raise (Httpx HConnectError).
Definition deleted : nat -> res exn (Response * list Z) := fun _ => ok_answer 204 "".

Definition demo_request : request :=
  {| rq_image := Some (IText (lit "python:3.11")); rq_snapshot_id := None; rq_health_check := None; rq_ready_timeout := seconds 1;
     rq_polling := milliseconds 200; rq_skip_health_check := false |}.

Definition default_config : ConnectionConfig := new_config None default_policy.

Definition fresh : St := mkSt 0 0 [].

(** The sandbox never gets healthy: it is killed and the transport closed. *)
Definition sick_env : Env := demo_env forward reachable_endpoint unhealthy deleted.



(** *** What is left behind *)

(** An interrupt while the synchronous client waits leaves sandbox and transport. *)
Example interrupted_create_leaks :
  let v := demo_env forward reachable_endpoint (fun n => if (7 <=? n)%nat then Raise interrupt else unhealthy n) deleted in
  let r := create v 20 demo_request default_config fresh in
  r.1 = Raise interrupt /\ created (st_log r.2) = [lit "sb-1"] /\ killed (st_log r.2) = [] /\
  opened (st_log r.2) = [0%nat] /\ closed (st_log r.2) = [].
Proof. vm_compute. auto 10. Qed.

(** A cancelled [connect] leaves the transport it opened. *)
Example cancelled_connect_leaks :
  let v := demo_env forward (fun _ => Raise cancelled) unhealthy deleted in
  let r := aio_connect v 20 demo_request (lit "sb-1") default_config fresh in
  r.1 = Raise cancelled /\ opened (st_log r.2) = [0%nat] /\ closed (st_log r.2) = [].
Proof. vm_compute. auto 10. Qed.

(** A second cancellation, during the clean-up, leaves the transport. *)
Example cancelled_clean_up_leaks :
  let v := demo_env forward (fun _ => Raise cancelled) unhealthy (fun _ => Raise cancelled) in
  let r := aio_create v 20 demo_request default_config fresh in
  r.1 = Raise cancelled /\ killed (st_log r.2) = [lit "sb-1"] /\ opened (st_log r.2) = [0%nat] /\ closed (st_log r.2) = [].
Proof. vm_compute. auto 10. Qed.

(** A blank image is refused after the transport was opened, and not with a
    [SandboxException]. *)
Example blank_image_leaks :
  let rq := {| rq_image := Some (IText (lit " ")); rq_snapshot_id := None; rq_health_check := None; rq_ready_timeout := 0;
               rq_polling := 0; rq_skip_health_check := true |} in
  let r := create sick_env 20 rq default_config fresh in
  r.1 = Raise ValidationErr /\ opened (st_log r.2) = [0%nat] /\ closed (st_log r.2) = [].
Proof. vm_compute. auto 10. Qed.

(** The configuration of an object owns its transport: a [connect] that fails
    with it closes the transport of the sandbox it came from. *)
Example shared_config_closed :
  let made := create (demo_env forward reachable_endpoint (fun _ => ok_answer 200 "") deleted) 20 demo_request default_config fresh in
  exists sb, made.1 = Ok sb /\ cf_transport (sb_config sb) = Some 0%nat /\
    let r := connect sick_env 20 demo_request (lit "sb-2") (sb_config sb) made.2 in
    is_ok r.1 = false /\ closed (st_log r.2) = [0%nat].
Proof. eexists. split; [vm_compute; reflexivity|]. vm_compute. auto 10. Qed.

(** The deadline is one of the wall clock: when that is set back by ten seconds,
    a wait of one second sleeps for more than ten. *)
Example clock_set_back_prolongs :
  let v := demo_env (fun n => if (n =? 3)%nat then - seconds 10 else 0) reachable_endpoint unhealthy deleted in
  let r := check_ready v 100 None (seconds 1) (milliseconds 200) fresh in
  r.1 = Raise (Sandbox (ready_timeout (lit "not ready"))) /\
  seconds 10 < fold_right Z.add 0 (omap (fun e => match e with ESleep d => Some d | _ => None end) (st_log r.2)).
Proof. vm_compute. auto. Qed.
