(* ===== verification/RedisServer.v ===== *)
(** * The Redis server, as the pool store sees it

    Redis is not part of the repository.  It appears as an interface: a type of
    server states with one function that runs a command ([Redis]), and the
    documented behaviour of the commands the store uses as laws ([RedisLaws]),
    stated on an abstract view of the state: the server's clock and a map from
    keys to typed values with their expiration times.  [ModelRedis] is a concrete
    server that obeys the laws; examples run on it. *)

From Stdlib Require Import ZArith Lia String.
From stdpp Require Import base numbers strings gmap list.
From S2P Require Import Prelude PyString PyText PyCodec PoolTypes.

Open Scope string_scope.
Open Scope Z_scope.

(** ** Commands and replies *)

(** Arguments are strings, as on the wire. *)
Inductive command :=
  | TIME
  | LPOP (key : string)
  | RPUSH (key element : string)
  | LREM_all (key element : string)  (** [LREM key 0 element] *)
  | LRANGE_all (key : string)  (** [LRANGE key 0 -1] *)
  | HGET (key field : string)
  | HSET (key field value : string)
  | HDEL (key field : string)
  | HLEN (key : string)
  | HGETALL (key : string)
  | GET (key : string)
  | SET (key value : string) (px : option string)
  | SET_NX_PX (key value px : string)
  | PEXPIRE (key px : string)
  | DEL (keys : list string).

Inductive reply :=
  | RNil
  | RInt (n : Z)
  | RBulk (s : string)
  | RStatus (s : string)
  | RArray (l : list reply).

Class Redis (R : Type) := {
  redis_call : command -> M R exc reply;
  (** [d] microseconds go by *)
  elapse : Z -> R -> R;
}.

(** ** The abstract view *)

Inductive rvalue :=
  | VList (l : list string)
  | VHash (h : gmap string string)
  | VStr (s : string).

(** The clock counts microseconds, expiration times are in milliseconds. *)
Record rview := mkView {
  v_now : Z;
  v_db : gmap string (rvalue * option Z);
}.

Definition now_ms (v : rview) : Z := v_now v / 1000.

Definition value_at (v : rview) (k : string) : option rvalue := fst <$> v_db v !! k.
Definition deadline_at (v : rview) (k : string) : option Z := v_db v !! k ≫= snd.

Definition list_at (v : rview) (k : string) : list string :=
  match value_at v k with Some (VList l) => l | _ => [] end.
Definition hash_at (v : rview) (k : string) : gmap string string :=
  match value_at v k with Some (VHash h) => h | _ => ∅ end.
Definition str_at (v : rview) (k : string) : option string :=
  match value_at v k with Some (VStr s) => Some s | _ => None end.

(** The key is absent or holds a value of the type. *)
Definition is_list (v : rview) (k : string) : Prop :=
  match value_at v k with None | Some (VList _) => True | _ => False end.
Definition is_hash (v : rview) (k : string) : Prop :=
  match value_at v k with None | Some (VHash _) => True | _ => False end.
Definition is_str (v : rview) (k : string) : Prop :=
  match value_at v k with None | Some (VStr _) => True | _ => False end.

(** Writes; a list or hash that becomes empty is removed, and changing a value in
    place keeps the key's expiration. *)
Definition put_list (k : string) (l : list string) (v : rview) : rview :=
  mkView (v_now v) match l with
                   | [] => delete k (v_db v)
                   | _ => <[k := (VList l, deadline_at v k)]> (v_db v)
                   end.
Definition put_hash (k : string) (h : gmap string string) (v : rview) : rview :=
  mkView (v_now v) (if decide (h = ∅) then delete k (v_db v)
                    else <[k := (VHash h, deadline_at v k)]> (v_db v)).
Definition put_str (k s : string) (dl : option Z) (v : rview) : rview :=
  mkView (v_now v) (<[k := (VStr s, dl)]> (v_db v)).
Definition put_deadline (k : string) (dl : Z) (v : rview) : rview :=
  mkView (v_now v) (alter (fun x => (x.1, Some dl)) k (v_db v)).
Definition del_keys (ks : list string) (v : rview) : rview :=
  mkView (v_now v) (foldr delete (v_db v) ks).

Definition alive (now : Z) (dl : option Z) : bool :=
  match dl with Some dl => now / 1000 <=? dl | None => true end.

(** The clock moves on and what is past its expiration is gone. *)
Definition pass (d : Z) (v : rview) : rview :=
  let now := v_now v + d in
  mkView now (filter (fun kv => alive now kv.2.2 = true) (v_db v)).

Definition bulk (x : option string) : reply := match x with Some s => RBulk s | None => RNil end.

Fixpoint flatten (l : list (string * string)) : list reply :=
  match l with [] => [] | (k, x) :: l => RBulk k :: RBulk x :: flatten l end.

(** What the documentation of each command promises, for keys of the right type
    and numerals in the arguments that are numbers. *)
Inductive documented (v : rview) : command -> reply -> rview -> Prop :=
  | doc_time :
      documented v TIME
        (RArray [RBulk (str_of_int (v_now v / 1000000)); RBulk (str_of_int (v_now v mod 1000000))]) v
  | doc_lpop k : is_list v k ->
      documented v (LPOP k) (bulk (head (list_at v k))) (put_list k (tail (list_at v k)) v)
  | doc_rpush k x : is_list v k ->
      documented v (RPUSH k x) (RInt (Z.of_nat (length (list_at v k)) + 1))
        (put_list k (list_at v k ++ [x]) v)
  | doc_lrem k x : is_list v k ->
      documented v (LREM_all k x) (RInt (Z.of_nat (count x (list_at v k))))
        (put_list k (filter (fun y => y <> x) (list_at v k)) v)
  | doc_lrange k : is_list v k ->
      documented v (LRANGE_all k) (RArray (map RBulk (list_at v k))) v
  | doc_hget k f : is_hash v k ->
      documented v (HGET k f) (bulk (hash_at v k !! f)) v
  | doc_hset k f x : is_hash v k ->
      documented v (HSET k f x) (RInt (if decide (is_Some (hash_at v k !! f)) then 0 else 1))
        (put_hash k (<[f := x]> (hash_at v k)) v)
  | doc_hdel k f : is_hash v k ->
      documented v (HDEL k f) (RInt (if decide (is_Some (hash_at v k !! f)) then 1 else 0))
        (put_hash k (delete f (hash_at v k)) v)
  | doc_hlen k : is_hash v k ->
      documented v (HLEN k) (RInt (Z.of_nat (size (hash_at v k)))) v
  | doc_hgetall k l : is_hash v k -> l ≡ₚ map_to_list (hash_at v k) ->
      documented v (HGETALL k) (RArray (flatten l)) v
  | doc_get k : is_str v k ->
      documented v (GET k) (bulk (str_at v k)) v
  | doc_set k x :
      documented v (SET k x None) (RStatus "OK") (put_str k x None v)
  | doc_set_px k x px : 0 < px ->
      documented v (SET k x (Some (str_of_int px))) (RStatus "OK")
        (put_str k x (Some (now_ms v + px)) v)
  | doc_set_nx k x px : 0 < px -> value_at v k = None ->
      documented v (SET_NX_PX k x (str_of_int px)) (RStatus "OK")
        (put_str k x (Some (now_ms v + px)) v)
  | doc_set_nx_held k x px : 0 < px -> is_Some (value_at v k) ->
      documented v (SET_NX_PX k x (str_of_int px)) RNil v
  | doc_pexpire k px : 0 < px ->
      documented v (PEXPIRE k (str_of_int px)) (RInt (if bool_decide (is_Some (value_at v k)) then 1 else 0))
        (put_deadline k (now_ms v + px) v)
  | doc_del ks :
      documented v (DEL ks) (RInt (Z.of_nat (size (v_db v)) - Z.of_nat (size (v_db (del_keys ks v)))))
        (del_keys ks v).

(** A command with documented behaviour shows it, and errors are subclasses of
    [Exception]; the clock starts at the epoch
    or later and never runs backwards.  A script runs to its end before any other
    command and time stands still inside it, so only [elapse] moves the clock. *)
Class RedisLaws (R : Type) `{!Redis R} := {
  view : R -> rview;
  law_clock : forall r, 0 <= v_now (view r);
  law_call : forall c r rep v', documented (view r) c rep v' ->
    exists rep' r', redis_call c r = (Ok rep', r') /\ documented (view r) c rep' (view r');
  law_exceptions : forall c r e, (redis_call c r).1 = Raise e -> is_Exception e = true;
  law_elapse : forall d r, 0 <= d -> view (elapse d r) = pass d (view r);
}.

(** ** Commands on the view *)

Section commands.
Context {R : Type} `{!Redis R} `{!RedisLaws R}.
Implicit Types (r : R) (v : rview).

Lemma wp_call c (Q : res exc reply -> R -> Prop) r rep v' :
  documented (view r) c rep v' ->
  (forall rep' r', documented (view r) c rep' (view r') -> Q (Ok rep') r') ->
  wp (redis_call c) Q r.
Proof.
  intros Hd HQ. destruct (law_call _ _ _ _ Hd) as (rep' & r' & Hc & Hd').
  unfold wp. rewrite Hc. by apply HQ.
Qed.

Local Ltac call := intros; eapply wp_call; [by econstructor|]; intros ? ? Hd; inversion Hd; simplify_eq; eauto.

Lemma wp_TIME Q r :
  (forall r', view r' = view r ->
    Q (Ok (RArray [RBulk (str_of_int (v_now (view r) / 1000000));
                   RBulk (str_of_int (v_now (view r) mod 1000000))])) r') ->
  wp (redis_call TIME) Q r.
Proof. call. Qed.

Lemma wp_LPOP k Q r : is_list (view r) k ->
  (forall r', view r' = put_list k (tail (list_at (view r) k)) (view r) ->
    Q (Ok (bulk (head (list_at (view r) k)))) r') ->
  wp (redis_call (LPOP k)) Q r.
Proof. call. Qed.

Lemma wp_RPUSH k x Q r : is_list (view r) k ->
  (forall rep r', view r' = put_list k (list_at (view r) k ++ [x]) (view r) -> Q (Ok rep) r') ->
  wp (redis_call (RPUSH k x)) Q r.
Proof. call. Qed.

Lemma wp_LREM k x Q r : is_list (view r) k ->
  (forall rep r', view r' = put_list k (filter (fun y => y <> x) (list_at (view r) k)) (view r) ->
    Q (Ok (RInt rep)) r') ->
  wp (redis_call (LREM_all k x)) Q r.
Proof. call. Qed.

Lemma wp_LRANGE k Q r : is_list (view r) k ->
  (forall r', view r' = view r -> Q (Ok (RArray (map RBulk (list_at (view r) k)))) r') ->
  wp (redis_call (LRANGE_all k)) Q r.
Proof. call. Qed.

Lemma wp_HGET k f Q r : is_hash (view r) k ->
  (forall r', view r' = view r -> Q (Ok (bulk (hash_at (view r) k !! f))) r') ->
  wp (redis_call (HGET k f)) Q r.
Proof. call. Qed.

Lemma wp_HSET k f x Q r : is_hash (view r) k ->
  (forall rep r', view r' = put_hash k (<[f := x]> (hash_at (view r) k)) (view r) -> Q (Ok rep) r') ->
  wp (redis_call (HSET k f x)) Q r.
Proof. call. Qed.

Lemma wp_HDEL k f Q r : is_hash (view r) k ->
  (forall rep r', view r' = put_hash k (delete f (hash_at (view r) k)) (view r) ->
    Q (Ok (RInt rep)) r') ->
  wp (redis_call (HDEL k f)) Q r.
Proof. call. Qed.

Lemma wp_HLEN k Q r : is_hash (view r) k ->
  (forall r', view r' = view r -> Q (Ok (RInt (Z.of_nat (size (hash_at (view r) k))))) r') ->
  wp (redis_call (HLEN k)) Q r.
Proof. call. Qed.

Lemma wp_HGETALL k Q r : is_hash (view r) k ->
  (forall l r', l ≡ₚ map_to_list (hash_at (view r) k) -> view r' = view r ->
    Q (Ok (RArray (flatten l))) r') ->
  wp (redis_call (HGETALL k)) Q r.
Proof. call. Qed.

Lemma wp_GET k Q r : is_str (view r) k ->
  (forall r', view r' = view r -> Q (Ok (bulk (str_at (view r) k))) r') ->
  wp (redis_call (GET k)) Q r.
Proof. call. Qed.

Lemma wp_SET k x Q r :
  (forall r', view r' = put_str k x None (view r) -> Q (Ok (RStatus "OK")) r') ->
  wp (redis_call (SET k x None)) Q r.
Proof. call. Qed.

Local Ltac same_px :=
  match goal with H : str_of_int ?a = str_of_int ?b |- _ =>
    let E := fresh in assert (a = b) as E by (apply str_of_int_inj; [lia|lia|exact H]); clear H; subst
  end.

Lemma wp_SET_px k x px Q r : 0 < px ->
  (forall r', view r' = put_str k x (Some (now_ms (view r) + px)) (view r) ->
    Q (Ok (RStatus "OK")) r') ->
  wp (redis_call (SET k x (Some (str_of_int px)))) Q r.
Proof.
  intros Hpx HQ. eapply wp_call; [by apply doc_set_px|]. intros rep r' Hd. inversion Hd. same_px. by apply HQ.
Qed.

(** [SET NX] takes an absent key and leaves a present one alone. *)
Lemma wp_SET_NX_PX k x px Q r : 0 < px ->
  (value_at (view r) k = None -> forall r',
    view r' = put_str k x (Some (now_ms (view r) + px)) (view r) -> Q (Ok (RStatus "OK")) r') ->
  (is_Some (value_at (view r) k) -> forall r', view r' = view r -> Q (Ok RNil) r') ->
  wp (redis_call (SET_NX_PX k x (str_of_int px))) Q r.
Proof.
  intros Hpx H0 H1. destruct (value_at (view r) k) as [y|] eqn:Hk.
  - eapply wp_call; [by apply doc_set_nx_held; [done|rewrite Hk; eauto]|].
    intros rep r' Hd. inversion Hd; simplify_eq. by eapply H1.
  - eapply wp_call; [by apply doc_set_nx|].
    intros rep r' Hd. inversion Hd; [same_px; by apply H0|].
    match goal with H : is_Some _ |- _ => destruct H; congruence end.
Qed.

Lemma wp_PEXPIRE k px Q r : 0 < px ->
  (forall rep r', view r' = put_deadline k (now_ms (view r) + px) (view r) -> Q (Ok rep) r') ->
  wp (redis_call (PEXPIRE k (str_of_int px))) Q r.
Proof.
  intros Hpx HQ. eapply wp_call; [by apply doc_pexpire|]. intros rep r' Hd.
  inversion Hd. same_px. by eapply HQ.
Qed.

Lemma wp_DEL ks Q r :
  (forall rep r', view r' = del_keys ks (view r) -> Q (Ok (RInt rep)) r') ->
  wp (redis_call (DEL ks)) Q r.
Proof. call. Qed.
End commands.

(** ** Reading after writing *)

Section view_lemmas.
Implicit Types (v : rview) (k : string).

Lemma lookup_put_list_ne k k' l v : k' <> k -> v_db (put_list k l v) !! k' = v_db v !! k'.
Proof. intros Hk. unfold put_list. simpl. destruct l; by simplify_map_eq. Qed.

Lemma lookup_put_hash_ne k k' h v : k' <> k -> v_db (put_hash k h v) !! k' = v_db v !! k'.
Proof. intros Hk. unfold put_hash. simpl. case_decide; by simplify_map_eq. Qed.

Lemma lookup_put_str_ne k k' s dl v : k' <> k -> v_db (put_str k s dl v) !! k' = v_db v !! k'.
Proof. intros Hk. unfold put_str. simpl. by simplify_map_eq. Qed.

Lemma lookup_put_deadline_ne k k' dl v : k' <> k -> v_db (put_deadline k dl v) !! k' = v_db v !! k'.
Proof. intros Hk. unfold put_deadline. simpl. by simplify_map_eq. Qed.

Lemma lookup_del_keys ks k v :
  v_db (del_keys ks v) !! k = if decide (k ∈ ks) then None else v_db v !! k.
Proof.
  unfold del_keys. simpl. induction ks as [|x ks IH]; simpl; [done|].
  rewrite lookup_delete, IH. repeat case_decide; set_solver.
Qed.

Lemma lookup_pass d k v :
  v_db (pass d v) !! k =
  match v_db v !! k with
  | Some (x, dl) => if alive (v_now v + d) dl then Some (x, dl) else None
  | None => None
  end.
Proof.
  unfold pass. simpl. rewrite map_lookup_filter. destruct (v_db v !! k) as [[x dl]|]; simpl; [|done].
  destruct (alive (v_now v + d) dl) eqn:E; [by rewrite option_guard_True|by rewrite option_guard_False].
Qed.

Lemma list_at_put k l v : list_at (put_list k l v) k = l.
Proof. unfold list_at, value_at, put_list. destruct l; simpl; by simplify_map_eq. Qed.

Lemma hash_at_put k h v : hash_at (put_hash k h v) k = h.
Proof. unfold hash_at, value_at, put_hash. simpl. case_decide; by simplify_map_eq. Qed.

Lemma str_at_put k s dl v : str_at (put_str k s dl v) k = Some s.
Proof. unfold str_at, value_at, put_str. simpl. by simplify_map_eq. Qed.

Lemma is_list_put k l v : is_list (put_list k l v) k.
Proof. unfold is_list, value_at, put_list. destruct l; simpl; by simplify_map_eq. Qed.

Lemma is_hash_put k h v : is_hash (put_hash k h v) k.
Proof. unfold is_hash, value_at, put_hash. simpl. case_decide; by simplify_map_eq. Qed.

Lemma is_str_put k s dl v : is_str (put_str k s dl v) k.
Proof. unfold is_str, value_at, put_str. simpl. by simplify_map_eq. Qed.

Lemma value_at_put_deadline k k' dl v : value_at (put_deadline k dl v) k' = value_at v k'.
Proof.
  unfold value_at, put_deadline. simpl. destruct (decide (k' = k)) as [->|]; [|by simplify_map_eq].
  rewrite lookup_alter_eq. by destruct (v_db v !! k).
Qed.

(** Everything read at a key is determined by what the map has there. *)
Lemma value_at_ext v v' k : v_db v' !! k = v_db v !! k -> value_at v' k = value_at v k.
Proof. unfold value_at. by intros ->. Qed.
Lemma list_at_ext v v' k : v_db v' !! k = v_db v !! k -> list_at v' k = list_at v k.
Proof. unfold list_at, value_at. by intros ->. Qed.
Lemma hash_at_ext v v' k : v_db v' !! k = v_db v !! k -> hash_at v' k = hash_at v k.
Proof. unfold hash_at, value_at. by intros ->. Qed.
Lemma str_at_ext v v' k : v_db v' !! k = v_db v !! k -> str_at v' k = str_at v k.
Proof. unfold str_at, value_at. by intros ->. Qed.
Lemma is_list_ext v v' k : v_db v' !! k = v_db v !! k -> is_list v k -> is_list v' k.
Proof. unfold is_list, value_at. by intros ->. Qed.
Lemma is_hash_ext v v' k : v_db v' !! k = v_db v !! k -> is_hash v k -> is_hash v' k.
Proof. unfold is_hash, value_at. by intros ->. Qed.
Lemma is_str_ext v v' k : v_db v' !! k = v_db v !! k -> is_str v k -> is_str v' k.
Proof. unfold is_str, value_at. by intros ->. Qed.
End view_lemmas.

(** ** A server that obeys the laws *)

Module ModelRedis.
Record t := mk { now : Z; db : gmap string (rvalue * option Z); now_nonneg : 0 <= now }.

Definition to_view (r : t) : rview := mkView (now r) (db r).

Definition of_view (v : rview) (r : t) : t := mk (now r) (v_db v) (now_nonneg r).

Definition wrong_type : M t exc reply := throw (OtherException "ResponseError").

Definition px_of (s : string) : option Z :=
  match lua_tonumber s with Some n => if 0 <? n then Some n else None | None => None end.

Definition run (c : command) : M t exc reply := fun r =>
  let v := to_view r in
  let on_list k (f : list string -> reply * list string) :=
    match value_at v k with
    | None | Some (VList _) => (Ok (f (list_at v k)).1, of_view (put_list k (f (list_at v k)).2 v) r)
    | _ => wrong_type r
    end in
  let on_hash k (f : gmap string string -> reply * gmap string string) :=
    match value_at v k with
    | None | Some (VHash _) => (Ok (f (hash_at v k)).1, of_view (put_hash k (f (hash_at v k)).2 v) r)
    | _ => wrong_type r
    end in
  let with_px px (f : Z -> reply * rview) :=
    match px_of px with
    | Some px => (Ok (f px).1, of_view (f px).2 r)
    | None => wrong_type r
    end in
  match c with
  | TIME => (Ok (RArray [RBulk (str_of_int (now r / 1000000)); RBulk (str_of_int (now r mod 1000000))]), r)
  | LPOP k => on_list k (fun l => (bulk (head l), tail l))
  | RPUSH k x => on_list k (fun l => (RInt (Z.of_nat (length l) + 1), (l ++ [x])%list))
  | LREM_all k x => on_list k (fun l => (RInt (Z.of_nat (count x l)), filter (fun y => y <> x) l))
  | LRANGE_all k =>
      match value_at v k with
      | None | Some (VList _) => (Ok (RArray (map RBulk (list_at v k))), r)
      | _ => wrong_type r
      end
  | HSET k f x => on_hash k (fun h => (RInt (if decide (is_Some (h !! f)) then 0 else 1), <[f := x]> h))
  | HDEL k f => on_hash k (fun h => (RInt (if decide (is_Some (h !! f)) then 1 else 0), delete f h))
  | HGET k f =>
      match value_at v k with
      | None | Some (VHash _) => (Ok (bulk (hash_at v k !! f)), r)
      | _ => wrong_type r
      end
  | HLEN k =>
      match value_at v k with
      | None | Some (VHash _) => (Ok (RInt (Z.of_nat (size (hash_at v k)))), r)
      | _ => wrong_type r
      end
  | HGETALL k =>
      match value_at v k with
      | None | Some (VHash _) => (Ok (RArray (flatten (map_to_list (hash_at v k)))), r)
      | _ => wrong_type r
      end
  | GET k =>
      match value_at v k with
      | None | Some (VStr _) => (Ok (bulk (str_at v k)), r)
      | _ => wrong_type r
      end
  | SET k x None => (Ok (RStatus "OK"), of_view (put_str k x None v) r)
  | SET k x (Some px) => with_px px (fun px => (RStatus "OK", put_str k x (Some (now_ms v + px)) v))
  | SET_NX_PX k x px =>
      with_px px (fun px => if bool_decide (is_Some (value_at v k)) then (RNil, v)
                            else (RStatus "OK", put_str k x (Some (now_ms v + px)) v))
  | PEXPIRE k px =>
      with_px px (fun px => (RInt (if bool_decide (is_Some (value_at v k)) then 1 else 0),
                             put_deadline k (now_ms v + px) v))
  | DEL ks => (Ok (RInt (Z.of_nat (size (v_db v)) - Z.of_nat (size (v_db (del_keys ks v))))),
               of_view (del_keys ks v) r)
  end.

Lemma now_elapsed d r : 0 <= now r + Z.max 0 d.
Proof. pose proof (now_nonneg r). lia. Qed.

Definition wait (d : Z) (r : t) : t :=
  mk (now r + Z.max 0 d) (v_db (pass (Z.max 0 d) (to_view r))) (now_elapsed d r).

#[global] Instance redis : Redis t := { redis_call := run; elapse := wait }.

Lemma px_of_str px : 0 < px -> px_of (str_of_int px) = Some px.
Proof. intros H. unfold px_of. rewrite lua_tonumber_str by lia. by replace (0 <? px) with true by lia. Qed.

#[global] Program Instance redis_laws : RedisLaws t := { view := to_view }.
Next Obligation. intros r. apply now_nonneg. Qed.
Next Obligation.
  intros c r rep v' Hd. simpl.
  assert (forall v, v_now v = now r -> to_view (of_view v r) = v) as Hv
    by (intros [n d] Hn; simpl in Hn; by subst).
  destruct Hd; simpl; repeat match goal with H : 0 < ?px |- _ => rewrite ?(px_of_str px H) end;
    try by (eexists _, _; split; [reflexivity|]; rewrite ?Hv by done; constructor).
  all: try (rewrite bool_decide_eq_true_2 by done; eexists _, _; split; [reflexivity|];
            rewrite ?Hv by done; by apply doc_set_nx_held).
  all: try (rewrite bool_decide_eq_false_2 by (rewrite H0; by intros []);
            eexists _, _; split; [reflexivity|]; rewrite ?Hv by done; by apply doc_set_nx).
  all: unfold is_list, is_hash, is_str in *;
    destruct (value_at (to_view r) k) as [[]|] eqn:Hk; try done;
    eexists _, _; (split; [reflexivity|]); rewrite ?Hv by done;
    constructor; try done; unfold is_list, is_hash, is_str; by rewrite Hk.
Qed.
Next Obligation.
  intros c r e He. assert (e = OtherException "ResponseError") as ->; [|done]. revert He.
  unfold run, wrong_type, throw. destruct c; simpl; repeat case_match; simpl; congruence.
Qed.
Next Obligation.
  intros d r Hd. simpl. unfold wait, to_view. simpl. replace (Z.max 0 d) with d by lia. done.
Qed.

(** A fresh server at instant [t0]. *)
Definition start (t0 : Z) : t := mk (Z.max 0 t0) ∅ (Z.le_max_l 0 t0).
End ModelRedis.
