(* ===== verification/RedisStore.v ===== *)
(** * Redis pool store

    [sdks/sandbox/python/src/opensandbox/redis_pool_store.py].  The Lua scripts
    are programs over the commands of [RedisServer]; one script, like one command,
    is one request, and the server runs requests one at a time.  An operation of
    the store is a sequence of requests; between them other clients' requests are
    served and time goes by, and a request or its reply can get lost.  Everything
    the server does is kept in a history, which the theorems are about.

    Lua numbers are IEEE doubles: on the integers that occur (milliseconds,
    below 2^53) their arithmetic is that of [Z], and Redis passes them to commands
    as their decimal numerals. *)

From Stdlib Require Import ZArith Lia String SpecFloat.
From stdpp Require Import base numbers strings gmap list.
From S2P Require Import Prelude PyString PyText PyCodec PoolTypes RedisServer.

Open Scope string_scope.
Open Scope Z_scope.

(** ** Scripts *)

Definition ResponseError : exc := OtherException "ResponseError".

Inductive script :=
  | TAKE_IDLE_SCRIPT
  | PUT_IDLE_SCRIPT
  | ACQUIRE_LOCK_SCRIPT
  | RENEW_LOCK_SCRIPT
  | RELEASE_LOCK_SCRIPT
  | REAP_EXPIRED_SCRIPT
  | SET_VALUE_SCRIPT
  | BEGIN_DESTROY_SCRIPT.

Section scripts.
Context {R : Type} `{!Redis R}.

(** [redis.call] for a command that replies with a string or nil. *)
Definition call_bulk (c : command) : M R exc (option string) :=
  x <-- redis_call c ;;
  match x with
  | RBulk s => ret (Some s)
  | RNil => ret None
  | _ => throw ResponseError
  end.

(** [tonumber] where nil makes the next operation fail. *)
Definition number_of (s : string) : M R exc Z :=
  match lua_tonumber s with Some n => ret n | None => throw ResponseError end.

Definition lua_now_ms : M R exc Z :=
  t <-- redis_call TIME ;;
  match t with
  | RArray [RBulk sec; RBulk usec] =>
      s <-- number_of sec ;;
      us <-- number_of usec ;;
      ret (s * 1000 + us / 1000)
  | _ => throw ResponseError
  end.

Definition discarded_reply (ids : list string) : reply := RArray (map RBulk ids).

Fixpoint take_idle_loop (fuel : nat) (klist kexp : string) (now cutoff : Z) (discarded : list string)
  : M R exc reply :=
  match fuel with
  | O => throw (OtherException "fuel")
  | S fuel =>
      sandbox_id <-- call_bulk (LPOP klist) ;;
      match sandbox_id with
      | None =>
          ret match discarded with
              | [] => RNil
              | _ => RArray [RBulk ""; discarded_reply discarded]
              end
      | Some id =>
          expires_at <-- call_bulk (HGET kexp id) ;;
          match expires_at with
          | None => take_idle_loop fuel klist kexp now cutoff discarded
          | Some e =>
              redis_call (HDEL kexp id) ;;;
              exp <-- number_of e ;;
              if cutoff <? exp then ret (RArray [RBulk id; discarded_reply discarded])
              else take_idle_loop fuel klist kexp now cutoff
                     (if now <? exp then discarded ++ [id] else discarded)
          end
      end
  end.

(** The loop pops one element per pass: its fuel is the length of the list. *)
Definition backlog (k : string) (r : R) : nat :=
  match (redis_call (LRANGE_all k) r).1 with Ok (RArray l) => length l | _ => 0 end.

Definition take_idle_script (klist kexp min_ttl : string) : M R exc reply :=
  now <-- lua_now_ms ;;
  let cutoff := now + default 0 (lua_tonumber min_ttl) in
  fuel <-- gets (backlog klist) ;;
  take_idle_loop (S fuel) klist kexp now cutoff [].

Definition put_idle_script (klist kexp kstate id ttl : string) : M R exc reply :=
  destroy_state <-- call_bulk (GET kstate) ;;
  match destroy_state with
  | Some _ => ret (RInt (-1))
  | None =>
      now <-- lua_now_ms ;;
      ttl <-- number_of ttl ;;
      let expires_at := now + ttl in
      current <-- call_bulk (HGET kexp id) ;;
      match current with
      | None =>
          redis_call (RPUSH klist id) ;;;
          redis_call (HSET kexp id (str_of_int expires_at)) ;;;
          ret (RInt 1)
      | Some cur =>
          n <-- number_of cur ;;
          if now <? n then ret (RInt 0)
          else
            redis_call (HSET kexp id (str_of_int expires_at)) ;;;
            ret (RInt 1)
      end
  end.

(** The end of the lock scripts: extend the lock of its owner. *)
Definition extend_if_owner (klock owner px : string) : M R exc reply :=
  holder <-- call_bulk (GET klock) ;;
  if bool_decide (holder = Some owner) then
    redis_call (PEXPIRE klock px) ;;;
    ret (RInt 1)
  else ret (RInt 0).

Definition acquire_lock_script (klock kstate owner px : string) : M R exc reply :=
  destroy_state <-- call_bulk (GET kstate) ;;
  match destroy_state with
  | Some _ => ret (RInt 0)
  | None =>
      x <-- redis_call (SET_NX_PX klock owner px) ;;
      match x with
      | RNil => extend_if_owner klock owner px
      | _ => ret (RInt 1)
      end
  end.

Definition renew_lock_script (klock kstate owner px : string) : M R exc reply :=
  destroy_state <-- call_bulk (GET kstate) ;;
  match destroy_state with
  | Some _ => ret (RInt 0)
  | None => extend_if_owner klock owner px
  end.

Definition release_lock_script (klock owner : string) : M R exc reply :=
  holder <-- call_bulk (GET klock) ;;
  if bool_decide (holder = Some owner) then redis_call (DEL [klock]) else ret (RInt 0).

(** The [for] loop over the flat reply of [HGETALL]. *)
Fixpoint reap_loop (klist kexp : string) (now cutoff : Z) (discarded : list string) (entries : list reply)
  : M R exc reply :=
  match entries with
  | [] => ret (discarded_reply discarded)
  | RBulk id :: RBulk e :: entries =>
      exp <-- number_of e ;;
      if exp <=? cutoff then
        redis_call (HDEL kexp id) ;;;
        redis_call (LREM_all klist id) ;;;
        reap_loop klist kexp now cutoff (if now <? exp then discarded ++ [id] else discarded) entries
      else reap_loop klist kexp now cutoff discarded entries
  | _ => throw ResponseError
  end.

Definition reap_expired_script (klist kexp min_ttl : string) : M R exc reply :=
  now <-- lua_now_ms ;;
  let cutoff := now + default 0 (lua_tonumber min_ttl) in
  x <-- redis_call (HGETALL kexp) ;;
  match x with
  | RArray entries => reap_loop klist kexp now cutoff [] entries
  | _ => throw ResponseError
  end.

Definition set_value_script (kvalue kstate value : string) : M R exc reply :=
  destroy_state <-- call_bulk (GET kstate) ;;
  match destroy_state with
  | Some _ => ret (RInt (-1))
  | None => redis_call (SET kvalue value None) ;;; ret (RInt 1)
  end.

Definition begin_destroy_script (kstate kowner destroying destroyed owner : string) : M R exc reply :=
  destroy_state <-- call_bulk (GET kstate) ;;
  if bool_decide (destroy_state = Some destroyed) then ret (RInt (-1))
  else
    redis_call (SET kstate destroying None) ;;;
    redis_call (SET kowner owner None) ;;;
    ret (RInt 1).

(** [EVAL script numkeys keys argv] *)
Definition eval (s : script) (keys argv : list string) : M R exc reply :=
  match s, keys, argv with
  | TAKE_IDLE_SCRIPT, [k1; k2], [a1] => take_idle_script k1 k2 a1
  | PUT_IDLE_SCRIPT, [k1; k2; k3], [a1; a2] => put_idle_script k1 k2 k3 a1 a2
  | ACQUIRE_LOCK_SCRIPT, [k1; k2], [a1; a2] => acquire_lock_script k1 k2 a1 a2
  | RENEW_LOCK_SCRIPT, [k1; k2], [a1; a2] => renew_lock_script k1 k2 a1 a2
  | RELEASE_LOCK_SCRIPT, [k1], [a1] => release_lock_script k1 a1
  | REAP_EXPIRED_SCRIPT, [k1; k2], [a1] => reap_expired_script k1 k2 a1
  | SET_VALUE_SCRIPT, [k1; k2], [a1] => set_value_script k1 k2 a1
  | BEGIN_DESTROY_SCRIPT, [k1; k2], [a1; a2; a3] => begin_destroy_script k1 k2 a1 a2 a3
  | _, _, _ => throw ResponseError
  end.
End scripts.

(** ** The client and the wire *)

Inductive request :=
  | EVAL (s : script) (keys argv : list string)
  | Cmd (c : command).

Inductive step := Elapse (d : Z) | Serve (q : request).

Inductive fault := NoFault | LostRequest (name : string) | LostReply (name : string).

(** The server with everything it answered so far. *)
Record net (R : Type) := mkNet {
  srv : R;
  hist : list (request * res exc reply);
}.
Arguments mkNet {R} _ _.
Arguments srv {R} _.
Arguments hist {R} _.

(** [RedisPoolStateStore] with its client; [others n] is what the server does
    between this store's requests [n - 1] and [n]. *)
Record RedisPoolStateStore (R : Type) := mkRedisStore {
  rs_net : net R;
  others : nat -> list step;
  faults : nat -> fault;
  sent : nat;
  key_prefix : string;
  rs_default_idle_ttl : Z;
}.
Arguments mkRedisStore {R} _ _ _ _ _ _.
Arguments rs_net {R} _.
Arguments others {R} _ _.
Arguments faults {R} _ _.
Arguments sent {R} _.
Arguments key_prefix {R} _.
Arguments rs_default_idle_ttl {R} _.

Section client.
Context {R : Type} `{!Redis R}.

Definition serve (q : request) : M R exc reply :=
  match q with EVAL s keys argv => eval s keys argv | Cmd c => redis_call c end.

Definition serve_net (q : request) : M (net R) exc reply := fun n =>
  let '(x, r) := serve q (srv n) in (x, mkNet r (hist n ++ [(q, x)])).

Definition do_step (n : net R) (st : step) : net R :=
  match st with
  | Elapse d => mkNet (elapse d (srv n)) (hist n)
  | Serve q => (serve_net q n).2
  end.

Definition run_steps (l : list step) (n : net R) : net R := foldl do_step n l.

Definition after_request (n : net R) (s : RedisPoolStateStore R) : RedisPoolStateStore R :=
  mkRedisStore n (others s) (faults s) (S (sent s)) (key_prefix s) (rs_default_idle_ttl s).

(** One request of the client library. *)
Definition send (q : request) : M (RedisPoolStateStore R) exc reply := fun s =>
  let n := run_steps (others s (sent s)) (rs_net s) in
  match faults s (sent s) with
  | NoFault => let '(x, n') := serve_net q n in (x, after_request n' s)
  | LostRequest name => (Raise (OtherException name), after_request n s)
  | LostReply name => (Raise (OtherException name), after_request (serve_net q n).2 s)
  end.
End client.

(** ** Helpers *)

(** The double of an integer; [total_seconds()] divides microseconds by a
    million in doubles, [_millis] multiplies by a thousand and truncates. *)
Definition float_of_Z (z : Z) : spec_float :=
  match z with
  | Z0 => S754_zero false
  | Zpos p => S754_finite false p 0
  | Zneg p => S754_finite true p 0
  end.

Definition int_of_float (f : spec_float) : Z :=
  match f with
  | S754_finite neg m e =>
      let n := if 0 <=? e then Z.pos m * 2 ^ e else Z.pos m / 2 ^ (- e) in
      if neg then - n else n
  | _ => 0
  end.

Definition total_seconds (us : Z) : spec_float :=
  SFdiv 53 1024 (float_of_Z us) (float_of_Z 1000000).

Definition millis_ (us : Z) : Z :=
  int_of_float (SFmul 53 1024 (total_seconds us) (float_of_Z 1000)).

(** [_decode]: bytes are decoded, anything else is shown with [str]. *)
Definition decode_ (x : reply) : string :=
  match x with
  | RBulk s | RStatus s => s
  | RInt n => str_of_int n
  | RNil => "None"
  | RArray _ => "[...]"
  end.

(** Iterating over a reply, [x or []] first: [None] for a [TypeError]. *)
Definition items (x : reply) : option (list string) :=
  match x with
  | RNil => Some []
  | RArray l => Some (map decode_ l)
  | RBulk s | RStatus s => Some (map (fun c => String c EmptyString) (chars s))
  | RInt n => if n =? 0 then Some [] else None
  end.

Definition items_of {S} (x : reply) : M S exc (list string) :=
  match items x with Some l => ret l | None => throw (OtherException "TypeError") end.

Definition decode_take_idle_result {S} (x : reply) : M S exc TakeIdleResult :=
  let result id ds := ret {| ti_sandbox_id := id; ti_discarded_alive := ds |} in
  match x with
  | RNil => result None []
  | RBulk s | RStatus s => result (Some s) []
  | RArray (taken_raw :: rest) =>
      let taken := match taken_raw with RNil => None | y => Some (decode_ y) end in
      let taken := if bool_decide (taken = Some "") then None else taken in
      discarded <-- items_of (match rest with y :: _ => y | [] => RNil end) ;;
      result taken discarded
  | _ => result None []
  end.

(** [result == n or result == b"n"] *)
Definition equals_int (n : Z) (x : reply) : bool :=
  match x with
  | RInt m => m =? n
  | RBulk s => bool_decide (s = str_of_int n)
  | _ => false
  end.

Definition validate_owner_and_ttl {S} (owner : string) (ttl : Z) : M S exc unit :=
  if is_blank owner then throw (ValueError "owner_id must not be blank")
  else if ttl <=? 0 then throw (ValueError "ttl must be positive")
  else ret tt.

(** [PoolDestroyState.value] *)
Definition destroy_state_value (st : PoolDestroyState) : string :=
  match st with ACTIVE => "ACTIVE" | DESTROYING => "DESTROYING" | DESTROYED => "DESTROYED" end.

(** [datetime.fromtimestamp(ms / 1000, utc)]: years 1 to 9999 *)
Definition fromtimestamp_ms {S} (ms : Z) : M S exc Z :=
  if (-62135596800000 <=? ms) && (ms <? 253402300800000) then ret (ms * 1000)
  else throw (ValueError "year is out of range").

(** [timedelta(milliseconds=n)] *)
Definition timedelta_ms {S} (n : Z) : M S exc Z :=
  if Z.abs (milliseconds n) <? seconds 86400 * 1000000000 then ret (milliseconds n)
  else throw (OtherException "OverflowError").

Definition pool_tag (pool : string) : string := of_chars (b64_tag (utf8 pool)).

Definition pool_key_of (prefix pool suffix : string) : string :=
  prefix +:+ ":{" +:+ pool_tag pool +:+ "}:" +:+ suffix.

Definition idle_list_suffix := "idle:list".
Definition idle_expires_suffix := "idle:expires".
Definition primary_lock_suffix := "lock".
Definition max_idle_suffix := "maxIdle".
Definition idle_ttl_suffix := "idleTtlMillis".
Definition destroy_state_suffix := "destroy:state".
Definition destroy_owner_suffix := "destroy:owner".

(** ** Operations *)

Section store.
Context {R : Type} `{!Redis R}.
Local Abbreviation RM A := (M (RedisPoolStateStore R) exc A).

Definition pool_key (pool suffix : string) : RM string :=
  if is_blank pool then throw (ValueError "pool_name must not be blank")
  else gets (fun s => pool_key_of (key_prefix s) pool suffix).

Definition execute {A} (block : RM A) : RM A :=
  catch block (fun e =>
    match e with
    | ValueError _ | PoolDestroyedException _ => None
    | NonException _ => None
    | _ => Some (throw PoolStateStoreUnavailableException)
    end).

Definition rs_idle_list_key (pool : string) : RM string := pool_key pool idle_list_suffix.
Definition rs_idle_expires_key (pool : string) : RM string := pool_key pool idle_expires_suffix.
Definition rs_primary_lock_key (pool : string) : RM string := pool_key pool primary_lock_suffix.
Definition rs_max_idle_key (pool : string) : RM string := pool_key pool max_idle_suffix.
Definition rs_idle_ttl_key (pool : string) : RM string := pool_key pool idle_ttl_suffix.
Definition rs_destroy_state_key (pool : string) : RM string := pool_key pool destroy_state_suffix.
Definition rs_destroy_owner_key (pool : string) : RM string := pool_key pool destroy_owner_suffix.

Definition eval_take_idle (pool min_remaining_ttl_ms : string) : RM TakeIdleResult :=
  result <-- execute (
    k1 <-- rs_idle_list_key pool ;;
    k2 <-- rs_idle_expires_key pool ;;
    send (EVAL TAKE_IDLE_SCRIPT [k1; k2] [min_remaining_ttl_ms])) ;;
  decode_take_idle_result result.

Definition rs_try_take_idle (pool : string) : RM (option string) :=
  result <-- eval_take_idle pool "0" ;;
  ret (ti_sandbox_id result).

Definition rs_try_take_idle_min_ttl (pool : string) (min_ttl : Z) : RM TakeIdleResult :=
  if min_ttl <=? 0 then
    id <-- rs_try_take_idle pool ;;
    ret {| ti_sandbox_id := id; ti_discarded_alive := [] |}
  else eval_take_idle pool (str_of_int (Z.max 0 (millis_ min_ttl))).

Definition rs_get_destroy_state (pool : string) : RM PoolDestroyState :=
  value <-- execute (k <-- rs_destroy_state_key pool ;; send (Cmd (GET k))) ;;
  ret match value with
      | RNil => ACTIVE
      | _ => if bool_decide (decode_ value = destroy_state_value DESTROYING) then DESTROYING
             else if bool_decide (decode_ value = destroy_state_value DESTROYED) then DESTROYED
             else ACTIVE
      end.

Definition eval_fenced_write (pool : string) (s : script) (keys argv : list string) : RM reply :=
  result <-- send (EVAL s keys argv) ;;
  if equals_int (-1) result then
    state <-- rs_get_destroy_state pool ;;
    throw (PoolDestroyedException state)
  else ret result.

Definition rs_resolve_idle_ttl (pool : string) : RM Z :=
  value <-- execute (k <-- rs_idle_ttl_key pool ;; send (Cmd (GET k))) ;;
  dflt <-- gets rs_default_idle_ttl ;;
  match value with
  | RNil => ret dflt
  | _ => match int_of_str (decode_ value) with
         | Some n => timedelta_ms (Z.max 1 n)
         | None => ret dflt
         end
  end.

Definition rs_put_idle (pool sandbox_id : string) : RM unit :=
  if is_blank sandbox_id then throw (ValueError "sandbox_id must not be blank")
  else
    ttl <-- rs_resolve_idle_ttl pool ;;
    let ttl_millis := Z.max 1 (millis_ ttl) in
    execute (
      k1 <-- rs_idle_list_key pool ;;
      k2 <-- rs_idle_expires_key pool ;;
      k3 <-- rs_destroy_state_key pool ;;
      eval_fenced_write pool PUT_IDLE_SCRIPT [k1; k2; k3] [sandbox_id; str_of_int ttl_millis]) ;;;
    ret tt.

Definition rs_remove_idle (pool sandbox_id : string) : RM unit :=
  execute (
    k <-- rs_idle_expires_key pool ;;
    send (Cmd (HDEL k sandbox_id)) ;;;
    k <-- rs_idle_list_key pool ;;
    send (Cmd (LREM_all k sandbox_id))) ;;;
  ret tt.

Definition rs_try_acquire_primary_lock (pool owner : string) (ttl : Z) : RM bool :=
  validate_owner_and_ttl owner ttl ;;;
  result <-- execute (
    k1 <-- rs_primary_lock_key pool ;;
    k2 <-- rs_destroy_state_key pool ;;
    send (EVAL ACQUIRE_LOCK_SCRIPT [k1; k2] [owner; str_of_int (Z.max 1 (millis_ ttl))])) ;;
  ret (equals_int 1 result).

Definition rs_renew_primary_lock (pool owner : string) (ttl : Z) : RM bool :=
  validate_owner_and_ttl owner ttl ;;;
  result <-- execute (
    k1 <-- rs_primary_lock_key pool ;;
    k2 <-- rs_destroy_state_key pool ;;
    send (EVAL RENEW_LOCK_SCRIPT [k1; k2] [owner; str_of_int (Z.max 1 (millis_ ttl))])) ;;
  ret (equals_int 1 result).

Definition rs_release_primary_lock (pool owner : string) : RM unit :=
  execute (
    k <-- rs_primary_lock_key pool ;;
    send (EVAL RELEASE_LOCK_SCRIPT [k] [owner])) ;;;
  ret tt.

Definition reap_idle (pool min_remaining_ttl_ms : string) : RM (list string) :=
  result <-- execute (
    k1 <-- rs_idle_list_key pool ;;
    k2 <-- rs_idle_expires_key pool ;;
    send (EVAL REAP_EXPIRED_SCRIPT [k1; k2] [min_remaining_ttl_ms])) ;;
  items_of result.

Definition rs_reap_expired_idle (pool : string) (now : Z) : RM unit :=
  reap_idle pool "0" ;;; ret tt.

Definition rs_reap_expired_idle_min_ttl (pool : string) (now min_ttl : Z) : RM (list string) :=
  if min_ttl <=? 0 then rs_reap_expired_idle pool now ;;; ret []
  else reap_idle pool (str_of_int (Z.max 0 (millis_ min_ttl))).

Definition rs_snapshot_counters (pool : string) : RM StoreCounters :=
  execute (
    k <-- rs_idle_expires_key pool ;;
    x <-- send (Cmd (HLEN k)) ;;
    match x with
    | RInt n => ret {| sc_idle_count := n |}
    | _ => throw (OtherException "ResponseError")
    end).

(** [hgetall] gives the pairs of the flat reply as a dict. *)
Fixpoint pairs_of (l : list reply) : list (string * string) :=
  match l with
  | k :: x :: l => (decode_ k, decode_ x) :: pairs_of l
  | _ => []
  end.

Fixpoint build_entries (ids : list string) (expires_by_id : list (string * string))
  : RM (list IdleEntry) :=
  match ids with
  | [] => ret []
  | id :: ids =>
      match od_get id expires_by_id with
      | None => build_entries ids expires_by_id
      | Some e =>
          match int_of_str e with
          | None => throw (ValueError "invalid literal for int()")
          | Some n =>
              t <-- fromtimestamp_ms n ;;
              entries <-- build_entries ids expires_by_id ;;
              ret ({| ie_sandbox_id := id; ie_expires_at := t |} :: entries)
          end
      end
  end.

Definition rs_snapshot_idle_entries (pool : string) : RM (list IdleEntry) :=
  execute (
    k <-- rs_idle_list_key pool ;;
    raw_ids <-- send (Cmd (LRANGE_all k)) ;;
    k <-- rs_idle_expires_key pool ;;
    raw_expires <-- send (Cmd (HGETALL k)) ;;
    match raw_ids, raw_expires with
    | RArray ids, RArray exps => build_entries (map decode_ ids) (pairs_of exps)
    | _, _ => throw (OtherException "ResponseError")
    end).

Definition rs_get_max_idle (pool : string) : RM (option Z) :=
  value <-- execute (k <-- rs_max_idle_key pool ;; send (Cmd (GET k))) ;;
  ret match value with RNil => None | _ => int_of_str (decode_ value) end.

Definition rs_set_max_idle (pool : string) (max_idle : Z) : RM unit :=
  if max_idle <? 0 then throw (ValueError "max_idle must be >= 0")
  else
    execute (
      k1 <-- rs_max_idle_key pool ;;
      k2 <-- rs_destroy_state_key pool ;;
      eval_fenced_write pool SET_VALUE_SCRIPT [k1; k2] [str_of_int max_idle]) ;;;
    ret tt.

Definition rs_set_idle_entry_ttl (pool : string) (ttl : Z) : RM unit :=
  if ttl <=? 0 then throw (ValueError "idle_ttl must be positive")
  else
    execute (
      k1 <-- rs_idle_ttl_key pool ;;
      k2 <-- rs_destroy_state_key pool ;;
      eval_fenced_write pool SET_VALUE_SCRIPT [k1; k2] [str_of_int (Z.max 1 (millis_ ttl))]) ;;;
    ret tt.

Definition rs_begin_destroy (pool owner : string) : RM unit :=
  if is_blank owner then throw (ValueError "owner_id must not be blank")
  else
    execute (
      k1 <-- rs_destroy_state_key pool ;;
      k2 <-- rs_destroy_owner_key pool ;;
      result <-- send (EVAL BEGIN_DESTROY_SCRIPT [k1; k2]
                        [destroy_state_value DESTROYING; destroy_state_value DESTROYED; owner]) ;;
      if equals_int (-1) result then throw (PoolDestroyedException DESTROYED) else ret tt).

Definition rs_clear_pool_state (pool : string) : RM unit :=
  execute (
    k1 <-- rs_idle_list_key pool ;;
    k2 <-- rs_idle_expires_key pool ;;
    k3 <-- rs_primary_lock_key pool ;;
    k4 <-- rs_max_idle_key pool ;;
    k5 <-- rs_idle_ttl_key pool ;;
    send (Cmd (DEL [k1; k2; k3; k4; k5]))) ;;;
  ret tt.

Definition rs_mark_destroyed (pool owner : string) (tombstone_ttl : option Z) : RM unit :=
  let write px :=
    execute (
      k <-- rs_destroy_state_key pool ;;
      send (Cmd (SET k (destroy_state_value DESTROYED) px)) ;;;
      k <-- rs_destroy_owner_key pool ;;
      send (Cmd (SET k owner px))) ;;;
    ret tt in
  if is_blank owner then throw (ValueError "owner_id must not be blank")
  else match tombstone_ttl with
  | None => write None
  | Some ttl =>
      if ttl <=? 0 then throw (ValueError "tombstone_ttl must be positive")
      else write (Some (str_of_int (Z.max 1 (millis_ ttl))))
  end.

#[global] Instance Redis_store : PoolStateStore (RedisPoolStateStore R) := {
  try_take_idle := rs_try_take_idle;
  put_idle := rs_put_idle;
  remove_idle := rs_remove_idle;
  try_acquire_primary_lock := rs_try_acquire_primary_lock;
  renew_primary_lock := rs_renew_primary_lock;
  release_primary_lock := rs_release_primary_lock;
  reap_expired_idle := rs_reap_expired_idle;
  snapshot_counters := rs_snapshot_counters;
  snapshot_idle_entries := rs_snapshot_idle_entries;
  get_max_idle := rs_get_max_idle;
  set_max_idle := rs_set_max_idle;
  set_idle_entry_ttl := rs_set_idle_entry_ttl;
  get_destroy_state := rs_get_destroy_state;
  begin_destroy := rs_begin_destroy;
  clear_pool_state := rs_clear_pool_state;
  mark_destroyed := rs_mark_destroyed;
  try_take_idle_min_ttl := Some rs_try_take_idle_min_ttl;
  reap_expired_idle_min_ttl := Some rs_reap_expired_idle_min_ttl;
}.
End store.

(** [RedisPoolStateStore(redis, key_prefix)] *)
Definition DEFAULT_KEY_PREFIX := "opensandbox:pool".

Definition init_redis_store {R} (r : R) (others : nat -> list step) (faults : nat -> fault)
    (prefix : string) : RedisPoolStateStore R :=
  mkRedisStore (mkNet r []) others faults 0 prefix (seconds 86400).
