(* ===== verification/RedisProtocol.v ===== *)
(** * What the requests of the Redis store do

    The requests the store sends ([store_request]), and for each of them what it
    does to the lists, hashes and strings of its pool and what it leaves alone
    ([effect]), proved of the scripts of [RedisStore] over any server that obeys
    the laws of [RedisServer].  The theorems of [RedisSafety] about interleavings
    of clients are proved from these effects. *)

From Stdlib Require Import ZArith Lia Ascii String.
From stdpp Require Import base numbers strings gmap list.
From S2P Require Import Prelude PyString PyText PyCodec PoolTypes RedisServer RedisStore.

Open Scope string_scope.
Open Scope Z_scope.

(** ** Keys *)

Lemma split_at {A} (x : A) l1 l2 m1 m2 :
  (l1 ++ x :: m1 = l2 ++ x :: m2)%list -> x ∉ l1 -> x ∉ l2 -> l1 = l2 /\ m1 = m2.
Proof.
  revert l2. induction l1 as [|a l1 IH]; intros [|b l2]; simpl; intros H H1 H2; simplify_eq.
  - done.
  - set_solver.
  - set_solver.
  - destruct (IH l2); [done|set_solver|set_solver|]. by subst.
Qed.

(** A key tells its pool and its suffix. *)
Lemma pool_key_of_inj prefix p1 s1 p2 s2 :
  pool_key_of prefix p1 s1 = pool_key_of prefix p2 s2 -> p1 = p2 /\ s1 = s2.
Proof.
  unfold pool_key_of. intros H%(f_equal chars). rewrite !chars_app in H.
  apply app_inv_head in H. apply app_inv_head in H. unfold pool_tag in H. rewrite !chars_of_chars in H.
  assert (forall p, "}"%char ∉ b64_tag (utf8 p)) as Hno.
  { intros p Hin. by apply (b64_tag_chars _ _ (utf8_bytes p) Hin). }
  apply split_at in H as [Ht Hs]; [|apply Hno..].
  apply b64_tag_inj in Ht; [|apply utf8_bytes..]. apply utf8_inj in Ht.
  simpl in Hs. injection Hs as Hs. by apply chars_inj in Hs.
Qed.

(** Equal keys have equal pools. *)
Ltac same_pool :=
  repeat match goal with
  | H : pool_key_of ?f ?a ?x = pool_key_of ?f ?b ?x |- _ => apply pool_key_of_inj in H as [H _]; subst
  end.

(** ** Requests *)

Definition value_suffixes : list string := [max_idle_suffix; idle_ttl_suffix].
Definition read_suffixes : list string := [max_idle_suffix; idle_ttl_suffix; destroy_state_suffix].

Inductive store_request (pfx : string) : request -> Prop :=
  | sq_take pool ms : 0 <= ms ->
      store_request pfx (EVAL TAKE_IDLE_SCRIPT
        [pool_key_of pfx pool idle_list_suffix; pool_key_of pfx pool idle_expires_suffix] [str_of_int ms])
  | sq_put pool id ttl : is_blank id = false -> 0 < ttl ->
      store_request pfx (EVAL PUT_IDLE_SCRIPT
        [pool_key_of pfx pool idle_list_suffix; pool_key_of pfx pool idle_expires_suffix;
         pool_key_of pfx pool destroy_state_suffix] [id; str_of_int ttl])
  | sq_acquire pool owner px : 0 < px ->
      store_request pfx (EVAL ACQUIRE_LOCK_SCRIPT
        [pool_key_of pfx pool primary_lock_suffix; pool_key_of pfx pool destroy_state_suffix]
        [owner; str_of_int px])
  | sq_renew pool owner px : 0 < px ->
      store_request pfx (EVAL RENEW_LOCK_SCRIPT
        [pool_key_of pfx pool primary_lock_suffix; pool_key_of pfx pool destroy_state_suffix]
        [owner; str_of_int px])
  | sq_release pool owner :
      store_request pfx (EVAL RELEASE_LOCK_SCRIPT [pool_key_of pfx pool primary_lock_suffix] [owner])
  | sq_reap pool ms : 0 <= ms ->
      store_request pfx (EVAL REAP_EXPIRED_SCRIPT
        [pool_key_of pfx pool idle_list_suffix; pool_key_of pfx pool idle_expires_suffix] [str_of_int ms])
  | sq_set_value pool suffix value : suffix ∈ value_suffixes ->
      store_request pfx (EVAL SET_VALUE_SCRIPT
        [pool_key_of pfx pool suffix; pool_key_of pfx pool destroy_state_suffix] [value])
  | sq_begin pool owner :
      store_request pfx (EVAL BEGIN_DESTROY_SCRIPT
        [pool_key_of pfx pool destroy_state_suffix; pool_key_of pfx pool destroy_owner_suffix]
        [destroy_state_value DESTROYING; destroy_state_value DESTROYED; owner])
  | sq_get pool suffix : suffix ∈ read_suffixes ->
      store_request pfx (Cmd (GET (pool_key_of pfx pool suffix)))
  | sq_hdel pool id :
      store_request pfx (Cmd (HDEL (pool_key_of pfx pool idle_expires_suffix) id))
  | sq_lrem pool id :
      store_request pfx (Cmd (LREM_all (pool_key_of pfx pool idle_list_suffix) id))
  | sq_hlen pool :
      store_request pfx (Cmd (HLEN (pool_key_of pfx pool idle_expires_suffix)))
  | sq_lrange pool :
      store_request pfx (Cmd (LRANGE_all (pool_key_of pfx pool idle_list_suffix)))
  | sq_hgetall pool :
      store_request pfx (Cmd (HGETALL (pool_key_of pfx pool idle_expires_suffix)))
  | sq_clear pool :
      store_request pfx (Cmd (DEL
        [pool_key_of pfx pool idle_list_suffix; pool_key_of pfx pool idle_expires_suffix;
         pool_key_of pfx pool primary_lock_suffix; pool_key_of pfx pool max_idle_suffix;
         pool_key_of pfx pool idle_ttl_suffix]))
  | sq_tombstone pool px : match px with Some n => 0 < n | None => True end ->
      store_request pfx (Cmd (SET (pool_key_of pfx pool destroy_state_suffix)
        (destroy_state_value DESTROYED) (str_of_int <$> px)))
  | sq_tomb_owner pool owner px : match px with Some n => 0 < n | None => True end ->
      store_request pfx (Cmd (SET (pool_key_of pfx pool destroy_owner_suffix) owner
        (str_of_int <$> px))).

(** ** The loops as functions *)

Definition expiry (e : string) : Z := default 0 (lua_tonumber e).

(** [TAKE_IDLE_SCRIPT] on a list and a hash: what it takes, what it discards
    alive, and what is left. *)
Fixpoint take_ref (now cutoff : Z) (acc q : list string) (h : gmap string string)
  : option string * list string * list string * gmap string string :=
  match q with
  | [] => (None, acc, [], h)
  | id :: q =>
      match h !! id with
      | None => take_ref now cutoff acc q h
      | Some e =>
          if cutoff <? expiry e then (Some id, acc, q, delete id h)
          else take_ref now cutoff (if now <? expiry e then acc ++ [id] else acc) q (delete id h)
      end
  end.

Definition take_reply (taken : option string) (discarded : list string) : reply :=
  match taken, discarded with
  | None, [] => RNil
  | _, _ => RArray [RBulk (default "" taken); discarded_reply discarded]
  end.

(** What [REAP_EXPIRED_SCRIPT] keeps of a hash. *)
Definition reap_keeps (cutoff : Z) (h : gmap string string) : gmap string string :=
  filter (fun kv => cutoff < expiry kv.2) h.

(** ** Effects *)

(** Nothing but the keys [ks] changed. *)
Definition touches (ks : list string) (v v' : rview) : Prop :=
  v_now v' = v_now v /\ forall k, k ∉ ks -> v_db v' !! k = v_db v !! k.

Record typed (pfx : string) (v : rview) : Prop := {
  ty_list : forall pool, is_list v (pool_key_of pfx pool idle_list_suffix);
  ty_hash : forall pool, is_hash v (pool_key_of pfx pool idle_expires_suffix);
  ty_num : forall pool id e,
    hash_at v (pool_key_of pfx pool idle_expires_suffix) !! id = Some e -> is_Some (lua_tonumber e);
  ty_lock : forall pool, is_str v (pool_key_of pfx pool primary_lock_suffix);
  ty_read : forall pool suffix, suffix ∈ read_suffixes -> is_str v (pool_key_of pfx pool suffix);
}.

Section effects.
Context (pfx : string).
Local Abbreviation kl pool := (pool_key_of pfx pool idle_list_suffix).
Local Abbreviation ke pool := (pool_key_of pfx pool idle_expires_suffix).
Local Abbreviation kk pool := (pool_key_of pfx pool primary_lock_suffix).
Local Abbreviation ks pool := (pool_key_of pfx pool destroy_state_suffix).
Local Abbreviation ko pool := (pool_key_of pfx pool destroy_owner_suffix).

Definition deadline_of (v : rview) (px : option Z) : option Z := (fun n => now_ms v + n) <$> px.

Inductive effect (v : rview) : request -> reply -> rview -> Prop :=
  | eff_take pool ms taken discarded v' : 0 <= ms ->
      take_ref (now_ms v) (now_ms v + ms) [] (list_at v (kl pool)) (hash_at v (ke pool)) =
        (taken, discarded, list_at v' (kl pool), hash_at v' (ke pool)) ->
      touches [kl pool; ke pool] v v' ->
      effect v (EVAL TAKE_IDLE_SCRIPT [kl pool; ke pool] [str_of_int ms]) (take_reply taken discarded) v'
  | eff_put_fenced pool id ttl st v' :
      str_at v (ks pool) = Some st -> touches [] v v' ->
      effect v (EVAL PUT_IDLE_SCRIPT [kl pool; ke pool; ks pool] [id; str_of_int ttl]) (RInt (-1)) v'
  | eff_put_alive pool id ttl e v' :
      str_at v (ks pool) = None ->
      hash_at v (ke pool) !! id = Some e -> now_ms v < expiry e -> touches [] v v' ->
      effect v (EVAL PUT_IDLE_SCRIPT [kl pool; ke pool; ks pool] [id; str_of_int ttl]) (RInt 0) v'
  | eff_put_new pool id ttl v' :
      str_at v (ks pool) = None -> hash_at v (ke pool) !! id = None ->
      list_at v' (kl pool) = (list_at v (kl pool) ++ [id])%list ->
      hash_at v' (ke pool) = <[id := str_of_int (now_ms v + ttl)]> (hash_at v (ke pool)) ->
      touches [kl pool; ke pool] v v' ->
      effect v (EVAL PUT_IDLE_SCRIPT [kl pool; ke pool; ks pool] [id; str_of_int ttl]) (RInt 1) v'
  | eff_put_refresh pool id ttl e v' :
      str_at v (ks pool) = None -> hash_at v (ke pool) !! id = Some e -> expiry e <= now_ms v ->
      hash_at v' (ke pool) = <[id := str_of_int (now_ms v + ttl)]> (hash_at v (ke pool)) ->
      touches [ke pool] v v' ->
      effect v (EVAL PUT_IDLE_SCRIPT [kl pool; ke pool; ks pool] [id; str_of_int ttl]) (RInt 1) v'
  | eff_acquire_free pool owner px v' : 0 < px ->
      str_at v (ks pool) = None -> value_at v (kk pool) = None ->
      v_db v' !! kk pool = Some (VStr owner, Some (now_ms v + px)) -> touches [kk pool] v v' ->
      effect v (EVAL ACQUIRE_LOCK_SCRIPT [kk pool; ks pool] [owner; str_of_int px]) (RInt 1) v'
  | eff_extend pool s owner px v' : 0 < px ->
      s = ACQUIRE_LOCK_SCRIPT \/ s = RENEW_LOCK_SCRIPT ->
      str_at v (ks pool) = None -> str_at v (kk pool) = Some owner ->
      v_db v' !! kk pool = Some (VStr owner, Some (now_ms v + px)) -> touches [kk pool] v v' ->
      effect v (EVAL s [kk pool; ks pool] [owner; str_of_int px]) (RInt 1) v'
  | eff_acquire_refused pool owner px v' :
      is_Some (str_at v (ks pool)) \/ (is_Some (str_at v (kk pool)) /\ str_at v (kk pool) <> Some owner) ->
      touches [] v v' ->
      effect v (EVAL ACQUIRE_LOCK_SCRIPT [kk pool; ks pool] [owner; str_of_int px]) (RInt 0) v'
  | eff_renew_refused pool owner px v' :
      is_Some (str_at v (ks pool)) \/ str_at v (kk pool) <> Some owner ->
      touches [] v v' ->
      effect v (EVAL RENEW_LOCK_SCRIPT [kk pool; ks pool] [owner; str_of_int px]) (RInt 0) v'
  | eff_release pool owner n v' :
      str_at v (kk pool) = Some owner -> v_db v' !! kk pool = None -> touches [kk pool] v v' ->
      effect v (EVAL RELEASE_LOCK_SCRIPT [kk pool] [owner]) (RInt n) v'
  | eff_release_other pool owner v' :
      str_at v (kk pool) <> Some owner -> touches [] v v' ->
      effect v (EVAL RELEASE_LOCK_SCRIPT [kk pool] [owner]) (RInt 0) v'
  | eff_reap pool ms discarded v' : 0 <= ms ->
      NoDup discarded ->
      (forall id, id ∈ discarded <-> exists e, hash_at v (ke pool) !! id = Some e /\
         now_ms v < expiry e <= now_ms v + ms) ->
      hash_at v' (ke pool) = reap_keeps (now_ms v + ms) (hash_at v (ke pool)) ->
      (forall id, id ∈ list_at v' (kl pool) <-> id ∈ list_at v (kl pool) /\
         (hash_at v (ke pool) !! id = None \/ is_Some (hash_at v' (ke pool) !! id))) ->
      sublist (list_at v' (kl pool)) (list_at v (kl pool)) ->
      touches [kl pool; ke pool] v v' ->
      effect v (EVAL REAP_EXPIRED_SCRIPT [kl pool; ke pool] [str_of_int ms]) (discarded_reply discarded) v'
  | eff_set_fenced pool suffix value st v' :
      suffix ∈ value_suffixes -> str_at v (ks pool) = Some st -> touches [] v v' ->
      effect v (EVAL SET_VALUE_SCRIPT [pool_key_of pfx pool suffix; ks pool] [value]) (RInt (-1)) v'
  | eff_set_value pool suffix value v' :
      suffix ∈ value_suffixes ->
      str_at v (ks pool) = None -> v_db v' !! pool_key_of pfx pool suffix = Some (VStr value, None) ->
      touches [pool_key_of pfx pool suffix] v v' ->
      effect v (EVAL SET_VALUE_SCRIPT [pool_key_of pfx pool suffix; ks pool] [value]) (RInt 1) v'
  | eff_begin_refused pool owner v' :
      str_at v (ks pool) = Some (destroy_state_value DESTROYED) -> touches [] v v' ->
      effect v (EVAL BEGIN_DESTROY_SCRIPT [ks pool; ko pool]
        [destroy_state_value DESTROYING; destroy_state_value DESTROYED; owner]) (RInt (-1)) v'
  | eff_begin pool owner v' :
      str_at v (ks pool) <> Some (destroy_state_value DESTROYED) ->
      v_db v' !! ks pool = Some (VStr (destroy_state_value DESTROYING), None) ->
      touches [ks pool; ko pool] v v' ->
      effect v (EVAL BEGIN_DESTROY_SCRIPT [ks pool; ko pool]
        [destroy_state_value DESTROYING; destroy_state_value DESTROYED; owner]) (RInt 1) v'
  | eff_get pool suffix v' : touches [] v v' ->
      effect v (Cmd (GET (pool_key_of pfx pool suffix))) (bulk (str_at v (pool_key_of pfx pool suffix))) v'
  | eff_hdel pool id n v' :
      hash_at v' (ke pool) = delete id (hash_at v (ke pool)) -> touches [ke pool] v v' ->
      effect v (Cmd (HDEL (ke pool) id)) (RInt n) v'
  | eff_lrem pool id n v' :
      list_at v' (kl pool) = filter (fun y => y <> id) (list_at v (kl pool)) -> touches [kl pool] v v' ->
      effect v (Cmd (LREM_all (kl pool) id)) (RInt n) v'
  | eff_hlen pool v' : touches [] v v' ->
      effect v (Cmd (HLEN (ke pool))) (RInt (Z.of_nat (size (hash_at v (ke pool))))) v'
  | eff_lrange pool v' : touches [] v v' ->
      effect v (Cmd (LRANGE_all (kl pool))) (RArray (map RBulk (list_at v (kl pool)))) v'
  | eff_hgetall pool l v' : l ≡ₚ map_to_list (hash_at v (ke pool)) -> touches [] v v' ->
      effect v (Cmd (HGETALL (ke pool))) (RArray (flatten l)) v'
  | eff_clear pool n v' :
      let cleared := [kl pool; ke pool; kk pool; pool_key_of pfx pool max_idle_suffix;
                      pool_key_of pfx pool idle_ttl_suffix] in
      (forall k, k ∈ cleared -> v_db v' !! k = None) -> touches cleared v v' ->
      effect v (Cmd (DEL cleared)) (RInt n) v'
  | eff_tombstone pool px v' :
      v_db v' !! ks pool = Some (VStr (destroy_state_value DESTROYED), deadline_of v px) ->
      touches [ks pool] v v' ->
      effect v (Cmd (SET (ks pool) (destroy_state_value DESTROYED) (str_of_int <$> px))) (RStatus "OK") v'
  | eff_tomb_owner pool owner px v' : touches [ko pool] v v' ->
      effect v (Cmd (SET (ko pool) owner (str_of_int <$> px))) (RStatus "OK") v'.

(** ** The scripts have their effects *)

Context {R : Type} `{!Redis R} `{!RedisLaws R}.
Implicit Types (r : R).

Lemma touches_refl v : touches [] v v.
Proof. done. Qed.

Lemma touches_eq v v' : v' = v -> touches [] v v'.
Proof. by intros ->. Qed.

Lemma touches_put_list k l v : touches [k] v (put_list k l v).
Proof. split; [done|]. intros k' Hk. apply lookup_put_list_ne. set_solver. Qed.
Lemma touches_put_hash k h v : touches [k] v (put_hash k h v).
Proof. split; [done|]. intros k' Hk. apply lookup_put_hash_ne. set_solver. Qed.
Lemma touches_put_str k x dl v : touches [k] v (put_str k x dl v).
Proof. split; [done|]. intros k' Hk. apply lookup_put_str_ne. set_solver. Qed.
Lemma touches_put_deadline k dl v : touches [k] v (put_deadline k dl v).
Proof. split; [done|]. intros k' Hk. apply lookup_put_deadline_ne. set_solver. Qed.
Lemma touches_del_keys l v : touches l v (del_keys l v).
Proof. split; [done|]. intros k' Hk. rewrite lookup_del_keys. by rewrite decide_False. Qed.

Lemma touches_trans l1 l2 l v1 v2 v3 :
  touches l1 v1 v2 -> touches l2 v2 v3 -> l1 ⊆ l -> l2 ⊆ l -> touches l v1 v3.
Proof.
  intros [N1 H1] [N2 H2] S1 S2. split; [congruence|]. intros k Hk.
  rewrite H2, H1; [done|set_solver|set_solver].
Qed.

Lemma wp_number_of s n Q r : lua_tonumber s = Some n -> Q (Ok n) r -> wp (number_of s) Q r.
Proof. unfold number_of. by intros -> ?. Qed.

Lemma wp_call_bulk c x Q r :
  wp (redis_call c) (fun res r' => res = Ok (bulk x) /\ Q (Ok x) r') r -> wp (call_bulk c) Q r.
Proof.
  intros H. unfold call_bulk. apply wp_bind. eapply wp_mono; [exact H|]. simpl.
  intros ? r' [-> HQ]. by destruct x.
Qed.

Lemma wp_bulk_GET k Q r : is_str (view r) k ->
  (forall r', view r' = view r -> Q (Ok (str_at (view r) k)) r') -> wp (call_bulk (GET k)) Q r.
Proof. intros Hk HQ. eapply wp_call_bulk, wp_GET; [done|]. intros r' Hr. split; [done|]. by apply HQ. Qed.

Lemma wp_bulk_HGET k f Q r : is_hash (view r) k ->
  (forall r', view r' = view r -> Q (Ok (hash_at (view r) k !! f)) r') ->
  wp (call_bulk (HGET k f)) Q r.
Proof. intros Hk HQ. eapply wp_call_bulk, wp_HGET; [done|]. intros r' Hr. split; [done|]. by apply HQ. Qed.

Lemma wp_bulk_LPOP k Q r : is_list (view r) k ->
  (forall r', view r' = put_list k (tail (list_at (view r) k)) (view r) ->
    Q (Ok (head (list_at (view r) k))) r') ->
  wp (call_bulk (LPOP k)) Q r.
Proof. intros Hk HQ. eapply wp_call_bulk, wp_LPOP; [done|]. intros r' Hr. split; [done|]. by apply HQ. Qed.

Lemma ms_of_time n : n / 1000000 * 1000 + n mod 1000000 / 1000 = n / 1000.
Proof.
  rewrite (Z.div_mod n 1000000) at 3 by lia.
  replace (1000000 * (n / 1000000) + n mod 1000000)
    with (n / 1000000 * 1000 * 1000 + n mod 1000000) by lia.
  by rewrite Z.div_add_l.
Qed.

Lemma wp_now_ms Q r :
  (forall r', view r' = view r -> Q (Ok (now_ms (view r))) r') -> wp lua_now_ms Q r.
Proof.
  intros HQ. unfold lua_now_ms. apply wp_bind, wp_TIME. intros r' Hr. cbn beta iota.
  pose proof (law_clock r) as Hc.
  apply wp_bind. eapply wp_number_of; [apply lua_tonumber_str, Z.div_pos; lia|].
  apply wp_bind. eapply wp_number_of; [apply lua_tonumber_str, Z.mod_pos_bound; lia|].
  apply wp_ret. rewrite ms_of_time. by apply HQ.
Qed.

Lemma backlog_length k r : is_list (view r) k -> backlog k r = length (list_at (view r) k).
Proof.
  intros Hk. unfold backlog.
  assert (wp (redis_call (LRANGE_all k)) (fun x _ => x = Ok (RArray (map RBulk (list_at (view r) k)))) r)
    as H by by apply wp_LRANGE.
  unfold wp in H. destruct (redis_call (LRANGE_all k) r) as [x r']. simpl. subst x. by rewrite length_map.
Qed.

(** The idle structures of one pool: a list, a hash of numerals, distinct keys. *)
Record idle_at (k1 k2 : string) (v : rview) : Prop := {
  ia_ne : k1 <> k2;
  ia_list : is_list v k1;
  ia_hash : is_hash v k2;
  ia_num : forall id e, hash_at v k2 !! id = Some e -> is_Some (lua_tonumber e);
}.

Lemma idle_at_put_list k1 k2 l v : idle_at k1 k2 v ->
  idle_at k1 k2 (put_list k1 l v) /\ hash_at (put_list k1 l v) k2 = hash_at v k2.
Proof.
  intros [Hne Hl Hh Hn]. assert (v_db (put_list k1 l v) !! k2 = v_db v !! k2) as Hk by
    (apply lookup_put_list_ne; congruence).
  rewrite (hash_at_ext _ _ _ Hk). split; [|done]. split; [done|apply is_list_put| |].
  - by eapply is_hash_ext.
  - by rewrite (hash_at_ext _ _ _ Hk).
Qed.

Lemma idle_at_put_hash k1 k2 h v : idle_at k1 k2 v ->
  (forall id e, h !! id = Some e -> is_Some (lua_tonumber e)) ->
  idle_at k1 k2 (put_hash k2 h v) /\ list_at (put_hash k2 h v) k1 = list_at v k1.
Proof.
  intros [Hne Hl Hh Hn] Hnew. assert (v_db (put_hash k2 h v) !! k1 = v_db v !! k1) as Hk by
    (by apply lookup_put_hash_ne).
  rewrite (list_at_ext _ _ _ Hk). split; [|done]. split; [done| |apply is_hash_put|].
  - by eapply is_list_ext.
  - by rewrite hash_at_put.
Qed.

Lemma delete_num (h : gmap string string) i :
  (forall id e, h !! id = Some e -> is_Some (lua_tonumber e)) ->
  forall id e, delete i h !! id = Some e -> is_Some (lua_tonumber e).
Proof. intros Hn id e [? ?]%lookup_delete_Some. eauto. Qed.

Lemma expiry_num e n : lua_tonumber e = Some n -> expiry e = n.
Proof. unfold expiry. by intros ->. Qed.

(** What a script on the idle structures leaves behind. *)
Definition idle_post (k1 k2 : string) (v : rview) (l : list string) (h : gmap string string)
    (v' : rview) : Prop :=
  list_at v' k1 = l /\ hash_at v' k2 = h /\ idle_at k1 k2 v' /\ touches [k1; k2] v v'.

Lemma idle_post_trans k1 k2 v1 v2 l h v3 :
  touches [k1; k2] v1 v2 -> idle_post k1 k2 v2 l h v3 -> idle_post k1 k2 v1 l h v3.
Proof. intros Ht (? & ? & ? & ?). split_and!; [done..|]. by eapply touches_trans. Qed.

(** The element the loop works on: popped, and its hash field deleted. *)
Lemma idle_at_pop k1 k2 id q v : idle_at k1 k2 v -> list_at v k1 = id :: q ->
  let v' := put_hash k2 (delete id (hash_at v k2)) (put_list k1 q v) in
  idle_at k1 k2 v' /\ list_at v' k1 = q /\ hash_at v' k2 = delete id (hash_at v k2) /\
  touches [k1; k2] v v'.
Proof.
  intros Ha Hq v'. destruct (idle_at_put_list k1 k2 q v Ha) as [Ha1 Hh1].
  destruct (idle_at_put_hash k1 k2 (delete id (hash_at v k2)) _ Ha1) as [Ha2 Hl2].
  { apply delete_num, Ha. }
  split_and!; [done| |apply hash_at_put|].
  - unfold v'. rewrite Hl2. apply list_at_put.
  - eapply touches_trans; [apply touches_put_list|apply touches_put_hash|set_solver|set_solver].
Qed.

Lemma take_idle_loop_spec k1 k2 now cutoff fuel : forall acc r taken ds l h,
  idle_at k1 k2 (view r) -> (length (list_at (view r) k1) < fuel)%nat ->
  take_ref now cutoff acc (list_at (view r) k1) (hash_at (view r) k2) = (taken, ds, l, h) ->
  wp (take_idle_loop fuel k1 k2 now cutoff acc)
     (fun x r' => x = Ok (take_reply taken ds) /\ idle_post k1 k2 (view r) l h (view r')) r.
Proof.
  induction fuel as [|fuel IH]; intros acc r taken ds l h Ha Hf Ht; [lia|]. cbn [take_idle_loop].
  apply wp_bind, wp_bulk_LPOP; [apply Ha|]. intros r1 V1. cbn beta iota.
  destruct (list_at (view r) k1) as [|id q] eqn:Hq; cbn [head tail take_ref] in *.
  { simplify_eq. apply wp_ret. split; [by destruct ds|]. rewrite V1.
    destruct (idle_at_put_list k1 k2 [] _ Ha) as [Ha1 Hh1].
    split_and!; [apply list_at_put|done|done|].
    eapply touches_trans; [apply touches_put_list|apply touches_refl|set_solver|set_solver]. }
  destruct (idle_at_put_list k1 k2 q _ Ha) as [Ha1 Hh1].
  apply wp_bind, wp_bulk_HGET; [rewrite V1; apply Ha1|]. intros r2 V2. cbn beta iota.
  rewrite V1, Hh1. destruct (hash_at (view r) k2 !! id) as [e|] eqn:He.
  - destruct (ia_num _ _ _ Ha _ _ He) as [n Hn]. rewrite (expiry_num _ _ Hn) in Ht.
    apply wp_bind, wp_HDEL; [rewrite V2, V1; apply Ha1|]. intros ? r3 V3. cbn beta iota.
    rewrite V2, V1, Hh1 in V3. destruct (idle_at_pop _ _ _ _ _ Ha Hq) as (Ha3 & Hl3 & Hh3 & Ht3).
    rewrite <- V3 in Ha3, Hl3, Hh3, Ht3.
    apply wp_bind. eapply wp_number_of; [exact Hn|]. cbn beta iota.
    destruct (cutoff <? n) eqn:Ec.
    + simplify_eq. apply wp_ret. split; [by destruct ds|]. done.
    + eapply wp_mono; [apply (IH _ _ taken ds l h); [done|rewrite Hl3; simpl in Hf; lia|by rewrite Hl3, Hh3]|].
      intros x r' [-> Hp]. split; [done|]. by eapply idle_post_trans.
  - eapply wp_mono; [apply (IH _ _ taken ds l h)|].
    + by rewrite V2, V1.
    + rewrite V2, V1, list_at_put. simpl in Hf. lia.
    + by rewrite V2, V1, list_at_put, Hh1.
    + intros x r' [-> Hp]. split; [done|]. eapply idle_post_trans; [|exact Hp]. rewrite V2, V1.
      eapply touches_trans; [apply touches_put_list|apply touches_refl|set_solver|set_solver].
Qed.

Lemma take_idle_script_spec k1 k2 ms r taken ds l h :
  idle_at k1 k2 (view r) ->
  take_ref (now_ms (view r)) (now_ms (view r) + expiry ms) []
    (list_at (view r) k1) (hash_at (view r) k2) = (taken, ds, l, h) ->
  wp (take_idle_script k1 k2 ms)
     (fun x r' => x = Ok (take_reply taken ds) /\ idle_post k1 k2 (view r) l h (view r')) r.
Proof.
  intros Ha Ht. unfold take_idle_script. apply wp_bind, wp_now_ms. intros r1 V1. cbn beta iota zeta.
  apply wp_bind, wp_gets. cbn beta iota. rewrite <- V1 in Ha, Ht |- *.
  rewrite backlog_length by apply Ha. apply take_idle_loop_spec; [done|lia|done].
Qed.

Definition dead_ids (cutoff : Z) (l : list (string * string)) : list string :=
  (filter (fun kv => expiry kv.2 <= cutoff) l).*1.

Definition near_ids (now cutoff : Z) (l : list (string * string)) : list string :=
  (filter (fun kv => now < expiry kv.2 <= cutoff) l).*1.

Lemma list_filter_not_in_nil (l : list string) : filter (fun x => x ∉ []) l = l.
Proof. induction l as [|x l IH]; [done|]. rewrite filter_cons_True by set_solver. by rewrite IH. Qed.

Lemma map_filter_not_in_nil (h : gmap string string) : filter (fun kv => kv.1 ∉ []) h = h.
Proof. apply map_filter_id. set_solver. Qed.

Lemma map_filter_delete_not_in id ids (h : gmap string string) :
  filter (fun kv => kv.1 ∉ ids) (delete id h) = filter (fun kv => kv.1 ∉ id :: ids) h.
Proof.
  apply map_eq. intros k. apply option_eq. intros e.
  rewrite !map_lookup_filter_Some, lookup_delete_Some. set_solver.
Qed.

Lemma list_filter_filter_not_in id ids (l : list string) :
  filter (fun x => x ∉ ids) (filter (fun y => y <> id) l) = filter (fun x => x ∉ id :: ids) l.
Proof. rewrite list_filter_filter. apply list_filter_iff. set_solver. Qed.

Lemma reap_loop_spec k1 k2 now cutoff l : forall acc r,
  now <= cutoff -> idle_at k1 k2 (view r) -> (forall kv, kv ∈ l -> is_Some (lua_tonumber kv.2)) ->
  wp (reap_loop k1 k2 now cutoff acc (flatten l))
     (fun x r' => x = Ok (discarded_reply (acc ++ near_ids now cutoff l)) /\
        idle_post k1 k2 (view r)
          (filter (fun x => x ∉ dead_ids cutoff l) (list_at (view r) k1))
          (filter (fun kv => kv.1 ∉ dead_ids cutoff l) (hash_at (view r) k2)) (view r')) r.
Proof.
  induction l as [|[id e] l IH]; intros acc r Hc Ha Hnum; cbn [flatten reap_loop].
  { apply wp_ret. unfold near_ids, dead_ids. simpl. rewrite app_nil_r. split; [done|].
    split_and!; [by rewrite list_filter_not_in_nil|by rewrite map_filter_not_in_nil|done|].
    eapply touches_trans; [apply touches_refl..|set_solver|set_solver]. }
  destruct (Hnum (id, e)) as [n Hn]; [set_solver|]. simpl in Hn.
  apply wp_bind. eapply wp_number_of; [exact Hn|]. cbn beta iota.
  unfold near_ids, dead_ids. rewrite !filter_cons. cbn [snd fst]. rewrite (expiry_num _ _ Hn).
  destruct (n <=? cutoff) eqn:En.
  - rewrite (decide_True (P := n <= cutoff)) by lia.
    apply wp_bind, wp_HDEL; [apply Ha|]. intros ? r1 V1. cbn beta iota.
    destruct (idle_at_put_hash k1 k2 (delete id (hash_at (view r) k2)) _ Ha) as [Ha1 Hl1];
      [apply delete_num, Ha|]. rewrite <- V1 in Ha1, Hl1.
    apply wp_bind, wp_LREM; [apply Ha1|]. intros ? r2 V2. cbn beta iota.
    destruct (idle_at_put_list k1 k2 (filter (fun y => y <> id) (list_at (view r1) k1)) _ Ha1)
      as [Ha2 Hh2]. rewrite <- V2 in Ha2, Hh2.
    eapply wp_mono; [apply IH; [done|done|set_solver]|]. intros x r' [-> Hp]. split.
    + unfold near_ids. destruct (now <? n) eqn:Ew.
      * rewrite (decide_True (P := now < n <= cutoff)) by lia. csimpl. by rewrite <- app_assoc.
      * by rewrite (decide_False (P := now < n <= cutoff)) by lia.
    + csimpl. rewrite Hh2, V2, list_at_put, Hl1, list_filter_filter_not_in in Hp.
      rewrite V1, hash_at_put, map_filter_delete_not_in in Hp.
      eapply idle_post_trans; [|exact Hp].
      eapply touches_trans; [apply touches_put_hash|apply touches_put_list|set_solver|set_solver].
  - rewrite (decide_False (P := n <= cutoff)) by lia. rewrite (decide_False (P := now < n <= cutoff)) by lia.
    apply IH; [done|done|set_solver].
Qed.

Lemma elem_dead_ids cutoff l (h : gmap string string) id : l ≡ₚ map_to_list h ->
  id ∈ dead_ids cutoff l <-> exists e, h !! id = Some e /\ expiry e <= cutoff.
Proof.
  intros Hl. unfold dead_ids. rewrite list_elem_of_fmap. setoid_rewrite list_elem_of_filter.
  setoid_rewrite Hl. split.
  - intros ([i e] & -> & He & Hi%elem_of_map_to_list). eauto.
  - intros (e & Hi & He). exists (id, e). split; [done|]. split; [done|]. by apply elem_of_map_to_list.
Qed.

Lemma elem_near_ids now cutoff l (h : gmap string string) id : l ≡ₚ map_to_list h ->
  id ∈ near_ids now cutoff l <-> exists e, h !! id = Some e /\ now < expiry e <= cutoff.
Proof.
  intros Hl. unfold near_ids. rewrite list_elem_of_fmap. setoid_rewrite list_elem_of_filter.
  setoid_rewrite Hl. split.
  - intros ([i e] & -> & He & Hi%elem_of_map_to_list). eauto.
  - intros (e & Hi & He). exists (id, e). split; [done|]. split; [done|]. by apply elem_of_map_to_list.
Qed.

Lemma near_ids_NoDup now cutoff l (h : gmap string string) : l ≡ₚ map_to_list h ->
  NoDup (near_ids now cutoff l).
Proof.
  intros Hl. unfold near_ids. eapply sublist_NoDup; [|apply fmap_sublist, sublist_filter].
  rewrite Hl. apply NoDup_fst_map_to_list.
Qed.

(** What is left after removing the dead ids. *)
Lemma reap_keeps_dead cutoff l (h : gmap string string) : l ≡ₚ map_to_list h ->
  filter (fun kv => kv.1 ∉ dead_ids cutoff l) h = reap_keeps cutoff h.
Proof.
  intros Hl. unfold reap_keeps. apply map_filter_ext. intros id e He. simpl.
  rewrite (elem_dead_ids cutoff l h id Hl). split.
  - intros Hn. destruct (Z.lt_ge_cases cutoff (expiry e)); [done|]. destruct Hn. eauto.
  - intros Hlt (e' & He' & Hle). simplify_eq. lia.
Qed.

Lemma reap_list_kept cutoff l (h : gmap string string) (q : list string) id : l ≡ₚ map_to_list h ->
  id ∈ filter (fun x => x ∉ dead_ids cutoff l) q <->
  id ∈ q /\ (h !! id = None \/ is_Some (reap_keeps cutoff h !! id)).
Proof.
  intros Hl. rewrite list_elem_of_filter, (elem_dead_ids cutoff l h id Hl).
  unfold reap_keeps. split.
  - intros [Hn Hq]. split; [done|]. destruct (h !! id) as [e|] eqn:He; [right|by left].
    exists e. apply map_lookup_filter_Some. split; [done|]. simpl.
    destruct (Z.lt_ge_cases cutoff (expiry e)); [done|]. destruct Hn. eauto.
  - intros [Hq Hk]. split; [|done]. intros (e & He & Hle). destruct Hk as [?|[e' He']]; [congruence|].
    apply map_lookup_filter_Some in He' as [He' Hlt]. simplify_eq. simpl in Hlt. lia.
Qed.

Lemma reap_expired_script_spec k1 k2 ms r :
  idle_at k1 k2 (view r) -> 0 <= expiry ms ->
  wp (reap_expired_script k1 k2 ms)
     (fun x r' => exists l, l ≡ₚ map_to_list (hash_at (view r) k2) /\
        x = Ok (discarded_reply (near_ids (now_ms (view r)) (now_ms (view r) + expiry ms) l)) /\
        idle_post k1 k2 (view r)
          (filter (fun x => x ∉ dead_ids (now_ms (view r) + expiry ms) l) (list_at (view r) k1))
          (reap_keeps (now_ms (view r) + expiry ms) (hash_at (view r) k2)) (view r')) r.
Proof.
  intros Ha Hms. unfold reap_expired_script. apply wp_bind, wp_now_ms. intros r1 V1. cbn beta iota zeta.
  rewrite <- V1 in Ha |- *. apply wp_bind, wp_HGETALL; [apply Ha|]. intros l r2 Hl V2. cbn beta iota.
  rewrite <- V2 in Ha |- *. eapply wp_mono; [apply reap_loop_spec|].
  - unfold expiry in Hms. lia.
  - done.
  - intros [id e]. rewrite Hl. intros He%elem_of_map_to_list. rewrite <- V2 in He. by eapply Ha.
  - intros x r' [-> Hp]. exists l. rewrite V2. split; [done|]. split; [done|].
    rewrite <- (reap_keeps_dead _ l _ Hl). rewrite V2 in Hp. exact Hp.
Qed.

(** ** Every request keeps the keys well typed *)

Lemma key_ne p1 s1 p2 s2 : p1 <> p2 \/ s1 <> s2 -> pool_key_of pfx p1 s1 <> pool_key_of pfx p2 s2.
Proof. intros H [-> ->]%pool_key_of_inj. tauto. Qed.

Lemma idle_at_typed pool v : typed pfx v -> idle_at (kl pool) (ke pool) v.
Proof.
  intros Ht. split; [by apply key_ne; right|apply Ht|apply Ht|apply Ht].
Qed.

(** A suffix that is read as a string is not one of the idle structures. *)
Lemma read_suffix_ne suffix : suffix ∈ read_suffixes ->
  suffix <> idle_list_suffix /\ suffix <> idle_expires_suffix.
Proof.
  unfold read_suffixes. rewrite !elem_of_cons, elem_of_nil. intros Hs.
  split; intros ->; by destruct_or! Hs.
Qed.

Lemma typed_idle pool v v' :
  typed pfx v -> touches [kl pool; ke pool] v v' -> idle_at (kl pool) (ke pool) v' -> typed pfx v'.
Proof.
  intros Ht [_ Hto] Ha.
  assert (forall p s, p <> pool \/ (s <> idle_list_suffix /\ s <> idle_expires_suffix) ->
    v_db v' !! pool_key_of pfx p s = v_db v !! pool_key_of pfx p s) as Hsame.
  { intros p s Hps. apply Hto. rewrite !not_elem_of_cons.
    split_and!; [apply key_ne; tauto..|set_solver]. }
  split.
  - intros p. destruct (decide (p = pool)) as [->|Hp]; [apply Ha|].
    eapply is_list_ext; [apply Hsame; tauto|]. apply Ht.
  - intros p. destruct (decide (p = pool)) as [->|Hp]; [apply Ha|].
    eapply is_hash_ext; [apply Hsame; tauto|]. apply Ht.
  - intros p. destruct (decide (p = pool)) as [->|Hp]; [apply Ha|].
    rewrite (hash_at_ext v); [apply Ht|apply Hsame; tauto].
  - intros p. eapply is_str_ext; [by apply Hsame; right|]. apply Ht.
  - intros p s Hs. eapply is_str_ext; [apply Hsame; right; by apply read_suffix_ne|]. by apply Ht.
Qed.

Lemma typed_strs pool sfx v v' :
  typed pfx v -> touches (pool_key_of pfx pool <$> sfx) v v' ->
  (idle_list_suffix ∉ sfx) -> (idle_expires_suffix ∉ sfx) ->
  (forall s, s ∈ sfx -> is_str v' (pool_key_of pfx pool s)) -> typed pfx v'.
Proof.
  intros Ht [_ Hto] Hl He Hs.
  assert (forall p s, p <> pool \/ s ∉ sfx ->
    v_db v' !! pool_key_of pfx p s = v_db v !! pool_key_of pfx p s) as Hsame.
  { intros p s Hps. apply Hto. intros (s' & [-> ->]%pool_key_of_inj & Hin)%list_elem_of_fmap. tauto. }
  assert (forall p s, is_str v (pool_key_of pfx p s) -> is_str v' (pool_key_of pfx p s)) as Hstr.
  { intros p s Hps. destruct (decide (p = pool)) as [->|Hp].
    - destruct (decide (s ∈ sfx)); [by apply Hs|]. eapply is_str_ext; [|done]. apply Hsame; tauto.
    - eapply is_str_ext; [|done]. apply Hsame; tauto. }
  split.
  - intros p. eapply is_list_ext; [apply Hsame; tauto|]. apply Ht.
  - intros p. eapply is_hash_ext; [apply Hsame; tauto|]. apply Ht.
  - intros p. rewrite (hash_at_ext v); [apply Ht|apply Hsame; tauto].
  - intros p. apply Hstr, Ht.
  - intros p s Hin. by apply Hstr, Ht.
Qed.

Lemma typed_same v v' : typed pfx v -> touches [] v v' -> typed pfx v'.
Proof. intros Ht Hto. apply (typed_strs "" [] v v' Ht Hto); set_solver. Qed.

Lemma typed_put_str pool suffix x dl v :
  typed pfx v -> suffix <> idle_list_suffix -> suffix <> idle_expires_suffix ->
  typed pfx (put_str (pool_key_of pfx pool suffix) x dl v).
Proof.
  intros Ht H1 H2. apply (typed_strs pool [suffix] v); [done|apply touches_put_str|set_solver..|].
  intros s ->%list_elem_of_singleton. apply is_str_put.
Qed.

Definition done_with (q : request) (r : R) (x : res exc reply) (r' : R) : Prop :=
  exists rep, x = Ok rep /\ effect (view r) q rep (view r') /\ typed pfx (view r').

Lemma wp_state_free Q pool r :
  typed pfx (view r) ->
  (forall r', view r' = view r -> Q (Ok (str_at (view r) (ks pool))) r') ->
  wp (call_bulk (GET (ks pool))) Q r.
Proof. intros Ht HQ. apply wp_bulk_GET; [|done]. apply Ht. unfold read_suffixes. set_solver. Qed.

Lemma put_idle_effect pool id ttl r : typed pfx (view r) -> 0 < ttl ->
  let q := EVAL PUT_IDLE_SCRIPT [kl pool; ke pool; ks pool] [id; str_of_int ttl] in
  wp (serve q) (done_with q r) r.
Proof.
  intros Ht Httl q. pose proof (idle_at_typed pool _ Ht) as Ha. unfold q, done_with. cbn [serve eval].
  unfold put_idle_script. apply wp_bind, wp_state_free; [done|]. intros r1 V1. cbn beta iota.
  destruct (str_at (view r) (ks pool)) as [st|] eqn:Hst.
  { apply wp_ret. eexists. split; [done|]. rewrite V1. split; [by eapply eff_put_fenced|done]. }
  apply wp_bind, wp_now_ms. intros r2 V2. cbn beta iota.
  apply wp_bind. eapply wp_number_of; [apply lua_tonumber_str; lia|]. cbn beta iota zeta.
  rewrite V1 in V2 |- *. apply wp_bind, wp_bulk_HGET; [rewrite V2; apply Ha|]. intros r3 V3. cbn beta iota.
  rewrite V2 in V3 |- *. pose proof (law_clock r) as Hclk.
  assert (0 <= now_ms (view r)) as Hnow by (apply Z.div_pos; lia).
  set (h := <[id := str_of_int (now_ms (view r) + ttl)]> (hash_at (view r) (ke pool))).
  assert (forall i e, h !! i = Some e -> is_Some (lua_tonumber e)) as Hh.
  { intros i e [[_ <-]|[_ Hi]]%lookup_insert_Some; [|by eapply Ha].
    rewrite lua_tonumber_str by lia. eauto. }
  destruct (hash_at (view r) (ke pool) !! id) as [e|] eqn:He.
  - destruct (ia_num _ _ _ Ha _ _ He) as [n Hn]. apply wp_bind. eapply wp_number_of; [exact Hn|].
    cbn beta iota. destruct (now_ms (view r) <? n) eqn:En.
    + apply wp_ret. eexists. split; [done|]. rewrite V3. split; [|done].
      eapply eff_put_alive; [done|done| |done]. rewrite (expiry_num _ _ Hn). lia.
    + apply wp_bind, wp_HSET; [rewrite V3; apply Ha|]. intros ? r4 V4. cbn beta iota. apply wp_ret.
      rewrite V3 in V4. eexists. split; [done|]. rewrite V4.
      destruct (idle_at_put_hash _ _ h _ Ha Hh) as [Ha' Hl'].
      split.
      * eapply eff_put_refresh; [done|done| |apply hash_at_put|apply touches_put_hash].
        rewrite (expiry_num _ _ Hn). lia.
      * eapply typed_idle; [done| |done].
        eapply touches_trans; [apply touches_put_hash|apply touches_refl|set_solver|set_solver].
  - apply wp_bind, wp_RPUSH; [rewrite V3; apply Ha|]. intros ? r4 V4. cbn beta iota.
    rewrite V3 in V4. destruct (idle_at_put_list _ _ (list_at (view r) (kl pool) ++ [id]) _ Ha) as [Ha4 Hh4].
    apply wp_bind, wp_HSET; [rewrite V4; apply Ha4|]. intros ? r5 V5. cbn beta iota. apply wp_ret.
    rewrite V4, Hh4 in V5. eexists. split; [done|]. rewrite V5.
    destruct (idle_at_put_hash _ _ h _ Ha4 Hh) as [Ha' Hl'].
    assert (touches [kl pool; ke pool] (view r) (put_hash (ke pool) h
      (put_list (kl pool) (list_at (view r) (kl pool) ++ [id]) (view r)))) as Hto
      by (eapply touches_trans; [apply touches_put_list|apply touches_put_hash|set_solver|set_solver]).
    split; [|by eapply typed_idle].
    apply eff_put_new; [done|done|fold h|fold h; apply hash_at_put|exact Hto].
    rewrite Hl'. apply list_at_put.
Qed.

Lemma lookup_put_str k x dl v : v_db (put_str k x dl v) !! k = Some (VStr x, dl).
Proof. unfold put_str. simpl. by simplify_map_eq. Qed.

Lemma lookup_put_deadline k s dl v : str_at v k = Some s ->
  v_db (put_deadline k dl v) !! k = Some (VStr s, Some dl).
Proof.
  unfold str_at, value_at, put_deadline. simpl. rewrite lookup_alter_eq.
  destruct (v_db v !! k) as [[[l|h|s'] d]|]; simpl; by intros [= ->].
Qed.

Lemma typed_put_deadline pool dl v : typed pfx v -> typed pfx (put_deadline (kk pool) dl v).
Proof.
  intros Ht. apply (typed_strs pool [primary_lock_suffix] v);
    [done|apply touches_put_deadline|set_solver..|].
  intros s ->%list_elem_of_singleton. unfold is_str. rewrite value_at_put_deadline. apply Ht.
Qed.

(** The common end of the two lock scripts, once nobody destroys the pool. *)
Lemma extend_effect pool s owner px r r0 Q :
  view r0 = view r ->
  s = ACQUIRE_LOCK_SCRIPT \/ s = RENEW_LOCK_SCRIPT ->
  typed pfx (view r) -> 0 < px -> str_at (view r) (ks pool) = None ->
  (str_at (view r) (kk pool) <> Some owner -> forall r', view r' = view r -> Q (Ok (RInt 0)) r') ->
  (forall r', done_with (EVAL s [kk pool; ks pool] [owner; str_of_int px]) r (Ok (RInt 1)) r' ->
     Q (Ok (RInt 1)) r') ->
  wp (extend_if_owner (kk pool) owner (str_of_int px)) Q r0.
Proof.
  intros V0 Hs Ht Hpx Hst H0 H1. unfold extend_if_owner.
  apply wp_bind, wp_bulk_GET; [rewrite V0; apply Ht|]. intros r1 V1. cbn beta iota.
  rewrite V0 in V1 |- *. case_bool_decide as Hown; [|by apply wp_ret, H0].
  apply wp_bind, wp_PEXPIRE; [done|]. intros ? r2 V2. cbn beta iota. apply wp_ret, H1.
  rewrite V1 in V2. eexists. split; [done|]. rewrite V2.
  split; [|by apply typed_put_deadline].
  eapply eff_extend; [done|done|done|done|by apply lookup_put_deadline|apply touches_put_deadline].
Qed.

Lemma acquire_effect pool owner px r : typed pfx (view r) -> 0 < px ->
  let q := EVAL ACQUIRE_LOCK_SCRIPT [kk pool; ks pool] [owner; str_of_int px] in
  wp (serve q) (done_with q r) r.
Proof.
  intros Ht Hpx q. unfold q. cbn [serve eval]. unfold acquire_lock_script.
  apply wp_bind, wp_state_free; [done|]. intros r1 V1. cbn beta iota.
  destruct (str_at (view r) (ks pool)) as [st|] eqn:Hst.
  { apply wp_ret. eexists. split; [done|]. rewrite V1. split; [|done].
    apply eff_acquire_refused; [left; eauto|done]. }
  apply wp_bind, wp_SET_NX_PX; [done| |]; rewrite V1; intros Hk r2 V2; cbn beta iota.
  - apply wp_ret. eexists. split; [done|]. rewrite V2.
    split; [|by apply typed_put_str].
    apply eff_acquire_free; [done|done|done|apply lookup_put_str|apply touches_put_str].
  - apply (extend_effect pool ACQUIRE_LOCK_SCRIPT owner px r); [done|by left|done|done|done| |done].
    intros Hown r3 V3. eexists. split; [done|]. rewrite V3. split; [|done].
    apply eff_acquire_refused; [right; split; [|done]|done].
    pose proof (ty_lock _ _ Ht pool) as Hty. unfold is_str, str_at in *.
    destruct Hk as [y Hy]. rewrite Hy in *. by destruct y.
Qed.

Lemma renew_effect pool owner px r : typed pfx (view r) -> 0 < px ->
  let q := EVAL RENEW_LOCK_SCRIPT [kk pool; ks pool] [owner; str_of_int px] in
  wp (serve q) (done_with q r) r.
Proof.
  intros Ht Hpx q. unfold q. cbn [serve eval]. unfold renew_lock_script.
  apply wp_bind, wp_state_free; [done|]. intros r1 V1. cbn beta iota.
  destruct (str_at (view r) (ks pool)) as [st|] eqn:Hst.
  { apply wp_ret. eexists. split; [done|]. rewrite V1. split; [|done].
    apply eff_renew_refused; [left; eauto|done]. }
  apply (extend_effect pool RENEW_LOCK_SCRIPT owner px r); [done|by right|done|done|done| |done].
  intros Hown r3 V3. eexists. split; [done|]. rewrite V3. split; [|done].
  apply eff_renew_refused; [by right|done].
Qed.

Lemma typed_del_strs pool sfx v : typed pfx v -> (idle_list_suffix ∉ sfx) -> (idle_expires_suffix ∉ sfx) ->
  typed pfx (del_keys (pool_key_of pfx pool <$> sfx) v).
Proof.
  intros Ht H1 H2. apply (typed_strs pool sfx v); [done|apply touches_del_keys|done|done|].
  intros s Hs. unfold is_str, value_at. rewrite lookup_del_keys, decide_True; [done|].
  apply list_elem_of_fmap. eauto.
Qed.

Lemma release_effect pool owner r : typed pfx (view r) ->
  let q := EVAL RELEASE_LOCK_SCRIPT [kk pool] [owner] in
  wp (serve q) (done_with q r) r.
Proof.
  intros Ht q. unfold q. cbn [serve eval]. unfold release_lock_script.
  apply wp_bind, wp_bulk_GET; [apply Ht|]. intros r1 V1. cbn beta iota. case_bool_decide as Hown.
  - apply wp_DEL. intros n r2 V2. rewrite V1 in V2. eexists. split; [done|]. rewrite V2. split.
    + apply eff_release; [done| |apply touches_del_keys].
      rewrite lookup_del_keys. by rewrite decide_True by set_solver.
    + apply (typed_del_strs pool [primary_lock_suffix]); [done|set_solver..].
  - apply wp_ret. eexists. split; [done|]. rewrite V1. split; [by apply eff_release_other|done].
Qed.

Lemma value_suffix_ne suffix : suffix ∈ value_suffixes ->
  suffix <> idle_list_suffix /\ suffix <> idle_expires_suffix.
Proof. intros Hs. apply read_suffix_ne. unfold read_suffixes, value_suffixes in *. set_solver. Qed.

Lemma set_value_effect pool suffix value r : typed pfx (view r) -> suffix ∈ value_suffixes ->
  let q := EVAL SET_VALUE_SCRIPT [pool_key_of pfx pool suffix; ks pool] [value] in
  wp (serve q) (done_with q r) r.
Proof.
  intros Ht Hs q. unfold q. cbn [serve eval]. unfold set_value_script.
  apply wp_bind, wp_state_free; [done|]. intros r1 V1. cbn beta iota.
  destruct (str_at (view r) (ks pool)) as [st|] eqn:Hst.
  { apply wp_ret. eexists. split; [done|]. rewrite V1. split; [by eapply eff_set_fenced|done]. }
  apply wp_bind, wp_SET. intros r2 V2. cbn beta iota. apply wp_ret. rewrite V1 in V2.
  eexists. split; [done|]. rewrite V2. destruct (value_suffix_ne _ Hs).
  split; [|by apply typed_put_str].
  eapply eff_set_value; [done|done|apply lookup_put_str|apply touches_put_str].
Qed.

Lemma begin_destroy_effect pool owner r : typed pfx (view r) ->
  let q := EVAL BEGIN_DESTROY_SCRIPT [ks pool; ko pool]
             [destroy_state_value DESTROYING; destroy_state_value DESTROYED; owner] in
  wp (serve q) (done_with q r) r.
Proof.
  intros Ht q. unfold q. cbn [serve eval]. unfold begin_destroy_script.
  apply wp_bind, wp_state_free; [done|]. intros r1 V1. cbn beta iota. case_bool_decide as Hst.
  - apply wp_ret. eexists. split; [done|]. rewrite V1. split; [by apply eff_begin_refused|done].
  - apply wp_bind, wp_SET. intros r2 V2. cbn beta iota. rewrite V1 in V2.
    apply wp_bind, wp_SET. intros r3 V3. cbn beta iota. apply wp_ret. rewrite V2 in V3.
    eexists. split; [done|]. rewrite V3. split; [|apply typed_put_str; [by apply typed_put_str|done|done]].
    apply eff_begin; [done| |].
    + rewrite lookup_put_str_ne by (by apply key_ne; right). apply lookup_put_str.
    + eapply touches_trans; [apply touches_put_str..|set_solver|set_solver].
Qed.

Lemma clear_effect pool r : typed pfx (view r) ->
  let q := Cmd (DEL [kl pool; ke pool; kk pool; pool_key_of pfx pool max_idle_suffix;
                     pool_key_of pfx pool idle_ttl_suffix]) in
  wp (serve q) (done_with q r) r.
Proof.
  intros Ht q. unfold q. cbn [serve]. apply wp_DEL. intros n r1 V1. eexists. split; [done|]. rewrite V1. split.
  - apply eff_clear; [|apply touches_del_keys]. intros k Hk. rewrite lookup_del_keys. by rewrite decide_True.
  - assert (del_keys [kl pool; ke pool; kk pool; pool_key_of pfx pool max_idle_suffix;
        pool_key_of pfx pool idle_ttl_suffix] (view r) =
      del_keys [kl pool; ke pool] (del_keys (pool_key_of pfx pool <$>
        [primary_lock_suffix; max_idle_suffix; idle_ttl_suffix]) (view r))) as -> by done.
    eapply typed_idle;
      [apply (typed_del_strs pool [primary_lock_suffix; max_idle_suffix; idle_ttl_suffix]);
         [done|set_solver..]|apply touches_del_keys|].
    set (v := del_keys (_ <$> _) _).
    assert (forall k, k ∈ [kl pool; ke pool] -> v_db (del_keys [kl pool; ke pool] v) !! k = None) as Hno.
    { intros k Hk. rewrite lookup_del_keys. by rewrite decide_True. }
    split; [by apply key_ne; right| | |]; unfold is_list, is_hash, hash_at, value_at;
      rewrite Hno by set_solver; [done|done|]. by intros id e; simpl; rewrite lookup_empty.
Qed.

Lemma take_effect pool ms r : typed pfx (view r) -> 0 <= ms ->
  let q := EVAL TAKE_IDLE_SCRIPT [kl pool; ke pool] [str_of_int ms] in
  wp (serve q) (done_with q r) r.
Proof.
  intros Ht Hms q. unfold q. cbn [serve eval].
  destruct (take_ref (now_ms (view r)) (now_ms (view r) + ms) [] (list_at (view r) (kl pool))
    (hash_at (view r) (ke pool))) as [[[taken ds] l] h] eqn:Hr.
  eapply wp_mono; [apply (take_idle_script_spec _ _ _ _ taken ds l h); [by apply idle_at_typed|]|].
  { by rewrite (expiry_num _ ms) by by apply lua_tonumber_str. }
  intros x r' [-> (Hl & Hh & Ha & Hto)]. eexists. split; [done|].
  split; [|by eapply typed_idle]. apply eff_take; [done| |done]. by rewrite Hr, Hl, Hh.
Qed.

Lemma reap_effect pool ms r : typed pfx (view r) -> 0 <= ms ->
  let q := EVAL REAP_EXPIRED_SCRIPT [kl pool; ke pool] [str_of_int ms] in
  wp (serve q) (done_with q r) r.
Proof.
  intros Ht Hms q. unfold q. cbn [serve eval].
  assert (expiry (str_of_int ms) = ms) as Hx by by apply expiry_num, lua_tonumber_str.
  eapply wp_mono; [apply reap_expired_script_spec; [by apply idle_at_typed|by rewrite Hx]|].
  rewrite Hx. intros x r' (l & Hl & -> & Hq & Hh & Ha & Hto). eexists. split; [done|].
  split; [|by eapply typed_idle].
  apply eff_reap; [done|by eapply near_ids_NoDup| |done| | |done].
  - intros id. by apply elem_near_ids.
  - intros id. rewrite Hq, Hh. by apply reap_list_kept.
  - rewrite Hq. apply sublist_filter.
Qed.

Lemma tombstone_effect pool px r : typed pfx (view r) -> match px with Some n => 0 < n | None => True end ->
  let q := Cmd (SET (ks pool) (destroy_state_value DESTROYED) (str_of_int <$> px)) in
  wp (serve q) (done_with q r) r.
Proof.
  intros Ht Hpx q. unfold q. cbn [serve]. destruct px as [px|]; simpl.
  - apply wp_SET_px; [done|]. intros r1 V1. eexists. split; [done|]. rewrite V1.
    split; [|by apply typed_put_str].
    apply (eff_tombstone _ pool (Some px)); [apply lookup_put_str|apply touches_put_str].
  - apply wp_SET. intros r1 V1. eexists. split; [done|]. rewrite V1. split; [|by apply typed_put_str].
    apply (eff_tombstone _ pool None); [apply lookup_put_str|apply touches_put_str].
Qed.

Lemma tomb_owner_effect pool owner px r : typed pfx (view r) -> match px with Some n => 0 < n | None => True end ->
  let q := Cmd (SET (ko pool) owner (str_of_int <$> px)) in
  wp (serve q) (done_with q r) r.
Proof.
  intros Ht Hpx q. unfold q. cbn [serve]. destruct px as [px|]; simpl.
  - apply wp_SET_px; [done|]. intros r1 V1. eexists. split; [done|]. rewrite V1.
    split; [|by apply typed_put_str]. apply (eff_tomb_owner _ pool owner (Some px)), touches_put_str.
  - apply wp_SET. intros r1 V1. eexists. split; [done|]. rewrite V1.
    split; [|by apply typed_put_str]. apply (eff_tomb_owner _ pool owner None), touches_put_str.
Qed.

Lemma hdel_effect pool id r : typed pfx (view r) ->
  let q := Cmd (HDEL (ke pool) id) in wp (serve q) (done_with q r) r.
Proof.
  intros Ht q. pose proof (idle_at_typed pool _ Ht) as Ha. apply wp_HDEL; [apply Ha|]. intros n r1 V1.
  eexists. split; [done|]. rewrite V1.
  destruct (idle_at_put_hash _ _ (delete id (hash_at (view r) (ke pool))) _ Ha) as [Ha' Hl'].
  { apply delete_num, Ha. }
  split; [apply eff_hdel; [apply hash_at_put|apply touches_put_hash]|].
  eapply typed_idle; [done| |done].
  eapply touches_trans; [apply touches_put_hash|apply touches_refl|set_solver|set_solver].
Qed.

Lemma lrem_effect pool id r : typed pfx (view r) ->
  let q := Cmd (LREM_all (kl pool) id) in wp (serve q) (done_with q r) r.
Proof.
  intros Ht q. pose proof (idle_at_typed pool _ Ht) as Ha. apply wp_LREM; [apply Ha|]. intros n r1 V1.
  eexists. split; [done|]. rewrite V1.
  destruct (idle_at_put_list _ _ (filter (fun y => y <> id) (list_at (view r) (kl pool))) _ Ha) as [Ha' Hh'].
  split; [apply eff_lrem; [apply list_at_put|apply touches_put_list]|].
  eapply typed_idle; [done| |done].
  eapply touches_trans; [apply touches_put_list|apply touches_refl|set_solver|set_solver].
Qed.

(** Every request of the store is answered, with its effect. *)
Lemma serve_effect q r : typed pfx (view r) -> store_request pfx q -> wp (serve q) (done_with q r) r.
Proof.
  intros Ht Hq. destruct Hq.
  - by apply take_effect.
  - by apply put_idle_effect.
  - by apply acquire_effect.
  - by apply renew_effect.
  - by apply release_effect.
  - by apply reap_effect.
  - by apply set_value_effect.
  - by apply begin_destroy_effect.
  - apply wp_GET; [by apply Ht|]. intros r1 V1. eexists. split; [done|]. rewrite V1.
    split; [by apply eff_get|done].
  - by apply hdel_effect.
  - by apply lrem_effect.
  - apply wp_HLEN; [by apply Ht|]. intros r1 V1. eexists. split; [done|]. rewrite V1.
    split; [by apply eff_hlen|done].
  - apply wp_LRANGE; [by apply Ht|]. intros r1 V1. eexists. split; [done|]. rewrite V1.
    split; [by apply eff_lrange|done].
  - apply wp_HGETALL; [by apply Ht|]. intros l r1 Hl V1. eexists. split; [done|]. rewrite V1.
    split; [by apply eff_hgetall|done].
  - by apply clear_effect.
  - by apply tombstone_effect.
  - by apply tomb_owner_effect.
Qed.
End effects.

(** ** The keys a request can change *)

Definition writes (q : request) : list string :=
  match q with
  | EVAL TAKE_IDLE_SCRIPT keys _ | EVAL REAP_EXPIRED_SCRIPT keys _
  | EVAL BEGIN_DESTROY_SCRIPT keys _ | EVAL RELEASE_LOCK_SCRIPT keys _ => keys
  | EVAL PUT_IDLE_SCRIPT keys _ => take 2 keys
  | EVAL ACQUIRE_LOCK_SCRIPT keys _ | EVAL RENEW_LOCK_SCRIPT keys _
  | EVAL SET_VALUE_SCRIPT keys _ => take 1 keys
  | Cmd (HDEL k _) | Cmd (LREM_all k _) | Cmd (SET k _ _) => [k]
  | Cmd (DEL keys) => keys
  | _ => []
  end.

Lemma effect_writes pfx v q rep v' : effect pfx v q rep v' -> touches (writes q) v v'.
Proof.
  assert (forall l l', touches l v v' -> l ⊆ l' -> touches l' v v') as Hw.
  { intros l l' Ht Hl. eapply touches_trans; [exact Ht|apply touches_refl|done|set_solver]. }
  destruct 1; cbn [writes take];
    repeat match goal with H : _ \/ _ |- _ => destruct H; subst; cbn [writes take] end;
    (eapply Hw; [eassumption|set_solver]).
Qed.
