(* ===== verification/RedisSafety.v ===== *)
(** * Clients sharing a Redis pool store

    Any number of [RedisPoolStateStore] clients work on one server.  A client's
    operation is a sequence of requests; the other clients' requests and the
    passing of time come in between, in any order, and any request or reply can
    get lost.  The theorems are about the history of the server over such runs:
    no sandbox is handed out twice, the primary lock has one holder at a time, a
    destroy fence holds, and the take script computes what the in-memory store's
    loop computes. *)

From Stdlib Require Import ZArith Lia String.
From stdpp Require Import base numbers strings gmap list.
From S2P Require Import Prelude PyString PyText PyCodec PoolTypes PoolStore RedisServer.
From S2P Require Import RedisStore RedisProtocol.

Open Scope string_scope.
Open Scope Z_scope.

(** ** Runs *)

(** A step of the system: time goes by, or some client's request is served. *)
Definition step_ok (pfx : string) (st : step) : Prop :=
  match st with Elapse d => 0 <= d | Serve q => store_request pfx q end.

(** One operation through the interface of the store. *)
Definition call_op {St} `{!PoolStateStore St} (op : store_op) : M St exc unit :=
  match op with
  | OpTake p => try_take_idle p ;;; ret tt
  | OpTakeMin p ttl =>
      match try_take_idle_min_ttl with Some f => f p ttl ;;; ret tt | None => ret tt end
  | OpPut p id => put_idle p id
  | OpRemove p id => remove_idle p id
  | OpAcquireLock p o ttl => try_acquire_primary_lock p o ttl ;;; ret tt
  | OpRenewLock p o ttl => renew_primary_lock p o ttl ;;; ret tt
  | OpReleaseLock p o => release_primary_lock p o
  | OpReap p now => reap_expired_idle p now
  | OpReapMin p now ttl =>
      match reap_expired_idle_min_ttl with Some f => f p now ttl ;;; ret tt | None => ret tt end
  | OpCounters p => snapshot_counters p ;;; ret tt
  | OpEntries p => snapshot_idle_entries p ;;; ret tt
  | OpSetMaxIdle p n => set_max_idle p n
  | OpSetTtl p ttl => set_idle_entry_ttl p ttl
  | OpGetDestroy p => get_destroy_state p ;;; ret tt
  | OpBeginDestroy p o => begin_destroy p o
  | OpClear p => clear_pool_state p
  | OpMarkDestroyed p o ttl => mark_destroyed p o ttl
  end.

(** A program of operations; it goes on whatever they raise. *)
Fixpoint call_ops {St} `{!PoolStateStore St} (ops : list store_op) (s : St) : St :=
  match ops with [] => s | op :: ops => call_ops ops (call_op op s).2 end.

Section runs.
Context {R : Type} `{!Redis R} `{!RedisLaws R} (pfx : string).
Implicit Types (n : net R) (s : RedisPoolStateStore R).
Local Abbreviation RM A := (M (RedisPoolStateStore R) exc A).

Definition net_ok n : Prop := typed pfx (view (srv n)).

Lemma typed_pass d v : typed pfx v -> typed pfx (pass d v).
Proof.
  intros [H1 H2 H3 H4 H5].
  assert (forall k, value_at (pass d v) k = value_at v k \/ value_at (pass d v) k = None) as Hv.
  { intros k. unfold value_at. rewrite lookup_pass. destruct (v_db v !! k) as [[x dl]|]; [|by left].
    destruct (alive _ _); [by left|by right]. }
  split; intros pool.
  - specialize (H1 pool). unfold is_list in *. destruct (Hv (pool_key_of pfx pool idle_list_suffix)) as [->| ->]; done.
  - specialize (H2 pool). unfold is_hash in *. destruct (Hv (pool_key_of pfx pool idle_expires_suffix)) as [->| ->]; done.
  - intros id e. specialize (H3 pool id e). unfold hash_at in *.
    destruct (Hv (pool_key_of pfx pool idle_expires_suffix)) as [->| ->]; [done|]. by rewrite lookup_empty.
  - specialize (H4 pool). unfold is_str in *. destruct (Hv (pool_key_of pfx pool primary_lock_suffix)) as [->| ->]; done.
  - intros s Hs. specialize (H5 pool s Hs). unfold is_str in *. destruct (Hv (pool_key_of pfx pool s)) as [->| ->]; done.
Qed.

(** What one step does to the server and its history. *)
Inductive stepped (n : net R) : step -> net R -> Prop :=
  | stepped_elapse d r : view r = pass d (view (srv n)) ->
      stepped n (Elapse d) (mkNet r (hist n))
  | stepped_serve q rep r : effect pfx (view (srv n)) q rep (view r) ->
      stepped n (Serve q) (mkNet r (hist n ++ [(q, Ok rep)])).

Lemma do_step_ok n st : net_ok n -> step_ok pfx st -> stepped n st (do_step n st) /\ net_ok (do_step n st).
Proof.
  intros Hn Hs. destruct st as [d|q]; simpl in *.
  - split; [by constructor; apply law_elapse|]. unfold net_ok. simpl. rewrite law_elapse by done.
    by apply typed_pass.
  - pose proof (serve_effect pfx q (srv n) Hn Hs) as H. unfold wp in H. unfold serve_net.
    destruct (serve q (srv n)) as [x r']. destruct H as (rep & -> & He & Ht). simpl.
    split; [by constructor|done].
Qed.

(** An assertion on the server and its history that every step keeps. *)
Definition stable (I : net R -> Prop) : Prop :=
  forall n st n', net_ok n -> step_ok pfx st -> stepped n st n' -> I n -> I n'.

Lemma run_steps_stable I l : stable I -> forall n,
  net_ok n -> Forall (step_ok pfx) l -> I n -> net_ok (run_steps l n) /\ I (run_steps l n).
Proof.
  intros HI. unfold run_steps. induction l as [|st l IH]; intros n Hn Hl Hi; [done|].
  apply Forall_cons in Hl as [Hst Hl]. simpl. destruct (do_step_ok n st Hn Hst) as [Hs Hn'].
  apply IH; [done|done|]. by apply (HI n st).
Qed.

(** ** Operations are made of the store's requests *)

(** A store on prefix [pfx] whose neighbours are stores too. *)
Record client_ok s : Prop := {
  co_net : net_ok (rs_net s);
  co_others : forall i : nat, Forall (step_ok pfx) (others s i);
  co_prefix : key_prefix s = pfx;
}.

Definition keeps (I : net R -> Prop) {A} (m : RM A) : Prop :=
  forall s, client_ok s -> I (rs_net s) ->
    wp m (fun _ s' => client_ok s' /\ I (rs_net s') /\ others s' = others s) s.

Context (I : net R -> Prop) (HI : stable I).

Lemma keeps_ret {A} (a : A) : keeps I (ret a : RM A).
Proof. by intros s Hs Hi. Qed.

Lemma keeps_throw {A} e : keeps I (throw e : RM A).
Proof. by intros s Hs Hi. Qed.

Lemma keeps_gets {A} (f : RedisPoolStateStore R -> A) : keeps I (gets f).
Proof. by intros s Hs Hi. Qed.

Lemma keeps_bind {A B} (m : RM A) (k : A -> RM B) :
  keeps I m -> (forall a, keeps I (k a)) -> keeps I (bind m k).
Proof.
  intros Hm Hk s Hs Hi. apply wp_bind. eapply wp_mono; [by apply Hm|].
  intros [a|e] s' (Hs' & Hi' & Ho); [|done].
  eapply wp_mono; [by apply Hk|]. intros x s2 (? & ? & ?). split_and!; [done..|congruence].
Qed.

Lemma keeps_execute {A} (m : RM A) : keeps I m -> keeps I (execute m).
Proof.
  intros Hm s Hs Hi. unfold execute. apply wp_catch. eapply wp_mono; [by apply Hm|].
  intros [a|e] s' (Hs' & Hi' & Ho); [done|]. by destruct e.
Qed.

Lemma keeps_send q : store_request pfx q -> keeps I (send q).
Proof.
  intros Hq s Hs Hi. unfold wp, send.
  destruct (run_steps_stable I (others s (sent s)) HI (rs_net s)) as [Hn1 Hi1];
    [apply Hs|apply Hs|done|].
  set (n1 := run_steps (others s (sent s)) (rs_net s)) in *.
  destruct (do_step_ok n1 (Serve q) Hn1 Hq) as [Hst Hn2].
  assert (I (serve_net q n1).2) as Hi2 by (by apply (HI n1 (Serve q))).
  simpl in Hn2. destruct Hs as [_ Ho Hp].
  destruct (faults s (sent s)); [destruct (serve_net q n1) as [x n2]|..]; split_and!; try done; by constructor.
Qed.

Lemma keeps_pool_key pool suffix {A} (k : string -> RM A) :
  keeps I (k (pool_key_of pfx pool suffix)) -> keeps I (bind (pool_key pool suffix) k).
Proof.
  intros Hk s Hs Hi. apply wp_bind. unfold pool_key. destruct (is_blank pool); [by apply wp_throw|].
  apply wp_gets. rewrite (co_prefix s Hs). by apply Hk.
Qed.

Lemma keeps_fenced_write pool sc keys argv :
  store_request pfx (EVAL sc keys argv) -> keeps I (rs_get_destroy_state pool) ->
  keeps I (eval_fenced_write pool sc keys argv).
Proof.
  intros Hq Hg. apply keeps_bind; [by apply keeps_send|]. intros x.
  destruct (equals_int (-1) x); [|apply keeps_ret]. apply keeps_bind; [done|]. intros st. apply keeps_throw.
Qed.

(** Splits an operation into its requests. *)
Ltac keeps_step :=
  first
  [ apply keeps_ret | apply keeps_throw | apply keeps_gets | apply keeps_execute
  | apply keeps_pool_key
  | apply keeps_send; constructor; first [done | lia | set_solver]
  | apply keeps_fenced_write; [constructor; first [done | lia | set_solver]|]
  | apply keeps_bind; [|intro] ].

Lemma keeps_destroy_state pool : keeps I (rs_get_destroy_state pool).
Proof using HI. unfold rs_get_destroy_state, rs_destroy_state_key. repeat keeps_step. Qed.

Lemma keeps_items x : keeps I (items_of x).
Proof. unfold items_of. destruct (items x); keeps_step. Qed.

Lemma keeps_decode x : keeps I (decode_take_idle_result x).
Proof.
  unfold decode_take_idle_result. destruct x as [| | | |[|y l]]; try keeps_step.
  - apply keeps_items.
  - intros ds. keeps_step.
Qed.

Lemma str_of_int_0 : "0" = str_of_int 0.
Proof. done. Qed.

Lemma keeps_eval_take pool ms : 0 <= ms -> keeps I (eval_take_idle pool (str_of_int ms)).
Proof using HI.
  intros Hms. unfold eval_take_idle, rs_idle_list_key, rs_idle_expires_key.
  apply keeps_bind; [repeat keeps_step|apply keeps_decode].
Qed.

Lemma keeps_take pool : keeps I (rs_try_take_idle pool).
Proof using HI.
  unfold rs_try_take_idle. rewrite str_of_int_0. apply keeps_bind; [by apply keeps_eval_take|].
  intros x. keeps_step.
Qed.

Lemma keeps_reap_idle pool ms : 0 <= ms -> keeps I (reap_idle pool (str_of_int ms)).
Proof using HI.
  intros Hms. unfold reap_idle, rs_idle_list_key, rs_idle_expires_key.
  apply keeps_bind; [repeat keeps_step|apply keeps_items].
Qed.

Lemma keeps_validate owner ttl : keeps I (validate_owner_and_ttl owner ttl).
Proof. unfold validate_owner_and_ttl. repeat case_match; keeps_step. Qed.

Lemma keeps_build_entries ids exps : keeps I (build_entries ids exps).
Proof.
  induction ids as [|id ids IH]; cbn [build_entries]; [keeps_step|].
  destruct (od_get id exps) as [e|]; [|done]. destruct (int_of_str e); [|keeps_step].
  apply keeps_bind; [unfold fromtimestamp_ms; case_match; keeps_step|]. intros t.
  apply keeps_bind; [done|]. intros l. keeps_step.
Qed.

Lemma keeps_put pool id : keeps I (rs_put_idle pool id).
Proof using HI.
  unfold rs_put_idle, rs_resolve_idle_ttl, rs_idle_ttl_key, rs_idle_list_key, rs_idle_expires_key,
    rs_destroy_state_key, timedelta_ms.
  destruct (is_blank id) eqn:Hid; [keeps_step|]. apply keeps_bind; [|intros ttl].
  - repeat keeps_step. repeat case_match; keeps_step.
  - repeat keeps_step.
Qed.

Lemma keeps_mark pool owner ttl : keeps I (rs_mark_destroyed pool owner ttl).
Proof using HI.
  unfold rs_mark_destroyed, rs_destroy_state_key, rs_destroy_owner_key.
  destruct (is_blank owner); [keeps_step|].
  destruct ttl as [t|]; [destruct (t <=? 0); [keeps_step|]|]; repeat keeps_step;
    apply keeps_send.
  - by apply (sq_tombstone pfx pool (Some (Z.max 1 (millis_ t)))); lia.
  - apply (sq_tomb_owner pfx pool owner (Some (Z.max 1 (millis_ t)))); lia.
  - by apply (sq_tombstone pfx pool None).
  - by apply (sq_tomb_owner pfx pool owner None).
Qed.

(** Every operation keeps what every step keeps. *)
Lemma keeps_op op : keeps I (call_op op).
Proof using HI.
  destruct op; simpl.
  - apply keeps_bind; [apply keeps_take|intros; keeps_step].
  - apply keeps_bind; [|intros; keeps_step]. unfold rs_try_take_idle_min_ttl.
    case_match; [|apply keeps_eval_take; lia]. apply keeps_bind; [apply keeps_take|intros; keeps_step].
  - apply keeps_put.
  - unfold rs_remove_idle, rs_idle_expires_key, rs_idle_list_key. repeat keeps_step.
  - apply keeps_bind; [|intros; keeps_step]. apply keeps_bind; [apply keeps_validate|intros _].
    unfold rs_primary_lock_key, rs_destroy_state_key. repeat keeps_step.
  - apply keeps_bind; [|intros; keeps_step]. apply keeps_bind; [apply keeps_validate|intros _].
    unfold rs_primary_lock_key, rs_destroy_state_key. repeat keeps_step.
  - unfold rs_release_primary_lock, rs_primary_lock_key. repeat keeps_step.
  - unfold rs_reap_expired_idle. rewrite str_of_int_0.
    apply keeps_bind; [by apply keeps_reap_idle|intros; keeps_step].
  - apply keeps_bind; [|intros; keeps_step]. unfold rs_reap_expired_idle_min_ttl.
    case_match; [|apply keeps_reap_idle; lia]. unfold rs_reap_expired_idle. rewrite str_of_int_0.
    repeat (apply keeps_bind; [|intros; keeps_step]). by apply keeps_reap_idle.
  - apply keeps_bind; [|intros; keeps_step]. unfold rs_snapshot_counters, rs_idle_expires_key.
    repeat keeps_step. case_match; keeps_step.
  - apply keeps_bind; [|intros; keeps_step].
    unfold rs_snapshot_idle_entries, rs_idle_list_key, rs_idle_expires_key. repeat keeps_step.
    repeat case_match; try keeps_step. apply keeps_build_entries.
  - unfold rs_set_max_idle, rs_max_idle_key, rs_destroy_state_key. case_match; [keeps_step|].
    repeat keeps_step.
  - unfold rs_set_idle_entry_ttl, rs_idle_ttl_key, rs_destroy_state_key. case_match; [keeps_step|].
    repeat keeps_step.
  - apply keeps_bind; [apply keeps_destroy_state|intros; keeps_step].
  - unfold rs_begin_destroy, rs_destroy_state_key, rs_destroy_owner_key. case_match; [keeps_step|].
    repeat keeps_step. case_match; keeps_step.
  - unfold rs_clear_pool_state, rs_idle_list_key, rs_idle_expires_key, rs_primary_lock_key,
      rs_max_idle_key, rs_idle_ttl_key. repeat keeps_step.
  - apply keeps_mark.
Qed.

Lemma call_ops_keep ops : forall s,
  client_ok s -> I (rs_net s) -> client_ok (call_ops ops s) /\ I (rs_net (call_ops ops s)).
Proof using HI.
  induction ops as [|op ops IH]; intros s Hs Hi; [done|]. simpl.
  pose proof (keeps_op op s Hs Hi) as H. unfold wp in H. destruct (call_op op s) as [x s'].
  destruct H as (? & ? & _). by apply IH.
Qed.
End runs.

(** ** Handing out *)

Definition reply_ids (rep : reply) : list string :=
  match rep with
  | RArray [RBulk taken; RArray discarded] =>
      ((if bool_decide (taken = "") then [] else [taken]) ++ map decode_ discarded)%list
  | _ => []
  end.

(** The ids of [pool] a served request gave to its client. *)
Definition handed (pfx pool : string) (x : request * res exc reply) : list string :=
  match x with
  | (EVAL TAKE_IDLE_SCRIPT (k :: _) _, Ok rep) =>
      if bool_decide (k = pool_key_of pfx pool idle_list_suffix) then reply_ids rep else []
  | (EVAL REAP_EXPIRED_SCRIPT (k :: _) _, Ok (RArray discarded)) =>
      if bool_decide (k = pool_key_of pfx pool idle_list_suffix) then map decode_ discarded else []
  | _ => []
  end.

(** The ids of [pool] a served request accepted. *)
Definition accepted (pfx pool : string) (x : request * res exc reply) : list string :=
  match x with
  | (EVAL PUT_IDLE_SCRIPT (k :: _) (id :: _), Ok (RInt 1)) =>
      if bool_decide (k = pool_key_of pfx pool idle_list_suffix) then [id] else []
  | _ => []
  end.

Definition mem (h : gmap string string) (id : string) : nat :=
  if decide (is_Some (h !! id)) then 1 else 0.

Lemma mem_delete_eq h id : mem (delete id h) id = 0%nat.
Proof. unfold mem. rewrite lookup_delete_eq. by rewrite decide_False by (by intros []). Qed.

Lemma mem_delete_ne h id i : i <> id -> mem (delete id h) i = mem h i.
Proof. intros Hne. unfold mem. by rewrite lookup_delete_ne. Qed.

Lemma mem_delete_le h id i : (mem (delete id h) i <= mem h i)%nat.
Proof. destruct (decide (i = id)) as [->|]; [rewrite mem_delete_eq; lia|by rewrite mem_delete_ne]. Qed.

Lemma mem_Some h id e : h !! id = Some e -> mem h id = 1%nat.
Proof. intros He. unfold mem. rewrite decide_True; [done|]. eauto. Qed.

Lemma mem_le_1 h id : (mem h id <= 1)%nat.
Proof. unfold mem. case_decide; lia. Qed.

Lemma mem_mono h h' id : (is_Some (h' !! id) -> is_Some (h !! id)) -> (mem h' id <= mem h id)%nat.
Proof. intros H. unfold mem. repeat case_decide; try lia. tauto. Qed.

Lemma count_nil (x : string) : count x [] = 0%nat.
Proof. done. Qed.

Lemma mem_insert_le h i x id : (0 + mem (<[i := x]> h) id <= count id [i] + mem h id)%nat.
Proof.
  rewrite count_cons, count_nil. pose proof (mem_le_1 (<[i := x]> h) id). case_decide as Hi; [lia|].
  unfold mem. rewrite lookup_insert_ne by done. lia.
Qed.

Lemma map_decode_bulk l : map decode_ (map RBulk l) = l.
Proof. rewrite map_map. apply map_id. Qed.

(** The take loop hands out only what it removes from the hash. *)
Lemma take_ref_balance now cutoff q : forall acc h taken ds l h' i,
  take_ref now cutoff acc q h = (taken, ds, l, h') ->
  (count i (option_list taken ++ ds) + mem h' i <= count i acc + mem h i)%nat.
Proof.
  induction q as [|id q IH]; intros acc h taken ds l h' i Ht; simpl in Ht; [by simplify_eq|].
  destruct (h !! id) as [e|] eqn:He; [|by eapply IH].
  assert (forall n, (n <= 1 -> (if decide (id = i) then n else 0) + mem (delete id h) i <= mem h i)%nat) as Hd.
  { intros n Hn. case_decide as Hi; [subst; rewrite mem_delete_eq, (mem_Some _ _ _ He); lia|].
    rewrite mem_delete_ne by done. lia. }
  destruct (cutoff <? expiry e).
  - simplify_eq. change (option_list (Some id)) with [id]. rewrite count_app, count_cons, count_nil.
    specialize (Hd 1%nat ltac:(lia)). lia.
  - apply (IH _ _ _ _ _ _ i) in Ht. specialize (Hd 1%nat ltac:(lia)).
    destruct (now <? expiry e); [|pose proof (mem_delete_le h id i); lia].
    rewrite (count_app i acc), count_cons, count_nil in Ht. lia.
Qed.

Lemma count_maybe i (t : string) ds :
  (count i ((if bool_decide (t = "") then [] else [t]) ++ ds) <= count i ([t] ++ ds))%nat.
Proof. case_bool_decide; rewrite !count_app; [rewrite count_nil; lia|lia]. Qed.

Lemma take_reply_ids taken ds i :
  (count i (reply_ids (take_reply taken ds)) <= count i (option_list taken ++ ds))%nat.
Proof.
  destruct taken as [t|]; [|destruct ds as [|d ds]].
  - transitivity (count i ((if bool_decide (t = "") then [] else [t]) ++ ds)%list); [|apply count_maybe].
    destruct ds; simpl; rewrite ?map_decode_bulk; lia.
  - done.
  - simpl. by rewrite map_decode_bulk.
Qed.

Section handout.
Context (pfx : string).
Local Abbreviation kl pool := (pool_key_of pfx pool idle_list_suffix).
Local Abbreviation ke pool := (pool_key_of pfx pool idle_expires_suffix).

Lemma key_same_pool p1 p2 : bool_decide (kl p1 = kl p2) = bool_decide (p1 = p2).
Proof.
  apply bool_decide_ext. split; [|by intros ->]. by intros [? _]%pool_key_of_inj.
Qed.

(** A pool's hash after a request that does not touch it. *)
Lemma hash_touches ks v v' pool :
  touches ks v v' -> (ke pool ∉ ks) -> hash_at v' (ke pool) = hash_at v (ke pool).
Proof. intros [_ Ht] Hk. by apply hash_at_ext, Ht. Qed.

Lemma ke_other pool p s : (p <> pool \/ s <> idle_expires_suffix) -> ke pool <> pool_key_of pfx p s.
Proof. intros H. apply key_ne. destruct H; [left|right]; congruence. Qed.

Lemma ke_not_in_idle pool p : p <> pool -> ke pool ∉ [kl p; ke p].
Proof. intros Hp. rewrite !not_elem_of_cons. split_and!; [by apply ke_other; left..|set_solver]. Qed.

(** What a request hands out and what is left is covered by what it accepted and
    what was there. *)
Lemma effect_balance v q rep v' : effect pfx v q rep v' -> forall pool id,
  (count id (handed pfx pool (q, Ok rep)) + mem (hash_at v' (ke pool)) id <=
   count id (accepted pfx pool (q, Ok rep)) + mem (hash_at v (ke pool)) id)%nat.
Proof.
  assert (forall ks v v' pool id, touches ks v v' -> (ke pool ∉ ks) ->
    mem (hash_at v' (ke pool)) id = mem (hash_at v (ke pool)) id) as Hsame.
  { intros ks0 v0 v0' pool id Ht Hk. by rewrite (hash_touches ks0 v0). }
  assert (forall p pool, ke pool <> ke p -> p <> pool) as Hpool by (intros p pool H ->; done).
  intros He pool id. destruct He as
    [p ms taken ds v' _ Ht Hto|p i ttl st v' _ Hto|p i ttl e v' _ _ _ Hto|p i ttl v' _ Hn _ Hh Hto
    |p i ttl e v' _ Hs _ Hh Hto|p o px v' _ _ _ _ Hto|p sc o px v' _ [-> | ->] _ _ _ Hto|p o px v' _ Hto
    |p o px v' _ Hto|p o n v' _ _ Hto|p o v' _ Hto|p ms ds v' _ Hnd Hin Hh _ _ Hto|p sfx x st v' Hsfx _ Hto
    |p sfx x v' Hsfx _ _ Hto|p o v' _ Hto|p o v' _ _ Hto|p sfx v' Hto|p i n v' Hh Hto|p i n v' _ Hto
    |p v' Hto|p v' Hto|p l v' _ Hto|p n v' cleared Hno Hto|p px v' _ Hto|p o px v' Hto];
    cbn [handed accepted]; rewrite ?count_nil;
    try (rewrite (Hsame _ _ _ _ _ Hto); [rewrite ?Nat.add_0_r; lia|];
         rewrite ?not_elem_of_cons; split_and?; try (apply ke_other; by right); set_solver).
  - (* take *)
    rewrite key_same_pool. case_bool_decide as Hp.
    + subst. pose proof (take_ref_balance _ _ _ _ _ _ _ _ _ id Ht) as Hb.
      pose proof (take_reply_ids taken ds id). rewrite count_nil in Hb. lia.
    + rewrite (Hsame _ _ _ _ _ Hto); [rewrite count_nil; lia|by apply ke_not_in_idle].
  - (* a new id *)
    rewrite key_same_pool. case_bool_decide as Hp; [subst; rewrite Hh; apply mem_insert_le|].
    rewrite (Hsame _ _ _ _ _ Hto); [lia|by apply ke_not_in_idle].
  - (* an expired id again *)
    rewrite key_same_pool. case_bool_decide as Hp; [subst; rewrite Hh; apply mem_insert_le|].
    rewrite (Hsame _ _ _ _ _ Hto); [lia|]. rewrite not_elem_of_cons. split; [|set_solver].
    apply ke_other; by left.
  - (* reap *)
    unfold discarded_reply. rewrite key_same_pool, map_decode_bulk. case_bool_decide as Hp.
    + subst. rewrite Hh. pose proof (count_NoDup id ds Hnd) as Hc.
      destruct (decide (id ∈ ds)) as [Hd|Hd].
      * apply Hin in Hd as (e & Hs & ? & Hle). rewrite (mem_Some _ _ _ Hs).
        unfold mem, reap_keeps. rewrite decide_False; [lia|].
        intros [x [Hx Hlt]%map_lookup_filter_Some]. simplify_eq. simpl in Hlt. lia.
      * rewrite <- count_pos in Hd. pose proof (mem_mono (hash_at v (ke pool))
          (reap_keeps (now_ms v + ms) (hash_at v (ke pool))) id) as Hm.
        enough (is_Some (reap_keeps (now_ms v + ms) (hash_at v (ke pool)) !! id) ->
          is_Some (hash_at v (ke pool) !! id)) by (specialize (Hm ltac:(done)); lia).
        intros [x [Hx _]%map_lookup_filter_Some]. eauto.
    + rewrite (Hsame _ _ _ _ _ Hto); [rewrite count_nil; lia|by apply ke_not_in_idle].
  - (* set a value *)
    rewrite (Hsame _ _ _ _ _ Hto); [lia|]. rewrite not_elem_of_cons. split; [|set_solver].
    apply ke_other. right. by apply value_suffix_ne.
  - (* remove *)
    destruct (decide (p = pool)) as [->|Hp]; [rewrite Hh; pose proof (mem_delete_le (hash_at v (ke pool)) i id); lia|].
    rewrite (Hsame _ _ _ _ _ Hto); [lia|]. rewrite not_elem_of_cons. split; [|set_solver].
    apply ke_other; by left.
  - (* clear *)
    destruct (decide (p = pool)) as [->|Hp].
    + unfold mem at 1, hash_at, value_at. rewrite Hno by (unfold cleared; set_solver).
      simpl. rewrite lookup_empty, decide_False by (by intros []). lia.
    + rewrite (Hsame _ _ _ _ _ Hto); [lia|]. unfold cleared. rewrite !not_elem_of_cons.
      split_and!; [by apply ke_other; left..|set_solver].
Qed.
End handout.

Section shared_server.
Context {R : Type} `{!Redis R} `{!RedisLaws R} (pfx : string).
Implicit Types (n : net R) (s : RedisPoolStateStore R).
Local Abbreviation kl pool := (pool_key_of pfx pool idle_list_suffix).
Local Abbreviation ke pool := (pool_key_of pfx pool idle_expires_suffix).
Local Abbreviation kk pool := (pool_key_of pfx pool primary_lock_suffix).
Local Abbreviation ks pool := (pool_key_of pfx pool destroy_state_suffix).

Definition handout_inv n : Prop := forall pool id,
  (count id (flat_map (handed pfx pool) (hist n)) + mem (hash_at (view (srv n)) (ke pool)) id <=
   count id (flat_map (accepted pfx pool) (hist n)))%nat.

Lemma hash_at_pass d v k id : is_Some (hash_at (pass d v) k !! id) -> is_Some (hash_at v k !! id).
Proof.
  unfold hash_at, value_at. rewrite lookup_pass.
  destruct (v_db v !! k) as [[x dl]|]; [|done]. destruct (alive _ dl); [done|]. simpl.
  rewrite lookup_empty. by intros [].
Qed.

Lemma handout_stable : stable pfx handout_inv.
Proof.
  intros n st n' _ _ Hs Hi pool id. destruct Hs as [d r Hv|q rep r He]; simpl.
  - specialize (Hi pool id). rewrite Hv. pose proof (mem_mono (hash_at (view (srv n)) (ke pool))
      (hash_at (pass d (view (srv n))) (ke pool)) id (hash_at_pass _ _ _ _)). lia.
  - rewrite !flat_map_app, !count_app. cbn [flat_map]. rewrite !app_nil_r.
    pose proof (effect_balance pfx _ _ _ _ He pool id). specialize (Hi pool id). lia.
Qed.

(** A store whose server is empty and has served nothing yet. *)
Definition fresh s : Prop := v_db (view (srv (rs_net s))) = ∅ /\ hist (rs_net s) = [].

Lemma typed_empty v : v_db v = ∅ -> typed pfx v.
Proof.
  intros Hv. split; intros; unfold is_list, is_hash, is_str, hash_at, value_at in *;
    rewrite Hv in *; try done; by rewrite lookup_empty in *.
Qed.

Lemma handout_fresh s : fresh s -> handout_inv (rs_net s).
Proof.
  intros [Hv Hh] p i. rewrite Hh. simpl. unfold mem, hash_at, value_at. rewrite Hv, lookup_empty. simpl.
  rewrite lookup_empty. by rewrite decide_False by (by intros []).
Qed.

Lemma fresh_client s :
  fresh s -> (forall i, Forall (step_ok pfx) (others s i)) -> key_prefix s = pfx -> client_ok pfx s.
Proof. intros [Hv _] Ho Hp. split; [by apply typed_empty|done|done]. Qed.

(** C6: over any program of store operations, with any requests of other clients,
    losses of requests or replies and passing of time in between, the server
    hands a sandbox id out (as taken or as a near-expiry discard) at most as often
    as it accepted a put of it. *)
Theorem redis_no_double_handout s ops pool id :
  fresh s -> (forall i, Forall (step_ok pfx) (others s i)) -> key_prefix s = pfx ->
  let h := hist (rs_net (call_ops ops s)) in
  (count id (flat_map (handed pfx pool) h) <= count id (flat_map (accepted pfx pool) h))%nat.
Proof.
  intros Hf Ho Hp h. destruct (call_ops_keep pfx handout_inv handout_stable ops s) as [_ Hi].
  - by apply fresh_client.
  - by apply handout_fresh.
  - specialize (Hi pool id). unfold h. lia.
Qed.

(** ** The primary lock *)

(** [owner] holds the lock of [pool] at least until [deadline] (milliseconds). *)
Definition holds pool owner deadline (v : rview) : Prop :=
  exists dl, v_db v !! kk pool = Some (VStr owner, Some dl) /\ deadline <= dl.

Definition lock_request pool owner px (q : request) : Prop :=
  q = EVAL ACQUIRE_LOCK_SCRIPT [kk pool; ks pool] [owner; str_of_int px] \/
  q = EVAL RENEW_LOCK_SCRIPT [kk pool; ks pool] [owner; str_of_int px].

(** Requests by which the holder gives the lock up or shortens it, and the
    clearing of the pool. *)
Definition surrenders pool owner px (q : request) : Prop :=
  q = EVAL RELEASE_LOCK_SCRIPT [kk pool] [owner] \/
  (exists px', px' < px /\ lock_request pool owner px' q) \/
  (exists ks, q = Cmd (DEL ks) /\ kk pool ∈ ks).

Lemma holds_str pool owner deadline v : holds pool owner deadline v -> str_at v (kk pool) = Some owner.
Proof. intros (dl & Hl & _). unfold str_at, value_at. by rewrite Hl. Qed.


(** The requests that can change the lock of a pool. *)
Lemma writes_lock v q rep v' pool : effect pfx v q rep v' -> kk pool ∈ writes q ->
  (exists owner px, lock_request pool owner px q) \/
  (exists owner, q = EVAL RELEASE_LOCK_SCRIPT [kk pool] [owner]) \/
  (exists l, q = Cmd (DEL l) /\ kk pool ∈ l).
Proof.
  assert (forall p sfx (P : Prop), sfx <> primary_lock_suffix -> kk pool = pool_key_of pfx p sfx -> P) as Hno.
  { intros p sfx P Hs [_ <-]%pool_key_of_inj. done. }
  assert (forall p, kk pool = kk p -> p = pool) as Hyes by (by intros p [-> _]%pool_key_of_inj).
  intros He Hw. destruct He; cbn [writes take] in Hw;
    repeat match goal with H : _ \/ _ |- _ => destruct H; subst; cbn [writes take] in Hw end;
    rewrite ?elem_of_cons, ?elem_of_nil in Hw; destruct_or? Hw; try done;
    try (by eapply Hno; [|exact Hw]);
    try (apply Hyes in Hw; subst; unfold lock_request; by eauto 10).
  1,2: eapply Hno; [|exact Hw]; intros ->; unfold value_suffixes in *; set_solver.
  right. right. by eexists.
Qed.

Lemma holds_same pool owner deadline v v' :
  v_db v' !! kk pool = v_db v !! kk pool -> holds pool owner deadline v -> holds pool owner deadline v'.
Proof. intros Hs (dl & Hl & Hd). exists dl. by rewrite Hs. Qed.

Lemma lock_request_owner pool o1 px1 o2 px2 q :
  lock_request pool o1 px1 q -> lock_request pool o2 px2 q -> o1 = o2.
Proof. intros [->| ->] [H|H]; by simplify_eq. Qed.

(** What a lock request does while [owner] holds the lock. *)
Lemma effect_lock_request pool owner deadline px v q rep v' o px0 :
  effect pfx v q rep v' -> lock_request pool o px0 q ->
  ~ surrenders pool owner px q -> deadline <= now_ms v + px -> holds pool owner deadline v ->
  holds pool owner deadline v' /\ (o <> owner -> rep = RInt 0).
Proof.
  intros He Hq Hns Hdl Hh. pose proof (holds_str _ _ _ _ Hh) as Hstr.
  assert (forall k, touches [] v v' -> v_db v' !! k = v_db v !! k) as Hsame
    by (intros k [_ Ht]; apply Ht; set_solver).
  destruct Hq as [->| ->]; inversion He as
    [| | | | |p o' px' v1 _ _ Hfree _ _|p sc o' px' v1 _ _ _ Hown Hnew _|p o' px' v1 _ Hto|p o' px' v1 _ Hto
    | | | | | | | | | | | | | | | |]; subst; same_pool;
    try (split; [by apply (holds_same pool owner deadline v); [apply Hsame|]|done]).
  1: { unfold str_at in Hstr. by rewrite Hfree in Hstr. }
  all: assert (o = owner) as -> by congruence; (split; [|done]);
    eexists; (split; [exact Hnew|]); destruct (Z.lt_ge_cases px' px) as [Hlt|Hge]; [|lia];
    destruct Hns; right; left; exists px'; (split; [done|]).
  - left. congruence.
  - right. congruence.
Qed.

(** Until the deadline no request but the holder's own takes the lock away, and
    no other owner is granted it. *)
Lemma effect_holds pool owner deadline px v q rep v' :
  effect pfx v q rep v' -> ~ surrenders pool owner px q -> deadline <= now_ms v + px ->
  holds pool owner deadline v ->
  holds pool owner deadline v' /\
  (forall other px', other <> owner -> lock_request pool other px' q -> rep = RInt 0).
Proof.
  intros He Hns Hdl Hh. destruct (decide (kk pool ∈ writes q)) as [Hw|Hw].
  - destruct (writes_lock _ _ _ _ pool He Hw) as [(o & px0 & Hq)|[[o ->]|(l & -> & Hl)]].
    + destruct (effect_lock_request _ _ _ _ _ _ _ _ _ _ He Hq Hns Hdl Hh) as [Hh' Hr].
      split; [done|]. intros o2 px2 Ho H2. apply Hr. by rewrite (lock_request_owner _ _ _ _ _ _ Hq H2).
    + pose proof (holds_str _ _ _ _ Hh) as Hstr. split; [|by intros ? ? _ [?|?]].
      inversion He; subst; same_pool.
      * destruct Hns. left. congruence.
      * eapply holds_same; [|done]. match goal with H : touches [] v v' |- _ => apply H end. set_solver.
    + destruct Hns. right. right. eauto.
  - split.
    + eapply holds_same; [|done]. by apply (effect_writes _ _ _ _ _ He).
    + intros o px0 _ [->| ->]; destruct Hw; cbn [writes take]; set_solver.
Qed.

Definition elapsed (l : list step) : Z :=
  foldr (fun st acc => match st with Elapse d => d + acc | Serve _ => acc end) 0 l.

Lemma elapsed_nonneg l : Forall (step_ok pfx) l -> 0 <= elapsed l.
Proof. induction 1 as [|[d|q] l Hst Hl IH]; simpl in *; lia. Qed.

Definition step_surrenders pool owner px (st : step) : Prop :=
  match st with Elapse _ => False | Serve q => surrenders pool owner px q end.

(** No lock request of anyone else was granted. *)
Definition refused pool owner (x : request * res exc reply) : Prop :=
  forall other px, other <> owner -> lock_request pool other px x.1 -> x.2 = Ok (RInt 0).

Lemma holds_pass pool owner deadline d v :
  holds pool owner deadline v -> (v_now v + d) / 1000 <= deadline -> holds pool owner deadline (pass d v).
Proof.
  intros (dl & Hl & Hd) Hle. exists dl. split; [|done]. rewrite lookup_pass, Hl. unfold alive.
  by replace ((v_now v + d) / 1000 <=? dl) with true by lia.
Qed.

Lemma effect_now v q rep v' : effect pfx v q rep v' -> v_now v' = v_now v.
Proof. intros He. by destruct (effect_writes _ _ _ _ _ He). Qed.

Lemma run_holds pool owner px deadline steps : forall n,
  net_ok pfx n -> Forall (step_ok pfx) steps ->
  Forall (fun st => ~ step_surrenders pool owner px st) steps ->
  holds pool owner deadline (view (srv n)) ->
  deadline <= now_ms (view (srv n)) + px ->
  (v_now (view (srv n)) + elapsed steps) / 1000 <= deadline ->
  let n' := run_steps steps n in
  holds pool owner deadline (view (srv n')) /\
  exists new, hist n' = (hist n ++ new)%list /\ Forall (refused pool owner) new.
Proof.
  induction steps as [|st steps IH]; intros n Hn Hok Hns Hh Hdl Hel n'.
  { split; [done|]. exists []. split; [symmetry; apply app_nil_r|constructor]. }
  apply Forall_cons in Hok as [Hst Hok]. apply Forall_cons in Hns as [Hs Hns].
  destruct (do_step_ok pfx n st Hn Hst) as [Hstep Hn1].
  change n' with (run_steps steps (do_step n st)). clear n'. revert Hstep Hn1. generalize (do_step n st).
  pose proof (elapsed_nonneg _ Hok) as Hpos. intros n1 Hstep Hn1.
  destruct Hstep as [d r Hv|q rep r He]; simpl in Hst, Hel.
  - assert ((v_now (view (srv n)) + d) / 1000 <= (v_now (view (srv n)) + (d + elapsed steps)) / 1000)
      by (apply Z.div_le_mono; lia).
    assert (v_now (view (srv n)) / 1000 <= (v_now (view (srv n)) + d) / 1000) by (apply Z.div_le_mono; lia).
    apply (IH (mkNet r (hist n))); simpl; rewrite ?Hv; try done.
    + apply holds_pass; [done|lia].
    + unfold now_ms in *. simpl. lia.
    + simpl. by rewrite <- Z.add_assoc.
  - pose proof (effect_now _ _ _ _ He) as Hnow.
    destruct (effect_holds _ _ _ _ _ _ _ _ He Hs Hdl Hh) as [Hh1 Href].
    destruct (IH (mkNet r (hist n ++ [(q, Ok rep)]))) as [Hh2 (new & Hnew & Hall)]; simpl; try done;
      [by unfold now_ms; rewrite Hnow|by rewrite Hnow|].
    split; [done|]. exists ((q, Ok rep) :: new). split; [by rewrite Hnew; simpl; rewrite <- app_assoc|].
    constructor; [|done]. intros o px0 Ho Hq. simpl. by rewrite (Href o px0 Ho Hq).
Qed.

(** A reply that reached the client was sent by the server. *)
Lemma wp_send q s : client_ok pfx s -> store_request pfx q ->
  wp (send q) (fun x s' => client_ok pfx s' /\ forall rep, x = Ok rep ->
    exists n, net_ok pfx n /\ effect pfx (view (srv n)) q rep (view (srv (rs_net s'))) /\
              hist (rs_net s') = (hist n ++ [(q, Ok rep)])%list) s.
Proof.
  intros Hs Hq. apply wp_and.
  - eapply wp_mono; [apply (keeps_send pfx (fun _ => True)); [done|done|done|done]|]. by intros x s' [].
  - unfold wp, send. destruct (faults s (sent s)); [|done|done].
    destruct (run_steps_stable pfx (fun _ => True) (others s (sent s)) ltac:(done) (rs_net s)) as [Hn _];
      [apply Hs|apply Hs|done|].
    set (n := run_steps _ _) in *. unfold serve_net.
    pose proof (serve_effect pfx q (srv n) Hn Hq) as He. unfold wp in He.
    destruct (serve q (srv n)) as [x r]. destruct He as (rep & -> & He & Ht). intros rep' [= <-].
    by exists n.
Qed.

(** The holder right after a granted request. *)
Lemma granted_holds pool owner px q v v' : 0 < px ->
  lock_request pool owner px q -> effect pfx v q (RInt 1) v' -> holds pool owner (now_ms v' + px) v'.
Proof.
  intros Hpx Hq He. assert (now_ms v' = now_ms v) as -> by (unfold now_ms; by rewrite (effect_now _ _ _ _ He)).
  assert (forall px', 0 < px' -> str_of_int px' = str_of_int px ->
    v_db v' !! kk pool = Some (VStr owner, Some (now_ms v + px')) -> holds pool owner (now_ms v + px) v') as Hgo.
  { intros px' Hp Hs Hl. apply str_of_int_inj in Hs as ->; [|lia..]. eexists. split; [exact Hl|lia]. }
  destruct Hq as [->| ->]; inversion He; subst; same_pool; (eapply Hgo; eassumption).
Qed.

Lemma wp_execute {A} (m : M (RedisPoolStateStore R) exc A) Q s :
  wp m (fun x s' => match x with
                    | Ok a => Q (Ok a) s'
                    | Raise (ValueError _ as e) | Raise (PoolDestroyedException _ as e)
                    | Raise (NonException _ as e) => Q (Raise e) s'
                    | Raise _ => Q (Raise PoolStateStoreUnavailableException) s'
                    end) s -> wp (execute m) Q s.
Proof.
  intros H. apply wp_catch. eapply wp_mono; [exact H|]. intros [a|e] s'; [done|]. by destruct e.
Qed.

Lemma wp_pool_key pool suffix {A} (k : string -> M (RedisPoolStateStore R) exc A) Q s :
  key_prefix s = pfx ->
  (is_blank pool = true -> Q (Raise (ValueError "pool_name must not be blank")) s) ->
  (is_blank pool = false -> wp (k (pool_key_of pfx pool suffix)) Q s) ->
  wp (bind (pool_key pool suffix) k) Q s.
Proof.
  intros Hp H1 H0. apply wp_bind. unfold pool_key. destruct (is_blank pool); [by apply H1|].
  apply wp_gets. rewrite Hp. by apply H0.
Qed.

(** The client operation of either kind, granted. *)
Definition lock_op (renew : bool) : string -> string -> Z -> M (RedisPoolStateStore R) exc bool :=
  if renew then rs_renew_primary_lock else rs_try_acquire_primary_lock.

Lemma lock_op_granted renew pool owner ttl s :
  client_ok pfx s ->
  wp (lock_op renew pool owner ttl) (fun x s' => client_ok pfx s' /\ (x = Ok true ->
    holds pool owner (now_ms (view (srv (rs_net s'))) + Z.max 1 (millis_ ttl)) (view (srv (rs_net s'))))) s.
Proof.
  intros Hs. set (px := Z.max 1 (millis_ ttl)).
  set (sc := if renew then RENEW_LOCK_SCRIPT else ACQUIRE_LOCK_SCRIPT).
  assert (lock_op renew pool owner ttl = bind (validate_owner_and_ttl owner ttl) (fun _ =>
    bind (execute (bind (pool_key pool primary_lock_suffix) (fun k1 =>
      bind (pool_key pool destroy_state_suffix) (fun k2 =>
        send (EVAL sc [k1; k2] [owner; str_of_int px])))))
      (fun result => ret (equals_int 1 result)))) as -> by (by destruct renew).
  apply wp_bind. unfold validate_owner_and_ttl. destruct (is_blank owner); [by wp_step|].
  destruct (ttl <=? 0); [by wp_step|]. wp_step. wp_step. apply wp_execute.
  apply wp_pool_key; [apply Hs|done|]. intros _. apply wp_pool_key; [apply Hs|done|]. intros _.
  set (q := EVAL sc _ _).
  assert (lock_request pool owner px q) as Hq by (unfold q, sc; destruct renew; [by right|by left]).
  assert (store_request pfx q) as Hsq by (destruct Hq as [->| ->]; constructor; unfold px; lia).
  eapply wp_mono; [by apply wp_send|]. intros [rep|e] s' [Hs' He]; [|by destruct e].
  wp_step. split; [done|]. intros [= Hone]. destruct (He rep eq_refl) as (n & Hn & Heff & _).
  assert (rep = RInt 1) as ->.
  { destruct Hq as [Hq|Hq]; rewrite Hq in Heff; inversion Heff; subst; simpl in Hone; done. }
  eapply granted_holds; [unfold px; lia|exact Hq|exact Heff].
Qed.

(** C7: mutual exclusion of the primary lock.  Once [try_acquire_primary_lock] or
    [renew_primary_lock] answered [owner] with [true], then as long as less than the
    requested time has passed, whatever any client does except [owner] releasing
    or shortening it or the pool being cleared, every lock request of another
    owner is answered 0 and [owner] still holds the lock. *)
Theorem redis_lock_exclusive renew pool owner ttl s s' steps :
  client_ok pfx s -> lock_op renew pool owner ttl s = (Ok true, s') ->
  let px := Z.max 1 (millis_ ttl) in
  Forall (step_ok pfx) steps -> Forall (fun st => ~ step_surrenders pool owner px st) steps ->
  elapsed steps <= px * 1000 ->
  let n' := run_steps steps (rs_net s') in
  str_at (view (srv n')) (kk pool) = Some owner /\
  exists new, hist n' = (hist (rs_net s') ++ new)%list /\ Forall (refused pool owner) new.
Proof.
  intros Hs Hop px Hok Hns Hel. pose proof (lock_op_granted renew pool owner ttl s Hs) as H.
  unfold wp in H. rewrite Hop in H. destruct H as [Hs' Hh]. specialize (Hh eq_refl). fold px in Hh.
  set (v := view (srv (rs_net s'))) in *.
  assert ((v_now v + elapsed steps) / 1000 <= now_ms v + px) as Hend.
  { unfold now_ms. rewrite <- Z.div_add by lia. apply Z.div_le_mono; lia. }
  destruct (run_holds pool owner px (now_ms v + px) steps (rs_net s')) as [Hh' Hnew]; try done; [apply Hs'|].
  split; [by eapply holds_str|done].
Qed.

(** ** The destroy fence *)

(** A destroy marker that does not expire. *)
Definition fence pool (v : rview) : Prop := exists st, v_db v !! ks pool = Some (VStr st, None).

(** A tombstone with a time to live is written: the fence will fall. *)
Definition lifts_fence pool (st : step) : Prop :=
  exists x px, st = Serve (Cmd (SET (ks pool) x (Some px))).

(** What the fence promises of a served request. *)
Definition fence_respected pool (x : request * res exc reply) : Prop :=
  accepted pfx pool x = [] /\
  (forall owner px, lock_request pool owner px x.1 -> x.2 = Ok (RInt 0)) /\
  (forall suffix value, x.1 = EVAL SET_VALUE_SCRIPT [pool_key_of pfx pool suffix; ks pool] [value] ->
     x.2 = Ok (RInt (-1))).

Lemma fence_str pool v : fence pool v -> is_Some (str_at v (ks pool)).
Proof. intros [st Hst]. unfold str_at, value_at. rewrite Hst. by eexists. Qed.

Lemma effect_fence pool v q rep v' :
  effect pfx v q rep v' -> ~ lifts_fence pool (Serve q) -> fence pool v -> fence pool v'.
Proof.
  intros He Hno Hf. destruct (decide (ks pool ∈ writes q)) as [Hw|Hw].
  2: { destruct Hf as [st Hst]. exists st. rewrite <- Hst. by apply (effect_writes _ _ _ _ _ He). }
  assert (forall p sfx (P : Prop), sfx <> destroy_state_suffix -> ks pool = pool_key_of pfx p sfx -> P) as Hk.
  { intros p sfx P Hs [_ <-]%pool_key_of_inj. done. }
  destruct He; cbn [writes take] in Hw;
    repeat match goal with H : _ \/ _ |- _ => destruct H; subst; cbn [writes take] in Hw end;
    rewrite ?elem_of_cons, ?elem_of_nil in Hw; destruct_or? Hw; try done;
    try (by eapply Hk; [|exact Hw]); same_pool.
  all: try (by eexists).
  - eapply Hk; [|exact Hw]. intros ->. unfold value_suffixes in *. set_solver.
  - eapply Hk; [|exact Hw]. intros ->. unfold value_suffixes in *. set_solver.
  - destruct Hf as [st Hst]. exists st. rewrite <- Hst.
    match goal with H : touches [] v v' |- _ => apply H end. set_solver.
  - unfold cleared in Hw. rewrite !elem_of_cons, elem_of_nil in Hw. destruct_or? Hw; try done;
      by eapply Hk; [|exact Hw].
  - destruct px as [px|]; [|by eexists]. destruct Hno. by eexists _, _.
Qed.

Lemma effect_respects_fence pool v q rep v' :
  effect pfx v q rep v' -> fence pool v -> fence_respected pool (q, Ok rep).
Proof.
  intros He Hf. destruct (fence_str _ _ Hf) as [st Hst]. split_and!.
  - destruct He; cbn [accepted]; try done;
      repeat match goal with H : _ \/ _ |- _ => destruct H; subst; cbn [accepted]; try done end.
    all: rewrite key_same_pool; case_bool_decide; [subst; congruence|done].
  - intros owner px [Hq|Hq]; simpl in Hq; subst q; inversion He; subst; same_pool; try done; congruence.
  - intros sfx x Hq. simpl in Hq. subst q. inversion He; subst; same_pool; [done|]. congruence.
Qed.

Lemma fence_pass pool d v : fence pool v -> fence pool (pass d v).
Proof. intros [st Hst]. exists st. by rewrite lookup_pass, Hst. Qed.

Lemma run_fence pool steps : forall n,
  net_ok pfx n -> Forall (step_ok pfx) steps -> Forall (fun st => ~ lifts_fence pool st) steps ->
  fence pool (view (srv n)) ->
  let n' := run_steps steps n in
  net_ok pfx n' /\ fence pool (view (srv n')) /\
  (exists new, hist n' = (hist n ++ new)%list /\ Forall (fence_respected pool) new) /\
  forall id, is_Some (hash_at (view (srv n')) (ke pool) !! id) -> is_Some (hash_at (view (srv n)) (ke pool) !! id).
Proof.
  induction steps as [|st steps IH]; intros n Hn Hok Hns Hf n'.
  { split_and!; [done|done| |done]. exists []. split; [symmetry; apply app_nil_r|constructor]. }
  apply Forall_cons in Hok as [Hst Hok]. apply Forall_cons in Hns as [Hs Hns].
  destruct (do_step_ok pfx n st Hn Hst) as [Hstep Hn1].
  change n' with (run_steps steps (do_step n st)). clear n'. revert Hstep Hn1. generalize (do_step n st).
  intros n1 Hstep Hn1. destruct Hstep as [d r Hv|q rep r He].
  - destruct (IH (mkNet r (hist n))) as (H1 & H2 & H3 & H4); simpl; try done;
      [rewrite Hv; by apply fence_pass|].
    split_and!; [done..|]. intros id Hid. apply H4 in Hid. simpl in Hid. rewrite Hv in Hid.
    by eapply hash_at_pass.
  - destruct (IH (mkNet r (hist n ++ [(q, Ok rep)]))) as (H1 & H2 & (new & Hnew & Hall) & H4); simpl; try done;
      [by eapply effect_fence|].
    pose proof (effect_respects_fence _ _ _ _ _ He Hf) as Hr.
    split_and!; [done|done| |].
    + exists ((q, Ok rep) :: new). split; [by rewrite Hnew; simpl; rewrite <- app_assoc|]. by constructor.
    + intros id Hid. apply H4 in Hid. simpl in Hid. destruct Hr as [Hacc _].
      pose proof (effect_balance pfx _ _ _ _ He pool id) as Hb. rewrite Hacc, count_nil in Hb.
      unfold mem in Hb. rewrite (decide_True _ _ Hid) in Hb. case_decide; [done|]. lia.
Qed.

Lemma begin_destroy_fences pool owner s :
  client_ok pfx s ->
  wp (rs_begin_destroy pool owner) (fun x s' => client_ok pfx s' /\
    (x = Ok tt -> fence pool (view (srv (rs_net s'))))) s.
Proof.
  intros Hs. unfold rs_begin_destroy. destruct (is_blank owner); [by wp_step|]. apply wp_execute.
  apply wp_pool_key; [apply Hs|done|]. intros _. apply wp_pool_key; [apply Hs|done|]. intros _.
  apply wp_bind. eapply wp_mono; [apply wp_send; [done|constructor]|].
  intros [rep|e] s' [Hs' He]; [|by destruct e].
  destruct (equals_int (-1) rep) eqn:Heq; wp_step; [done|]. split; [done|]. intros _.
  destruct (He rep eq_refl) as (n & Hn & Heff & _). inversion Heff; subst; same_pool.
  - done.
  - by eexists.
Qed.

(** Once [begin_destroy] returned, no client's put is accepted, no lock request
    granted and no setting written on that pool, whatever happens until a
    tombstone with a time to live is written; the idle sandboxes only get fewer. *)
Theorem redis_destroy_fence pool owner s s' steps :
  client_ok pfx s -> rs_begin_destroy pool owner s = (Ok tt, s') ->
  Forall (step_ok pfx) steps -> Forall (fun st => ~ lifts_fence pool st) steps ->
  let n' := run_steps steps (rs_net s') in
  (exists new, hist n' = (hist (rs_net s') ++ new)%list /\ Forall (fence_respected pool) new) /\
  forall id, is_Some (hash_at (view (srv n')) (ke pool) !! id) ->
             is_Some (hash_at (view (srv (rs_net s'))) (ke pool) !! id).
Proof.
  intros Hs Hop Hok Hns. pose proof (begin_destroy_fences pool owner s Hs) as H.
  unfold wp in H. rewrite Hop in H. destruct H as [Hs' Hf].
  destruct (run_fence pool steps (rs_net s')) as (_ & _ & H1 & H2); try done; [apply Hs'|by apply Hf].
Qed.
End shared_server.
