(* ===== verification/RedisRefine.v ===== *)
(** * The Redis store behind the store interface

    The take script computes the loop of the in-memory store, and
    [RedisPoolStateStore] discharges [PoolStoreLaws], the interface the pool and
    the pool manager are verified against, with any pattern of lost requests and
    replies.  Runs on a concrete server show the hypotheses of the theorems of
    [RedisSafety] satisfied, and where the two stores differ. *)

From Stdlib Require Import ZArith Lia String.
From stdpp Require Import base numbers strings gmap list.
From S2P Require Import Prelude PyString PyText PyCodec PoolTypes PoolStore RedisServer.
From S2P Require Import RedisStore RedisProtocol RedisSafety.

Open Scope string_scope.
Open Scope Z_scope.

(** ** The take loop is the in-memory loop *)

(** The hash and the entries of the in-memory store agree: the same ids with the
    same expiration (in the unit of the hash). *)
Definition same_idle (h : gmap string string) (es : list (string * IdleEntry)) : Prop :=
  forall id, expiry <$> h !! id = ie_expires_at <$> od_get id es.

Lemma same_idle_del h es id : same_idle h es -> same_idle (delete id h) (od_del id es).
Proof.
  intros Hs i. destruct (decide (i = id)) as [->|Hne].
  - by rewrite lookup_delete_eq, od_get_del_eq.
  - by rewrite lookup_delete_ne, od_get_del_ne.
Qed.

Lemma take_ref_in_memory now cutoff q : forall acc h es,
  same_idle h es ->
  let '(res, st) := take_min_loop now cutoff acc q es in
  exists h', take_ref now cutoff acc q h = (ti_sandbox_id res, ti_discarded_alive res, queue st, h') /\
             same_idle h' (entries st).
Proof.
  induction q as [|id q IH]; intros acc h es Hs; simpl; [by exists h|].
  pose proof (Hs id) as Hid. destruct (h !! id) as [e|], (od_get id es) as [x|]; simpl in Hid; try done.
  - injection Hid as ->. destruct (cutoff <? ie_expires_at x).
    + eexists. split; [done|]. by apply same_idle_del.
    + by apply IH, same_idle_del.
  - by apply IH.
Qed.

(** What the loop takes was queued. *)
Lemma take_min_loop_elem now cutoff q : forall acc es res st id,
  take_min_loop now cutoff acc q es = (res, st) -> ti_sandbox_id res = Some id -> id ∈ q.
Proof.
  induction q as [|i q IH]; intros acc es res st id Ht Hr; simpl in Ht; [by simplify_eq|].
  destruct (od_get i es) as [x|].
  - destruct (cutoff <? ie_expires_at x).
    + simplify_eq. simpl in Hr. simplify_eq. set_solver.
    + apply elem_of_cons. right. by eapply IH.
  - apply elem_of_cons. right. by eapply IH.
Qed.

(** The client reads the reply of the take script back. *)
Lemma decode_take_reply {S} taken ds : taken <> Some "" ->
  decode_take_idle_result (S := S) (take_reply taken ds) =
  ret {| ti_sandbox_id := taken; ti_discarded_alive := ds |}.
Proof.
  intros Hne. destruct taken as [t|], ds as [|d ds]; unfold take_reply, discarded_reply,
    decode_take_idle_result, items_of, bind, ret; simpl; rewrite ?map_decode_bulk; try done;
    rewrite bool_decide_eq_false_2 by done; done.
Qed.

(** A store nobody disturbs during its operations. *)
Definition quiet {R} (s : RedisPoolStateStore R) : Prop := forall i, others s i = [].

Section refine.
Context {R : Type} `{!Redis R} `{!RedisLaws R} (pfx : string).
Implicit Types (s : RedisPoolStateStore R).
Local Abbreviation kl pool := (pool_key_of pfx pool idle_list_suffix).
Local Abbreviation ke pool := (pool_key_of pfx pool idle_expires_suffix).
Local Abbreviation ks pool := (pool_key_of pfx pool destroy_state_suffix).
Definition the_view s : rview := view (srv (rs_net s)).

(** A request of a quiet store: it gets lost, or the server serves it in the state
    the client left it in and the reply arrives or gets lost. *)
Lemma wp_send_quiet q Q s : client_ok pfx s -> quiet s -> store_request pfx q ->
  (forall s' name, client_ok pfx s' -> quiet s' -> rs_net s' = rs_net s ->
     Q (Raise (OtherException name)) s') ->
  (forall rep s' x, client_ok pfx s' -> quiet s' -> effect pfx (the_view s) q rep (the_view s') ->
     x = Ok rep \/ (exists name, x = Raise (OtherException name)) -> Q x s') ->
  wp (send q) Q s.
Proof.
  intros Hs Hqu Hq Hlost Hserved.
  pose proof (serve_effect pfx q (srv (rs_net s)) (co_net _ _ Hs) Hq) as He.
  unfold wp, send, serve_net in *. rewrite (Hqu (sent s)). simpl.
  destruct (serve q (srv (rs_net s))) as [x r]. destruct He as (rep & -> & He & Ht).
  assert (forall n, net_ok pfx n -> client_ok pfx (after_request n s)) as Hok
    by (intros n Hn; constructor; [done|apply Hs|apply Hs]).
  destruct (faults s (sent s)) as [|name|name]; simpl.
  - apply (Hserved rep); [by apply Hok|done|done|by left].
  - apply Hlost; [apply Hok, Hs|done|done].
  - apply (Hserved rep); [by apply Hok|done|done|by right; eexists].
Qed.

Lemma wp_send_reply q Q s : client_ok pfx s -> quiet s -> store_request pfx q ->
  faults s (sent s) = NoFault ->
  (forall rep s', effect pfx (the_view s) q rep (the_view s') -> Q (Ok rep) s') -> wp (send q) Q s.
Proof.
  intros Hs Hqu Hq Hf HQ. pose proof (serve_effect pfx q (srv (rs_net s)) (co_net _ _ Hs) Hq) as He.
  unfold wp, send, serve_net in *. rewrite (Hqu (sent s)), Hf. simpl.
  destruct (serve q (srv (rs_net s))) as [x r]. destruct He as (rep & -> & He & Ht). by apply HQ.
Qed.

(** C9: [try_take_idle_min_ttl] on Redis gives exactly what the in-memory store's
    loop gives on the same queue and expirations at the server's clock, the same
    sandbox and the same near-expiry discards in the same order, and leaves the
    same queue and entries. *)
Theorem redis_take_is_in_memory_take pool ttl s st :
  client_ok pfx s -> quiet s -> faults s (sent s) = NoFault -> is_blank pool = false -> 0 < ttl ->
  queue st = list_at (the_view s) (kl pool) -> same_idle (hash_at (the_view s) (ke pool)) (entries st) ->
  ("" ∉ queue st) ->
  let now := now_ms (the_view s) in
  let '(res, st') := take_min_loop now (now + Z.max 0 (millis_ ttl)) [] (queue st) (entries st) in
  exists s', rs_try_take_idle_min_ttl pool ttl s = (Ok res, s') /\
    list_at (the_view s') (kl pool) = queue st' /\ same_idle (hash_at (the_view s') (ke pool)) (entries st').
Proof.
  intros Hs Hqu Hf Hp Httl Hq Hsame Hne now. set (ms := Z.max 0 (millis_ ttl)).
  destruct (take_min_loop now (now + ms) [] (queue st) (entries st)) as [res st'] eqn:Hloop.
  pose proof (take_ref_in_memory now (now + ms) (queue st) [] _ _ Hsame) as H. rewrite Hloop in H.
  destruct H as (h' & Href & Hsame').
  assert (ti_sandbox_id res <> Some "") as Hid by (intros Hr; by eapply Hne, take_min_loop_elem).
  assert (wp (rs_try_take_idle_min_ttl pool ttl) (fun x s' => x = Ok res /\
    list_at (the_view s') (kl pool) = queue st' /\ same_idle (hash_at (the_view s') (ke pool)) (entries st')) s)
    as Hwp.
  { unfold rs_try_take_idle_min_ttl. replace (ttl <=? 0) with false by lia. fold ms.
    apply wp_bind, wp_execute. apply (wp_pool_key pfx); [apply Hs|congruence|]. intros _.
    apply (wp_pool_key pfx); [apply Hs|congruence|]. intros _.
    apply wp_send_reply; [done|done|constructor; unfold ms; lia|done|].
    intros rep s' He. inversion He as [p ms' taken ds v' Hms Ht Hto| | | | | | | | | | | | | | | | | | | | | | | |].
    subst. same_pool. assert (ms' = ms) as -> by (apply str_of_int_inj; [done|unfold ms; lia|done]).
    fold now in Ht. rewrite <- Hq, Href in Ht. injection Ht as <- <- Hl Hh.
    rewrite decode_take_reply by done. destruct res. apply wp_ret. by rewrite <- Hl, <- Hh. }
  unfold wp in Hwp. destruct (rs_try_take_idle_min_ttl pool ttl s) as [x s'].
  destruct Hwp as (-> & ? & ?). by exists s'.
Qed.

(** ** What requests do to the idle list *)

Lemma take_ref_spec now cutoff q : forall acc h taken ds l h',
  take_ref now cutoff acc q h = (taken, ds, l, h') ->
  (forall i, is_Some (h' !! i) -> is_Some (h !! i)) /\
  match taken with
  | Some id => (exists pre, q = (pre ++ id :: l)%list) /\ is_Some (h !! id) /\ h' !! id = None
  | None => l = []
  end.
Proof.
  induction q as [|id q IH]; intros acc h taken ds l h' Ht; simpl in Ht; [by simplify_eq|].
  assert (forall e, h !! id = Some e -> forall i, is_Some (delete id h !! i) -> is_Some (h !! i)) as Hsub.
  { intros e _ i [x [_ Hx]%lookup_delete_Some]. eauto. }
  destruct (h !! id) as [e|] eqn:He.
  - destruct (cutoff <? expiry e).
    + simplify_eq. split; [by eapply Hsub|]. split_and!; [by exists []|eauto|apply lookup_delete_eq].
    + apply IH in Ht as [Hs Hc]. split; [intros i Hi; by eapply Hsub, Hs|]. destruct taken as [t|]; [|done].
      destruct Hc as ([pre ->] & Hm & Hno). split_and!; [by exists (id :: pre)|by eapply Hsub|done].
  - apply IH in Ht as [Hs Hc]. split; [done|]. destruct taken as [t|]; [|done].
    destruct Hc as ([pre ->] & Hm & Hno). split_and!; [by exists (id :: pre)|done|done].
Qed.

Lemma take_ref_sublist now cutoff q acc h taken ds l h' :
  take_ref now cutoff acc q h = (taken, ds, l, h') -> sublist l q.
Proof.
  intros [_ Hc]%take_ref_spec. destruct taken as [t|].
  - destruct Hc as ([pre ->] & _). apply sublist_inserts_l. by constructor.
  - subst. apply sublist_nil_l.
Qed.

(** The list of a pool only gets longer by an accepted put. *)
Lemma effect_list v q rep v' pool : effect pfx v q rep v' ->
  sublist (list_at v' (kl pool)) (list_at v (kl pool)) \/
  (exists id ttl, q = EVAL PUT_IDLE_SCRIPT [kl pool; ke pool; ks pool] [id; str_of_int ttl] /\
     str_at v (ks pool) = None /\ list_at v' (kl pool) = (list_at v (kl pool) ++ [id])%list).
Proof.
  intros He. destruct (decide (kl pool ∈ writes q)) as [Hw|Hw].
  2: { left. rewrite (list_at_ext v); [done|]. by apply (effect_writes _ _ _ _ _ He). }
  assert (forall p sfx (P : Prop), sfx <> idle_list_suffix -> kl pool = pool_key_of pfx p sfx -> P) as Hk.
  { intros p sfx P Hs [_ <-]%pool_key_of_inj. done. }
  assert (touches [] v v' -> sublist (list_at v' (kl pool)) (list_at v (kl pool))) as Hsame.
  { intros [_ Ht]. rewrite (list_at_ext v); [done|]. apply Ht. set_solver. }
  destruct He; cbn [writes take] in Hw;
    repeat match goal with H : _ \/ _ |- _ => destruct H; subst; cbn [writes take] in Hw end;
    rewrite ?elem_of_cons, ?elem_of_nil in Hw; destruct_or? Hw; try done;
    try (by eapply Hk; [|exact Hw]); same_pool; try (by left; apply Hsame).
  - left. by eapply take_ref_sublist.
  - right. by eexists _, _.
  - left. rewrite (list_at_ext v); [done|].
    match goal with H : touches [_] v v' |- _ => apply H end.
    rewrite not_elem_of_cons. split; [by apply key_ne; right|set_solver].
  - by left.
  - eapply Hk; [|exact Hw]. by apply value_suffix_ne.
  - left. match goal with H : list_at v' _ = _ |- _ => rewrite H end. apply sublist_filter.
  - left. unfold list_at at 1, value_at.
    match goal with H : forall k, _ -> v_db v' !! k = None |- _ => rewrite H by done end. apply sublist_nil_l.
Qed.

(** No queued id is blank. *)
Definition named (n : net R) : Prop := forall pool, "" ∉ list_at (view (srv n)) (kl pool).

Lemma list_at_pass d v k : sublist (list_at (pass d v) k) (list_at v k).
Proof.
  unfold list_at, value_at. rewrite lookup_pass. destruct (v_db v !! k) as [[x dl]|]; [|done].
  destruct (alive _ dl); [done|]. apply sublist_nil_l.
Qed.

Lemma named_stable : stable pfx named.
Proof.
  intros n st n' _ Hok Hs Hi pool. destruct Hs as [d r Hv|q rep r He]; simpl.
  - rewrite Hv. intros Hin. apply (Hi pool). eapply elem_of_sublist; [done|apply list_at_pass].
  - simpl in Hok. destruct (effect_list _ _ _ _ pool He) as [Hsub|(id & ttl & -> & _ & ->)].
    + intros Hin. apply (Hi pool). by eapply elem_of_sublist.
    + rewrite elem_of_app, list_elem_of_singleton. intros [Hin| <-]; [by apply (Hi pool)|].
      inversion Hok. done.
Qed.

(** ** The laws of the store interface *)

(** The ids a take can find: queued and with an expiration. *)
Definition idle_of (pool : string) (v : rview) : list string :=
  filter (fun id => is_Some (hash_at v (ke pool) !! id)) (list_at v (kl pool)).

Definition redis_wf s : Prop := client_ok pfx s /\ quiet s /\ named (rs_net s).

Lemma keeps_redis_wf {A} (m : M (RedisPoolStateStore R) exc A) s :
  keeps pfx named m -> redis_wf s -> wp m (fun _ s' => redis_wf s') s.
Proof.
  intros Hk (Hs & Hq & Hn). eapply wp_mono; [by apply Hk|]. intros x s' (? & ? & Ho).
  split_and!; [done| |done]. intros i. by rewrite Ho.
Qed.

Lemma idle_of_ext v v' pool :
  v_db v' !! kl pool = v_db v !! kl pool -> v_db v' !! ke pool = v_db v !! ke pool ->
  idle_of pool v' = idle_of pool v.
Proof. intros H1 H2. unfold idle_of. by rewrite (list_at_ext v), (hash_at_ext v). Qed.

(** A request that writes neither structure leaves the idle ids alone. *)
Lemma idle_of_effect v q rep v' pool :
  effect pfx v q rep v' -> (kl pool ∉ writes q) -> (ke pool ∉ writes q) -> idle_of pool v' = idle_of pool v.
Proof.
  intros He H1 H2. destruct (effect_writes _ _ _ _ _ He) as [_ Hw].
  apply idle_of_ext; by apply Hw.
Qed.

Lemma filter_sublist_length {A} (P Q : A -> Prop) `{!forall x, Decision (P x)} `{!forall x, Decision (Q x)}
    (l1 l2 : list A) :
  sublist l1 l2 -> (forall x, P x -> Q x) -> (length (filter P l1) <= length (filter Q l2))%nat.
Proof.
  intros Hs HPQ. induction Hs as [|x l1 l2 Hs IH|x l1 l2 Hs IH]; [done|..]; rewrite !filter_cons.
  - destruct (decide (P x)) as [Hp|Hp]; [rewrite decide_True by auto; simpl; lia|].
    destruct (decide (Q x)); simpl; lia.
  - destruct (decide (Q x)); simpl; lia.
Qed.

Lemma take_idle_facts pool ms taken ds v v' :
  take_ref (now_ms v) (now_ms v + ms) [] (list_at v (kl pool)) (hash_at v (ke pool)) =
    (taken, ds, list_at v' (kl pool), hash_at v' (ke pool)) ->
  idle_of pool v' ⊆ idle_of pool v /\
  match taken with
  | Some id => id ∈ idle_of pool v /\ (id ∉ idle_of pool v') /\
               (length (idle_of pool v') < length (idle_of pool v))%nat
  | None => idle_of pool v' = []
  end.
Proof.
  intros Ht. pose proof (take_ref_sublist _ _ _ _ _ _ _ _ _ Ht) as Hsub.
  apply take_ref_spec in Ht as [Hh Hc]. unfold idle_of. split.
  - intros i. rewrite !list_elem_of_filter. intros [Hi Hin]. split; [by apply Hh|].
    by eapply elem_of_sublist.
  - destruct taken as [id|]; [|by rewrite Hc]. destruct Hc as ([pre Hq] & Hid & Hno). rewrite Hq. split_and!.
    + apply list_elem_of_filter. split; [done|]. set_solver.
    + rewrite list_elem_of_filter, Hno. by intros [[] _].
    + rewrite filter_app, length_app, filter_cons_True by done. simpl.
      enough (length (filter (fun i => is_Some (hash_at v' (ke pool) !! i)) (list_at v' (kl pool))) <=
        length (filter (fun i => is_Some (hash_at v (ke pool) !! i)) (list_at v' (kl pool))))%nat by lia.
      by apply filter_sublist_length.
Qed.

Lemma take_not_lift pool keys argv sc : ~ lifts_fence pfx pool (Serve (EVAL sc keys argv)).
Proof. by intros (x & px & ?). Qed.

(** A take on a quiet store, with whatever gets lost. *)
Lemma wp_redis_take pool s :
  redis_wf s ->
  wp (rs_try_take_idle pool) (fun r s' =>
    redis_wf s' /\ (fence pfx pool (the_view s) -> fence pfx pool (the_view s')) /\
    match r with
    | Ok (Some id) => id ∈ idle_of pool (the_view s) /\ (id ∉ idle_of pool (the_view s')) /\
        idle_of pool (the_view s') ⊆ idle_of pool (the_view s) /\
        (length (idle_of pool (the_view s')) < length (idle_of pool (the_view s)))%nat
    | Ok None => idle_of pool (the_view s') = []
    | Raise _ => idle_of pool (the_view s') ⊆ idle_of pool (the_view s)
    end) s.
Proof.
  intros Hwf. apply wp_and; [apply keeps_redis_wf; [apply keeps_take, named_stable|done]|].
  destruct Hwf as (Hs & Hq & Hn). unfold rs_try_take_idle, eval_take_idle. apply wp_bind, wp_bind, wp_execute.
  apply (wp_pool_key pfx); [apply Hs|done|]. intros _. apply (wp_pool_key pfx); [apply Hs|done|]. intros _.
  apply wp_send_quiet; [done|done|rewrite str_of_int_0; by constructor|..].
  - intros s' name _ _ Hnet. simpl. unfold the_view. by rewrite Hnet.
  - intros rep s' x _ _ He Hx.
    assert (fence pfx pool (the_view s) -> fence pfx pool (the_view s')) as Hf
      by (eapply effect_fence; [exact He|apply take_not_lift]).
    inversion He as [p ms taken ds v' Hms Ht Hto| | | | | | | | | | | | | | | | | | | | | | | |].
    subst. same_pool. pose proof (take_idle_facts _ _ _ _ _ _ Ht) as [Hsub Hc].
    destruct Hx as [->|[name ->]]; [|by simpl].
    rewrite decode_take_reply.
    + apply wp_ret, wp_ret. simpl. split; [done|]. by destruct taken; [destruct Hc as (? & ? & ?)|].
    + intros ->. apply take_ref_spec in Ht as [_ ([pre Hq'] & _)]. apply (Hn pool).
      change (view (srv (rs_net s))) with (the_view s). rewrite Hq'. set_solver.
Qed.

Lemma wp_idle_begin_destroy pool owner s : redis_wf s ->
  wp (rs_begin_destroy pool owner) (fun r s' =>
    redis_wf s' /\ idle_of pool (the_view s') = idle_of pool (the_view s) /\
    match r with Ok _ => fence pfx pool (the_view s') | Raise _ => True end) s.
Proof.
  intros Hwf. apply wp_and; [apply keeps_redis_wf; [apply (keeps_op pfx named named_stable (OpBeginDestroy pool owner))|done]|].
  destruct Hwf as (Hs & Hq & _). unfold rs_begin_destroy. destruct (is_blank owner); [by wp_step|].
  apply wp_execute. apply (wp_pool_key pfx); [apply Hs|done|]. intros _.
  apply (wp_pool_key pfx); [apply Hs|done|]. intros _. apply wp_bind, wp_send_quiet; [done|done|constructor|..].
  - intros s' name _ _ Hnet. unfold the_view. by rewrite Hnet.
  - intros rep s' x _ _ He Hx.
    assert (idle_of pool (the_view s') = idle_of pool (the_view s)) as Hi.
    { eapply idle_of_effect; [exact He|..]; cbn [writes]; rewrite !not_elem_of_cons;
        split_and!; try (by apply key_ne; right); set_solver. }
    destruct Hx as [->|[name ->]]; [|done].
    destruct (equals_int (-1) rep) eqn:Heq; wp_step; [done|]. split; [done|].
    inversion He; subst; same_pool; [done|]. by eexists.
Qed.

Lemma wp_idle_destroy_state pool s : redis_wf s ->
  wp (rs_get_destroy_state pool) (fun _ s' =>
    redis_wf s' /\ idle_of pool (the_view s') = idle_of pool (the_view s) /\
    (fence pfx pool (the_view s) -> fence pfx pool (the_view s'))) s.
Proof.
  intros Hwf. apply wp_and; [apply keeps_redis_wf; [apply keeps_destroy_state, named_stable|done]|].
  destruct Hwf as (Hs & Hq & _). unfold rs_get_destroy_state. apply wp_bind, wp_execute.
  apply (wp_pool_key pfx); [apply Hs|done|]. intros _.
  apply wp_send_quiet; [done|done|constructor; unfold read_suffixes; set_solver|..].
  - intros s' name _ _ Hnet. unfold the_view. by rewrite Hnet.
  - intros rep s' x _ _ He Hx.
    assert (idle_of pool (the_view s') = idle_of pool (the_view s) /\
      (fence pfx pool (the_view s) -> fence pfx pool (the_view s'))) as Hi.
    { split; [by eapply idle_of_effect; [exact He|set_solver|set_solver]|].
      eapply effect_fence; [exact He|]. by intros (? & ? & ?). }
    destruct Hx as [->|[name ->]]; [|done]. by wp_step.
Qed.

(** Reading requests change nothing. *)
Lemma read_effect pool q rep v v' : effect pfx v q rep v' -> writes q = [] -> fence pfx pool v ->
  fence pfx pool v' /\ idle_of pool v' = idle_of pool v.
Proof.
  intros He Hw Hf. split.
  - eapply effect_fence; [exact He| |done]. intros (x & px & [= ->]). done.
  - eapply idle_of_effect; [exact He|rewrite Hw; set_solver|rewrite Hw; set_solver].
Qed.

(** Refused or lost, with the pool as it was. *)
Definition kept_out {A} pool (v : rview) (r : res exc A) s : Prop :=
  is_ok r = false /\ fence pfx pool (the_view s) /\ idle_of pool (the_view s) = idle_of pool v.

Lemma kept_out_lost {A} pool e s s' :
  fence pfx pool (the_view s) -> rs_net s' = rs_net s -> kept_out (A := A) pool (the_view s) (Raise e) s'.
Proof. intros Hf Hn. unfold kept_out, the_view. by rewrite Hn. Qed.

(** The script of a put on a fenced pool. *)
Lemma wp_fenced_put_script pool id ms s : client_ok pfx s -> quiet s -> is_blank id = false -> 0 < ms ->
  fence pfx pool (the_view s) ->
  wp (execute (
        k1 <-- rs_idle_list_key pool ;; k2 <-- rs_idle_expires_key pool ;; k3 <-- rs_destroy_state_key pool ;;
        eval_fenced_write pool PUT_IDLE_SCRIPT [k1; k2; k3] [id; str_of_int ms]))
     (kept_out pool (the_view s)) s.
Proof.
  intros Hs Hq Hid Hms Hf. apply wp_execute. do 3 (apply (wp_pool_key pfx); [apply Hs|done|]; intros _).
  apply wp_bind, wp_send_quiet; [done|done|by constructor|..].
  { intros s' name _ _ Hnet. by apply kept_out_lost. }
  intros rep s1 x Hs1 Hq1 He Hx.
  assert (rep = RInt (-1) /\ touches [] (the_view s) (the_view s1)) as [-> Hto].
  { destruct (fence_str _ _ _ Hf) as [st Hst]. inversion He; subst; same_pool; try congruence; done. }
  assert (fence pfx pool (the_view s1)) as Hf1 by (eapply effect_fence; [exact He|apply take_not_lift|done]).
  assert (idle_of pool (the_view s1) = idle_of pool (the_view s)) as Hi1.
  { destruct Hto as [_ Hto]. apply idle_of_ext; apply Hto; set_solver. }
  destruct Hx as [->|[name ->]]; [|done]. simpl. apply wp_bind. unfold rs_get_destroy_state.
  apply wp_bind, wp_execute. apply (wp_pool_key pfx); [apply Hs1|done|]. intros _.
  apply wp_send_quiet; [done|done|constructor; unfold read_suffixes; set_solver|..].
  { intros s' name _ _ Hnet. unfold kept_out, the_view. by rewrite Hnet. }
  intros rep3 s3 x3 _ _ He3 Hx3. destruct (read_effect pool _ _ _ _ He3 eq_refl Hf1) as [Hf3 Hi3].
  rewrite Hi1 in Hi3. destruct Hx3 as [->|[name ->]]; [|done]. wp_step. by wp_step.
Qed.

(** A put on a fenced pool: refused by the script, or lost on the way. *)
Lemma wp_fenced_put pool id s : redis_wf s -> fence pfx pool (the_view s) ->
  wp (rs_put_idle pool id) (fun r s' => redis_wf s' /\ kept_out pool (the_view s) r s') s.
Proof.
  intros Hwf Hf. apply wp_and; [apply keeps_redis_wf; [apply keeps_put, named_stable|done]|].
  unfold rs_put_idle. destruct (is_blank id) eqn:Hid; [by wp_step|].
  destruct Hwf as (Hs & Hq & _). apply wp_bind. unfold rs_resolve_idle_ttl. apply wp_bind, wp_execute.
  apply (wp_pool_key pfx); [apply Hs|done|]. intros _.
  apply wp_send_quiet; [done|done|constructor; unfold read_suffixes; set_solver|..].
  { intros s' name _ _ Hnet. by apply kept_out_lost. }
  intros rep s1 x Hs1 Hq1 He Hx. destruct (read_effect pool _ _ _ _ He eq_refl Hf) as [Hf1 Hi1].
  destruct Hx as [->|[name ->]]; [|done].
  assert (forall ttl, wp (execute (
      k1 <-- rs_idle_list_key pool ;; k2 <-- rs_idle_expires_key pool ;; k3 <-- rs_destroy_state_key pool ;;
      eval_fenced_write pool PUT_IDLE_SCRIPT [k1; k2; k3] [id; str_of_int (Z.max 1 (millis_ ttl))]) ;;;
    ret tt) (kept_out pool (the_view s)) s1) as Hput.
  { intros ttl. apply wp_bind. eapply wp_mono; [apply wp_fenced_put_script; [done|done|done|lia|done]|].
    unfold kept_out. rewrite Hi1. by intros [a|e] s2 (? & ? & ?). }
  apply wp_bind, wp_gets.
  destruct rep as [|z|t|t|l]; cbn [decode_]; try (apply wp_ret, Hput).
  all: destruct (int_of_str _); [|apply wp_ret, Hput]; unfold timedelta_ms; case_match;
    [apply wp_ret, Hput|by wp_step].
Qed.

Lemma wp_idle_clear pool s : redis_wf s ->
  wp (rs_clear_pool_state pool) (fun r s' =>
    redis_wf s' /\ (fence pfx pool (the_view s) -> fence pfx pool (the_view s')) /\
    match r with Ok _ => idle_of pool (the_view s') = [] | Raise _ => True end) s.
Proof.
  intros Hwf. apply wp_and; [apply keeps_redis_wf; [apply (keeps_op pfx named named_stable (OpClear pool))|done]|].
  destruct Hwf as (Hs & Hq & _). unfold rs_clear_pool_state. apply wp_bind, wp_execute.
  do 5 (apply (wp_pool_key pfx); [apply Hs|done|]; intros _).
  apply wp_send_quiet; [done|done|constructor|..].
  - intros s' name _ _ Hnet. unfold the_view. by rewrite Hnet.
  - intros rep s' x _ _ He Hx.
    assert (fence pfx pool (the_view s) -> fence pfx pool (the_view s')) as Hf
      by (eapply effect_fence; [exact He|by intros (? & ? & ?)]).
    destruct Hx as [->|[name ->]]; [|done]. wp_step. split; [done|].
    inversion He; subst; same_pool. unfold idle_of, list_at, value_at.
    match goal with H : forall k, _ -> v_db _ !! k = None |- _ => by rewrite H by set_solver end.
Qed.

Lemma idle_of_str_effect pool p sfx v q rep v' :
  effect pfx v q rep v' -> writes q = [pool_key_of pfx p sfx] ->
  sfx <> idle_list_suffix -> sfx <> idle_expires_suffix -> idle_of pool v' = idle_of pool v.
Proof.
  intros He Hw H1 H2. eapply idle_of_effect; [exact He|..]; rewrite Hw, not_elem_of_cons;
    (split; [apply key_ne; right; congruence|set_solver]).
Qed.

(** The marker is written, or a request got lost; the idle ids stay. *)
Definition marked pool (v : rview) (r : res exc unit) s : Prop :=
  idle_of pool (the_view s) = idle_of pool v /\
  match r with
  | Ok _ => str_at (the_view s) (ks pool) = Some (destroy_state_value DESTROYED)
  | Raise _ => True
  end.

Lemma wp_tombstone pool owner (px : option Z) s :
  client_ok pfx s -> quiet s -> match px with Some n => 0 < n | None => True end ->
  wp (execute (k <-- rs_destroy_state_key pool ;;
               send (Cmd (SET k (destroy_state_value DESTROYED) (str_of_int <$> px))) ;;;
               k <-- rs_destroy_owner_key pool ;;
               send (Cmd (SET k owner (str_of_int <$> px)))) ;;; ret tt)
     (marked pool (the_view s)) s.
Proof.
  intros Hs Hq Hpx. unfold marked. apply wp_bind, wp_execute. apply (wp_pool_key pfx); [apply Hs|done|]. intros _.
  apply wp_bind, wp_send_quiet; [done|done|by apply sq_tombstone|..].
  { intros s' name _ _ Hnet. unfold the_view. by rewrite Hnet. }
  intros rep s1 x Hs1 Hq1 He Hx.
  pose proof (idle_of_str_effect pool pool destroy_state_suffix _ _ _ _ He eq_refl ltac:(done) ltac:(done)) as Hi1.
  destruct Hx as [->|[name ->]]; [|done]. apply (wp_pool_key pfx); [apply Hs1|done|]. intros _.
  apply wp_send_quiet; [done|done|by apply sq_tomb_owner|..].
  { intros s' name _ _ Hnet. unfold the_view in *. by rewrite Hnet. }
  intros rep2 s2 x2 _ _ He2 Hx2.
  pose proof (idle_of_str_effect pool pool destroy_owner_suffix _ _ _ _ He2 eq_refl ltac:(done) ltac:(done)) as Hi2.
  rewrite Hi1 in Hi2. destruct Hx2 as [->|[name ->]]; [|done]. wp_step. split; [done|].
  assert (v_db (the_view s2) !! ks pool = v_db (the_view s1) !! ks pool) as Hk.
  { apply (effect_writes _ _ _ _ _ He2). cbn [writes]. rewrite not_elem_of_cons.
    split; [by apply key_ne; right|set_solver]. }
  rewrite (str_at_ext _ _ _ Hk). inversion He; subst; same_pool; [|exfalso].
  - unfold str_at, value_at. match goal with H : v_db _ !! ks pool = _ |- _ => by rewrite H end.
  - match goal with H : pool_key_of _ _ _ = pool_key_of _ _ _ |- _ => by apply pool_key_of_inj in H as [_ H] end.
Qed.

Lemma wp_idle_mark pool owner ttl s : redis_wf s ->
  wp (rs_mark_destroyed pool owner ttl) (fun r s' => redis_wf s' /\ marked pool (the_view s) r s') s.
Proof.
  intros Hwf. apply wp_and; [apply keeps_redis_wf; [apply keeps_mark, named_stable|done]|].
  destruct Hwf as (Hs & Hq & _). unfold rs_mark_destroyed. destruct (is_blank owner); [by wp_step|].
  destruct ttl as [t|]; [destruct (t <=? 0); [by wp_step|]|].
  - apply (wp_tombstone pool owner (Some (Z.max 1 (millis_ t)))); [done|done|lia].
  - by apply (wp_tombstone pool owner None).
Qed.
End refine.

(** The stores with key prefix [pfx] discharge the interface. *)
#[program] Definition Redis_laws {R} `{!Redis R} `{!RedisLaws R} (pfx : string) :
    PoolStoreLaws (RedisPoolStateStore R) := {|
  st_wf := redis_wf pfx;
  idle_ids s pool := idle_of pfx pool (the_view s);
  fenced s pool := fence pfx pool (the_view s);
  tombstoned s pool := str_at (the_view s) (pool_key_of pfx pool destroy_state_suffix) =
                         Some (destroy_state_value DESTROYED);
|}.
Next Obligation. intros R HR HL pfx pool s Hwf. exact (wp_redis_take _ _ _ Hwf). Qed.
Next Obligation. intros R HR HL pfx pool owner s Hwf. exact (wp_idle_begin_destroy _ _ _ _ Hwf). Qed.
Next Obligation.
  intros R HR HL pfx pool id s Hwf Hf. eapply wp_mono; [exact (wp_fenced_put _ _ _ _ Hwf Hf)|].
  by intros r s' (? & ? & ? & ?).
Qed.
Next Obligation.
  intros R HR HL pfx pool s Hwf. eapply wp_mono; [exact (wp_idle_destroy_state _ _ _ Hwf)|].
  by intros r s' (? & ? & _).
Qed.
Next Obligation. intros R HR HL pfx pool s Hwf. exact (wp_idle_clear _ _ _ Hwf). Qed.
Next Obligation.
  intros R HR HL pfx pool owner ttl s Hwf. eapply wp_mono; [exact (wp_idle_mark _ _ _ _ _ Hwf)|].
  by intros r s' (? & ? & ?).
Qed.

(** ** Runs on a concrete server *)

Local Abbreviation redis_store := (RedisPoolStateStore ModelRedis.t).
Local Abbreviation key := (pool_key_of DEFAULT_KEY_PREFIX).

Definition take_request (pool : string) (ms : Z) : request :=
  EVAL TAKE_IDLE_SCRIPT [key pool idle_list_suffix; key pool idle_expires_suffix] [str_of_int ms].

Definition put_request (pool id : string) (ttl : Z) : request :=
  EVAL PUT_IDLE_SCRIPT [key pool idle_list_suffix; key pool idle_expires_suffix; key pool destroy_state_suffix]
    [id; str_of_int ttl].

Definition acquire_request (pool owner : string) (px : Z) : request :=
  EVAL ACQUIRE_LOCK_SCRIPT [key pool primary_lock_suffix; key pool destroy_state_suffix] [owner; str_of_int px].

(** A fresh server, another client that puts and takes, and a lost reply. *)
Definition demo_others (i : nat) : list step :=
  match i with
  | 3%nat => [Serve (put_request "p" "b" 60000); Elapse 1000]
  | 5%nat => [Serve (take_request "p" 0)]
  | _ => []
  end.

Definition demo_redis : redis_store :=
  init_redis_store (ModelRedis.start (seconds 1700000000)) demo_others
    (fun i => if Nat.eqb i 4 then LostReply "TimeoutError" else NoFault) DEFAULT_KEY_PREFIX.

Lemma demo_others_ok i : Forall (step_ok DEFAULT_KEY_PREFIX) (others demo_redis i).
Proof.
  destruct i as [|[|[|[|[|[|i]]]]]]; repeat constructor; simpl; try lia.
Qed.

Lemma demo_redis_ok : client_ok DEFAULT_KEY_PREFIX demo_redis.
Proof. apply fresh_client; [done|apply demo_others_ok|done]. Qed.

Lemma redis_no_double_handout_witness :
  let h := hist (rs_net (call_ops [OpPut "p" "a"; OpPut "p" "b"; OpTake "p"; OpTake "p"] demo_redis)) in
  (count "a" (flat_map (handed DEFAULT_KEY_PREFIX "p") h) <=
   count "a" (flat_map (accepted DEFAULT_KEY_PREFIX "p") h))%nat /\
  flat_map (handed DEFAULT_KEY_PREFIX "p") h = ["a"; "b"].
Proof.
  split; [|vm_compute; reflexivity].
  apply (redis_no_double_handout DEFAULT_KEY_PREFIX demo_redis); [done|apply demo_others_ok|done].
Defined.

(** Two seconds after [o1] took the lock for ten, [o2] asks for it. *)
Definition demo_contention : list step := [Elapse (seconds 2); Serve (acquire_request "p" "o2" 5000)].

Definition demo_locked : redis_store := (lock_op false "p" "o1" (seconds 10) demo_redis).2.

Lemma demo_contention_ok :
  Forall (step_ok DEFAULT_KEY_PREFIX) demo_contention /\
  Forall (fun st => ~ step_surrenders DEFAULT_KEY_PREFIX "p" "o1" 10000 st) demo_contention.
Proof.
  split; (apply Forall_cons; split; [|apply Forall_singleton]); simpl; [done|apply sq_acquire; lia|tauto|].
  intros [H|[(px & _ & [H|H])|(l & H & _)]]; done.
Qed.

Lemma redis_lock_exclusive_witness :
  let n' := run_steps demo_contention (rs_net demo_locked) in
  str_at (view (srv n')) (key "p" primary_lock_suffix) = Some "o1" /\
  exists new, hist n' = (hist (rs_net demo_locked) ++ new)%list /\
              Forall (refused DEFAULT_KEY_PREFIX "p" "o1") new.
Proof.
  apply (redis_lock_exclusive DEFAULT_KEY_PREFIX false "p" "o1" (seconds 10) demo_redis demo_locked).
  - apply demo_redis_ok.
  - unfold demo_locked. rewrite (surjective_pairing (lock_op _ _ _ _ _)). apply f_equal2; [vm_compute; reflexivity|reflexivity].
  - apply demo_contention_ok.
  - assert (Z.max 1 (millis_ (seconds 10)) = 10000) as -> by (vm_compute; reflexivity).
    apply demo_contention_ok.
  - assert (Z.max 1 (millis_ (seconds 10)) = 10000) as -> by (vm_compute; reflexivity). vm_compute. done.
Defined.

Definition demo_destroying : redis_store :=
  (rs_begin_destroy "p" "m" (call_ops [OpPut "p" "a"] demo_redis)).2.

Lemma redis_destroy_fence_witness :
  let steps := [Serve (put_request "p" "z" 1000); Serve (take_request "p" 0)] in
  let n' := run_steps steps (rs_net demo_destroying) in
  (exists new, hist n' = (hist (rs_net demo_destroying) ++ new)%list /\
               Forall (fence_respected DEFAULT_KEY_PREFIX "p") new) /\
  forall id, is_Some (hash_at (view (srv n')) (key "p" idle_expires_suffix) !! id) ->
             is_Some (hash_at (view (srv (rs_net demo_destroying))) (key "p" idle_expires_suffix) !! id).
Proof.
  intros steps.
  apply (redis_destroy_fence DEFAULT_KEY_PREFIX "p" "m" (call_ops [OpPut "p" "a"] demo_redis) demo_destroying).
  - apply (call_ops_keep DEFAULT_KEY_PREFIX (fun _ => True)); [done|apply demo_redis_ok|done].
  - unfold demo_destroying. rewrite (surjective_pairing (rs_begin_destroy _ _ _)). apply f_equal2; [vm_compute; reflexivity|reflexivity].
  - repeat (apply Forall_cons; split); try apply Forall_nil_2; [by apply sq_put|by apply sq_take].
  - repeat (apply Forall_cons; split); try apply Forall_nil_2; by intros (? & ? & ?).
Defined.

(** A pool with two idle sandboxes and its in-memory counterpart. *)
Definition demo_two : redis_store :=
  call_ops [OpSetTtl "p" (seconds 5); OpPut "p" "a"; OpSetTtl "p" (seconds 50); OpPut "p" "b"]
    (init_redis_store (ModelRedis.start (seconds 1700000000)) (fun _ => []) (fun _ => NoFault) DEFAULT_KEY_PREFIX).

Definition demo_two_idle : PoolIdleState :=
  mkIdle [("a", {| ie_sandbox_id := "a"; ie_expires_at := 1700000005000 |});
          ("b", {| ie_sandbox_id := "b"; ie_expires_at := 1700000050000 |})] ["a"; "b"].

Lemma demo_two_hash :
  hash_at (the_view demo_two) (key "p" idle_expires_suffix) =
  <["a" := "1700000005000"]> (<["b" := "1700000050000"]> ∅).
Proof. vm_compute. reflexivity. Qed.

Lemma demo_two_ok : client_ok DEFAULT_KEY_PREFIX demo_two.
Proof.
  apply (call_ops_keep DEFAULT_KEY_PREFIX (fun _ => True)); [done| |done].
  apply fresh_client; [done|constructor|done].
Qed.

Definition demo_loop : TakeIdleResult * PoolIdleState :=
  take_min_loop 1700000000000 1700000010000 [] (queue demo_two_idle) (entries demo_two_idle).

Lemma redis_take_is_in_memory_take_witness :
  exists s', rs_try_take_idle_min_ttl "p" (seconds 10) demo_two =
    (Ok {| ti_sandbox_id := Some "b"; ti_discarded_alive := ["a"] |}, s') /\
  list_at (the_view s') (key "p" idle_list_suffix) = [] /\
  same_idle (hash_at (the_view s') (key "p" idle_expires_suffix)) [].
Proof.
  assert (same_idle (hash_at (the_view demo_two) (key "p" idle_expires_suffix)) (entries demo_two_idle)) as Hsame.
  { rewrite demo_two_hash. intros id. simpl.
    destruct (decide (id = "a")) as [->|Ha]; [by rewrite lookup_insert_eq|].
    rewrite lookup_insert_ne by congruence.
    destruct (decide (id = "b")) as [->|Hb]; [by rewrite lookup_insert_eq|].
    rewrite lookup_insert_ne by congruence. done. }
  change (exists s', rs_try_take_idle_min_ttl "p" (seconds 10) demo_two = (Ok demo_loop.1, s') /\
    list_at (the_view s') (key "p" idle_list_suffix) = queue demo_loop.2 /\
    same_idle (hash_at (the_view s') (key "p" idle_expires_suffix)) (entries demo_loop.2)).
  pose proof (redis_take_is_in_memory_take DEFAULT_KEY_PREFIX "p" (seconds 10) demo_two demo_two_idle
    demo_two_ok (fun i => eq_refl) ltac:(vm_compute; reflexivity) eq_refl ltac:(vm_compute; reflexivity)
    ltac:(vm_compute; reflexivity) Hsame ltac:(simpl; set_solver)) as H.
  assert (now_ms (the_view demo_two) = 1700000000000) as Hn by (vm_compute; reflexivity).
  assert (Z.max 0 (millis_ (seconds 10)) = 10000) as Hm by (vm_compute; reflexivity).
  cbv zeta in H. rewrite Hn, Hm in H. exact H.
Defined.

(** ** Where the code does something else *)

(** [remove_idle] is two requests: a put of the same id between them leaves the id
    in the hash and out of the list.  It is counted as idle but never handed out. *)
Definition racing_redis : redis_store :=
  call_ops [OpPut "p" "a"; OpRemove "p" "a"]
    (init_redis_store (ModelRedis.start (seconds 1700000000))
       (fun i => if Nat.eqb i 3 then [Serve (put_request "p" "a" 60000)] else []) (fun _ => NoFault)
       DEFAULT_KEY_PREFIX).

Lemma remove_idle_race_strands :
  (rs_snapshot_counters "p" racing_redis).1 = Ok {| sc_idle_count := 1 |} /\
  (rs_snapshot_idle_entries "p" racing_redis).1 = Ok [] /\
  (rs_try_take_idle "p" racing_redis).1 = Ok None /\
  (rs_snapshot_counters "p" (rs_try_take_idle "p" racing_redis).2).1 = Ok {| sc_idle_count := 1 |}.
Proof. split_and!; vm_compute; reflexivity. Qed.

(** The detour through floating-point seconds loses a millisecond. *)
Lemma millis_loses_one : millis_ (milliseconds 1001) = 1000 /\ millis_ (milliseconds 1000) = 1000.
Proof. split; vm_compute; reflexivity. Qed.

(** Putting an id whose entry has expired but was not reaped yet: the in-memory
    store ignores it and the sandbox is lost to the pool; Redis stores it afresh. *)
Lemma stores_differ_on_expired_put :
  let clock n := if Nat.leb n 0 then 0 else seconds 10 in
  let im := (run_ops [OpSetTtl "p" (seconds 1); OpPut "p" "a"; OpPut "p" "a"] (init_store clock)).2 in
  let rs := call_ops [OpSetTtl "p" (seconds 1); OpPut "p" "a"; OpPut "p" "a"]
    (init_redis_store (ModelRedis.start 0)
       (fun i => if Nat.eqb i 3 then [Elapse (seconds 10)] else []) (fun _ => NoFault) DEFAULT_KEY_PREFIX) in
  (im_try_take_idle "p" im).1 = Ok None /\ (rs_try_take_idle "p" rs).1 = Ok (Some "a").
Proof. split; vm_compute; reflexivity. Qed.
