(* ===== verification/AsyncStores.v ===== *)
(** * The asyncio stores

    [sdks/sandbox/python/src/opensandbox/_async_pool_store.py] and
    [async_redis_pool_store.py].  Their methods are the methods of the synchronous
    stores with [await] in front of the calls; where a body has the same text it is
    the definition of [PoolStore] or [RedisStore] run in the state of the
    asynchronous store.  What differs is modelled here: the lock of the in-memory
    store is an [asyncio.Lock], which its holder cannot take again, and the Redis
    store sends the two requests of [remove_idle] together. *)

From Stdlib Require Import ZArith Lia String.
From stdpp Require Import base numbers strings gmap list.
From S2P Require Import Prelude PyString PyText PyCodec PoolTypes PoolStore RedisServer.
From S2P Require Import RedisStore RedisProtocol RedisSafety RedisRefine.

Open Scope string_scope.
Open Scope Z_scope.

(** ** Answers of the store interface *)

Inductive answer :=
  | AUnit
  | ABool (b : bool)
  | AId (id : option string)
  | ATake (r : TakeIdleResult)
  | AIds (l : list string)
  | ACount (c : StoreCounters)
  | AEntries (l : list IdleEntry)
  | AState (st : PoolDestroyState).

(** One operation of a store with its answer. *)
Definition call_answer {St} `{!PoolStateStore St} (op : store_op) : M St exc answer :=
  let unit (m : M St exc unit) := m ;;; ret AUnit in
  match op with
  | OpTake p => r <-- try_take_idle p ;; ret (AId r)
  | OpTakeMin p ttl => r <-- try_take_idle_with_min_ttl p (Some ttl) ;; ret (ATake r)
  | OpPut p id => unit (put_idle p id)
  | OpRemove p id => unit (remove_idle p id)
  | OpAcquireLock p o ttl => r <-- try_acquire_primary_lock p o ttl ;; ret (ABool r)
  | OpRenewLock p o ttl => r <-- renew_primary_lock p o ttl ;; ret (ABool r)
  | OpReleaseLock p o => unit (release_primary_lock p o)
  | OpReap p now => unit (reap_expired_idle p now)
  | OpReapMin p now ttl => r <-- reap_expired_idle_with_min_ttl p now (Some ttl) ;; ret (AIds r)
  | OpCounters p => r <-- snapshot_counters p ;; ret (ACount r)
  | OpEntries p => r <-- snapshot_idle_entries p ;; ret (AEntries r)
  | OpSetMaxIdle p n => unit (set_max_idle p n)
  | OpSetTtl p ttl => unit (set_idle_entry_ttl p ttl)
  | OpGetDestroy p => r <-- get_destroy_state p ;; ret (AState r)
  | OpBeginDestroy p o => unit (begin_destroy p o)
  | OpClear p => unit (clear_pool_state p)
  | OpMarkDestroyed p o ttl => unit (mark_destroyed p o ttl)
  end.

(** ** The in-memory asyncio store *)

Record InMemoryAsyncPoolStateStore := mkAsyncStore {
  as_locked : bool;
  as_inner : InMemoryPoolStateStore;
}.

Local Abbreviation AM A := (M InMemoryAsyncPoolStateStore exc A).

(** Code that reads and writes the fields, with or without the lock. *)
Definition inside {A} (m : M InMemoryPoolStateStore exc A) : AM A :=
  zoom as_inner (fun st s => mkAsyncStore (as_locked s) st) m.

(** [async with self._lock: body].  No body awaits anything but the lock, so a task
    that finds it taken holds it itself and waits for ever. *)
Definition with_lock {A} (body : AM A) : AM A := fun s =>
  if as_locked s then (Raise (NonException "deadlock"), s)
  else let '(r, s') := body (mkAsyncStore true (as_inner s)) in (r, mkAsyncStore false (as_inner s')).

Definition aio_try_take_idle (pool : string) : AM (option string) :=
  with_lock (inside (im_try_take_idle pool)).

Definition aio_try_take_idle_min_ttl (pool : string) (min_ttl : Z) : AM TakeIdleResult :=
  if min_ttl <=? 0 then
    id <-- aio_try_take_idle pool ;;
    ret {| ti_sandbox_id := id; ti_discarded_alive := [] |}
  else with_lock (inside (im_try_take_idle_min_ttl pool min_ttl)).

Definition get_destroy_state_locked (pool : string) : AM PoolDestroyState :=
  inside (im_get_destroy_state pool).

Definition aio_reject_if_destroyed_locked (pool : string) : AM unit :=
  st <-- get_destroy_state_locked pool ;;
  if bool_decide (st = ACTIVE) then ret tt else throw (PoolDestroyedException st).

Definition aio_get_destroy_state (pool : string) : AM PoolDestroyState :=
  with_lock (get_destroy_state_locked pool).

Definition aio_put_idle (pool sandbox_id : string) : AM unit :=
  if is_blank sandbox_id then throw (ValueError "sandbox_id must not be blank")
  else with_lock (
    aio_reject_if_destroyed_locked pool ;;;
    inside (
      st <-- gets (fun s => default (mkIdle [] []) (pools s !! pool)) ;;
      now <-- now_ ;;
      ttl <-- gets (resolve_idle_ttl pool) ;;
      let q := if od_mem sandbox_id (entries st) then queue st
               else (queue st ++ [sandbox_id])%list in
      let es := if od_mem sandbox_id (entries st) then entries st
                else od_set sandbox_id
                       {| ie_sandbox_id := sandbox_id; ie_expires_at := now + ttl |} (entries st) in
      modify (put_pool pool (mkIdle es q)))).

Definition aio_remove_idle (pool sandbox_id : string) : AM unit :=
  with_lock (inside (im_remove_idle pool sandbox_id)).

Definition aio_try_acquire_primary_lock (pool owner : string) (ttl : Z) : AM bool :=
  st <-- aio_get_destroy_state pool ;; ret (bool_decide (st = ACTIVE)).

Definition aio_renew_primary_lock (pool owner : string) (ttl : Z) : AM bool :=
  st <-- aio_get_destroy_state pool ;; ret (bool_decide (st = ACTIVE)).

Definition aio_release_primary_lock (pool owner : string) : AM unit := ret tt.

Definition aio_reap_expired_idle (pool : string) (now : Z) : AM unit :=
  with_lock (inside (reap_locked pool now)).

Definition aio_reap_expired_idle_min_ttl (pool : string) (now min_ttl : Z) : AM (list string) :=
  if min_ttl <=? 0 then aio_reap_expired_idle pool now ;;; ret []
  else with_lock (inside (im_reap_expired_idle_min_ttl pool now min_ttl)).

Definition aio_snapshot_counters (pool : string) : AM StoreCounters :=
  with_lock (inside (im_snapshot_counters pool)).

Definition aio_snapshot_idle_entries (pool : string) : AM (list IdleEntry) :=
  with_lock (inside (im_snapshot_idle_entries pool)).

Definition aio_get_max_idle (pool : string) : AM (option Z) := ret None.

Definition aio_set_max_idle (pool : string) (n : Z) : AM unit :=
  with_lock (aio_reject_if_destroyed_locked pool).

Definition aio_set_idle_entry_ttl (pool : string) (ttl : Z) : AM unit :=
  if ttl <=? 0 then throw (ValueError "idle_ttl must be positive")
  else with_lock (
    aio_reject_if_destroyed_locked pool ;;;
    inside (modify (fun s => set_idle_ttls (<[pool := ttl]> (idle_ttl_by_pool s)) s))).

Definition aio_begin_destroy (pool owner : string) : AM unit :=
  if is_blank owner then throw (ValueError "owner_id must not be blank")
  else with_lock (
    existing <-- get_destroy_state_locked pool ;;
    if bool_decide (existing = DESTROYED) then throw (PoolDestroyedException DESTROYED)
    else inside (modify (fun s => set_destroys
           (<[pool := {| dse_state := DESTROYING; dse_expires_at := None;
                         dse_owner_id := owner |}]> (destroy_state_by_pool s)) s))).

Definition aio_clear_pool_state (pool : string) : AM unit :=
  with_lock (inside (im_clear_pool_state pool)).

Definition aio_mark_destroyed (pool owner : string) (tombstone_ttl : option Z) : AM unit :=
  if is_blank owner then throw (ValueError "owner_id must not be blank")
  else if match tombstone_ttl with Some ttl => ttl <=? 0 | None => false end
  then throw (ValueError "tombstone_ttl must be positive")
  else with_lock (inside (im_mark_destroyed pool owner tombstone_ttl)).

#[global] Instance InMemoryAsync_store : PoolStateStore InMemoryAsyncPoolStateStore := {
  try_take_idle := aio_try_take_idle;
  put_idle := aio_put_idle;
  remove_idle := aio_remove_idle;
  try_acquire_primary_lock := aio_try_acquire_primary_lock;
  renew_primary_lock := aio_renew_primary_lock;
  release_primary_lock := aio_release_primary_lock;
  reap_expired_idle := aio_reap_expired_idle;
  snapshot_counters := aio_snapshot_counters;
  snapshot_idle_entries := aio_snapshot_idle_entries;
  get_max_idle := aio_get_max_idle;
  set_max_idle := aio_set_max_idle;
  set_idle_entry_ttl := aio_set_idle_entry_ttl;
  get_destroy_state := aio_get_destroy_state;
  begin_destroy := aio_begin_destroy;
  clear_pool_state := aio_clear_pool_state;
  mark_destroyed := aio_mark_destroyed;
  try_take_idle_min_ttl := Some aio_try_take_idle_min_ttl;
  reap_expired_idle_min_ttl := Some aio_reap_expired_idle_min_ttl;
}.

(** [m] on a free lock does what [m0] does on the fields and frees the lock again. *)
Definition acts_as {A} (m : AM A) (m0 : M InMemoryPoolStateStore exc A) : Prop :=
  forall st, m (mkAsyncStore false st) = let '(r, st') := m0 st in (r, mkAsyncStore false st').

(** The same with the lock held. *)
Definition holds_as {A} (m : AM A) (m0 : M InMemoryPoolStateStore exc A) : Prop :=
  forall st, m (mkAsyncStore true st) = let '(r, st') := m0 st in (r, mkAsyncStore true st').

Lemma acts_with_lock {A} (m : AM A) m0 : holds_as m m0 -> acts_as (with_lock m) m0.
Proof. intros Hm st. unfold with_lock. simpl. rewrite Hm. by destruct (m0 st). Qed.

Lemma holds_inside {A} (m0 : M InMemoryPoolStateStore exc A) : holds_as (inside m0) m0.
Proof. intros st. unfold inside, zoom. simpl. by destruct (m0 st). Qed.

Lemma holds_bind {A B} (m : AM A) m0 (k : A -> AM B) k0 :
  holds_as m m0 -> (forall a, holds_as (k a) (k0 a)) -> holds_as (bind m k) (bind m0 k0).
Proof. intros Hm Hk st. unfold bind. rewrite Hm. destruct (m0 st) as [[a|e] st']; [apply Hk|done]. Qed.

Lemma acts_bind {A B} (m : AM A) m0 (k : A -> AM B) k0 :
  acts_as m m0 -> (forall a, acts_as (k a) (k0 a)) -> acts_as (bind m k) (bind m0 k0).
Proof. intros Hm Hk st. unfold bind. rewrite Hm. destruct (m0 st) as [[a|e] st']; [apply Hk|done]. Qed.

Lemma acts_ret {A} (a : A) : acts_as (ret a) (ret a).
Proof. done. Qed.

Lemma acts_throw {A} e : acts_as (throw e : AM A) (throw e).
Proof. done. Qed.

Lemma holds_reject pool : holds_as (aio_reject_if_destroyed_locked pool) (reject_if_destroyed_locked pool).
Proof. apply holds_bind; [apply holds_inside|]. intros st s. by case_bool_decide. Qed.

Lemma acts_ext {A} (m : AM A) m0 m1 : acts_as m m0 -> (forall st, m0 st = m1 st) -> acts_as m m1.
Proof. intros Hm He st. by rewrite <- He. Qed.

Create HintDb aio.
#[local] Hint Resolve acts_with_lock holds_inside acts_ret acts_throw holds_reject : aio.

Lemma acts_take pool : acts_as (aio_try_take_idle pool) (im_try_take_idle pool).
Proof. unfold aio_try_take_idle. auto with aio. Qed.

Lemma acts_get_destroy pool : acts_as (aio_get_destroy_state pool) (im_get_destroy_state pool).
Proof. unfold aio_get_destroy_state, get_destroy_state_locked. auto with aio. Qed.

Lemma acts_reap pool now : acts_as (aio_reap_expired_idle pool now) (im_reap_expired_idle pool now).
Proof. unfold aio_reap_expired_idle, im_reap_expired_idle. auto with aio. Qed.

Lemma acts_put pool id : acts_as (aio_put_idle pool id) (im_put_idle pool id).
Proof.
  unfold aio_put_idle, im_put_idle. destruct (is_blank id); [auto with aio|].
  apply acts_with_lock, holds_bind; [apply holds_reject|]. intros _. apply holds_inside.
Qed.

Lemma acts_begin pool owner : acts_as (aio_begin_destroy pool owner) (im_begin_destroy pool owner).
Proof.
  unfold aio_begin_destroy, im_begin_destroy. destruct (is_blank owner); [auto with aio|].
  apply acts_with_lock, holds_bind; [apply holds_inside|]. intros st s. case_bool_decide; [done|apply holds_inside].
Qed.

Lemma acts_set_max pool n : acts_as (aio_set_max_idle pool n) (im_set_max_idle pool n).
Proof.
  apply acts_with_lock. intros st. rewrite holds_reject. unfold im_set_max_idle, bind.
  by destruct (reject_if_destroyed_locked pool st) as [[[]|]].
Qed.

Lemma acts_set_ttl pool ttl : acts_as (aio_set_idle_entry_ttl pool ttl) (im_set_idle_entry_ttl pool ttl).
Proof.
  unfold aio_set_idle_entry_ttl, im_set_idle_entry_ttl. case_match; [auto with aio|].
  apply acts_with_lock, holds_bind; [apply holds_reject|]. intros _. apply holds_inside.
Qed.

Lemma acts_mark pool owner ttl : acts_as (aio_mark_destroyed pool owner ttl) (im_mark_destroyed pool owner ttl).
Proof.
  intros st. unfold aio_mark_destroyed. destruct (is_blank owner) eqn:Ho.
  - unfold im_mark_destroyed. by rewrite Ho.
  - destruct ttl as [t|]; [destruct (t <=? 0) eqn:Ht|].
    + unfold im_mark_destroyed. by rewrite Ho, Ht.
    + by apply acts_with_lock, holds_inside.
    + by apply acts_with_lock, holds_inside.
Qed.

Lemma acts_take_min pool ttl : acts_as (aio_try_take_idle_min_ttl pool ttl) (im_try_take_idle_min_ttl pool ttl).
Proof.
  intros st. unfold aio_try_take_idle_min_ttl. destruct (ttl <=? 0) eqn:Ht.
  - unfold im_try_take_idle_min_ttl. rewrite Ht. apply acts_bind; [apply acts_take|]. intros x. apply acts_ret.
  - by apply acts_with_lock, holds_inside.
Qed.

Lemma acts_reap_min pool now ttl :
  acts_as (aio_reap_expired_idle_min_ttl pool now ttl) (im_reap_expired_idle_min_ttl pool now ttl).
Proof.
  intros st. unfold aio_reap_expired_idle_min_ttl. destruct (ttl <=? 0) eqn:Ht.
  - unfold im_reap_expired_idle_min_ttl. rewrite Ht. apply acts_bind; [apply acts_reap|]. intros x. apply acts_ret.
  - by apply acts_with_lock, holds_inside.
Qed.

(** ** Equivalence with the synchronous store *)


(** ** The asyncio Redis store *)

(** The synchronous client's state, and for each pair of requests sent together
    whether the second one reaches the server first. *)
Record AsyncRedisPoolStateStore (R : Type) := mkAsyncRedis {
  ar_base : RedisPoolStateStore R;
  ar_swaps : nat -> bool;
}.
Arguments mkAsyncRedis {R} _ _.
Arguments ar_base {R} _.
Arguments ar_swaps {R} _ _.

Section async_redis.
Context {R : Type} `{!Redis R}.
Local Abbreviation ARM A := (M (AsyncRedisPoolStateStore R) exc A).

Definition aio {A} (m : M (RedisPoolStateStore R) exc A) : ARM A :=
  zoom ar_base (fun b s => mkAsyncRedis b (ar_swaps s)) m.

(** [asyncio.gather] of two requests: both are sent whatever becomes of the other;
    the first exception to arrive is raised. *)
Definition gather_tuple (q1 q2 : request) : ARM (reply * reply) := fun s =>
  let swapped := ar_swaps s (sent (ar_base s)) in
  let '(x, s1) := aio (attempt (send (if swapped then q2 else q1))) s in
  let '(y, s2) := aio (attempt (send (if swapped then q1 else q2))) s1 in
  match x, y with
  | Ok (Ok a), Ok (Ok b) => (Ok (if swapped then (b, a) else (a, b)), s2)
  | Ok (Raise e), _ | Raise e, _ | _, Ok (Raise e) | _, Raise e => (Raise e, s2)
  end.

Definition ar_execute {A} (block : ARM A) : ARM A :=
  catch block (fun e =>
    match e with
    | ValueError _ | PoolDestroyedException _ => None
    | NonException _ => None
    | _ => Some (throw PoolStateStoreUnavailableException)
    end).

Definition ar_remove_idle (pool sandbox_id : string) : ARM unit :=
  ar_execute (
    k1 <-- aio (rs_idle_expires_key pool) ;;
    k2 <-- aio (rs_idle_list_key pool) ;;
    gather_tuple (Cmd (HDEL k1 sandbox_id)) (Cmd (LREM_all k2 sandbox_id))) ;;;
  ret tt.

Definition ar_eval_take_idle (pool ms : string) : ARM TakeIdleResult := aio (eval_take_idle pool ms).
Definition ar_try_take_idle (pool : string) : ARM (option string) := aio (rs_try_take_idle pool).
Definition ar_try_take_idle_min_ttl (pool : string) (ttl : Z) : ARM TakeIdleResult :=
  aio (rs_try_take_idle_min_ttl pool ttl).
Definition ar_put_idle (pool id : string) : ARM unit := aio (rs_put_idle pool id).
Definition ar_try_acquire_primary_lock (pool owner : string) (ttl : Z) : ARM bool :=
  aio (rs_try_acquire_primary_lock pool owner ttl).
Definition ar_renew_primary_lock (pool owner : string) (ttl : Z) : ARM bool :=
  aio (rs_renew_primary_lock pool owner ttl).
Definition ar_release_primary_lock (pool owner : string) : ARM unit := aio (rs_release_primary_lock pool owner).
Definition ar_reap_idle (pool ms : string) : ARM (list string) := aio (reap_idle pool ms).
Definition ar_reap_expired_idle (pool : string) (now : Z) : ARM unit := aio (rs_reap_expired_idle pool now).
Definition ar_reap_expired_idle_min_ttl (pool : string) (now ttl : Z) : ARM (list string) :=
  aio (rs_reap_expired_idle_min_ttl pool now ttl).
Definition ar_snapshot_counters (pool : string) : ARM StoreCounters := aio (rs_snapshot_counters pool).
Definition ar_snapshot_idle_entries (pool : string) : ARM (list IdleEntry) := aio (rs_snapshot_idle_entries pool).
Definition ar_get_max_idle (pool : string) : ARM (option Z) := aio (rs_get_max_idle pool).
Definition ar_set_max_idle (pool : string) (n : Z) : ARM unit := aio (rs_set_max_idle pool n).
Definition ar_set_idle_entry_ttl (pool : string) (ttl : Z) : ARM unit := aio (rs_set_idle_entry_ttl pool ttl).
Definition ar_get_destroy_state (pool : string) : ARM PoolDestroyState := aio (rs_get_destroy_state pool).
Definition ar_begin_destroy (pool owner : string) : ARM unit := aio (rs_begin_destroy pool owner).
Definition ar_clear_pool_state (pool : string) : ARM unit := aio (rs_clear_pool_state pool).
Definition ar_mark_destroyed (pool owner : string) (ttl : option Z) : ARM unit := aio (rs_mark_destroyed pool owner ttl).
Definition ar_resolve_idle_ttl (pool : string) : ARM Z := aio (rs_resolve_idle_ttl pool).
Definition ar_eval_fenced_write (pool : string) (s : script) (keys argv : list string) : ARM reply :=
  aio (eval_fenced_write pool s keys argv).

#[global] Instance AsyncRedis_store : PoolStateStore (AsyncRedisPoolStateStore R) := {
  try_take_idle := ar_try_take_idle;
  put_idle := ar_put_idle;
  remove_idle := ar_remove_idle;
  try_acquire_primary_lock := ar_try_acquire_primary_lock;
  renew_primary_lock := ar_renew_primary_lock;
  release_primary_lock := ar_release_primary_lock;
  reap_expired_idle := ar_reap_expired_idle;
  snapshot_counters := ar_snapshot_counters;
  snapshot_idle_entries := ar_snapshot_idle_entries;
  get_max_idle := ar_get_max_idle;
  set_max_idle := ar_set_max_idle;
  set_idle_entry_ttl := ar_set_idle_entry_ttl;
  get_destroy_state := ar_get_destroy_state;
  begin_destroy := ar_begin_destroy;
  clear_pool_state := ar_clear_pool_state;
  mark_destroyed := ar_mark_destroyed;
  try_take_idle_min_ttl := Some ar_try_take_idle_min_ttl;
  reap_expired_idle_min_ttl := Some ar_reap_expired_idle_min_ttl;
}.
End async_redis.

Section async_redis_facts.
Context {R : Type} `{!Redis R} `{!RedisLaws R} (pfx : string).
Implicit Types (s : AsyncRedisPoolStateStore R).

Definition async_keeps (I : net R -> Prop) {A} (m : M (AsyncRedisPoolStateStore R) exc A) : Prop :=
  forall s, client_ok pfx (ar_base s) -> I (rs_net (ar_base s)) ->
    wp m (fun _ s' => client_ok pfx (ar_base s') /\ I (rs_net (ar_base s'))) s.

Context (I : net R -> Prop) (HI : stable pfx I).

Lemma async_keeps_aio {A} (m : M (RedisPoolStateStore R) exc A) : keeps pfx I m -> async_keeps I (aio m).
Proof.
  intros Hm s Hs Hi. specialize (Hm (ar_base s) Hs Hi). unfold wp, aio, zoom in *.
  destruct (m (ar_base s)) as [r b]. tauto.
Qed.

Lemma async_keeps_bind {A B} (m : M (AsyncRedisPoolStateStore R) exc A) (k : A -> M _ exc B) :
  async_keeps I m -> (forall a, async_keeps I (k a)) -> async_keeps I (bind m k).
Proof.
  intros Hm Hk s Hs Hi. apply wp_bind. eapply wp_mono; [by apply Hm|].
  intros [a|e] s' [Hs' Hi']; [by apply Hk|done].
Qed.

Lemma async_keeps_ret {A} (a : A) : async_keeps I (ret a).
Proof. by intros s Hs Hi. Qed.

Lemma async_keeps_key pool suffix {A} (k : string -> M (AsyncRedisPoolStateStore R) exc A) :
  async_keeps I (k (pool_key_of pfx pool suffix)) -> async_keeps I (bind (aio (pool_key pool suffix)) k).
Proof.
  intros Hk s Hs Hi. unfold wp, bind, aio, zoom, pool_key. destruct (is_blank pool); [done|].
  unfold gets. rewrite (co_prefix _ _ Hs). destruct s as [b sw]. by apply Hk.
Qed.

Lemma keeps_attempt {A} (m : M (RedisPoolStateStore R) exc A) : keeps pfx I m -> keeps pfx I (attempt m).
Proof.
  intros Hm s Hs Hi. apply wp_attempt. eapply wp_mono; [by apply Hm|]. done.
Qed.

Lemma async_keeps_gather q1 q2 : store_request pfx q1 -> store_request pfx q2 -> async_keeps I (gather_tuple q1 q2).
Proof using HI.
  intros H1 H2 s Hs Hi. unfold wp, gather_tuple. set (sw := ar_swaps s _).
  assert (forall q, store_request pfx q -> async_keeps I (aio (attempt (send q)))) as Hsend.
  { intros q Hq. by apply async_keeps_aio, keeps_attempt, keeps_send. }
  pose proof (Hsend (if sw then q2 else q1) ltac:(by destruct sw) s Hs Hi) as Hx. unfold wp in Hx.
  destruct (aio _ s) as [x s1]. destruct Hx as [Hs1 Hi1].
  pose proof (Hsend (if sw then q1 else q2) ltac:(by destruct sw) s1 Hs1 Hi1) as Hy. unfold wp in Hy.
  destruct (aio _ s1) as [y s2]. destruct x as [[]|], y as [[]|]; done.
Qed.

Lemma async_keeps_execute {A} (m : M (AsyncRedisPoolStateStore R) exc A) :
  async_keeps I m -> async_keeps I (ar_execute m).
Proof.
  intros Hm s Hs Hi. apply wp_catch. eapply wp_mono; [by apply Hm|]. intros [a|e] s' H; [done|]. by destruct e.
Qed.

Lemma aio_bind_ret {A} (m : M (RedisPoolStateStore R) exc A) s :
  bind (aio m) (fun _ => ret tt) s = aio (bind m (fun _ => ret tt)) s.
Proof. unfold bind, aio, zoom. by destruct (m (ar_base s)) as [[]]. Qed.

(** All operations but [remove_idle] are those of the synchronous store. *)
Lemma async_call_op op s : (forall p id, op <> OpRemove p id) -> call_op op s = aio (call_op op) s.
Proof.
  intros Hne. destruct op; try done; try apply aio_bind_ret. by destruct (Hne pool id).
Qed.

(** Every operation keeps what every step keeps. *)
Lemma async_keeps_op op : async_keeps I (call_op op).
Proof using HI.
  intros s Hs Hi. assert ((exists p id, op = OpRemove p id) \/ forall p id, op <> OpRemove p id) as [(p & id & ->)|Hne].
  { destruct op; eauto; right; done. }
  - cbn. unfold ar_remove_idle. apply (async_keeps_bind (ar_execute _)); [|intros; apply async_keeps_ret|done|done].
    apply async_keeps_execute. do 2 apply async_keeps_key. apply async_keeps_gather; constructor.
  - unfold wp. rewrite async_call_op by done. exact (async_keeps_aio _ (keeps_op pfx I HI op) s Hs Hi).
Qed.

Lemma async_call_ops_keep ops : forall s, client_ok pfx (ar_base s) -> I (rs_net (ar_base s)) ->
  client_ok pfx (ar_base (call_ops ops s)) /\ I (rs_net (ar_base (call_ops ops s))).
Proof using HI.
  induction ops as [|op ops IH]; intros s Hs Hi; [done|]. simpl.
  pose proof (async_keeps_op op s Hs Hi) as H. unfold wp in H. destruct (call_op op s) as [x s'].
  destruct H. by apply IH.
Qed.
End async_redis_facts.

(** No sandbox is handed out twice by a program of the asyncio Redis store either,
    although it sends the two requests of [remove_idle] together, in whatever
    order they arrive; the other clients on the server may be of either kind. *)
Theorem async_redis_no_double_handout {R} `{!Redis R} `{!RedisLaws R} pfx (s : AsyncRedisPoolStateStore R) ops pool id :
  fresh (ar_base s) -> (forall i, Forall (step_ok pfx) (others (ar_base s) i)) -> key_prefix (ar_base s) = pfx ->
  let h := hist (rs_net (ar_base (call_ops ops s))) in
  (count id (flat_map (handed pfx pool) h) <= count id (flat_map (accepted pfx pool) h))%nat.
Proof.
  intros Hf Ho Hp h. destruct (async_call_ops_keep pfx (handout_inv pfx) (handout_stable pfx) ops s) as [_ Hi].
  - by apply fresh_client.
  - by apply handout_fresh.
  - specialize (Hi pool id). unfold h. lia.
Qed.

(** The two requests of [remove_idle] in either order. *)
Lemma async_remove_idle_either_order :
  let s sw := mkAsyncRedis (call_ops [OpPut "p" "a"] (init_redis_store (ModelRedis.start 0) (fun _ => [])
                 (fun _ => NoFault) DEFAULT_KEY_PREFIX)) (fun _ => sw) in
  let left sw := (ar_snapshot_counters "p" (ar_remove_idle "p" "a" (s sw)).2).1 in
  left true = Ok {| sc_idle_count := 0 |} /\ left false = Ok {| sc_idle_count := 0 |}.
Proof. split; vm_compute; reflexivity. Qed.

Lemma async_redis_no_double_handout_witness :
  let s := mkAsyncRedis demo_redis (fun i => Nat.even i) in
  let h := hist (rs_net (ar_base (call_ops [OpPut "p" "a"; OpPut "p" "b"; OpRemove "p" "b"; OpTake "p"] s))) in
  (count "a" (flat_map (handed DEFAULT_KEY_PREFIX "p") h) <=
   count "a" (flat_map (accepted DEFAULT_KEY_PREFIX "p") h))%nat.
Proof.
  intros s. apply (async_redis_no_double_handout DEFAULT_KEY_PREFIX s); [done|apply demo_others_ok|done].
Defined.
