(* ===== verification/Sha256.v ===== *)
(** * SHA-256

    [hashlib.sha256] of the server and [crypto/sha256] of the gateway: the same
    function of the two standard libraries (FIPS 180-4), on lists of bytes.
    Words are 32-bit, kept as integers modulo [2^32]. *)

From Stdlib Require Import ZArith Lia Ascii String.
From stdpp Require Import base numbers strings list.
From S2P Require Import Prelude PyString PyText PyCodec.

Open Scope string_scope.
Open Scope Z_scope.

Definition w32 (x : Z) : Z := x mod 2 ^ 32.
Definition rotr (n x : Z) : Z := Z.lor (Z.shiftr x n) (w32 (Z.shiftl x (32 - n))).
Definition shr (n x : Z) : Z := Z.shiftr x n.
Definition Ch (x y z : Z) : Z := Z.lxor (Z.land x y) (Z.land (2 ^ 32 - 1 - x) z).
Definition Maj (x y z : Z) : Z := Z.lxor (Z.lxor (Z.land x y) (Z.land x z)) (Z.land y z).
Definition Sigma0 (x : Z) : Z := Z.lxor (Z.lxor (rotr 2 x) (rotr 13 x)) (rotr 22 x).
Definition Sigma1 (x : Z) : Z := Z.lxor (Z.lxor (rotr 6 x) (rotr 11 x)) (rotr 25 x).
Definition sigma0 (x : Z) : Z := Z.lxor (Z.lxor (rotr 7 x) (rotr 18 x)) (shr 3 x).
Definition sigma1 (x : Z) : Z := Z.lxor (Z.lxor (rotr 17 x) (rotr 19 x)) (shr 10 x).

(** The constants, as the standard defines them: the first 32 bits of the
    fractional parts of the cube roots of the first 64 primes, and of the square
    roots of the first 8. *)
Definition is_prime (n : nat) : bool := forallb (fun d => negb (n mod d =? 0)%nat) (seq 2 (n - 2)).
Definition sha_primes (k : nat) : list Z := map Z.of_nat (take k (List.filter is_prime (seq 2 320))).

(** The largest [acc + r] with [r < 2 ^ bits] whose [k]-th power is at most [n]. *)
Fixpoint root (k : Z) (bits : nat) (acc n : Z) : Z :=
  match bits with
  | O => acc
  | S b => let c := acc + 2 ^ Z.of_nat b in root k b (if c ^ k <=? n then c else acc) n
  end.
Definition root_fraction (k p : Z) : Z := w32 (root k 36 0 (p * 2 ^ (32 * k))).

Definition K256 : list Z := Eval vm_compute in map (root_fraction 3) (sha_primes 64).

(** The eight words of the hash value. *)
Record digest := mkDigest { dA : Z; dB : Z; dC : Z; dD : Z; dE : Z; dF : Z; dG : Z; dH : Z }.

Definition digest_of (l : list Z) : digest :=
  let x i := nth i l 0 in mkDigest (x 0%nat) (x 1%nat) (x 2%nat) (x 3%nat) (x 4%nat) (x 5%nat) (x 6%nat) (x 7%nat).

Definition H256 : digest := Eval vm_compute in digest_of (map (root_fraction 2) (sha_primes 8)).

(** The schedule, newest word first: [W_t] from the four words 2, 7, 15 and 16
    before it. *)
Fixpoint schedule (n : nat) (w : list Z) : list Z :=
  match n with
  | O => w
  | S n => schedule n (w32 (sigma1 (nth 1 w 0) + nth 6 w 0 + sigma0 (nth 14 w 0) + nth 15 w 0) :: w)
  end.

Definition round (s : digest) (kw : Z * Z) : digest :=
  let '(mkDigest a b c d e f g h) := s in
  let t1 := h + Sigma1 e + Ch e f g + kw.1 + kw.2 in
  let t2 := Sigma0 a + Maj a b c in
  mkDigest (w32 (t1 + t2)) a b c (w32 (d + t1)) e f g.

Definition add_digest (s t : digest) : digest :=
  mkDigest (w32 (dA s + dA t)) (w32 (dB s + dB t)) (w32 (dC s + dC t)) (w32 (dD s + dD t))
           (w32 (dE s + dE t)) (w32 (dF s + dF t)) (w32 (dG s + dG t)) (w32 (dH s + dH t)).

Definition compress (s : digest) (block : list Z) : digest :=
  add_digest s (foldl round s (zip K256 (rev (schedule 48 (rev block))))).

(** Big-endian words of a list of bytes, four at a time. *)
Fixpoint be_words (l : list Z) : list Z :=
  match l with
  | a :: b :: c :: d :: l => value_of 256 [a; b; c; d] :: be_words l
  | _ => []
  end.

Fixpoint sha_blocks (n : nat) (w : list Z) (s : digest) : digest :=
  match n with
  | O => s
  | S n => sha_blocks n (drop 16 w) (compress s (take 16 w))
  end.

(** The four bytes of a 32-bit word, most significant first. *)
Definition be32_bytes (x : Z) : list Z :=
  [x / 2 ^ 24 mod 256; x / 2 ^ 16 mod 256; x / 2 ^ 8 mod 256; x mod 256].

(** The message, a one bit, zeros up to a multiple of 64 bytes and the length in
    bits as eight bytes. *)
Definition sha_padding (msg : list Z) : list Z :=
  let n := Z.of_nat (length msg) in
  (msg ++ 128 :: repeat 0 (Z.to_nat ((- (n + 9)) mod 64)) ++
   be32_bytes (8 * n / 2 ^ 32) ++ be32_bytes (8 * n))%list.

Definition sha256_digest (msg : list Z) : digest :=
  let w := be_words (sha_padding msg) in sha_blocks (length w / 16) w H256.

Definition sha256 (msg : list Z) : list Z :=
  let '(mkDigest a b c d e f g h) := sha256_digest msg in
  flat_map be32_bytes [a; b; c; d; e; f; g; h].

(** The test vectors of the standard: one block, and two blocks. *)
Definition bytes_of (s : string) : list Z := map code (chars s).

Example sha256_abc : value_of 256 (sha256 (bytes_of "abc")) =
  0xba7816bf8f01cfea414140de5dae2223b00361a396177a9cb410ff61f20015ad.
Proof. vm_compute. reflexivity. Qed.

Example sha256_two_blocks :
  value_of 256 (sha256 (bytes_of "abcdbcdecdefdefgefghfghighijhijkijkljklmklmnlmnomnopnopq")) =
  0x248d6a61d20638b8e5c026930c3e6039a33ce45964ff2167f6ecedd419db06c1.
Proof. vm_compute. reflexivity. Qed.

Lemma be32_bytes_range x : Forall is_byte (be32_bytes x).
Proof. repeat constructor; apply Z.mod_pos_bound; lia. Qed.

(** Four bytes determine a word below [2^32]. *)
Lemma be32_bytes_value x : 0 <= x < 2 ^ 32 -> value_of 256 (be32_bytes x) = x.
Proof.
  intros Hx. unfold be32_bytes, value_of. cbn [foldl].
  pose proof (Z.div_mod x 256 ltac:(lia)). pose proof (Z.div_mod (x / 256) 256 ltac:(lia)).
  pose proof (Z.div_mod (x / 256 / 256) 256 ltac:(lia)).
  rewrite <- ?(Z.div_div x 256 256), <- ?(Z.div_div x (256 * 256) 256) by lia.
  change (2 ^ 24) with (256 * 256 * 256). change (2 ^ 16) with (256 * 256). change (2 ^ 8) with 256.
  rewrite <- !(Z.div_div x), <- ?(Z.div_div (x / 256)) by lia.
  rewrite (Z.mod_small (x / 256 / 256 / 256)); [lia|].
  rewrite !Z.div_div by lia. split; [apply Z.div_pos; lia|].
  apply Z.div_lt_upper_bound; lia.
Qed.

Lemma be32_bytes_inj x y : 0 <= x < 2 ^ 32 -> 0 <= y < 2 ^ 32 ->
  be32_bytes x = be32_bytes y -> x = y.
Proof. intros Hx Hy H. by rewrite <- (be32_bytes_value x Hx), H, be32_bytes_value. Qed.

(** A digest is 32 bytes; it starts with four. *)
Lemma sha256_bytes msg : length (sha256 msg) = 32%nat /\ Forall is_byte (sha256 msg).
Proof.
  unfold sha256. destruct (sha256_digest msg) as [a b c d e f g h]. split; [done|].
  apply Forall_flat_map. repeat constructor; apply Z.mod_pos_bound; lia.
Qed.
