(* ===== verification/Signing.v ===== *)
(** * Route signing

    [server/opensandbox_server/services/signing.py]: the base-36 expiry, the
    canonical bytes of a route, and the signature over them.  Bytes are integers
    from 0 to 255; a [raise] is an exception by class. *)

From Stdlib Require Import ZArith Lia Ascii String.
From stdpp Require Import base numbers strings sets list.
From S2P Require Import Prelude PyString PyText PyCodec Sha256.
From S2P Require Import Validators.

Open Scope string_scope.
Open Scope Z_scope.

(** The exceptions this code and its callers raise.  [HttpExn] carries the
    status and code of a FastAPI [HTTPException]; [OtherExn] is any exception of
    a library called. *)
Inductive pyexn := ValueError | StructError | RuntimeError | AssertionError | HttpExn (h : http) | OtherExn.

Definition BASE36_CHARS : string := "0123456789abcdefghijklmnopqrstuvwxyz".
Definition MAX_EXPIRES_B36_LEN : Z := 13.
Definition MAX_UINT64 : Z := 2 ^ 64 - 1.

(** [_BASE36_CHARS[r]], with [0 <= r < 36] *)
Definition b36_char (r : Z) : ascii := nth (Z.to_nat r) (chars BASE36_CHARS) "0"%char.

(** [while n > 0: n, r = divmod(n, 36); chars.append(...)] *)
Fixpoint b36_loop (fuel : nat) (n : Z) (acc : list ascii) : list ascii :=
  match fuel with
  | O => acc
  | S fuel => if 0 <? n then b36_loop fuel (n / 36) (acc ++ [b36_char (n mod 36)])%list else acc
  end.

Definition encode_expires_b36 (expires_sec : Z) : res pyexn string :=
  if expires_sec <? 0 then Raise ValueError
  else if MAX_UINT64 <? expires_sec then Raise ValueError
  else if expires_sec =? 0 then Ok "0"
  else Ok (of_chars (rev (b36_loop (digit_fuel expires_sec) expires_sec []))).

Definition is_valid_base36 (s : string) : bool :=
  forallb (fun c => bool_decide (c ∈ chars BASE36_CHARS)) (chars s).

(** [int(s, 36)] on letters and digits of either case *)
Definition b36_value (c : ascii) : option Z :=
  if is_digit c then Some (code c - 48)
  else if is_lower_az c then Some (code c - 87)
  else if is_upper_az c then Some (code c - 55)
  else None.

Definition int_base36 (s : string) : res pyexn Z :=
  match mapM b36_value (chars s) with
  | Some (d :: ds) => Ok (value_of 36 (d :: ds))
  | _ => Raise ValueError
  end.

Definition decode_expires_b36 (s : string) : res pyexn Z :=
  if bool_decide (s = "") then Raise ValueError
  else if MAX_EXPIRES_B36_LEN <? str_len s then Raise ValueError
  else if negb (is_valid_base36 s) then Raise ValueError
  else if (1 <? str_len s) && startswith s "0" then Raise ValueError
  else val ← int_base36 s;
       if MAX_UINT64 <? val then Raise ValueError else Ok val.

Definition nl : string := String (ascii_of_N 10) "".

(** [_CANONICAL_TEMPLATE.format(...)] *)
Definition canonical_text (sandbox_id : string) (port : Z) (expires_b36 : string) : string :=
  "v1" +:+ nl +:+ "short" +:+ nl +:+ sandbox_id +:+ nl +:+ str_of_int port +:+ nl +:+ expires_b36 +:+ nl.

Definition build_canonical_bytes (sandbox_id : string) (port : Z) (expires_b36 : string) : res pyexn (list Z) :=
  if negb ((1 <=? port) && (port <=? 65535)) then Raise ValueError
  else Ok (utf8 (canonical_text sandbox_id port expires_b36)).

(** [struct.pack(">I", x)]: an error outside 32 bits *)
Definition be32 (x : Z) : res pyexn (list Z) :=
  if (x <? 0) || (2 ^ 32 <=? x) then Raise StructError else Ok (be32_bytes x).

(** [bytes.hex()] *)
Definition hex (l : list Z) : list ascii :=
  flat_map (fun b => [hex_digit (b / 16); hex_digit (b mod 16)]) l.

Definition signing_input (secret_bytes canonical_bytes : list Z) : res pyexn (list Z) :=
  n ← be32 (Z.of_nat (length secret_bytes));
  m ← be32 (Z.of_nat (length canonical_bytes));
  Ok (n ++ secret_bytes ++ m ++ canonical_bytes)%list.

Definition compute_hex8 (secret_bytes canonical_bytes : list Z) : res pyexn string :=
  inner ← signing_input secret_bytes canonical_bytes;
  Ok (of_chars (take 8 (hex (sha256 inner)))).

Definition compute_signature (secret_bytes : list Z) (key_id : string) (canonical_bytes : list Z) : res pyexn string :=
  hex8 ← compute_hex8 secret_bytes canonical_bytes;
  Ok (hex8 +:+ key_id).

(** ** Base 36 *)

(** The alphabet, checked digit by digit. *)
Lemma b36_alphabet :
  forallb (fun n => let r := Z.of_nat n in
    bool_decide (b36_value (b36_char r) = Some r) && is_lower_alnum (b36_char r) &&
    bool_decide (b36_char r ∈ chars BASE36_CHARS) &&
    Bool.eqb (bool_decide (b36_char r = "0"%char)) (r =? 0)) (seq 0 36) = true.
Proof. vm_compute. reflexivity. Qed.

Lemma b36_char_spec r : is_digit_of 36 r ->
  b36_value (b36_char r) = Some r /\ is_lower_alnum (b36_char r) = true /\
  b36_char r ∈ chars BASE36_CHARS /\ (b36_char r = "0"%char <-> r = 0).
Proof.
  intros Hr. pose proof (proj1 (forallb_forall _ _) b36_alphabet (Z.to_nat r)) as H.
  unfold is_digit_of in Hr. rewrite in_seq, Z2Nat.id in H by lia. cbn beta zeta in H.
  specialize (H ltac:(lia)). rewrite !andb_true_iff, !bool_decide_eq_true, Bool.eqb_true_iff in H.
  destruct H as [[[H1 H2] H3] H4]. split_and!; [done..|].
  destruct (Z.eqb_spec r 0); [rewrite bool_decide_eq_true in H4|rewrite bool_decide_eq_false in H4]; tauto.
Qed.

Lemma b36_char_of c : c ∈ chars BASE36_CHARS -> exists r, is_digit_of 36 r /\ c = b36_char r.
Proof.
  intros (i & Hi)%list_elem_of_lookup. exists (Z.of_nat i).
  pose proof (lookup_lt_Some _ _ _ Hi) as Hlt. change (length (chars BASE36_CHARS)) with 36%nat in Hlt.
  split; [unfold is_digit_of; lia|]. unfold b36_char. rewrite Nat2Z.id. symmetry. by apply nth_lookup_Some.
Qed.

Lemma b36_loop_digits fuel : forall n acc,
  rev (b36_loop fuel n (rev (map b36_char acc))) = map b36_char (digits_go 36 fuel n acc).
Proof.
  induction fuel as [|fuel IH]; intros n acc; cbn [b36_loop digits_go]; [by rewrite rev_involutive|].
  destruct (0 <? n); [|by rewrite rev_involutive].
  change (rev (map b36_char acc) ++ [b36_char (n mod 36)])%list with (rev (map b36_char (n mod 36 :: acc))).
  apply IH.
Qed.

Lemma encode_expires_b36_digits n : 0 < n <= MAX_UINT64 ->
  encode_expires_b36 n = Ok (of_chars (map b36_char (digits_of 36 n))).
Proof.
  intros Hn. unfold encode_expires_b36, MAX_UINT64 in *.
  rewrite (proj2 (Z.ltb_ge n 0)), (proj2 (Z.ltb_ge _ n)), (proj2 (Z.eqb_neq n 0)) by lia.
  do 2 f_equal. apply (b36_loop_digits _ n []).
Qed.

Lemma mapM_b36_value ds : Forall (is_digit_of 36) ds -> mapM b36_value (map b36_char ds) = Some ds.
Proof.
  induction 1 as [|d ds Hd _ IH]; [done|]. cbn [map mapM].
  destruct (b36_char_spec d Hd) as [-> _]. cbn. by rewrite IH.
Qed.

Lemma is_valid_base36_spec s : is_valid_base36 s = true <->
  exists ds, Forall (is_digit_of 36) ds /\ s = of_chars (map b36_char ds).
Proof.
  unfold is_valid_base36. split.
  - intros H. cut (exists ds, Forall (is_digit_of 36) ds /\ chars s = map b36_char ds).
    { intros (ds & ? & E). exists ds. split; [done|]. by rewrite <- E, of_chars_chars. }
    induction (chars s) as [|c l IH]; [by exists []|]. cbn [forallb] in H.
    rewrite andb_true_iff, bool_decide_eq_true in H. destruct H as [(d & Hd & ->)%b36_char_of H].
    destruct (IH H) as (ds & Hds & ->). exists (d :: ds). by split; [constructor|].
  - intros (ds & Hds & ->). rewrite chars_of_chars. induction Hds as [|d ds Hd _ IH]; [done|].
    cbn [map forallb]. by rewrite IH, bool_decide_eq_true_2 by apply (b36_char_spec d Hd).
Qed.

(** ** Decoding, as one condition on the digits *)

Definition b36_numeral (ds : list Z) : Prop :=
  Forall (is_digit_of 36) ds /\ (no_leading_zero ds \/ ds = [0]) /\ ds <> [] /\
  (length ds <= 13)%nat /\ value_of 36 ds <= MAX_UINT64.

Lemma decode_expires_b36_spec s n : decode_expires_b36 s = Ok n <->
  exists ds, b36_numeral ds /\ s = of_chars (map b36_char ds) /\ n = value_of 36 ds.
Proof.
  unfold decode_expires_b36. destruct (is_valid_base36 s) eqn:Hv.
  2: { split.
       - repeat case_match; naive_solver.
       - intros (ds & (Hds & _) & -> & _). assert (is_valid_base36 (of_chars (map b36_char ds)) = true)
           by (apply is_valid_base36_spec; by exists ds). congruence. }
  apply is_valid_base36_spec in Hv as (ds & Hds & ->).
  assert (forall es, Forall (is_digit_of 36) es -> of_chars (map b36_char ds) = of_chars (map b36_char es) -> ds = es) as Hinj.
  { intros es Hes E. apply (f_equal chars) in E. rewrite !chars_of_chars in E.
    apply (f_equal (mapM b36_value)) in E. rewrite !mapM_b36_value in E by done. congruence. }
  rewrite str_len_of_chars, length_map. unfold int_base36. rewrite chars_of_chars, mapM_b36_value by done.
  unfold b36_numeral, MAX_EXPIRES_B36_LEN.
  destruct ds as [|d ds].
  { rewrite bool_decide_eq_true_2 by done. split; [done|]. intros (es & (He & _ & Hne & _) & E & _).
    by rewrite <- (Hinj es He E) in Hne. }
  rewrite bool_decide_eq_false_2 by done. cbn [negb].
  destruct (Z.ltb_spec 13 (Z.of_nat (length (d :: ds)))) as [Hl|Hl].
  { split; [done|]. intros (es & (He & _ & _ & Hle & _) & E & _). rewrite <- (Hinj es He E) in Hle. lia. }
  assert (startswith (of_chars (map b36_char (d :: ds))) "0" = bool_decide (d = 0)) as ->.
  { inversion Hds as [|? ? Hd _]; subst. destruct (b36_char_spec d Hd) as (_ & _ & _ & Hz).
    cbn [map of_chars string_of_list_ascii startswith String.prefix].
    destruct (ascii_dec "0" (b36_char d)) as [E|E].
    - rewrite bool_decide_eq_true_2 by (apply Hz; congruence). by destruct (string_of_list_ascii _).
    - rewrite bool_decide_eq_false_2; [done|]. intros Hd0. apply Hz in Hd0. congruence. }
  destruct ((1 <? Z.of_nat (length (d :: ds))) && bool_decide (d = 0)) eqn:Hz.
  - apply andb_true_iff in Hz as [H1 H2%bool_decide_eq_true]. split; [done|].
    intros (es & (He & [Hz|Hz] & _) & E & _); rewrite <- (Hinj es He E) in Hz; subst; [cbn in Hz; lia|].
    injection Hz as ->. done.
  - cbn [mbind res_mbind]. destruct (Z.ltb_spec MAX_UINT64 (value_of 36 (d :: ds))) as [Hm|Hm].
    { split; [done|]. intros (es & (He & _ & _ & _ & Hle) & E & _). rewrite <- (Hinj es He E) in Hle. lia. }
    split; [|by intros (es & (He & _) & E & ->); rewrite (Hinj es He E)].
    intros [= <-]. exists (d :: ds). split_and!; [done| |done|clear -Hl; cbn [length] in *; lia|done|done|done].
    apply andb_false_iff in Hz as [Hz|Hz%bool_decide_eq_false].
    + apply Z.ltb_ge in Hz. destruct ds; [|cbn [length] in Hz; lia]. destruct (decide (d = 0)) as [->|]; [by right|].
      left. inversion Hds as [|? ? Hd _]; subst. unfold is_digit_of in Hd. cbn. lia.
    + left. inversion Hds as [|? ? Hd _]; subst. unfold is_digit_of in Hd. cbn. lia.
Qed.

Lemma b36_numeral_of n : 0 < n <= MAX_UINT64 -> b36_numeral (digits_of 36 n).
Proof.
  intros Hn. destruct (digits_of_head 36 ltac:(lia) n) as (d & ds & E & Hd); [lia|].
  pose proof (digits_of_range 36 ltac:(lia) n ltac:(lia)) as Hr.
  pose proof (digits_of_value 36 ltac:(lia) n ltac:(lia)) as Hv. rewrite E in *.
  assert (no_leading_zero (d :: ds)) as Hz by done.
  destruct (value_of_leading 36 ltac:(lia) (d :: ds) Hr Hz) as [Hlo _]; [done|].
  split_and!; [done|by left|done| |rewrite Hv; lia].
  rewrite Hv in Hlo. destruct (decide (length (d :: ds) <= 13)%nat) as [|Hlen]; [done|].
  pose proof (Z.pow_le_mono_r 36 13 (Z.of_nat (length (d :: ds)) - 1) ltac:(lia) ltac:(lia)).
  unfold MAX_UINT64 in Hn. lia.
Qed.

Lemma encode_decodes n : 0 <= n <= MAX_UINT64 ->
  exists s, encode_expires_b36 n = Ok s /\ decode_expires_b36 s = Ok n.
Proof.
  intros Hn. destruct (decide (n = 0)) as [->|]; [by exists "0"|].
  eexists. split; [apply encode_expires_b36_digits; lia|].
  apply decode_expires_b36_spec. exists (digits_of 36 n). split_and!; [apply b36_numeral_of; lia|done|].
  by rewrite digits_of_value by lia.
Qed.

Lemma decoded_length s n : decode_expires_b36 s = Ok n -> str_len s <= MAX_EXPIRES_B36_LEN.
Proof.
  intros (ds & (_ & _ & _ & ? & _) & -> & _)%decode_expires_b36_spec.
  rewrite str_len_of_chars, length_map. unfold MAX_EXPIRES_B36_LEN. lia.
Qed.

(** Expiries and their base-36 text correspond one to one.  Every value of an
    unsigned 64-bit integer is encoded, in at most 13 characters, and decoded
    back; every text that decodes is the encoding of its value, so there is one
    spelling per expiry (no leading zeros, no capitals); and outside 64 bits
    encoding raises [ValueError]. *)
Theorem expires_b36_bijection :
  (forall n, 0 <= n <= MAX_UINT64 ->
     exists s, encode_expires_b36 n = Ok s /\ decode_expires_b36 s = Ok n /\ str_len s <= MAX_EXPIRES_B36_LEN) /\
  (forall s n, decode_expires_b36 s = Ok n -> 0 <= n <= MAX_UINT64 /\ encode_expires_b36 n = Ok s) /\
  (forall n, ~ (0 <= n <= MAX_UINT64) -> encode_expires_b36 n = Raise ValueError).
Proof.
  split_and!.
  - intros n Hn. destruct (encode_decodes n Hn) as (s & ? & ?). exists s. split_and!; [done..|].
    by eapply decoded_length.
  - intros s n (ds & (Hds & [Hz| ->] & Hne & _ & Hm) & -> & ->)%decode_expires_b36_spec; [|done].
    pose proof (value_of_positive 36 ltac:(lia) ds Hds Hz Hne). split; [lia|].
    rewrite encode_expires_b36_digits by lia. by rewrite digits_of_value_of by (done || lia).
  - intros n Hn. unfold encode_expires_b36. destruct (Z.ltb_spec n 0); [done|].
    destruct (Z.ltb_spec MAX_UINT64 n); [done|]. lia.
Qed.

(** ** What is signed *)

(** The last separator splits a list in one way. *)
Lemma app_sep_inj {A} (c : A) x y : forall a b, (a ++ c :: x = b ++ c :: y)%list ->
  c ∉ x -> c ∉ y -> a = b /\ x = y.
Proof.
  induction a as [|u a IH]; intros [|v b]; cbn [app]; intros E Hx Hy;
    [by injection E as ->|injection E as E1 E2..].
  - destruct Hx. rewrite E2. set_solver.
  - destruct Hy. rewrite <- E2. set_solver.
  - subst. by destruct (IH b E2 Hx Hy) as [-> ->].
Qed.

Lemma str_of_int_chars n c : 0 <= n -> c ∈ chars (str_of_int n) -> is_digit c = true.
Proof.
  intros Hn. unfold str_of_int. rewrite chars_of_chars, (proj2 (Z.ltb_ge n 0)) by lia.
  destruct (n =? 0); [intros ->%list_elem_of_singleton; done|].
  intros (d & -> & Hd)%list_elem_of_fmap. pose proof (digits_of_range 10 ltac:(lia) n Hn) as Hr.
  rewrite Forall_forall in Hr. apply code_digit_Z, Hr, Hd.
Qed.

Lemma decoded_chars s n c : decode_expires_b36 s = Ok n -> c ∈ chars s -> is_lower_alnum c = true.
Proof.
  intros (ds & (Hds & _) & -> & _)%decode_expires_b36_spec. rewrite chars_of_chars.
  intros (d & -> & Hd)%list_elem_of_fmap. rewrite Forall_forall in Hds. apply b36_char_spec, Hds, Hd.
Qed.

(** Neither field can contain the line break that ends it. *)
Lemma not_in_field (P : ascii -> bool) (l : list ascii) d :
  (forall c, c ∈ l -> P c = true) -> P d = false -> d ∉ l.
Proof. intros H Hd Hin. apply H in Hin. congruence. Qed.

Lemma lines_inj {A} (c : A) a1 p1 e1 a2 p2 e2 :
  c ∉ p1 -> c ∉ p2 -> c ∉ e1 -> c ∉ e2 ->
  (a1 ++ [c] ++ p1 ++ [c] ++ e1 ++ [c] = a2 ++ [c] ++ p2 ++ [c] ++ e2 ++ [c])%list ->
  a1 = a2 /\ p1 = p2 /\ e1 = e2.
Proof.
  intros Hp1 Hp2 He1 He2 E.
  assert (forall a p e, (a ++ [c] ++ p ++ [c] ++ e ++ [c] = ((a ++ c :: p) ++ c :: e) ++ [c])%list) as Hr
    by (intros; by rewrite <- !app_assoc).
  rewrite !Hr in E. apply app_inj_tail in E as [E _].
  apply app_sep_inj in E as [E ->]; [|done..]. by apply app_sep_inj in E as [-> ->].
Qed.

Lemma canonical_text_inj id1 p1 e1 n1 id2 p2 e2 n2 :
  0 <= p1 -> 0 <= p2 -> decode_expires_b36 e1 = Ok n1 -> decode_expires_b36 e2 = Ok n2 ->
  canonical_text id1 p1 e1 = canonical_text id2 p2 e2 -> id1 = id2 /\ p1 = p2 /\ e1 = e2.
Proof.
  intros Hp1 Hp2 He1 He2 E. apply (f_equal chars) in E. unfold canonical_text in E.
  rewrite !chars_app in E. do 4 apply app_inv_head in E.
  change (chars nl) with [ascii_of_N 10] in E.
  apply lines_inj in E as (E1 & E2 & E3).
  - split_and!; [by apply chars_inj| |by apply chars_inj].
    apply str_of_int_inj; [done..|by apply chars_inj].
  - apply (not_in_field is_digit); [|done]. intros ?. by apply str_of_int_chars.
  - apply (not_in_field is_digit); [|done]. intros ?. by apply str_of_int_chars.
  - apply (not_in_field is_lower_alnum); [|done]. intros ?. by apply (decoded_chars e1 n1).
  - apply (not_in_field is_lower_alnum); [|done]. intros ?. by apply (decoded_chars e2 n2).
Qed.

Lemma be32_ok x l : be32 x = Ok l -> 0 <= x < 2 ^ 32 /\ l = be32_bytes x.
Proof. unfold be32. destruct (_ || _) eqn:E; [done|]. intros [= <-]. split; [lia|done]. Qed.

Lemma signing_input_ok secret canonical i : signing_input secret canonical = Ok i ->
  0 <= Z.of_nat (length secret) < 2 ^ 32 /\ 0 <= Z.of_nat (length canonical) < 2 ^ 32 /\
  i = (be32_bytes (Z.of_nat (length secret)) ++ secret ++
       be32_bytes (Z.of_nat (length canonical)) ++ canonical)%list.
Proof.
  unfold signing_input. intros (n & [? ->]%be32_ok & (m & [? ->]%be32_ok & [= <-])%res_bind_ok)%res_bind_ok.
  done.
Qed.

(** A length-prefixed field is read back, whatever follows it. *)
Lemma prefixed_inj l1 l2 r1 r2 :
  Z.of_nat (length l1) < 2 ^ 32 -> Z.of_nat (length l2) < 2 ^ 32 ->
  (be32_bytes (Z.of_nat (length l1)) ++ l1 ++ r1 = be32_bytes (Z.of_nat (length l2)) ++ l2 ++ r2)%list ->
  l1 = l2 /\ r1 = r2.
Proof.
  intros H1 H2 E. apply app_inj_1 in E as [E1 E2]; [|done].
  apply be32_bytes_inj in E1; [|lia..]. apply app_inj_1 in E2; [done|lia].
Qed.

Lemma signing_input_inj k1 c1 k2 c2 i :
  signing_input k1 c1 = Ok i -> signing_input k2 c2 = Ok i -> k1 = k2 /\ c1 = c2.
Proof.
  intros (H1 & H2 & ->)%signing_input_ok (H3 & H4 & E)%signing_input_ok.
  apply prefixed_inj in E as [-> E]; [|lia..].
  destruct (prefixed_inj c1 c2 [] []) as [-> _]; rewrite ?app_nil_r; [lia|lia|done|done].
Qed.

(** What is hashed determines the route: two successful signing inputs over
    valid routes are the same bytes only when the secrets, sandbox ids, ports and
    expiries are all the same, so a signature cannot be moved to another route
    without a collision of the truncated hash. *)
Theorem signing_input_binds k1 id1 p1 e1 n1 c1 k2 id2 p2 e2 n2 c2 i :
  build_canonical_bytes id1 p1 e1 = Ok c1 -> build_canonical_bytes id2 p2 e2 = Ok c2 ->
  decode_expires_b36 e1 = Ok n1 -> decode_expires_b36 e2 = Ok n2 ->
  signing_input k1 c1 = Ok i -> signing_input k2 c2 = Ok i ->
  k1 = k2 /\ id1 = id2 /\ p1 = p2 /\ e1 = e2.
Proof.
  unfold build_canonical_bytes. intros Hc1 Hc2 He1 He2 Hi1 Hi2.
  destruct (negb _) eqn:Hp1 in Hc1; [done|]. destruct (negb _) eqn:Hp2 in Hc2; [done|].
  injection Hc1 as <-. injection Hc2 as <-.
  destruct (signing_input_inj _ _ _ _ _ Hi1 Hi2) as [-> E%utf8_inj]. split; [done|].
  eapply canonical_text_inj; [lia|lia|done..].
Qed.

Lemma signing_input_binds_witness :
  exists c i, build_canonical_bytes "my-sandbox" 8080 "x2qxvk" = Ok c /\
    signing_input [1; 2; 3] c = Ok i /\ ([1; 2; 3] = [1; 2; 3] /\ "my-sandbox" = "my-sandbox" /\ 8080 = 8080 /\ "x2qxvk" = "x2qxvk").
Proof.
  eexists _, _. split; [reflexivity|]. split; [reflexivity|].
  eapply (signing_input_binds [1; 2; 3] "my-sandbox" 8080 "x2qxvk" 2000000000 _
            [1; 2; 3] "my-sandbox" 8080 "x2qxvk" 2000000000); reflexivity.
Defined.

(** ** The shape of a signature *)

Definition is_lower_hex (c : ascii) : bool := is_digit c || between 97 102 c.

Lemma hex_digit_ok n : 0 <= n < 16 -> is_lower_hex (hex_digit n) = true.
Proof.
  intros Hn. unfold is_lower_hex, hex_digit, is_digit, between.
  destruct (Z.ltb_spec n 10).
  - rewrite code_digit by lia. lia.
  - rewrite code_ascii_of_N, Z2N.id by lia. lia.
Qed.

Lemma hex_ok l : Forall is_byte l -> forallb is_lower_hex (hex l) = true.
Proof.
  induction 1 as [|b l Hb _ IH]; [done|]. unfold is_byte in Hb.
  cbn [hex flat_map app forallb]. rewrite !hex_digit_ok, andb_true_l; [done|..].
  - apply Z.mod_pos_bound. lia.
  - split; [apply Z.div_pos; lia|apply Z.div_lt_upper_bound; lia].
Qed.

(** The first 8 hexadecimal digits are those of the first 4 bytes. *)
Lemma take_hex l : take 8 (hex l) = hex (take 4 l).
Proof. destruct l as [|a [|b [|c [|d l]]]]; cbn; try done. Qed.

Lemma hex8_shape msg : exists h, take 8 (hex (sha256 msg)) = h /\ length h = 8%nat /\ forallb is_lower_hex h = true.
Proof.
  destruct (sha256_bytes msg) as [Hl Hb]. eexists. split; [done|]. rewrite take_hex.
  split; [|by apply hex_ok, Forall_take].
  by destruct (sha256 msg) as [|? [|? [|? [|? ?]]]].
Qed.

(** A signature with a valid key id: eight hexadecimal digits and the key. *)
Lemma compute_signature_shape secret key canonical s :
  compute_signature secret (String key "") canonical = Ok s ->
  exists h, chars s = (h ++ [key])%list /\ length h = 8%nat /\ forallb is_lower_hex h = true.
Proof.
  intros (hex8 & (i & _ & [= <-])%res_bind_ok & [= <-])%res_bind_ok.
  destruct (hex8_shape i) as (h & -> & Hl & Hh). exists h. split; [|done].
  by rewrite chars_app, chars_of_chars.
Qed.
