(* ===== verification/IngressConfig.v ===== *)
(** * Ingress configuration

    [server/opensandbox_server/config.py]: the signing keys, the gateway address
    and the checks pydantic runs when they are read from the configuration file
    or the environment.  A constructor that validates is a function that returns
    the record or raises; pydantic's [ValidationError] is a [ValueError]. *)

From Stdlib Require Import ZArith Lia Ascii String.
From stdpp Require Import base numbers strings sets list.
From S2P Require Import Prelude PyString PyText PyCodec Regex Validators.
From S2P Require Import Sha256 Signing.

Open Scope string_scope.
Open Scope Z_scope.

(** [if bad: raise ValueError] *)
Definition reject_if (bad : bool) : res pyexn unit := if bad then Raise ValueError else Ok tt.

(** ** Host names and addresses *)

(** [$] also matches before a final line break. *)
Definition drop_last_newline (l : list ascii) : list ascii :=
  match rev l with
  | c :: r => if code c =? 10 then rev r else l
  | [] => l
  end.

Definition is_host_char (c : ascii) : bool := is_alnum_az c || bool_decide (c = "-"%char).

(** [[A-Za-z0-9-]{1,63}], and the same after [(?!-)] *)
Definition host_label (l : list ascii) : bool :=
  (1 <=? Z.of_nat (length l)) && (Z.of_nat (length l) <=? 63) && forallb is_host_char l.
Definition no_dash_label (l : list ascii) : bool :=
  host_label l && negb (bool_decide (head l = Some "-"%char)).

Definition HOSTNAME_RE (s : string) : bool :=
  let l := drop_last_newline (chars s) in
  (1 <=? Z.of_nat (length l)) && (Z.of_nat (length l) <=? 253) && forallb no_dash_label (split_list "." l).

Definition WILDCARD_DOMAIN_RE (s : string) : bool :=
  match drop_last_newline (chars s) with
  | "*"%char :: "."%char :: l =>
      match split_list "." l with
      | first :: ((_ :: _) as others) => no_dash_label first && forallb host_label others
      | _ => false
      end
  | _ => false
  end.

(** [s.isdigit()]: the digits and the superscripts 1, 2 and 3 of Latin-1. *)
Definition isdigit (l : list ascii) : bool :=
  negb (bool_decide (l = [])) &&
  forallb (fun c => is_digit c || (code c =? 178) || (code c =? 179) || (code c =? 185)) l.

(** [int(text)], which raises on the superscripts *)
Definition int_or_raise (s : string) : res pyexn Z :=
  match int_of_str s with Some n => Ok n | None => Raise ValueError end.

(** The decimal octets [ipaddress.ip_address] accepts: up to three digits, no
    leading zero, at most 255. *)
Definition ipv4_octet (l : list ascii) : bool :=
  match l with
  | [] => false
  | [c] => is_digit c
  | c :: _ => (Z.of_nat (length l) <=? 3) && forallb is_digit l && negb (bool_decide (c = "0"%char)) &&
              match undigits 0 l with Some n => n <=? 255 | None => false end
  end.

(** [_is_valid_ip] on a text of the form [d.d.d.d]: only IPv4 can parse. *)
Definition is_valid_ip (l : list ascii) : bool :=
  match split_list "." l with
  | [a; b; c; d] => ipv4_octet a && ipv4_octet b && ipv4_octet c && ipv4_octet d
  | _ => false
  end.

(** [_IPV4_WITH_PORT_RE]: four groups of one to three digits and an optional
    port of one to five. *)
Definition digits_between (lo hi : Z) (l : list ascii) : bool :=
  (lo <=? Z.of_nat (length l)) && (Z.of_nat (length l) <=? hi) && forallb is_digit l.

Definition IPV4_WITH_PORT_RE (s : string) : option (list ascii * option (list ascii)) :=
  let dotted ip := match split_list "." ip with
                   | [a; b; c; d] => forallb (digits_between 1 3) [a; b; c; d]
                   | _ => false
                   end in
  match split_list ":" (drop_last_newline (chars s)) with
  | [ip] => if dotted ip then Some (ip, None) else None
  | [ip; port] => if dotted ip && digits_between 1 5 port then Some (ip, Some port) else None
  | _ => None
  end.

Definition is_valid_ip_or_ip_port (address : string) : bool :=
  match IPV4_WITH_PORT_RE address with
  | None => false
  | Some (ip, port) =>
      if negb (is_valid_ip ip) then false
      else match port with
           | None => true
           | Some p => match int_of_str (of_chars p) with
                       | Some n => (1 <=? n) && (n <=? 65535)
                       | None => false
                       end
           end
  end.

(** [address.rpartition(":")] of a text with a colon: before and after the last. *)
Definition rpartition_colon (l : list ascii) : list ascii * list ascii :=
  let r := rev l in
  let after := (fix go r := match r with
                            | c :: r => if decide (c = ":"%char) then [] else c :: go r
                            | [] => []
                            end) r in
  (take (length l - S (length after)) l, rev after).

Definition is_valid_hostname (address : string) : res pyexn bool :=
  let l := chars address in
  if bool_decide (":"%char ∈ l) then
    let '(host, port_str) := rpartition_colon l in
    if bool_decide (host = []) || bool_decide (port_str = []) then Ok false
    else if negb (isdigit port_str) then Ok false
    else port ← int_or_raise (of_chars port_str);
         if negb ((1 <=? port) && (port <=? 65535)) then Ok false
         else Ok (HOSTNAME_RE (of_chars host))
  else Ok (HOSTNAME_RE address).

Definition is_wildcard_domain (host : string) : bool := WILDCARD_DOMAIN_RE host.

(** ** Base64 *)

Definition b64_value (c : ascii) : option Z :=
  if is_upper_az c then Some (code c - 65)
  else if is_lower_az c then Some (code c - 71)
  else if is_digit c then Some (code c + 4)
  else if decide (c = "+"%char) then Some 62
  else if decide (c = "/"%char) then Some 63
  else None.

Definition is_b64 (c : ascii) : bool := bool_decide (is_Some (b64_value c)).

(** Bytes of a sequence of sextets; the bits left over are dropped. *)
Fixpoint b64_bytes (l : list Z) : list Z :=
  match l with
  | a :: b :: c :: d :: l =>
      (4 * a + b / 16) :: (16 * (b mod 16) + c / 4) :: (64 * (c mod 4) + d) :: b64_bytes l
  | [a; b; c] => [4 * a + b / 16; 16 * (b mod 16) + c / 4]
  | [a; b] => [4 * a + b / 16]
  | _ => []
  end.

Fixpoint take_while (p : ascii -> bool) (l : list ascii) : list ascii :=
  match l with
  | c :: l => if p c then c :: take_while p l else []
  | [] => []
  end.

(** [base64.b64decode(s, validate=True)] of Python 3.10, the version the server
    is built for: the text must match [[A-Za-z0-9+/]*={0,2}]; then the decoder
    needs two pads after two characters of a group, one after three, and
    ignores pads after a complete group. *)
Definition b64decode (s : string) : option (list Z) :=
  let data := take_while is_b64 (chars s) in
  let pads := drop_while is_b64 (chars s) in
  if forallb (fun c => bool_decide (c = "="%char)) pads && (length pads <=? 2)%nat then
    let need := match (length data mod 4)%nat with 0 => Some 0%nat | 2 => Some 2%nat | 3 => Some 1%nat | _ => None end%nat in
    match need with
    | Some n => if (n <=? length pads)%nat then b64_bytes <$> mapM b64_value data else None
    | None => None
    end
  else None.

Definition try_decode_base64 (s : string) : option (list Z) :=
  match b64decode s with
  | Some b => Some b
  | None => b64decode (s +:+ of_chars (repeat "="%char (Z.to_nat ((4 - str_len s mod 4) mod 4))))
  end.

(** ** Signing keys *)

Record SecureAccessKey := { key_id : string; key : string }.
Record SecureAccessConfig := { active_key : string; keys : list SecureAccessKey }.

(** [Field(min_length=1, max_length=1)] and [_KEY_ID_RE] *)
Definition validate_key_id_char (v : string) : res pyexn unit :=
  match chars v with
  | [c] => reject_if (negb (is_lower_alnum c))
  | _ => Raise ValueError
  end.

Definition validate_key_is_base64 (v : string) : res pyexn unit :=
  _ ← reject_if (bool_decide (v = ""));
  match try_decode_base64 v with
  | None => Raise ValueError
  | Some decoded => reject_if (bool_decide (decoded = []))
  end.

Definition new_SecureAccessKey (id k : string) : res pyexn SecureAccessKey :=
  _ ← validate_key_id_char id; _ ← validate_key_is_base64 k;
  Ok {| key_id := id; key := k |}.

Definition get_secret_bytes (k : SecureAccessKey) : res pyexn (list Z) :=
  match try_decode_base64 (key k) with Some b => Ok b | None => Raise AssertionError end.

(** The loop of [ensure_active_key_exists] over [self.keys], with [seen]. *)
Fixpoint check_unique (seen : list string) (ks : list SecureAccessKey) : res pyexn (list string) :=
  match ks with
  | [] => Ok seen
  | k :: ks => if bool_decide (key_id k ∈ seen) then Raise ValueError
               else check_unique (key_id k :: seen) ks
  end.

Definition ensure_active_key_exists (c : SecureAccessConfig) : res pyexn unit :=
  seen ← check_unique [] (keys c);
  reject_if (negb (bool_decide (active_key c ∈ seen))).

Definition new_SecureAccessConfig (active : string) (ks : list SecureAccessKey) : res pyexn SecureAccessConfig :=
  _ ← validate_key_id_char active;
  _ ← reject_if (bool_decide (ks = []));
  let c := {| active_key := active; keys := ks |} in
  _ ← ensure_active_key_exists c; Ok c.

Fixpoint find_secret (active : string) (ks : list SecureAccessKey) : res pyexn (list Z) :=
  match ks with
  | [] => Raise RuntimeError
  | k :: ks => if bool_decide (key_id k = active) then get_secret_bytes k else find_secret active ks
  end.

Definition get_active_secret_bytes (c : SecureAccessConfig) : res pyexn (list Z) :=
  find_secret (active_key c) (keys c).

(** ** The ingress block *)

Inductive ingress_mode := INGRESS_MODE_DIRECT | INGRESS_MODE_GATEWAY.
Inductive gateway_route_mode := GATEWAY_ROUTE_MODE_WILDCARD | GATEWAY_ROUTE_MODE_HEADER | GATEWAY_ROUTE_MODE_URI.

#[global] Instance ingress_mode_eq_dec : EqDecision ingress_mode.
Proof. solve_decision. Defined.
#[global] Instance gateway_route_mode_eq_dec : EqDecision gateway_route_mode.
Proof. solve_decision. Defined.

Record GatewayConfig := { address : string; route_mode : gateway_route_mode }.
Record IngressConfig := {
  mode : ingress_mode;
  gateway : option GatewayConfig;
  secure_access : option SecureAccessConfig }.

(** The address checks of [validate_ingress_mode], by route mode. *)
Definition validate_address (g : GatewayConfig) : res pyexn unit :=
  let hostport := address g in
  _ ← reject_if (is_infix (chars "://") (chars hostport));
  if bool_decide (route_mode g = GATEWAY_ROUTE_MODE_WILDCARD) then
    reject_if (negb (is_wildcard_domain hostport))
  else
    _ ← reject_if (is_infix (chars "*") (chars hostport));
    match route_mode g with
    | GATEWAY_ROUTE_MODE_HEADER =>
        h ← is_valid_hostname hostport;
        reject_if (negb (h || is_valid_ip_or_ip_port hostport))
    | GATEWAY_ROUTE_MODE_URI => reject_if (bool_decide (strip hostport = ""))
    | GATEWAY_ROUTE_MODE_WILDCARD => Ok tt
    end.

Definition validate_ingress_mode (c : IngressConfig) : res pyexn unit :=
  _ ← reject_if (bool_decide (mode c = INGRESS_MODE_GATEWAY) && bool_decide (gateway c = None));
  _ ← reject_if (bool_decide (mode c = INGRESS_MODE_DIRECT) && negb (bool_decide (gateway c = None)));
  _ ← reject_if (negb (bool_decide (secure_access c = None)) && negb (bool_decide (mode c = INGRESS_MODE_GATEWAY)));
  match mode c, gateway c with
  | INGRESS_MODE_GATEWAY, Some g => validate_address g
  | _, _ => Ok tt
  end.

(** [IngressConfig(...)]: the field constraint [address: min_length=1] first. *)
Definition new_IngressConfig (m : ingress_mode) (g : option GatewayConfig) (s : option SecureAccessConfig) : res pyexn IngressConfig :=
  _ ← match g with Some g => reject_if (bool_decide (address g = "")) | None => Ok tt end;
  let c := {| mode := m; gateway := g; secure_access := s |} in
  _ ← validate_ingress_mode c; Ok c.

(** ** Keys from the environment *)

(** [pair.partition("=")]: before and after the first, [None] without one *)
Fixpoint partition_at (c : ascii) (l : list ascii) : option (list ascii * list ascii) :=
  match l with
  | [] => None
  | x :: l => if decide (x = c) then Some ([], l)
              else '(a, b) ← partition_at c l; Some (x :: a, b)
  end.

Definition parse_key_pair (pair : string) : res pyexn SecureAccessKey :=
  match partition_at "=" (chars pair) with
  | None => Raise ValueError
  | Some (id, b64) =>
      if bool_decide (id = []) then Raise ValueError
      else new_SecureAccessKey (of_chars id) (of_chars b64)
  end.

(** [for x in l: keys.append(f(x))] *)
Fixpoint map_res {A B} (f : A -> res pyexn B) (l : list A) : res pyexn (list B) :=
  match l with
  | [] => Ok []
  | x :: l => y ← f x; ys ← map_res f l; Ok (y :: ys)
  end.

(** The two environment variables, [None] when unset, and the ingress block of
    the configuration file; the result is the block afterwards. *)
Definition apply_secure_access_env_overrides (keys_env active_key_env : option string)
    (ingress : option IngressConfig) : res pyexn (option IngressConfig) :=
  match keys_env, active_key_env with
  | None, None => Ok ingress
  | _, _ =>
      let keys_env := default "" keys_env in
      let active_key_env := default "" active_key_env in
      _ ← reject_if (bool_decide (keys_env = "") || bool_decide (active_key_env = ""));
      match ingress with
      | Some c =>
          _ ← reject_if (negb (bool_decide (mode c = INGRESS_MODE_GATEWAY)));
          ks ← map_res parse_key_pair (split keys_env ",");
          s ← new_SecureAccessConfig active_key_env ks;
          Ok (Some {| mode := mode c; gateway := gateway c; secure_access := Some s |})
      | None => Raise ValueError
      end
  end.

(** ** What validation guarantees *)

Definition valid_key (k : SecureAccessKey) : Prop :=
  exists c b, key_id k = String c "" /\ is_lower_alnum c = true /\
    try_decode_base64 (key k) = Some b /\ b <> [].

Definition valid_secure_access (c : SecureAccessConfig) : Prop :=
  Forall valid_key (keys c) /\ NoDup (key_id <$> keys c) /\ active_key c ∈ key_id <$> keys c.

(** A valid gateway address carries no scheme; under a wildcard route it is
    [*.] and a domain, otherwise it has no wildcard. *)
Definition valid_address (g : GatewayConfig) : Prop :=
  is_infix (chars "://") (chars (address g)) = false /\ address g <> "" /\
  match route_mode g with
  | GATEWAY_ROUTE_MODE_WILDCARD => exists base, chars (address g) = ("*" :: "." :: base)%char /\ base <> []
  | _ => "*"%char ∉ chars (address g)
  end.

Definition valid_ingress (c : IngressConfig) : Prop :=
  match mode c with
  | INGRESS_MODE_DIRECT => gateway c = None /\ secure_access c = None
  | INGRESS_MODE_GATEWAY => (exists g, gateway c = Some g /\ valid_address g) /\
      forall s, secure_access c = Some s -> valid_secure_access s
  end.

Lemma reject_if_ok b : reject_if b = Ok tt <-> b = false.
Proof. destruct b; naive_solver. Qed.

(** Unfolds a chain of checks that passed. *)
Ltac passed H :=
  repeat first
    [ progress (rewrite res_bind_ok in H)
    | match type of H with
      | exists _, _ => let x := fresh "x" in destruct H as [x H]
      | _ /\ _ => let H1 := fresh "Hc" in destruct H as [H1 H]
      end ].

Lemma validate_key_id_char_ok v u : validate_key_id_char v = Ok u ->
  exists c, v = String c "" /\ is_lower_alnum c = true.
Proof.
  unfold validate_key_id_char. intros H. destruct (chars v) as [|c [|d l]] eqn:E; [done| |done].
  destruct u. apply reject_if_ok, negb_false_iff in H. exists c. split; [|done]. apply chars_inj. by rewrite E.
Qed.

Lemma new_SecureAccessKey_valid id k r : new_SecureAccessKey id k = Ok r ->
  r = {| key_id := id; key := k |} /\ valid_key r.
Proof.
  unfold new_SecureAccessKey, validate_key_is_base64. intros H. passed H. injection H as <-. split; [done|].
  apply validate_key_id_char_ok in Hc as (c & -> & Hc).
  destruct Hc0 as (u & _ & Hc0). destruct (try_decode_base64 k) as [b|] eqn:Hb; [|done]. destruct x0.
  apply reject_if_ok, bool_decide_eq_false in Hc0.
  exists c, b. split_and!; done.
Qed.

Lemma check_unique_ok ks : forall seen seen', check_unique seen ks = Ok seen' -> NoDup seen ->
  NoDup seen' /\ NoDup (key_id <$> ks) /\ (forall i, i ∈ seen' <-> i ∈ seen \/ i ∈ key_id <$> ks) /\
  (forall i, i ∈ seen -> i ∉ key_id <$> ks).
Proof.
  induction ks as [|k ks IH]; cbn [check_unique]; intros seen seen' H Hn.
  - injection H as <-. split_and!; [done|constructor|set_solver|set_solver].
  - case_bool_decide; [done|]. destruct (IH _ _ H ltac:(by constructor)) as (H1 & H2 & H3 & H4).
    split_and!; [done| | |].
    + apply NoDup_cons. split; [|done]. apply H4. set_solver.
    + intros i. rewrite H3, fmap_cons. set_solver.
    + intros i Hi. rewrite fmap_cons, elem_of_cons. intros [->|Hin]; [done|]. by apply (H4 i); [set_solver|].
Qed.

Lemma new_SecureAccessConfig_valid a ks c : Forall valid_key ks ->
  new_SecureAccessConfig a ks = Ok c -> valid_secure_access c.
Proof.
  unfold new_SecureAccessConfig, ensure_active_key_exists. intros Hks H. passed H. injection H as <-.
  passed Hc1. destruct x1. apply reject_if_ok, negb_false_iff, bool_decide_eq_true in Hc1. cbn in *.
  destruct (check_unique_ok _ _ _ Hc2 ltac:(constructor)) as (_ & Hn & Hin & _).
  split_and!; [done|done|]. apply Hin in Hc1. set_solver.
Qed.

(** Signing never fails for want of a key: the active secret is there and is not empty. *)
Lemma valid_secure_access_secret c : valid_secure_access c ->
  exists secret, get_active_secret_bytes c = Ok secret /\ secret <> [].
Proof.
  unfold get_active_secret_bytes. intros (Hv & _ & Hin). induction (keys c) as [|k ks IH]; [set_solver|].
  inversion Hv as [|? ? Hk Hks]; subst. cbn [find_secret]. case_bool_decide as E.
  - destruct Hk as (? & b & _ & _ & Hb & Hne). exists b. unfold get_secret_bytes. by rewrite Hb.
  - apply IH; [done|]. rewrite fmap_cons in Hin. set_solver.
Qed.

Lemma valid_active_key c : valid_secure_access c ->
  exists a, active_key c = String a "" /\ is_lower_alnum a = true.
Proof.
  intros (Hv & _ & (k & -> & Hk)%list_elem_of_fmap). rewrite Forall_forall in Hv.
  destruct (Hv k Hk) as (a & b & Ha & Hl & _). by exists a.
Qed.

Lemma is_infix_one c l : is_infix [c] l = true <-> c ∈ l.
Proof.
  induction l as [|x l IH]; cbn [is_infix length take].
  - rewrite bool_decide_eq_false_2 by done. set_solver.
  - rewrite orb_true_iff, IH, bool_decide_eq_true. rewrite take_0. set_solver.
Qed.

Lemma wildcard_shape s : WILDCARD_DOMAIN_RE s = true ->
  exists base, chars s = ("*" :: "." :: base)%char /\ base <> [].
Proof.
  unfold WILDCARD_DOMAIN_RE, drop_last_newline. intros H.
  assert (exists l, ((exists n, chars s = l ++ [n]) \/ chars s = l) /\
    exists r, l = ("*" :: "." :: r)%char /\ r <> [])%list as (l & Hl & r & -> & Hr).
  { destruct (rev (chars s)) as [|c r] eqn:E.
    1: { assert (chars s = []) as E2 by (by rewrite <- (rev_involutive (chars s)), E). by rewrite E2 in H. }
    assert (chars s = rev r ++ [c])%list as E2 by (by rewrite <- (rev_involutive (chars s)), E).
    exists (if code c =? 10 then rev r else chars s). split; [destruct (code c =? 10); eauto|].
    repeat case_match; simplify_eq; eexists; (split; [done|]); by intros ->. }
  destruct Hl as [(n & ->)| ->]; [|by exists r]. exists (r ++ [n])%list. split; [done|]. by destruct r.
Qed.

Lemma validate_address_ok g u : address g <> "" -> validate_address g = Ok u -> valid_address g.
Proof.
  unfold validate_address, valid_address. intros Hne H. passed H. destruct x. apply reject_if_ok in Hc.
  split_and!; [done|done|]. destruct (route_mode g) eqn:Em.
  - rewrite bool_decide_eq_true_2 in H by done. destruct u. apply reject_if_ok, negb_false_iff in H.
    by apply wildcard_shape.
  - rewrite bool_decide_eq_false_2 in H by done. passed H. destruct x. apply reject_if_ok in Hc0.
    change (chars "*") with ["*"%char] in Hc0. rewrite <- is_infix_one. congruence.
  - rewrite bool_decide_eq_false_2 in H by done. passed H. destruct x. apply reject_if_ok in Hc0.
    change (chars "*") with ["*"%char] in Hc0. rewrite <- is_infix_one. congruence.
Qed.

Lemma map_res_forall {A B} (f : A -> res pyexn B) (P : B -> Prop) l ys :
  (forall x y, f x = Ok y -> P y) -> map_res f l = Ok ys -> Forall P ys.
Proof.
  intros Hf. revert ys. induction l as [|x l IH]; cbn [map_res]; intros ys H; [by injection H as <-|].
  passed H. injection H as <-. constructor; eauto.
Qed.

Lemma parse_key_pair_valid p k : parse_key_pair p = Ok k -> valid_key k.
Proof.
  unfold parse_key_pair. destruct (partition_at _ _) as [[id b]|]; [|done].
  case_bool_decide; [done|]. by intros [_ ?]%new_SecureAccessKey_valid.
Qed.

(** The ingress block of [load_config]: the table of the configuration file, its
    keys first, then the environment.  [file_keys] is the [secure_access] table:
    its active key and its list of key entries. *)
Definition load_ingress (m : ingress_mode) (g : option GatewayConfig)
    (file_keys : option (string * list (string * string))) (keys_env active_key_env : option string)
    : res pyexn (option IngressConfig) :=
  s ← match file_keys with
      | None => Ok None
      | Some (a, entries) =>
          ks ← map_res (fun '(id, k) => new_SecureAccessKey id k) entries;
          s ← new_SecureAccessConfig a ks; Ok (Some s)
      end;
  c ← new_IngressConfig m g s;
  apply_secure_access_env_overrides keys_env active_key_env (Some c).

Lemma new_IngressConfig_valid m g s c :
  (forall s', s = Some s' -> valid_secure_access s') ->
  new_IngressConfig m g s = Ok c -> valid_ingress c.
Proof.
  unfold new_IngressConfig, validate_ingress_mode. intros Hs H. passed H. injection H as <-.
  cbn [mode gateway secure_access] in Hc0. passed Hc0. destruct x1, x2, x3.
  apply reject_if_ok in Hc1, Hc2, Hc3. unfold valid_ingress. cbn [mode gateway secure_access].
  destruct m, g as [g|]; cbn in Hc1, Hc2, Hc3; try done.
  - rewrite andb_true_r in Hc3. apply negb_false_iff, bool_decide_eq_true in Hc3. done.
  - split; [|done]. exists g. split; [done|]. destruct x. apply reject_if_ok, bool_decide_eq_false in Hc.
    by eapply validate_address_ok.
Qed.

Lemma apply_env_valid ke ae c r : valid_ingress c ->
  apply_secure_access_env_overrides ke ae (Some c) = Ok r -> exists c', r = Some c' /\ valid_ingress c'.
Proof.
  unfold apply_secure_access_env_overrides. intros Hv H.
  destruct ke as [ke|], ae as [ae|]; [..|injection H as <-; eauto]; passed H; injection H as <-;
    (eexists; split; [done|]); destruct x0; apply reject_if_ok, negb_false_iff, bool_decide_eq_true in Hc0;
    unfold valid_ingress in *; cbn [mode gateway secure_access] in *; rewrite Hc0 in *;
    (split; [apply Hv|]); intros s [= <-]; (eapply new_SecureAccessConfig_valid; [|done]);
    (eapply map_res_forall; [|done]); apply parse_key_pair_valid.
Qed.


