(* ===== verification/Gateway.v ===== *)
(** * The ingress gateway

    [components/ingress/pkg/signature/signature.go],
    [signature/ingress_access.go], [proxy/host_route_parse.go], [proxy/host.go],
    [proxy/errors.go] and the routing part of [proxy/proxy.go]: how the gateway
    reads a route, decides whether it may be used, and where the request goes.
    The gateway is written in Go; its strings are sequences of bytes and are
    assumed to be ASCII, as host names, paths and header values are.  An [error]
    is kept by the sentinel [errors.Is] finds in it. *)

From Stdlib Require Import ZArith Lia Ascii String.
From stdpp Require Import base numbers strings sets list.
From S2P Require Import Prelude PyString PyText PyCodec Regex Validators.
From S2P Require Import Sha256 Signing IngressConfig.

Open Scope string_scope.
Open Scope Z_scope.

Inductive goerr :=
  | ErrUnauthorized | ErrAccessExpired | ErrSecureHeaderMismatch | ErrSignatureRequired
  | ErrVerifierNotConfigured | ErrSandboxNotFound | ErrSandboxNotReady | ErrOther.

(** [if bad { return err }] *)
Definition fail_if (bad : bool) (e : goerr) : res goerr unit := if bad then Raise e else Ok tt.

(** ** Standard library *)

(** [strings.TrimSpace] on ASCII *)
Definition go_space (c : ascii) : bool := between 9 13 c || (code c =? 32).
Definition trim_space (s : string) : string := of_chars (strip_list go_space (chars s)).

(** [strings.TrimPrefix] *)
Definition trim_prefix (s p : string) : string :=
  if startswith s p then of_chars (drop (String.length p) (chars s)) else s.

(** [strings.SplitN(s, sep, n)] for [n > 0] *)
Fixpoint splitn_list (n : nat) (c : ascii) (l : list ascii) : list (list ascii) :=
  match n with
  | O => []
  | 1%nat => [l]
  | S n => match partition_at c l with
           | None => [l]
           | Some (a, b) => a :: splitn_list n c b
           end
  end.

(** [strings.Join] *)
Fixpoint join_list (c : ascii) (ws : list (list ascii)) : list ascii :=
  match ws with
  | [] => []
  | [w] => w
  | w :: ws => (w ++ c :: join_list c ws)%list
  end.

(** [strconv.Atoi]: an optional sign and decimal digits, within 64 bits *)
Definition atoi (l : list ascii) : option Z :=
  let unsigned d := match d with [] => None | _ => undigits 0 d end in
  let n := match l with
           | "-"%char :: d => Z.opp <$> unsigned d
           | "+"%char :: d => unsigned d
           | d => unsigned d
           end in
  v ← n; if (- 2 ^ 63 <=? v) && (v <? 2 ^ 63) then Some v else None.

(** [strconv.ParseUint(s, 36, 64)] *)
Definition parse_uint36 (s : string) : res goerr Z :=
  match mapM b36_value (chars s) with
  | Some (d :: ds) => let v := value_of 36 (d :: ds) in if 2 ^ 64 <=? v then Raise ErrOther else Ok v
  | _ => Raise ErrOther
  end.

(** [base64.StdEncoding.DecodeString]: line breaks are skipped; the last group is
    complete or padded to four. *)
Definition std_decode (s : string) : option (list Z) :=
  let l := List.filter (fun c => negb ((code c =? 10) || (code c =? 13))) (chars s) in
  let data := take_while is_b64 l in
  let pads := drop_while is_b64 l in
  if forallb (fun c => bool_decide (c = "="%char)) pads &&
     (((length data mod 4 + length pads) =? 4)%nat && (2 <=? length data mod 4)%nat ||
      ((length data mod 4) =? 0)%nat && (length pads =? 0)%nat)
  then b64_bytes <$> mapM b64_value data else None.

(** ** Keys *)

Definition Keys := list (string * list Z).

Definition parse_key_segment (seg : string) : res goerr (string * list Z) :=
  match partition_at "=" (chars seg) with
  | None => Raise ErrOther
  | Some (k, v) =>
      _ ← fail_if (bool_decide (k = []) || bool_decide (v = [])) ErrOther;
      let k := trim_space (of_chars k) in
      let v := trim_space (of_chars v) in
      match chars k with
      | [r] =>
          _ ← fail_if (is_upper_az r) ErrOther;
          _ ← fail_if (negb (is_digit r || is_lower_az r)) ErrOther;
          match std_decode v with
          | None => Raise ErrOther
          | Some raw => _ ← fail_if (bool_decide (raw = [])) ErrOther; Ok (k, raw)
          end
      | _ => Raise ErrOther
      end
  end.

(** The loop over the segments: empty ones are skipped, a repeated id replaces
    the earlier secret. *)
Fixpoint parse_segments (segs : list string) (out : Keys) : res goerr Keys :=
  match segs with
  | [] => Ok out
  | seg :: segs =>
      let seg := trim_space seg in
      if bool_decide (seg = "") then parse_segments segs out
      else '(k, raw) ← parse_key_segment seg; parse_segments segs (od_set k raw out)
  end.

Definition ParseKeys (s : string) : res goerr Keys :=
  _ ← fail_if (bool_decide (trim_space s = "")) ErrOther;
  out ← parse_segments (split s ",") [];
  _ ← fail_if (bool_decide (out = [])) ErrOther;
  Ok out.

(** ** Route tokens *)

Definition maxExpiresB36Len : Z := 13.

Definition ParseExpiresB36 (s : string) : res goerr Z :=
  _ ← fail_if (bool_decide (s = "")) ErrOther;
  _ ← fail_if (maxExpiresB36Len <? str_len s) ErrOther;
  _ ← fail_if (negb (forallb (fun c => is_digit c || is_lower_az c) (chars s))) ErrOther;
  _ ← fail_if ((1 <? str_len s) && startswith s "0") ErrOther;
  parse_uint36 s.

Definition ValidateSignatureFormat (signature : string) : res goerr unit :=
  _ ← fail_if (negb (str_len signature =? 9)) ErrOther;
  _ ← fail_if (negb (forallb is_lower_hex (take 8 (chars signature)))) ErrOther;
  fail_if (negb (forallb (fun c => is_digit c || is_lower_az c) (drop 8 (chars signature)))) ErrOther.

Definition ParsePortSegment (portStr : string) : res goerr Z :=
  _ ← fail_if ((1 <? str_len portStr) && startswith portStr "0") ErrOther;
  match atoi (chars portStr) with
  | Some p => _ ← fail_if ((p <? 1) || (65535 <? p)) ErrOther; Ok p
  | None => Raise ErrOther
  end.

Record route := { r_id : string; r_port : Z; r_expires : string; r_signature : string }.

Definition ParseRouteToken (s : string) : res goerr route :=
  let parts := split_list "-" (chars s) in
  match parts with
  | [] | [_] => Raise ErrOther
  | [id; p] =>
      _ ← fail_if (bool_decide (id = [])) ErrOther;
      port ← ParsePortSegment (of_chars p);
      Ok {| r_id := of_chars id; r_port := port; r_expires := ""; r_signature := "" |}
  | _ =>
      match rev parts with
      | sig :: exp :: p :: ((_ :: _) as ids) =>
          _ ← ValidateSignatureFormat (of_chars sig);
          _ ← ParseExpiresB36 (of_chars exp);
          port ← ParsePortSegment (of_chars p);
          let id := join_list "-" (rev ids) in
          _ ← fail_if (bool_decide (id = [])) ErrOther;
          Ok {| r_id := of_chars id; r_port := port; r_expires := of_chars exp; r_signature := of_chars sig |}
      | _ => Raise ErrOther
      end
  end.

(** ** Signatures *)

Definition CanonicalBytes (sandboxID : string) (port : Z) (expiresB36 : string) : list Z :=
  bytes_of (canonical_text sandboxID port expiresB36).

Definition Inner (secret canonical : list Z) : list Z :=
  (be32_bytes (w32 (Z.of_nat (length secret))) ++ secret ++
   be32_bytes (w32 (Z.of_nat (length canonical))) ++ canonical)%list.

Definition ExpectedHex8 (inner : list Z) : string :=
  of_chars (flat_map (fun b => [hex_digit (Z.shiftr b 4); hex_digit (Z.land b 15)]) (take 4 (sha256 inner))).

Definition Enabled (v : option Keys) : bool :=
  match v with Some (_ :: _) => true | _ => false end.

(** [now] is [time.Now().Unix()]. *)
Definition VerifySignature (v : option Keys) (now : Z) (signature sandboxID : string) (port : Z)
    (expiresB36 : string) : res goerr unit :=
  if negb (Enabled v) then Ok tt
  else
    _ ← ValidateSignatureFormat signature;
    expiresSec ← ParseExpiresB36 expiresB36;
    _ ← fail_if ((now <? 0) || (expiresSec <? now)) ErrAccessExpired;
    let hex8 := of_chars (take 8 (chars signature)) in
    let signedKeyID := of_chars (drop 8 (chars signature)) in
    match od_get signedKeyID (default [] v) with
    | None => Raise ErrUnauthorized
    | Some secret =>
        let want := ExpectedHex8 (Inner secret (CanonicalBytes sandboxID port expiresB36)) in
        fail_if (negb (bool_decide (hex8 = want))) ErrUnauthorized
    end.

(** ** Access decision *)

Record IngressAccessInput := {
  Secure : bool;
  ExpectedAccessToken : string;
  SecureAccessHeaderPresent : bool;
  RequestedAccessToken : string;
  in_route : route;
  Verifier : option Keys }.

(** [subtle.ConstantTimeCompare] is equality. *)
Definition secureAccessTokenEqualConstantTime (a b : string) : bool := bool_decide (a = b).

Definition CheckIngressSecureAccess (now : Z) (i : IngressAccessInput) : res goerr unit :=
  if negb (Secure i) then Ok tt
  else
    let at_ := trim_space (ExpectedAccessToken i) in
    let r := in_route i in
    if SecureAccessHeaderPresent i then
      if secureAccessTokenEqualConstantTime (RequestedAccessToken i) at_ then Ok tt
      else Raise ErrSecureHeaderMismatch
    else if negb (bool_decide (r_signature r = "")) && negb (bool_decide (trim_space (r_expires r) = "")) then
      if negb (Enabled (Verifier i)) then Raise ErrVerifierNotConfigured
      else VerifySignature (Verifier i) now (r_signature r) (r_id r) (r_port r) (r_expires r)
    else Raise ErrSignatureRequired.

Definition HTTPStatusForIngressErr (e : goerr) : Z :=
  match e with
  | ErrUnauthorized | ErrAccessExpired | ErrSecureHeaderMismatch | ErrSignatureRequired => 401
  | ErrVerifierNotConfigured => 503
  | _ => 400
  end.

Definition ingressRouteErrHTTPStatus (e : goerr) : Z :=
  match e with ErrSandboxNotFound => 404 | _ => HTTPStatusForIngressErr e end.

Definition providerErrHTTPStatus (e : goerr) : Z :=
  match e with ErrSandboxNotFound => 404 | ErrSandboxNotReady => 503 | _ => 502 end.

(** ** Requests *)

Record parsedRoute := { pr_route : route; pr_requestURI : string; pr_uriParsedAsOSEP : bool }.

(** The header fields are the value of the first field of that name, empty when
    absent; [q_secure] lists all values of [OpenSandbox-Secure-Access]. *)
Record request := {
  q_ingress_to : string; q_deprecated_to : string; q_host : string; q_path : string;
  q_secure : list string }.

Definition SecureAccessHeaderInfo (r : request) : bool * string :=
  match q_secure r with
  | [] => (false, "")
  | v :: _ => (true, trim_space v)
  end.

Definition parseTargetHostByHeader (r : request) : string :=
  if negb (bool_decide (q_ingress_to r = "")) then q_ingress_to r
  else if negb (bool_decide (q_deprecated_to r = "")) then q_deprecated_to r
  else q_host r.

(** The part of a host before its first dot. *)
Definition host_label_of (s : string) : list ascii :=
  match split_list "." (chars (trim_prefix (trim_prefix s "https://") "http://")) with
  | l :: _ => l
  | [] => []
  end.

Definition parseHostRoute (s : string) : res goerr parsedRoute :=
  let label := host_label_of s in
  match ParseRouteToken (of_chars label) with
  | Ok r => Ok {| pr_route := r; pr_requestURI := ""; pr_uriParsedAsOSEP := false |}
  | Raise _ =>
      match split_list "-" label with
      | (first :: _ :: _) as parts =>
          _ ← fail_if (bool_decide (first = [])) ErrOther;
          match rev parts with
          | p :: ids =>
              match atoi p with
              | Some port =>
                  Ok {| pr_route := {| r_id := of_chars (join_list "-" (rev ids)); r_port := port;
                                       r_expires := ""; r_signature := "" |};
                        pr_requestURI := ""; pr_uriParsedAsOSEP := false |}
              | None => Raise ErrOther
              end
          | [] => Raise ErrOther
          end
      | _ => Raise ErrOther
      end
  end.

(** ["/" + rest], ["/"] without one *)
Definition request_uri (rest : option (list ascii)) : string :=
  match rest with
  | Some (c :: l) => String "/" (of_chars (c :: l))
  | _ => "/"
  end.

Definition parseURILegacy (path : string) : res goerr parsedRoute :=
  match splitn_list 3 "/" (chars (trim_prefix path "/")) with
  | id :: p :: rest =>
      _ ← fail_if (bool_decide (id = [])) ErrOther;
      port ← ParsePortSegment (of_chars p);
      Ok {| pr_route := {| r_id := of_chars id; r_port := port; r_expires := ""; r_signature := "" |};
            pr_requestURI := request_uri (head rest); pr_uriParsedAsOSEP := false |}
  | _ => Raise ErrOther
  end.

Definition parseURIRoute (path : string) : res goerr parsedRoute :=
  _ ← fail_if (bool_decide (path = "")) ErrOther;
  match splitn_list 5 "/" (chars (trim_prefix path "/")) with
  | id :: p :: exp :: sig :: rest =>
      match ParsePortSegment (of_chars p), ParseExpiresB36 (of_chars exp),
            ValidateSignatureFormat (of_chars sig) with
      | Ok port, Ok _, Ok _ =>
          if bool_decide (id = []) then parseURILegacy path
          else Ok {| pr_route := {| r_id := of_chars id; r_port := port;
                                    r_expires := of_chars exp; r_signature := of_chars sig |};
                     pr_requestURI := request_uri (head rest); pr_uriParsedAsOSEP := true |}
      | _, _, _ => parseURILegacy path
      end
  | _ => parseURILegacy path
  end.

(** ** The proxy *)

Inductive Mode := ModeHeader | ModeURI | ModeUnknown.

Record EndpointInfo := { ei_endpoint : string; ei_secure_token : string }.

Definition AccessVerificationRequired (e : EndpointInfo) : bool := negb (bool_decide (ei_secure_token e = "")).

Record sandboxHost := { ingressKey : string; port : Z; endpoint : string; requestURI : string }.

Section proxy.
(** [sandbox.Provider.GetEndpoint]: the lookup in the watched cluster state *)
Context (GetEndpoint : string -> res goerr EndpointInfo).
Context (p_mode : Mode) (p_secure : option Keys).

(** The route of a request, before the sandbox is looked up. *)
Definition parse_request (r : request) : res goerr parsedRoute :=
  match p_mode with
  | ModeHeader =>
      let targetHost := parseTargetHostByHeader r in
      _ ← fail_if (bool_decide (targetHost = "")) ErrOther;
      parseHostRoute targetHost
  | ModeURI =>
      _ ← fail_if (bool_decide (q_path r = "")) ErrOther;
      parseURIRoute (q_path r)
  | ModeUnknown => Raise ErrOther
  end.

(** The host to forward to, or the HTTP status of the refusal. *)
Definition doGetSandboxHostDefinition (now : Z) (r : request) : res Z sandboxHost :=
  match parse_request r with
  | Raise _ => Raise 400
  | Ok pr =>
      if bool_decide (r_id (pr_route pr) = "") || (r_port (pr_route pr) =? 0) then Raise 400
      else match GetEndpoint (r_id (pr_route pr)) with
           | Raise e => Raise (providerErrHTTPStatus e)
           | Ok ep =>
               let need := AccessVerificationRequired ep in
               let again := match p_mode with
                            | ModeURI => if negb need && pr_uriParsedAsOSEP pr
                                         then parseURILegacy (q_path r) else Ok pr
                            | _ => Ok pr
                            end in
               match again with
               | Raise e => Raise (ingressRouteErrHTTPStatus e)
               | Ok pr =>
                   let '(present, accessTok) := SecureAccessHeaderInfo r in
                   match CheckIngressSecureAccess now
                           {| Secure := need; ExpectedAccessToken := ei_secure_token ep;
                              SecureAccessHeaderPresent := present; RequestedAccessToken := accessTok;
                              in_route := pr_route pr; Verifier := p_secure |} with
                   | Raise e => Raise (ingressRouteErrHTTPStatus e)
                   | Ok _ => Ok {| ingressKey := r_id (pr_route pr); port := r_port (pr_route pr);
                                   endpoint := ei_endpoint ep; requestURI := pr_requestURI pr |}
                   end
               end
           end
  end.

Definition resolveRealHost (host : sandboxHost) : res Z string :=
  let target ep := ep +:+ ":" +:+ str_of_int (port host) in
  if bool_decide (endpoint host = "") then
    match GetEndpoint (ingressKey host) with
    | Raise e => Raise (providerErrHTTPStatus e)
    | Ok info => Ok (target (ei_endpoint info))
    end
  else Ok (target (endpoint host)).

(** What [ServeHTTP] forwards: the host and the path of the upstream request. *)
Definition ServeHTTP (now : Z) (r : request) : res Z (string * string) :=
  host ← doGetSandboxHostDefinition now r;
  targetHost ← resolveRealHost host;
  Ok (targetHost, if bool_decide (requestURI host = "") then q_path r else requestURI host).
End proxy.

(** ** Splitting and joining *)

Lemma join_split_list c l : join_list c (split_list c l) = l.
Proof.
  induction l as [|x l IH]; [done|]. cbn [split_list]. case_decide as E.
  - destruct (split_list_cons c l) as (w & ws & Hs). rewrite Hs in *.
    change (c :: join_list c (w :: ws) = x :: l). by rewrite IH, E.
  - destruct (split_list_cons c l) as (w & ws & Hs). rewrite Hs in *. rewrite <- IH.
    by destruct ws.
Qed.

Lemma partition_at_none c l : partition_at c l = None <-> c ∉ l.
Proof.
  induction l as [|x l IH]; cbn [partition_at]; [set_solver|]. case_decide; [set_solver|].
  destruct (partition_at c l) as [[a b]|]; cbn; set_solver.
Qed.

Lemma partition_at_app c a b : c ∉ a -> partition_at c (a ++ c :: b) = Some (a, b).
Proof.
  induction a as [|x a IH]; cbn [app partition_at]; intros Ha; [by rewrite decide_True|].
  rewrite decide_False, IH by set_solver. done.
Qed.

(** ** The gateway reads what the server writes *)

Lemma lower_alnum_table :
  forallb (fun n => let c := ascii_of_nat n in
    Bool.eqb (bool_decide (c ∈ chars BASE36_CHARS)) (is_digit c || is_lower_az c)) (seq 0 256) = true.
Proof. vm_compute. reflexivity. Qed.

Lemma in_base36 c : bool_decide (c ∈ chars BASE36_CHARS) = is_digit c || is_lower_az c.
Proof.
  pose proof (proj1 (forallb_forall _ _) lower_alnum_table (nat_of_ascii c)) as H.
  cbn beta zeta in H. rewrite ascii_nat_embedding, in_seq in H.
  apply Bool.eqb_prop, H. pose proof (nat_ascii_bounded c). lia.
Qed.

Lemma base36_valid s : forallb (fun c => is_digit c || is_lower_az c) (chars s) = is_valid_base36 s.
Proof. unfold is_valid_base36. induction (chars s) as [|c l IH]; cbn [forallb]; by rewrite ?in_base36, ?IH. Qed.

(** The gateway's expiry parser is the server's decoder. *)
Lemma ParseExpiresB36_decode s :
  ParseExpiresB36 s = match decode_expires_b36 s with Ok n => Ok n | Raise _ => Raise ErrOther end.
Proof.
  unfold ParseExpiresB36, decode_expires_b36, maxExpiresB36Len, MAX_EXPIRES_B36_LEN. rewrite base36_valid.
  case_bool_decide; [done|]. cbn [fail_if mbind res_mbind].
  destruct (13 <? str_len s); [done|]. cbn [fail_if mbind res_mbind].
  destruct (is_valid_base36 s); [|done]. cbn [fail_if mbind res_mbind negb].
  destruct (_ && _); [done|]. cbn [fail_if mbind res_mbind].
  unfold parse_uint36, int_base36, MAX_UINT64. destruct (mapM _ _) as [[|d ds]|]; [done| |done].
  cbn [mbind res_mbind]. destruct (Z.leb_spec (2 ^ 64) (value_of 36 (d :: ds)));
    destruct (Z.ltb_spec (2 ^ 64 - 1) (value_of 36 (d :: ds))); done || lia.
Qed.

Lemma str_of_int_head n : 0 < n -> exists d ds, chars (str_of_int n) = map digit (d :: ds) /\
  Forall (is_digit_of 10) (d :: ds) /\ 0 < d /\ value_of 10 (d :: ds) = n.
Proof.
  intros Hn. unfold str_of_int. rewrite chars_of_chars, (proj2 (Z.ltb_ge n 0)), (proj2 (Z.eqb_neq n 0)) by lia.
  destruct (digits_of_head 10 ltac:(lia) n Hn) as (d & ds & E & Hd). exists d, ds. rewrite <- E.
  split_and!; [done|apply digits_of_range; lia|done|apply digits_of_value; lia].
Qed.

Lemma atoi_digits d ds : Forall (is_digit_of 10) (d :: ds) -> value_of 10 (d :: ds) < 2 ^ 63 ->
  atoi (map digit (d :: ds)) = Some (value_of 10 (d :: ds)).
Proof.
  intros Hd Hv. pose proof (value_of_nonneg 10 ltac:(lia) _ Hd) as Hn.
  assert (atoi (map digit (d :: ds)) = v ← undigits 0 (map digit (d :: ds));
          if (- 2 ^ 63 <=? v) && (v <? 2 ^ 63) then Some v else None) as ->.
  { inversion Hd as [|? ? Hd0 _]; subst. destruct (code_digit_Z d Hd0) as [H1 H2].
    unfold atoi. cbn [map]. destruct (digit d) as [[] [] [] [] [] [] [] []]; by vm_compute in H1 || done. }
  rewrite undigits_map by done. cbn [mbind option_bind]. fold (value_of 10 (d :: ds)).
  rewrite (proj2 (Z.leb_le _ _)), (proj2 (Z.ltb_lt _ _)) by lia. done.
Qed.

Lemma ParsePortSegment_str p : 1 <= p <= 65535 -> ParsePortSegment (str_of_int p) = Ok p.
Proof.
  intros Hp. destruct (str_of_int_head p ltac:(lia)) as (d & ds & E & Hr & Hd & Hv).
  unfold ParsePortSegment. rewrite E, atoi_digits, Hv by (done || lia).
  assert (startswith (str_of_int p) "0" = false) as ->.
  { destruct (startswith (str_of_int p) "0") eqn:Hs; [|done]. apply startswith_spec in Hs.
    rewrite E in Hs. destruct Hs as [r [= Hz _]]. inversion Hr as [|? ? Hd0 _]; subst.
    destruct (code_digit_Z d Hd0) as [_ H2]. rewrite Hz in H2. vm_compute in H2. lia. }
  rewrite andb_false_r. cbn [fail_if mbind res_mbind].
  rewrite (proj2 (Z.ltb_ge p 1)), (proj2 (Z.ltb_ge _ p)) by lia. done.
Qed.

(** ** Signatures agree *)

Definition is_ascii_text (l : list ascii) : Prop := Forall (fun c => code c < 128) l.

Lemma utf8_ascii s : is_ascii_text (chars s) -> utf8 s = bytes_of s.
Proof.
  unfold utf8, bytes_of, is_ascii_text. induction 1 as [|c l Hc _ IH]; [done|].
  cbn [flat_map map]. unfold utf8_char at 1. rewrite (proj2 (Z.ltb_lt _ _) Hc), IH. done.
Qed.

Lemma lower_alnum_ascii c : is_lower_alnum c = true -> code c < 128.
Proof. unfold is_lower_alnum, is_lower_az, is_digit, between. lia. Qed.

Lemma canonical_text_ascii id p e n :
  is_ascii_text (chars id) -> 0 <= p -> decode_expires_b36 e = Ok n ->
  is_ascii_text (chars (canonical_text id p e)).
Proof.
  intros Hid Hp He. unfold canonical_text, is_ascii_text. rewrite !chars_app, !Forall_app.
  split_and!; try (by repeat constructor); try done; apply Forall_forall; intros c Hc.
  - apply lower_alnum_ascii. unfold is_lower_alnum. by rewrite (str_of_int_chars p c), orb_true_r.
  - eapply lower_alnum_ascii, decoded_chars; done.
Qed.

Lemma Inner_signing_input secret canonical i :
  signing_input secret canonical = Ok i -> Inner secret canonical = i.
Proof.
  intros (H1 & H2 & ->)%signing_input_ok. unfold Inner, w32. by rewrite !Z.mod_small by done.
Qed.

Lemma ExpectedHex8_hex i : ExpectedHex8 i = of_chars (take 8 (hex (sha256 i))).
Proof.
  unfold ExpectedHex8. rewrite take_hex. unfold hex. f_equal.
  induction (take 4 (sha256 i)) as [|b l IH]; [done|]. cbn [flat_map]. rewrite IH.
  rewrite Z.shiftr_div_pow2 by lia. change 15 with (Z.ones 4). by rewrite Z.land_ones by lia.
Qed.

Lemma ValidateSignatureFormat_ok h c : length h = 8%nat -> forallb is_lower_hex h = true ->
  is_lower_alnum c = true -> ValidateSignatureFormat (of_chars (h ++ [c])) = Ok tt.
Proof.
  intros Hl Hh Hc. unfold ValidateSignatureFormat.
  rewrite str_len_of_chars, chars_of_chars, length_app, Hl.
  rewrite take_app_le, take_ge by lia. rewrite drop_app_ge by lia. rewrite Hl, Hh. cbn.
  unfold is_lower_alnum in Hc. by rewrite orb_comm, Hc.
Qed.

(** A signature the server computed for a route is accepted by a gateway that
    holds the key, until the expiry. *)
Lemma VerifySignature_complete ks now secret a id p e n canonical sig :
  is_ascii_text (chars id) -> is_lower_alnum a = true ->
  build_canonical_bytes id p e = Ok canonical -> decode_expires_b36 e = Ok n ->
  compute_signature secret (String a "") canonical = Ok sig ->
  od_get (String a "") ks = Some secret -> 0 <= now <= n ->
  VerifySignature (Some ks) now sig id p e = Ok tt.
Proof.
  intros Hid Ha Hc He Hs Hk Hn. unfold VerifySignature.
  assert (Enabled (Some ks) = true) as -> by (by destruct ks). cbn [negb].
  destruct (compute_signature_shape _ _ _ _ Hs) as (h & Eh & Hl & Hh).
  assert (sig = of_chars (h ++ [a])) as Esig by (by rewrite <- Eh, of_chars_chars).
  rewrite Esig, ValidateSignatureFormat_ok by done. cbn [mbind res_mbind].
  rewrite ParseExpiresB36_decode, He. cbn [mbind res_mbind].
  rewrite (proj2 (Z.ltb_ge now 0)), (proj2 (Z.ltb_ge n now)) by lia. cbn [orb fail_if mbind res_mbind].
  rewrite chars_of_chars, (drop_app_ge h) by lia. rewrite (take_app_le h), take_ge, Hl by lia.
  change (of_chars (drop (8 - 8) [a])) with (String a ""). change (default [] (Some ks)) with ks. rewrite Hk.
  unfold build_canonical_bytes in Hc. destruct (negb _) eqn:Hp in Hc; [done|]. injection Hc as <-.
  unfold CanonicalBytes. rewrite <- utf8_ascii by (eapply canonical_text_ascii; [done|lia|done]).
  unfold compute_signature, compute_hex8 in Hs.
  apply res_bind_ok in Hs as (hex8 & (i & Hi & [= <-])%res_bind_ok & [= Hs]).
  rewrite (Inner_signing_input _ _ _ Hi), ExpectedHex8_hex.
  rewrite bool_decide_eq_true_2; [done|]. f_equal.
  apply (f_equal chars) in Hs. rewrite chars_app, Eh, chars_of_chars in Hs. cbn in Hs.
  by apply app_inj_tail in Hs as [-> _].
Qed.

(** Unfolds a successful chain of the gateway's checks. *)
Ltac go_passed H :=
  repeat first
    [ progress (rewrite res_bind_ok in H)
    | match type of H with
      | exists _, _ => let x := fresh "x" in destruct H as [x H]
      | _ /\ _ => let H1 := fresh "Hc" in destruct H as [H1 H]
      end ].

Lemma fail_if_ok b e u : fail_if b e = Ok u -> b = false.
Proof. by destruct b. Qed.

(** What an accepted signature is. *)
Definition signature_of (ks : Keys) (now : Z) (r : route) : Prop :=
  exists n k secret, decode_expires_b36 (r_expires r) = Ok n /\ 0 <= now <= n /\
    od_get k ks = Some secret /\
    r_signature r = ExpectedHex8 (Inner secret (CanonicalBytes (r_id r) (r_port r) (r_expires r))) +:+ k.

Lemma VerifySignature_sound ks now r u : Enabled (Some ks) = true ->
  VerifySignature (Some ks) now (r_signature r) (r_id r) (r_port r) (r_expires r) = Ok u ->
  signature_of ks now r.
Proof.
  intros He H. unfold VerifySignature in H. rewrite He in H. cbn [negb] in H. go_passed H.
  rewrite ParseExpiresB36_decode in Hc0. destruct (decode_expires_b36 _) as [n|] eqn:Hn; [|done].
  injection Hc0 as ->. apply fail_if_ok in Hc1. change (default [] (Some ks)) with ks in H.
  destruct (od_get _ ks) as [secret|] eqn:Hk; [|done].
  apply fail_if_ok, negb_false_iff, bool_decide_eq_true in H.
  exists x0, (of_chars (drop 8 (chars (r_signature r)))), secret. split_and!; [done|lia|lia|done|].
  rewrite <- H. apply chars_inj. by rewrite chars_app, !chars_of_chars, take_drop.
Qed.

Lemma splitn_head n m c l : exists w ws vs, splitn_list (S (S n)) c l = w :: ws /\ splitn_list (S (S m)) c l = w :: vs.
Proof. cbn [splitn_list]. destruct (partition_at c l) as [[a b]|]; eauto. Qed.

(** Reading a path again by the older rules finds the same sandbox. *)
Lemma legacy_same_id path pr pr' :
  parseURIRoute path = Ok pr -> parseURILegacy path = Ok pr' -> r_id (pr_route pr') = r_id (pr_route pr).
Proof.
  unfold parseURIRoute. intros H Hl. go_passed H. revert H.
  assert (forall w ws, splitn_list 5 "/" (chars (trim_prefix path "/")) = w :: ws ->
    r_id (pr_route pr') = of_chars w) as Hid.
  { intros w ws E. destruct (splitn_head 3 1 "/" (chars (trim_prefix path "/"))) as (w' & ws' & vs & E1 & E2).
    rewrite E in E1. injection E1 as <- <-. unfold parseURILegacy in Hl. rewrite E2 in Hl.
    destruct vs as [|p vs]; [done|]. go_passed Hl. by injection Hl as <-. }
  destruct (splitn_list 5 _ _) as [|w [|p [|e [|sg rest]]]]; try (intros; congruence).
  repeat case_match; intros ?; simplify_eq; try congruence. cbn. by apply (Hid w (p :: e :: sg :: rest)).
Qed.

(** C11: the gateway lets a request into a sandbox that requires access control
    only with the sandbox's own token in the secure-access header, or, without
    that header, with a signature made from a configured key over exactly the
    sandbox, port and expiry of the route it forwards to, before that expiry. *)
Theorem gateway_access_controlled GetEndpoint mode ks now r h ep :
  doGetSandboxHostDefinition GetEndpoint mode ks now r = Ok h ->
  GetEndpoint (ingressKey h) = Ok ep -> ei_secure_token ep <> "" ->
  (exists v vs, q_secure r = v :: vs /\ trim_space v = trim_space (ei_secure_token ep)) \/
  (q_secure r = [] /\ exists ks' route, ks = Some ks' /\ signature_of ks' now route /\
     r_id route = ingressKey h /\ r_port route = port h).
Proof.
  unfold doGetSandboxHostDefinition. intros H He Ht.
  destruct (parse_request mode r) as [pr|] eqn:Ep; [|done].
  destruct (_ || _) in H; [done|]. destruct (GetEndpoint (r_id (pr_route pr))) as [ep'|] eqn:He'; [|done].
  set (again := match mode with ModeURI => _ | _ => _ end) in H.
  destruct again as [pr'|] eqn:Ea; [|done].
  destruct (SecureAccessHeaderInfo r) as [present tok] eqn:Eh.
  destruct (CheckIngressSecureAccess _ _) as [u|] eqn:Ec; [|done]. injection H as <-.
  cbn [ingressKey port] in *.
  assert (AccessVerificationRequired ep' = true -> pr' = pr) as Hsame.
  { intros Hn. subst again. rewrite Hn in Ea. destruct mode; cbn in Ea; congruence. }
  unfold CheckIngressSecureAccess in Ec. cbn [Secure SecureAccessHeaderPresent in_route Verifier
    RequestedAccessToken ExpectedAccessToken] in Ec.
  destruct (AccessVerificationRequired ep') eqn:Hn; cbn [negb] in Ec.
  - rewrite (Hsame eq_refl) in *. assert (ep' = ep) as -> by congruence.
    unfold SecureAccessHeaderInfo in Eh. destruct (q_secure r) as [|v vs]; injection Eh as <- <-.
    + right. split; [done|]. cbn iota in Ec. destruct (negb _ && negb _) in Ec; [|done]. destruct ks as [ks|]; [|done].
      destruct (Enabled (Some ks)) eqn:Hen; [|done]. exists ks, (pr_route pr).
      split_and!; [done| |done|done]. by eapply VerifySignature_sound.
    + left. exists v, vs. split; [done|]. unfold secureAccessTokenEqualConstantTime in Ec.
      by case_bool_decide.
  - assert (r_id (pr_route pr') = r_id (pr_route pr)) as Hid.
    { subst again. rewrite ?Hn in Ea. destruct mode; cbn in Ea; [congruence| |congruence].
      destruct (pr_uriParsedAsOSEP pr); [|congruence]. unfold parse_request in Ep. go_passed Ep.
      by eapply legacy_same_id. }
    rewrite Hid in He. assert (ep' = ep) as -> by congruence.
    unfold AccessVerificationRequired in Hn. by case_bool_decide.
Qed.

(** ** One key ring, two readers

    The server and the gateway may be given the same text
    [key_id=base64,...]. *)

Definition is_b64_text (c : ascii) : Prop := is_b64 c = true \/ c = "="%char.

Lemma take_drop_while_app p l : (take_while p l ++ drop_while p l)%list = l.
Proof. induction l as [|c l IH]; cbn; [done|]. destruct (p c); cbn; congruence. Qed.

Lemma take_while_all p l c : c ∈ take_while p l -> p c = true.
Proof.
  induction l as [|x l IH]; cbn; [set_solver|]. destruct (p x) eqn:E; [|set_solver].
  rewrite elem_of_cons. intros [->|]; auto.
Qed.

Lemma b64decode_text s b : b64decode s = Some b -> Forall is_b64_text (chars s).
Proof.
  unfold b64decode. intros H. destruct (forallb _ (drop_while _ _) && _) eqn:E; [|done].
  apply andb_true_iff in E as [E _]. rewrite <- (take_drop_while_app is_b64 (chars s)). apply Forall_app. split.
  - apply Forall_forall. intros c Hc. left. by eapply take_while_all.
  - apply Forall_forall. intros c Hc. right. rewrite forallb_forall in E.
    by apply list_elem_of_In, E, bool_decide_eq_true in Hc.
Qed.

Lemma try_decode_text s b : try_decode_base64 s = Some b -> Forall is_b64_text (chars s).
Proof.
  unfold try_decode_base64. destruct (b64decode s) as [b'|] eqn:E; [intros _; by eapply b64decode_text|].
  intros H%b64decode_text. rewrite chars_app, Forall_app in H. apply H.
Qed.

Lemma is_b64_text_plain c : is_b64_text c -> go_space c = false /\ ((code c =? 10) || (code c =? 13)) = false.
Proof.
  unfold is_b64_text, is_b64. intros [H| ->]; [|by vm_compute]. apply bool_decide_eq_true in H.
  unfold b64_value, is_upper_az, is_lower_az, is_digit, between in H. unfold go_space, between.
  repeat case_match; try lia; subst; try (by vm_compute).
Qed.

Lemma trim_space_plain s : Forall (fun c => go_space c = false) (chars s) -> trim_space s = s.
Proof.
  intros H. unfold trim_space. rewrite strip_list_id; [apply of_chars_chars|].
  rewrite Forall_forall in H. done.
Qed.

Lemma filter_all {A} (f : A -> bool) l : Forall (fun x => f x = true) l -> List.filter f l = l.
Proof. induction 1 as [|x l Hx _ IH]; cbn; [done|]. by rewrite Hx, IH. Qed.

(** A secret both sides can decode decodes to the same bytes. *)
Lemma std_decode_agrees v b raw : try_decode_base64 v = Some b -> std_decode v = Some raw -> b = raw.
Proof.
  intros Ht Hs. pose proof (try_decode_text v b Ht) as Hv.
  assert (b64decode v = Some raw) as Hb; [|unfold try_decode_base64 in Ht; rewrite Hb in Ht; congruence].
  unfold std_decode in Hs. rewrite filter_all in Hs.
  2: { eapply Forall_impl; [exact Hv|]. intros c [_ ->]%is_b64_text_plain. done. }
  unfold b64decode.
  set (data := take_while is_b64 (chars v)) in *. set (pads := drop_while is_b64 (chars v)) in *.
  destruct (forallb _ pads); [|done]. cbn [andb] in Hs |- *.
  set (m := (length data mod 4)%nat) in *. assert (m < 4)%nat by (apply Nat.mod_upper_bound; lia).
  destruct (_ || _) eqn:E in Hs; [|done].
  rewrite orb_true_iff, !andb_true_iff, !Nat.eqb_eq, Nat.leb_le in E.
  assert (m = 0 /\ length pads = 0 \/ m = 2 /\ length pads = 2 \/ m = 3 /\ length pads = 1)%nat as Hcase by lia.
  destruct Hcase as [[-> ->]|[[-> ->]|[-> ->]]]; exact Hs.
Qed.

Lemma lower_alnum_plain c : is_lower_alnum c = true -> go_space c = false /\ is_upper_az c = false.
Proof.
  unfold is_lower_alnum, is_lower_az, is_digit, go_space, is_upper_az, between. lia.
Qed.

(** One entry: what the gateway reads, when it reads it, is what the server read. *)
Lemma entry_agrees pair k out :
  parse_key_pair pair = Ok k -> parse_key_segment (trim_space pair) = Ok out ->
  trim_space pair <> "" /\ exists secret, out = (key_id k, secret) /\ get_secret_bytes k = Ok secret.
Proof.
  unfold parse_key_pair. intros Hp Hg.
  destruct (partition_at "=" (chars pair)) as [[id b64]|] eqn:Epart; [|done].
  case_bool_decide as Hid; [done|].
  apply new_SecureAccessKey_valid in Hp as [-> (c & b & Hc & Hal & Hdec & Hb)]. cbn [key_id key] in *.
  assert (id = [c]) as -> by (apply (f_equal chars) in Hc; by rewrite chars_of_chars in Hc).
  pose proof (try_decode_text _ _ Hdec) as Htext. rewrite chars_of_chars in Htext.
  destruct (lower_alnum_plain c Hal) as [Hsp Hup].
  assert (chars pair = c :: "="%char :: b64) as Epair.
  { clear -Epart. destruct (chars pair) as [|x l]; cbn [partition_at] in Epart; [done|].
    case_decide; [done|]. destruct l as [|y l]; cbn [partition_at] in Epart; [done|].
    case_decide; [cbn in Epart; congruence|].
    destruct (partition_at "=" l) as [[? ?]|]; cbn in Epart; congruence. }
  assert (Forall (fun c => go_space c = false) b64) as Hplain
    by (eapply Forall_impl; [exact Htext|]; by intros d [? _]%is_b64_text_plain).
  rewrite trim_space_plain in Hg |- * by (rewrite Epair; by repeat constructor).
  split; [by intros ->|].
  unfold parse_key_segment in Hg. rewrite Epart in Hg. go_passed Hg.
  rewrite !trim_space_plain, !chars_of_chars in Hg by (rewrite chars_of_chars; by repeat constructor).
  go_passed Hg. destruct (std_decode _) as [raw|] eqn:Er; [|done]. go_passed Hg. injection Hg as <-.
  exists raw. split; [done|]. unfold get_secret_bytes. cbn [key]. rewrite Hdec. f_equal.
  by eapply std_decode_agrees.
Qed.

Lemma parse_segments_agree segs : forall ks out gk,
  map_res parse_key_pair segs = Ok ks -> NoDup (key_id <$> ks) ->
  parse_segments segs out = Ok gk ->
  (forall i, i ∉ key_id <$> ks -> od_get i gk = od_get i out) /\
  (forall k, k ∈ ks -> exists secret, od_get (key_id k) gk = Some secret /\ get_secret_bytes k = Ok secret).
Proof.
  induction segs as [|seg segs IH]; cbn [map_res parse_segments]; intros ks out gk Hk Hn Hg.
  { injection Hk as <-. injection Hg as <-. split; [done|set_solver]. }
  passed Hk. injection Hk as <-. rename x into k. rename x0 into ks.
  rewrite fmap_cons, NoDup_cons in Hn. destruct Hn as [Hnk Hn].
  case_bool_decide as Hemp.
  { exfalso. unfold parse_key_pair in Hc. destruct (partition_at "=" (chars seg)) as [[id b64]|] eqn:E; [|done].
    case_bool_decide; [done|]. apply new_SecureAccessKey_valid in Hc as [-> (c & b & Hid & Hal & Hdec & Hb)].
    cbn [key_id key] in *. apply (f_equal chars) in Hemp. unfold trim_space in Hemp. rewrite chars_of_chars in Hemp.
    assert (c ∈ chars seg) as Hin.
    { assert (id = [c]) as -> by (apply (f_equal chars) in Hid; by rewrite chars_of_chars in Hid).
      clear -E. destruct (chars seg) as [|x l]; cbn [partition_at] in E; [done|]. case_decide; [done|].
      destruct (partition_at "=" l) as [[? ?]|]; cbn in E; [|done]. injection E as -> _ _. set_solver. }
    pose proof (strip_list_empty go_space (chars seg) Hemp c Hin) as Hsp.
    destruct (lower_alnum_plain c Hal). congruence. }
  rewrite res_bind_ok in Hg. destruct Hg as ([i secret] & Hseg & Hg).
  destruct (entry_agrees seg k _ Hc Hseg) as (_ & secret' & [= -> ->] & Hs).
  destruct (IH ks _ gk Hc0 Hn Hg) as [H1 H2]. split.
  - intros i Hi. rewrite H1 by set_solver. apply od_get_set_ne. set_solver.
  - intros k' [-> |Hk']%elem_of_cons; [|by apply H2]. exists secret'. split; [|done].
    rewrite H1 by done. apply od_get_set_eq.
Qed.

(** The server and the gateway read one key ring alike: whenever both accept
    the text, they hold the same secret bytes under every key id, so what one
    signs the other can verify. *)
Theorem key_rings_agree ring active ks cfg gk :
  map_res parse_key_pair (split ring ",") = Ok ks -> new_SecureAccessConfig active ks = Ok cfg ->
  ParseKeys ring = Ok gk ->
  (forall k, k ∈ ks -> exists secret, od_get (key_id k) gk = Some secret /\ get_secret_bytes k = Ok secret) /\
  exists secret, od_get (active_key cfg) gk = Some secret /\ get_active_secret_bytes cfg = Ok secret.
Proof.
  intros Hk Hcfg Hg. unfold ParseKeys in Hg. passed Hg. injection Hg as ->.
  pose proof (map_res_forall _ _ _ _ parse_key_pair_valid Hk) as Hvk.
  pose proof (new_SecureAccessConfig_valid _ _ _ Hvk Hcfg) as (_ & Hn & Hact).
  assert (keys cfg = ks) as Ek by (unfold new_SecureAccessConfig in Hcfg; passed Hcfg; by injection Hcfg as <-).
  rewrite Ek in Hn, Hact. destruct (parse_segments_agree _ _ _ _ Hk Hn Hc0) as [_ H]. split; [done|].
  unfold get_active_secret_bytes. rewrite Ek. clear -H Hn Hact.
  induction ks as [|k ks IH]; [set_solver|]. rewrite fmap_cons in *. cbn [find_secret]. case_bool_decide as E.
  - rewrite <- E. apply H. set_solver.
  - apply NoDup_cons in Hn as [_ Hn]. apply IH; [done|set_solver|intros; apply H; set_solver].
Qed.

Lemma key_rings_agree_witness :
  exists ks cfg gk, map_res parse_key_pair (split "a=c2VjcmV0,b=b3RoZXI=" ",") = Ok ks /\
    new_SecureAccessConfig "b" ks = Ok cfg /\ ParseKeys "a=c2VjcmV0,b=b3RoZXI=" = Ok gk /\
    exists secret, od_get (active_key cfg) gk = Some secret /\ get_active_secret_bytes cfg = Ok secret.
Proof.
  eexists _, _, _. split; [vm_compute; reflexivity|]. split; [vm_compute; reflexivity|].
  split; [vm_compute; reflexivity|].
  eapply (key_rings_agree "a=c2VjcmV0,b=b3RoZXI=" "b"); vm_compute; reflexivity.
Defined.

(** The server accepts a secret without padding; the gateway refuses to start
    with it. *)
Example unpadded_key_diverges :
  is_ok (apply_secure_access_env_overrides (Some "a=b3RoZXI") (Some "a")
    (Some {| mode := INGRESS_MODE_GATEWAY; gateway := None; secure_access := None |})) = true /\
  is_ok (ParseKeys "a=b3RoZXI") = false.
Proof. split; vm_compute; reflexivity. Qed.
