(* ===== verification/SignedRoutes.v ===== *)
(** * Signed endpoints, end to end

    How the server answers a request for an endpoint:
    [services/helpers.py] ([format_ingress_endpoint]), [services/endpoint_auth.py],
    [services/k8s/endpoint_resolver.py], [services/k8s/workload_access.py],
    [services/k8s/error_helpers.py], the endpoint methods of
    [services/k8s/kubernetes_service.py] and the handler in [api/lifecycle.py];
    and that the gateway of [Gateway] reads the answer back. *)

From Stdlib Require Import ZArith Lia Ascii String.
From stdpp Require Import base numbers strings sets list.
From S2P Require Import Prelude PyString PyText PyCodec Regex Validators.
From S2P Require Import Sha256 Signing IngressConfig Gateway.

Open Scope string_scope.
Open Scope Z_scope.

Record Endpoint := { ep_endpoint : string; ep_headers : option (list (string * string)) }.

Definition OPEN_SANDBOX_INGRESS_HEADER : string := "OpenSandbox-Ingress-To".
Definition OPEN_SANDBOX_EGRESS_AUTH_HEADER : string := "OPENSANDBOX-EGRESS-AUTH".
Definition OPEN_SANDBOX_SECURE_ACCESS_HEADER : string := "OpenSandbox-Secure-Access".
Definition SANDBOX_EGRESS_AUTH_TOKEN_METADATA_KEY : string := "opensandbox.io/egress-auth-token".
Definition SANDBOX_SECURE_ACCESS_TOKEN_METADATA_KEY : string := "opensandbox.io/secure-access-token".

(** ** Formatting *)

Definition unsigned_token (sandbox_id : string) (port : Z) : string :=
  sandbox_id +:+ "-" +:+ str_of_int port.
Definition signed_token (sandbox_id : string) (port : Z) (expires_b36 signature : string) : string :=
  sandbox_id +:+ "-" +:+ str_of_int port +:+ "-" +:+ expires_b36 +:+ "-" +:+ signature.

Definition format_ingress_endpoint (ingress_config : option IngressConfig) (sandbox_id : string) (port : Z)
    (expires_b36 signature : option string) : option Endpoint :=
  match ingress_config with
  | None => None
  | Some c =>
      if negb (bool_decide (mode c = INGRESS_MODE_GATEWAY)) then None
      else match gateway c with
      | None => None
      | Some g =>
          let signed := match expires_b36, signature with Some e, Some s => Some (e, s) | _, _ => None end in
          match route_mode g with
          | GATEWAY_ROUTE_MODE_WILDCARD =>
              let base := if startswith (address g) "*." then of_chars (drop 2 (chars (address g))) else address g in
              Some {| ep_endpoint := match signed with
                                     | Some (e, s) => signed_token sandbox_id port e s +:+ "." +:+ base
                                     | None => unsigned_token sandbox_id port +:+ "." +:+ base
                                     end; ep_headers := None |}
          | GATEWAY_ROUTE_MODE_URI =>
              Some {| ep_endpoint := match signed with
                                     | Some (e, s) => address g +:+ "/" +:+ sandbox_id +:+ "/" +:+ str_of_int port
                                                      +:+ "/" +:+ e +:+ "/" +:+ s
                                     | None => address g +:+ "/" +:+ sandbox_id +:+ "/" +:+ str_of_int port
                                     end; ep_headers := None |}
          | GATEWAY_ROUTE_MODE_HEADER =>
              let header_value := match signed with
                                  | Some (e, s) => signed_token sandbox_id port e s
                                  | None => unsigned_token sandbox_id port
                                  end in
              Some {| ep_endpoint := address g; ep_headers := Some [(OPEN_SANDBOX_INGRESS_HEADER, header_value)] |}
          end
      end
  end.

(** [dict.update] *)
Definition merge_endpoint_headers (existing : option (list (string * string))) (extra : list (string * string))
    : list (string * string) :=
  foldl (fun d '(k, v) => od_set k v d) (default [] existing) extra.

Definition build_egress_auth_headers (token : string) := [(OPEN_SANDBOX_EGRESS_AUTH_HEADER, token)].
Definition build_secure_access_headers (token : string) := [(OPEN_SANDBOX_SECURE_ACCESS_HEADER, token)].

(** ** Errors *)

Definition http_exn {A} (status : Z) (code : string) : res pyexn A := Raise (HttpExn (HTTPException status code)).

Definition build_sandbox_not_found_error : http := HTTPException 404 "KUBERNETES::SANDBOX_NOT_FOUND".
Definition build_k8s_api_error : http := HTTPException 500 "KUBERNETES::API_ERROR".
Definition bad_parameter : http := HTTPException 400 "SANDBOX::INVALID_PARAMETER".

(** [except HTTPException: raise / except Exception as e: raise _build_k8s_api_error(...)] *)
Definition wrap_k8s_errors {A} (r : res pyexn A) : res pyexn A :=
  match r with
  | Raise (HttpExn h) => Raise (HttpExn h)
  | Raise _ => Raise (HttpExn build_k8s_api_error)
  | Ok a => Ok a
  end.

(** ** The Kubernetes service *)

(** A workload as the cluster API returns it, with what this code reads of it:
    its annotations ([None] without any), and the address its provider
    resolves. *)
Class WorkloadProvider (W : Type) := {
  annotations : W -> option (list (string * string));
  get_workload : forall (namespace sandbox_id : string), res pyexn (option W);
  get_internal_endpoint : W -> Z -> string -> res pyexn (option Endpoint);
  get_endpoint_info : W -> Z -> string -> res pyexn (option Endpoint) }.

Section service.
Context {W : Type} `{!WorkloadProvider W}.
(** The service's fields, the tenant of the request, and the namespaces of the
    tenants when a tenant provider is configured. *)
Context (ingress_config : option IngressConfig) (self_namespace : string).
Context (current_tenant : option string) (list_tenants : option (res pyexn (list string))).

Definition get_workload_or_404 (namespace sandbox_id : string) : res pyexn W :=
  w ← get_workload namespace sandbox_id;
  match w with
  | None => Raise (HttpExn build_sandbox_not_found_error)
  | Some w => Ok w
  end.

(** The loop over the other tenants' namespaces; a failing lookup is skipped. *)
Fixpoint search_namespaces (sandbox_id : string) (namespaces : list string) : option string :=
  match namespaces with
  | [] => None
  | ns :: rest =>
      if bool_decide (ns = self_namespace) then search_namespaces sandbox_id rest
      else match get_workload ns sandbox_id with
           | Ok (Some _) => Some ns
           | _ => search_namespaces sandbox_id rest
           end
  end.

Definition find_sandbox_namespace (sandbox_id : string) : res pyexn (option string) :=
  w ← get_workload self_namespace sandbox_id;
  match w, list_tenants with
  | Some _, _ => Ok (Some self_namespace)
  | None, None => Ok None
  | None, Some tenants => nss ← tenants; Ok (search_namespaces sandbox_id nss)
  end.

Definition resolve_namespace_for_lookup (sandbox_id : string) : res pyexn string :=
  match current_tenant with
  | Some ns => Ok ns
  | None => found ← find_sandbox_namespace sandbox_id;
            let found := default "" found in
            Ok (if bool_decide (found = "") then self_namespace else found)
  end.

Definition get_annotation (workload : W) (k : string) : option string :=
  od_get k (default [] (annotations workload)).

(** [if not token: return], else the headers are merged in. *)
Definition attach (e : Endpoint) (token : option string) (build : string -> list (string * string)) : Endpoint :=
  match token with
  | Some t => if bool_decide (t = "") then e
              else {| ep_endpoint := ep_endpoint e;
                      ep_headers := Some (merge_endpoint_headers (ep_headers e) (build t)) |}
  | None => e
  end.

Definition attach_egress_auth_headers (e : Endpoint) (workload : W) (port : Z) : Endpoint :=
  if negb (port =? 18080) then e
  else attach e (get_annotation workload SANDBOX_EGRESS_AUTH_TOKEN_METADATA_KEY) build_egress_auth_headers.

Definition attach_secure_access_headers (e : Endpoint) (workload : W) : Endpoint :=
  attach e (get_annotation workload SANDBOX_SECURE_ACCESS_TOKEN_METADATA_KEY) build_secure_access_headers.

Definition get_secure_access_config : res pyexn SecureAccessConfig :=
  match ingress_config with
  | Some c =>
      if negb (bool_decide (mode c = INGRESS_MODE_GATEWAY)) then Raise (HttpExn bad_parameter)
      else match secure_access c with
           | None => Raise (HttpExn bad_parameter)
           | Some s => Ok s
           end
  | None => Raise (HttpExn bad_parameter)
  end.

Definition build_signed_endpoint (sandbox_id : string) (port expires : Z) : res pyexn Endpoint :=
  secure_cfg ← get_secure_access_config;
  expires_b36 ← encode_expires_b36 expires;
  secret ← get_active_secret_bytes secure_cfg;
  canonical ← build_canonical_bytes sandbox_id port expires_b36;
  signature ← compute_signature secret (active_key secure_cfg) canonical;
  match format_ingress_endpoint ingress_config sandbox_id port (Some expires_b36) (Some signature) with
  | None => Raise (HttpExn bad_parameter)
  | Some e => Ok e
  end.

(** The checks on [expires], [now] being [int(time.time())]. *)
Definition check_expires (now : Z) (expires : option Z) : res pyexn unit :=
  match expires with
  | None => Ok tt
  | Some e =>
      if e <? 0 then Raise (HttpExn bad_parameter)
      else if e <=? now then Raise (HttpExn bad_parameter)
      else if 18446744073709551615 <? e then Raise (HttpExn bad_parameter)
      else Ok tt
  end.

Definition lift_http {A} (r : res http A) : res pyexn A :=
  match r with Ok a => Ok a | Raise h => Raise (HttpExn h) end.

Definition get_endpoint (now : Z) (sandbox_id : string) (port : Z) (resolve_internal : bool)
    (expires : option Z) : res pyexn Endpoint :=
  _ ← lift_http (ensure_valid_port port);
  _ ← check_expires now expires;
  wrap_k8s_errors (
    ns ← resolve_namespace_for_lookup sandbox_id;
    workload ← get_workload_or_404 ns sandbox_id;
    e ← match expires with
        | Some x => e ← build_signed_endpoint sandbox_id port x; Ok (Some e)
        | None => if resolve_internal then get_internal_endpoint workload port sandbox_id
                  else get_endpoint_info workload port sandbox_id
        end;
    match e with
    | None => http_exn 404 "KUBERNETES::POD_IP_NOT_AVAILABLE"
    | Some e =>
        let e := match expires with None => attach_secure_access_headers e workload | Some _ => e end in
        Ok (attach_egress_auth_headers e workload port)
    end).

(** [BatchSandboxProvider.get_endpoint_info] *)
Definition batch_get_endpoint_info (workload : W) (port : Z) (sandbox_id : string) : res pyexn (option Endpoint) :=
  match ingress_config with
  | Some c => if bool_decide (mode c = INGRESS_MODE_GATEWAY)
              then Ok (format_ingress_endpoint ingress_config sandbox_id port None None)
              else get_internal_endpoint workload port sandbox_id
  | None => get_internal_endpoint workload port sandbox_id
  end.

(** ** The handler *)

(** [text.replace(needle, "")] *)
Fixpoint remove_go (fuel : nat) (needle l : list ascii) : list ascii :=
  match fuel with
  | O => l
  | S fuel =>
      match l with
      | [] => []
      | c :: r => if bool_decide (take (length needle) l = needle)
                  then remove_go fuel needle (drop (length needle) l)
                  else c :: remove_go fuel needle r
      end
  end.
Definition remove_all (needle l : list ascii) : list ascii := remove_go (length l) needle l.

Definition rstrip_slash (l : list ascii) : list ascii := rstrip (fun c => bool_decide (c = "/"%char)) l.

(** [text.split(needle, 1)[0]] *)
Fixpoint before (needle l : list ascii) : list ascii :=
  match l with
  | [] => []
  | c :: r => if bool_decide (take (length needle) l = needle) then [] else c :: before needle r
  end.

(** [eip] is [get_config().server.eip], [base_url] and [path] those of the
    request. *)
Definition get_sandbox_endpoint (now : Z) (eip : option string) (base_url path : string)
    (sandbox_id : string) (port : Z) (use_server_proxy : bool) (expires : option Z) : res pyexn Endpoint :=
  if use_server_proxy && bool_decide (is_Some expires) then Raise (HttpExn bad_parameter)
  else
    e ← get_endpoint now sandbox_id port false expires;
    if use_server_proxy then
      let ip := rstrip_slash (chars (strip (default "" eip))) in
      let base := if bool_decide (ip = [])
                  then (rstrip_slash (chars base_url) ++ before (chars "/sandboxes/") (chars path))%list
                  else ip in
      let base := remove_all (chars "http://") (remove_all (chars "https://") base) in
      let headers := match ep_headers e with
                     | Some [] => Some []
                     | Some hs =>
                         match List.filter (fun kv => negb (bool_decide (lower kv.1 = lower OPEN_SANDBOX_INGRESS_HEADER))) hs with
                         | [] => None
                         | hs => Some hs
                         end
                     | None => None
                     end in
      Ok {| ep_endpoint := of_chars base +:+ "/sandboxes/" +:+ sandbox_id +:+ "/proxy/" +:+ str_of_int port;
            ep_headers := headers |}
    else Ok e.
End service.

(** ** Tokens are read back *)

Lemma signed_token_chars id p e s : chars (signed_token id p e s) =
  (chars id ++ "-" :: chars (str_of_int p) ++ "-" :: chars e ++ "-" :: chars s)%char%list.
Proof. unfold signed_token. by rewrite !chars_app. Qed.

Lemma unsigned_token_chars id p : chars (unsigned_token id p) = (chars id ++ "-" :: chars (str_of_int p))%char%list.
Proof. unfold unsigned_token. by rewrite !chars_app. Qed.

(** Characters of the fields after the sandbox id: letters and digits. *)
Definition is_field (l : list ascii) : Prop := forall c, c ∈ l -> is_lower_alnum c = true.

Lemma field_avoids l c : is_field l -> is_lower_alnum c = false -> c ∉ l.
Proof. intros H. by apply (not_in_field is_lower_alnum). Qed.

Lemma digit_lower_alnum c : is_digit c = true -> is_lower_alnum c = true.
Proof. unfold is_lower_alnum. intros ->. apply orb_true_r. Qed.

Lemma port_field p : 0 <= p -> is_field (chars (str_of_int p)).
Proof. intros Hp c Hc. by eapply digit_lower_alnum, str_of_int_chars. Qed.

Lemma expires_field e n : decode_expires_b36 e = Ok n -> is_field (chars e).
Proof. intros He c Hc. by eapply decoded_chars. Qed.

Lemma lower_hex_alnum c : is_lower_hex c = true -> is_lower_alnum c = true.
Proof. unfold is_lower_hex, is_lower_alnum, is_lower_az, is_digit, between. lia. Qed.

(** The shape of a route signature, as both sides write and check it. *)
Definition signature_shape (s : string) : Prop :=
  exists h a, chars s = (h ++ [a])%list /\ length h = 8%nat /\ forallb is_lower_hex h = true /\ is_lower_alnum a = true.

Lemma signature_field s : signature_shape s -> is_field (chars s).
Proof.
  intros (h & a & -> & _ & Hh & Ha) c. rewrite elem_of_app, list_elem_of_singleton. intros [Hc| ->]; [|done].
  apply lower_hex_alnum. rewrite forallb_forall in Hh. by apply Hh, list_elem_of_In.
Qed.

Lemma signature_shape_valid s : signature_shape s -> ValidateSignatureFormat s = Ok tt.
Proof.
  intros (h & a & E & Hl & Hh & Ha). rewrite <- (of_chars_chars s), E. by apply ValidateSignatureFormat_ok.
Qed.

(** [ParseRouteToken] on a label whose last three segments are given. *)
Lemma ParseRouteToken_long t w ws p e s :
  split_list "-" (chars t) = (w :: ws ++ [p; e; s])%list ->
  ParseRouteToken t =
    (_ ← ValidateSignatureFormat (of_chars s);
     _ ← ParseExpiresB36 (of_chars e);
     port ← ParsePortSegment (of_chars p);
     _ ← fail_if (bool_decide (join_list "-" (w :: ws) = [])) ErrOther;
     Ok {| r_id := of_chars (join_list "-" (w :: ws)); r_port := port;
           r_expires := of_chars e; r_signature := of_chars s |}).
Proof.
  intros E. unfold ParseRouteToken. rewrite E.
  assert (rev (w :: ws ++ [p; e; s]) = s :: e :: p :: rev (w :: ws))%list as Er
    by (change (w :: ws ++ [p; e; s])%list with ((w :: ws) ++ [p; e; s])%list; by rewrite rev_app_distr).
  assert (exists x y l, ws ++ [p; e; s] = x :: y :: l)%list as (x & y & l & El)
    by (destruct ws as [|? [|? ?]]; cbn; eauto).
  rewrite El in *. rewrite Er. rewrite rev_involutive.
  destruct (rev (w :: ws)) eqn:Ew; [|done]. by apply (f_equal length) in Ew; rewrite length_rev in Ew.
Qed.

Lemma split_fields id p e s c : c ∉ p -> c ∉ e -> c ∉ s ->
  exists w ws, split_list c id = w :: ws /\
    split_list c (id ++ c :: p ++ c :: e ++ c :: s) = (w :: ws ++ [p; e; s])%list.
Proof.
  intros Hp He Hs. destruct (split_list_cons c id) as (w & ws & Ew). exists w, ws. split; [done|].
  rewrite !split_list_app, Ew, (split_list_none c p), (split_list_none c e), (split_list_none c s) by done.
  done.
Qed.

Lemma ParseRouteToken_signed id p e n s :
  id <> "" -> 1 <= p <= 65535 -> decode_expires_b36 e = Ok n -> signature_shape s ->
  ParseRouteToken (signed_token id p e s) =
    Ok {| r_id := id; r_port := p; r_expires := e; r_signature := s |}.
Proof.
  intros Hid Hp He Hs.
  destruct (split_fields (chars id) (chars (str_of_int p)) (chars e) (chars s) "-") as (w & ws & Ew & Ep).
  { apply field_avoids; [apply port_field; lia|done]. }
  { eapply field_avoids; [by eapply expires_field|done]. }
  { apply field_avoids; [by apply signature_field|done]. }
  rewrite (ParseRouteToken_long _ w ws (chars (str_of_int p)) (chars e) (chars s))
    by (by rewrite signed_token_chars).
  rewrite !of_chars_chars, signature_shape_valid, ParseExpiresB36_decode, He, ParsePortSegment_str by done.
  cbn [mbind res_mbind]. rewrite <- Ew, join_split_list, of_chars_chars.
  rewrite bool_decide_eq_false_2; [done|]. intros E. apply Hid. by apply chars_inj.
Qed.

(** ** From endpoint to request *)

(** A sandbox id as the server creates them: lower-case letters, digits and
    dashes, not starting with a dash. *)
Definition sandbox_name (id : string) : Prop :=
  id <> "" /\ forallb is_dash_lower_alnum (chars id) = true /\ head (chars id) <> Some "-"%char.

(** What a client sends for an endpoint it was given, below the path [rest]: the
    host, the path, and the headers of the endpoint. *)
Definition not_slash (c : ascii) : bool := negb (bool_decide (c = "/"%char)).
Definition endpoint_header (e : Endpoint) (k : string) : option string := od_get k (default [] (ep_headers e)).

Definition client_request (e : Endpoint) (rest : string) : request :=
  let url := (chars (ep_endpoint e) ++ chars rest)%list in
  let path := drop_while not_slash url in
  {| q_ingress_to := default "" (endpoint_header e OPEN_SANDBOX_INGRESS_HEADER);
     q_deprecated_to := "";
     q_host := of_chars (take_while not_slash url);
     q_path := if bool_decide (path = []) then "/" else of_chars path;
     q_secure := option_list (endpoint_header e OPEN_SANDBOX_SECURE_ACCESS_HEADER) |}.

(** The gateway mode that serves a route mode: wildcard hosts are read in the
    header mode, which falls back to [Host]. *)
Definition gateway_mode (m : gateway_route_mode) : Mode :=
  match m with GATEWAY_ROUTE_MODE_URI => ModeURI | _ => ModeHeader end.

Lemma name_avoids id c : sandbox_name id -> is_dash_lower_alnum c = false -> c ∉ chars id.
Proof.
  intros (_ & H & _). apply (not_in_field is_dash_lower_alnum). intros d Hd. rewrite forallb_forall in H.
  by apply H, list_elem_of_In.
Qed.

Lemma name_ascii id : sandbox_name id -> is_ascii_text (chars id).
Proof.
  intros (_ & H & _). apply Forall_forall. intros c Hc. rewrite forallb_forall in H.
  apply list_elem_of_In, H in Hc. unfold is_dash_lower_alnum in Hc. apply orb_true_iff in Hc as [Hc|Hc].
  - apply bool_decide_eq_true in Hc as ->. by vm_compute.
  - by apply lower_alnum_ascii.
Qed.

(** A token contains neither dots nor slashes. *)
Definition is_token (l : list ascii) : Prop := ("."%char ∉ l) /\ ("/"%char ∉ l).

Lemma signed_token_is_token id p e n s : sandbox_name id -> 0 <= p -> decode_expires_b36 e = Ok n ->
  signature_shape s -> is_token (chars (signed_token id p e s)).
Proof.
  intros Hid Hp He Hs. rewrite signed_token_chars.
  pose proof (port_field p Hp) as F1. pose proof (expires_field e n He) as F2. pose proof (signature_field s Hs) as F3.
  assert (forall c, is_dash_lower_alnum c = false -> is_lower_alnum c = false -> c <> "-"%char ->
    c ∉ (chars id ++ "-" :: chars (str_of_int p) ++ "-" :: chars e ++ "-" :: chars s)%char%list) as H.
  { intros c H1 H2 H3. pose proof (name_avoids id c Hid H1). pose proof (field_avoids _ c F1 H2).
    pose proof (field_avoids _ c F2 H2). pose proof (field_avoids _ c F3 H2). set_solver. }
  by split; apply H.
Qed.

Lemma unsigned_token_is_token id p : sandbox_name id -> 0 <= p -> is_token (chars (unsigned_token id p)).
Proof.
  intros Hid Hp. rewrite unsigned_token_chars. pose proof (port_field p Hp) as F1.
  assert (forall c, is_dash_lower_alnum c = false -> is_lower_alnum c = false -> c <> "-"%char ->
    c ∉ (chars id ++ "-" :: chars (str_of_int p))%char%list) as H.
  { intros c H1 H2 H3. pose proof (name_avoids id c Hid H1). pose proof (field_avoids _ c F1 H2). set_solver. }
  by split; apply H.
Qed.

Lemma trim_prefix_no_slash s p : "/"%char ∈ chars p -> "/"%char ∉ chars s -> trim_prefix s p = s.
Proof.
  intros Hp Hs. unfold trim_prefix. destruct (startswith s p) eqn:E; [|done].
  apply startswith_spec in E as [k E]. destruct Hs. rewrite E. set_solver.
Qed.

(** The label of a token, alone or before a domain. *)
Lemma host_label_token t d : is_token (chars t) -> "/"%char ∉ chars d ->
  (d = "" \/ exists d', d = String "." d') -> host_label_of (t +:+ d) = chars t.
Proof.
  intros [Hdot Hsl] Hd Hs. unfold host_label_of.
  assert ("/"%char ∉ chars (t +:+ d)) as Hn by (rewrite chars_app; set_solver).
  assert ("/"%char ∈ chars "https://" /\ "/"%char ∈ chars "http://") as [H1 H2] by (vm_compute; set_solver).
  rewrite (trim_prefix_no_slash _ _ H1 Hn), (trim_prefix_no_slash _ _ H2 Hn).
  rewrite chars_app. destruct Hs as [-> |(d' & ->)].
  - cbn. by rewrite app_nil_r, split_list_none.
  - change (chars (String "." d')) with ("."%char :: chars d'). by rewrite split_list_app, split_list_none.
Qed.

(** A path below an endpoint: nothing, or a slash and more. *)
Definition is_rest (rest : string) : Prop := rest = "" \/ exists r, rest = String "/" r.

Lemma take_drop_while l rest : "/"%char ∉ l -> is_rest rest ->
  take_while not_slash (l ++ chars rest) = l /\ drop_while not_slash (l ++ chars rest) = chars rest.
Proof.
  intros Hl Hr. induction l as [|c l IH]; cbn [app take_while drop_while].
  - destruct Hr as [-> |(r & ->)]; done.
  - assert (not_slash c = true) as Hc by (unfold not_slash; rewrite bool_decide_eq_false_2; set_solver).
    cbn. rewrite Hc. destruct IH as [-> ->]; [set_solver|]. done.
Qed.

(** What the upstream receives: the rest, or the root. *)
Definition upstream_path (rest : string) : string := if bool_decide (rest = "") then "/" else rest.

Lemma client_host e rest : "/"%char ∉ chars (ep_endpoint e) -> is_rest rest ->
  q_host (client_request e rest) = ep_endpoint e /\ q_path (client_request e rest) = upstream_path rest.
Proof.
  intros He Hr. unfold client_request. cbn [q_host q_path].
  destruct (take_drop_while _ rest He Hr) as [-> ->]. rewrite !of_chars_chars. split; [done|].
  unfold upstream_path. by destruct rest.
Qed.

Lemma upstream_path_ne rest : upstream_path rest <> "".
Proof. unfold upstream_path. by case_bool_decide. Qed.

(** In the URI mode the path is read back, field by field. *)
Lemma parseURIRoute_signed id p e n s rest :
  sandbox_name id -> 1 <= p <= 65535 -> decode_expires_b36 e = Ok n -> signature_shape s -> is_rest rest ->
  parseURIRoute ("/" +:+ id +:+ "/" +:+ str_of_int p +:+ "/" +:+ e +:+ "/" +:+ s +:+ rest) =
    Ok {| pr_route := {| r_id := id; r_port := p; r_expires := e; r_signature := s |};
          pr_requestURI := upstream_path rest; pr_uriParsedAsOSEP := true |}.
Proof.
  intros Hid Hp He Hs Hr. unfold parseURIRoute.
  rewrite bool_decide_eq_false_2 by done. cbn [fail_if mbind res_mbind].
  set (t := id +:+ "/" +:+ str_of_int p +:+ "/" +:+ e +:+ "/" +:+ s +:+ rest).
  assert (trim_prefix ("/" +:+ t) "/" = t) as ->.
  { unfold trim_prefix. rewrite (proj2 (startswith_spec _ _)); [|by exists (chars t)]. apply of_chars_chars. }
  assert (splitn_list 5 "/" (chars t) =
    chars id :: chars (str_of_int p) :: chars e :: chars s ::
      (match rest with "" => [] | String _ r => [chars r] end)) as ->.
  { subst t. rewrite !chars_app. cbn [splitn_list].
    change (chars "/") with ["/"%char]. cbn [app].
    rewrite partition_at_app by (by apply name_avoids).
    rewrite partition_at_app by (apply field_avoids; [apply port_field; lia|done]).
    rewrite partition_at_app by (eapply field_avoids; [by eapply expires_field|done]).
    assert ("/"%char ∉ chars s) as Hns by (apply field_avoids; [by apply signature_field|done]).
    destruct Hr as [-> |(r & ->)].
    - cbn. rewrite app_nil_r. by rewrite (proj2 (partition_at_none _ _) Hns).
    - change (chars (String "/" r)) with ("/"%char :: chars r). by rewrite partition_at_app. }
  rewrite !of_chars_chars, ParsePortSegment_str, ParseExpiresB36_decode, He, signature_shape_valid by done.
  rewrite bool_decide_eq_false_2 by (intros E; apply (proj1 Hid); by apply chars_inj).
  do 2 f_equal. destruct Hr as [-> |(r & ->)]; [done|]. unfold upstream_path.
  destruct r as [|c r]; [done|]. cbn [head request_uri]. rewrite bool_decide_eq_false_2 by done.
  change (c :: chars r) with (chars (String c r)). cbn.  by rewrite of_chars_chars.
Qed.

(** ** What the service returned *)

Lemma ensure_valid_port_ok p u : lift_http (ensure_valid_port p) = Ok u -> 1 <= p <= 65535.
Proof. unfold ensure_valid_port, guard. destruct (_ || _) eqn:E; [done|]. lia. Qed.

Lemma check_expires_ok now x u : check_expires now (Some x) = Ok u -> now < x /\ 0 <= x <= MAX_UINT64.
Proof. unfold check_expires, MAX_UINT64. repeat case_match; [done..|]. lia. Qed.

Section returned.
Context {W : Type} `{!WorkloadProvider W}.

Lemma egress_headers_other e (w : W) p k : k <> OPEN_SANDBOX_EGRESS_AUTH_HEADER ->
  ep_endpoint (attach_egress_auth_headers e w p) = ep_endpoint e /\
  endpoint_header (attach_egress_auth_headers e w p) k = endpoint_header e k.
Proof.
  intros Hk. unfold attach_egress_auth_headers, attach. repeat case_match; try done. split; [done|].
  unfold endpoint_header, merge_endpoint_headers. cbn. by rewrite od_get_set_ne.
Qed.

(** Everything behind a signed endpoint. *)
Lemma build_signed_endpoint_ok c id p x e :
  build_signed_endpoint (Some c) id p x = Ok e ->
  exists s g b36 secret canonical sig,
    mode c = INGRESS_MODE_GATEWAY /\ secure_access c = Some s /\ gateway c = Some g /\
    encode_expires_b36 x = Ok b36 /\ get_active_secret_bytes s = Ok secret /\
    build_canonical_bytes id p b36 = Ok canonical /\
    compute_signature secret (active_key s) canonical = Ok sig /\
    format_ingress_endpoint (Some c) id p (Some b36) (Some sig) = Some e.
Proof.
  unfold build_signed_endpoint. intros H. passed H.
  unfold get_secure_access_config in Hc. case_bool_decide as Em; [|done]. cbn in Hc.
  destruct (secure_access c) as [s|]; [|done]. injection Hc as ->.
  destruct (format_ingress_endpoint _ _ _ _ _) as [e'|] eqn:Ef; [|done]. injection H as ->.
  assert (exists g, gateway c = Some g) as [g Hg].
  { unfold format_ingress_endpoint in Ef. rewrite bool_decide_eq_true_2 in Ef by done. cbn in Ef.
    destruct (gateway c); [eauto|done]. }
  exists x0, g, x1, x2, x3, x4. done.
Qed.

Lemma get_endpoint_signed_ok c ns tenant tenants now id p ri x e :
  get_endpoint (W:=W) (Some c) ns tenant tenants now id p ri (Some x) = Ok e ->
  1 <= p <= 65535 /\ 0 <= x <= MAX_UINT64 /\ now < x /\
  exists e0 (w : W), build_signed_endpoint (Some c) id p x = Ok e0 /\ e = attach_egress_auth_headers e0 w p.
Proof.
  unfold get_endpoint. intros H. passed H. apply ensure_valid_port_ok in Hc. apply check_expires_ok in Hc0.
  destruct (resolve_namespace_for_lookup _ _ _ _) as [ns'|[]]; cbn [mbind res_mbind wrap_k8s_errors] in H; try done.
  destruct (get_workload_or_404 _ _) as [w|[]]; cbn [mbind res_mbind wrap_k8s_errors] in H; try done.
  destruct (build_signed_endpoint _ _ _ _) as [e0|[]] eqn:Eb; cbn [mbind res_mbind wrap_k8s_errors] in H; try done. injection H as <-.
  split_and!; try lia. by exists e0, w.
Qed.
End returned.

(** ** The gateway accepts it *)

(** A parsed route with a valid signature is forwarded. *)
Lemma serve_signed GetEndpoint m ks now r pr ep :
  parse_request m r = Ok pr -> q_secure r = [] ->
  r_id (pr_route pr) <> "" -> 1 <= r_port (pr_route pr) ->
  GetEndpoint (r_id (pr_route pr)) = Ok ep -> ei_secure_token ep <> "" ->
  r_signature (pr_route pr) <> "" -> trim_space (r_expires (pr_route pr)) <> "" -> Enabled (Some ks) = true ->
  VerifySignature (Some ks) now (r_signature (pr_route pr)) (r_id (pr_route pr)) (r_port (pr_route pr))
    (r_expires (pr_route pr)) = Ok tt ->
  ServeHTTP GetEndpoint m (Some ks) now r =
    Ok (ei_endpoint ep +:+ ":" +:+ str_of_int (r_port (pr_route pr)),
        if bool_decide (pr_requestURI pr = "") then q_path r else pr_requestURI pr).
Proof.
  intros Hp Hq Hid Hport Hg Ht Hs He Hen Hv.
  assert (AccessVerificationRequired ep = true) as Hneed
    by (unfold AccessVerificationRequired; by rewrite bool_decide_eq_false_2).
  assert (doGetSandboxHostDefinition GetEndpoint m (Some ks) now r =
    Ok {| ingressKey := r_id (pr_route pr); port := r_port (pr_route pr);
          endpoint := ei_endpoint ep; requestURI := pr_requestURI pr |}) as Hd.
  { unfold doGetSandboxHostDefinition. rewrite Hp, bool_decide_eq_false_2 by done.
    rewrite (proj2 (Z.eqb_neq _ 0)) by lia. cbn [orb]. rewrite Hg, Hneed. cbn [negb andb].
    assert (match m with ModeURI => Ok pr | _ => Ok pr end = (Ok pr : res goerr parsedRoute)) as -> by (by destruct m).
    unfold SecureAccessHeaderInfo. rewrite Hq. unfold CheckIngressSecureAccess.
    cbn [Secure SecureAccessHeaderPresent in_route Verifier negb].
    rewrite !bool_decide_eq_false_2 by done. cbn [negb andb]. by rewrite Hen, Hv. }
  unfold ServeHTTP. rewrite Hd. cbn [mbind res_mbind]. unfold resolveRealHost. cbn [endpoint port ingressKey requestURI].
  rewrite Hg. by destruct (bool_decide (ei_endpoint ep = "")).
Qed.

Lemma trim_space_field s : is_field (chars s) -> trim_space s = s.
Proof.
  intros H. unfold trim_space. rewrite strip_list_id; [apply of_chars_chars|].
  intros c Hc. apply H in Hc. unfold is_lower_alnum, is_lower_az, is_digit, between in Hc.
  unfold go_space, between. lia.
Qed.

Lemma parseHostRoute_signed id p e n s host :
  id <> "" -> 1 <= p <= 65535 -> decode_expires_b36 e = Ok n -> signature_shape s ->
  host_label_of host = chars (signed_token id p e s) ->
  parseHostRoute host = Ok {| pr_route := {| r_id := id; r_port := p; r_expires := e; r_signature := s |};
                              pr_requestURI := ""; pr_uriParsedAsOSEP := false |}.
Proof.
  intros Hid Hp He Hs Hh. unfold parseHostRoute. rewrite Hh, of_chars_chars.
  by rewrite (ParseRouteToken_signed id p e n s).
Qed.

(** In the wildcard and header modes the gateway finds the token of an endpoint,
    in the first label of the host or in the header. *)
Lemma token_request e tok rest :
  is_token (chars tok) -> tok <> "" -> is_rest rest ->
  (exists base, ep_endpoint e = tok +:+ "." +:+ base /\ ("/"%char ∉ chars base) /\
                endpoint_header e OPEN_SANDBOX_INGRESS_HEADER = None) \/
  (("/"%char ∉ chars (ep_endpoint e)) /\ endpoint_header e OPEN_SANDBOX_INGRESS_HEADER = Some tok) ->
  let r := client_request e rest in
  q_path r = upstream_path rest /\
  parse_request ModeHeader r = parseHostRoute (parseTargetHostByHeader r) /\
  host_label_of (parseTargetHostByHeader r) = chars tok.
Proof.
  intros Htok Hne Hr Hcase. cbn zeta. cbn [parse_request].
  assert (forall r h, parseTargetHostByHeader r = h -> h <> "" -> host_label_of h = chars tok ->
    ((_ ← fail_if (bool_decide (parseTargetHostByHeader r = "")) ErrOther; parseHostRoute (parseTargetHostByHeader r))
      = parseHostRoute (parseTargetHostByHeader r)) /\
    host_label_of (parseTargetHostByHeader r) = chars tok) as Hh
    by (intros r h -> Hhn Hl; rewrite bool_decide_eq_false_2; done).
  destruct Hcase as [(base & Hep & Hb & Hhead)|[Hep Hhead]].
  - destruct (client_host e rest) as [Hhost ->]; [|done|].
    { rewrite Hep, !chars_app. change (chars ".") with ["."%char]. destruct Htok. set_solver. }
    split; [done|]. apply (Hh _ (ep_endpoint e)).
    + unfold parseTargetHostByHeader. rewrite Hhost. unfold client_request.
      cbn [q_ingress_to q_deprecated_to]. by rewrite Hhead.
    + rewrite Hep. by destruct tok.
    + rewrite Hep. apply host_label_token; [done| |right; by exists base].
      change (chars ("." +:+ base)) with ("."%char :: chars base). set_solver.
  - destruct (client_host e rest) as [_ ->]; [done|done|]. split; [done|]. apply (Hh _ tok).
    + unfold parseTargetHostByHeader, client_request. cbn [q_ingress_to]. rewrite Hhead. cbn [default from_option].
      by rewrite bool_decide_eq_false_2.
    + done.
    + rewrite <- (host_label_token _ "" Htok); [|set_solver|by left]. f_equal.
      apply chars_inj. by rewrite chars_app, app_nil_r.
Qed.

(** The domain of a wildcard address has no slash when the address has none. *)
Lemma base_no_slash g : "/"%char ∉ chars (address g) ->
  "/"%char ∉ chars (if startswith (address g) "*." then of_chars (drop 2 (chars (address g))) else address g).
Proof.
  intros Hs. destruct (startswith _ _); [|done]. rewrite chars_of_chars.
  intros Hin. apply Hs. rewrite <- (take_drop 2). apply elem_of_app. by right.
Qed.

(** The path of a URI endpoint. *)
Lemma uri_request e addr t rest :
  ep_endpoint e = addr +:+ "/" +:+ t -> "/"%char ∉ chars addr ->
  q_path (client_request e rest) = "/" +:+ t +:+ rest.
Proof.
  intros Hep Hs. unfold client_request. cbn [q_path]. rewrite Hep, chars_app, <- app_assoc.
  assert (chars ("/" +:+ t) ++ chars rest = chars ("/" +:+ t +:+ rest))%list as ->
    by (by rewrite !chars_app, <- !app_assoc).
  destruct (take_drop_while (chars addr) ("/" +:+ t +:+ rest) Hs) as [_ ->]; [by right; eexists|].
  by rewrite of_chars_chars.
Qed.

Section end_to_end.
Context {W : Type} `{!WorkloadProvider W}.

(** How the gateway reads a signed endpoint, in each route mode. *)
Lemma parse_signed_endpoint c g id p b36 n sig e0 (w : W) rest :
  gateway c = Some g -> mode c = INGRESS_MODE_GATEWAY ->
  "/"%char ∉ chars (address g) ->
  sandbox_name id -> 1 <= p <= 65535 -> decode_expires_b36 b36 = Ok n -> signature_shape sig -> is_rest rest ->
  format_ingress_endpoint (Some c) id p (Some b36) (Some sig) = Some e0 ->
  let r := client_request (attach_egress_auth_headers e0 w p) rest in
  q_secure r = [] /\
  exists pr, parse_request (gateway_mode (route_mode g)) r = Ok pr /\
    pr_route pr = {| r_id := id; r_port := p; r_expires := b36; r_signature := sig |} /\
    (if bool_decide (pr_requestURI pr = "") then q_path r else pr_requestURI pr) = upstream_path rest.
Proof.
  intros Hg Hm Hslash Hid Hp He Hs Hr Hf. cbn zeta.
  destruct (egress_headers_other e0 w p OPEN_SANDBOX_SECURE_ACCESS_HEADER) as [Hep Hh1]; [done|].
  destruct (egress_headers_other e0 w p OPEN_SANDBOX_INGRESS_HEADER) as [_ Hh2]; [done|].
  unfold format_ingress_endpoint in Hf. rewrite bool_decide_eq_true_2, Hg in Hf by done. cbn [negb] in Hf.
  pose proof (signed_token_is_token id p b36 n sig Hid ltac:(lia) He Hs) as Htok.
  assert (signed_token id p b36 sig <> "") as Htne by (intros E; apply (f_equal chars) in E;
    rewrite signed_token_chars in E; by destruct (chars id)).
  set (e := attach_egress_auth_headers e0 w p) in *.
  assert (q_secure (client_request e rest) = []) as Hq.
  { unfold client_request. cbn [q_secure]. rewrite Hh1. by destruct (route_mode g); injection Hf as <-. }
  split; [done|].
  assert (forall r, (exists b, r = parseHostRoute b /\ host_label_of b = chars (signed_token id p b36 sig)) ->
    r = Ok {| pr_route := {| r_id := id; r_port := p; r_expires := b36; r_signature := sig |};
              pr_requestURI := ""; pr_uriParsedAsOSEP := false |}) as Hhost.
  { intros r (b & -> & Hb). apply (parseHostRoute_signed id p b36 n sig); [apply Hid|done..]. }
  destruct (route_mode g) eqn:Em; injection Hf as <-; cbn [ep_endpoint ep_headers] in Hep; cbn [gateway_mode].
  - destruct (token_request e (signed_token id p b36 sig) rest) as (Hpath & Hpr & Hl); [done..| |].
    { left. eexists. split_and!; [done|by apply base_no_slash|by rewrite Hh2]. }
    eexists. split; [apply Hhost; eauto|]. by split.
  - destruct (token_request e (signed_token id p b36 sig) rest) as (Hpath & Hpr & Hl); [done..| |].
    { right. by rewrite Hep, Hh2. }
    eexists. split; [apply Hhost; eauto|]. by split.
  - pose proof (uri_request e (address g) _ rest Hep Hslash) as Hpath.
    eexists. split; [|split].
    + cbn [parse_request]. rewrite Hpath, bool_decide_eq_false_2 by done. cbn [fail_if mbind res_mbind].
      rewrite <- (parseURIRoute_signed id p b36 n sig rest) by done. f_equal. apply chars_inj. by rewrite !chars_app, <- !app_assoc.
    + done.
    + cbn [pr_requestURI]. rewrite bool_decide_eq_false_2; [done|apply upstream_path_ne].
Qed.

End end_to_end.

(** ** Unsigned endpoints *)

(** A port has at most five digits, so an unsigned token never ends in
    something of the shape of a signature. *)
Lemma port_length p : 1 <= p <= 65535 -> (length (chars (str_of_int p)) <= 5)%nat.
Proof.
  intros Hp. destruct (str_of_int_head p ltac:(lia)) as (d & ds & -> & Hr & Hd & Hv).
  rewrite length_map. destruct (value_of_leading 10 ltac:(lia) (d :: ds) Hr) as [Hlo _]; [done|done|].
  destruct (decide (length (d :: ds) <= 5)%nat) as [|Hn]; [done|].
  pose proof (Z.pow_le_mono_r 10 5 (Z.of_nat (length (d :: ds)) - 1) ltac:(lia) ltac:(lia)). lia.
Qed.

Lemma port_not_signature p : 1 <= p <= 65535 -> exists e, ValidateSignatureFormat (str_of_int p) = Raise e.
Proof.
  intros Hp. pose proof (port_length p Hp) as Hl. unfold ValidateSignatureFormat, str_len.
  rewrite <- length_chars. rewrite (proj2 (Z.eqb_neq _ 9)) by lia. by eexists.
Qed.

Lemma atoi_port p : 1 <= p <= 65535 -> atoi (chars (str_of_int p)) = Some p.
Proof.
  intros Hp. destruct (str_of_int_head p ltac:(lia)) as (d & ds & -> & Hr & _ & Hv).
  rewrite atoi_digits, Hv by (done || lia). done.
Qed.

Lemma split_name_head id : sandbox_name id -> exists w ws, split_list "-" (chars id) = w :: ws /\ w <> [].
Proof.
  intros (Hne & _ & Hd). destruct (chars id) as [|c l] eqn:E.
  - destruct Hne. by apply chars_inj.
  - cbn [split_list]. cbn in Hd. rewrite decide_False by congruence.
    destruct (split_list_cons "-" l) as (w & ws & ->). by eexists _, _.
Qed.

(** An unsigned token is never taken for a signed one. *)
Lemma ParseRouteToken_unsigned id p r : sandbox_name id -> 1 <= p <= 65535 ->
  ParseRouteToken (unsigned_token id p) = Ok r -> r = {| r_id := id; r_port := p; r_expires := ""; r_signature := "" |}.
Proof.
  intros Hid Hp. unfold ParseRouteToken. rewrite unsigned_token_chars, split_list_app.
  rewrite (split_list_none "-" (chars (str_of_int p)))
    by (apply field_avoids; [apply port_field; lia|done]).
  destruct (split_name_head id Hid) as (w & ws & E & Hw). rewrite E. destruct ws as [|w2 ws].
  - cbn [app]. rewrite bool_decide_eq_false_2 by done. cbn [fail_if mbind res_mbind].
    rewrite of_chars_chars, ParsePortSegment_str by done. cbn [mbind res_mbind]. intros [= <-].
    pose proof (join_split_list "-" (chars id)) as Hj. rewrite E in Hj. cbn in Hj. by rewrite Hj, of_chars_chars.
  - assert (rev (w :: w2 :: ws ++ [chars (str_of_int p)]) = chars (str_of_int p) :: rev (w :: w2 :: ws))%list as Er
      by (change (w :: w2 :: ws ++ [chars (str_of_int p)])%list
            with ((w :: w2 :: ws) ++ [chars (str_of_int p)])%list; by rewrite rev_app_distr).
    destruct (port_not_signature p Hp) as [err Hsig]. cbn [app]. rewrite Er.
    destruct (ws ++ [chars (str_of_int p)])%list eqn:Ew; [by destruct ws|].
    destruct (rev (w :: w2 :: ws)) as [|? [|? [|? ?]]]; rewrite ?of_chars_chars, ?Hsig; done.
Qed.

Lemma parseHostRoute_unsigned id p host : sandbox_name id -> 1 <= p <= 65535 ->
  host_label_of host = chars (unsigned_token id p) ->
  parseHostRoute host = Ok {| pr_route := {| r_id := id; r_port := p; r_expires := ""; r_signature := "" |};
                              pr_requestURI := ""; pr_uriParsedAsOSEP := false |}.
Proof.
  intros Hid Hp Hh. unfold parseHostRoute. rewrite Hh, of_chars_chars.
  destruct (ParseRouteToken (unsigned_token id p)) as [r|err] eqn:E.
  { by rewrite (ParseRouteToken_unsigned id p r Hid Hp E). }
  rewrite unsigned_token_chars, split_list_app, (split_list_none "-" (chars (str_of_int p)))
    by (apply field_avoids; [apply port_field; lia|done]).
  destruct (split_name_head id Hid) as (w & ws & Es & Hw). rewrite Es.
  assert (rev ((w :: ws) ++ [chars (str_of_int p)]) = chars (str_of_int p) :: rev (w :: ws))%list as Er
    by (by rewrite rev_app_distr).
  assert (exists y l, ws ++ [chars (str_of_int p)] = y :: l)%list as (y & l & El) by (destruct ws; cbn; eauto).
  cbn [app] in Er |- *. rewrite El in *. rewrite bool_decide_eq_false_2 by done. cbn [fail_if mbind res_mbind].
  rewrite Er, atoi_port, rev_involutive by done.
  by rewrite <- Es, join_split_list, of_chars_chars.
Qed.

(** In the URI mode the first two segments are the sandbox and the port, whatever follows. *)
Lemma parse_unsigned_path id p rest : sandbox_name id -> 1 <= p <= 65535 -> is_rest rest ->
  let path := "/" +:+ id +:+ "/" +:+ str_of_int p +:+ rest in
  let legacy := {| pr_route := {| r_id := id; r_port := p; r_expires := ""; r_signature := "" |};
                   pr_requestURI := upstream_path rest; pr_uriParsedAsOSEP := false |} in
  parseURILegacy path = Ok legacy /\
  exists pr, parseURIRoute path = Ok pr /\ r_id (pr_route pr) = id /\ r_port (pr_route pr) = p /\
    (pr_uriParsedAsOSEP pr = true \/ pr = legacy).
Proof.
  intros Hid Hp Hr path legacy.
  assert (trim_prefix path "/" = id +:+ "/" +:+ str_of_int p +:+ rest) as Htrim.
  { subst path. unfold trim_prefix. rewrite (proj2 (startswith_spec _ _)); [apply of_chars_chars|].
    by exists (chars (id +:+ "/" +:+ str_of_int p +:+ rest)). }
  assert (forall n, exists l, splitn_list (S (S (S n))) "/" (chars (trim_prefix path "/")) =
    chars id :: chars (str_of_int p) :: l /\ (n = 0%nat -> request_uri (head l) = upstream_path rest)) as Hsplit.
  { intros n. rewrite Htrim, !chars_app. change (chars "/") with ["/"%char]. cbn [app splitn_list].
    rewrite partition_at_app by (by apply name_avoids).
    assert ("/"%char ∉ chars (str_of_int p)) as Hns by (apply field_avoids; [apply port_field; lia|done]).
    destruct Hr as [-> |(r & ->)].
    - cbn. rewrite app_nil_r, (proj2 (partition_at_none _ _) Hns). by exists [].
    - change (chars (String "/" r)) with ("/"%char :: chars r). rewrite partition_at_app by done.
      eexists. split; [done|]. intros ->. destruct r as [|c r]; [done|].
      cbn. by rewrite of_chars_chars. }
  assert (bool_decide (chars id = []) = false) as Hne
    by (apply bool_decide_eq_false_2; intros E; apply (proj1 Hid); by apply chars_inj).
  assert (parseURILegacy path = Ok legacy) as Hleg.
  { unfold parseURILegacy. destruct (Hsplit 0%nat) as (l & -> & Hl). rewrite Hne, !of_chars_chars.
    cbn [fail_if mbind res_mbind]. rewrite ParsePortSegment_str by done. cbn [mbind res_mbind]. by rewrite Hl. }
  split; [done|]. unfold parseURIRoute. rewrite bool_decide_eq_false_2 by done. cbn [fail_if mbind res_mbind].
  destruct (Hsplit 2%nat) as (l & -> & _). rewrite Hleg.
  assert (exists pr, Ok legacy = (Ok pr : res goerr parsedRoute) /\ r_id (pr_route pr) = id /\
    r_port (pr_route pr) = p /\ (pr_uriParsedAsOSEP pr = true \/ pr = legacy)) as Hl by (exists legacy; auto).
  destruct l as [|e [|s l]]; [done..|]. rewrite !of_chars_chars, ParsePortSegment_str, Hne by done.
  destruct (ParseExpiresB36 _); [|done]. destruct (ValidateSignatureFormat _); [|done].
  eexists. split; [done|]. auto.
Qed.

(** A parsed route without signature is forwarded when the sandbox asks for no
    token or the request carries it, and refused with 401 otherwise. *)
Lemma serve_unsigned GetEndpoint m ks now r pr pr2 ep id p :
  parse_request m r = Ok pr -> r_id (pr_route pr) = id -> r_port (pr_route pr) = p -> id <> "" -> 1 <= p ->
  GetEndpoint id = Ok ep ->
  (match m with
   | ModeURI => if negb (AccessVerificationRequired ep) && pr_uriParsedAsOSEP pr then parseURILegacy (q_path r) else Ok pr
   | _ => Ok pr
   end) = Ok pr2 ->
  pr_route pr2 = {| r_id := id; r_port := p; r_expires := ""; r_signature := "" |} ->
  (ei_secure_token ep = "" \/ (exists v vs, q_secure r = v :: vs /\ trim_space v = trim_space (ei_secure_token ep)) ->
   ServeHTTP GetEndpoint m ks now r =
     Ok (ei_endpoint ep +:+ ":" +:+ str_of_int p,
         if bool_decide (pr_requestURI pr2 = "") then q_path r else pr_requestURI pr2)) /\
  (ei_secure_token ep <> "" -> q_secure r = [] -> ServeHTTP GetEndpoint m ks now r = Raise 401).
Proof.
  intros Hp Hrid Hrp Hid Hport Hg Hagain Hroute.
  unfold ServeHTTP, doGetSandboxHostDefinition. rewrite Hp, Hrid, Hrp, bool_decide_eq_false_2 by done.
  rewrite (proj2 (Z.eqb_neq _ 0)) by lia. cbn [orb]. rewrite Hg, Hagain, Hroute.
  unfold CheckIngressSecureAccess. cbn [Secure SecureAccessHeaderPresent in_route Verifier
    RequestedAccessToken ExpectedAccessToken r_signature r_id r_port].
  split.
  - intros Hauth.
    assert (forall h, resolveRealHost GetEndpoint h = Ok (ei_endpoint ep +:+ ":" +:+ str_of_int p) ->
      (targetHost ← resolveRealHost GetEndpoint h; Ok (targetHost, if bool_decide (requestURI h = "") then q_path r else requestURI h))
      = (Ok (ei_endpoint ep +:+ ":" +:+ str_of_int p, if bool_decide (requestURI h = "") then q_path r else requestURI h) : res Z _))
      as Hres by (intros h ->; done).
    assert (resolveRealHost GetEndpoint {| ingressKey := id; port := p; endpoint := ei_endpoint ep;
      requestURI := pr_requestURI pr2 |} = Ok (ei_endpoint ep +:+ ":" +:+ str_of_int p)) as Hh.
    { unfold resolveRealHost. cbn [endpoint port ingressKey]. rewrite Hg. by case_bool_decide. }
    unfold AccessVerificationRequired, SecureAccessHeaderInfo.
    destruct Hauth as [->|(v & vs & -> & Hv)].
    + rewrite (bool_decide_eq_true_2 ("" = "")) by done. cbn [negb].
      destruct (q_secure r); cbn [mbind res_mbind]; by apply (Hres _ Hh).
    + unfold secureAccessTokenEqualConstantTime. rewrite (bool_decide_eq_true_2 (trim_space v = _)) by done.
      destruct (negb (negb _)); cbn [mbind res_mbind]; by apply (Hres _ Hh).
  - intros Hs Hq. unfold AccessVerificationRequired, SecureAccessHeaderInfo.
    rewrite (bool_decide_eq_false_2 (ei_secure_token ep = "")), Hq by done. done.
Qed.

Section unsigned.
Context {W : Type} `{!WorkloadProvider W}.

(** Attaching a header of another name leaves an endpoint's header alone; the
    token itself is what a client then sends. *)
Lemma secure_headers e (w : W) :
  ep_endpoint (attach_secure_access_headers e w) = ep_endpoint e /\
  endpoint_header (attach_secure_access_headers e w) OPEN_SANDBOX_INGRESS_HEADER =
    endpoint_header e OPEN_SANDBOX_INGRESS_HEADER /\
  (forall t, get_annotation w SANDBOX_SECURE_ACCESS_TOKEN_METADATA_KEY = Some t -> t <> "" ->
     endpoint_header (attach_secure_access_headers e w) OPEN_SANDBOX_SECURE_ACCESS_HEADER = Some t).
Proof.
  unfold attach_secure_access_headers, attach.
  destruct (get_annotation w _) as [t|]; [|split_and!; done]. case_bool_decide; [split_and!; naive_solver|].
  unfold endpoint_header, merge_endpoint_headers. cbn.
  split_and!; [done|by rewrite od_get_set_ne|]. intros t' [= ->] _. by rewrite od_get_set_eq.
Qed.

(** How the gateway reads an unsigned endpoint; in the URI mode, of a sandbox
    without token, by the older rules. *)
Lemma parse_unsigned_endpoint c g id p e0 e rest :
  gateway c = Some g -> mode c = INGRESS_MODE_GATEWAY -> "/"%char ∉ chars (address g) ->
  sandbox_name id -> 1 <= p <= 65535 -> is_rest rest ->
  format_ingress_endpoint (Some c) id p None None = Some e0 ->
  ep_endpoint e = ep_endpoint e0 ->
  endpoint_header e OPEN_SANDBOX_INGRESS_HEADER = endpoint_header e0 OPEN_SANDBOX_INGRESS_HEADER ->
  let r := client_request e rest in
  exists pr pr2, parse_request (gateway_mode (route_mode g)) r = Ok pr /\
    r_id (pr_route pr) = id /\ r_port (pr_route pr) = p /\
    (forall need, (route_mode g = GATEWAY_ROUTE_MODE_URI -> need = false) ->
      match gateway_mode (route_mode g) with
      | ModeURI => if negb need && pr_uriParsedAsOSEP pr then parseURILegacy (q_path r) else Ok pr
      | _ => Ok pr
      end = Ok pr2) /\
    pr_route pr2 = {| r_id := id; r_port := p; r_expires := ""; r_signature := "" |} /\
    (if bool_decide (pr_requestURI pr2 = "") then q_path r else pr_requestURI pr2) = upstream_path rest.
Proof.
  intros Hg Hm Hslash Hid Hp Hr Hf Hep Hh. cbn zeta.
  unfold format_ingress_endpoint in Hf. rewrite bool_decide_eq_true_2, Hg in Hf by done. cbn [negb] in Hf.
  pose proof (unsigned_token_is_token id p Hid ltac:(lia)) as Htok.
  assert (unsigned_token id p <> "") as Htne by (intros E; apply (f_equal chars) in E;
    rewrite unsigned_token_chars in E; by destruct (chars id)).
  assert (forall r, (exists b, r = parseHostRoute b /\ host_label_of b = chars (unsigned_token id p)) ->
    r = Ok {| pr_route := {| r_id := id; r_port := p; r_expires := ""; r_signature := "" |};
              pr_requestURI := ""; pr_uriParsedAsOSEP := false |}) as Hhost.
  { intros r (b & -> & Hb). by apply (parseHostRoute_unsigned id p). }
  destruct (route_mode g) eqn:Em; injection Hf as <-; cbn [ep_endpoint ep_headers] in Hep; cbn [gateway_mode].
  - destruct (token_request e (unsigned_token id p) rest) as (Hpath & Hpr & Hl); [done..| |].
    { left. eexists. split_and!; [done|by apply base_no_slash|by rewrite Hh]. }
    eexists _, _. split; [apply Hhost; eauto|]. by rewrite Hpath.
  - destruct (token_request e (unsigned_token id p) rest) as (Hpath & Hpr & Hl); [done..| |].
    { right. by rewrite Hep, Hh. }
    eexists _, _. split; [apply Hhost; eauto|]. by rewrite Hpath.
  - pose proof (uri_request e (address g) _ rest Hep Hslash) as Hpath.
    destruct (parse_unsigned_path id p rest Hid Hp Hr) as (Hleg & pr & Hpr & Hi & Hpo & Hcase).
    assert (q_path (client_request e rest) = "/" +:+ id +:+ "/" +:+ str_of_int p +:+ rest) as Hq
      by (rewrite Hpath; apply chars_inj; by rewrite !chars_app, <- !app_assoc).
    exists pr. eexists {| pr_route := {| r_id := id; r_port := p; r_expires := ""; r_signature := "" |};
      pr_requestURI := upstream_path rest; pr_uriParsedAsOSEP := false |}. split.
    { cbn [parse_request]. rewrite Hq, bool_decide_eq_false_2 by done. exact Hpr. }
    split_and!; [done|done| |done|].
    + intros need Hneed. rewrite (Hneed eq_refl). cbn [negb andb]. rewrite Hq, Hleg.
      destruct Hcase as [-> | ->]; done.
    + cbn [pr_requestURI]. rewrite bool_decide_eq_false_2; [done|apply upstream_path_ne].
Qed.

(** An unsigned endpoint works, and a protected sandbox is not reached
    without its token.  The endpoint the server formats, with the headers it
    attaches, leads a client through the gateway to the sandbox and port asked
    for, whatever dashes the sandbox id has; without those headers a sandbox that
    has an access token answers 401.  In the URI mode this is stated for
    sandboxes without token, whose paths are never rewritten. *)
Theorem unsigned_endpoint_routed c g id p e0 (w : W) rest GetEndpoint ks now ep :
  gateway c = Some g -> mode c = INGRESS_MODE_GATEWAY -> "/"%char ∉ chars (address g) ->
  sandbox_name id -> 1 <= p <= 65535 -> is_rest rest ->
  format_ingress_endpoint (Some c) id p None None = Some e0 ->
  GetEndpoint id = Ok ep ->
  ei_secure_token ep = default "" (get_annotation w SANDBOX_SECURE_ACCESS_TOKEN_METADATA_KEY) ->
  (route_mode g = GATEWAY_ROUTE_MODE_URI -> ei_secure_token ep = "") ->
  ServeHTTP GetEndpoint (gateway_mode (route_mode g)) ks now
    (client_request (attach_egress_auth_headers (attach_secure_access_headers e0 w) w p) rest) =
    Ok (ei_endpoint ep +:+ ":" +:+ str_of_int p, upstream_path rest) /\
  (ei_secure_token ep <> "" ->
   ServeHTTP GetEndpoint (gateway_mode (route_mode g)) ks now (client_request e0 rest) = Raise 401).
Proof.
  intros Hg Hm Hslash Hid Hp Hr Hf Hep Htok Huri.
  assert (route_mode g = GATEWAY_ROUTE_MODE_URI -> AccessVerificationRequired ep = false) as Hneed
    by (intros E; unfold AccessVerificationRequired; by rewrite (Huri E)).
  destruct (secure_headers e0 w) as (Hs1 & Hs2 & Hs3). set (e1 := attach_secure_access_headers e0 w) in *.
  destruct (egress_headers_other e1 w p OPEN_SANDBOX_INGRESS_HEADER) as [He1 He2]; [done|].
  destruct (egress_headers_other e1 w p OPEN_SANDBOX_SECURE_ACCESS_HEADER) as [_ He3]; [done|].
  split.
  - destruct (parse_unsigned_endpoint c g id p e0 (attach_egress_auth_headers e1 w p) rest)
      as (pr & pr2 & Hpr & Hi & Hpo & Ha & Hroute & Hpath); try congruence.
    rewrite (proj1 (serve_unsigned _ _ _ _ _ pr pr2 ep id p Hpr Hi Hpo (proj1 Hid) (proj1 Hp) Hep
      (Ha _ Hneed) Hroute)); [by rewrite Hpath|].
    destruct (decide (ei_secure_token ep = "")) as [|Hne]; [by left|right].
    destruct (get_annotation w _) as [t|]; [|done]. cbn in Htok.
    exists t, []. split; [|by rewrite Htok]. unfold client_request. cbn [q_secure].
    rewrite He3, (Hs3 t); [done|done|]. congruence.
  - intros Hne. destruct (parse_unsigned_endpoint c g id p e0 e0 rest)
      as (pr & pr2 & Hpr & Hi & Hpo & Ha & Hroute & Hpath); try done.
    apply (proj2 (serve_unsigned _ _ ks now _ pr pr2 ep id p Hpr Hi Hpo (proj1 Hid) (proj1 Hp) Hep
      (Ha _ Hneed) Hroute)); [done|].
    unfold client_request. cbn [q_secure]. unfold format_ingress_endpoint in Hf.
    rewrite bool_decide_eq_true_2, Hg in Hf by done. by destruct (route_mode g); injection Hf as <-.
Qed.
End unsigned.

(** ** Which requests are answered *)

Section answers.
Context {W : Type} `{!WorkloadProvider W}.

(** Nothing but HTTP errors leaves the service. *)
Lemma get_endpoint_http cfg ns tenant tenants now id p ri x :
  (exists e, get_endpoint (W:=W) cfg ns tenant tenants now id p ri x = Ok e) \/
  (exists h, get_endpoint (W:=W) cfg ns tenant tenants now id p ri x = Raise (HttpExn h)).
Proof.
  unfold get_endpoint, ensure_valid_port, guard. destruct (_ || _); cbn [lift_http mbind res_mbind]; [eauto|].
  assert (check_expires now x = Ok tt \/ check_expires now x = Raise (HttpExn bad_parameter)) as [-> | ->]
    by (unfold check_expires; repeat case_match; auto); cbn [mbind res_mbind]; [|eauto].
  unfold wrap_k8s_errors. repeat case_match; eauto.
Qed.

Lemma build_canonical_bytes_port id p b : 1 <= p <= 65535 ->
  build_canonical_bytes id p b = Ok (utf8 (canonical_text id p b)).
Proof. intros Hp. unfold build_canonical_bytes. by replace (_ && _) with true by lia. Qed.

Lemma signing_input_total secret canonical :
  Z.of_nat (length secret) < 2 ^ 32 -> Z.of_nat (length canonical) < 2 ^ 32 ->
  exists i, signing_input secret canonical = Ok i.
Proof.
  intros H1 H2. unfold signing_input, be32.
  rewrite (proj2 (Z.leb_gt _ _) H1), (proj2 (Z.ltb_ge _ 0)) by lia. cbn [orb mbind res_mbind].
  rewrite (proj2 (Z.leb_gt _ _) H2), (proj2 (Z.ltb_ge _ 0)) by lia. cbn [orb mbind res_mbind]. eauto.
Qed.

(** With a valid configuration a signed endpoint can be built exactly when keys
    are configured. *)
Lemma build_signed_endpoint_spec c id p x :
  valid_ingress c -> 1 <= p <= 65535 -> 0 <= x <= MAX_UINT64 ->
  (forall s secret, secure_access c = Some s -> get_active_secret_bytes s = Ok secret ->
     Z.of_nat (length secret) < 2 ^ 32) ->
  (forall b, encode_expires_b36 x = Ok b -> Z.of_nat (length (utf8 (canonical_text id p b))) < 2 ^ 32) ->
  match secure_access c with
  | Some _ => exists e, build_signed_endpoint (Some c) id p x = Ok e
  | None => build_signed_endpoint (Some c) id p x = Raise (HttpExn bad_parameter)
  end.
Proof.
  intros Hv Hp Hx Hsec Hcan. unfold build_signed_endpoint, get_secure_access_config.
  unfold valid_ingress in Hv. destruct (mode c) eqn:Em.
  { destruct Hv as [_ ->]. by rewrite bool_decide_eq_false_2. }
  rewrite bool_decide_eq_true_2 by done. cbn [negb]. destruct (secure_access c) as [s|] eqn:Es; [|done].
  destruct Hv as [(g & Hg & _) Hk]. cbn [mbind res_mbind].
  destruct (encode_decodes x Hx) as (b & Hb & _). rewrite Hb. cbn [mbind res_mbind].
  destruct (valid_secure_access_secret s (Hk s eq_refl)) as (secret & Hs & _). rewrite Hs. cbn [mbind res_mbind].
  rewrite build_canonical_bytes_port by done. cbn [mbind res_mbind].
  destruct (signing_input_total secret _ (Hsec s secret eq_refl Hs) (Hcan b Hb)) as (i & Hi).
  unfold compute_signature, compute_hex8. rewrite Hi. cbn [mbind res_mbind].
  unfold format_ingress_endpoint. rewrite Em, bool_decide_eq_true_2, Hg by done. cbn [negb].
  destruct (route_mode g); eauto.
Qed.

(** Which requests for a signed endpoint are answered.  An expiry that is negative,
    not in the future or above 64 bits is a 400, before anything is looked up;
    otherwise, when the sandbox exists, the endpoint is signed exactly when keys
    are configured, and without them the answer is a 400, never an unsigned
    endpoint; a sandbox that does not exist is a 404. *)
Theorem signed_endpoint_answers c ns tenant tenants now id p ri x n w :
  valid_ingress c -> 1 <= p <= 65535 ->
  resolve_namespace_for_lookup (W:=W) ns tenant tenants id = Ok n ->
  get_workload n id = Ok w ->
  (forall s secret, secure_access c = Some s -> get_active_secret_bytes s = Ok secret ->
     Z.of_nat (length secret) < 2 ^ 32) ->
  (forall b, encode_expires_b36 x = Ok b -> Z.of_nat (length (utf8 (canonical_text id p b))) < 2 ^ 32) ->
  let r := get_endpoint (W:=W) (Some c) ns tenant tenants now id p ri (Some x) in
  if negb ((now <? x) && (0 <=? x) && (x <=? MAX_UINT64)) then r = Raise (HttpExn bad_parameter)
  else match w with
       | None => r = Raise (HttpExn build_sandbox_not_found_error)
       | Some w =>
           match secure_access c with
           | None => r = Raise (HttpExn bad_parameter)
           | Some _ => exists e0, build_signed_endpoint (Some c) id p x = Ok e0 /\
                         r = Ok (attach_egress_auth_headers e0 w p)
           end
       end.
Proof.
  intros Hv Hp Hn Hw Hsec Hcan. cbn zeta. unfold get_endpoint.
  assert (lift_http (ensure_valid_port p) = Ok tt) as ->
    by (unfold ensure_valid_port, guard; by replace (_ || _) with false by lia).
  cbn [mbind res_mbind].
  assert (check_expires now (Some x) = if negb ((now <? x) && (0 <=? x) && (x <=? MAX_UINT64))
    then Raise (HttpExn bad_parameter) else Ok tt) as ->.
  { unfold check_expires, MAX_UINT64. repeat case_match; done || lia. }
  destruct (negb _) eqn:Hx; cbn [mbind res_mbind]; [done|]. apply negb_false_iff in Hx.
  rewrite Hn. cbn [mbind res_mbind]. unfold get_workload_or_404. rewrite Hw. cbn [mbind res_mbind].
  destruct w as [w|]; [|done]. cbn [mbind res_mbind].
  pose proof (build_signed_endpoint_spec c id p x Hv Hp ltac:(lia) Hsec Hcan) as Hb.
  destruct (secure_access c).
  - destruct Hb as (e0 & Hb). exists e0. split; [done|]. by rewrite Hb.
  - by rewrite Hb.
Qed.
End answers.

(** ** A concrete deployment *)

Module Deployment.
(** One sandbox with an access token, behind a gateway with one key. *)
Definition sandbox : string := "my-sandbox".
#[global] Instance provider : WorkloadProvider unit := {|
  annotations := fun _ => Some [(SANDBOX_SECURE_ACCESS_TOKEN_METADATA_KEY, "tok-1")];
  get_workload := fun _ id => Ok (if bool_decide (id = sandbox) then Some tt else None);
  get_internal_endpoint := fun _ _ _ => Ok None;
  get_endpoint_info := fun _ _ _ => Ok None |}.

Definition secure : SecureAccessConfig := {| active_key := "a"; keys := [{| key_id := "a"; key := "AQID" |}] |}.
Definition config (m : gateway_route_mode) (addr : string) : IngressConfig :=
  {| mode := INGRESS_MODE_GATEWAY; gateway := Some {| address := addr; route_mode := m |};
     secure_access := Some secure |}.
Definition ks : Keys := [("a", [1; 2; 3])].

Definition lookup (token : string) (id : string) : res goerr EndpointInfo :=
  if bool_decide (id = sandbox) then Ok {| ei_endpoint := "10.0.0.7"; ei_secure_token := token |}
  else Raise ErrSandboxNotFound.

Definition answer (m : gateway_route_mode) (addr : string) : res pyexn Endpoint :=
  get_endpoint (W:=unit) (Some (config m addr)) "default" None None 1700000000 sandbox 8080 false (Some 2000000000).

Lemma secure_valid : valid_secure_access secure.
Proof.
  split_and!.
  - constructor; [|constructor]. exists "a"%char, [1; 2; 3]. split_and!; [done|done|by vm_compute|done].
  - apply NoDup_singleton.
  - set_solver.
Qed.

Lemma config_valid m addr : valid_address {| address := addr; route_mode := m |} -> valid_ingress (config m addr).
Proof.
  intros Ha. split; [by eexists|]. intros s [= <-]. apply secure_valid.
Qed.

Lemma name_ok : sandbox_name sandbox.
Proof. split_and!; by vm_compute. Qed.
End Deployment.

Lemma gateway_access_controlled_witness :
  let r := {| q_ingress_to := ""; q_deprecated_to := ""; q_host := "my-sandbox-8080-x2qxvk-56bca5f1a.gw.example.com";
              q_path := "/"; q_secure := [] |} in
  exists h, doGetSandboxHostDefinition (Deployment.lookup "tok-1") ModeHeader (Some Deployment.ks) 1999999999 r = Ok h /\
  ((exists v vs, q_secure r = v :: vs /\ trim_space v = trim_space "tok-1") \/
   (q_secure r = [] /\ exists ks' route, Some Deployment.ks = Some ks' /\ signature_of ks' 1999999999 route /\
     r_id route = ingressKey h /\ r_port route = port h)).
Proof.
  cbv zeta. eexists. split; [vm_compute; reflexivity|].
  eapply (gateway_access_controlled (Deployment.lookup "tok-1") ModeHeader (Some Deployment.ks) 1999999999 _ _
    {| ei_endpoint := "10.0.0.7"; ei_secure_token := "tok-1" |}); [vm_compute; reflexivity|reflexivity|discriminate].
Defined.


Lemma unsigned_endpoint_routed_witness :
  exists e0, format_ingress_endpoint (Some (Deployment.config GATEWAY_ROUTE_MODE_HEADER "gw.example.com"))
      Deployment.sandbox 8080 None None = Some e0 /\
  ServeHTTP (Deployment.lookup "tok-1") ModeHeader None 0
    (client_request (attach_egress_auth_headers (attach_secure_access_headers e0 tt) tt 8080) "/v1/status") =
    Ok ("10.0.0.7:8080", "/v1/status") /\
  ("tok-1" <> "" -> ServeHTTP (Deployment.lookup "tok-1") ModeHeader None 0 (client_request e0 "/v1/status") = Raise 401).
Proof.
  eexists. split; [reflexivity|].
  eapply (unsigned_endpoint_routed (Deployment.config GATEWAY_ROUTE_MODE_HEADER "gw.example.com")
    {| address := "gw.example.com"; route_mode := GATEWAY_ROUTE_MODE_HEADER |} Deployment.sandbox 8080 _ tt
    "/v1/status" (Deployment.lookup "tok-1") None 0 {| ei_endpoint := "10.0.0.7"; ei_secure_token := "tok-1" |}).
  - reflexivity.
  - reflexivity.
  - vm_compute. set_solver.
  - apply Deployment.name_ok.
  - lia.
  - right. by eexists.
  - reflexivity.
  - reflexivity.
  - reflexivity.
  - discriminate.
Defined.

Lemma signed_endpoint_answers_witness :
  exists e0, build_signed_endpoint (Some (Deployment.config GATEWAY_ROUTE_MODE_HEADER "gw.example.com"))
      Deployment.sandbox 8080 2000000000 = Ok e0 /\
    get_endpoint (W:=unit) (Some (Deployment.config GATEWAY_ROUTE_MODE_HEADER "gw.example.com")) "default" None None
      1700000000 Deployment.sandbox 8080 false (Some 2000000000) = Ok (attach_egress_auth_headers e0 tt 8080).
Proof.
  apply (signed_endpoint_answers (Deployment.config GATEWAY_ROUTE_MODE_HEADER "gw.example.com") "default" None None
    1700000000 Deployment.sandbox 8080 false 2000000000 "default" (Some tt)).
  - apply Deployment.config_valid. split_and!; [reflexivity|discriminate|]. vm_compute. set_solver.
  - lia.
  - reflexivity.
  - reflexivity.
  - intros s secret [= <-] H. vm_compute in H. injection H as <-. by vm_compute.
  - intros b H. vm_compute in H. injection H as <-. by vm_compute.
Defined.

(** The server signs an endpoint for a sandbox that has no access token too; in
    the URI mode the gateway then forwards the expiry and the signature to the
    sandbox as part of the path. *)
Example signed_uri_without_token :
  exists e, Deployment.answer GATEWAY_ROUTE_MODE_URI "gw.example.com" = Ok e /\
    ServeHTTP (Deployment.lookup "") ModeURI (Some Deployment.ks) 1999999999 (client_request e "/v1/status") =
      Ok ("10.0.0.7:8080", "/x2qxvk/56bca5f1a/v1/status").
Proof. eexists. split; [vm_compute; reflexivity|]. vm_compute. reflexivity. Qed.
