(* ===== verification/RateLimiter.v ===== *)
(** * Token-bucket rate limiter

    [server/opensandbox_server/services/k8s/rate_limiter.py]: the limiter in
    front of the Kubernetes API.  Its [float] fields are exact rationals here;
    the lock makes every attempt one step, which reads the clock itself, so a
    history of the limiter is the sequence of its clock readings. *)

From Stdlib Require Import ZArith QArith Qminmax Lqa Lia String.
From stdpp Require Import base numbers strings list.
From S2P Require Import Prelude PoolTypes.

Open Scope Q_scope.

Record TokenBucketRateLimiter := mkRL {
  rl_qps : Q;
  rl_burst : Q;
  rl_tokens : Q;
  rl_last_refill : Q;
}.

(** [__init__]; [now] is the clock reading. *)
Definition rl_init (now qps burst : Q) : res exc TokenBucketRateLimiter :=
  if Qle_bool qps 0 then Raise (ValueError "qps must be > 0")
  else
    let b := Qmax (if Qle_bool burst 0 then qps else burst) 1 in
    Ok (mkRL qps b b now).

Definition rl_refill (now : Q) (s : TokenBucketRateLimiter) : TokenBucketRateLimiter :=
  let elapsed := now - rl_last_refill s in
  mkRL (rl_qps s) (rl_burst s) (Qmin (rl_burst s) (rl_tokens s + elapsed * rl_qps s)) now.

(** [_try_acquire]: the time to wait, zero when a token was taken. *)
Definition rl_attempt (now : Q) (s : TokenBucketRateLimiter) : Q * TokenBucketRateLimiter :=
  let s := rl_refill now s in
  if Qle_bool 1 (rl_tokens s) then
    (0, mkRL (rl_qps s) (rl_burst s) (rl_tokens s - 1) (rl_last_refill s))
  else ((1 - rl_tokens s) / rl_qps s, s).

Definition rl_try_acquire (now : Q) (s : TokenBucketRateLimiter) : bool * TokenBucketRateLimiter :=
  let '(wait, s) := rl_attempt now s in (Qle_bool wait 0, s).

(** The loop of [acquire]: attempt number [n] reads [clock n].  The result is
    the number of attempts and the limiter, or [None] when [fuel] attempts were
    not enough. *)
Fixpoint rl_acquire (clock : nat -> Q) (fuel n : nat) (s : TokenBucketRateLimiter)
  : option (nat * TokenBucketRateLimiter) :=
  match fuel with
  | O => None
  | S fuel =>
      let '(wait, s) := rl_attempt (clock n) s in
      if Qle_bool wait 0 then Some (S n, s) else rl_acquire clock fuel (S n) s
  end.

(** The argument of [time.sleep]. *)
Definition rl_sleep (wait : Q) : Q := Qmax wait (1 # 1000).

(** ** Invariant *)

Record rl_ok (s : TokenBucketRateLimiter) : Prop := {
  ok_qps : 0 < rl_qps s;
  ok_burst : 1 <= rl_burst s;
  ok_tokens : 0 <= rl_tokens s;
  ok_capacity : rl_tokens s <= rl_burst s;
}.

Lemma Qle_bool_false p q : Qle_bool p q = false <-> q < p.
Proof.
  split; intros H.
  - apply Qnot_le_lt. intros Hle%Qle_bool_iff. congruence.
  - destruct (Qle_bool p q) eqn:E; [|done]. apply Qle_bool_iff in E. lra.
Qed.

Lemma rl_init_ok now qps burst s : rl_init now qps burst = Ok s -> rl_ok s.
Proof.
  unfold rl_init. destruct (Qle_bool qps 0) eqn:E; [done|]. intros [= <-].
  apply Qle_bool_false in E. pose proof (Q.le_max_r (if Qle_bool burst 0 then qps else burst) 1).
  split; simpl; lra.
Qed.

Lemma rl_refill_ok now s : rl_ok s -> rl_last_refill s <= now -> rl_ok (rl_refill now s).
Proof.
  intros [H1 H2 H3 H4] Hn. unfold rl_refill. split; simpl; [done|done| |apply Q.le_min_l].
  apply Q.min_glb; [lra|]. nra.
Qed.

Lemma rl_attempt_ok now s : rl_ok s -> rl_last_refill s <= now ->
  rl_ok (rl_attempt now s).2 /\ rl_last_refill (rl_attempt now s).2 = now /\
  rl_qps (rl_attempt now s).2 = rl_qps s /\ rl_burst (rl_attempt now s).2 = rl_burst s.
Proof.
  intros Hs Hn. pose proof (rl_refill_ok now s Hs Hn) as [H1 H2 H3 H4].
  unfold rl_attempt. destruct (Qle_bool 1 _) eqn:E; simpl; [|by split_and!].
  apply Qle_bool_iff in E. split_and!; [|done..]. split; simpl in *; lra.
Qed.

(** The waiting time is zero exactly when a token was there. *)
Lemma rl_attempt_granted now s : rl_ok s -> rl_last_refill s <= now ->
  Qle_bool (rl_attempt now s).1 0 = Qle_bool 1 (rl_tokens (rl_refill now s)).
Proof.
  intros Hs Hn. pose proof (rl_refill_ok now s Hs Hn) as [H1 H2 H3 H4].
  unfold rl_attempt. destruct (Qle_bool 1 _) eqn:E; simpl; [done|].
  apply Qle_bool_false in E. apply Qle_bool_false. apply Qlt_shift_div_l; simpl in *; lra.
Qed.

(** ** Histories *)

(** Attempts at the given instants, in the order the lock was taken: which of
    them got a token. *)
Fixpoint rl_run (times : list Q) (s : TokenBucketRateLimiter) : list bool * TokenBucketRateLimiter :=
  match times with
  | [] => ([], s)
  | t :: times =>
      let '(b, s) := rl_try_acquire t s in
      let '(bs, s) := rl_run times s in (b :: bs, s)
  end.

Fixpoint granted (bs : list bool) : nat :=
  match bs with [] => 0 | b :: bs => (if b : bool then S (granted bs) else granted bs) end.

(** The clock never goes back. *)
Fixpoint ascending (from : Q) (times : list Q) : Prop :=
  match times with [] => True | t :: times => from <= t /\ ascending t times end.

Definition inject (n : nat) : Q := inject_Z (Z.of_nat n).

Lemma inject_S n : inject (S n) == inject n + 1.
Proof. unfold inject. rewrite Nat2Z.inj_succ. unfold Z.succ. rewrite inject_Z_plus. reflexivity. Qed.

Fixpoint last_reading (from : Q) (times : list Q) : Q :=
  match times with [] => from | t :: times => last_reading t times end.

(** Tokens only come from the clock. *)
Lemma rl_run_budget times : forall s, rl_ok s -> ascending (rl_last_refill s) times ->
  inject (granted (rl_run times s).1) + rl_tokens (rl_run times s).2 <=
    rl_tokens s + (rl_last_refill (rl_run times s).2 - rl_last_refill s) * rl_qps s.
Proof.
  induction times as [|t times IH]; intros s Hs Ha; simpl.
  - change (inject 0) with 0. lra.
  - destruct Ha as [Ht Ha]. pose proof (rl_attempt_ok t s Hs Ht) as (H1 & H2 & H3 & H4).
    pose proof (rl_attempt_granted t s Hs Ht) as Hg. unfold rl_try_acquire.
    pose proof (Q.le_min_r (rl_burst s) (rl_tokens s + (t - rl_last_refill s) * rl_qps s)) as Hm.
    unfold rl_attempt in *. destruct (Qle_bool 1 _) eqn:E; simpl in *.
    + specialize (IH _ H1). simpl in IH. specialize (IH Ha).
      destruct (rl_run times _) as [bs s']. simpl in *. rewrite inject_S. lra.
    + rewrite Hg. specialize (IH _ H1). simpl in IH. specialize (IH Ha).
      destruct (rl_run times _) as [bs s']. simpl in *. lra.
Qed.

Lemma rl_run_clock times : forall s,
  rl_last_refill (rl_run times s).2 = last_reading (rl_last_refill s) times.
Proof.
  induction times as [|t times IH]; intros s; simpl; [done|]. unfold rl_try_acquire, rl_attempt.
  destruct (Qle_bool 1 _); simpl; (destruct (rl_run times _) as [bs s'] eqn:E);
    rewrite <- (f_equal snd E : _ = s'); apply IH.
Qed.

Lemma rl_run_ok times : forall s, rl_ok s -> ascending (rl_last_refill s) times ->
  rl_ok (rl_run times s).2.
Proof.
  induction times as [|t times IH]; intros s Hs Ha; simpl; [done|]. destruct Ha as [Ht Ha].
  pose proof (rl_attempt_ok t s Hs Ht) as (H1 & H2 & _). unfold rl_try_acquire.
  destruct (rl_attempt t s) as [wait s1]. simpl in *. rewrite <- H2 in Ha.
  specialize (IH s1 H1 Ha). by destruct (rl_run times s1).
Qed.

(** ** Theorems *)

(** Whoever calls it and however often, the limiter grants no more than
    [burst] tokens and [qps] per second more: of the attempts made between two
    clock readings, at most [burst + qps * (time between them)] succeed, and
    the bucket stays between empty and full. *)
Theorem rate_bounded s t times :
  rl_ok s -> ascending (rl_last_refill s) (t :: times) ->
  let '(bs, s') := rl_run (t :: times) s in
  inject (granted bs) <= rl_burst s + rl_qps s * (last_reading t times - t) /\ rl_ok s'.
Proof.
  intros Hs [Ht Ha]. destruct (rl_run (t :: times) s) as [bs s'] eqn:E.
  assert (Hok : rl_ok s').
  { rewrite <- (f_equal snd E : _ = s'). by apply rl_run_ok. }
  split; [|done]. simpl in E. unfold rl_try_acquire in E.
  pose proof (rl_attempt_ok t s Hs Ht) as (H1 & H2 & H3 & H4).
  pose proof (rl_attempt_granted t s Hs Ht) as Hg.
  pose proof (rl_refill_ok t s Hs Ht) as [_ _ _ Hcap]. simpl in Hcap.
  assert (Htok : inject (if Qle_bool (rl_attempt t s).1 0 then 1 else 0) +
                 rl_tokens (rl_attempt t s).2 <= rl_burst s).
  { rewrite Hg. unfold rl_attempt. destruct (Qle_bool 1 _) eqn:Eq; simpl in *.
    - change (inject 1) with 1. lra.
    - change (inject 0) with 0. lra. }
  destruct (rl_attempt t s) as [wait s1]. simpl in *. rewrite <- H2 in Ha.
  pose proof (rl_run_budget times s1 H1 Ha) as Hb. rewrite (rl_run_clock times s1), H2, H3 in Hb.
  destruct (rl_run times s1) as [bs1 s2]. simplify_eq. simpl in *. destruct Hok as [_ _ Hpos _].
  destruct (Qle_bool wait 0).
  - rewrite inject_S. change (inject 1) with 1 in Htok. lra.
  - change (inject 0) with 0 in Htok. lra.
Qed.

Definition demo_limiter : TokenBucketRateLimiter := mkRL 2 3 3 0.

Lemma rate_bounded_witness :
  (rl_run [0; 0; 0; 0; (1#2)] demo_limiter).1 = [true; true; true; false; true] /\
  let '(bs, s') := rl_run [0; 0; 0; 0; (1#2)] demo_limiter in
  inject (granted bs) <= 3 + 2 * ((1#2) - 0) /\ rl_ok s'.
Proof.
  split; [vm_compute; reflexivity|].
  apply (rate_bounded demo_limiter 0 [0; 0; 0; (1#2)]); [split; simpl; lra|simpl; lra].
Defined.

(** When nobody else takes tokens, [acquire] sleeps at most once: a clock that
    has advanced by what it slept makes the second attempt succeed. *)
Theorem acquire_returns clock n s :
  rl_ok s -> rl_last_refill s <= clock n ->
  clock n + rl_sleep (rl_attempt (clock n) s).1 <= clock (S n) ->
  exists k s', rl_acquire clock 2 n s = Some (k, s') /\ (k <= S (S n))%nat /\ rl_ok s'.
Proof.
  intros Hs Hn Hsleep. pose proof (rl_attempt_ok _ s Hs Hn) as (H1 & H2 & H3 & H4).
  pose proof (rl_attempt_granted _ s Hs Hn) as Hg. cbn [rl_acquire].
  destruct (rl_attempt (clock n) s) as [wait s1] eqn:E. cbn [fst snd] in *.
  destruct (Qle_bool wait 0) eqn:Ew; [by eexists _, _; split_and!; [done|lia|]|].
  assert (Hw : 0 < wait) by (by apply Qle_bool_false).
  assert (Hle : clock n + wait <= clock (S n)).
  { pose proof (Q.le_max_l wait (1 # 1000)). unfold rl_sleep in Hsleep. lra. }
  assert (Hn1 : rl_last_refill s1 <= clock (S n)) by (rewrite H2; lra).
  pose proof (rl_attempt_ok _ s1 H1 Hn1) as (K1 & _).
  pose proof (rl_attempt_granted _ s1 H1 Hn1) as Kg.
  assert (Hfull : Qle_bool 1 (rl_tokens (rl_refill (clock (S n)) s1)) = true).
  { apply Qle_bool_iff. unfold rl_refill. simpl. apply Q.min_glb; [apply H1|].
    unfold rl_attempt in E. rewrite <- Hg in E. simplify_eq.
    destruct Hs as [Hq _ _ _]. rewrite H2.
    assert (Hwq : (1 - rl_tokens (rl_refill (clock n) s)) / rl_qps s * rl_qps s ==
                  1 - rl_tokens (rl_refill (clock n) s)) by (field; lra).
    simpl in *. nra. }
  rewrite Hfull in Kg. destruct (rl_attempt (clock (S n)) s1) as [wait2 s2]. simpl in *.
  rewrite Kg. eexists _, _. split_and!; [done|lia|done].
Qed.
