(* ===== verification/KubeCache.v ===== *)
(** * Kubernetes objects, cached from a watch

    [server/opensandbox_server/services/k8s/informer.py], [client.py] and
    [label_selector.py]: the informer lists the objects of a namespace and
    follows a watch; the client reads from its cache while it is synced, and
    writes what it got from the API server through to the cache.

    The watcher is one thread, clients are any number of others, and other
    programs write to the API server.  A step is a call to the API server, the
    delivery of a watch event, or a section under the informer's lock; between
    any two steps other threads run.  The API server is a log of events with
    rising resource versions, which are integers, as etcd's are.  Whether a call
    or a watch succeeds is an argument of the step.  Instants are microseconds
    of the monotonic clock. *)

From Stdlib Require Import ZArith Lia Ascii String.
From stdpp Require Import base numbers strings gmap sorting list.
From S2P Require Import Prelude PyString PyCodec.

Open Scope string_scope.
Open Scope Z_scope.

(** ** Label selectors *)

Inductive term := Exists (key : string) | Equals (key value : string).

#[global] Instance term_eq_dec : EqDecision term.
Proof. solve_decision. Defined.

Definition is_label_key_char (c : ascii) : bool :=
  is_alnum_az c || bool_decide (c ∈ ["-"%char; "_"%char; "."%char; "/"%char]).

Definition is_valid_key (key : string) : bool :=
  match chars key with [] => false | l => forallb is_label_key_char l end.

(** [clause.partition(sep)] for the separators in use. *)
Fixpoint partition_eq (l : list ascii) : option (list ascii * list ascii) :=
  match l with
  | [] => None
  | c :: l => if bool_decide (c = "="%char) then Some ([], l)
              else '(k, v) ← partition_eq l; Some (c :: k, v)
  end.

Fixpoint partition_eqeq (l : list ascii) : option (list ascii * list ascii) :=
  match l with
  | [] => None
  | c :: l => if bool_decide (c = "="%char) && bool_decide (head l = Some "="%char) then Some ([], tail l)
              else '(k, v) ← partition_eqeq l; Some (c :: k, v)
  end.

Definition parse_clause (raw : string) : option term :=
  let clause := strip raw in
  let '(key, value) :=
    match partition_eqeq (chars clause) with
    | Some (k, v) => (of_chars k, Some (of_chars v))
    | None => match partition_eq (chars clause) with
              | Some (k, v) => (of_chars k, Some (of_chars v))
              | None => (clause, None)
              end
    end in
  let key := strip key in
  if (clause =? "")%string then None
  else if negb (is_valid_key key) then None
  else Some (match value with None => Exists key | Some v => Equals key (strip v) end).

(** [None]: more than this parser knows. *)
Definition parse_selector (selector : string) : option (list term) :=
  let selector := strip selector in
  if (selector =? "")%string then Some [] else mapM parse_clause (split selector ",").

Definition satisfies (labels : gmap string string) (t : term) : bool :=
  match t with
  | Exists key => bool_decide (is_Some (labels !! key))
  | Equals key value => bool_decide (labels !! key = Some value)
  end.

Definition matches (labels : gmap string string) (terms : list term) : bool := forallb (satisfies labels) terms.

(** ** The API server *)

Record kobj := mkObj {
  ko_name : string;
  ko_rv : Z;
  ko_labels : gmap string string;
}.

#[global] Instance kobj_eq_dec : EqDecision kobj.
Proof. solve_decision. Defined.

(** [ADDED] and [MODIFIED], which the informer does not tell apart, and [DELETED]. *)
Inductive event := Put (o : kobj) | Deleted (o : kobj).

Definition ev_object (e : event) : kobj := match e with Put o | Deleted o => o end.
Definition ev_rv (e : event) : Z := ko_rv (ev_object e).

(** Its events so far, the oldest first; the current version is the last one's. *)
Record Api := mkApi { api_rv : Z; api_log : list event }.

Definition replay (m : gmap string kobj) (e : event) : gmap string kobj :=
  match e with Put o => <[ko_name o := o]> m | Deleted o => delete (ko_name o) m end.

(** The objects at a version. *)
Definition state_at (v : Z) (a : Api) : gmap string kobj :=
  foldl replay ∅ (filter (fun e => ev_rv e <= v) (api_log a)).

Definition api_objects (a : Api) : gmap string kobj := foldl replay ∅ (api_log a).

Definition api_put (name : string) (labels : gmap string string) (a : Api) : kobj * Api :=
  let o := mkObj name (api_rv a + 1) labels in (o, mkApi (api_rv a + 1) (api_log a ++ [Put o])).

Definition api_delete (name : string) (a : Api) : option Api :=
  o ← api_objects a !! name;
  Some (mkApi (api_rv a + 1) (api_log a ++ [Deleted (mkObj name (api_rv a + 1) (ko_labels o))])).

(** ** The informer *)

(** Where the watcher's thread stands: at the top of its loop; with the answer
    of a list call; after installing it; in a stream that has delivered the
    events up to a version. *)
Inductive watcher :=
  | WTop
  | WListed (items : list kobj) (rv : Z)
  | WInstalled
  | WStream (position : Z).

Record Informer := mkInformer {
  in_cache : gmap string kobj;
  in_resource_version : option Z;
  in_has_synced : bool;
  in_last_contact_at : option Z;
  in_stopped : bool;
  in_last_full_resync_at : option Z;
  in_backoff : Z;
  in_watcher : watcher;
}.

Record Config := mkConfig {
  cf_resync_period : Z;
  cf_watch_timeout : Z;
  cf_enable_watch : bool;
}.

Definition second : Z := 1000000.

Definition init_informer : Informer := mkInformer ∅ None false None false None second WTop.

(** The property [has_synced]. *)
Definition has_synced (c : Config) (now : Z) (i : Informer) : bool :=
  if in_stopped i then false
  else match in_last_contact_at i with
       | Some t => in_has_synced i && (now - t <=? (cf_resync_period c + cf_watch_timeout c) * second)
       | None => false
       end.

Definition advance_resource_version (rv : Z) (current : option Z) : option Z :=
  match current with
  | None => Some rv
  | Some v => if v <? rv then Some rv else current
  end.

Definition set_cache (cache : gmap string kobj) (rv : option Z) (i : Informer) : Informer :=
  mkInformer cache rv (in_has_synced i) (in_last_contact_at i) (in_stopped i) (in_last_full_resync_at i)
    (in_backoff i) (in_watcher i).

Definition update_cache (o : kobj) (i : Informer) : Informer :=
  if (ko_name o =? "")%string then i
  else set_cache (<[ko_name o := o]> (in_cache i)) (advance_resource_version (ko_rv o) (in_resource_version i)) i.

Definition delete_from_cache (name : string) (i : Informer) : Informer :=
  set_cache (delete name (in_cache i)) (in_resource_version i) i.

Definition handle_event (e : event) (i : Informer) : Informer :=
  let o := ev_object e in
  if (ko_name o =? "")%string then i
  else set_cache (match e with Deleted _ => delete (ko_name o) (in_cache i) | Put _ => <[ko_name o := o]> (in_cache i) end)
         (advance_resource_version (ko_rv o) (in_resource_version i)) i.

Definition new_cache (items : list kobj) : gmap string kobj :=
  foldl (fun m o => if (ko_name o =? "")%string then m else <[ko_name o := o]> m) ∅ items.

(** The end of [_full_resync], back in the loop. *)
Definition install (now : Z) (items : list kobj) (rv : Z) (i : Informer) : Informer :=
  mkInformer (new_cache items) (advance_resource_version rv (in_resource_version i)) true (Some now) (in_stopped i)
    (Some now) second (in_watcher i).

Definition set_watcher (w : watcher) (i : Informer) : Informer :=
  mkInformer (in_cache i) (in_resource_version i) (in_has_synced i) (in_last_contact_at i) (in_stopped i)
    (in_last_full_resync_at i) (in_backoff i) w.

(** [self._has_synced = False] *)
Definition unsync (i : Informer) : Informer :=
  mkInformer (in_cache i) (in_resource_version i) false (in_last_contact_at i) (in_stopped i)
    (in_last_full_resync_at i) (in_backoff i) (in_watcher i).

(** The handlers of [_run]; the pause is left out. *)
Definition on_error (gone : bool) (i : Informer) : Informer :=
  mkInformer (in_cache i) (if gone then None else in_resource_version i) false (in_last_contact_at i) (in_stopped i)
    (in_last_full_resync_at i) (if gone then in_backoff i else Z.min (in_backoff i * 2) (30 * second)) WTop.

(** A stream that ran to its end. *)
Definition stream_ended (c : Config) (now : Z) (i : Informer) : Informer :=
  let due := match in_last_full_resync_at i with Some t => cf_resync_period c * second <=? now - t | None => false end in
  mkInformer (in_cache i) (in_resource_version i) (if due then false else in_has_synced i) (Some now) (in_stopped i)
    (in_last_full_resync_at i) second WTop.

(** What the loop does next; [stop] is looked at at its top only. *)
Inductive decision := DoStop | DoList | DoRest | DoResync | DoWatch (timeout_seconds : Z).

Definition ceil_seconds (t : Z) : Z := (t + second - 1) / second.

Definition after_sync (c : Config) (now : Z) (i : Informer) : decision :=
  if negb (cf_enable_watch c) then DoRest
  else
    let remaining := cf_resync_period c * second - (now - default now (in_last_full_resync_at i)) in
    if remaining <=? 0 then DoResync
    else DoWatch (Z.min (cf_watch_timeout c) (Z.max 1 (ceil_seconds remaining))).

Definition decide_next (c : Config) (now : Z) (i : Informer) : decision :=
  match in_watcher i with
  | WTop => if in_stopped i then DoStop else if negb (in_has_synced i) then DoList else after_sync c now i
  | WInstalled => after_sync c now i
  | _ => DoStop
  end.

(** ** The system *)

(** What a call of a client returned. *)
Inductive answer :=
  | AnObject (o : option kobj)
  | AList (m : gmap string kobj)
  | ADone
  | AnError.

(** A client between its call to the API server and the cache. *)
Inductive client :=
  | CUpdate (o : kobj)
  | CEvict (name : string)
  | CDone (r : answer).

Record Sys := mkSys {
  sy_api : Api;
  sy_informer : Informer;
  sy_clients : gmap nat client;
}.

Definition init_sys (a : Api) : Sys := mkSys a init_informer ∅.

Definition set_api (a : Api) (s : Sys) : Sys := mkSys a (sy_informer s) (sy_clients s).
Definition set_informer (i : Informer) (s : Sys) : Sys := mkSys (sy_api s) i (sy_clients s).
Definition set_client (t : nat) (p : client) (s : Sys) : Sys := mkSys (sy_api s) (sy_informer s) (<[t := p]> (sy_clients s)).

Section System.
(** How the API server reads a selector. *)
Context (server_select : string -> gmap string string -> bool) (c : Config).

(** [get_custom_object] *)
Definition get_custom_object (now : Z) (t : nat) (name : string) (s : Sys) : Sys :=
  let from_api := match api_objects (sy_api s) !! name with
                  | Some o => set_client t (CUpdate o) s
                  | None => set_client t (CDone (AnObject None)) s
                  end in
  if has_synced c now (sy_informer s) then
    match in_cache (sy_informer s) !! name with
    | Some o => set_client t (CDone (AnObject (Some o))) s
    | None => from_api
    end
  else from_api.

Definition select (p : gmap string string -> bool) (m : gmap string kobj) : gmap string kobj :=
  filter (fun kv => p (ko_labels kv.2) = true) m.

(** [list_custom_objects] *)
Definition list_custom_objects (now : Z) (t : nat) (selector : string) (s : Sys) : Sys :=
  let from_api := set_client t (CDone (AList (select (server_select selector) (api_objects (sy_api s))))) s in
  if has_synced c now (sy_informer s) then
    match parse_selector selector with
    | Some terms => set_client t (CDone (AList (select (fun labels => matches labels terms) (in_cache (sy_informer s))))) s
    | None => from_api
    end
  else from_api.

(** The API call of [create_custom_object]; an existing object is an error. *)
Definition create_custom_object (t : nat) (name : string) (labels : gmap string string) (s : Sys) : Sys :=
  match api_objects (sy_api s) !! name with
  | Some _ => set_client t (CDone AnError) s
  | None => let '(o, a) := api_put name labels (sy_api s) in set_client t (CUpdate o) (set_api a s)
  end.

(** The API call of [patch_custom_object], which leaves the labels; a missing
    object is an error. *)
Definition patch_custom_object (t : nat) (name : string) (labels : gmap string string) (s : Sys) : Sys :=
  match api_objects (sy_api s) !! name with
  | Some _ => let '(o, a) := api_put name labels (sy_api s) in set_client t (CUpdate o) (set_api a s)
  | None => set_client t (CDone AnError) s
  end.

(** The API call of [delete_custom_object]; a missing object is an error. *)
Definition delete_custom_object (t : nat) (name : string) (s : Sys) : Sys :=
  match api_delete name (sy_api s) with
  | Some a => set_client t (CEvict name) (set_api a s)
  | None => set_client t (CDone AnError) s
  end.

(** A client comes back with the API server's answer. *)
Definition write_through (t : nat) (s : Sys) : option Sys :=
  match sy_clients s !! t with
  | Some (CUpdate o) => Some (set_client t (CDone (AnObject (Some o))) (set_informer (update_cache o (sy_informer s)) s))
  | Some (CEvict name) => Some (set_client t (CDone ADone) (set_informer (delete_from_cache name (sy_informer s)) s))
  | _ => None
  end.

Definition next_event (position : Z) (a : Api) : option event :=
  head (filter (fun e => position < ev_rv e) (api_log a)).

Inductive outcome := Fine | Expired | Failed.   (** an answer, 410, another error *)

Inductive kube_action :=
  | KPut (name : string) (labels : gmap string string)   (** other programs *)
  | KDel (name : string)
  | KList (r : outcome)          (** the watcher: [list_fn()] *)
  | KInstall
  | KWatch (r : outcome)
  | KEvent
  | KEnd
  | KBreak (gone : bool)
  | KTurn                        (** its loop goes round without a call *)
  | KStop
  | KGet (t : nat) (name : string)
  | KListed (t : nat) (selector : string)
  | KCreate (t : nat) (name : string) (labels : gmap string string)
  | KPatch (t : nat) (name : string) (labels : gmap string string)
  | KDelete (t : nat) (name : string)
  | KApply (t : nat).

(** The watcher's steps. *)
Definition watch_step (now : Z) (a : kube_action) (s : Sys) : option Sys :=
  let i := sy_informer s in
  match a with
  | KList r =>
      match decide_next c now i with
      | DoList =>
          Some (set_informer match r with
                | Fine => set_watcher (WListed (map_to_list (api_objects (sy_api s))).*2 (api_rv (sy_api s))) i
                | Expired => on_error true i
                | Failed => on_error false i
                end s)
      | _ => None
      end
  | KInstall =>
      match in_watcher i with
      | WListed items rv => Some (set_informer (set_watcher WInstalled (install now items rv i)) s)
      | _ => None
      end
  | KWatch r =>
      match decide_next c now i, in_resource_version i with
      | DoWatch _, Some v =>
          Some (set_informer match r with
                | Fine => set_watcher (WStream v) i
                | Expired => on_error true i
                | Failed => on_error false i
                end s)
      | _, _ => None
      end
  | KEvent =>
      match in_watcher i with
      | WStream position =>
          match next_event position (sy_api s) with
          | Some e => Some (set_informer (if in_stopped i then stream_ended c now i
                                          else set_watcher (WStream (ev_rv e)) (handle_event e i)) s)
          | None => None
          end
      | _ => None
      end
  | KEnd => match in_watcher i with WStream _ => Some (set_informer (stream_ended c now i) s) | _ => None end
  | KBreak gone => match in_watcher i with WStream _ => Some (set_informer (on_error gone i) s) | _ => None end
  | KTurn =>
      match decide_next c now i with
      | DoRest | DoResync => Some (set_informer (set_watcher WTop (unsync i)) s)
      | _ => None
      end
  | _ => None
  end.

Definition client_idle (t : nat) (s : Sys) : bool :=
  match sy_clients s !! t with None | Some (CDone _) => true | _ => false end.

Definition kube_exec (now : Z) (a : kube_action) (s : Sys) : option Sys :=
  match a with
  | KPut name labels => if (name =? "")%string then None else Some (set_api (api_put name labels (sy_api s)).2 s)
  | KDel name => a ← api_delete name (sy_api s); Some (set_api a s)
  | KStop =>
      let i := sy_informer s in
      Some (set_informer (mkInformer (in_cache i) (in_resource_version i) (in_has_synced i) (in_last_contact_at i) true
              (in_last_full_resync_at i) (in_backoff i) (in_watcher i)) s)
  | KGet t name => if client_idle t s then Some (get_custom_object now t name s) else None
  | KListed t selector => if client_idle t s then Some (list_custom_objects now t selector s) else None
  | KCreate t name labels => if client_idle t s && negb (name =? "")%string then Some (create_custom_object t name labels s) else None
  | KPatch t name labels => if client_idle t s && negb (name =? "")%string then Some (patch_custom_object t name labels s) else None
  | KDelete t name => if client_idle t s then Some (delete_custom_object t name s) else None
  | KApply t => write_through t s
  | _ => watch_step now a s
  end.

Fixpoint kube_run (h : list (Z * kube_action)) (s : Sys) : option Sys :=
  match h with
  | [] => Some s
  | (now, a) :: h => s' ← kube_exec now a s; kube_run h s'
  end.
End System.

(** ** Selectors *)

(** What the server's callers write. *)
Definition clause_of (t : term) : string :=
  match t with Exists key => key | Equals key value => key +:+ "=" +:+ value end.

(** A comma, an equals sign or white space. *)
Definition is_mark (c : ascii) : bool := is_space c || bool_decide (c = ","%char) || bool_decide (c = "="%char).

Definition unmarked (l : list ascii) : Prop := forall c, c ∈ l -> is_mark c = false.

Definition term_ok (t : term) : Prop :=
  match t with
  | Exists key => is_valid_key key = true
  | Equals key value => is_valid_key key = true /\ unmarked (chars value)
  end.

Lemma key_char_mark c : is_label_key_char c = true -> is_mark c = false.
Proof. destruct c as [[] [] [] [] [] [] [] []]; vm_compute; congruence. Qed.

Lemma valid_key_chars key : is_valid_key key = true -> chars key <> [] /\ unmarked (chars key).
Proof.
  unfold is_valid_key. destruct (chars key) as [|x l]; [done|]. intros H. split; [done|]. intros c Hc.
  apply key_char_mark. rewrite forallb_forall in H. apply H. by apply list_elem_of_In.
Qed.

Lemma unmarked_spaces l : unmarked l -> forall c, c ∈ l -> is_space c = false.
Proof. intros H c Hc%H. unfold is_mark in Hc. by destruct (is_space c). Qed.

Lemma unmarked_avoids l c : unmarked l -> is_mark c = true -> c ∉ l.
Proof. intros H Hc Hin%H. congruence. Qed.

Lemma strip_unmarked s : unmarked (chars s) -> strip s = s.
Proof. intros H. unfold strip. rewrite strip_list_id by by apply unmarked_spaces. apply of_chars_chars. Qed.

Lemma partition_eq_app l m : "="%char ∉ l -> partition_eq (l ++ "="%char :: m) = Some (l, m).
Proof.
  induction l as [|c l IH]; [done|]. intros H. simpl. rewrite bool_decide_eq_false_2 by set_solver.
  by rewrite IH by set_solver.
Qed.

Lemma partition_eq_none l : "="%char ∉ l -> partition_eq l = None.
Proof.
  induction l as [|c l IH]; [done|]. intros H. simpl. rewrite bool_decide_eq_false_2 by set_solver.
  by rewrite IH by set_solver.
Qed.

Lemma partition_eqeq_cons c l : c <> "="%char -> partition_eqeq (c :: l) = ('(k, v) ← partition_eqeq l; Some (c :: k, v)).
Proof. intros H. simpl. by rewrite bool_decide_eq_false_2. Qed.

Lemma partition_eqeq_none l : "="%char ∉ l -> partition_eqeq l = None.
Proof.
  induction l as [|c l IH]; [done|]. intros H. rewrite partition_eqeq_cons by set_solver. by rewrite IH by set_solver.
Qed.

Lemma partition_eqeq_one l m : "="%char ∉ l -> "="%char ∉ m -> partition_eqeq (l ++ "="%char :: m) = None.
Proof.
  intros Hl Hm. induction l as [|c l IH].
  - cbn [app partition_eqeq]. rewrite (bool_decide_eq_false_2 (head m = _)), andb_false_r;
      [by rewrite partition_eqeq_none|]. destruct m; set_solver.
  - cbn [app]. rewrite partition_eqeq_cons by set_solver. by rewrite IH by set_solver.
Qed.

Lemma parse_clause_ok t : term_ok t -> parse_clause (clause_of t) = Some t.
Proof.
  destruct t as [key|key value]; simpl.
  - intros H. destruct (valid_key_chars _ H) as [Hn Hu]. unfold parse_clause. rewrite strip_unmarked by done.
    pose proof (unmarked_avoids _ "="%char Hu eq_refl).
    rewrite partition_eqeq_none, partition_eq_none by done. rewrite strip_unmarked, H by done. simpl.
    destruct (String.eqb_spec key ""); [by subst|done].
  - intros [H Hv]. destruct (valid_key_chars _ H) as [Hn Hu]. unfold parse_clause.
    pose proof (unmarked_avoids _ "="%char Hu eq_refl). pose proof (unmarked_avoids _ "="%char Hv eq_refl).
    assert (E : chars (key +:+ "=" +:+ value) = (chars key ++ "="%char :: chars value)%list) by by rewrite chars_app.
    assert (strip (key +:+ "=" +:+ value) = key +:+ "=" +:+ value) as ->.
    { unfold strip. rewrite strip_list_id; [apply of_chars_chars|]. rewrite E.
      intros c [Hc|[->|Hc]%elem_of_cons]%elem_of_app; [by apply (unmarked_spaces _ Hu)|done|by apply (unmarked_spaces _ Hv)]. }
    rewrite E, partition_eqeq_one, partition_eq_app by done. cbn [fst snd]. rewrite !of_chars_chars, !strip_unmarked, H by done.
    simpl. destruct key; [done|]. done.
Qed.

Lemma clause_chars t : term_ok t -> chars (clause_of t) <> [] /\ (","%char ∉ chars (clause_of t)) /\
  forall c, c ∈ chars (clause_of t) -> is_space c = false.
Proof.
  destruct t as [key|key value]; simpl.
  - intros [Hn Hu]%valid_key_chars. split_and!; [done|by apply unmarked_avoids|by apply unmarked_spaces].
  - intros [[Hn Hu]%valid_key_chars Hv]. rewrite chars_app. split_and!.
    + by destruct (chars key).
    + rewrite elem_of_app. intros [Hc|Hc]; [by apply (unmarked_avoids _ _ Hu) in Hc|].
      simpl in Hc. apply elem_of_cons in Hc as [[=]|Hc]. by apply (unmarked_avoids _ _ Hv) in Hc.
    + intros c [Hc|[->|Hc]%elem_of_cons]%elem_of_app; [by apply (unmarked_spaces _ Hu)|done|by apply (unmarked_spaces _ Hv)].
Qed.

(** A selector made of clauses the callers write is parsed as these clauses. *)
Lemma parse_selector_one t : term_ok t -> parse_selector (clause_of t) = Some [t].
Proof.
  intros H. destruct (clause_chars t H) as (Hn & Hc & Hs). unfold parse_selector.
  assert (strip (clause_of t) = clause_of t) as ->. { unfold strip. rewrite strip_list_id by done. apply of_chars_chars. }
  destruct (String.eqb_spec (clause_of t) "") as [E|_]; [by rewrite E in Hn|].
  unfold split. rewrite split_list_none by done. simpl. by rewrite of_chars_chars, parse_clause_ok.
Qed.

(** ** The event log *)

Definition before (e f : event) : Prop := ev_rv e < ev_rv f.

(** Versions rise, and objects have names. *)
Record log_ok (a : Api) : Prop := {
  lo_sorted : StronglySorted before (api_log a);
  lo_past : Forall (fun e => ev_rv e <= api_rv a) (api_log a);
  lo_named : Forall (fun e => ko_name (ev_object e) <> "") (api_log a);
}.

Lemma log_ok_snoc a e :
  log_ok a -> ev_rv e = api_rv a + 1 -> ko_name (ev_object e) <> "" ->
  log_ok (mkApi (api_rv a + 1) (api_log a ++ [e])).
Proof.
  intros [H1 H2 H3] He Hn. split; simpl.
  - apply StronglySorted_app_2; [|done|by repeat constructor]. intros x y Hx ->%list_elem_of_singleton.
    apply (proj1 (Forall_forall _ _) H2) in Hx. unfold before. lia.
  - apply Forall_app. split; [eapply Forall_impl; [exact H2|]; simpl; lia|]. repeat constructor. lia.
  - apply Forall_app. split; [done|]. by repeat constructor.
Qed.

Lemma state_at_snoc v a e rv : v < ev_rv e -> state_at v (mkApi rv (api_log a ++ [e])) = state_at v a.
Proof.
  intros Hv. unfold state_at. simpl. rewrite filter_app, (filter_cons_False _ e []) by lia. simpl. by rewrite app_nil_r.
Qed.

Lemma state_at_current v a : log_ok a -> api_rv a <= v -> state_at v a = api_objects a.
Proof.
  intros H Hv. unfold state_at, api_objects. f_equal. apply filter_keeps_all.
  eapply Forall_impl; [apply (lo_past _ H)|]. simpl. lia.
Qed.

(** In a sorted log the next event after a version is the only one up to its own. *)
Lemma filter_next p e (l : list event) :
  StronglySorted before l -> head (filter (fun e => p < ev_rv e) l) = Some e ->
  p < ev_rv e /\ e ∈ l /\
  filter (fun f => ev_rv f <= ev_rv e) l = (filter (fun f => ev_rv f <= p) l ++ [e])%list.
Proof.
  induction 1 as [|f l Hl IH Hf]; [done|]. destruct (decide (p < ev_rv f)) as [Hp|Hp].
  - rewrite filter_cons_True by done. simpl. intros [= ->]. split; [done|]. split; [left|].
    rewrite (filter_cons_True _ e l), (filter_cons_False _ e l) by lia.
    rewrite !filter_keeps_none; [done|eapply Forall_impl; [exact Hf|]; unfold before; simpl; lia..].
  - rewrite filter_cons_False by done. intros H. destruct (IH H) as (H1 & H2 & H3).
    split; [done|]. split; [by right|]. rewrite !(filter_cons_True _ f) by lia. simpl. by rewrite H3.
Qed.

(** The events after a version, the next one first. *)
Definition pending (p : Z) (a : Api) : list event := filter (fun e => p < ev_rv e) (api_log a).

Lemma pending_next p e a : log_ok a -> next_event p a = Some e -> pending p a = e :: pending (ev_rv e) a.
Proof.
  intros [H _ _]. unfold next_event, pending. induction H as [|f l Hl IH Hf]; [done|]. destruct (decide (p < ev_rv f)) as [Hp|Hp].
  - rewrite filter_cons_True by done. intros [= ->]. rewrite filter_cons_False by lia.
    f_equal. apply filter_congr. eapply Forall_impl; [exact Hf|]. unfold before. simpl. lia.
  - rewrite filter_cons_False by done. intros He. destruct (filter_next p e l Hl He) as (_ & Hin & _).
    apply (proj1 (Forall_forall _ _) Hf) in Hin. unfold before in Hin.
    rewrite (filter_cons_False _ f l) by lia. by apply IH.
Qed.

Lemma next_event_spec p e a :
  log_ok a -> next_event p a = Some e ->
  p < ev_rv e <= api_rv a /\ ko_name (ev_object e) <> "" /\ e ∈ api_log a /\ state_at (ev_rv e) a = replay (state_at p a) e.
Proof.
  intros [H1 H2 H3] He. destruct (filter_next p e _ H1 He) as (H4 & H5 & H6). split_and!; [done| | |done|].
  - by apply (proj1 (Forall_forall _ _) H2) in H5.
  - by apply (proj1 (Forall_forall _ _) H3) in H5.
  - unfold state_at. by rewrite H6, foldl_app.
Qed.

Lemma no_next_event p a : log_ok a -> next_event p a = None -> state_at p a = api_objects a.
Proof.
  intros H He. unfold state_at, api_objects. f_equal. apply filter_keeps_all. unfold next_event in He.
  apply Forall_forall. intros e Hin. destruct (decide (p < ev_rv e)) as [Hlt|]; [|lia]. exfalso.
  destruct (filter (fun e => p < ev_rv e) (api_log a)) as [|f l] eqn:E; [|done].
  assert (e ∈ filter (fun e => p < ev_rv e) (api_log a)) as Hf by by apply list_elem_of_filter.
  rewrite E in Hf. by apply elem_of_nil in Hf.
Qed.

(** Objects come from the log. *)
Definition real (a : Api) (k : string) (o : kobj) : Prop := ko_name o = k /\ Put o ∈ api_log a.

Lemma replay_real (P : string -> kobj -> Prop) l m :
  (forall k o, m !! k = Some o -> P k o) -> (forall o, Put o ∈ l -> P (ko_name o) o) ->
  forall k o, foldl replay m l !! k = Some o -> P k o.
Proof.
  revert m. induction l as [|e l IH]; intros m Hm Hl; [exact Hm|]. simpl. apply IH.
  - intros k o. destruct e as [o'|o']; simpl.
    + intros [[<- <-]|[_ Hk]]%lookup_insert_Some; [apply Hl; left|auto].
    + intros [_ Hk]%lookup_delete_Some. auto.
  - intros o Ho. apply Hl. by right.
Qed.

Lemma state_at_real v a k o : state_at v a !! k = Some o -> real a k o.
Proof.
  apply replay_real; [done|]. intros o' [_ Ho]%list_elem_of_filter. by split.
Qed.

Lemma api_objects_real a k o : api_objects a !! k = Some o -> real a k o.
Proof. apply replay_real; [done|]. by split. Qed.

Lemma real_named a k o : log_ok a -> real a k o -> k <> "".
Proof. intros H [<- Ho]. by apply (proj1 (Forall_forall _ _) (lo_named _ H)) in Ho. Qed.

(** Building the cache from a list gives the listed objects back. *)
Lemma new_cache_lookup items (m : gmap string kobj) k o :
  NoDup (map ko_name items) -> Forall (fun o => ko_name o <> "") items ->
  foldl (fun m o => if (ko_name o =? "")%string then m else <[ko_name o := o]> m) m items !! k = Some o <->
  (o ∈ items /\ ko_name o = k) \/ (m !! k = Some o /\ k ∉ map ko_name items).
Proof.
  intros Hnd Hn. revert m Hnd. induction Hn as [|x items Hx Hn IH]; intros m Hnd; simpl.
  { rewrite elem_of_nil. set_solver. }
  simpl in Hnd. apply NoDup_cons in Hnd as [Hxi Hnd]. rewrite IH by done.
  destruct (String.eqb_spec (ko_name x) ""); [done|]. rewrite lookup_insert_Some, !elem_of_cons.
  assert (o ∈ items -> ko_name o ∈ map ko_name items) by (intros; by apply list_elem_of_fmap_2).
  destruct (decide (k = ko_name x)) as [->|]; naive_solver.
Qed.

Lemma relisted (m : gmap string kobj) :
  (forall k o, m !! k = Some o -> ko_name o = k /\ k <> "") -> new_cache (map_to_list m).*2 = m.
Proof.
  intros Hm. assert (map ko_name (map_to_list m).*2 = (map_to_list m).*1) as E.
  { change (ko_name <$> (map_to_list m).*2 = (map_to_list m).*1). rewrite <- list_fmap_compose. apply list_fmap_ext.
    intros i [k o] Hi. simpl. apply list_elem_of_lookup_2, elem_of_map_to_list in Hi. by apply Hm. }
  apply map_eq. intros k. apply option_eq. intros o. unfold new_cache. rewrite new_cache_lookup.
  - rewrite E, lookup_empty. split.
    + intros [[Ho Hk]|[[=] _]]. apply list_elem_of_fmap in Ho as ([k' o'] & -> & Hin%elem_of_map_to_list).
      simpl in *. destruct (Hm _ _ Hin). congruence.
    + intros Ho. left. split; [|by apply Hm]. apply list_elem_of_fmap. exists (k, o). by rewrite elem_of_map_to_list.
  - rewrite E. apply NoDup_fst_map_to_list.
  - apply Forall_forall. intros x ([k' o'] & -> & Hin%elem_of_map_to_list)%list_elem_of_fmap. simpl.
    destruct (Hm _ _ Hin) as [<- ?]. done.
Qed.

(** ** What every history keeps *)

Section Histories.
Context (server_select : string -> gmap string string -> bool) (c : Config).

Abbreviation exec_ := (kube_exec server_select c).
Abbreviation run_ := (kube_run server_select c).

Definition real_answer (a : Api) (r : answer) : Prop :=
  match r with
  | AnObject (Some o) => real a (ko_name o) o
  | AList m => forall k o, m !! k = Some o -> real a k o
  | _ => True
  end.

Record Base (s : Sys) : Prop := {
  bs_log : log_ok (sy_api s);
  bs_cursor : forall v, in_resource_version (sy_informer s) = Some v -> v <= api_rv (sy_api s);
  bs_cache : forall k o, in_cache (sy_informer s) !! k = Some o -> real (sy_api s) k o;
  bs_watcher : match in_watcher (sy_informer s) with
               | WTop | WInstalled => True
               | WListed items rv => rv <= api_rv (sy_api s) /\ Forall (fun o => real (sy_api s) (ko_name o) o) items
               | WStream p => p <= api_rv (sy_api s)
               end;
  bs_clients : forall t p, sy_clients s !! t = Some p ->
    match p with CUpdate o => real (sy_api s) (ko_name o) o | CEvict _ => True | CDone r => real_answer (sy_api s) r end;
}.

Lemma decide_watch now i timeout :
  decide_next c now i = DoWatch timeout -> (in_watcher i = WTop /\ in_has_synced i = true) \/ in_watcher i = WInstalled.
Proof using Type. unfold decide_next. destruct (in_watcher i), (in_stopped i), (in_has_synced i); simpl; auto; done. Qed.

Lemma decide_list now i : decide_next c now i = DoList -> in_watcher i = WTop /\ in_has_synced i = false.
Proof using Type.
  unfold decide_next, after_sync. destruct (in_watcher i), (in_stopped i), (in_has_synced i); simpl; repeat case_match; auto; done.
Qed.

(** The log only grows. *)
Definition grows (a a' : Api) : Prop := api_rv a <= api_rv a' /\ (forall e, e ∈ api_log a -> e ∈ api_log a').

Lemma real_grows a a' k o : grows a a' -> real a k o -> real a' k o.
Proof using Type. intros [_ H] [H1 H2]. split; auto. Qed.

Lemma real_self a k o : real a k o -> real a (ko_name o) o.
Proof using Type. by intros [<- H]. Qed.

Lemma real_answer_grows a a' r : grows a a' -> real_answer a r -> real_answer a' r.
Proof using Type. intros H. destruct r as [[o|]|m| |]; simpl; eauto using real_grows. Qed.

Lemma base_api s a : grows (sy_api s) a -> log_ok a -> Base s -> Base (set_api a s).
Proof using Type.
  intros Hg Hl [H1 H2 H3 H4 H5]. pose proof Hg as [Hrv _]. split; simpl; [done| | | |].
  - intros v Hv. apply H2 in Hv. lia.
  - eauto using real_grows.
  - destruct (in_watcher (sy_informer s)); [done| |done|lia]. destruct H4 as [H4 H6]. split; [lia|].
    eapply Forall_impl; [exact H6|]. simpl. eauto using real_grows.
  - intros t p Hp. apply H5 in Hp. destruct p; eauto using real_grows, real_answer_grows.
Qed.

Lemma base_client s t p :
  Base s -> match p with CUpdate o => real (sy_api s) (ko_name o) o | CEvict _ => True | CDone r => real_answer (sy_api s) r end ->
  Base (set_client t p s).
Proof using Type.
  intros [H1 H2 H3 H4 H5] Hp. split; simpl; try done. intros u q [[<- <-]|[_ Hq]]%lookup_insert_Some; [done|exact (H5 _ _ Hq)].
Qed.

Lemma base_informer s i :
  Base s -> (forall v, in_resource_version i = Some v -> v <= api_rv (sy_api s)) ->
  (forall k o, in_cache i !! k = Some o -> real (sy_api s) k o) ->
  match in_watcher i with
  | WTop | WInstalled => True
  | WListed items rv => rv <= api_rv (sy_api s) /\ Forall (fun o => real (sy_api s) (ko_name o) o) items
  | WStream p => p <= api_rv (sy_api s)
  end -> Base (set_informer i s).
Proof using Type. intros [H1 H2 H3 H4 H5]. by split. Qed.

Lemma advance_bound rv v b : (forall w, v = Some w -> w <= b) -> rv <= b ->
  forall w, advance_resource_version rv v = Some w -> w <= b.
Proof using Type. intros H Hrv w. unfold advance_resource_version. repeat case_match; intros [= <-]; auto. Qed.

Lemma put_grows name labels a : log_ok a -> name <> "" ->
  grows a (api_put name labels a).2 /\ log_ok (api_put name labels a).2 /\ real (api_put name labels a).2 name (api_put name labels a).1.
Proof using Type.
  intros Hl Hn. unfold api_put. cbn [fst snd]. split; [split; simpl; [lia|intros e He; apply elem_of_app; by left]|].
  split; [by apply log_ok_snoc|]. split; [done|]. apply elem_of_app. right. left.
Qed.

Lemma delete_grows name a a' : log_ok a -> api_delete name a = Some a' -> grows a a' /\ log_ok a'.
Proof using Type.
  intros Hl (o & Ho & [= <-])%bind_Some. pose proof (real_named _ _ _ Hl (api_objects_real _ _ _ Ho)).
  split; [split; simpl; [lia|intros e He; apply elem_of_app; by left]|by apply log_ok_snoc].
Qed.

Lemma real_bound a k o : log_ok a -> real a k o -> ko_rv o <= api_rv a.
Proof using Type. intros H [_ Ho]. by apply (proj1 (Forall_forall _ _) (lo_past _ H)) in Ho. Qed.

Lemma base_update s o : Base s -> real (sy_api s) (ko_name o) o -> Base (set_informer (update_cache o (sy_informer s)) s).
Proof using Type.
  intros H Ho. unfold update_cache. case_match; [apply base_informer; by apply H|].
  apply base_informer; [done| | |apply H]; simpl.
  - apply advance_bound; [apply H|]. eapply real_bound; [apply H|done].
  - intros k o' [[<- <-]|[_ Hk]]%lookup_insert_Some; [done|by apply H].
Qed.

Lemma new_cache_real a items k o :
  Forall (fun o => real a (ko_name o) o) items -> new_cache items !! k = Some o -> real a k o.
Proof using Type.
  intros Hi. unfold new_cache. assert (forall m : gmap string kobj, (forall k o, m !! k = Some o -> real a k o) ->
    foldl (fun m o => if (ko_name o =? "")%string then m else <[ko_name o := o]> m) m items !! k = Some o -> real a k o) as H.
  { induction Hi as [|x items Hx Hi IH]; intros m Hm; [apply Hm|]. simpl. apply IH. case_match; [done|].
    intros k' o' [[<- <-]|[_ Hk]]%lookup_insert_Some; [done|auto]. }
  by apply H.
Qed.

Lemma base_watch_step now a s s' : Base s -> watch_step c now a s = Some s' -> Base s'.
Proof using Type.
  intros H Hs. pose proof H as [H1 H2 H3 H4 H5]. unfold watch_step in Hs. destruct a; try done.
  - destruct (decide_next c now (sy_informer s)); simplify_eq. apply base_informer; [done|..]; destruct r; simpl; try done.
    split; [lia|]. apply Forall_forall. intros o ([k' o'] & -> & Hin%elem_of_map_to_list)%list_elem_of_fmap. simpl.
    apply api_objects_real in Hin. by destruct Hin as [<- ?].
  - destruct (in_watcher (sy_informer s)) as [|items rv| |p] eqn:Ew; simplify_eq.
    apply base_informer; [done|..]; simpl; [|by intros k o; apply new_cache_real, H4|done].
    apply advance_bound; [done|apply H4].
  - destruct (decide_next c now (sy_informer s)), (in_resource_version (sy_informer s)) eqn:Ev; simplify_eq.
    apply base_informer; [done|..]; destruct r; simpl; rewrite ?Ev; try done; auto.
  - destruct (in_watcher (sy_informer s)) as [|items rv| |p] eqn:Ew; [done..|].
    destruct (next_event p (sy_api s)) as [e|] eqn:Ee; simplify_eq. destruct (in_stopped (sy_informer s)); [by apply base_informer|].
    destruct (next_event_spec _ _ _ H1 Ee) as (Hp & Hn & He & _).
    apply base_informer; [done|..]; simpl; [| |lia]; unfold handle_event; (destruct (String.eqb_spec (ko_name (ev_object e)) ""); [done|]); simpl.
    + apply advance_bound; [done|apply Hp].
    + destruct e as [o|o]; simpl in *.
      * intros k o' [[<- <-]|[_ Hk]]%lookup_insert_Some; [by split|auto].
      * intros k o' [_ Hk]%lookup_delete_Some. auto.
  - destruct (in_watcher (sy_informer s)); simplify_eq. by apply base_informer.
  - destruct (in_watcher (sy_informer s)); simplify_eq. apply base_informer; [done|..]; destruct gone; simpl; try done.
  - destruct (decide_next c now (sy_informer s)); simplify_eq; by apply base_informer.
Qed.

Lemma select_real a p m : (forall k o, m !! k = Some o -> real a k o) -> forall k o, select p m !! k = Some o -> real a k o.
Proof using Type. intros Hm k o [Hk _]%map_lookup_filter_Some. auto. Qed.

Lemma base_put t name labels s :
  Base s -> name <> "" ->
  Base (let '(o, a) := api_put name labels (sy_api s) in set_client t (CUpdate o) (set_api a s)).
Proof using Type.
  intros H Hn. destruct (put_grows name labels (sy_api s) (bs_log _ H) Hn) as (Hg & Hl & Hr).
  destruct (api_put name labels (sy_api s)) as [o a]. simpl in *. apply base_client; [by apply base_api|].
  simpl. by destruct Hr as [<- ?].
Qed.

Lemma base_exec now a s s' : Base s -> exec_ now a s = Some s' -> Base s'.
Proof using Type.
  intros H. pose proof H as [H1 H2 H3 H4 H5].
  destruct a; try exact (base_watch_step now _ s s' H); cbn -[api_put watch_step get_custom_object list_custom_objects delete_custom_object].
  - destruct (String.eqb_spec name "") as [|Hn]; intros [= <-].
    destruct (put_grows name labels (sy_api s) H1 Hn) as (Hg & Hl & _). by apply base_api.
  - intros (a & Ha & [= <-])%bind_Some. destruct (delete_grows _ _ _ H1 Ha). by apply base_api.
  - intros [= <-]. by apply base_informer.
  - destruct (client_idle t s); [|done]. intros [= <-]. unfold get_custom_object.
    destruct (has_synced _ _ _); [destruct (in_cache (sy_informer s) !! name) as [o|] eqn:Eo|];
      [apply base_client; [done|]; exact (real_self _ _ _ (H3 _ _ Eo))|..];
      (destruct (api_objects (sy_api s) !! name) as [o|] eqn:Ea; apply base_client; try done;
       exact (real_self _ _ _ (api_objects_real _ _ _ Ea))).
  - destruct (client_idle t s); [|done]. intros [= <-]. unfold list_custom_objects.
    destruct (has_synced _ _ _); [destruct (parse_selector selector)|]; (apply base_client; [done|]); simpl;
      intros k o; apply select_real; first [exact H3|apply api_objects_real].
  - destruct (client_idle t s); [|done]. destruct (String.eqb_spec name "") as [|Hn]; [done|]. intros [= <-].
    unfold create_custom_object. destruct (api_objects (sy_api s) !! name); [by apply base_client|by apply base_put].
  - destruct (client_idle t s); [|done]. destruct (String.eqb_spec name "") as [|Hn]; [done|]. intros [= <-].
    unfold patch_custom_object. destruct (api_objects (sy_api s) !! name); [by apply base_put|by apply base_client].
  - destruct (client_idle t s); [|done]. intros [= <-]. unfold delete_custom_object.
    destruct (api_delete name (sy_api s)) as [a|] eqn:Ea; [|by apply base_client].
    destruct (delete_grows _ _ _ H1 Ea). apply base_client; [by apply base_api|done].
  - unfold write_through. destruct (sy_clients s !! t) as [[o|name|r]|] eqn:Et; intros [= <-].
    + apply H5 in Et. apply base_client; [by apply base_update|done].
    + apply base_client; [|done]. apply base_informer; [done..| |done]. simpl. intros k o [_ Hk]%lookup_delete_Some. auto.
Qed.

Lemma base_run h s s' : Base s -> run_ h s = Some s' -> Base s'.
Proof using Type.
  revert s. induction h as [|[now a] h IH]; intros s H; simpl; [by intros [= <-]|].
  intros (s1 & H1 & H2)%bind_Some. eapply IH; [|done]. by eapply base_exec.
Qed.

Lemma base_init a : log_ok a -> Base (init_sys a).
Proof using Type. by split. Qed.

(** ** The mirror *)

(** A version of at least [L] whose objects the cache holds. *)
Definition shows (L v : Z) (s : Sys) : Prop :=
  in_resource_version (sy_informer s) = Some v /\ L <= v <= api_rv (sy_api s) /\
  in_cache (sy_informer s) = state_at v (sy_api s).

(** After a list that no client's answer is written over. *)
Definition Mirror (L : Z) (s : Sys) : Prop :=
  match in_watcher (sy_informer s) with
  | WTop => in_has_synced (sy_informer s) = true -> exists v, shows L v s
  | WInstalled => in_has_synced (sy_informer s) = true /\ exists v, shows L v s
  | WListed items rv =>
      in_has_synced (sy_informer s) = false /\ L <= rv <= api_rv (sy_api s) /\ new_cache items = state_at rv (sy_api s) /\
      (forall v, in_resource_version (sy_informer s) = Some v -> v <= rv)
  | WStream p => in_has_synced (sy_informer s) = true /\ shows L p s
  end.

Lemma mirror_api L s e rv :
  Mirror L s -> ev_rv e = api_rv (sy_api s) + 1 -> rv = api_rv (sy_api s) + 1 ->
  Mirror L (set_api (mkApi rv (api_log (sy_api s) ++ [e])) s).
Proof using Type.
  intros H He ->. unfold Mirror, shows in *. simpl. destruct (in_watcher (sy_informer s)) as [|items rv| |p].
  - intros Hs. destruct (H Hs) as (v & H1 & H2 & H3). exists v. rewrite state_at_snoc by lia. split_and!; [done|lia|lia|done].
  - destruct H as (H1 & H2 & H3 & H4). rewrite state_at_snoc by lia. split_and!; [done|lia|lia|done|done].
  - destruct H as (Hs & v & H1 & H2 & H3). split; [done|]. exists v. rewrite state_at_snoc by lia. split_and!; [done|lia|lia|done].
  - destruct H as (H1 & H2 & H3 & H4). rewrite state_at_snoc by lia. split_and!; [done|done|lia|lia|done].
Qed.

Lemma mirror_client L t p s : Mirror L s -> Mirror L (set_client t p s).
Proof using Type. done. Qed.

(** A list that succeeds starts the mirror anew, whatever the cache held. *)
Lemma mirror_list now s s' :
  Base s -> watch_step c now (KList Fine) s = Some s' -> Mirror (api_rv (sy_api s)) s'.
Proof using Type.
  intros H Hs. unfold watch_step in Hs. destruct (decide_next c now (sy_informer s)) eqn:Ed; simplify_eq.
  unfold Mirror. simpl. apply decide_list in Ed as [_ Ed]. split_and!; [done|lia|lia| |apply (bs_cursor _ H)].
  rewrite (state_at_current _ _ (bs_log _ H)) by lia. apply relisted. intros k o Hk. apply api_objects_real in Hk.
  split; [apply Hk|]. by eapply real_named; [apply (bs_log _ H)|].
Qed.

Lemma mirror_weaken L L' s : L <= L' -> Mirror L' s -> Mirror L s.
Proof using Type.
  intros HL. unfold Mirror, shows. destruct (in_watcher (sy_informer s)).
  - intros H Hs. destruct (H Hs) as (v & ? & ? & ?). exists v. split_and!; [done|lia..|done].
  - intros (? & ? & ? & ?). split_and!; [done|lia..|done|done].
  - intros (? & v & ? & ? & ?). split; [done|]. exists v. split_and!; [done|lia..|done].
  - intros (? & ? & ? & ?). split_and!; [done|done|lia..|done].
Qed.

Lemma mirror_watching L now timeout s :
  Mirror L s -> decide_next c now (sy_informer s) = DoWatch timeout ->
  in_has_synced (sy_informer s) = true /\ exists v, shows L v s.
Proof using Type.
  unfold Mirror. intros H [[Ew Hs]|Ew]%decide_watch; rewrite Ew in H; auto.
Qed.

Lemma mirror_event L p e s :
  Base s -> in_watcher (sy_informer s) = WStream p -> Mirror L s -> next_event p (sy_api s) = Some e ->
  Mirror L (set_informer (set_watcher (WStream (ev_rv e)) (handle_event e (sy_informer s))) s).
Proof using Type.
  intros Hb Ew H Ee. destruct (next_event_spec _ _ _ (bs_log _ Hb) Ee) as (Hp & Hn & _ & Hst).
  unfold Mirror in H. rewrite Ew in H. destruct H as (H1 & H2 & H3 & H4). unfold Mirror, shows. simpl.
  unfold handle_event. destruct (String.eqb_spec (ko_name (ev_object e)) ""); [done|]. simpl.
  rewrite H2. unfold advance_resource_version. change (ko_rv (ev_object e)) with (ev_rv e).
  destruct (Z.ltb_spec p (ev_rv e)); [|lia]. rewrite H4, Hst. destruct e; split_and!; try done; lia.
Qed.

Lemma mirror_ended L now p s :
  Mirror L s -> in_watcher (sy_informer s) = WStream p -> Mirror L (set_informer (stream_ended c now (sy_informer s)) s).
Proof using Type.
  unfold Mirror. intros H Ew. rewrite Ew in H. destruct H as [H1 H2]. simpl. intros _. by exists p.
Qed.

Lemma mirror_install L now items rv s :
  Mirror L s -> in_watcher (sy_informer s) = WListed items rv ->
  Mirror L (set_informer (set_watcher WInstalled (install now items rv (sy_informer s))) s).
Proof using Type.
  intros H Ew. unfold Mirror in H. rewrite Ew in H. destruct H as (H1 & H2 & H3 & H4). unfold Mirror, shows. simpl.
  split; [done|]. exists rv. split_and!; [|lia|lia|done]. unfold advance_resource_version.
  destruct (in_resource_version (sy_informer s)) as [v|]; [|done]. specialize (H4 v eq_refl).
  case_match; [done|]. f_equal. lia.
Qed.

Lemma mirror_watch_step L now a s s' :
  L <= api_rv (sy_api s) -> Base s -> Mirror L s -> watch_step c now a s = Some s' -> Mirror L s'.
Proof using Type.
  intros HL Hb H Hs. destruct a as [| |r| |r| | |gone| | | | | | | |]; try done.
  - destruct r; [by eapply mirror_weaken, mirror_list|..]; unfold watch_step in Hs;
      (destruct (decide_next c now (sy_informer s)); by simplify_eq).
  - unfold watch_step in Hs. destruct (in_watcher (sy_informer s)) as [|items rv| |p] eqn:Ew; simplify_eq. by apply mirror_install.
  - unfold watch_step in Hs. destruct (decide_next c now (sy_informer s)) eqn:Ed; try done.
    destruct (mirror_watching _ _ _ _ H Ed) as (Hsy & v & E & Hv). rewrite E in Hs.
    destruct r; by simplify_eq.
  - unfold watch_step in Hs. destruct (in_watcher (sy_informer s)) as [|items rv| |p] eqn:Ew; [done..|].
    destruct (next_event p (sy_api s)) as [e|] eqn:Ee; simplify_eq.
    destruct (in_stopped (sy_informer s)); [by eapply mirror_ended|by eapply mirror_event].
  - unfold watch_step in Hs. destruct (in_watcher (sy_informer s)) eqn:Ew; simplify_eq. by eapply mirror_ended.
  - unfold watch_step in Hs. destruct (in_watcher (sy_informer s)) eqn:Ew; by simplify_eq.
  - unfold watch_step in Hs. destruct (decide_next c now (sy_informer s)); by simplify_eq.
Qed.

Definition applies (a : kube_action) : bool := match a with KApply _ => true | _ => false end.

Lemma mirror_exec L now a s s' :
  applies a = false -> L <= api_rv (sy_api s) -> Base s -> Mirror L s -> exec_ now a s = Some s' ->
  Mirror L s' /\ L <= api_rv (sy_api s').
Proof using Type.
  intros Ha HL Hb H Hx. assert (api_rv (sy_api s) <= api_rv (sy_api s') /\ Mirror L s') as [? ?]; [|split; [done|lia]].
  assert (forall s1, watch_step c now a s = Some s1 -> sy_api s1 = sy_api s) as Hw.
  { intros s1. unfold watch_step. repeat case_match; by intros [= <-]. }
  destruct a; try (split; [rewrite (Hw _ Hx); lia|exact (mirror_watch_step L now _ s s' HL Hb H Hx)]); try done;
    cbn -[api_put get_custom_object list_custom_objects delete_custom_object] in Hx.
  - case_match; simplify_eq. split; [simpl; lia|by apply mirror_api].
  - apply bind_Some in Hx as (a & Ha' & [= <-]). apply bind_Some in Ha' as (o & Ho & [= <-]).
    split; [simpl; lia|by apply mirror_api].
  - simplify_eq. split; [simpl; lia|]. exact H.
  - destruct (client_idle t s); simplify_eq. unfold get_custom_object. repeat case_match; (split; [simpl; lia|exact H]).
  - destruct (client_idle t s); simplify_eq. unfold list_custom_objects. repeat case_match; (split; [simpl; lia|exact H]).
  - destruct (client_idle t s && negb (name =? "")%string); simplify_eq. unfold create_custom_object.
    destruct (api_objects (sy_api s) !! name); (split; [simpl; lia|]); [exact H|]. by apply (mirror_api L s).
  - destruct (client_idle t s && negb (name =? "")%string); simplify_eq. unfold patch_custom_object.
    destruct (api_objects (sy_api s) !! name); (split; [simpl; lia|]); [|exact H]. by apply (mirror_api L s).
  - destruct (client_idle t s); simplify_eq. unfold delete_custom_object.
    destruct (api_delete name (sy_api s)) as [a|] eqn:Ea; [|split; [simpl; lia|exact H]]. apply bind_Some in Ea as (o & Ho & [= <-]).
    split; [simpl; lia|by apply (mirror_api L s)].
Qed.

Lemma mirror_run L h s s' :
  Forall (fun na => applies na.2 = false) h -> L <= api_rv (sy_api s) -> Base s -> Mirror L s ->
  run_ h s = Some s' -> Mirror L s' /\ Base s'.
Proof using Type.
  intros Hh. revert s. induction Hh as [|[now a] h Ha Hh IH]; intros s HL Hb H; simpl; [by intros [= <-]|].
  intros (s1 & H1 & H2)%bind_Some. destruct (mirror_exec L now a s s1 Ha HL Hb H H1).
  eapply IH; [done|by eapply base_exec|done|done].
Qed.
(** An open stream that goes on delivers everything. *)
Lemma catch_up L now p s :
  Base s -> Mirror L s -> in_watcher (sy_informer s) = WStream p -> in_stopped (sy_informer s) = false ->
  exists s', run_ (repeat (now, KEvent) (length (pending p (sy_api s)))) s = Some s' /\
    sy_api s' = sy_api s /\ in_cache (sy_informer s') = api_objects (sy_api s).
Proof using Type.
  remember (length (pending p (sy_api s))) as n eqn:En. revert p s En. induction n as [|n IH]; intros p s En Hb H Ew Hst.
  - exists s. split_and!; [done|done|]. unfold Mirror in H. rewrite Ew in H. destruct H as (_ & _ & _ & ->).
    apply no_next_event; [apply Hb|]. unfold pending in En. unfold next_event. by destruct (filter _ _).
  - destruct (next_event p (sy_api s)) as [e|] eqn:Ee.
    2: { unfold pending in En. unfold next_event in Ee. by destruct (filter _ _). }
    pose proof (pending_next _ _ _ (bs_log _ Hb) Ee) as Ep. rewrite Ep in En. injection En as En.
    set (s1 := set_informer (set_watcher (WStream (ev_rv e)) (handle_event e (sy_informer s))) s).
    assert (exec_ now KEvent s = Some s1) as Hx by by cbn; rewrite Ew, Ee, Hst.
    destruct (IH (ev_rv e) s1 En) as (s' & H1 & H2 & H3);
      [by eapply base_exec|by eapply mirror_event|done| |exists s'; cbn [repeat kube_run]; by rewrite Hx].
    simpl. unfold handle_event. by case_match.
Qed.

(** What the clients' reads answer while the cache shows a version. *)
Lemma shown_reads L v now s :
  shows L v s -> has_synced c now (sy_informer s) = true ->
  (forall t name o, state_at v (sy_api s) !! name = Some o ->
     sy_clients (get_custom_object c now t name s) !! t = Some (CDone (AnObject (Some o)))) /\
  (forall t selector terms, parse_selector selector = Some terms ->
     sy_clients (list_custom_objects server_select c now t selector s) !! t =
       Some (CDone (AList (select (fun labels => matches labels terms) (state_at v (sy_api s)))))).
Proof using Type.
  intros (_ & _ & Hc) Hs. split.
  - intros t name o Ho. unfold get_custom_object. rewrite Hs, Hc, Ho. simpl. by rewrite lookup_insert_eq.
  - intros t selector terms Ht. unfold list_custom_objects. rewrite Hs, Ht, Hc. simpl. by rewrite lookup_insert_eq.
Qed.

Lemma synced_shows L now s :
  Mirror L s -> has_synced c now (sy_informer s) = true -> exists v, shows L v s.
Proof using Type.
  unfold has_synced, Mirror. intros H Hs. assert (in_has_synced (sy_informer s) = true) as Hl.
  { destruct (in_stopped _); [done|]. destruct (in_last_contact_at _); [|done]. by apply andb_prop in Hs as []. }
  destruct (in_watcher (sy_informer s)) as [|items rv| |p]; [auto|destruct H as [H _]; congruence|apply H|]. exists p. apply H.
Qed.

Definition quiet (h : list (Z * kube_action)) : Prop := Forall (fun na => applies na.2 = false) h.

Lemma mirror_after a h1 now h2 s1 s :
  log_ok a -> run_ h1 (init_sys a) = Some s1 -> quiet h2 -> run_ ((now, KList Fine) :: h2) s1 = Some s ->
  Mirror (api_rv (sy_api s1)) s /\ Base s.
Proof using Type.
  intros Ha H1 Hq H2. cbn [kube_run] in H2. apply bind_Some in H2 as (s2 & Hx & H2).
  pose proof (base_run _ _ _ (base_init _ Ha) H1) as Hb. pose proof (base_exec _ _ _ _ Hb Hx) as Hb2.
  assert (sy_api s2 = sy_api s1) as E. { revert Hx. cbn. repeat case_match; by intros [= <-]. }
  eapply mirror_run; [exact Hq| |exact Hb2| |exact H2]; [rewrite E; lia|]. by eapply mirror_list.
Qed.

(** C26: The informer keeps a mirror of the API server.

    Whatever happened before, and whatever else happens at the same time, from
    a list that succeeds until a client writes an answer of the API server
    into the cache: whenever the informer counts as synced, its cache is
    exactly the objects of one version of the API server, no older than the
    list, the watch goes on from that version, and clients reading through the
    cache are answered from it; it is the current version once nothing is left
    to deliver. *)
Theorem informer_mirrors_api a h1 now h2 now' s1 s :
  log_ok a -> run_ h1 (init_sys a) = Some s1 -> quiet h2 -> run_ ((now, KList Fine) :: h2) s1 = Some s ->
  has_synced c now' (sy_informer s) = true ->
  exists v, api_rv (sy_api s1) <= v <= api_rv (sy_api s) /\ in_resource_version (sy_informer s) = Some v /\
    in_cache (sy_informer s) = state_at v (sy_api s) /\
    (forall t name o, state_at v (sy_api s) !! name = Some o ->
       sy_clients (get_custom_object c now' t name s) !! t = Some (CDone (AnObject (Some o)))) /\
    (forall t selector terms, parse_selector selector = Some terms ->
       sy_clients (list_custom_objects server_select c now' t selector s) !! t =
         Some (CDone (AList (select (fun labels => matches labels terms) (state_at v (sy_api s)))))) /\
    (next_event v (sy_api s) = None -> state_at v (sy_api s) = api_objects (sy_api s)).
Proof using Type.
  intros Ha H1 Hq H2 Hs. destruct (mirror_after _ _ _ _ _ _ Ha H1 Hq H2) as [Hm Hb].
  destruct (synced_shows _ _ _ Hm Hs) as (v & Hv). destruct (shown_reads _ _ _ _ Hv Hs). destruct Hv as (? & ? & ?).
  exists v. split_and!; [lia..|done|done|done|done|]. apply no_next_event, Hb.
Qed.

(** While its stream is open the informer catches up: as many deliveries as
    there are events after the stream's position can take place, and after
    them the cache is what the API server holds. *)
Theorem informer_catches_up a h1 now h2 now' s1 s p :
  log_ok a -> run_ h1 (init_sys a) = Some s1 -> quiet h2 -> run_ ((now, KList Fine) :: h2) s1 = Some s ->
  in_watcher (sy_informer s) = WStream p -> in_stopped (sy_informer s) = false ->
  exists s', run_ (repeat (now', KEvent) (length (pending p (sy_api s)))) s = Some s' /\
    sy_api s' = sy_api s /\ in_cache (sy_informer s') = api_objects (sy_api s).
Proof using Type.
  intros Ha H1 Hq H2 Ew Hs. destruct (mirror_after _ _ _ _ _ _ Ha H1 Hq H2) as [Hm Hb]. by eapply catch_up.
Qed.

(** What clients are answered is honest in every history, their own writes
    into the cache included: every object was a version of the object of its
    name, and every name asked for is the name of the answer. *)
Theorem answers_were_real a h s t :
  log_ok a -> run_ h (init_sys a) = Some s ->
  (forall o, sy_clients s !! t = Some (CDone (AnObject (Some o))) -> Put o ∈ api_log (sy_api s)) /\
  (forall m k o, sy_clients s !! t = Some (CDone (AList m)) -> m !! k = Some o -> ko_name o = k /\ Put o ∈ api_log (sy_api s)).
Proof using Type.
  intros Ha H. pose proof (base_run _ _ _ (base_init _ Ha) H) as Hb.
  split; [intros o Ht|intros m k o Ht Hk]; pose proof (bs_clients _ Hb _ _ Ht) as Hr; simpl in Hr; [apply Hr|exact (Hr _ _ Hk)].
Qed.
End Histories.

(** ** Witnesses, and what writes into the cache undo *)

Definition by_id : string := "opensandbox.io/id".
Definition labelled (id : string) : gmap string string := {[by_id := id]}.

Definition demo_config : Config := mkConfig 300 60 true.
Definition demo_select (selector : string) (labels : gmap string string) : bool := true.
Definition demo (l : list kube_action) : option Sys :=
  kube_run demo_select demo_config (map (fun a => (0, a)) l) (init_sys (mkApi 0 [])).

(** Synced with sandbox [a], watching. *)
Definition started : list kube_action := [KPut "a" (labelled "a"); KList Fine; KInstall; KWatch Fine].

Lemma log_ok_empty : log_ok (mkApi 0 []).
Proof. repeat constructor. Qed.

Definition demo_mid : Sys := default (init_sys (mkApi 0 [])) (demo [KPut "a" (labelled "a")]).
Definition demo_rest : list (Z * kube_action) :=
  map (fun a => (0, a)) [KInstall; KWatch Fine; KPut "b" (labelled "b"); KEvent; KDel "a"].
Definition demo_end : Sys :=
  default demo_mid (kube_run demo_select demo_config ((0, KList Fine) :: demo_rest) demo_mid).

Lemma demo_run : kube_run demo_select demo_config ((0, KList Fine) :: demo_rest) demo_mid = Some demo_end.
Proof. vm_compute. reflexivity. Qed.

Lemma demo_quiet : quiet demo_rest.
Proof. repeat constructor. Qed.

(** [b] has been delivered, [a]'s deletion not yet. *)
Lemma informer_mirrors_api_witness :
  exists v, 1 <= v <= 3 /\ in_resource_version (sy_informer demo_end) = Some v /\
    in_cache (sy_informer demo_end) = state_at v (sy_api demo_end) /\ is_Some (state_at v (sy_api demo_end) !! "b").
Proof.
  destruct (informer_mirrors_api demo_select demo_config (mkApi 0 []) [(0, KPut "a" (labelled "a"))] 0 demo_rest 100 demo_mid demo_end
    log_ok_empty ltac:(vm_compute; reflexivity) demo_quiet demo_run ltac:(vm_compute; reflexivity)) as (v & Hv & Hr & Hc & _).
  exists v. split_and!; [exact (proj1 Hv)|exact (proj2 Hv)|exact Hr|exact Hc|].
  rewrite <- Hc. vm_compute. by eexists.
Defined.

Lemma informer_catches_up_witness :
  exists s', kube_run demo_select demo_config (repeat (0, KEvent) 1) demo_end = Some s' /\
    sy_api s' = sy_api demo_end /\ in_cache (sy_informer s') = api_objects (sy_api demo_end).
Proof.
  exact (informer_catches_up demo_select demo_config (mkApi 0 []) [(0, KPut "a" (labelled "a"))] 0 demo_rest 0 demo_mid demo_end 2
    log_ok_empty ltac:(vm_compute; reflexivity) demo_quiet demo_run ltac:(vm_compute; reflexivity) ltac:(vm_compute; reflexivity)).
Defined.

(** The cache lists a sandbox and the API server does not, or the other way
    round, while the informer counts as synced, its stream is open and nothing
    is left to deliver: nothing before the next full list will change it. *)
Definition stuck_wrong (name : string) (s : Sys) : bool :=
  has_synced demo_config 100 (sy_informer s) &&
  match in_watcher (sy_informer s) with WStream p => bool_decide (next_event p (sy_api s) = None) | _ => false end &&
  negb (bool_decide (in_cache (sy_informer s) !! name = api_objects (sy_api s) !! name)).

(** Writing a client's own object moves the cursor of the watch past events
    that no stream has delivered: between two streams [a] is deleted and [b]
    created, and the next stream starts after both.  [a] stays. *)
Example write_through_skips_events :
  option_map (stuck_wrong "a")
    (demo (started ++ [KEnd; KDel "a"; KCreate 1 "b" (labelled "b"); KApply 1; KWatch Fine])) = Some true.
Proof. vm_compute. reflexivity. Qed.

(** The answer of a read is written after the deletion it did not see was
    delivered: the sandbox is back for every later reader. *)
Example late_read_resurrects :
  option_map (stuck_wrong "b")
    (demo (started ++ [KPut "b" (labelled "b"); KGet 1 "b"; KEvent; KDel "b"; KEvent; KApply 1])) = Some true.
Proof. vm_compute. reflexivity. Qed.

(** A list that was taken before a sandbox was created is installed after the
    creator wrote it: the cursor is past the creation, the cache without it. *)
Example resync_drops_created :
  option_map (stuck_wrong "b")
    (demo [KPut "a" (labelled "a"); KList Fine; KCreate 1 "b" (labelled "b"); KApply 1; KInstall; KWatch Fine]) = Some true.
Proof. vm_compute. reflexivity. Qed.

(** Two patches answered in the other order leave the older object. *)
Example late_patch_regresses :
  option_map (stuck_wrong "a")
    (demo (started ++ [KPatch 1 "a" (labelled "1"); KPatch 2 "a" (labelled "2"); KEvent; KEvent; KApply 2; KApply 1])) = Some true.
Proof. vm_compute. reflexivity. Qed.
