(* ===== verification/KubeVolumes.v ===== *)
(** * Volume claims of sandboxes on Kubernetes

    [server/opensandbox_server/services/k8s/kubernetes_service.py]: creating a
    sandbox ([create_sandbox] from the volumes on, [_ensure_pvc_volumes],
    [_attach_pvc_owner_references], [_wait_for_sandbox_ready]), deleting it
    ([delete_sandbox]) and removing the claims that were made for it
    ([_cleanup_managed_pvcs]).

    Requests run as threads; a step of a thread is one call to the API server
    with its reply, and between two calls other threads run, other programs
    make and remove claims, the controller ends workloads whose time is up, and
    the garbage collector removes claims whose owners are gone.  A call that
    raises may have taken effect or not; the step says which.  One namespace is
    modelled; cancellation of a request is not. *)

From Stdlib Require Import ZArith Lia Ascii String.
From stdpp Require Import base numbers strings gmap list.
From S2P Require Import Prelude PyString.

Open Scope string_scope.
Open Scope Z_scope.

(** ** Requests and claims *)

Definition SANDBOX_ID_LABEL : string := "opensandbox.io/id".
Definition SANDBOX_MANAGED_VOLUMES_LABEL : string := "opensandbox.io/volume-managed-by".

(** The [pvc] backend of a volume. *)
Record PVC := mkPVC {
  pv_claim_name : string;
  pv_create_if_not_exists : bool;
  pv_delete_on_sandbox_termination : bool;
  pv_storage_class : option string;
  pv_storage : option string;
  pv_access_modes : option (list string);
}.

(** [vol.pvc]; a volume with another backend has none. *)
Definition volume : Type := option PVC.

(** A claim in the cluster; its owners are the sandboxes whose workloads its
    [ownerReferences] name. *)
Record claim := mkClaim {
  cl_labels : gmap string string;
  cl_owners : list string;
  cl_access_modes : list string;
  cl_storage : string;
  cl_storage_class : option string;
}.

Definition pvc_labels (p : PVC) (sandbox_id : string) : gmap string string :=
  if pv_delete_on_sandbox_termination p
  then <[SANDBOX_ID_LABEL := sandbox_id]> {[SANDBOX_MANAGED_VOLUMES_LABEL := "server"]}
  else ∅.

(** Python's [or] on strings and lists *)
Definition or_storage (s : option string) (default_size : string) : string :=
  match s with Some s => if (s =? "")%string then default_size else s | None => default_size end.

Definition or_modes (l : option (list string)) : list string :=
  match l with Some (x :: l) => x :: l | _ => ["ReadWriteOnce"] end.

Definition pvc_body (default_size : string) (p : PVC) (sandbox_id : string) : claim :=
  mkClaim (pvc_labels p sandbox_id) [] (or_modes (pv_access_modes p)) (or_storage (pv_storage p) default_size) (pv_storage_class p).

(** [flags_by_claim.setdefault] over the volumes finds two that differ. *)
Fixpoint flags_conflict (flags : gmap string (bool * bool)) (volumes : list volume) : bool :=
  match volumes with
  | [] => false
  | None :: volumes => flags_conflict flags volumes
  | Some p :: volumes =>
      let key := (pv_create_if_not_exists p, pv_delete_on_sandbox_termination p) in
      let prior := default key (flags !! pv_claim_name p) in
      if bool_decide (prior = key) then flags_conflict (<[pv_claim_name p := prior]> flags) volumes else true
  end.

(** [_reject_pvc_owned_by_other_sandbox] raises. *)
Definition owned_by_other (pvc : claim) (sandbox_id : string) : bool :=
  bool_decide (cl_labels pvc !! SANDBOX_MANAGED_VOLUMES_LABEL = Some "server") &&
  match cl_labels pvc !! SANDBOX_ID_LABEL with
  | Some owner_id => negb (owner_id =? "")%string && negb (owner_id =? sandbox_id)%string
  | None => false
  end.

(** The selector of [_cleanup_managed_pvcs]. *)
Definition belongs (pvc : claim) (sandbox_id : string) : bool :=
  bool_decide (cl_labels pvc !! SANDBOX_MANAGED_VOLUMES_LABEL = Some "server") &&
  bool_decide (cl_labels pvc !! SANDBOX_ID_LABEL = Some sandbox_id).

(** ** Exceptions *)

(** By what the handlers tell apart: [HTTPException], [ValueError],
    [ApiException], others; with [str(exc)]. *)
Inductive exn :=
  | EHTTP (status : Z) (text : string)
  | EValue (text : string)
  | EApi (status : Z) (text : string)
  | EOther (text : string).

Definition text_of (e : exn) : string :=
  match e with EHTTP _ t | EValue t | EApi _ t | EOther t => t end.

Definition is_not_found_error (e : exn) : bool := is_infix (chars "not found") (chars (lower (text_of e))).

Definition is_namespace_not_found (e : exn) : bool :=
  match e with EApi status text => (status =? 404) && is_infix (chars "namespace") (chars (lower text)) | _ => false end.

(** What the handlers of [create_sandbox] answer. *)
Definition status_of (e : exn) : Z :=
  match e with
  | EHTTP n _ => n
  | EValue _ => 400
  | _ => if is_namespace_not_found e then 400 else 500
  end.

(** HTTP statuses a request can end with. *)
Definition outcome : Type := res Z unit.

(** ** Waiting for the sandbox *)

(** What a turn of the loop of [_wait_for_sandbox_ready] finds. *)
Inductive poll :=
  | NoWorkload
  | Status (state reason : string)
  | PollRaised (e : exn).

Definition normalize_create_status (state : string) : string := if (state =? "Allocated")%string then "Running" else state.

(** [None]: the loop goes on. *)
Definition read_poll (p : poll) : option outcome :=
  match p with
  | NoWorkload => None
  | Status state reason =>
      let state := normalize_create_status state in
      if (state =? "Running")%string || (state =? "Allocated")%string then Some (Ok tt)
      else if (reason =? "POD_PLATFORM_UNSCHEDULABLE")%string then Some (Raise 400)
      else None
  | PollRaised (EHTTP n _) => Some (Raise n)
  | PollRaised _ => None
  end.

(** [clock i] is the time at the head of turn [i]; [None] when the fuel ends. *)
Fixpoint wait_for_sandbox_ready (fuel : nat) (timeout : Z) (clock : nat -> Z) (polls : nat -> poll) (i : nat) : option outcome :=
  match fuel with
  | O => None
  | S fuel =>
      if clock i - clock O <? timeout then
        match read_poll (polls i) with
        | Some r => Some r
        | None => wait_for_sandbox_ready fuel timeout clock polls (S i)
        end
      else Some (Raise 504)
  end.

(** ** Threads *)

(** The call a thread is about to make, with the variables it still needs. *)
Inductive pc :=
  | PGet (p : PVC) (rest : list volume) (cache : gmap string (option claim))   (* the ownership pre-pass *)
  | PCreate (p : PVC) (rest : list volume) (cache : gmap string (option claim)) (seen : gset string) (managed : list string)
  | PRefetch (name : string) (rest : list volume) (cache : gmap string (option claim)) (seen : gset string) (managed : list string)
  | PWorkload (managed : list string)             (* [create_workload] *)
  | PRollback (code : Z)                          (* [delete_workload] after it raised *)
  | PAttach (name : string) (rest : list string)  (* [_attach_pvc_owner_references] *)
  | PWait                                         (* [_wait_for_sandbox_ready] *)
  | PUndo (code : Z)                              (* [delete_workload] after it raised *)
  | PList (r : outcome)                           (* [_cleanup_managed_pvcs] *)
  | PSweep (name : string) (rest : list string) (r : outcome)
  | PDelete                                       (* [delete_sandbox] *)
  | PDone (r : outcome).

Record thread := mkThread {
  th_id : string;
  th_volumes : list volume;
  th_pc : pc;
}.

(** The cluster and the server.  [sy_live]: the workloads, with the volumes
    they mount; [sy_seen]: the ids of all workloads so far; [sy_used]: the ids
    drawn so far. *)
Record Sys := mkSys {
  sy_claims : gmap string claim;
  sy_live : gmap string (list volume);
  sy_seen : gset string;
  sy_used : gset string;
  sy_threads : gmap nat thread;
}.

Definition init_sys : Sys := mkSys ∅ ∅ ∅ ∅ ∅.

Definition set_claims (m : gmap string claim) (s : Sys) : Sys := mkSys m (sy_live s) (sy_seen s) (sy_used s) (sy_threads s).
Definition add_live (id : string) (volumes : list volume) (s : Sys) : Sys :=
  mkSys (sy_claims s) (<[id := volumes]> (sy_live s)) ({[id]} ∪ sy_seen s) (sy_used s) (sy_threads s).
Definition drop_live (id : string) (s : Sys) : Sys :=
  mkSys (sy_claims s) (delete id (sy_live s)) (sy_seen s) (sy_used s) (sy_threads s).
Definition set_thread (t : nat) (th : thread) (s : Sys) : Sys :=
  mkSys (sy_claims s) (sy_live s) (sy_seen s) (sy_used s) (<[t := th]> (sy_threads s)).

(** The reply to a call. *)
Inductive reply :=
  | Answered
  | Raised (e : exn) (applied : bool).

Section Service.
(** [storage.volume_default_size] *)
Context (default_size : string).

(** The next claim of the volumes that is not skipped. *)
Fixpoint next_claim (skip : PVC -> bool) (volumes : list volume) : option (PVC * list volume) :=
  match volumes with
  | [] => None
  | None :: volumes => next_claim skip volumes
  | Some p :: volumes => if skip p then next_claim skip volumes else Some (p, volumes)
  end.

(** The [finally] clause of [create_sandbox], for a request that fails:
    [alive] is [workload_left_alive]. *)
Definition finish (alive : bool) (volumes : list volume) (r : outcome) : pc :=
  match volumes with
  | [] => PDone r
  | _ => if alive then PDone r else PList r
  end.

Definition found (cache : gmap string (option claim)) (name : string) : bool :=
  match cache !! name with Some (Some _) => true | _ => false end.

(** The creating loop of [_ensure_pvc_volumes], up to its next call. *)
Definition create_phase (todo : list volume) (cache : gmap string (option claim)) (seen : gset string) (managed : list string) : pc :=
  let skip p := negb (pv_create_if_not_exists p) || bool_decide (pv_claim_name p ∈ seen) || found cache (pv_claim_name p) in
  match next_claim skip todo with
  | Some (p, rest) => PCreate p rest cache ({[pv_claim_name p]} ∪ seen) managed
  | None => PWorkload managed
  end.

(** Its pre-pass, up to its next call. *)
Definition get_phase (volumes todo : list volume) (cache : gmap string (option claim)) : pc :=
  match next_claim (fun p => bool_decide (is_Some (cache !! pv_claim_name p))) todo with
  | Some (p, rest) => PGet p rest cache
  | None => create_phase volumes cache ∅ []
  end.

(** [create_sandbox] from [if request.volumes] on. *)
Definition begin_create (volumes : list volume) : pc :=
  match volumes with
  | [] => PWorkload []
  | _ => if flags_conflict ∅ volumes then finish false volumes (Raise 400) else get_phase volumes volumes ∅
  end.

(** [k8s_client.get_pvc]; a 404 is [None]. *)
Definition get_pvc (rp : reply) (name : string) (s : Sys) : res exn (option claim) :=
  match rp with
  | Answered => Ok (sy_claims s !! name)
  | Raised (EApi 404 _) _ => Ok None
  | Raised e _ => Raise e
  end.

Definition pre_pass (rp : reply) (th : thread) (p : PVC) (rest : list volume) (cache : gmap string (option claim)) (s : Sys) : pc :=
  let volumes := th_volumes th in
  match get_pvc rp (pv_claim_name p) s with
  | Raise (EApi 403 _) => finish false volumes (Raise 500)
  | Raise e => finish false volumes (Raise (status_of e))
  | Ok None => get_phase volumes rest (<[pv_claim_name p := None]> cache)
  | Ok (Some existing) =>
      if owned_by_other existing (th_id th) then finish false volumes (Raise 409)
      else get_phase volumes rest (<[pv_claim_name p := Some existing]> cache)
  end.

(** [create_pvc]; an existing claim is a 409. *)
Definition create_pvc (rp : reply) (p : PVC) (id : string) (s : Sys) : Sys * res exn unit :=
  let s' := match sy_claims s !! pv_claim_name p with
            | Some _ => s
            | None => set_claims (<[pv_claim_name p := pvc_body default_size p id]> (sy_claims s)) s
            end in
  match rp with
  | Answered => match sy_claims s !! pv_claim_name p with
                | Some _ => (s, Raise (EApi 409 "AlreadyExists"))
                | None => (s', Ok tt)
                end
  | Raised e applied => (if applied then s' else s, Raise e)
  end.

Definition create_claim (rp : reply) (th : thread) (p : PVC) (rest : list volume) (cache : gmap string (option claim))
    (seen : gset string) (managed : list string) (s : Sys) : Sys * pc :=
  let volumes := th_volumes th in
  let '(s, r) := create_pvc rp p (th_id th) s in
  (s, match r with
      | Ok _ => create_phase rest cache seen (if pv_delete_on_sandbox_termination p then managed ++ [pv_claim_name p] else managed)
      | Raise (EApi status _) =>
          if status =? 409 then PRefetch (pv_claim_name p) rest cache seen managed
          else if status =? 403 then create_phase rest cache seen managed
          else if (status =? 400) || (status =? 422) then finish false volumes (Raise 400)
          else finish false volumes (Raise 500)
      | Raise e => finish false volumes (Raise (status_of e))
      end).

Definition recheck (rp : reply) (th : thread) (name : string) (rest : list volume) (cache : gmap string (option claim))
    (seen : gset string) (managed : list string) (s : Sys) : pc :=
  match get_pvc rp name s with
  | Ok (Some racer) =>
      if owned_by_other racer (th_id th) then finish false (th_volumes th) (Raise 409)
      else create_phase rest cache seen managed
  | _ => finish false (th_volumes th) (Raise 503)
  end.

Definition attach_phase (names : list string) : pc :=
  match names with [] => PWait | name :: names => PAttach name names end.

(** The provider's [create_workload]; after a [ValueError] nothing is tried. *)
Definition create_workload (rp : reply) (th : thread) (managed : list string) (s : Sys) : Sys * pc :=
  let s' := add_live (th_id th) (th_volumes th) s in
  match rp with
  | Answered => (s', attach_phase managed)
  | Raised (EValue text) applied => (if applied then s' else s, finish false (th_volumes th) (Raise (status_of (EValue text))))
  | Raised e applied => (if applied then s' else s, PRollback (status_of e))
  end.

(** The provider's [delete_workload]; a missing workload is an exception. *)
Definition delete_workload (rp : reply) (id : string) (s : Sys) : Sys * res exn unit :=
  match rp with
  | Answered => match sy_live s !! id with
                | Some _ => (drop_live id s, Ok tt)
                | None => (s, Raise (EOther "not found"))
                end
  | Raised e applied => (if applied then drop_live id s else s, Raise e)
  end.

(** A rollback counts as done when the workload is deleted or not found. *)
Definition rollback (rp : reply) (th : thread) (code : Z) (s : Sys) : Sys * pc :=
  let '(s, r) := delete_workload rp (th_id th) s in
  (s, finish (match r with Ok _ => false | Raise e => negb (is_not_found_error e) end) (th_volumes th) (Raise code)).

(** A strategic merge patch adds the owner to the list. *)
Definition add_owner (id : string) (c : claim) : claim :=
  mkClaim (cl_labels c) (if bool_decide (id ∈ cl_owners c) then cl_owners c else cl_owners c ++ [id])
    (cl_access_modes c) (cl_storage c) (cl_storage_class c).

Definition patch_pvc (rp : reply) (name id : string) (s : Sys) : Sys :=
  match rp with
  | Raised _ false => s
  | _ => set_claims (alter (add_owner id) name (sy_claims s)) s
  end.

Definition wait_ready (rp : reply) (th : thread) : pc :=
  match rp with
  | Answered => PDone (Ok tt)
  | Raised (EHTTP n _) _ => PUndo n
  | Raised e _ => finish true (th_volumes th) (Raise (status_of e))
  end.

Definition sweep_phase (names : list string) (r : outcome) : pc :=
  match names with [] => PDone r | name :: names => PSweep name names r end.

(** [list_pvcs] by the selector, and [delete_pvc], of [_cleanup_managed_pvcs] *)
Definition list_managed (rp : reply) (id : string) (r : outcome) (s : Sys) : pc :=
  match rp with
  | Answered => sweep_phase (map_to_list (filter (fun kv => belongs kv.2 id = true) (sy_claims s))).*1 r
  | Raised _ _ => PDone r
  end.

Definition sweep_claim (rp : reply) (name : string) (rest : list string) (r : outcome) (s : Sys) : Sys * pc :=
  let s' := set_claims (delete name (sy_claims s)) s in
  match rp with
  | Answered => (s', sweep_phase rest r)
  | Raised (EApi 403 _) _ => (s, PDone r)
  | Raised _ applied => (if applied then s' else s, sweep_phase rest r)
  end.

(** [delete_sandbox] *)
Definition delete_sandbox (rp : reply) (id : string) (s : Sys) : Sys * pc :=
  let '(s, r) := delete_workload rp id s in
  (s, match r with
      | Ok _ => PList (Ok tt)
      | Raise e =>
          if is_not_found_error e then PList (Raise 404)
          else match e with
               | EHTTP n _ => if n =? 404 then PList (Raise 404) else PDone (Raise n)
               | _ => PDone (Raise 500)
               end
      end).

Definition thread_step (rp : reply) (th : thread) (s : Sys) : Sys * pc :=
  match th_pc th with
  | PGet p rest cache => (s, pre_pass rp th p rest cache s)
  | PCreate p rest cache seen managed => create_claim rp th p rest cache seen managed s
  | PRefetch name rest cache seen managed => (s, recheck rp th name rest cache seen managed s)
  | PWorkload managed => create_workload rp th managed s
  | PRollback code | PUndo code => rollback rp th code s
  | PAttach name rest => (patch_pvc rp name (th_id th) s, attach_phase rest)
  | PWait => (s, wait_ready rp th)
  | PList r => (s, list_managed rp (th_id th) r s)
  | PSweep name rest r => sweep_claim rp name rest r s
  | PDelete => delete_sandbox rp (th_id th) s
  | PDone r => (s, PDone r)
  end.

Inductive action :=
  | XCreate (t : nat) (id : string) (volumes : list volume)
  | XDelete (t : nat) (id : string)
  | XStep (t : nat) (rp : reply)
  | XClaim (name : string) (labels : gmap string string)   (* others make a claim *)
  | XUnclaim (name : string)                               (* and remove one *)
  | XExpire (id : string)                                  (* the controller ends a workload *)
  | XCollect (name : string)                               (* the garbage collector *)
  | XCrash.                                                (* the server stops *)

(** Ids are random: a new one was never drawn, and clients delete only
    sandboxes there are or were. *)
Definition exec (a : action) (s : Sys) : option Sys :=
  match a with
  | XCreate t id volumes =>
      if bool_decide (sy_threads s !! t = None) && bool_decide (id ∉ sy_used s) && negb (id =? "")%string
      then Some (set_thread t (mkThread id volumes (begin_create volumes))
                  (mkSys (sy_claims s) (sy_live s) (sy_seen s) ({[id]} ∪ sy_used s) (sy_threads s)))
      else None
  | XDelete t id =>
      if bool_decide (sy_threads s !! t = None) && bool_decide (id ∈ sy_seen s)
      then Some (set_thread t (mkThread id [] PDelete) s) else None
  | XStep t rp =>
      th ← sy_threads s !! t;
      let '(s', p) := thread_step rp th s in
      Some (set_thread t (mkThread (th_id th) (th_volumes th) p) s')
  | XClaim name labels =>
      match sy_claims s !! name with
      | None => Some (set_claims (<[name := mkClaim labels [] ["ReadWriteOnce"] default_size None]> (sy_claims s)) s)
      | Some _ => None
      end
  | XUnclaim name => Some (set_claims (delete name (sy_claims s)) s)
  | XExpire id => Some (drop_live id s)
  | XCollect name =>
      c ← sy_claims s !! name;
      if negb (bool_decide (cl_owners c = [])) && forallb (fun id => bool_decide (sy_live s !! id = None)) (cl_owners c)
      then Some (set_claims (delete name (sy_claims s)) s) else None
  | XCrash => Some (mkSys (sy_claims s) (sy_live s) (sy_seen s) (sy_used s) ∅)
  end.

(** A history all of whose steps are allowed where they are taken. *)
Fixpoint run (allowed : action -> Sys -> bool) (h : list action) (s : Sys) : option Sys :=
  match h with
  | [] => Some s
  | a :: h => if allowed a s then s' ← exec a s; run allowed h s' else None
  end.
End Service.

(** ** What histories are about *)

(** The reply says that the workload is gone. *)
Definition says_gone (e : exn) : bool :=
  is_not_found_error e || match e with EHTTP n _ => n =? 404 | _ => false end.

(** A [ValueError] of the provider means that nothing was made, "not found"
    that the workload is gone, and only the server uses its label. *)
Definition honest_reply (rp : reply) (th : thread) (s : Sys) : bool :=
  match th_pc th, rp with
  | PWorkload _, Raised (EValue _) applied => negb applied
  | (PRollback _ | PUndo _ | PDelete), Raised e _ => negb (says_gone e) || bool_decide (sy_live s !! th_id th = None)
  | _, _ => true
  end.

Definition honest (a : action) (s : Sys) : bool :=
  match a with
  | XStep t rp => match sy_threads s !! t with Some th => honest_reply rp th s | None => true end
  | XClaim _ labels => negb (bool_decide (labels !! SANDBOX_MANAGED_VOLUMES_LABEL = Some "server"))
  | _ => true
  end.

(** Before and up to the call that makes the workload. *)
Definition before_workload (p : pc) : bool :=
  match p with PGet _ _ _ | PCreate _ _ _ _ _ | PRefetch _ _ _ _ _ | PWorkload _ => true | _ => false end.

Definition sweeping (p : pc) : bool :=
  match p with PList _ | PSweep _ _ _ => true | _ => false end.

(** The sandbox has no workload and will have none. *)
Definition ended (id : string) (s : Sys) : Prop :=
  id ∈ sy_used s /\ sy_live s !! id = None /\
  forall t th, sy_threads s !! t = Some th -> before_workload (th_pc th) = true -> th_id th <> id.

Record Base (s : Sys) : Prop := {
  bs_live : forall id volumes, sy_live s !! id = Some volumes -> id ∈ sy_seen s;
  bs_seen : sy_seen s ⊆ sy_used s;
  bs_nonempty : "" ∉ sy_used s;
  bs_ids : forall t th, sy_threads s !! t = Some th -> th_id th ∈ sy_used s;
  bs_before : forall t th, sy_threads s !! t = Some th -> before_workload (th_pc th) = true ->
    (th_id th ∉ sy_seen s) /\ forall t' th', sy_threads s !! t' = Some th' -> th_id th' = th_id th -> t' = t;
  bs_sweep : forall t th, sy_threads s !! t = Some th -> sweeping (th_pc th) = true -> ended (th_id th) s;
}.

(** ** Phases *)

Lemma before_create_phase todo cache seen managed : before_workload (create_phase todo cache seen managed) = true.
Proof. unfold create_phase. by destruct (next_claim _ _) as [[]|]. Qed.

Lemma before_get_phase volumes todo cache : before_workload (get_phase volumes todo cache) = true.
Proof. unfold get_phase. destruct (next_claim _ _) as [[]|]; [done|apply before_create_phase]. Qed.

Lemma not_sweeping p : before_workload p = true -> sweeping p = false.
Proof. by destruct p. Qed.

Lemma finish_cases alive volumes r :
  finish alive volumes r = PDone r \/ (finish alive volumes r = PList r /\ alive = false /\ volumes <> []).
Proof. unfold finish. destruct volumes, alive; auto. Qed.

Lemma sweep_phase_cases names r : sweep_phase names r = PDone r \/ sweeping (sweep_phase names r) = true.
Proof. destruct names; auto. Qed.

Lemma attach_phase_cases names : before_workload (attach_phase names) = false /\ sweeping (attach_phase names) = false.
Proof. by destruct names. Qed.

(** What a step does to workloads and to where its thread stands. *)
Inductive moved (th : thread) (s : Sys) : Sys -> pc -> Prop :=
  | moved_on s' p :
      sy_live s' = sy_live s -> sy_seen s' = sy_seen s ->
      (before_workload p = true -> before_workload (th_pc th) = true) ->
      (sweeping p = true -> before_workload (th_pc th) = true \/ sweeping (th_pc th) = true) ->
      moved th s s' p
  | moved_live s' p managed :
      th_pc th = PWorkload managed -> sy_live s' = <[th_id th := th_volumes th]> (sy_live s) -> sy_seen s' = {[th_id th]} ∪ sy_seen s ->
      before_workload p = false -> sweeping p = false -> moved th s s' p
  | moved_gone s' p :
      before_workload (th_pc th) = false ->
      (sy_live s' = delete (th_id th) (sy_live s) \/ sy_live s' = sy_live s) -> sy_seen s' = sy_seen s ->
      before_workload p = false -> (sweeping p = true -> sy_live s' !! th_id th = None) -> moved th s s' p.

Section Steps.
Context (default_size : string).

(** Only claims differ. *)
Definition same_rest (s s' : Sys) : Prop :=
  sy_live s' = sy_live s /\ sy_seen s' = sy_seen s /\ sy_used s' = sy_used s /\ sy_threads s' = sy_threads s.

Lemma created_same rp p id s : same_rest s (create_pvc default_size rp p id s).1.
Proof using Type. unfold create_pvc. by destruct rp as [|e []], (sy_claims s !! pv_claim_name p). Qed.

Lemma swept_same rp name rest r s : same_rest s (sweep_claim rp name rest r s).1.
Proof using Type. unfold sweep_claim. destruct rp as [|e []]; try done; by repeat case_match. Qed.

Lemma patched_same rp name id s : same_rest s (patch_pvc rp name id s).
Proof using Type. by destruct rp as [|e []]. Qed.

Lemma deleted_rest rp id s : sy_used (delete_workload rp id s).1 = sy_used s /\ sy_threads (delete_workload rp id s).1 = sy_threads s.
Proof using Type. unfold delete_workload. destruct rp as [|e []]; [|done..]. by destruct (sy_live s !! id). Qed.

Lemma rest_same rp th s :
  sy_used (thread_step default_size rp th s).1 = sy_used s /\ sy_threads (thread_step default_size rp th s).1 = sy_threads s.
Proof using Type.
  unfold thread_step. destruct (th_pc th); try done.
  - unfold create_claim. pose proof (created_same rp p (th_id th) s) as (_ & _ & H).
    by destruct (create_pvc default_size rp p (th_id th) s).
  - unfold create_workload. destruct rp as [|[] []]; done.
  - unfold rollback. pose proof (deleted_rest rp (th_id th) s) as H. by destruct (delete_workload rp (th_id th) s).
  - apply patched_same.
  - unfold rollback. pose proof (deleted_rest rp (th_id th) s) as H. by destruct (delete_workload rp (th_id th) s).
  - apply swept_same.
  - unfold delete_sandbox. pose proof (deleted_rest rp (th_id th) s) as H. by destruct (delete_workload rp (th_id th) s).
Qed.

Lemma deleted rp th s s' r :
  delete_workload rp (th_id th) s = (s', r) ->
  (sy_live s' = delete (th_id th) (sy_live s) \/ sy_live s' = sy_live s) /\ sy_seen s' = sy_seen s /\ sy_claims s' = sy_claims s /\
  (r = Ok tt -> sy_live s' !! th_id th = None) /\
  (forall e, r = Raise e -> sy_live s !! th_id th = None -> sy_live s' !! th_id th = None) /\
  (forall e, r = Raise e -> sy_live s !! th_id th = None \/ exists applied, rp = Raised e applied).
Proof using Type.
  unfold delete_workload. intros H. repeat case_match; simplify_eq; simpl; split_and!; auto; try done;
    try (intros; rewrite lookup_delete_eq; done); intros ? [= <-]; eauto.
Qed.

(** A deletion whose answer says that the workload is gone has it gone. *)
Lemma deleted_gone rp th s s' r :
  (match rp with Raised e _ => negb (says_gone e) || bool_decide (sy_live s !! th_id th = None) | Answered => true end) = true ->
  delete_workload rp (th_id th) s = (s', r) ->
  match r with Ok _ => true | Raise e => says_gone e end = true -> sy_live s' !! th_id th = None.
Proof using Type.
  intros Hh H Hr. destruct (deleted _ _ _ _ _ H) as (_ & _ & _ & H3 & H4 & H5).
  destruct r as [[]|e]; [by apply H3|]. apply (H4 e eq_refl). destruct (H5 e eq_refl) as [?|[applied ->]]; [done|].
  rewrite Hr in Hh. by apply bool_decide_eq_true in Hh.
Qed.

Lemma not_found_gone e : is_not_found_error e = true -> says_gone e = true.
Proof using Type. unfold says_gone. by intros ->. Qed.

Lemma rolled_back rp th code s s' p :
  before_workload (th_pc th) = false ->
  (match rp with Raised e _ => negb (says_gone e) || bool_decide (sy_live s !! th_id th = None) | Answered => true end) = true ->
  rollback rp th code s = (s', p) -> moved th s s' p.
Proof using Type.
  unfold rollback. intros Hb Hh. destruct (delete_workload rp (th_id th) s) as [s1 r] eqn:Ed. intros [= -> <-].
  destruct (deleted _ _ _ _ _ Ed) as (H1 & H2 & _). pose proof (deleted_gone _ _ _ _ _ Hh Ed) as Hg.
  destruct (finish_cases match r with Ok _ => false | Raise e => negb (is_not_found_error e) end (th_volumes th) (Raise code))
    as [->|(-> & Ha & _)]; apply moved_gone; try done.
  intros _. apply Hg. destruct r; [done|]. by apply not_found_gone, negb_false_iff.
Qed.

Lemma deleted_by_request rp th s s' p :
  before_workload (th_pc th) = false ->
  (match rp with Raised e _ => negb (says_gone e) || bool_decide (sy_live s !! th_id th = None) | Answered => true end) = true ->
  delete_sandbox rp (th_id th) s = (s', p) -> moved th s s' p.
Proof using Type.
  unfold delete_sandbox. intros Hb Hh. destruct (delete_workload rp (th_id th) s) as [s1 r] eqn:Ed. intros [= -> <-].
  destruct (deleted _ _ _ _ _ Ed) as (H1 & H2 & _). pose proof (deleted_gone _ _ _ _ _ Hh Ed) as Hg.
  apply moved_gone; try done; destruct r as [u|e]; try done.
  - destruct (is_not_found_error e); [done|]. by repeat case_match.
  - destruct (is_not_found_error e) eqn:En; [intros _; by apply Hg, not_found_gone|].
    destruct e as [n text|text|n text|text]; try done. destruct (n =? 404) eqn:E4; [|done]. intros _. apply Hg.
    unfold says_gone. by rewrite E4, orb_true_r.
Qed.

Lemma thread_step_moved rp th s s' p :
  honest_reply rp th s = true -> thread_step default_size rp th s = (s', p) -> moved th s s' p.
Proof using Type.
  unfold thread_step, honest_reply. intros Hh H. destruct (th_pc th) eqn:Epc.
  - simplify_eq. apply moved_on; rewrite ?Epc; auto.
  - unfold create_claim, create_pvc in H. apply moved_on; rewrite ?Epc; auto; repeat case_match; by simplify_eq.
  - simplify_eq. apply moved_on; rewrite ?Epc; auto.
  - unfold create_workload in H. destruct rp as [|e applied].
    + simplify_eq. destruct (attach_phase_cases managed). by eapply moved_live.
    + destruct e as [n text|text|n text|text], applied; simplify_eq;
        first [done|by eapply moved_live|apply moved_on; rewrite ?Epc; auto].
  - by eapply rolled_back; [rewrite Epc|..].
  - simplify_eq. destruct (attach_phase_cases rest) as [E1 E2].
    destruct (patched_same rp name (th_id th) s) as (? & ? & _). apply moved_on; rewrite ?E1, ?E2; done.
  - simplify_eq. destruct rp as [|e applied]; [by apply moved_on|]. unfold wait_ready.
    destruct e; try (by apply moved_on); destruct (finish_cases true (th_volumes th) (Raise (status_of (EValue text)))) as [E|(_ & [=] & _)];
      apply moved_on; try done; by destruct (th_volumes th).
  - by eapply rolled_back; [rewrite Epc|..].
  - simplify_eq. apply moved_on; [done..| |rewrite Epc; auto]. unfold list_managed.
    destruct rp; [|done]. by destruct (map_to_list _).*1.
  - destruct (swept_same rp name rest r s) as (H1 & H2 & _). rewrite H in H1, H2. apply moved_on; [done..| |rewrite Epc; auto].
    unfold sweep_claim in H. repeat case_match; simplify_eq; done || by destruct rest.
  - by eapply deleted_by_request; [rewrite Epc|..].
  - simplify_eq. by apply moved_on.
Qed.

Lemma ended_step id t rp th s s' p :
  sy_threads s !! t = Some th -> honest_reply rp th s = true -> thread_step default_size rp th s = (s', p) ->
  ended id s -> ended id (set_thread t (mkThread (th_id th) (th_volumes th) p) s').
Proof using Type.
  intros Ht Hh Hs (H1 & H2 & H3). pose proof (thread_step_moved _ _ _ _ _ Hh Hs) as Hm.
  destruct (rest_same rp th s) as [Hu Hth]. rewrite Hs in Hu, Hth. simpl in Hu, Hth.
  split; simpl; [by rewrite Hu|]. rewrite Hth. split.
  - destruct Hm as [s' p Hl _ _ _|s' p managed Ep Hl _ _ _|s' p _ [Hl|Hl] _ _ _]; rewrite Hl; [done| |by apply lookup_delete_None; auto|done].
    rewrite lookup_insert_ne; [done|]. apply (H3 _ _ Ht). by rewrite Ep.
  - intros u th' [[<- <-]|[_ Hu']]%lookup_insert_Some; [|by eapply H3]. simpl. intros Hp.
    apply (H3 _ _ Ht). destruct Hm; [auto|congruence..].
Qed.

Lemma base_step t rp th s s' p :
  Base s -> sy_threads s !! t = Some th -> honest_reply rp th s = true -> thread_step default_size rp th s = (s', p) ->
  Base (set_thread t (mkThread (th_id th) (th_volumes th) p) s').
Proof using Type.
  intros Hb Ht Hh Hs. pose proof (thread_step_moved _ _ _ _ _ Hh Hs) as Hm.
  destruct (rest_same rp th s) as [Hu Hth]. rewrite Hs in Hu, Hth. simpl in Hu, Hth.
  destruct Hb as [B1 B2 B3 B4 B5 B6]. split; simpl; rewrite ?Hu, ?Hth.
  - destruct Hm as [s' p Hl Hn _ _|s' p managed Ep Hl Hn _ _|s' p _ [Hl|Hl] Hn _ _]; rewrite Hl, Hn; [done| | |done].
    + intros id volumes [[<- _]|[_ Hi]]%lookup_insert_Some; set_solver.
    + intros id volumes [_ Hi]%lookup_delete_Some. eauto.
  - destruct Hm as [s' p _ Hn _ _|s' p managed Ep _ Hn _ _|s' p _ _ Hn _ _]; rewrite Hn; [done| |done].
    apply union_subseteq. split; [|done]. apply singleton_subseteq_l. eauto.
  - done.
  - intros u th' [[<- <-]|[_ Hi]]%lookup_insert_Some; simpl; eauto.
  - intros u th' Hu' Hp. assert (exists th0, sy_threads s !! u = Some th0 /\ th_id th0 = th_id th' /\ before_workload (th_pc th0) = true) as (th0 & H0 & Hid & Hp0).
    { apply lookup_insert_Some in Hu' as [[<- <-]|[_ Hi]]; [|by exists th']. exists th. split_and!; [done..|]. destruct Hm; [auto|simpl in *; congruence..]. }
    destruct (B5 _ _ H0 Hp0) as [B7 B8]. rewrite <- Hid. split.
    + destruct Hm as [s' p _ Hn _ _|s' p managed Ep _ Hn Hbf _|s' p _ _ Hn _ _]; rewrite Hn; [done| |done].
      apply not_elem_of_union. split; [|done]. apply not_elem_of_singleton. intros Heq.
      assert (u = t) as -> by (symmetry; eapply B8; [exact Ht|by rewrite <- Heq]).
      rewrite lookup_insert_eq in Hu'. injection Hu' as <-. simpl in Hp. congruence.
    + intros t' th1 [[<- <-]|[_ Hi]]%lookup_insert_Some; simpl; intros Heq; [by eapply B8|by eapply B8].
  - intros u th' [[<- <-]|[_ Hi]]%lookup_insert_Some Hp; [|by eapply ended_step; eauto]. simpl in *.
    destruct (sweeping (th_pc th)) eqn:Esw; [by eapply ended_step; eauto|].
    split; simpl; [rewrite Hu; eauto|]. rewrite Hth.
    destruct Hm as [s' p Hl Hn Hb1 Hb2|s' p managed Ep Hl Hn _ Hp2|s' p Hb1 Hl Hn Hb2 Hg]; [|congruence|].
    + destruct (Hb2 Hp) as [Hbt|?]; [|congruence]. destruct (B5 _ _ Ht Hbt) as [B7 B8]. split.
      * rewrite Hl. destruct (sy_live s !! th_id th) eqn:E; [|done]. by apply B1 in E.
      * intros u th' [[<- <-]|[Hne Hi]]%lookup_insert_Some Hp'; simpl in *; [by apply not_sweeping in Hp'; congruence|].
        intros Heq. apply Hne. symmetry. by eapply B8.
    + split; [auto|]. intros u th' [[<- <-]|[Hne Hi]]%lookup_insert_Some Hp'; simpl in *; [congruence|].
      intros Heq. apply Hne. destruct (B5 _ _ Hi Hp') as [_ B8]. by eapply B8.
Qed.

Lemma base_same s s' :
  sy_live s' = sy_live s -> sy_seen s' = sy_seen s -> sy_used s' = sy_used s -> sy_threads s' = sy_threads s -> Base s -> Base s'.
Proof using Type.
  intros H1 H2 H3 H4 [B1 B2 B3 B4 B5 B6]. split; rewrite ?H1, ?H2, ?H3, ?H4; try done.
  intros t th Ht Hp. destruct (B6 t th Ht Hp) as (?&?&?). split; rewrite ?H1, ?H3, ?H4; done.
Qed.

Lemma base_drop id s : Base s -> Base (drop_live id s).
Proof using Type.
  intros [B1 B2 B3 B4 B5 B6]. split; simpl; try done.
  - intros id' volumes [_ Hi]%lookup_delete_Some. eauto.
  - intros t th Ht Hp. destruct (B6 t th Ht Hp) as (?&?&?). split_and!; simpl; try done. apply lookup_delete_None. auto.
Qed.

Lemma base_deletion t id s :
  sy_threads s !! t = None -> id ∈ sy_seen s -> Base s -> Base (set_thread t (mkThread id [] PDelete) s).
Proof using Type.
  intros Ht Hi [B1 B2 B3 B4 B5 B6]. split; simpl; try done.
  - intros u th [[<- <-]|[_ Hu]]%lookup_insert_Some; simpl; [by apply B2|eauto].
  - intros u th [[<- <-]|[_ Hu]]%lookup_insert_Some Hp; [done|]. destruct (B5 _ _ Hu Hp) as [B7 B8]. split; [done|].
    intros u' th' [[<- <-]|[_ Hu']]%lookup_insert_Some; simpl; [congruence|eauto].
  - intros u th [[<- <-]|[_ Hu]]%lookup_insert_Some Hp; [done|]. destruct (B6 _ _ Hu Hp) as (?&?&H). split_and!; simpl; try done.
    intros u' th' [[<- <-]|[_ Hu']]%lookup_insert_Some; simpl; [done|eauto].
Qed.

Lemma begin_create_sweep volumes : sweeping (begin_create volumes) = true -> volumes <> [] /\ flags_conflict ∅ volumes = true.
Proof using Type.
  unfold begin_create. destruct volumes as [|v volumes]; [done|]. destruct (flags_conflict _ _); [done|].
  by rewrite (not_sweeping _ (before_get_phase _ _ _)).
Qed.

Lemma base_new t id volumes s :
  sy_threads s !! t = None -> id ∉ sy_used s -> id <> "" -> Base s ->
  Base (set_thread t (mkThread id volumes (begin_create volumes))
          (mkSys (sy_claims s) (sy_live s) (sy_seen s) ({[id]} ∪ sy_used s) (sy_threads s))).
Proof using Type.
  intros Ht Hi Hn [B1 B2 B3 B4 B5 B6].
  assert (forall u th, sy_threads s !! u = Some th -> th_id th <> id) as Hfresh by (intros u th Hu <-; eauto).
  assert (sy_live s !! id = None) as Hl. { destruct (sy_live s !! id) eqn:E; [|done]. apply B1, B2 in E. done. }
  split; simpl.
  - done.
  - set_solver.
  - set_solver.
  - intros u th [[<- <-]|[_ Hu]]%lookup_insert_Some; simpl; [set_solver|]. apply elem_of_union_r. eauto.
  - intros u th [[<- <-]|[_ Hu]]%lookup_insert_Some Hp; simpl.
    + split; [set_solver|]. intros u' th' [[<- _]|[_ Hu']]%lookup_insert_Some; [done|]. intros []%(Hfresh _ _ Hu').
    + destruct (B5 _ _ Hu Hp) as [B7 B8]. split; [done|]. intros u' th' [[<- <-]|[_ Hu']]%lookup_insert_Some; simpl; [|eauto].
      intros E. by destruct (Hfresh _ _ Hu).
  - intros u th [[<- <-]|[_ Hu]]%lookup_insert_Some Hp.
    + simpl in *. split; simpl; [set_solver|]. split; [done|]. intros u' th' [[<- <-]|[_ Hu']]%lookup_insert_Some; simpl; [|eauto].
      intros Hb%not_sweeping. congruence.
    + destruct (B6 _ _ Hu Hp) as (?&?&H). split_and!; simpl; [set_solver|done|].
      intros u' th' [[<- <-]|[_ Hu']]%lookup_insert_Some; simpl; [|eauto]. intros _ E. by destruct (Hfresh _ _ Hu).
Qed.

Lemma exec_create t id volumes s s' :
  exec default_size (XCreate t id volumes) s = Some s' ->
  sy_threads s !! t = None /\ (id ∉ sy_used s) /\ id <> "" /\
  s' = set_thread t (mkThread id volumes (begin_create volumes))
         (mkSys (sy_claims s) (sy_live s) (sy_seen s) ({[id]} ∪ sy_used s) (sy_threads s)).
Proof using Type.
  cbn [exec]. destruct (bool_decide_reflect (sy_threads s !! t = None)); [|done].
  destruct (bool_decide_reflect (id ∉ sy_used s)); [|done]. destruct (String.eqb_spec id ""); [done|]. by intros [= <-].
Qed.

Lemma exec_delete t id s s' :
  exec default_size (XDelete t id) s = Some s' ->
  sy_threads s !! t = None /\ id ∈ sy_seen s /\ s' = set_thread t (mkThread id [] PDelete) s.
Proof using Type.
  cbn [exec]. destruct (bool_decide_reflect (sy_threads s !! t = None)); [|done].
  destruct (bool_decide_reflect (id ∈ sy_seen s)); [|done]. by intros [= <-].
Qed.

Lemma exec_step t rp s s' :
  exec default_size (XStep t rp) s = Some s' ->
  exists th s1 p, sy_threads s !! t = Some th /\ thread_step default_size rp th s = (s1, p) /\
    s' = set_thread t (mkThread (th_id th) (th_volumes th) p) s1.
Proof using Type.
  cbn [exec]. intros (th & Ht & H)%bind_Some. destruct (thread_step default_size rp th s) as [s1 p] eqn:E. simplify_eq. eauto 10.
Qed.

Lemma exec_collect name s s' :
  exec default_size (XCollect name) s = Some s' ->
  exists c, sy_claims s !! name = Some c /\ cl_owners c <> [] /\ (forall id, id ∈ cl_owners c -> sy_live s !! id = None) /\
    s' = set_claims (delete name (sy_claims s)) s.
Proof using Type.
  cbn [exec]. intros (c & Hc & H)%bind_Some. destruct (bool_decide_reflect (cl_owners c = [])); [done|]. simpl in H.
  destruct (forallb _ _) eqn:Ef; simplify_eq. exists c. split_and!; try done. intros id Hi.
  rewrite forallb_forall in Ef. apply list_elem_of_In, Ef in Hi. by apply bool_decide_eq_true in Hi.
Qed.

Lemma claims_base_exec a s s' : honest a s = true -> exec default_size a s = Some s' -> Base s -> Base s'.
Proof using Type.
  intros Hh Hx Hb. destruct a as [t id volumes|t id|t rp|name labels|name|id|name|].
  - apply exec_create in Hx as (H1 & H2 & H3 & ->). by apply base_new.
  - apply exec_delete in Hx as (H1 & H2 & ->). by apply base_deletion.
  - apply exec_step in Hx as (th & s1 & p & Ht & Hs & ->). simpl in Hh. rewrite Ht in Hh. by eapply base_step.
  - cbn [exec] in Hx. destruct (sy_claims s !! name); simplify_eq. by eapply base_same; [..|exact Hb].
  - cbn [exec] in Hx. simplify_eq. by eapply base_same; [..|exact Hb].
  - cbn [exec] in Hx. simplify_eq. by apply base_drop.
  - apply exec_collect in Hx as (c & _ & _ & _ & ->). by eapply base_same; [..|exact Hb].
  - cbn [exec] in Hx. simplify_eq. destruct Hb as [B1 B2 B3 B4 B5 B6]. by split.
Qed.

Lemma ended_exec id a s s' : honest a s = true -> exec default_size a s = Some s' -> ended id s -> ended id s'.
Proof using Type.
  intros Hh Hx He. pose proof He as (H1 & H2 & H3). destruct a as [t id' volumes|t id'|t rp|name labels|name|id'|name|].
  - apply exec_create in Hx as (_ & E2 & _ & ->). split_and!; simpl; [set_solver|done|].
    intros u th [[<- <-]|[_ Hu]]%lookup_insert_Some; simpl; [|eauto]. by intros _ ->.
  - apply exec_delete in Hx as (_ & _ & ->). split_and!; simpl; try done.
    intros u th [[<- <-]|[_ Hu]]%lookup_insert_Some; simpl; [done|eauto].
  - apply exec_step in Hx as (th & s1 & p & Ht & Hs & ->). simpl in Hh. rewrite Ht in Hh. by eapply ended_step.
  - cbn [exec] in Hx. by destruct (sy_claims s !! name); simplify_eq.
  - cbn [exec] in Hx. by simplify_eq.
  - cbn [exec] in Hx. simplify_eq. split_and!; simpl; try done. apply lookup_delete_None. auto.
  - by apply exec_collect in Hx as (c & _ & _ & _ & ->).
  - cbn [exec] in Hx. by simplify_eq.
Qed.

(** What every allowed step keeps, a history keeps. *)
Lemma run_keeps (allowed : action -> Sys -> bool) (P : Sys -> Prop) h s s' :
  (forall a s s', allowed a s = true -> exec default_size a s = Some s' -> P s -> P s') ->
  P s -> run default_size allowed h s = Some s' -> P s'.
Proof using Type.
  intros Hstep. revert s. induction h as [|a h IH]; intros s Hp; simpl; [by intros [= <-]|].
  destruct (allowed a s) eqn:Ea; [|done]. intros (s1 & H1 & H2)%bind_Some. eauto.
Qed.

Lemma claims_base_init : Base init_sys.
Proof using Type. by split. Qed.

End Steps.

(** ** Waiting ends *)

(** With enough fuel the wait ends: within the time-out plus one turn, when
    every turn takes at least the polling interval. *)
Theorem wait_ends timeout interval clock polls fuel :
  0 < interval -> 0 <= timeout -> (forall i, clock i + interval <= clock (S i)) -> timeout / interval + 2 <= Z.of_nat fuel ->
  exists r, wait_for_sandbox_ready fuel timeout clock polls 0 = Some r /\
    (r = Raise 504 \/ exists i, Z.of_nat i * interval < timeout /\ clock i - clock O < timeout /\ read_poll (polls i) = Some r).
Proof.
  intros Hi Ht Hc Hf. assert (forall i, clock O + Z.of_nat i * interval <= clock i) as Hlow.
  { induction i as [|i IH]; [lia|]. specialize (Hc i). lia. }
  assert (forall n i, timeout / interval + 2 <= Z.of_nat n + Z.of_nat i -> (0 < n)%nat ->
    exists r, wait_for_sandbox_ready n timeout clock polls i = Some r /\
      (r = Raise 504 \/ exists j, Z.of_nat j * interval < timeout /\ clock j - clock O < timeout /\ read_poll (polls j) = Some r)) as Hgen.
  { induction n as [|n IH]; intros i H1 Hn; [lia|]. cbn [wait_for_sandbox_ready].
    destruct (Z.ltb_spec (clock i - clock O) timeout) as [Hlt|]; [|by eauto].
    pose proof (Hlow i) as Hl. destruct (read_poll (polls i)) as [r|] eqn:Er.
    - exists r. split; [done|]. right. exists i. split_and!; [lia|done|done].
    - assert (Z.of_nat i <= timeout / interval) as Hb by (apply Z.div_le_lower_bound; lia).
      apply IH; lia. }
  assert (0 <= timeout / interval) by (apply Z.div_pos; lia). apply Hgen; lia.
Qed.
