(* ===== verification/KubeStorage.v ===== *)
(** * Volume claims of sandboxes on Kubernetes: storage kept, nothing orphaned

    About the model of [KubeVolumes]: the storage of a live sandbox stays while
    nobody makes claims under names that a request has in hands; claims made
    for a sandbox are never orphaned while the API server answers; concrete
    histories that show the conditions are needed. *)

From Stdlib Require Import ZArith Lia Ascii String.
From stdpp Require Import base numbers strings gmap list.
From S2P Require Import Prelude PyString KubeVolumes.

Open Scope string_scope.
Open Scope Z_scope.

(** ** Storage in use *)

(** Names a thread will remove, or patch, later. *)
Definition hands (p : pc) : list string :=
  match p with
  | PCreate _ _ _ _ managed | PRefetch _ _ _ _ managed | PWorkload managed => managed
  | PAttach name rest | PSweep name rest _ => name :: rest
  | _ => []
  end.

Definition in_hands (name : string) (s : Sys) : bool :=
  existsb (fun kv => bool_decide (name ∈ hands (th_pc kv.2))) (map_to_list (sy_threads s)).

Definition all_created (volumes : list volume) : bool :=
  forallb (fun v => match v with Some p => pv_create_if_not_exists p | None => true end) volumes.

(** Others leave claims alone, no claim is made under a name that a thread
    still has in hands, the server is allowed to create claims, and requests
    have their claims created. *)
Definition calm_reply (rp : reply) (th : thread) (s : Sys) : bool :=
  match th_pc th, rp with
  | PCreate p _ _ _ _, Answered => negb (in_hands (pv_claim_name p) s)
  | PCreate p _ _ _ _, Raised (EApi n _) _ => negb (n =? 403) && negb (in_hands (pv_claim_name p) s)
  | PCreate p _ _ _ _, Raised _ _ => negb (in_hands (pv_claim_name p) s)
  | _, _ => true
  end.

Definition calm (a : action) (s : Sys) : bool :=
  honest a s &&
  match a with
  | XCreate _ _ volumes => all_created volumes
  | XStep t rp => match sy_threads s !! t with Some th => calm_reply rp th s | None => true end
  | XClaim name _ => negb (in_hands name s)
  | XUnclaim _ => false
  | _ => true
  end.

(** The claim is there and managed for no other sandbox. *)
Definition usable (id name : string) (s : Sys) : Prop :=
  exists c, sy_claims s !! name = Some c /\ owned_by_other c id = false.

Definition volumes_usable (id : string) (volumes : list volume) (s : Sys) : Prop :=
  forall p, Some p ∈ volumes -> usable id (pv_claim_name p) s.

(** What the guard of [_ensure_pvc_volumes] has established. *)
Definition checked (th : thread) (s : Sys) : Prop :=
  let cached cache := forall name, found cache name = true -> usable (th_id th) name s in
  let covered rest (cache : gmap string (option claim)) (seen : gset string) :=
    forall p, Some p ∈ th_volumes th -> Some p ∈ rest \/ pv_claim_name p ∈ seen \/ found cache (pv_claim_name p) = true in
  match th_pc th with
  | PGet _ _ cache => cached cache
  | PCreate p rest cache seen _ =>
      cached cache /\ covered rest cache seen /\ (forall name, name ∈ seen -> name <> pv_claim_name p -> usable (th_id th) name s)
  | PRefetch name rest cache seen _ =>
      cached cache /\ covered rest cache seen /\ (forall name', name' ∈ seen -> name' <> name -> usable (th_id th) name' s)
  | PWorkload _ => volumes_usable (th_id th) (th_volumes th) s
  | _ => True
  end.

Record Kept (s : Sys) : Prop := {
  kp_hands : forall t th name c, sy_threads s !! t = Some th -> name ∈ hands (th_pc th) ->
    sy_claims s !! name = Some c -> belongs c (th_id th) = true;
  kp_owners : forall name c id, sy_claims s !! name = Some c -> id ∈ cl_owners c -> belongs c id = true /\ id ∈ sy_seen s;
  kp_created : forall t th, sy_threads s !! t = Some th -> all_created (th_volumes th) = true;
  kp_checked : forall t th, sy_threads s !! t = Some th -> checked th s;
  kp_attach : forall t th name rest, sy_threads s !! t = Some th -> th_pc th = PAttach name rest -> th_id th ∈ sy_seen s;
  kp_live : forall id volumes, sy_live s !! id = Some volumes -> volumes_usable id volumes s;
}.

(** *** Claims come and go *)

Definition protected (id : string) (s : Sys) : Prop :=
  is_Some (sy_live s !! id) \/ exists t th, sy_threads s !! t = Some th /\ before_workload (th_pc th) = true /\ th_id th = id.

Lemma protected_not_ended id s : protected id s -> ~ ended id s.
Proof. intros [[v Hv]|(t & th & Ht & Hp & Hi)] (_ & Hl & H); [congruence|]. by apply (H _ _ Ht Hp). Qed.

Lemma same_owner c id id' : belongs c id = true -> id <> "" -> owned_by_other c id' = false -> id = id'.
Proof.
  unfold belongs, owned_by_other. intros [H1 H2]%andb_prop Hn. apply bool_decide_eq_true in H2. rewrite H1, H2. simpl.
  destruct (String.eqb_spec id ""); [done|]. by destruct (String.eqb_spec id id').
Qed.

Lemma checked_mono th s s' :
  (before_workload (th_pc th) = true -> forall name, usable (th_id th) name s -> usable (th_id th) name s') -> checked th s -> checked th s'.
Proof.
  unfold checked, volumes_usable. destruct (th_pc th); simpl; intros H Hc; try done; pose proof (H eq_refl) as H'.
  - auto.
  - destruct Hc as (H1 & H2 & H3). auto 10.
  - destruct Hc as (H1 & H2 & H3). auto 10.
  - auto.
Qed.

Lemma kept_claims m s :
  Kept s ->
  (forall id name, protected id s -> usable id name s -> usable id name (set_claims m s)) ->
  (forall t th name c, sy_threads s !! t = Some th -> name ∈ hands (th_pc th) -> m !! name = Some c -> belongs c (th_id th) = true) ->
  (forall name c id, m !! name = Some c -> id ∈ cl_owners c -> belongs c id = true /\ id ∈ sy_seen s) ->
  Kept (set_claims m s).
Proof.
  intros [K1 K2 K3 K4 K5 K6] Hu Hh Ho. split; simpl; try done.
  - intros t th Ht. eapply checked_mono; [|by eapply K4]. intros Hp name. apply Hu. right. eauto.
  - intros id volumes Hl p Hp. apply Hu; [left; eauto|by eapply K6].
Qed.

Lemma not_in_hands name s t th : in_hands name s = false -> sy_threads s !! t = Some th -> name ∉ hands (th_pc th).
Proof.
  unfold in_hands. intros H Ht Hn. rewrite <- not_true_iff_false in H. apply H, existsb_exists. exists (t, th).
  split; [by apply list_elem_of_In, elem_of_map_to_list|]. by apply bool_decide_eq_true.
Qed.

Lemma kept_add name c s :
  Kept s -> sy_claims s !! name = None -> in_hands name s = false -> cl_owners c = [] -> Kept (set_claims (<[name := c]> (sy_claims s)) s).
Proof.
  intros K Hn Hh Ho. apply kept_claims; [done|..].
  - intros id name' _ (c' & Hc & Ho'). exists c'. simpl. split; [|done]. rewrite lookup_insert_ne; [done|congruence].
  - intros t th name' c' Ht Hin [[<- <-]|[_ Hc]]%lookup_insert_Some; [by destruct (not_in_hands _ _ _ _ Hh Ht)|by eapply (kp_hands s)].
  - intros name' c' id [[<- <-]|[_ Hc]]%lookup_insert_Some; [rewrite Ho; by intros ?%elem_of_nil|by eapply (kp_owners s)].
Qed.

Lemma owners_add id c id' : id' ∈ cl_owners (add_owner id c) -> id' = id \/ id' ∈ cl_owners c.
Proof. simpl. case_bool_decide; [by right|]. set_solver. Qed.

Lemma kept_owner t th name rest s :
  Kept s -> sy_threads s !! t = Some th -> th_pc th = PAttach name rest ->
  Kept (set_claims (alter (add_owner (th_id th)) name (sy_claims s)) s).
Proof.
  intros K Ht Ep. apply kept_claims; [done|..].
  - intros id name' _ (c & Hc & Ho). destruct (decide (name' = name)) as [->|].
    + exists (add_owner (th_id th) c). simpl. by rewrite lookup_alter_eq, Hc.
    + exists c. simpl. by rewrite lookup_alter_ne.
  - intros u th' name' c Hu Hin [(<- & c0 & Hc & ->)|[_ Hc]]%lookup_alter_Some; exact (kp_hands s K u th' _ _ Hu Hin Hc).
  - intros name' c id [(<- & c0 & Hc & ->)|[_ Hc]]%lookup_alter_Some Hi; [|by eapply (kp_owners s)].
    apply owners_add in Hi as [->|Hi]; [|exact (kp_owners s K _ c0 _ Hc Hi)]. split.
    + refine (kp_hands s K t th _ c0 Ht _ Hc). rewrite Ep. left.
    + by eapply (kp_attach s K).
Qed.

(** A claim no protected sandbox uses may go. *)
Lemma kept_delete name s :
  Kept s -> (forall id c, protected id s -> sy_claims s !! name = Some c -> owned_by_other c id = true) ->
  Kept (set_claims (delete name (sy_claims s)) s).
Proof.
  intros K Hn. apply kept_claims; [done|..].
  - intros id name' Hp (c & Hc & Ho). exists c. simpl. split; [|done]. rewrite lookup_delete_ne; [done|]. intros <-.
    rewrite (Hn id c Hp Hc) in Ho. done.
  - intros u th name' c Hu Hin [_ Hc]%lookup_delete_Some. by eapply (kp_hands s).
  - intros name' c id [_ Hc]%lookup_delete_Some. by eapply (kp_owners s).
Qed.

Lemma kept_swept t th name rest r s :
  Base s -> Kept s -> sy_threads s !! t = Some th -> th_pc th = PSweep name rest r ->
  Kept (set_claims (delete name (sy_claims s)) s).
Proof.
  intros Hb K Ht Ep. apply kept_delete; [done|]. intros id c Hp Hc.
  assert (belongs c (th_id th) = true) as Hbl by (apply (kp_hands s K t th name c Ht); [rewrite Ep; left|done]).
  destruct (owned_by_other c id) eqn:Ho; [done|]. apply protected_not_ended in Hp. destruct Hp.
  assert (th_id th <> "") as Hne. { intros E. apply (bs_nonempty _ Hb). rewrite <- E. by eapply (bs_ids _ Hb). }
  rewrite <- (same_owner _ _ _ Hbl Hne Ho). apply (bs_sweep _ Hb _ _ Ht). by rewrite Ep.
Qed.

Lemma kept_collected name c s :
  Base s -> Kept s -> sy_claims s !! name = Some c -> cl_owners c <> [] -> (forall id, id ∈ cl_owners c -> sy_live s !! id = None) ->
  Kept (set_claims (delete name (sy_claims s)) s).
Proof.
  intros Hb K Hc Ho Hl. apply kept_delete; [done|]. intros id c' Hp Hc'. simplify_eq.
  destruct (owned_by_other c id) eqn:Hoo; [done|]. destruct (cl_owners c) as [|o os] eqn:Eo; [done|].
  destruct (kp_owners s K name c o Hc) as [Hbl Hs]; [rewrite Eo; left|].
  assert (o <> "") as Hne by (intros ->; by apply (bs_nonempty _ Hb), (bs_seen _ Hb)).
  pose proof (same_owner _ _ _ Hbl Hne Hoo) as <-. specialize (Hl o ltac:(left)).
  destruct Hp as [[v Hv]|(t & th & Ht & Hbf & <-)]; [congruence|]. by destruct (bs_before _ Hb _ _ Ht Hbf).
Qed.

(** *** Threads and workloads *)

Lemma kept_thread t th s :
  Kept s -> (forall name c, name ∈ hands (th_pc th) -> sy_claims s !! name = Some c -> belongs c (th_id th) = true) ->
  all_created (th_volumes th) = true -> checked th s ->
  (forall name rest, th_pc th = PAttach name rest -> th_id th ∈ sy_seen s) -> Kept (set_thread t th s).
Proof.
  intros [K1 K2 K3 K4 K5 K6] Hh Hv Hc Ha. split; simpl; try done.
  - intros u th' name c [[<- <-]|[_ Hu]]%lookup_insert_Some; eauto.
  - intros u th' [[<- <-]|[_ Hu]]%lookup_insert_Some; eauto.
  - intros u th' [[<- <-]|[_ Hu]]%lookup_insert_Some; [done|]. by eapply K4.
  - intros u th' name rest [[<- <-]|[_ Hu]]%lookup_insert_Some; eauto.
Qed.

Lemma kept_add_live id volumes s : Kept s -> volumes_usable id volumes s -> Kept (add_live id volumes s).
Proof.
  intros [K1 K2 K3 K4 K5 K6] Hv. split; simpl; try done.
  - intros name c id' Hc Hi. destruct (K2 _ _ _ Hc Hi). split; [done|set_solver].
  - intros t th name rest Ht Ep. apply elem_of_union_r. eauto.
  - intros id' volumes' [[<- <-]|[_ Hl]]%lookup_insert_Some; [done|by apply K6].
Qed.

Lemma kept_drop_live id s : Kept s -> Kept (drop_live id s).
Proof. intros [K1 K2 K3 K4 K5 K6]. split; simpl; try done. intros id' volumes [_ Hl]%lookup_delete_Some. by apply K6. Qed.

(** *** The guard *)

Lemma next_claim_some skip todo p rest q :
  next_claim skip todo = Some (p, rest) -> Some q ∈ todo -> skip q = true \/ q = p \/ Some q ∈ rest.
Proof.
  induction todo as [|[p'|] todo IH]; simpl; [done|..].
  - destruct (skip p') eqn:Es; [|intros [= -> ->]]; intros; set_solver.
  - intros; set_solver.
Qed.

Lemma next_claim_none skip todo q : next_claim skip todo = None -> Some q ∈ todo -> skip q = true.
Proof. induction todo as [|[p'|] todo IH]; simpl; [set_solver|destruct (skip p') eqn:Es; set_solver|set_solver]. Qed.

Lemma created_flag volumes p : all_created volumes = true -> Some p ∈ volumes -> pv_create_if_not_exists p = true.
Proof. unfold all_created. rewrite forallb_forall. intros H Hp%list_elem_of_In. exact (H _ Hp). Qed.

Definition cached (id : string) (cache : gmap string (option claim)) (s : Sys) : Prop :=
  forall name, found cache name = true -> usable id name s.

Lemma checked_create_phase id volumes todo cache seen managed s :
  all_created volumes = true -> cached id cache s -> (forall name, name ∈ seen -> usable id name s) ->
  (forall p, Some p ∈ volumes -> Some p ∈ todo \/ pv_claim_name p ∈ seen \/ found cache (pv_claim_name p) = true) ->
  checked (mkThread id volumes (create_phase todo cache seen managed)) s.
Proof.
  intros Hv Hc Hs Hcov. unfold create_phase. destruct (next_claim _ todo) as [[p rest]|] eqn:En; unfold checked; simpl.
  - split_and!; [done| |set_solver]. intros q Hq. destruct (Hcov q Hq) as [Hin|[Hin|Hin]]; [|set_solver|auto].
    destruct (next_claim_some _ _ _ _ _ En Hin) as [Hsk|[->|?]]; [|set_solver|auto].
    rewrite (created_flag _ _ Hv Hq) in Hsk. simpl in Hsk. apply orb_prop in Hsk as [Hsk%bool_decide_eq_true|?]; [set_solver|auto].
  - intros q Hq. destruct (Hcov q Hq) as [Hin|[Hin|Hin]]; [|auto..].
    pose proof (next_claim_none _ _ _ En Hin) as Hsk. simpl in Hsk. rewrite (created_flag _ _ Hv Hq) in Hsk. simpl in Hsk.
    apply orb_prop in Hsk as [Hsk%bool_decide_eq_true|?]; auto.
Qed.

Lemma checked_get_phase id volumes todo cache s :
  all_created volumes = true -> cached id cache s -> checked (mkThread id volumes (get_phase volumes todo cache)) s.
Proof.
  intros Hv Hc. unfold get_phase. destruct (next_claim _ todo) as [[p rest]|]; [done|].
  apply checked_create_phase; [done..|set_solver|auto].
Qed.

Lemma checked_finish id volumes alive volumes' r s : checked (mkThread id volumes (finish alive volumes' r)) s.
Proof. by destruct (finish_cases alive volumes' r) as [->|[-> _]]. Qed.

Lemma hands_create_phase todo cache seen managed : hands (create_phase todo cache seen managed) = managed.
Proof. unfold create_phase. by destruct (next_claim _ _) as [[]|]. Qed.

Lemma hands_get_phase volumes todo cache : hands (get_phase volumes todo cache) = [].
Proof. unfold get_phase. destruct (next_claim _ _) as [[]|]; [done|apply hands_create_phase]. Qed.

Lemma hands_finish alive volumes r : hands (finish alive volumes r) = [].
Proof. by destruct (finish_cases alive volumes r) as [->|[-> _]]. Qed.

Lemma hands_attach_phase names : hands (attach_phase names) = names.
Proof. by destruct names. Qed.

Lemma hands_sweep_phase names r : hands (sweep_phase names r) = names.
Proof. by destruct names. Qed.

Lemma found_insert cache name o name' :
  found (<[name := o]> cache) name' = true -> found cache name' = true \/ (name' = name /\ is_Some o).
Proof.
  unfold found. destruct (decide (name' = name)) as [->|].
  - rewrite lookup_insert_eq. destruct o; [eauto|done].
  - rewrite lookup_insert_ne by done. auto.
Qed.

Lemma get_pvc_some rp name s c : get_pvc rp name s = Ok (Some c) -> sy_claims s !! name = Some c.
Proof. unfold get_pvc. intros H. repeat case_match; by simplify_eq. Qed.

Lemma body_owner default_size p id : owned_by_other (pvc_body default_size p id) id = false.
Proof.
  unfold owned_by_other, pvc_body, pvc_labels. simpl. destruct (pv_delete_on_sandbox_termination p); [|done].
  rewrite lookup_insert_eq, String.eqb_refl. simpl. by rewrite andb_false_r, andb_false_r.
Qed.

Lemma body_belongs default_size p id : pv_delete_on_sandbox_termination p = true -> belongs (pvc_body default_size p id) id = true.
Proof. unfold belongs, pvc_body, pvc_labels. simpl. intros ->. rewrite lookup_insert_eq. by rewrite !bool_decide_eq_true_2. Qed.

Section KeptSteps.
Context (default_size : string).

(** The new place of a thread, when its hands stay empty. *)
Lemma kept_idle t th p s :
  Kept s -> sy_threads s !! t = Some th -> hands p = [] -> checked (mkThread (th_id th) (th_volumes th) p) s ->
  Kept (set_thread t (mkThread (th_id th) (th_volumes th) p) s).
Proof using Type.
  intros K Ht Hh Hc. apply kept_thread; simpl; [done| |by eapply (kp_created s)|done|].
  - intros name c. rewrite Hh. by intros ?%elem_of_nil.
  - intros name rest ->. done.
Qed.

Lemma kept_finish t th alive volumes r s :
  Kept s -> sy_threads s !! t = Some th -> Kept (set_thread t (mkThread (th_id th) (th_volumes th) (finish alive volumes r)) s).
Proof using Type. intros K Ht. apply kept_idle; [done..|apply hands_finish|apply checked_finish]. Qed.

Lemma kept_pre_pass t rp th p rest cache s :
  Kept s -> sy_threads s !! t = Some th -> th_pc th = PGet p rest cache ->
  Kept (set_thread t (mkThread (th_id th) (th_volumes th) (pre_pass rp th p rest cache s)) s).
Proof using Type.
  intros K Ht Ep. pose proof (kp_checked s K _ _ Ht) as Hc. unfold checked in Hc. rewrite Ep in Hc.
  pose proof (kp_created s K _ _ Ht) as Hv. unfold pre_pass.
  destruct (get_pvc rp (pv_claim_name p) s) as [[existing|]|e] eqn:Eg.
  - destruct (owned_by_other existing (th_id th)) eqn:Eo; [by apply kept_finish|].
    apply kept_idle; [done..|apply hands_get_phase|]. apply checked_get_phase; [done|].
    intros name [Hf|[-> _]]%found_insert; [auto|]. apply get_pvc_some in Eg. by exists existing.
  - apply kept_idle; [done..|apply hands_get_phase|]. apply checked_get_phase; [done|].
    intros name [Hf|[_ [? [=]]]]%found_insert. auto.
  - repeat case_match; by apply kept_finish.
Qed.

(** The state after [create_pvc]. *)
Lemma kept_created rp p id s :
  Kept s -> in_hands (pv_claim_name p) s = false -> Kept (create_pvc default_size rp p id s).1.
Proof using Type.
  intros K Hh. unfold create_pvc. destruct (sy_claims s !! pv_claim_name p) eqn:En; destruct rp as [|e []]; simpl; try done; by apply kept_add.
Qed.

Lemma created_usable rp p id s s' : create_pvc default_size rp p id s = (s', Ok tt) ->
  sy_claims s' = <[pv_claim_name p := pvc_body default_size p id]> (sy_claims s) /\ sy_claims s !! pv_claim_name p = None.
Proof using Type.
  unfold create_pvc. destruct rp as [|e []]; [|done..]. destruct (sy_claims s !! pv_claim_name p) eqn:En; [done|]. by intros [= <-].
Qed.
Lemma kept_hands t th p s :
  Kept s -> sy_threads s !! t = Some th ->
  (forall name c, name ∈ hands p -> sy_claims s !! name = Some c -> belongs c (th_id th) = true) ->
  checked (mkThread (th_id th) (th_volumes th) p) s -> (forall name rest, p = PAttach name rest -> th_id th ∈ sy_seen s) ->
  Kept (set_thread t (mkThread (th_id th) (th_volumes th) p) s).
Proof using Type. intros K Ht Hh Hc Ha. apply kept_thread; simpl; [done..|by eapply (kp_created s)|done|done]. Qed.

(** Whatever the reply, no claim is lost. *)
Lemma usable_create rp p id s s1 r id' name :
  create_pvc default_size rp p id s = (s1, r) -> usable id' name s -> usable id' name s1.
Proof using Type.
  unfold create_pvc. intros H (c & Hn & Ho). exists c. split; [|done].
  destruct (sy_claims s !! pv_claim_name p) eqn:En; destruct rp as [|e []]; simplify_eq; simpl; try done;
    (rewrite lookup_insert_ne; [done|congruence]).
Qed.

Lemma kept_create_ok t rp th p rest cache seen managed s s1 :
  create_pvc default_size rp p (th_id th) s = (s1, Ok tt) -> Kept s1 -> sy_threads s1 !! t = Some th ->
  th_pc th = PCreate p rest cache seen managed -> Kept s -> sy_threads s !! t = Some th ->
  Kept (set_thread t (mkThread (th_id th) (th_volumes th)
    (create_phase rest cache seen (if pv_delete_on_sandbox_termination p then managed ++ [pv_claim_name p] else managed))) s1).
Proof using Type.
  intros Ecr K1 Ht1 Ep K Ht. pose proof (kp_checked s K _ _ Ht) as Hc. unfold checked in Hc. rewrite Ep in Hc. destruct Hc as (C1 & C2 & C3).
  destruct (created_usable _ _ _ _ _ Ecr) as [E En].
  assert (forall name, usable (th_id th) name s -> usable (th_id th) name s1) as Hmono by (intros name; by eapply usable_create).
  apply kept_hands; [done..| | |].
  - intros name c. rewrite hands_create_phase. intros Hn Hc.
    assert (name ∈ managed \/ (name = pv_claim_name p /\ pv_delete_on_sandbox_termination p = true)) as [Hm|[-> Hd]].
    { destruct (pv_delete_on_sandbox_termination p); [|by left]. apply elem_of_app in Hn as [|Hn%list_elem_of_singleton]; auto. }
    + eapply (kp_hands s1 K1 t th); [done|by rewrite Ep|done].
    + rewrite E, lookup_insert_eq in Hc. injection Hc as <-. by apply body_belongs.
  - apply checked_create_phase; [by eapply (kp_created s)|intros name Hf; by apply Hmono, C1| |done].
    intros name Hs. destruct (decide (name = pv_claim_name p)) as [->|Hne]; [|by apply Hmono, C3].
    exists (pvc_body default_size p (th_id th)). rewrite E, lookup_insert_eq. split; [done|apply body_owner].
  - intros name rest'. unfold create_phase. by destruct (next_claim _ _) as [[]|].
Qed.

Lemma kept_create_claim t rp th p rest cache seen managed s s' q :
  Kept s -> sy_threads s !! t = Some th -> th_pc th = PCreate p rest cache seen managed -> calm_reply rp th s = true ->
  create_claim default_size rp th p rest cache seen managed s = (s', q) ->
  Kept (set_thread t (mkThread (th_id th) (th_volumes th) q) s').
Proof using Type.
  intros K Ht Ep Hcalm. pose proof (kp_checked s K _ _ Ht) as Hc. unfold checked in Hc. rewrite Ep in Hc. destruct Hc as (C1 & C2 & C3).
  pose proof (kp_created s K _ _ Ht) as Hv. pose proof (kp_hands s K t th) as Hh. rewrite Ep in Hh. simpl in Hh.
  assert (in_hands (pv_claim_name p) s = false) as Hin.
  { unfold calm_reply in Hcalm. rewrite Ep in Hcalm. apply negb_true_iff. by destruct rp as [|[] ?]; try apply andb_prop in Hcalm as [_ Hcalm]. }
  assert (forall n text applied, rp = Raised (EApi n text) applied -> n <> 403) as H403.
  { intros n text applied ->. unfold calm_reply in Hcalm. rewrite Ep in Hcalm. apply andb_prop in Hcalm as [Hcalm _]. by destruct (Z.eqb_spec n 403). }
  pose proof (kept_created rp p (th_id th) s K Hin) as K'. destruct (created_same default_size rp p (th_id th) s) as (_ & _ & _ & Et).
  unfold create_claim. destruct (create_pvc default_size rp p (th_id th) s) as [s1 r] eqn:Ecr. simpl in K', Et. intros [= <- <-].
  pose proof Ht as Ht1. rewrite <- Et in Ht1. destruct r as [[]|e].
  - by apply (kept_create_ok t rp th p rest cache seen managed s).
  - destruct e as [n text|text|n text|text]; try by apply kept_finish.
    destruct (Z.eqb_spec n 409) as [->|]; [|destruct (Z.eqb_spec n 403) as [->|]; [|by destruct ((n =? 400) || (n =? 422)); apply kept_finish]].
    + assert (forall id name, usable id name s -> usable id name s1) as Hmono by (intros id name; exact (usable_create _ _ _ _ _ _ _ _ Ecr)).
      apply kept_hands; [done..| | |done]; simpl; [by intros name c Hn; eapply (kp_hands s1 K' t th); [|by rewrite Ep]|].
      unfold checked. simpl. split_and!; [intros name Hf; apply Hmono; auto|done|intros name Hs Hn; apply Hmono; auto].
    + exfalso. revert Ecr. unfold create_pvc. destruct rp as [|e applied]; [by case_match|]. intros [= _ ->]. by eapply H403.
Qed.
Lemma kept_recheck t rp th name rest cache seen managed s :
  Kept s -> sy_threads s !! t = Some th -> th_pc th = PRefetch name rest cache seen managed ->
  Kept (set_thread t (mkThread (th_id th) (th_volumes th) (recheck rp th name rest cache seen managed s)) s).
Proof using Type.
  intros K Ht Ep. pose proof (kp_checked s K _ _ Ht) as Hc. unfold checked in Hc. rewrite Ep in Hc. destruct Hc as (C1 & C2 & C3).
  unfold recheck. destruct (get_pvc rp name s) as [[racer|]|e] eqn:Eg; [|by apply kept_finish..].
  destruct (owned_by_other racer (th_id th)) eqn:Eo; [by apply kept_finish|]. apply get_pvc_some in Eg.
  apply kept_hands; [done..| | |].
  - intros name' c. rewrite hands_create_phase. intros Hn. eapply (kp_hands s K t th); [done|by rewrite Ep].
  - apply checked_create_phase; [by eapply (kp_created s)|done| |done].
    intros name' Hs. destruct (decide (name' = name)) as [->|Hne]; [|by apply C3]. by exists racer.
  - intros name' rest'. unfold create_phase. by destruct (next_claim _ _) as [[]|].
Qed.

Lemma kept_create_workload t rp th managed s s' p :
  Kept s -> sy_threads s !! t = Some th -> th_pc th = PWorkload managed -> create_workload rp th managed s = (s', p) ->
  Kept (set_thread t (mkThread (th_id th) (th_volumes th) p) s').
Proof using Type.
  intros K Ht Ep. pose proof (kp_checked s K _ _ Ht) as Hc. unfold checked in Hc. rewrite Ep in Hc.
  pose proof (kept_add_live _ _ _ K Hc) as K'. unfold create_workload. destruct rp as [|e applied].
  - intros [= <- <-]. apply kept_hands; [done..| | |].
    + intros name c. rewrite hands_attach_phase. intros Hn. eapply (kp_hands _ K' t th); [done|by rewrite Ep].
    + by destruct managed.
    + intros name rest _. simpl. set_solver.
  - destruct e as [n text|text|n text|text], applied; intros [= <- <-]; try (by apply kept_finish); by apply kept_idle.
Qed.

Lemma kept_delete_workload rp id s : Kept s -> Kept (delete_workload rp id s).1.
Proof using Type.
  intros K. unfold delete_workload. destruct rp as [|e []]; simpl; try done; [destruct (sy_live s !! id); [|done]|]; by apply kept_drop_live.
Qed.

Lemma kept_rollback t rp th code s s' p :
  Kept s -> sy_threads s !! t = Some th -> rollback rp th code s = (s', p) ->
  Kept (set_thread t (mkThread (th_id th) (th_volumes th) p) s').
Proof using Type.
  intros K Ht. unfold rollback. pose proof (kept_delete_workload rp (th_id th) s K) as K'.
  destruct (deleted_rest rp (th_id th) s) as [_ Et]. destruct (delete_workload rp (th_id th) s) as [s1 r]. simpl in *.
  intros [= <- <-]. apply kept_finish; [done|by rewrite Et].
Qed.

Lemma kept_delete_sandbox t rp th s s' p :
  Kept s -> sy_threads s !! t = Some th -> delete_sandbox rp (th_id th) s = (s', p) ->
  Kept (set_thread t (mkThread (th_id th) (th_volumes th) p) s').
Proof using Type.
  intros K Ht. unfold delete_sandbox. pose proof (kept_delete_workload rp (th_id th) s K) as K'.
  destruct (deleted_rest rp (th_id th) s) as [_ Et]. destruct (delete_workload rp (th_id th) s) as [s1 r]. simpl in *.
  rewrite <- Et in Ht. intros [= <- <-]. repeat case_match; by apply kept_idle.
Qed.

Lemma kept_list t rp th r s :
  Kept s -> sy_threads s !! t = Some th ->
  Kept (set_thread t (mkThread (th_id th) (th_volumes th) (list_managed rp (th_id th) r s)) s).
Proof using Type.
  intros K Ht. unfold list_managed. destruct rp; [|by apply kept_idle]. apply kept_hands; [done..| | |].
  - intros name c. rewrite hands_sweep_phase. intros ([k c'] & -> & Hin%elem_of_map_to_list)%list_elem_of_fmap Hc. simpl in Hc.
    apply map_lookup_filter_Some in Hin as [Hin Hb]. by simplify_eq.
  - by destruct (map_to_list _).*1.
  - intros name rest. by destruct (map_to_list _).*1.
Qed.

Lemma kept_sweep t rp th name rest r s s' p :
  Base s -> Kept s -> sy_threads s !! t = Some th -> th_pc th = PSweep name rest r -> sweep_claim rp name rest r s = (s', p) ->
  Kept (set_thread t (mkThread (th_id th) (th_volumes th) p) s').
Proof using Type.
  intros Hb K Ht Ep H. pose proof (kept_swept _ _ _ _ _ _ Hb K Ht Ep) as K'.
  assert (p = PDone r \/ p = sweep_phase rest r) as Hp by (unfold sweep_claim in H; repeat case_match; simplify_eq; auto).
  assert (Kept s' /\ sy_threads s' = sy_threads s) as [K1 Et] by (unfold sweep_claim in H; repeat case_match; by simplify_eq).
  rewrite <- Et in Ht. destruct Hp as [->| ->]; [by apply kept_idle|]. apply kept_hands; [done..| | |].
  - intros name' c. rewrite hands_sweep_phase. intros Hn. eapply (kp_hands s' K1 t th); [done|]. rewrite Ep. by right.
  - by destruct rest.
  - by destruct rest.
Qed.

Lemma kept_step t rp th s s' p :
  Base s -> Kept s -> sy_threads s !! t = Some th -> calm_reply rp th s = true -> thread_step default_size rp th s = (s', p) ->
  Kept (set_thread t (mkThread (th_id th) (th_volumes th) p) s').
Proof using Type.
  intros Hb K Ht Hcalm. unfold thread_step. destruct (th_pc th) eqn:Ep; intros H.
  - simplify_eq. by apply kept_pre_pass.
  - by eapply kept_create_claim.
  - simplify_eq. by apply kept_recheck.
  - by eapply kept_create_workload.
  - by eapply kept_rollback.
  - simplify_eq. pose proof (kept_owner _ _ _ _ _ K Ht Ep) as K'.
    assert (Kept (patch_pvc rp name (th_id th) s) /\ sy_threads (patch_pvc rp name (th_id th) s) = sy_threads s) as [K1 Et]
      by (by destruct rp as [|e []]).
    destruct (patched_same rp name (th_id th) s) as (_ & Hseen & _). rewrite <- Et in Ht. apply kept_hands; [done..| | |].
    + intros name' c. rewrite hands_attach_phase. intros Hn. eapply (kp_hands _ K1 t th); [done|]. rewrite Ep. by right.
    + by destruct rest.
    + intros _ _ _. rewrite Hseen. rewrite Et in Ht. by eapply (kp_attach s K).
  - simplify_eq. unfold wait_ready. destruct rp as [|e ?]; [by apply kept_idle|].
    destruct e; try (by apply kept_finish); by apply kept_idle.
  - by eapply kept_rollback.
  - simplify_eq. by apply kept_list.
  - by eapply kept_sweep.
  - by eapply kept_delete_sandbox.
  - simplify_eq. by apply kept_idle.
Qed.

Lemma checked_begin id volumes s : all_created volumes = true -> checked (mkThread id volumes (begin_create volumes)) s.
Proof using Type.
  intros Hv. unfold begin_create. destruct volumes as [|v volumes]; [intros p Hp; by apply elem_of_nil in Hp|].
  destruct (flags_conflict _ _); [apply checked_finish|]. by apply checked_get_phase.
Qed.

Lemma hands_begin volumes : hands (begin_create volumes) = [].
Proof using Type.
  unfold begin_create. destruct volumes as [|v volumes]; [done|]. destruct (flags_conflict _ _); [apply hands_finish|apply hands_get_phase].
Qed.

Lemma kept_exec a s s' : calm a s = true -> exec default_size a s = Some s' -> Base s /\ Kept s -> Base s' /\ Kept s'.
Proof using Type.
  intros [Hh Hc]%andb_prop Hx [Hb K]. split; [by eapply claims_base_exec|].
  destruct a as [t id volumes|t id|t rp|name labels|name|id|name|].
  - apply exec_create in Hx as (H1 & H2 & H3 & ->). apply kept_thread; simpl.
    + destruct K as [K1 K2 K3 K4 K5 K6]. by split.
    + intros name c. rewrite hands_begin. by intros ?%elem_of_nil.
    + done.
    + by apply checked_begin.
    + intros name rest E. pose proof (hands_begin volumes) as Hn. by rewrite E in Hn.
  - apply exec_delete in Hx as (H1 & H2 & ->). apply kept_thread; simpl; [done| |done..]. by intros name c ?%elem_of_nil.
  - apply exec_step in Hx as (th & s1 & p & Ht & Hs & ->). rewrite Ht in Hc. by eapply kept_step.
  - cbn [exec] in Hx. destruct (sy_claims s !! name) eqn:En; simplify_eq. apply kept_add; [done|done|by apply negb_true_iff|done].
  - done.
  - cbn [exec] in Hx. simplify_eq. by apply kept_drop_live.
  - apply exec_collect in Hx as (c & Hn & Ho & Hl & ->). by eapply kept_collected.
  - cbn [exec] in Hx. simplify_eq. destruct K as [K1 K2 K3 K4 K5 K6]. split; simpl; try done.
Qed.

Lemma kept_init : Kept init_sys.
Proof using Type. by split. Qed.

End KeptSteps.

(** ** Claims nobody would remove *)

(** The API server answers the calls that roll back, list, remove and patch;
    an error of a creating call that means "not made" is right; the server
    keeps running. *)
Definition answered (a : action) (s : Sys) : bool :=
  honest a s &&
  match a with
  | XStep t rp =>
      match sy_threads s !! t with
      | Some th =>
          match th_pc th, rp with
          | (PRollback _ | PAttach _ _ | PList _ | PSweep _ _ _), Raised _ _ => false
          | PCreate _ _ _ _ _, Raised (EApi n _) applied => negb applied || negb ((n =? 409) || (n =? 403))
          | _, _ => true
          end
      | None => true
      end
  | XCrash => false
  | _ => true
  end.

(** The thread will remove the claim, or give it an owner. *)
Definition attends (name : string) (th : thread) : Prop :=
  match th_pc th with
  | PCreate _ _ _ _ managed | PRefetch _ _ _ _ managed | PWorkload managed => name ∈ managed
  | PAttach name' rest | PSweep name' rest _ => name ∈ name' :: rest
  | PRollback _ => th_volumes th <> []
  | PList _ => True
  | _ => False
  end.

Definition looked_after (name id : string) (c : claim) (s : Sys) : Prop :=
  id ∈ cl_owners c \/ exists t th, sy_threads s !! t = Some th /\ th_id th = id /\ attends name th.

Record Tidy (s : Sys) : Prop := {
  ty_used : forall name c id, sy_claims s !! name = Some c -> belongs c id = true -> id ∈ sy_used s;
  ty_volumes : forall t th, sy_threads s !! t = Some th ->
    match th_pc th with
    | PGet _ _ _ | PCreate _ _ _ _ _ | PRefetch _ _ _ _ _ => th_volumes th <> []
    | PWorkload managed => managed = [] \/ th_volumes th <> []
    | _ => True
    end;
  ty_claims : forall name c id, sy_claims s !! name = Some c -> belongs c id = true -> looked_after name id c s;
}.

Lemma finish_attends id volumes r name : volumes <> [] -> attends name (mkThread id volumes (finish false volumes r)).
Proof. by destruct volumes. Qed.

Lemma create_phase_attends id volumes todo cache seen managed name :
  name ∈ managed -> attends name (mkThread id volumes (create_phase todo cache seen managed)).
Proof. unfold create_phase. by destruct (next_claim _ _) as [[]|]. Qed.

(** A step that leaves the claims alone, and a thread that goes on attending
    to what it attended to. *)
Lemma looked_after_move t th p s name id c :
  sy_threads s !! t = Some th -> (attends name th -> id = th_id th -> attends name (mkThread (th_id th) (th_volumes th) p)) ->
  looked_after name id c s -> looked_after name id c (set_thread t (mkThread (th_id th) (th_volumes th) p) s).
Proof.
  intros Ht Ha [Ho|(u & th' & Hu & Hi & Hat)]; [by left|right]. destruct (decide (u = t)) as [->|Hne].
  - simplify_eq. exists t, (mkThread (th_id th) (th_volumes th) p). simpl. rewrite lookup_insert_eq. split_and!; [done..|]. by apply Ha.
  - exists u, th'. simpl. by rewrite lookup_insert_ne.
Qed.

Section TidySteps.
Context (default_size : string).

Definition steady (th : thread) (p : pc) : Prop :=
  match p with
  | PGet _ _ _ | PCreate _ _ _ _ _ | PRefetch _ _ _ _ _ => th_volumes th <> []
  | PWorkload managed => managed = [] \/ th_volumes th <> []
  | _ => True
  end.

(** A step that leaves claims and threads alone otherwise. *)
Lemma tidy_move t th p s s' :
  Tidy s -> sy_threads s !! t = Some th -> sy_claims s' = sy_claims s -> sy_threads s' = sy_threads s -> sy_used s' = sy_used s ->
  steady th p ->
  (forall name c, sy_claims s !! name = Some c -> belongs c (th_id th) = true -> (th_id th ∉ cl_owners c) -> attends name th ->
     attends name (mkThread (th_id th) (th_volumes th) p)) ->
  Tidy (set_thread t (mkThread (th_id th) (th_volumes th) p) s').
Proof using Type.
  intros [Y1 Y2 Y3] Ht Ec Et Eu Hs Ha. split; simpl; rewrite ?Ec, ?Et, ?Eu; [done|..].
  - intros u th' [[<- <-]|[_ Hu]]%lookup_insert_Some; [done|]. by apply (Y2 u).
  - intros name c id Hc Hb. destruct (decide (id ∈ cl_owners c)) as [|Ho]; [by left|].
    destruct (looked_after_move t th p s name id c Ht) as [?|Hl]; [|by apply Y3|by left|]; [intros Hat ->; by eapply Ha|].
    right. simpl in *. by rewrite Et.
Qed.

(** Claims that stay or go, with what they were. *)
Lemma tidy_claims m s :
  Tidy s -> (forall name c, m !! name = Some c -> sy_claims s !! name = Some c) -> Tidy (set_claims m s).
Proof using Type.
  intros [Y1 Y2 Y3] Hm. split; simpl; [|done|].
  - intros name c id Hc. by eapply Y1, Hm.
  - intros name c id Hc. by apply Y3, Hm.
Qed.

Lemma tidy_rest s s' :
  Tidy s -> sy_claims s' = sy_claims s -> sy_threads s' = sy_threads s -> sy_used s' = sy_used s -> Tidy s'.
Proof using Type. intros [Y1 Y2 Y3] H1 H2 H3. split; unfold looked_after; rewrite ?H1, ?H2, ?H3; done. Qed.

Lemma steady_create_phase th todo cache seen managed : th_volumes th <> [] -> steady th (create_phase todo cache seen managed).
Proof using Type. unfold create_phase. destruct (next_claim _ _) as [[]|]; simpl; auto. Qed.

Lemma steady_get_phase th volumes todo cache : th_volumes th <> [] -> steady th (get_phase volumes todo cache).
Proof using Type. unfold get_phase. destruct (next_claim _ _) as [[]|]; [done|]. by apply steady_create_phase. Qed.

Lemma steady_finish th alive volumes r : steady th (finish alive volumes r).
Proof using Type. by destruct (finish_cases alive volumes r) as [->|[-> _]]. Qed.

Lemma steady_begin id volumes p : steady (mkThread id volumes p) (begin_create volumes).
Proof using Type.
  unfold begin_create. destruct volumes as [|v volumes]; [by left|]. destruct (flags_conflict _ _); [apply steady_finish|by apply steady_get_phase].
Qed.

(** The claim a creating call makes is attended to by its thread. *)
Lemma tidy_create t th p s q name :
  Tidy s -> sy_threads s !! t = Some th -> sy_claims s !! name = None -> name = pv_claim_name p -> steady th q ->
  (forall name', attends name' th -> attends name' (mkThread (th_id th) (th_volumes th) q)) ->
  (pv_delete_on_sandbox_termination p = true -> attends name (mkThread (th_id th) (th_volumes th) q)) -> th_id th ∈ sy_used s ->
  Tidy (set_thread t (mkThread (th_id th) (th_volumes th) q) (set_claims (<[name := pvc_body default_size p (th_id th)]> (sy_claims s)) s)).
Proof using Type.
  intros Y Ht Hn -> Hs Ha Hb Hu. destruct (tidy_move t th q s s Y Ht eq_refl eq_refl eq_refl Hs ltac:(auto)) as [Y1 Y2 Y3].
  assert (forall id, belongs (pvc_body default_size p (th_id th)) id = true -> pv_delete_on_sandbox_termination p = true /\ id = th_id th) as Hbl.
  { intros id. unfold belongs, pvc_body, pvc_labels. simpl. destruct (pv_delete_on_sandbox_termination p).
    - rewrite lookup_insert_eq. intros [_ H]%andb_prop. apply bool_decide_eq_true in H. split; congruence.
    - rewrite lookup_empty. intros [H _]%andb_prop. by apply bool_decide_eq_true in H. }
  split; simpl in *; [| done |].
  - intros name c id [[<- <-]|[_ Hc]]%lookup_insert_Some; [by intros [_ ->]%Hbl|by eapply Y1].
  - intros name c id [[<- <-]|[_ Hc]]%lookup_insert_Some Hbel; [|by apply (Y3 _ _ _ Hc)].
    apply Hbl in Hbel as [Hd ->]. right. exists t. eexists. simpl. rewrite lookup_insert_eq. split_and!; [done..|auto].
Qed.

Lemma tidy_owner name id s : Tidy s -> Tidy (set_claims (alter (add_owner id) name (sy_claims s)) s).
Proof using Type.
  intros [Y1 Y2 Y3]. split; simpl; [|done|].
  - intros name' c id' [(<- & c0 & Hc & ->)|[_ Hc]]%lookup_alter_Some Hb; exact (Y1 _ _ id' Hc Hb).
  - intros name' c id' [(<- & c0 & Hc & ->)|[_ Hc]]%lookup_alter_Some Hb; destruct (Y3 _ _ id' Hc Hb) as [Ho|Hl]; try (by left); try (by right).
    left. simpl. case_bool_decide; set_solver.
Qed.

Lemma tidy_create_claim t rp th p rest cache seen managed s s' q :
  Tidy s -> Base s -> sy_threads s !! t = Some th -> th_pc th = PCreate p rest cache seen managed -> answered (XStep t rp) s = true ->
  create_claim default_size rp th p rest cache seen managed s = (s', q) ->
  Tidy (set_thread t (mkThread (th_id th) (th_volumes th) q) s').
Proof using Type.
  intros Y Hb Ht Ep Ha. pose proof (ty_volumes s Y _ _ Ht) as Hv. rewrite Ep in Hv.
  unfold answered in Ha. apply andb_prop in Ha as [_ Ha]. rewrite Ht, Ep in Ha.
  assert (forall name r, attends name (mkThread (th_id th) (th_volumes th) (finish false (th_volumes th) r))) as Hf by (intros; by apply finish_attends).
  assert (forall name, attends name th -> name ∈ managed) as Hm by (intros name; unfold attends; by rewrite Ep).
  pose proof (bs_ids _ Hb _ _ Ht) as Hu. unfold create_claim.
  destruct (create_pvc default_size rp p (th_id th) s) as [s1 r] eqn:Ecr. intros [= <- Eq].
  assert (steady th q /\ forall name, name ∈ managed -> attends name (mkThread (th_id th) (th_volumes th) q)) as [Hs Hq].
  { subst q. split; [|intros name Hn]; repeat case_match;
      first [apply steady_finish|by apply steady_create_phase|by apply finish_attends|apply create_phase_attends; set_solver|done]. }
  assert (s1 = s \/ (sy_claims s !! pv_claim_name p = None /\ s1 = set_claims (<[pv_claim_name p := pvc_body default_size p (th_id th)]> (sy_claims s)) s /\
    (pv_delete_on_sandbox_termination p = true -> attends (pv_claim_name p) (mkThread (th_id th) (th_volumes th) q)))) as [->|(En & -> & Hd)].
  { unfold create_pvc in Ecr. destruct (sy_claims s !! pv_claim_name p) eqn:En; [left; by destruct rp as [|e []]; simplify_eq|].
    destruct rp as [|e []]; [|right|left]; simplify_eq; try done.
    - right. split_and!; [done..|]. intros ->. apply create_phase_attends. set_solver.
    - split_and!; [done..|]. intros _. destruct e as [n text|text|n text|text]; try by apply finish_attends.
      simpl in Ha. destruct (n =? 409); [done|]. destruct (n =? 403); [done|]. destruct ((n =? 400) || (n =? 422)); by apply finish_attends. }
  - by apply (tidy_move t th q s s); auto.
  - apply tidy_create; auto.
Qed.

Lemma tidy_create_workload t rp th managed s s' p :
  Tidy s -> sy_threads s !! t = Some th -> th_pc th = PWorkload managed -> honest_reply rp th s = true ->
  create_workload rp th managed s = (s', p) -> Tidy (set_thread t (mkThread (th_id th) (th_volumes th) p) s').
Proof using Type.
  intros Y Ht Ep Hh. pose proof (ty_volumes s Y _ _ Ht) as Hv. rewrite Ep in Hv. unfold honest_reply in Hh. rewrite Ep in Hh.
  assert (forall name, attends name th -> name ∈ managed /\ th_volumes th <> []) as Hm.
  { intros name. unfold attends. rewrite Ep. intros Hn. split; [done|]. destruct Hv as [->|]; [by apply elem_of_nil in Hn|done]. }
  unfold create_workload. destruct rp as [|e applied].
  - intros [= <- <-]. apply (tidy_move t th _ s); try done; [by destruct managed|].
    intros name c _ _ _ Hat. apply Hm in Hat as [Hat _]. by destruct managed; [apply elem_of_nil in Hat|].
  - destruct e as [n text|text|n text|text], applied; intros [= <- <-]; try done; apply (tidy_move t th _ s);
      first [done|apply steady_finish|intros name c _ _ _ Hat; apply Hm in Hat as [_ Hat]; first [exact Hat|by apply finish_attends]].
Qed.

Lemma tidy_rollback t rp th code s s' p :
  Tidy s -> sy_threads s !! t = Some th -> (rp = Answered \/ forall name, ~ attends name th) ->
  (forall name, attends name th -> th_volumes th <> []) ->
  rollback rp th code s = (s', p) -> Tidy (set_thread t (mkThread (th_id th) (th_volumes th) p) s').
Proof using Type.
  intros Y Ht Hrp Hv. unfold rollback. destruct (delete_workload rp (th_id th) s) as [s1 r] eqn:Ed.
  destruct (deleted _ _ _ _ _ Ed) as (_ & _ & Ec & _). destruct (deleted_rest rp (th_id th) s) as [Eu Et]. rewrite Ed in Eu, Et. simpl in Eu, Et.
  intros [= <- <-]. apply (tidy_move t th _ s); try done; [apply steady_finish|]. intros name c _ _ _ Hat.
  destruct Hrp as [->|Hno]; [|by apply Hno in Hat]. apply Hv in Hat.
  assert (match r with Ok _ => false | Raise e => negb (is_not_found_error e) end = false) as ->; [|by apply finish_attends].
  unfold delete_workload in Ed. destruct (sy_live s !! th_id th); simplify_eq; [done|]. by vm_compute.
Qed.

Lemma tidy_sweep t th name rest r s :
  Tidy s -> sy_threads s !! t = Some th -> th_pc th = PSweep name rest r ->
  Tidy (set_thread t (mkThread (th_id th) (th_volumes th) (sweep_phase rest r)) (set_claims (delete name (sy_claims s)) s)).
Proof using Type.
  intros Y Ht Ep. pose proof (tidy_claims (delete name (sy_claims s)) s Y) as Y'.
  eapply (tidy_move t th); [apply Y'|..]; try done; [by intros name' c [_ ?]%lookup_delete_Some|by destruct rest|]. simpl.
  intros name' c [Hne _]%lookup_delete_Some _ _. unfold attends. rewrite Ep. intros [->|Hin]%elem_of_cons; [done|].
  by destruct rest; [apply elem_of_nil in Hin|].
Qed.

Lemma tidy_step t rp th s s' p :
  Tidy s -> Base s -> sy_threads s !! t = Some th -> answered (XStep t rp) s = true -> thread_step default_size rp th s = (s', p) ->
  Tidy (set_thread t (mkThread (th_id th) (th_volumes th) p) s').
Proof using Type.
  intros Y Hb Ht Ha. pose proof (ty_volumes s Y _ _ Ht) as Hv. pose proof Ha as Ha'. unfold answered in Ha'.
  apply andb_prop in Ha' as [Hh Ha']. unfold honest in Hh. rewrite Ht in Ha', Hh.
  assert (forall p, steady th p -> (forall name, ~ attends name th) -> Tidy (set_thread t (mkThread (th_id th) (th_volumes th) p) s)) as Hidle.
  { intros q Hs Hn. apply (tidy_move t th q s s); try done. intros name c _ _ _ []%Hn. }
  unfold thread_step. destruct (th_pc th) eqn:Ep; intros H.
  - injection H as <- <-. apply Hidle; [|intros name; unfold attends; rewrite Ep; tauto].
    unfold pre_pass. repeat case_match; first [apply steady_finish|by apply steady_get_phase].
  - by eapply tidy_create_claim.
  - injection H as <- <-. unfold recheck.
    assert (forall name, attends name th -> name ∈ managed) as Hm by (intros name'; unfold attends; by rewrite Ep).
    apply (tidy_move t th _ s s); try done; repeat case_match;
      first [apply steady_finish|by apply steady_create_phase|intros; first [by apply finish_attends|by apply create_phase_attends; auto]].
  - by eapply tidy_create_workload.
  - eapply (tidy_rollback t rp th); [done..| | |exact H]; [left; by destruct rp|]. intros name. unfold attends. rewrite Ep. tauto.
  - destruct rp as [|]; [|done]. injection H as <- <-. simpl.
    eapply (tidy_move t th); [by apply tidy_owner|done..|by destruct rest|]. simpl.
    intros name' c Hc _ Ho. unfold attends. rewrite Ep. intros [->|Hin]%elem_of_cons; [|by destruct rest; [apply elem_of_nil in Hin|]].
    apply lookup_alter_Some in Hc as [(_ & c0 & _ & ->)|[? _]]; [|done]. exfalso. apply Ho. simpl. case_bool_decide; set_solver.
  - injection H as <- <-. apply Hidle; [|intros name; unfold attends; rewrite Ep; tauto]. unfold wait_ready. repeat case_match; try done; apply steady_finish.
  - eapply (tidy_rollback t rp th); [done..| | |exact H]; [right|]; intros name; unfold attends; rewrite Ep; tauto.
  - destruct rp; [|done]. injection H as <- <-. unfold list_managed. apply (tidy_move t th _ s s); try done; [by destruct (map_to_list _).*1|].
    intros name c Hc Hbl _ _. assert (name ∈ (map_to_list (filter (fun kv => belongs kv.2 (th_id th) = true) (sy_claims s))).*1) as Hin.
    { apply list_elem_of_fmap. exists (name, c). split; [done|]. by apply elem_of_map_to_list, map_lookup_filter_Some. }
    by destruct (map_to_list _).*1; [apply elem_of_nil in Hin|].
  - destruct rp; [|done]. cbn [sweep_claim] in H. injection H as <- <-. by eapply tidy_sweep.
  - unfold delete_sandbox in H. destruct (delete_workload rp (th_id th) s) as [s1 r] eqn:Ed.
    destruct (deleted _ _ _ _ _ Ed) as (_ & _ & Ec & _). destruct (deleted_rest rp (th_id th) s) as [Eu Et]. rewrite Ed in Eu, Et.
    injection H as <- <-. apply (tidy_move t th _ s); try done; [by repeat case_match|]. intros name c _ _ _. unfold attends. by rewrite Ep.
  - injection H as <- <-. apply Hidle; [done|]. intros name. unfold attends. rewrite Ep. tauto.
Qed.
Lemma tidy_spawn t th s :
  Tidy s -> sy_threads s !! t = None -> steady th (th_pc th) -> Tidy (set_thread t th s).
Proof using Type.
  intros [Y1 Y2 Y3] Ht Hs. split; simpl; [done|..].
  - intros u th' [[<- <-]|[_ Hu]]%lookup_insert_Some; [done|]. by apply (Y2 u).
  - intros name c id Hc Hb. destruct (Y3 _ _ _ Hc Hb) as [Ho|(u & th' & Hu & Hi & Ha)]; [by left|right].
    exists u, th'. simpl. rewrite lookup_insert_ne; [done|congruence].
Qed.

Lemma tidy_exec a s s' : answered a s = true -> exec default_size a s = Some s' -> Base s /\ Tidy s -> Base s' /\ Tidy s'.
Proof using Type.
  intros Ha Hx [Hb Y]. pose proof Ha as Ha'. apply andb_prop in Ha' as [Hh Ha']. split; [by eapply claims_base_exec|].
  destruct a as [t id volumes|t id|t rp|name labels|name|id|name|].
  - apply exec_create in Hx as (H1 & H2 & H3 & ->). apply tidy_spawn; [|done|apply steady_begin].
    destruct Y as [Y1 Y2 Y3]. split; simpl; try done. intros name c id' Hc Hbl. apply elem_of_union_r. by eapply Y1.
  - apply exec_delete in Hx as (H1 & H2 & ->). by apply tidy_spawn.
  - apply exec_step in Hx as (th & s1 & p & Ht & Hs & ->). by eapply tidy_step.
  - cbn [exec] in Hx. destruct (sy_claims s !! name) eqn:En; simplify_eq. simpl in Hh. apply negb_true_iff, bool_decide_eq_false in Hh.
    destruct Y as [Y1 Y2 Y3]. split; simpl; [|done|]; intros name' c id [[<- <-]|[_ Hc]]%lookup_insert_Some Hbl; try by (apply andb_prop in Hbl as [Hbl%bool_decide_eq_true _]).
    + by eapply Y1.
    + by apply (Y3 _ _ _ Hc).
  - cbn [exec] in Hx. simplify_eq. apply tidy_claims; [done|]. by intros name' c [_ ?]%lookup_delete_Some.
  - cbn [exec] in Hx. simplify_eq. by eapply tidy_rest.
  - apply exec_collect in Hx as (c & _ & _ & _ & ->). apply tidy_claims; [done|]. by intros name' c' [_ ?]%lookup_delete_Some.
  - done.
Qed.

Lemma tidy_init : Tidy init_sys.
Proof using Type. by split. Qed.

(** C25: No claim is orphaned.  As long as the server runs and the calls that
    roll back, list, remove and patch are answered, whatever else fails and
    however requests interleave: a claim that was made for a sandbox is owned
    by its workload, so that the garbage collector removes it with the
    workload, or a request of the sandbox is still under way that removes it or
    gives it this owner. *)
Theorem no_orphaned_claims h s name c id :
  run default_size answered h init_sys = Some s -> sy_claims s !! name = Some c -> belongs c id = true ->
  id ∈ cl_owners c \/ exists t th, sy_threads s !! t = Some th /\ th_id th = id /\ attends name th.
Proof using Type.
  intros H Hc Hb. assert (Base s /\ Tidy s) as [_ Y] by exact (run_keeps _ _ _ _ _ _ tidy_exec (conj claims_base_init tidy_init) H).
  exact (ty_claims s Y _ _ _ Hc Hb).
Qed.
End TidySteps.

(** ** Witnesses, and what the guards let through *)

Definition data : PVC := mkPVC "data" true true None None None.
Definition shared : PVC := mkPVC "data" false false None None None.

Definition step (t : nat) : action := XStep t Answered.

(** A sandbox is created, then deleted. *)
Definition creation (t : nat) (id : string) : list action := XCreate t id [Some data] :: repeat (step t) 5.
Definition demo_history : list action := creation 0 "a" ++ [XDelete 1 "a"; step 1].

Definition demo (allowed : action -> Sys -> bool) (h : list action) : Sys := default init_sys (run "1Gi" allowed h init_sys).



Lemma no_orphaned_claims_witness :
  "a" ∈ cl_owners (mkClaim (pvc_labels data "a") ["a"] ["ReadWriteOnce"] "1Gi" None) \/
  exists t th, sy_threads (demo answered (creation 0 "a")) !! t = Some th /\ th_id th = "a" /\ attends "data" th.
Proof.
  exact (no_orphaned_claims "1Gi" (creation 0 "a") (demo answered (creation 0 "a")) "data" _ "a"
    ltac:(vm_compute; reflexivity) ltac:(vm_compute; reflexivity) ltac:(vm_compute; reflexivity)).
Defined.

Lemma wait_ends_witness :
  exists r, wait_for_sandbox_ready 4 2 Z.of_nat (fun _ => NoWorkload) 0 = Some r /\
    (r = Raise 504 \/ exists i, Z.of_nat i * 1 < 2 /\ Z.of_nat i - 0 < 2 /\ read_poll NoWorkload = Some r).
Proof. apply (wait_ends 2 1 Z.of_nat (fun _ => NoWorkload) 4); [lia|lia|intros i; lia|by vm_compute]. Defined.

(** A live sandbox whose claim is not there. *)
Definition bereft (id name : string) (s : Sys) : bool :=
  bool_decide (is_Some (sy_live s !! id)) && bool_decide (sy_claims s !! name = None).

(** Claims are deleted by name.  Between the listing and the deletion for
    sandbox [a] the garbage collector removes [a]'s claim and sandbox [b] makes
    its own of the same name; [b] loses it. *)
Example sweep_deletes_recreated :
  option_map (bereft "b" "data")
    (run "1Gi" honest (demo_history ++ [step 1; XCollect "data"] ++ creation 2 "b" ++ [step 1]) init_sys) = Some true.
Proof. vm_compute. reflexivity. Qed.

(** With [createIfNotExists=false] a missing claim is not refused: while the
    creation of sandbox [b] waits for its pod, [a] has the claim made and
    managed, [b] starts with it, and [a]'s deletion takes it from [b]. *)
Example missing_claim_not_refused :
  option_map (bereft "b" "data")
    (run "1Gi" honest ((XCreate 2 "b" [Some shared] :: repeat (step 2) 2) ++ creation 0 "a" ++ [step 2; XDelete 1 "a"] ++ repeat (step 1) 3)
       init_sys) = Some true.
Proof. vm_compute. reflexivity. Qed.

(** An exception that mentions something else that was not found counts as
    the workload being gone, and the claims of a live sandbox are removed. *)
Definition webhook_error : exn := EApi 500 "failed calling webhook: service guard not found".

Example unrelated_not_found_sweeps :
  option_map (bereft "a" "data")
    (run "1Gi" (fun _ _ => true) (creation 0 "a" ++ [XDelete 1 "a"; XStep 1 (Raised webhook_error false); step 1; step 1]) init_sys) = Some true.
Proof. vm_compute. reflexivity. Qed.

(** Owners are attached by name as well: while [a]'s creation is about to
    patch its claim, [a] is deleted and swept, [b] makes a claim of that name,
    and [a] becomes an owner of it; the patch is not refused. *)
Example owner_attached_to_recreated :
  option_map (fun s => cl_owners <$> sy_claims s !! "data")
    (run "1Gi" honest ((XCreate 0 "a" [Some data] :: repeat (step 0) 3) ++ [XDelete 1 "a"; step 1; step 1; step 1] ++
      (XCreate 2 "b" [Some data] :: repeat (step 2) 3) ++ [step 0]) init_sys) = Some (Some ["a"]).
Proof. vm_compute. reflexivity. Qed.

(** The creating call and its rollback both fail without effect: the claim
    stays behind, owned by nothing and labelled with an id that the request's
    answer, a 500, does not name. *)
Definition abandoned (name : string) (s : Sys) : bool :=
  match sy_claims s !! name with
  | Some c => bool_decide (cl_owners c = []) && bool_decide (sy_live s = ∅) &&
      forallb (fun kv => match th_pc kv.2 with PDone (Raise 500) => true | _ => false end) (map_to_list (sy_threads s))
  | None => false
  end.

Example failed_rollback_abandons_claim :
  option_map (abandoned "data")
    (run "1Gi" honest (XCreate 0 "a" [Some data] :: repeat (step 0) 2 ++
      [XStep 0 (Raised (EApi 500 "timeout") false); XStep 0 (Raised (EApi 500 "timeout") false)]) init_sys) = Some true.
Proof. vm_compute. reflexivity. Qed.
