(* ===== verification/RenewIntent.v ===== *)
(** * Renewing sandboxes on access

    [server/opensandbox_server/integrations/renew_intent/]: requests that reach
    a sandbox extend its life.  [controller.py] decides about one sandbox and
    calls the sandbox service, an interface here; [consumer.py] queues the
    requests and works them off with several asyncio tasks.

    The tasks of the consumer interleave where they wait: for work, for the lock
    of a sandbox, and for the renewal, which runs on a thread.  A step takes one
    task from one such point to the next; [now] is the clock reading of the
    step.  The lock objects are shared by reference, so they live in a heap.
    Log messages, the decoding of Redis payloads, reconnecting and stopping are
    not modelled. *)

From Stdlib Require Import ZArith Lia String.
From stdpp Require Import base numbers strings gmap list.
From S2P Require Import Prelude PyString Validators Signing.

Open Scope string_scope.
Open Scope Z_scope.

(** ** The controller *)

(** What the controller reads of a [Sandbox]. *)
Record Sandbox := { sb_state : string; sb_expires_at : option Z }.

Class SandboxService (S : Type) := {
  get_sandbox : string -> M S pyexn Sandbox;
  get_access_renew_extend_seconds : string -> M S pyexn (option Z);
  renew_expiration : string -> Z -> M S pyexn unit;
}.

Definition is_http (e : pyexn) : bool := match e with HttpExn _ => true | _ => false end.

Section controller.
Context {S : Type} `{!SandboxService S}.

(** [_try_renew_sync]; instants and [extend] are in microseconds and seconds. *)
Definition try_renew_sync (now : Z) (sandbox_id : string) : M S pyexn bool :=
  got <-- attempt (get_sandbox sandbox_id) ;;
  match got with
  | Raise e => if is_http e then ret false else throw e
  | Ok sandbox =>
    if negb (lower (sb_state sandbox) =? "running")%string then ret false
    else
      match sb_expires_at sandbox with
      | None => ret false
      | Some current =>
        extend <-- get_access_renew_extend_seconds sandbox_id ;;
        match extend with
        | None => ret false
        | Some extend =>
          let candidate := now + extend * 1000000 in
          let new_expires := Z.max candidate current in
          renewed <-- attempt (renew_expiration sandbox_id new_expires) ;;
          match renewed with Ok _ => ret true | Raise _ => ret false end
        end
      end
  end.
End controller.

(** ** The consumer *)

Inductive source := RENEW_SOURCE_SERVER_PROXY | RENEW_SOURCE_REDIS_QUEUE.

#[global] Instance source_eq_dec : EqDecision source.
Proof. solve_decision. Defined.

Record RenewWorkItem := mkWork {
  wi_source : source;
  wi_sandbox_id : string;
  wi_observed_at : Z;
}.

(** [asyncio.Lock] and [last_success_monotonic] of one sandbox; the waiters are
    task numbers in the order of arrival. *)
Record MemSandboxState := mkMem {
  ms_locked : bool;
  ms_waiters : list nat;
  ms_last_success : option Z;
}.

(** Where a processor task stands. *)
Inductive pc :=
  | Idle
  | WaitingLock (id : string) (ref : nat)
  | Renewing (id : string) (ref : nat).

#[global] Instance pc_eq_dec : EqDecision pc.
Proof. solve_decision. Defined.

(** What happened; the code has no such variable. *)
Inductive event :=
  | EStart (id : string) (now : Z)             (** the controller was called *)
  | EEnd (id : string) (ok : bool) (now : Z).  (** and returned, or raised *)

Record Consumer := mkConsumer {
  rc_redis : bool;
  rc_min_interval : Z;
  rc_max_tracked : Z;
  rc_work_queue : list RenewWorkItem;
  rc_mem_states : list (string * nat);
  rc_heap : list MemSandboxState;
  rc_procs : list pc;
  rc_log : list event;
}.

Definition INTENT_MAX_AGE_SECONDS : Z := 300.
Definition PROXY_RENEW_MAX_TRACKED_SANDBOXES : Z := 8192.

(** [__init__] and the processor tasks of [_spawn_tasks] *)
Definition init_consumer (redis : bool) (min_interval max_tracked consumer_concurrency : Z) : Consumer :=
  mkConsumer redis min_interval max_tracked [] [] []
    (replicate (Z.to_nat (Z.max 1 consumer_concurrency)) Idle) [].

Definition set_queue q (s : Consumer) : Consumer :=
  mkConsumer (rc_redis s) (rc_min_interval s) (rc_max_tracked s) q (rc_mem_states s) (rc_heap s)
    (rc_procs s) (rc_log s).
Definition set_mem d (s : Consumer) : Consumer :=
  mkConsumer (rc_redis s) (rc_min_interval s) (rc_max_tracked s) (rc_work_queue s) d (rc_heap s)
    (rc_procs s) (rc_log s).
Definition set_heap h (s : Consumer) : Consumer :=
  mkConsumer (rc_redis s) (rc_min_interval s) (rc_max_tracked s) (rc_work_queue s) (rc_mem_states s) h
    (rc_procs s) (rc_log s).
Definition set_proc (p : nat) (c : pc) (s : Consumer) : Consumer :=
  mkConsumer (rc_redis s) (rc_min_interval s) (rc_max_tracked s) (rc_work_queue s) (rc_mem_states s)
    (rc_heap s) (<[p := c]> (rc_procs s)) (rc_log s).
Definition add_event (e : event) (s : Consumer) : Consumer :=
  mkConsumer (rc_redis s) (rc_min_interval s) (rc_max_tracked s) (rc_work_queue s) (rc_mem_states s)
    (rc_heap s) (rc_procs s) (rc_log s ++ [e])%list.

Definition get_state (r : nat) (s : Consumer) : MemSandboxState :=
  default (mkMem false [] None) (rc_heap s !! r).
Definition set_state (r : nat) (m : MemSandboxState) (s : Consumer) : Consumer :=
  set_heap (<[r := m]> (rc_heap s)) s.

(** *** Producers *)

Definition is_stale (now observed_at : Z) : bool :=
  INTENT_MAX_AGE_SECONDS * 1000000 <? now - observed_at.

(** [_enqueue_proxy] *)
Definition enqueue_proxy (now : Z) (sandbox_id : string) (s : Consumer) : Consumer :=
  set_queue (rc_work_queue s ++ [mkWork RENEW_SOURCE_SERVER_PROXY sandbox_id now])%list s.

(** The end of a pass of [_brpop_feeder_loop], with a decoded intent *)
Definition feed (now : Z) (sandbox_id : string) (observed_at : Z) (s : Consumer) : Consumer :=
  if is_stale now observed_at then s
  else set_queue (rc_work_queue s ++ [mkWork RENEW_SOURCE_REDIS_QUEUE sandbox_id observed_at])%list s.

(** *** The states of recently seen sandboxes *)

Definition mem_move_to_end (k : string) (d : list (string * nat)) : list (string * nat) :=
  match od_get k d with
  | Some v => (od_del k d ++ [(k, v)])%list
  | None => d
  end.

(** The loop of [_evict_mem_lru_unlocked]. *)
Fixpoint evict_loop (fuel : nat) (max_tracked : Z) (locked : nat -> bool) (max_rotations rotations : nat)
    (d : list (string * nat)) : list (string * nat) :=
  match fuel with
  | O => d
  | S fuel =>
      if (max_tracked <? Z.of_nat (length d)) && (rotations <? max_rotations)%nat then
        match d with
        | [] => []
        | (k, st) :: d =>
            if locked st then
              evict_loop fuel max_tracked locked max_rotations (S rotations) (d ++ [(k, st)])%list
            else evict_loop fuel max_tracked locked max_rotations 0 d
        end
      else d
  end.

(** Enough passes: each either drops an entry or is one of at most
    [max_rotations] in a row that do not. *)
Definition evict_fuel (d : list (string * nat)) : nat :=
  let n := Nat.max (length d) 1 in (S (length d) * S n)%nat.

Definition evict_mem_lru_unlocked (s : Consumer) : Consumer :=
  let d := rc_mem_states s in
  set_mem (evict_loop (evict_fuel d) (rc_max_tracked s) (fun r => ms_locked (get_state r s))
             (Nat.max (length d) 1) 0 d) s.

(** The state object of a sandbox, by reference. *)
Definition ensure_mru_mem (sandbox_id : string) (s : Consumer) : nat * Consumer :=
  let '(st, s) :=
    match od_get sandbox_id (rc_mem_states s) with
    | Some st => (st, set_mem (mem_move_to_end sandbox_id (rc_mem_states s)) s)
    | None =>
        let st := length (rc_heap s) in
        let s := set_heap (rc_heap s ++ [mkMem false [] None])%list s in
        (st, set_mem (mem_move_to_end sandbox_id (od_set sandbox_id st (rc_mem_states s))) s)
    end in
  (st, evict_mem_lru_unlocked s).

(** *** Processors *)

(** Leaving [async with st.lock] *)
Definition release (r : nat) (s : Consumer) : Consumer :=
  let m := get_state r s in set_state r (mkMem false (ms_waiters m) (ms_last_success m)) s.

(** From the acquired lock to the renewal, or to the end when the last success
    is too recent. *)
Definition locked_section (now : Z) (p : nat) (id : string) (r : nat) (s : Consumer) : Consumer :=
  let go := set_proc p (Renewing id r) (add_event (EStart id now) s) in
  if rc_redis s then go
  else
    match ms_last_success (get_state r s) with
    | Some t => if now - t <? rc_min_interval s then set_proc p Idle (release r s) else go
    | None => go
    end.

(** Taking a lock that is free. *)
Definition lock_and_go (now : Z) (p : nat) (id : string) (r : nat) (waiters : list nat) (s : Consumer)
  : Consumer :=
  locked_section now p id r
    (set_state r (mkMem true waiters (ms_last_success (get_state r s))) s).

(** [_process_work] up to its first wait. *)
Definition process_work (now : Z) (p : nat) (work : RenewWorkItem) (s : Consumer) : Consumer :=
  if negb (rc_redis s) && negb (bool_decide (wi_source work = RENEW_SOURCE_SERVER_PROXY)) then s
  else
    let id := wi_sandbox_id work in
    let '(r, s) := ensure_mru_mem id s in
    let m := get_state r s in
    if negb (ms_locked m) && bool_decide (ms_waiters m = []) then lock_and_go now p id r [] s
    else
      set_proc p (WaitingLock id r)
        (set_state r (mkMem (ms_locked m) (ms_waiters m ++ [p])%list (ms_last_success m)) s).

(** The renewal of task [p] ended; an exception is logged by the loop. *)
Definition renewal_done (now : Z) (p : nat) (id : string) (r : nat) (outcome : res pyexn bool) (s : Consumer)
  : Consumer :=
  let ok := match outcome with Ok b => b | Raise _ => false end in
  let s := add_event (EEnd id ok now) s in
  let m := get_state r s in
  let s := if negb (rc_redis s) && ok then set_state r (mkMem (ms_locked m) (ms_waiters m) (Some now)) s else s in
  set_proc p Idle (release r s).

Inductive action :=
  | ASubmit (id : string)                         (** [submit_from_proxy] *)
  | AFeed (id : string) (observed_at : Z)
  | ATake (p : nat)                               (** an idle task gets work *)
  | AWake (p : nat)                               (** the lock is handed to a waiter *)
  | ADone (p : nat) (outcome : res pyexn bool).   (** a renewal ends *)

(** [None]: the action is not possible in this state. *)
Definition step (now : Z) (a : action) (s : Consumer) : option Consumer :=
  match a with
  | ASubmit id => Some (enqueue_proxy now id s)
  | AFeed id t => if rc_redis s then Some (feed now id t s) else None
  | ATake p =>
      match rc_procs s !! p, rc_work_queue s with
      | Some Idle, work :: q => Some (process_work now p work (set_queue q s))
      | _, _ => None
      end
  | AWake p =>
      match rc_procs s !! p with
      | Some (WaitingLock id r) =>
          let m := get_state r s in
          match ms_waiters m with
          | q :: waiters =>
              if bool_decide (q = p) && negb (ms_locked m) then Some (lock_and_go now p id r waiters s)
              else None
          | [] => None
          end
      | _ => None
      end
  | ADone p outcome =>
      match rc_procs s !! p with
      | Some (Renewing id r) => Some (renewal_done now p id r outcome s)
      | _ => None
      end
  end.

(** A history: actions with their clock readings. *)
Fixpoint run (h : list (Z * action)) (s : Consumer) : option Consumer :=
  match h with
  | [] => Some s
  | (now, a) :: h => match step now a s with Some s => run h s | None => None end
  end.

(** ** Eviction *)

Section evict.
Context (max_tracked : Z) (locked : nat -> bool).
Implicit Types d : list (string * nat).

Definition all_locked d : Prop := Forall (fun kv => locked kv.2 = true) d.

(** Entries are dropped, moved, and dropped only when nobody holds their lock. *)
Definition evicted d d' : Prop :=
  d' ⊆+ d /\ (forall kv, kv ∈ d -> locked kv.2 = true -> kv ∈ d').

Lemma evicted_refl d : evicted d d.
Proof. done. Qed.

Lemma evicted_trans d1 d2 d3 : evicted d1 d2 -> evicted d2 d3 -> evicted d1 d3.
Proof. intros [H1 H2] [H3 H4]. split; [by etrans|naive_solver]. Qed.

Lemma evicted_rotate kv d : evicted (kv :: d) (d ++ [kv]).
Proof. split; [by rewrite Permutation_app_comm|set_solver]. Qed.

Lemma evicted_drop kv d : locked kv.2 = false -> evicted (kv :: d) d.
Proof.
  intros Hl. split; [by apply submseteq_cons|].
  intros kv' [->|H]%elem_of_cons; congruence.
Qed.

(** The last [rotations] entries were found locked. *)
Lemma evict_loop_spec fuel : forall max_rotations rotations d1 d2,
  (length d2 = rotations \/ d1 = []) -> all_locked d2 -> (length (d1 ++ d2) <= max_rotations)%nat ->
  (length (d1 ++ d2) * S max_rotations + (max_rotations - rotations) < fuel)%nat ->
  let d' := evict_loop fuel max_tracked locked max_rotations rotations (d1 ++ d2) in
  evicted (d1 ++ d2) d' /\ (Z.of_nat (length d') <= max_tracked \/ all_locked d').
Proof.
  induction fuel as [|fuel IH]; intros max_rot rot d1 d2 Hrot Hl Hlen Hf; [lia|].
  cbn [evict_loop]. destruct (_ && _) eqn:E; cycle 1.
  { split; [apply evicted_refl|]. rewrite andb_false_iff, Z.ltb_ge, Nat.ltb_ge in E.
    destruct E as [E|E]; [by left|right]. destruct d1; [done|].
    destruct Hrot as [Hrot|]; [|done]. simpl in Hlen. rewrite length_app in Hlen. lia. }
  rewrite andb_true_iff, Nat.ltb_lt in E. destruct E as [_ E].
  destruct d1 as [|[k st] d1].
  - (* every entry was found locked *)
    simpl in *. destruct d2 as [|[k st] d2]; [by split; [|right]|].
    apply Forall_cons in Hl as [Hst Hl]. simpl in Hst. rewrite Hst.
    specialize (IH max_rot (S rot) [] (d2 ++ [(k, st)])%list). simpl in *.
    rewrite length_app in IH. simpl in IH.
    destruct IH as [H1 H2]; [by right| |lia|nia|].
    + apply Forall_app. split; [done|by repeat constructor].
    + split; [|done]. eapply evicted_trans; [apply evicted_rotate|done].
  - destruct Hrot as [Hrot|]; [|done]. simpl in *. destruct (locked st) eqn:Hst.
    + specialize (IH max_rot (S rot) d1 (d2 ++ [(k, st)])%list).
      rewrite app_assoc in IH. rewrite !length_app in *. simpl in *.
      destruct IH as [H1 H2]; [left; lia| |lia|nia|].
      * apply Forall_app. split; [done|by repeat constructor].
      * split; [|done]. eapply evicted_trans; [apply evicted_rotate|done].
    + specialize (IH max_rot 0%nat (d1 ++ d2)%list []). rewrite app_nil_r in IH.
      destruct IH as [H1 H2]; [by left|constructor|lia|nia|]. split; [|done].
      eapply evicted_trans; [by apply evicted_drop|done].
Qed.

Lemma mem_evict_spec d :
  let d' := evict_loop (evict_fuel d) max_tracked locked (Nat.max (length d) 1) 0 d in
  evicted d d' /\ (Z.of_nat (length d') <= max_tracked \/ all_locked d').
Proof.
  pose proof (evict_loop_spec (evict_fuel d) (Nat.max (length d) 1) 0 d []) as H.
  rewrite app_nil_r in H. apply H; [by left|constructor|lia|]. unfold evict_fuel. nia.
Qed.

Lemma evict_none d :
  Z.of_nat (length d) <= max_tracked ->
  evict_loop (evict_fuel d) max_tracked locked (Nat.max (length d) 1) 0 d = d.
Proof.
  intros H. unfold evict_fuel. set (n := Nat.max _ _). change (S (length d) * S n)%nat
    with (S (n + length d * S n))%nat. cbn [evict_loop].
  by rewrite (proj2 (Z.ltb_ge _ _) H).
Qed.
End evict.

Lemma mem_move_perm k d : od_wf d -> mem_move_to_end k d ≡ₚ d.
Proof.
  intros Hd. unfold mem_move_to_end. destruct (od_get k d) as [v|] eqn:E; [|done].
  unfold od_wf in Hd. revert E Hd. induction d as [|[k' v'] d IH]; [done|]. csimpl.
  rewrite NoDup_cons. unfold od_del. rewrite filter_cons. simpl. case_decide.
  - intros [= ->] [Hk Hd]. subst. rewrite decide_False by naive_solver.
    change (od_del k' d ++ [(k', v)] ≡ₚ (k', v) :: d).
    rewrite od_del_not_in by (by apply od_get_None). by rewrite Permutation_app_comm.
  - intros E [Hk Hd]. rewrite decide_True by congruence. simpl. f_equiv. by apply IH.
Qed.

Lemma NoDup_sub {A} (l l' : list A) : l' ⊆+ l -> NoDup l -> NoDup l'.
Proof. intros (k & ->)%submseteq_Permutation. by intros [? _]%NoDup_app. Qed.

(** ** Invariant *)

Definition holds (c : pc) (r : nat) : Prop := match c with Renewing _ r' => r' = r | _ => False end.
Definition waits (c : pc) (r : nat) : Prop := match c with WaitingLock _ r' => r' = r | _ => False end.

(** Task [q] holds, or waits for, the lock of [r]. *)
Definition holder (s : Consumer) (q r : nat) : Prop := exists c, rc_procs s !! q = Some c /\ holds c r.
Definition waiter (s : Consumer) (q r : nat) : Prop := exists c, rc_procs s !! q = Some c /\ waits c r.

Record inv (s : Consumer) : Prop := {
  inv_wf : od_wf (rc_mem_states s);
  inv_refs : NoDup (rc_mem_states s).*2;
  inv_heap : forall kv, kv ∈ rc_mem_states s -> (kv.2 < length (rc_heap s))%nat;
  inv_locked : forall r, ms_locked (get_state r s) = true <-> exists q, holder s q r;
  inv_single : forall p q r, holder s p r -> holder s q r -> p = q;
  inv_waiters : forall r q, q ∈ ms_waiters (get_state r s) <-> waiter s q r;
  inv_once : forall r, NoDup (ms_waiters (get_state r s));
  inv_size : Z.of_nat (length (rc_mem_states s)) <=
    Z.max (rc_max_tracked s) (Z.of_nat (length (rc_procs s)));
}.

Lemma get_set_state r r' m s :
  get_state r (set_state r' m s) =
    if decide (r = r' /\ (r < length (rc_heap s))%nat) then m else get_state r s.
Proof.
  unfold get_state, set_state. simpl. case_decide as H.
  - destruct H as [-> H]. by rewrite list_lookup_insert_eq.
  - destruct (decide (r = r')) as [->|]; [|by rewrite list_lookup_insert_ne].
    rewrite list_insert_ge by (apply not_lt; naive_solver). done.
Qed.

Lemma get_state_range r s : ms_locked (get_state r s) = true -> (r < length (rc_heap s))%nat.
Proof.
  unfold get_state. intros H. apply not_le. intros Hle. by rewrite lookup_ge_None_2 in H.
Qed.

Lemma init_inv redis i m c : inv (init_consumer redis i m c).
Proof.
  assert (Hidle : forall q c0, rc_procs (init_consumer redis i m c) !! q = Some c0 -> c0 = Idle).
  { simpl. intros q c0 H. by apply lookup_replicate in H as [-> _]. }
  assert (Hget : forall r, get_state r (init_consumer redis i m c) = mkMem false [] None) by done.
  split; try setoid_rewrite Hget; simpl; try done.
  - constructor.
  - constructor.
  - set_solver.
  - intros r. split; [done|]. intros (q & c0 & H%Hidle & Hh). by subst.
  - intros p q r (c0 & H%Hidle & Hh). by subst.
  - intros r q. split; [set_solver|]. intros (c0 & H%Hidle & Hh). by subst.
  - constructor.
  - lia.
Qed.

(** A step that moves one task and changes one state object. *)
Lemma inv_update p c0 c r m s :
  inv s -> rc_procs s !! p = Some c0 -> (r < length (rc_heap s))%nat ->
  (forall r', holds c0 r' \/ waits c0 r' \/ holds c r' \/ waits c r' -> r' = r) ->
  (ms_locked m = true <-> holds c r \/ exists q, q <> p /\ holder s q r) ->
  (holds c r -> forall q, q <> p -> ~ holder s q r) ->
  (forall q, q ∈ ms_waiters m <-> (q = p /\ waits c r) \/ (q <> p /\ q ∈ ms_waiters (get_state r s))) ->
  NoDup (ms_waiters m) ->
  inv (set_proc p c (set_state r m s)).
Proof.
  intros Hs Hp Hr Hrefs Hlock Hfree Hwait Hnd.
  assert (Hproc : forall q c', rc_procs (set_proc p c (set_state r m s)) !! q = Some c' <->
    q = p /\ c' = c \/ q <> p /\ rc_procs s !! q = Some c').
  { intros q c'. simpl. apply lookup_lt_Some in Hp. rewrite list_lookup_insert_Some. naive_solver. }
  assert (Hholder : forall q r', holder (set_proc p c (set_state r m s)) q r' <->
    q = p /\ holds c r' \/ q <> p /\ holder s q r').
  { intros q r'. unfold holder. setoid_rewrite Hproc. naive_solver. }
  assert (Hwaiter : forall q r', waiter (set_proc p c (set_state r m s)) q r' <->
    q = p /\ waits c r' \/ q <> p /\ waiter s q r').
  { intros q r'. unfold waiter. setoid_rewrite Hproc. naive_solver. }
  assert (Hget : forall r', get_state r' (set_proc p c (set_state r m s)) =
    if decide (r' = r) then m else get_state r' s).
  { intros r'. change (get_state r' (set_state r m s) = if decide (r' = r) then m else get_state r' s).
    rewrite get_set_state. repeat case_decide; naive_solver. }
  assert (Hold : forall r', r' <> r -> ~ holder s p r' /\ ~ waiter s p r').
  { intros r' Hne. unfold holder, waiter. rewrite Hp. naive_solver. }
  destruct Hs as [H1 H2 H3 H4 H5 H6 H7 H8]. split; try done.
  - intros kv Hkv. simpl. rewrite length_insert. by apply H3.
  - intros r'. rewrite Hget. setoid_rewrite Hholder. case_decide as E; [subst; naive_solver|].
    rewrite H4. specialize (Hold r' E). specialize (Hrefs r'). split.
    + intros [q Hq]. exists q. right. split; [|done]. intros ->. naive_solver.
    + naive_solver.
  - intros q1 q2 r'. rewrite !Hholder. intros [[-> Ha]|[Ha1 Ha2]] [[-> Hb]|[Hb1 Hb2]]; try done.
    + assert (r' = r) as -> by (apply Hrefs; auto). naive_solver.
    + assert (r' = r) as -> by (apply Hrefs; auto). naive_solver.
    + by eapply H5.
  - intros r' q. rewrite Hget, Hwaiter. case_decide as E; [subst; by rewrite Hwait, H6|].
    rewrite H6. specialize (Hold r' E). specialize (Hrefs r'). split.
    + intros Hq. right. split; [|done]. intros ->. naive_solver.
    + naive_solver.
  - intros r'. rewrite Hget. by case_decide.
  - simpl. by rewrite length_insert.
Qed.

Lemma inv_queue q s : inv s -> inv (set_queue q s).
Proof. intros [H1 H2 H3 H4 H5 H6 H7 H8]. by split. Qed.

Lemma inv_event e s : inv s -> inv (add_event e s).
Proof. intros [H1 H2 H3 H4 H5 H6 H7 H8]. by split. Qed.

(** The refs of the tasks that hold a lock. *)
Definition held (s : Consumer) : list nat :=
  omap (fun c => match c with Renewing _ r => Some r | _ => None end) (rc_procs s).

Lemma holder_held s q r : holder s q r -> r ∈ held s.
Proof.
  intros (c & Hq & Hh). apply list_elem_of_omap. exists c. split; [by eapply list_elem_of_lookup_2|].
  destruct c; simpl in *; by subst.
Qed.

Lemma length_omap_le {A B} (f : A -> option B) l : (length (omap f l) <= length l)%nat.
Proof. induction l as [|x l IH]; csimpl; [lia|]. destruct (f x); csimpl; lia. Qed.

(** What evicting leaves is within the bound. *)
Lemma inv_evict s :
  inv (set_mem [] s) -> od_wf (rc_mem_states s) -> NoDup (rc_mem_states s).*2 ->
  (forall kv, kv ∈ rc_mem_states s -> (kv.2 < length (rc_heap s))%nat) ->
  inv (evict_mem_lru_unlocked s).
Proof.
  intros [_ _ _ H4 H5 H6 H7 _] Hwf Hnd Hr. unfold evict_mem_lru_unlocked.
  destruct (mem_evict_spec (rc_max_tracked s) (fun r => ms_locked (get_state r s)) (rc_mem_states s))
    as [[Hsub Hkeep] Hsize]. set (d' := evict_loop _ _ _ _ _ _) in *.
  assert (Hnd' : NoDup d'.*2) by (eapply NoDup_sub; [by apply fmap_submseteq|done]).
  split; try done; simpl.
  - eapply NoDup_sub; [by apply fmap_submseteq|done].
  - intros kv Hkv. apply Hr. by eapply elem_of_submseteq.
  - destruct Hsize as [Hsize|Hall]; [lia|]. assert (length d' <= length (rc_procs s))%nat; [|lia].
    etrans; [|apply (length_omap_le (fun c => match c with Renewing _ r => Some r | _ => None end))].
    rewrite <- (length_fmap snd d'). apply submseteq_length, NoDup_submseteq; [done|].
    intros r ([k r'] & -> & Hin)%list_elem_of_fmap.
    unfold all_locked in Hall. rewrite Forall_forall in Hall. specialize (Hall _ Hin). simpl in *.
    apply H4 in Hall as [q Hq]. by eapply (holder_held s).
Qed.

(** Parts of the consumer that [ensure_mru_mem] leaves alone. *)
Definition same_tasks (s s' : Consumer) : Prop :=
  rc_procs s' = rc_procs s /\ rc_work_queue s' = rc_work_queue s /\ rc_log s' = rc_log s /\
  rc_redis s' = rc_redis s /\ rc_min_interval s' = rc_min_interval s /\
  rc_max_tracked s' = rc_max_tracked s /\ forall r, get_state r s' = get_state r s.

(** A fresh object is what an absent one reads as. *)
Lemma get_state_fresh r s :
  get_state r (set_heap (rc_heap s ++ [mkMem false [] None])%list s) = get_state r s.
Proof.
  unfold get_state. simpl. destruct (decide (r < length (rc_heap s))%nat).
  - by rewrite lookup_app_l.
  - rewrite (lookup_ge_None_2 (rc_heap s)), lookup_app_r by lia.
    by destruct (r - length (rc_heap s))%nat as [|[]].
Qed.

Lemma inv_no_mem s : inv s -> inv (set_mem [] s).
Proof.
  intros [H1 H2 H3 H4 H5 H6 H7 H8]. split; try done; simpl; [constructor|constructor|set_solver|lia].
Qed.

(** There is room for the state of [id]. *)
Definition fits (id : string) (s : Consumer) : Prop :=
  Z.of_nat (length (rc_mem_states s)) + (if od_mem id (rc_mem_states s) then 0 else 1)
    <= rc_max_tracked s.

(** The two branches before the eviction: [d] is the dictionary with the state
    [r] of [id] in it. *)
Lemma ensure_evict id r d h s :
  inv s -> let s1 := set_mem d (set_heap h s) in
  (forall r', get_state r' s1 = get_state r' s) ->
  od_wf d -> NoDup d.*2 -> (forall kv, kv ∈ d -> (kv.2 < length h)%nat) -> (id, r) ∈ d ->
  Z.of_nat (length d) = Z.of_nat (length (rc_mem_states s)) +
    (if od_mem id (rc_mem_states s) then 0 else 1) ->
  (forall k v, k <> id -> (k, v) ∈ d <-> (k, v) ∈ rc_mem_states s) ->
  let s' := evict_mem_lru_unlocked s1 in
  inv s' /\ (r < length (rc_heap s'))%nat /\ same_tasks s s' /\
  (fits id s -> od_get id (rc_mem_states s') = Some r /\
   forall k v, k <> id -> od_get k (rc_mem_states s') = Some v <-> od_get k (rc_mem_states s) = Some v).
Proof.
  intros Hs s1 Hget Hwf Hnd Hr Hin Hlen Hsame. pose proof Hs as [H1 _ _ H4 H5 H6 H7 _].
  split_and!; [|by apply (Hr _ Hin)|done|].
  - apply inv_evict; [|done..]. split; simpl; try done;
      [constructor|constructor|set_solver| | | |lia].
    + intros r'. change (ms_locked (get_state r' s1) = true <-> exists q, holder s q r').
      by rewrite Hget.
    + intros r' q. change (q ∈ ms_waiters (get_state r' s1) <-> waiter s q r'). by rewrite Hget.
    + intros r'. change (NoDup (ms_waiters (get_state r' s1))). by rewrite Hget.
  - intros Hfit. unfold evict_mem_lru_unlocked. cbn [rc_mem_states set_mem].
    rewrite evict_none by (simpl; rewrite Hlen; apply Hfit). simpl.
    split; [by apply od_elem_get|]. intros k v Hk. specialize (Hsame k v Hk).
    split; intros Hv%od_get_elem; apply od_elem_get; naive_solver.
Qed.

Lemma ensure_spec id s :
  inv s ->
  let '(r, s') := ensure_mru_mem id s in
  inv s' /\ (r < length (rc_heap s'))%nat /\ same_tasks s s' /\
  (fits id s -> od_get id (rc_mem_states s') = Some r /\
   forall k v, k <> id -> od_get k (rc_mem_states s') = Some v <-> od_get k (rc_mem_states s) = Some v).
Proof.
  intros Hs. pose proof Hs as [H1 H2 H3 _ _ _ _ _]. unfold ensure_mru_mem.
  destruct (od_get id (rc_mem_states s)) as [r|] eqn:E.
  - pose proof (mem_move_perm id _ H1) as Hp.
    apply (ensure_evict id r (mem_move_to_end id (rc_mem_states s)) (rc_heap s) s Hs).
    + done.
    + unfold od_wf. by rewrite Hp.
    + by rewrite Hp.
    + intros kv Hkv. rewrite Hp in Hkv. by apply H3.
    + rewrite Hp. by apply od_get_elem.
    + rewrite Hp. rewrite (proj2 (od_mem_spec _ _)) by (by rewrite E). lia.
    + intros k v _. by rewrite Hp.
  - set (r := length (rc_heap s)).
    assert (Hset : od_set id r (rc_mem_states s) = (rc_mem_states s ++ [(id, r)])%list)
      by (by apply od_set_new).
    assert (Hw : od_wf (rc_mem_states s ++ [(id, r)])) by (rewrite <- Hset; by apply od_wf_set).
    pose proof (mem_move_perm id _ Hw) as Hp. cbn [rc_mem_states set_heap]. rewrite Hset.
    apply (ensure_evict id r (mem_move_to_end id (rc_mem_states s ++ [(id, r)]))
             (rc_heap s ++ [mkMem false [] None])%list s Hs).
    + intros r'. apply get_state_fresh.
    + unfold od_wf. by rewrite Hp.
    + rewrite Hp, fmap_app. apply NoDup_app. split_and!; [done| |apply NoDup_singleton].
      intros r' (kv & -> & Hkv)%list_elem_of_fmap Hr'. csimpl in *.
      apply list_elem_of_singleton in Hr'. specialize (H3 _ Hkv). unfold r in *. lia.
    + intros kv Hkv. rewrite Hp in Hkv. rewrite length_app. simpl.
      apply elem_of_app in Hkv as [Hkv|Hkv]; [specialize (H3 _ Hkv); lia|].
      apply list_elem_of_singleton in Hkv as ->. simpl. unfold r. lia.
    + rewrite Hp. set_solver.
    + rewrite Hp, length_app. simpl. rewrite (proj2 (od_mem_false _ _)) by done. lia.
    + intros k v Hk. rewrite Hp. set_solver.
Qed.

(** ** Steps *)

Lemma release_set r m s :
  (r < length (rc_heap s))%nat ->
  release r (set_state r m s) = set_state r (mkMem false (ms_waiters m) (ms_last_success m)) s.
Proof.
  intros Hr. unfold release. rewrite get_set_state, decide_True by done.
  unfold set_state, set_heap. simpl. by rewrite list_insert_insert_eq.
Qed.

(** The two ways out of the lock: renewing, or giving it back at once. *)
Lemma lock_and_go_cases now p id r waiters s :
  (r < length (rc_heap s))%nat ->
  let last := ms_last_success (get_state r s) in
  (lock_and_go now p id r waiters s =
     set_proc p (Renewing id r) (set_state r (mkMem true waiters last) (add_event (EStart id now) s)) /\
   (rc_redis s = false -> forall t, last = Some t -> rc_min_interval s <= now - t)) \/
  lock_and_go now p id r waiters s = set_proc p Idle (set_state r (mkMem false waiters last) s).
Proof.
  intros Hr last. unfold lock_and_go, locked_section. rewrite get_set_state, decide_True by done.
  cbn [rc_redis set_state set_heap ms_last_success rc_min_interval]. fold last.
  destruct (rc_redis s); [left; by split|]. destruct last as [t|]; [|left; by split].
  destruct (now - t <? rc_min_interval s) eqn:E; [right; by rewrite release_set|].
  left. split; [done|]. intros _ t' [= ->]. bool_lia.
Qed.

Lemma inv_lock_and_go now p id r waiters c0 s :
  inv s -> rc_procs s !! p = Some c0 -> (r < length (rc_heap s))%nat ->
  (c0 = Idle \/ c0 = WaitingLock id r) ->
  ms_locked (get_state r s) = false ->
  (forall q, q ∈ waiters <-> q <> p /\ q ∈ ms_waiters (get_state r s)) -> NoDup waiters ->
  inv (lock_and_go now p id r waiters s).
Proof.
  intros Hs Hp Hr Hc0 Hl Hw Hnd.
  assert (Hfree : forall q, ~ holder s q r).
  { intros q Hq. assert (ms_locked (get_state r s) = true); [|congruence].
    apply (inv_locked _ Hs). by exists q. }
  destruct (lock_and_go_cases now p id r waiters s Hr) as [[-> _]| ->].
  - eapply inv_update; try done; [by apply inv_event|naive_solver|simpl; naive_solver| |].
    + intros _ q _. apply (Hfree q).
    + intros q. simpl. rewrite Hw. naive_solver.
  - eapply inv_update; try done; [naive_solver|simpl; naive_solver|].
    intros q. simpl. rewrite Hw. naive_solver.
Qed.

Lemma inv_process_work now p work s :
  inv s -> rc_procs s !! p = Some Idle -> inv (process_work now p work s).
Proof.
  intros Hs Hp. unfold process_work. destruct (_ && _); [done|].
  pose proof (ensure_spec (wi_sandbox_id work) s Hs) as He.
  destruct (ensure_mru_mem (wi_sandbox_id work) s) as [r s1].
  destruct He as (Hs1 & Hr & (Hprocs & _) & _). rewrite <- Hprocs in Hp.
  assert (Hpw : p ∉ ms_waiters (get_state r s1)).
  { intros (c & Hc & Hw)%(inv_waiters _ Hs1). rewrite Hp in Hc. naive_solver. }
  destruct (_ && _) eqn:E.
  - rewrite andb_true_iff, negb_true_iff, bool_decide_eq_true in E. destruct E as [E1 E2].
    eapply inv_lock_and_go; try done; [by left| |constructor]. rewrite E2. set_solver.
  - eapply inv_update; try done; simpl.
    + naive_solver.
    + rewrite (inv_locked _ Hs1). split; [|naive_solver]. intros [q Hq]. right. exists q.
      split; [|done]. intros ->. destruct Hq as (c & Hc & Hh). rewrite Hp in Hc. naive_solver.
    + intros q. set_solver.
    + apply NoDup_app. split_and!; [apply (inv_once _ Hs1)|set_solver|apply NoDup_singleton].
Qed.

(** Waiting tasks other than the first one woken. *)
Lemma waiters_tail (p : nat) ws : NoDup (p :: ws) -> forall q, q ∈ ws <-> q <> p /\ q ∈ p :: ws.
Proof. rewrite NoDup_cons. intros [H1 H2] q. set_solver. Qed.

Lemma renewal_done_eq now p id r outcome s :
  (r < length (rc_heap s))%nat ->
  let ok := match outcome with Ok b => b | Raise _ => false end in
  renewal_done now p id r outcome s =
    set_proc p Idle (set_state r (mkMem false (ms_waiters (get_state r s))
      (if negb (rc_redis s) && ok then Some now else ms_last_success (get_state r s)))
      (add_event (EEnd id ok now) s)).
Proof.
  intros Hr ok. unfold renewal_done. fold ok. cbn [rc_redis add_event].
  destruct (negb (rc_redis s) && ok).
  - by rewrite release_set.
  - done.
Qed.

Lemma inv_renewal_done now p id r outcome s :
  inv s -> rc_procs s !! p = Some (Renewing id r) -> inv (renewal_done now p id r outcome s).
Proof.
  intros Hs Hp. assert (Hh : holder s p r) by (by exists (Renewing id r)).
  assert (Hl : ms_locked (get_state r s) = true) by (apply (inv_locked _ Hs); by exists p).
  assert (Hr : (r < length (rc_heap s))%nat) by (by apply get_state_range).
  rewrite renewal_done_eq by done. eapply inv_update; try done; simpl.
  - by apply inv_event.
  - naive_solver.
  - split; [done|]. intros [[]|(q & Hq & Hq2)]. destruct Hq. by eapply (inv_single _ Hs).
  - intros q. split; [|naive_solver]. intros Hq. right. split; [|done]. intros ->.
    apply (inv_waiters _ Hs) in Hq as (c & Hc & Hw). rewrite Hp in Hc. naive_solver.
  - apply (inv_once _ Hs).
Qed.

Lemma step_inv now a s s' : inv s -> step now a s = Some s' -> inv s'.
Proof.
  intros Hs. destruct a as [id|id t|p|p|p outcome]; simpl.
  - intros [= <-]. by apply inv_queue.
  - destruct (rc_redis s); [|done]. intros [= <-]. unfold feed.
    destruct (is_stale now t); [done|]. by apply inv_queue.
  - destruct (rc_procs s !! p) as [[| |]|] eqn:Hp; try done.
    destruct (rc_work_queue s) as [|work q]; [done|]. intros [= <-].
    apply inv_process_work; [by apply inv_queue|done].
  - destruct (rc_procs s !! p) as [[|id r|]|] eqn:Hp; try done.
    destruct (ms_waiters (get_state r s)) as [|q ws] eqn:Hw; [done|].
    destruct (_ && _) eqn:E; [|done]. rewrite andb_true_iff, bool_decide_eq_true, negb_true_iff in E.
    destruct E as [-> E]. intros [= <-].
    pose proof (inv_once _ Hs r) as Hnd. rewrite Hw in Hnd.
    eapply inv_lock_and_go; try done.
    + unfold get_state in Hw. apply not_le. intros Hle. by rewrite lookup_ge_None_2 in Hw.
    + by right.
    + rewrite Hw. by apply waiters_tail.
    + by apply NoDup_cons in Hnd as [_ ?].
  - destruct (rc_procs s !! p) as [[| |id r]|] eqn:Hp; try done. intros [= <-].
    by apply inv_renewal_done.
Qed.

Lemma run_inv h : forall s s', inv s -> run h s = Some s' -> inv s'.
Proof.
  induction h as [|[now a] h IH]; intros s s' Hs; simpl; [by intros [= <-]|].
  destruct (step now a s) as [s1|] eqn:E; [|done]. apply IH. by eapply step_inv.
Qed.

Lemma ensure_ref id s r0 : od_get id (rc_mem_states s) = Some r0 -> (ensure_mru_mem id s).1 = r0.
Proof. intros H. unfold ensure_mru_mem. by rewrite H. Qed.

(** ** Histories in which every sandbox fits *)

(** After a success of a sandbox, its next renewal starts [i] later or more. *)
Definition spaced (i : Z) (log : list event) : Prop :=
  forall l1 l2 id t u, log = (l1 ++ EEnd id true t :: l2)%list -> EStart id u ∈ l2 -> i <= u - t.

Lemma snoc_split {A} (l l1 l2 : list A) x e :
  (l ++ [e] = l1 ++ x :: l2)%list ->
  (l2 = [] /\ x = e /\ l1 = l) \/ exists l3, l2 = (l3 ++ [e])%list /\ l = (l1 ++ x :: l3)%list.
Proof.
  destruct l2 as [|y l2 _] using rev_ind; intros H.
  - apply app_inj_tail in H as [-> ->]. by left.
  - right. exists l2. rewrite app_comm_cons, app_assoc in H. apply app_inj_tail in H as [-> ->]. done.
Qed.

Lemma spaced_end i log id ok now : spaced i log -> spaced i (log ++ [EEnd id ok now]).
Proof.
  intros H l1 l2 id' t u E Hu. apply snoc_split in E as [(-> & _)|(l3 & -> & ->)]; [set_solver|].
  apply elem_of_app in Hu as [Hu|Hu]; [by eapply H|]. by apply list_elem_of_singleton in Hu.
Qed.

Lemma spaced_start i log id now :
  spaced i log -> (forall t, EEnd id true t ∈ log -> i <= now - t) ->
  spaced i (log ++ [EStart id now]).
Proof.
  intros H Hnow l1 l2 id' t u E Hu. apply snoc_split in E as [(-> & _)|(l3 & -> & ->)]; [set_solver|].
  apply elem_of_app in Hu as [Hu|Hu]; [by eapply H|].
  apply list_elem_of_singleton in Hu. simplify_eq. apply Hnow. set_solver.
Qed.

Record tracked (ids : list string) (c : Z) (s : Consumer) : Prop := {
  tr_fit : Z.of_nat (length ids) <= rc_max_tracked s;
  tr_queue : forall w, w ∈ rc_work_queue s -> wi_sandbox_id w ∈ ids;
  tr_mem : forall kv, kv ∈ rc_mem_states s -> kv.1 ∈ ids;
  tr_procs : forall p id r, rc_procs s !! p = Some (WaitingLock id r) \/
    rc_procs s !! p = Some (Renewing id r) -> od_get id (rc_mem_states s) = Some r;
  tr_clock : forall r t, ms_last_success (get_state r s) = Some t -> t <= c;
  tr_last : rc_redis s = false -> forall id t, EEnd id true t ∈ rc_log s ->
    exists r t', od_get id (rc_mem_states s) = Some r /\
      ms_last_success (get_state r s) = Some t' /\ t <= t';
  tr_spaced : rc_redis s = false -> spaced (rc_min_interval s) (rc_log s);
}.

Lemma tracked_fits ids c s id : inv s -> tracked ids c s -> id ∈ ids -> fits id s.
Proof.
  intros Hs [H1 _ H3 _ _ _ _] Hid. unfold fits. pose proof (inv_wf _ Hs) as Hwf.
  assert (Hkeys : forall k, k ∈ (rc_mem_states s).*1 -> k ∈ ids).
  { intros k (kv & -> & Hkv)%list_elem_of_fmap. by apply H3. }
  destruct (od_mem id (rc_mem_states s)) eqn:E.
  - pose proof (submseteq_length _ _ (NoDup_submseteq _ _ Hwf Hkeys)) as Hl.
    rewrite length_fmap in Hl. lia.
  - apply od_mem_false, od_get_None in E.
    assert (Hnd : NoDup (id :: (rc_mem_states s).*1)) by (by constructor).
    assert (Hl : (length (id :: (rc_mem_states s).*1) <= length ids)%nat)
      by (apply submseteq_length, NoDup_submseteq; [done|set_solver]).
    simpl in Hl. rewrite length_fmap in Hl. lia.
Qed.

Lemma tracked_later ids c c' s : c <= c' -> tracked ids c s -> tracked ids c' s.
Proof. intros Hc [H1 H2 H3 H4 H5 H6 H7]. split; try done. intros r t Ht. specialize (H5 r t Ht). lia. Qed.

Lemma tracked_ensure ids c s id :
  inv s -> tracked ids c s -> id ∈ ids ->
  let '(r, s') := ensure_mru_mem id s in
  tracked ids c s' /\ od_get id (rc_mem_states s') = Some r.
Proof.
  intros Hs Ht Hid. pose proof (ensure_spec id s Hs) as He.
  pose proof (tracked_fits ids c s id Hs Ht Hid) as Hf.
  pose proof (ensure_ref id s) as Href.
  destruct (ensure_mru_mem id s) as [r s']. simpl in Href.
  destruct He as (Hs' & _ & (E1 & E2 & E3 & E4 & E5 & E6 & E7) & Hget).
  destruct (Hget Hf) as [Hr Hother]. destruct Ht as [H1 H2 H3 H4 H5 H6 H7].
  assert (Hkeep : forall k v, od_get k (rc_mem_states s) = Some v ->
    od_get k (rc_mem_states s') = Some v).
  { intros k v Hv. destruct (decide (k = id)) as [->|Hk]; [by rewrite Hr, (Href v)|].
    by apply Hother. }
  split; [|done]. split; rewrite ?E1, ?E2, ?E3, ?E4, ?E5, ?E6; try done.
  - intros [k v] Hkv. destruct (decide (k = id)) as [->|Hk]; [done|].
    apply (od_elem_get _ _ _ (inv_wf _ Hs')) in Hkv. apply Hother in Hkv; [|done].
    by apply (H3 (k, v)), od_get_elem.
  - intros p id' r' Hp. by apply Hkeep, (H4 p).
  - intros r' t. rewrite E7. apply H5.
  - intros Hred id' t Hin. destruct (H6 Hred id' t Hin) as (r' & t' & K1 & K2 & K3).
    exists r', t'. rewrite E7. auto.
Qed.

Lemma tracked_update ids c p pc0 r m s :
  tracked ids c s ->
  (forall id r', pc0 = WaitingLock id r' \/ pc0 = Renewing id r' ->
     od_get id (rc_mem_states s) = Some r') ->
  (forall t, ms_last_success (get_state r s) = Some t ->
     exists t', ms_last_success m = Some t' /\ t <= t') ->
  (forall t, ms_last_success m = Some t -> t <= c) ->
  tracked ids c (set_proc p pc0 (set_state r m s)).
Proof.
  intros [H1 H2 H3 H4 H5 H6 H7] Hpc Hup Hclock. split; try done.
  - intros q id r' Hq. simpl in Hq. rewrite !list_lookup_insert_Some in Hq.
    destruct Hq as [[(-> & ? & _)|[_ Hq]]|[(-> & ? & _)|[_ Hq]]]; eauto.
  - intros r' t. change (ms_last_success (get_state r' (set_state r m s)) = Some t -> t <= c).
    rewrite get_set_state. case_decide; [apply Hclock|apply H5].
  - intros Hred id t Hin. destruct (H6 Hred id t Hin) as (r' & t' & K1 & K2 & K3).
    change (exists r0 t0, od_get id (rc_mem_states s) = Some r0 /\
      ms_last_success (get_state r0 (set_state r m s)) = Some t0 /\ t <= t0).
    destruct (decide (r' = r /\ (r' < length (rc_heap s))%nat)) as [Hd|Hd].
    + destruct (Hup t') as (t2 & ? & ?); [by destruct Hd as [<- _]|].
      exists r', t2. rewrite get_set_state, decide_True by done. split_and!; [done..|lia].
    + exists r', t'. by rewrite get_set_state, decide_False.
Qed.

Lemma tracked_start ids c s id now :
  tracked ids c s ->
  (rc_redis s = false -> forall t, EEnd id true t ∈ rc_log s -> rc_min_interval s <= now - t) ->
  tracked ids c (add_event (EStart id now) s).
Proof.
  intros [H1 H2 H3 H4 H5 H6 H7] Hnow. split; try done.
  - intros Hred id' t. simpl. rewrite elem_of_app. intros [Hin|Hin]; [by apply H6|].
    by apply list_elem_of_singleton in Hin.
  - intros Hred. apply spaced_start; [by apply H7|by apply Hnow].
Qed.

Lemma tracked_end ids c s id ok now :
  tracked ids c s ->
  (rc_redis s = false -> ok = true -> exists r t', od_get id (rc_mem_states s) = Some r /\
     ms_last_success (get_state r s) = Some t' /\ now <= t') ->
  tracked ids c (add_event (EEnd id ok now) s).
Proof.
  intros [H1 H2 H3 H4 H5 H6 H7] Hnow. split; try done.
  - intros Hred id' t. simpl. rewrite elem_of_app. intros [Hin|Hin]; [by apply H6|].
    apply list_elem_of_singleton in Hin. simplify_eq. by apply Hnow.
  - intros Hred. apply spaced_end. by apply H7.
Qed.

Lemma tracked_lock_and_go ids c now p id r waiters s :
  tracked ids c s -> (r < length (rc_heap s))%nat -> od_get id (rc_mem_states s) = Some r ->
  tracked ids c (lock_and_go now p id r waiters s).
Proof.
  intros Ht Hr Hid. destruct (lock_and_go_cases now p id r waiters s Hr) as [[-> Hgap]| ->].
  - apply tracked_update; simpl; [|naive_solver|intros t Ht0; exists t; split; [done|lia]|].
    + apply tracked_start; [done|]. intros Hred t Hin.
      destruct (tr_last _ _ _ Ht Hred id t Hin) as (r' & t' & K1 & K2 & K3).
      rewrite Hid in K1. injection K1 as <-. specialize (Hgap Hred t' K2). lia.
    + intros t. apply (tr_clock _ _ _ Ht).
  - apply tracked_update; simpl; [done|naive_solver|intros t Ht0; exists t; split; [done|lia]|]. intros t. apply (tr_clock _ _ _ Ht).
Qed.

Lemma tracked_process_work ids c now p work s :
  inv s -> tracked ids c s -> wi_sandbox_id work ∈ ids ->
  tracked ids c (process_work now p work s).
Proof.
  intros Hs Ht Hid. unfold process_work. destruct (_ && _); [done|].
  pose proof (ensure_spec (wi_sandbox_id work) s Hs) as He.
  pose proof (tracked_ensure ids c s (wi_sandbox_id work) Hs Ht Hid) as Ht1.
  destruct (ensure_mru_mem (wi_sandbox_id work) s) as [r s1].
  destruct He as (Hs1 & Hr & _). destruct Ht1 as [Ht1 Hget].
  destruct (_ && _); [by apply tracked_lock_and_go|].
  apply tracked_update; simpl; [done|naive_solver|intros t Ht0; exists t; split; [done|lia]|]. intros t. apply (tr_clock _ _ _ Ht1).
Qed.

Lemma tracked_renewal_done ids now p id r outcome s :
  inv s -> tracked ids now s -> rc_procs s !! p = Some (Renewing id r) ->
  tracked ids now (renewal_done now p id r outcome s).
Proof.
  intros Hs Ht Hp.
  assert (Hl : ms_locked (get_state r s) = true)
    by (apply (inv_locked _ Hs); exists p; by exists (Renewing id r)).
  assert (Hr : (r < length (rc_heap s))%nat) by (by apply get_state_range).
  rewrite renewal_done_eq by done. set (ok := match outcome with Ok b => b | Raise _ => false end).
  set (m := mkMem _ _ _).
  change (tracked ids now (add_event (EEnd id ok now) (set_proc p Idle (set_state r m s)))).
  pose proof (tr_clock _ _ _ Ht r) as Hclock. apply tracked_end.
  - apply tracked_update; [done|naive_solver| |]; unfold m; simpl.
    + intros t Hlast. destruct (_ && _); [exists now; naive_solver|exists t; split; [done|lia]].
    + intros t. destruct (_ && _); [intros [= <-]; lia|apply Hclock].
  - intros Hred Hok. simpl in Hred. exists r, now. split; [by apply (tr_procs _ _ _ Ht p); auto|].
    split; [|lia]. change (ms_last_success (get_state r (set_state r m s)) = Some now).
    rewrite get_set_state, decide_True by done. unfold m. simpl. by rewrite Hred, Hok.
Qed.

(** The sandbox an action brings in is one of [ids]. *)
Definition names (ids : list string) (a : action) : Prop :=
  match a with ASubmit id | AFeed id _ => id ∈ ids | _ => True end.

Lemma step_tracked ids c now a s s' :
  inv s -> tracked ids c s -> c <= now -> names ids a -> step now a s = Some s' ->
  tracked ids now s'.
Proof.
  intros Hs Ht0 Hc Ha. pose proof (tracked_later _ _ now _ Hc Ht0) as Ht.
  assert (Hput : forall q, (forall w, w ∈ q -> wi_sandbox_id w ∈ ids) -> tracked ids now (set_queue q s)).
  { intros q Hq. destruct Ht. by split. }
  pose proof (tr_queue _ _ _ Ht) as Hq. destruct a as [id|id t|p|p|p outcome]; simpl.
  - intros [= <-]. apply Hput. intros w [Hw|Hw]%elem_of_app; [by apply Hq|].
    apply list_elem_of_singleton in Hw as ->. done.
  - destruct (rc_redis s); [|done]. intros [= <-]. unfold feed.
    destruct (is_stale now t); [done|]. apply Hput. intros w [Hw|Hw]%elem_of_app; [by apply Hq|].
    apply list_elem_of_singleton in Hw as ->. done.
  - destruct (rc_procs s !! p) as [[| |]|] eqn:Hp; try done.
    destruct (rc_work_queue s) as [|work q] eqn:Eq; [done|]. intros [= <-].
    apply tracked_process_work; [by apply inv_queue|apply Hput; set_solver|set_solver].
  - destruct (rc_procs s !! p) as [[|id r|]|] eqn:Hp; try done.
    destruct (ms_waiters (get_state r s)) as [|q ws] eqn:Hw; [done|].
    destruct (_ && _); [|done]. intros [= <-]. apply tracked_lock_and_go; [done| |].
    + unfold get_state in Hw. apply not_le. intros Hle. by rewrite lookup_ge_None_2 in Hw.
    + apply (tr_procs _ _ _ Ht p). by left.
  - destruct (rc_procs s !! p) as [[| |id r]|] eqn:Hp; try done. intros [= <-].
    by apply tracked_renewal_done.
Qed.

(** The clock never goes back, and only sandboxes of [ids] are named. *)
Fixpoint history_ok (ids : list string) (from : Z) (h : list (Z * action)) : Prop :=
  match h with
  | [] => True
  | (now, a) :: h => from <= now /\ names ids a /\ history_ok ids now h
  end.

Lemma run_tracked ids h : forall c s s',
  inv s -> tracked ids c s -> history_ok ids c h -> run h s = Some s' ->
  exists c', tracked ids c' s'.
Proof.
  induction h as [|[now a] h IH]; intros c s s' Hs Ht Hh; simpl; [intros [= <-]; by eauto|].
  destruct Hh as (Hc & Ha & Hh). destruct (step now a s) as [s1|] eqn:E; [|done].
  apply (IH now); [by eapply step_inv|by eapply step_tracked|done].
Qed.

Lemma init_tracked ids redis i m n c :
  Z.of_nat (length ids) <= m -> tracked ids c (init_consumer redis i m n).
Proof.
  intros Hm. split; simpl; try done.
  - set_solver.
  - set_solver.
  - intros p id r [H|H]; by apply lookup_replicate in H as [? _].
  - intros _ id t. set_solver.
  - intros _ l1 l2 id t u H. by destruct l1.
Qed.

Lemma step_config now a s s' : step now a s = Some s' ->
  rc_min_interval s' = rc_min_interval s /\ rc_redis s' = rc_redis s /\
  rc_max_tracked s' = rc_max_tracked s /\ length (rc_procs s') = length (rc_procs s).
Proof.
  assert (Hlock : forall p id r ws s0, let s1 := lock_and_go now p id r ws s0 in
    rc_min_interval s1 = rc_min_interval s0 /\ rc_redis s1 = rc_redis s0 /\
    rc_max_tracked s1 = rc_max_tracked s0 /\ length (rc_procs s1) = length (rc_procs s0)).
  { intros p id r ws s0. unfold lock_and_go, locked_section. cbn zeta.
    repeat case_match; simpl; by rewrite length_insert. }
  destruct a as [id|id t|p|p|p outcome]; simpl.
  - by intros [= <-].
  - destruct (rc_redis s) eqn:E; [|done]. intros [= <-]. unfold feed. by destruct (is_stale now t).
  - destruct (rc_procs s !! p) as [[| |]|]; try done. destruct (rc_work_queue s) as [|work q]; [done|].
    intros [= <-]. unfold process_work. destruct (_ && _); [done|]. unfold ensure_mru_mem.
    destruct (od_get _ _); simpl; (destruct (_ && _); [exact (Hlock _ _ _ _ _)|simpl; by rewrite length_insert]).
  - destruct (rc_procs s !! p) as [[|id r|]|]; try done. destruct (ms_waiters _) as [|q ws]; [done|].
    destruct (_ && _); [|done]. intros [= <-]. apply Hlock.
  - destruct (rc_procs s !! p) as [[| |id r]|]; try done. intros [= <-]. unfold renewal_done.
    destruct (_ && _); simpl; by rewrite length_insert.
Qed.

Lemma run_config h : forall s s', run h s = Some s' ->
  rc_min_interval s' = rc_min_interval s /\ rc_redis s' = rc_redis s /\
  rc_max_tracked s' = rc_max_tracked s /\ length (rc_procs s') = length (rc_procs s).
Proof.
  induction h as [|[now a] h IH]; intros s s'; simpl; [by intros [= <-]|].
  destruct (step now a s) as [s1|] eqn:E; [|done]. intros H%IH. apply step_config in E. naive_solver congruence.
Qed.

(** ** Theorems *)

(** C28: as long as the sandboxes that are accessed fit into the table, the tasks
    never work on one sandbox at the same time, whatever the order in which
    they run. *)
Theorem renewals_exclusive ids redis interval max_tracked concurrency from h s p q id r r' :
  Z.of_nat (length ids) <= max_tracked -> history_ok ids from h ->
  run h (init_consumer redis interval max_tracked concurrency) = Some s ->
  rc_procs s !! p = Some (Renewing id r) -> rc_procs s !! q = Some (Renewing id r') -> p = q.
Proof.
  intros Hfit Hh Hrun Hp Hq. pose proof (run_inv _ _ _ (init_inv _ _ _ _) Hrun) as Hs.
  destruct (run_tracked ids h from _ _ (init_inv _ _ _ _) (init_tracked _ _ _ _ _ _ Hfit) Hh Hrun)
    as [c Ht].
  pose proof (tr_procs _ _ _ Ht p id r (or_intror Hp)) as H1.
  rewrite (tr_procs _ _ _ Ht q id r' (or_intror Hq)) in H1. injection H1 as ->.
  eapply (inv_single _ Hs); by eexists.
Qed.

(** Without Redis, and as long as the sandboxes fit into the table, a sandbox
    that was renewed is left alone for [min_interval]: no later renewal of it
    starts earlier, in any interleaving of the tasks. *)
Theorem renewals_throttled ids interval max_tracked concurrency from h s :
  Z.of_nat (length ids) <= max_tracked -> history_ok ids from h ->
  run h (init_consumer false interval max_tracked concurrency) = Some s ->
  forall l1 l2 id t u, rc_log s = (l1 ++ EEnd id true t :: l2)%list -> EStart id u ∈ l2 ->
    interval <= u - t.
Proof.
  intros Hfit Hh Hrun.
  destruct (run_tracked ids h from _ _ (init_inv _ _ _ _) (init_tracked _ _ _ _ _ _ Hfit) Hh Hrun)
    as [c Ht]. destruct (run_config _ _ _ Hrun) as (Hi & Hr & _).
  pose proof (tr_spaced _ _ _ Ht Hr) as Hsp. by rewrite Hi in Hsp.
Qed.

(** The table is bounded whatever is accessed: it never holds more than
    [max_tracked] states, or one per task if there are more tasks than that;
    and no task is stuck: when one waits, a renewal is running on the same
    state or the first one waiting for it can go on. *)
Theorem renew_table_bounded redis interval max_tracked concurrency h s :
  run h (init_consumer redis interval max_tracked concurrency) = Some s ->
  Z.of_nat (length (rc_mem_states s)) <= Z.max max_tracked (Z.max 1 concurrency) /\
  forall p id r, rc_procs s !! p = Some (WaitingLock id r) ->
    (exists q id', rc_procs s !! q = Some (Renewing id' r)) \/
    (exists q, forall now, is_Some (step now (AWake q) s)).
Proof.
  intros Hrun. pose proof (run_inv _ _ _ (init_inv _ _ _ _) Hrun) as Hs.
  destruct (run_config _ _ _ Hrun) as (_ & _ & Hm & Hl). split.
  - pose proof (inv_size _ Hs) as Hsize. rewrite Hm, Hl in Hsize. simpl in Hsize.
    rewrite length_replicate in Hsize. lia.
  - intros p id r Hp. assert (Hw : p ∈ ms_waiters (get_state r s)).
    { apply (inv_waiters _ Hs). by exists (WaitingLock id r). }
    destruct (ms_locked (get_state r s)) eqn:El.
    + left. apply (inv_locked _ Hs) in El as (q & c & Hq & Hh). exists q.
      destruct c; simpl in Hh; try done. subst. by eexists.
    + right. destruct (ms_waiters (get_state r s)) as [|q ws] eqn:Ew; [set_solver|]. exists q.
      assert (Hq : q ∈ ms_waiters (get_state r s)) by (rewrite Ew; set_solver).
      apply (inv_waiters _ Hs) in Hq as (c & Hq & Hwait). destruct c as [|id' r'|]; try done.
      simpl in Hwait. subst r'. intros now. simpl. rewrite Hq, Ew, El, bool_decide_true by done. by eexists.
Qed.

(** Two accesses to one sandbox, worked off by two tasks. *)
Definition demo_history : list (Z * action) :=
  [(0, ASubmit "a"); (0, ASubmit "a"); (1, ATake 0); (1, ATake 1); (5, ADone 0 (Ok true));
   (6, AWake 1); (70, ASubmit "a"); (70, ATake 0)].

Lemma renewals_exclusive_witness :
  exists s, run demo_history (init_consumer false 60 8192 2) = Some s /\
    rc_log s = [EStart "a" 1; EEnd "a" true 5; EStart "a" 70] /\
    rc_procs s !! 0%nat = Some (Renewing "a" 0) /\
    forall q r', rc_procs s !! q = Some (Renewing "a" r') -> 0%nat = q.
Proof.
  eexists. split; [vm_compute; reflexivity|]. split; [reflexivity|]. split; [reflexivity|].
  intros q r' Hq.
  apply (renewals_exclusive ["a"] false 60 8192 2 0 demo_history _ 0 q "a" 0 r'
           ltac:(simpl; lia) ltac:(simpl; set_solver by lia)
           ltac:(vm_compute; reflexivity) ltac:(reflexivity) Hq).
Defined.

Lemma renewals_throttled_witness :
  exists s, run demo_history (init_consumer false 60 8192 2) = Some s /\
    forall l1 l2 id t u, rc_log s = (l1 ++ EEnd id true t :: l2)%list -> EStart id u ∈ l2 ->
      60 <= u - t.
Proof.
  eexists. split; [vm_compute; reflexivity|].
  apply (renewals_throttled ["a"] 60 8192 2 0 demo_history _
           ltac:(simpl; lia) ltac:(simpl; set_solver by lia) ltac:(vm_compute; reflexivity)).
Defined.

Lemma renew_table_bounded_witness :
  exists s, run demo_history (init_consumer false 60 8192 2) = Some s /\
    Z.of_nat (length (rc_mem_states s)) <= Z.max 8192 (Z.max 1 2) /\
    forall p id r, rc_procs s !! p = Some (WaitingLock id r) ->
      (exists q id', rc_procs s !! q = Some (Renewing id' r)) \/
      (exists q, forall now, is_Some (step now (AWake q) s)).
Proof.
  eexists. split; [vm_compute; reflexivity|].
  apply (renew_table_bounded false 60 8192 2 demo_history). vm_compute. reflexivity.
Defined.

(** The condition is needed.  Between the release of a lock and the moment its
    first waiter runs, the lock counts as free and its state can be evicted;
    the next access makes a new one, and two tasks renew the sandbox at once.
    Shown with a table of one entry. *)
Lemma evicted_waiter_races :
  exists s, run [(0, ASubmit "a"); (0, ASubmit "a"); (0, ASubmit "b"); (0, ASubmit "a");
                 (1, ATake 0); (1, ATake 1); (2, ADone 0 (Ok false)); (2, ATake 0);
                 (3, AWake 1); (3, ATake 2)] (init_consumer false 60 1 3) = Some s /\
    rc_procs s !! 1%nat = Some (Renewing "a" 0) /\ rc_procs s !! 2%nat = Some (Renewing "a" 2).
Proof. eexists. split; [vm_compute; reflexivity|]. done. Qed.

(** ** What a renewal does to a sandbox *)

(** What the service promises: reading changes nothing, a renewal that returns
    sets that sandbox's expiry, one that raises sets none. *)
Class RenewLaws (S : Type) `{!SandboxService S} := {
  expiry : S -> string -> option Z;
  law_get : forall id s, (get_sandbox id s).2 = s /\
    match (get_sandbox id s).1 with Ok sb => sb_expires_at sb = expiry s id | Raise _ => True end;
  law_extend : forall id s, (get_access_renew_extend_seconds id s).2 = s;
  law_renew : forall id e s,
    match renew_expiration id e s with
    | (Ok _, s') => expiry s' id = Some e /\ forall id', id' <> id -> expiry s' id' = expiry s id'
    | (Raise _, s') => forall id', expiry s' id' = expiry s id'
    end;
}.

(** The expiry is the same, or later. *)
Definition not_earlier (o o' : option Z) : Prop :=
  match o with None => o' = None | Some t => exists t', o' = Some t' /\ t <= t' end.

Lemma not_earlier_refl o : not_earlier o o.
Proof. destruct o as [t|]; [exists t; split; [done|lia]|done]. Qed.

(** Renewing on access never shortens the life of any sandbox and never gives
    an expiry to one that has none; when it succeeds, the sandbox lives for the
    configured time from now at least. *)
Theorem renew_never_shortens {S} `{!SandboxService S} `{!RenewLaws S} now id (s : S) :
  wp (try_renew_sync now id) (fun r s' =>
    (forall id', not_earlier (expiry s id') (expiry s' id')) /\
    (r = Ok true -> exists extend t, (get_access_renew_extend_seconds id s).1 = Ok (Some extend) /\
       expiry s' id = Some t /\ now + extend * 1000000 <= t)) s.
Proof.
  assert (Hsame : forall (r : res pyexn bool), r <> Ok true ->
    (forall id', not_earlier (expiry s id') (expiry s id')) /\
    (r = Ok true -> exists extend t, (get_access_renew_extend_seconds id s).1 = Ok (Some extend) /\
       expiry s id = Some t /\ now + extend * 1000000 <= t)).
  { intros r Hr. split; [intros; apply not_earlier_refl|done]. }
  unfold try_renew_sync. wp_step. wp_step. destruct (law_get id s) as [Hs Hsb].
  unfold wp at 1. destruct (get_sandbox id s) as [got s0]. simpl in *. subst s0.
  destruct got as [sb|e]; [|destruct (is_http e); wp_step; by apply Hsame].
  destruct (negb _); [wp_step; by apply Hsame|].
  destruct (sb_expires_at sb) as [current|]; [|wp_step; by apply Hsame].
  symmetry in Hsb. rename Hsb into Ecur.
  wp_step. pose proof (law_extend id s) as Hext. unfold wp at 1.
  destruct (get_access_renew_extend_seconds id s) as [ext s0]. simpl in *. subst s0.
  destruct ext as [[extend|]|e]; [|wp_step; by apply Hsame|by apply Hsame].
  wp_step. wp_step. pose proof (law_renew id (Z.max (now + extend * 1000000) current) s) as Hr.
  unfold wp at 1. destruct (renew_expiration id _ s) as [[[]|e] s1]; wp_step; (split; [|try done]).
  - destruct Hr as [Hid Hother]. intros id'. destruct (decide (id' = id)) as [->|Hne].
    + rewrite Ecur, Hid. eexists. split; [done|lia].
    + rewrite Hother by done. apply not_earlier_refl.
  - intros _. destruct Hr as [Hid _]. exists extend. eexists. split_and!; [done|done|lia].
  - intros id'. rewrite Hr. apply not_earlier_refl.
Qed.

(** A service that keeps its sandboxes in a table and extends by ten minutes. *)
#[global] Instance table_service : SandboxService (gmap string Sandbox) := {|
  get_sandbox := fun id s =>
    (match s !! id with Some sb => Ok sb | None => Raise (HttpExn (HTTPException 404 "NOT_FOUND")) end, s);
  get_access_renew_extend_seconds := fun _ => ret (Some 600);
  renew_expiration := fun id e s =>
    match s !! id with
    | Some sb => (Ok tt, <[id := {| sb_state := sb_state sb; sb_expires_at := Some e |}]> s)
    | None => (Raise (HttpExn (HTTPException 404 "NOT_FOUND")), s)
    end;
|}.

#[global] Instance table_laws : RenewLaws (gmap string Sandbox).
Proof.
  refine {| expiry := fun s id => s !! id ≫= sb_expires_at |}.
  - intros id s. simpl. by destruct (s !! id).
  - done.
  - intros id e s. simpl. destruct (s !! id) as [sb|] eqn:E; [|done].
    split; [by rewrite lookup_insert_eq|]. intros id' Hne. by rewrite lookup_insert_ne.
Defined.

Definition demo_table : gmap string Sandbox :=
  {["a" := {| sb_state := "Running"; sb_expires_at := Some 1000000 |};
    "b" := {| sb_state := "Running"; sb_expires_at := None |}]}.

Lemma renew_never_shortens_witness :
  (try_renew_sync 5000000 "a" demo_table).1 = Ok true /\
  (try_renew_sync 5000000 "b" demo_table).1 = Ok false /\
  wp (try_renew_sync 5000000 "a") (fun r s' =>
    (forall id', not_earlier (expiry demo_table id') (expiry s' id')) /\
    (r = Ok true -> exists extend t,
       (get_access_renew_extend_seconds "a" demo_table).1 = Ok (Some extend) /\
       expiry s' "a" = Some t /\ 5000000 + extend * 1000000 <= t)) demo_table.
Proof.
  split; [vm_compute; reflexivity|]. split; [vm_compute; reflexivity|].
  apply (renew_never_shortens 5000000 "a" demo_table).
Defined.
