(* ===== verification/Tenants.v ===== *)
(** * Tenants and authentication

    [server/opensandbox_server/tenants/] and [middleware/auth.py]: the tenants
    file with its hot reload, the checks made at start-up, and the middleware
    that decides which requests reach the server and as which tenant.

    The TOML reader and the file system are outside: a read of the tenants file
    is a value of [res tenants_error toml].  The provider's lock makes each of its
    operations one step.  The HTTP provider is in TenantHttp.v. *)

From Stdlib Require Import ZArith Lia Ascii String.
From stdpp Require Import base numbers strings gmap list.
From S2P Require Import Prelude PyString Regex.

Open Scope string_scope.
Open Scope Z_scope.

(** ** Data *)

(** What [tomllib.load] produces; dates and floats are [TOther]. *)
Inductive toml :=
  | TString (s : string)
  | TInteger (n : Z)
  | TBoolean (b : bool)
  | TArray (l : list toml)
  | TTable (d : list (string * toml))
  | TOther.

Record TenantEntry := mkTenant {
  te_name : toml;
  te_namespace : string;
  te_api_keys : list string;
}.

Inductive tenants_error := TE_FileNotFound | TE_KeyError | TE_TypeError | TE_ValueError | TE_Other.

(** ** Reading the tenants file *)

(** [d[k]] for the value of a TOML key *)
Definition toml_item (k : string) (v : toml) : res tenants_error toml :=
  match v with
  | TTable d => match od_get k d with Some v => Ok v | None => Raise TE_KeyError end
  | _ => Raise TE_TypeError
  end.

(** [for x in v] *)
Definition toml_iter (v : toml) : res tenants_error (list toml) :=
  match v with
  | TArray l => Ok l
  | TString s => Ok (map (fun c => TString (of_chars [c])) (chars s))
  | TTable d => Ok (map (fun kv => TString kv.1) d)
  | _ => Raise TE_TypeError
  end.

(** The loop over the keys of one tenant; [seen] is [seen_keys]. *)
Fixpoint check_keys (name : toml) (keys : list toml) (seen : list (string * toml))
  : res tenants_error (list string * list (string * toml)) :=
  match keys with
  | [] => Ok ([], seen)
  | TString key :: keys =>
      if (strip key =? "")%string then Raise TE_ValueError
      else if od_mem key seen then Raise TE_ValueError
      else '(ks, seen) ← check_keys name keys (od_set key name seen); Ok (key :: ks, seen)
  | _ :: _ => Raise TE_ValueError
  end.

Definition parse_tenant (raw : toml) (seen : list (string * toml))
  : res tenants_error (TenantEntry * list (string * toml)) :=
  name ← toml_item "name" raw;
  namespace ← toml_item "namespace" raw;
  api_keys ← toml_item "api_keys" raw;
  match namespace with
  | TString ns =>
      if (ns =? "")%string then Raise TE_ValueError
      else
        match api_keys with
        | TArray [] => Raise TE_ValueError
        | TArray keys => '(ks, seen) ← check_keys name keys seen; Ok (mkTenant name ns ks, seen)
        | _ => Raise TE_ValueError
        end
  | _ => Raise TE_ValueError
  end.

Fixpoint parse_tenants (raws : list toml) (seen : list (string * toml)) : res tenants_error (list TenantEntry) :=
  match raws with
  | [] => Ok []
  | raw :: raws =>
      '(e, seen) ← parse_tenant raw seen;
      es ← parse_tenants raws seen;
      Ok (e :: es)
  end.

(** [_parse_tenants_file]; [file] is what reading and decoding the file gave. *)
Definition parse_tenants_file (file : res tenants_error toml) : res tenants_error (list TenantEntry) :=
  data ← file;
  raws ← match data with
         | TTable d => toml_iter (default (TArray []) (od_get "tenants" d))
         | _ => Raise TE_TypeError
         end;
  parse_tenants raws [].

(** [_build_lookup_dict] *)
Definition add_keys (m : gmap string TenantEntry) (e : TenantEntry) : gmap string TenantEntry :=
  foldl (fun m key => <[key := e]> m) m (te_api_keys e).

Definition build_lookup_dict (entries : list TenantEntry) : gmap string TenantEntry :=
  foldl add_keys ∅ entries.

(** ** The file provider *)

Record FileTenantProvider := mkFile {
  fp_lookup : gmap string TenantEntry;
  fp_entries : list TenantEntry;
  fp_ready : bool;
  (** modification time last seen by the watcher thread *)
  fp_last_mtime : option Z;
}.

Definition init_file_provider : FileTenantProvider := mkFile ∅ [] false None.

Definition file_lookup (api_key : string) (p : FileTenantProvider) : option TenantEntry :=
  fp_lookup p !! api_key.

Definition file_list_tenants (p : FileTenantProvider) : list TenantEntry := fp_entries p.

Definition file_load (file : res tenants_error toml) (p : FileTenantProvider)
  : res tenants_error FileTenantProvider :=
  entries ← parse_tenants_file file;
  Ok (mkFile (build_lookup_dict entries) entries true (fp_last_mtime p)).

(** [_reload]: the provider, and the entries the callbacks are called with. *)
Definition file_reload (file : res tenants_error toml) (p : FileTenantProvider)
  : FileTenantProvider * option (list TenantEntry) :=
  match parse_tenants_file file with
  | Ok entries => (mkFile (build_lookup_dict entries) entries (fp_ready p) (fp_last_mtime p), Some entries)
  | Raise TE_FileNotFound => (mkFile ∅ [] (fp_ready p) (fp_last_mtime p), None)
  | Raise _ => (p, None)
  end.

Definition set_mtime (m : option Z) (p : FileTenantProvider) : FileTenantProvider :=
  mkFile (fp_lookup p) (fp_entries p) (fp_ready p) m.

(** One pass of [_watch_loop]: [mtime] is what [stat] gives, and [file] what a
    reload reads, some time later. *)
Definition watch_pass (mtime : option Z) (file : res tenants_error toml) (p : FileTenantProvider)
  : FileTenantProvider :=
  match mtime with
  | None =>
      match fp_last_mtime p with
      | Some _ => set_mtime None (file_reload file p).1
      | None => p
      end
  | Some m =>
      if bool_decide (fp_last_mtime p = Some m) then p
      else (file_reload file (set_mtime (Some m) p)).1
  end.

(** [start]: loading, and the first [stat] of the thread it starts. *)
Definition file_start (file : res tenants_error toml) (mtime : option Z) (p : FileTenantProvider)
  : res tenants_error FileTenantProvider :=
  p ← file_load file p; Ok (set_mtime mtime p).

(** ** Checks at start-up *)

(** [validate_tenant_config] *)
Definition validate_tenant_config (has_tenants : bool) (runtime_type : string) (api_key : option string)
  : res tenants_error unit :=
  if negb has_tenants then Ok tt
  else if (runtime_type =? "docker")%string then Raise TE_ValueError
  else
    match api_key with
    | Some k => if negb (k =? "")%string && negb (strip k =? "")%string then Raise TE_ValueError else Ok tt
    | None => Ok tt
    end.

(** What reading a namespace from the cluster can give. *)
Inductive namespace_read := NsOk | NsStatus (status : Z) | NsError.

Inductive namespace_failure := NsMissing | NsNotAccessible | NsFailed.

Definition classify_read (r : namespace_read) : option namespace_failure :=
  match r with
  | NsOk => None
  | NsStatus s =>
      Some (if s =? 404 then NsMissing
            else if (s =? 401) || (s =? 403) then NsNotAccessible else NsFailed)
  | NsError => Some NsFailed
  end.

(** The loop of [validate_tenant_namespaces]: the namespaces read, in order, and
    the failures with the tenant each is reported for. *)
Fixpoint check_namespaces (read_namespace : string -> namespace_read) (tenants : list TenantEntry)
    (checked : list string) : list string * list (toml * string * namespace_failure) :=
  match tenants with
  | [] => (checked, [])
  | t :: tenants =>
      let ns := te_namespace t in
      if bool_decide (ns ∈ checked) then check_namespaces read_namespace tenants checked
      else
        let '(checked, failures) := check_namespaces read_namespace tenants (checked ++ [ns])%list in
        (checked, match classify_read (read_namespace ns) with
                  | None => failures
                  | Some f => (te_name t, ns, f) :: failures
                  end)
  end.

Definition validate_tenant_namespaces (read_namespace : string -> namespace_read)
    (tenants : list TenantEntry) : res (list (toml * string * namespace_failure)) unit :=
  let '(_, failures) := check_namespaces read_namespace tenants [] in
  match failures with [] => Ok tt | _ => Raise failures end.

(** ** The authentication middleware *)

(** The parts of a request the middleware reads. *)
Record request := { rq_path : string; rq_api_key : option string }.

Inductive lookup_error := TenantProviderUnavailable | OtherLookupError.

(** [TenantProvider.lookup] *)
Definition tenant_lookup := string -> res lookup_error (option TenantEntry).

(** What becomes of a request.  [Forward None] leaves the context variable with
    the current tenant as it was, which is unset for a new request. *)
Inductive auth_outcome :=
  | Forward (tenant_set : option (option TenantEntry))
  | Reject (status : Z) (code : string)
  | Crash.

Definition EXEMPT_PATHS : list string := ["/health"; "/version"; "/docs"; "/redoc"; "/openapi.json"].

Definition any_char (c : ascii) : bool := true.
Definition not_slash (c : ascii) : bool := negb (bool_decide (c = "/"%char)).

(** [(/v1)?/sandboxes/[^/]+/proxy/\d+(/|$)] as a prefix of the path *)
Definition PROXY_PATH_RE : regex :=
  RSeq (ROpt (RString (chars "/v1")))
    (RSeq (RString (chars "/sandboxes/"))
      (RSeq (RPlus not_slash)
        (RSeq (RString (chars "/proxy/"))
          (RSeq (RPlus is_digit)
            (RAlt (RSeq (RChar "/") (RStar (RSet any_char))) (ROpt (RChar "010"))))))).

Definition is_proxy_path (path : string) : bool :=
  negb (is_infix (chars "..") (chars path)) && fullmatch PROXY_PATH_RE (chars path).

Definition load_api_keys (api_key : option string) : list string :=
  match api_key with
  | Some k => if negb (k =? "")%string && negb (strip k =? "")%string then [k] else []
  | None => []
  end.

Definition authenticate_multi_tenant (lookup : tenant_lookup) (api_key : string) : auth_outcome :=
  match lookup api_key with
  | Raise TenantProviderUnavailable => Reject 503 "TENANT_PROVIDER_UNAVAILABLE"
  | Raise OtherLookupError => Crash
  | Ok None => Reject 401 "INVALID_API_KEY"
  | Ok (Some tenant) => Forward (Some (Some tenant))
  end.

Definition authenticate_single_tenant (valid_api_keys : list string) (api_key : string) : auth_outcome :=
  if negb (bool_decide (valid_api_keys = [])) && negb (bool_decide (api_key ∈ valid_api_keys))
  then Reject 401 "INVALID_API_KEY"
  else Forward (Some None).

Definition dispatch (provider : option tenant_lookup) (valid_api_keys : list string) (rq : request)
  : auth_outcome :=
  let is_multi_tenant := match provider with Some _ => true | None => false end in
  if existsb (startswith (rq_path rq)) EXEMPT_PATHS then Forward None
  else if is_proxy_path (rq_path rq) && negb is_multi_tenant then Forward None
  else if negb is_multi_tenant && bool_decide (valid_api_keys = []) then Forward None
  else
    match rq_api_key rq with
    | None | Some "" => Reject 401 "MISSING_API_KEY"
    | Some api_key =>
        match provider with
        | Some lookup => authenticate_multi_tenant lookup api_key
        | None => authenticate_single_tenant valid_api_keys api_key
        end
    end.

(** ** The tenants file *)

Lemma check_keys_ok name keys : forall seen ks seen',
  od_wf seen -> check_keys name keys seen = Ok (ks, seen') ->
  keys = map TString ks /\ NoDup ks /\ (forall k, k ∈ ks -> strip k <> "" /\ k ∉ seen.*1) /\
  od_wf seen' /\ (forall k, k ∈ seen'.*1 <-> k ∈ ks \/ k ∈ seen.*1).
Proof.
  induction keys as [|v keys IH]; intros seen ks seen' Hwf; cbn [check_keys].
  - intros [= <- <-]. split_and!; [done|constructor|set_solver|done|set_solver].
  - destruct v as [key| | | | |]; try done. destruct (strip key =? "")%string eqn:Es; [done|].
    apply String.eqb_neq in Es. destruct (od_mem key seen) eqn:Em; [done|].
    intros ([ks1 seen1] & E & [= <- <-])%res_bind_ok.
    apply od_mem_false, od_get_None in Em.
    destruct (IH _ _ _ (od_wf_set _ _ _ Hwf) E) as (-> & H1 & H2 & H3 & H4).
    assert (Hset : forall k, k ∈ (od_set key name seen).*1 <-> k = key \/ k ∈ seen.*1).
    { intros k. rewrite od_keys_set. case_decide; set_solver. }
    setoid_rewrite Hset in H2. setoid_rewrite Hset in H4. split_and!.
    + done.
    + constructor; [|done]. intros Hin. destruct (H2 key Hin). naive_solver.
    + intros k [->|Hk]%elem_of_cons; [done|]. destruct (H2 k Hk). naive_solver.
    + done.
    + intros k. rewrite H4, elem_of_cons. naive_solver.
Qed.

(** What a read that succeeds says about one tenant. *)
Definition tenant_ok (e : TenantEntry) : Prop :=
  te_namespace e <> "" /\ te_api_keys e <> [] /\ forall k, k ∈ te_api_keys e -> strip k <> "".

Definition all_keys (es : list TenantEntry) : list string := es ≫= te_api_keys.

Lemma parse_tenants_ok raws : forall seen es,
  od_wf seen -> parse_tenants raws seen = Ok es ->
  Forall tenant_ok es /\ NoDup (all_keys es) /\ (forall k, k ∈ all_keys es -> k ∉ seen.*1).
Proof.
  induction raws as [|raw raws IH]; intros seen es Hwf; cbn [parse_tenants].
  - intros [= <-]. split_and!; [constructor|constructor|set_solver].
  - intros ([e seen1] & E & (es1 & E1 & [= <-])%res_bind_ok)%res_bind_ok.
    unfold parse_tenant in E. apply res_bind_ok in E as (name & _ & E).
    apply res_bind_ok in E as (ns & _ & E). apply res_bind_ok in E as (ks & _ & E).
    destruct ns as [ns| | | | |]; try done. destruct (ns =? "")%string eqn:En; [done|].
    apply String.eqb_neq in En.
    assert (exists k0 keys, ks = TArray (k0 :: keys)) as (k0 & keys & ->).
    { destruct ks as [| | |[|k0 keys]| |]; try done. by eauto. }
    apply res_bind_ok in E as ([l seen2] & E & [= <- <-]).
    destruct (check_keys_ok _ _ _ _ _ Hwf E) as (Hl & H1 & H2 & H3 & H4).
    destruct (IH _ _ H3 E1) as (K1 & K2 & K3). split_and!.
    + constructor; [|done]. split_and!; simpl; [done|by destruct l|]. intros k Hk. by apply H2.
    + unfold all_keys. cbn [mbind list_bind]. simpl. apply NoDup_app. split_and!; [done| |done].
      intros k Hk Hk'. apply (K3 k); [done|]. apply H4. by left.
    + unfold all_keys. cbn [mbind list_bind]. simpl. intros k [Hk|Hk]%elem_of_app; [by apply H2|].
      specialize (K3 k Hk). rewrite H4 in K3. naive_solver.
Qed.

Lemma parse_file_ok file es :
  parse_tenants_file file = Ok es -> Forall tenant_ok es /\ NoDup (all_keys es).
Proof.
  unfold parse_tenants_file. intros (data & _ & (raws & _ & E)%res_bind_ok)%res_bind_ok.
  destruct (parse_tenants_ok raws [] es) as (H1 & H2 & _); [constructor|done|done].
Qed.

Lemma add_keys_lookup (e : TenantEntry) (ks : list string) : forall (m : gmap string TenantEntry) (k : string),
  foldl (fun m key => <[key := e]> m) m ks !! k = if decide (k ∈ ks) then Some e else m !! k.
Proof.
  induction ks as [|key ks IH]; intros m k; cbn [foldl].
  - rewrite decide_False; [done|apply not_elem_of_nil].
  - rewrite IH. destruct (decide (k ∈ ks)) as [Hk|Hk].
    + rewrite decide_True; [done|by right].
    + destruct (decide (k = key)) as [->|Hne].
      * rewrite decide_True by left. by rewrite lookup_insert_eq.
      * rewrite decide_False by (by rewrite not_elem_of_cons). by rewrite lookup_insert_ne.
Qed.

Lemma build_lookup es : forall (m : gmap string TenantEntry) (k : string) (e : TenantEntry),
  NoDup (all_keys es) -> (forall k, k ∈ all_keys es -> m !! k = None) ->
  foldl add_keys m es !! k = Some e <-> (e ∈ es /\ k ∈ te_api_keys e) \/ m !! k = Some e.
Proof.
  induction es as [|e0 es IH]; intros m k e Hnd Hm; cbn [foldl]; [set_solver|].
  unfold all_keys in *. cbn [mbind list_bind] in *. simpl in *.
  apply NoDup_app in Hnd as (H1 & H2 & H3). rewrite IH; [|done|].
  - unfold add_keys. rewrite add_keys_lookup. case_decide as Hk.
    + split; [|intros [[[->|He]%elem_of_cons Hke]|Hmk]].
      * intros [[He Hke]|[= ->]]; left; set_solver.
      * by right.
      * destruct (H2 k Hk). apply list_elem_of_bind. by eauto.
      * rewrite Hm in Hmk by set_solver. done.
    + set_solver.
  - intros k' Hk'. unfold add_keys. rewrite add_keys_lookup.
    rewrite decide_False by (intros ?; by apply (H2 k')). apply Hm. set_solver.
Qed.

(** ** Reloading *)

(** The tenants after the given reads of the file: those of the last read that
    succeeded, and none after the file was found missing. *)
Fixpoint tenants_after (reads : list (res tenants_error toml)) (es : list TenantEntry)
  : list TenantEntry :=
  match reads with
  | [] => es
  | file :: reads =>
      tenants_after reads
        match parse_tenants_file file with
        | Ok es' => es'
        | Raise TE_FileNotFound => []
        | Raise _ => es
        end
  end.

Definition reload_all (reads : list (res tenants_error toml)) (p : FileTenantProvider)
  : FileTenantProvider :=
  foldl (fun p file => (file_reload file p).1) p reads.

(** The two fields agree, and no key is ambiguous. *)
Definition provider_ok (p : FileTenantProvider) : Prop :=
  NoDup (all_keys (fp_entries p)) /\ fp_lookup p = build_lookup_dict (fp_entries p) /\
  Forall tenant_ok (fp_entries p).

Lemma reload_ok file p : provider_ok p -> provider_ok (file_reload file p).1.
Proof.
  intros Hp. unfold file_reload. destruct (parse_tenants_file file) as [es|[]] eqn:E; simpl; try done.
  - apply parse_file_ok in E as [H1 H2]. done.
  - split_and!; [constructor|done|constructor].
Qed.

Lemma reload_all_spec reads : forall p,
  provider_ok p -> provider_ok (reload_all reads p) /\
  fp_entries (reload_all reads p) = tenants_after reads (fp_entries p).
Proof.
  induction reads as [|file reads IH]; intros p Hp; simpl; [done|].
  destruct (IH _ (reload_ok file p Hp)) as [H1 H2]. split; [done|]. rewrite H2. f_equal.
  unfold file_reload. by destruct (parse_tenants_file file) as [|[]].
Qed.

Lemma lookup_listed p : provider_ok p -> forall k e,
  file_lookup k p = Some e <-> e ∈ fp_entries p /\ k ∈ te_api_keys e.
Proof.
  intros (H1 & H2 & _) k e. unfold file_lookup. rewrite H2. unfold build_lookup_dict.
  rewrite build_lookup; [|done|by intros; apply lookup_empty]. rewrite lookup_empty. naive_solver.
Qed.

Lemma file_start_ok file mtime p :
  file_start file mtime init_file_provider = Ok p ->
  provider_ok p /\ fp_ready p = true /\ fp_last_mtime p = mtime /\
  parse_tenants_file file = Ok (fp_entries p).
Proof.
  unfold file_start, file_load. intros (p0 & (es0 & E & [= <-])%res_bind_ok & [= <-])%res_bind_ok.
  simpl. pose proof (parse_file_ok _ _ E) as [H1 H2]. done.
Qed.

(** After the server has started and the tenants file was reloaded any
    number of times, a key is looked up as a tenant exactly when that tenant is
    in the last file that could be read and has the key; then no other tenant
    has it, and it is not blank.  A file that is broken changes nothing; a file
    that is deleted invalidates every key. *)
Theorem tenant_lookup_exact file mtime p reads key e :
  file_start file mtime init_file_provider = Ok p ->
  let p' := reload_all reads p in
  let es := tenants_after reads (fp_entries p) in
  file_list_tenants p' = es /\
  (file_lookup key p' = Some e <-> e ∈ es /\ key ∈ te_api_keys e) /\
  (file_lookup key p' = Some e -> strip key <> "" /\ te_namespace e <> "" /\
     forall e', e' ∈ es -> key ∈ te_api_keys e' -> e' = e).
Proof.
  intros [Hp _]%file_start_ok p' es.
  destruct (reload_all_spec reads p Hp) as [Hp' H4]. fold p' es in H4. fold p' in Hp'.
  pose proof (lookup_listed p' Hp') as Hlook. rewrite H4 in Hlook.
  split_and!; [done|apply Hlook|]. intros Hk. pose proof Hk as [He Hke]%Hlook.
  destruct Hp' as (_ & _ & H3). rewrite H4 in H3. rewrite Forall_forall in H3.
  destruct (H3 e He) as (Hns & _ & Hkeys).
  split_and!; [by apply Hkeys|done|]. intros e' He' Hke'.
  assert (Hk' : file_lookup key p' = Some e') by (by apply Hlook). congruence.
Qed.

Definition demo_tenant (name : string) (keys : list string) : toml :=
  TTable [("name", TString name); ("namespace", TString ("ns-" +:+ name));
          ("api_keys", TArray (map TString keys))].
Definition demo_file (ts : list toml) : res tenants_error toml := Ok (TTable [("tenants", TArray ts)]).

Lemma tenant_lookup_exact_witness :
  let file := demo_file [demo_tenant "a" ["k1"; "k2"]; demo_tenant "b" ["k3"]] in
  let reads := [demo_file [demo_tenant "a" ["k1"]; demo_tenant "b" ["k1"]]; Raise TE_Other] in
  exists p, file_start file (Some 7) init_file_provider = Ok p /\
    let p' := reload_all reads p in
    let es := tenants_after reads (fp_entries p) in
    length es = 2%nat /\ file_list_tenants p' = es /\
    (file_lookup "k3" p' = Some (mkTenant (TString "b") "ns-b" ["k3"]) <->
       mkTenant (TString "b") "ns-b" ["k3"] ∈ es /\ "k3" ∈ ["k3"]) /\
    (file_lookup "k3" p' = Some (mkTenant (TString "b") "ns-b" ["k3"]) ->
       strip "k3" <> "" /\ "ns-b" <> "" /\
       forall e', e' ∈ es -> "k3" ∈ te_api_keys e' -> e' = mkTenant (TString "b") "ns-b" ["k3"]).
Proof.
  eexists. split; [vm_compute; reflexivity|]. cbv zeta. split; [vm_compute; reflexivity|].
  apply (tenant_lookup_exact (demo_file [demo_tenant "a" ["k1"; "k2"]; demo_tenant "b" ["k3"]])
    (Some 7)). vm_compute. reflexivity.
Defined.

Lemma watch_pass_seen m file p : fp_last_mtime p = Some m -> watch_pass (Some m) file p = p.
Proof. intros H. unfold watch_pass. by rewrite H, bool_decide_true. Qed.

Lemma watch_passes_seen m file p n :
  fp_last_mtime p = Some m -> Nat.iter n (watch_pass (Some m) file) p = p.
Proof.
  intros H. induction n as [|n IH]; [done|].
  change (watch_pass (Some m) file (Nat.iter n (watch_pass (Some m) file) p) = p).
  rewrite IH. by apply watch_pass_seen.
Qed.

Lemma file_reload_mtime file p : fp_last_mtime (file_reload file p).1 = fp_last_mtime p.
Proof. unfold file_reload. by destruct (parse_tenants_file file) as [|[]]. Qed.

(** A file the watcher has not seen yet is loaded by its next pass, and stays
    loaded while the file does not change. *)
Theorem watch_converges m file es p n :
  parse_tenants_file file = Ok es -> fp_last_mtime p <> Some m ->
  fp_entries (Nat.iter (S n) (watch_pass (Some m) file) p) = es.
Proof.
  intros Hf Hp. rewrite Nat.iter_succ_r, watch_passes_seen; unfold watch_pass;
    rewrite bool_decide_false by done.
  - unfold file_reload. by rewrite Hf.
  - by rewrite file_reload_mtime.
Qed.

(** A change between the load at start-up and the watcher's first [stat] is
    never noticed: every later pass sees the modification time it started with. *)
Lemma change_at_start_missed n :
  let old := demo_file [demo_tenant "a" ["revoked"]] in
  let new := demo_file [demo_tenant "a" ["fresh"]] in
  exists p, file_start old (Some 8) init_file_provider = Ok p /\
    let p' := Nat.iter n (watch_pass (Some 8) new) p in
    is_Some (file_lookup "revoked" p') /\ file_lookup "fresh" p' = None.
Proof.
  eexists. split; [vm_compute; reflexivity|]. cbv zeta.
  rewrite watch_passes_seen by done. split; [by eexists|done].
Qed.

(** ** Start-up checks *)

Lemma check_namespaces_spec read ts : forall checked checked' fs,
  check_namespaces read ts checked = (checked', fs) ->
  (forall ns, ns ∈ checked' <-> ns ∈ checked \/ ns ∈ map te_namespace ts) /\
  (NoDup checked -> NoDup checked') /\
  (fs = [] <-> forall ns, ns ∈ map te_namespace ts -> ns ∉ checked -> read ns = NsOk) /\
  (forall t ns f, (t, ns, f) ∈ fs -> classify_read (read ns) = Some f).
Proof.
  induction ts as [|t ts IH]; intros checked checked' fs; cbn [check_namespaces map].
  - intros [= <- <-]. set_solver.
  - case_bool_decide as Hc.
    + intros E. destruct (IH _ _ _ E) as (H1 & H2 & H3 & H4). split_and!; [|done| |done].
      * intros ns. rewrite H1, elem_of_cons. naive_solver.
      * rewrite H3. split; intros H ns; [|by intros Hin; apply H; right].
        intros [->|Hin]%elem_of_cons; [done|by apply H].
    + destruct (check_namespaces read ts _) as [c1 fs1] eqn:E. intros [= <- <-].
      destruct (IH _ _ _ E) as (H1 & H2 & H3 & H4). split_and!.
      * intros ns. rewrite H1. set_solver.
      * intros Hnd. apply H2. apply NoDup_app. split_and!; [done|set_solver|apply NoDup_singleton].
      * destruct (read (te_namespace t)) eqn:Er; simpl.
        -- rewrite H3. split; intros H ns.
           ++ intros [->|Hin]%elem_of_cons Hn; [done|].
              destruct (decide (ns = te_namespace t)) as [->|]; [done|]. apply H; set_solver.
           ++ intros Hin Hn. apply H; set_solver.
        -- split; [done|]. intros H. rewrite (H (te_namespace t)) in Er; [done|by left|done].
        -- split; [done|]. intros H. rewrite (H (te_namespace t)) in Er; [done|by left|done].
      * intros t' ns f. destruct (classify_read _) eqn:Er; [|by apply H4].
        intros [[= -> -> ->]|Hin]%elem_of_cons; [done|by eapply H4].
Qed.

(** The server starts exactly when every tenant's namespace can be read. *)
Theorem namespaces_checked read ts :
  validate_tenant_namespaces read ts = Ok tt <->
  forall t, t ∈ ts -> read (te_namespace t) = NsOk.
Proof.
  unfold validate_tenant_namespaces. destruct (check_namespaces read ts []) as [c fs] eqn:E.
  destruct (check_namespaces_spec _ _ _ _ _ E) as (_ & _ & H & _).
  transitivity (fs = []); [by destruct fs|]. rewrite H. split.
  - intros Hall t Ht. apply Hall; [|set_solver]. apply list_elem_of_In, in_map, list_elem_of_In, Ht.
  - intros Hall ns Hns _. apply list_elem_of_In, in_map_iff in Hns as (t & <- & Ht).
    by apply Hall, list_elem_of_In.
Qed.

(** ** Who is let in *)

(** The shape of a proxied path, as the middleware's comments put it. *)
Definition proxy_route (path : string) : Prop :=
  is_infix (chars "..") (chars path) = false /\
  exists version id port rest, chars path = (version ++ chars "/sandboxes/" ++ id ++ chars "/proxy/" ++ port ++ rest)%list /\
    (version = [] \/ version = chars "/v1") /\
    id <> [] /\ ("/"%char ∉ id) /\ port <> [] /\ forallb is_digit port = true /\
    (rest = [] \/ rest = ["010"%char] \/ head rest = Some "/"%char).

Lemma not_slash_spec l : forallb not_slash l = true <-> "/"%char ∉ l.
Proof.
  rewrite <- Is_true_true, forallb_True, Forall_forall. unfold not_slash. split.
  - intros H Hin. specialize (H _ Hin). by rewrite bool_decide_true in H.
  - intros H c Hc. rewrite bool_decide_false; [done|]. by intros ->.
Qed.

Lemma is_proxy_path_spec path : is_proxy_path path = true <-> proxy_route path.
Proof.
  unfold is_proxy_path, proxy_route. rewrite andb_true_iff, negb_true_iff.
  apply and_iff_compat_l. rewrite fullmatch_spec. unfold PROXY_PATH_RE, ROpt.
  assert (Hend : forall rest, matches (RAlt (RSeq (RChar "/") (RStar (RSet any_char))) (RAlt REps (RChar "010"))) rest <->
    rest = [] \/ rest = ["010"%char] \/ head rest = Some "/"%char).
  { intros rest. rewrite !alt_spec, eps_spec, char_spec, seq_spec. split.
    - intros [(l1 & l2 & -> & ->%char_spec & _)|[->| ->]]; naive_solver.
    - intros [->|[->|Hh]]; [naive_solver..|]. left. destruct rest as [|c rest]; [done|]. simplify_eq/=.
      exists ["/"%char], rest. rewrite char_spec, star_set_spec. split_and!; [done..|].
      by apply Is_true_true, forallb_True, Forall_forall. }
  split.
  - intros (v & l1 & -> & Hv%alt_spec & H)%seq_spec.
    apply seq_spec in H as (? & l2 & -> & ->%string_spec & H).
    apply seq_spec in H as (id & l3 & -> & [Hid1 Hid2]%plus_spec & H).
    apply seq_spec in H as (? & l4 & -> & ->%string_spec & H).
    apply seq_spec in H as (port & rest & -> & [Hp1 Hp2]%plus_spec & Hrest%Hend).
    rewrite eps_spec, string_spec in Hv. apply not_slash_spec in Hid2. exists v, id, port, rest. done.
  - intros (v & id & port & rest & -> & Hv & Hid1 & Hid2 & Hp1 & Hp2 & Hrest).
    repeat (apply seq_spec; eexists _, _; split; [done|split]).
    + by rewrite alt_spec, eps_spec, string_spec.
    + by apply string_spec.
    + by rewrite plus_spec, not_slash_spec.
    + by apply string_spec.
    + by apply plus_spec.
    + by apply Hend.
Qed.

Definition exempt (rq : request) : Prop :=
  exists p, p ∈ EXEMPT_PATHS /\ chars p `prefix_of` chars (rq_path rq).

Lemma exempt_spec rq : existsb (startswith (rq_path rq)) EXEMPT_PATHS = true <-> exempt rq.
Proof.
  rewrite existsb_exists. unfold exempt. setoid_rewrite startswith_spec.
  by setoid_rewrite list_elem_of_In.
Qed.

(** The key a request carries, if it is not empty. *)
Definition given_key (rq : request) : option string :=
  match rq_api_key rq with
  | Some k => if decide (k = "") then None else Some k
  | None => None
  end.

(** Why a request is let in, and what the current tenant is set to. *)
Inductive admitted (provider : option tenant_lookup) (keys : list string) (rq : request)
  : option (option TenantEntry) -> Prop :=
  | AExempt : exempt rq -> admitted provider keys rq None
  | AProxy : provider = None -> proxy_route (rq_path rq) -> admitted provider keys rq None
  | AOpen : provider = None -> keys = [] -> admitted provider keys rq None
  | AKey k : ~ exempt rq -> provider = None -> ~ proxy_route (rq_path rq) ->
      given_key rq = Some k -> k ∈ keys -> admitted provider keys rq (Some None)
  | ATenant lookup k tenant : ~ exempt rq -> provider = Some lookup ->
      given_key rq = Some k -> lookup k = Ok (Some tenant) ->
      admitted provider keys rq (Some (Some tenant)).

Lemma dispatch_key rq provider keys :
  match rq_api_key rq with
  | None | Some "" => Reject 401 "MISSING_API_KEY"
  | Some api_key =>
      match provider with
      | Some lookup => authenticate_multi_tenant lookup api_key
      | None => authenticate_single_tenant keys api_key
      end
  end =
  match given_key rq with
  | None => Reject 401 "MISSING_API_KEY"
  | Some api_key =>
      match provider with
      | Some lookup => authenticate_multi_tenant lookup api_key
      | None => authenticate_single_tenant keys api_key
      end
  end.
Proof.
  unfold given_key. destruct (rq_api_key rq) as [k|]; [|done]. simpl.
  destruct (decide (k = "")) as [->|Hk]; [done|]. by destruct k.
Qed.

Lemma dispatch_admitted provider keys rq t :
  dispatch provider keys rq = Forward t <-> admitted provider keys rq t.
Proof.
  unfold dispatch. destruct (existsb _ _) eqn:Eex.
  { apply exempt_spec in Eex. split; [intros [= <-]; by apply AExempt|]. by inversion 1. }
  assert (Hex : ~ exempt rq) by (rewrite <- exempt_spec; congruence). rewrite dispatch_key.
  destruct provider as [lookup|]; simpl; rewrite ?andb_false_r, ?andb_true_r.
  - split.
    + destruct (given_key rq) as [k|] eqn:Ek; [|done]. unfold authenticate_multi_tenant.
      destruct (lookup k) as [[e|]|[]] eqn:El; try done. intros [= <-]. by eapply ATenant.
    + inversion 1 as [| | | |? k e _ [= <-] Hk He]; try done. rewrite Hk. unfold authenticate_multi_tenant.
      by rewrite He.
  - destruct (is_proxy_path _) eqn:Ep.
    { apply is_proxy_path_spec in Ep. split; [intros [= <-]; by apply AProxy|]. by inversion 1. }
    assert (Hp : ~ proxy_route (rq_path rq)) by (rewrite <- is_proxy_path_spec; congruence).
    case_bool_decide as Hk0.
    { split; [intros [= <-]; by apply AOpen|]. inversion 1; subst; try done. set_solver. }
    unfold authenticate_single_tenant. rewrite bool_decide_false by done. simpl. split.
    + destruct (given_key rq) as [k|] eqn:Ek; [|done]. case_bool_decide; [|done].
      intros [= <-]. by eapply AKey.
    + inversion 1 as [| | |k _ _ _ Hk Hin|]; try done. rewrite Hk. by rewrite bool_decide_true.
Qed.

(** C17: a request goes through exactly when it is admitted: its path is exempt,
    or, without tenants, it is for the proxy, or no key is configured, or its
    key is the configured one; or, with tenants, the provider knows its key, and
    then it runs as that tenant and no other.  A proxied path has the shape of
    the proxy route, without two dots in a row.  Every other request is answered
    401, or 503 when the provider cannot answer. *)
Theorem auth_gate provider keys rq :
  (forall t, dispatch provider keys rq = Forward t <-> admitted provider keys rq t) /\
  (is_proxy_path (rq_path rq) = true <-> proxy_route (rq_path rq)) /\
  ((forall k lookup, provider = Some lookup -> lookup k <> Raise OtherLookupError) ->
   (forall t, ~ admitted provider keys rq t) ->
   dispatch provider keys rq = Reject 401 "MISSING_API_KEY" \/
   dispatch provider keys rq = Reject 401 "INVALID_API_KEY" \/
   (exists lookup k, provider = Some lookup /\ given_key rq = Some k /\
      lookup k = Raise TenantProviderUnavailable /\
      dispatch provider keys rq = Reject 503 "TENANT_PROVIDER_UNAVAILABLE")).
Proof.
  split_and!; [by apply dispatch_admitted|apply is_proxy_path_spec|].
  intros Hlook Hno. destruct (dispatch provider keys rq) as [t|st code|] eqn:E.
  - by apply dispatch_admitted, Hno in E.
  - revert E. unfold dispatch. rewrite dispatch_key. unfold authenticate_multi_tenant, authenticate_single_tenant.
    repeat (case_match; simplify_eq/=; try done); intros; simplify_eq; naive_solver.
  - exfalso. revert E. unfold dispatch. rewrite dispatch_key. unfold authenticate_multi_tenant, authenticate_single_tenant.
    repeat (case_match; simplify_eq/=; try done); naive_solver.
Qed.

(** C18: with a tenants file, a request that is not for an exempt path goes
    through exactly when it carries a key that the last file that could be read
    lists, and then as the tenant it is listed for; that tenant is the only one
    with the key.  Broken files change nothing, a deleted one keeps everybody
    out. *)
Theorem listed_tenants_only file mtime p reads keys rq t :
  file_start file mtime init_file_provider = Ok p -> ~ exempt rq ->
  let p' := reload_all reads p in
  let es := tenants_after reads (fp_entries p) in
  dispatch (Some (fun k => Ok (file_lookup k p'))) keys rq = Forward t <->
  exists k e, given_key rq = Some k /\ e ∈ es /\ k ∈ te_api_keys e /\ t = Some (Some e) /\
    strip k <> "" /\ te_namespace e <> "" /\ forall e', e' ∈ es -> k ∈ te_api_keys e' -> e' = e.
Proof.
  intros Hstart Hex p' es. rewrite dispatch_admitted.
  assert (Hlook := fun k e => tenant_lookup_exact file mtime p reads k e Hstart).
  cbv zeta in Hlook. fold p' es in Hlook. split.
  - inversion 1 as [| | | |? k e _ [= <-] Hk [= He]]; subst; try done.
    exists k, e. destruct (Hlook k e) as (_ & H1 & H2). naive_solver.
  - intros (k & e & Hk & He & Hke & -> & _). eapply ATenant; [done..|].
    destruct (Hlook k e) as (_ & [_ H] & _). cbn beta. by rewrite H.
Qed.

Lemma listed_tenants_only_witness :
  let file := demo_file [demo_tenant "a" ["k1"]; demo_tenant "b" ["k3"]] in
  let reads := [demo_file [demo_tenant "a" ["k3"]]; Raise TE_ValueError] in
  let rq := {| rq_path := "/v1/sandboxes"; rq_api_key := Some "k3" |} in
  exists p, file_start file (Some 7) init_file_provider = Ok p /\ ~ exempt rq /\
    let p' := reload_all reads p in
    let es := tenants_after reads (fp_entries p) in
    length es = 1%nat /\
    (dispatch (Some (fun k => Ok (file_lookup k p'))) [] rq =
       Forward (Some (Some (mkTenant (TString "a") "ns-a" ["k3"]))) <->
     exists k e, given_key rq = Some k /\ e ∈ es /\ k ∈ te_api_keys e /\
       Some (Some (mkTenant (TString "a") "ns-a" ["k3"])) = Some (Some e) /\
       strip k <> "" /\ te_namespace e <> "" /\ forall e', e' ∈ es -> k ∈ te_api_keys e' -> e' = e).
Proof.
  assert (Hex : ~ exempt {| rq_path := "/v1/sandboxes"; rq_api_key := Some "k3" |}).
  { rewrite <- exempt_spec. done. }
  eexists. split; [vm_compute; reflexivity|]. split; [exact Hex|]. cbv zeta.
  split; [vm_compute; reflexivity|].
  apply (listed_tenants_only (demo_file [demo_tenant "a" ["k1"]; demo_tenant "b" ["k3"]]) (Some 7));
    [vm_compute; reflexivity|exact Hex].
Defined.
