(* ===== verification/TenantHttp.v ===== *)
(** * The HTTP tenant provider

    [server/opensandbox_server/tenants/http_provider.py]: tenants resolved key by
    key at a remote endpoint, with a cache per key and one request at a time per
    key.

    The threads that look keys up interleave between any two accesses to what
    they share: the sections under the provider's lock, the fields of a flight,
    and the request itself.  Flights are objects shared by reference, so they
    are kept in a heap.  The endpoint is outside: each answer is an argument of
    the step that receives it.  Times are rational numbers of seconds. *)

From Stdlib Require Import ZArith QArith Lia Ascii String.
From stdpp Require Import base numbers strings gmap list.
From S2P Require Import Prelude PyString PyCodec Tenants.

Open Scope string_scope.
Open Scope Z_scope.

(** ** Numbers *)

(** A [float]: a rational, an infinity, or not a number. *)
Inductive pyfloat := Fin (q : Q) | PosInf | NegInf | NaN.

(** [x <= y] and [x > y + z] with a finite [x] *)
Definition le_float (x : Q) (y : pyfloat) : bool :=
  match y with Fin y => Qle_bool x y | PosInf => true | NegInf | NaN => false end.
Definition gt_sum (x : Q) (y : pyfloat) (z : Q) : bool :=
  match y with Fin y => negb (Qle_bool x (y + z)) | NegInf => true | PosInf | NaN => false end.

(** Digits of [float(s)]: single underscores may separate them; gives the value,
    the number of digits, and what follows. *)
Fixpoint digit_part (after_digit : bool) (acc : Z) (n : Z) (l : list ascii) : Z * Z * list ascii :=
  match l with
  | c :: l' =>
      if is_digit c then digit_part true (10 * acc + (code c - 48)) (n + 1) l'
      else
        match c, l' with
        | "_"%char, d :: l'' =>
            if after_digit && is_digit d then digit_part true (10 * acc + (code d - 48)) (n + 1) l''
            else (acc, n, l)
        | _, _ => (acc, n, l)
        end
  | [] => (acc, n, [])
  end.

Definition read_sign (l : list ascii) : Z * list ascii :=
  match l with
  | "-"%char :: l => (-1, l)
  | "+"%char :: l => (1, l)
  | _ => (1, l)
  end.

Definition read_exponent (l : list ascii) : option Z :=
  match l with
  | [] => Some 0
  | "e"%char :: l =>
      let '(sgn, l) := read_sign l in
      match digit_part false 0 0 l with
      | (e, n, []) => if n =? 0 then None else Some (sgn * e)
      | _ => None
      end
  | _ => None
  end.

Definition power_of_ten (e : Z) : Q := Qpower (inject_Z 10) e.

(** [float(s)] *)
Definition float_of_str (s : string) : option pyfloat :=
  let '(sgn, l) := read_sign (map lower_char (strip_list is_space (chars s))) in
  if bool_decide (l = chars "inf" \/ l = chars "infinity")
  then Some (if sgn =? 1 then PosInf else NegInf)
  else if bool_decide (l = chars "nan") then Some NaN
  else
    let '(a, n, l) := digit_part false 0 0 l in
    let '(b, m, l) := match l with
                      | "."%char :: l => digit_part false a 0 l
                      | _ => (a, 0, l)
                      end in
    if n + m =? 0 then None
    else e ← read_exponent l; Some (Fin (inject_Z (sgn * b) * power_of_ten (e - m))).

(** ** Answers of the endpoint *)

(** A decoded JSON value. *)
Inductive json :=
  | JNull
  | JBool (b : bool)
  | JNumber (x : pyfloat)
  | JString (s : string)
  | JArray (l : list json)
  | JObject (d : list (string * json)).

Definition truthy (v : json) : bool :=
  match v with
  | JNull => false
  | JBool b => b
  | JNumber (Fin q) => negb (Qeq_bool q 0)
  | JNumber _ => true
  | JString s => negb (s =? "")%string
  | JArray l => match l with [] => false | _ => true end
  | JObject d => match d with [] => false | _ => true end
  end.

(** [float(v)] *)
Definition to_float (v : json) : option pyfloat :=
  match v with
  | JBool b => Some (Fin (if b then 1 else 0))
  | JNumber x => Some x
  | JString s => float_of_str s
  | _ => None
  end.

(** What [self._client.get] does: it raises, or the endpoint answers with a
    status and a body, [None] when the body is not JSON. *)
Inductive exchange := ENetwork | EResponse (status : Z) (body : option json).

(** [_Unauthorized], [TenantProviderUnavailable], any other exception *)
Inductive fetch_error := FUnauthorized | FUnavailable | FOther.

(** [_do_fetch] up to the write to the cache: the tenant and its time to live. *)
Definition read_answer (api_key : string) (x : exchange) : res fetch_error (TenantEntry * pyfloat) :=
  match x with
  | ENetwork => Raise FOther
  | EResponse status body =>
      if status =? 401 then Raise FUnauthorized
      else if negb ((200 <=? status) && (status <? 300)) then Raise FOther
      else
        match body with
        | Some (JObject data) =>
            let namespace := default JNull (od_get "namespace" data) in
            let namespace := if truthy namespace then namespace else JString "" in
            match namespace with
            | JString s =>
                if (strip s =? "")%string then Raise FOther
                else
                  match to_float (default (JNumber (Fin 30)) (od_get "ttl" data)) with
                  | Some ttl => Ok (mkTenant (TString (strip s)) (strip s) [api_key], ttl)
                  | None => Raise FOther
                  end
            | _ => Raise FOther
            end
        | _ => Raise FOther
        end
  end.

(** ** The provider and its threads *)

(** [_CacheEntry] *)
Record CacheEntry := mkCE {
  ce_tenant : TenantEntry;
  ce_fetched_at : Q;
  ce_ttl : pyfloat;
}.

(** [_FlightEvent], with the key it is for as a ghost *)
Record Flight := mkFlight { fl_key : string; fl_set : bool; fl_error : option fetch_error }.

(** Where a thread stands in [lookup]; [now] is its clock reading and [cached]
    the entry it found. *)
Inductive pc :=
  | PNow (k : string) (now : Q)
  | PMiss (k : string) (now : Q) (cached : option CacheEntry)
  | PWait (k : string) (now : Q) (cached : option CacheEntry) (i : nat)
  | PReread (k : string) (now : Q) (cached : option CacheEntry)
  | PLead (k : string) (now : Q) (cached : option CacheEntry) (i : nat)
  | PStore (k : string) (now : Q) (cached : option CacheEntry) (i : nat) (e : TenantEntry) (ttl : pyfloat)
  | PClean (k : string) (now : Q) (cached : option CacheEntry) (i : nat) (r : res fetch_error TenantEntry)
  | PSet (k : string) (now : Q) (cached : option CacheEntry) (i : nat) (r : res fetch_error TenantEntry)
  | PEvict (k : string) (now : Q)
  (** [waited]: the answer is what a waiter found in the cache. *)
  | PDone (k : string) (now : Q) (waited : bool) (r : res lookup_error (option TenantEntry)).

Record HTTPTenantProvider := mkHttp {
  hp_max_stale : Q;
  hp_cache : list (string * CacheEntry);
  hp_inflight : list (string * nat);
  hp_heap : list Flight;
  hp_ready : bool;
  hp_client : bool;
  hp_threads : gmap nat pc;
  (** ghost: every exchange with the endpoint, with the key and the clock
      reading of the lookup it was made for *)
  hp_log : list (string * Q * exchange);
}.

Definition init_http (max_stale : Q) : HTTPTenantProvider :=
  mkHttp max_stale [] [] [] false false ∅ [].

Definition set_cache c (s : HTTPTenantProvider) : HTTPTenantProvider :=
  mkHttp (hp_max_stale s) c (hp_inflight s) (hp_heap s) (hp_ready s) (hp_client s) (hp_threads s) (hp_log s).
Definition set_inflight i (s : HTTPTenantProvider) : HTTPTenantProvider :=
  mkHttp (hp_max_stale s) (hp_cache s) i (hp_heap s) (hp_ready s) (hp_client s) (hp_threads s) (hp_log s).
Definition set_heap h (s : HTTPTenantProvider) : HTTPTenantProvider :=
  mkHttp (hp_max_stale s) (hp_cache s) (hp_inflight s) h (hp_ready s) (hp_client s) (hp_threads s) (hp_log s).
Definition set_open ready client (s : HTTPTenantProvider) : HTTPTenantProvider :=
  mkHttp (hp_max_stale s) (hp_cache s) (hp_inflight s) (hp_heap s) ready client (hp_threads s) (hp_log s).
Definition set_pc (t : nat) (p : pc) (s : HTTPTenantProvider) : HTTPTenantProvider :=
  mkHttp (hp_max_stale s) (hp_cache s) (hp_inflight s) (hp_heap s) (hp_ready s) (hp_client s)
    (<[t := p]> (hp_threads s)) (hp_log s).
Definition add_exchange x (s : HTTPTenantProvider) : HTTPTenantProvider :=
  mkHttp (hp_max_stale s) (hp_cache s) (hp_inflight s) (hp_heap s) (hp_ready s) (hp_client s)
    (hp_threads s) (hp_log s ++ [x])%list.

(** ** Operations *)

(** [list_tenants]; an entry's name is its namespace. *)
Definition http_list_tenants (s : HTTPTenantProvider) : list TenantEntry :=
  (foldl (fun seen kv => od_set (te_namespace (ce_tenant kv.2)) (ce_tenant kv.2) seen) [] (hp_cache s)).*2.

Definition http_start (s : HTTPTenantProvider) : HTTPTenantProvider := set_open true true s.

(** [close]: its locked section, then the client. *)
Definition http_close_cache (s : HTTPTenantProvider) : HTTPTenantProvider :=
  set_cache [] (set_open false (hp_client s) s).
Definition http_close_client (s : HTTPTenantProvider) : HTTPTenantProvider :=
  set_open (hp_ready s) false s.

(** The end of [lookup], once [_fetch_and_cache] returned or raised. *)
Definition lookup_tail (max_stale : Q) (k : string) (now : Q) (cached : option CacheEntry)
    (waited : bool) (r : res fetch_error TenantEntry) : pc :=
  match r with
  | Ok tenant => PDone k now waited (Ok (Some tenant))
  | Raise FUnauthorized =>
      match cached with
      | Some _ => PEvict k now
      | None => PDone k now waited (Ok None)
      end
  | Raise _ =>
      match cached with
      | Some c =>
          let age := (now - ce_fetched_at c)%Q in
          if gt_sum age (ce_ttl c) max_stale then PDone k now waited (Raise TenantProviderUnavailable)
          else PDone k now false (Ok (Some (ce_tenant c)))
      | None => PDone k now waited (Raise TenantProviderUnavailable)
      end
  end.

(** [cached = self._cache.get(api_key)] and the test of its age *)
Definition do_lookup (t : nat) (k : string) (now : Q) (s : HTTPTenantProvider) : HTTPTenantProvider :=
  match od_get k (hp_cache s) with
  | Some c =>
      if le_float (now - ce_fetched_at c) (ce_ttl c)
      then set_pc t (PDone k now false (Ok (Some (ce_tenant c)))) s
      else set_pc t (PMiss k now (Some c)) s
  | None => set_pc t (PMiss k now None) s
  end.

(** The first locked section of [_fetch_and_cache] *)
Definition do_join (t : nat) (k : string) (now : Q) (cached : option CacheEntry)
    (s : HTTPTenantProvider) : HTTPTenantProvider :=
  match od_get k (hp_inflight s) with
  | Some i => set_pc t (PWait k now cached i) s
  | None =>
      let i := length (hp_heap s) in
      set_pc t (PLead k now cached i)
        (set_inflight (od_set k i (hp_inflight s))
           (set_heap (hp_heap s ++ [mkFlight k false None])%list s))
  end.

Definition flight_upd (i : nat) (f : Flight -> Flight) (s : HTTPTenantProvider) : HTTPTenantProvider :=
  set_heap (alter f i (hp_heap s)) s.

(** A waiter after [flight.wait]: it looks at [flight.error]. *)
Definition do_wake (t : nat) (k : string) (now : Q) (cached : option CacheEntry) (f : Flight)
    (s : HTTPTenantProvider) : HTTPTenantProvider :=
  match fl_error f with
  | Some e => set_pc t (lookup_tail (hp_max_stale s) k now cached false (Raise e)) s
  | None => set_pc t (PReread k now cached) s
  end.

Definition do_reread (t : nat) (k : string) (now : Q) (cached : option CacheEntry)
    (s : HTTPTenantProvider) : HTTPTenantProvider :=
  match od_get k (hp_cache s) with
  | Some c => set_pc t (lookup_tail (hp_max_stale s) k now cached true (Ok (ce_tenant c))) s
  | None => set_pc t (lookup_tail (hp_max_stale s) k now cached false (Raise FUnavailable)) s
  end.

(** The leader's exchange; [except Exception as e: flight.error = e]. *)
Definition do_fetch (t : nat) (k : string) (now : Q) (cached : option CacheEntry) (i : nat) (x : exchange)
    (s : HTTPTenantProvider) : HTTPTenantProvider :=
  let fail e s := set_pc t (PClean k now cached i (Raise e))
                    (flight_upd i (fun f => mkFlight (fl_key f) (fl_set f) (Some e)) s) in
  if negb (hp_client s) then fail FOther s
  else
    let s := add_exchange (k, now, x) s in
    match read_answer k x with
    | Ok (tenant, ttl) => set_pc t (PStore k now cached i tenant ttl) s
    | Raise e => fail e s
    end.

Definition do_store (t : nat) (k : string) (now : Q) (cached : option CacheEntry) (i : nat)
    (tenant : TenantEntry) (ttl : pyfloat) (s : HTTPTenantProvider) : HTTPTenantProvider :=
  set_pc t (PClean k now cached i (Ok tenant))
    (set_cache (od_set k (mkCE tenant now ttl) (hp_cache s)) s).

(** The [finally] block: the flight is removed, then set. *)
Definition do_clean (t : nat) (k : string) (now : Q) (cached : option CacheEntry) (i : nat)
    (r : res fetch_error TenantEntry) (s : HTTPTenantProvider) : HTTPTenantProvider :=
  set_pc t (PSet k now cached i r) (set_inflight (od_del k (hp_inflight s)) s).

Definition do_set (t : nat) (k : string) (now : Q) (cached : option CacheEntry) (i : nat)
    (r : res fetch_error TenantEntry) (s : HTTPTenantProvider) : HTTPTenantProvider :=
  set_pc t (lookup_tail (hp_max_stale s) k now cached false r)
    (flight_upd i (fun f => mkFlight (fl_key f) true (fl_error f)) s).

Definition do_evict (t : nat) (k : string) (now : Q) (s : HTTPTenantProvider)
  : HTTPTenantProvider :=
  set_pc t (PDone k now false (Ok None)) (set_cache (od_del k (hp_cache s)) s).

Inductive action :=
  | AStart | ACloseCache | ACloseClient
  | ALookup (t : nat) (k : string) (now : Q)       (** [now = time.monotonic()] *)
  | ATimeout (t : nat)                             (** [flight.wait] gives up *)
  | AExchange (t : nat) (x : exchange)             (** the endpoint's answer arrives *)
  | AGo (t : nat).                                 (** the thread's next step *)

Definition idle (o : option pc) : bool :=
  match o with None | Some (PDone _ _ _ _) => true | _ => false end.

(** [None]: the step is not enabled. *)
Definition exec (a : action) (s : HTTPTenantProvider) : option HTTPTenantProvider :=
  match a with
  | AStart => Some (http_start s)
  | ACloseCache => Some (http_close_cache s)
  | ACloseClient => Some (http_close_client s)
  | ALookup t k now => if idle (hp_threads s !! t) then Some (set_pc t (PNow k now) s) else None
  | ATimeout t =>
      match hp_threads s !! t with
      | Some (PWait k now cached i) => f ← hp_heap s !! i; Some (do_wake t k now cached f s)
      | _ => None
      end
  | AExchange t x =>
      match hp_threads s !! t with
      | Some (PLead k now cached i) => Some (do_fetch t k now cached i x s)
      | _ => None
      end
  | AGo t =>
      match hp_threads s !! t with
      | Some (PNow k now) => Some (do_lookup t k now s)
      | Some (PMiss k now cached) => Some (do_join t k now cached s)
      | Some (PWait k now cached i) =>
          f ← hp_heap s !! i; if fl_set f then Some (do_wake t k now cached f s) else None
      | Some (PReread k now cached) => Some (do_reread t k now cached s)
      | Some (PStore k now cached i e ttl) => Some (do_store t k now cached i e ttl s)
      | Some (PClean k now cached i r) => Some (do_clean t k now cached i r s)
      | Some (PSet k now cached i r) => Some (do_set t k now cached i r s)
      | Some (PEvict k now) => Some (do_evict t k now s)
      | _ => None
      end
  end.

(** Any interleaving of any number of lookups. *)
Inductive reachable (max_stale : Q) : HTTPTenantProvider -> Prop :=
  | reach_init : reachable max_stale (init_http max_stale)
  | reach_step a s s' : reachable max_stale s -> exec a s = Some s' -> reachable max_stale s'.

(** ** Invariants *)

(** The entry is what the endpoint answered for the key. *)
Definition sourced (log : list (string * Q * exchange)) (k : string) (c : CacheEntry) : Prop :=
  exists x, (k, ce_fetched_at c, x) ∈ log /\ read_answer k x = Ok (ce_tenant c, ce_ttl c).

(** The endpoint answered 401 for the key. *)
Definition refused (log : list (string * Q * exchange)) (k : string) : Prop :=
  exists now body, (k, now, EResponse 401 body) ∈ log.

Definition in_time (max_stale now : Q) (c : CacheEntry) : Prop :=
  ce_fetched_at c = now \/ le_float (now - ce_fetched_at c) (ce_ttl c) = true \/
  gt_sum (now - ce_fetched_at c) (ce_ttl c) max_stale = false.

(** What a lookup may answer. *)
Definition answer_ok (max_stale : Q) log (k : string) (now : Q) (waited : bool)
    (r : res lookup_error (option TenantEntry)) : Prop :=
  match r with
  | Ok (Some e) => exists c, sourced log k c /\ ce_tenant c = e /\ (waited = true \/ in_time max_stale now c)
  | Ok None => refused log k
  | Raise e => e = TenantProviderUnavailable
  end.

Definition fetched_ok log (k : string) (now : Q) (r : res fetch_error TenantEntry) : Prop :=
  match r with
  | Ok e => exists ttl, sourced log k (mkCE e now ttl)
  | Raise FUnauthorized => refused log k
  | Raise _ => True
  end.

Definition cached_ok log (k : string) (cached : option CacheEntry) : Prop :=
  forall c, cached = Some c -> sourced log k c.

(** What a thread knows. *)
Definition pc_ok (max_stale : Q) log (p : pc) : Prop :=
  match p with
  | PNow _ _ => True
  | PMiss k _ cached | PWait k _ cached _ | PReread k _ cached | PLead k _ cached _ => cached_ok log k cached
  | PStore k now cached _ e ttl => cached_ok log k cached /\ sourced log k (mkCE e now ttl)
  | PClean k now cached _ r | PSet k now cached _ r => cached_ok log k cached /\ fetched_ok log k now r
  | PEvict k _ => refused log k
  | PDone k now waited r => answer_ok max_stale log k now waited r
  end.

Definition honest (s : HTTPTenantProvider) : Prop :=
  (forall k c, od_get k (hp_cache s) = Some c -> sourced (hp_log s) k c) /\
  (forall i f, hp_heap s !! i = Some f -> fl_error f = Some FUnauthorized -> refused (hp_log s) (fl_key f)) /\
  (forall t p, hp_threads s !! t = Some p -> pc_ok (hp_max_stale s) (hp_log s) p).

(** The flight a thread waits for, is responsible for, or is listed for. *)
Definition waits_for (p : pc) : option (string * nat) :=
  match p with PWait k _ _ i => Some (k, i) | _ => None end.
Definition holds (p : pc) : option (string * nat) :=
  match p with
  | PLead k _ _ i | PStore k _ _ i _ _ | PClean k _ _ i _ | PSet k _ _ i _ => Some (k, i)
  | _ => None
  end.
Definition leads (p : pc) : option (string * nat) :=
  match p with PSet _ _ _ _ _ => None | _ => holds p end.

Record flights (s : HTTPTenantProvider) : Prop := {
  f_wf : od_wf (hp_inflight s);
  f_key : forall t p k i, hp_threads s !! t = Some p -> holds p = Some (k, i) \/ waits_for p = Some (k, i) ->
    exists f, hp_heap s !! i = Some f /\ fl_key f = k;
  f_unique : forall t1 t2 p1 p2 k1 k2 i, hp_threads s !! t1 = Some p1 -> hp_threads s !! t2 = Some p2 ->
    holds p1 = Some (k1, i) -> holds p2 = Some (k2, i) -> t1 = t2;
  f_leads : forall t p k i, hp_threads s !! t = Some p -> leads p = Some (k, i) ->
    od_get k (hp_inflight s) = Some i;
  f_listed : forall k i, od_get k (hp_inflight s) = Some i ->
    exists t p, hp_threads s !! t = Some p /\ leads p = Some (k, i);
  f_wait : forall t p k i f, hp_threads s !! t = Some p -> waits_for p = Some (k, i) ->
    hp_heap s !! i = Some f -> fl_set f = false ->
    exists t' p', hp_threads s !! t' = Some p' /\ holds p' = Some (k, i);
}.

Lemma leads_holds p x : leads p = Some x -> holds p = Some x.
Proof. by destruct p. Qed.

Lemma sourced_more log log' k c : sourced log k c -> sourced (log ++ log') k c.
Proof. intros (x & H1 & H2). exists x. split; [|done]. by apply elem_of_app; left. Qed.
Lemma refused_more log log' k : refused log k -> refused (log ++ log') k.
Proof. intros (n & b & H). exists n, b. by apply elem_of_app; left. Qed.
#[local] Hint Resolve sourced_more refused_more : osb.

Lemma cached_more log log' k c : cached_ok log k c -> cached_ok (log ++ log') k c.
Proof. intros H c' Hc. by apply sourced_more, H. Qed.
Lemma fetched_more log log' k now r : fetched_ok log k now r -> fetched_ok (log ++ log') k now r.
Proof. destruct r as [e|[]]; simpl; [intros (ttl & H)|..]; eauto with osb. Qed.
Lemma answer_more m log log' k now w r : answer_ok m log k now w r -> answer_ok m (log ++ log') k now w r.
Proof.
  destruct r as [[e|]|e]; simpl; [|eauto with osb|done]. intros (c & H1 & H2 & H3).
  exists c. eauto with osb.
Qed.
#[local] Hint Resolve cached_more fetched_more answer_more : osb.

Lemma pc_more m log log' p : pc_ok m log p -> pc_ok m (log ++ log') p.
Proof. destruct p; simpl; intuition eauto with osb. Qed.

Lemma refused_answer k x : read_answer k x = Raise FUnauthorized -> exists body, x = EResponse 401 body.
Proof.
  destruct x as [|st body]; [done|]. cbn [read_answer]. destruct (Z.eqb_spec st 401) as [->|]; [by eauto|].
  repeat (case_match; try done).
Qed.

Lemma tail_ok m log k now cached r :
  cached_ok log k cached -> fetched_ok log k now r -> pc_ok m log (lookup_tail m k now cached false r).
Proof.
  intros Hc Hr. destruct r as [e|e]; simpl.
  - destruct Hr as [ttl Hr]. exists (mkCE e now ttl). split_and!; [done..|]. right. by left.
  - destruct e; simpl in *; destruct cached as [c|]; simpl; try done.
    + destruct (gt_sum _ _ _) eqn:Eg; simpl; [done|]. exists c. split_and!; [by apply Hc|done|].
      right. right. by right.
    + destruct (gt_sum _ _ _) eqn:Eg; simpl; [done|]. exists c. split_and!; [by apply Hc|done|].
      right. right. by right.
Qed.

(** A step that changes one thread and keeps the cache, the flights and the log. *)
Lemma honest_pc t p s : honest s -> pc_ok (hp_max_stale s) (hp_log s) p -> honest (set_pc t p s).
Proof.
  intros (H1 & H2 & H3) Hp. split_and!; simpl; [done|done|].
  intros t' p' [[<- <-]|[_ H]]%lookup_insert_Some; [done|by eapply H3].
Qed.

Lemma honest_heap h s :
  honest s -> (forall i f, h !! i = Some f -> fl_error f = Some FUnauthorized -> refused (hp_log s) (fl_key f)) ->
  honest (set_heap h s).
Proof. intros (H1 & H2 & H3) Hh. by split_and!. Qed.

Lemma honest_inflight l s : honest s -> honest (set_inflight l s).
Proof. intros (H1 & H2 & H3). by split_and!. Qed.

Lemma honest_cache c s :
  honest s -> (forall k e, od_get k c = Some e -> sourced (hp_log s) k e) -> honest (set_cache c s).
Proof. intros (H1 & H2 & H3) Hc. by split_and!. Qed.

Lemma honest_log x s : honest s -> honest (add_exchange x s).
Proof.
  intros (H1 & H2 & H3). split_and!; simpl; eauto with osb. intros t p Hp. apply pc_more. by eapply H3.
Qed.

Lemma alter_elem i g (h : list Flight) (P : Flight -> Prop) :
  (forall j f, h !! j = Some f -> P f) -> (forall f, h !! i = Some f -> P (g f)) ->
  forall j f, alter g i h !! j = Some f -> P f.
Proof.
  intros Hh Hg j f. destruct (decide (i = j)) as [<-|Hne].
  - rewrite list_lookup_alter_eq. intros (f0 & Hf & ->)%fmap_Some. by apply Hg.
  - rewrite list_lookup_alter_ne by done. by apply Hh.
Qed.

Lemma honest_flight i g s :
  honest s ->
  (forall f, hp_heap s !! i = Some f -> fl_error (g f) = Some FUnauthorized -> refused (hp_log s) (fl_key (g f))) ->
  honest (flight_upd i g s).
Proof.
  intros H Hg. apply honest_heap; [done|].
  apply (alter_elem i g _ (fun f => fl_error f = Some FUnauthorized -> refused (hp_log s) (fl_key f))); [|done].
  by apply H.
Qed.

Lemma honest_exec a s s' : honest s -> flights s -> exec a s = Some s' -> honest s'.
Proof.
  intros H F. pose proof H as (H1 & H2 & H3). destruct a as [| | |t k now|t|t x|t]; cbn [exec].
  - intros [= <-]. by split_and!.
  - intros [= <-]. apply honest_cache; [by split_and!|done].
  - intros [= <-]. by split_and!.
  - destruct (idle _); [|done]. intros [= <-]. by apply honest_pc.
  - destruct (hp_threads s !! t) as [[]|] eqn:Et; try done. destruct (hp_heap s !! i) as [f|] eqn:Ef; [|done].
    cbn. intros [= <-]. specialize (H3 _ _ Et). unfold do_wake.
    destruct (f_key s F t _ k i Et) as (f' & Ef' & Hk); [by right|].
    rewrite Ef in Ef'. simplify_eq. destruct (fl_error f') as [e|] eqn:Ee; apply honest_pc; [done| |done|done].
    apply tail_ok; [done|]. destruct e; simpl; [by eapply H2|done..].
  - destruct (hp_threads s !! t) as [[]|] eqn:Et; try done. intros [= <-]. specialize (H3 _ _ Et).
    destruct (f_key s F t _ k i Et) as (f & Ef & Hk); [by left|]. unfold do_fetch. destruct (hp_client s); simpl.
    + destruct (read_answer k x) as [[e ttl]|e] eqn:Ex.
      * apply honest_pc; [by apply honest_log|]. simpl. split; [by apply cached_more|].
        exists x. split; [simpl; set_solver|done].
      * assert (Hr : e = FUnauthorized -> refused (hp_log s ++ [(k, now, x)]) k).
        { intros ->. apply refused_answer in Ex as (body & ->). exists now, body. set_solver. }
        apply honest_pc; [apply honest_flight; [by apply honest_log|]|simpl].
        -- simpl. intros f' Hf'. simplify_eq. intros [= ->]. by apply Hr.
        -- split; [by apply cached_more|]. destruct e; naive_solver.
    + apply honest_pc; [|done]. apply honest_flight; [done|]. simpl. done.
  - destruct (hp_threads s !! t) as [[]|] eqn:Et; try done; pose proof (H3 _ _ Et) as Hp.
    + intros [= <-]. unfold do_lookup. destruct (od_get k (hp_cache s)) as [c|] eqn:Ec.
      * destruct (le_float _ _) eqn:El; apply honest_pc; try done; simpl.
        -- exists c. split_and!; [by apply H1|done|]. right. right. by left.
        -- intros c' [= <-]. by apply H1.
      * by apply honest_pc.
    + intros [= <-]. unfold do_join. destruct (od_get k (hp_inflight s)) as [i|].
      * by apply honest_pc.
      * apply honest_pc; [|done]. apply honest_inflight, honest_heap; [done|].
        intros i f [Hf|[_ Hf]]%lookup_app_Some; [by eapply H2|].
        apply list_lookup_singleton_Some in Hf as [_ <-]. done.
    + destruct (hp_heap s !! i) as [f|] eqn:Ef; [|done]. simpl. destruct (fl_set f); [|done].
      intros [= <-]. unfold do_wake. destruct (f_key s F t _ k i Et) as (f' & Ef' & Hk); [by right|].
      simplify_eq. destruct (fl_error f) as [e|] eqn:Ee; apply honest_pc; [done| |done|done].
      apply tail_ok; [done|]. destruct e; simpl; [by eapply H2|done..].
    + intros [= <-]. unfold do_reread. destruct (od_get k (hp_cache s)) as [c|] eqn:Ec; apply honest_pc; try done.
      * simpl. exists c. split_and!; [by apply H1|done|by left].
      * by apply tail_ok.
    + intros [= <-]. destruct Hp as [Hp1 Hp2]. apply honest_pc; [|simpl; by eauto].
      apply honest_cache; [done|]. intros k' e'. destruct (decide (k' = k)) as [->|Hne].
      * rewrite od_get_set_eq. by intros [= <-].
      * rewrite od_get_set_ne by done. apply H1.
    + intros [= <-]. by apply honest_pc; [apply honest_inflight|].
    + intros [= <-]. destruct Hp as [Hp1 Hp2]. apply honest_pc; [|by apply tail_ok].
      apply honest_flight; [done|]. intros f Hf. simpl. by eapply H2.
    + intros [= <-]. apply honest_pc; [|done]. apply honest_cache; [done|]. intros k' c.
      destruct (decide (k' = k)) as [->|Hne]; [by rewrite od_get_del_eq|].
      rewrite od_get_del_ne by done. apply H1.
Qed.

(** *** The flights *)

(** A step that leaves the flights alone. *)
Lemma http_flights_same s s' :
  hp_inflight s' = hp_inflight s -> hp_heap s' = hp_heap s -> hp_threads s' = hp_threads s ->
  flights s -> flights s'.
Proof. intros Hi Hh Ht []. constructor; rewrite ?Hi, ?Hh, ?Ht; done. Qed.

(** A thread that holds no flight, before and after. *)
Lemma http_flights_bystander s t p :
  flights s -> holds p = None ->
  (forall p0, hp_threads s !! t = Some p0 -> holds p0 = None) ->
  (forall k i, waits_for p = Some (k, i) -> od_get k (hp_inflight s) = Some i) ->
  flights (set_pc t p s).
Proof.
  intros [F1 F2 F3 F4 F5 F6] Hp Hold Hw.
  assert (Hkeep : forall t' p' x, hp_threads s !! t' = Some p' -> holds p' = Some x ->
    <[t := p]> (hp_threads s) !! t' = Some p').
  { intros t' p' x H1 H2. rewrite lookup_insert_ne; [done|]. intros ->. apply Hold in H1. congruence. }
  assert (Hheld : forall k i, od_get k (hp_inflight s) = Some i ->
    exists t' p', hp_threads s !! t' = Some p' /\ leads p' = Some (k, i) /\ holds p' = Some (k, i)).
  { intros k i Hki. destruct (F5 k i Hki) as (t' & p' & H1 & H2).
    exists t', p'. eauto using leads_holds. }
  constructor; simpl; [done|..].
  - intros t' p' k i [[<- <-]|[_ H1]]%lookup_insert_Some; [|by eapply F2].
    intros [H2|H2]; [congruence|]. destruct (Hheld k i (Hw k i H2)) as (t' & p' & H3 & _ & H4).
    eapply F2; eauto.
  - intros t1 t2 p1 p2 k1 k2 i. rewrite !lookup_insert_Some.
    intros [[<- <-]|[_ H1]] [[<- <-]|[_ H2]] H3 H4; [done|congruence|congruence|by eapply F3].
  - intros t' p' k i [[<- <-]|[_ H1]]%lookup_insert_Some H2; [|by eapply F4].
    apply leads_holds in H2. congruence.
  - intros k i Hki. destruct (Hheld k i Hki) as (t' & p' & H1 & H2 & H3). eauto.
  - intros t' p' k i f [[<- <-]|[_ H1]]%lookup_insert_Some H2 Hf Hs.
    + destruct (Hheld k i (Hw k i H2)) as (t' & p' & H3 & _ & H4). eauto.
    + destruct (F6 _ _ _ _ _ H1 H2 Hf Hs) as (t1 & p1 & H3 & H4). eauto.
Qed.

(** A new flight for a key that has none. *)
Lemma http_flights_new s t k now cached :
  flights s -> od_get k (hp_inflight s) = None ->
  (forall p0, hp_threads s !! t = Some p0 -> holds p0 = None) ->
  flights (set_pc t (PLead k now cached (length (hp_heap s)))
    (set_inflight (od_set k (length (hp_heap s)) (hp_inflight s))
       (set_heap (hp_heap s ++ [mkFlight k false None])%list s))).
Proof.
  intros [F1 F2 F3 F4 F5 F6] Hk Hold. set (n := length (hp_heap s)). set (p := PLead _ _ _ _).
  assert (Hfresh : forall t0 p0 k0, hp_threads s !! t0 = Some p0 ->
    holds p0 = Some (k0, n) \/ waits_for p0 = Some (k0, n) -> False).
  { intros t0 p0 k0 H1 H2. destruct (F2 _ _ _ _ H1 H2) as (f & Hf & _). apply lookup_lt_Some in Hf. lia. }
  assert (Hkeep : forall t' p' x, hp_threads s !! t' = Some p' -> holds p' = Some x ->
    <[t := p]> (hp_threads s) !! t' = Some p').
  { intros t' p' x H1 H2. rewrite lookup_insert_ne; [done|]. intros ->. apply Hold in H1. congruence. }
  constructor; simpl.
  - by apply od_wf_set.
  - intros t' p' k' i [[<- <-]|[_ H1]]%lookup_insert_Some.
    + intros [[= <- <-]|]; [|done]. eexists. by rewrite list_lookup_middle.
    + intros H2. destruct (F2 _ _ _ _ H1 H2) as (f & Hf & Hfk). exists f.
      by rewrite lookup_app_l by (by eapply lookup_lt_Some).
  - intros t1 t2 p1 p2 k1 k2 i. rewrite !lookup_insert_Some.
    intros [[<- <-]|[_ H1]] [[<- <-]|[_ H2]] H3 H4; [done| | |by eapply F3];
      simpl in *; simplify_eq; exfalso; eauto.
  - intros t' p' k' i [[<- <-]|[_ H1]]%lookup_insert_Some.
    + intros [= <- <-]. by rewrite od_get_set_eq.
    + intros H2. specialize (F4 _ _ _ _ H1 H2). rewrite od_get_set_ne; [done|]. congruence.
  - intros k' i. destruct (decide (k' = k)) as [->|Hne].
    + rewrite od_get_set_eq. intros [= <-]. exists t, p. by rewrite lookup_insert_eq.
    + rewrite od_get_set_ne by done. intros Hki. destruct (F5 k' i Hki) as (t' & p' & H1 & H2).
      exists t', p'. eauto using leads_holds.
  - intros t' p' k' i f [[<- <-]|[_ H1]]%lookup_insert_Some H2; [done|].
    intros Hf Hs. destruct (F2 _ _ _ _ H1 (or_intror H2)) as (f' & Hf' & _).
    rewrite lookup_app_l in Hf by (by eapply lookup_lt_Some).
    destruct (F6 _ _ _ _ _ H1 H2 Hf Hs) as (t1 & p1 & H3 & H4). eauto.
Qed.

(** The holder of a flight moves on; at most its flight changes. *)
Lemma flights_moves s t p p' k i g :
  flights s -> hp_threads s !! t = Some p -> leads p = Some (k, i) -> leads p' = Some (k, i) ->
  (forall f, fl_key (g f) = fl_key f /\ fl_set (g f) = fl_set f) -> waits_for p' = None ->
  flights (set_pc t p' (flight_upd i g s)).
Proof.
  intros [F1 F2 F3 F4 F5 F6] Ht Hp Hp' Hg Hw'.
  assert (Hpos : forall t1 p1, <[t := p']> (hp_threads s) !! t1 = Some p1 ->
    exists p0, hp_threads s !! t1 = Some p0 /\ (leads p1 = Some (k, i) /\ leads p0 = Some (k, i) /\ waits_for p1 = None \/ p1 = p0)).
  { intros t1 p1 [[<- <-]|[_ H]]%lookup_insert_Some; eauto 10. }
  assert (Hneg : forall t1 p1, hp_threads s !! t1 = Some p1 -> exists p0, <[t := p']> (hp_threads s) !! t1 = Some p0 /\
    (leads p1 = Some (k, i) /\ leads p0 = Some (k, i) \/ p1 = p0)).
  { intros t1 p1 H. destruct (decide (t = t1)) as [<-|Hne].
    - exists p'. rewrite lookup_insert_eq. simplify_eq. auto.
    - exists p1. rewrite lookup_insert_ne by done. auto. }
  assert (Hh : forall j f, alter g i (hp_heap s) !! j = Some f ->
    exists f0, hp_heap s !! j = Some f0 /\ fl_key f = fl_key f0 /\ fl_set f = fl_set f0).
  { intros j f. destruct (decide (i = j)) as [<-|Hne].
    - rewrite list_lookup_alter_eq. intros (f0 & Hf & ->)%fmap_Some. exists f0. split; [done|apply Hg].
    - rewrite list_lookup_alter_ne by done. eauto. }
  assert (Hh' : forall j f, hp_heap s !! j = Some f ->
    exists f0, alter g i (hp_heap s) !! j = Some f0 /\ fl_key f0 = fl_key f).
  { intros j f Hf. destruct (decide (i = j)) as [<-|Hne].
    - rewrite list_lookup_alter_eq, Hf. eexists. split; [done|apply Hg].
    - rewrite list_lookup_alter_ne by done. eauto. }
  constructor; simpl; [done|..].
  - intros t1 p1 k1 i1 (p0 & H1 & Hor)%Hpos H2.
    assert (holds p0 = Some (k1, i1) \/ waits_for p0 = Some (k1, i1)) as H3.
    { destruct Hor as [(H3 & H4 & H5)| ->]; [|done]. apply leads_holds in H3, H4. left. destruct H2; congruence. }
    destruct (F2 _ _ _ _ H1 H3) as (f & Hf & Hk). destruct (Hh' _ _ Hf) as (f0 & ? & ?). exists f0. split; congruence.
  - intros t1 t2 p1 p2 k1 k2 j (q1 & H1 & Ho1)%Hpos (q2 & H2 & Ho2)%Hpos H3 H4.
    apply (F3 _ _ _ _ k1 k2 j H1 H2).
    + destruct Ho1 as [(E1 & E2 & _)| ->]; [|done]. apply leads_holds in E1, E2. congruence.
    + destruct Ho2 as [(E1 & E2 & _)| ->]; [|done]. apply leads_holds in E1, E2. congruence.
  - intros t1 p1 k1 i1 (p0 & H1 & Hor)%Hpos H2. apply (F4 _ _ _ _ H1).
    destruct Hor as [(E1 & E2 & _)| ->]; [congruence|done].
  - intros k1 i1 Hk1. destruct (F5 k1 i1 Hk1) as (t1 & p1 & H1 & H2). destruct (Hneg _ _ H1) as (p0 & H3 & Hor).
    exists t1, p0. split; [done|]. destruct Hor as [(E1 & E2)| ->]; [congruence|done].
  - intros t1 p1 k1 i1 f (p0 & H1 & Hor)%Hpos H2 (f0 & Hf & _ & Hset)%Hh Hs.
    assert (waits_for p0 = Some (k1, i1)) as H3 by (destruct Hor as [(? & ? & ?)| ->]; congruence).
    destruct (F6 _ _ _ _ _ H1 H3 Hf) as (t2 & p2 & H4 & H5); [congruence|].
    destruct (Hneg _ _ H4) as (p3 & H6 & Hor'). exists t2, p3. split; [done|].
    destruct Hor' as [(E1 & E2)| ->]; [|done]. apply leads_holds in E1, E2. congruence.
Qed.

(** The [finally] block takes the flight off the list... *)
Lemma flights_clean s t now cached i r k :
  flights s -> hp_threads s !! t = Some (PClean k now cached i r) ->
  flights (do_clean t k now cached i r s).
Proof.
  intros [F1 F2 F3 F4 F5 F6] Ht. set (p' := PSet k now cached i r).
  assert (Hpos : forall t1 p1, <[t := p']> (hp_threads s) !! t1 = Some p1 ->
    exists p0, hp_threads s !! t1 = Some p0 /\ holds p1 = holds p0 /\ waits_for p1 = waits_for p0 /\
      (t1 <> t -> p1 = p0)).
  { intros t1 p1 [[<- <-]|[_ H]]%lookup_insert_Some; [|by eauto 10].
    eexists. by split_and!. }
  assert (Hneg : forall t1 p1, hp_threads s !! t1 = Some p1 ->
    exists p0, <[t := p']> (hp_threads s) !! t1 = Some p0 /\ holds p0 = holds p1).
  { intros t1 p1 H. destruct (decide (t = t1)) as [<-|Hne].
    - exists p'. rewrite lookup_insert_eq. by simplify_eq.
    - exists p1. by rewrite lookup_insert_ne. }
  pose proof (F4 _ _ _ _ Ht eq_refl) as Hki.
  constructor; simpl.
  - by apply od_wf_del.
  - intros t1 p1 k1 i1 (p0 & H1 & E1 & E2 & _)%Hpos H2. rewrite E1, E2 in H2. by eapply F2.
  - intros t1 t2 p1 p2 k1 k2 j (q1 & H1 & E1 & _)%Hpos (q2 & H2 & E2 & _)%Hpos H3 H4.
    rewrite E1 in H3. rewrite E2 in H4. by eapply F3.
  - intros t1 p1 k1 i1 H1 H2. destruct (decide (t1 = t)) as [->|Hne].
    + rewrite lookup_insert_eq in H1. by simplify_eq.
    + rewrite lookup_insert_ne in H1 by done. pose proof (F4 _ _ _ _ H1 H2) as H3.
      rewrite od_get_del_ne; [done|]. intros ->. rewrite Hki in H3. injection H3 as ->.
      destruct Hne. by eapply (F3 t1 t); [done..|apply leads_holds|].
  - intros k1 i1. destruct (decide (k1 = k)) as [->|Hne]; [by rewrite od_get_del_eq|].
    rewrite od_get_del_ne by done. intros Hk1. destruct (F5 _ _ Hk1) as (t1 & p1 & H1 & H2).
    exists t1, p1. rewrite lookup_insert_ne; [done|]. intros <-. by simplify_eq/=.
  - intros t1 p1 k1 i1 f (p0 & H1 & E1 & E2 & _)%Hpos H2 Hf Hs. rewrite E2 in H2.
    destruct (F6 _ _ _ _ _ H1 H2 Hf Hs) as (t2 & p2 & H3 & H4).
    destruct (Hneg _ _ H3) as (p3 & H5 & E3). exists t2, p3. by rewrite E3.
Qed.

(** ... and then sets it: nobody waits for it any longer. *)
Lemma flights_set s t now cached i r k :
  flights s -> hp_threads s !! t = Some (PSet k now cached i r) ->
  flights (do_set t k now cached i r s).
Proof.
  intros [F1 F2 F3 F4 F5 F6] Ht. unfold do_set. set (p' := lookup_tail _ _ _ _ _ _).
  assert (Hnone : holds p' = None /\ waits_for p' = None).
  { unfold p', lookup_tail. by repeat case_match. }
  destruct Hnone as [Hh Hw]. set (g := fun f : Flight => mkFlight (fl_key f) true (fl_error f)).
  assert (Hpos : forall t1 p1, <[t := p']> (hp_threads s) !! t1 = Some p1 ->
    t1 = t /\ p1 = p' \/ t1 <> t /\ hp_threads s !! t1 = Some p1).
  { intros t1 p1 [[<- <-]|[? H]]%lookup_insert_Some; auto. }
  assert (Hheap : forall j f, alter g i (hp_heap s) !! j = Some f ->
    exists f0, hp_heap s !! j = Some f0 /\ fl_key f = fl_key f0 /\ (j = i -> fl_set f = true) /\
      (j <> i -> f = f0)).
  { intros j f. destruct (decide (i = j)) as [<-|Hne].
    - rewrite list_lookup_alter_eq. intros (f0 & Hf & ->)%fmap_Some. by exists f0.
    - rewrite list_lookup_alter_ne by done. intros Hf. by exists f. }
  constructor; simpl; [done|..].
  - intros t1 p1 k1 i1 [[-> ->]|[Hne H1]]%Hpos; [rewrite Hh, Hw; naive_solver|]. intros H2.
    destruct (F2 _ _ _ _ H1 H2) as (f & Hf & Hk). destruct (decide (i = i1)) as [<-|Hi].
    + exists (g f). rewrite list_lookup_alter_eq, Hf. done.
    + exists f. by rewrite list_lookup_alter_ne.
  - intros t1 t2 p1 p2 k1 k2 j [[-> ->]|[_ H1]]%Hpos [[-> ->]|[_ H2]]%Hpos H3 H4;
      [done|congruence|congruence|by eapply F3].
  - intros t1 p1 k1 i1 [[-> ->]|[_ H1]]%Hpos H2; [apply leads_holds in H2; congruence|by eapply F4].
  - intros k1 i1 Hk1. destruct (F5 _ _ Hk1) as (t1 & p1 & H1 & H2). exists t1, p1.
    rewrite lookup_insert_ne; [done|]. intros <-. by simplify_eq/=.
  - intros t1 p1 k1 i1 f [[-> ->]|[Hne H1]]%Hpos H2 (f0 & Hf & _ & Hi & Hni)%Hheap Hs; [congruence|].
    destruct (decide (i1 = i)) as [->|Hd]; [specialize (Hi eq_refl); congruence|].
    rewrite (Hni Hd) in Hs.
    destruct (F6 _ _ _ _ _ H1 H2 Hf Hs) as (t2 & p2 & H3 & H4). exists t2, p2.
    rewrite lookup_insert_ne; [done|]. intros <-. by simplify_eq/=.
Qed.

Lemma tail_holds m k now cached w r :
  holds (lookup_tail m k now cached w r) = None /\ waits_for (lookup_tail m k now cached w r) = None.
Proof. unfold lookup_tail. by repeat case_match. Qed.

Lemma http_flights_exec a s s' : flights s -> exec a s = Some s' -> flights s'.
Proof.
  intros F.
  assert (Hby : forall t p p0 s1, flights s1 -> hp_threads s1 !! t = Some p0 -> holds p0 = None ->
    holds p = None -> waits_for p = None -> flights (set_pc t p s1)).
  { intros t p p0 s1 F1 Ht H0 H1 H2. apply http_flights_bystander; [done|done| |by rewrite H2]. naive_solver. }
  assert (Htail : forall t p0 k now cached w r s1, flights s1 -> hp_threads s1 !! t = Some p0 ->
    holds p0 = None -> flights (set_pc t (lookup_tail (hp_max_stale s) k now cached w r) s1)).
  { intros. by eapply Hby; [| | |apply tail_holds|apply tail_holds]. }
  assert (Hwake : forall t k now cached i f, hp_threads s !! t = Some (PWait k now cached i) ->
    flights (do_wake t k now cached f s)).
  { intros t k now cached i f Ht. unfold do_wake. destruct (fl_error f); [by eapply Htail|by eapply Hby]. }
  destruct a as [| | |t k now|t|t x|t]; cbn [exec].
  - intros [= <-]. by apply (http_flights_same s).
  - intros [= <-]. by apply (http_flights_same s).
  - intros [= <-]. by apply (http_flights_same s).
  - destruct (idle _) eqn:Ei; [|done]. intros [= <-]. apply http_flights_bystander; [done|done| |done].
    intros p0 Hp. rewrite Hp in Ei. by destruct p0.
  - destruct (hp_threads s !! t) as [[]|] eqn:Et; try done. destruct (hp_heap s !! i) as [f|]; [|done].
    intros [= <-]. by eapply Hwake.
  - destruct (hp_threads s !! t) as [[]|] eqn:Et; try done. intros [= <-]. unfold do_fetch.
    assert (Hl : forall x, flights (add_exchange x s)) by (intros; by apply (http_flights_same s)).
    destruct (hp_client s); simpl; [destruct (read_answer k x) as [[e ttl]|e]|].
    + apply (http_flights_same (set_pc t (PStore k now cached i e ttl)
        (flight_upd i (fun f => f) (add_exchange (k, now, x) s)))); [done| |done|].
      * simpl. symmetry. apply list_alter_id. by intros.
      * by eapply flights_moves.
    + by eapply flights_moves.
    + by eapply flights_moves.
  - destruct (hp_threads s !! t) as [[]|] eqn:Et; try done.
    + intros [= <-]. unfold do_lookup. destruct (od_get k (hp_cache s)) as [c|]; [destruct (le_float _ _)|];
        by eapply Hby.
    + intros [= <-]. unfold do_join. destruct (od_get k (hp_inflight s)) as [i|] eqn:Ei.
      * apply http_flights_bystander; [done|done|naive_solver|]. by intros ? ? [= <- <-].
      * apply http_flights_new; [done|done|naive_solver].
    + destruct (hp_heap s !! i) as [f|]; [|done]. simpl. destruct (fl_set f); [|done]. intros [= <-].
      by eapply Hwake.
    + intros [= <-]. unfold do_reread. destruct (od_get k (hp_cache s)) as [c|]; by eapply Htail.
    + intros [= <-]. unfold do_store. set (s1 := set_cache _ s).
      apply (http_flights_same (set_pc t (PClean k now cached i (Ok e)) (flight_upd i (fun f => f) s1))); [done| |done|].
      * simpl. symmetry. apply list_alter_id. by intros.
      * eapply flights_moves; [by apply (http_flights_same s)|done..].
    + intros [= <-]. by apply flights_clean.
    + intros [= <-]. by apply flights_set.
    + intros [= <-]. unfold do_evict. eapply Hby; [by apply (http_flights_same s)|done..].
Qed.

Lemma http_reachable_inv m s : reachable m s -> honest s /\ flights s /\ hp_max_stale s = m.
Proof.
  induction 1 as [|a s s' _ (IH1 & IH2 & IH3) Hs].
  - split_and!; [..|done]; [split_and!|constructor]; simpl; try done; try (intros; by rewrite lookup_empty in *).
    apply NoDup_nil_2.
  - split_and!; [by eapply honest_exec|by eapply http_flights_exec|]. rewrite <- IH3. clear -Hs.
    destruct a; cbn [exec] in Hs; cbv [mbind option_bind] in Hs; repeat (case_match; try done); simplify_eq;
      unfold do_lookup, do_join, do_wake, do_reread, do_fetch, do_store, do_clean, do_set, do_evict;
      repeat case_match; done.
Qed.

Lemma read_answer_ok k x e ttl :
  read_answer k x = Ok (e, ttl) -> te_api_keys e = [k] /\ te_namespace e <> "" /\ te_name e = TString (te_namespace e).
Proof.
  destruct x as [|st body]; [done|]. cbn [read_answer]. intros H.
  repeat (case_match; simplify_eq/=; try done). by rewrite <- String.eqb_neq.
Qed.

(** ** Theorems *)

Fixpoint run (l : list action) (s : HTTPTenantProvider) : option HTTPTenantProvider :=
  match l with
  | [] => Some s
  | a :: l => s' ← exec a s; run l s'
  end.

Lemma http_run_reachable l m s s' : reachable m s -> run l s = Some s' -> reachable m s'.
Proof.
  revert s. induction l as [|a l IH]; intros s Hs; simpl; [by intros [= <-]|].
  destruct (exec a s) as [s1|] eqn:E; [|done]. simpl. apply IH. by eapply reach_step.
Qed.

Definition answer_for (ns : string) (ttl : Z) : exchange :=
  EResponse 200 (Some (JObject [("namespace", JString ns); ("ttl", JNumber (Fin (inject_Z ttl)))])).

(** A lookup that finds nothing in the cache, and leads. *)
Definition demo_lookup (t : nat) (k : string) (now : Q) (x : exchange) : list action :=
  [ALookup t k now; AGo t; AGo t; AExchange t x; AGo t; AGo t; AGo t].

(** One thread has been answered, a second one waits for a third. *)
Definition demo_provider : HTTPTenantProvider :=
  default (init_http 300)
    (run (AStart :: demo_lookup 1 "key-a" 0 (answer_for "ns-a" 60) ++
          [ALookup 2 "key-b" 1; AGo 2; AGo 2; ALookup 3 "key-b" 1; AGo 3; AGo 3])%list (init_http 300)).

Lemma demo_provider_reachable : reachable 300 demo_provider.
Proof.
  eapply http_run_reachable; [apply reach_init|].
  instantiate (1 := (AStart :: demo_lookup 1 "key-a" 0 (answer_for "ns-a" 60) ++
    [ALookup 2 "key-b" 1; AGo 2; AGo 2; ALookup 3 "key-b" 1; AGo 3; AGo 3])%list).
  vm_compute. reflexivity.
Qed.



(** There is never more than one thread asking the endpoint about a key,
    and a thread that waits, waits for a flight of its own key that is set or
    that some running thread will set: nobody waits for nothing. *)
Theorem http_single_flight m s :
  reachable m s ->
  (forall t1 t2 p1 p2 k i1 i2, hp_threads s !! t1 = Some p1 -> hp_threads s !! t2 = Some p2 ->
     leads p1 = Some (k, i1) -> leads p2 = Some (k, i2) -> t1 = t2) /\
  (forall t p k i, hp_threads s !! t = Some p -> waits_for p = Some (k, i) ->
     exists f, hp_heap s !! i = Some f /\ fl_key f = k /\
       (fl_set f = true \/ exists t' p', hp_threads s !! t' = Some p' /\ holds p' = Some (k, i))).
Proof.
  intros (_ & [F1 F2 F3 F4 F5 F6] & _)%http_reachable_inv. split.
  - intros t1 t2 p1 p2 k i1 i2 H1 H2 H3 H4. pose proof (F4 _ _ _ _ H1 H3) as E1.
    pose proof (F4 _ _ _ _ H2 H4) as E2. rewrite E1 in E2. injection E2 as <-.
    apply (F3 _ _ _ _ k k i1 H1 H2); by apply leads_holds.
  - intros t p k i Ht Hw. destruct (F2 _ _ _ _ Ht (or_intror Hw)) as (f & Hf & Hk). exists f.
    split_and!; [done..|]. destruct (fl_set f) eqn:Es; [by left|]. right. by eapply F6.
Qed.

Lemma http_single_flight_witness :
  reachable 300 demo_provider /\
  exists p, hp_threads demo_provider !! 3%nat = Some p /\ waits_for p = Some ("key-b", 1%nat) /\
  exists f, hp_heap demo_provider !! 1%nat = Some f /\ fl_key f = "key-b" /\
    (fl_set f = true \/ exists t' p', hp_threads demo_provider !! t' = Some p' /\ holds p' = Some ("key-b", 1%nat)).
Proof.
  split; [exact demo_provider_reachable|]. exists (PWait "key-b" 1 None 1).
  split; [vm_compute; reflexivity|]. split; [reflexivity|].
  apply (proj2 (http_single_flight 300 demo_provider demo_provider_reachable) 3%nat (PWait "key-b" 1 None 1));
    [vm_compute; reflexivity|reflexivity].
Defined.

(** A waiter whose wait times out takes what the cache holds, however old: its
    entry may be far beyond its time to live and the tolerated staleness. *)
Lemma late_waiter_serves_stale :
  exists s e c, run (AStart :: demo_lookup 1 "key-a" 0 (answer_for "ns-a" 60) ++
    [ALookup 1 "key-a" 86400; AGo 1; AGo 1; ALookup 2 "key-a" 86400; AGo 2; AGo 2; ATimeout 2; AGo 2])%list
    (init_http 300) = Some s /\
  hp_threads s !! 2%nat = Some (PDone "key-a" 86400 true (Ok (Some e))) /\
  od_get "key-a" (hp_cache s) = Some c /\ ce_tenant c = e /\
  gt_sum (86400 - ce_fetched_at c) (ce_ttl c) 300 = true.
Proof. do 3 eexists. split; [vm_compute; reflexivity|]. by vm_compute. Qed.
