(* ===== verification/ServerProxy.v ===== *)
(** * The server's proxy

    [server/opensandbox_server/api/proxy.py]: requests and WebSocket connections
    that reach a sandbox through the server.

    An operation records what it does in a log of events, in order; what the
    runtime, the backend and the clients do are arguments.  Header names are
    compared as Starlette does: the server receives them in lower case, and a
    name is looked up by its lower case. *)

From Stdlib Require Import ZArith Lia Ascii String.
From stdpp Require Import base numbers strings sets list.
From S2P Require Import Prelude PyString PyCodec SignedRoutes Tenants.

Open Scope string_scope.
Open Scope Z_scope.

(** ** Constants *)

Definition HOP_BY_HOP_HEADERS : list string :=
  ["connection"; "keep-alive"; "proxy-authenticate"; "proxy-authorization"; "te"; "trailer";
   "transfer-encoding"; "upgrade"].

Definition SERVER_GENERATED_RESPONSE_HEADERS : list string := ["server"].

Definition SANDBOX_API_KEY_HEADER : string := "OPEN-SANDBOX-API-KEY".

Definition SENSITIVE_HEADERS : list string :=
  ["authorization"; "cookie"; lower SANDBOX_API_KEY_HEADER; lower OPEN_SANDBOX_SECURE_ACCESS_HEADER].

Definition FORWARDED_HEADERS : list string :=
  ["forwarded"; "x-forwarded-for"; "x-forwarded-host"; "x-forwarded-port"; "x-forwarded-proto"; "x-real-ip"].

Definition WEBSOCKET_HANDSHAKE_HEADERS : list string :=
  ["origin"; "sec-websocket-extensions"; "sec-websocket-key"; "sec-websocket-protocol";
   "sec-websocket-version"].

(** ** Requests *)

Definition headers := list (string * string).

(** [headers.get(name)]: the first field with the name. *)
Definition hget (name : string) (h : headers) : option string :=
  snd <$> List.find (fun kv => bool_decide (kv.1 = lower name)) h.

(** [dict(headers)] *)
Definition dict_of (h : headers) : headers :=
  foldl (fun d kv => od_set kv.1 (default "" (hget kv.1 h)) d) [] h.

(** A [Request] or [WebSocket], with the fields of its header in order. *)
Record conn := mkConn {
  c_method : string;
  c_scheme : string;
  c_path : string;
  c_query : string;
  c_headers : headers;
  c_client : option string;
  c_subprotocols : list string;
}.

(** ** The target and its headers *)

Definition is_slash (c : ascii) : bool := bool_decide (c = "/"%char).

Definition build_proxy_target_url (endpoint : Endpoint) (full_path query_string : string) (websocket : bool)
  : string :=
  let scheme := if websocket then "ws" else "http" in
  let base := of_chars (rstrip is_slash (chars (ep_endpoint endpoint))) in
  let normalized_path := of_chars (drop_while is_slash (chars full_path)) in
  let url := scheme +:+ "://" +:+ base in
  let url := if (normalized_path =? "")%string then url else url +:+ "/" +:+ normalized_path in
  if negb (query_string =? "")%string && websocket then url +:+ "?" +:+ query_string else url.

(** [{h.strip().lower() for h in header.split(",") if h.strip()}] *)
Definition listed_headers (header : string) : list string :=
  map (fun h => lower (strip h)) (List.filter (fun h => negb (strip h =? "")%string) (split header ",")).

Definition excluded_headers (extra_excluded : list string) (connection_header : option string) : list string :=
  (HOP_BY_HOP_HEADERS ++ SENSITIVE_HEADERS ++ FORWARDED_HEADERS ++ extra_excluded ++
   match connection_header with
   | Some h => if (h =? "")%string then [] else listed_headers h
   | None => []
   end)%list.

Definition endpoint_header_excluded : list string :=
  (lower OPEN_SANDBOX_SECURE_ACCESS_HEADER :: lower OPEN_SANDBOX_EGRESS_AUTH_HEADER :: FORWARDED_HEADERS)%list.

(** Adds the fields [keep] accepts to a dict. *)
Definition add_headers (keep : string -> bool) (h d : headers) : headers :=
  foldl (fun d kv => if keep kv.1 then od_set kv.1 kv.2 d else d) d h.

Definition from_client (excluded : list string) (key : string) : bool :=
  negb (bool_decide (lower key = "host")) && negb (bool_decide (lower key ∈ excluded)).

Definition from_endpoint (key : string) : bool := negb (bool_decide (lower key ∈ endpoint_header_excluded)).

Definition filter_proxy_headers (h : headers) (endpoint_headers : option headers)
    (extra_excluded : list string) (connection_header : option string) : headers :=
  let excluded := excluded_headers extra_excluded connection_header in
  let forwarded := add_headers (from_client excluded) h [] in
  match endpoint_headers with
  | Some eh => add_headers from_endpoint eh forwarded
  | None => forwarded
  end.

Definition observed_scheme (rq : conn) : string :=
  let scheme := lower (c_scheme rq) in
  if (scheme =? "ws")%string then "http" else if (scheme =? "wss")%string then "https" else scheme.

Definition set_forwarded_headers (h : headers) (rq : conn) : headers :=
  let h := od_set "X-Forwarded-Proto" (observed_scheme rq) h in
  let inbound_host := default "" (hget "host" (c_headers rq)) in
  let h := if (inbound_host =? "")%string then h else od_set "X-Forwarded-Host" inbound_host h in
  match c_client rq with Some host => od_set "X-Forwarded-For" host h | None => h end.

(** ** Redirects *)

(** [text.find(needle)] *)
Fixpoint find_at (needle l : list ascii) : option nat :=
  if bool_decide (take (length needle) l = needle) then Some 0%nat
  else match l with [] => None | _ :: l => S <$> find_at needle l end.

Fixpoint take_until (stop : ascii -> bool) (l : list ascii) : list ascii :=
  match l with
  | [] => []
  | c :: l => if stop c then [] else c :: take_until stop l
  end.

Definition one_of (cs : string) (c : ascii) : bool := bool_decide (c ∈ chars cs).

Definition is_letter_az (c : ascii) : bool := is_lower_az c || is_upper_az c.
Definition scheme_char (c : ascii) : bool := is_alnum_az c || one_of "+-." c.

(** [urlsplit(url).path]; [None]: it raises [ValueError]. *)
Definition urlsplit_path (url : list ascii) : option (list ascii) :=
  let url := drop_while (fun c => code c <=? 32) url in
  let url := List.filter (fun c => negb (one_of (of_chars ["009"; "010"; "013"]%char) c)) url in
  let before_colon := take_until (fun c => bool_decide (c = ":"%char)) url in
  let has_scheme := match before_colon with
                    | c :: _ => is_letter_az c && forallb scheme_char before_colon &&
                                bool_decide (length before_colon < length url)%nat
                    | [] => false
                    end in
  let url := if has_scheme then drop (S (length before_colon)) url else url in
  let netloc := if bool_decide (take 2 url = chars "//")
                then take_until (one_of "/?#") (drop 2 url) else [] in
  let url := if bool_decide (take 2 url = chars "//") then drop (2 + length netloc) url else url in
  if xorb (bool_decide ("["%char ∈ netloc)) (bool_decide ("]"%char ∈ netloc)) then None
  else Some (take_until (one_of "#?") url).

Definition proxy_suffix (sandbox_id : string) (port : Z) : string :=
  "/sandboxes/" +:+ sandbox_id +:+ "/proxy/" +:+ str_of_int port.

(** [_rewrite_proxy_location]; [eip] is [get_config().server.eip]. *)
Definition rewrite_proxy_location (eip : option string) (location path sandbox_id : string) (port : Z)
  : option string :=
  if negb (startswith location "/") || startswith location "//" then Some location
  else
    let suffix := proxy_suffix sandbox_id port in
    let eip := rstrip is_slash (chars (strip (default "" eip))) in
    if bool_decide (eip <> []) then
      let external_url := if is_infix (chars "://") eip then eip else (chars "//" ++ eip)%list in
      p ← urlsplit_path external_url;
      Some (of_chars (rstrip is_slash p) +:+ suffix +:+ location)
    else
      match find_at (chars suffix) (chars path) with
      | None => Some location
      | Some proxy_start =>
          Some (of_chars (take (proxy_start + length (chars suffix)) (chars path)) +:+ location)
      end.

(** ** Secure access *)

Definition endpoint_token (endpoint : Endpoint) : option string :=
  match ep_headers endpoint with
  | Some eh => match od_get OPEN_SANDBOX_SECURE_ACCESS_HEADER eh with
               | Some "" | None => None
               | Some token => Some token
               end
  | None => None
  end.

Definition caller_token (caller_headers : headers) : option string :=
  snd <$> List.find (fun kv => bool_decide (lower kv.1 = lower OPEN_SANDBOX_SECURE_ACCESS_HEADER)) caller_headers.

Inductive proxy_exn :=
  (** with the endpoint its detail prints, if any *)
  | HTTPException (status : Z) (shown : option Endpoint)
  | ConnectError
  | OtherException
  (** cancellation, and whatever else is no [Exception] *)
  | BaseExn.

(** [_verify_secure_access] *)
Definition verify_secure_access (endpoint : Endpoint) (caller_headers : headers) : res proxy_exn unit :=
  match endpoint_token endpoint with
  | None => Ok tt
  | Some expected_token =>
      match caller_token caller_headers with
      | Some token =>
          if negb (token =? "")%string && bool_decide (utf8 token = utf8 expected_token) then Ok tt
          else Raise (HTTPException 401 None)
      | None => Raise (HTTPException 401 None)
      end
  end.

(** ** Events *)

(** A request to the backend, or the opening of a WebSocket to it. *)
Record outbound := mkOut {
  o_method : string;
  o_url : string;
  o_params : option string;
  o_headers : headers;
  o_body : bool;
  o_subprotocols : list string;
  o_origin : option string;
}.

Inductive payload := Text (s : string) | Bytes (l : list Z).

Inductive event :=
  | ETenant (tenant : TenantEntry)                (** the current tenant is set *)
  | ERenew (sandbox_id : string)                  (** a renewal is scheduled *)
  | ESend (o : outbound)
  | EOpened                                       (** the backend answered: its response is open *)
  | EClosed                                       (** the response goes back to the pool *)
  | EAccept (subprotocol : option string)
  | EFail (code : Z)                              (** accept, then close with the code *)
  | EToBackend (p : payload)
  | EToClient (p : payload)
  | ECloseBackend (code : Z) (reason : string)
  | ECloseClient (code : Z) (reason : string).

Definition P := M (list event) proxy_exn.

Definition emit (e : event) : P unit := modify (fun log => log ++ [e])%list.
Definition lift {A} (r : res proxy_exn A) : P A := match r with Ok a => ret a | Raise e => throw e end.
Definition of_option {A} (o : option A) : P A := match o with Some a => ret a | None => throw OtherException end.

(** What the server around the routes provides: the runtime's endpoints, the
    tenant provider, whether renewals are coordinated, and the configuration. *)
Record server := mkServer {
  sv_get_endpoint : string -> Z -> res proxy_exn Endpoint;
  sv_provider : option tenant_lookup;
  sv_renew : bool;
  sv_eip : option string;
}.

Definition schedule_proxy_renew (sv : server) (sandbox_id : string) : P unit :=
  if sv_renew sv then emit (ERenew sandbox_id) else ret tt.

(** ** HTTP *)

(** What the backend answers: its status, the items of its header, and whether
    streaming its body to the client succeeds. *)
Record backend_response := mkBR {
  br_status : Z;
  br_headers : headers;
  br_stream : res proxy_exn unit;
}.

Record response := mkResponse { rs_status : Z; rs_headers : headers; rs_stream : res proxy_exn unit }.

Definition response_excluded (h : headers) : list string :=
  (HOP_BY_HOP_HEADERS ++
   match hget "connection" h with
   | Some v => if (v =? "")%string then [] else listed_headers v
   | None => []
   end ++ SERVER_GENERATED_RESPONSE_HEADERS)%list.

(** The dict comprehension over [resp.headers.items()] *)
Fixpoint response_fields (rewrite : string -> option string) (excluded : list string) (h d : headers)
  : option headers :=
  match h with
  | [] => Some d
  | (key, value) :: h =>
      if bool_decide (lower key ∈ excluded) then response_fields rewrite excluded h d
      else
        v ← (if (lower key =? "location")%string then rewrite value else Some value);
        response_fields rewrite excluded h (od_set key v d)
  end.

Definition http_outbound (rq : conn) (endpoint : Endpoint) (full_path : string) : outbound :=
  let query_string := c_query rq in
  let h := filter_proxy_headers (c_headers rq) (ep_headers endpoint) [] (hget "connection" (c_headers rq)) in
  mkOut (c_method rq) (build_proxy_target_url endpoint full_path query_string false)
    (if (query_string =? "")%string then None else Some query_string)
    (set_forwarded_headers h rq) (bool_decide (c_method rq ∈ ["POST"; "PUT"; "PATCH"; "DELETE"])) [] None.

(** From the answer to the response that owns it. *)
Definition build_response (sv : server) (rq : conn) (sandbox_id : string) (port : Z) (resp : backend_response)
  : P response :=
  catch
    (response_headers <-- of_option (response_fields
       (fun v => rewrite_proxy_location (sv_eip sv) v (c_path rq) sandbox_id port)
       (response_excluded (br_headers resp)) (br_headers resp) []);;
     ret (mkResponse (br_status resp) response_headers (br_stream resp)))
    (fun e => Some (emit EClosed;;; throw e)).

Definition client_send (send : outbound -> res proxy_exn backend_response) (o : outbound) : P backend_response :=
  emit (ESend o);;; resp <-- lift (send o);; emit EOpened;;; ret resp.

Definition proxy_http_request (sv : server) (send : outbound -> res proxy_exn backend_response)
    (rq : conn) (sandbox_id : string) (port : Z) (full_path : string) : P response :=
  endpoint <-- lift (sv_get_endpoint sv sandbox_id port);;
  lift (verify_secure_access endpoint (c_headers rq));;;
  schedule_proxy_renew sv sandbox_id;;;
  catch
    ((if (lower (default "" (hget "Upgrade" (c_headers rq))) =? "websocket")%string
      then throw (HTTPException 400 None) else ret tt);;;
     resp <-- client_send send (http_outbound rq endpoint full_path);;
     build_response sv rq sandbox_id port resp)
    (fun e => match e with
              | ConnectError => Some (throw (HTTPException 502 (Some endpoint)))
              | HTTPException _ _ | BaseExn => None
              | OtherException => Some (throw (HTTPException 500 None))
              end).

(** [_ProxyStreamingResponse.__call__] *)
Definition serve_response (r : response) : P unit :=
  finally (lift (rs_stream r)) (fun log => log ++ [EClosed])%list.

(** A route: the request, then its response. *)
Definition proxy_sandbox_endpoint_request (sv : server) send rq sandbox_id port full_path : P response :=
  r <-- proxy_http_request sv send rq sandbox_id port full_path;; serve_response r;;; ret r.

Definition proxy_sandbox_endpoint_root (sv : server) send rq sandbox_id port : P response :=
  proxy_sandbox_endpoint_request sv send rq sandbox_id port "".

(** ** WebSocket *)

Definition authenticate_websocket_tenant (sv : server) (ws : conn) : P bool :=
  match sv_provider sv with
  | None => ret true
  | Some lookup =>
      match hget SANDBOX_API_KEY_HEADER (c_headers ws) with
      | None | Some "" => emit (EFail 1008);;; ret false
      | Some api_key =>
          match lookup api_key with
          | Raise TenantProviderUnavailable => emit (EFail 1011);;; ret false
          | Raise OtherLookupError => throw OtherException
          | Ok None => emit (EFail 1008);;; ret false
          | Ok (Some tenant) => emit (ETenant tenant);;; ret true
          end
      end
  end.

(** A message from either side. *)
Inductive message :=
  | FromClient (p : payload)
  | ClientEmpty                                   (** neither text nor bytes, or another type *)
  | ClientDisconnect (code : option Z) (reason : option string)
  | FromBackend (p : payload)
  | BackendClosed (code : option Z) (reason : option string).

Definition or_default {A} (falsy : A -> bool) (d : A) (o : option A) : A :=
  match o with Some a => if falsy a then d else a | None => d end.

(** What a relay does with a message, and whether it is its last. *)
Definition relay_message (m : message) : list event * bool :=
  match m with
  | FromClient p => ([EToBackend p], false)
  | ClientEmpty => ([], false)
  | ClientDisconnect code reason => ([ECloseBackend (default 1000 code) (default "" reason)], true)
  | FromBackend p => ([EToClient p], false)
  | BackendClosed code reason => ([ECloseClient (or_default (Z.eqb 0) 1000 code) (default "" reason)], true)
  end.

(** The two relays, taking messages in the order in which they arrive; the
    first to end cancels the other.  A message comes with whether passing it on
    succeeds. *)
Fixpoint relay (l : list (message * bool)) : P unit :=
  match l with
  | [] => ret tt
  | (m, ok) :: l =>
      let '(es, ended) := relay_message m in
      if ok then modify (fun log => log ++ es)%list;;; (if ended then ret tt else relay l)
      else throw OtherException
  end.

(** What [websockets.connect] does: it fails, or it gives a connection with a
    subprotocol; then whether accepting the client succeeds, and the messages. *)
Inductive connect_result :=
  | InvalidStatus
  | ConnectOSError
  | ConnectException
  | Connected (subprotocol : option string) (accepted : bool) (messages : list (message * bool)).

Definition ws_outbound (ws : conn) (endpoint : Endpoint) (full_path : string) : outbound :=
  let h := filter_proxy_headers (dict_of (c_headers ws)) (ep_headers endpoint) WEBSOCKET_HANDSHAKE_HEADERS
             (hget "connection" (c_headers ws)) in
  mkOut "GET" (build_proxy_target_url endpoint full_path (c_query ws) true) None
    (set_forwarded_headers h ws) false (c_subprotocols ws)
    match hget "origin" (c_headers ws) with Some "" | None => None | Some o => Some o end.

Definition proxy_websocket_request (sv : server) (connect : outbound -> connect_result)
    (ws : conn) (sandbox_id : string) (port : Z) (full_path : string) : P unit :=
  authenticated <-- authenticate_websocket_tenant sv ws;;
  if negb authenticated then ret tt
  else
    match sv_get_endpoint sv sandbox_id port with
    | Raise (HTTPException _ _) => emit (EFail 1011)
    | Raise e => throw e
    | Ok endpoint =>
        match verify_secure_access endpoint (dict_of (c_headers ws)) with
        | Raise _ => emit (EFail 1008)
        | Ok _ =>
            schedule_proxy_renew sv sandbox_id;;;
            let o := ws_outbound ws endpoint full_path in
            emit (ESend o);;;
            match connect o with
            | InvalidStatus => emit (EFail 1008)
            | ConnectOSError | ConnectException => emit (EFail 1011)
            | Connected subprotocol accepted messages =>
                catch
                  ((if accepted then emit (EAccept subprotocol) else throw OtherException);;;
                   relay messages)
                  (fun e => match e with BaseExn => None | _ => Some (emit (EFail 1011)) end)
            end
        end
    end.

(** ** Headers *)

(** The last value given for a name. *)
Definition last_value (k : string) (h : headers) : option string :=
  foldl (fun a kv => if decide (kv.1 = k) then Some kv.2 else a) None h.

Lemma last_value_from k h : forall a,
  foldl (fun a kv => if decide (kv.1 = k) then Some kv.2 else a) a h =
  match last_value k h with Some v => Some v | None => a end.
Proof.
  unfold last_value. induction h as [|[k' v'] h IH]; intros a; simpl; [done|].
  destruct (decide (k' = k)); [|by rewrite IH]. rewrite IH. symmetry. rewrite IH. by case_match.
Qed.

Lemma last_value_cons k k' v h :
  last_value k ((k', v) :: h) =
  match last_value k h with Some w => Some w | None => if decide (k' = k) then Some v else None end.
Proof. unfold last_value at 1. simpl. apply last_value_from. Qed.

Lemma add_headers_get keep h : forall d k,
  od_get k (add_headers keep h d) =
  if keep k then match last_value k h with Some v => Some v | None => od_get k d end else od_get k d.
Proof.
  unfold add_headers. induction h as [|[k' v'] h IH]; intros d k; simpl; [by destruct (keep k)|].
  rewrite IH, last_value_cons. destruct (decide (k' = k)) as [->|Hne].
  - destruct (keep k); [|done]. rewrite od_get_set_eq. by destruct (last_value k h).
  - destruct (keep k'); [rewrite od_get_set_ne by congruence|];
      destruct (keep k); try done; by destruct (last_value k h).
Qed.

Lemma add_headers_wf keep h : forall d, od_wf d -> od_wf (add_headers keep h d).
Proof.
  unfold add_headers. induction h as [|[k v] h IH]; intros d Hd; simpl; [done|].
  destruct (keep k); apply IH; [by apply od_wf_set|done].
Qed.

(** What the server itself says about the connection. *)
Definition server_header (rq : conn) (k : string) : option string :=
  if decide (k = "X-Forwarded-Proto") then Some (observed_scheme rq)
  else if decide (k = "X-Forwarded-Host") then
    match hget "host" (c_headers rq) with Some "" | None => None | Some h => Some h end
  else if decide (k = "X-Forwarded-For") then c_client rq
  else None.

Lemma od_get_set (k k' v : string) (d : headers) :
  od_get k (od_set k' v d) = if decide (k = k') then Some v else od_get k d.
Proof. destruct (decide (k = k')) as [->|]; [by rewrite od_get_set_eq|by rewrite od_get_set_ne]. Qed.

Lemma set_forwarded_get h rq k :
  od_get k (set_forwarded_headers h rq) =
  match server_header rq k with Some v => Some v | None => od_get k h end.
Proof.
  unfold set_forwarded_headers, server_header.
  destruct (hget "host" (c_headers rq)) as [[|a s]|], (c_client rq); simpl; rewrite !od_get_set;
    repeat case_decide; by simplify_eq.
Qed.

Lemma set_forwarded_wf h rq : od_wf h -> od_wf (set_forwarded_headers h rq).
Proof.
  intros Hh. unfold set_forwarded_headers. repeat case_match; auto using od_wf_set.
Qed.

Lemma server_header_name rq k v : server_header rq k = Some v -> lower k ∈ FORWARDED_HEADERS.
Proof.
  unfold server_header. repeat case_decide; try done; subst; intros _; apply (bool_decide_unpack _); by vm_compute.
Qed.

(** What the backend is told under the name [k]: the server's own observation,
    else the endpoint's routing header, else the client's field. *)
Definition proxied_header (rq : conn) (client : headers) (endpoint : Endpoint) (excluded : list string)
    (k : string) : option string :=
  match server_header rq k with
  | Some v => Some v
  | None =>
      match (if from_endpoint k then last_value k (default [] (ep_headers endpoint)) else None) with
      | Some v => Some v
      | None => if from_client excluded k then last_value k client else None
      end
  end.

Lemma filter_get client eh extra ch k :
  od_get k (filter_proxy_headers client eh extra ch) =
  match (if from_endpoint k then last_value k (default [] eh) else None) with
  | Some v => Some v
  | None => if from_client (excluded_headers extra ch) k then last_value k client else None
  end.
Proof.
  unfold filter_proxy_headers. destruct eh as [eh|]; simpl; rewrite ?add_headers_get; simpl;
    destruct (from_endpoint k), (from_client _ k); try done; by repeat case_match.
Qed.

Lemma filter_wf client eh extra ch : od_wf (filter_proxy_headers client eh extra ch).
Proof.
  unfold filter_proxy_headers. assert (H : forall keep h, od_wf (add_headers keep h [])).
  { intros. apply add_headers_wf. constructor. }
  destruct eh; [by apply add_headers_wf|done].
Qed.

Lemma sensitive_not_forwarded h : h ∈ SENSITIVE_HEADERS -> h ∉ FORWARDED_HEADERS.
Proof.
  revert h. apply Forall_forall. apply (bool_decide_unpack _). by vm_compute.
Qed.

(** C13: the header the backend receives, name by name, for a request and for a
    WebSocket.  What it is told about the connection comes from the server
    alone; the endpoint's routing headers come next; a field of the client goes
    through only if it is no transport, credential, forwarding or listed field.
    The caller's API key, cookies, authorisation and secure-access token never
    reach the backend unless the endpoint names such a header itself, and the
    secure-access token not even then. *)
Theorem proxied_headers_exact rq endpoint full_path k :
  let http := http_outbound rq endpoint full_path in
  let ws := ws_outbound rq endpoint full_path in
  let connection := hget "connection" (c_headers rq) in
  od_wf (o_headers http) /\ od_wf (o_headers ws) /\
  od_get k (o_headers http) =
    proxied_header rq (c_headers rq) endpoint (excluded_headers [] connection) k /\
  od_get k (o_headers ws) =
    proxied_header rq (dict_of (c_headers rq)) endpoint
      (excluded_headers WEBSOCKET_HANDSHAKE_HEADERS connection) k /\
  (lower k ∈ FORWARDED_HEADERS ->
     od_get k (o_headers http) = server_header rq k /\ od_get k (o_headers ws) = server_header rq k) /\
  (lower k ∈ SENSITIVE_HEADERS ->
     let routed := if from_endpoint k then last_value k (default [] (ep_headers endpoint)) else None in
     od_get k (o_headers http) = routed /\ od_get k (o_headers ws) = routed) /\
  (lower k = lower OPEN_SANDBOX_SECURE_ACCESS_HEADER ->
     od_get k (o_headers http) = None /\ od_get k (o_headers ws) = None).
Proof.
  cbv zeta. unfold http_outbound, ws_outbound. cbn [o_headers].
  assert (Hget : forall client extra, od_get k (set_forwarded_headers
      (filter_proxy_headers client (ep_headers endpoint) extra (hget "connection" (c_headers rq))) rq) =
    proxied_header rq client endpoint (excluded_headers extra (hget "connection" (c_headers rq))) k).
  { intros. rewrite set_forwarded_get, filter_get. done. }
  assert (Hfwd : lower k ∈ FORWARDED_HEADERS -> from_endpoint k = false /\
    forall extra ch, from_client (excluded_headers extra ch) k = false).
  { intros Hk. unfold from_endpoint, from_client. split.
    - rewrite bool_decide_true; [done|]. unfold endpoint_header_excluded. set_solver.
    - intros. rewrite (bool_decide_true (lower k ∈ _)); [by rewrite andb_false_r|].
      unfold excluded_headers. set_solver. }
  assert (Hsens : lower k ∈ SENSITIVE_HEADERS -> server_header rq k = None /\
    forall extra ch, from_client (excluded_headers extra ch) k = false).
  { intros Hk. split.
    - destruct (server_header rq k) as [v|] eqn:E; [|done]. apply server_header_name in E. by destruct (sensitive_not_forwarded _ Hk).
    - intros. unfold from_client. rewrite (bool_decide_true (lower k ∈ _)); [by rewrite andb_false_r|].
      unfold excluded_headers. set_solver. }
  rewrite !Hget. split_and!; [apply set_forwarded_wf, filter_wf|apply set_forwarded_wf, filter_wf|done|done|..].
  - intros [H1 H2]%Hfwd. unfold proxied_header. rewrite H1, !H2. split; by case_match.
  - intros [H1 H2]%Hsens. unfold proxied_header. rewrite H1, !H2. split; by case_match.
  - intros Hk. destruct Hsens as [H1 H2]; [rewrite Hk; unfold SENSITIVE_HEADERS; set_solver|].
    unfold proxied_header. rewrite H1, !H2. unfold from_endpoint. rewrite Hk.
    rewrite bool_decide_true; [done|]. unfold endpoint_header_excluded. set_solver.
Qed.

(** ** Who gets through *)

(** The endpoint exists, and the caller shows its token if it has one. *)
Definition authorised (sv : server) (caller : headers) (sandbox_id : string) (port : Z) (endpoint : Endpoint)
  : Prop :=
  sv_get_endpoint sv sandbox_id port = Ok endpoint /\
  forall token, endpoint_token endpoint = Some token -> caller_token caller = Some token.

Lemma endpoint_token_nonempty e token : endpoint_token e = Some token -> token <> "".
Proof. unfold endpoint_token. intros H. repeat case_match; by simplify_eq. Qed.

Lemma verify_cases e h :
  (verify_secure_access e h = Ok tt /\ forall token, endpoint_token e = Some token -> caller_token h = Some token) \/
  (verify_secure_access e h = Raise (HTTPException 401 None) /\
   ~ forall token, endpoint_token e = Some token -> caller_token h = Some token).
Proof.
  unfold verify_secure_access. destruct (endpoint_token e) as [t|] eqn:Et; [|left; by split].
  pose proof (endpoint_token_nonempty _ _ Et) as Hne.
  destruct (caller_token h) as [c|]; [|right; split; [done|naive_solver]].
  case_bool_decide as Hu.
  - apply utf8_inj in Hu as ->. left. apply String.eqb_neq in Hne. rewrite Hne. naive_solver.
  - right. rewrite andb_false_r. split; [done|]. intros H. specialize (H t eq_refl). naive_solver.
Qed.

(** An HTTP request, step by step. *)
Definition http_result (sv : server) (send : outbound -> res proxy_exn backend_response)
    (rq : conn) (sandbox_id : string) (port : Z) (full_path : string) : res proxy_exn response * list event :=
  match sv_get_endpoint sv sandbox_id port with
  | Raise e => (Raise e, [])
  | Ok endpoint =>
      match verify_secure_access endpoint (c_headers rq) with
      | Raise e => (Raise e, [])
      | Ok _ =>
          let renew := if sv_renew sv then [ERenew sandbox_id] else [] in
          let o := http_outbound rq endpoint full_path in
          if (lower (default "" (hget "Upgrade" (c_headers rq))) =? "websocket")%string
          then (Raise (HTTPException 400 None), renew)
          else
            match send o with
            | Raise e =>
                (Raise match e with
                       | ConnectError => HTTPException 502 (Some endpoint)
                       | OtherException => HTTPException 500 None
                       | e => e
                       end, renew ++ [ESend o])
            | Ok resp =>
                match response_fields (fun v => rewrite_proxy_location (sv_eip sv) v (c_path rq) sandbox_id port)
                        (response_excluded (br_headers resp)) (br_headers resp) [] with
                | Some h => (Ok (mkResponse (br_status resp) h (br_stream resp)), renew ++ [ESend o; EOpened])
                | None => (Raise (HTTPException 500 None), renew ++ [ESend o; EOpened; EClosed])
                end
            end
      end
  end%list.

Lemma http_request_result sv send rq id port full_path log :
  proxy_http_request sv send rq id port full_path log =
  ((http_result sv send rq id port full_path).1, log ++ (http_result sv send rq id port full_path).2)%list.
Proof.
  unfold proxy_http_request, http_result, bind, lift.
  destruct (sv_get_endpoint sv id port) as [endpoint|e]; simpl; [|by rewrite app_nil_r].
  destruct (verify_secure_access endpoint (c_headers rq)) as [[]|e]; simpl; [|by rewrite app_nil_r].
  set (o := http_outbound rq endpoint full_path).
  unfold schedule_proxy_renew, client_send, build_response, of_option, lift, catch, bind, emit, modify, ret, throw.
  destruct (sv_renew sv), (_ =? "websocket")%string, (send o) as [resp|[]]; simpl;
    try destruct (response_fields _ _ _ _) as [h|]; simpl; by rewrite <- ?app_assoc, ?app_nil_r.
Qed.

(** C14: a request reaches a backend only if the runtime gave its endpoint for
    this sandbox and port and the caller showed the endpoint's secure-access
    token, when it has one, as its first such header; then it is sent once, as
    [http_outbound] says, and the sandbox is renewed.  Nothing at all happens
    otherwise: no renewal, no request. *)
Theorem proxy_gate sv send rq id port full_path r log :
  proxy_http_request sv send rq id port full_path [] = (r, log) ->
  (forall o, ESend o ∈ log ->
     exists endpoint, authorised sv (c_headers rq) id port endpoint /\ o = http_outbound rq endpoint full_path) /\
  (length (List.filter (fun e => match e with ESend _ => true | _ => false end) log) <= 1)%nat /\
  (forall x, ERenew x ∈ log -> x = id) /\
  (log <> [] -> exists endpoint, authorised sv (c_headers rq) id port endpoint) /\
  (forall endpoint, sv_get_endpoint sv id port = Ok endpoint -> ~ authorised sv (c_headers rq) id port endpoint ->
     r = Raise (HTTPException 401 None) /\ log = []).
Proof.
  rewrite http_request_result. intros [= <- <-]. unfold http_result, authorised.
  destruct (sv_get_endpoint sv id port) as [endpoint|e] eqn:Eg; [|simpl; split_and!; [set_solver|lia|set_solver|done|done]].
  destruct (verify_cases endpoint (c_headers rq)) as [[Ev Hv]|[Ev Hv]]; rewrite Ev.
  - split_and!.
    + intros o Ho. exists endpoint. split; [done|]. revert Ho.
      repeat case_match; simpl; rewrite ?elem_of_app, ?elem_of_cons, ?elem_of_nil; naive_solver.
    + repeat case_match; simpl; lia.
    + intros x. repeat case_match; simpl; rewrite ?elem_of_app, ?elem_of_cons, ?elem_of_nil; naive_solver.
    + eauto.
    + naive_solver.
  - simpl. split_and!; [set_solver|lia|set_solver|done|done].
Qed.

Definition opened (log : list event) : nat := length (List.filter (fun e => match e with EOpened => true | _ => false end) log).
Definition closed (log : list event) : nat := length (List.filter (fun e => match e with EClosed => true | _ => false end) log).

(** How far a request gets. *)
Inductive http_shape (send : outbound -> res proxy_exn backend_response)
  : res proxy_exn response -> list event -> Prop :=
  | SRefused e log : (forall x, x ∈ log -> exists id, x = ERenew id) -> http_shape send (Raise e) log
  | SFailed e e' log o : (forall x, x ∈ log -> exists id, x = ERenew id) -> send o = Raise e' ->
      http_shape send (Raise e) (log ++ [ESend o])
  | SBroken e log o b : (forall x, x ∈ log -> exists id, x = ERenew id) -> send o = Ok b ->
      http_shape send (Raise e) (log ++ [ESend o; EOpened; EClosed])
  | SServed rs log o b : (forall x, x ∈ log -> exists id, x = ERenew id) -> send o = Ok b ->
      http_shape send (Ok rs) (log ++ [ESend o; EOpened]).

Lemma http_result_shape sv send rq id port full_path :
  http_shape send (http_result sv send rq id port full_path).1 (http_result sv send rq id port full_path).2.
Proof.
  assert (Hnil : forall x : event, x ∈ [] -> exists id, x = ERenew id) by set_solver.
  assert (Hren : forall x, x ∈ (if sv_renew sv then [ERenew id] else []) -> exists id, x = ERenew id).
  { intros x. destruct (sv_renew sv); [intros ->%list_elem_of_singleton; eauto|set_solver]. }
  unfold http_result. destruct (sv_get_endpoint sv id port) as [endpoint|e]; [|by apply SRefused].
  destruct (verify_secure_access endpoint (c_headers rq)) as [[]|e]; [|by apply SRefused].
  destruct (_ =? "websocket")%string; [by apply SRefused|].
  destruct (send _) as [resp|e] eqn:Es; [|by eapply SFailed].
  destruct (response_fields _ _ _ _) as [h|]; [by eapply SServed|by eapply SBroken].
Qed.

Lemma renewals_only log : (forall x, x ∈ log -> exists id, x = ERenew id) ->
  (forall l, opened (log ++ l) = opened l /\ closed (log ++ l) = closed l) /\
  (forall o l, ESend o ∈ (log ++ l)%list <-> ESend o ∈ l).
Proof.
  intros H. split.
  - intros l. unfold opened, closed. rewrite !List.filter_app, !length_app.
    assert (forall p : event -> bool, (forall id, p (ERenew id) = false) -> List.filter p log = []) as Hf.
    { intros p Hp. induction log as [|x log IH]; [done|]. simpl. destruct (H x) as [id ->]; [by left|].
      rewrite Hp. apply IH. intros y Hy. apply H. by right. }
    rewrite !Hf by done. done.
  - intros o l. rewrite elem_of_app. split; [|by right]. intros [Ho|]; [|done]. by destruct (H _ Ho).
Qed.

(** The backend's response is given back exactly once, whenever one was
    obtained: when the headers cannot be built, when the client leaves before
    or while the body is streamed, when the request is cancelled; the response
    the client is served is one that was obtained. *)
Theorem backend_released sv send rq id port full_path r log :
  proxy_sandbox_endpoint_request sv send rq id port full_path [] = (r, log) ->
  opened log = closed log /\ (opened log <= 1)%nat /\
  (forall resp, r = Ok resp -> opened log = 1%nat) /\
  (opened log = 1%nat <-> exists o b, ESend o ∈ log /\ send o = Ok b).
Proof.
  unfold proxy_sandbox_endpoint_request, bind. rewrite http_request_result.
  pose proof (http_result_shape sv send rq id port full_path) as Hs.
  destruct (http_result sv send rq id port full_path) as [r0 log0]. simpl in Hs |- *.
  destruct Hs as [e l Hl|e e' l o Hl Ho|e l o b Hl Ho|rs l o b Hl Ho];
    destruct (renewals_only l Hl) as [Hcount Hin].
  - intros [= <- <-]. rewrite <- (app_nil_r l). destruct (Hcount []) as [-> ->]. setoid_rewrite Hin.
    split; [done|]. split; [cbn; lia|]. split; [done|]. split; [done|]. set_solver.
  - intros [= <- <-]. destruct (Hcount [ESend o]) as [-> ->]. setoid_rewrite Hin.
    split; [done|]. split; [cbn; lia|]. split; [done|]. split; [done|].
    intros (o' & b & [= ->]%list_elem_of_singleton & Hb). congruence.
  - intros [= <- <-]. destruct (Hcount [ESend o; EOpened; EClosed]) as [-> ->]. setoid_rewrite Hin.
    split; [done|]. split; [cbn; lia|]. split; [done|]. split; [|done]. intros _. exists o, b. split; [by left|done].
  - unfold serve_response, finally, lift, ret, throw.
    assert (Hend : opened (l ++ [ESend o; EOpened] ++ [EClosed])%list = closed (l ++ [ESend o; EOpened] ++ [EClosed])%list /\
      (opened (l ++ [ESend o; EOpened] ++ [EClosed])%list <= 1)%nat /\
      (forall resp, r = Ok resp -> opened (l ++ [ESend o; EOpened] ++ [EClosed])%list = 1%nat) /\
      (opened (l ++ [ESend o; EOpened] ++ [EClosed])%list = 1%nat <->
       exists o' b', ESend o' ∈ (l ++ [ESend o; EOpened] ++ [EClosed])%list /\ send o' = Ok b')).
    { destruct (Hcount ([ESend o; EOpened] ++ [EClosed])%list) as [-> ->]. setoid_rewrite Hin.
      split; [done|]. split; [cbn; lia|]. split; [done|]. split; [|done]. intros _. exists o, b. split; [by left|done]. }
    destruct (rs_stream rs); intros [= <- <-]; rewrite <- app_assoc; exact Hend.
Qed.

(** *** WebSockets *)

(** The tenant a WebSocket runs as, when tenants are configured. *)
Definition ws_tenant (sv : server) (ws : conn) : res proxy_exn (option (option TenantEntry)) :=
  match sv_provider sv with
  | None => Ok (Some None)
  | Some lookup =>
      match hget SANDBOX_API_KEY_HEADER (c_headers ws) with
      | None | Some "" => Ok None
      | Some k => match lookup k with
                  | Ok (Some t) => Ok (Some (Some t))
                  | Raise OtherLookupError => Raise OtherException
                  | _ => Ok None
                  end
      end
  end.

Lemma authenticate_result sv ws log :
  match ws_tenant sv ws with
  | Raise e => authenticate_websocket_tenant sv ws log = (Raise e, log)
  | Ok None => exists code, (code = 1008 \/ code = 1011) /\
      authenticate_websocket_tenant sv ws log = (Ok false, log ++ [EFail code])%list
  | Ok (Some t) => authenticate_websocket_tenant sv ws log =
      (Ok true, log ++ match t with Some t => [ETenant t] | None => [] end)%list
  end.
Proof.
  unfold ws_tenant, authenticate_websocket_tenant, bind, emit, modify, ret, throw.
  destruct (sv_provider sv) as [lookup|]; [|by rewrite app_nil_r].
  destruct (hget _ _) as [[|a k]|]; [by eauto| |by eauto].
  destruct (lookup _) as [[t|]|[]]; by eauto.
Qed.

(** A relay only passes messages on, in order, and stops at the first end. *)
Lemma relay_log l : forall log, exists es,
  (relay l log).2 = (log ++ es)%list /\
  es = ((take (length es) (l ≫= fun mo => (relay_message mo.1).1)))%list.
Proof.
  induction l as [|[m ok] l IH]; intros log; cbn [relay].
  - exists []. by rewrite app_nil_r.
  - destruct (relay_message m) as [es ended] eqn:Em. unfold bind, modify, ret, throw.
    assert (Hes : (es = [] \/ exists e, es = [e])) by (destruct m; simpl in Em; simplify_eq; eauto).
    destruct ok; [|exists []; by rewrite app_nil_r]. destruct ended; simpl.
    + exists es. split; [done|]. cbn [mbind list_bind]. rewrite Em. simpl. by rewrite take_app_length.
    + destruct (IH (log ++ es)%list) as (es' & -> & E). exists (es ++ es')%list. split; [by rewrite app_assoc|].
      cbn [mbind list_bind]. rewrite Em. simpl. rewrite length_app, take_app_add. f_equal. exact E.
Qed.

Definition is_relayed (e : event) : bool :=
  match e with
  | EToBackend _ | EToClient _ | ECloseBackend _ _ | ECloseClient _ _ => true
  | _ => false
  end.

Lemma relay_only l log : exists r es, relay l log = (r, log ++ es)%list /\ forall e, e ∈ es -> is_relayed e = true.
Proof.
  destruct (relay_log l log) as (es & H1 & H2). destruct (relay l log) as [r log'] eqn:E. simpl in H1. subst log'.
  exists r, es. split; [done|]. intros e He. rewrite H2 in He. apply elem_of_take in He as (i & He & _).
  apply list_elem_of_lookup_2 in He. apply list_elem_of_bind in He as ([m ok] & He & _). simpl in He.
  destruct m; simpl in He; rewrite ?list_elem_of_singleton in He; set_solver.
Qed.

(** What follows the opening of the connection to the backend: the client is
    accepted with the backend's subprotocol and messages are relayed, or it is
    turned away, or both. *)
Definition ws_served (c : connect_result) (log : list event) : Prop :=
  match c with
  | Connected subprotocol true messages =>
      exists es, (forall e, e ∈ es -> is_relayed e = true) /\
        es = take (length es) (messages ≫= fun mo => (relay_message mo.1).1) /\
        (log = EAccept subprotocol :: es \/ log = EAccept subprotocol :: es ++ [EFail 1011])
  | Connected _ false _ | ConnectOSError | ConnectException => log = [EFail 1011]
  | InvalidStatus => log = [EFail 1008]
  end%list.

Lemma ws_connected c o log0 :
  exists r log, (emit (ESend o);;;
    match c with
    | InvalidStatus => emit (EFail 1008)
    | ConnectOSError | ConnectException => emit (EFail 1011)
    | Connected subprotocol accepted messages =>
        catch ((if accepted then emit (EAccept subprotocol) else throw OtherException);;; relay messages)
          (fun e => match e with BaseExn => None | _ => Some (emit (EFail 1011)) end)
    end) log0 = (r, log0 ++ ESend o :: log)%list /\ ws_served c log.
Proof.
  unfold emit, bind, catch, modify, throw. destruct c as [| | |sub [] messages]; simpl;
    try (eexists _, _; split; [by rewrite <- app_assoc|done]).
  destruct (relay_log messages ((log0 ++ [ESend o]) ++ [EAccept sub])%list) as (es & H1 & H2).
  destruct (relay_only messages ((log0 ++ [ESend o]) ++ [EAccept sub])%list) as (r & es' & H3 & H4).
  rewrite H3 in *. simpl in H1. apply app_inv_head in H1 as <-.
  destruct r as [[]|[]]; eexists _, _; (split; [by rewrite <- !app_assoc|]);
    exists es'; split_and!; simpl; auto.
Qed.


(** ** Redirects *)

Lemma find_at_found needle l n :
  find_at needle l = Some n -> take (n + length needle) l = (take n l ++ needle)%list.
Proof.
  revert n. induction l as [|c l IH]; intros n; cbn [find_at].
  - case_bool_decide as H; [|done]. intros [= <-]. simpl in *. by rewrite H.
  - case_bool_decide as H; [intros [= <-]; by simpl|]. destruct (find_at needle l) as [m|]; [|done].
    intros [= <-]. simpl. f_equal. by apply IH.
Qed.

Lemma find_at_first needle pre rest :
  exists n, find_at needle (pre ++ needle ++ rest) = Some n /\ (n <= length pre)%nat.
Proof.
  induction pre as [|c pre (n & IH & Hn)].
  - exists 0%nat. split; [|simpl; lia]. simpl. destruct (needle ++ rest)%list as [|x l] eqn:E; cbn [find_at].
    + apply app_nil in E as [-> _]. done.
    + rewrite <- E, take_app_length, bool_decide_true; done.
  - simpl. case_bool_decide; [exists 0%nat; split; [done|lia]|]. rewrite IH. exists (S n). split; [done|lia].
Qed.

(** A location that starts at the root of the sandbox's server. *)
Definition root_relative (location : string) : Prop :=
  startswith location "/" = true /\ startswith location "//" = false.


(** ** Examples *)

Definition demo_endpoint : Endpoint :=
  {| ep_endpoint := "10.0.0.7:8080"; ep_headers := Some [(OPEN_SANDBOX_SECURE_ACCESS_HEADER, "s3cret")] |}.

Definition demo_server (provider : option tenant_lookup) : server :=
  mkServer (fun id _ => if (id =? "sb-1")%string then Ok demo_endpoint else Raise (HTTPException 404 None))
    provider true None.

Definition demo_conn (path : string) (h : headers) : conn :=
  mkConn "GET" "https" path "" h (Some "203.0.113.5") [].

Definition demo_request : conn :=
  demo_conn "/v1/sandboxes/sb-1/proxy/8080/x"
    [("host", "api.example.com"); ("cookie", "session=1"); ("opensandbox-secure-access", "s3cret")].

(** The backend answers with a redirect; the client leaves before the end. *)
Definition demo_send (o : outbound) : res proxy_exn backend_response :=
  Ok (mkBR 302 [("location", "/login"); ("connection", "x-hop"); ("x-hop", "1")] (Raise BaseExn)).

Definition demo_run := proxy_http_request (demo_server None) demo_send demo_request "sb-1" 8080 "x" [].

Lemma proxy_gate_witness :
  demo_run = (demo_run.1, demo_run.2) /\
  rs_headers <$> (match demo_run.1 with Ok r => Some r | _ => None end) =
    Some [("location", "/v1/sandboxes/sb-1/proxy/8080/login")] /\
  exists o endpoint, ESend o ∈ demo_run.2 /\
    authorised (demo_server None) (c_headers demo_request) "sb-1" 8080 endpoint /\
    o_url o = "http://10.0.0.7:8080/x" /\
    o_headers o = [("X-Forwarded-Proto", "https"); ("X-Forwarded-Host", "api.example.com");
                   ("X-Forwarded-For", "203.0.113.5")].
Proof.
  split; [reflexivity|]. split; [vm_compute; reflexivity|].
  assert (Hin : ESend (http_outbound demo_request demo_endpoint "x") ∈ demo_run.2).
  { vm_compute. right. left. }
  destruct (proxy_gate (demo_server None) demo_send demo_request "sb-1" 8080 "x" demo_run.1 demo_run.2) as (H & _);
    [reflexivity|].
  destruct (H _ Hin) as (endpoint & Ha & _).
  exists (http_outbound demo_request demo_endpoint "x"), endpoint.
  split; [exact Hin|]. split; [exact Ha|]. split; vm_compute; reflexivity.
Defined.

Lemma backend_released_witness :
  let run := proxy_sandbox_endpoint_request (demo_server None) demo_send demo_request "sb-1" 8080 "x" [] in
  run.1 = Raise BaseExn /\ opened run.2 = 1%nat /\ opened run.2 = closed run.2.
Proof.
  set (run := proxy_sandbox_endpoint_request _ _ _ _ _ _ _). split; [vm_compute; reflexivity|].
  split; [vm_compute; reflexivity|].
  exact (proj1 (backend_released (demo_server None) demo_send demo_request "sb-1" 8080 "x" run.1 run.2 eq_refl)).
Defined.

Definition demo_tenants (key : string) : res lookup_error (option TenantEntry) :=
  if (key =? "k1")%string then Ok (Some (mkTenant (TString "a") "ns-a" ["k1"])) else Ok None.

Definition demo_ws : conn :=
  demo_conn "/sandboxes/sb-1/proxy/8080"
    [("host", "api.example.com"); ("open-sandbox-api-key", "k1"); ("opensandbox-secure-access", "s3cret")].

Definition demo_connect (o : outbound) : connect_result :=
  Connected None true [(FromClient (Text "hi"), true); (FromBackend (Text "ho"), true);
                       (ClientDisconnect (Some 1001) None, true); (FromBackend (Text "late"), true)].



(** ** Where the code does something else *)

(** When the backend cannot be reached, the answer's detail prints the endpoint
    with its headers, credentials included: the egress token, which the code
    otherwise keeps from callers, reaches whoever asks. *)
Lemma bad_gateway_shows_token :
  let endpoint := {| ep_endpoint := "10.0.0.7:18080"; ep_headers := Some [(OPEN_SANDBOX_EGRESS_AUTH_HEADER, "tok")] |} in
  let sv := mkServer (fun _ _ => Ok endpoint) None false None in
  (proxy_http_request sv (fun _ => Raise ConnectError) (demo_conn "/sandboxes/sb-1/proxy/18080" []) "sb-1" 18080 "" []).1 =
    Raise (HTTPException 502 (Some endpoint)).
Proof. reflexivity. Qed.

(** A port written with leading zeros reaches the same sandbox, but its
    redirects leave the route. *)
Lemma padded_port_redirect_escapes :
  rewrite_proxy_location None "/login" "/sandboxes/sb-1/proxy/08080/x" "sb-1" 8080 = Some "/login".
Proof. by vm_compute. Qed.

(** Only the first [Connection] field is read: a field listed by a second one is
    passed on. *)
Lemma second_connection_ignored :
  od_get "x-hop" (o_headers (http_outbound
    (demo_conn "/" [("connection", "keep-alive"); ("connection", "x-hop"); ("x-hop", "1")]) demo_endpoint "")) = Some "1".
Proof. by vm_compute. Qed.

(** A routing header of the endpoint does not replace the client's field of the
    same name in another case: both are sent, the client's first. *)
Lemma routing_header_doubled :
  o_headers (http_outbound (mkConn "GET" "http" "/" "" [("opensandbox-ingress-to", "other-80")] None [])
    {| ep_endpoint := "gw"; ep_headers := Some [(OPEN_SANDBOX_INGRESS_HEADER, "sb-1-80")] |} "") =
  [("opensandbox-ingress-to", "other-80"); (OPEN_SANDBOX_INGRESS_HEADER, "sb-1-80"); ("X-Forwarded-Proto", "http")].
Proof. by vm_compute. Qed.

(** Of a field that is repeated, a request keeps the last value and a WebSocket
    the first. *)
Lemma repeated_field_lost :
  let rq := demo_conn "/" [("accept", "a"); ("accept", "b")] in
  od_get "accept" (o_headers (http_outbound rq demo_endpoint "")) = Some "b" /\
  od_get "accept" (o_headers (ws_outbound rq demo_endpoint "")) = Some "a".
Proof. by vm_compute. Qed.
