(* ===== verification/DockerLifecycle.v ===== *)
(** * Sandboxes on Docker

    [server/opensandbox_server/services/docker/docker_service.py] with the mount
    counts of [ossfs_mixin.py]: creating, renewing, deleting and expiring
    sandboxes, and what a restart of the server restores.

    Requests and timers run in threads of the one server process.  A step of a
    thread is a section under one of the service's locks, a call to the Docker
    daemon, a read or write of the persisted expirations, a mount command, or
    [Timer.start]; between any two steps other threads run.  Timers are objects
    shared by reference, so they are kept in a heap.  Whether a call to the
    daemon, the file system or a mount command succeeds is an argument of the
    step.  Instants are microseconds; the labels are those the life cycle reads,
    decoded. *)

From Stdlib Require Import ZArith Lia String.
From stdpp Require Import base numbers strings gmap list.
From S2P Require Import Prelude.

Open Scope string_scope.
Open Scope Z_scope.

(** ** Data *)

(** [opensandbox.io/expires-at], [.../manual-cleanup] and [.../ossfs-mounts] *)
Record labels := mkLabels {
  lb_expires_at : option Z;
  lb_manual : bool;
  lb_mounts : list string;
}.

Record container := mkContainer {
  ct_labels : labels;
  ct_running : bool;
}.

(** [threading.Timer]: made, started, cancelled before it fired, fired *)
Inductive timer_state := TNew | TStarted | TCancelled | TFired.

#[global] Instance timer_state_eq_dec : EqDecision timer_state.
Proof. solve_decision. Defined.

Record timer := mkTimer {
  tm_id : string;
  tm_at : Z;
  tm_state : timer_state;
  tm_fallback : list string;
}.

(** HTTP statuses a request can end with. *)
Definition outcome := res Z unit.

(** What follows the release of mounts. *)
Inductive next :=
  | NextDone (r : outcome)
  | NextDelete (id : string) (r : outcome).   (** [self._metadata_store.delete] *)

(** What follows [timer.start()]. *)
Inductive started :=
  | StartedDone
  | StartedRenew (id : string) (new : Z) (c : container).

(** Where a thread stands; [c] is the container as the daemon described it. *)
Inductive pc :=
  (** [_expire_sandbox] *)
  | ELookup (id : string) (fallback : list string)
  | EFailed (id : string) (fallback : list string)
  | ERead (id : string) (c : container)
  | EReadStore (id : string) (c : container)
  | ECheck (id : string) (c : container) (expires : option Z)
  | ESchedule (id : string) (at_ : Z) (fallback : list string)
  | EKill (id : string) (c : container)
  | ERemove (id : string) (c : container)
  (** [renew_expiration] *)
  | RLookup (id : string) (new : Z)
  | RRead (id : string) (new : Z) (c : container)
  | RReadStore (id : string) (new : Z) (c : container)
  | RSchedule (id : string) (new : Z) (c : container)
  | RStore (id : string) (new : Z) (c : container)
  | RLabels (id : string) (new : Z) (c : container)
  (** [delete_sandbox] *)
  | DLookup (id : string)
  | DKill (id : string) (c : container)
  | DRemove (id : string) (c : container)
  (** [create_sandbox], from the mounts on *)
  | CMount (id : string) (l : labels) (todo done_ : list string)
  | CRun (id : string) (l : labels)
  | CStart (id : string) (l : labels)
  | CClean (id : string) (l : labels)
  | CSchedule (id : string) (expires : Z)
  (** shared ends *)
  | Starting (i : nat) (k : started)
  | Untrack (id : string) (mounts : list string) (n : next)
  | Release (todo : list string) (n : next)
  | Unmount (key : string) (todo : list string) (n : next)
  | Forget (id : string) (r : outcome)
  | Done (r : outcome).

(** The service, and the daemon, the file system and the mounts around it. *)
Record Docker := mkDocker {
  dk_containers : gmap string container;
  dk_sandbox_expirations : gmap string Z;
  dk_expiration_timers : gmap string nat;
  dk_timers : list timer;
  dk_store : gmap string Z;
  dk_ref_counts : gmap string nat;
  dk_mounted : gset string;
  dk_threads : gmap nat pc;
  (** ghost: the ids that were ever used, and the expirations each was given,
      by its creation and by renewals *)
  dk_used : gset string;
  dk_given : gmap string (list Z);
}.

Definition init_docker : Docker := mkDocker ∅ ∅ ∅ [] ∅ ∅ ∅ ∅ ∅ ∅.

Definition set_containers x (s : Docker) : Docker :=
  mkDocker x (dk_sandbox_expirations s) (dk_expiration_timers s) (dk_timers s) (dk_store s)
    (dk_ref_counts s) (dk_mounted s) (dk_threads s) (dk_used s) (dk_given s).
Definition set_tracking e t h l (s : Docker) : Docker :=
  mkDocker (dk_containers s) e t h (dk_store s) (dk_ref_counts s) (dk_mounted s) (dk_threads s) (dk_used s) l.
Definition set_store x (s : Docker) : Docker :=
  mkDocker (dk_containers s) (dk_sandbox_expirations s) (dk_expiration_timers s) (dk_timers s) x
    (dk_ref_counts s) (dk_mounted s) (dk_threads s) (dk_used s) (dk_given s).
Definition set_mounts r m (s : Docker) : Docker :=
  mkDocker (dk_containers s) (dk_sandbox_expirations s) (dk_expiration_timers s) (dk_timers s) (dk_store s)
    r m (dk_threads s) (dk_used s) (dk_given s).
Definition set_pc (t : nat) (p : pc) (s : Docker) : Docker :=
  mkDocker (dk_containers s) (dk_sandbox_expirations s) (dk_expiration_timers s) (dk_timers s) (dk_store s)
    (dk_ref_counts s) (dk_mounted s) (<[t := p]> (dk_threads s)) (dk_used s) (dk_given s).
Definition use_id (id : string) (s : Docker) : Docker :=
  mkDocker (dk_containers s) (dk_sandbox_expirations s) (dk_expiration_timers s) (dk_timers s) (dk_store s)
    (dk_ref_counts s) (dk_mounted s) (dk_threads s) ({[ id ]} ∪ dk_used s) (dk_given s).

(** The expirations an id was given. *)
Definition given (id : string) (s : Docker) : list Z := default [] (dk_given s !! id).
Definition give (id : string) (e : Z) (s : Docker) : gmap string (list Z) := <[id := e :: given id s]> (dk_given s).
Definition set_given x (s : Docker) : Docker :=
  mkDocker (dk_containers s) (dk_sandbox_expirations s) (dk_expiration_timers s) (dk_timers s) (dk_store s)
    (dk_ref_counts s) (dk_mounted s) (dk_threads s) (dk_used s) x.

(** ** Timers *)

Definition with_state (x : timer_state) (t : timer) : timer := mkTimer (tm_id t) (tm_at t) x (tm_fallback t).

(** [timer.cancel()] *)
Definition cancel (t : timer) : timer :=
  match tm_state t with TNew | TStarted => with_state TCancelled t | _ => t end.

Definition start_timer (t : timer) : timer :=
  match tm_state t with TNew => with_state TStarted t | _ => t end.

Definition cancel_existing (id : string) (s : Docker) : list timer :=
  match dk_expiration_timers s !! id with
  | Some i => alter cancel i (dk_timers s)
  | None => dk_timers s
  end.

(** The locked section of [_schedule_expiration]: the number of the new timer,
    which is then started. *)
Definition schedule_expiration (now : Z) (id : string) (expires_at : Z) (update_expiration : bool)
    (fallback : list string) (s : Docker) : nat * Docker :=
  let i := length (dk_timers s) in
  (i, set_tracking
        (if update_expiration then <[id := expires_at]> (dk_sandbox_expirations s) else dk_sandbox_expirations s)
        (<[id := i]> (dk_expiration_timers s))
        (cancel_existing id s ++ [mkTimer id (Z.max now expires_at) TNew fallback])%list
        (if update_expiration then give id expires_at s else dk_given s) s).

Definition remove_expiration_tracking (id : string) (s : Docker) : Docker :=
  set_tracking (delete id (dk_sandbox_expirations s)) (delete id (dk_expiration_timers s))
    (cancel_existing id s) (dk_given s) s.

(** [timer.start()] *)
Definition begin_timer (i : nat) (s : Docker) : Docker :=
  set_tracking (dk_sandbox_expirations s) (dk_expiration_timers s) (alter start_timer i (dk_timers s)) (dk_given s) s.

(** [_has_manual_cleanup] and the fall-backs of [_get_tracked_expiration] *)
Definition stored_expiration (id : string) (c : container) (s : Docker) : option Z :=
  match dk_store s !! id with Some e => Some e | None => lb_expires_at (ct_labels c) end.

(** ** Mounts *)

Definition refs (key : string) (s : Docker) : nat := default 0%nat (dk_ref_counts s !! key).

(** [_ensure_ossfs_mounted]; [ok]: whether mounting succeeds *)
Definition ensure_ossfs_mounted (ok : bool) (key : string) (s : Docker) : option Docker :=
  if (0 <? refs key s)%nat then Some (set_mounts (<[key := S (refs key s)]> (dk_ref_counts s)) (dk_mounted s) s)
  else if bool_decide (key ∈ dk_mounted s) then Some (set_mounts (<[key := 1%nat]> (dk_ref_counts s)) (dk_mounted s) s)
  else if ok then Some (set_mounts (<[key := 1%nat]> (dk_ref_counts s)) ({[ key ]} ∪ dk_mounted s) s)
  else None.

(** The locked section of [_release_ossfs_mount]; [true]: unmount *)
Definition release_ossfs_mount (key : string) (s : Docker) : bool * Docker :=
  match refs key s with
  | O => (false, s)
  | S O => (true, set_mounts (delete key (dk_ref_counts s)) (dk_mounted s) s)
  | S n => (false, set_mounts (<[key := n]> (dk_ref_counts s)) (dk_mounted s) s)
  end.

Definition unmount (key : string) (s : Docker) : Docker :=
  set_mounts (dk_ref_counts s) (dk_mounted s ∖ {[ key ]}) s.

(** ** The daemon *)

(** [container.kill()] and [container.remove(force=True)]; [ok]: whether the
    daemon answers.  A container that is gone is an error, and one that is not
    running cannot be killed. *)
Inductive kill_result := Killed | NotRunning | KillFailed.

Definition kill_container (ok : bool) (id : string) (s : Docker) : kill_result * Docker :=
  match dk_containers s !! id with
  | Some c =>
      if negb ok then (KillFailed, s)
      else if ct_running c
      then (Killed, set_containers (<[id := mkContainer (ct_labels c) false]> (dk_containers s)) s)
      else (NotRunning, s)
  | None => (KillFailed, s)
  end.

Definition remove_container (ok : bool) (id : string) (s : Docker) : bool * Docker :=
  match dk_containers s !! id with
  | Some _ => if ok then (true, set_containers (delete id (dk_containers s)) s) else (false, s)
  | None => (false, s)
  end.

Definition set_label (id : string) (new : Z) (s : Docker) : Docker :=
  match dk_containers s !! id with
  | Some c =>
      let l := ct_labels c in
      set_containers (<[id := mkContainer (mkLabels (Some new) (lb_manual l) (lb_mounts l)) (ct_running c)]> (dk_containers s)) s
  | None => s
  end.

(** ** Steps *)

Definition ok_ : outcome := Ok tt.

(** After the container was looked up: [None], the daemon does not answer;
    [Some None], there is no container. *)
Definition lookup_container (ok : bool) (id : string) (s : Docker) : option (option container) :=
  if ok then Some (dk_containers s !! id) else None.

(** [_expire_sandbox] *)
Definition expire_step (now : Z) (ok : bool) (t : nat) (p : pc) (s : Docker) : Docker :=
  match p with
  | ELookup id fallback =>
      match lookup_container ok id s with
      | None => set_pc t (EFailed id fallback) s
      | Some None => set_pc t (Untrack id fallback (NextDelete id ok_)) s
      | Some (Some c) => set_pc t (ERead id c) s
      end
  | EFailed id fallback =>
      match dk_sandbox_expirations s !! id with
      | Some e => if now <? e then set_pc t (Done ok_) s else set_pc t (ESchedule id (now + 30000000) fallback) s
      | None => set_pc t (ESchedule id (now + 30000000) fallback) s
      end
  | ERead id c =>
      match dk_sandbox_expirations s !! id with
      | Some e => set_pc t (ECheck id c (Some e)) s
      | None => set_pc t (EReadStore id c) s
      end
  | EReadStore id c => set_pc t (ECheck id c (stored_expiration id c s)) s
  | ECheck id c expires =>
      match expires with
      | Some e => if now <? e then set_pc t (ESchedule id e []) s else set_pc t (EKill id c) s
      | None => set_pc t (EKill id c) s
      end
  | ESchedule id at_ fallback =>
      let '(i, s) := schedule_expiration now id at_ false fallback s in set_pc t (Starting i StartedDone) s
  | EKill id c =>
      let s := if ct_running c then (kill_container ok id s).2 else s in set_pc t (ERemove id c) s
  | ERemove id c =>
      let '(_, s) := remove_container ok id s in
      set_pc t (Untrack id (lb_mounts (ct_labels c)) (NextDelete id ok_)) s
  | _ => s
  end.

(** [renew_expiration] *)
Definition renew_step (now : Z) (ok : bool) (t : nat) (p : pc) (s : Docker) : Docker :=
  match p with
  | RLookup id new =>
      match lookup_container ok id s with
      | None => set_pc t (Done (Raise 500)) s
      | Some None => set_pc t (Done (Raise 404)) s
      | Some (Some c) =>
          if new <=? now then set_pc t (Done (Raise 400)) s
          else if lb_manual (ct_labels c) then set_pc t (Done (Raise 409)) s
          else set_pc t (RRead id new c) s
      end
  | RRead id new c =>
      match dk_sandbox_expirations s !! id with
      | Some _ => set_pc t (RSchedule id new c) s
      | None => set_pc t (RReadStore id new c) s
      end
  | RReadStore id new c =>
      match stored_expiration id c s with
      | Some _ => set_pc t (RSchedule id new c) s
      | None => set_pc t (Done (Raise 409)) s
      end
  | RSchedule id new c =>
      let '(i, s) := schedule_expiration now id new true [] s in set_pc t (Starting i (StartedRenew id new c)) s
  | RStore id new c => set_pc t (RLabels id new c) (if ok then set_store (<[id := new]> (dk_store s)) s else s)
  | RLabels id new c => set_pc t (Done ok_) (if ok then set_label id new s else s)
  | _ => s
  end.

(** [delete_sandbox] *)
Definition delete_step (ok : bool) (t : nat) (p : pc) (s : Docker) : Docker :=
  match p with
  | DLookup id =>
      match lookup_container ok id s with
      | None => set_pc t (Done (Raise 500)) s
      | Some None => set_pc t (Done (Raise 404)) s
      | Some (Some c) => set_pc t (DKill id c) s
      end
  | DKill id c =>
      match kill_container ok id s with
      | (Killed, s) | (NotRunning, s) => set_pc t (DRemove id c) s
      | (KillFailed, s) => set_pc t (Untrack id (lb_mounts (ct_labels c)) (NextDelete id (Raise 500))) s
      end
  | DRemove id c =>
      let '(removed, s) := remove_container ok id s in
      set_pc t (Untrack id (lb_mounts (ct_labels c)) (NextDelete id (if removed : bool then ok_ else Raise 500))) s
  | _ => s
  end.

(** [_provision_sandbox]: the mounts, the container ([_create_and_start_container]),
    the timer. *)
Definition create_step (now : Z) (ok : bool) (t : nat) (p : pc) (s : Docker) : Docker :=
  match p with
  | CMount id l todo done_ =>
      match todo with
      | key :: todo =>
          match ensure_ossfs_mounted ok key s with
          | Some s => set_pc t (CMount id l todo (done_ ++ [key])) s
          | None => set_pc t (Release done_ (NextDone (Raise 500))) s
          end
      | [] => set_pc t (CRun id l) s
      end
  | CRun id l =>
      if ok then
        let s := set_containers (<[id := mkContainer l false]> (dk_containers s)) s in
        set_pc t (CStart id l) (match lb_expires_at l with Some e => set_given (give id e s) s | None => s end)
      else set_pc t (Release (lb_mounts l) (NextDone (Raise 500))) s
  | CStart id l =>
      match dk_containers s !! id with
      | Some c =>
          if ok
          then set_pc t (match lb_expires_at l with Some e => CSchedule id e | None => Done ok_ end)
                 (set_containers (<[id := mkContainer (ct_labels c) true]> (dk_containers s)) s)
          else set_pc t (CClean id l) s
      | None => set_pc t (CClean id l) s
      end
  | CClean id l =>
      let '(_, s) := remove_container ok id s in set_pc t (Release (lb_mounts l) (NextDone (Raise 500))) s
  | CSchedule id e =>
      let '(i, s) := schedule_expiration now id e true [] s in set_pc t (Starting i StartedDone) s
  | _ => s
  end.

Definition next_pc (n : next) : pc :=
  match n with NextDone r => Done r | NextDelete id r => Forget id r end.

(** The ends they share. *)
Definition end_step (ok : bool) (t : nat) (p : pc) (s : Docker) : Docker :=
  match p with
  | Starting i k =>
      set_pc t (match k with StartedDone => Done ok_ | StartedRenew id new c => RStore id new c end)
        (begin_timer i s)
  | Untrack id mounts n => set_pc t (Release mounts n) (remove_expiration_tracking id s)
  | Release (key :: todo) n =>
      let '(should_unmount, s) := release_ossfs_mount key s in
      set_pc t (if should_unmount : bool then Unmount key todo n else Release todo n) s
  | Release [] n => set_pc t (next_pc n) s
  | Unmount key todo n => set_pc t (Release todo n) (if ok then unmount key s else s)
  | Forget id r => set_pc t (Done r) (if ok then set_store (delete id (dk_store s)) s else s)
  | _ => s
  end.

Definition thread_step (now : Z) (ok : bool) (t : nat) (p : pc) (s : Docker) : Docker :=
  match p with
  | ELookup _ _ | EFailed _ _ | ERead _ _ | EReadStore _ _ | ECheck _ _ _ | ESchedule _ _ _ | EKill _ _ | ERemove _ _ =>
      expire_step now ok t p s
  | RLookup _ _ | RRead _ _ _ | RReadStore _ _ _ | RSchedule _ _ _ | RStore _ _ _ | RLabels _ _ _ =>
      renew_step now ok t p s
  | DLookup _ | DKill _ _ | DRemove _ _ => delete_step ok t p s
  | CMount _ _ _ _ | CRun _ _ | CStart _ _ | CClean _ _ | CSchedule _ _ => create_step now ok t p s
  | Starting _ _ | Untrack _ _ _ | Release _ _ | Unmount _ _ _ | Forget _ _ | Done _ => end_step ok t p s
  end.

(** ** Restart *)

(** Pass 1 of [_restore_existing_sandboxes] on one container. *)
Definition restore_one (now : Z) (acc : Docker * list (string * list string)) (kc : string * container)
  : Docker * list (string * list string) :=
  let '(s, expired) := acc in
  let '(id, c) := kc in
  match stored_expiration id c s with
  | None => (s, expired)
  | Some e =>
      if e <=? now then (s, (expired ++ [(id, lb_mounts (ct_labels c))])%list)
      else
        let '(i, s) := schedule_expiration now id e true [] s in
        (begin_timer i s, expired)
  end.

Definition count_mounts (cs : list (string * container)) : gmap string nat :=
  foldl (fun m key => <[key := S (default 0%nat (m !! key))]> m) ∅ (cs ≫= fun kc => lb_mounts (ct_labels kc.2)).

(** The server starts again: threads, timers and counts are gone, containers,
    mounts and persisted expirations are not; [ok]: whether the containers can
    be listed.  The expired sandboxes are ended one after the other by the
    constructor; here by a thread each. *)
Definition forget_process (s : Docker) : Docker :=
  mkDocker (dk_containers s) ∅ ∅ [] (dk_store s) ∅ (dk_mounted s) ∅ (dk_used s) (dk_given s).

Definition expire_threads (expired : list (string * list string)) : gmap nat pc :=
  map_seq 0 ((fun e => ELookup e.1 e.2) <$> expired).

Definition restore_existing_sandboxes (now : Z) (ok : bool) (s : Docker) : Docker :=
  if ok then
    let cs := map_to_list (dk_containers s) in
    let '(s, expired) := foldl (restore_one now) (s, []) cs in
    mkDocker (dk_containers s) (dk_sandbox_expirations s) (dk_expiration_timers s) (dk_timers s) (dk_store s)
      (count_mounts cs) (dk_mounted s) (expire_threads expired) (dk_used s) (dk_given s)
  else s.

Definition restart (now : Z) (ok : bool) (s : Docker) : Docker :=
  restore_existing_sandboxes now ok (forget_process s).

(** ** Histories *)

Inductive action :=
  | ACreate (t : nat) (id : string) (expires : option Z) (mounts : list string)
  | ARenew (t : nat) (id : string) (new : Z)
  | ADelete (t : nat) (id : string)
  | AFire (t i : nat)                    (** timer [i] fires: thread [t] *)
  | AStep (t : nat) (ok : bool)          (** the next step of a thread *)
  | AExit (id : string)                  (** a container stops by itself *)
  | ARestart (ok : bool).

Definition idle (o : option pc) : bool :=
  match o with None | Some (Done _) => true | _ => false end.

(** [None]: the action is not possible.  Ids are fresh, mount keys distinct; a
    timer fires once, not before its time. *)
Definition exec (now : Z) (a : action) (s : Docker) : option Docker :=
  match a with
  | ACreate t id expires mounts =>
      if idle (dk_threads s !! t) && negb (bool_decide (id ∈ dk_used s)) && bool_decide (NoDup mounts)
      then Some (set_pc t (CMount id (mkLabels expires (negb (bool_decide (is_Some expires))) mounts) mounts [])
                   (use_id id s))
      else None
  | ARenew t id new => if idle (dk_threads s !! t) then Some (set_pc t (RLookup id new) s) else None
  | ADelete t id => if idle (dk_threads s !! t) then Some (set_pc t (DLookup id) s) else None
  | AFire t i =>
      match dk_timers s !! i with
      | Some tm =>
          if idle (dk_threads s !! t) && bool_decide (tm_state tm = TStarted) && (tm_at tm <=? now)
          then Some (set_pc t (ELookup (tm_id tm) (tm_fallback tm))
                 (set_tracking (dk_sandbox_expirations s) (dk_expiration_timers s)
                    (alter (with_state TFired) i (dk_timers s)) (dk_given s) s))
          else None
      | None => None
      end
  | AStep t ok =>
      match dk_threads s !! t with
      | Some (Done _) | None => None
      | Some p => Some (thread_step now ok t p s)
      end
  | AExit id =>
      match dk_containers s !! id with
      | Some c => Some (set_containers (<[id := mkContainer (ct_labels c) false]> (dk_containers s)) s)
      | None => None
      end
  | ARestart ok => Some (restart now ok s)
  end.

Fixpoint run (h : list (Z * action)) (s : Docker) : option Docker :=
  match h with
  | [] => Some s
  | (now, a) :: h => s' ← exec now a s; run h s'
  end.

(** [n] steps of a thread. *)
Definition go (now : Z) (t n : nat) : list (Z * action) := replicate n (now, AStep t true).

(** Sandbox [a], created at 0 by thread 0, expires at 10. *)
Definition create_a : list (Z * action) := (0, ACreate 0 "a" (Some 10) []) :: go 0 0 5.

(** ** What every history keeps *)

(** Histories run forward in time; [until]: the time of the last action. *)
Fixpoint forward (T : Z) (h : list (Z * action)) : Prop :=
  match h with
  | [] => True
  | (now, _) :: h => T <= now /\ forward now h
  end.

Fixpoint until (T : Z) (h : list (Z * action)) : Z :=
  match h with [] => T | (now, _) :: h => until now h end.

(** The id a thread is about to make a container for. *)
Definition creating (p : pc) : option string :=
  match p with CMount id _ _ _ | CRun id _ => Some id | _ => None end.

(** An id that will get no container any more, if it has none. *)
Definition born (id : string) (s : Docker) : Prop :=
  id ∈ dk_used s /\ forall t p, dk_threads s !! t = Some p -> creating p <> Some id.

(** What a container's labels say agrees with what its id was given. *)
Definition labelled (id : string) (l : labels) (s : Docker) : Prop :=
  (forall e, lb_expires_at l = Some e -> e ∈ given id s) /\ (lb_manual l = false -> is_Some (lb_expires_at l)).

Definition described (id : string) (c : container) (s : Docker) : Prop :=
  born id s /\ labelled id (ct_labels c) s.

(** Ids with an expiration. *)
Definition mortal (id : string) (s : Docker) : Prop := born id s /\ given id s <> [].

(** What a thread knows. *)
Definition pc_ok (T : Z) (s : Docker) (p : pc) : Prop :=
  match p with
  | ELookup id _ | EFailed id _ | ESchedule id _ _ => mortal id s
  | ERead id c | EReadStore id c => mortal id s /\ described id c s /\ is_Some (lb_expires_at (ct_labels c))
  | ECheck id c o => mortal id s /\ exists e, o = Some e /\ e ∈ given id s
  | EKill id c | ERemove id c => mortal id s /\ exists e, e ∈ given id s /\ e <= T
  | RLookup _ _ => True
  | RRead id _ c | RReadStore id _ c | RSchedule id _ c => mortal id s /\ described id c s
  | RStore id new _ | RLabels id new _ | Starting _ (StartedRenew id new _) => mortal id s /\ new ∈ given id s
  | DLookup _ | Done _ | Starting _ StartedDone => True
  | DKill id _ | DRemove id _ | Untrack id _ _ => born id s
  | CStart id l | CClean id l => born id s /\ forall e, lb_expires_at l = Some e -> mortal id s /\ e ∈ given id s
  | CMount id l _ _ | CRun id l => id ∈ dk_used s /\ (lb_manual l = false -> is_Some (lb_expires_at l))
  | CSchedule id e => mortal id s /\ e ∈ given id s
  | Release _ _ | Unmount _ _ _ | Forget _ _ => True
  end.

Record Inv (T : Z) (s : Docker) : Prop := {
  inv_threads : forall t p, dk_threads s !! t = Some p -> pc_ok T s p;
  inv_one : forall t u p q, dk_threads s !! t = Some p -> dk_threads s !! u = Some q ->
    is_Some (creating p) -> creating p = creating q -> t = u;
  inv_containers : forall id c, dk_containers s !! id = Some c ->
    described id c s /\ (lb_expires_at (ct_labels c) = None -> given id s = []);
  inv_timers : Forall (fun tm => mortal (tm_id tm) s) (dk_timers s);
  inv_store : forall id e, dk_store s !! id = Some e -> e ∈ given id s;
  inv_tracked : forall id e, dk_sandbox_expirations s !! id = Some e -> e ∈ given id s;
  inv_given : forall id, given id s <> [] -> born id s;
}.

(** What a thread knows stays true. *)
Definition extends (s s' : Docker) : Prop :=
  (forall id, id ∈ dk_used s -> id ∈ dk_used s') /\ (forall id, born id s -> born id s') /\
  (forall id e, e ∈ given id s -> e ∈ given id s').

Lemma extends_refl s : extends s s.
Proof. unfold extends. auto. Qed.

(** Only what was given grew. *)
Lemma extends_given s s' :
  dk_used s' = dk_used s -> dk_threads s' = dk_threads s ->
  (forall id e, e ∈ given id s -> e ∈ given id s') -> extends s s'.
Proof. intros Hu Ht Hg. unfold extends, born. rewrite Hu, Ht. auto. Qed.

Lemma mortal_extends id s s' : extends s s' -> mortal id s -> mortal id s'.
Proof.
  intros (_ & Hb & Hg) [H1 H2]. split; [by apply Hb|]. intros H3.
  destruct (given id s) as [|e l] eqn:E; [done|].
  assert (e ∈ given id s') as H by (apply Hg; rewrite E; left). rewrite H3 in H. by apply elem_of_nil in H.
Qed.

Lemma described_extends id c s s' : extends s s' -> described id c s -> described id c s'.
Proof. intros (_ & Hb & Hg) (H1 & H2 & H3). split; [by apply Hb|]. split; [|done]. intros e H. by apply Hg, H2. Qed.

Lemma pc_ok_extends T T' s s' p : T <= T' -> extends s s' -> pc_ok T s p -> pc_ok T' s' p.
Proof.
  intros HT He. pose proof He as (Hu & Hb & Hg).
  pose proof (fun id => mortal_extends id s s' He) as Hm. pose proof (fun id c => described_extends id c s s' He) as Hd.
  destruct p; simpl; repeat (try case_match); naive_solver lia.
Qed.

(** The parts of the state that the life cycle's facts read. *)
Lemma inv_later T T' s : T <= T' -> Inv T s -> Inv T' s.
Proof.
  intros HT [H1 H2 H3 H4 H5 H6 H7]. split; try done.
  intros t p Hp. apply (pc_ok_extends T T' s s p HT); [apply extends_refl|eauto].
Qed.

(** States that differ in mounts, mount counts and timer maps only. *)
Definition same_facts (s s' : Docker) : Prop :=
  dk_used s' = dk_used s /\ dk_given s' = dk_given s /\ dk_threads s' = dk_threads s.

Lemma same_facts_extends s s' : same_facts s s' -> extends s s'.
Proof.
  intros (H1 & H2 & H3). unfold extends, born, given. rewrite H1, H2, H3. auto.
Qed.

Lemma same_facts_sym s s' : same_facts s s' -> same_facts s' s.
Proof. unfold same_facts. naive_solver. Qed.

Lemma inv_same T s s' :
  same_facts s s' -> Inv T s ->
  (forall id c, dk_containers s' !! id = Some c ->
     described id c s /\ (lb_expires_at (ct_labels c) = None -> given id s = [])) ->
  Forall (fun tm => mortal (tm_id tm) s) (dk_timers s') ->
  (forall id e, dk_store s' !! id = Some e -> e ∈ given id s) ->
  (forall id e, dk_sandbox_expirations s' !! id = Some e -> e ∈ given id s) ->
  Inv T s'.
Proof.
  intros Hs [H1 H2 H3 H4 H5 H6 H7] Hc Ht Hst Htr. pose proof (same_facts_extends _ _ Hs) as He.
  destruct Hs as (E1 & E2 & E3). assert (forall id, given id s' = given id s) as E4 by (unfold given; intros; by rewrite E2).
  split; rewrite ?E3; try done; intros; rewrite ?E4 in *; eauto.
  - eapply pc_ok_extends; eauto; lia.
  - destruct (Hc id c) as [H8 H9]; [done|]. split; [|done]. eauto using described_extends.
  - eapply Forall_impl; [exact Ht|]. simpl. eauto using mortal_extends.
  - by apply He, H7.
Qed.

Lemma inv_set_mounts T r m s : Inv T s -> Inv T (set_mounts r m s).
Proof. intros H. apply (inv_same T s); [done|done|apply H..]. Qed.

Lemma inv_set_store T x s :
  Inv T s -> (forall id e, x !! id = Some e -> e ∈ given id s) -> Inv T (set_store x s).
Proof. intros H Hx. apply (inv_same T s); [done|done|apply H|apply H|done|apply H]. Qed.

Lemma inv_set_containers T x s :
  Inv T s ->
  (forall id c, x !! id = Some c ->
     described id c s /\ (lb_expires_at (ct_labels c) = None -> given id s = [])) ->
  Inv T (set_containers x s).
Proof. intros H Hx. apply (inv_same T s); [done|done|done|apply H..]. Qed.

(** A thread moves on. *)
Lemma born_set_pc t p s id :
  (forall o, creating p = Some o -> exists q, dk_threads s !! t = Some q /\ creating q = Some o) ->
  born id s -> born id (set_pc t p s).
Proof.
  intros Hp [H1 H2]. split; [done|]. simpl. intros u q [[<- <-]|[_ Hq]]%lookup_insert_Some; [|eauto].
  intros H. destruct (Hp _ H) as (q & Hq & H3). by eapply H2.
Qed.

Lemma inv_set_pc T t p s :
  Inv T s -> pc_ok T s p ->
  (forall o, creating p = Some o -> exists q, dk_threads s !! t = Some q /\ creating q = Some o) ->
  Inv T (set_pc t p s).
Proof.
  intros [H1 H2 H3 H4 H5 H6 H7] Hp Hc.
  assert (extends s (set_pc t p s)) as He by (split_and!; auto; intros; by apply born_set_pc).
  split; simpl; try done.
  - intros u q [[<- <-]|[_ Hq]]%lookup_insert_Some; (eapply pc_ok_extends; [|exact He|]; eauto; lia).
  - intros u v q r Hq Hr [o Ho] Hqr.
    apply lookup_insert_Some in Hq. apply lookup_insert_Some in Hr.
    destruct Hq as [[<- <-]|[? Hq]], Hr as [[<- <-]|[? Hr]]; try done.
    + destruct (Hc _ Ho) as (q' & Hq' & Ho'). eapply H2; eauto. congruence.
    + rewrite Ho in Hqr. symmetry in Hqr. destruct (Hc _ Hqr) as (q' & Hq' & Ho'). eapply H2; eauto. congruence.
    + eauto.
  - intros id c Hid. destruct (H3 _ _ Hid). split; eauto using described_extends.
  - eapply Forall_impl; [exact H4|]. simpl. eauto using mortal_extends.
  - intros id Hid. by apply He, H7.
Qed.

Lemma alter_timers (P : timer -> Prop) f i (l : list timer) :
  (forall tm, P tm -> P (f tm)) -> Forall P l -> Forall P (alter f i l).
Proof. intros Hf H. apply Forall_alter; [done|]. intros; by apply Hf. Qed.

Lemma same_id_cancel tm : tm_id (cancel tm) = tm_id tm.
Proof. unfold cancel. by destruct (tm_state tm). Qed.

Lemma same_id_start tm : tm_id (start_timer tm) = tm_id tm.
Proof. unfold start_timer. by destruct (tm_state tm). Qed.

Lemma cancel_existing_mortal T id s : Inv T s -> Forall (fun tm => mortal (tm_id tm) s) (cancel_existing id s).
Proof.
  intros H. unfold cancel_existing. case_match; [|apply H].
  apply alter_timers; [|apply H]. intros tm. by rewrite same_id_cancel.
Qed.

(** An expiration is added to those of an id that may have one. *)
Lemma inv_give_born T id e s :
  Inv T s -> born id s -> (forall c, dk_containers s !! id = Some c -> lb_expires_at (ct_labels c) <> None) ->
  Inv T (set_given (give id e s) s).
Proof.
  intros [H1 H2 H3 H4 H5 H6 H7] Hb Hg.
  assert (forall i, given i (set_given (give id e s) s) = if decide (i = id) then e :: given i s else given i s) as E.
  { intros i. unfold given at 1, set_given, give. simpl. case_decide as Hi; subst;
      [by rewrite lookup_insert_eq|by rewrite lookup_insert_ne]. }
  assert (extends s (set_given (give id e s) s)) as He.
  { apply extends_given; [done..|]. intros i e' He'. rewrite E. case_decide; [by right|done]. }
  pose proof (fun i => mortal_extends i _ _ He) as Hm. pose proof (fun i c => described_extends i c _ _ He) as Hd.
  destruct He as (Hu & Hbo & Hgi). split; simpl; eauto.
  - intros. eapply pc_ok_extends; [|by split_and!|]; eauto; lia.
  - intros i c Hic. destruct (H3 _ _ Hic) as [H8 H9]. split; [auto|]. intros H. rewrite E.
    case_decide; [|auto]. subst. by destruct (Hg _ Hic).
  - eapply Forall_impl; [exact H4|]. simpl. auto.
  - intros i. rewrite E. case_decide; subst; auto.
Qed.

Lemma inv_give T id e s : Inv T s -> mortal id s -> Inv T (set_given (give id e s) s).
Proof.
  intros H [Hb Hg]. apply inv_give_born; [done..|]. intros c Hc He. by apply Hg, (inv_containers _ _ H _ _ Hc).
Qed.

Lemma given_give id e s : e ∈ given id (set_given (give id e s) s).
Proof. unfold given at 1. simpl. unfold give. rewrite lookup_insert_eq. left. Qed.

(** Scheduling an expiration the id has, or is given now. *)
Lemma inv_schedule T now id e update fallback s :
  Inv T s -> mortal id s -> Inv T (schedule_expiration now id e update fallback s).2.
Proof.
  intros H Hid. set (s1 := if update then set_given (give id e s) s else s).
  assert (Inv T s1) as H1 by (unfold s1; destruct update; [by apply inv_give|done]).
  assert (extends s s1) as He1.
  { unfold s1. destruct update; [|apply extends_refl]. apply extends_given; [done..|].
    intros i e'. unfold given, set_given, give. simpl. intros He'.
    destruct (decide (i = id)) as [->|]; [rewrite lookup_insert_eq; by right|by rewrite lookup_insert_ne]. }
  apply (inv_same T s1); simpl; unfold s1 in *; try done.
  - unfold same_facts. by destruct update.
  - destruct update; apply H1.
  - apply Forall_app. split.
    + eapply Forall_impl; [by apply (cancel_existing_mortal T)|]. simpl. intros. by eapply mortal_extends.
    + constructor; [|done]. simpl. by eapply mortal_extends.
  - destruct update; apply H1.
  - destruct update; [|apply H1]. intros i e' [[<- <-]|[_ Hi]]%lookup_insert_Some; [apply given_give|].
    by apply (inv_tracked _ _ H1).
Qed.

Lemma inv_begin T i s : Inv T s -> Inv T (begin_timer i s).
Proof.
  intros H. apply (inv_same T s); [done|done|apply H| |apply H..].
  simpl. apply alter_timers; [|apply H]. intros tm. by rewrite same_id_start.
Qed.

Lemma inv_untrack T id s : Inv T s -> Inv T (remove_expiration_tracking id s).
Proof.
  intros H. apply (inv_same T s); [done|done|apply H|by eapply cancel_existing_mortal|apply H|].
  simpl. intros i e [_ Hi]%lookup_delete_Some. by apply (inv_tracked _ _ H).
Qed.

Lemma inv_kill T ok id s : Inv T s -> Inv T (kill_container ok id s).2.
Proof.
  intros H. unfold kill_container. repeat case_match; simpl; try done.
  apply inv_set_containers; [done|]. intros i c' [[<- <-]|[_ Hi]]%lookup_insert_Some; [|by apply (inv_containers _ _ H)].
  by apply (inv_containers _ _ H id c).
Qed.

Lemma inv_remove T ok id s : Inv T s -> Inv T (remove_container ok id s).2.
Proof.
  intros H. unfold remove_container. repeat case_match; simpl; try done.
  apply inv_set_containers; [done|]. intros i c' [_ Hi]%lookup_delete_Some. by apply (inv_containers _ _ H).
Qed.

Lemma inv_set_label T id new s : Inv T s -> new ∈ given id s -> Inv T (set_label id new s).
Proof.
  intros H Hn. unfold set_label. case_match eqn:E; [|done].
  apply inv_set_containers; [done|]. intros i c' [[<- <-]|[_ Hi]]%lookup_insert_Some; [|by apply (inv_containers _ _ H)].
  destruct (inv_containers _ _ H _ _ E) as [(H1 & H2 & H3) H4]. split; [|done].
  split; [done|]. split; simpl; [naive_solver|done].
Qed.

(** ** Steps keep them *)

Lemma kill_same ok id s : same_facts s (kill_container ok id s).2.
Proof. unfold kill_container. by repeat case_match. Qed.

Lemma remove_same ok id s : same_facts s (remove_container ok id s).2.
Proof. unfold remove_container. by repeat case_match. Qed.

Lemma release_same key s : same_facts s (release_ossfs_mount key s).2.
Proof. unfold release_ossfs_mount. by repeat case_match. Qed.

Lemma inv_release T key s : Inv T s -> Inv T (release_ossfs_mount key s).2.
Proof. intros H. unfold release_ossfs_mount. repeat case_match; by try apply inv_set_mounts. Qed.

Lemma set_label_same id new s : same_facts s (set_label id new s).
Proof. unfold set_label. by case_match. Qed.

Lemma schedule_extends now id e update fallback s :
  extends s (schedule_expiration now id e update fallback s).2 /\
  dk_threads (schedule_expiration now id e update fallback s).2 = dk_threads s.
Proof.
  split; [|done]. apply extends_given; [done..|]. intros i e' H. destruct update; [|done].
  unfold given at 1. simpl. unfold give. destruct (decide (i = id)) as [->|];
    [rewrite lookup_insert_eq; by right|by rewrite lookup_insert_ne].
Qed.

Lemma schedule_gives now id e fallback s : e ∈ given id (schedule_expiration now id e true fallback s).2.
Proof. apply given_give. Qed.

(** After an operation that keeps threads, a thread moves on. *)
Lemma inv_advance T t p s s' :
  Inv T s' -> extends s s' -> dk_threads s' = dk_threads s -> pc_ok T s p -> creating p = None ->
  Inv T (set_pc t p s').
Proof.
  intros H He Ht Hp Hc. apply inv_set_pc; [done| |by rewrite Hc].
  eapply pc_ok_extends; [|exact He|exact Hp]. lia.
Qed.

Lemma inv_advance_same T t p s s' :
  Inv T s' -> same_facts s s' -> pc_ok T s p -> creating p = None -> Inv T (set_pc t p s').
Proof.
  intros H Hs. apply inv_advance; [done|by apply same_facts_extends|by apply Hs].
Qed.

Lemma stored_given T id c s e :
  Inv T s -> described id c s -> stored_expiration id c s = Some e -> e ∈ given id s.
Proof.
  intros H (_ & H1 & _). unfold stored_expiration. case_match eqn:E; [|auto].
  intros [= <-]. by apply (inv_store _ _ H).
Qed.

Lemma looked_up T id c s : Inv T s -> dk_containers s !! id = Some c -> described id c s.
Proof. intros H Hc. by apply (inv_containers _ _ H). Qed.

Lemma inv_expire_step T now ok t p s :
  T <= now -> Inv T s -> pc_ok T s p -> Inv now (expire_step now ok t p s) \/ expire_step now ok t p s = s.
Proof.
  intros HT H%(inv_later T now) Hp; [|done]. apply (pc_ok_extends T now s s _ HT (extends_refl s)) in Hp. destruct p; simpl in *; try by right. all: left.
  - destruct ok; simpl; [|by apply inv_advance with s; [|apply extends_refl|..]].
    case_match eqn:E; (apply inv_advance with s; [done|apply extends_refl|done| |done]); simpl; [|apply Hp].
    pose proof (looked_up _ _ _ _ H E). split_and!; [done..|].
    destruct (lb_expires_at (ct_labels c)) eqn:E'; [done|]. by destruct Hp, (proj2 (inv_containers _ _ H _ _ E) E').
  - repeat case_match; (apply inv_advance with s; [done|apply extends_refl|done..]).
  - destruct Hp as (H1 & H2 & H3).
    case_match eqn:E; (apply inv_advance with s; [done|apply extends_refl|done| |done]); simpl; [|done].
    split; [done|]. eexists; split; [done|]. by apply (inv_tracked _ _ H).
  - destruct Hp as (H1 & H2 & [e H3]). apply inv_advance with s; [done|apply extends_refl|done| |done]. simpl.
    split; [done|]. destruct (stored_expiration id c s) as [e'|] eqn:E; [|exfalso; unfold stored_expiration in E; by case_match; simplify_eq; rewrite H3 in E].
    eexists; split; [done|]. by eapply stored_given.
  - destruct Hp as (H1 & e & -> & H2).
    case_match; (apply inv_advance with s; [done|apply extends_refl|done| |done]); simpl; [done|].
    split; [done|]. exists e. split; [done|]. lia.
  - apply inv_advance with s; [by apply (inv_schedule now now id at_ false fallback)
    |apply (schedule_extends now id at_ false fallback)|done..].
  - case_match; (apply inv_advance_same with s; [|first [apply kill_same|done]|exact Hp|done]); [by apply inv_kill|done].
  - rewrite (surjective_pairing (remove_container ok id s)).
    apply inv_advance_same with s; [by apply inv_remove|apply remove_same|apply Hp|done].
Qed.

Lemma inv_renew_step T now ok t p s :
  T <= now -> Inv T s -> pc_ok T s p -> Inv now (renew_step now ok t p s) \/ renew_step now ok t p s = s.
Proof.
  intros HT H%(inv_later T now) Hp; [|done]. apply (pc_ok_extends T now s s _ HT (extends_refl s)) in Hp. destruct p; simpl in *; try by right. all: left.
  - destruct ok; simpl; [|by apply inv_advance with s; [|apply extends_refl|..]].
    repeat case_match; (apply inv_advance with s; [done|apply extends_refl|done| |done]); simpl; try done.
    assert (described id c s) as Hd by by eapply looked_up. split; [|done]. split; [apply Hd|].
    destruct Hd as (_ & Hl & Hs). destruct Hs as [e He]; [done|]. intros Hg. apply Hl in He. rewrite Hg in He.
    by apply elem_of_nil in He.
  - case_match; (apply inv_advance with s; [done|apply extends_refl|done..]).
  - case_match; (apply inv_advance with s; [done|apply extends_refl|done..]).
  - apply inv_set_pc; [apply (inv_schedule now now id new true []); [done|apply Hp]| |done]. split.
    + eapply mortal_extends; [apply (schedule_extends now id new true [])|apply Hp].
    + apply (schedule_gives now id new []).
  - case_match; (apply inv_advance_same with s; [|done|done..]); [|done]. apply inv_set_store; [done|].
    intros i e [[<- <-]|[_ Hi]]%lookup_insert_Some; [apply Hp|by apply (inv_store _ _ H)].
  - case_match; (apply inv_advance_same with s; [|first [apply set_label_same|done]|done..]); [|done].
    apply inv_set_label; [done|apply Hp].
Qed.

Lemma inv_delete_step T ok t p s :
  Inv T s -> pc_ok T s p -> Inv T (delete_step ok t p s) \/ delete_step ok t p s = s.
Proof.
  intros H Hp. destruct p; simpl in *; try by right. all: left.
  - destruct ok; simpl; [|by apply inv_advance with s; [|apply extends_refl|..]].
    case_match; (apply inv_advance with s; [done|apply extends_refl|done| |done]); simpl; [|done].
    by eapply looked_up.
  - pose proof (inv_kill T ok id s H) as H1. pose proof (kill_same ok id s) as H2.
    destruct (kill_container ok id s) as [[] s'];
      (apply inv_advance_same with s; [apply H1|apply H2|apply Hp|done]).
  - rewrite (surjective_pairing (remove_container ok id s)).
    apply inv_advance_same with s; [by apply inv_remove|apply remove_same|apply Hp|done].
Qed.

Lemma inv_end_step T ok t p s :
  Inv T s -> pc_ok T s p -> Inv T (end_step ok t p s) \/ end_step ok t p s = s.
Proof.
  intros H Hp. destruct p; simpl in *; try by right. all: left.
  - destruct k; (apply inv_advance_same with s; [by apply inv_begin|done..]).
  - apply inv_advance_same with s; [by apply inv_untrack|done..].
  - destruct todo as [|key todo].
    + apply inv_advance with s; [done|apply extends_refl|done|by destruct n|by destruct n].
    + rewrite (surjective_pairing (release_ossfs_mount key s)).
      case_match; (apply inv_advance_same with s; [by apply inv_release|apply release_same|done..]).
  - case_match; (apply inv_advance_same with s; [first [by apply inv_set_mounts|done]|done..]).
  - case_match; (apply inv_advance_same with s; [|done..]); [|done].
    apply inv_set_store; [done|]. intros i e [_ Hi]%lookup_delete_Some. by apply (inv_store _ _ H).
Qed.

Lemma set_pc_twice t p q s : set_pc t p (set_pc t q s) = set_pc t p s.
Proof. unfold set_pc. simpl. by rewrite insert_insert_eq. Qed.

(** An id a thread makes a container for has neither one nor an expiration. *)
Lemma creating_fresh T t p id s :
  Inv T s -> dk_threads s !! t = Some p -> creating p = Some id ->
  dk_containers s !! id = None /\ given id s = [] /\ forall q, creating q = None -> id ∈ dk_used s -> born id (set_pc t q s).
Proof.
  intros H Ht Hc. split; [|split].
  - destruct (dk_containers s !! id) eqn:E; [|done]. exfalso.
    destruct (looked_up _ _ _ _ H E) as [[_ Hb] _]. by apply (Hb _ _ Ht).
  - destruct (given id s) eqn:E; [done|]. exfalso.
    destruct (inv_given _ _ H id) as [_ Hb]; [by rewrite E|]. by apply (Hb _ _ Ht).
  - intros q Hq Hu. split; [done|]. simpl. intros u r [[<- <-]|[Hne Hr]]%lookup_insert_Some; [by rewrite Hq|].
    intros Hid. apply Hne. eapply (inv_one _ _ H); eauto. congruence.
Qed.

Lemma inv_run_container T t id l s :
  Inv T s -> dk_threads s !! t = Some (CRun id l) ->
  Inv T (set_pc t (CStart id l)
    (let s := set_containers (<[id := mkContainer l false]> (dk_containers s)) s in
     match lb_expires_at l with Some e => set_given (give id e s) s | None => s end)).
Proof.
  intros H Ht. destruct (creating_fresh _ _ _ id _ H Ht) as (Hc & Hg & Hb); [done|].
  destruct (inv_threads _ _ H _ _ Ht) as [Hu Hm]. specialize (Hb (Done ok_) eq_refl Hu).
  assert (Inv T (set_pc t (Done ok_) s)) as H1 by by apply inv_set_pc.
  destruct (lb_expires_at l) as [e|] eqn:E.
  - assert (Inv T (set_given (give id e (set_pc t (Done ok_) s)) (set_pc t (Done ok_) s))) as H2.
    { apply inv_give_born; [done..|]. simpl. intros c. by rewrite Hc. }
    set (s2 := set_given _ _) in H2. assert (mortal id s2) as Hmo.
    { split; [apply Hb|]. unfold s2, given, give. simpl. by rewrite lookup_insert_eq. }
    assert (e ∈ given id s2) as He by apply given_give.
    assert (Inv T (set_containers (<[id := mkContainer l false]> (dk_containers s2)) s2)) as H3.
    { apply inv_set_containers; [done|]. intros i c [[<- <-]|[_ Hi]]%lookup_insert_Some.
      - split; [|simpl; by rewrite E]. split; [apply Hmo|]. split; simpl; [|done]. intros e'. rewrite E. by intros [= <-].
      - by apply (inv_containers _ _ H2). }
    eapply (inv_set_pc _ t (CStart id l)) in H3; [|split; [apply Hmo|]; rewrite E; by intros ? [= <-]|done].
    by rewrite <- (set_pc_twice t _ (Done ok_)).
  - assert (Inv T (set_containers (<[id := mkContainer l false]> (dk_containers s)) (set_pc t (Done ok_) s))) as H3.
    { apply inv_set_containers; [done|]. intros i c [[<- <-]|[_ Hi]]%lookup_insert_Some; [|by apply (inv_containers _ _ H1)].
      split; [|done]. split; [done|]. split; simpl; [by rewrite E|]. intros [e He]%Hm. congruence. }
    eapply (inv_set_pc _ t (CStart id l)) in H3; [|split; [apply Hb|]; by rewrite E|done].
    by rewrite <- (set_pc_twice t _ (Done ok_)).
Qed.

Lemma ensure_same ok key s s' : ensure_ossfs_mounted ok key s = Some s' -> same_facts s s'.
Proof. unfold ensure_ossfs_mounted. repeat case_match; by intros [= <-]. Qed.

Lemma inv_ensure T ok key s s' : ensure_ossfs_mounted ok key s = Some s' -> Inv T s -> Inv T s'.
Proof. unfold ensure_ossfs_mounted. repeat case_match; intros [= <-] Hs; by apply inv_set_mounts. Qed.

Lemma inv_create_step T now ok t p s :
  Inv T s -> dk_threads s !! t = Some p -> Inv T (create_step now ok t p s) \/ create_step now ok t p s = s.
Proof.
  intros H Ht. pose proof (inv_threads _ _ H _ _ Ht) as Hp. destruct p; simpl in *; try by right. all: left.
  - destruct todo as [|key todo]; [apply inv_set_pc; [done..|]; intros o [= <-]; by eexists|].
    case_match eqn:E; [|by apply inv_set_pc].
    pose proof (ensure_same _ _ _ _ E) as Hs. apply inv_set_pc; [by eapply inv_ensure| |].
    + apply (pc_ok_extends T T s _ (CMount id l todo (done_ ++ [key])%list)); [lia|by apply same_facts_extends|done].
    + destruct Hs as (_ & _ & ->). intros o [= <-]. by eexists.
  - destruct ok; [|by apply inv_set_pc]. exact (inv_run_container _ _ _ _ _ H Ht).
  - destruct (dk_containers s !! id) as [c|] eqn:E; [destruct ok|]; [|by apply inv_set_pc..].
    apply inv_advance_same with s; [|done| |by destruct (lb_expires_at l)].
    + apply inv_set_containers; [done|]. intros i c' [[<- <-]|[_ Hi]]%lookup_insert_Some; [|by apply (inv_containers _ _ H)].
      exact (inv_containers _ _ H _ _ E).
    + destruct Hp as [_ Hp]. destruct (lb_expires_at l) as [e|]; [|done]. by apply Hp.
  - rewrite (surjective_pairing (remove_container ok id s)).
    by apply inv_advance_same with s; [apply inv_remove|apply remove_same|..].
  - apply inv_advance with s; [apply (inv_schedule T now id expires true []); [done|apply Hp]
      |apply (schedule_extends now id expires true [])|done..].
Qed.

Lemma inv_thread_step T now ok t p s :
  T <= now -> Inv T s -> dk_threads s !! t = Some p -> Inv now (thread_step now ok t p s).
Proof.
  intros HT H Ht. pose proof (inv_later _ _ _ HT H) as H'.
  pose proof (inv_threads _ _ H _ _ Ht) as Hp. pose proof (inv_threads _ _ H' _ _ Ht) as Hp'.
  pose proof (inv_expire_step T now ok t p s HT H Hp). pose proof (inv_renew_step T now ok t p s HT H Hp).
  pose proof (inv_delete_step now ok t p s H' Hp'). pose proof (inv_create_step now now ok t p s H' Ht).
  pose proof (inv_end_step now ok t p s H' Hp').
  assert (forall x, Inv now x \/ x = s -> Inv now x) as Hx by (intros x [Hx| ->]; done).
  destruct p; apply Hx; assumption.
Qed.

(** What the first pass of a restart keeps. *)
Record Restoring (T : Z) (s0 : Docker) (acc : Docker * list (string * list string)) : Prop := {
  rs_inv : Inv T acc.1;
  rs_threads : dk_threads acc.1 = dk_threads s0;
  rs_containers : dk_containers acc.1 = dk_containers s0;
  rs_extends : extends s0 acc.1;
  rs_expired : Forall (fun e => mortal e.1 acc.1) acc.2;
}.

Lemma extends_trans s1 s2 s3 : extends s1 s2 -> extends s2 s3 -> extends s1 s3.
Proof. unfold extends. naive_solver. Qed.

Lemma given_mortal id e s : born id s -> e ∈ given id s -> mortal id s.
Proof. intros H1 H2. split; [done|]. intros H3. rewrite H3 in H2. by apply elem_of_nil in H2. Qed.

Lemma restore_one_keeps T now s0 acc id c :
  Restoring T s0 acc -> described id c s0 -> Restoring T s0 (restore_one now acc (id, c)).
Proof.
  destruct acc as [s expired]. intros [H1 H2 H3 H4 H5] Hd. simpl in *.
  pose proof (described_extends _ _ _ _ H4 Hd) as Hd'. unfold restore_one.
  destruct (stored_expiration id c s) as [e|] eqn:E; [|by split].
  assert (mortal id s) as Hm by (eapply given_mortal; [apply Hd'|by eapply stored_given]).
  case_match; [split; simpl; [done..|]; apply Forall_app; by split; [|constructor]|].
  pose proof (inv_schedule T now id e true [] s H1 Hm) as H6.
  destruct (schedule_extends now id e true [] s) as [H7 H8].
  change (Restoring T s0 (begin_timer (length (dk_timers s)) (schedule_expiration now id e true [] s).2, expired)).
  split; [by apply inv_begin|simpl; congruence|simpl; congruence|by eapply extends_trans|].
  eapply Forall_impl; [exact H5|]. intros x Hx. by apply (mortal_extends _ _ _ H7).
Qed.

Lemma restoring_all T now s0 l acc :
  Restoring T s0 acc -> Forall (fun kc => described kc.1 kc.2 s0) l -> Restoring T s0 (foldl (restore_one now) acc l).
Proof.
  intros H Hl. revert acc H. induction Hl as [|[id c] l Hc Hl IH]; [done|]. intros acc H. simpl.
  by apply IH, restore_one_keeps.
Qed.

Lemma expire_threads_lookup expired t p :
  expire_threads expired !! t = Some p <-> exists e, expired !! t = Some e /\ p = ELookup e.1 e.2.
Proof.
  unfold expire_threads. rewrite lookup_map_seq_0, list_lookup_fmap.
  destruct (expired !! t) as [e|]; simpl; naive_solver.
Qed.

Lemma inv_forget_process T s : Inv T s -> Inv T (forget_process s).
Proof.
  intros [H1 H2 H3 H4 H5 H6 H7].
  assert (extends s (forget_process s)) as He.
  { split_and!; try done. intros id [Hb _]. by split. }
  split; simpl; try done.
  - intros id c Hc. destruct (H3 _ _ Hc). split; [|done]. by eapply described_extends.
  - intros id Hg. by apply He, H7.
Qed.

Lemma restored T now s : Inv T s ->
  Restoring T (forget_process s) (foldl (restore_one now) (forget_process s, []) (map_to_list (dk_containers s))).
Proof.
  intros H%inv_forget_process. apply restoring_all.
  - split; simpl; [done|done|done|apply extends_refl|constructor].
  - apply Forall_forall. intros [id c] Hc%elem_of_map_to_list. by apply (looked_up T).
Qed.

Lemma inv_restart T now ok s : Inv T s -> Inv T (restart now ok s).
Proof.
  intros H. destruct ok; [|by apply inv_forget_process]. destruct (restored T now s H) as [H1 H2 _ _ H5].
  unfold restart, restore_existing_sandboxes. simpl.
  destruct (foldl _ _ _) as [s1 expired]. simpl in *. destruct H1 as [J1 J2 J3 J4 J5 J6 J7].
  assert (extends s1 (mkDocker (dk_containers s1) (dk_sandbox_expirations s1) (dk_expiration_timers s1)
    (dk_timers s1) (dk_store s1) (count_mounts (map_to_list (dk_containers s))) (dk_mounted s1)
    (expire_threads expired) (dk_used s1) (dk_given s1))) as He.
  { split_and!; try done. intros id [Hb _]. split; [done|]. simpl.
    intros t p (e & _ & ->)%expire_threads_lookup. done. }
  split; simpl; try done.
  - intros t p (e & Hin & ->)%expire_threads_lookup. simpl. eapply mortal_extends; [exact He|].
    exact (Forall_lookup_1 _ _ _ _ H5 Hin).
  - by intros t u p q (e & _ & ->)%expire_threads_lookup _ [? ?].
  - intros id c Hc. destruct (J3 _ _ Hc). split; [|done]. by eapply described_extends.
  - eapply Forall_impl; [exact J4|]. simpl. intros. by eapply mortal_extends.
  - intros id Hg. by apply He, J7.
Qed.

Lemma inv_init T : Inv T init_docker.
Proof. by split. Qed.

Lemma inv_start T t p s :
  Inv T s -> pc_ok T s p -> creating p = None -> Inv T (set_pc t p s).
Proof. intros H Hp Hc. apply inv_set_pc; [done..|]. by rewrite Hc. Qed.

Lemma inv_create T t id l todo s :
  Inv T s -> id ∉ dk_used s -> idle (dk_threads s !! t) = true -> (lb_manual l = false -> is_Some (lb_expires_at l)) ->
  Inv T (set_pc t (CMount id l todo []) (use_id id s)).
Proof.
  intros [H1 H2 H3 H4 H5 H6 H7] Hid Ht Hl. set (s' := set_pc _ _ _).
  assert (extends s s') as He.
  { split_and!; [intros i; simpl; set_solver| |done]. intros i [Hu Hb]. split; [simpl; set_solver|].
    simpl. intros u p [[<- <-]|[_ Hp]]%lookup_insert_Some; [|eauto]. simpl. intros [= <-]. by apply Hid. }
  assert (forall u q, dk_threads s !! u = Some q -> creating q <> Some id) as Hn.
  { intros u q Hq Hc. apply Hid. apply H1 in Hq. destruct q; simplify_eq/=; apply Hq. }
  split; simpl; try done.
  - intros u p [[<- <-]|[_ Hp]]%lookup_insert_Some; [simpl; split; [set_solver|done]|].
    eapply pc_ok_extends; [|exact He|eauto]. lia.
  - intros u v p q Hp Hq [o Ho] Hpq. apply lookup_insert_Some in Hp, Hq.
    destruct Hp as [[<- <-]|[? Hp]], Hq as [[<- <-]|[? Hq]]; simplify_eq/=; try done.
    + by destruct (Hn _ _ Hq).
    + destruct (Hn _ _ Hp). congruence.
    + eauto.
  - intros i c Hc. destruct (H3 _ _ Hc). split; [|done]. by eapply described_extends.
  - eapply Forall_impl; [exact H4|]. simpl. intros. by eapply mortal_extends.
  - intros i Hg. by apply He, H7.
Qed.

Lemma inv_fire T t i tm s :
  Inv T s -> dk_timers s !! i = Some tm -> Inv T (set_pc t (ELookup (tm_id tm) (tm_fallback tm))
    (set_tracking (dk_sandbox_expirations s) (dk_expiration_timers s)
       (alter (with_state TFired) i (dk_timers s)) (dk_given s) s)).
Proof.
  intros H Ht. apply inv_advance_same with s; [|done| |done].
  - apply (inv_same T s); [done|done|apply H| |apply H..]. simpl. by apply alter_timers; [|apply H].
  - exact (Forall_lookup_1 _ _ _ _ (inv_timers _ _ H) Ht).
Qed.

Lemma inv_exec T now a s s' : T <= now -> Inv T s -> exec now a s = Some s' -> Inv now s'.
Proof.
  intros HT H. pose proof (inv_later _ _ _ HT H) as H'. destruct a; cbn -[thread_step restart].
  - case_match eqn:E; intros [= <-]. apply andb_true_iff in E as [[Hi Hu]%andb_true_iff _].
    apply negb_true_iff, bool_decide_eq_false in Hu. apply inv_create; [done..|]. simpl. by destruct expires.
  - case_match; intros [= <-]. by apply inv_start.
  - case_match; intros [= <-]. by apply inv_start.
  - destruct (dk_timers s !! i) eqn:Ht; [|done]. case_match; intros [= <-]. by apply inv_fire.
  - destruct (dk_threads s !! t) as [p|] eqn:Ht; [|done].
    assert (Inv now (thread_step now ok t p s)) by by apply (inv_thread_step T).
    destruct p; intros [= <-]; done.
  - destruct (dk_containers s !! id) eqn:E; intros [= <-]. apply inv_set_containers; [done|].
    intros j c' [[<- <-]|[_ Hj]]%lookup_insert_Some; [|by apply (inv_containers _ _ H')].
    exact (inv_containers _ _ H' _ _ E).
  - intros [= <-]. by apply inv_restart.
Qed.

Lemma inv_run T h s s' : forward T h -> Inv T s -> run h s = Some s' -> Inv (until T h) s'.
Proof.
  revert T s. induction h as [|[now a] h IH]; intros T s; simpl; [by intros _ H [= <-]|].
  intros [HT Hf] H (s1 & H1 & H2)%bind_Some. eapply IH; [done| |done]. by eapply inv_exec.
Qed.

(** ** Safety *)

(** C21: whatever fails and however threads interleave, a thread that is about to end
    a sandbox on a timer does so after an expiration the sandbox was given, and
    a sandbox created without an expiration is never ended so. *)
Theorem only_expired_sandboxes_end T h s t id c :
  forward T h -> run h init_docker = Some s ->
  dk_threads s !! t = Some (EKill id c) \/ dk_threads s !! t = Some (ERemove id c) ->
  (exists e, e ∈ given id s /\ e <= until T h) /\
  forall c', dk_containers s !! id = Some c' -> is_Some (lb_expires_at (ct_labels c')).
Proof.
  intros Hf Hr Ht. pose proof (inv_run T h _ _ Hf (inv_init T) Hr) as H.
  assert (mortal id s /\ exists e, e ∈ given id s /\ e <= until T h) as [Hm He].
  { by destruct Ht as [Ht|Ht]; apply (inv_threads _ _ H) in Ht. }
  split; [done|]. intros c' Hc. destruct (inv_containers _ _ H _ _ Hc) as [_ H1].
  destruct (lb_expires_at (ct_labels c')); [by eexists|]. by destruct Hm, H1.
Qed.

Lemma only_expired_sandboxes_end_witness :
  exists s, run (create_a ++ (10, AFire 1 0) :: go 10 1 3) init_docker = Some s /\
    (exists e, e ∈ given "a" s /\ e <= 10) /\
    forall c', dk_containers s !! "a" = Some c' -> is_Some (lb_expires_at (ct_labels c')).
Proof.
  eexists. split; [vm_compute; reflexivity|].
  apply (only_expired_sandboxes_end 0 (create_a ++ (10, AFire 1 0) :: go 10 1 3) _ 1%nat "a"
    (mkContainer (mkLabels (Some 10) false []) true)).
  - repeat split; vm_compute; discriminate.
  - vm_compute. reflexivity.
  - left. vm_compute. reflexivity.
Defined.
