(* ===== verification/DockerExpiry.v ===== *)
(** * Sandboxes on Docker: every expiration is carried out

    Over the histories of [DockerLifecycle]: as long as the daemon answers the
    calls that end sandboxes, a sandbox with an expiration is never left without
    a timer or a thread that will end it, across renewals, time-outs and
    restarts, and once its expirations have passed the server's own steps remove
    it.  Where the calls fail it is not so, as the runs at the end show. *)

From Stdlib Require Import ZArith Lia String.
From stdpp Require Import base numbers strings gmap list.
From S2P Require Import Prelude.
From S2P Require Import DockerLifecycle.

Open Scope string_scope.
Open Scope Z_scope.

(** ** Answered histories *)

(** The calls a sandbox's end depends on. *)
Definition decisive (p : pc) : bool :=
  match p with ELookup _ _ | ERemove _ _ | DKill _ _ | DRemove _ _ | CClean _ _ => true | _ => false end.

Definition answered_action (a : action) (s : Docker) : Prop :=
  match a with
  | AStep t false => forall p, dk_threads s !! t = Some p -> decisive p = false
  | ARestart ok => ok = true
  | _ => True
  end.

Fixpoint answered (h : list (Z * action)) (s : Docker) : Prop :=
  match h with
  | [] => True
  | (now, a) :: h => answered_action a s /\ forall s', exec now a s = Some s' -> answered h s'
  end.

(** ** What guards a sandbox's expiration *)

(** The sandbox whose expiration a thread is carrying out or setting up. *)
Definition heading (p : pc) : option string :=
  match p with
  | ELookup id _ | ERead id _ | EReadStore id _ | ECheck id _ _ | ESchedule id _ _ | EKill id _ | ERemove id _
  | CClean id _ | CSchedule id _ => Some id
  | CStart id l => match lb_expires_at l with Some _ => Some id | None => None end
  | _ => None
  end.

(** A timer that has started or is about to, due now or at an expiration that
    was given. *)
Definition live_timer (T : Z) (id : string) (i : nat) (tm : timer) (s : Docker) : Prop :=
  (tm_at tm <= T \/ exists e, e ∈ given id s /\ tm_at tm <= e) /\
  (tm_state tm = TStarted \/ tm_state tm = TNew /\ exists t k, dk_threads s !! t = Some (Starting i k)).

Definition armed (T : Z) (id : string) (s : Docker) : Prop :=
  exists i tm, dk_expiration_timers s !! id = Some i /\ dk_timers s !! i = Some tm /\ live_timer T id i tm s.

Definition guarded (T : Z) (id : string) (s : Docker) : Prop :=
  (exists t p, dk_threads s !! t = Some p /\ heading p = Some id) \/ armed T id s.

Definition expires (s : Docker) (id : string) : Prop :=
  exists c, dk_containers s !! id = Some c /\ is_Some (lb_expires_at (ct_labels c)).

Definition pc_sound (s : Docker) (p : pc) : Prop :=
  match p with
  | EFailed _ _ => False
  | ESchedule id at_ _ => at_ ∈ given id s
  | Untrack id _ _ => dk_containers s !! id = None
  | _ => True
  end.

Record Guard (T : Z) (s : Docker) : Prop := {
  gd_inv : Inv T s;
  gd_guarded : forall id, expires s id -> guarded T id s;
  gd_timers : forall id i, dk_expiration_timers s !! id = Some i -> exists tm, dk_timers s !! i = Some tm /\ tm_id tm = id;
  gd_threads : forall t p, dk_threads s !! t = Some p -> pc_sound s p;
}.

(** Containers come only for ids that were not born. *)
Definition no_rebirth (s s' : Docker) : Prop :=
  forall id, born id s -> dk_containers s !! id = None -> dk_containers s' !! id = None.

Lemma pc_sound_step T s s' p :
  pc_ok T s p -> extends s s' -> no_rebirth s s' -> pc_sound s p -> pc_sound s' p.
Proof. intros Hp (_ & _ & Hg) Hn. destruct p; simpl in *; auto. Qed.

(** A timer that nobody touched is still live. *)
Lemma live_timer_step T now id i tm t p s s' :
  T <= now -> live_timer T id i tm s -> dk_threads s' = <[t := p]> (dk_threads s) -> extends s s' ->
  (forall j k, dk_threads s !! t <> Some (Starting j k)) -> live_timer now id i tm s'.
Proof.
  intros HT [Hat Hl] Ht (_ & _ & Hg) Hn. split; [naive_solver lia|].
  destruct Hl as [|[Hs (u & k & Hu)]]; [by left|right]. split; [done|]. exists u, k.
  rewrite Ht, lookup_insert_ne; [done|]. intros ->. by apply (Hn i k).
Qed.

Lemma guarded_thread T id s t p : dk_threads s !! t = Some p -> heading p = Some id -> guarded T id s.
Proof. intros. left. eauto. Qed.

(** A step that does not touch timers. *)
Lemma guard_plain T now t p' s s' :
  T <= now -> Guard T s -> Inv now s' ->
  dk_threads s' = <[t := p']> (dk_threads s) ->
  dk_expiration_timers s' = dk_expiration_timers s -> dk_timers s' = dk_timers s ->
  extends s s' -> no_rebirth s s' ->
  (forall id, expires s' id -> expires s id \/ heading p' = Some id) ->
  (forall p id, dk_threads s !! t = Some p -> heading p = Some id -> heading p' = Some id \/ dk_containers s' !! id = None) ->
  (forall j k, dk_threads s !! t <> Some (Starting j k)) ->
  pc_sound s' p' ->
  Guard now s'.
Proof.
  intros HT [Hi Hg Ht Hs] Hi' Eth Eex Etm He Hn Hexp Hh Hst Hp. split; [done| | |].
  - intros id Hid. assert (heading p' = Some id -> guarded now id s') as Hp'.
    { apply guarded_thread with t. by rewrite Eth, lookup_insert_eq. }
    destruct (Hexp _ Hid) as [Hold|]; [|auto]. destruct (Hg _ Hold) as [(u & q & Hu & Hq)|(i & tm & H1 & H2 & H3)].
    + destruct (decide (u = t)) as [->|Hne].
      * destruct (Hh _ _ Hu Hq) as [|H]; [auto|]. destruct Hid as (c & Hc & _). congruence.
      * apply guarded_thread with u q; [|done]. by rewrite Eth, lookup_insert_ne.
    + right. exists i, tm. rewrite Eex, Etm. split_and!; [done..|]. by eapply live_timer_step.
  - rewrite Eex, Etm. done.
  - intros u q. rewrite Eth. intros [[<- <-]|[_ Hu]]%lookup_insert_Some; [done|].
    eapply pc_sound_step; eauto. by apply (inv_threads _ _ Hi) in Hu.
Qed.

(** ** Timers *)

Lemma cancel_existing_other id s i :
  (forall j, dk_expiration_timers s !! id = Some j -> j <> i) -> cancel_existing id s !! i = dk_timers s !! i.
Proof.
  intros H. unfold cancel_existing. case_match eqn:E; [|done]. apply list_lookup_alter_ne. by apply H.
Qed.

Lemma cancel_existing_lookup id s i tm :
  dk_timers s !! i = Some tm -> exists tm', cancel_existing id s !! i = Some tm' /\ tm_id tm' = tm_id tm.
Proof.
  intros H. unfold cancel_existing. destruct (dk_expiration_timers s !! id) as [j|]; [|eauto].
  destruct (decide (j = i)) as [->|]; [|rewrite list_lookup_alter_ne by done; eauto].
  rewrite list_lookup_alter_eq, H. simpl. eexists; split; [done|]. apply same_id_cancel.
Qed.

(** Two ids do not share a timer. *)
Lemma timers_apart T s id id' i j :
  Guard T s -> dk_expiration_timers s !! id = Some i -> dk_expiration_timers s !! id' = Some j -> id <> id' -> i <> j.
Proof.
  intros H Hi Hj Hne ->. destruct (gd_timers _ _ H _ _ Hi) as (tm & H1 & H2).
  destruct (gd_timers _ _ H _ _ Hj) as (tm' & H3 & H4). congruence.
Qed.

Lemma guard_schedule T now t k id e update fallback s :
  let s1 := (schedule_expiration now id e update fallback s).2 in
  let s' := set_pc t (Starting (length (dk_timers s)) k) s1 in
  T <= now -> Guard T s -> Inv now s' -> e ∈ given id s1 ->
  (forall p id', dk_threads s !! t = Some p -> heading p = Some id' -> id' = id) ->
  (forall j k, dk_threads s !! t <> Some (Starting j k)) ->
  creating (default (Done ok_) (dk_threads s !! t)) = None ->
  Guard now s'.
Proof.
  intros s1 s' HT H Hi' He Hh Hst Hcr. pose proof H as [Hi Hg Ht Hs].
  destruct (schedule_extends now id e update fallback s) as [Hx _]. fold s1 in Hx.
  assert (extends s s') as Hext.
  { eapply extends_trans; [exact Hx|]. split_and!; try done. intros j Hj. by apply born_set_pc. }
  assert (forall i tm, dk_timers s !! i = Some tm -> (i < length (dk_timers s))%nat) as Hlen by (intros; by eapply lookup_lt_Some).
  assert (length (cancel_existing id s) = length (dk_timers s)) as Elen.
  { unfold cancel_existing. case_match; [apply length_alter|done]. }
  split; [done| | |].
  - intros id' Hid'. destruct (decide (id' = id)) as [->|Hne].
    + right. exists (length (dk_timers s)), (mkTimer id (Z.max now e) TNew fallback). simpl.
      rewrite lookup_insert_eq. split; [done|]. split.
      * rewrite <- Elen. by rewrite list_lookup_middle.
      * split; simpl; [|right; split; [done|]; exists t, k; by rewrite lookup_insert_eq].
        destruct (Z.max_spec now e) as [[_ ->]|[_ ->]]; [right; exists e; split; [exact He|lia]|left; lia].
    + destruct (Hg id' Hid') as [(u & q & Hu & Hq)|(i & tm & H1 & H2 & H3)].
      * apply guarded_thread with u q; [|done]. simpl. rewrite lookup_insert_ne; [done|].
        intros <-. by apply Hne, (Hh q).
      * right. exists i, tm. simpl. rewrite lookup_insert_ne by done. split; [done|]. split.
        -- rewrite lookup_app_l by (rewrite Elen; eauto). rewrite cancel_existing_other; [done|].
           intros j Hj. by apply (timers_apart T s id id').
        -- by eapply live_timer_step.
  - simpl. intros id' i [[<- <-]|[Hne Hid]]%lookup_insert_Some.
    + eexists. rewrite <- Elen, list_lookup_middle by done. by split.
    + destruct (Ht _ _ Hid) as (tm & H1 & H2). destruct (cancel_existing_lookup id s i tm H1) as (tm' & H3 & H4).
      exists tm'. rewrite lookup_app_l by (rewrite Elen; eauto). split; [done|congruence].
  - simpl. intros u q [[<- <-]|[_ Hu]]%lookup_insert_Some; [done|].
    eapply (pc_sound_step T s); eauto; [by apply (inv_threads _ _ Hi) in Hu|by intros ?].
Qed.

(** A step that changes the state of timers, and keeps those of the sandboxes
    that exist alive. *)
Lemma guard_timers T now t p' h m s s' :
  T <= now -> Guard T s -> Inv now s' ->
  s' = set_pc t p' (set_tracking h m (dk_timers s') (dk_given s) s) ->
  (forall id i, m !! id = Some i -> dk_expiration_timers s !! id = Some i) ->
  (forall i tm, dk_timers s !! i = Some tm -> exists tm', dk_timers s' !! i = Some tm' /\ tm_id tm' = tm_id tm) ->
  (forall p, dk_threads s !! t = Some p -> heading p = None) ->
  (forall id i tm, expires s id -> dk_expiration_timers s !! id = Some i -> dk_timers s !! i = Some tm ->
     live_timer T id i tm s -> guarded now id s') ->
  pc_sound s' p' -> Guard now s'.
Proof.
  intros HT [Hi Hg Ht Hs] Hi' Es Hm Htm Hh Hl Hp.
  assert (dk_threads s' = <[t := p']> (dk_threads s)) as E1 by by rewrite Es.
  assert (dk_containers s' = dk_containers s) as E2 by by rewrite Es.
  assert (dk_expiration_timers s' = m) as E3 by by rewrite Es.
  assert (forall id, given id s' = given id s) as E4 by (intros id; by rewrite Es).
  split; [done| | |].
  - intros id Hid. assert (expires s id) as Hid' by (unfold expires in *; by rewrite <- E2).
    destruct (Hg id Hid') as [(u & q & Hu & Hq)|(i & tm & H1 & H2 & H3)]; [|eauto].
    apply guarded_thread with u q; [|done]. rewrite E1, lookup_insert_ne; [done|].
    intros <-. apply Hh in Hu. congruence.
  - intros id i. rewrite E3. intros Hid. destruct (Ht id i) as (tm & H1 & <-); [eauto|]. eauto.
  - rewrite E1. intros u q [[<- <-]|[_ Hu]]%lookup_insert_Some; [done|]. apply Hs in Hu.
    destruct q; simpl in *; rewrite ?E2, ?E4; done.
Qed.

Lemma guard_begin T now t i k p s :
  let s' := set_pc t p (begin_timer i s) in
  T <= now -> Guard T s -> Inv now s' -> dk_threads s !! t = Some (Starting i k) -> pc_sound s' p -> Guard now s'.
Proof.
  intros s' HT H Hi' Ht Hp. eapply guard_timers; [exact HT|exact H|done|done|done| | | |done].
  - intros j tm Hj. simpl. destruct (decide (i = j)) as [->|].
    + rewrite list_lookup_alter_eq, Hj. simpl. eexists; split; [done|]. apply same_id_start.
    + rewrite list_lookup_alter_ne by done. eauto.
  - intros q. rewrite Ht. by intros [= <-].
  - intros id j tm _ H1 H2 [H3 H4]. right. exists j. simpl. destruct (decide (i = j)) as [->|Hne].
    + exists (start_timer tm). rewrite list_lookup_alter_eq, H2. split_and!; [done..|]. split.
      * assert (tm_at (start_timer tm) = tm_at tm) as -> by (unfold start_timer; by destruct (tm_state tm)).
        destruct H3 as [|]; [left; lia|by right].
      * left. unfold start_timer. by destruct H4 as [E|[E _]]; rewrite E.
    + exists tm. rewrite list_lookup_alter_ne by done. split_and!; [done..|]. split; [destruct H3; [left; lia|by right]|].
      destruct H4 as [|[H4 (u & k' & Hu)]]; [by left|right]. split; [done|]. exists u, k'. simpl.
      rewrite lookup_insert_ne; [done|]. intros <-. congruence.
Qed.

Lemma guard_untrack T now t id mounts n s :
  let s' := set_pc t (Release mounts n) (remove_expiration_tracking id s) in
  T <= now -> Guard T s -> Inv now s' -> dk_threads s !! t = Some (Untrack id mounts n) -> Guard now s'.
Proof.
  intros s' HT H Hi' Ht. eapply guard_timers; [exact HT|exact H|done|done| | | | |done].
  - simpl. intros j i [_ Hj]%lookup_delete_Some. done.
  - intros j tm Hj. simpl. by apply cancel_existing_lookup.
  - intros q. rewrite Ht. by intros [= <-].
  - intros j i tm (c & Hc & _) H1 H2 H3. pose proof (gd_threads _ _ H _ _ Ht) as Hid. simpl in Hid.
    assert (j <> id) as Hne by (intros ->; congruence). right. exists i, tm. simpl.
    rewrite lookup_delete_ne by done. split; [done|]. split.
    + rewrite cancel_existing_other; [done|]. intros i' Hi. by apply (timers_apart T s id j).
    + eapply (live_timer_step T now _ _ _ t (Release mounts n) s); [done..| |by rewrite Ht].
      split_and!; try done. intros o Ho. by apply born_set_pc.
Qed.

Lemma guard_fire T now t i tm s :
  let s' := set_pc t (ELookup (tm_id tm) (tm_fallback tm))
    (set_tracking (dk_sandbox_expirations s) (dk_expiration_timers s)
       (alter (with_state TFired) i (dk_timers s)) (dk_given s) s) in
  T <= now -> Guard T s -> Inv now s' -> dk_timers s !! i = Some tm -> idle (dk_threads s !! t) = true -> Guard now s'.
Proof.
  intros s' HT H Hi' Hi Ht. eapply guard_timers; [exact HT|exact H|done|done|done| | | |done].
  - intros j tm' Hj. simpl. destruct (decide (i = j)) as [->|].
    + rewrite list_lookup_alter_eq, Hj. simpl. by eexists.
    + rewrite list_lookup_alter_ne by done. eauto.
  - intros q Hq. rewrite Hq in Ht. by destruct q.
  - intros id j tm' _ H1 H2 H3. destruct (decide (i = j)) as [->|Hne].
    + destruct (gd_timers _ _ H _ _ H1) as (tm'' & H4 & <-). assert (tm'' = tm) as -> by congruence.
      apply guarded_thread with t (ELookup (tm_id tm) (tm_fallback tm)); [|done]. simpl. by rewrite lookup_insert_eq.
    + right. exists j, tm'. simpl. rewrite list_lookup_alter_ne by done. split_and!; [done..|].
      eapply (live_timer_step T now _ _ _ t (ELookup (tm_id tm) (tm_fallback tm)) s); [done..| |].
      * split_and!; try done. intros o Ho. by apply born_set_pc.
      * intros j' k E. by rewrite E in Ht.
Qed.

(** ** Steps *)

Lemma no_rebirth_same s s' : (forall id c, dk_containers s' !! id = Some c -> is_Some (dk_containers s !! id)) -> no_rebirth s s'.
Proof.
  intros H id _ Hid. destruct (dk_containers s' !! id) eqn:E; [|done]. destruct (H _ _ E). congruence.
Qed.

(** A step of a thread that keeps timers, and whose operation [s1] keeps threads. *)
Lemma guard_op T now t p p' s s1 :
  T <= now -> Guard T s -> dk_threads s !! t = Some p -> Inv now (set_pc t p' s1) ->
  same_facts s s1 -> dk_expiration_timers s1 = dk_expiration_timers s -> dk_timers s1 = dk_timers s ->
  (forall id, expires s1 id -> expires s id) -> (forall id c, dk_containers s1 !! id = Some c -> is_Some (dk_containers s !! id)) ->
  (forall o, creating p' = Some o -> creating p = Some o) ->
  (forall id, heading p = Some id -> heading p' = Some id \/ dk_containers s1 !! id = None) ->
  (forall j k, p <> Starting j k) -> pc_sound s1 p' ->
  Guard now (set_pc t p' s1).
Proof.
  intros HT H Ht Hi Hs E1 E2 Hexp Hc Hcr Hh Hst Hp. pose proof Hs as (_ & _ & E3).
  eapply guard_plain; [exact HT|exact H|exact Hi|simpl; by rewrite E3|done|done| |by apply no_rebirth_same|by left; apply Hexp| | |done].
  - apply extends_trans with s1; [by apply same_facts_extends|]. split_and!; try done.
    intros id Hid. apply born_set_pc; [|done]. intros o Ho. exists p. split; [congruence|auto].
  - intros q id. rewrite Ht. intros [= <-]. apply Hh.
  - intros j k. rewrite Ht. intros [= ->]. by destruct (Hst j k).
Qed.

(** The thread alone moves on. *)
Lemma guard_move T now t p p' s :
  T <= now -> Guard T s -> dk_threads s !! t = Some p -> Inv now (set_pc t p' s) ->
  (forall o, creating p' = Some o -> creating p = Some o) ->
  (forall id, heading p = Some id -> heading p' = Some id \/ dk_containers s !! id = None) ->
  (forall j k, p <> Starting j k) -> pc_sound s p' ->
  Guard now (set_pc t p' s).
Proof. intros. eapply guard_op; eauto; by split_and!. Qed.

Lemma expires_kill ok id s i : expires (kill_container ok id s).2 i -> expires s i.
Proof.
  unfold kill_container. repeat case_match; simpl; try done. intros (c' & Hc & He). simpl in Hc.
  apply lookup_insert_Some in Hc as [[<- <-]|[_ Hc]]; eexists; eauto.
Qed.

Lemma containers_kill ok id s i c :
  dk_containers (kill_container ok id s).2 !! i = Some c -> is_Some (dk_containers s !! i).
Proof.
  unfold kill_container. repeat case_match; simpl; try done. 
  intros [[<- <-]|[_ Hc]]%lookup_insert_Some; eauto.
Qed.

Lemma expires_remove ok id s i : expires (remove_container ok id s).2 i -> expires s i.
Proof.
  unfold remove_container. repeat case_match; simpl; try done. intros (c' & Hc & He). simpl in Hc.
  apply lookup_delete_Some in Hc as [_ Hc]; eexists; eauto.
Qed.

Lemma containers_remove ok id s i c :
  dk_containers (remove_container ok id s).2 !! i = Some c -> is_Some (dk_containers s !! i).
Proof.
  unfold remove_container. repeat case_match; simpl; try done. intros [_ Hc]%lookup_delete_Some; eauto.
Qed.

Lemma removed id s : dk_containers (remove_container true id s).2 !! id = None.
Proof. unfold remove_container. case_match; simpl; [apply lookup_delete_eq|done]. Qed.

Lemma expires_label T id new s i : Inv T s -> mortal id s -> expires (set_label id new s) i -> expires s i.
Proof.
  intros H [_ Hm]. unfold set_label. case_match eqn:E; [|done]. intros (c' & Hc & He). simpl in Hc.
  apply lookup_insert_Some in Hc as [[<- <-]|[_ Hc]]; [|by exists c'].
  exists c. split; [done|]. destruct (lb_expires_at (ct_labels c)) eqn:E'; [by eexists|].
  by destruct Hm, (proj2 (inv_containers _ _ H _ _ E) E').
Qed.

Lemma containers_label id new s i c :
  dk_containers (set_label id new s) !! i = Some c -> is_Some (dk_containers s !! i).
Proof.
  unfold set_label. case_match; simpl; [|by eauto]. intros [[<- <-]|[_ Hc]]%lookup_insert_Some; eauto.
Qed.

Lemma label_timers id new s :
  dk_expiration_timers (set_label id new s) = dk_expiration_timers s /\ dk_timers (set_label id new s) = dk_timers s.
Proof. unfold set_label. by case_match. Qed.

Lemma kill_timers ok id s :
  dk_expiration_timers (kill_container ok id s).2 = dk_expiration_timers s /\
  dk_timers (kill_container ok id s).2 = dk_timers s.
Proof. unfold kill_container. by repeat case_match. Qed.

Lemma remove_timers ok id s :
  dk_expiration_timers (remove_container ok id s).2 = dk_expiration_timers s /\
  dk_timers (remove_container ok id s).2 = dk_timers s.
Proof. unfold remove_container. by repeat case_match. Qed.

(** Obligations that are read off the two positions. *)
Ltac positions := first [done | by left | by intros ? [= <-]; left | by intros ? ?; left | naive_solver].

Lemma guard_expire_step T now ok t p s :
  T <= now -> Guard T s -> dk_threads s !! t = Some p -> (decisive p = true -> ok = true) ->
  Inv now (expire_step now ok t p s) -> expire_step now ok t p s = s \/ Guard now (expire_step now ok t p s).
Proof.
  intros HT H Ht Hok Hi. pose proof (inv_threads _ _ (gd_inv _ _ H) _ _ Ht) as Hp.
  pose proof (gd_threads _ _ H _ _ Ht) as Hps. destruct p; simpl in *; try by left. all: right.
  - rewrite (Hok eq_refl) in *. simpl in *. case_match eqn:E; (eapply guard_move; [exact HT|exact H|exact Ht|exact Hi|..]; positions).
  - case_match; (eapply guard_move; [exact HT|exact H|exact Ht|exact Hi|..]; positions).
  - eapply guard_move; [exact HT|exact H|exact Ht|exact Hi|..]; positions.
  - destruct Hp as (_ & e & -> & He). case_match; (eapply guard_move; [exact HT|exact H|exact Ht|exact Hi|..]; positions).
  - eapply (guard_schedule T now t _ id at_ false fallback); [done|done|done|done|..].
    + intros q i. rewrite Ht. by intros [= <-] [= <-].
    + by rewrite Ht.
    + by rewrite Ht.
  - case_match; [|eapply guard_move; [exact HT|exact H|exact Ht|exact Hi|..]; positions].
    eapply guard_op; [exact HT|exact H|exact Ht|exact Hi|apply kill_same|apply kill_timers|apply kill_timers
      |apply expires_kill|apply containers_kill|..]; positions.
  - rewrite (Hok eq_refl) in *. rewrite (surjective_pairing (remove_container true id s)) in *.
    eapply guard_op; [exact HT|exact H|exact Ht|exact Hi|apply remove_same|apply remove_timers|apply remove_timers
      |apply expires_remove|apply containers_remove|..]; try positions.
    + intros i [= <-]. right. apply removed.
    + apply removed.
Qed.

Lemma guard_renew_step T now ok t p s :
  T <= now -> Guard T s -> dk_threads s !! t = Some p ->
  Inv now (renew_step now ok t p s) -> renew_step now ok t p s = s \/ Guard now (renew_step now ok t p s).
Proof.
  intros HT H Ht Hi. pose proof (inv_threads _ _ (gd_inv _ _ H) _ _ Ht) as Hp.
  destruct p; simpl in *; try by left. all: right.
  - destruct (lookup_container ok id s) as [[c|]|]; repeat case_match;
      (eapply guard_move; [exact HT|exact H|exact Ht|exact Hi|..]; positions).
  - case_match; (eapply guard_move; [exact HT|exact H|exact Ht|exact Hi|..]; positions).
  - case_match; (eapply guard_move; [exact HT|exact H|exact Ht|exact Hi|..]; positions).
  - eapply (guard_schedule T now t _ id new true []); [done|done|done|apply (schedule_gives now id new [])|..].
    + intros q i. rewrite Ht. by intros [= <-].
    + by rewrite Ht.
    + by rewrite Ht.
  - case_match; (eapply guard_op; [exact HT|exact H|exact Ht|exact Hi|..]; positions).
  - destruct ok; [|eapply guard_move; [exact HT|exact H|exact Ht|exact Hi|..]; positions].
    eapply guard_op; [exact HT|exact H|exact Ht|exact Hi|apply set_label_same|apply label_timers|apply label_timers
      |intros i; eapply expires_label; [apply H|apply Hp]|apply containers_label|..]; positions.
Qed.

Lemma kill_answered id s s' :
  kill_container true id s = (KillFailed, s') -> dk_containers s' !! id = None.
Proof. unfold kill_container. simpl. repeat case_match; by intros [= <-]. Qed.

Lemma guard_delete_step T now ok t p s :
  T <= now -> Guard T s -> dk_threads s !! t = Some p -> (decisive p = true -> ok = true) ->
  Inv now (delete_step ok t p s) -> delete_step ok t p s = s \/ Guard now (delete_step ok t p s).
Proof.
  intros HT H Ht Hok Hi. destruct p; simpl in *; try by left. all: right.
  - destruct (lookup_container ok id s) as [[c|]|];
      (eapply guard_move; [exact HT|exact H|exact Ht|exact Hi|..]; positions).
  - rewrite (Hok eq_refl) in *. pose proof (kill_same true id s) as H1. pose proof (kill_timers true id s) as [H2 H3].
    pose proof (expires_kill true id s) as H4. pose proof (containers_kill true id s) as H5.
    destruct (kill_container true id s) as [[] s'] eqn:E;
      (eapply guard_op; [exact HT|exact H|exact Ht|exact Hi|exact H1|exact H2|exact H3|exact H4|exact H5|..]; try positions).
    by eapply kill_answered.
  - rewrite (Hok eq_refl) in *. rewrite (surjective_pairing (remove_container true id s)) in *.
    eapply guard_op; [exact HT|exact H|exact Ht|exact Hi|apply remove_same|apply remove_timers|apply remove_timers
      |apply expires_remove|apply containers_remove|..]; try positions.
    apply removed.
Qed.

Lemma ensure_keeps ok key s s' : ensure_ossfs_mounted ok key s = Some s' ->
  dk_expiration_timers s' = dk_expiration_timers s /\ dk_timers s' = dk_timers s /\ dk_containers s' = dk_containers s.
Proof. unfold ensure_ossfs_mounted. repeat case_match; by intros [= <-]. Qed.

Lemma release_keeps key s :
  dk_expiration_timers (release_ossfs_mount key s).2 = dk_expiration_timers s /\
  dk_timers (release_ossfs_mount key s).2 = dk_timers s /\
  dk_containers (release_ossfs_mount key s).2 = dk_containers s.
Proof. unfold release_ossfs_mount. by repeat case_match. Qed.

Lemma expires_same s s' id : dk_containers s' = dk_containers s -> expires s' id -> expires s id.
Proof. intros E. unfold expires. by rewrite E. Qed.

Lemma guard_create_step T now ok t p s :
  T <= now -> Guard T s -> dk_threads s !! t = Some p -> (decisive p = true -> ok = true) ->
  Inv now (create_step now ok t p s) -> create_step now ok t p s = s \/ Guard now (create_step now ok t p s).
Proof.
  intros HT H Ht Hok Hi. pose proof (inv_threads _ _ (gd_inv _ _ H) _ _ Ht) as Hp.
  destruct p; simpl in *; try by left. all: right.
  - destruct todo as [|key todo]; [eapply guard_move; [exact HT|exact H|exact Ht|exact Hi|..]; positions|].
    case_match eqn:E; [|eapply guard_move; [exact HT|exact H|exact Ht|exact Hi|..]; positions].
    destruct (ensure_keeps _ _ _ _ E) as (H1 & H2 & H3).
    eapply guard_op; [exact HT|exact H|exact Ht|exact Hi|by eapply ensure_same|done|done
      |by intros i; apply expires_same|rewrite H3; by eauto|..]; positions.
  - destruct ok; [|eapply guard_move; [exact HT|exact H|exact Ht|exact Hi|..]; positions].
    assert (no_rebirth s (set_containers (<[id := mkContainer l false]> (dk_containers s)) s)) as Hn.
    { intros i [_ Hb] Hi'. simpl. rewrite lookup_insert_ne; [done|]. intros <-. by apply (Hb _ _ Ht). }
    set (s1 := set_containers (<[id := mkContainer l false]> (dk_containers s)) s) in *.
    set (s2 := match lb_expires_at l with Some e => set_given (give id e s1) s1 | None => s1 end) in *.
    assert (dk_threads s2 = dk_threads s /\ dk_containers s2 = dk_containers s1 /\
      dk_expiration_timers s2 = dk_expiration_timers s /\ dk_timers s2 = dk_timers s /\ extends s s2) as (E1 & E2 & E3 & E4 & E5).
    { unfold s2. destruct (lb_expires_at l) as [e|]; [|do 4 (split; [done|]); exact (extends_given s s1 eq_refl eq_refl (fun _ _ H => H))].
      assert (extends s (set_given (give id e s1) s1)) as Hx; [|do 4 (split; [done|]); exact Hx].
      apply extends_given; [done..|]. intros i e' Hi'. unfold given at 1. simpl. unfold give.
      destruct (decide (i = id)) as [->|]; [rewrite lookup_insert_eq; by right|by rewrite lookup_insert_ne]. }
    eapply guard_plain; [exact HT|exact H|exact Hi|simpl; by rewrite E1|done|done| | | | | |done].
    + apply extends_trans with s2; [done|]. split_and!; try done. intros i. by apply born_set_pc.
    + intros i Hb Hc. simpl. rewrite E2. by apply Hn.
    + intros i (c & Hc & He). simpl in Hc. rewrite E2 in Hc. simpl in Hc.
      apply lookup_insert_Some in Hc as [[<- <-]|[_ Hc]]; [right|left; by exists c].
      simpl in *. by destruct He as [e ->].
    + intros q i. rewrite Ht. by intros [= <-].
    + by rewrite Ht.
  - assert (forall i, heading (CStart id l) = Some i -> i = id) as Hhd by (intros i; unfold heading; destruct (lb_expires_at l); [by intros [= ->]|done]).
    destruct (dk_containers s !! id) as [c|] eqn:E; [destruct ok|].
    2, 3: eapply guard_move; [exact HT|exact H|exact Ht|exact Hi|..]; try positions; intros i Hd%Hhd; left; by subst.
    eapply guard_op; [exact HT|exact H|exact Ht|exact Hi|done|done|done| | |..].
    + intros i (c' & Hc' & He). simpl in Hc'.
      apply lookup_insert_Some in Hc' as [[<- <-]|[_ Hc']]; [by exists c|by exists c'].
    + intros i c'. simpl. intros [[<- <-]|[_ Hc']]%lookup_insert_Some; eauto.
    + by destruct (lb_expires_at l).
    + intros i. simpl. destruct (lb_expires_at l); [by intros [= <-]; left|done].
    + done.
    + by destruct (lb_expires_at l).
  - rewrite (Hok eq_refl) in *. rewrite (surjective_pairing (remove_container true id s)) in *.
    eapply guard_op; [exact HT|exact H|exact Ht|exact Hi|apply remove_same|apply remove_timers|apply remove_timers
      |apply expires_remove|apply containers_remove|..]; try positions.
    intros i [= <-]. right. apply removed.
  - eapply (guard_schedule T now t _ id expires0 true []); [done|done|done|apply (schedule_gives now id expires0 [])|..].
    + intros q i. rewrite Ht. by intros [= <-] [= <-].
    + by rewrite Ht.
    + by rewrite Ht.
Qed.

Lemma guard_end_step T now ok t p s :
  T <= now -> Guard T s -> dk_threads s !! t = Some p ->
  Inv now (end_step ok t p s) -> end_step ok t p s = s \/ Guard now (end_step ok t p s).
Proof.
  intros HT H Ht Hi. destruct p; simpl in *; try by left. all: right.
  - eapply guard_begin; [exact HT|exact H|exact Hi|exact Ht|]. by destruct k.
  - eapply guard_untrack; [exact HT|exact H|exact Hi|exact Ht].
  - destruct todo as [|key todo].
    + eapply guard_move; [exact HT|exact H|exact Ht|exact Hi|..]; destruct n; positions.
    + rewrite (surjective_pairing (release_ossfs_mount key s)) in *. destruct (release_keeps key s) as (H1 & H2 & H3).
      case_match; (eapply guard_op; [exact HT|exact H|exact Ht|exact Hi|apply release_same|done|done
        |by intros i; apply expires_same|rewrite H3; by eauto|..]; positions).
  - case_match; (eapply guard_op; [exact HT|exact H|exact Ht|exact Hi|..]; positions).
  - case_match; (eapply guard_op; [exact HT|exact H|exact Ht|exact Hi|..]; positions).
Qed.

Lemma guard_thread_step T now ok t p s :
  T <= now -> Guard T s -> dk_threads s !! t = Some p -> (decisive p = true -> ok = true) ->
  Guard now (thread_step now ok t p s).
Proof.
  intros HT H Ht Hok. pose proof (inv_thread_step T now ok t p s HT (gd_inv _ _ H) Ht) as Hi.
  assert (forall x, x = s \/ Guard now x -> Inv now x -> Guard now x) as Hx.
  { intros x [->|Hx] Hix; [|done]. destruct H as [_ H2 H3 H4]. split; try done.
    intros id He. destruct (H2 id He) as [|(i & tm & H5 & H6 & [H7 H8])]; [by left|right].
    exists i, tm. split_and!; [done..|]. split; [destruct H7; [left; lia|by right]|done]. }
  destruct p; apply Hx; try exact Hi; first
    [by apply (guard_expire_step T)|by apply (guard_renew_step T)|by apply (guard_delete_step T)
    |by apply (guard_create_step T)|by apply (guard_end_step T)].
Qed.

(** ** Restarts *)

(** A timer that has started. *)
Definition ticking (T : Z) (id : string) (s : Docker) : Prop :=
  exists i tm, dk_expiration_timers s !! id = Some i /\ dk_timers s !! i = Some tm /\ tm_state tm = TStarted /\
    (tm_at tm <= T \/ exists e, e ∈ given id s /\ tm_at tm <= e).

Lemma ticking_guarded T id s : ticking T id s -> guarded T id s.
Proof. intros (i & tm & H1 & H2 & H3 & H4). right. exists i, tm. split_and!; [done..|]. split; [done|by left]. Qed.

(** What the first pass has done for the containers it has seen. *)
Record Rearmed (now : Z) (seen : list (string * container)) (acc : Docker * list (string * list string)) : Prop := {
  ra_timers : forall id i, dk_expiration_timers acc.1 !! id = Some i ->
    exists tm, dk_timers acc.1 !! i = Some tm /\ tm_id tm = id;
  ra_seen : forall id c, (id, c) ∈ seen -> is_Some (lb_expires_at (ct_labels c)) ->
    ticking now id acc.1 \/ id ∈ acc.2.*1;
}.

Lemma rearm_timer now id e s :
  let s' := begin_timer (length (dk_timers s)) (schedule_expiration now id e true [] s).2 in
  (forall id i, dk_expiration_timers s !! id = Some i -> exists tm, dk_timers s !! i = Some tm /\ tm_id tm = id) ->
  (forall id i, dk_expiration_timers s' !! id = Some i -> exists tm, dk_timers s' !! i = Some tm /\ tm_id tm = id) /\
  (now < e -> ticking now id s') /\ (forall id', id' <> id -> ticking now id' s -> ticking now id' s').
Proof.
  intros s' Ht.
  assert (length (cancel_existing id s) = length (dk_timers s)) as Elen.
  { unfold cancel_existing. case_match; [apply length_alter|done]. }
  assert (dk_timers s' !! length (dk_timers s) = Some (mkTimer id (Z.max now e) TStarted [])) as Enew.
  { simpl. by rewrite list_lookup_alter_eq, list_lookup_middle. }
  assert (forall i tm, dk_timers s !! i = Some tm -> dk_timers s' !! i = cancel_existing id s !! i) as Eold.
  { intros i tm Hi. apply lookup_lt_Some in Hi as Hlt. simpl. rewrite list_lookup_alter_ne by lia.
    by rewrite lookup_app_l by (rewrite Elen; lia). }
  assert (extends s s') as (_ & _ & Hg) by (eapply extends_trans; [apply (schedule_extends now id e true [])|by split_and!]).
  split_and!.
  - intros id' i Hid. apply (lookup_insert_Some (dk_expiration_timers s) id id' (length (dk_timers s)) i) in Hid.
    destruct Hid as [[<- <-]|[Hne Hi]]; [by eexists; rewrite Enew|].
    destruct (Ht _ _ Hi) as (tm & H1 & H2). destruct (cancel_existing_lookup id s i tm H1) as (tm' & H3 & H4).
    exists tm'. rewrite (Eold _ _ H1). split; [done|congruence].
  - intros Hlt. exists (length (dk_timers s)), (mkTimer id (Z.max now e) TStarted []). simpl.
    rewrite lookup_insert_eq. split_and!; [done|exact Enew|done|]. right. exists e. split; [|lia].
    apply (schedule_gives now id e []).
  - intros id' Hne (i & tm & H1 & H2 & H3 & H4). exists i, tm. rewrite (Eold _ _ H2). simpl.
    rewrite lookup_insert_ne by done. split_and!; [done| |done|naive_solver].
    rewrite cancel_existing_other; [done|]. intros j Hj ->.
    destruct (Ht _ _ Hj) as (tm1 & H5 & H6), (Ht _ _ H1) as (tm2 & H7 & H8). congruence.
Qed.

Lemma rearm_one now seen acc id c :
  Rearmed now seen acc -> Rearmed now (seen ++ [(id, c)]) (restore_one now acc (id, c)).
Proof.
  destruct acc as [s expired]. intros [H1 H2]. simpl in *.
  assert (forall i c', (i, c') ∈ (seen ++ [(id, c)])%list -> is_Some (lb_expires_at (ct_labels c')) ->
    (ticking now i s \/ i ∈ expired.*1) \/ (i = id /\ c' = c)) as Hseen.
  { intros i c' [Hin| Hin%list_elem_of_singleton]%elem_of_app He; [left; by eapply H2|right]. by simplify_eq. }
  unfold restore_one. destruct (stored_expiration id c s) as [e|] eqn:E.
  - case_match eqn:El.
    + split; [done|]. simpl. intros i c' Hin He. rewrite fmap_app, elem_of_app. simpl.
      destruct (Hseen _ _ Hin He) as [[|]|[-> ->]]; [by left|by right; left|right; right; by left].
    + change (Rearmed now (seen ++ [(id, c)])
        (begin_timer (length (dk_timers s)) (schedule_expiration now id e true [] s).2, expired)).
      destruct (rearm_timer now id e s H1) as (H3 & H4 & H5). split; [exact H3|]. cbn [fst snd].
      intros i c' Hin He. destruct (decide (i = id)) as [->|Hne]; [left; apply H4; lia|].
      destruct (Hseen _ _ Hin He) as [[|]|[-> ->]]; [left; by apply H5|by right|done].
  - split; [done|]. intros i c' Hin He. destruct (Hseen _ _ Hin He) as [|[-> ->]]; [done|].
    unfold stored_expiration in E. case_match; [done|]. rewrite E in He. by destruct He.
Qed.

Lemma rearm_all now l seen acc :
  Rearmed now seen acc -> Rearmed now (seen ++ l) (foldl (restore_one now) acc l).
Proof.
  revert seen acc. induction l as [|[id c] l IH]; intros seen acc H; [by rewrite app_nil_r|].
  simpl. rewrite (cons_middle (id, c)), app_assoc. by apply IH, rearm_one.
Qed.

Lemma guard_restart T now s : T <= now -> Inv T s -> Guard now (restart now true s).
Proof.
  intros HT H. pose proof (inv_later _ _ _ HT (inv_restart T now true s H)) as Hi.
  destruct (restored T now s H) as [_ _ Hc _ _].
  assert (Rearmed now ([] ++ map_to_list (dk_containers s))
    (foldl (restore_one now) (forget_process s, []) (map_to_list (dk_containers s)))) as [H1 H2].
  { apply rearm_all. split; simpl; [done|]. by intros id c Hin%elem_of_nil. }
  unfold restart, restore_existing_sandboxes in *. simpl in *.
  destruct (foldl _ _ _) as [s1 expired]. simpl in *. split; [done| |exact H1|].
  - intros id (c & Hid & He). simpl in Hid.
    assert ((id, c) ∈ map_to_list (dk_containers s)) as Hin by (apply elem_of_map_to_list; congruence).
    destruct (H2 _ _ Hin He) as [Ht|(e & -> & Hin')%list_elem_of_fmap]; [by apply ticking_guarded|].
    apply list_elem_of_lookup in Hin' as [n Hn]. apply guarded_thread with n (ELookup e.1 e.2); [|done].
    simpl. apply expire_threads_lookup. eauto.
  - by intros t p (e & _ & ->)%expire_threads_lookup.
Qed.

(** ** Histories *)

(** A request begins on a thread that has nothing to do. *)
Lemma guard_idle T now t p s s1 :
  T <= now -> Guard T s -> idle (dk_threads s !! t) = true -> Inv now (set_pc t p s1) ->
  dk_threads s1 = dk_threads s -> dk_containers s1 = dk_containers s ->
  dk_expiration_timers s1 = dk_expiration_timers s -> dk_timers s1 = dk_timers s ->
  extends s (set_pc t p s1) -> pc_sound s1 p -> Guard now (set_pc t p s1).
Proof.
  intros HT H Ht Hi E1 E2 E3 E4 He Hp. eapply guard_plain; [exact HT|exact H|exact Hi|simpl; by rewrite E1|done|done|done| | | | |done].
  - intros id _. simpl. by rewrite E2.
  - intros id (c & Hc & Hl). left. exists c. simpl in Hc. by rewrite <- E2.
  - intros q id Hq. rewrite Hq in Ht. by destruct q.
  - intros j k E. by rewrite E in Ht.
Qed.

Lemma extends_start t p s : creating p = None -> extends s (set_pc t p s).
Proof. intros Hp. split_and!; try done. intros id. apply born_set_pc. by rewrite Hp. Qed.

Lemma extends_create t id l todo s : id ∉ dk_used s -> extends s (set_pc t (CMount id l todo []) (use_id id s)).
Proof.
  intros Hid. split_and!; [intros i; simpl; set_solver| |done]. intros i [Hu Hb]. split; [simpl; set_solver|].
  simpl. intros u p [[<- <-]|[_ Hp]]%lookup_insert_Some; [|eauto]. simpl. intros [= <-]. by apply Hid.
Qed.

Lemma guard_exec T now a s s' :
  T <= now -> Guard T s -> answered_action a s -> exec now a s = Some s' -> Guard now s'.
Proof.
  intros HT H Ha Hx. pose proof (inv_exec _ _ _ _ _ HT (gd_inv _ _ H) Hx) as Hi.
  destruct a; cbn -[thread_step restart] in *.
  - destruct (idle (dk_threads s !! t)) eqn:Ht; [simpl in Hx|done]. case_match eqn:E; simplify_eq.
    apply andb_true_iff in E as [Hu _]. apply negb_true_iff, bool_decide_eq_false in Hu.
    eapply guard_idle; [exact HT|exact H|exact Ht|exact Hi|done..|by apply extends_create|done].
  - case_match eqn:Ht; simplify_eq. eapply guard_idle; [exact HT|exact H|exact Ht|exact Hi|..]; try done. by apply extends_start.
  - case_match eqn:Ht; simplify_eq. eapply guard_idle; [exact HT|exact H|exact Ht|exact Hi|..]; try done. by apply extends_start.
  - destruct (dk_timers s !! i) as [tm|] eqn:Htm; [|done]. destruct (idle (dk_threads s !! t)) eqn:Ht; [|done]. simpl in Hx.
    case_match; simplify_eq. by eapply guard_fire; [exact HT|exact H|exact Hi|..].
  - destruct (dk_threads s !! t) as [p|] eqn:Ht; [|done].
    assert (Guard now (thread_step now ok t p s)).
    { apply (guard_thread_step T); [done..|]. destruct ok; [done|]. rewrite (Ha p eq_refl). done. }
    destruct p; simplify_eq; done.
  - destruct (dk_containers s !! id) as [c|] eqn:E; simplify_eq. destruct H as [H1 H2 H3 H4]. split; try done.
    + intros i (c' & Hc & He). destruct (H2 i) as [|(j & tm & H5 & H6 & [H7 H8])].
      * simpl in Hc. apply lookup_insert_Some in Hc as [[<- <-]|[_ Hc]]; [by exists c|by exists c'].
      * by left.
      * right. exists j, tm. split_and!; [done..|]. split; [destruct H7; [left; lia|by right]|done].
    + intros t p Hp. pose proof (H4 _ _ Hp) as Hs. destruct p; simpl in *; try done.
      rewrite lookup_insert_ne; [done|]. intros <-. congruence.
  - simplify_eq. apply guard_restart with T; [done|apply H].
Qed.

Lemma guard_run T h s s' : forward T h -> Guard T s -> answered h s -> run h s = Some s' -> Guard (until T h) s'.
Proof.
  revert T s. induction h as [|[now a] h IH]; intros T s; simpl; [by intros _ H _ [= <-]|].
  intros [HT Hf] H [Ha Hr] (s1 & H1 & H2)%bind_Some. eapply IH; [done| |by apply Hr|done].
  by eapply guard_exec.
Qed.

(** A server that starts, after any history whatever, on a daemon that lists
    its containers, and whose daemon then answers the decisive calls. *)
Lemma guard_since_restart T h1 now h2 s1 s :
  forward T h1 -> run h1 init_docker = Some s1 -> until T h1 <= now ->
  forward now h2 -> answered h2 (restart now true s1) -> run h2 (restart now true s1) = Some s ->
  Guard (until now h2) s.
Proof.
  intros Hf1 Hr1 Hn Hf2 Ha Hr2. eapply guard_run; [done| |done..].
  eapply guard_restart; [done|]. by apply (inv_run T h1 init_docker s1 Hf1 (inv_init T)).
Qed.

(** In every history of the server since it last started, whatever happened
    before, in which the daemon answers the calls that end sandboxes, a sandbox
    with an expiration has a timer that is due at the latest when its last
    expiration passes, or a thread that will end it or set its timer. *)
Theorem expirations_guarded T h1 now h2 s1 s id c :
  forward T h1 -> run h1 init_docker = Some s1 -> until T h1 <= now ->
  forward now h2 -> answered h2 (restart now true s1) -> run h2 (restart now true s1) = Some s ->
  dk_containers s !! id = Some c -> is_Some (lb_expires_at (ct_labels c)) -> guarded (until now h2) id s.
Proof.
  intros Hf1 Hr1 Hn Hf2 Ha Hr2 Hc He. apply (gd_guarded _ _ (guard_since_restart _ _ _ _ _ _ Hf1 Hr1 Hn Hf2 Ha Hr2)).
  by exists c.
Qed.

(** ** The server's own steps are enough *)

(** Timers that fire and threads that go on, with calls that succeed. *)
Definition own (T : Z) (na : Z * action) : Prop :=
  na.1 = T /\ match na.2 with AFire _ _ => True | AStep _ ok => ok = true | _ => False end.

Definition removable (T : Z) (id : string) (s : Docker) : Prop :=
  exists h s', Forall (own T) h /\ run h s = Some s' /\ dk_containers s' !! id = None.

Section Removal.
Context (T : Z) (id : string).

(** A sound state in which every expiration of the id has passed. *)
Definition Overdue (s : Docker) : Prop := Guard T s /\ forall e, e ∈ given id s -> e <= T.

Lemma removable_step t p s :
  dk_threads s !! t = Some p -> idle (Some p) = false ->
  removable T id (thread_step T true t p s) -> removable T id s.
Proof using Type.
  intros Ht Hp (h & s' & H1 & H2 & H3). exists ((T, AStep t true) :: h), s'. split; [by constructor|].
  split; [|done]. cbn -[thread_step]. rewrite Ht. by destruct p.
Qed.

Lemma overdue_step t p s :
  Overdue s -> dk_threads s !! t = Some p -> dk_given (thread_step T true t p s) = dk_given s ->
  Overdue (thread_step T true t p s).
Proof using Type.
  intros [H1 H2] Ht Hg. split; [by apply (guard_thread_step T); [lia|..]|].
  intros e. unfold given. rewrite Hg. apply H2.
Qed.

Lemma remove_given ok i s : dk_given (remove_container ok i s).2 = dk_given s.
Proof using Type. unfold remove_container. by repeat case_match. Qed.

Lemma kill_given ok i s : dk_given (kill_container ok i s).2 = dk_given s.
Proof using Type. unfold kill_container. by repeat case_match. Qed.

Lemma removable_ERemove t c s : dk_threads s !! t = Some (ERemove id c) -> removable T id s.
Proof using Type.
  intros Ht. apply (removable_step t _ _ Ht); [done|]. exists [], (thread_step T true t (ERemove id c) s).
  split; [done|]. split; [done|]. simpl. rewrite (surjective_pairing (remove_container true id s)). apply removed.
Qed.

Lemma removable_EKill t c s : dk_threads s !! t = Some (EKill id c) -> removable T id s.
Proof using Type.
  intros Ht. apply (removable_step t _ _ Ht); [done|]. apply (removable_ERemove t c). simpl. by rewrite lookup_insert_eq.
Qed.

Lemma removable_ECheck t c o s : Overdue s -> dk_threads s !! t = Some (ECheck id c o) -> removable T id s.
Proof using Type.
  intros [H1 H2] Ht. apply (removable_step t _ _ Ht); [done|]. apply (removable_EKill t c). simpl.
  destruct (inv_threads _ _ (gd_inv _ _ H1) _ _ Ht) as (_ & e & -> & He).
  destruct (Z.ltb_spec T e) as [Hlt|_]; [apply H2 in He; lia|]. simpl. by rewrite lookup_insert_eq.
Qed.

Lemma removable_ERead t c s : Overdue s -> dk_threads s !! t = Some (ERead id c) -> removable T id s.
Proof using Type.
  intros H Ht. pose proof (overdue_step t _ s H Ht) as Ho. apply (removable_step t _ _ Ht); [done|]. simpl in *.
  destruct (dk_sandbox_expirations s !! id) eqn:E.
  - eapply (removable_ECheck t c); [by apply Ho|]. simpl. by rewrite lookup_insert_eq.
  - specialize (Ho eq_refl). set (s' := set_pc _ _ _) in *.
    assert (dk_threads s' !! t = Some (EReadStore id c)) as Ht' by (simpl; by rewrite lookup_insert_eq).
    apply (removable_step t _ _ Ht'); [done|]. eapply (removable_ECheck t c); [by apply overdue_step|].
    simpl. by rewrite lookup_insert_eq.
Qed.

Lemma removable_ELookup t f s : Overdue s -> dk_threads s !! t = Some (ELookup id f) -> removable T id s.
Proof using Type.
  intros H Ht. destruct (dk_containers s !! id) as [c|] eqn:E; [|by exists [], s].
  pose proof (overdue_step t _ s H Ht) as Ho. apply (removable_step t _ _ Ht); [done|].
  simpl in *. rewrite E in *. eapply (removable_ERead t c); [by apply Ho|]. simpl. by rewrite lookup_insert_eq.
Qed.

Lemma removable_started i tm s :
  Overdue s -> dk_timers s !! i = Some tm -> tm_id tm = id -> tm_state tm = TStarted -> tm_at tm <= T ->
  removable T id s.
Proof using Type.
  intros [H1 H2] Hi Hid Hst Hat. set (t := fresh (dom (dk_threads s))).
  assert (dk_threads s !! t = None) as Ht by (apply not_elem_of_dom, is_fresh).
  set (s' := set_pc t (ELookup (tm_id tm) (tm_fallback tm))
    (set_tracking (dk_sandbox_expirations s) (dk_expiration_timers s) (alter (with_state TFired) i (dk_timers s)) (dk_given s) s)).
  assert (exec T (AFire t i) s = Some s') as Hx.
  { simpl. rewrite Hi, Ht, Hst. by destruct (Z.leb_spec (tm_at tm) T); [|lia]. }
  destruct (removable_ELookup t (tm_fallback tm) s') as (h & s2 & H3 & H4 & H5).
  - split; [by apply (guard_exec T T (AFire t i) s); [lia|..]|exact H2].
  - simpl. by rewrite lookup_insert_eq, Hid.
  - exists ((T, AFire t i) :: h), s2. split; [by constructor|]. split; [|done]. cbn -[exec]. by rewrite Hx.
Qed.

Lemma removable_starting t k i tm s :
  Overdue s -> dk_threads s !! t = Some (Starting i k) -> dk_timers s !! i = Some tm -> tm_id tm = id ->
  tm_state tm = TNew -> tm_at tm <= T -> removable T id s.
Proof using Type.
  intros H Ht Hi Hid Hst Hat. pose proof (overdue_step t _ s H Ht eq_refl) as Ho.
  apply (removable_step t _ _ Ht); [done|].
  apply (removable_started i (start_timer tm)); [done| |by rewrite same_id_start|..]; unfold start_timer; rewrite Hst; [|done..].
  simpl. rewrite list_lookup_alter_eq, Hi. simpl. unfold start_timer. by rewrite Hst.
Qed.

Lemma removable_schedule t e update fallback s p :
  Overdue s -> dk_threads s !! t = Some p -> e ∈ given id s -> idle (Some p) = false ->
  thread_step T true t p s = set_pc t (Starting (length (dk_timers s)) StartedDone) (schedule_expiration T id e update fallback s).2 ->
  removable T id s.
Proof using Type.
  intros [H1 H2] Ht He Hp Hs. apply (removable_step t _ _ Ht Hp).
  assert (Guard T (thread_step T true t p s)) as H3 by (apply (guard_thread_step T); [lia|done..]).
  rewrite Hs in *. assert (length (cancel_existing id s) = length (dk_timers s)) as Elen.
  { unfold cancel_existing. case_match; [apply length_alter|done]. }
  eapply (removable_starting t _ (length (dk_timers s))); [|simpl; by rewrite lookup_insert_eq
    |simpl; rewrite <- Elen; by apply list_lookup_middle|done|done|simpl; apply H2 in He; lia].
  split; [done|]. intros e'. destruct update; [|by apply H2]. unfold given at 1. simpl. unfold give.
  rewrite lookup_insert_eq. simpl. intros [->|]%elem_of_cons; by apply H2.
Qed.

Lemma removable_CSchedule t e s : Overdue s -> dk_threads s !! t = Some (CSchedule id e) -> removable T id s.
Proof using Type.
  intros H Ht. eapply (removable_schedule t e true []); [done|done| |done..].
  by apply (inv_threads _ _ (gd_inv _ _ (proj1 H)) _ _ Ht).
Qed.

Lemma removable_CStart t l e s :
  Overdue s -> dk_threads s !! t = Some (CStart id l) -> lb_expires_at l = Some e -> removable T id s.
Proof using Type.
  intros H Ht El. destruct (dk_containers s !! id) as [c|] eqn:E; [|by exists [], s].
  pose proof (overdue_step t _ s H Ht) as Ho. apply (removable_step t _ _ Ht); [done|].
  simpl in *. rewrite E, El in *. eapply (removable_CSchedule t e); [by apply Ho|]. simpl. by rewrite lookup_insert_eq.
Qed.

Lemma removable_CClean t l s : dk_threads s !! t = Some (CClean id l) -> removable T id s.
Proof using Type.
  intros Ht. apply (removable_step t _ _ Ht); [done|]. exists [], (thread_step T true t (CClean id l) s).
  split; [done|]. split; [done|]. simpl. rewrite (surjective_pairing (remove_container true id s)). apply removed.
Qed.

Lemma removable_overdue s : Overdue s -> expires s id -> removable T id s.
Proof using Type.
  intros H Hid. pose proof H as [H1 H2].
  destruct (gd_guarded _ _ H1 _ Hid) as [(t & p & Ht & Hp)|(i & tm & H3 & H4 & H5 & H6)].
  - destruct p; simplify_eq/=; eauto using removable_ELookup, removable_ERead, removable_ECheck, removable_EKill,
      removable_ERemove, removable_CSchedule, removable_CClean.
    + pose proof (overdue_step t _ s H Ht eq_refl) as Ho. apply (removable_step t _ _ Ht); [done|].
      eapply (removable_ECheck t c); [exact Ho|]. simpl. by rewrite lookup_insert_eq.
    + eapply (removable_schedule t at_ false fallback); [done|done|by apply (gd_threads _ _ H1 _ _ Ht)|done..].
    + destruct (lb_expires_at l) eqn:El; [|done]. simplify_eq. by eapply removable_CStart.
  - destruct (gd_timers _ _ H1 _ _ H3) as (tm' & H7 & H8).
    assert (tm' = tm) as -> by congruence. assert (tm_at tm <= T) by (destruct H5 as [|(e & He & ?)]; [done|]; apply H2 in He; lia).
    destruct H6 as [|[? (t & k & Ht)]]; [by eapply removable_started|by eapply removable_starting].
Qed.
End Removal.


(** A check that every call of a history is answered. *)
Definition answers (na : Z * action) : bool :=
  match na.2 with AStep _ ok | ARestart ok => ok | _ => true end.

Lemma answered_all h s : forallb answers h = true -> answered h s.
Proof.
  revert s. induction h as [|[now a] h IH]; intros s; simpl; [done|]. intros [Ha Hh]%andb_true_iff.
  split; [|auto]. unfold answers in Ha. destruct a; simpl in *; subst; done.
Qed.

(** Sandbox [a] is renewed to 20 and has been idle since. *)
Definition renewed_a : list (Z * action) :=
  create_a ++ [(5, ARenew 1 "a" 20)] ++ go 5 1 6 ++ [(25, ARenew 2 "b" 30)].


(** ** Where the calls fail, and where renewals race *)

(** A sandbox with an expiration that nothing will end: no thread is under way
    and no timer of its own will fire. *)
Definition abandoned (id : string) (s : Docker) : bool :=
  match dk_containers s !! id with Some c => bool_decide (is_Some (lb_expires_at (ct_labels c))) | None => false end
  && forallb (fun kv : nat * pc => idle (Some kv.2)) (map_to_list (dk_threads s))
  && forallb (fun tm => negb (String.eqb (tm_id tm) id) || bool_decide (tm_state tm = TCancelled)
                        || bool_decide (tm_state tm = TFired)) (dk_timers s).

(** A renewal that comes between the check of the timer's thread and the kill is
    answered with success, and the sandbox is ended all the same. *)
Lemma renewed_but_killed :
  exists s, run (create_a ++ [(10, AFire 1 0)] ++ go 10 1 3 ++ [(10, ARenew 2 "a" 1000)] ++ go 10 2 6 ++ go 10 1 2) init_docker = Some s /\
    dk_threads s !! 2%nat = Some (Done ok_) /\ dk_containers s !! "a" = None.
Proof. eexists. split; [vm_compute; reflexivity|by vm_compute]. Qed.

(** A renewal that comes between the failed lookup and the retry it schedules
    loses its timer to the retry; when the retry's lookup fails too, it finds the
    sandbox renewed and schedules nothing. *)
Lemma retry_drops_renewed_timer :
  exists s, run (create_a ++ [(10, AFire 1 0); (10, AStep 1 false); (10, AStep 1 true)]
      ++ [(10, ARenew 2 "a" 90000000)] ++ go 10 2 6 ++ go 10 1 2
      ++ [(30000010, AFire 1 2); (30000010, AStep 1 false); (30000010, AStep 1 true)]) init_docker = Some s /\
    dk_sandbox_expirations s !! "a" = Some 90000000 /\ abandoned "a" s = true.
Proof. eexists. split; [vm_compute; reflexivity|by vm_compute]. Qed.

(** A kill and a removal that fail are logged and the sandbox's tracking is
    dropped: it runs on, without a timer. *)
Lemma failed_expiry_leaves_running :
  exists s, run (create_a ++ [(10, AFire 1 0)] ++ go 10 1 3 ++ [(10, AStep 1 false); (10, AStep 1 false)] ++ go 10 1 3) init_docker = Some s /\
    ct_running <$> dk_containers s !! "a" = Some true /\ dk_sandbox_expirations s = ∅ /\ abandoned "a" s = true.
Proof. eexists. split; [vm_compute; reflexivity|by vm_compute]. Qed.

(** So does a deletion that is answered with an error. *)
Lemma failed_delete_leaves_running :
  exists s, run (create_a ++ [(5, ADelete 1 "a"); (5, AStep 1 true); (5, AStep 1 false)] ++ go 5 1 3) init_docker = Some s /\
    dk_threads s !! 1%nat = Some (Done (Raise 500)) /\ ct_running <$> dk_containers s !! "a" = Some true /\
    abandoned "a" s = true.
Proof. eexists. split; [vm_compute; reflexivity|by vm_compute]. Qed.

(** A container that could neither be started nor removed keeps its expiration,
    and has no timer. *)
Lemma failed_creation_abandons :
  exists s, run ((0, ACreate 0 "a" (Some 10) []) :: go 0 0 2 ++ [(0, AStep 0 false); (0, AStep 0 false)] ++ go 0 0 1) init_docker = Some s /\
    dk_threads s !! 0%nat = Some (Done (Raise 500)) /\ abandoned "a" s = true.
Proof. eexists. split; [vm_compute; reflexivity|by vm_compute]. Qed.

(** A server that cannot list its containers when it starts never expires them. *)
Lemma unlisted_restart_abandons :
  exists s, run (create_a ++ [(5, ARestart false)]) init_docker = Some s /\ abandoned "a" s = true.
Proof. eexists. split; [vm_compute; reflexivity|by vm_compute]. Qed.
