(* ===== verification/DockerMounts.v ===== *)
(** * Sandboxes on Docker: object-storage mounts are counted

    Over the histories of [DockerLifecycle]: no reference to a mount is leaked,
    whatever fails and however threads interleave.  References can be lost
    instead, and a mount in use be taken away, as the runs at the end show. *)

From Stdlib Require Import ZArith Lia String.
From stdpp Require Import base numbers strings gmap list.
From S2P Require Import Prelude.
From S2P Require Import DockerLifecycle.

Open Scope string_scope.
Open Scope Z_scope.

(** ** Counting in maps *)

Section Counting.
Context {K A : Type} `{Countable K} (f : A -> bool).

Definition tally (m : gmap K A) : nat := size (filter (fun kv => f kv.2 = true) m).

Definition worth (o : option A) : nat := match o with Some a => Nat.b2n (f a) | None => 0 end.

Lemma tally_delete k m : tally m = (tally (delete k m) + worth (m !! k))%nat.
Proof using Type.
  unfold tally. rewrite map_filter_delete. destruct (m !! k) as [a|] eqn:E; simpl.
  - destruct (f a) eqn:Ef; simpl.
    + rewrite map_size_delete_Some; [|by eexists; apply map_lookup_filter_Some].
      assert (size (filter (fun kv : K * A => f kv.2 = true) m) <> 0%nat); [|lia].
      apply (map_size_ne_0_lookup_2 _ k). exists a. by apply map_lookup_filter_Some.
    + rewrite map_size_delete_None; [lia|]. apply map_lookup_filter_None. right.
      intros b Hb. simplify_eq/=. congruence.
  - rewrite map_size_delete_None; [lia|]. apply map_lookup_filter_None. by left.
Qed.

Lemma tally_insert k a m : (tally (<[k := a]> m) + worth (m !! k) = tally m + Nat.b2n (f a))%nat.
Proof using Type.
  rewrite (tally_delete k (<[k := a]> m)), (tally_delete k m), lookup_insert_eq, delete_insert_eq. simpl. lia.
Qed.

Lemma tally_pos k a m : m !! k = Some a -> f a = true -> (0 < tally m)%nat.
Proof using Type. intros Hk Hf. rewrite (tally_delete k m), Hk. simpl. rewrite Hf. simpl. lia. Qed.
End Counting.

(** ** Who uses a mount *)

Definition uses (key : string) (c : container) : bool := bool_decide (key ∈ lb_mounts (ct_labels c)).

(** The references a thread holds: to mounts of a container it has still to
    make, and of one that is gone. *)
Definition claims (key : string) (p : pc) : bool :=
  match p with
  | CMount _ _ _ done_ => bool_decide (key ∈ done_)
  | CRun _ l => bool_decide (key ∈ lb_mounts l)
  | Untrack _ mounts _ => bool_decide (key ∈ mounts)
  | Release todo _ | Unmount _ todo _ => bool_decide (key ∈ todo)
  | _ => false
  end.

Definition users (key : string) (s : Docker) : nat := tally (uses key) (dk_containers s).
Definition holders (key : string) (s : Docker) : nat := (users key s + tally (claims key) (dk_threads s))%nat.

(** The container of a thread that ends a sandbox. *)
Definition snapshot_of (p : pc) : option (string * container) :=
  match p with
  | ERead id c | EReadStore id c | ECheck id c _ | EKill id c | ERemove id c | DKill id c | DRemove id c => Some (id, c)
  | CStart id l | CClean id l => Some (id, mkContainer l false)
  | _ => None
  end.

Definition mounts_ok (s : Docker) (p : pc) : Prop :=
  match p with
  | CMount _ l todo done_ => lb_mounts l = (done_ ++ todo)%list /\ NoDup (lb_mounts l)
  | CRun _ l => NoDup (lb_mounts l)
  | _ => forall id c c', snapshot_of p = Some (id, c) -> dk_containers s !! id = Some c' ->
           lb_mounts (ct_labels c') = lb_mounts (ct_labels c)
  end.

Record Mounts (s : Docker) : Prop := {
  mt_refs : forall key, (refs key s <= holders key s)%nat;
  mt_containers : forall id c, dk_containers s !! id = Some c -> NoDup (lb_mounts (ct_labels c));
  mt_threads : forall t p, dk_threads s !! t = Some p -> mounts_ok s p;
}.

(** Containers that are there keep their mounts; new ones are unknown to all. *)
Definition keeps_mounts (s s' : Docker) : Prop :=
  forall id c', dk_containers s' !! id = Some c' -> born id s ->
    exists c, dk_containers s !! id = Some c /\ lb_mounts (ct_labels c') = lb_mounts (ct_labels c).

Lemma snapshot_mounts s p id c c' :
  mounts_ok s p -> snapshot_of p = Some (id, c) -> dk_containers s !! id = Some c' ->
  lb_mounts (ct_labels c') = lb_mounts (ct_labels c).
Proof. destruct p; simpl; try done; intros Hm Hs Hc; by eapply Hm. Qed.

Lemma snapshot_born T s p id c : pc_ok T s p -> snapshot_of p = Some (id, c) -> born id s.
Proof. destruct p; simpl; intros Hp [= <- <-]; unfold mortal in *; naive_solver. Qed.

Lemma mounts_ok_keeps T s s' p : pc_ok T s p -> keeps_mounts s s' -> mounts_ok s p -> mounts_ok s' p.
Proof.
  intros Hp Hk. assert (forall id c c', snapshot_of p = Some (id, c) -> dk_containers s' !! id = Some c' ->
    (forall id c c', snapshot_of p = Some (id, c) -> dk_containers s !! id = Some c' ->
      lb_mounts (ct_labels c') = lb_mounts (ct_labels c)) -> lb_mounts (ct_labels c') = lb_mounts (ct_labels c)) as H.
  { intros id c c' Hs Hc Hold. destruct (Hk _ _ Hc) as (c2 & H1 & H2); [by eapply snapshot_born|].
    rewrite H2. by eapply Hold. }
  destruct p; simpl; try done; intros Hold i c1 c2 H1 H2; by eapply (H i c1 c2).
Qed.

(** A step of one thread: what it holds, what the containers hold, and the
    counts change together. *)
Lemma mounts_step T t p' s s' :
  Inv T s -> Mounts s -> dk_threads s' = <[t := p']> (dk_threads s) -> keeps_mounts s s' ->
  (forall id c, dk_containers s' !! id = Some c -> NoDup (lb_mounts (ct_labels c))) ->
  mounts_ok s' p' ->
  (forall key, refs key s' = 0 \/ refs key s' + users key s + worth (claims key) (dk_threads s !! t)
                                  <= refs key s + users key s' + Nat.b2n (claims key p'))%nat ->
  Mounts s'.
Proof.
  intros Hi [H1 H2 H3] Ht Hk Hc Hp Hn. split; [|done|].
  - intros key. specialize (H1 key). specialize (Hn key). unfold holders in *. rewrite Ht.
    pose proof (tally_insert (claims key) t p' (dk_threads s)). lia.
  - rewrite Ht. intros u q [[<- <-]|[_ Hu]]%lookup_insert_Some; [done|].
    eapply mounts_ok_keeps; [by apply (inv_threads _ _ Hi _ _ Hu)|done|eauto].
Qed.

(** ** Steps *)

Lemma keeps_same s s' : dk_containers s' = dk_containers s -> keeps_mounts s s'.
Proof. intros E id c' Hc _. rewrite E in Hc. eauto. Qed.

Lemma users_same key s s' : dk_containers s' = dk_containers s -> users key s' = users key s.
Proof. intros E. unfold users. by rewrite E. Qed.

Lemma refs_same key s s' : dk_ref_counts s' = dk_ref_counts s -> refs key s' = refs key s.
Proof. intros E. unfold refs. by rewrite E. Qed.

(** Containers and counts stay as they are. *)
Lemma mounts_plain T t p' s s1 :
  Inv T s -> Mounts s -> dk_threads s1 = dk_threads s -> dk_containers s1 = dk_containers s ->
  dk_ref_counts s1 = dk_ref_counts s -> mounts_ok s p' ->
  (forall key, worth (claims key) (dk_threads s !! t) <= Nat.b2n (claims key p'))%nat ->
  Mounts (set_pc t p' s1).
Proof.
  intros Hi H E1 E2 E3 Hp Hn. apply (mounts_step T t p' s); simpl; rewrite ?E1; try done.
  - by apply keeps_same.
  - simpl. rewrite E2. apply H.
  - destruct p'; simpl in *; rewrite ?E2; done.
  - intros key. rewrite (refs_same key s (set_pc t p' s1)), (users_same key s (set_pc t p' s1)) by done.
    specialize (Hn key). lia.
Qed.

(** A container whose labels name the same mounts. *)
Lemma users_relabel key id c c' s :
  dk_containers s !! id = Some c -> lb_mounts (ct_labels c') = lb_mounts (ct_labels c) ->
  tally (uses key) (<[id := c']> (dk_containers s)) = users key s.
Proof.
  intros Hc E. pose proof (tally_insert (uses key) id c' (dk_containers s)) as H. rewrite Hc in H. simpl in H.
  unfold users. assert (uses key c' = uses key c) as E' by (unfold uses; by rewrite E). rewrite E' in H. lia.
Qed.

Lemma mounts_relabel T t p' id c c' s :
  Inv T s -> Mounts s -> dk_containers s !! id = Some c -> lb_mounts (ct_labels c') = lb_mounts (ct_labels c) ->
  mounts_ok (set_containers (<[id := c']> (dk_containers s)) s) p' ->
  (forall key, worth (claims key) (dk_threads s !! t) <= Nat.b2n (claims key p'))%nat ->
  Mounts (set_pc t p' (set_containers (<[id := c']> (dk_containers s)) s)).
Proof.
  intros Hi H Hc E Hp Hn. apply (mounts_step T t p' s); try done.
  - intros i c2. simpl. intros [[<- <-]|[_ Hc2]]%lookup_insert_Some _; eauto.
  - intros i c2. simpl. intros [[<- <-]|[_ Hc2]]%lookup_insert_Some; [rewrite E|]; by eapply (mt_containers _ H).
  - intros key. specialize (Hn key). unfold users at 2. simpl. rewrite (users_relabel key id c c') by done.
    unfold refs in *. simpl. lia.
Qed.

(** A container is removed by a thread that then holds its mounts. *)
Lemma mounts_remove T t p p' id ok c s :
  Inv T s -> Mounts s -> dk_threads s !! t = Some p -> (forall key, claims key p = false) ->
  snapshot_of p = Some (id, c) -> snapshot_of p' = None -> creating p' = None ->
  (forall key, claims key p' = bool_decide (key ∈ lb_mounts (ct_labels c))) ->
  Mounts (set_pc t p' (remove_container ok id s).2).
Proof.
  intros Hi H Ht Hcl Hs Hs' Hcr Hcl'.
  assert (forall s1, mounts_ok s1 p') as Hp' by by destruct p'.
  assert (forall key, worth (claims key) (dk_threads s !! t) = 0%nat) as Hw by (intros key; rewrite Ht; simpl; by rewrite Hcl).
  unfold remove_container. destruct (dk_containers s !! id) as [c2|] eqn:Ec; [destruct ok|].
  - apply (mounts_step T t p' s); try done.
    + intros i c3. simpl. intros [_ Hc3]%lookup_delete_Some _. eauto.
    + intros i c3. simpl. intros [_ Hc3]%lookup_delete_Some. by eapply (mt_containers _ H).
    + intros key. rewrite Hw, Hcl'. assert (lb_mounts (ct_labels c2) = lb_mounts (ct_labels c)) as E.
      { pose proof (mt_threads _ H _ _ Ht) as Hm. by eapply snapshot_mounts. }
      unfold users. simpl. pose proof (tally_delete (uses key) id (dk_containers s)) as Ht'. rewrite Ec in Ht'.
      simpl in Ht'. unfold uses at 3 in Ht'. rewrite E in Ht'.
      unfold refs in *. simpl. lia.
  - simpl. apply (mounts_plain T t p' s); try done. intros key. rewrite Hw. lia.
  - simpl. apply (mounts_plain T t p' s); try done. intros key. rewrite Hw. lia.
Qed.

(** A thread that holds nothing, before and after. *)
Lemma mounts_quiet T t p p' s s1 :
  Inv T s -> Mounts s -> dk_threads s !! t = Some p -> (forall key, claims key p = false) ->
  dk_threads s1 = dk_threads s -> dk_containers s1 = dk_containers s -> dk_ref_counts s1 = dk_ref_counts s ->
  creating p' = None -> (forall id c, snapshot_of p' = Some (id, c) -> snapshot_of p = Some (id, c) \/ dk_containers s !! id = Some c) ->
  Mounts (set_pc t p' s1).
Proof.
  intros Hi H Ht Hcl E1 E2 E3 Hcr Hs. apply (mounts_plain T t p' s); try done.
  - assert (forall id c c', snapshot_of p' = Some (id, c) -> dk_containers s !! id = Some c' ->
      lb_mounts (ct_labels c') = lb_mounts (ct_labels c)) as Hok.
    { intros id c c' Hp Hc. destruct (Hs _ _ Hp) as [Hp2|Hc2]; [|congruence].
      pose proof (mt_threads _ H _ _ Ht) as Hm. by eapply snapshot_mounts. }
    destruct p'; done.
  - intros key. rewrite Ht. simpl. rewrite Hcl. simpl. lia.
Qed.

Lemma mounts_expire_step T now ok t p s :
  Inv T s -> Mounts s -> dk_threads s !! t = Some p ->
  expire_step now ok t p s = s \/ Mounts (expire_step now ok t p s).
Proof.
  intros Hi H Ht. pose proof (mt_threads _ H _ _ Ht) as Hm. destruct p; simpl in *; try by left. all: right.
  - destruct ok; simpl; [|by eapply mounts_quiet; [exact Hi|exact H|exact Ht|..]].
    case_match eqn:E; (eapply mounts_quiet; [exact Hi|exact H|exact Ht|..]; try done).
    intros i c' [= <- <-]. by right.
  - repeat case_match; by eapply mounts_quiet; [exact Hi|exact H|exact Ht|..].
  - case_match; (eapply mounts_quiet; [exact Hi|exact H|exact Ht|..]; try done; intros i c' [= <- <-]; by left).
  - eapply mounts_quiet; [exact Hi|exact H|exact Ht|..]; try done; intros i c' [= <- <-]; by left.
  - repeat case_match; (eapply mounts_quiet; [exact Hi|exact H|exact Ht|..]; try done; intros i c' [= <- <-]; by left).
  - by eapply mounts_quiet; [exact Hi|exact H|exact Ht|..].
  - unfold kill_container. repeat case_match; simpl;
      try by (eapply mounts_quiet; [exact Hi|exact H|exact Ht|..]; try done; intros i c' [= <- <-]; by left).
    eapply (mounts_relabel T t _ id); [exact Hi|exact H|done|done| |].
    + intros i c1 c2 [= <- <-]. simpl. rewrite lookup_insert_eq. intros [= <-]. simpl. by eapply Hm.
    + intros key. by rewrite Ht.
  - rewrite (surjective_pairing (remove_container ok id s)).
    by eapply (mounts_remove T t _ _ id ok c); [exact Hi|exact H|exact Ht|..].
Qed.

Lemma mounts_renew_step T now ok t p s :
  Inv T s -> Mounts s -> dk_threads s !! t = Some p ->
  renew_step now ok t p s = s \/ Mounts (renew_step now ok t p s).
Proof.
  intros Hi H Ht. destruct p; simpl in *; try by left. all: right.
  - destruct (lookup_container ok id s) as [[c|]|]; repeat case_match;
      by eapply mounts_quiet; [exact Hi|exact H|exact Ht|..].
  - case_match; by eapply mounts_quiet; [exact Hi|exact H|exact Ht|..].
  - case_match; by eapply mounts_quiet; [exact Hi|exact H|exact Ht|..].
  - by eapply mounts_quiet; [exact Hi|exact H|exact Ht|..].
  - case_match; by eapply mounts_quiet; [exact Hi|exact H|exact Ht|..].
  - unfold set_label. repeat case_match; try by eapply mounts_quiet; [exact Hi|exact H|exact Ht|..].
    eapply (mounts_relabel T t _ id); [exact Hi|exact H|done|done|done|]. intros key. by rewrite Ht.
Qed.

Lemma mounts_delete_step T ok t p s :
  Inv T s -> Mounts s -> dk_threads s !! t = Some p ->
  delete_step ok t p s = s \/ Mounts (delete_step ok t p s).
Proof.
  intros Hi H Ht. pose proof (mt_threads _ H _ _ Ht) as Hm. destruct p; simpl in *; try by left. all: right.
  - destruct ok; simpl; [|by eapply mounts_quiet; [exact Hi|exact H|exact Ht|..]].
    case_match eqn:E; (eapply mounts_quiet; [exact Hi|exact H|exact Ht|..]; try done).
    intros i c' [= <- <-]. by right.
  - unfold kill_container. repeat case_match; simplify_eq;
      try by (eapply mounts_quiet; [exact Hi|exact H|exact Ht|..]; try done; intros i c' [= <- <-]; by left).
    eapply (mounts_relabel T t _ id); [exact Hi|exact H|done|done| |].
    + intros i c1 c2 [= <- <-]. simpl. rewrite lookup_insert_eq. intros [= <-]. simpl. by eapply Hm.
    + intros key. by rewrite Ht.
  - rewrite (surjective_pairing (remove_container ok id s)).
    by eapply (mounts_remove T t _ _ id ok c); [exact Hi|exact H|exact Ht|..].
Qed.

Lemma ensure_counts ok key s s' :
  ensure_ossfs_mounted ok key s = Some s' ->
  dk_containers s' = dk_containers s /\ refs key s' = S (refs key s) /\
  forall key', key' <> key -> refs key' s' = refs key' s.
Proof.
  unfold ensure_ossfs_mounted. destruct (Nat.ltb_spec 0 (refs key s)) as [Hlt|Hle];
    [|destruct (bool_decide (key ∈ dk_mounted s)); [|destruct ok; [|done]]];
    intros [= <-]; (split; [done|]); unfold refs in *; simpl; rewrite lookup_insert_eq; simpl;
    (split; [lia|intros key' Hne; by rewrite lookup_insert_ne]).
Qed.

Lemma release_counts key s :
  dk_containers (release_ossfs_mount key s).2 = dk_containers s /\
  refs key (release_ossfs_mount key s).2 = pred (refs key s) /\
  forall key', key' <> key -> refs key' (release_ossfs_mount key s).2 = refs key' s.
Proof.
  unfold release_ossfs_mount. destruct (refs key s) as [|[|n]] eqn:E; simpl; [done| |]; (split; [done|]); unfold refs; simpl.
  - rewrite lookup_delete_eq. split; [done|]. intros key' Hne. by rewrite lookup_delete_ne.
  - rewrite lookup_insert_eq. split; [done|]. intros key' Hne. by rewrite lookup_insert_ne.
Qed.

Lemma b2n_member_app (key x : string) l :
  x ∉ l -> Nat.b2n (bool_decide (key ∈ (l ++ [x])%list)) =
           (Nat.b2n (bool_decide (key ∈ l)) + if decide (key = x) then 1 else 0)%nat.
Proof.
  intros Hx. destruct (decide (key = x)) as [->|Hne].
  - rewrite (bool_decide_true (x ∈ (l ++ [x])%list)) by set_solver. by rewrite bool_decide_false.
  - rewrite (bool_decide_ext (key ∈ (l ++ [x])%list) (key ∈ l)) by set_solver. lia.
Qed.

Lemma b2n_member_cons (key x : string) l :
  (Nat.b2n (bool_decide (key ∈ x :: l)) <= Nat.b2n (bool_decide (key ∈ l)) + if decide (key = x) then 1 else 0)%nat.
Proof.
  destruct (decide (key = x)) as [->|Hne].
  - rewrite (bool_decide_true (x ∈ x :: l)) by set_solver. simpl. lia.
  - rewrite (bool_decide_ext (key ∈ x :: l) (key ∈ l)) by set_solver. lia.
Qed.

Lemma mounts_create_step T now ok t p s :
  Inv T s -> Mounts s -> dk_threads s !! t = Some p ->
  create_step now ok t p s = s \/ Mounts (create_step now ok t p s).
Proof.
  intros Hi H Ht. pose proof (mt_threads _ H _ _ Ht) as Hm. destruct p; simpl in *; try by left. all: right.
  - destruct Hm as [El Hnd]. destruct todo as [|key todo].
    + rewrite app_nil_r in El. eapply (mounts_plain T t _ s); try done. intros key. rewrite Ht. simpl. by rewrite El.
    + destruct (ensure_ossfs_mounted ok key s) as [s1|] eqn:E.
      * destruct (ensure_counts _ _ _ _ E) as (E1 & E2 & E3). pose proof (ensure_same _ _ _ _ E) as (_ & _ & E4).
        assert (key ∉ done_) as Hk.
        { rewrite El in Hnd. apply NoDup_app in Hnd as (_ & Hd & _). intros Hin. apply (Hd _ Hin). left. }
        apply (mounts_step T t (CMount id l todo (done_ ++ [key])%list) s); try done.
        -- simpl. by rewrite E4.
        -- by apply keeps_same.
        -- simpl. rewrite E1. apply H.
        -- simpl. split; [by rewrite <- app_assoc|done].
        -- intros key'. rewrite (users_same key' s (set_pc t _ s1)) by done. rewrite Ht. cbn [worth claims].
           rewrite (b2n_member_app key' key done_ Hk). change (refs key' (set_pc t _ s1)) with (refs key' s1).
           case_decide as Hd; [subst; rewrite E2|rewrite (E3 _ Hd)]; lia.
      * eapply (mounts_plain T t _ s); try done. intros key'. rewrite Ht. simpl. lia.
  - destruct ok; [|eapply (mounts_plain T t _ s); try done; intros key; rewrite Ht; simpl; lia].
    destruct (creating_fresh _ _ _ id _ Hi Ht) as (Hc & _ & _); [done|].
    set (s1 := match lb_expires_at l with Some e => set_given (give id e s) s | None => s end).
    assert (match lb_expires_at l with
      | Some e => set_given (give id e (set_containers (<[id := mkContainer l false]> (dk_containers s)) s))
                    (set_containers (<[id := mkContainer l false]> (dk_containers s)) s)
      | None => set_containers (<[id := mkContainer l false]> (dk_containers s)) s end
      = set_containers (<[id := mkContainer l false]> (dk_containers s)) s1) as ->
      by (unfold s1; by destruct (lb_expires_at l)).
    assert (dk_ref_counts s1 = dk_ref_counts s /\ dk_threads s1 = dk_threads s) as [E1 E2]
      by (unfold s1; by destruct (lb_expires_at l)).
    apply (mounts_step T t (CStart id l) s); try done.
    + simpl. by rewrite E2.
    + intros i c'. simpl. intros [[<- <-]|[_ Hc']]%lookup_insert_Some [_ Hb]; [by destruct (Hb _ _ Ht)|eauto].
    + intros i c'. simpl. intros [[<- <-]|[_ Hc']]%lookup_insert_Some; [done|by eapply (mt_containers _ H)].
    + intros i c1 c2 [= <- <-]. simpl. rewrite lookup_insert_eq. by intros [= <-].
    + intros key. rewrite Ht. cbn [worth claims].
      pose proof (tally_insert (uses key) id (mkContainer l false) (dk_containers s)) as Hu. rewrite Hc in Hu. simpl in Hu.
      unfold uses at 3 in Hu. simpl in Hu. unfold users in *. unfold refs in *. simpl. rewrite E1. lia.
  - destruct (dk_containers s !! id) as [c|] eqn:Ec; [destruct ok|].
    2, 3: eapply mounts_quiet; [exact Hi|exact H|exact Ht|..]; try done; intros i c' [= <- <-]; by left.
    apply (mounts_relabel T t _ id c (mkContainer (ct_labels c) true)); [exact Hi|exact H|done|done| |].
    + by destruct (lb_expires_at l).
    + intros key. rewrite Ht. simpl. lia.
  - rewrite (surjective_pairing (remove_container ok id s)).
    by eapply (mounts_remove T t _ _ id ok (mkContainer l false)); [exact Hi|exact H|exact Ht|..].
  - by eapply mounts_quiet; [exact Hi|exact H|exact Ht|..].
Qed.

Lemma mounts_end_step T ok t p s :
  Inv T s -> Mounts s -> dk_threads s !! t = Some p ->
  end_step ok t p s = s \/ Mounts (end_step ok t p s).
Proof.
  intros Hi H Ht. destruct p; simpl in *; try by left. all: right.
  - destruct k; by eapply mounts_quiet; [exact Hi|exact H|exact Ht|..].
  - eapply (mounts_plain T t _ s); try done. intros key. by rewrite Ht.
  - destruct todo as [|key todo].
    + eapply (mounts_plain T t _ s); try done; [by destruct n|]. intros key. rewrite Ht. cbn [worth claims].
      rewrite bool_decide_false by set_solver. simpl. lia.
    + rewrite (surjective_pairing (release_ossfs_mount key s)).
      destruct (release_counts key s) as (E1 & E2 & E3). pose proof (release_same key s) as (_ & _ & E4).
      set (p' := if _ : bool then Unmount key todo n else Release todo n).
      apply (mounts_step T t p' s); try done.
      * simpl. by rewrite E4.
      * by apply keeps_same.
      * simpl. rewrite E1. apply H.
      * unfold p'. by destruct (release_ossfs_mount key s).1.
      * intros key'. rewrite (users_same key' s (set_pc t _ _)) by done. rewrite Ht.
        assert (claims key' p' = bool_decide (key' ∈ todo)) as -> by (unfold p'; by destruct (release_ossfs_mount key s).1).
        cbn [worth claims]. pose proof (b2n_member_cons key' key todo).
        change (refs key' (set_pc t _ ?x)) with (refs key' x).
        case_decide as Hd; [subst; rewrite E2|rewrite (E3 _ Hd)]; lia.
  - case_match; (eapply (mounts_plain T t _ s); try done; intros key'; by rewrite Ht).
  - case_match; (eapply (mounts_plain T t _ s); try done; intros key'; by rewrite Ht).
Qed.

(** ** Restarts *)

Lemma count_keys key ks (m : gmap string nat) :
  default 0%nat (foldl (fun m key => <[key := S (default 0%nat (m !! key))]> m) m ks !! key)
  = (default 0%nat (m !! key) + count key ks)%nat.
Proof.
  revert m. induction ks as [|k ks IH]; intros m; simpl; [by rewrite Nat.add_0_r|].
  rewrite IH, count_cons. destruct (decide (key = k)) as [->|Hne].
  - rewrite lookup_insert_eq, decide_True by done. simpl. lia.
  - rewrite lookup_insert_ne, decide_False by done. lia.
Qed.

Lemma count_permutation (key : string) l l' : l ≡ₚ l' -> count key l = count key l'.
Proof. intros H. unfold count. by rewrite H. Qed.

Lemma count_mounts_users key (m : gmap string container) :
  (forall id c, m !! id = Some c -> NoDup (lb_mounts (ct_labels c))) ->
  (default 0%nat (count_mounts (map_to_list m) !! key) <= tally (uses key) m)%nat.
Proof.
  unfold count_mounts. rewrite count_keys, lookup_empty. simpl.
  induction m as [|id c m Hid IH] using map_ind; intros Hnd; [by rewrite map_to_list_empty|].
  rewrite (count_permutation key _ (((id, c) :: map_to_list m) ≫= fun kc => lb_mounts (ct_labels kc.2)))
    by (by rewrite map_to_list_insert).
  rewrite bind_cons, count_app. cbn [snd].
  pose proof (tally_insert (uses key) id c m) as Ht. rewrite Hid in Ht. simpl in Ht.
  assert (count key (lb_mounts (ct_labels c)) <= Nat.b2n (uses key c))%nat.
  { unfold uses. case_bool_decide as Hin; simpl.
    - apply count_NoDup. apply (Hnd id). by rewrite lookup_insert_eq.
    - destruct (decide (0 < count key (lb_mounts (ct_labels c)))%nat) as [Hpos|]; [|lia].
      by apply count_pos in Hpos. }
  assert (count key (map_to_list m ≫= fun kc => lb_mounts (ct_labels kc.2)) <= tally (uses key) m)%nat; [|lia].
  apply IH. intros i c' Hc'. apply (Hnd i). rewrite lookup_insert_ne; [done|]. intros ->. congruence.
Qed.

Lemma mounts_restart T now ok s : Inv T s -> Mounts s -> Mounts (restart now ok s).
Proof.
  intros Hi H. destruct ok; [|split; [intros key; apply Nat.le_0_l|apply (mt_containers _ H)|done]].
  destruct (restored T now s Hi) as [_ _ Hc _ _].
  unfold restart, restore_existing_sandboxes. simpl. destruct (foldl _ _ _) as [s1 expired]. simpl in *.
  split; simpl.
  - intros key. unfold holders, users, refs. simpl. rewrite Hc. etrans; [apply count_mounts_users; apply H|]. lia.
  - rewrite Hc. apply H.
  - by intros t p (e & _ & ->)%expire_threads_lookup.
Qed.

(** ** Histories *)

Lemma mounts_thread_step T now ok t p s :
  Inv T s -> Mounts s -> dk_threads s !! t = Some p -> Mounts (thread_step now ok t p s).
Proof.
  intros Hi H Ht. assert (forall x, x = s \/ Mounts x -> Mounts x) as Hx by (by intros x [->|]).
  destruct p; apply Hx; first
    [by eapply mounts_expire_step|by eapply mounts_renew_step|by eapply mounts_delete_step
    |by eapply mounts_create_step|by eapply mounts_end_step].
Qed.

(** A thread with nothing to do holds nothing. *)
Lemma mounts_begin T t p s s1 :
  Inv T s -> Mounts s -> idle (dk_threads s !! t) = true ->
  dk_threads s1 = dk_threads s -> dk_containers s1 = dk_containers s -> dk_ref_counts s1 = dk_ref_counts s ->
  mounts_ok s p -> Mounts (set_pc t p s1).
Proof.
  intros Hi H Ht E1 E2 E3 Hp. apply (mounts_plain T t p s); try done. intros key.
  destruct (dk_threads s !! t) as [q|]; [destruct q|]; simpl in *; try done; lia.
Qed.

Lemma mounts_exec T now a s s' : Inv T s -> Mounts s -> exec now a s = Some s' -> Mounts s'.
Proof.
  intros Hi H. destruct a; cbn -[thread_step restart].
  - destruct (idle (dk_threads s !! t)) eqn:Ht; [simpl|done]. case_match eqn:E; intros [= <-].
    apply andb_true_iff in E as [_ Hn%bool_decide_eq_true].
    apply (mounts_begin T t _ s); done.
  - case_match eqn:Ht; intros [= <-]. by apply (mounts_begin T t _ s).
  - case_match eqn:Ht; intros [= <-]. by apply (mounts_begin T t _ s).
  - destruct (dk_timers s !! i); [|done]. destruct (idle (dk_threads s !! t)) eqn:Ht; [simpl|done].
    case_match; intros [= <-]. by apply (mounts_begin T t _ s).
  - destruct (dk_threads s !! t) as [p|] eqn:Ht; [|done].
    assert (Mounts (thread_step now ok t p s)) by by eapply mounts_thread_step.
    destruct p; intros [= <-]; done.
  - destruct (dk_containers s !! id) as [c|] eqn:E; intros [= <-]. destruct H as [H1 H2 H3]. split.
    + intros key. specialize (H1 key). unfold holders, users, refs in *. simpl.
      rewrite (users_relabel key id c _ s E); [done|done].
    + intros i c'. simpl. intros [[<- <-]|[_ Hc]]%lookup_insert_Some; simpl; eauto.
    + intros t p Hp. eapply (mounts_ok_keeps T s); [by apply (inv_threads _ _ Hi _ _ Hp)| |by eapply H3].
      intros i c'. simpl. intros [[<- <-]|[_ Hc]]%lookup_insert_Some _; eauto.
  - intros [= <-]. by eapply mounts_restart.
Qed.

Lemma mounts_run T h s s' : forward T h -> Inv T s -> Mounts s -> run h s = Some s' -> Mounts s'.
Proof.
  revert T s. induction h as [|[now a] h IH]; intros T s; simpl; [by intros _ _ H [= <-]|].
  intros [HT Hf] Hi H (s1 & H1 & H2)%bind_Some. eapply IH; [done|by eapply inv_exec|by eapply mounts_exec|done].
Qed.

(** Nothing is under way. *)
Definition quiescent (s : Docker) : Prop := forall t p, dk_threads s !! t = Some p -> idle (Some p) = true.

Lemma tally_none {K A} `{Countable K} (f : A -> bool) (m : gmap K A) :
  (forall k a, m !! k = Some a -> f a = false) -> tally f m = 0%nat.
Proof.
  intros Hf. unfold tally. apply map_size_empty_iff, map_empty_filter_2. intros k a Ha. simpl. by rewrite (Hf k).
Qed.


(** ** Where references are lost *)

(** Sandboxes [a] and [b], both on the mount [m]. *)
Definition create_ab : list (Z * action) :=
  (0, ACreate 0 "a" None ["m"]) :: go 0 0 4 ++ (0, ACreate 0 "b" None ["m"]) :: go 0 0 4.

(** A running sandbox whose mount is gone. *)
Definition unmounted (id key : string) (s : Docker) : bool :=
  match dk_containers s !! id with Some c => uses key c && ct_running c | None => false end
  && bool_decide (key ∉ dk_mounted s).

(** A deletion that fails releases the mounts, and its repetition releases them
    again: the mount of the other sandbox is taken away. *)
Lemma repeated_delete_unmounts :
  exists s, run (create_ab ++ [(1, ADelete 1 "a"); (1, AStep 1 true); (1, AStep 1 false)] ++ go 1 1 4
      ++ [(2, ADelete 1 "a")] ++ go 2 1 8) init_docker = Some s /\
    dk_threads s !! 1%nat = Some (Done ok_) /\ unmounted "b" "m" s = true.
Proof. eexists. split; [vm_compute; reflexivity|by vm_compute]. Qed.

(** So do two deletions of one sandbox at the same time. *)
Lemma double_delete_unmounts :
  exists s, run (create_ab ++ [(1, ADelete 1 "a"); (1, ADelete 2 "a")] ++ go 1 1 1 ++ go 1 2 1 ++ go 1 1 6 ++ go 1 2 6)
      init_docker = Some s /\ unmounted "b" "m" s = true.
Proof. eexists. split; [vm_compute; reflexivity|by vm_compute]. Qed.

(** The unmount is outside the lock that counts: a creation that comes between
    finds the path mounted and is left without its mount. *)
Lemma unmount_races_creation :
  exists s, run ((0, ACreate 0 "a" None ["m"]) :: go 0 0 4 ++ [(1, ADelete 1 "a")] ++ go 1 1 5
      ++ [(1, ACreate 0 "b" None ["m"])] ++ go 1 0 4 ++ go 1 1 1) init_docker = Some s /\
    refs "m" s = 1%nat /\ unmounted "b" "m" s = true.
Proof. eexists. split; [vm_compute; reflexivity|by vm_compute]. Qed.

