(* ===== verification/DockerSandboxes.v ===== *)
(** * Sandboxes on Docker: metadata, listings, ports, states

    [server/opensandbox_server/services/docker/metadata.py] (metadata kept in a
    file beside the container, whose labels Docker cannot change),
    [port_allocator.py], and of [docker_service.py] the listing, the state a
    container is reported in, pause and resume; with [_apply_metadata_patch] of
    [services/sandbox_service.py], which does for Kubernetes what the file store
    does for Docker. *)

From Stdlib Require Import ZArith Lia String.
From stdpp Require Import base numbers strings gmap sorting list.
From S2P Require Import Prelude PyString Validators.

Open Scope string_scope.
Open Scope Z_scope.

(** ** Metadata *)

Abbreviation dict := (gmap string string).

Definition NON_USER_LABEL_PREFIXES : list string :=
  ["opensandbox.io/"; "org.opencontainers.image."; "com.docker."; "desktop.docker."].

Definition is_user_label (key : string) : bool := negb (existsb (startswith key) NON_USER_LABEL_PREFIXES).

Definition extract_user_labels (labels : dict) : dict := filter (fun kv => is_user_label kv.1 = true) labels.

(** A sandbox's metadata file; [Unreadable]: it cannot be read or is no JSON. *)
Inductive stored := NoFile | Unreadable | Overrides (d : dict).

(** [d or None] *)
Definition or_none (d : dict) : option dict := if bool_decide (d = ∅) then None else Some d.

Definition metadata_get (f : stored) (labels : dict) : option dict :=
  match f with
  | Overrides d => or_none d
  | NoFile | Unreadable => or_none (extract_user_labels labels)
  end.

(** A JSON merge patch: [None] removes a key; values already are texts. *)
Definition merge_patch := list (string * option string).

Definition apply_patch (current : dict) (patch : merge_patch) : dict :=
  foldl (fun m kv => match kv.2 with None => delete kv.1 m | Some v => <[kv.1 := v]> m end) current patch.

(** What a patch starts from: [current.update(overrides)] *)
Definition metadata_current (f : stored) (labels : dict) : dict :=
  let current := extract_user_labels labels in
  match f with
  | Overrides d => if bool_decide (d = ∅) then current else d ∪ current
  | NoFile | Unreadable => current
  end.

Definition metadata_patch (f : stored) (labels : dict) (patch : merge_patch) : stored :=
  Overrides (apply_patch (metadata_current f labels) patch).

Definition is_system_label (key : string) : bool := startswith key "opensandbox.io/".

Definition additions (patch : merge_patch) : list (string * string) :=
  omap (fun kv => v ← kv.2; Some (kv.1, v)) patch.

(** The checks of both runtimes. *)
Definition check_patch (patch : merge_patch) : res http unit :=
  if existsb (fun kv => is_system_label kv.1) patch then Raise (HTTPException 400 "INVALID_METADATA_LABEL")
  else match additions patch with [] => Ok tt | l => ensure_metadata_labels (Some l) end.

(** [DockerSandboxService.patch_sandbox_metadata], after the container was found:
    the metadata the answer shows, and the file. *)
Definition patch_sandbox_metadata (f : stored) (labels : dict) (patch : merge_patch)
  : res http (option dict) * stored :=
  match check_patch patch with
  | Raise e => (Raise e, f)
  | Ok _ => let f := metadata_patch f labels patch in (Ok (metadata_get f labels), f)
  end.

(** [SandboxService._apply_metadata_patch]: the new labels. *)
Definition apply_metadata_patch (labels : dict) (patch : merge_patch) : res http dict :=
  match check_patch patch with
  | Raise e => Raise e
  | Ok _ =>
      let current := filter (fun kv => is_system_label kv.1 = false) labels in
      Ok (apply_patch current patch ∪ filter (fun kv => is_system_label kv.1 = true) labels)
  end.

(** ** States *)

(** The [State] section of a container's description. *)
Record container_state := mkState {
  cs_status : string;
  cs_running : bool;
  cs_paused : bool;
  cs_restarting : bool;
  cs_exit_code : option Z;
}.

(** The state of [_container_to_sandbox]. *)
Definition container_to_state (c : container_state) : string :=
  let status_value := lower (cs_status c) in
  if cs_running c && negb (cs_paused c) then "Running"
  else if cs_paused c then "Paused"
  else if cs_restarting c then "Running"
  else if bool_decide (status_value ∈ ["created"; "starting"]) then "Pending"
  else if bool_decide (status_value ∈ ["exited"; "dead"])
  then if bool_decide (cs_exit_code c = Some 0) then "Terminated" else "Failed"
  else "Unknown".

(** What was asked of the daemon, and the answer. *)
Definition pause_sandbox (c : container_state) (ok : bool) : list string * res http unit :=
  if negb (cs_running c) then ([], Raise (HTTPException 409 "DOCKER::SANDBOX_NOT_RUNNING"))
  else (["pause"], if ok then Ok tt else Raise (HTTPException 500 "DOCKER::SANDBOX_PAUSE_FAILED")).

Definition resume_sandbox (c : container_state) (ok : bool) : list string * res http unit :=
  if negb (cs_paused c) then ([], Raise (HTTPException 409 "DOCKER::SANDBOX_NOT_PAUSED"))
  else (["unpause"], if ok then Ok tt else Raise (HTTPException 500 "DOCKER::SANDBOX_RESUME_FAILED")).

(** ** Listings *)

Record view := mkView {
  vw_id : string;
  vw_state : string;
  vw_metadata : dict;
  vw_created : Z;
}.

(** An entry of the daemon's list, [""] where it lacks a field, and the answer
    when the entry is inspected. *)
Record summary := mkSummary { sm_id : string; sm_sandbox : string }.
Inductive inspected := Gone | Broken | Inspected (v : view).

Record filter_ := mkFilter { fl_state : list string; fl_metadata : list (string * string) }.

Definition matches_filter (v : view) (f : filter_) : bool :=
  (bool_decide (fl_state f = []) || bool_decide (lower (vw_state v) ∈ map lower (fl_state f)))
  && forallb (fun kv => bool_decide (vw_metadata v !! kv.1 = Some kv.2)) (fl_metadata f).

Fixpoint collect (inspect : string -> inspected) (f : filter_) (l : list summary) (acc : list (string * view))
  : res http (list (string * view)) :=
  match l with
  | [] => Ok acc
  | sm :: l =>
      if (sm_id sm =? "")%string || (sm_sandbox sm =? "")%string then collect inspect f l acc
      else match inspect (sm_id sm) with
           | Gone => collect inspect f l acc
           | Broken => Raise (HTTPException 500 "DOCKER::SANDBOX_QUERY_FAILED")
           | Inspected v =>
               collect inspect f l (if matches_filter v f then od_set (sm_sandbox sm) v acc else acc)
           end
  end.

(** [sort(key=created_at, reverse=True)], which keeps the order of equals. *)
Fixpoint insert_newest (v : view) (l : list view) : list view :=
  match l with
  | [] => [v]
  | w :: l => if vw_created w <=? vw_created v then v :: w :: l else w :: insert_newest v l
  end.
Definition sort_newest (l : list view) : list view := foldr insert_newest [] l.

Record page_info := mkPage {
  pg_items : list view;
  pg_total_items : Z;
  pg_total_pages : Z;
  pg_has_next : bool;
}.

(** [items[a:b]] for [0 <= a], [ceil(total / page_size)] *)
Definition paginate (page page_size : Z) (l : list view) : page_info :=
  let total_items := Z.of_nat (length l) in
  let total_pages := if total_items =? 0 then 0 else (total_items + page_size - 1) / page_size in
  mkPage (take (Z.to_nat page_size) (drop (Z.to_nat ((page - 1) * page_size)) l)) total_items total_pages
    (page <? total_pages).

Definition list_sandboxes (listed : option (list summary)) (inspect : string -> inspected) (f : filter_)
    (pagination : option (Z * Z)) : res http page_info :=
  match listed with
  | None => Raise (HTTPException 500 "DOCKER::SANDBOX_QUERY_FAILED")
  | Some l =>
      found ← collect inspect f l [];
      let '(page, page_size) := default (1, 20) pagination in
      Ok (paginate page page_size (sort_newest found.*2))
  end.

(** ** Ports *)

Section Ports.
(** The [i]-th draw of [randint(min_port, max_port)], and whether it can be bound. *)
Context (draw : nat -> Z * bool).

Fixpoint allocate_host_port (attempts i : nat) : option Z * nat :=
  match attempts with
  | O => (None, i)
  | S n => let '(port, free) := draw i in if free then (Some port, S i) else allocate_host_port n (S i)
  end.

(** The [while True] of one container port; [None]: out of fuel. *)
Fixpoint allocate_distinct (fuel i : nat) (allocated : list Z) : option (res http Z * nat) :=
  match fuel with
  | O => None
  | S fuel =>
      match allocate_host_port 50 i with
      | (None, i) => Some (Raise (HTTPException 500 "DOCKER::SANDBOX_START_FAILED"), i)
      | (Some port, i) => if bool_decide (port ∈ allocated) then allocate_distinct fuel i allocated else Some (Ok port, i)
      end
  end.

Fixpoint allocate_loop (fuel i : nat) (ports : list string) (allocated : list Z) (bindings : list (string * Z))
  : option (res http (list (string * Z))) :=
  match ports with
  | [] => Some (Ok bindings)
  | p :: ports =>
      match allocate_distinct fuel i allocated with
      | None => None
      | Some (Raise e, _) => Some (Raise e)
      | Some (Ok port, i) => allocate_loop fuel i ports (port :: allocated) (od_set p port bindings)
      end
  end.

Definition allocate_port_bindings (fuel : nat) (ports : list string) : option (res http (list (string * Z))) :=
  allocate_loop fuel 0 ports [] [].
End Ports.

(** Docker's spelling of a container port. *)
Definition normalize_container_port_spec (spec : string) : string :=
  let token := strip spec in
  if endswith token "/tcp" then of_chars (take (length (chars token) - 4) (chars token)) else token.

Definition normalize_port_bindings (bindings : list (string * Z)) : list (string * Z) :=
  foldl (fun d kv => od_set (normalize_container_port_spec kv.1) kv.2 d) [] bindings.

(** ** Metadata: lemmas *)

(** A patch that removes no key that the container's own labels carry. *)
Definition keeps (own : dict) (patch : merge_patch) : Prop :=
  forall k, (k, None) ∈ patch -> own !! k = None.

Lemma apply_patch_keeps own m patch :
  keeps own patch -> (forall k, is_Some (own !! k) -> is_Some (m !! k)) ->
  forall k, is_Some (own !! k) -> is_Some (apply_patch m patch !! k).
Proof.
  revert m. induction patch as [|[k v] patch IH]; intros m Hk Hm; [exact Hm|]. simpl. apply IH.
  - intros i Hi. apply Hk. by right.
  - intros i Hi. destruct v as [v|]; simpl.
    + destruct (decide (i = k)) as [->|]; [by rewrite lookup_insert_eq|rewrite lookup_insert_ne by done; auto].
    + rewrite lookup_delete_ne; [auto|]. intros ->. rewrite (Hk i) in Hi; [by destruct Hi|left].
Qed.

Lemma union_absorbs (own m : dict) : (forall k, is_Some (own !! k) -> is_Some (m !! k)) -> m ∪ own = m.
Proof.
  intros H. apply map_eq. intros k. rewrite lookup_union. destruct (m !! k) eqn:E.
  - by rewrite union_Some_l.
  - rewrite (left_id_L None union). destruct (own !! k) eqn:E'; [|done]. destruct (H k) as [? ?]; [by eexists|congruence].
Qed.

Definition docker_patches (labels : dict) (f : stored) (ps : list merge_patch) : stored :=
  foldl (fun f p => metadata_patch f labels p) f ps.

Lemma docker_patches_merge labels ps m :
  Forall (keeps (extract_user_labels labels)) ps ->
  (forall k, is_Some (extract_user_labels labels !! k) -> is_Some (m !! k)) ->
  docker_patches labels (Overrides m) ps = Overrides (foldl apply_patch m ps).
Proof.
  intros Hps. revert m. induction Hps as [|p ps Hp Hps IH]; intros m Hm; [done|]. simpl.
  unfold docker_patches in *. simpl. unfold metadata_patch at 2. simpl.
  assert ((if bool_decide (m = ∅) then extract_user_labels labels else m ∪ extract_user_labels labels) = m) as ->.
  { case_bool_decide as E; [|by apply union_absorbs]. rewrite E. apply map_empty. intros k.
    destruct (extract_user_labels labels !! k) eqn:Ek; [|done]. destruct (Hm k) as [? Hk]; [by eexists|].
    rewrite E, lookup_empty in Hk. done. }
  apply IH. by apply apply_patch_keeps.
Qed.

(** The metadata that is left of labels when those of the system are put aside. *)
Definition user_part (labels : dict) : dict := filter (fun kv => is_system_label kv.1 = false) labels.

Definition kube_patches (labels : dict) (ps : list merge_patch) : res http dict :=
  foldl (fun r p => l ← r; apply_metadata_patch l p) (Ok labels) ps.

Lemma user_part_patch m patch :
  forallb (fun kv => negb (is_system_label kv.1)) patch = true ->
  user_part (apply_patch m patch) = apply_patch (user_part m) patch.
Proof.
  revert m. induction patch as [|[k v] patch IH]; intros m; [done|]. simpl. intros [Hk Hp]%andb_true_iff.
  rewrite IH by done. f_equal. apply negb_true_iff in Hk. unfold user_part. destruct v as [v|]; simpl.
  - by rewrite map_filter_insert_True.
  - by rewrite map_filter_delete.
Qed.

Lemma existsb_forallb {A} (f : A -> bool) l : existsb f l = false -> forallb (fun x => negb (f x)) l = true.
Proof. induction l as [|x l IH]; simpl; [done|]. by destruct (f x). Qed.

Lemma kube_patch_merges labels p :
  check_patch p = Ok tt ->
  exists labels', apply_metadata_patch labels p = Ok labels' /\ user_part labels' = apply_patch (user_part labels) p.
Proof.
  intros Hp. unfold apply_metadata_patch. rewrite Hp. eexists; split; [done|].
  assert (forallb (fun kv => negb (is_system_label kv.1)) p = true) as Hk.
  { unfold check_patch in Hp. case_match eqn:E; [done|]. by apply existsb_forallb. }
  fold (user_part labels). rewrite <- (user_part_patch _ _ Hk).
  apply map_eq. intros k. apply option_eq. intros v. unfold user_part.
  rewrite !map_lookup_filter_Some, lookup_union_Some_raw, !map_lookup_filter_Some, map_lookup_filter_None. simpl.
  split; [|naive_solver]. intros [[?|[_ [_ ?]]] ?]; [done|congruence].
Qed.

Lemma kube_patches_merge labels ps :
  Forall (fun p => check_patch p = Ok tt) ps ->
  exists labels', kube_patches labels ps = Ok labels' /\ user_part labels' = foldl apply_patch (user_part labels) ps.
Proof.
  intros Hps. revert labels. induction Hps as [|p ps Hp Hps IH]; intros labels; [by eexists|].
  destruct (kube_patch_merges labels p Hp) as (l1 & H1 & H2). destruct (IH l1) as (l2 & H3 & H4).
  exists l2. split; [|simpl; by rewrite H4, H2]. unfold kube_patches in *. simpl. by rewrite H1.
Qed.

(** As long as no patch removes a key that the container was created with, the
    metadata that Docker's file store shows after any accepted patches is what
    the merges of the patches give, and what Kubernetes' labels hold. *)
Theorem metadata_patches_agree labels ps :
  Forall (fun p => check_patch p = Ok tt) ps ->
  Forall (keeps (extract_user_labels labels)) ps ->
  (forall k v, labels !! k = Some v -> is_user_label k = negb (is_system_label k)) ->
  metadata_get (docker_patches labels NoFile ps) labels = or_none (foldl apply_patch (extract_user_labels labels) ps) /\
  exists labels', kube_patches labels ps = Ok labels' /\
    metadata_get (docker_patches labels NoFile ps) labels = or_none (user_part labels').
Proof.
  intros Hc Hk Hl. assert (extract_user_labels labels = user_part labels) as Eu.
  { unfold extract_user_labels, user_part. apply map_filter_ext. intros k v Hkv. simpl.
    rewrite (Hl _ _ Hkv). by destruct (is_system_label k). }
  assert (metadata_get (docker_patches labels NoFile ps) labels = or_none (foldl apply_patch (extract_user_labels labels) ps)) as E.
  { destruct ps as [|p ps]; [done|]. inversion Hk as [|? ? Hp Hps]; subst.
    change (docker_patches labels NoFile (p :: ps))
      with (docker_patches labels (Overrides (apply_patch (extract_user_labels labels) p)) ps).
    rewrite docker_patches_merge; [done|done|]. by apply apply_patch_keeps. }
  split; [done|]. destruct (kube_patches_merge labels ps Hc) as (l' & H1 & H2).
  exists l'. split; [done|]. by rewrite E, H2, Eu.
Qed.

Definition demo_labels : dict := {[ "opensandbox.io/id" := "s1"; "env" := "prod" ]}.
Definition demo_patches : list merge_patch := [[("team", Some "a")]; [("env", Some "dev"); ("team", None)]].

Lemma metadata_patches_agree_witness :
  metadata_get (docker_patches demo_labels NoFile demo_patches) demo_labels = Some {[ "env" := "dev" ]} /\
  exists labels', kube_patches demo_labels demo_patches = Ok labels' /\
    metadata_get (docker_patches demo_labels NoFile demo_patches) demo_labels = or_none (user_part labels').
Proof.
  destruct (metadata_patches_agree demo_labels demo_patches) as [H1 H2].
  - by repeat constructor.
  - constructor; [|constructor; [|constructor]].
    + intros k [[=]|[]%elem_of_nil]%elem_of_cons.
    + intros k [[=]|[[= ->]|[]%elem_of_nil]%elem_of_cons]%elem_of_cons. by vm_compute.
  - intros k v Hk. unfold demo_labels in Hk.
    apply lookup_insert_Some in Hk as [[<- _]|[_ [<- _]%lookup_singleton_Some]]; reflexivity.
  - split; [rewrite H1; by vm_compute|exact H2].
Defined.

(** A label that was removed comes back with the next patch: the file it is
    missing from is laid over the container's labels. *)
Lemma removed_label_returns :
  metadata_get (docker_patches demo_labels NoFile [[("env", None); ("team", Some "a")]]) demo_labels
    = Some {[ "team" := "a" ]} /\
  metadata_get (docker_patches demo_labels NoFile [[("env", None); ("team", Some "a")]; [("tier", Some "x")]]) demo_labels
    = Some {[ "env" := "prod"; "team" := "a"; "tier" := "x" ]}.
Proof. split; by vm_compute. Qed.

(** ** Listings: lemmas *)

Definition newest (v w : view) : Prop := vw_created w <= vw_created v.

Lemma insert_newest_perm v l : insert_newest v l ≡ₚ v :: l.
Proof.
  induction l as [|w l IH]; [done|]. simpl. case_match; [done|]. rewrite IH. apply perm_swap.
Qed.

Lemma sort_newest_perm l : sort_newest l ≡ₚ l.
Proof. induction l as [|v l IH]; [done|]. simpl. by rewrite insert_newest_perm, IH. Qed.

Lemma insert_newest_sorted v l : StronglySorted newest l -> StronglySorted newest (insert_newest v l).
Proof.
  induction 1 as [|w l Hl IH Hw]; [by repeat constructor|]. simpl. destruct (Z.leb_spec (vw_created w) (vw_created v)).
  - constructor; [by constructor|]. constructor; [done|]. eapply Forall_impl; [exact Hw|]. unfold newest. intros; lia.
  - constructor; [done|]. rewrite insert_newest_perm. constructor; [unfold newest; lia|done].
Qed.

Lemma sort_newest_sorted l : StronglySorted newest (sort_newest l).
Proof. induction l as [|v l IH]; [constructor|]. by apply insert_newest_sorted. Qed.

(** The containers that are there, match, and are not listed twice. *)
Definition found (inspect : string -> inspected) (f : filter_) (l : list summary) : list (string * view) :=
  omap (fun sm =>
    if (sm_id sm =? "")%string || (sm_sandbox sm =? "")%string then None
    else match inspect (sm_id sm) with
         | Inspected v => if matches_filter v f then Some (sm_sandbox sm, v) else None
         | _ => None
         end) l.

Lemma found_keys inspect f l k : k ∈ (found inspect f l).*1 -> k ∈ map sm_sandbox l.
Proof.
  induction l as [|sm l IH]; [done|]. unfold found in *. simpl.
  repeat case_match; simpl; rewrite ?elem_of_cons; naive_solver.
Qed.

Lemma collect_found inspect f l acc :
  Forall (fun sm => inspect (sm_id sm) <> Broken) l -> NoDup (map sm_sandbox l) ->
  (forall k, k ∈ map sm_sandbox l -> k ∉ acc.*1) ->
  collect inspect f l acc = Ok (acc ++ found inspect f l)%list.
Proof.
  intros Hb. revert acc. induction Hb as [|sm l Hsm Hl IH]; intros acc Hnd Hacc; [by rewrite app_nil_r|].
  simpl in Hnd. apply NoDup_cons in Hnd as [Hn Hnd]. unfold found. simpl.
  assert (forall k, k ∈ map sm_sandbox l -> k ∉ acc.*1) as Hacc' by (intros k Hk; apply Hacc; by right).
  destruct (_ || _) eqn:E; [by apply IH|]. destruct (inspect (sm_id sm)) as [| |v] eqn:Ei; [by apply IH|done|].
  destruct (matches_filter v f); [|by apply IH].
  rewrite od_set_new by (apply od_get_None, Hacc; by left). rewrite IH; [by rewrite <- app_assoc|done|].
  intros k Hk. rewrite fmap_app, not_elem_of_app. split; [by apply Hacc'|].
  intros ->%list_elem_of_singleton. done.
Qed.

(** Page after page, a listing shows every matching sandbox exactly once, the
    newest first, with the right totals, and says truly whether more pages
    follow. *)
Theorem sandbox_pages_complete l inspect f :
  Forall (fun sm => inspect (sm_id sm) <> Broken) l -> NoDup (map sm_sandbox l) ->
  exists all, all ≡ₚ (found inspect f l).*2 /\ StronglySorted newest all /\
    forall size, 1 <= size ->
      let page i := paginate i size all in
      (forall i, 1 <= i -> list_sandboxes (Some l) inspect f (Some (i, size)) = Ok (page i) /\
         pg_total_items (page i) = Z.of_nat (length all) /\
         (pg_has_next (page i) = true <-> pg_items (page (i + 1)) <> [])) /\
      forall n, Z.of_nat (length all) <= Z.of_nat n * size ->
        concat (map (fun i => pg_items (page (Z.of_nat i + 1))) (seq 0 n)) = all.
Proof.
  intros Hb Hnd. exists (sort_newest (found inspect f l).*2).
  split; [apply sort_newest_perm|]. split; [apply sort_newest_sorted|].
  set (all := sort_newest _). intros size Hs page. split.
  - intros i Hi. split; [|split; [done|]].
    + unfold list_sandboxes. rewrite (collect_found inspect f l []); [done|done|done|].
      intros k _. apply not_elem_of_nil.
    + subst page. cbn [pg_has_next pg_items paginate]. rewrite Z.ltb_lt. replace (i + 1 - 1) with i by lia.
      assert (forall s d, (0 < s)%nat -> take s (drop d all) <> [] <-> (d < length all)%nat) as Hwin.
      { intros s d Hpos. rewrite <- length_zero_iff_nil, length_take, length_drop. lia. }
      rewrite Hwin by lia. case_match eqn:E; [rewrite Z.eqb_eq in E; lia|]. rewrite Z.eqb_neq in E.
      assert (0 <= i * size) by nia. rewrite <- Z.le_succ_l. split; intros H1.
      * assert (size * Z.succ i <= Z.of_nat (length all) + size - 1); [|nia].
        etrans; [apply Z.mul_le_mono_nonneg_l; [lia|exact H1]|]. apply Z.mul_div_le. lia.
      * apply Z.div_le_lower_bound; nia.
  - intros n Hn. transitivity (take (n * Z.to_nat size) all); [|apply take_ge; nia].
    rewrite <- concat_windows. f_equal. apply map_ext. intros i. subst page. simpl. do 2 f_equal. nia.
Qed.

(** ** Ports: lemmas *)

Section PortLemmas.
Context (draw : nat -> Z * bool).

(** Fifty draws in a row that cannot be bound. *)
Definition exhausted (i : nat) : Prop := forall j, (i <= j < i + 50)%nat -> (draw j).2 = false.

Lemma host_port_spec n i :
  match allocate_host_port draw n i with
  | (Some port, i') => (i < i')%nat /\ draw (pred i') = (port, true) /\
                       forall j, (i <= j < pred i')%nat -> (draw j).2 = false
  | (None, i') => forall j, (i <= j < i + n)%nat -> (draw j).2 = false
  end.
Proof using Type.
  revert i. induction n as [|n IH]; intros i; simpl; [lia|].
  destruct (draw i) as [port []] eqn:E; [split_and!; [lia|done|simpl; lia]|].
  specialize (IH (S i)). assert ((draw i).2 = false) as E' by by rewrite E.
  destruct (allocate_host_port draw n (S i)) as [[port'|] i'].
  - destruct IH as (H1 & H2 & H3). split_and!; [lia|done|]. intros j Hj.
    destruct (decide (j = i)) as [->|]; [done|]. apply H3. lia.
  - intros j Hj. destruct (decide (j = i)) as [->|]; [done|]. apply IH. lia.
Qed.

Lemma distinct_spec fuel i allocated r i' :
  allocate_distinct draw fuel i allocated = Some (r, i') ->
  match r with
  | Ok port => (port ∉ allocated) /\ exists j, draw j = (port, true)
  | Raise e => e = HTTPException 500 "DOCKER::SANDBOX_START_FAILED" /\ exists j, exhausted j
  end.
Proof using Type.
  revert i. induction fuel as [|fuel IH]; intros i; cbn [allocate_distinct]; [done|]. pose proof (host_port_spec 50 i) as H.
  destruct (allocate_host_port draw 50 i) as [[port|] i1].
  - case_bool_decide; [apply IH|]. intros [= <- <-]. split; [done|]. exists (pred i1). apply H.
  - intros [= <- <-]. split; [done|]. by exists i.
Qed.

(** Every container port gets a host port that could be bound, and no two the
    same one; or the request fails after fifty draws that could not. *)
Lemma loop_spec fuel i ports allocated bindings r :
  allocate_loop draw fuel i ports allocated bindings = Some r -> NoDup ports ->
  (forall p, p ∈ ports -> p ∉ bindings.*1) -> bindings.*2 ⊆ allocated -> NoDup bindings.*2 ->
  match r with
  | Ok b => exists new, b = (bindings ++ new)%list /\ new.*1 = ports /\ NoDup b.*2 /\
              Forall (fun kv => exists j, draw j = (kv.2, true)) new
  | Raise e => e = HTTPException 500 "DOCKER::SANDBOX_START_FAILED" /\ exists j, exhausted j
  end.
Proof using Type.
  revert i allocated bindings. induction ports as [|p ports IH]; intros i allocated bindings; simpl.
  - intros [= <-] _ _ _ Hn. exists []. by rewrite app_nil_r.
  - destruct (allocate_distinct draw fuel i allocated) as [[[port|e] i1]|] eqn:E; [| |done].
    + apply distinct_spec in E as [Hport [j Hj]]. intros Hl [Hp Hnd]%NoDup_cons Hb Hsub Hn.
      rewrite od_set_new in Hl by (apply od_get_None, Hb; by left). apply IH in Hl; [|done| | |].
      * destruct r as [b|e]; [|done]. destruct Hl as (new & -> & H1 & H2 & H3).
        exists ((p, port) :: new). rewrite <- app_assoc in *. split_and!; [done|simpl; by f_equal|done|].
        constructor; [by exists j|done].
      * intros q Hq. rewrite fmap_app, not_elem_of_app. split; [apply Hb; by right|].
        intros ->%list_elem_of_singleton. done.
      * rewrite fmap_app. intros x [Hx|Hx]%elem_of_app; [right; by apply Hsub|].
        apply list_elem_of_singleton in Hx as ->. left.
      * rewrite fmap_app. apply NoDup_app. split_and!; [done| |apply NoDup_singleton].
        intros x Hx ->%list_elem_of_singleton. by apply Hport, Hsub.
    + intros [= <-] _ _ _ _. by apply distinct_spec in E.
Qed.

Theorem bindings_distinct fuel ports r :
  NoDup ports -> allocate_port_bindings draw fuel ports = Some r ->
  match r with
  | Ok b => b.*1 = ports /\ NoDup b.*2 /\ Forall (fun kv => exists j, draw j = (kv.2, true)) b
  | Raise e => e = HTTPException 500 "DOCKER::SANDBOX_START_FAILED" /\ exists j, exhausted j
  end.
Proof using Type.
  intros Hn H. apply loop_spec in H; [|done|intros p _; apply not_elem_of_nil|apply list_subseteq_nil|constructor].
  destruct r; [|done]. destruct H as (new & -> & H1 & H2 & H3). done.
Qed.

Lemma distinct_ends i allocated j port :
  (i <= j)%nat -> draw j = (port, true) -> port ∉ allocated ->
  exists fuel r, allocate_distinct draw fuel i allocated = Some r.
Proof using Type.
  intros Hij Hj Hp. remember (j - i)%nat as n eqn:En. revert i Hij En.
  induction n as [n IH] using lt_wf_ind. intros i Hij En. pose proof (host_port_spec 50 i) as H.
  destruct (allocate_host_port draw 50 i) as [[q|] i1] eqn:E.
  - destruct H as (H1 & H2 & H3). destruct (decide (q ∈ allocated)) as [Hq|Hq].
    + assert (i1 <= j)%nat as Hle.
      { destruct (decide (i1 <= j)%nat) as [|Hn]; [done|]. exfalso. assert (pred i1 = j \/ j < pred i1)%nat as [<-|Hlt] by lia.
        - rewrite H2 in Hj. by simplify_eq.
        - specialize (H3 j). rewrite Hj in H3. discriminate H3. lia. }
      destruct (IH (j - i1)%nat ltac:(lia) i1 Hle eq_refl) as (fuel & r & Hr).
      exists (S fuel), r. cbn [allocate_distinct]. rewrite E. by rewrite bool_decide_true.
    + exists 1%nat. eexists. cbn [allocate_distinct]. rewrite E. by rewrite bool_decide_false.
  - exists 1%nat. eexists. cbn [allocate_distinct]. by rewrite E.
Qed.
End PortLemmas.

(** When every port that can be bound was allocated already, the loop draws for
    ever: no amount of fuel ends it.  (The configuration asks for a range of at
    least 101 ports.) *)
Lemma narrow_range_never_ends fuel : allocate_port_bindings (fun _ => (40000, true)) fuel ["44772"; "8080"] = None.
Proof.
  set (draw := fun _ : nat => (40000, true)).
  assert (forall i, allocate_host_port draw 50 i = (Some 40000, S i)) as Hh by done.
  assert (forall f i, allocate_distinct draw f i [40000] = None) as H.
  { induction f as [|f IH]; intros i; cbn [allocate_distinct]; [done|]. rewrite Hh.
    by rewrite bool_decide_true by by left. }
  unfold allocate_port_bindings. cbn [allocate_loop].
  destruct (allocate_distinct draw fuel 0 []) as [[[port|e] i]|] eqn:E; [|by destruct fuel|done].
  assert (port = 40000) as -> by (apply distinct_spec in E as [_ [j [= ->]]]; done). by rewrite H.
Qed.

(** ** States: lemmas *)

(** A container that Docker reports as paused is running too, so the guard of
    [pause_sandbox] does not see that it is paused already, and the daemon's
    refusal becomes an internal error. *)
Lemma pause_of_paused_unguarded c :
  cs_running c = true -> cs_paused c = true ->
  container_to_state c = "Paused" /\
  pause_sandbox c false = (["pause"], Raise (HTTPException 500 "DOCKER::SANDBOX_PAUSE_FAILED")).
Proof. intros H1 H2. unfold container_to_state, pause_sandbox. by rewrite H1, H2. Qed.

(** What is resumed is what is shown as paused. *)
Lemma resume_guard c ok : (resume_sandbox c ok).1 = ["unpause"] <-> container_to_state c = "Paused".
Proof.
  unfold resume_sandbox, container_to_state. destruct (cs_paused c); simpl; [rewrite andb_false_r; done|].
  split; [done|]. repeat case_match; done.
Qed.
