(* ===== verification/ListFilter.v ===== *)
(** * Listing sandboxes by metadata

    How a metadata filter travels: [list_sandboxes] of the two adapters of the
    SDK ([adapters/sandboxes_adapter.py], [sync/adapters/sandboxes_adapter.py])
    writes it into one query parameter, and [list_sandboxes] of the server
    ([api/lifecycle.py]) parses the parameter's value with [urllib.parse].  The
    HTTP client and the web framework encode and decode the query string, so
    the server reads the value the client passed.  Text is a list of code
    points. *)

From Stdlib Require Import ZArith Lia String Ascii.
From stdpp Require Import base numbers strings gmap list.
From S2P Require Import Prelude PyString PoolTypes PyCodec Regex ClientErrors Validators DockerSandboxes.

Open Scope string_scope.
Open Scope Z_scope.

(** ** urllib.parse *)

(** UTF-8 *)
Definition utf8_encode_char (c : Z) : list Z :=
  if c <? 128 then [c]
  else if c <? 2048 then [192 + c / 64; 128 + c mod 64]
  else if c <? 65536 then [224 + c / 4096; 128 + c / 64 mod 64; 128 + c mod 64]
  else [240 + c / 262144; 128 + c / 4096 mod 64; 128 + c / 64 mod 64; 128 + c mod 64].

Definition utf8_encode (t : text) : list Z := flat_map utf8_encode_char t.

(** Unicode scalar values, the characters that can be encoded *)
Definition is_scalar (c : Z) : bool := (0 <=? c) && (c <? 1114112) && negb ((55296 <=? c) && (c <? 57344)).

(** [_ALWAYS_SAFE] *)
Definition unreserved (b : Z) : bool :=
  ((48 <=? b) && (b <=? 57)) || ((65 <=? b) && (b <=? 90)) || ((97 <=? b) && (b <=? 122)) ||
  (b =? 95) || (b =? 46) || (b =? 45) || (b =? 126).

Definition upper_hex (n : Z) : Z := if n <? 10 then 48 + n else 55 + n.

Definition quote_byte (b : Z) : text := if unreserved b then [b] else [37; upper_hex (b / 16); upper_hex (b mod 16)].

(** [quote(t, safe="")] *)
Definition quote (t : text) : text := flat_map quote_byte (utf8_encode t).

Definition hex_value (c : Z) : option Z :=
  if (48 <=? c) && (c <=? 57) then Some (c - 48)
  else if (65 <=? c) && (c <=? 70) then Some (c - 55)
  else if (97 <=? c) && (c <=? 102) then Some (c - 87)
  else None.

(** [unquote_to_bytes] on ASCII text *)
Fixpoint unquote_to_bytes (t : text) : list Z :=
  match t with
  | [] => []
  | c :: t' =>
      match t' with
      | a :: b :: t'' =>
          match hex_value a, hex_value b with
          | Some x, Some y => if c =? 37 then 16 * x + y :: unquote_to_bytes t'' else c :: unquote_to_bytes t'
          | _, _ => c :: unquote_to_bytes t'
          end
      | _ => c :: unquote_to_bytes t'
      end
  end.

(** [unquote]: runs of ASCII characters are decoded, others kept. *)
Fixpoint unquote_from (run : text) (t : text) : text :=
  match t with
  | [] => utf8_decode (unquote_to_bytes (rev run))
  | c :: t => if c <? 128 then unquote_from (c :: run) t
              else (utf8_decode (unquote_to_bytes (rev run)) ++ c :: unquote_from [] t)%list
  end.

Definition unquote (t : text) : text := unquote_from [] t.

(** [t.replace("+", " ")] *)
Definition plus_to_space (t : text) : text := map (fun c => if c =? 43 then 32 else c) t.

Fixpoint split_on (c : Z) (t : text) : list text :=
  match t with
  | [] => [[]]
  | x :: t => if x =? c then [] :: split_on c t
              else match split_on c t with [] => [[x]] | s :: l => (x :: s) :: l end
  end.

(** [t.split("=", 1)] when it gives two parts *)
Fixpoint split_first (c : Z) (t : text) : option (text * text) :=
  match t with
  | [] => None
  | x :: t => if x =? c then Some ([], t) else '(a, b) ← split_first c t; Some (x :: a, b)
  end.

Fixpoint join (sep : text) (l : list text) : text :=
  match l with
  | [] => []
  | [t] => t
  | t :: l => (t ++ sep ++ join sep l)%list
  end.

Definition AMP : Z := 38.
Definition EQUALS : Z := 61.

(** [parse_qsl(qs, keep_blank_values=True, strict_parsing=True)]; [None] is
    [ValueError]. *)
Fixpoint parse_fields (l : list text) : option (list (text * text)) :=
  match l with
  | [] => Some []
  | field :: l =>
      '(k, v) ← split_first EQUALS field;
      rest ← parse_fields l;
      Some ((unquote (plus_to_space k), unquote (plus_to_space v)) :: rest)
  end.

Definition parse_qsl (qs : text) : option (list (text * text)) := parse_fields (split_on AMP qs).

(** ** Clients and server *)

Definition field (kv : text * text) : text := (kv.1 ++ EQUALS :: kv.2)%list.

(** The query parameter of the asynchronous adapter; [None] is [UNSET]. *)
Definition aio_metadata_param (m : list (text * text)) : option text :=
  match m with [] => None | _ => Some (join [AMP] (map field m)) end.

(** The one of the synchronous adapter *)
Definition sync_metadata_param (m : list (text * text)) : option text :=
  match m with [] => None | _ => Some (join [AMP] (map (fun kv => field (quote (quote kv.1), quote (quote kv.2))) m)) end.

(** The filter the handler passes on, [None] for the answer 400; an empty filter
    is none. *)
Definition parse_metadata_filter (param : option text) : option (list (text * text)) :=
  match param with
  | None | Some [] => Some []
  | Some metadata => l ← parse_qsl metadata; Some (foldl (fun d kv => od_set kv.1 kv.2 d) [] l)
  end.

(** ** UTF-8 round trip *)

Lemma utf8_tail_length n lo hi acc l : (length (utf8_tail n lo hi acc l).2 <= length l)%nat.
Proof.
  revert lo hi acc l. induction n as [|n IH]; intros lo hi acc l; [done|]. destruct l as [|b l]; [done|]. simpl.
  destruct (_ && _); [|done]. etrans; [apply IH|simpl; lia].
Qed.

Lemma utf8_go_fuel f f' l : (length l <= f)%nat -> (length l <= f')%nat -> utf8_go f l = utf8_go f' l.
Proof.
  revert f' l. induction f as [|f IH]; intros f' l Hf Hf'; [destruct l; [by destruct f'|simpl in Hf; lia]|].
  destruct f' as [|f']; [destruct l; [done|simpl in Hf'; lia]|]. destruct l as [|b l]; [done|]. simpl in *.
  destruct (utf8_lead b) as [[[n lo] hi]|]; [|f_equal; apply IH; lia].
  pose proof (utf8_tail_length n lo hi (match n with O => b | 1%nat => b - 192 | 2%nat => b - 224 | _ => b - 240 end) l) as Hl.
  destruct (utf8_tail n lo hi _ l) as [c l']. simpl in Hl. f_equal. apply IH; lia.
Qed.

Lemma utf8_decode_cons b l n lo hi c l' :
  utf8_lead b = Some (n, lo, hi) ->
  utf8_tail n lo hi (match n with O => b | 1%nat => b - 192 | 2%nat => b - 224 | _ => b - 240 end) l = (c, l') ->
  utf8_decode (b :: l) = c :: utf8_decode l'.
Proof.
  intros Hb Ht. unfold utf8_decode. simpl. rewrite Hb. pose proof (utf8_tail_length n lo hi (match n with O => b | 1%nat => b - 192 | 2%nat => b - 224 | _ => b - 240 end) l) as Hl.
  rewrite Ht in *. simpl in Hl. f_equal. by apply utf8_go_fuel.
Qed.

Lemma utf8_tail_step n lo hi acc b l :
  lo <= b <= hi -> utf8_tail (S n) lo hi acc (b :: l) = utf8_tail n 128 191 (acc * 64 + (b - 128)) l.
Proof. intros [H1 H2]. simpl. apply Z.leb_le in H1, H2. by rewrite H1, H2. Qed.

Ltac decide_lead := unfold utf8_lead; repeat (case_match; try (exfalso; bool_lia)); reflexivity.

Lemma utf8_decode_char c l : is_scalar c = true -> utf8_decode (utf8_encode_char c ++ l)%list = c :: utf8_decode l.
Proof.
  unfold is_scalar. rewrite !andb_true_iff, negb_true_iff, andb_false_iff, Z.leb_le, Z.ltb_lt, Z.leb_gt, Z.ltb_ge. intros [[H0 H1] Hs].
  pose proof (Z.mod_pos_bound c 64 ltac:(lia)). pose proof (Z.div_mod c 64 ltac:(lia)).
  pose proof (Z.mod_pos_bound (c / 64) 64 ltac:(lia)). pose proof (Z.div_mod (c / 64) 64 ltac:(lia)).
  pose proof (Z.mod_pos_bound (c / 4096) 64 ltac:(lia)). pose proof (Z.div_mod (c / 4096) 64 ltac:(lia)).
  assert (c / 4096 = c / 64 / 64) as E1 by (rewrite Z.div_div by lia; reflexivity). assert (c / 262144 = c / 4096 / 64) as E2 by (rewrite Z.div_div by lia; reflexivity).
  unfold utf8_encode_char. destruct (Z.ltb_spec c 128); [|destruct (Z.ltb_spec c 2048); [|destruct (Z.ltb_spec c 65536)]]; simpl app.
  - apply (utf8_decode_cons c l 0 0 0 c l); [decide_lead|done].
  - eapply (utf8_decode_cons _ _ 1 128 191); [decide_lead|]. rewrite utf8_tail_step by lia. simpl. f_equal. lia.
  - destruct (Z.eq_dec (c / 4096) 0); [|destruct (Z.eq_dec (c / 4096) 13)].
    + eapply (utf8_decode_cons _ _ 2 160 191); [decide_lead|]. rewrite !utf8_tail_step by lia. simpl. f_equal. lia.
    + eapply (utf8_decode_cons _ _ 2 128 159); [decide_lead|]. rewrite !utf8_tail_step by lia. simpl. f_equal. lia.
    + eapply (utf8_decode_cons _ _ 2 128 191); [decide_lead|]. rewrite !utf8_tail_step by lia. simpl. f_equal. lia.
  - destruct (Z.eq_dec (c / 262144) 0); [|destruct (Z.eq_dec (c / 262144) 4)].
    + eapply (utf8_decode_cons _ _ 3 144 191); [decide_lead|]. rewrite !utf8_tail_step by lia. simpl. f_equal. lia.
    + eapply (utf8_decode_cons _ _ 3 128 143); [decide_lead|]. rewrite !utf8_tail_step by lia. simpl. f_equal. lia.
    + eapply (utf8_decode_cons _ _ 3 128 191); [decide_lead|]. rewrite !utf8_tail_step by lia. simpl. f_equal. lia.
Qed.

Lemma utf8_round_trip t : forallb is_scalar t = true -> utf8_decode (utf8_encode t) = t.
Proof.
  induction t as [|c t IH]; [done|]. simpl. intros [Hc Ht]%andb_prop. rewrite utf8_decode_char by done. by rewrite IH.
Qed.

(** ** Percent encoding round trip *)

Lemma utf8_encode_bytes t : forallb is_scalar t = true -> Forall (fun b => 0 <= b < 256) (utf8_encode t).
Proof.
  induction t as [|c t IH]; [constructor|]. simpl. intros [Hc Ht]%andb_prop. apply Forall_app. split; [|auto].
  unfold is_scalar in Hc. rewrite !andb_true_iff, Z.leb_le, Z.ltb_lt in Hc. destruct Hc as [[H0 H1] _].
  pose proof (Z.mod_pos_bound c 64 ltac:(lia)). pose proof (Z.mod_pos_bound (c / 64) 64 ltac:(lia)). pose proof (Z.mod_pos_bound (c / 4096) 64 ltac:(lia)).
  unfold utf8_encode_char. destruct (Z.ltb_spec c 128); [|destruct (Z.ltb_spec c 2048); [|destruct (Z.ltb_spec c 65536)]];
    repeat constructor; try lia; try (apply Z.add_nonneg_nonneg; [lia|apply Z.div_pos; lia]).
  - assert (c / 64 < 32) by (apply Z.div_lt_upper_bound; lia). lia.
  - assert (c / 4096 < 16) by (apply Z.div_lt_upper_bound; lia). lia.
  - assert (c / 262144 < 8) by (apply Z.div_lt_upper_bound; lia). lia.
Qed.

Lemma hex_round_trip n : 0 <= n < 16 -> hex_value (upper_hex n) = Some n.
Proof.
  intros Hn. unfold hex_value, upper_hex. destruct (Z.ltb_spec n 10); repeat (case_match; try (exfalso; bool_lia)); f_equal; lia.
Qed.

Lemma unreserved_plain b : unreserved b = true -> 0 <= b < 128 /\ b <> 37 /\ b <> AMP /\ b <> EQUALS /\ b <> 43.
Proof. unfold unreserved, AMP, EQUALS. intros H. repeat apply orb_prop in H as [H|H]; bool_lia. Qed.

Lemma quote_byte_plain b c : 0 <= b < 256 -> c ∈ quote_byte b -> 0 <= c < 128 /\ c <> AMP /\ c <> EQUALS /\ c <> 43.
Proof.
  intros Hb. unfold quote_byte. destruct (unreserved b) eqn:Hu.
  - intros ->%list_elem_of_singleton. apply unreserved_plain in Hu. tauto.
  - pose proof (Z.mod_pos_bound b 16 ltac:(lia)). assert (0 <= b / 16 < 16) by (split; [apply Z.div_pos; lia|apply Z.div_lt_upper_bound; lia]).
    rewrite !elem_of_cons. unfold upper_hex, AMP, EQUALS.
    intros [->|[->|[->|?%elem_of_nil]]]; [lia|destruct (Z.ltb_spec (b / 16) 10); lia|destruct (Z.ltb_spec (b mod 16) 10); lia|done].
Qed.

Lemma unquote_plain_byte c t : c <> 37 -> unquote_to_bytes (c :: t) = c :: unquote_to_bytes t.
Proof.
  intros Hc. apply Z.eqb_neq in Hc. destruct t as [|a [|b t]]; [done..|].
  change (match hex_value a, hex_value b with
          | Some x, Some y => if c =? 37 then 16 * x + y :: unquote_to_bytes t else c :: unquote_to_bytes (a :: b :: t)
          | _, _ => c :: unquote_to_bytes (a :: b :: t)
          end = c :: unquote_to_bytes (a :: b :: t)).
  rewrite Hc. by destruct (hex_value a), (hex_value b).
Qed.

Lemma unquote_quote_byte b t : 0 <= b < 256 -> unquote_to_bytes (quote_byte b ++ t)%list = b :: unquote_to_bytes t.
Proof.
  intros Hb. unfold quote_byte. destruct (unreserved b) eqn:Hu.
  - apply unquote_plain_byte. by apply unreserved_plain in Hu as (_ & ? & _).
  - pose proof (Z.mod_pos_bound b 16 ltac:(lia)). assert (0 <= b / 16 < 16) by (split; [apply Z.div_pos; lia|apply Z.div_lt_upper_bound; lia]).
    cbn [app unquote_to_bytes]. rewrite !hex_round_trip by lia. simpl. f_equal. symmetry. apply Z.div_mod. lia.
Qed.

Lemma unquote_quote_bytes l : Forall (fun b => 0 <= b < 256) l -> unquote_to_bytes (flat_map quote_byte l) = l.
Proof. induction 1 as [|b l Hb _ IH]; [done|]. simpl. rewrite unquote_quote_byte by done. by rewrite IH. Qed.

(** ASCII text is one run. *)
Lemma unquote_from_ascii run t : Forall (fun c => c < 128) t -> unquote_from run t = utf8_decode (unquote_to_bytes (rev run ++ t)%list).
Proof.
  intros Ht. revert run. induction Ht as [|c t Hc _ IH]; intros run; [by rewrite app_nil_r|]. simpl.
  apply Z.ltb_lt in Hc. rewrite Hc, IH. simpl. by rewrite <- app_assoc.
Qed.

Definition quoted_char (c : Z) : Prop := 0 <= c < 128 /\ c <> AMP /\ c <> EQUALS /\ c <> 43.

Lemma quote_chars t : forallb is_scalar t = true -> Forall quoted_char (quote t).
Proof.
  intros Ht. apply Forall_forall. intros c Hc. unfold quote in Hc. apply list_elem_of_In, in_flat_map in Hc as (b & Hb & Hc).
  pose proof (utf8_encode_bytes t Ht) as Hbs. rewrite Forall_forall in Hbs. eapply quote_byte_plain; [apply Hbs|]; by apply list_elem_of_In.
Qed.

Lemma unquote_quote t : forallb is_scalar t = true -> unquote (quote t) = t.
Proof.
  intros Ht. unfold unquote. rewrite unquote_from_ascii.
  - simpl. unfold quote. rewrite unquote_quote_bytes by by apply utf8_encode_bytes. by apply utf8_round_trip.
  - eapply Forall_impl; [by apply quote_chars|]. unfold quoted_char. lia.
Qed.

Lemma forallb_of_Forall {A} (P : A -> Prop) (f : A -> bool) l : (forall x, P x -> f x = true) -> Forall P l -> forallb f l = true.
Proof. intros Hf. induction 1 as [|x l Hx _ IH]; [done|]. simpl. by rewrite (Hf x Hx), IH. Qed.

Lemma ascii_is_scalar c : 0 <= c < 128 -> is_scalar c = true.
Proof. unfold is_scalar. intros Hc. bool_lia. Qed.

Lemma quoted_scalar t : Forall quoted_char t -> forallb is_scalar t = true.
Proof. apply forallb_of_Forall. intros c [Hc _]. by apply ascii_is_scalar. Qed.

(** Text without per cent signs is not changed. *)
Lemma ascii_scalar t : Forall (fun c => 0 <= c < 128) t -> utf8_encode t = t /\ utf8_decode t = t.
Proof.
  intros Ht. assert (utf8_encode t = t) as He.
  { induction Ht as [|c t Hc _ IH]; [done|]. simpl. rewrite IH. unfold utf8_encode_char. destruct (Z.ltb_spec c 128); [done|lia]. }
  split; [done|]. rewrite <- He at 1. apply utf8_round_trip.
  by apply (forallb_of_Forall _ _ _ ascii_is_scalar).
Qed.

Lemma unquote_bytes_plain t : Forall (fun c => c <> 37) t -> unquote_to_bytes t = t.
Proof. induction 1 as [|c t Hc _ IH]; [done|]. rewrite unquote_plain_byte by done. by rewrite IH. Qed.

Lemma unquote_from_plain run t :
  Forall (fun c => 0 <= c < 128 /\ c <> 37) run -> Forall (fun c => 0 <= c /\ c <> 37) t -> unquote_from run t = (rev run ++ t)%list.
Proof.
  intros Hr Ht. revert run Hr. assert (forall run, Forall (fun c => 0 <= c < 128 /\ c <> 37) run -> utf8_decode (unquote_to_bytes (rev run)) = rev run) as Hrun.
  { intros run Hr. rewrite unquote_bytes_plain; [apply ascii_scalar|]; apply Forall_rev; eapply Forall_impl; try exact Hr; naive_solver. }
  induction Ht as [|c t Hc _ IH]; intros run Hr; simpl; [by rewrite app_nil_r, Hrun|].
  destruct (Z.ltb_spec c 128).
  - rewrite IH by (constructor; [lia|done]). simpl. by rewrite <- app_assoc.
  - rewrite Hrun by done. by rewrite IH by constructor.
Qed.

Lemma unquote_plain t : Forall (fun c => 0 <= c /\ c <> 37) t -> unquote t = t.
Proof. intros Ht. by apply (unquote_from_plain [] t). Qed.

Lemma plus_to_space_plain t : Forall (fun c => c <> 43) t -> plus_to_space t = t.
Proof. induction 1 as [|c t Hc _ IH]; [done|]. simpl. rewrite IH. apply Z.eqb_neq in Hc. by rewrite Hc. Qed.

Lemma quote_fixed t : Forall (fun c => 0 <= c < 128) t -> quote t = t <-> forallb unreserved t = true.
Proof.
  intros Ht. unfold quote. destruct (ascii_scalar t Ht) as [-> _]. clear Ht. split.
  - induction t as [|c t IH]; [done|]. simpl. unfold quote_byte at 1. destruct (unreserved c) eqn:Hc; simpl; [intros [= H]; by apply IH|].
    intros H. exfalso. apply (f_equal length) in H. simpl in H.
    assert (forall l, (length l <= length (flat_map quote_byte l))%nat) as Hl.
    { induction l as [|b l IHl]; [done|]. simpl. rewrite length_app. unfold quote_byte at 1. destruct (unreserved b); simpl; lia. }
    specialize (Hl t). lia.
  - induction t as [|c t IH]; [done|]. simpl. intros [Hc Ht]%andb_prop. unfold quote_byte at 1. rewrite Hc. simpl. by rewrite IH.
Qed.

(** ** Splitting what was joined *)

Lemma split_on_ne c t : split_on c t <> [].
Proof. destruct t as [|x t]; [done|]. simpl. destruct (x =? c); [done|]. by destruct (split_on c t). Qed.

Lemma split_on_app c t u : c ∉ t -> split_on c (t ++ c :: u)%list = t :: split_on c u.
Proof.
  intros Ht. induction t as [|x t IH]; simpl; [by rewrite Z.eqb_refl|]. apply not_elem_of_cons in Ht as [Hx Ht].
  destruct (Z.eqb_spec x c); [by subst|]. by rewrite IH.
Qed.

Lemma split_on_none c t : c ∉ t -> split_on c t = [t].
Proof.
  intros Ht. induction t as [|x t IH]; [done|]. apply not_elem_of_cons in Ht as [Hx Ht]. simpl.
  destruct (Z.eqb_spec x c); [by subst|]. by rewrite IH.
Qed.

Lemma split_on_join c l : l <> [] -> Forall (fun t => c ∉ t) l -> split_on c (join [c] l) = l.
Proof.
  intros Hne Hl. induction Hl as [|t l Ht Hl IH]; [done|]. destruct l as [|u l]; [by apply split_on_none|].
  change (join [c] (t :: u :: l)) with (t ++ c :: join [c] (u :: l))%list. rewrite split_on_app by done. by rewrite IH.
Qed.

Lemma split_first_app c t u : c ∉ t -> split_first c (t ++ c :: u)%list = Some (t, u).
Proof.
  intros Ht. induction t as [|x t IH]; simpl; [by rewrite Z.eqb_refl|]. apply not_elem_of_cons in Ht as [Hx Ht].
  destruct (Z.eqb_spec x c); [by subst|]. by rewrite IH.
Qed.

(** What the server makes of the fields of a query without separators *)
Definition separable (kv : text * text) : Prop := (AMP ∉ kv.1) /\ (AMP ∉ kv.2) /\ (EQUALS ∉ kv.1).

Lemma split_field kv : EQUALS ∉ (kv.1) -> split_first EQUALS (field kv) = Some (kv.1, kv.2).
Proof. apply split_first_app. Qed.

Definition decode_pair (kv : text * text) : text * text := (unquote (plus_to_space kv.1), unquote (plus_to_space kv.2)).

Lemma parse_qsl_join l : l <> [] -> Forall separable l -> parse_qsl (join [AMP] (map field l)) = Some (map decode_pair l).
Proof.
  intros Hne Hl. unfold parse_qsl. rewrite split_on_join; [|by destruct l|].
  - clear Hne. induction Hl as [|[k v] l (_ & _ & Hk) _ IH]; [done|]. cbn [map parse_fields].
    rewrite (split_field (k, v) Hk). simpl. by rewrite IH.
  - apply Forall_map, (Forall_impl _ _ _ Hl). intros [k v] (Hk & Hv & _). unfold field. simpl in *. rewrite elem_of_app, elem_of_cons.
    intros [?|[[=]|?]]; done.
Qed.

Lemma set_all_new (d l : list (text * text)) : NoDup ((d ++ l)%list.*1) -> foldl (fun d kv => od_set kv.1 kv.2 d) d l = (d ++ l)%list.
Proof.
  revert d. induction l as [|[k v] l IH]; intros d Hd; [by rewrite app_nil_r|]. simpl.
  rewrite od_set_new.
  - rewrite IH; [by rewrite <- app_assoc|by rewrite <- app_assoc].
  - apply od_get_None. rewrite fmap_app, NoDup_app in Hd. destruct Hd as (_ & Hd & _). intros Hk. apply (Hd k Hk). simpl. by left.
Qed.

Lemma filter_arrives l :
  l <> [] -> Forall separable l -> NoDup ((map decode_pair l).*1) ->
  parse_metadata_filter (Some (join [AMP] (map field l))) = Some (map decode_pair l).
Proof.
  intros Hne Hl Hd. unfold parse_metadata_filter. destruct (join [AMP] (map field l)) as [|c t] eqn:E.
  - exfalso. destruct l as [|[k v] l]; [done|]. apply (f_equal length) in E. destruct l; simpl in E; unfold field in E; rewrite ?length_app in E; simpl in E; lia.
  - rewrite <- E, parse_qsl_join by done. simpl. f_equal. by apply (set_all_new []).
Qed.

Lemma split_first_none c t : c ∉ t -> split_first c t = None.
Proof.
  intros Ht. induction t as [|x t IH]; [done|]. apply not_elem_of_cons in Ht as [Hx Ht]. simpl.
  destruct (Z.eqb_spec x c); [by subst|]. by rewrite IH.
Qed.

(** A field without an equals sign is refused, an empty one too. *)
Lemma malformed_filter_refused l t :
  Forall (fun t => AMP ∉ t) l -> t ∈ l -> EQUALS ∉ t -> l <> [[]] -> parse_metadata_filter (Some (join [AMP] l)) = None.
Proof.
  intros Hl Hin Ht Hne. unfold parse_metadata_filter. destruct (join [AMP] l) as [|c u] eqn:E.
  - exfalso. destruct l as [|a [|b l]]; [by apply elem_of_nil in Hin|simpl in E; by subst|].
    apply (f_equal length) in E. simpl in E. rewrite length_app in E. simpl in E. lia.
  - assert (parse_qsl (c :: u) = None) as ->; [|done]. rewrite <- E. unfold parse_qsl.
    rewrite split_on_join; [|by intros ->; apply elem_of_nil in Hin|done].
    clear -Hin Ht. induction Hin as [l|t x l _ IH]; simpl; [by rewrite split_first_none|].
    destruct (split_first EQUALS x) as [[k v]|]; [|done]. simpl. by rewrite IH.
Qed.

(** ** The two clients *)

(** Text the asynchronous client can send *)
Definition sendable (kv : text * text) : Prop :=
  Forall (fun c => 0 <= c /\ c <> AMP /\ c <> EQUALS /\ c <> 37 /\ c <> 43) kv.1 /\
  Forall (fun c => 0 <= c /\ c <> AMP /\ c <> 37 /\ c <> 43) kv.2.

Lemma decode_sendable kv : sendable kv -> separable kv /\ decode_pair kv = kv.
Proof.
  destruct kv as [k v]. intros [Hk Hv]. simpl in *. split.
  - rewrite !Forall_forall in *. split_and!; simpl; intros H; [apply Hk in H|apply Hv in H|apply Hk in H]; naive_solver.
  - unfold decode_pair. simpl. rewrite !plus_to_space_plain, !unquote_plain; try done;
      (eapply Forall_impl; [exact Hk || exact Hv|]; naive_solver).
Qed.

Lemma map_fixed {A} (f : A -> A) (P : A -> Prop) l : (forall x, P x -> f x = x) -> Forall P l -> map f l = l.
Proof. intros Hf. induction 1 as [|x l Hx _ IH]; [done|]. simpl. by rewrite (Hf x Hx), IH. Qed.

Lemma aio_filter_arrives m :
  Forall sendable m -> NoDup (m.*1) -> parse_metadata_filter (aio_metadata_param m) = Some m.
Proof.
  intros Hm Hd. destruct m as [|kv m]; [done|]. unfold aio_metadata_param.
  assert (map decode_pair (kv :: m) = kv :: m) as Hf by (apply (map_fixed _ sendable); [apply decode_sendable|done]).
  rewrite filter_arrives, Hf; [done|done| |by rewrite Hf]. eapply Forall_impl; [exact Hm|]. apply decode_sendable.
Qed.

Definition quote_pair (kv : text * text) : text * text := (quote kv.1, quote kv.2).

Definition scalars (kv : text * text) : Prop := forallb is_scalar kv.1 = true /\ forallb is_scalar kv.2 = true.

Lemma quote_inj t u : forallb is_scalar t = true -> forallb is_scalar u = true -> quote t = quote u -> t = u.
Proof. intros Ht Hu H. by rewrite <- (unquote_quote t Ht), H, unquote_quote. Qed.

Lemma quoted_plain t : Forall quoted_char t -> (AMP ∉ t) /\ (EQUALS ∉ t) /\ plus_to_space t = t.
Proof.
  intros Ht. split_and!; [rewrite Forall_forall in Ht; intros H; apply Ht in H; unfold quoted_char in H; tauto..|].
  apply plus_to_space_plain. eapply Forall_impl; [exact Ht|]. unfold quoted_char. tauto.
Qed.

(** The server reads quoted texts from the synchronous client. *)
Lemma sync_filter_arrives m :
  Forall scalars m -> NoDup (m.*1) -> parse_metadata_filter (sync_metadata_param m) = Some (map quote_pair m).
Proof.
  intros Hm Hd. destruct m as [|kv m]; [done|]. unfold sync_metadata_param.
  set (q := fun kv : text * text => (quote (quote kv.1), quote (quote kv.2))).
  replace (map (fun kv => field (quote (quote kv.1), quote (quote kv.2))) (kv :: m)) with (map field (map q (kv :: m))) by by rewrite map_map.
  assert (forall kv, scalars kv -> separable (q kv) /\ decode_pair (q kv) = quote_pair kv) as Hq.
  { intros [k v] [Hk Hv]. simpl in *. pose proof (quoted_scalar _ (quote_chars k Hk)) as Hk'. pose proof (quoted_scalar _ (quote_chars v Hv)) as Hv'.
    destruct (quoted_plain _ (quote_chars _ Hk')) as (? & ? & E1). destruct (quoted_plain _ (quote_chars _ Hv')) as (? & ? & E2).
    split; [done|]. unfold decode_pair, quote_pair, q. simpl. by rewrite E1, E2, !unquote_quote. }
  assert (map decode_pair (map q (kv :: m)) = map quote_pair (kv :: m)) as Hf.
  { rewrite map_map. clear Hd. induction Hm as [|x l Hx _ IH]; [done|]. simpl. f_equal; [by apply Hq|exact IH]. }
  rewrite filter_arrives, Hf; [done|done| |].
  - apply Forall_map, (Forall_impl _ _ _ Hm). intros x Hx. by apply Hq.
  - rewrite Hf. replace ((map quote_pair (kv :: m)).*1) with (map quote ((kv :: m).*1)) by (symmetry; change (fmap fst) with (map (@fst text text)); rewrite !map_map; done).
    assert (Forall (fun t => forallb is_scalar t = true) ((kv :: m).*1)) as Hs by (apply Forall_fmap; eapply Forall_impl; [exact Hm|by intros ? []]).
    revert Hd Hs. generalize ((kv :: m).*1). clear. intros l Hd. induction Hd as [|t l Ht _ IH]; [constructor|].
    intros [Hs1 Hs2]%Forall_cons. simpl. constructor; [|auto]. intros (u & Hu & Hin)%list_elem_of_fmap. apply Ht.
    rewrite Forall_forall in Hs2. by rewrite (quote_inj t u Hs1 (Hs2 u Hin) Hu).
Qed.

(** ** Labels *)

(** A character of an accepted label: of a name, a prefix, or a final newline *)
Definition label_char (c : ascii) : bool := is_label_middle c || bool_decide (c = "/"%char) || bool_decide (c = "010"%char).

Lemma is_label_chars first middle l :
  (forall c, first c = true -> label_char c = true) -> (forall c, middle c = true -> label_char c = true) ->
  is_label first middle l -> forallb label_char l = true.
Proof.
  intros Hf Hm (c & Hc & Hfc & d & Hd & Hfd & Hmid). destruct l as [|c' l] using rev_ind; [done|]. clear IHl.
  rewrite last_snoc in Hd. injection Hd as ->. rewrite removelast_last in Hmid. rewrite forallb_app. simpl. rewrite (Hf d Hfd), !andb_true_r.
  destruct l as [|c'' l]; [done|]. simpl in *. injection Hc as ->. rewrite (Hf c Hfc). simpl.
  clear Hfc. induction l as [|x l IH]; [done|]. simpl in *. apply andb_prop in Hmid as [Hx Hl]. by rewrite (Hm x Hx), IH.
Qed.

Lemma newline_chars first middle s :
  (forall c, first c = true -> label_char c = true) -> (forall c, middle c = true -> label_char c = true) ->
  label_or_newline first middle s -> forallb label_char (chars s) = true.
Proof.
  intros Hf Hm [H|(l & E & H)]; [exact (is_label_chars _ _ _ Hf Hm H)|].
  by rewrite E, forallb_app, (is_label_chars first middle l Hf Hm H).
Qed.

Lemma alnum_label_char c : is_alnum_az c = true -> label_char c = true.
Proof. unfold label_char, is_label_middle. intros ->. by rewrite orb_true_r. Qed.

Lemma middle_label_char c : is_label_middle c = true -> label_char c = true.
Proof. unfold label_char. by intros ->. Qed.

Lemma lower_label_char c : is_lower_alnum c = true -> label_char c = true.
Proof. intros H. apply alnum_label_char. unfold is_lower_alnum in H. unfold is_alnum_az. by destruct (is_lower_az c), (is_digit c), (is_upper_az c). Qed.

Lemma dash_label_char c : is_dash_lower_alnum c = true -> label_char c = true.
Proof.
  unfold is_dash_lower_alnum. intros [H|H]%orb_prop; [|by apply lower_label_char]. apply middle_label_char. unfold is_label_middle. by rewrite H.
Qed.

Lemma subdomain_chars l : subdomain_or_newline l -> forallb label_char l = true.
Proof.
  assert (forall l, dns_subdomain l -> forallb label_char l = true) as Hd.
  { clear. intros l (ws & _ & Hws & ->).
    assert (Forall (fun w => forallb label_char w = true) ws) as Hc.
    { eapply Forall_impl; [exact Hws|]. intros w Hw. eapply is_label_chars; [apply lower_label_char|apply dash_label_char|exact Hw]. }
    clear Hws. destruct ws as [|w ws] using rev_ind; [done|]. clear IHws. rewrite Forall_app, Forall_singleton in Hc. destruct Hc as [Hc Hw].
    rewrite removelast_last, last_snoc, forallb_app. simpl. rewrite Hw, andb_true_r. induction Hc as [|u us Hu _ IH]; [done|].
    simpl. rewrite !forallb_app, Hu, IH. done. }
  intros [H|(l' & -> & H)]; [by apply Hd|]. by rewrite forallb_app, (Hd l' H).
Qed.

Lemma split_once_join c l a b : split_once c l = Some (a, b) -> l = (a ++ c :: b)%list.
Proof.
  revert a. induction l as [|x l IH]; intros a; [done|]. simpl. case_decide as E; [subst; by intros [= <- <-]|].
  destruct (split_once c l) as [[a' b']|]; [|done]. simpl. intros [= <- <-]. simpl. f_equal. by apply IH.
Qed.

Lemma name_chars l : name_ok l -> forallb label_char l = true.
Proof. intros [_ H]. rewrite <- (chars_of_chars l). by apply (newline_chars _ _ _ alnum_label_char middle_label_char). Qed.

Lemma label_chars kv : label_ok kv -> forallb label_char (chars kv.1) = true /\ forallb label_char (chars kv.2) = true.
Proof.
  destruct kv as [k v]. simpl. intros (_ & Hk & _ & Hv). simpl in *. split.
  - destruct (split_once "/" (chars k)) as [[p n]|] eqn:E; [|by apply name_chars]. apply split_once_join in E. rewrite E, forallb_app. simpl.
    destruct Hk as (_ & _ & Hp & Hn). by rewrite (subdomain_chars p Hp), (name_chars n Hn).
  - destruct Hv as [->|[->|Hv]]; [done|done|]. by apply (newline_chars _ _ _ alnum_label_char middle_label_char).
Qed.

Lemma label_char_code c : label_char c = true -> 0 <= code c < 128 /\ code c <> AMP /\ code c <> EQUALS /\ code c <> 37 /\ code c <> 43.
Proof. revert c. assert (forall c, implb (label_char c) ((0 <=? code c) && (code c <? 128) && negb (code c =? 38) && negb (code c =? 61) && negb (code c =? 37) && negb (code c =? 43)) = true) as H.
  { intros [[] [] [] [] [] [] [] []]; vm_compute; reflexivity. }
  intros c Hc. specialize (H c). rewrite Hc in H. simpl in H. unfold AMP, EQUALS. bool_lia.
Qed.

Definition lit_pair (kv : string * string) : text * text := (lit kv.1, lit kv.2).

Lemma lit_inj s1 s2 : lit s1 = lit s2 -> s1 = s2.
Proof.
  intros H. apply chars_inj. unfold lit in H. revert H. generalize (chars s1) (chars s2). clear.
  induction l as [|c l IH]; intros [|d l']; simpl; try done. intros [= H1 H2]. f_equal; [|by apply IH].
  unfold code in H1. apply N2Z.inj in H1. by rewrite <- (ascii_N_embedding c), H1, ascii_N_embedding.
Qed.

Lemma lit_Forall (P : Z -> Prop) s : (forall c, label_char c = true -> P (code c)) -> forallb label_char (chars s) = true -> Forall P (lit s).
Proof.
  intros HP. unfold lit. generalize (chars s). induction l as [|c l IH]; simpl; [constructor|]. intros [Hc Hl]%andb_prop. constructor; auto.
Qed.

Lemma lit_pairs_NoDup (m : list (string * string)) : NoDup (m.*1) -> NoDup ((map lit_pair m).*1).
Proof.
  intros Hd. assert ((map lit_pair m).*1 = lit <$> m.*1) as -> by (clear; induction m as [|[k v] m IH]; simpl; by f_equal).
  revert Hd. generalize (m.*1). clear. induction 1 as [|k l Hk _ IH]; simpl; constructor; [|done].
  intros (k' & Hk' & Hin)%list_elem_of_fmap. apply lit_inj in Hk'. by subst.
Qed.

(** ** What a filter finds *)

(** The filter of [DockerSandboxes], whose texts are Latin-1 *)
Definition of_text (t : text) : string := of_chars (map (fun c => ascii_of_N (Z.to_N c)) t).

Definition server_filter (l : list (text * text)) : filter_ := mkFilter [] (map (fun kv => (of_text kv.1, of_text kv.2)) l).

Lemma of_text_lit s : of_text (lit s) = s.
Proof.
  apply chars_inj. unfold of_text, lit. rewrite chars_of_chars, map_map. etrans; [|apply map_id]. apply map_ext. intros c.
  unfold code. by rewrite N2Z.id, ascii_N_embedding.
Qed.

Lemma server_filter_lit m : server_filter (map lit_pair m) = mkFilter [] m.
Proof.
  unfold server_filter. f_equal. rewrite map_map. etrans; [|apply map_id]. apply map_ext. intros [k v]. simpl. by rewrite !of_text_lit.
Qed.

(** Nothing in the entry needs quoting. *)
Definition unquoted (kv : string * string) : bool := forallb unreserved (lit kv.1) && forallb unreserved (lit kv.2).

(** C33: Labels a sandbox can be created with, used as a filter in the
    asynchronous client, reach the server unchanged, and a sandbox that carries
    them is listed.  From the synchronous client, which quotes twice, they reach
    it unchanged exactly when no character of them needs quoting, and the slash
    after a key's prefix does. *)
Theorem label_filter_arrives m :
  ensure_metadata_labels (Some m) = Ok tt -> NoDup (m.*1) ->
  parse_metadata_filter (aio_metadata_param (map lit_pair m)) = Some (map lit_pair m) /\
  (forall v, Forall (fun kv => vw_metadata v !! kv.1 = Some kv.2) m -> matches_filter v (server_filter (map lit_pair m)) = true) /\
  (parse_metadata_filter (sync_metadata_param (map lit_pair m)) = Some (map lit_pair m) <-> forallb unquoted m = true).
Proof.
  intros Hm Hd. apply metadata_labels_spec in Hm. simpl in Hm. apply lit_pairs_NoDup in Hd.
  assert (Forall (fun kv => forallb label_char (chars kv.1) = true /\ forallb label_char (chars kv.2) = true) m) as Hc by exact (Forall_impl _ _ _ Hm label_chars).
  split_and!.
  - apply aio_filter_arrives; [|done]. apply Forall_map, (Forall_impl _ _ _ Hc). intros [k v] [Hk Hv]. simpl in *.
    split; (eapply lit_Forall; [|done]); intros c Hlc; apply label_char_code in Hlc; tauto.
  - intros v Hv. rewrite server_filter_lit. unfold matches_filter. simpl. apply (forallb_of_Forall _ _ _ (fun kv => bool_decide_eq_true_2 _) Hv).
  - rewrite sync_filter_arrives; [|apply Forall_map, (Forall_impl _ _ _ Hc)|done].
    + clear Hd Hm. rewrite map_map. induction Hc as [|[k v] m [Hk Hv] _ IH]; [done|]. simpl in *.
      assert (forall s, forallb label_char (chars s) = true -> quote (lit s) = lit s <-> forallb unreserved (lit s) = true) as Hq
        by (intros s Hs; apply quote_fixed; eapply lit_Forall; [|exact Hs]; intros c Hlc; apply label_char_code in Hlc; tauto).
      unfold unquoted at 1, quote_pair at 1. simpl. rewrite !andb_true_iff, <- (Hq k Hk), <- (Hq v Hv), <- IH. clear. split.
      * intros H. injection H as H1 H2 H3. split; [done|]. by rewrite H3.
      * intros [[H1 H2] [= H3]]. unfold lit_pair at 2. simpl. by rewrite H1, H2, H3.
    + intros [k v] [Hk Hv]. split; (apply (forallb_of_Forall (fun c => 0 <= c < 128)); [apply ascii_is_scalar|]); (eapply lit_Forall; [|done]); intros c Hlc; apply label_char_code in Hlc; tauto.
Qed.

Lemma label_filter_arrives_witness :
  parse_metadata_filter (sync_metadata_param (map lit_pair [("app", "x.1"); ("tier", "")])) =
    Some (map lit_pair [("app", "x.1"); ("tier", "")]).
Proof.
  refine (proj2 (proj2 (proj2 (label_filter_arrives [("app", "x.1"); ("tier", "")] _ _))) _); [vm_compute; reflexivity| |vm_compute; reflexivity].
  apply (bool_decide_unpack _). vm_compute. exact I.
Defined.

(** A sandbox that carries a label with a prefix, and the filter for it *)
Definition prefixed : list (string * string) := [("example.com/app", "x")].
Definition prefixed_view : view := mkView "sbx" "Running" (list_to_map prefixed) 0.

(** The label is accepted and found through the asynchronous client; the filter
    of the synchronous one names another key. *)
Example prefixed_label_not_found :
  ensure_metadata_labels (Some prefixed) = Ok tt /\
  matches_filter prefixed_view <$> (server_filter <$> parse_metadata_filter (aio_metadata_param (map lit_pair prefixed))) = Some true /\
  matches_filter prefixed_view <$> (server_filter <$> parse_metadata_filter (sync_metadata_param (map lit_pair prefixed))) = Some false.
Proof. by vm_compute. Qed.

(** A text with one of the separators of the query is cut in two by the
    asynchronous client: the filter for [note] = [a&b=c] asks for two labels. *)
Example separator_splits_filter :
  parse_metadata_filter (aio_metadata_param [lit_pair ("note", "a&b=c")]) = Some [lit_pair ("note", "a"); lit_pair ("b", "c")].
Proof. by vm_compute. Qed.

