(* ===== verification/SnapshotRepo.v ===== *)
(** * Snapshot repository

    [server/opensandbox_server/services/snapshot_models.py] and
    [snapshot_repository.py]: the persisted records and the repository
    interface, as a class of operations with its laws; and
    [repositories/snapshots/sqlite.py]: the SQLite repository that implements
    it.  The table [snapshots] is a list of rows of text columns; each SQL
    statement the repository sends is one function on it.  A [list] call sends
    two statements, and nothing keeps other connections from writing between
    them, so they are two operations.  Opening connections, creating and
    migrating the schema are not modelled; failures of SQLite (a busy or broken
    database) are added by the service's model. *)

From Stdlib Require Import ZArith Lia Ascii String Sorted.
From stdpp Require Import base numbers strings gmap sorting list.
From S2P Require Import Prelude PyString Regex Validators PyText.

Open Scope string_scope.
Open Scope Z_scope.

(** ** Records *)

Inductive SnapshotState := CREATING | DELETING | READY | FAILED.

#[global] Instance SnapshotState_eq_dec : EqDecision SnapshotState.
Proof. solve_decision. Defined.

(** [SnapshotState.value] and [SnapshotState(text)] *)
Definition state_value (s : SnapshotState) : string :=
  match s with
  | CREATING => "Creating" | DELETING => "Deleting" | READY => "Ready" | FAILED => "Failed"
  end.

Definition state_of_value (t : string) : option SnapshotState :=
  if (t =? "Creating")%string then Some CREATING
  else if (t =? "Deleting")%string then Some DELETING
  else if (t =? "Ready")%string then Some READY
  else if (t =? "Failed")%string then Some FAILED
  else None.

Record SnapshotRestoreConfig := { rc_image : option string }.

Record SnapshotStatusRecord := mkStatus {
  st_state : SnapshotState;
  st_reason : option string;
  st_message : option string;
  st_last_transition_at : option datetime
}.

Record SnapshotRecord := mkRecord {
  sr_id : string;
  sr_source_sandbox_id : string;
  sr_namespace : option string;
  sr_name : option string;
  sr_description : option string;
  sr_restore_config : SnapshotRestoreConfig;
  sr_status : SnapshotStatusRecord;
  sr_created_at : datetime;
  sr_updated_at : datetime
}.

Definition sr_state (r : SnapshotRecord) : SnapshotState := st_state (sr_status r).

#[global] Instance SnapshotRestoreConfig_eq_dec : EqDecision SnapshotRestoreConfig.
Proof. solve_decision. Defined.
#[global] Instance SnapshotStatusRecord_eq_dec : EqDecision SnapshotStatusRecord.
Proof. solve_decision. Defined.
#[global] Instance SnapshotRecord_eq_dec : EqDecision SnapshotRecord.
Proof. solve_decision. Defined.

Record SnapshotListQuery := mkQuery {
  q_page : Z;
  q_page_size : Z;
  q_source_sandbox_id : option string;
  q_name : option string;
  q_states : list string;
  q_namespace : option string
}.

(** The same query, for another page. *)
Definition with_page (p : Z) (q : SnapshotListQuery) : SnapshotListQuery :=
  mkQuery p (q_page_size q) (q_source_sandbox_id q) (q_name q) (q_states q) (q_namespace q).

(** An exception of the server: an [HTTPException] of the modelled code, or any
    other one, with what [str] gives for it. *)
Inductive serr :=
  | SHttp (h : http)
  | SExc (text : string)
  | SBase (text : string).

Definition is_SException (e : serr) : bool := match e with SBase _ => false | _ => true end.

(** ** The repository interface *)

Class SnapshotRepository (T : Type) := {
  repo_create : SnapshotRecord -> T -> res serr T;
  repo_get : string -> T -> res serr (option SnapshotRecord);
  repo_count : SnapshotListQuery -> T -> Z;
  repo_rows : SnapshotListQuery -> T -> res serr (list SnapshotRecord);
  repo_update : SnapshotRecord -> T -> T;
  repo_update_if_state : SnapshotRecord -> SnapshotState -> T -> bool * T;
  repo_delete : string -> T -> T
}.

(** [values = ?] in a [WHERE] clause: never true of NULL. *)
Definition column_is (v : string) (c : option string) : bool := bool_decide (c = Some v).

(** What a query selects. *)
Definition query_matches (q : SnapshotListQuery) (r : SnapshotRecord) : bool :=
  match q_namespace q with Some n => column_is n (sr_namespace r) | None => true end &&
  match q_source_sandbox_id q with
  | Some s => (s =? "")%string || (sr_source_sandbox_id r =? s)%string
  | None => true
  end &&
  match q_name q with Some n => column_is n (sr_name r) | None => true end &&
  (bool_decide (q_states q = []) || bool_decide (state_value (sr_state r) ∈ q_states q)).

(** Newest first, then by descending id. *)
Definition record_cmp (a b : SnapshotRecord) : comparison :=
  and_then (datetime_cmp (sr_created_at a) (sr_created_at b)) (text_cmp (sr_id a) (sr_id b)).
Definition newest_first (a b : SnapshotRecord) : Prop := record_cmp a b <> Lt.

Definition page_size_of (q : SnapshotListQuery) : Z := Z.max (q_page_size q) 1.
Definition page_offset (q : SnapshotListQuery) : Z := (Z.max (q_page q) 1 - 1) * page_size_of q.

Definition window {A} (q : SnapshotListQuery) (l : list A) : list A :=
  take (Z.to_nat (page_size_of q)) (drop (Z.to_nat (page_offset q)) l).

Definition valid_record (r : SnapshotRecord) : Prop :=
  valid_datetime (sr_created_at r) = true /\ valid_datetime (sr_updated_at r) = true /\
  forall d, st_last_transition_at (sr_status r) = Some d -> valid_datetime d = true.

(** What a repository promises: it behaves as a finite map from ids to records,
    listed newest first. *)
Class SnapshotRepositoryLaws (T : Type) `{SnapshotRepository T} := {
  repr : T -> gmap string SnapshotRecord -> Prop;
  repr_id t m k r : repr t m -> m !! k = Some r -> sr_id r = k;
  law_create t m r : repr t m -> valid_record r ->
    match repo_create r t with
    | Ok t' => m !! sr_id r = None /\ repr t' (<[sr_id r := r]> m)
    | Raise e => is_Some (m !! sr_id r) /\ is_SException e = true
    end;
  law_get t m k : repr t m -> repo_get k t = Ok (m !! k);
  law_list t m q : repr t m ->
    exists all, all ≡ₚ filter (fun r => query_matches q r = true) (map_to_list m).*2 /\
      StronglySorted newest_first all /\
      repo_count q t = Z.of_nat (length all) /\
      forall p, repo_rows (with_page p q) t = Ok (window (with_page p q) all);
  law_update t m r : repr t m -> valid_record r ->
    repr (repo_update r t) (if decide (is_Some (m !! sr_id r)) then <[sr_id r := r]> m else m);
  law_update_if t m r s : repr t m -> valid_record r ->
    let hit := bool_decide (sr_state <$> m !! sr_id r = Some s) in
    (repo_update_if_state r s t).1 = hit /\
    repr (repo_update_if_state r s t).2 (if hit then <[sr_id r := r]> m else m);
  law_delete t m k : repr t m -> repr (repo_delete k t) (delete k m)
}.

(** The first page of a query, for any repository. *)
Lemma repo_rows_in {T} `{SnapshotRepositoryLaws T} (t : T) m q :
  repr t m ->
  exists all, all ≡ₚ filter (fun r => query_matches q r = true) (map_to_list m).*2 /\
    repo_count q t = Z.of_nat (length all) /\ repo_rows q t = Ok (window q all) /\
    forall r, r ∈ all -> m !! sr_id r = Some r /\ query_matches q r = true.
Proof.
  intros Ht. destruct (law_list t m q Ht) as (all & Hp & _ & Hc & Hpage).
  exists all. split_and!; [done|done| |].
  - specialize (Hpage (q_page q)). by replace (with_page (q_page q) q) with q in Hpage by (by destruct q).
  - intros r Hr. rewrite Hp in Hr. apply list_elem_of_filter in Hr as [Hq Hr].
    apply list_elem_of_fmap in Hr as ([k r'] & -> & Hk%elem_of_map_to_list).
    split; [|done]. simpl. by rewrite (repr_id _ _ _ _ Ht Hk).
Qed.

Lemma elem_of_window {A} q (l : list A) x : x ∈ window q l -> x ∈ l.
Proof. intros (i & Hi & _)%elem_of_take. rewrite lookup_drop in Hi. by eapply list_elem_of_lookup_2. Qed.

(** ** The SQLite table *)

Record Row := mkRow {
  row_id : string;
  row_source_sandbox_id : string;
  row_namespace : option string;
  row_name : option string;
  row_description : option string;
  row_restore_config : string;
  row_state : string;
  row_reason : option string;
  row_message : option string;
  row_last_transition_at : option string;
  row_created_at : string;
  row_updated_at : string
}.

Abbreviation Table := (list Row).

(** [json.dumps({"image": config.image}, sort_keys=True)] *)
Definition json_open : list ascii := ("{"%char :: json_string (chars "image") ++ chars ": ")%list.

Definition restore_config_to_json (c : SnapshotRestoreConfig) : string :=
  of_chars (json_open ++
            (match rc_image c with
             | Some image => json_string (chars image)
             | None => chars "null"
             end) ++ ["}"%char])%list.

Definition strip_prefix (p l : list ascii) : option (list ascii) :=
  if decide (p `prefix_of` l) then Some (drop (length p) l) else None.

(** [json.loads(row["restore_config"])] and [.get("image")] *)
Definition restore_config_of_json (t : string) : option SnapshotRestoreConfig :=
  l ← strip_prefix json_open (chars t);
  match l with
  | c :: l' =>
      if decide (c = quote) then
        '(s, l) ← json_scan l';
        if decide (l = ["}"%char]) then Some {| rc_image := Some (of_chars s) |} else None
      else if decide (l = chars "null}") then Some {| rc_image := None |} else None
  | [] => None
  end.

Definition datetime_to_str (v : option datetime) : option string := isoformat <$> v.

Definition to_db_tuple (r : SnapshotRecord) : Row := {|
  row_id := sr_id r;
  row_source_sandbox_id := sr_source_sandbox_id r;
  row_namespace := sr_namespace r;
  row_name := sr_name r;
  row_description := sr_description r;
  row_restore_config := restore_config_to_json (sr_restore_config r);
  row_state := state_value (sr_state r);
  row_reason := st_reason (sr_status r);
  row_message := st_message (sr_status r);
  row_last_transition_at := datetime_to_str (st_last_transition_at (sr_status r));
  row_created_at := isoformat (sr_created_at r);
  row_updated_at := isoformat (sr_updated_at r) |}.

(** [Some None] for an absent value, [None] for an unreadable text. *)
Definition str_to_datetime (v : option string) : option (option datetime) :=
  match v with
  | None => Some None
  | Some t => Some <$> fromisoformat t
  end.

Definition row_to_record (row : Row) : res serr SnapshotRecord :=
  match (config ← restore_config_of_json (row_restore_config row);
         state ← state_of_value (row_state row);
         transition ← str_to_datetime (row_last_transition_at row);
         created ← fromisoformat (row_created_at row);
         updated ← fromisoformat (row_updated_at row);
         Some (mkRecord (row_id row) (row_source_sandbox_id row) (row_namespace row)
                 (row_name row) (row_description row) config
                 (mkStatus state (row_reason row) (row_message row) transition)
                 created updated)) with
  | Some r => Ok r
  | None => Raise (SExc "invalid row")
  end.

Fixpoint rows_to_records (rows : list Row) : res serr (list SnapshotRecord) :=
  match rows with
  | [] => Ok []
  | row :: rows =>
      match row_to_record row, rows_to_records rows with
      | Ok r, Ok rs => Ok (r :: rs)
      | Raise e, _ => Raise e
      | _, Raise e => Raise e
      end
  end.

(** [WHERE id = ?] *)
Definition has_id (k : string) (row : Row) : Prop := row_id row = k.
#[global] Instance has_id_dec k row : Decision (has_id k row) := decide (row_id row = k).

Definition sql_create (r : SnapshotRecord) (t : Table) : res serr Table :=
  if decide (Exists (has_id (sr_id r)) t)
  then Raise (SExc "UNIQUE constraint failed: snapshots.id")
  else Ok (t ++ [to_db_tuple r])%list.

Definition sql_get (k : string) (t : Table) : res serr (option SnapshotRecord) :=
  match filter (has_id k) t with
  | [] => Ok None
  | row :: _ => match row_to_record row with Ok r => Ok (Some r) | Raise e => Raise e end
  end.

(** The [WHERE] clause [list] builds from its query. *)
Definition where_clause (q : SnapshotListQuery) (row : Row) : bool :=
  match q_namespace q with Some n => column_is n (row_namespace row) | None => true end &&
  match q_source_sandbox_id q with
  | Some s => if (s =? "")%string then true else (row_source_sandbox_id row =? s)%string
  | None => true
  end &&
  match q_name q with Some n => column_is n (row_name row) | None => true end &&
  match q_states q with
  | [] => true
  | states => bool_decide (row_state row ∈ states)
  end.

(** [ORDER BY created_at DESC, id DESC], both columns compared as text. *)
Definition row_cmp (a b : Row) : comparison :=
  and_then (text_cmp (row_created_at a) (row_created_at b)) (text_cmp (row_id a) (row_id b)).
Definition row_before (a b : Row) : Prop := row_cmp a b <> Lt.
#[global] Instance row_before_dec : RelDecision row_before.
Proof. intros a b. unfold row_before. destruct (row_cmp a b); [left|right|left]; congruence. Defined.

Definition sql_count (q : SnapshotListQuery) (t : Table) : Z :=
  Z.of_nat (length (filter (fun row => where_clause q row = true) t)).

Definition sql_rows (q : SnapshotListQuery) (t : Table) : res serr (list SnapshotRecord) :=
  let selected := merge_sort row_before (filter (fun row => where_clause q row = true) t) in
  let page := Z.max (q_page q) 1 in
  let page_size := Z.max (q_page_size q) 1 in
  let offset := (page - 1) * page_size in
  rows_to_records (take (Z.to_nat page_size) (drop (Z.to_nat offset) selected)).

Definition sql_update (r : SnapshotRecord) (t : Table) : Table :=
  map (fun row => if decide (row_id row = sr_id r) then to_db_tuple r else row) t.

Definition hits (r : SnapshotRecord) (s : SnapshotState) (row : Row) : Prop :=
  row_id row = sr_id r /\ row_state row = state_value s.
#[global] Instance hits_dec r s row : Decision (hits r s row) := _.

Definition sql_update_if_state (r : SnapshotRecord) (s : SnapshotState) (t : Table)
  : bool * Table :=
  let rowcount := length (filter (hits r s) t) in
  (bool_decide (rowcount = 1%nat),
   map (fun row => if decide (hits r s row) then to_db_tuple r else row) t).

Definition sql_delete (k : string) (t : Table) : Table :=
  filter (fun row => ~ has_id k row) t.

#[global] Instance SQLiteSnapshotRepository : SnapshotRepository Table := {|
  repo_create := sql_create;
  repo_get := sql_get;
  repo_count := sql_count;
  repo_rows := sql_rows;
  repo_update := sql_update;
  repo_update_if_state := sql_update_if_state;
  repo_delete := sql_delete
|}.

(** ** Reading back a row *)

Lemma state_of_value_value s : state_of_value (state_value s) = Some s.
Proof. by destruct s. Qed.

Lemma state_value_inj s1 s2 : state_value s1 = state_value s2 -> s1 = s2.
Proof. by destruct s1, s2. Qed.

Lemma strip_prefix_app p l : strip_prefix p (p ++ l) = Some l.
Proof.
  unfold strip_prefix. rewrite decide_True by (by exists l). by rewrite drop_app_length.
Qed.

Lemma restore_config_roundtrip c :
  restore_config_of_json (restore_config_to_json c) = Some c.
Proof.
  unfold restore_config_of_json, restore_config_to_json. rewrite chars_of_chars, strip_prefix_app.
  destruct c as [[image|]]; [|done].
  unfold json_string. cbn [rc_image mbind option_bind app].
  rewrite decide_True by done. rewrite <- app_assoc. cbn [app]. rewrite json_scan_string. cbn [mbind option_bind].
  rewrite decide_True by done. by rewrite of_chars_chars.
Qed.

Lemma row_roundtrip_ok r : valid_record r -> row_to_record (to_db_tuple r) = Ok r.
Proof.
  intros (Hc & Hu & Ht). unfold row_to_record, to_db_tuple. simpl.
  rewrite restore_config_roundtrip, state_of_value_value. cbn [mbind option_bind].
  rewrite !fromisoformat_isoformat by done.
  destruct r as [id sb ns nm ds [im] [st rs ms tr] ca ua]. simpl in *.
  destruct tr as [d|]; simpl; [|done]. by rewrite fromisoformat_isoformat by auto.
Qed.

Lemma rows_roundtrip rs :
  Forall valid_record rs -> rows_to_records (map to_db_tuple rs) = Ok rs.
Proof.
  induction 1 as [|r rs Hr _ IH]; [done|]. simpl. by rewrite row_roundtrip_ok, IH.
Qed.

(** ** The table represents a map *)

Definition by_id (rs : list SnapshotRecord) : gmap string SnapshotRecord :=
  list_to_map ((fun r => (sr_id r, r)) <$> rs).

Definition table_repr (t : Table) (m : gmap string SnapshotRecord) : Prop :=
  exists rs, t = map to_db_tuple rs /\ NoDup (map sr_id rs) /\ Forall valid_record rs /\
             m = by_id rs.

Lemma by_id_keys rs : ((fun r : SnapshotRecord => (sr_id r, r)) <$> rs).*1 = map sr_id rs.
Proof. by rewrite <- list_fmap_compose. Qed.

Lemma by_id_lookup rs k r :
  NoDup (map sr_id rs) -> by_id rs !! k = Some r <-> r ∈ rs /\ sr_id r = k.
Proof.
  intros Hnd. unfold by_id. rewrite <- elem_of_list_to_map by (by rewrite by_id_keys).
  rewrite list_elem_of_fmap. naive_solver.
Qed.

Lemma by_id_None rs k : by_id rs !! k = None <-> k ∉ map sr_id rs.
Proof. unfold by_id. by rewrite <- not_elem_of_list_to_map, by_id_keys. Qed.

Lemma by_id_values rs : NoDup (map sr_id rs) -> (map_to_list (by_id rs)).*2 ≡ₚ rs.
Proof.
  intros Hnd. unfold by_id. rewrite map_to_list_to_map by (by rewrite by_id_keys).
  induction rs as [|r rs IH]; simpl; [done|]. inversion Hnd; subst. by rewrite IH.
Qed.

Lemma filter_map_db (P : Row -> Prop) `{!forall x, Decision (P x)} (rs : list SnapshotRecord) :
  filter P (map to_db_tuple rs) = map to_db_tuple (filter (fun r => P (to_db_tuple r)) rs).
Proof.
  induction rs as [|r rs IH]; [done|]. cbn [map].
  destruct (decide (P (to_db_tuple r))).
  - rewrite !filter_cons_True by done. cbn [map]. by rewrite IH.
  - by rewrite !filter_cons_False by done.
Qed.

(** With distinct ids at most one record has a given id. *)
Lemma filter_id rs k :
  NoDup (map sr_id rs) ->
  filter (fun r => sr_id r = k) rs = match by_id rs !! k with Some r => [r] | None => [] end.
Proof.
  induction rs as [|r rs IH]; intros Hnd; [done|]. inversion Hnd as [|? ? Hni Hnd']; subst.
  unfold by_id. cbn [fmap list_fmap list_to_map]. destruct (decide (sr_id r = k)) as [<-|Hne].
  - rewrite filter_cons_True by done. cbn. rewrite lookup_insert_eq. f_equal.
    rewrite IH by done. by apply by_id_None in Hni as ->.
  - rewrite filter_cons_False by done. rewrite IH by done. cbn. by rewrite lookup_insert_ne.
Qed.

Lemma by_id_map f rs :
  (forall r, sr_id (f r) = sr_id r) -> by_id (map f rs) = f <$> by_id rs.
Proof.
  intros Hf. induction rs as [|r rs IH]; [done|]. unfold by_id in *. cbn in *.
  by rewrite IH, Hf, fmap_insert.
Qed.

(** Replacing the record with [r]'s id, if [P] holds of it. *)
Definition replace_if (r : SnapshotRecord) (P : SnapshotRecord -> bool) (r0 : SnapshotRecord)
  : SnapshotRecord :=
  if bool_decide (sr_id r0 = sr_id r) && P r0 then r else r0.

Lemma replace_if_id r P r0 : sr_id (replace_if r P r0) = sr_id r0.
Proof. unfold replace_if. case_match eqn:E; [|done]. apply andb_true_iff in E as [E _]. by apply bool_decide_eq_true in E. Qed.

Lemma replace_if_map r P (m : gmap string SnapshotRecord) :
  (forall k r0, m !! k = Some r0 -> sr_id r0 = k) ->
  replace_if r P <$> m =
  if bool_decide (P <$> m !! sr_id r = Some true) then <[sr_id r := r]> m else m.
Proof.
  intros Hid. apply map_eq. intros k. rewrite lookup_fmap.
  destruct (decide (k = sr_id r)) as [->|Hne].
  - destruct (m !! sr_id r) as [r0|] eqn:E; cbn [fmap option_fmap option_map].
    + unfold replace_if. rewrite bool_decide_eq_true_2 by eauto. destruct (P r0); simpl andb.
      * by rewrite bool_decide_eq_true_2, lookup_insert_eq by done.
      * by rewrite bool_decide_eq_false_2, E by done.
    + by rewrite bool_decide_eq_false_2, E by done.
  - transitivity (m !! k).
    + destruct (m !! k) as [r0|] eqn:E; simpl; [|done]. f_equal. unfold replace_if.
      rewrite bool_decide_eq_false_2; [done|]. rewrite (Hid k r0 E). done.
    + case_match; [by rewrite lookup_insert_ne|done].
Qed.

Lemma table_repr_id t m k r : table_repr t m -> m !! k = Some r -> sr_id r = k.
Proof. intros (rs & -> & Hnd & _ & ->) H. by apply by_id_lookup in H as [_ ?]. Qed.

(** An update that keeps ids maps a represented table to a represented one. *)
Lemma table_repr_replace rs r P :
  NoDup (map sr_id rs) -> Forall valid_record rs -> valid_record r ->
  table_repr (map to_db_tuple (map (replace_if r P) rs))
    (if bool_decide (P <$> by_id rs !! sr_id r = Some true)
     then <[sr_id r := r]> (by_id rs) else by_id rs).
Proof.
  intros Hnd Hv Hr. exists (map (replace_if r P) rs). split; [done|]. split; [|split].
  - rewrite map_map. erewrite map_ext; [done|]. intros r0. apply replace_if_id.
  - clear Hnd. induction Hv as [|r0 rs Hr0 _ IH]; constructor; [|done]. unfold replace_if. by case_match.
  - rewrite by_id_map by apply replace_if_id. symmetry. apply replace_if_map.
    intros k r0 H. by apply by_id_lookup in H as [_ ?].
Qed.

Lemma map_rows_replace rs r (P : Row -> Prop) `{!forall x, Decision (P x)} (Q : SnapshotRecord -> bool) :
  (forall r0, P (to_db_tuple r0) <-> sr_id r0 = sr_id r /\ Q r0 = true) ->
  map (fun row => if decide (P row) then to_db_tuple r else row) (map to_db_tuple rs) =
  map to_db_tuple (map (replace_if r Q) rs).
Proof.
  intros HPQ. rewrite !map_map. apply map_ext. intros r0. unfold replace_if.
  destruct (decide (P (to_db_tuple r0))) as [HP|HP]; rewrite HPQ in HP.
  - destruct HP as [Hid HQ]. by rewrite bool_decide_eq_true_2, HQ.
  - case_match eqn:E; [|done]. rewrite andb_true_iff, bool_decide_eq_true in E. done.
Qed.

Lemma where_clause_db q r : where_clause q (to_db_tuple r) = query_matches q r.
Proof.
  unfold where_clause, query_matches. simpl.
  assert (forall s b, (if (s =? "")%string then true else b) = (s =? "")%string || b) as Hif
    by (intros s b; by destruct (s =? "")%string).
  destruct (q_source_sandbox_id q) as [s|]; rewrite ?Hif; f_equal;
    (destruct (q_states q) as [|s' l]; [done|]; by rewrite (bool_decide_eq_false_2 (s' :: l = []))).
Qed.

Lemma row_cmp_db a b :
  valid_record a -> valid_record b -> row_cmp (to_db_tuple a) (to_db_tuple b) = record_cmp a b.
Proof.
  intros (Ha & _) (Hb & _). unfold row_cmp, record_cmp. simpl. by rewrite text_cmp_isoformat.
Qed.

#[global] Instance text_comparison : Comparison text_cmp.
Proof. apply (proj_comparison lex_cmp chars). apply _. Qed.

#[global] Instance row_comparison : Comparison row_cmp.
Proof.
  apply (and_then_comparison (fun a b => text_cmp (row_created_at a) (row_created_at b))
           (fun a b => text_cmp (row_id a) (row_id b))); apply (proj_comparison text_cmp); apply _.
Qed.

#[global] Instance row_before_total : Total row_before.
Proof.
  intros a b. unfold row_before. rewrite (cmp_opp (cmp := row_cmp) a b).
  by destruct (row_cmp a b); [left|right|left].
Qed.

#[global] Instance row_before_trans : Transitive row_before.
Proof. intros a b c. apply not_lt_trans. apply _. Qed.

(** A sorted selection of rows is the image of a sorted selection of records. *)
Lemma sorted_rows_records rs :
  Forall valid_record rs ->
  exists all, all ≡ₚ rs /\ StronglySorted newest_first all /\
              merge_sort row_before (map to_db_tuple rs) = map to_db_tuple all.
Proof.
  intros Hv. pose proof (merge_sort_Permutation row_before (map to_db_tuple rs)) as Hp.
  pose proof (StronglySorted_merge_sort row_before (map to_db_tuple rs)) as Hs.
  destruct (Permutation_map_inv _ _ Hp) as (all & Heq & Hall).
  exists all. rewrite Heq in Hs |- *. split; [by symmetry|]. split; [|done].
  assert (Forall valid_record all) as Hva by (by rewrite <- Hall).
  clear -Hs Hva. induction Hva as [|r all Hr Hall IH]; [constructor|].
  cbn [map] in Hs. inversion Hs as [|? ? Hs' Hf]; subst. constructor; [auto|].
  clear -Hf Hr Hall. induction Hall as [|r' all Hr' _ IH]; [constructor|].
  inversion Hf as [|? ? Hb Hf']; subst. constructor; [|auto].
  unfold newest_first. by rewrite <- row_cmp_db.
Qed.

Lemma Forall_filter_keep {A} (P Q : A -> Prop) `{!forall x, Decision (P x)} l :
  Forall Q l -> Forall Q (filter P l).
Proof. rewrite !Forall_forall. intros HQ x Hx. apply list_elem_of_filter in Hx. naive_solver. Qed.

Lemma sql_list_spec rs q :
  Forall valid_record rs ->
  exists all, all ≡ₚ filter (fun r => query_matches q r = true) rs /\
    StronglySorted newest_first all /\
    sql_count q (map to_db_tuple rs) = Z.of_nat (length all) /\
    forall p, sql_rows (with_page p q) (map to_db_tuple rs) = Ok (window (with_page p q) all).
Proof.
  intros Hv.
  assert (filter (fun row => where_clause q row = true) (map to_db_tuple rs) =
          map to_db_tuple (filter (fun r => query_matches q r = true) rs)) as Hf.
  { rewrite filter_map_db. f_equal. apply list_filter_iff. intros r. by rewrite where_clause_db. }
  destruct (sorted_rows_records (filter (fun r => query_matches q r = true) rs))
    as (all & Hp & Hs & Heq); [by apply Forall_filter_keep|].
  exists all. split; [done|]. split; [done|]. split.
  - unfold sql_count. by rewrite Hf, length_map, Hp.
  - intros p. unfold sql_rows.
    change (where_clause (with_page p q)) with (where_clause q). rewrite Hf, Heq.
    rewrite <- fmap_drop, <- fmap_take. apply rows_roundtrip.
    apply Forall_take, Forall_drop. rewrite Hp. by apply Forall_filter_keep.
Qed.

Lemma exists_has_id rs k : Exists (has_id k) (map to_db_tuple rs) <-> k ∈ map sr_id rs.
Proof.
  rewrite Exists_exists. unfold has_id. split.
  - intros (row & (r & -> & Hr)%list_elem_of_fmap & <-). apply list_elem_of_fmap. by exists r.
  - intros (r & -> & Hr)%list_elem_of_fmap. exists (to_db_tuple r). split; [|done].
    apply list_elem_of_fmap. by exists r.
Qed.

Lemma by_id_cons r rs : by_id (r :: rs) = <[sr_id r := r]> (by_id rs).
Proof. done. Qed.

Lemma by_id_snoc rs r : sr_id r ∉ map sr_id rs -> by_id (rs ++ [r]) = <[sr_id r := r]> (by_id rs).
Proof.
  intros H. unfold by_id. rewrite fmap_app. cbn. rewrite list_to_map_snoc; [done|].
  by rewrite by_id_keys.
Qed.

Lemma by_id_delete rs k :
  NoDup (map sr_id rs) -> by_id (filter (fun r => sr_id r <> k) rs) = delete k (by_id rs).
Proof.
  induction rs as [|r rs IH]; intros Hnd; [symmetry; apply delete_empty|].
  inversion Hnd; subst. rewrite by_id_cons. destruct (decide (sr_id r = k)) as [<-|Hne].
  - rewrite filter_cons_False by tauto. rewrite IH by done. by rewrite delete_insert_eq.
  - rewrite filter_cons_True by done. rewrite by_id_cons, IH by done. by rewrite delete_insert_ne.
Qed.

Lemma sql_create_law t m r : table_repr t m -> valid_record r ->
  match sql_create r t with
  | Ok t' => m !! sr_id r = None /\ table_repr t' (<[sr_id r := r]> m)
  | Raise e => is_Some (m !! sr_id r) /\ is_SException e = true
  end.
Proof.
  intros (rs & -> & Hnd & Hv & ->) Hr. unfold sql_create.
  case_decide as He; rewrite exists_has_id in He.
  - split; [|done]. destruct (by_id rs !! sr_id r) eqn:E; [done|]. by apply by_id_None in E.
  - split; [by apply by_id_None|]. exists (rs ++ [r])%list. split; [by rewrite map_app|].
    split; [|split; [apply Forall_app_2; [done|by constructor]|by rewrite by_id_snoc]].
    rewrite map_app. apply NoDup_app. split_and!; [done| |apply NoDup_singleton].
    intros x Hx Hx'%list_elem_of_singleton. by subst.
Qed.

Lemma sql_get_law t m k : table_repr t m -> sql_get k t = Ok (m !! k).
Proof.
  intros (rs & -> & Hnd & Hv & ->). unfold sql_get. rewrite filter_map_db.
  rewrite (list_filter_iff (fun r => has_id k (to_db_tuple r)) (fun r => sr_id r = k)) by done.
  rewrite filter_id by done. destruct (by_id rs !! k) as [r|] eqn:E; [|done]. simpl.
  rewrite row_roundtrip_ok; [done|]. apply by_id_lookup in E as [Hr _]; [|done].
  rewrite Forall_forall in Hv. by apply Hv.
Qed.

Lemma sql_list_law t m q : table_repr t m ->
  exists all, all ≡ₚ filter (fun r => query_matches q r = true) (map_to_list m).*2 /\
    StronglySorted newest_first all /\
    sql_count q t = Z.of_nat (length all) /\
    forall p, sql_rows (with_page p q) t = Ok (window (with_page p q) all).
Proof.
  intros (rs & -> & Hnd & Hv & ->). destruct (sql_list_spec rs q Hv) as (all & Hp & Hrest).
  exists all. split; [|done]. rewrite Hp. apply filter_Permutation. by rewrite by_id_values.
Qed.

Lemma sql_update_law t m r : table_repr t m -> valid_record r ->
  table_repr (sql_update r t)
    (if decide (is_Some (m !! sr_id r)) then <[sr_id r := r]> m else m).
Proof.
  intros (rs & -> & Hnd & Hv & ->) Hr. unfold sql_update.
  rewrite (map_rows_replace rs r (fun row => row_id row = sr_id r) (fun _ => true))
    by (intros r0; simpl; tauto).
  pose proof (table_repr_replace rs r (fun _ => true) Hnd Hv Hr) as H.
  by destruct (by_id rs !! sr_id r).
Qed.

Lemma hits_db r s r0 :
  hits r s (to_db_tuple r0) <-> sr_id r0 = sr_id r /\ bool_decide (sr_state r0 = s) = true.
Proof.
  unfold hits. simpl. rewrite bool_decide_eq_true. split; [|naive_solver].
  by intros [? ?%state_value_inj].
Qed.

Lemma sql_update_if_law t m r s : table_repr t m -> valid_record r ->
  let hit := bool_decide (sr_state <$> m !! sr_id r = Some s) in
  (sql_update_if_state r s t).1 = hit /\
  table_repr (sql_update_if_state r s t).2 (if hit then <[sr_id r := r]> m else m).
Proof.
  intros (rs & -> & Hnd & Hv & ->) Hr. unfold sql_update_if_state. simpl.
  set (Q := fun r0 => bool_decide (sr_state r0 = s)).
  assert (sr_state <$> by_id rs !! sr_id r = Some s <-> Q <$> by_id rs !! sr_id r = Some true) as Hhit.
  { unfold Q. destruct (by_id rs !! sr_id r) as [r0|]; [|done]. simpl.
    split; intros [= H]; f_equal; [by apply bool_decide_eq_true|by apply bool_decide_eq_true in H]. }
  rewrite (bool_decide_ext _ _ Hhit). split.
  - rewrite filter_map_db, length_map.
    rewrite (list_filter_iff (fun r0 => hits r s (to_db_tuple r0))
               (fun r0 => Q r0 = true /\ sr_id r0 = sr_id r))
      by (intros r0; rewrite hits_db; unfold Q; tauto).
    rewrite <- list_filter_filter, filter_id by done.
    destruct (by_id rs !! sr_id r) as [r0|]; [|done]. simpl.
    destruct (Q r0) eqn:E; [by rewrite filter_cons_True|by rewrite filter_cons_False by congruence].
  - rewrite (map_rows_replace rs r _ Q (hits_db r s)). by apply table_repr_replace.
Qed.

Lemma sql_delete_law t m k : table_repr t m -> table_repr (sql_delete k t) (delete k m).
Proof.
  intros (rs & -> & Hnd & Hv & ->). exists (filter (fun r => sr_id r <> k) rs).
  unfold sql_delete. rewrite filter_map_db. split; [done|]. split; [|split].
  - clear -Hnd. induction rs as [|r rs IH]; [constructor|]. inversion Hnd; subst.
    destruct (decide (sr_id r = k)); [rewrite filter_cons_False by tauto; auto|].
    rewrite filter_cons_True by done. constructor; [|auto].
    intros (r' & Heq & [_ Hr']%list_elem_of_filter)%list_elem_of_fmap.
    match goal with Hn : _ ∉ _ |- _ => apply Hn end. apply list_elem_of_fmap. eauto.
  - by apply Forall_filter_keep.
  - by rewrite by_id_delete.
Qed.

#[global] Instance SQLite_laws : SnapshotRepositoryLaws Table := {|
  repr := table_repr;
  repr_id := table_repr_id;
  law_create := sql_create_law;
  law_get := sql_get_law;
  law_list := sql_list_law;
  law_update := sql_update_law;
  law_update_if := sql_update_if_law;
  law_delete := sql_delete_law
|}.

(** ** Properties *)

(** Storing a record in the text columns of the table and reading the row
    back gives the record: no image name, however odd its characters, and no
    instant is changed by the JSON and ISO encodings. *)
Theorem record_roundtrip r : valid_record r -> row_to_record (to_db_tuple r) = Ok r.
Proof. exact (row_roundtrip_ok r). Qed.

(** C40: listing page after page shows every matching record exactly once,
    newest first: the pages' concatenation is a chronologically sorted
    permutation of the matching records, although the database compares the
    instants as text, and the reported total is their number. *)
Theorem list_pages_complete (t : Table) m q n :
  table_repr t m -> 1 <= q_page_size q -> sql_count q t <= Z.of_nat n * q_page_size q ->
  exists pages all,
    (forall i page, pages !! i = Some page ->
       sql_rows (with_page (Z.of_nat i + 1) q) t = Ok page) /\
    length pages = n /\ concat pages = all /\
    all ≡ₚ filter (fun r => query_matches q r = true) (map_to_list m).*2 /\
    StronglySorted newest_first all /\
    sql_count q t = Z.of_nat (length all).
Proof.
  intros Ht Hs Hn. destruct (sql_list_law t m q Ht) as (all & Hp & Hsort & Hc & Hrows).
  set (s := Z.to_nat (q_page_size q)).
  exists (map (fun i => take s (drop (i * s) all)) (seq 0 n)), all.
  split_and!; [|by rewrite length_map, length_seq| |done|done|done].
  - intros i page Hi. rewrite Hrows. f_equal.
    apply list_lookup_fmap_Some in Hi as (j & -> & [-> Hj]%lookup_seq).
    unfold window, page_offset, page_size_of, s. simpl. f_equal; [lia|]. f_equal. nia.
  - rewrite concat_windows. apply take_ge. unfold s. nia.
Qed.

Definition demo_instant (us : Z) : datetime := mkDatetime 2025 6 1 12 0 0 us.

Definition demo_record (id : string) (s : SnapshotState) (us : Z) : SnapshotRecord :=
  mkRecord id "sb-1" (Some "team-a") None None {| rc_image := Some "reg/img:1" |}
    (mkStatus s None None (Some (demo_instant us))) (demo_instant us) (demo_instant us).

Definition demo_records : list SnapshotRecord :=
  [demo_record "a" READY 0; demo_record "b" FAILED 250; demo_record "c" READY 30].

Definition demo_query : SnapshotListQuery := mkQuery 1 2 None None [] (Some "team-a").

Lemma demo_records_valid : Forall valid_record demo_records.
Proof.
  repeat constructor; intros d [= <-]; reflexivity.
Qed.

Lemma demo_table_repr : table_repr (map to_db_tuple demo_records) (by_id demo_records).
Proof.
  exists demo_records. split_and!; [done| |apply demo_records_valid|done].
  repeat constructor; set_solver.
Qed.

Lemma list_pages_witness :
  sql_rows demo_query (map to_db_tuple demo_records)
    = Ok [demo_record "b" FAILED 250; demo_record "c" READY 30] /\
  exists pages all,
    (forall i page, pages !! i = Some page ->
       sql_rows (with_page (Z.of_nat i + 1) demo_query) (map to_db_tuple demo_records) = Ok page) /\
    length pages = 2%nat /\ concat pages = all /\
    all ≡ₚ filter (fun r => query_matches demo_query r = true)
             (map_to_list (by_id demo_records)).*2 /\
    StronglySorted newest_first all /\
    sql_count demo_query (map to_db_tuple demo_records) = Z.of_nat (length all).
Proof.
  split; [vm_compute; reflexivity|].
  apply (list_pages_complete (map to_db_tuple demo_records) (by_id demo_records) demo_query 2).
  - exact demo_table_repr.
  - simpl. lia.
  - vm_compute. discriminate.
Defined.

(** The image name has a quote, a backslash, a line feed and a letter outside
    ASCII. *)
Definition odd_record : SnapshotRecord :=
  mkRecord "x" "sb-1" None (Some "n") None
    {| rc_image := Some (of_chars [quote; "\"%char; ascii_of_N 10; ascii_of_N 233]) |}
    (mkStatus READY (Some "r") None (Some (demo_instant 7))) (demo_instant 0) (demo_instant 7).

Lemma record_roundtrip_witness :
  valid_record odd_record /\ row_to_record (to_db_tuple odd_record) = Ok odd_record.
Proof.
  assert (valid_record odd_record) as H by (split_and!; [done|done|by intros d [= <-]]).
  split; [exact H|]. apply (record_roundtrip odd_record). exact H.
Defined.
