(* ===== verification/SnapshotService.v ===== *)
(** * Snapshot service

    [server/opensandbox_server/services/snapshot_service.py],
    [PersistedSnapshotService]: accepting, listing, reading and deleting
    snapshots, the worker that runs a snapshot, and the recovery at start-up.

    An operation is a [prog]: a tree of commands, one per call that leaves the
    service (repository, snapshot runtime, sandbox service, executor, clock,
    uuid), so that operations of different threads interleave at exactly those
    calls.  The repository is any implementation of [SnapshotRepository]; what
    the runtime and the sandbox service answer is arbitrary.  The current tenant
    is an argument of the request handlers.  Log lines and the waiting of
    [close] for running workers are not modelled. *)

From Stdlib Require Import ZArith Lia String Sorted.
From stdpp Require Import base numbers strings gmap sorting list.
From S2P Require Import Prelude PyString Regex Validators PyText SnapshotRepo.

Open Scope string_scope.
Open Scope Z_scope.

(** ** Data *)

Record SnapshotRuntimeStatus := mkRuntimeStatus {
  rs_state : SnapshotState;
  rs_image : option string;
  rs_reason : option string;
  rs_message : option string
}.

(** The object [get_sandbox] returns, as far as [_sandbox_state] looks at it: a
    dict or an object, whose status is one or the other too. *)
Inductive status_obj := StatusDict (state : option string) | StatusObj (state : option string).
Inductive sandbox_obj :=
  | SandboxDict (status : option status_obj)
  | SandboxObj (status : option status_obj).

Record SnapshotStatus := mkSnapshotStatus {
  ss_state : string;
  ss_reason : option string;
  ss_message : option string;
  ss_last_transition_at : option datetime
}.

Record Snapshot := mkSnapshot {
  sn_id : string;
  sn_sandbox_id : string;
  sn_name : option string;
  sn_status : SnapshotStatus;
  sn_created_at : datetime
}.

Record PaginationRequest := { pr_page : Z; pr_page_size : Z }.
Record PaginationInfo := {
  pi_page : Z; pi_page_size : Z; pi_total_items : Z; pi_total_pages : Z; pi_has_next_page : bool
}.

Record ListSnapshotsRequest := {
  lr_sandbox_id : option string;
  lr_name : option string;
  lr_state : option (list string);
  lr_pagination : option PaginationRequest
}.

Record ListSnapshotsResponse := {
  ls_items : list Snapshot;
  ls_pagination : PaginationInfo
}.

(** ** Programs *)

Inductive cmd :=
  | Now
  | Uuid4
  | GetSandbox (sandbox_id : string)
  | SupportsCreate
  | RtCreate (snapshot_id sandbox_id : string) (namespace : option string)
  | RtDelete (snapshot_id : string) (image namespace : option string)
  | RtInspect (snapshot_id : string) (image namespace : option string)
  | RepoCreate (record : SnapshotRecord)
  | RepoGet (snapshot_id : string)
  | RepoCount (query : SnapshotListQuery)
  | RepoRows (query : SnapshotListQuery)
  | RepoUpdateIf (record : SnapshotRecord) (expected : SnapshotState)
  | RepoDelete (snapshot_id : string)
  | Submit (record : SnapshotRecord)
  | Shutdown.

Definition value (c : cmd) : Type :=
  match c with
  | Now => datetime
  | Uuid4 => string
  | GetSandbox _ => sandbox_obj
  | SupportsCreate => bool
  | RtCreate _ _ _ => option SnapshotRuntimeStatus
  | RtInspect _ _ _ => SnapshotRuntimeStatus
  | RepoGet _ => option SnapshotRecord
  | RepoCount _ => Z
  | RepoRows _ => list SnapshotRecord
  | RepoUpdateIf _ _ => bool
  | RtDelete _ _ _ | RepoCreate _ | RepoDelete _ | Submit _ | Shutdown => unit
  end.

Definition ans (c : cmd) : Type := res serr (value c).

Inductive prog (A : Type) : Type :=
  | Ret (a : A)
  | Throw (e : serr)
  | Do (c : cmd) (k : ans c -> prog A).
Arguments Ret {A} a.
Arguments Throw {A} e.
Arguments Do {A} c k.

Fixpoint pbind {A B} (p : prog A) (f : A -> prog B) : prog B :=
  match p with
  | Ret a => f a
  | Throw e => Throw e
  | Do c k => Do c (fun a => pbind (k a) f)
  end.

(** [try: p except Exception as e: h(e)] *)
Fixpoint pcatch {A} (p : prog A) (h : serr -> prog A) : prog A :=
  match p with
  | Ret a => Ret a
  | Throw e => if is_SException e then h e else Throw e
  | Do c k => Do c (fun a => pcatch (k a) h)
  end.

Definition call (c : cmd) : prog (value c) :=
  Do c (fun a => match a with Ok v => Ret v | Raise e => Throw e end).

Declare Scope snap_scope.
Delimit Scope snap_scope with snap.
Notation "x <- p ;; q" := (pbind p (fun x => q))
  (at level 100, p at next level, right associativity) : snap_scope.
Notation "p ;; q" := (pbind p (fun _ => q)) (at level 100, right associativity) : snap_scope.
Open Scope snap_scope.

Definition http_error {A} (status : Z) (code : string) : prog A :=
  Throw (SHttp (HTTPException status code)).

Definition NOT_FOUND {A} : prog A := http_error 404 "SNAPSHOT::NOT_FOUND".

(** ** Records from records *)

(** The fields the code copies into every new version of a record. *)
Definition next_version (r : SnapshotRecord) (config : SnapshotRestoreConfig)
    (state : SnapshotState) (reason message : option string) (now : datetime) : SnapshotRecord :=
  mkRecord (sr_id r) (sr_source_sandbox_id r) (sr_namespace r) (sr_name r) (sr_description r)
    config (mkStatus state reason message (Some now)) (sr_created_at r) now.

(** [not image] *)
Definition no_image (image : option string) : bool :=
  match image with Some i => (i =? "")%string | None => true end.

Definition build_runtime_status_record (now : datetime) (r : SnapshotRecord)
    (s : SnapshotRuntimeStatus) : option SnapshotRecord :=
  match rs_state s with
  | READY =>
      if no_image (rs_image s) then
        Some (next_version r (sr_restore_config r) FAILED
                (Some "snapshot_runtime_missing_image")
                (Some "Runtime reported Ready without a snapshot image.") now)
      else
        Some (next_version r {| rc_image := rs_image s |} READY (rs_reason s) (rs_message s) now)
  | FAILED => Some (next_version r (sr_restore_config r) FAILED (rs_reason s) (rs_message s) now)
  | _ => None
  end.

Definition to_snapshot_response (r : SnapshotRecord) : Snapshot :=
  mkSnapshot (sr_id r) (sr_source_sandbox_id r) (sr_name r)
    (mkSnapshotStatus (state_value (sr_state r)) (st_reason (sr_status r))
       (st_message (sr_status r)) (st_last_transition_at (sr_status r)))
    (sr_created_at r).

Definition status_state (s : option status_obj) : option string :=
  match s with
  | Some (StatusDict state) | Some (StatusObj state) => state
  | None => None
  end.

Definition sandbox_state (sandbox : sandbox_obj) : option string :=
  match sandbox with
  | SandboxDict status => status_state status
  | SandboxObj status => status_state status
  end.

(** ** Operations *)

Definition cleanup_runtime_artifact (snapshot_id : string) (image namespace : option string)
  : prog unit :=
  if no_image image then Ret tt
  else pcatch (call (RtDelete snapshot_id image namespace)) (fun _ => Ret tt).

Definition complete_snapshot (record : SnapshotRecord) (status : SnapshotRuntimeStatus)
  : prog unit :=
  current <- call (RepoGet (sr_id record)) ;;
  match current with
  | None => cleanup_runtime_artifact (sr_id record) (rs_image status) (sr_namespace record)
  | Some current =>
      if decide (sr_state current = DELETING) then
        cleanup_runtime_artifact (sr_id current) (rs_image status) (sr_namespace current) ;;
        call (RepoDelete (sr_id current))
      else if decide (sr_state current <> CREATING) then Ret tt
      else
        now <- call Now ;;
        match build_runtime_status_record now current status with
        | None => Ret tt
        | Some updated => (call (RepoUpdateIf updated CREATING) ;; Ret tt)
        end
  end.

(** [str(exc)].  No [HTTPException] of the modelled code reaches a handler that
    asks for it; what the runtime raises is an [SExc] with its text. *)
Definition str_serr (e : serr) : string :=
  match e with SHttp _ => "" | SExc t => t | SBase t => t end.

Definition create_snapshot_worker (record : SnapshotRecord) : prog unit :=
  outcome <- pcatch
    (s <- call (RtCreate (sr_id record) (sr_source_sandbox_id record) (sr_namespace record)) ;;
     Ret (inl s))
    (fun e => Ret (inr (mkRuntimeStatus FAILED None (Some "snapshot_runtime_failed")
                          (Some (str_serr e))))) ;;
  match outcome with
  | inr failed => complete_snapshot record failed
  | inl None =>
      complete_snapshot record
        (mkRuntimeStatus FAILED None (Some "snapshot_runtime_missing_result")
           (Some "Snapshot runtime did not return a final status."))
  | inl (Some status) => complete_snapshot record status
  end.

Definition ensure_source_sandbox_running (sandbox : sandbox_obj) : prog unit :=
  if decide (sandbox_state sandbox = Some "Running") then Ret tt
  else http_error 409 "SNAPSHOT::INVALID_SOURCE_STATE".

Definition create_snapshot (tenant : option string) (sandbox_id : string) (name : option string)
  : prog Snapshot :=
  sandbox <- call (GetSandbox sandbox_id) ;;
  ensure_source_sandbox_running sandbox ;;
  supported <- call SupportsCreate ;;
  if negb supported then http_error 501 "SNAPSHOT::NOT_IMPLEMENTED"
  else
    now <- call Now ;;
    id <- call Uuid4 ;;
    let record :=
      mkRecord id sandbox_id tenant name None {| rc_image := None |}
        (mkStatus CREATING (Some "snapshot_accepted") (Some "Snapshot creation accepted.")
           (Some now)) now now in
    call (RepoCreate record) ;;
    call (Submit record) ;;
    Ret (to_snapshot_response record).

Definition default_pagination : PaginationRequest := {| pr_page := 1; pr_page_size := 20 |}.

Definition list_query (tenant : option string) (request : ListSnapshotsRequest)
  : SnapshotListQuery :=
  let pagination := default default_pagination (lr_pagination request) in
  mkQuery (pr_page pagination) (pr_page_size pagination) (lr_sandbox_id request)
    (lr_name request) (default [] (lr_state request)) tenant.

(** [repository.list(query)] *)
Definition repository_list (q : SnapshotListQuery) : prog (list SnapshotRecord * Z) :=
  total <- call (RepoCount q) ;; items <- call (RepoRows q) ;; Ret (items, total).

Definition list_snapshots (tenant : option string) (request : ListSnapshotsRequest)
  : prog ListSnapshotsResponse :=
  let pagination := default default_pagination (lr_pagination request) in
  result <- repository_list (list_query tenant request) ;;
  let total := result.2 in
  let size := pr_page_size pagination in
  let total_pages := if 0 <? total then (total + size - 1) / size else 0 in
  Ret {| ls_items := map to_snapshot_response result.1;
         ls_pagination := {| pi_page := pr_page pagination; pi_page_size := size;
                             pi_total_items := total; pi_total_pages := total_pages;
                             pi_has_next_page := pr_page pagination <? total_pages |} |}.

Definition verify_tenant_access (tenant : option string) (record : SnapshotRecord) : prog unit :=
  match tenant with
  | None => Ret tt
  | Some ns => if decide (sr_namespace record = Some ns) then Ret tt else NOT_FOUND
  end.

Definition get_snapshot (tenant : option string) (snapshot_id : string) : prog Snapshot :=
  record <- call (RepoGet snapshot_id) ;;
  match record with
  | None => NOT_FOUND
  | Some record => (verify_tenant_access tenant record ;; Ret (to_snapshot_response record))
  end.

Definition mark_snapshot_deleting (record : SnapshotRecord) : prog (option SnapshotRecord) :=
  now <- call Now ;;
  let deleting :=
    next_version record (sr_restore_config record) DELETING (Some "snapshot_delete_requested")
      (Some "Snapshot deletion requested.") now in
  updated <- call (RepoUpdateIf deleting (sr_state record)) ;;
  if updated : bool then Ret (Some deleting)
  else
    current <- call (RepoGet (sr_id record)) ;;
    match current with
    | None => Ret None
    | Some current =>
        if decide (sr_state current = DELETING) then Ret (Some current)
        else http_error 409 "SNAPSHOT::INVALID_STATE"
    end.

Definition delete_snapshot (tenant : option string) (snapshot_id : string) : prog unit :=
  record <- call (RepoGet snapshot_id) ;;
  match record with
  | None => NOT_FOUND
  | Some record =>
      (verify_tenant_access tenant record ;;
       if decide (sr_state record = CREATING) then http_error 409 "SNAPSHOT::INVALID_STATE"
       else
         marked <- (if decide (sr_state record = DELETING) then Ret (Some record)
                    else mark_snapshot_deleting record) ;;
         match marked with
         | None => Ret tt
         | Some record =>
             (call (RtDelete snapshot_id (rc_image (sr_restore_config record))
                      (sr_namespace record)) ;;
              call (RepoDelete snapshot_id))
         end)
  end.

Definition close : prog unit := call Shutdown.

(** ** Recovery *)

Definition SNAPSHOT_RECOVERY_PAGE_SIZE : Z := 200.

Definition recovery_query : SnapshotListQuery :=
  mkQuery 1 SNAPSHOT_RECOVERY_PAGE_SIZE None None [state_value CREATING; state_value DELETING] None.

Definition recover_unfinished_snapshot (record : SnapshotRecord) : prog bool :=
  if decide (sr_state record = CREATING) then
    status <- call (RtInspect (sr_id record) (rc_image (sr_restore_config record))
                      (sr_namespace record)) ;;
    if decide (rs_state status = CREATING) then (call (Submit record) ;; Ret false)
    else (complete_snapshot record status ;; Ret true)
  else if decide (sr_state record = DELETING) then
    deleted <- pcatch
      (call (RtDelete (sr_id record) (rc_image (sr_restore_config record)) (sr_namespace record)) ;;
       Ret true)
      (fun _ => Ret false) ;;
    if deleted : bool then (call (RepoDelete (sr_id record)) ;; Ret true) else Ret false
  else Ret false.

(** One iteration of the [for] loop; the flag is [progressed]. *)
Definition recover_record (record : SnapshotRecord) (progressed : bool) : prog bool :=
  pcatch
    (p <- recover_unfinished_snapshot record ;; Ret (p || progressed))
    (fun e =>
       complete_snapshot record
         (mkRuntimeStatus FAILED None (Some "snapshot_recovery_failed")
            (Some ("Failed to recover unfinished snapshot: " +:+ str_serr e))) ;;
       Ret true).

Fixpoint recover_page (records : list SnapshotRecord) (progressed : bool) : prog bool :=
  match records with
  | [] => Ret progressed
  | record :: records => (p <- recover_record record progressed ;; recover_page records p)
  end.

(** The [while True] loop, for at most [fuel] passes. *)
Fixpoint recover_unfinished_snapshots (fuel : nat) : prog unit :=
  match fuel with
  | O => Throw (SBase "out of fuel")
  | S fuel =>
      result <- repository_list recovery_query ;;
      match result.1 with
      | [] => Ret tt
      | items =>
          (progressed <- recover_page items false ;;
           if progressed : bool then recover_unfinished_snapshots fuel else Ret tt)
      end
  end.

(** ** The system: threads over one repository *)

Inductive request :=
  | ReqCreate (tenant : option string) (sandbox_id : string) (name : option string)
  | ReqGet (tenant : option string) (snapshot_id : string)
  | ReqList (tenant : option string) (req : ListSnapshotsRequest)
  | ReqDelete (tenant : option string) (snapshot_id : string)
  | ReqClose.

Definition discard_result {A} (p : prog A) : prog unit := p ;; Ret tt.

Definition handle (r : request) : prog unit :=
  match r with
  | ReqCreate tenant sandbox_id name => discard_result (create_snapshot tenant sandbox_id name)
  | ReqGet tenant snapshot_id => discard_result (get_snapshot tenant snapshot_id)
  | ReqList tenant req => discard_result (list_snapshots tenant req)
  | ReqDelete tenant snapshot_id => delete_snapshot tenant snapshot_id
  | ReqClose => close
  end.

Section system.
Context {T : Type} `{SnapshotRepository T}.

(** What the threads share: the repository, the executor's queue and whether
    the executor is shut down.  [b_drawn] holds the uuids drawn so far and
    [b_known] those that were ever inserted. *)
Record base := mkBase {
  b_repo : T;
  b_queue : list SnapshotRecord;
  b_closed : bool;
  b_drawn : gset string;
  b_known : gset string
}.

(** A thread: the rest of its program, and the uuid it drew and has not
    inserted yet. *)
Record thread := mkThread { th_prog : prog unit; th_id : option string }.

Record sys := mkSys { s_base : base; s_threads : list thread }.

Definition set_repo (t : T) (b : base) : base :=
  mkBase t (b_queue b) (b_closed b) (b_drawn b) (b_known b).

(** [serve c a (b, id) (b', id')]: command [c], issued by a thread whose
    pending uuid is [id], may be answered [a].  A repository call can fail with
    an exception that leaves the table as it was. *)
Definition serve (c : cmd) : ans c -> base * option string -> base * option string -> Prop :=
  match c return ans c -> base * option string -> base * option string -> Prop with
  | Now => fun a x x' => x' = x /\ exists d, a = Ok d /\ valid_datetime d = true
  | Uuid4 => fun a x x' =>
      exists id, a = Ok id /\ (id ∉ b_drawn x.1) /\ (id ∉ b_known x.1) /\
        x' = (mkBase (b_repo x.1) (b_queue x.1) (b_closed x.1) ({[id]} ∪ b_drawn x.1)
                (b_known x.1), Some id)
  | SupportsCreate => fun a x x' => x' = x /\ exists v, a = Ok v
  | GetSandbox _ | RtCreate _ _ _ | RtDelete _ _ _ | RtInspect _ _ _ => fun a x x' => x' = x
  | RepoCreate r => fun a x x' =>
      (x' = x /\ exists e, a = Raise e) \/
      match repo_create r (b_repo x.1) with
      | Ok t => a = Ok tt /\
          x' = (mkBase t (b_queue x.1) (b_closed x.1) (b_drawn x.1) ({[sr_id r]} ∪ b_known x.1),
                None)
      | Raise e => a = Raise e /\ x' = x
      end
  | RepoGet k => fun a x x' =>
      x' = x /\ ((exists e, a = Raise e) \/ a = repo_get k (b_repo x.1))
  | RepoCount q => fun a x x' =>
      x' = x /\ ((exists e, a = Raise e) \/ a = Ok (repo_count q (b_repo x.1)))
  | RepoRows q => fun a x x' =>
      x' = x /\ ((exists e, a = Raise e) \/ a = repo_rows q (b_repo x.1))
  | RepoUpdateIf r s => fun a x x' =>
      (x' = x /\ exists e, a = Raise e) \/
      (a = Ok (repo_update_if_state r s (b_repo x.1)).1 /\
       x' = (set_repo (repo_update_if_state r s (b_repo x.1)).2 x.1, x.2))
  | RepoDelete k => fun a x x' =>
      (x' = x /\ exists e, a = Raise e) \/
      (a = Ok tt /\ x' = (set_repo (repo_delete k (b_repo x.1)) x.1, x.2))
  | Submit r => fun a x x' =>
      if b_closed x.1 then x' = x /\ exists e, a = Raise e
      else a = Ok tt /\
           x' = (mkBase (b_repo x.1) (b_queue x.1 ++ [r])%list false (b_drawn x.1) (b_known x.1), x.2)
  | Shutdown => fun a x x' =>
      a = Ok tt /\
      x' = (mkBase (b_repo x.1) (b_queue x.1) true (b_drawn x.1) (b_known x.1), x.2)
  end.

Inductive step : sys -> sys -> Prop :=
  (** a request arrives *)
  | step_request b ths r :
      step (mkSys b ths) (mkSys b (ths ++ [mkThread (handle r) None]))
  (** the executor starts the next task *)
  | step_worker b ths r q :
      b_queue b = r :: q ->
      step (mkSys b ths)
        (mkSys (mkBase (b_repo b) q (b_closed b) (b_drawn b) (b_known b))
           (ths ++ [mkThread (create_snapshot_worker r) None]))
  (** a thread makes its next call *)
  | step_thread b b' ths i c k a id id' :
      ths !! i = Some (mkThread (Do c k) id) ->
      serve c a (b, id) (b', id') ->
      step (mkSys b ths) (mkSys b' (<[i := mkThread (k a) id']> ths))
  (** the process dies and starts again: threads and queue are lost *)
  | step_restart b ths fuel :
      step (mkSys b ths)
        (mkSys (mkBase (b_repo b) [] false (b_drawn b) (b_known b))
           [mkThread (recover_unfinished_snapshots fuel) None]).

End system.
Arguments base T : clear implicits.
Arguments sys T : clear implicits.

(** ** The life cycle of a record *)

(** The fields no operation changes. *)
Definition same_identity (a b : SnapshotRecord) : Prop :=
  sr_id b = sr_id a /\ sr_source_sandbox_id b = sr_source_sandbox_id a /\
  sr_namespace b = sr_namespace a /\ sr_name b = sr_name a /\
  sr_description b = sr_description a /\ sr_created_at b = sr_created_at a.

Definition keeps_config (a b : SnapshotRecord) : Prop :=
  sr_restore_config b = sr_restore_config a.

Definition has_image (r : SnapshotRecord) : Prop :=
  no_image (rc_image (sr_restore_config r)) = false.

(** The transitions of the state machine: a snapshot being created becomes
    ready, with an image, or fails; either is deleted later. *)
Inductive transition (a b : SnapshotRecord) : Prop :=
  | tr_ready : same_identity a b -> sr_state a = CREATING -> sr_state b = READY ->
      has_image b -> transition a b
  | tr_failed : same_identity a b -> sr_state a = CREATING -> sr_state b = FAILED ->
      keeps_config a b -> transition a b
  | tr_deleting : same_identity a b -> sr_state a = READY \/ sr_state a = FAILED ->
      sr_state b = DELETING -> keeps_config a b -> transition a b.

(** What one step may do to the records: insert one in state [CREATING] under
    an id that was never used, move one along the state machine, or remove one
    that is being deleted. *)
Definition lifecycle_step (known : gset string) (m m' : gmap string SnapshotRecord) : Prop :=
  forall k, match m !! k, m' !! k with
            | None, None => True
            | Some a, Some b => a = b \/ transition a b
            | None, Some b => sr_state b = CREATING /\ k ∉ known
            | Some a, None => sr_state a = DELETING
            end.

(** [b] is [a] or a later version of it. *)
Definition evolves (a b : SnapshotRecord) : Prop :=
  a = b \/
  same_identity a b /\ sr_state b <> CREATING /\
  (sr_state a = CREATING \/ (sr_state a <> DELETING /\ sr_state b = DELETING)).

Lemma same_identity_trans a b c : same_identity a b -> same_identity b c -> same_identity a c.
Proof. unfold same_identity. intuition congruence. Qed.

Lemma transition_evolves a b c : evolves a b -> transition b c -> evolves a c.
Proof.
  intros [->|(Hid & Hb & Ha)] Ht; right.
  - destruct Ht as [? ? Hs| ? ? Hs|? Hor Hs]; rewrite Hs; (split; [done|split; [done|]]).
    1,2: by left. destruct Hor as [E|E]; rewrite E; by right.
  - destruct Ht as [Hi Hs|Hi Hs|Hi Hor Hs]; [congruence|congruence|].
    split; [by apply (same_identity_trans a b c)|]. rewrite Hs. split; [done|].
    destruct Ha as [Ha|[Ha Ha']]; [by left|]. destruct Hor; congruence.
Qed.

Lemma evolves_same_state a b : evolves a b -> sr_state a = sr_state b -> a = b.
Proof. intros [->|(_ & Hb & [Ha|[Ha Ha']])] E; [done|congruence|congruence]. Qed.

Lemma evolves_deleting a b : evolves a b -> sr_state a = DELETING -> a = b.
Proof. intros [->|(_ & _ & [Ha|[Ha _]])] E; [done|congruence|congruence]. Qed.

(** ** Reasoning about programs

    [safe K P p Q]: whatever its calls are answered, [p] only asks the
    repository for changes that what it has seen allows, and ends in [Q].  [K]
    are the versions of records it has seen and [P] is its pending uuid. *)

Definition plausible (c : cmd) : ans c -> Prop :=
  match c return ans c -> Prop with
  | Now => fun a => exists d, a = Ok d /\ valid_datetime d = true
  | Uuid4 => fun a => exists id, a = Ok id
  | RepoGet k => fun a => forall r, a = Ok (Some r) -> sr_id r = k /\ valid_record r
  | RepoRows _ => fun a => forall rs, a = Ok rs -> Forall valid_record rs
  | _ => fun _ => True
  end.

Definition learn (K : list SnapshotRecord) (c : cmd) : ans c -> list SnapshotRecord :=
  match c return ans c -> list SnapshotRecord with
  | RepoGet _ => fun a => match a with Ok (Some r) => r :: K | _ => K end
  | RepoRows _ => fun a => match a with Ok rs => (rs ++ K)%list | _ => K end
  | RepoCreate r => fun a => match a with Ok _ => r :: K | _ => K end
  | RepoUpdateIf r _ => fun a => match a with Ok true => r :: K | _ => K end
  | _ => fun _ => K
  end.

Definition pending (P : option string) (c : cmd) : ans c -> option string :=
  match c return ans c -> option string with
  | Uuid4 => fun a => match a with Ok id => Some id | _ => P end
  | RepoCreate _ => fun a => match a with Ok _ => None | _ => P end
  | _ => fun _ => P
  end.

Definition may (K : list SnapshotRecord) (P : option string) (c : cmd) : Prop :=
  match c with
  | RepoCreate r => P = Some (sr_id r) /\ sr_state r = CREATING /\ valid_record r
  | RepoUpdateIf r s => exists r0, r0 ∈ K /\ sr_state r0 = s /\ transition r0 r /\ valid_record r
  | RepoDelete k => exists r0, r0 ∈ K /\ sr_id r0 = k /\ sr_state r0 = DELETING
  | Submit r => r ∈ K
  | _ => True
  end.

Fixpoint safe {A} (K : list SnapshotRecord) (P : option string) (p : prog A)
    (Q : list SnapshotRecord -> option string -> res serr A -> Prop) : Prop :=
  match p with
  | Ret a => Q K P (Ok a)
  | Throw e => Q K P (Raise e)
  | Do c k => may K P c /\
      forall a, plausible c a -> safe (learn K c a) (pending P c a) (k a) Q
  end.

Lemma safe_bind {A B} (p : prog A) (f : A -> prog B) K P Q :
  safe K P p (fun K P r => match r with
                           | Ok a => safe K P (f a) Q
                           | Raise e => Q K P (Raise e)
                           end) ->
  safe K P (pbind p f) Q.
Proof.
  revert K P. induction p as [a|e|c k IH]; intros K P; simpl; [done|done|].
  intros [Hm Hk]. split; [done|]. intros a Ha. by apply IH, Hk.
Qed.

Lemma safe_catch {A} (p : prog A) h K P Q :
  safe K P p (fun K P r => match r with
                           | Ok a => Q K P (Ok a)
                           | Raise e => if is_SException e then safe K P (h e) Q else Q K P (Raise e)
                           end) ->
  safe K P (pcatch p h) Q.
Proof.
  revert K P. induction p as [a|e|c k IH]; intros K P; simpl; [done|by destruct (is_SException e)|].
  intros [Hm Hk]. split; [done|]. intros a Ha. by apply IH, Hk.
Qed.

Lemma safe_mono {A} (p : prog A) (Q R : list SnapshotRecord -> option string -> res serr A -> Prop) K P :
  safe K P p Q -> (forall K P r, Q K P r -> R K P r) -> safe K P p R.
Proof.
  intros Hp HQR. revert K P Hp. induction p as [a|e|c k IH]; intros K P; simpl; auto.
  intros [Hm Hk]. split; [done|]. intros a Ha. by apply IH, Hk.
Qed.

Lemma safe_call c K P Q :
  may K P c -> (forall a, plausible c a -> Q (learn K c a) (pending P c a) a) ->
  safe K P (call c) Q.
Proof. intros Hm HQ. split; [done|]. intros [v|e] Ha; by apply HQ. Qed.

(** The program forgot nothing and has the same pending uuid. *)
Definition grown {A} (K : list SnapshotRecord) (P : option string)
    (K' : list SnapshotRecord) (P' : option string) (_ : res serr A) : Prop :=
  K ⊆ K' /\ P' = P.

Lemma grown_refl {A} K P (r : res serr A) : grown K P K P r.
Proof. done. Qed.

Ltac safe_step :=
  lazymatch goal with
  | |- safe _ _ (pbind _ _) _ => apply safe_bind
  | |- safe _ _ (pcatch _ _) _ => apply safe_catch
  | |- safe _ _ (call _) _ => 
      let v := fresh "v" in let e := fresh "e" in let H := fresh "Ha" in
      apply safe_call; [try exact I|intros [v|e] H]
  | |- safe _ _ (Ret _) _ => cbn [safe]
  | |- safe _ _ (Throw _) _ => cbn [safe]
  | |- safe _ _ NOT_FOUND _ => cbn [safe NOT_FOUND http_error]
  | |- safe _ _ (http_error _ _) _ => cbn [safe http_error]
  | |- safe _ _ (if ?b then _ else _) _ => destruct b eqn:?
  | |- safe _ _ (match ?b with _ => _ end) _ => destruct b eqn:?
  end.

Lemma valid_next_version r config s reason message now :
  valid_record r -> valid_datetime now = true ->
  valid_record (next_version r config s reason message now).
Proof. intros (Hc & _ & _) Hn. split_and!; [done|done|]. by intros d [= <-]. Qed.

Lemma next_version_identity r config s reason message now :
  same_identity r (next_version r config s reason message now).
Proof. done. Qed.

(** What the runtime reported moves a record being created along the state
    machine. *)
Lemma build_transition now r s r' :
  build_runtime_status_record now r s = Some r' -> sr_state r = CREATING ->
  transition r r' /\
  exists config state reason message, r' = next_version r config state reason message now.
Proof.
  unfold build_runtime_status_record. intros Hb Hr. split.
  - destruct (rs_state s); try done; [destruct (no_image (rs_image s)) eqn:E|]; injection Hb as <-;
      first [by apply tr_failed|by apply tr_ready].
  - destruct (rs_state s); try done; [destruct (no_image (rs_image s))|]; injection Hb as <-; eauto.
Qed.

Lemma safe_cleanup k image ns K P :
  safe K P (cleanup_runtime_artifact k image ns) (grown K P).
Proof.
  unfold cleanup_runtime_artifact. safe_step; [done|]. do 2 safe_step; [done|]. by case_match.
Qed.

Lemma safe_complete r s K P : safe K P (complete_snapshot r s) (grown K P).
Proof.
  unfold complete_snapshot. do 2 safe_step; [|done].
  cbn [learn pending]. destruct v as [cur|]; [|apply safe_cleanup].
  destruct (Ha cur eq_refl) as [Hid Hv].
  assert (K ⊆ cur :: K) as HK by set_solver.
  case_decide as Hd.
  - safe_step. eapply safe_mono; [apply safe_cleanup|]. intros K' P' [u|e] [Hk ->]; [|by split; [set_solver|]].
    safe_step; [|by split; [set_solver|]|by split; [set_solver|]].
    exists cur. set_solver.
  - case_decide as Hc; [done|]. do 2 safe_step; [|by destruct Ha0 as (? & ? & _)].
    destruct Ha0 as (d & [= <-] & Hd').
    safe_step; [|done]. do 2 safe_step; [| |done].
    + destruct (build_transition v cur s _ Heqo Hc) as (Ht & c & st & rs & ms & ->).
      exists cur. split; [set_solver|]. split; [done|]. split; [done|]. by apply valid_next_version.
    + safe_step. cbn [learn]. split; [|done]. destruct v0; set_solver.
Qed.

Lemma safe_worker r K P : safe K P (create_snapshot_worker r) (grown K P).
Proof.
  unfold create_snapshot_worker. do 4 safe_step.
  - safe_step. destruct v; apply safe_complete.
  - case_match; [|done]. safe_step. apply safe_complete.
Qed.

Definition ended {A} (K : list SnapshotRecord) (P : option string) (_ : res serr A) : Prop := True.

Lemma safe_create tenant sandbox_id name : safe [] None (create_snapshot tenant sandbox_id name) ended.
Proof.
  unfold create_snapshot. do 2 safe_step; [|done]. safe_step. unfold ensure_source_sandbox_running.
  safe_step; [|done]. safe_step. do 2 safe_step; [|done]. safe_step; [done|].
  do 2 safe_step; [|done]. destruct Ha1 as (d & [= <-] & Hd).
  do 2 safe_step; [|done]. do 2 safe_step; [| |done].
  - split_and!; [done|done|]. split_and!; [done|done|]. by intros ? [= <-].
  - do 2 safe_step; [|done|done]. simpl. set_solver.
Qed.

Lemma safe_get tenant k K P : safe K P (get_snapshot tenant k) ended.
Proof.
  unfold get_snapshot, verify_tenant_access. do 2 safe_step; [|done]. safe_step; [|done].
  safe_step. destruct tenant; [|done]. by case_decide.
Qed.

Lemma safe_repository_list q K P :
  safe K P (repository_list q)
    (fun K' P' r => (K ⊆ K') /\ P' = P /\
       match r with Ok (items, _) => (items ⊆ K') /\ Forall valid_record items | Raise _ => True end).
Proof.
  unfold repository_list. do 2 safe_step; [|done]. do 2 safe_step; [|done].
  safe_step. cbn [learn pending]. split_and!; [set_solver|done|set_solver|auto].
Qed.

Lemma safe_list tenant req K P : safe K P (list_snapshots tenant req) ended.
Proof.
  unfold list_snapshots. safe_step. eapply safe_mono; [apply safe_repository_list|].
  by intros K' P' [[items total]|e] _.
Qed.

(** A record marked as being deleted is known to be. *)
Definition marked_deleting (k : string) (K : list SnapshotRecord) (_ : option string)
    (r : res serr (option SnapshotRecord)) : Prop :=
  forall r', r = Ok (Some r') -> r' ∈ K /\ sr_id r' = k /\ sr_state r' = DELETING.

Lemma safe_mark r K P :
  r ∈ K -> valid_record r -> sr_state r = READY \/ sr_state r = FAILED ->
  safe K P (mark_snapshot_deleting r) (marked_deleting (sr_id r)).
Proof.
  intros Hr Hv Hs. unfold mark_snapshot_deleting. do 2 safe_step; [|by destruct Ha as (? & ? & _)].
  destruct Ha as (d & [= <-] & Hd). do 2 safe_step; [| |done].
  - exists r. split_and!; [done|done| |by apply valid_next_version]. by apply tr_deleting.
  - safe_step.
    + safe_step. intros r' [= <-]. cbn [learn]. split; [set_solver|done].
    + do 2 safe_step; [|done]. destruct v1 as [cur|]; [|done]. safe_step; [|done].
      safe_step. intros r' [= <-]. destruct (Ha0 cur eq_refl). split_and!; [set_solver|done|done].
Qed.

Lemma safe_delete tenant k : safe [] None (delete_snapshot tenant k) ended.
Proof.
  unfold delete_snapshot. do 2 safe_step; [|done]. destruct v as [r|]; [|done].
  destruct (Ha r eq_refl) as [Hid Hv]. safe_step. apply (safe_mono _ (fun K P _ => r ∈ K)).
  { unfold verify_tenant_access. destruct tenant; [case_decide|]; simpl; set_solver. }
  intros K P [u|e] HK; [|done]. case_decide; [done|]. safe_step.
  apply (safe_mono _ (marked_deleting k)).
  { case_decide as Hd; [by intros r' [= <-]|]. rewrite <- Hid. apply safe_mark; [done|done|].
    destruct (sr_state r); auto; congruence. }
  intros K' P' [[r'|]|e] Hm; [|done|done]. do 2 safe_step; [|done].
  safe_step; [|done|done]. exists r'. by apply Hm.
Qed.

(** [record] came from the repository. *)
Lemma safe_recover_record r b K P :
  r ∈ K -> safe K P (recover_record r b) (grown K P).
Proof.
  intros Hr. unfold recover_record. safe_step.
  apply (safe_mono _ (grown K P)).
  - safe_step. apply (safe_mono _ (grown K P)); [|by intros K' P' [v|e] Hg].
    unfold recover_unfinished_snapshot. case_decide as Hc; [|case_decide as Hd; [|done]].
    + do 2 safe_step; [|done]. case_decide.
      * by do 2 safe_step.
      * safe_step. eapply safe_mono; [apply safe_complete|]. by intros K' P' [u|e].
    + safe_step. safe_step. do 2 safe_step.
      * safe_step. do 2 safe_step; [|done|done]. by exists r.
      * case_match; [|done]. by safe_step.
  - intros K' P' [v|e] [HK ->]; [done|]. case_match; [|done]. safe_step.
    eapply safe_mono; [apply safe_complete|]. intros K'' P'' [u|e'] [HK' ->]; (split; [set_solver|done]).
Qed.

Lemma safe_recover_page rs : forall b K P,
  rs ⊆ K -> safe K P (recover_page rs b) (grown K P).
Proof.
  induction rs as [|r rs IH]; intros b K P Hrs; [done|]. cbn [recover_page]. safe_step.
  eapply safe_mono; [apply safe_recover_record; set_solver|].
  intros K' P' [v|e] [HK ->]; [|done]. eapply safe_mono; [apply IH; set_solver|].
  intros K'' P'' r' [HK' ->]. split; [set_solver|done].
Qed.

Lemma safe_recover fuel : forall K P, safe K P (recover_unfinished_snapshots fuel) ended.
Proof.
  induction fuel as [|fuel IH]; intros K P; [done|]. cbn [recover_unfinished_snapshots].
  safe_step. eapply safe_mono; [apply safe_repository_list|].
  intros K' P' [[items total]|e] (HK & -> & Hitems); [|done]. cbn [fst].
  destruct items as [|r rs]; [done|]. safe_step.
  eapply safe_mono; [apply safe_recover_page; by apply Hitems|].
  intros K'' P'' [[]|e] _; [apply IH|done|done].
Qed.

Lemma safe_handle r : safe [] None (handle r) ended.
Proof.
  assert (forall A (p : prog A), safe [] None p ended -> safe [] None (discard_result p) ended) as H.
  { intros A p Hp. unfold discard_result. safe_step. eapply safe_mono; [exact Hp|]. by intros K P [v|e]. }
  destruct r; simpl handle.
  - apply H, safe_create.
  - apply H, safe_get.
  - apply H, safe_list.
  - apply safe_delete.
  - by unfold close; safe_step.
Qed.

(** ** The invariant of the system *)

Section invariant.
Context {T : Type} `{SnapshotRepositoryLaws T}.

Abbreviation records := (gmap string SnapshotRecord).

Definition rows_ok (known : gset string) (m : records) : Prop :=
  forall k r, m !! k = Some r ->
    k ∈ known /\ valid_record r /\ (sr_state r = READY -> has_image r).

(** [r] was in the repository; what is there now under its id, if anything, is
    a later version. *)
Definition seen (known : gset string) (m : records) (r : SnapshotRecord) : Prop :=
  sr_id r ∈ known /\ forall r', m !! sr_id r = Some r' -> evolves r r'.

Definition all_seen (known : gset string) (m : records) (K : list SnapshotRecord) : Prop :=
  forall r, r ∈ K -> seen known m r.

Definition thread_ok (known : gset string) (m : records) (th : thread) : Prop :=
  exists K, safe K (th_id th) (th_prog th) ended /\ all_seen known m K.

Record sys_inv (s : sys T) (m : records) : Prop := {
  inv_repr : repr (b_repo (s_base s)) m;
  inv_rows : rows_ok (b_known (s_base s)) m;
  inv_queue : all_seen (b_known (s_base s)) m (b_queue (s_base s));
  inv_threads : forall i th, s_threads s !! i = Some th -> thread_ok (b_known (s_base s)) m th;
  inv_pending : forall i th d, s_threads s !! i = Some th -> th_id th = Some d ->
    d ∈ b_drawn (s_base s) /\ d ∉ b_known (s_base s);
  inv_distinct : forall i j th th' d, s_threads s !! i = Some th -> s_threads s !! j = Some th' ->
    th_id th = Some d -> th_id th' = Some d -> i = j
}.

Lemma lifecycle_refl known m : lifecycle_step known m m.
Proof. intros k. destruct (m !! k); auto. Qed.

Lemma seen_step known known' m m' r :
  lifecycle_step known m m' -> known ⊆ known' -> seen known m r -> seen known' m' r.
Proof.
  intros Hl Hk [Hid Hev]. split; [set_solver|]. intros r' Hr'.
  specialize (Hl (sr_id r)). rewrite Hr' in Hl.
  destruct (m !! sr_id r) as [r0|] eqn:E.
  - destruct Hl as [->|Ht]; [by apply Hev|]. eapply transition_evolves; [by apply Hev|done].
  - by destruct Hl.
Qed.

Lemma seen_self known m k r : rows_ok known m -> sr_id r = k -> m !! k = Some r -> seen known m r.
Proof.
  intros Hrows <- Hm. split; [by eapply Hrows|]. intros r' Hr'.
  rewrite Hm in Hr'. injection Hr' as <-. by left.
Qed.

(** What a call that keeps its rules does to what the threads share. *)
Record served (b b' : base T) (P P' : option string) (m m' : records)
    (K K' : list SnapshotRecord) : Prop := {
  sv_repr : repr (b_repo b') m';
  sv_step : lifecycle_step (b_known b) m m';
  sv_rows : rows_ok (b_known b') m';
  sv_known : b_known b ⊆ b_known b';
  sv_drawn : b_drawn b ⊆ b_drawn b';
  sv_seen : all_seen (b_known b') m' K';
  sv_queue : all_seen (b_known b') m' (b_queue b');
  sv_new : forall d, d ∈ b_known b' -> d ∈ b_known b \/ P = Some d;
  sv_pending : forall d, P' = Some d ->
    (P = Some d /\ b_known b' = b_known b) \/
    ((d ∉ b_drawn b) /\ d ∈ b_drawn b' /\ d ∉ b_known b')
}.

(** A call that leaves the records alone. *)
Lemma served_same b b' P m K K' :
  repr (b_repo b') m -> rows_ok (b_known b) m -> b_known b' = b_known b -> b_drawn b' = b_drawn b ->
  all_seen (b_known b) m K' -> all_seen (b_known b) m (b_queue b') ->
  served b b' P P m m K K'.
Proof.
  intros Hr Hrows Hk Hd HK Hq. split; rewrite ?Hk, ?Hd; auto using lifecycle_refl.
Qed.

Lemma rows_ok_valid b m k r : repr (b_repo b) m -> rows_ok (b_known b) m ->
  m !! k = Some r -> sr_id r = k /\ valid_record r.
Proof. intros Hr Hrows E. split; [by eapply repr_id|by eapply Hrows]. Qed.

Lemma lifecycle_insert known (m : records) r :
  m !! sr_id r = None -> sr_state r = CREATING -> sr_id r ∉ known ->
  lifecycle_step known m (<[sr_id r := r]> m).
Proof.
  intros Hm Hs Hk k. destruct (decide (k = sr_id r)) as [->|Hne].
  - by rewrite Hm, lookup_insert_eq.
  - rewrite lookup_insert_ne by done. destruct (m !! k); auto.
Qed.

Lemma lifecycle_update known (m : records) r0 r :
  m !! sr_id r = Some r0 -> transition r0 r -> lifecycle_step known m (<[sr_id r := r]> m).
Proof.
  intros Hm Ht k. destruct (decide (k = sr_id r)) as [->|Hne].
  - rewrite Hm, lookup_insert_eq. by right.
  - rewrite lookup_insert_ne by done. destruct (m !! k); auto.
Qed.

Lemma lifecycle_delete known (m : records) k :
  (forall r, m !! k = Some r -> sr_state r = DELETING) -> lifecycle_step known m (delete k m).
Proof.
  intros Hm k'. destruct (decide (k' = k)) as [->|Hne].
  - rewrite lookup_delete_eq. destruct (m !! k); auto.
  - rewrite lookup_delete_ne by done. destruct (m !! k'); auto.
Qed.

Lemma rows_ok_insert known (m : records) r :
  rows_ok known m -> sr_id r ∈ known -> valid_record r -> (sr_state r = READY -> has_image r) ->
  rows_ok known (<[sr_id r := r]> m).
Proof.
  intros Hrows Hk Hv Hi k r'. rewrite lookup_insert_Some. intros [[<- <-]|[_ Hm]]; [done|].
  by apply (Hrows k).
Qed.

Lemma rows_ok_mono known known' (m : records) : known ⊆ known' -> rows_ok known m -> rows_ok known' m.
Proof. intros Hk Hrows k r Hm. destruct (Hrows k r Hm) as (? & ? & ?). split_and!; auto. Qed.

Lemma transition_image a b : transition a b -> sr_state b = READY -> has_image b.
Proof. intros [] ?; [done|congruence|congruence]. Qed.

Lemma transition_id a b : transition a b -> sr_id b = sr_id a.
Proof. by intros [[]|[]|[]]. Qed.

Lemma all_seen_step known known' m m' K :
  lifecycle_step known m m' -> known ⊆ known' -> all_seen known m K -> all_seen known' m' K.
Proof. intros Hl Hk HK r Hr. eapply seen_step; eauto. Qed.

Lemma all_seen_cons known m r K : seen known m r -> all_seen known m K -> all_seen known m (r :: K).
Proof. intros Hr HK r' [->|?]%elem_of_cons; auto. Qed.

Section one_call.
Context (b : base T) (m : records) (P : option string) (K : list SnapshotRecord).
Context (Hrepr : repr (b_repo b) m) (Hrows : rows_ok (b_known b) m)
  (HK : all_seen (b_known b) m K) (Hq : all_seen (b_known b) m (b_queue b))
  (HP : forall d, P = Some d -> d ∈ b_drawn b /\ d ∉ b_known b).

Lemma served_create r t :
  may K P (RepoCreate r) -> repo_create r (b_repo b) = Ok t ->
  exists m', served b (mkBase t (b_queue b) (b_closed b) (b_drawn b) ({[sr_id r]} ∪ b_known b))
               P None m m' K (r :: K).
Proof.
  intros (-> & Hs & Hv) Ht. pose proof (law_create _ _ r Hrepr Hv) as Hl. rewrite Ht in Hl.
  destruct Hl as [Hm Hr]. destruct (HP _ eq_refl) as [_ Hk].
  pose proof (lifecycle_insert _ _ _ Hm Hs Hk) as Hstep.
  assert (b_known b ⊆ {[sr_id r]} ∪ b_known b) as Hsub by set_solver.
  assert (rows_ok ({[sr_id r]} ∪ b_known b) (<[sr_id r := r]> m)) as Hrows'.
  { apply rows_ok_insert; [by eapply rows_ok_mono|set_solver|done|]. by rewrite Hs. }
  exists (<[sr_id r := r]> m). split; simpl; [done|done|done|done|done| | | |done].
  - apply all_seen_cons; [|by eapply all_seen_step].
    eapply seen_self; [done|done|]. by rewrite lookup_insert_eq.
  - by eapply all_seen_step.
  - set_solver.
Qed.

Lemma served_update r s :
  may K P (RepoUpdateIf r s) ->
  exists m', served b (set_repo (repo_update_if_state r s (b_repo b)).2 b) P P m m' K
               (learn K (RepoUpdateIf r s) (Ok (repo_update_if_state r s (b_repo b)).1)).
Proof.
  intros (r0 & Hr0 & Hs & Ht & Hv). destruct (law_update_if _ _ r s Hrepr Hv) as [Hhit Hrepr'].
  rewrite Hhit. case_bool_decide as Hb; cbn [learn].
  - apply fmap_Some in Hb as (r1 & Hm & Hs1). destruct (HK r0 Hr0) as [Hid Hev].
    rewrite <- (transition_id _ _ Ht) in Hid, Hev.
    assert (r0 = r1) as <- by (apply evolves_same_state; [by apply Hev|congruence]).
    pose proof (lifecycle_update (b_known b) m r0 r Hm Ht) as Hstep.
    assert (rows_ok (b_known b) (<[sr_id r := r]> m)) as Hrows'.
    { apply rows_ok_insert; [done|done|done|by eapply transition_image]. }
    exists (<[sr_id r := r]> m). split; simpl; [done|done|done|done|done| | |by left|by left].
    + apply all_seen_cons; [|by eapply all_seen_step].
      eapply seen_self; [done|done|]. by rewrite lookup_insert_eq.
    + by eapply all_seen_step.
  - exists m. by apply served_same.
Qed.

Lemma served_delete k :
  may K P (RepoDelete k) ->
  exists m', served b (set_repo (repo_delete k (b_repo b)) b) P P m m' K K.
Proof.
  intros (r0 & Hr0 & <- & Hs). destruct (HK r0 Hr0) as [Hid Hev].
  assert (lifecycle_step (b_known b) m (delete (sr_id r0) m)) as Hstep.
  { apply lifecycle_delete. intros r Hm. by rewrite <- (evolves_deleting r0 r (Hev r Hm) Hs). }
  exists (delete (sr_id r0) m). split; simpl; [by apply law_delete|done| |done|done| | |by left|by left].
  - intros k r [_ Hm]%lookup_delete_Some. by apply (Hrows k).
  - by eapply all_seen_step.
  - by eapply all_seen_step.
Qed.

Lemma seen_rows q rs : repo_rows q (b_repo b) = Ok rs ->
  Forall valid_record rs /\ all_seen (b_known b) m rs.
Proof.
  intros Hrs. destruct (repo_rows_in _ _ q Hrepr) as (all & _ & _ & Hpage & Hin).
  rewrite Hrs in Hpage. injection Hpage as ->. split.
  - apply Forall_forall. intros r Hr%elem_of_window. by eapply Hrows, Hin.
  - intros r Hr%elem_of_window. eapply seen_self; [done|done|]. by apply Hin.
Qed.
End one_call.

Lemma serve_ok c (a : ans c) b b' P P' m K :
  repr (b_repo b) m -> rows_ok (b_known b) m -> all_seen (b_known b) m K ->
  all_seen (b_known b) m (b_queue b) ->
  (forall d, P = Some d -> d ∈ b_drawn b /\ d ∉ b_known b) ->
  may K P c -> serve c a (b, P) (b', P') ->
  plausible c a /\ P' = pending P c a /\ exists m', served b b' P P' m m' K (learn K c a).
Proof.
  intros Hrepr Hrows HK Hq HP Hmay Hs.
  assert (exists m', served b b P P m m' K K) as Hsame by (exists m; by apply served_same).
  destruct c; cbn [serve fst snd] in Hs; cbn [plausible pending learn].
  - destruct Hs as ([= -> ->] & Ha). done.
  - destruct Hs as (id & -> & Hd & Hk & [= -> ->]). split; [eauto|]. split; [done|].
    exists m. split; simpl; auto using lifecycle_refl; [set_solver|].
    intros d [= <-]. right. set_solver.
  - injection Hs as -> ->. done.
  - destruct Hs as ([= -> ->] & _). done.
  - injection Hs as -> ->. done.
  - injection Hs as -> ->. done.
  - injection Hs as -> ->. done.
  - split; [done|]. destruct Hs as [([= -> ->] & e & ->)|Hs]; [done|].
    destruct (repo_create record (b_repo b)) as [t|e] eqn:Ht.
    + destruct Hs as (-> & [= -> ->]). split; [done|]. by apply served_create.
    + destruct Hs as (-> & [= -> ->]). done.
  - destruct Hs as ([= -> ->] & [[e ->]| ->]); [done|]. rewrite (law_get _ _ _ Hrepr).
    split; [|split; [done|]].
    + intros r [= Hm]. by eapply rows_ok_valid.
    + destruct (m !! snapshot_id) as [r|] eqn:Hm; [|done]. exists m.
      apply served_same; auto. apply all_seen_cons; [|done].
      eapply seen_self; [done|by eapply repr_id|done].
  - destruct Hs as ([= -> ->] & _). done.
  - destruct Hs as ([= -> ->] & [[e ->]| ->]); [done|].
    destruct (repo_rows query (b_repo b)) as [rs|e] eqn:Hr; [|done].
    destruct (seen_rows b m Hrepr Hrows query rs Hr) as [Hv Hseen].
    split; [by intros ? [= <-]|]. split; [done|]. exists m. apply served_same; auto.
    intros r [?|?]%elem_of_app; auto.
  - split; [done|]. destruct Hs as [([= -> ->] & e & ->)|(-> & [= -> ->])]; [done|].
    split; [done|]. by apply served_update.
  - split; [done|]. destruct Hs as [([= -> ->] & e & ->)|(-> & [= -> ->])]; [done|].
    split; [done|]. by apply served_delete.
  - split; [done|]. destruct (b_closed b); [by destruct Hs as ([= -> ->] & _)|].
    destruct Hs as (-> & [= -> ->]). split; [done|]. exists m. apply served_same; auto.
    intros r [?|Heq%list_elem_of_singleton]%elem_of_app; subst; auto.
  - destruct Hs as (-> & [= -> ->]). split; [done|]. split; [done|]. exists m. by apply served_same.
Qed.

Lemma thread_ok_step known known' m m' th :
  lifecycle_step known m m' -> known ⊆ known' -> thread_ok known m th -> thread_ok known' m' th.
Proof. intros Hl Hk (K & Hs & HK). exists K. split; [done|]. by eapply all_seen_step. Qed.

(** Adding a thread that has drawn no uuid. *)
Lemma inv_spawn b b' ths m p :
  sys_inv (mkSys b ths) m -> b_repo b' = b_repo b -> b_known b' = b_known b ->
  b_drawn b' = b_drawn b -> all_seen (b_known b) m (b_queue b') ->
  thread_ok (b_known b) m (mkThread p None) ->
  sys_inv (mkSys b' (ths ++ [mkThread p None])) m.
Proof.
  intros [Hr Hrows Hq Hth Hp Hd] Er Ek Ed Hq' Hnew. simpl in *.
  split; simpl; rewrite ?Er, ?Ek, ?Ed; auto.
  - intros i th [Hi|(_ & Hi)]%lookup_app_Some; [by eapply Hth|].
    by apply list_lookup_singleton_Some in Hi as [_ <-].
  - intros i th d [Hi|(_ & Hi)]%lookup_app_Some Hd'; [by eapply Hp|].
    by apply list_lookup_singleton_Some in Hi as [_ <-].
  - intros i j th th' d [Hi|(_ & Hi)]%lookup_app_Some [Hj|(_ & Hj)]%lookup_app_Some E E';
      [by eapply Hd|..]; [apply list_lookup_singleton_Some in Hj as [_ <-]; done|..];
      apply list_lookup_singleton_Some in Hi as [_ <-]; done.
Qed.

Lemma inv_call b b' ths m i c k a P P' :
  sys_inv (mkSys b ths) m -> ths !! i = Some (mkThread (Do c k) P) ->
  serve c a (b, P) (b', P') ->
  exists m', sys_inv (mkSys b' (<[i := mkThread (k a) P']> ths)) m' /\
             lifecycle_step (b_known b) m m'.
Proof.
  intros [Hr Hrows Hq Hth Hp Hd] Hi Hs. simpl in *.
  destruct (Hth _ _ Hi) as (K & [Hmay Hk] & HK). simpl in *.
  destruct (serve_ok c a b b' P P' m K) as (Hpl & HP' & m' & Hsv); auto.
  { intros d ->. by apply (Hp i (mkThread (Do c k) (Some d))). }
  destruct Hsv as [Hr' Hl Hrows' Hkn Hdr HK' Hq' Hnew Hpend].
  exists m'. split; [|done]. split; simpl; [done|done|done|..].
  - intros j th [(<- & <- & _)|[_ Hj]]%list_lookup_insert_Some; [|by eapply thread_ok_step; eauto].
    exists (learn K c a). split; [|done]. simpl. rewrite HP'. by apply Hk.
  - intros j th d [(<- & <- & _)|[Hne Hj]]%list_lookup_insert_Some Hd'; simpl in Hd'.
    + destruct (Hpend d Hd') as [[HPd Hkn']|(_ & ? & ?)]; [|done].
      destruct (Hp i _ d Hi HPd). rewrite Hkn'. set_solver.
    + destruct (Hp j th d Hj Hd') as [? Hnk]. split; [set_solver|]. intros Hin.
      destruct (Hnew d Hin) as [?|HPd]; [done|]. apply Hne.
      by apply (Hd i j (mkThread (Do c k) P) th d Hi Hj HPd).
  - assert (forall j th d, i <> j -> ths !! j = Some th -> th_id th = Some d -> P' <> Some d) as Hx.
    { intros j th d Hne Hj Hjd HPd. destruct (Hpend d HPd) as [[HP0 _]|[Hnd _]].
      - apply Hne. by apply (Hd i j (mkThread (Do c k) P) th d Hi Hj HP0).
      - apply Hnd. by apply (Hp j th d Hj). }
    intros j j' th th' d [(<- & <- & _)|[Hne Hj]]%list_lookup_insert_Some
      [(<- & <- & _)|[Hne' Hj']]%list_lookup_insert_Some E E'; [done| | |by eapply Hd].
    + by destruct (Hx j' th' d Hne' Hj' E').
    + by destruct (Hx j th d Hne Hj E).
Qed.

Lemma inv_step s s' m :
  sys_inv s m -> step s s' -> exists m', sys_inv s' m' /\ lifecycle_step (b_known (s_base s)) m m'.
Proof.
  intros Hinv Hstep. destruct Hstep as [b ths r|b ths r q Hq|b b' ths i c k a id id' Hi Hs|b ths fuel].
  - exists m. split; [|apply lifecycle_refl].
    apply (inv_spawn b b); auto; [by apply Hinv|]. exists []. split; [apply safe_handle|].
    intros ? []%elem_of_nil.
  - exists m. split; [|apply lifecycle_refl].
    pose proof (inv_queue _ _ Hinv) as Hall. simpl in Hall. rewrite Hq in Hall.
    apply (inv_spawn b); auto; simpl.
    + intros r' Hr'. apply Hall. set_solver.
    + exists [r]. split; [eapply safe_mono; [apply safe_worker|done]|].
      intros r' ->%list_elem_of_singleton. apply Hall. set_solver.
  - by apply (inv_call b b' ths m i c k a id id').
  - exists m. split; [|apply lifecycle_refl]. destruct Hinv as [Hr Hrows _ _ _ _].
    apply (inv_spawn (mkBase (b_repo b) [] false (b_drawn b) (b_known b)) _ []); auto; simpl.
    + by split; simpl; try done; intros ? []%elem_of_nil.
    + intros ? []%elem_of_nil.
    + exists []. split; [apply safe_recover|]. intros ? []%elem_of_nil.
Qed.

(** A server starting on a database of well-formed records. *)
Definition init (s : sys T) : Prop :=
  exists m, repr (b_repo (s_base s)) m /\ rows_ok (b_known (s_base s)) m /\
            b_queue (s_base s) = [] /\ s_threads s = [].

Lemma reachable_inv s0 s : init s0 -> rtc step s0 s -> exists m, sys_inv s m.
Proof.
  intros (m0 & Hr & Hrows & Hq & Hth) Hsteps.
  assert (sys_inv s0 m0) as Hinv.
  { split; rewrite ?Hq, ?Hth; try done. intros ? []%elem_of_nil. }
  clear -Hinv Hsteps. revert m0 Hinv. induction Hsteps as [s|s s' s'' Hst _ IH]; intros m Hinv; [eauto|].
  destruct (inv_step _ _ _ Hinv Hst) as (m' & Hinv' & _). by apply (IH m').
Qed.

(** C35: however requests, workers, recoveries and crashes of the process
    interleave, every step leaves each snapshot record as it is or moves it
    along the state machine: it is inserted as Creating under a fresh id,
    becomes Ready with an image or Failed, then Deleting, and only a Deleting
    record is removed.  Its identity (source, tenant, name, creation time)
    never changes, and every Ready record has an image. *)
Theorem snapshot_lifecycle s0 s s' :
  init s0 -> rtc step s0 s -> step s s' ->
  exists m m', repr (b_repo (s_base s)) m /\ repr (b_repo (s_base s')) m' /\
    lifecycle_step (b_known (s_base s)) m m' /\
    (forall k r, m' !! k = Some r -> sr_state r = READY -> has_image r).
Proof.
  intros Hinit Hs Hst. destruct (reachable_inv _ _ Hinit Hs) as [m Hinv].
  destruct (inv_step _ _ _ Hinv Hst) as (m' & Hinv' & Hl). exists m, m'.
  split_and!; [apply Hinv|apply Hinv'|done|]. intros k r Hr Hready.
  by apply (inv_rows _ _ Hinv' k).
Qed.
End invariant.

(** ** Running an operation alone

    [run] executes a program with nobody else using the repository, which never
    fails; the oracle gives what the clock, the uuid generator, the runtime and
    the sandbox service answer.  [w_calls] lists the calls made. *)

Record oracle := mkOracle {
  o_now : nat -> datetime;
  o_uuid : nat -> string;
  o_sandbox : string -> res serr sandbox_obj;
  o_supports : bool;
  o_create : string -> res serr (option SnapshotRuntimeStatus);
  o_delete : string -> option string -> res serr unit;
  o_inspect : string -> res serr SnapshotRuntimeStatus
}.

Record world (T : Type) := mkWorld {
  w_repo : T;
  w_queue : list SnapshotRecord;
  w_calls : list cmd
}.
Arguments mkWorld {T} w_repo w_queue w_calls.
Arguments w_repo {T} w.
Arguments w_queue {T} w.
Arguments w_calls {T} w.

Section run.
Context {T : Type} `{SnapshotRepository T}.
Context (o : oracle).

Definition called (c : cmd) (w : world T) : world T :=
  mkWorld (w_repo w) (w_queue w) (w_calls w ++ [c]).

Definition with_repo (t : T) (w : world T) : world T := mkWorld t (w_queue w) (w_calls w).

Definition reply (c : cmd) (w : world T) : ans c * world T :=
  let w' := called c w in
  match c return ans c * world T with
  | Now => (Ok (o_now o (length (w_calls w))), w')
  | Uuid4 => (Ok (o_uuid o (length (w_calls w))), w')
  | GetSandbox k => (o_sandbox o k, w')
  | SupportsCreate => (Ok (o_supports o), w')
  | RtCreate k _ _ => (o_create o k, w')
  | RtDelete k image _ => (o_delete o k image, w')
  | RtInspect k _ _ => (o_inspect o k, w')
  | RepoCreate r =>
      match repo_create r (w_repo w) with
      | Ok t => (Ok tt, with_repo t w')
      | Raise e => (Raise e, w')
      end
  | RepoGet k => (repo_get k (w_repo w), w')
  | RepoCount q => (Ok (repo_count q (w_repo w)), w')
  | RepoRows q => (repo_rows q (w_repo w), w')
  | RepoUpdateIf r s =>
      (Ok (repo_update_if_state r s (w_repo w)).1,
       with_repo (repo_update_if_state r s (w_repo w)).2 w')
  | RepoDelete k => (Ok tt, with_repo (repo_delete k (w_repo w)) w')
  | Submit r => (Ok tt, mkWorld (w_repo w') (w_queue w' ++ [r]) (w_calls w'))
  | Shutdown => (Ok tt, w')
  end.

Fixpoint run {A} (p : prog A) (w : world T) : res serr A * world T :=
  match p with
  | Ret a => (Ok a, w)
  | Throw e => (Raise e, w)
  | Do c k => let '(a, w') := reply c w in run (k a) w'
  end.

(** [runs p w Q]: running [p] from [w] ends in [Q]. *)
Definition runs {A} (p : prog A) (w : world T) (Q : res serr A -> world T -> Prop) : Prop :=
  Q (run p w).1 (run p w).2.

Lemma runs_bind {A B} (p : prog A) (f : A -> prog B) w Q :
  runs p w (fun r w' => match r with Ok a => runs (f a) w' Q | Raise e => Q (Raise e) w' end) ->
  runs (pbind p f) w Q.
Proof.
  unfold runs. revert w. induction p as [a|e|c k IH]; intros w; simpl; [done|done|].
  destruct (reply c w) as [a w']. apply IH.
Qed.

Lemma runs_catch {A} (p : prog A) h w Q :
  runs p w (fun r w' => match r with
                        | Ok a => Q (Ok a) w'
                        | Raise e => if is_SException e then runs (h e) w' Q else Q (Raise e) w'
                        end) ->
  runs (pcatch p h) w Q.
Proof.
  unfold runs. revert w. induction p as [a|e|c k IH]; intros w; simpl;
    [done|by destruct (is_SException e)|].
  destruct (reply c w) as [a w']. apply IH.
Qed.

Lemma runs_call c w Q : Q (reply c w).1 (reply c w).2 -> runs (call c) w Q.
Proof. unfold runs, call. simpl. by destruct (reply c w) as [[v|e] w']. Qed.

Lemma runs_ret {A} (a : A) w (Q : res serr A -> world T -> Prop) : Q (Ok a) w -> runs (Ret a) w Q.
Proof. done. Qed.

Lemma runs_throw {A} e w (Q : res serr A -> world T -> Prop) : Q (Raise e) w -> runs (Throw e) w Q.
Proof. done. Qed.

Lemma runs_mono {A} (p : prog A) w (Q R : res serr A -> world T -> Prop) :
  runs p w Q -> (forall r w', Q r w' -> R r w') -> runs p w R.
Proof. unfold runs. auto. Qed.
End run.

Ltac run_step :=
  lazymatch goal with
  | |- runs _ (pbind _ _) _ _ => apply runs_bind
  | |- runs _ (pcatch _ _) _ _ => apply runs_catch
  | |- runs _ (call _) _ _ => apply runs_call; cbn [reply fst snd]
  | |- runs _ (Ret _) _ _ => apply runs_ret
  | |- runs _ (Throw _) _ _ => apply runs_throw
  | |- runs _ (http_error _ _) _ _ => apply runs_throw
  | |- runs _ NOT_FOUND _ _ => apply runs_throw
  end.

Section alone.
Context {T : Type} `{SnapshotRepositoryLaws T}.
Context (o : oracle) (Hnow : forall n, valid_datetime (o_now o n) = true).

(** The record a deletion leaves when the runtime cannot delete the artifact. *)
Definition deleting_version (r : SnapshotRecord) (now : datetime) : SnapshotRecord :=
  next_version r (sr_restore_config r) DELETING (Some "snapshot_delete_requested")
    (Some "Snapshot deletion requested.") now.

Definition foreign (tenant : option string) (r : SnapshotRecord) : Prop :=
  match tenant with Some ns => sr_namespace r <> Some ns | None => False end.

#[local] Instance foreign_dec tenant r : Decision (foreign tenant r).
Proof. destruct tenant; apply _. Defined.

Definition not_found : serr := SHttp (HTTPException 404 "SNAPSHOT::NOT_FOUND").
Definition invalid_state : serr := SHttp (HTTPException 409 "SNAPSHOT::INVALID_STATE").

Lemma verify_foreign tenant r : foreign tenant r -> verify_tenant_access tenant r = Throw not_found.
Proof.
  unfold foreign, verify_tenant_access. destruct tenant; [|done]. intros Hf. by rewrite decide_False.
Qed.

Lemma verify_own tenant r : ~ foreign tenant r -> verify_tenant_access tenant r = Ret tt.
Proof.
  unfold foreign, verify_tenant_access. destruct tenant; [|done]. intros Hf.
  rewrite decide_True; [done|]. by apply dec_stable.
Qed.

Lemma runs_mark r (w : world T) m :
  repr (w_repo w) m -> m !! sr_id r = Some r -> valid_record r ->
  runs o (mark_snapshot_deleting r) w
    (fun x w' => exists now, x = Ok (Some (deleting_version r now)) /\
       repr (w_repo w') (<[sr_id r := deleting_version r now]> m) /\
       w_calls w' = (w_calls w ++ [Now; RepoUpdateIf (deleting_version r now) (sr_state r)])%list).
Proof.
  intros Hr Hm Hv. unfold mark_snapshot_deleting. do 2 run_step. do 2 run_step.
  fold (deleting_version r (o_now o (length (w_calls w)))).
  set (d := deleting_version r _).
  destruct (law_update_if (w_repo w) m d (sr_state r) Hr) as [Hhit Hrepr].
  { apply valid_next_version; [done|apply Hnow]. }
  change (sr_id d) with (sr_id r) in Hhit, Hrepr. rewrite Hm in Hhit, Hrepr. cbn [fmap option_fmap option_map] in *.
  rewrite bool_decide_eq_true_2 in Hhit, Hrepr by done.
  unfold d in *. cbn. cbn in Hhit. rewrite Hhit. run_step. eexists. split; [done|].
  split; [exact Hrepr|]. simpl. by rewrite <- app_assoc.
Qed.

(** The artifact's deletion and the record's. *)
Lemma runs_delete_rest k image ns (w : world T) m :
  repr (w_repo w) m ->
  runs o (pbind (call (RtDelete k image ns)) (fun _ => call (RepoDelete k))) w
    (fun x w' => match o_delete o k image with
                 | Ok _ => x = Ok tt /\ repr (w_repo w') (delete k m)
                 | Raise e => x = Raise e /\ repr (w_repo w') m
                 end).
Proof.
  intros Hr. do 2 run_step. destruct (o_delete o k image) as [u|e]; [|done]. run_step.
  split; [done|]. by apply law_delete.
Qed.

(** [delete_snapshot] on every branch: an unknown or foreign snapshot is
    reported as missing and one still being created as a conflict, without any
    change; otherwise the record is removed once the runtime has deleted the
    artifact, and when the runtime fails the error is reported and the record
    stays behind as Deleting, so that a later call or the recovery resumes. *)
Theorem delete_snapshot_spec tenant k (w : world T) m :
  repr (w_repo w) m -> map_Forall (fun _ r => valid_record r) m ->
  runs o (delete_snapshot tenant k) w
    (fun x w' => match m !! k with
       | None => x = Raise not_found /\ repr (w_repo w') m
       | Some r =>
           (foreign tenant r -> x = Raise not_found /\ repr (w_repo w') m) /\
           (~ foreign tenant r -> sr_state r = CREATING ->
              x = Raise invalid_state /\ repr (w_repo w') m) /\
           (~ foreign tenant r -> sr_state r <> CREATING ->
              match o_delete o k (rc_image (sr_restore_config r)) with
              | Ok _ => x = Ok tt /\ repr (w_repo w') (delete k m)
              | Raise e => x = Raise e /\ exists r', repr (w_repo w') (<[k := r']> m) /\
                  sr_state r' = DELETING /\ same_identity r r' /\ keeps_config r r'
              end)
       end).
Proof using Hnow.
  intros Hr Hval. unfold delete_snapshot. do 2 run_step. rewrite (law_get _ _ k Hr).
  destruct (m !! k) as [r|] eqn:Hm; [|done].
  pose proof (repr_id _ _ _ _ Hr Hm) as Hid. pose proof (Hval _ _ Hm) as Hv. simpl in Hv.
  run_step. destruct (decide (foreign tenant r)) as [Hf|Hf].
  { rewrite verify_foreign by done. run_step. tauto. }
  rewrite verify_own by done. run_step. case_decide as Hc; [by run_step|].
  run_step. case_decide as Hd.
  - run_step. eapply runs_mono; [by apply runs_delete_rest|]. intros x w' Hx.
    split; [done|]. split; [done|]. intros _ _.
    destruct (o_delete o k _); [done|]. destruct Hx as [-> Hx]. split; [done|].
    exists r. by rewrite insert_id.
  - rewrite <- Hid in *. eapply runs_mono; [by apply runs_mark|].
    intros x w' (now & -> & Hr' & _). eapply runs_mono; [by apply runs_delete_rest|].
    intros x' w'' Hx. split; [done|]. split; [done|]. intros _ _.
    change (rc_image (sr_restore_config (deleting_version r now)))
      with (rc_image (sr_restore_config r)) in Hx.
    destruct (o_delete o (sr_id r) _).
    + destruct Hx as [-> Hx]. split; [done|]. by rewrite delete_insert_eq in Hx.
    + destruct Hx as [-> Hx]. split; [done|]. exists (deleting_version r now). done.
Qed.

(** C38: a tenant cannot reach the snapshots of another one: reading or
    deleting a snapshot outside its namespace answers exactly as if the
    snapshot did not exist and makes no call but the look-up, and a listing
    only holds, and only counts, records of its own namespace. *)
Theorem tenant_isolation ns k req (w : world T) m :
  repr (w_repo w) m ->
  ((forall r, m !! k = Some r -> sr_namespace r <> Some ns) ->
     run o (get_snapshot (Some ns) k) w = (Raise not_found, called (RepoGet k) w) /\
     run o (delete_snapshot (Some ns) k) w = (Raise not_found, called (RepoGet k) w)) /\
  runs o (list_snapshots (Some ns) req) w
    (fun x w' => w_repo w' = w_repo w /\ exists resp items, x = Ok resp /\
       ls_items resp = map to_snapshot_response items /\
       (forall r, r ∈ items -> m !! sr_id r = Some r /\ sr_namespace r = Some ns) /\
       exists all, pi_total_items (ls_pagination resp) = Z.of_nat (length all) /\
         forall r, r ∈ all -> m !! sr_id r = Some r /\ sr_namespace r = Some ns).
Proof.
  intros Hr. split.
  - intros Hf. unfold get_snapshot, delete_snapshot. cbn [call pbind run reply].
    rewrite (law_get _ _ k Hr). destruct (m !! k) as [r|] eqn:Hm; [|done].
    cbn [pbind]. rewrite !verify_foreign by (by apply Hf). done.
  - destruct (repo_rows_in _ _ (list_query (Some ns) req) Hr) as (all & _ & Hc & Hpage & Hin).
    assert (forall r, r ∈ all -> m !! sr_id r = Some r /\ sr_namespace r = Some ns) as Hns.
    { intros r Hall. destruct (Hin r Hall) as [Hm Hq]. split; [done|].
      unfold query_matches in Hq. rewrite !andb_true_iff in Hq. destruct Hq as [[[Hq _] _] _].
      simpl in Hq. by apply bool_decide_eq_true in Hq. }
    unfold list_snapshots, repository_list. do 3 run_step. do 2 run_step.
    cbn [w_repo called]. rewrite Hpage, Hc. do 2 run_step. split; [done|].
    eexists _, (window (list_query (Some ns) req) all). split; [done|]. split; [done|].
    split; [|by exists all]. intros r Hw%elem_of_window. by apply Hns.
Qed.
End alone.
