(* ===== verification/SnapshotRecovery.v ===== *)
(** * Recovery of unfinished snapshots

    What [PersistedSnapshotService.recover_unfinished_snapshots] achieves when a
    server starts: every record left Creating or Deleting by a previous process
    is brought to an end, unless the runtime says that it is still being created
    or refuses to delete it.  Also the witnesses of the snapshot theorems, on
    the SQLite repository. *)

From Stdlib Require Import ZArith Lia String.
From stdpp Require Import base numbers strings gmap sorting list.
From S2P Require Import Prelude PyString Regex Validators PyText SnapshotRepo SnapshotService.

Open Scope string_scope.
Open Scope Z_scope.

(** ** Counting values of a map *)

Lemma values_filter_length {A} (P : A -> Prop) `{!forall x, Decision (P x)} (m : gmap string A) :
  length (filter P (map_to_list m).*2) = size (filter (fun kr => P kr.2) m).
Proof.
  induction m as [|k r m Hm IH] using map_ind.
  { by rewrite map_filter_empty, map_to_list_empty, map_size_empty. }
  rewrite map_to_list_insert by done. cbn [fmap list_fmap snd]. destruct (decide (P r)).
  - rewrite filter_cons_True by done. rewrite map_filter_insert_True by done. cbn [length].
    rewrite map_size_insert_None, IH; [done|]. apply map_lookup_filter_None_2. by left.
  - rewrite filter_cons_False by done. rewrite map_filter_insert_False by done.
    by rewrite delete_id, IH.
Qed.

Section recovery.
Context {T : Type} `{SnapshotRepositoryLaws T}.
Context (o : oracle).

Definition unfinished (r : SnapshotRecord) : Prop :=
  sr_state r = CREATING \/ sr_state r = DELETING.

(** The runtime is still at it, or cannot delete the artifact. *)
Definition stuck (r : SnapshotRecord) : bool :=
  match sr_state r with
  | CREATING =>
      match o_inspect o (sr_id r) with
      | Ok s => bool_decide (rs_state s = CREATING)
      | Raise _ => false
      end
  | DELETING => negb (is_ok (o_delete o (sr_id r) (rc_image (sr_restore_config r))))
  | _ => false
  end.

(** What the recovery takes for the runtime's word on a record. *)
Definition recovery_status (r : SnapshotRecord) : SnapshotRuntimeStatus :=
  match o_inspect o (sr_id r) with
  | Ok s => s
  | Raise e =>
      mkRuntimeStatus FAILED None (Some "snapshot_recovery_failed")
        (Some ("Failed to recover unfinished snapshot: " +:+ str_serr e))
  end.

(** [x] is what is left of [r] once it is recovered. *)
Definition handled (r : SnapshotRecord) (x : option SnapshotRecord) : Prop :=
  match sr_state r with
  | CREATING => exists now r', x = Some r' /\
      build_runtime_status_record now r (recovery_status r) = Some r'
  | _ => x = None
  end.

(** The runtime raises no bare [BaseException], and never reports a snapshot as
    being deleted. *)
Record runtime_ok : Prop := {
  ro_now : forall n, valid_datetime (o_now o n) = true;
  ro_inspect : forall k, match o_inspect o k with
                         | Ok s => rs_state s <> DELETING
                         | Raise e => is_SException e = true
                         end;
  ro_delete : forall k image e, o_delete o k image = Raise e -> is_SException e = true
}.
Context (Hrt : runtime_ok).

Abbreviation records := (gmap string SnapshotRecord).
Definition all_valid (m : records) : Prop := map_Forall (fun _ r => valid_record r) m.

Lemma handled_finished r r' : unfinished r -> handled r (Some r') -> ~ unfinished r'.
Proof.
  unfold unfinished, handled. intros Hu Hh. destruct (sr_state r); try done.
  destruct Hh as (now & r'' & [= <-] & Hb). unfold build_runtime_status_record in Hb.
  destruct (rs_state (recovery_status r)); try done;
    [destruct (no_image _)|]; injection Hb as <-; by intros [?|?].
Qed.

Lemma build_some now r s :
  rs_state s <> CREATING -> rs_state s <> DELETING ->
  exists r', build_runtime_status_record now r s = Some r'.
Proof.
  unfold build_runtime_status_record. destruct (rs_state s); try done; [destruct (no_image _)|]; eauto.
Qed.

(** Completing a record that is still being created. *)
Lemma runs_complete r s (w : world T) (m : records) :
  repr (w_repo w) m -> all_valid m -> m !! sr_id r = Some r -> sr_state r = CREATING ->
  rs_state s <> CREATING -> rs_state s <> DELETING ->
  runs o (complete_snapshot r s) w
    (fun x w' => x = Ok tt /\ exists now r', build_runtime_status_record now r s = Some r' /\
       repr (w_repo w') (<[sr_id r := r']> m) /\ valid_record r').
Proof using Hrt.
  intros Hr Hv Hm Hc Hs1 Hs2. unfold complete_snapshot. do 2 run_step. rewrite (law_get _ _ _ Hr), Hm.
  rewrite decide_False by congruence. rewrite decide_False by tauto. do 2 run_step.
  set (now := o_now o _). destruct (build_some now r s Hs1 Hs2) as [r' Hb]. rewrite Hb.
  destruct (build_transition _ _ _ _ Hb Hc) as (Ht & c & st & rs & ms & Heq).
  assert (valid_record r') as Hv'.
  { rewrite Heq. apply valid_next_version; [by apply (Hv _ _ Hm)|apply Hrt]. }
  do 3 run_step. split; [done|]. exists now, r'. split; [done|]. split; [|done].
  cbn [w_repo with_repo called]. destruct (law_update_if (w_repo w) m r' CREATING Hr Hv') as [_ Hu].
  rewrite (transition_id _ _ Ht), Hm in Hu.
  by rewrite bool_decide_eq_true_2 in Hu by (simpl; congruence).
Qed.

(** One record of a page. *)
Lemma runs_recover_record r b (w : world T) (m : records) :
  repr (w_repo w) m -> all_valid m -> m !! sr_id r = Some r -> unfinished r ->
  runs o (recover_record r b) w
    (fun x w' => exists m', repr (w_repo w') m' /\ all_valid m' /\
       x = Ok (negb (stuck r) || b) /\
       (forall k, k <> sr_id r -> m' !! k = m !! k) /\
       if stuck r then m' !! sr_id r = Some r else handled r (m' !! sr_id r)).
Proof using Hrt.
  intros Hr Hv Hm Hu. unfold recover_record. run_step. run_step.
  unfold recover_unfinished_snapshot, stuck, handled, recovery_status.
  destruct Hu as [Hs|Hs]; rewrite Hs; simpl decide.
  - rewrite decide_True by done. do 2 run_step. pose proof (ro_inspect Hrt (sr_id r)) as Hi.
    destruct (o_inspect o (sr_id r)) as [s|e].
    + case_decide as Hc.
      * do 4 run_step. rewrite bool_decide_eq_true_2 by done. by exists m.
      * rewrite bool_decide_eq_false_2 by done. run_step. eapply runs_mono; [by apply runs_complete|].
        intros x w' (-> & now & r' & Hb & Hr' & Hv'). do 2 run_step. exists (<[sr_id r := r']> m).
        split_and!; [done|by apply map_Forall_insert_2|done| |rewrite lookup_insert_eq; eauto].
        intros k Hk. by rewrite lookup_insert_ne.
    + cbn beta iota. rewrite Hi. run_step. eapply runs_mono; [by apply runs_complete|].
      intros x w' (-> & now & r' & Hb & Hr' & Hv'). run_step. exists (<[sr_id r := r']> m).
      split_and!; [done|by apply map_Forall_insert_2|done| |rewrite lookup_insert_eq; eauto].
      intros k Hk. by rewrite lookup_insert_ne.
  - rewrite decide_False by congruence. rewrite decide_True by done. do 4 run_step.
    destruct (o_delete o (sr_id r) (rc_image (sr_restore_config r))) as [u|e] eqn:Hd.
    + do 2 run_step. do 3 run_step. exists (delete (sr_id r) m).
      split_and!; [by apply law_delete|by apply map_Forall_delete|done| |by rewrite lookup_delete_eq].
      intros k Hk. by rewrite lookup_delete_ne.
    + rewrite (ro_delete Hrt _ _ _ Hd). do 2 run_step. by exists m.
Qed.

(** What one pass over a page did. *)
Definition page_done (rs : list SnapshotRecord) (m m' : records) : Prop :=
  (forall k, (forall r, r ∈ rs -> sr_id r <> k) -> m' !! k = m !! k) /\
  forall r, r ∈ rs -> if stuck r then m' !! sr_id r = Some r else handled r (m' !! sr_id r).

Lemma runs_recover_page rs : forall b (w : world T) (m : records),
  repr (w_repo w) m -> all_valid m -> NoDup (map sr_id rs) ->
  (forall r, r ∈ rs -> m !! sr_id r = Some r /\ unfinished r) ->
  runs o (recover_page rs b) w
    (fun x w' => x = Ok (existsb (fun r => negb (stuck r)) rs || b) /\
       exists m', repr (w_repo w') m' /\ all_valid m' /\ page_done rs m m').
Proof using Hrt.
  induction rs as [|r rs IH]; intros b w m Hr Hv Hnd Hin; cbn [recover_page].
  { run_step. split; [done|]. exists m. split; [done|]. split; [done|]. split; [done|].
    intros r []%elem_of_nil. }
  inversion Hnd as [|? ? Hni Hnd']; subst. destruct (Hin r) as [Hm Hu]; [set_solver|].
  run_step. eapply runs_mono; [by apply (runs_recover_record r b w m)|].
  intros x w1 (m1 & Hr1 & Hv1 & -> & Hother & Hthis). cbn beta iota.
  assert (forall r', r' ∈ rs -> sr_id r' <> sr_id r) as Hne.
  { intros r' Hr' E. apply Hni. apply list_elem_of_fmap. eauto. }
  eapply runs_mono; [apply (IH _ w1 m1); auto|].
  { intros r' Hr'. rewrite Hother by auto. apply Hin. set_solver. }
  intros x w2 (-> & m2 & Hr2 & Hv2 & Hk & Hrs). split.
  { f_equal. cbn [existsb]. destruct (stuck r), (existsb _ rs); done. }
  exists m2. split; [done|]. split; [done|]. split.
  - intros k Hk'. rewrite Hk by (intros; apply Hk'; set_solver).
    apply Hother. intros ->. apply (Hk' r); [set_solver|done].
  - intros r' [->|Hr']%elem_of_cons; [|by apply Hrs]. by rewrite Hk.
Qed.

(** What the whole recovery promises. *)
Definition recovered (m m' : records) : Prop :=
  forall k, match m !! k with
            | None => m' !! k = None
            | Some r =>
                if decide (unfinished r) then
                  if stuck r then m' !! k = Some r else handled r (m' !! k)
                else m' !! k = Some r
            end.

#[local] Instance unfinished_dec r : Decision (unfinished r) := _.

Lemma recovery_matches r : query_matches recovery_query r = true <-> unfinished r.
Proof.
  unfold query_matches, unfinished. simpl. destruct (sr_state r); simpl; split; intuition congruence.
Qed.

(** A pass that handled a page leaves the rest of the work unchanged. *)
Lemma recovered_page rs m m1 m2 :
  (forall r, r ∈ rs -> m !! sr_id r = Some r /\ unfinished r) ->
  (forall k r, m !! k = Some r -> sr_id r = k) ->
  page_done rs m m1 -> recovered m1 m2 -> recovered m m2.
Proof.
  intros Hin Hid [Hother Hrs] Hrec k. specialize (Hrec k).
  destruct (decide (k ∈ map sr_id rs)) as [(r & -> & Hr)%list_elem_of_fmap|Hni].
  - destruct (Hin r Hr) as [Hm Hu]. rewrite Hm. rewrite decide_True by done.
    specialize (Hrs r Hr). destruct (stuck r) eqn:Hst.
    + rewrite Hrs in Hrec. rewrite decide_True in Hrec by done. by rewrite Hst in Hrec.
    + destruct (m1 !! sr_id r) as [r1|] eqn:E1; [|by rewrite Hrec].
      pose proof (handled_finished _ _ Hu Hrs). rewrite decide_False in Hrec by done. by rewrite Hrec.
  - rewrite Hother in Hrec; [done|]. intros r Hr <-. apply Hni. apply list_elem_of_fmap. eauto.
Qed.

Abbreviation unfinished_count m := (size (filter (fun kr : string * SnapshotRecord => unfinished kr.2) m)).
Abbreviation stuck_count m := (size (filter (fun kr : string * SnapshotRecord => stuck kr.2 = true) m)).

Lemma stuck_unfinished r : stuck r = true -> unfinished r.
Proof. unfold stuck, unfinished. destruct (sr_state r); auto; done. Qed.

(** After a pass, what is unfinished was unfinished before. *)
Lemma page_done_inv rs m m1 k r :
  (forall r, r ∈ rs -> m !! sr_id r = Some r /\ unfinished r) ->
  page_done rs m m1 -> m1 !! k = Some r -> unfinished r -> m !! k = Some r.
Proof.
  intros Hin [Hother Hrs] Hm1 Hu.
  destruct (decide (k ∈ map sr_id rs)) as [(r0 & -> & Hr0)%list_elem_of_fmap|Hni].
  - destruct (Hin r0 Hr0) as [Hm Hu0]. specialize (Hrs r0 Hr0). rewrite Hm1 in Hrs.
    destruct (stuck r0); [congruence|]. by destruct (handled_finished _ _ Hu0 Hrs).
  - rewrite <- Hother; [done|]. intros r0 Hr0 <-. apply Hni. apply list_elem_of_fmap. eauto.
Qed.

Lemma page_done_counts rs m m1 :
  (forall r, r ∈ rs -> m !! sr_id r = Some r /\ unfinished r) -> page_done rs m m1 ->
  (stuck_count m1 <= stuck_count m)%nat /\
  (existsb (fun r => negb (stuck r)) rs = true -> (unfinished_count m1 < unfinished_count m)%nat).
Proof.
  intros Hin Hd. split.
  - apply map_subseteq_size. apply map_subseteq_spec. intros k r.
    rewrite !map_lookup_filter_Some. intros [Hm Hs]. split; [|done].
    eapply page_done_inv; eauto using stuck_unfinished.
  - intros (r & Hr & Hs)%existsb_exists. apply list_elem_of_In in Hr.
    apply map_subset_size. apply map_subset_alt. split.
    + apply map_subseteq_spec. intros k r'. rewrite !map_lookup_filter_Some.
      intros [Hm Hu]. split; [|done]. by eapply page_done_inv.
    + exists (sr_id r). destruct (Hin r Hr) as [Hm Hu]. split.
      * apply map_lookup_filter_None_2. destruct Hd as [_ Hrs]. specialize (Hrs r Hr).
        apply negb_true_iff in Hs. rewrite Hs in Hrs.
        destruct (m1 !! sr_id r) as [r1|] eqn:E; [|by left]. right. intros r2 [= <-].
        by apply (handled_finished r).
      * exists r. by apply map_lookup_filter_Some.
Qed.

Lemma values_NoDup (m : records) :
  (forall k r, m !! k = Some r -> sr_id r = k) -> NoDup (map_to_list m).*2.
Proof.
  intros Hid. apply NoDup_fmap_2_strong; [|apply NoDup_map_to_list].
  intros [k1 r1] [k2 r2] H1%elem_of_map_to_list H2%elem_of_map_to_list. simpl. intros <-.
  by rewrite <- (Hid _ _ H1), <- (Hid _ _ H2).
Qed.

(** The page a pass works on: the newest 200 unfinished records. *)
Lemma recovery_page (w : world T) (m : records) :
  repr (w_repo w) m ->
  exists all, repo_rows recovery_query (w_repo w) = Ok (take 200 all) /\
    (forall r, r ∈ all <-> m !! sr_id r = Some r /\ unfinished r) /\ NoDup (map sr_id all).
Proof.
  intros Hr. destruct (repo_rows_in _ _ recovery_query Hr) as (all & Hp & _ & Hrows & Hin).
  pose proof (fun k r => repr_id _ _ k r Hr) as Hid. exists all. split_and!.
  - rewrite Hrows. reflexivity.
  - intros r. split.
    + intros Hall. destruct (Hin r Hall) as [Hm Hq]. by rewrite recovery_matches in Hq.
    + intros [Hm Hu]. rewrite Hp. apply list_elem_of_filter. rewrite recovery_matches. split; [done|].
      apply list_elem_of_fmap. exists (sr_id r, r). split; [done|]. by apply elem_of_map_to_list.
  - apply NoDup_fmap_2_strong.
    + intros r1 r2 [H1 _]%Hin [H2 _]%Hin E. rewrite E in H1. congruence.
    + rewrite Hp. apply NoDup_filter, values_NoDup, Hid.
Qed.

Lemma page_NoDup n (all : list SnapshotRecord) : NoDup (map sr_id all) -> NoDup (map sr_id (take n all)).
Proof. intros Hnd. rewrite <- firstn_map. eapply sublist_NoDup; [done|apply sublist_take]. Qed.

(** A full page of stuck records means at least 200 of them. *)
Lemma stuck_page all (m : records) :
  (forall r, r ∈ all <-> m !! sr_id r = Some r /\ unfinished r) -> NoDup (map sr_id all) ->
  Forall (fun r => stuck r = true) (take 200 all) -> (stuck_count m < 200)%nat -> take 200 all = all.
Proof.
  intros Hall Hnd Hst Hcount. apply take_ge. destruct (decide (length all <= 200)%nat) as [|Hlt]; [done|].
  exfalso.
  assert (length (filter (fun r => stuck r = true) (map_to_list m).*2) < 200)%nat as Hlen
    by (rewrite values_filter_length; exact Hcount).
  assert (take 200 all ⊆+ filter (fun r => stuck r = true) (map_to_list m).*2) as Hsub.
  { apply NoDup_submseteq.
    - by apply (NoDup_fmap_1 sr_id), page_NoDup.
    - intros r Hr. rewrite Forall_forall in Hst. apply list_elem_of_filter. split; [by apply Hst|].
      apply list_elem_of_fmap. exists (sr_id r, r). split; [done|]. apply elem_of_map_to_list.
      apply Hall. by apply elem_of_take in Hr as (i & ? & _); eapply list_elem_of_lookup_2. }
  apply submseteq_length in Hsub. rewrite length_take in Hsub. lia.
Qed.

Lemma recovered_stuck all (m : records) :
  (forall r, r ∈ all <-> m !! sr_id r = Some r /\ unfinished r) ->
  (forall k r, m !! k = Some r -> sr_id r = k) ->
  Forall (fun r => stuck r = true) all -> recovered m m.
Proof.
  intros Hall Hid Hst k. destruct (m !! k) as [r|] eqn:Hm; [|done].
  case_decide as Hu; [|done]. rewrite Forall_forall in Hst. rewrite Hst; [done|].
  apply Hall. by rewrite (Hid k r Hm).
Qed.

Lemma no_progress_stuck rs :
  existsb (fun r => negb (stuck r)) rs = false -> Forall (fun r => stuck r = true) rs.
Proof.
  induction rs as [|r rs IH]; [constructor|]. cbn [existsb]. rewrite orb_false_iff, negb_false_iff.
  intros [? ?]. constructor; auto.
Qed.

Lemma page_stuck_same rs (m m1 : records) :
  (forall r, r ∈ rs -> m !! sr_id r = Some r /\ unfinished r) -> page_done rs m m1 ->
  Forall (fun r => stuck r = true) rs -> m1 = m.
Proof.
  intros Hin [Hother Hrs] Hst. apply map_eq. intros k.
  destruct (decide (k ∈ map sr_id rs)) as [(r & -> & Hr)%list_elem_of_fmap|Hni].
  - specialize (Hrs r Hr). rewrite Forall_forall in Hst. rewrite Hst in Hrs by done.
    rewrite Hrs. symmetry. by apply Hin.
  - apply Hother. intros r Hr <-. apply Hni. apply list_elem_of_fmap. eauto.
Qed.

(** C36: as long as fewer than 200 records are stuck in the runtime, start-up
    recovery ends and brings every other unfinished record to its end: a
    record being created becomes what the runtime reports (Ready with its
    image, or Failed, also when the runtime cannot tell), a record being
    deleted is gone, and all other records are untouched.  One pass more than
    there are unfinished records is always enough. *)
Theorem recovery_completes fuel (w : world T) (m : records) :
  repr (w_repo w) m -> all_valid m ->
  (stuck_count m < 200)%nat -> (unfinished_count m < fuel)%nat ->
  runs o (recover_unfinished_snapshots fuel) w
    (fun x w' => x = Ok tt /\ exists m', repr (w_repo w') m' /\ recovered m m').
Proof using Hrt.
  revert w m. induction fuel as [|fuel IH]; intros w m Hr Hv Hstuck Hfuel; [lia|].
  cbn [recover_unfinished_snapshots]. unfold repository_list. do 3 run_step. do 2 run_step.
  destruct (recovery_page w m Hr) as (all & Hrows & Hall & Hnd). cbn [w_repo called].
  pose proof (fun k r => repr_id _ _ k r Hr) as Hid.
  rewrite Hrows. run_step. cbn [fst].
  assert (forall r, r ∈ take 200 all -> m !! sr_id r = Some r /\ unfinished r) as Hin.
  { intros r Hr'. apply Hall. by apply elem_of_take in Hr' as (i & ? & _); eapply list_elem_of_lookup_2. }
  destruct (take 200 all) as [|r rs] eqn:Htake.
  { run_step. split; [done|]. exists m. split; [done|]. apply (recovered_stuck all); [done|done|].
    by destruct all. }
  rewrite <- Htake in *. run_step.
  eapply runs_mono; [apply (runs_recover_page (take 200 all) _ _ m);
                     [exact Hr|done|by apply page_NoDup|exact Hin]|].
  intros x w1 (-> & m1 & Hr1 & Hv1 & Hd). rewrite orb_false_r.
  destruct (page_done_counts _ _ _ Hin Hd) as [Hsc Huc].
  destruct (existsb (fun r => negb (stuck r)) (take 200 all)) eqn:Hex.
  - eapply runs_mono; [apply (IH w1 m1); auto; [lia|specialize (Huc eq_refl); lia]|].
    intros x w2 (-> & m2 & Hr2 & Hrec). split; [done|]. exists m2. split; [done|].
    by eapply recovered_page.
  - assert (Forall (fun r => stuck r = true) (take 200 all)) as Hst.
    { by apply no_progress_stuck. }
    rewrite (page_stuck_same _ _ _ Hin Hd Hst) in *. run_step. split; [done|]. exists m.
    split; [done|]. rewrite (stuck_page all m) in Hst by done. by apply (recovered_stuck all).
Qed.
End recovery.

(** ** Examples on the SQLite repository *)

Definition demo_oracle : oracle := {|
  o_now := fun n => demo_instant (Z.of_nat n mod 1000000);
  o_uuid := fun n => "fresh";
  o_sandbox := fun _ => Ok (SandboxObj (Some (StatusObj (Some "Running"))));
  o_supports := true;
  o_create := fun _ => Ok None;
  o_delete := fun k _ => if (k =? "gone")%string then Raise (SExc "no route") else Ok tt;
  o_inspect := fun k =>
    if (k =? "slow")%string then Ok (mkRuntimeStatus CREATING None None None)
    else if (k =? "lost")%string then Raise (SExc "not found")
    else Ok (mkRuntimeStatus READY (Some "reg/img:2") None None)
|}.

Definition demo_unfinished : list SnapshotRecord :=
  [demo_record "slow" CREATING 1; demo_record "done" CREATING 2; demo_record "lost" CREATING 3;
   demo_record "old" DELETING 4; demo_record "gone" DELETING 5; demo_record "kept" READY 6].

Definition world_of (rs : list SnapshotRecord) : world Table := mkWorld (map to_db_tuple rs) [] [].

(** The records and their states after running an operation. *)
Definition states_after (p : prog unit) (rs : list SnapshotRecord) : list (string * string) :=
  map (fun row => (row_id row, row_state row)) (w_repo (run demo_oracle p (world_of rs)).2).

Lemma demo_runtime_ok : runtime_ok demo_oracle.
Proof.
  split.
  - intros n. simpl. pose proof (Z.mod_pos_bound (Z.of_nat n) 1000000 ltac:(lia)).
    unfold valid_datetime. simpl. by apply in_range_spec; lia.
  - intros k. simpl. destruct (k =? "slow")%string; [done|]. by destruct (k =? "lost")%string.
  - intros k image e. simpl. case_match; [by intros [= <-]|done].
Qed.

Lemma by_id_valid rs : NoDup (map sr_id rs) -> Forall valid_record rs -> all_valid (by_id rs).
Proof.
  intros Hnd Hv k r [Hr _]%by_id_lookup; [|done]. rewrite Forall_forall in Hv. by apply Hv.
Qed.

Lemma demo_unfinished_ok :
  NoDup (map sr_id demo_unfinished) /\ Forall valid_record demo_unfinished.
Proof.
  split; [by apply (bool_decide_eq_true (NoDup (map sr_id demo_unfinished)))|].
  repeat constructor; intros d [= <-]; reflexivity.
Qed.

Lemma demo_unfinished_repr : table_repr (map to_db_tuple demo_unfinished) (by_id demo_unfinished).
Proof. exists demo_unfinished. destruct demo_unfinished_ok. done. Qed.

(** Six records, two of them stuck. *)
Lemma recovery_witness :
  states_after (recover_unfinished_snapshots 6) demo_unfinished =
    [("slow", "Creating"); ("done", "Ready"); ("lost", "Failed"); ("gone", "Deleting");
     ("kept", "Ready")] /\
  runs demo_oracle (recover_unfinished_snapshots 6) (world_of demo_unfinished)
    (fun x w' => x = Ok tt /\
       exists m', repr (w_repo w') m' /\ recovered demo_oracle (by_id demo_unfinished) m').
Proof.
  split; [vm_compute; reflexivity|].
  apply (recovery_completes demo_oracle demo_runtime_ok 6 (world_of demo_unfinished) (by_id demo_unfinished)).
  - exact demo_unfinished_repr.
  - apply by_id_valid; [exact (proj1 demo_unfinished_ok)|exact (proj2 demo_unfinished_ok)].
  - vm_compute. lia.
  - vm_compute. lia.
Defined.

(** The recovery loop hands a record that is still being created to the
    executor once per pass, so that several workers create the same snapshot. *)
Lemma recovery_resubmits :
  map sr_id (w_queue (run demo_oracle (recover_unfinished_snapshots 6) (world_of demo_unfinished)).2)
  = ["slow"; "slow"].
Proof. vm_compute. done. Qed.

(** 200 records that are still being created hide an older one that the runtime
    finished long ago. *)
Definition crowd : list SnapshotRecord :=
  demo_record "done" CREATING 0 ::
  map (fun n => demo_record (String.append "slow" (of_chars (pad 3 (Z.of_nat n)))) CREATING
                  (1 + Z.of_nat n)) (seq 0 200).

Definition crowd_oracle : oracle := {|
  o_now := o_now demo_oracle; o_uuid := o_uuid demo_oracle; o_sandbox := o_sandbox demo_oracle;
  o_supports := true; o_create := o_create demo_oracle; o_delete := o_delete demo_oracle;
  o_inspect := fun k => if String.prefix "slow" k then Ok (mkRuntimeStatus CREATING None None None)
                        else Ok (mkRuntimeStatus READY (Some "reg/img:2") None None)
|}.

Lemma crowd_starves_recovery :
  let '(x, w) := run crowd_oracle (recover_unfinished_snapshots 300) (world_of crowd) in
  x = Ok tt /\ w_repo w = map to_db_tuple crowd.
Proof. vm_compute. done. Qed.

Lemma delete_snapshot_witness :
  states_after (delete_snapshot (Some "team-a") "kept") demo_unfinished =
    [("slow", "Creating"); ("done", "Creating"); ("lost", "Creating"); ("old", "Deleting");
     ("gone", "Deleting")] /\
  runs demo_oracle (delete_snapshot (Some "team-a") "kept") (world_of demo_unfinished)
    (fun x w' => match by_id demo_unfinished !! "kept" with
       | None => x = Raise not_found /\ repr (w_repo w') (by_id demo_unfinished)
       | Some r =>
           (foreign (Some "team-a") r -> x = Raise not_found /\ repr (w_repo w') (by_id demo_unfinished)) /\
           (~ foreign (Some "team-a") r -> sr_state r = CREATING ->
              x = Raise invalid_state /\ repr (w_repo w') (by_id demo_unfinished)) /\
           (~ foreign (Some "team-a") r -> sr_state r <> CREATING ->
              match o_delete demo_oracle "kept" (rc_image (sr_restore_config r)) with
              | Ok _ => x = Ok tt /\ repr (w_repo w') (delete "kept" (by_id demo_unfinished))
              | Raise e => x = Raise e /\ exists r',
                  repr (w_repo w') (<["kept" := r']> (by_id demo_unfinished)) /\
                  sr_state r' = DELETING /\ same_identity r r' /\ keeps_config r r'
              end)
       end).
Proof.
  split; [vm_compute; reflexivity|].
  apply (delete_snapshot_spec demo_oracle (ro_now _ demo_runtime_ok) (Some "team-a") "kept"
           (world_of demo_unfinished) (by_id demo_unfinished)).
  - exact demo_unfinished_repr.
  - apply by_id_valid; [exact (proj1 demo_unfinished_ok)|exact (proj2 demo_unfinished_ok)].
Defined.

Definition everything : ListSnapshotsRequest :=
  {| lr_sandbox_id := None; lr_name := None; lr_state := None; lr_pagination := None |}.

Lemma tenant_isolation_witness :
  ((forall r, by_id demo_unfinished !! "kept" = Some r -> sr_namespace r <> Some "team-b") ->
     run demo_oracle (get_snapshot (Some "team-b") "kept") (world_of demo_unfinished)
       = (Raise not_found, called (RepoGet "kept") (world_of demo_unfinished)) /\
     run demo_oracle (delete_snapshot (Some "team-b") "kept") (world_of demo_unfinished)
       = (Raise not_found, called (RepoGet "kept") (world_of demo_unfinished))) /\
  runs demo_oracle (list_snapshots (Some "team-b") everything) (world_of demo_unfinished)
    (fun x w' => w_repo w' = w_repo (world_of demo_unfinished) /\ exists resp items, x = Ok resp /\
       ls_items resp = map to_snapshot_response items /\
       (forall r, r ∈ items ->
          by_id demo_unfinished !! sr_id r = Some r /\ sr_namespace r = Some "team-b") /\
       exists all, pi_total_items (ls_pagination resp) = Z.of_nat (length all) /\
         forall r, r ∈ all ->
           by_id demo_unfinished !! sr_id r = Some r /\ sr_namespace r = Some "team-b").
Proof.
  apply (tenant_isolation demo_oracle "team-b" "kept" everything (world_of demo_unfinished)
           (by_id demo_unfinished)).
  exact demo_unfinished_repr.
Defined.

(** A server on that table, a request to delete a snapshot, the look-up, the
    clock; the next step marks the record as being deleted. *)
Definition demo_base (t : Table) : base Table :=
  mkBase t [] false ∅ (list_to_set (map sr_id demo_unfinished)).

Definition kept : SnapshotRecord := demo_record "kept" READY 6.

Lemma demo_init : init (mkSys (demo_base (map to_db_tuple demo_unfinished)) []).
Proof.
  exists (by_id demo_unfinished). split; [exact demo_unfinished_repr|]. split; [|done].
  intros k r [Hr <-]%by_id_lookup; [|exact (proj1 demo_unfinished_ok)]. split.
  { apply elem_of_list_to_set. apply list_elem_of_fmap. eauto. }
  split; [|intros _; repeat (apply elem_of_cons in Hr as [->|Hr]; [done|]); by apply elem_of_nil in Hr].
  pose proof (proj2 demo_unfinished_ok) as Hv. rewrite Forall_forall in Hv. by apply Hv.
Qed.

Lemma snapshot_lifecycle_witness :
  exists s s', rtc step (mkSys (demo_base (map to_db_tuple demo_unfinished)) []) s /\ step s s' /\
    (sr_state <$> by_id demo_unfinished !! "kept" = Some READY) /\
    (row_state <$> last (b_repo (s_base s')) = Some "Deleting") /\
    exists m m', repr (b_repo (s_base s)) m /\ repr (b_repo (s_base s')) m' /\
      lifecycle_step (b_known (s_base s)) m m' /\
      (forall k r, m' !! k = Some r -> sr_state r = READY -> has_image r).
Proof.
  eexists _, _.
  match goal with |- ?R /\ ?S /\ _ =>
    assert (R /\ S) as [HR HS]; [split|]
  end.
  - eapply rtc_l; [apply (step_request _ _ (ReqDelete (Some "team-a") "kept"))|].
    eapply rtc_l.
    { eapply (step_thread _ (demo_base (map to_db_tuple demo_unfinished)) _ 0 (RepoGet "kept") _
               (Ok (Some kept)) None None); [reflexivity|].
      split; [reflexivity|]. right. vm_compute. reflexivity. }
    eapply rtc_l.
    { eapply (step_thread _ (demo_base (map to_db_tuple demo_unfinished)) _ 0 Now _
               (Ok (demo_instant 9)) None None); [reflexivity|].
      split; [reflexivity|]. exists (demo_instant 9). split; reflexivity. }
    apply rtc_refl.
  - eapply (step_thread _ _ _ 0 (RepoUpdateIf (deleting_version kept (demo_instant 9)) READY) _
              (Ok true) None None); [reflexivity|].
    right. split; [vm_compute; reflexivity|reflexivity].
  - split; [exact HR|]. split; [exact HS|]. split; [vm_compute; reflexivity|].
    split; [vm_compute; reflexivity|].
    apply (snapshot_lifecycle _ _ _ demo_init HR HS).
Defined.
