(* ===== verification/CallTree.v ===== *)
(** * Operations as trees of calls

    A method that calls others' code is a tree: a result, or a call and what the
    method does with each answer.  Calls of several threads interleave, and
    exceptions are values. *)

From Stdlib Require Import ZArith String.
From stdpp Require Import base list.
From S2P Require Import Prelude.

Inductive tree {C : Type} (R : C -> Type) (A : Type) : Type :=
  | TRet (a : A)
  | TCall (c : C) (k : R c -> tree R A).
Arguments TRet {C R A} a.
Arguments TCall {C R A} c k.

Fixpoint tbind {C} {R : C -> Type} {A B} (t : tree R A) (f : A -> tree R B) : tree R B :=
  match t with
  | TRet a => f a
  | TCall c k => TCall c (fun r => tbind (k r) f)
  end.

Declare Scope calls_scope.
Delimit Scope calls_scope with calls.
Notation "x <~ c ;; t" := (TCall c (fun x => t)) (at level 100, c at next level, right associativity) : calls_scope.
Notation "'let*' x := t 'in' u" := (tbind t (fun x => u)) (at level 100, x name, right associativity) : calls_scope.

(** The result when the answers are fixed *)
Fixpoint outcome_of {C} {R : C -> Type} {A} (answers : forall c, R c) (p : tree R A) : A :=
  match p with
  | TRet a => a
  | TCall c f => outcome_of answers (f (answers c))
  end.

(** What a client of the Kubernetes API raises, with [str] of it: an
    [ApiException], another [Exception], or something else *)
Inductive api_exc := ApiException (status : Z) (text : string) | OtherError (text : string) | BaseError (text : string).

Definition exc_text (e : api_exc) : string :=
  match e with ApiException _ t | OtherError t | BaseError t => t end.

(** ** What results rest on

    A method learns facts from answers; [well_formed] says which calls the facts
    learnt so far allow, [answer_ok] what answers are to be expected. *)
Section justified.
Context {C : Type} {R : C -> Type} {F : Type}.
Context (learn : forall c, R c -> list F) (well_formed : list F -> C -> Prop) (answer_ok : forall c, R c -> Prop).

(** Whatever is answered, the calls are well formed and the result is justified
    by what was learnt. *)
Fixpoint justified {A} (claim : list F -> A -> Prop) (facts : list F) (p : tree R A) : Prop :=
  match p with
  | TRet a => claim facts a
  | TCall c f => well_formed facts c /\ forall r, answer_ok c r -> justified claim (learn c r ++ facts) (f r)
  end.

Lemma justified_bind {A B} (claim : list F -> A -> Prop) (claim' : list F -> B -> Prop) facts p f :
  justified claim facts p -> (forall facts' a, claim facts' a -> justified claim' facts' (f a)) -> justified claim' facts (tbind p f).
Proof.
  intros Hp Hf. revert facts Hp. induction p as [a|c g IH]; intros facts; simpl; [auto|].
  intros [Hc Hg]. split; [done|]. intros r Hr. by apply IH, Hg.
Qed.
End justified.
