(* ===== verification/SnapshotRuntimes.v ===== *)
(** * Snapshot runtimes

    [services/k8s/snapshot_runtime.py] and [services/docker/snapshot_runtime.py],
    which carry out what the snapshot service asks for: snapshots as custom
    objects that a controller works on, or as images the daemon commits.

    A method is a tree of the calls it makes, so that calls of different threads
    interleave; exceptions are values.  Instants and durations are integers
    (microseconds).  A custom object is a record of the fields the code reads,
    with the types its CRD gives them: none of them is [null].  Log lines are not
    modelled. *)

From Stdlib Require Import ZArith Lia String Ascii.
From stdpp Require Import base numbers strings gmap list.
From S2P Require Import Prelude PyString Regex PyText PyCodec Sha256 Signing CallTree SnapshotRepo SnapshotService.

Open Scope string_scope.
Open Scope Z_scope.

(** ** Names *)

(** [UUID(value)] for a text: the integer, or [None] for a [ValueError]. *)

(** [l.replace(needle, "")] *)
Fixpoint remove_sub (needle : list ascii) (skip : nat) (l : list ascii) : list ascii :=
  match l with
  | [] => []
  | c :: l' =>
      match skip with
      | S k => remove_sub needle k l'
      | O => if bool_decide (take (length needle) l = needle) then remove_sub needle (length needle - 1) l'
             else c :: remove_sub needle 0 l'
      end
  end.

(** Hexadecimal digits, with single underscores between them *)
Fixpoint hex_digits (after_digit : bool) (acc : Z) (l : list ascii) : option Z :=
  match l with
  | [] => if after_digit then Some acc else None
  | c :: l =>
      match unhex c with
      | Some d => hex_digits true (16 * acc + d) l
      | None => if decide (c = "_"%char) then if after_digit then hex_digits false acc l else None else None
      end
  end.

(** Digits after an optional [0x], which one underscore may follow *)
Definition after_prefix (l : list ascii) : option Z :=
  match l with
  | a :: b :: l' =>
      if bool_decide (a = "0"%char) && (bool_decide (b = "x"%char) || bool_decide (b = "X"%char)) then
        hex_digits false 0 (match l' with c :: l'' => if decide (c = "_"%char) then l'' else l' | [] => [] end)
      else hex_digits false 0 l
  | _ => hex_digits false 0 l
  end.

(** [int(text, 16)] *)
Definition int_of_hex (l : list ascii) : option Z :=
  match strip_list (int_space l) l with
  | [] => None
  | c :: l' =>
      if decide (c = "-"%char) then Z.opp <$> after_prefix l'
      else if decide (c = "+"%char) then after_prefix l'
      else after_prefix (c :: l')
  end.

Definition is_brace (c : ascii) : bool := bool_decide (c = "{"%char) || bool_decide (c = "}"%char).

Definition uuid_int (value : string) : option Z :=
  let hex := remove_sub (chars "uuid:") 0 (remove_sub (chars "urn:") 0 (chars value)) in
  let hex := filter (fun c => c <> "-"%char) (strip_list is_brace hex) in
  if (length hex =? 32)%nat then
    n ← int_of_hex hex;
    if (0 <=? n) && (n <? 2 ^ 128) then Some n else None
  else None.

(** [%0<w>x] *)
Fixpoint hex_pad (w : nat) (n : Z) : list ascii :=
  match w with
  | O => []
  | S w => (hex_pad w (n / 16) ++ [hex_digit (n mod 16)])%list
  end.

Definition stable_hex (value : string) : list ascii :=
  match uuid_int value with
  | Some n => hex_pad 32 n
  | None => take 32 (hex (sha256 (utf8 value)))
  end.

Definition build_public_snapshot_name (snapshot_id : string) : string := "osb-snap-" +:+ of_chars (stable_hex snapshot_id).
Definition build_public_snapshot_tag (snapshot_id : string) : string := "snap-" +:+ of_chars (stable_hex snapshot_id).

(** [str(uuid4())]: the text of a 128-bit integer *)
Definition uuid_text (n : Z) : string :=
  let h := hex_pad 32 n in
  of_chars (take 8 h ++ "-"%char :: take 4 (drop 8 h) ++ "-"%char :: take 4 (drop 12 h) ++
            "-"%char :: take 4 (drop 16 h) ++ "-"%char :: drop 20 h)%list.

Definition is_uuid (s : string) : Prop := exists n, 0 <= n < 2 ^ 128 /\ s = uuid_text n.

Example uuid_forms :
  map uuid_int ["urn:uuid:{00000000-0000-0000-0000-00000000002A}"; uuid_text 42; "0x_0000000000000000000000000002a"; "snapshot-1"] =
  [Some 42; Some 42; Some 42; None].
Proof. vm_compute. reflexivity. Qed.

Lemma length_hex_pad w n : length (hex_pad w n) = w.
Proof. revert n. induction w as [|w IH]; intros n; simpl; [done|]. rewrite length_app, IH. simpl. lia. Qed.

Lemma hex_pad_ok w n : forallb is_lower_hex (hex_pad w n) = true.
Proof.
  revert n. induction w as [|w IH]; intros n; [done|]. cbn [hex_pad]. rewrite forallb_app, IH. simpl.
  by rewrite hex_digit_ok by (apply Z.mod_pos_bound; lia).
Qed.

Lemma unhex_hex_digit n : 0 <= n < 16 -> unhex (hex_digit n) = Some n.
Proof.
  intros Hn. unfold unhex, hex_digit, is_digit, between. destruct (Z.ltb_spec n 10).
  - rewrite code_digit by lia. replace _ with true by lia. f_equal. lia.
  - rewrite code_ascii_of_N, Z2N.id by lia. repeat (case_match; try (exfalso; bool_lia)). f_equal. lia.
Qed.

Lemma hex_digits_pad w : forall n b acc l, 0 <= n < 16 ^ Z.of_nat w ->
  hex_digits b acc (hex_pad w n ++ l) = hex_digits (b || negb (w =? 0)%nat) (acc * 16 ^ Z.of_nat w + n) l.
Proof.
  induction w as [|w IH]; intros n b acc l Hn.
  { simpl. rewrite orb_false_r. f_equal. simpl in Hn. lia. }
  rewrite Nat2Z.inj_succ, Z.pow_succ_r in * by lia. cbn [hex_pad]. rewrite <- app_assoc, IH by
    (split; [apply Z.div_pos|apply Z.div_lt_upper_bound]; lia).
  pose proof (Z.mod_pos_bound n 16 ltac:(lia)). pose proof (Z.div_mod n 16 ltac:(lia)).
  cbn [app hex_digits]. rewrite unhex_hex_digit by done. simpl. rewrite orb_true_r. f_equal. lia.
Qed.

Lemma remove_sub_id c needle l : c ∉ l -> remove_sub (c :: needle) 0 l = l.
Proof.
  induction l as [|x l IH]; [done|]. intros [Hx Hl]%not_elem_of_cons. cbn [remove_sub].
  rewrite bool_decide_eq_false_2 by (simpl; congruence). by rewrite IH.
Qed.

Lemma forallb_parts {A} (f : A -> bool) n l : forallb f l = true -> forallb f (take n l) = true /\ forallb f (drop n l) = true.
Proof. rewrite <- (take_drop n l) at 1. rewrite forallb_app. apply andb_prop. Qed.

(** What the text of a uuid is made of *)
Definition uuid_char (c : ascii) : bool := is_lower_hex c || bool_decide (c = "-"%char).

Lemma uuid_chars n : forallb uuid_char (chars (uuid_text n)) = true.
Proof.
  unfold uuid_text. rewrite chars_of_chars. pose proof (hex_pad_ok 32 n) as H. revert H. generalize (hex_pad 32 n). intros h H.
  assert (forallb uuid_char h = true) as Hh.
  { apply forallb_forall. intros c Hc. unfold uuid_char. by rewrite (proj1 (forallb_forall _ _) H c Hc). }
  repeat (rewrite ?forallb_app; cbn [forallb]).
  repeat match goal with |- context [forallb uuid_char ?l] =>
    replace (forallb uuid_char l) with true by (symmetry; repeat (done || apply (forallb_parts _ _ _))) end.
  done.
Qed.

Lemma uuid_text_plain n c : uuid_char c = false -> c ∉ chars (uuid_text n).
Proof.
  intros Hc Hin%list_elem_of_In. pose proof (proj1 (forallb_forall _ _) (uuid_chars n) c Hin). congruence.
Qed.

Lemma filter_no_dash l : forallb is_lower_hex l = true -> filter (fun c => c <> "-"%char) l = l.
Proof.
  induction l as [|c l IH]; [done|]. simpl. intros [Hc Hl]%andb_prop. rewrite filter_cons_True; [by rewrite IH|].
  intros ->. vm_compute in Hc. done.
Qed.

Lemma uuid_text_digits n : filter (fun c => c <> "-"%char) (chars (uuid_text n)) = hex_pad 32 n.
Proof.
  unfold uuid_text. rewrite chars_of_chars. pose proof (hex_pad_ok 32 n) as H. revert H. generalize (hex_pad 32 n). intros h H.
  repeat (rewrite ?filter_app; rewrite filter_cons_False by (intros Hd; by apply Hd)).
  assert (h = take 8 h ++ take 4 (drop 8 h) ++ take 4 (drop 12 h) ++ take 4 (drop 16 h) ++ drop 20 h)%list as E.
  { rewrite <- (take_drop 8 h) at 1. f_equal. rewrite <- (take_drop 4 (drop 8 h)) at 1. rewrite drop_drop. f_equal.
    change (8 + 4)%nat with 12%nat. rewrite <- (take_drop 4 (drop 12 h)) at 1. rewrite drop_drop. f_equal.
    change (12 + 4)%nat with 16%nat. rewrite <- (take_drop 4 (drop 16 h)) at 1. by rewrite drop_drop. }
  rewrite <- !filter_app, <- E. by apply filter_no_dash.
Qed.

Lemma lower_hex_not_special c : is_lower_hex c = true -> c <> "x"%char /\ c <> "X"%char /\ c <> "-"%char /\ c <> "+"%char.
Proof. intros Hc. split_and!; intros ->; vm_compute in Hc; done. Qed.

Lemma lower_hex_not_space l : forallb is_lower_hex l = true -> forall c, c ∈ l -> int_space l c = false.
Proof.
  intros H c Hc%list_elem_of_In. apply (proj1 (forallb_forall _ _) H) in Hc.
  unfold int_space, is_lower_hex, is_digit, is_space, between in *. case_match; bool_lia.
Qed.

Lemma hex_digits_all n : 0 <= n < 2 ^ 128 -> hex_digits false 0 (hex_pad 32 n) = Some n.
Proof.
  intros Hn. rewrite <- (app_nil_r (hex_pad 32 n)), hex_digits_pad by (change (16 ^ Z.of_nat 32) with (2 ^ 128); done).
  rewrite Z.mul_0_l. reflexivity.
Qed.

Lemma int_of_hex_pad n : 0 <= n < 2 ^ 128 -> int_of_hex (hex_pad 32 n) = Some n.
Proof.
  intros Hn. unfold int_of_hex. pose proof (hex_pad_ok 32 n) as Hok. rewrite strip_list_id by by apply lower_hex_not_space.
  pose proof (hex_digits_all n Hn) as Hd.
  pose proof (length_hex_pad 32 n) as Hl. destruct (hex_pad 32 n) as [|a [|b l]]; [done|done|].
  cbn [forallb] in Hok. apply andb_prop in Hok as [Ha [Hb _]%andb_prop].
  apply lower_hex_not_special in Ha as (_ & _ & ? & ?), Hb as (? & ? & _ & _).
  rewrite !decide_False by done. unfold after_prefix. rewrite (bool_decide_eq_false_2 (b = "x"%char)), (bool_decide_eq_false_2 (b = "X"%char)) by done.
  rewrite andb_false_r. exact Hd.
Qed.

Lemma uuid_int_text n : 0 <= n < 2 ^ 128 -> uuid_int (uuid_text n) = Some n.
Proof.
  intros Hn. unfold uuid_int. change (chars "urn:") with ("u"%char :: chars "rn:"). change (chars "uuid:") with ("u"%char :: chars "uid:").
  rewrite !remove_sub_id by (rewrite ?remove_sub_id; by apply uuid_text_plain).
  rewrite strip_list_id.
  - rewrite uuid_text_digits, length_hex_pad, int_of_hex_pad by done. simpl.
    replace (0 <=? n) with true by lia. by replace (n <? _) with true by lia.
  - intros c Hc. destruct (is_brace c) eqn:E; [|done]. exfalso. apply orb_prop in E as [->%bool_decide_eq_true| ->%bool_decide_eq_true];
      revert Hc; by apply uuid_text_plain.
Qed.

Lemma stable_hex_text n : 0 <= n < 2 ^ 128 -> stable_hex (uuid_text n) = hex_pad 32 n.
Proof. intros Hn. unfold stable_hex. by rewrite uuid_int_text. Qed.

Lemma hex_pad_inj n m : 0 <= n < 2 ^ 128 -> 0 <= m < 2 ^ 128 -> hex_pad 32 n = hex_pad 32 m -> n = m.
Proof. intros Hn Hm H. apply (f_equal int_of_hex) in H. rewrite !int_of_hex_pad in H by done. congruence. Qed.

(** Different uuids get different names. *)
Lemma snapshot_name_inj a b : is_uuid a -> is_uuid b -> build_public_snapshot_name a = build_public_snapshot_name b -> a = b.
Proof.
  intros (n & Hn & ->) (m & Hm & ->) H. unfold build_public_snapshot_name in H. rewrite !stable_hex_text in H by done.
  apply (f_equal chars) in H. rewrite !chars_app in H. apply app_inv_head in H. rewrite !chars_of_chars in H.
  f_equal. by apply hex_pad_inj.
Qed.

Lemma stable_hex_ok id : length (stable_hex id) = 32%nat /\ forallb is_lower_hex (stable_hex id) = true.
Proof.
  unfold stable_hex. destruct (uuid_int id) as [n|]; [by rewrite length_hex_pad, hex_pad_ok|].
  destruct (sha256_bytes (utf8 id)) as [Hl Hb]. pose proof (hex_ok _ Hb) as Hh. split.
  - rewrite length_take. assert (length (hex (sha256 (utf8 id))) = 64)%nat as ->; [|done].
    revert Hl. generalize (sha256 (utf8 id)). clear. intros l Hl. replace 64%nat with (2 * length l)%nat by lia. clear Hl.
    induction l as [|b l IH]; [done|]. cbn [hex flat_map app length]. unfold hex in IH. rewrite IH. simpl. lia.
  - by apply forallb_parts.
Qed.

Open Scope calls_scope.

(** ** Custom objects *)

Record container_image := mkContainer { ct_name : option string; ct_image : option string }.

Record cr_condition := mkCondition {
  cd_type : option string; cd_status : option string; cd_reason : option string; cd_message : option string }.

Record cr_status := mkCrStatus {
  cs_phase : option string;
  cs_format : option string;
  cs_containers : list container_image;
  cs_conditions : list cr_condition }.

Record snapshot_cr := mkCr { cr_sandbox_name : option string; cr_status_of : option cr_status }.

Definition no_status : cr_status := mkCrStatus None None [] [].

Record snapshot_body := mkBody {
  sb_name : string; sb_namespace : string; sb_labels : list (string * string); sb_sandbox_name : string }.

Definition build_snapshot_body (snapshot_id sandbox_id snapshot_name namespace : string) : snapshot_body :=
  mkBody snapshot_name namespace
    [("opensandbox.io/snapshot-id", snapshot_id); ("opensandbox.io/source-sandbox-id", sandbox_id);
     ("opensandbox.io/snapshot-scope", "public")] sandbox_id.

(** [not x] *)
Abbreviation falsy := no_image.

(** [x or y] of texts *)
Definition or_else (x : option string) (y : string) : string := if falsy x then y else default y x.

Definition failed (reason message : string) : SnapshotRuntimeStatus := mkRuntimeStatus FAILED None (Some reason) (Some message).

Definition MAIN_CONTAINER_NAME : string := "sandbox".

(** The image of a list with one element *)
Definition only_image (containers : list container_image) : option string :=
  match containers with [c] => ct_image c | _ => None end.

Definition select_restore_image (containers : list container_image) : SnapshotRuntimeStatus :=
  let ambiguous := failed "snapshot_restore_image_ambiguous"
    "Kubernetes SandboxSnapshot did not identify a single restorable sandbox container image." in
  let ready image := mkRuntimeStatus READY image None None in
  let only := if falsy (only_image containers) then ambiguous else ready (only_image containers) in
  match containers with
  | [] => failed "snapshot_runtime_missing_image" "Kubernetes SandboxSnapshot succeeded without container image status."
  | _ =>
      match filter (fun c => ct_name c = Some MAIN_CONTAINER_NAME) containers with
      | c :: _ => if falsy (ct_image c) then only else ready (ct_image c)
      | [] => only
      end
  end.

Fixpoint failure_reason_and_message (conditions : list cr_condition) : string * string :=
  match conditions with
  | [] => ("snapshot_runtime_failed", "Kubernetes snapshot creation failed.")
  | c :: rest =>
      if decide (cd_type c = Some "Failed" /\ cd_status c = Some "True") then
        (or_else (cd_reason c) "snapshot_runtime_failed", or_else (cd_message c) "Kubernetes snapshot creation failed.")
      else failure_reason_and_message rest
  end.

Definition snapshot_status_from_cr (snapshot : snapshot_cr) : SnapshotRuntimeStatus :=
  let status := default no_status (cr_status_of snapshot) in
  if decide (cs_phase status = Some "Succeed") then
    if decide (cs_format status = Some "qemu-v1") then
      failed "snapshot_restore_qemu_not_supported"
        ("QEMU VMState restore is currently supported only by BatchSandbox pause/resume; the public snapshot API does " +:+
         "not yet persist the complete Pod template restore plan.")
    else
      let image_status := select_restore_image (cs_containers status) in
      if decide (rs_state image_status = FAILED) then image_status
      else mkRuntimeStatus READY (rs_image image_status) (Some "snapshot_runtime_ready")
             (Some "Kubernetes snapshot image created successfully.")
  else if decide (cs_phase status = Some "Failed") then
    let '(reason, message) := failure_reason_and_message (cs_conditions status) in failed reason message
  else mkRuntimeStatus CREATING None (Some "snapshot_runtime_in_progress")
         (Some ("Kubernetes SandboxSnapshot phase is " +:+ or_else (cs_phase status) "Pending" +:+ ".")).

Definition validate_existing_source (snapshot : option snapshot_cr) (sandbox_id : string) : option SnapshotRuntimeStatus :=
  cr ← snapshot;
  existing ← cr_sandbox_name cr;
  if decide (existing = sandbox_id) then None
  else Some (failed "snapshot_runtime_conflict"
               ("Kubernetes SandboxSnapshot already exists for a different source sandbox: " +:+ existing)).

(** ** The Kubernetes runtime *)

Record kruntime := mkRuntime { kr_namespace : string; kr_wait_timeout : Z; kr_poll_interval : Z }.

(** Calls to the API and the clock, and what is done to [_snapshot_namespaces] *)
Inductive kcmd :=
  | KCreate (ns : string) (body : snapshot_body)
  | KGet (ns name : string)
  | KDelete (ns name : string)
  | KClock
  | KSleep (d : Z)
  | TSet (snapshot_id ns : string)
  | TGet (snapshot_id : string)
  | TPop (snapshot_id : string).

Definition kvalue (c : kcmd) : Type :=
  match c with
  | KCreate _ _ | KDelete _ _ => res api_exc unit
  | KGet _ _ => res api_exc (option snapshot_cr)
  | KClock => Z
  | KSleep _ | TSet _ _ => unit
  | TGet _ | TPop _ => option string
  end.

Definition kprog (A : Type) : Type := tree kvalue (res serr A).

Section kubernetes.
Context (k : kruntime).

Definition inspect_in (snapshot_name : string) (ns : option string) : kprog SnapshotRuntimeStatus :=
  snapshot <~ KGet (default (kr_namespace k) ns) snapshot_name ;;
  match snapshot with
  | Raise (BaseError t) => TRet (Raise (SBase t))
  | Raise e =>
      TRet (Ok (mkRuntimeStatus CREATING None (Some "snapshot_runtime_inspect_failed")
                  (Some ("Failed to inspect Kubernetes SandboxSnapshot " +:+ snapshot_name +:+ ": " +:+ exc_text e))))
  | Ok None => TRet (Ok (failed "snapshot_recovery_missing_snapshot" ("Kubernetes SandboxSnapshot " +:+ snapshot_name +:+ " was not found.")))
  | Ok (Some snapshot) => TRet (Ok (snapshot_status_from_cr snapshot))
  end.

Definition inspect_snapshot (snapshot_id : string) (namespace : option string) : kprog SnapshotRuntimeStatus :=
  let snapshot_name := build_public_snapshot_name snapshot_id in
  if falsy namespace then ns <~ TGet snapshot_id ;; inspect_in snapshot_name ns
  else inspect_in snapshot_name namespace.

Definition get_snapshot_status (snapshot_id : string) : kprog SnapshotRuntimeStatus :=
  ns <~ TGet snapshot_id ;; inspect_snapshot snapshot_id ns.

Definition terminal (s : SnapshotRuntimeStatus) : bool := bool_decide (rs_state s = READY) || bool_decide (rs_state s = FAILED).

(** The [while True] loop, for at most [fuel] rounds *)
Fixpoint wait_loop (fuel : nat) (deadline : Z) (snapshot_id : string) (namespace : option string) : kprog SnapshotRuntimeStatus :=
  match fuel with
  | O => TRet (Raise (SBase "out of fuel"))
  | S fuel =>
      let* runtime_status := inspect_snapshot snapshot_id namespace in
      match runtime_status with
      | Raise e => TRet (Raise e)
      | Ok s =>
          if terminal s then TRet (Ok s)
          else
            now <~ KClock ;;
            if deadline <=? now then
              TRet (Ok (failed "snapshot_runtime_timeout"
                ("Timed out waiting for Kubernetes SandboxSnapshot " +:+ build_public_snapshot_name snapshot_id +:+ " to complete.")))
            else _ <~ KSleep (kr_poll_interval k) ;; wait_loop fuel deadline snapshot_id namespace
      end
  end.

Definition wait_for_terminal_snapshot (fuel : nat) (snapshot_id : string) (namespace : option string) : kprog SnapshotRuntimeStatus :=
  now <~ KClock ;; wait_loop fuel (now + kr_wait_timeout k) snapshot_id namespace.

Definition k8s_create_snapshot (fuel : nat) (snapshot_id sandbox_id : string) (namespace : option string) : kprog SnapshotRuntimeStatus :=
  let snapshot_name := build_public_snapshot_name snapshot_id in
  let ns := default (kr_namespace k) namespace in
  let create_failed e := TRet (Ok (failed "snapshot_runtime_create_failed"
                           ("Failed to create Kubernetes SandboxSnapshot " +:+ snapshot_name +:+ ": " +:+ exc_text e))) in
  _ <~ TSet snapshot_id ns ;;
  created <~ KCreate ns (build_snapshot_body snapshot_id sandbox_id snapshot_name ns) ;;
  match created with
  | Ok _ => wait_for_terminal_snapshot fuel snapshot_id (Some ns)
  | Raise (ApiException status t) =>
      if status =? 409 then
        current <~ KGet ns snapshot_name ;;
        match current with
        | Raise (BaseError t) => TRet (Raise (SBase t))
        | Raise _ => wait_for_terminal_snapshot fuel snapshot_id (Some ns)
        | Ok current =>
            match validate_existing_source current sandbox_id with
            | Some conflict => TRet (Ok conflict)
            | None => wait_for_terminal_snapshot fuel snapshot_id (Some ns)
            end
        end
      else create_failed (ApiException status t)
  | Raise (OtherError t) => create_failed (OtherError t)
  | Raise (BaseError t) => TRet (Raise (SBase t))
  end.

Definition k8s_delete_snapshot (snapshot_id : string) (namespace : option string) : kprog unit :=
  let snapshot_name := build_public_snapshot_name snapshot_id in
  let fallback := default (kr_namespace k) namespace in
  ns <~ TPop snapshot_id ;;
  deleted <~ KDelete (default fallback ns) snapshot_name ;;
  match deleted with
  | Ok _ => TRet (Ok tt)
  | Raise (ApiException status t) =>
      if status =? 404 then TRet (Ok tt)
      else TRet (Raise (SExc ("Failed to delete Kubernetes SandboxSnapshot " +:+ snapshot_name +:+ ": " +:+ t)))
  | Raise (OtherError t) => TRet (Raise (SExc t))
  | Raise (BaseError t) => TRet (Raise (SBase t))
  end.
End kubernetes.

(** ** Waiting ends *)

Lemma terminal_ready s : rs_state s = READY -> terminal s = true.
Proof. unfold terminal. intros ->. done. Qed.

Lemma failed_terminal reason message : terminal (failed reason message) = true.
Proof. done. Qed.

(** What an object can report: nothing is reported as being deleted, and only
    [READY] comes with an image. *)
Definition sound (s : SnapshotRuntimeStatus) : Prop :=
  rs_state s <> DELETING /\ (rs_state s = READY <-> falsy (rs_image s) = false).

Lemma failed_sound reason message : sound (failed reason message).
Proof. by repeat split. Qed.

Lemma select_sound containers : sound (select_restore_image containers) /\ terminal (select_restore_image containers) = true.
Proof.
  assert (forall image, falsy image = false -> sound (mkRuntimeStatus READY image None None)) as Hr by (by intros image Hi; repeat split).
  unfold select_restore_image. destruct containers as [|c l]; [by auto using failed_sound|]. cbv zeta.
  destruct (falsy (only_image (c :: l))) eqn:E; destruct (filter _ (c :: l)) as [|d l'];
    [by auto using failed_sound| |by auto|]; destruct (falsy (ct_image d)) eqn:F; by auto using failed_sound.
Qed.

Lemma from_cr_sound snapshot : sound (snapshot_status_from_cr snapshot).
Proof.
  unfold snapshot_status_from_cr. generalize (default no_status (cr_status_of snapshot)). intros st.
  destruct (decide (cs_phase st = Some "Succeed")).
  - destruct (decide (cs_format st = _)); [apply failed_sound|]. destruct (select_sound (cs_containers st)) as [Hs Ht].
    case_decide as Hf; [done|]. destruct Hs as [_ Hs]. split; [done|]. simpl. rewrite <- Hs.
    unfold terminal in Ht. apply orb_prop in Ht as [?%bool_decide_eq_true|?%bool_decide_eq_true]; [done|congruence].
  - case_decide; [|by repeat split]. destruct (failure_reason_and_message _). apply failed_sound.
Qed.

(** An environment answers every call, knowing the calls so far, and says when. *)
Definition environment : Type := list kcmd -> Z -> forall c : kcmd, kvalue c * Z.

Fixpoint run_in {A} (env : environment) (h : list kcmd) (t : Z) (p : tree kvalue A) : A * list kcmd * Z :=
  match p with
  | TRet a => (a, h, t)
  | TCall c k => let '(r, t') := env h t c in run_in env (h ++ [c]) t' (k r)
  end.

Definition ends {A} (env : environment) (h : list kcmd) (t : Z) (p : tree kvalue A) (Q : A -> list kcmd -> Z -> Prop) : Prop :=
  let '(a, h', t') := run_in env h t p in Q a h' t'.

Lemma ends_bind {A B} env h t (p : tree kvalue A) (f : A -> tree kvalue B) Q :
  ends env h t p (fun a h' t' => ends env h' t' (f a) Q) -> ends env h t (tbind p f) Q.
Proof.
  revert h t. induction p as [a|c k IH]; intros h t; [done|]. unfold ends in *. simpl. destruct (env h t c) as [r t']. apply IH.
Qed.

Lemma ends_mono {A} env h t (p : tree kvalue A) (Q R : A -> list kcmd -> Z -> Prop) :
  ends env h t p Q -> (forall a h' t', Q a h' t' -> R a h' t') -> ends env h t p R.
Proof. unfold ends. destruct (run_in env h t p) as [[a h'] t']. auto. Qed.

Lemma ends_call {A} env h t c (f : kvalue c -> tree kvalue A) Q :
  ends env (h ++ [c]) (env h t c).2 (f (env h t c).1) Q -> ends env h t (TCall c f) Q.
Proof. unfold ends. simpl. by destruct (env h t c). Qed.

Lemma ends_ret {A} env h t (a : A) (Q : A -> list kcmd -> Z -> Prop) : Q a h t -> ends env h t (TRet a) Q.
Proof. done. Qed.

(** A call raises nothing but [Exception]s and takes at most [lat]; the clock is
    monotonic; a pause is at least as long as asked for. *)
Definition quiet {A} (r : res api_exc A) : Prop := forall text, r <> Raise (BaseError text).

Definition takes (lat t : Z) (c : kcmd) : kvalue c -> Z -> Prop :=
  match c return kvalue c -> Z -> Prop with
  | KCreate _ _ | KDelete _ _ => fun r t' => quiet r /\ t <= t' <= t + lat
  | KGet _ _ => fun r t' => quiet r /\ t <= t' <= t + lat
  | KClock => fun now t' => t <= now <= t' /\ t' <= t + lat
  | KSleep d => fun _ t' => t + d <= t' <= t + d + lat
  | TSet _ _ | TGet _ | TPop _ => fun _ t' => t <= t' <= t + lat
  end.

Definition is_get (c : kcmd) : bool := match c with KGet _ _ => true | _ => false end.
Definition gets_in (h : list kcmd) : nat := length (List.filter is_get h).

Lemma gets_in_snoc h c : gets_in (h ++ [c]) = (gets_in h + if is_get c then 1 else 0)%nat.
Proof. unfold gets_in. rewrite List.filter_app, length_app. simpl. by destruct (is_get c). Qed.

(** One call in the environment *)
Tactic Notation "env_step" constr(Henv) "as" simple_intropattern(H) ident(r) ident(u) :=
  apply ends_call;
  match goal with
  | |- ends ?env (?h ++ [?c])%list (?env ?h ?t ?c).2 _ _ =>
      pose proof (Henv h t c) as H; destruct (env h t c) as [r u]; cbn [fst snd takes] in *
  end.

Section waiting.
Context (k : kruntime) (env : environment) (lat : Z).
Context (Henv : forall h t c, takes lat t c (env h t c).1 (env h t c).2).
Context (Hpoll : 0 < kr_poll_interval k) (Hlat : 0 <= lat).

(** What a method leaves behind that started at [t] with the history [h] *)
Definition outcome (h : list kcmd) (n : nat) (by_ : Z) (a : res serr SnapshotRuntimeStatus) (h' : list kcmd) (t' : Z) : Prop :=
  (exists s, a = Ok s /\ terminal s = true /\ sound s) /\ (gets_in h' <= gets_in h + n)%nat /\ t' <= by_.

Lemma inspect_in_ends h t name ns :
  ends env h t (inspect_in k name ns) (fun a h' t' =>
    (exists s, a = Ok s /\ sound s) /\ gets_in h' = S (gets_in h) /\ t <= t' <= t + lat).
Proof using Henv.
  unfold inspect_in. env_step Henv as [Hq Ht] r t'. destruct r as [[cr|]|[st e|e|e]];
    [| | | |by destruct (Hq e)]; apply ends_ret; rewrite gets_in_snoc; simpl; (split; [eexists; split; [reflexivity|]|split; [lia|done]]).
  - apply from_cr_sound.
  - apply failed_sound.
  - by repeat split.
  - by repeat split.
Qed.

Lemma inspect_ends h t id ns :
  ends env h t (inspect_snapshot k id ns) (fun a h' t' =>
    (exists s, a = Ok s /\ sound s) /\ gets_in h' = S (gets_in h) /\ t <= t' <= t + 2 * lat).
Proof using Henv Hlat.
  unfold inspect_snapshot. cbv zeta. destruct (falsy ns).
  - env_step Henv as Ht r t'. eapply ends_mono; [apply inspect_in_ends|]. intros a h' u (Ha & Hg & Hu). rewrite gets_in_snoc in Hg. simpl in Hg.
    split_and!; [done|lia|lia..].
  - eapply ends_mono; [apply inspect_in_ends|]. intros a h' u (Ha & Hg & Hu). split_and!; [done|lia..].
Qed.

Lemma wait_loop_ends fuel deadline id ns h t :
  deadline - t <= (Z.of_nat fuel - 1) * kr_poll_interval k -> (0 < fuel)%nat -> t <= deadline + kr_poll_interval k + 2 * lat ->
  ends env h t (wait_loop k fuel deadline id ns) (outcome h fuel (deadline + kr_poll_interval k + 5 * lat)).
Proof using Henv Hpoll Hlat.
  revert h t. induction fuel as [|fuel IH]; intros h t Hf Hpos Hd; [lia|]. cbn [wait_loop]. apply ends_bind.
  eapply ends_mono; [apply inspect_ends|]. intros a h1 t1 ((s & -> & Hs) & Hg1 & Ht1). cbv beta iota. destruct (terminal s) eqn:Hterm.
  { apply ends_ret. split; [by exists s|]. split; lia. }
  env_step Henv as Hc now t2.
  destruct (Z.leb_spec deadline now).
  { apply ends_ret. split; [eexists; split; [reflexivity|]; split; [done|apply failed_sound]|]. rewrite gets_in_snoc. simpl. split; lia. }
  env_step Henv as Hsl u t3.
  assert (0 < fuel)%nat by (destruct fuel; [|lia]; exfalso; lia).
  eapply ends_mono; [apply IH; [|done|]; nia|]. intros a h' t' (Ha & Hg & Ht). split; [done|].
  rewrite !gets_in_snoc in Hg. simpl in Hg. split; lia.
Qed.

Lemma wait_terminal_ends fuel id ns h t :
  kr_wait_timeout k <= (Z.of_nat fuel - 1) * kr_poll_interval k -> (0 < fuel)%nat -> 0 <= kr_wait_timeout k ->
  ends env h t (wait_for_terminal_snapshot k fuel id ns) (outcome h fuel (t + kr_wait_timeout k + kr_poll_interval k + 6 * lat)).
Proof using Henv Hpoll Hlat.
  intros Hf Hpos Hto. unfold wait_for_terminal_snapshot. env_step Henv as Hc now t1.
  eapply ends_mono; [apply wait_loop_ends; [lia|done|lia]|]. intros a h' u (Ha & Hg & Hu). rewrite gets_in_snoc in Hg. simpl in Hg.
  split; [done|]. split; lia.
Qed.

Lemma outcome_failed h n by_ reason message h' t' :
  (gets_in h' <= gets_in h + n)%nat -> t' <= by_ -> outcome h n by_ (Ok (failed reason message)) h' t'.
Proof. intros Hg Ht. split; [|done]. eexists. split; [reflexivity|]. split; [done|apply failed_sound]. Qed.
End waiting.

(** [create_snapshot] of the Kubernetes runtime ends whatever the API server
    answers: with the time-out and one polling interval, and the time the calls
    themselves take, it returns READY with an image or FAILED, never another
    state, after at most one inspection per interval and two more. *)
Theorem create_snapshot_settles k env lat fuel id sandbox_id ns t
    (Henv : forall h t c, takes lat t c (env h t c).1 (env h t c).2)
    (Hpoll : 0 < kr_poll_interval k) (Hlat : 0 <= lat) (Hto : 0 <= kr_wait_timeout k)
    (Hfuel : Z.of_nat fuel = kr_wait_timeout k / kr_poll_interval k + 2) :
  let '(a, h, t') := run_in env [] t (k8s_create_snapshot k fuel id sandbox_id ns) in
  (exists s, a = Ok s /\ rs_state s = (if falsy (rs_image s) then FAILED else READY)) /\
  Z.of_nat (gets_in h) <= kr_wait_timeout k / kr_poll_interval k + 3 /\
  t' <= t + kr_wait_timeout k + kr_poll_interval k + 9 * lat.
Proof.
  pose proof (Z.div_pos (kr_wait_timeout k) (kr_poll_interval k) Hto Hpoll) as Hq.
  pose proof (Z.mul_succ_div_gt (kr_wait_timeout k) (kr_poll_interval k) Hpoll) as Hq'.
  assert (ends env [] t (k8s_create_snapshot k fuel id sandbox_id ns)
            (outcome [] (S fuel) (t + kr_wait_timeout k + kr_poll_interval k + 9 * lat))) as Hends.
  { unfold k8s_create_snapshot. cbv zeta. env_step Henv as H1 r1 t1. env_step Henv as [Hq2 H2] r2 t2.
    assert (forall h t', (gets_in h <= 1)%nat -> t' <= t + 3 * lat ->
      ends env h t' (wait_for_terminal_snapshot k fuel id (Some (default (kr_namespace k) ns)))
        (outcome [] (S fuel) (t + kr_wait_timeout k + kr_poll_interval k + 9 * lat))) as Hwait.
    { intros h t' Hg Ht. eapply ends_mono; [apply (wait_terminal_ends k env lat Henv Hpoll Hlat); [nia|lia|exact Hto]|].
      intros a h' u (Ha & Hg' & Hu). split; [done|]. simpl. split; lia. }
    destruct r2 as [[]|[st e|e|e]]; [apply Hwait; [rewrite !gets_in_snoc; simpl; lia|lia]| |apply ends_ret, outcome_failed; [rewrite !gets_in_snoc; simpl; lia|lia]|by destruct (Hq2 e)].
    destruct (st =? 409); [|apply ends_ret, outcome_failed; [rewrite !gets_in_snoc; simpl; lia|lia]].
    env_step Henv as [Hq3 H3] r3 t3.
    destruct r3 as [current|[st' e'|e'|e']]; [|apply Hwait; [rewrite !gets_in_snoc; simpl; lia|lia]..|by destruct (Hq3 e')].
    destruct (validate_existing_source current sandbox_id) as [conflict|] eqn:Hv; [|apply Hwait; [rewrite !gets_in_snoc; simpl; lia|lia]].
    unfold validate_existing_source in Hv. destruct current as [cr|]; [|done]. simpl in Hv.
    destruct (cr_sandbox_name cr) as [existing|]; [|done]. simpl in Hv. case_decide; [done|]. injection Hv as <-.
    apply ends_ret, outcome_failed; [rewrite !gets_in_snoc; simpl; lia|lia]. }
  unfold ends in Hends. destruct (run_in env [] t _) as [[a h'] t']. destruct Hends as ((s & -> & Ht & Hs) & Hg & Hu).
  split_and!; [|simpl in Hg; lia|done]. exists s. split; [done|]. destruct Hs as [Hd Hi].
  destruct (falsy (rs_image s)) eqn:E.
  - unfold terminal in Ht. apply orb_prop in Ht as [Hr%bool_decide_eq_true|Hr%bool_decide_eq_true]; [|done]. apply Hi in Hr. congruence.
  - by apply Hi.
Qed.

(** ** Many requests, one API server *)

(** What a method has learnt: an object it read, an object whose deletion was
    accepted or that was absent *)
Inductive fact := Saw (ns name : string) (cr : snapshot_cr) | Deleted (ns name : string).

Definition learn (c : kcmd) : kvalue c -> list fact :=
  match c with
  | KGet ns name => fun r => match r with Ok (Some cr) => [Saw ns name cr] | _ => [] end
  | KDelete ns name => fun r =>
      match r with
      | Ok _ => [Deleted ns name]
      | Raise (ApiException status _) => if status =? 404 then [Deleted ns name] else []
      | Raise _ => []
      end
  | _ => fun _ => []
  end.

Record cluster := mkCluster {
  cl_objects : gmap (string * string) snapshot_cr;
  cl_versions : list (string * string * snapshot_cr);
  cl_deleted : list (string * string);
  cl_table : gmap string string }.

Definition put (key : string * string) (cr : snapshot_cr) (s : cluster) : cluster :=
  mkCluster (<[key := cr]> (cl_objects s)) ((key, cr) :: cl_versions s) (cl_deleted s) (cl_table s).
Definition vanish (key : string * string) (s : cluster) : cluster :=
  mkCluster (delete key (cl_objects s)) (cl_versions s) (cl_deleted s) (cl_table s).
Definition accept_deletion (key : string * string) (s : cluster) : cluster :=
  mkCluster (cl_objects s) (cl_versions s) (key :: cl_deleted s) (cl_table s).
Definition set_table (t : gmap string string) (s : cluster) : cluster :=
  mkCluster (cl_objects s) (cl_versions s) (cl_deleted s) t.

Definition fresh (body : snapshot_body) : snapshot_cr := mkCr (Some (sb_sandbox_name body)) None.

(** A call may be carried out and its answer lost; a read may be served from a
    cache and give any earlier version; a deletion may leave the object to its
    finalizers. *)
Definition kstep (s : cluster) (c : kcmd) : kvalue c -> cluster -> Prop :=
  match c return kvalue c -> cluster -> Prop with
  | KCreate ns body => fun r s' =>
      (cl_objects s !! (ns, sb_name body) = None /\ s' = put (ns, sb_name body) (fresh body) s) \/
      (s' = s /\ r <> Ok tt)
  | KGet ns name => fun r s' => s' = s /\ forall cr, r = Ok (Some cr) -> ((ns, name), cr) ∈ cl_versions s
  | KDelete ns name => fun r s' =>
      s' = accept_deletion (ns, name) s \/
      (cl_objects s !! (ns, name) = None /\ s' = accept_deletion (ns, name) s) \/
      (s' = s /\ learn (KDelete ns name) r = [])
  | TSet id ns => fun _ s' => s' = set_table (<[id := ns]> (cl_table s)) s
  | TGet id => fun r s' => s' = s /\ r = cl_table s !! id
  | TPop id => fun r s' => s' = set_table (delete id (cl_table s)) s /\ r = cl_table s !! id
  | KClock | KSleep _ => fun _ s' => s' = s
  end.

Inductive thread := ThStatus (id : string) (p : kprog SnapshotRuntimeStatus) | ThDelete (id : string) (p : kprog unit).

Record ksys := mkKsys { ks_cluster : cluster; ks_threads : list thread }.

Section cluster.
Context (k : kruntime) (owner : string -> string) (nsof : string -> option string).

(** Where the object of a snapshot lives *)
Definition object_key (id : string) : string * string := (default (kr_namespace k) (nsof id), build_public_snapshot_name id).

(** Requests for snapshots, each of one sandbox and one tenant; other clients
    and the controller; a restart of the server.  Nobody else makes objects under
    the names of snapshots, or changes the sandbox of one. *)
Inductive kstart : string -> thread -> Prop :=
  | start_create id fuel : kstart id (ThStatus id (k8s_create_snapshot k fuel id (owner id) (nsof id)))
  | start_inspect id : kstart id (ThStatus id (inspect_snapshot k id (nsof id)))
  | start_status id : kstart id (ThStatus id (get_snapshot_status k id))
  | start_delete id : kstart id (ThDelete id (k8s_delete_snapshot k id (nsof id))).

Inductive sys_step : ksys -> ksys -> Prop :=
  | step_start c ths id th : is_uuid id -> kstart id th -> sys_step (mkKsys c ths) (mkKsys c (ths ++ [th]))
  | step_status c c' ths1 ths2 id cmd f r :
      kstep c cmd r c' ->
      sys_step (mkKsys c (ths1 ++ ThStatus id (TCall cmd f) :: ths2)) (mkKsys c' (ths1 ++ ThStatus id (f r) :: ths2))
  | step_delete c c' ths1 ths2 id cmd f r :
      kstep c cmd r c' ->
      sys_step (mkKsys c (ths1 ++ ThDelete id (TCall cmd f) :: ths2)) (mkKsys c' (ths1 ++ ThDelete id (f r) :: ths2))
  | step_controller c ths key cr st :
      cl_objects c !! key = Some cr -> sys_step (mkKsys c ths) (mkKsys (put key (mkCr (cr_sandbox_name cr) st) c) ths)
  | step_vanish c ths key : sys_step (mkKsys c ths) (mkKsys (vanish key c) ths)
  | step_foreign c ths key cr :
      (forall id, is_uuid id -> key.2 <> build_public_snapshot_name id) -> sys_step (mkKsys c ths) (mkKsys (put key cr c) ths)
  | step_restart c ths : sys_step (mkKsys c ths) (mkKsys (set_table ∅ c) []).

Definition empty_sys : ksys := mkKsys (mkCluster ∅ [] [] ∅) [].
Definition kreachable (s : ksys) : Prop := rtc sys_step empty_sys s.

(** ** What results rest on *)

Definition well_formed (facts : list fact) (c : kcmd) : Prop :=
  match c with
  | KCreate ns body => exists id, is_uuid id /\ (ns, sb_name body) = object_key id /\ sb_sandbox_name body = owner id
  | TSet id ns => ns = (object_key id).1
  | _ => True
  end.

(** What the table answers *)
Definition answer_ok (c : kcmd) : kvalue c -> Prop :=
  match c return kvalue c -> Prop with
  | TGet id | TPop id => fun r => forall ns, r = Some ns -> ns = (object_key id).1
  | _ => fun _ => True
  end.

Abbreviation justified := (CallTree.justified learn well_formed answer_ok).

Definition status_claim (id : string) (facts : list fact) (a : res serr SnapshotRuntimeStatus) : Prop :=
  forall s, a = Ok s -> rs_state s = READY ->
  exists ns cr, Saw ns (build_public_snapshot_name id) cr ∈ facts /\ snapshot_status_from_cr cr = s.

Definition delete_claim (id : string) (facts : list fact) (a : res serr unit) : Prop :=
  a = Ok tt -> Deleted (object_key id).1 (build_public_snapshot_name id) ∈ facts.

Lemma not_ready_claim id facts a :
  (forall s, a = Ok s -> rs_state s <> READY) -> status_claim id facts a.
Proof. intros Ha s Hs Hr. by destruct (Ha s Hs). Qed.

Lemma inspect_in_justified id ns facts : justified (status_claim id) facts (inspect_in k (build_public_snapshot_name id) ns).
Proof.
  simpl. split; [done|]. intros [[cr|]|[st t|t|t]] _; [|by apply not_ready_claim; intros s [= <-]..|by apply not_ready_claim].
  intros s [= <-] Hr. exists (default (kr_namespace k) ns), cr. split; [by left|done].
Qed.

Lemma inspect_justified id ns facts : justified (status_claim id) facts (inspect_snapshot k id ns).
Proof.
  unfold inspect_snapshot. cbv zeta. destruct (falsy ns); [|apply inspect_in_justified].
  split; [done|]. intros r _. apply inspect_in_justified.
Qed.

Lemma wait_justified fuel deadline id ns facts : justified (status_claim id) facts (wait_loop k fuel deadline id ns).
Proof.
  revert facts. induction fuel as [|fuel IH]; intros facts; [by apply not_ready_claim|]. cbn [wait_loop].
  eapply justified_bind; [apply inspect_justified|]. intros facts' [s|e] Hs; [|by apply not_ready_claim].
  destruct (terminal s); [exact Hs|]. split; [done|]. intros now _. case_match; [by apply not_ready_claim; intros ? [= <-]|].
  split; [done|]. intros ? _. apply IH.
Qed.

Lemma create_justified fuel id facts :
  is_uuid id -> justified (status_claim id) facts (k8s_create_snapshot k fuel id (owner id) (nsof id)).
Proof.
  intros Hid. unfold k8s_create_snapshot. cbv zeta.
  assert (forall facts ns, justified (status_claim id) facts (wait_for_terminal_snapshot k fuel id ns)) as Hw
    by (intros facts' ns; split; [done|intros now _; apply wait_justified]).
  split; [done|]. intros ? _. split; [by exists id|].
  intros [[]|[st t|t|t]] _; [apply Hw| |by apply not_ready_claim; intros ? [= <-]|by apply not_ready_claim].
  destruct (st =? 409); [|by apply not_ready_claim; intros ? [= <-]]. split; [done|].
  intros [current|[st' t'|t'|t']] _; [|apply Hw..|by apply not_ready_claim].
  destruct (validate_existing_source current (owner id)) as [conflict|] eqn:Hv; [|apply Hw].
  apply not_ready_claim. intros s [= <-]. unfold validate_existing_source in Hv.
  destruct current as [cr|]; [|done]. simpl in Hv. destruct (cr_sandbox_name cr); [|done]. simpl in Hv.
  case_decide; [done|]. by injection Hv as <-.
Qed.

Lemma delete_justified id facts : justified (delete_claim id) facts (k8s_delete_snapshot k id (nsof id)).
Proof.
  split; [done|]. intros ns Hns. split; [done|].
  assert (default (default (kr_namespace k) (nsof id)) ns = (object_key id).1) as ->
    by (destruct ns as [ns|]; [by apply Hns|done]).
  intros [[]|[st t|t|t]] _; [intros _; by left| |by intros [=]..]. cbn [learn]. destruct (st =? 404); [|by intros [=]].
  intros _. by left.
Qed.

(** ** The invariant *)

Definition true_fact (c : cluster) (f : fact) : Prop :=
  match f with
  | Saw ns name cr => ((ns, name), cr) ∈ cl_versions c
  | Deleted ns name => (ns, name) ∈ cl_deleted c
  end.

Definition thread_ok (c : cluster) (th : thread) : Prop :=
  match th with
  | ThStatus id p => is_uuid id /\ exists facts, Forall (true_fact c) facts /\ justified (status_claim id) facts p
  | ThDelete id p => is_uuid id /\ exists facts, Forall (true_fact c) facts /\ justified (delete_claim id) facts p
  end.

Record cluster_ok (c : cluster) : Prop := {
  co_versions : forall key cr id, (key, cr) ∈ cl_versions c -> is_uuid id -> key.2 = build_public_snapshot_name id ->
    key = object_key id /\ cr_sandbox_name cr = Some (owner id);
  co_objects : forall key cr, cl_objects c !! key = Some cr -> (key, cr) ∈ cl_versions c;
  co_table : forall id ns, cl_table c !! id = Some ns -> ns = (object_key id).1 }.

Definition sys_ok (s : ksys) : Prop := cluster_ok (ks_cluster s) /\ Forall (thread_ok (ks_cluster s)) (ks_threads s).

(** What is learnt stays true. *)
Definition later (c c' : cluster) : Prop := cl_versions c ⊆ cl_versions c' /\ cl_deleted c ⊆ cl_deleted c'.

Lemma true_later c c' f : later c c' -> true_fact c f -> true_fact c' f.
Proof. intros [Hv Hd]. destruct f; [apply Hv|apply Hd]. Qed.

Lemma thread_later c c' th : later c c' -> thread_ok c th -> thread_ok c' th.
Proof.
  intros Hl. destruct th as [id p|id p]; intros (Hid & facts & Hf & Hp); (split; [done|]; exists facts; split; [|done]);
    (eapply Forall_impl; [exact Hf|]; intros f; by apply true_later).
Qed.

Lemma later_refl c : later c c.
Proof. by split. Qed.

Lemma put_ok key cr c :
  (forall id, is_uuid id -> key.2 = build_public_snapshot_name id -> key = object_key id /\ cr_sandbox_name cr = Some (owner id)) ->
  cluster_ok c -> cluster_ok (put key cr c) /\ later c (put key cr c).
Proof.
  intros Hk [Hv Ho Ht]. split; [|by split; [apply list_subseteq_cons|]]. split; simpl; [| |done].
  - intros key' cr' id [[= -> ->]|Hin]%elem_of_cons; [by intros; apply Hk|by apply Hv].
  - intros key' cr' [[<- <-]|[_ H]]%lookup_insert_Some; [by left|right; by apply Ho].
Qed.

Lemma vanish_ok key c : cluster_ok c -> cluster_ok (vanish key c) /\ later c (vanish key c).
Proof.
  intros [Hv Ho Ht]. split; [|by split]. split; simpl; [done| |done]. intros key' cr' [_ H]%lookup_delete_Some. by apply Ho.
Qed.

Lemma accept_ok key c : cluster_ok c -> cluster_ok (accept_deletion key c) /\ later c (accept_deletion key c).
Proof. intros [Hv Ho Ht]. split; [by split|]. split; [done|apply list_subseteq_cons; done]. Qed.

Lemma table_ok t c :
  (forall id ns, t !! id = Some ns -> ns = (object_key id).1) -> cluster_ok c -> cluster_ok (set_table t c) /\ later c (set_table t c).
Proof. intros Ht' [Hv Ho Ht]. split; [by constructor|by split]. Qed.

Lemma deleted_learnt ns name r c : (ns, name) ∈ cl_deleted c -> Forall (true_fact c) (learn (KDelete ns name) r).
Proof. intros Hd. simpl. destruct r as [?|[st t|t|t]]; [|destruct (st =? 404)|..]; (apply Forall_singleton; done) || done. Qed.

Lemma kstep_ok c cmd r c' :
  cluster_ok c -> well_formed [] cmd -> kstep c cmd r c' ->
  (cluster_ok c' /\ later c c') /\ answer_ok cmd r /\ Forall (true_fact c') (learn cmd r).
Proof.
  intros Hc Hw. destruct cmd as [ns body|ns name|ns name| |d|id ns|id|id]; cbn [kstep].
  - intros [[_ ->]|[-> _]]; (split; [|by split; [|constructor]]); [|by split; [|apply later_refl]].
    apply put_ok; [|done]. destruct Hw as (id & Hid & Hk & Hsb). intros id' Hid' Hn. rewrite Hk in Hn |- *. simpl in Hn.
    apply snapshot_name_inj in Hn as <-; [|done..]. split; [done|]. unfold fresh. simpl. by rewrite Hsb.
  - intros [-> Hr]. split; [by split; [|apply later_refl]|]. split; [done|]. simpl. destruct r as [[cr|]|]; [|constructor..].
    apply Forall_singleton. by apply Hr.
  - intros [->|[[_ ->]| [-> Hl]]]; [split; [by apply accept_ok|split; [done|]]..|].
    + apply deleted_learnt. by left.
    + apply deleted_learnt. by left.
    + split; [by split; [|apply later_refl]|]. rewrite Hl. by split.
  - intros ->. split; [by split; [|apply later_refl]|by split].
  - intros ->. split; [by split; [|apply later_refl]|by split].
  - intros ->. split; [|by split]. apply table_ok; [|done]. simpl in Hw. intros id' ns' [[<- <-]|[_ H]]%lookup_insert_Some; [done|].
    by apply (co_table _ Hc).
  - intros [-> ->]. split; [by split; [|apply later_refl]|]. split; [|done]. intros ns. by apply (co_table _ Hc).
  - intros [-> ->]. split; [|split; [|done]]; [|intros ns; by apply (co_table _ Hc)].
    apply table_ok; [|done]. intros id' ns' [_ H]%lookup_delete_Some. by apply (co_table _ Hc).
Qed.

(** A call of one thread *)
Lemma justified_call {A} (claim : list fact -> A -> Prop) c c' cmd r facts (f : kvalue cmd -> tree kvalue A) :
  cluster_ok c -> Forall (true_fact c) facts -> justified claim facts (TCall cmd f) -> kstep c cmd r c' ->
  (cluster_ok c' /\ later c c') /\ exists facts', Forall (true_fact c') facts' /\ justified claim facts' (f r).
Proof.
  intros Hc Hf [Hw Hj] Hs. destruct (kstep_ok _ _ _ _ Hc Hw Hs) as (Hc' & Ha & Hl). split; [done|].
  exists (learn cmd r ++ facts)%list. split; [|by apply Hj]. apply Forall_app. split; [done|].
  eapply Forall_impl; [exact Hf|]. intros x. by apply true_later, Hc'.
Qed.

Lemma threads_later c c' ths : later c c' -> Forall (thread_ok c) ths -> Forall (thread_ok c') ths.
Proof. intros Hl Ht. eapply Forall_impl; [exact Ht|]. intros th. by apply thread_later. Qed.

Lemma start_ok c id th : is_uuid id -> kstart id th -> thread_ok c th.
Proof.
  intros Hid Hs. destruct Hs; (split; [done|]; exists []; split; [constructor|]).
  - by apply create_justified.
  - apply inspect_justified.
  - split; [done|]. intros r _. apply inspect_justified.
  - apply delete_justified.
Qed.

Lemma sys_step_ok s s' : sys_ok s -> sys_step s s' -> sys_ok s'.
Proof.
  intros [Hc Ht] Hs. destruct Hs as [c ths id th Hid Hst|c c' ths1 ths2 id cmd f r Hk|c c' ths1 ths2 id cmd f r Hk|c ths key cr st Hk|c ths key|c ths key cr Hk|c ths]; simpl in *.
  - split; [done|]. apply Forall_app. split; [done|]. apply Forall_singleton. by eapply start_ok.
  - apply Forall_app in Ht as [Ht1 [(Hid & facts & Hf & Hj) Ht2]%Forall_cons].
    destruct (justified_call _ _ _ _ _ _ _ Hc Hf Hj Hk) as [[Hc' Hl] Hj']. split; [done|].
    apply Forall_app. split; [by eapply threads_later|]. constructor; [by split|by eapply threads_later].
  - apply Forall_app in Ht as [Ht1 [(Hid & facts & Hf & Hj) Ht2]%Forall_cons].
    destruct (justified_call _ _ _ _ _ _ _ Hc Hf Hj Hk) as [[Hc' Hl] Hj']. split; [done|].
    apply Forall_app. split; [by eapply threads_later|]. constructor; [by split|by eapply threads_later].
  - destruct (put_ok key (mkCr (cr_sandbox_name cr) st) c) as [Hc' Hl]; [|done|by split; [|by eapply threads_later]].
    intros id Hid Hn. by apply (co_versions _ Hc _ _ id (co_objects _ Hc _ _ Hk)).
  - destruct (vanish_ok key c Hc) as [Hc' Hl]. by split; [|by eapply threads_later].
  - destruct (put_ok key cr c) as [Hc' Hl]; [|done|by split; [|by eapply threads_later]].
    intros id Hid Hn. by destruct (Hk id Hid).
  - split; [|constructor]. by apply table_ok.
Qed.

Lemma reachable_ok s : kreachable s -> sys_ok s.
Proof.
  unfold kreachable. intros Hr. assert (sys_ok empty_sys) as H0.
  { split; [|constructor]. split; simpl; [by intros ? ? ? ?%elem_of_nil|by intros ? ? ?%lookup_empty_Some|done]. }
  revert H0. induction Hr as [s|s s1 s2 Hs _ IH]; [done|]. intros H. by eapply IH, sys_step_ok.
Qed.
End cluster.


(** A snapshot made under the namespace of a tenant and then deleted *)
Definition example_runtime : kruntime := mkRuntime "default" 900000000 2000000.
Definition example_id : string := uuid_text 1.
Definition example_status : cr_status := mkCrStatus (Some "Succeed") None [mkContainer (Some "sandbox") (Some "registry/sbx:1")] [].
Abbreviation example_reachable := (kreachable example_runtime (fun _ => "sbx") (fun _ => Some "team")).

Lemma example_is_uuid : is_uuid example_id.
Proof. by exists 1. Qed.

Lemma status_next k owner nsof c c' id cmd f (r : kvalue cmd) :
  kstep c cmd r c' -> sys_step k owner nsof (mkKsys c [ThStatus id (TCall cmd f)]) (mkKsys c' [ThStatus id (f r)]).
Proof. apply (step_status k owner nsof c c' [] []). Qed.

Lemma example_run : exists s st,
  example_reachable s /\ ThStatus example_id (TRet (Ok st)) ∈ ks_threads s /\ rs_state st = READY /\ rs_image st = Some "registry/sbx:1".
Proof.
  set (name := build_public_snapshot_name example_id). set (body := build_snapshot_body example_id "sbx" name "team").
  set (done_ := mkCr (Some "sbx") (Some example_status)).
  eexists _, (snapshot_status_from_cr done_). split.
  - unfold kreachable, empty_sys.
    eapply rtc_l; [eapply step_start; [apply example_is_uuid|apply (start_create _ _ _ _ 2)]|]. cbn [app].
    eapply rtc_l; [eapply (status_next _ _ _ _ _ _ (TSet example_id "team") _ tt); reflexivity|].
    eapply rtc_l; [eapply (status_next _ _ _ _ _ _ (KCreate "team" body) _ (Ok tt)); by left|].
    eapply rtc_l; [eapply (status_next _ _ _ _ _ _ KClock _ 0); reflexivity|].
    eapply rtc_l; [eapply (step_controller _ _ _ _ _ ("team", name) (fresh body) (Some example_status)); apply lookup_insert_eq|].
    eapply rtc_l; [eapply (status_next _ _ _ _ _ _ (KGet "team" name) _ (Ok (Some done_)))|apply rtc_refl].
    split; [reflexivity|]. intros cr [= <-]. left.
  - split; [left|done].
Qed.


(** An environment that answers at once: the object is never found. *)
Definition example_environment : environment := fun h t c =>
  match c return kvalue c * Z with
  | KCreate _ _ | KDelete _ _ => (Ok tt, t)
  | KGet _ _ => (Raise (OtherError "timed out"), t)
  | KClock => (t, t)
  | KSleep d => (tt, t + d)
  | TSet _ _ => (tt, t)
  | TGet _ | TPop _ => (None, t)
  end.

Lemma create_snapshot_settles_witness :
  let '(a, h, t') := run_in example_environment [] 0 (k8s_create_snapshot (mkRuntime "default" 3 2) 3 example_id "sbx" None) in
  (exists s, a = Ok s /\ rs_state s = (if falsy (rs_image s) then FAILED else READY)) /\ Z.of_nat (gets_in h) <= 4 /\ t' <= 5.
Proof.
  apply (create_snapshot_settles (mkRuntime "default" 3 2) example_environment 0 3 example_id "sbx" None 0); try reflexivity; try (simpl; lia).
  intros h t c. destruct c; simpl; try (unfold quiet; split; [done|]); lia.
Defined.

(** [get_snapshot_status] is to know the runtime's view of a snapshot, if any.
    After a restart it looks for a tenant's snapshot in the default namespace and
    reports one that is READY as failed. *)
Example restarted_status_misread :
  (run_in (fun _ t c => match c return kvalue c * Z with
                         | KGet ns _ => (Ok (if (ns =? "team")%string then Some (mkCr (Some "sbx") (Some example_status)) else None), t)
                         | c => example_environment [] t c
                         end) [] 0
     (get_snapshot_status example_runtime example_id)).1.1 =
  Ok (failed "snapshot_recovery_missing_snapshot"
        ("Kubernetes SandboxSnapshot " +:+ build_public_snapshot_name example_id +:+ " was not found.")).
Proof. reflexivity. Qed.
