(* ===== verification/DockerSnapshots.v ===== *)
(** * Snapshots on Docker

    [services/docker/snapshot_runtime.py]: snapshots as images the daemon
    commits.  Methods are trees of calls to the daemon; the daemon may be slow,
    refuse, or not answer.  The file also shows that both runtimes give the
    start-up recovery of [SnapshotRecovery] what it relies on. *)

From Stdlib Require Import ZArith Lia String Ascii.
From stdpp Require Import base numbers strings gmap list.
From S2P Require Import Prelude PyString PyText PyCodec Validators CallTree SnapshotRepo SnapshotService SnapshotRecovery SnapshotRuntimes.

Open Scope string_scope.
Open Scope Z_scope.
Open Scope calls_scope.

(** ** The daemon's client *)

(** What the client raises, with [str] of it.  The first four are
    [DockerException]s, and [ImageNotFound] is also a [NotFound] and that an
    [APIError]; a time-out of [requests] is none of them. *)
Inductive docker_exc :=
  | ImageNotFound (text : string)
  | DockerNotFound (text : string)
  | APIError (status_code : option Z) (text : string)
  | DockerException (text : string)
  | TimedOut (text : string)
  | OtherException (text : string)
  | BaseException (text : string).

Definition docker_text (e : docker_exc) : string :=
  match e with
  | ImageNotFound t | DockerNotFound t | APIError _ t | DockerException t | TimedOut t | OtherException t | BaseException t => t
  end.

Inductive dcmd :=
  | DList (label : string)
  | DCommit (container repository tag : string)
  | DRemove (image : string)
  | DGet (image : string).

#[global] Instance dcmd_eq_dec : EqDecision dcmd.
Proof. solve_decision. Defined.

Definition dvalue (c : dcmd) : Type :=
  match c with
  | DList _ => res docker_exc (list string)
  | DCommit _ _ _ | DRemove _ | DGet _ => res docker_exc unit
  end.

Definition dprog (A : Type) : Type := tree dvalue (res serr A).

(** ** The runtime *)

Definition SNAPSHOT_IMAGE_REPOSITORY : string := "opensandbox-snapshots".
Definition build_snapshot_image_ref (snapshot_id : string) : string := SNAPSHOT_IMAGE_REPOSITORY +:+ ":" +:+ snapshot_id.


Definition SANDBOX_NOT_FOUND : string := "DOCKER::SANDBOX_NOT_FOUND".
Definition CONTAINER_QUERY_FAILED : string := "DOCKER::SANDBOX_QUERY_FAILED".
Definition IMAGE_REMOVE_ERROR : string := "DOCKER::SNAPSHOT_IMAGE_REMOVE_FAILED".

(** [image or build_snapshot_image_ref(snapshot_id)] *)
Definition image_of (snapshot_id : string) (image : option string) : string := or_else image (build_snapshot_image_ref snapshot_id).

Definition is_timeout_error (text : string) : bool := is_infix (chars "timed out") (chars (lower text)).

(** [timeout] is the [timeout] of the client's [api], if it has one. *)
Definition format_timeout_message (timeout : option Z) (text : string) : string :=
  match timeout with
  | None => "Docker snapshot creation timed out: " +:+ text
  | Some seconds => "Docker snapshot creation timed out after " +:+ str_of_int seconds +:+ " seconds: " +:+ text
  end.

(** The [except] clauses of [_create_snapshot] *)
Definition commit_failed (timeout : option Z) (e : docker_exc) : res serr SnapshotRuntimeStatus :=
  match e with
  | BaseException t => Raise (SBase t)
  | TimedOut t => Ok (failed "snapshot_runtime_timeout" (format_timeout_message timeout t))
  | e =>
      let t := docker_text e in
      Ok (if is_timeout_error t then failed "snapshot_runtime_timeout" (format_timeout_message timeout t)
          else failed "snapshot_runtime_failed" t)
  end.

(** [_get_container_by_sandbox_id]: what it makes of the client's exceptions *)
Definition lookup_failed (sandbox_id : string) (e : docker_exc) : docker_exc :=
  match e with
  | ImageNotFound _ | DockerNotFound _ => OtherException (SANDBOX_NOT_FOUND +:+ ": Sandbox " +:+ sandbox_id +:+ " not found.")
  | APIError _ t | DockerException t => OtherException (CONTAINER_QUERY_FAILED +:+ ": Failed to query sandbox containers: " +:+ t)
  | e => e
  end.

Definition get_container_by_sandbox_id {A} (sandbox_id : string) (found : string -> dprog A) (raised : docker_exc -> dprog A) : dprog A :=
  containers <~ DList ("opensandbox.io/id=" +:+ sandbox_id) ;;
  match containers with
  | Raise e => raised (lookup_failed sandbox_id e)
  | Ok [] => raised (OtherException (SANDBOX_NOT_FOUND +:+ ": Sandbox " +:+ sandbox_id +:+ " not found."))
  | Ok (container :: _) => found container
  end.

Definition docker_create_snapshot (timeout : option Z) (snapshot_id sandbox_id : string) : dprog SnapshotRuntimeStatus :=
  get_container_by_sandbox_id sandbox_id
    (fun container =>
       committed <~ DCommit container SNAPSHOT_IMAGE_REPOSITORY snapshot_id ;;
       TRet match committed with
            | Ok _ => Ok (mkRuntimeStatus READY (Some (build_snapshot_image_ref snapshot_id)) (Some "snapshot_runtime_ready")
                            (Some "Docker snapshot image created successfully."))
            | Raise e => commit_failed timeout e
            end)
    (fun e => TRet (commit_failed timeout e)).

Definition docker_delete_snapshot (snapshot_id : string) (image : option string) : dprog unit :=
  let image_ref := image_of snapshot_id image in
  let error t := SExc (IMAGE_REMOVE_ERROR +:+ ": Failed to delete snapshot image " +:+ image_ref +:+ ": " +:+ t) in
  removed <~ DRemove image_ref ;;
  TRet match removed with
       | Ok _ | Raise (ImageNotFound _) => Ok tt
       | Raise (APIError (Some status) t) => Raise (if status =? 409 then SHttp (HTTPException 409 "SNAPSHOT::DELETE_CONFLICT") else error t)
       | Raise (DockerNotFound t) | Raise (APIError None t) | Raise (DockerException t) => Raise (error t)
       | Raise (TimedOut t) | Raise (OtherException t) => Raise (SExc t)
       | Raise (BaseException t) => Raise (SBase t)
       end.

Definition docker_inspect_snapshot (snapshot_id : string) (image : option string) : dprog SnapshotRuntimeStatus :=
  let image_ref := image_of snapshot_id image in
  got <~ DGet image_ref ;;
  TRet match got with
       | Ok _ => Ok (mkRuntimeStatus READY (Some image_ref) (Some "snapshot_recovery_ready")
                       (Some "Recovered snapshot image after server restart."))
       | Raise (ImageNotFound _) =>
           Ok (failed "snapshot_recovery_missing_image" "Snapshot creation was interrupted and no snapshot image was found.")
       | Raise (BaseException t) => Raise (SBase t)
       | Raise e => Ok (failed "snapshot_recovery_inspect_failed" ("Failed to inspect snapshot image " +:+ image_ref +:+ ": " +:+ docker_text e))
       end.

(** ** The daemon *)

(** The images there are, and the commits the daemon is still at *)
Record daemon := mkDaemon { da_images : gset string; da_pending : list string }.

(** The daemon answers a commit when it is done; the client may give up before.
    An image in use is not removed. *)
Definition dstep (w : daemon) (c : dcmd) : dvalue c -> daemon -> Prop :=
  match c return dvalue c -> daemon -> Prop with
  | DList _ => fun _ w' => w' = w
  | DCommit _ repository tag => fun r w' =>
      let ref := repository +:+ ":" +:+ tag in
      (r = Ok tt /\ w' = mkDaemon ({[ref]} ∪ da_images w) (da_pending w)) \/
      (r <> Ok tt /\ (w' = w \/ w' = mkDaemon (da_images w) (ref :: da_pending w)))
  | DRemove ref => fun r w' =>
      ((ref ∈ da_images w) /\ w' = mkDaemon (da_images w ∖ {[ref]}) (da_pending w) /\ forall t, r <> Raise (ImageNotFound t)) \/
      ((ref ∉ da_images w) /\ w' = w /\ exists t, r = Raise (ImageNotFound t)) \/
      (w' = w /\ r <> Ok tt /\ forall t, r <> Raise (ImageNotFound t))
  | DGet ref => fun r w' =>
      w' = w /\ (r = Ok tt -> ref ∈ da_images w) /\ forall t, r = Raise (ImageNotFound t) -> ref ∉ da_images w
  end.

(** The daemon finishes a commit, or an image is made or removed by others. *)
Inductive daemon_step : daemon -> daemon -> Prop :=
  | commit_lands images ref pending1 pending2 :
      daemon_step (mkDaemon images (pending1 ++ ref :: pending2)) (mkDaemon ({[ref]} ∪ images) (pending1 ++ pending2))
  | others_remove images ref pending : daemon_step (mkDaemon images pending) (mkDaemon (images ∖ {[ref]}) pending)
  | others_make images ref pending : daemon_step (mkDaemon images pending) (mkDaemon ({[ref]} ∪ images) pending).

(** [dexec w p trace a]: the method [p], begun in [w], gives [a]; [trace] lists
    the states after its calls and those in between. *)
Inductive dexec {A} : daemon -> tree dvalue A -> list daemon -> A -> Prop :=
  | dexec_ret w a : dexec w (TRet a) [] a
  | dexec_daemon w w' p l a : daemon_step w w' -> dexec w' p l a -> dexec w p (w' :: l) a
  | dexec_call w c f r w' l a : dstep w c r w' -> dexec w' (f r) l a -> dexec w (TCall c f) (w' :: l) a.

Lemma exec_ret {A} w (a b : A) l : dexec w (TRet a) l b -> b = a.
Proof.
  remember (TRet a) as p eqn:E. induction 1 as [w b|w w' p l b Hs He IH|]; [by injection E|by apply IH|done].
Qed.

(** A method with one call left: the answer and the states around it *)
Lemma dexec_last {A} w c (f : dvalue c -> A) l a :
  dexec w (TCall c (fun r => TRet (f r))) l a ->
  exists w1 w2 r, w1 ∈ w :: l /\ w2 ∈ l /\ dstep w1 c r w2 /\ a = f r.
Proof.
  remember (TCall c (fun r => TRet (f r))) as p eqn:Ep. induction 1 as [w a|w w' p l a Hs He IH|w c' g r w' l a Hs He IH]; [done| |].
  - destruct (IH Ep) as (w1 & w2 & r & H1 & H2 & H3 & H4). exists w1, w2, r. split_and!; [by right|by right|done|done].
  - injection Ep as -> Eg. apply Eqdep_dec.inj_pair2_eq_dec in Eg as ->;
      [|intros x y; destruct (decide (x = y)); [by left|by right]].
    exists w, w', r. split_and!; [by left|by left|done|by eapply exec_ret].
Qed.

(** [get_container_by_sandbox_id] changes nothing. *)
Lemma dexec_lookup {A} w id (found : string -> dprog A) raised l a :
  dexec w (get_container_by_sandbox_id id found raised) l a ->
  exists w1 l1, l1 ⊆ l /\ ((exists container, dexec w1 (found container) l1 a) \/ (exists e, dexec w1 (raised e) l1 a)).
Proof.
  unfold get_container_by_sandbox_id. remember (TCall _ _) as p eqn:Ep. induction 1 as [w a|w w' p l a Hs He IH|w c g r w' l a Hs He IH]; [done| |].
  - destruct (IH Ep) as (w1 & l1 & Hl & H). exists w1, l1. split; [intros x Hx; right; by apply Hl|done].
  - injection Ep as -> Eg. apply Eqdep_dec.inj_pair2_eq_dec in Eg as ->;
      [|intros x y; destruct (decide (x = y)); [by left|by right]].
    exists w', l. split; [intros x Hx; by right|]. destruct r as [[|container ?]|e]; eauto.
Qed.

Lemma commit_failed_not_ready timeout e s : commit_failed timeout e = Ok s -> rs_state s <> READY.
Proof. unfold commit_failed. destruct e; try (intros [= <-]; try case_match; done); done. Qed.

(** The image a snapshot is reported READY with was there during the call, and
    one reported as deleted was not. *)
Theorem docker_snapshots_honest w l id :
  (forall timeout sandbox_id s, dexec w (docker_create_snapshot timeout id sandbox_id) l (Ok s) -> rs_state s = READY ->
     rs_image s = Some (build_snapshot_image_ref id) /\ exists w', w' ∈ l /\ build_snapshot_image_ref id ∈ da_images w') /\
  (forall image s, dexec w (docker_inspect_snapshot id image) l (Ok s) -> rs_state s = READY ->
     rs_image s = Some (image_of id image) /\ exists w', w' ∈ w :: l /\ image_of id image ∈ da_images w') /\
  (forall image, dexec w (docker_delete_snapshot id image) l (Ok tt) -> exists w', w' ∈ l /\ image_of id image ∉ da_images w').
Proof.
  split_and!.
  - intros timeout sandbox_id s He Hs. unfold docker_create_snapshot in He.
    apply dexec_lookup in He as (w1 & l1 & Hl & [(container & He)|(e & He)]).
    2: { apply exec_ret in He. symmetry in He. by apply commit_failed_not_ready in He. }
    apply dexec_last in He as (w2 & w3 & r & _ & Hin & Hd & Ha). destruct r as [[]|e].
    2: { symmetry in Ha. by apply commit_failed_not_ready in Ha. }
    injection Ha as ->. split; [done|]. exists w3. split; [by apply Hl|]. destruct Hd as [[_ ->]|[Hd _]]; [|done]. simpl. set_solver.
  - intros image s He Hs. apply dexec_last in He as (w2 & w3 & r & Hin & _ & Hd & Ha). destruct r as [[]|e].
    2: { destruct e; try done; injection Ha as ->; done. }
    injection Ha as ->. split; [done|]. exists w2. split; [done|]. destruct Hd as (_ & Hd & _). by apply Hd.
  - intros image He. apply dexec_last in He as (w2 & w3 & r & _ & Hin & Hd & Ha). exists w3. split; [done|].
    destruct Hd as [(_ & -> & _)|[(Hni & -> & _)|(_ & Hr & Hn)]]; [simpl; set_solver|done|].
    destruct r as [[]|[]]; try done; [by edestruct Hn|]. destruct status_code; done.
Qed.

(** The client gives up on a commit while the daemon goes on: the snapshot is
    FAILED, deleting it finds no image and succeeds, and then the image appears,
    with nothing left that refers to it. *)
Example timed_out_commit_orphans_image :
  let ref := build_snapshot_image_ref "s1" in
  let busy := mkDaemon ∅ [ref] in
  dexec (mkDaemon ∅ []) (docker_create_snapshot (Some 60) "s1" "sbx") [mkDaemon ∅ []; busy]
    (Ok (failed "snapshot_runtime_timeout" "Docker snapshot creation timed out after 60 seconds: Read timed out.")) /\
  dexec busy (docker_delete_snapshot "s1" None) [busy] (Ok tt) /\
  daemon_step busy (mkDaemon ({[ref]} ∪ ∅) []).
Proof.
  cbv zeta. split_and!.
  - eapply (dexec_call _ (DList _) _ (Ok ["c1"])); [reflexivity|]. eapply (dexec_call _ (DCommit _ _ _) _ (Raise (TimedOut "Read timed out."))); [|apply dexec_ret].
    right. split; [done|by right].
  - eapply (dexec_call _ (DRemove _) _ (Raise (ImageNotFound "No such image"))); [|apply dexec_ret]. right. left. split; [set_solver|]. split; [done|by eexists].
  - apply (commit_lands ∅ _ [] []).
Qed.

(** ** What recovery relies on *)

Definition with_runtime (o : oracle) (delete : string -> option string -> res serr unit)
    (inspect : string -> res serr SnapshotRuntimeStatus) : oracle :=
  mkOracle (o_now o) (o_uuid o) (o_sandbox o) (o_supports o) (o_create o) delete inspect.

(** The recovery over the Kubernetes runtime, [nsof] giving the namespaces of the
    records *)
Definition kubernetes_oracle (k : kruntime) (nsof : string -> option string) (answers : forall c, kvalue c) (o : oracle) : oracle :=
  with_runtime o (fun id _ => outcome_of answers (k8s_delete_snapshot k id (nsof id)))
    (fun id => outcome_of answers (inspect_snapshot k id (nsof id))).

Definition docker_oracle (answers : forall c, dvalue c) (o : oracle) : oracle :=
  with_runtime o (fun id image => outcome_of answers (docker_delete_snapshot id image))
    (fun id => outcome_of answers (docker_inspect_snapshot id None)).

Definition docker_quiet {A} (r : res docker_exc A) : Prop := forall t, r <> Raise (BaseException t).

(** Both runtimes are what the recovery takes a runtime for. *)
Lemma kubernetes_runtime_ok k nsof (answers : forall c, kvalue c) o :
  (forall n, valid_datetime (o_now o n) = true) ->
  (forall ns name, quiet (answers (KGet ns name))) -> (forall ns name, quiet (answers (KDelete ns name))) ->
  runtime_ok (kubernetes_oracle k nsof answers o).
Proof.
  intros Hn Hg Hd. split; [done| |].
  - intros id. cbn [kubernetes_oracle with_runtime o_inspect]. unfold inspect_snapshot. cbv zeta.
    assert (forall ns, match outcome_of answers (inspect_in k (build_public_snapshot_name id) ns) with
                       | Ok s => rs_state s <> DELETING | Raise e => is_SException e = true end) as Hi; [|destruct (no_image _); apply Hi].
    intros ns. cbn [inspect_in outcome_of]. pose proof (Hg (default (kr_namespace k) ns) (build_public_snapshot_name id)) as Hq.
    destruct (answers (KGet _ _)) as [[cr|]|[st t|t|t]]; simpl; try done; [apply from_cr_sound|by destruct (Hq t)].
  - intros id image e. cbn [kubernetes_oracle with_runtime o_delete outcome_of k8s_delete_snapshot].
    generalize (default (default (kr_namespace k) (nsof id)) (answers (TPop id))). intros ns.
    pose proof (Hd ns (build_public_snapshot_name id)) as Hq.
    destruct (answers (KDelete _ _)) as [?|[st t|t|t]]; [done|destruct (st =? 404)|..|by destruct (Hq t)]; by intros [= <-].
Qed.

Lemma docker_runtime_ok (answers : forall c, dvalue c) o :
  (forall n, valid_datetime (o_now o n) = true) ->
  (forall ref, docker_quiet (answers (DGet ref))) -> (forall ref, docker_quiet (answers (DRemove ref))) ->
  runtime_ok (docker_oracle answers o).
Proof.
  intros Hn Hg Hd. split; [done| |].
  - intros id. cbn [docker_oracle with_runtime o_inspect outcome_of docker_inspect_snapshot].
    pose proof (Hg (image_of id None)) as Hq. destruct (answers (DGet _)) as [?|[]]; try done. by edestruct Hq.
  - intros id image e. cbn [docker_oracle with_runtime o_delete outcome_of docker_delete_snapshot].
    pose proof (Hd (image_of id image)) as Hq.
    destruct (answers (DRemove _)) as [?|[t|t|[st|] t|t|t|t|t]]; try done; [intros [= <-]..|by destruct (Hq t)]; by try case_match.
Qed.

(** At start-up the daemon does not answer in time: a snapshot whose image was
    committed before the server stopped is recorded as FAILED, for good.  The
    Kubernetes runtime reports it as still being made, and it is tried again. *)
Definition silent_daemon : oracle :=
  docker_oracle (fun c => match c with DList _ => Ok [] | _ => Raise (TimedOut "Read timed out.") end) demo_oracle.

Definition silent_api_server : oracle :=
  kubernetes_oracle example_runtime (fun _ => None)
    (fun c => match c return kvalue c with
              | KGet _ _ | KDelete _ _ | KCreate _ _ => Raise (OtherError "Read timed out.")
              | KClock => 0 | KSleep _ | TSet _ _ => tt | TGet _ | TPop _ => None
              end) demo_oracle.

Example silent_daemon_fails_snapshot :
  let states o := map (fun row => (row_id row, row_state row))
                    (w_repo (run o (recover_unfinished_snapshots 3) (world_of [demo_record "done" CREATING 2])).2) in
  states silent_daemon = [("done", "Failed")] /\ states silent_api_server = [("done", "Creating")].
Proof. vm_compute. by split. Qed.
