(* ===== verification/Resources.v ===== *)
(** * Resource limits and environments

    [services/helpers.py]: the readers of memory, CPU and GPU limits and the
    splitting of environments; [services/docker/container_ops.py], where they
    become the settings of a container; [services/k8s/provider_common.py], the
    limits of a pod; [services/windows_common.py], the settings of a Windows
    guest.  Log lines are not modelled. *)

From Stdlib Require Import ZArith Lia String Ascii Floats.SpecFloat.
From stdpp Require Import base numbers strings gmap list.
From S2P Require Import Prelude PyString PyText PoolTypes PyCodec Validators.

Open Scope string_scope.
Open Scope Z_scope.

(** ** Numbers in texts *)

(** The longest prefix of characters that satisfy [p] *)
Fixpoint leading (p : ascii -> bool) (l : list ascii) : list ascii :=
  match l with
  | c :: l => if p c then c :: leading p l else []
  | [] => []
  end.

Lemma leading_drop p l : l = (leading p l ++ drop_while p l)%list.
Proof. induction l as [|c l IH]; simpl; [done|]. destruct (p c); simpl; congruence. Qed.

Lemma leading_ok p l : forallb p (leading p l) = true.
Proof. induction l as [|c l IH]; simpl; [done|]. destruct (p c) eqn:E; simpl; [by rewrite E|done]. Qed.

Lemma leading_app p l1 l2 : forallb p l1 = true -> (forall c l, l2 = c :: l -> p c = false) ->
  leading p (l1 ++ l2) = l1 /\ drop_while p (l1 ++ l2) = l2.
Proof.
  intros H1 H2. induction l1 as [|c l IH]; simpl in *.
  - destruct l2 as [|c l]; [done|]. simpl. by rewrite (H2 c l).
  - apply andb_prop in H1 as [Hc Hl]. rewrite Hc. destruct (IH Hl) as [-> ->]. done.
Qed.

(** [int] of a run of digits *)
Definition number_of (ds : list ascii) : Z := default 0 (undigits 0 ds).

(** The double nearest to a quotient of integers; an infinity when it is too large *)
Definition float_ratio (n d : Z) : spec_float :=
  match n with
  | Z0 => S754_zero false
  | Zpos p => SFdiv 53 1024 (S754_finite false p 0) (S754_finite false (Z.to_pos d) 0)
  | Zneg p => SFdiv 53 1024 (S754_finite true p 0) (S754_finite false (Z.to_pos d) 0)
  end.

(** Underscores stand between digits only. *)
Fixpoint drop_underscores (after_digit : bool) (l : list ascii) : option (list ascii) :=
  match l with
  | [] => Some []
  | c :: l =>
      if decide (c = "_"%char) then
        match l with
        | d :: _ => if after_digit && is_digit d then drop_underscores false l else None
        | [] => None
        end
      else cons c <$> drop_underscores (is_digit c) l
  end.

(** [e], a sign and digits, or nothing *)
Definition exponent (l : list ascii) : option Z :=
  match l with
  | [] => Some 0
  | c :: l =>
      if decide (c = "e"%char) then
        let '(negative, ds) := match l with
                               | "-"%char :: l => (true, l)
                               | "+"%char :: l => (false, l)
                               | _ => (false, l)
                               end in
        match ds with
        | [] => None
        | _ => (fun n => if negative : bool then - n else n) <$> undigits 0 ds
        end
      else None
  end.

Definition negate (negative : bool) (f : spec_float) : spec_float := if negative then SFopp f else f.

(** A number in lower-case text without white space around it *)
Definition unsigned_float (l : list ascii) : option spec_float :=
  if bool_decide (of_chars l = "inf") || bool_decide (of_chars l = "infinity") then Some (S754_infinity false)
  else if bool_decide (of_chars l = "nan") then Some S754_nan
  else
    let whole := leading is_digit l in
    let '(fraction, rest) := match drop_while is_digit l with
                             | "."%char :: l => (leading is_digit l, drop_while is_digit l)
                             | l => ([], l)
                             end in
    match (whole ++ fraction)%list with
    | [] => None
    | ds =>
        e ← exponent rest;
        let scale := e - Z.of_nat (length fraction) in
        Some (if 0 <=? scale then float_ratio (number_of ds * 10 ^ scale) 1 else float_ratio (number_of ds) (10 ^ (- scale)))
    end.

(** [float(text)] of a lower-case text, [None] for a [ValueError] *)
Definition float_of_text (l : list ascii) : option spec_float :=
  l ← drop_underscores false (strip_list (int_space l) l);
  match l with
  | "-"%char :: l => SFopp <$> unsigned_float l
  | "+"%char :: l => unsigned_float l
  | l => unsigned_float l
  end.

Definition is_finite (f : spec_float) : bool :=
  match f with S754_zero _ | S754_finite _ _ _ => true | _ => false end.

(** [int(f)] of a finite float *)
Definition truncate (f : spec_float) : Z :=
  match f with
  | S754_finite s m e =>
      let v := if 0 <=? e then Z.pos m * 2 ^ e else Z.pos m / 2 ^ (- e) in
      if s then - v else v
  | _ => 0
  end.

Example floats_read :
  map (fun s => float_of_text (chars s)) ["0.1"; " 1_0.5e1 "; "-.5"; "1e400"; "1__0"; "e5"; "nan"] =
  [Some (S754_finite false 7205759403792794 (-56)); Some (float_ratio 105 1); Some (S754_finite true 4503599627370496 (-53));
   Some (S754_infinity false); None; None; Some S754_nan].
Proof. vm_compute. reflexivity. Qed.

(** ** helpers.py *)

Definition falsy (value : option string) : bool := match value with Some s => (s =? "")%string | None => true end.

Definition MEMORY_MULTIPLIERS : list (string * Z) :=
  [("", 1); ("b", 1); ("k", 1000); ("kb", 1000); ("ki", 1024); ("m", 1000000); ("mb", 1000000); ("mi", 1024 ^ 2);
   ("g", 1000000000); ("gb", 1000000000); ("gi", 1024 ^ 3); ("t", 1000000000000); ("tb", 1000000000000); ("ti", 1024 ^ 4)].

(** The second group of [MEMORY_PATTERN], on lower-case text *)
Definition memory_unit (u : list ascii) : bool :=
  let prefix c := bool_decide (c ∈ chars "kmgti") in
  match u with
  | [] => true
  | [c] => prefix c || bool_decide (c = "b"%char)
  | [c; d] => prefix c && (bool_decide (d = "i"%char) || bool_decide (d = "b"%char))
  | _ => false
  end.

(** [MEMORY_PATTERN.match]: the two groups, the second one in lower case *)
Definition match_memory (s : string) : option (list ascii * list ascii) :=
  let l := drop_while is_space (chars s) in
  let ds := leading is_digit l in
  let unit := map lower_char (rstrip is_space (drop_while is_digit l)) in
  match ds with
  | [] => None
  | _ => if memory_unit unit then Some (ds, unit) else None
  end.

Definition parse_memory_limit (value : option string) : option Z :=
  if falsy value then None
  else
    '(amount, unit) ← match_memory (default "" value);
    multiplier ← od_get (of_chars unit) MEMORY_MULTIPLIERS;
    Some (number_of amount * multiplier).

Definition NANOS : spec_float := float_of_int 1000000000.

Definition parse_nano_cpus (value : option string) : option Z :=
  if falsy value then None
  else
    let cpu_str := chars (lower (strip (default "" value))) in
    cpus ← (if bool_decide (last cpu_str = Some "m"%char)
            then (fun f => SFdiv 53 1024 f (float_of_int 1000)) <$> float_of_text (removelast cpu_str)
            else float_of_text cpu_str);
    if negb (is_finite cpus) then None
    else if SFleb cpus (S754_zero false) then None
    else
      let nano_cpus := SFmul 53 1024 cpus NANOS in
      if negb (is_finite nano_cpus) then None
      else if 2 ^ 63 - 1 <? truncate nano_cpus then None
      else Some (truncate nano_cpus).

Definition parse_gpu_request (value : option string) : option Z :=
  if falsy value then None
  else
    let gpu_str := lower (strip (default "" value)) in
    if (gpu_str =? "all")%string then Some (-1)
    else
      count ← int_of_str gpu_str;
      if count <=? 0 then None else Some count.

Definition normalize_external_endpoint_url (endpoint default_scheme : string) : string :=
  let endpoint := strip endpoint in
  if startswith endpoint "http://" || startswith endpoint "https://" then endpoint else default_scheme +:+ "://" +:+ endpoint.

(** Environments: dictionaries whose values may be [None] *)
Abbreviation environ := (list (string * option string)).

Definition EGRESS_ENV_PREFIX : string := "OPENSANDBOX_EGRESS_".
Definition MITMPROXY_TRANSPARENT : string := "OPENSANDBOX_EGRESS_MITMPROXY_TRANSPARENT".

Definition ALLOWED_EGRESS_ENV_VARS : list string :=
  ["OPENSANDBOX_EGRESS_LOG_LEVEL"; "OPENSANDBOX_EGRESS_DNS_UPSTREAM_TIMEOUT"; "OPENSANDBOX_EGRESS_MITMPROXY_SSL_INSECURE";
   MITMPROXY_TRANSPARENT; "OPENSANDBOX_EGRESS_MITMPROXY_EXTRA_PORTS"; "OPENSANDBOX_EGRESS_DENY_WEBHOOK";
   "OPENSANDBOX_EGRESS_METRICS_EXTRA_ATTRS"; "OPENSANDBOX_EGRESS_CREDENTIAL_VAULT_REQUIRE_TLS";
   "OPENSANDBOX_EGRESS_CREDENTIAL_VAULT_TRUSTED_PROXY_CIDRS"; "OPENSANDBOX_EGRESS_POLICY_FILE"].

Definition is_egress (key : string) : bool := startswith key EGRESS_ENV_PREFIX.
Definition egress_allowed (key : string) : bool := bool_decide (key ∈ ALLOWED_EGRESS_ENV_VARS).

(** [None] is the [ValueError]. *)
Fixpoint split_loop (env sandbox_env egress_env : environ) : option (environ * environ) :=
  match env with
  | [] => Some (sandbox_env, egress_env)
  | (key, value) :: env =>
      if is_egress key then
        if negb (egress_allowed key) then None
        else split_loop env (if bool_decide (key = MITMPROXY_TRANSPARENT) then od_set key value sandbox_env else sandbox_env)
               (od_set key value egress_env)
      else split_loop env (od_set key value sandbox_env) egress_env
  end.

Definition split_egress_env (env : environ) : option (environ * environ) := split_loop env [] [].

(** ** Docker: container_ops.py *)

Abbreviation limits := (list (string * string)).

Definition resolve_resource_limits (resource_limits : limits) : option Z * option Z * option Z :=
  (parse_memory_limit (od_get "memory" resource_limits), parse_nano_cpus (od_get "cpu" resource_limits),
   parse_gpu_request (od_get "gpu" resource_limits)).

(** [if x: kwargs[...] = x] *)
Definition truthy (x : option Z) : option Z := match x with Some 0 => None | x => x end.

(** The resource settings [_base_host_config_kwargs] makes of them *)
Record host_resources := mkHostResources { hr_mem_limit : option Z; hr_nano_cpus : option Z; hr_gpu_count : option Z }.

Definition host_resources_of (mem_limit nano_cpus gpu_count : option Z) : host_resources :=
  mkHostResources (truthy mem_limit) (truthy nano_cpus) (truthy gpu_count).

Definition docker_resources (windows : bool) (resource_limits : limits) : host_resources :=
  let '(mem_limit, nano_cpus, gpu_count) := resolve_resource_limits resource_limits in
  if windows then host_resources_of None None None else host_resources_of mem_limit nano_cpus gpu_count.

(** ** Kubernetes: provider_common.py *)

Definition translate_resource_limits_for_k8s (resource_limits : limits) : res http limits :=
  let translated := filter (fun kv => kv.1 <> "gpu") resource_limits in
  match od_get "gpu" resource_limits with
  | None => Ok translated
  | Some raw_gpu =>
      if (lower (strip raw_gpu) =? "all")%string then Raise (HTTPException 400 "SANDBOX::INVALID_PARAMETER")
      else
        match parse_gpu_request (Some raw_gpu) with
        | None => Ok translated
        | Some gpu_count => if gpu_count <=? 0 then Ok translated else Ok (od_set "nvidia.com/gpu" (str_of_int gpu_count) translated)
        end
  end.

(** ** Windows guests: windows_common.py *)

Inductive winexn := WinHttp (h : http) | WinOverflow.

Definition is_letter (c : ascii) : bool := is_lower_az c || is_upper_az c.

(** [math.ceil(n / d)] *)
Definition ceil_ratio (n d : Z) : res winexn Z :=
  match float_ceil (float_ratio n d) with Some v => Ok v | None => Raise WinOverflow end.

(** [_WINDOWS_SIZE_PATTERN.match]: amount and unit in lower case *)
Definition match_windows_size (s : string) : option (list ascii * string) :=
  let l := drop_while is_space (chars s) in
  let ds := leading is_digit l in
  let unit := rstrip is_space (drop_while is_space (drop_while is_digit l)) in
  match ds with
  | [] => None
  | _ => if forallb is_letter unit then Some (ds, of_chars (map lower_char unit)) else None
  end.

Definition gigabytes (n : Z) : string := str_of_int n +:+ "G".

Definition normalize_windows_size_env (limit_value : option string) : res winexn (option string) :=
  if falsy limit_value then Ok None
  else
    match match_windows_size (default "" limit_value) with
    | None => Ok None
    | Some (ds, unit) =>
        let amount := number_of ds in
        if amount <=? 0 then Ok None
        else if bool_decide (unit ∈ ["g"; "gi"; "gb"]) then Ok (Some (gigabytes amount))
        else if bool_decide (unit ∈ ["m"; "mi"; "mb"]) then n ← ceil_ratio amount 1024; Ok (Some (gigabytes (1 `max` n)))
        else if bool_decide (unit ∈ ["t"; "ti"; "tb"]) then Ok (Some (gigabytes (amount * 1024)))
        else Ok None
    end.

(** [a or b] of texts that may be absent *)
Definition or_text (a b : option string) : option string := if falsy a then b else a.

Definition disk_limit (resource_limits : limits) : option string :=
  or_text (or_text (od_get "disk" resource_limits) (od_get "storage" resource_limits)) (od_get "ephemeral-storage" resource_limits).

(** [int(text[:-1])] of a normalized size *)
Definition size_of (text : string) : Z := default 0 (int_of_str (of_chars (removelast (chars text)))).

Definition invalid {A} : res winexn A := Raise (WinHttp (HTTPException 400 "SANDBOX::INVALID_PARAMETER")).

Definition at_least (minimum : Z) (limit : option string) : res winexn unit :=
  match limit with
  | None => Ok tt
  | Some _ =>
      size ← normalize_windows_size_env limit;
      match size with
      | None => invalid
      | Some size => if size_of size <? minimum then invalid else Ok tt
      end
  end.

Definition validate_windows_resource_limits (resource_limits : limits) : res winexn unit :=
  cpu ← (match od_get "cpu" resource_limits with
         | None => Ok tt
         | cpu_limit =>
             match parse_nano_cpus cpu_limit with
             | None => invalid
             | Some nano_cpus => if nano_cpus <? 2000000000 then invalid else Ok tt
             end
         end : res winexn unit);
  memory ← at_least 4 (od_get "memory" resource_limits);
  at_least 64 (disk_limit resource_limits).

(** [item.split("=", 1)[0]], [None] without an equals sign *)
Definition env_key (item : string) : option string :=
  (fun p => of_chars p.1) <$> split_once "="%char (chars item).

Fixpoint upsert_env (key value : string) (env : list string) : list string :=
  match env with
  | [] => [key +:+ "=" +:+ value]
  | item :: env => if bool_decide (env_key item = Some key) then (key +:+ "=" +:+ value) :: env else item :: upsert_env key value env
  end.

Definition upsert_given (key : string) (value : option string) (env : list string) : list string :=
  match value with Some v => upsert_env key v env | None => env end.

Definition inject_windows_resource_limits_env (env : list string) (resource_limits : limits) : res winexn (list string) :=
  cores ← (match truthy (parse_nano_cpus (od_get "cpu" resource_limits)) with
           | None => Ok None
           | Some nano_cpus => n ← ceil_ratio nano_cpus 1000000000; Ok (Some (str_of_int (1 `max` n)))
           end : res winexn (option string));
  memory ← normalize_windows_size_env (od_get "memory" resource_limits);
  disk ← normalize_windows_size_env (disk_limit resource_limits);
  Ok (upsert_given "DISK_SIZE" disk (upsert_given "RAM_SIZE" memory (upsert_given "CPU_CORES" cores env))).

(** ** Memory *)

(** The units of the table are what the pattern accepts, and lower-case letters. *)
Lemma memory_units u m : od_get u MEMORY_MULTIPLIERS = Some m -> memory_unit (chars u) = true /\ forallb is_lower_az (chars u) = true.
Proof.
  assert (forallb (fun um => memory_unit (chars um.1) && forallb is_lower_az (chars um.1)) MEMORY_MULTIPLIERS = true) as H by (vm_compute; reflexivity).
  intros Hm%od_get_elem. apply list_elem_of_In in Hm. apply (proj1 (forallb_forall _ _) H) in Hm. by apply andb_prop.
Qed.

Lemma lowered_letter c : is_lower_az (lower_char c) = true -> is_space c = false /\ is_digit c = false.
Proof.
  assert (forall c, implb (is_lower_az (lower_char c)) (negb (is_space c) && negb (is_digit c)) = true) as H
    by (intros [[] [] [] [] [] [] [] []]; vm_compute; reflexivity).
  intros Hc. specialize (H c). rewrite Hc in H. simpl in H. apply andb_prop in H as [H1 H2]. by apply negb_true_iff in H1, H2.
Qed.

Lemma digit_not_space c : is_digit c = true -> is_space c = false.
Proof. unfold is_digit, is_space, between. intros. bool_lia. Qed.

Lemma rstrip_split p l : exists after, l = (rstrip p l ++ after)%list /\ forallb p after = true.
Proof.
  exists (rev (leading p (rev l))). split.
  - unfold rstrip. rewrite <- rev_app_distr, <- leading_drop. by rewrite rev_involutive.
  - rewrite forallb_rev. apply leading_ok.
Qed.

(** White space, digits, a unit and white space, and how the pattern takes them apart *)
Lemma match_memory_parts before ds unit after m :
  forallb is_space before = true -> forallb is_space after = true -> ds <> [] -> forallb is_digit ds = true ->
  od_get (of_chars (map lower_char unit)) MEMORY_MULTIPLIERS = Some m ->
  match_memory (of_chars (before ++ ds ++ unit ++ after)) = Some (ds, map lower_char unit).
Proof.
  intros Hb Ha Hne Hd Hu. apply memory_units in Hu as [Hm Hl]. rewrite chars_of_chars in Hm, Hl.
  assert (forall c, c ∈ unit -> is_space c = false /\ is_digit c = false) as Hc.
  { intros c Hin. apply lowered_letter, (proj1 (forallb_forall _ _) Hl), in_map. by apply list_elem_of_In. }
  unfold match_memory. rewrite chars_of_chars.
  destruct (leading_app is_space before (ds ++ unit ++ after)%list) as [_ ->]; [done| |].
  { intros c l E. destruct ds as [|d ds]; [done|]. injection E as -> _. simpl in Hd. apply andb_prop in Hd as [Hd _]. by apply digit_not_space. }
  destruct (leading_app is_digit ds (unit ++ after)%list) as [-> ->]; [done| |].
  { intros c l E. destruct unit as [|d unit].
    - simpl in E. subst. simpl in Ha. apply andb_prop in Ha as [Hs _]. destruct (is_digit c) eqn:Ec; [|done]. apply digit_not_space in Ec. congruence.
    - injection E as -> _. apply Hc. by left. }
  rewrite rstrip_app; [|intros c Hin; by apply Hc|done]. rewrite Hm. by destruct ds.
Qed.

Lemma match_memory_inv s ds u : match_memory s = Some (ds, u) ->
  exists before unit after, chars s = (before ++ ds ++ unit ++ after)%list /\ u = map lower_char unit /\
    forallb is_space before = true /\ forallb is_space after = true /\ ds <> [] /\ forallb is_digit ds = true.
Proof.
  unfold match_memory. set (l := drop_while is_space (chars s)). intros H.
  destruct (rstrip_split is_space (drop_while is_digit l)) as (after & Hrest & Hafter).
  set (unit := rstrip is_space (drop_while is_digit l)) in *.
  assert ((leading is_digit l, map lower_char unit) = (ds, u) /\ leading is_digit l <> []) as [[= <- <-] Hne].
  { destruct (leading is_digit l); [done|]. destruct (memory_unit _); [|done]. by injection H as <- <-. }
  exists (leading is_space (chars s)), unit, after. split_and!; try done; [|apply leading_ok..].
  rewrite <- Hrest, <- leading_drop. apply leading_drop.
Qed.

(** What a memory limit means: digits and a unit of the table, in either case,
    with white space around them; everything else is no limit. *)
Theorem memory_limit_spec value n :
  parse_memory_limit value = Some n <->
  exists s before ds unit after multiplier,
    value = Some s /\ chars s = (before ++ ds ++ unit ++ after)%list /\
    forallb is_space before = true /\ forallb is_space after = true /\ ds <> [] /\ forallb is_digit ds = true /\
    od_get (of_chars (map lower_char unit)) MEMORY_MULTIPLIERS = Some multiplier /\ n = number_of ds * multiplier.
Proof.
  unfold parse_memory_limit. split.
  - destruct value as [s|]; [|done]. destruct (falsy (Some s)); [done|]. change (default "" (Some s)) with s. intros H.
    destruct (match_memory s) as [[ds u]|] eqn:Em; [|done]. cbn [mbind option_bind] in H.
    destruct (od_get (of_chars u) MEMORY_MULTIPLIERS) as [m|] eqn:Eu; [|done]. injection H as <-.
    apply match_memory_inv in Em as (before & unit & after & Hs & -> & Hb & Ha & Hne & Hd). by exists s, before, ds, unit, after, m.
  - intros (s & before & ds & unit & after & m & -> & Hs & Hb & Ha & Hne & Hd & Hm & ->).
    assert (s <> "") as Hs0 by (intros ->; destruct before, ds; done). apply String.eqb_neq in Hs0.
    change (falsy (Some s)) with (s =? "")%string. rewrite Hs0. change (default "" (Some s)) with s.
    rewrite <- (of_chars_chars s), Hs, (match_memory_parts _ _ _ _ m) by done. cbn [mbind option_bind]. by rewrite Hm.
Qed.

(** ** CPU *)

Lemma rounded_not_negative m e l : 0 <= truncate (binary_round_aux 53 1024 false m e l).
Proof.
  unfold binary_round_aux. repeat case_match; try done. simpl.
  match goal with |- context [0 <=? ?e] => destruct (Z.leb_spec 0 e) end.
  - apply Z.mul_nonneg_nonneg; [done|]. apply Z.pow_nonneg. lia.
  - apply Z.div_pos; [done|]. apply Z.pow_pos_nonneg; lia.
Qed.

(** A CPU limit is a count of billionths that the daemon's 64 bits hold. *)
Theorem nano_cpus_bounds value n : parse_nano_cpus value = Some n -> 0 <= n <= 2 ^ 63 - 1.
Proof.
  unfold parse_nano_cpus. destruct (falsy value); [done|]. cbv zeta. set (cpus := if bool_decide _ then _ else _).
  destruct cpus as [f|]; [|done]. cbn [mbind option_bind]. destruct (is_finite f) eqn:Hf; [|done]. cbn [negb].
  destruct (SFleb f (S754_zero false)) eqn:Hpos; [done|]. destruct (is_finite (SFmul 53 1024 f NANOS)); [|done]. cbn [negb].
  destruct (Z.ltb_spec (2 ^ 63 - 1) (truncate (SFmul 53 1024 f NANOS))); [done|]. intros [= <-]. split; [|done].
  destruct f as [[]|[]| |[] m e]; try done. unfold SFmul. change NANOS with (S754_finite false 8388608000000000 (-23)).
  apply rounded_not_negative.
Qed.

(** ** Environments *)

(** What goes where *)
Definition to_sandbox (kv : string * option string) : Prop := is_egress kv.1 = false \/ kv.1 = MITMPROXY_TRANSPARENT.
Definition to_egress (kv : string * option string) : Prop := is_egress kv.1 = true.
#[global] Instance to_sandbox_dec kv : Decision (to_sandbox kv).
Proof. unfold to_sandbox. apply _. Defined.
#[global] Instance to_egress_dec kv : Decision (to_egress kv).
Proof. unfold to_egress. apply _. Defined.
Definition may_pass (kv : string * option string) : bool := negb (is_egress kv.1) || egress_allowed kv.1.

Lemma split_loop_spec env sandbox_env egress_env :
  NoDup (env.*1) -> (forall key, key ∈ env.*1 -> od_get key sandbox_env = None /\ od_get key egress_env = None) ->
  split_loop env sandbox_env egress_env =
  if forallb may_pass env then Some (sandbox_env ++ filter to_sandbox env, egress_env ++ filter to_egress env)%list else None.
Proof.
  revert sandbox_env egress_env. induction env as [|[key value] env IH]; intros sandbox_env egress_env Hd Hnew; [by rewrite !app_nil_r|].
  rewrite fmap_cons in Hd, Hnew. apply NoDup_cons in Hd as [Hk Hd].
  destruct (Hnew key ltac:(by left)) as [Hs He]. pose proof (fun k H => Hnew k (list_elem_of_further _ _ _ H)) as Hrest. simpl in Hk.
  assert (forall d k, k ∈ env.*1 -> od_get k d = None -> od_get k (od_set key value d) = None) as Hset
    by (intros d k Hin Hn; rewrite od_get_set_ne; [done|intros ->; done]).
  cbn [split_loop forallb]. unfold may_pass at 1. cbn [fst]. destruct (is_egress key) eqn:Hp; simpl.
  - destruct (egress_allowed key); simpl; [|done]. rewrite (filter_cons_True to_egress) by done.
    case_bool_decide as Ht.
    + rewrite IH by (done || (intros k Hin; destruct (Hrest k Hin); split; by apply Hset)).
      rewrite (filter_cons_True to_sandbox) by by right. rewrite !od_set_new by done. by rewrite <- !app_assoc.
    + rewrite IH by (done || (intros k Hin; destruct (Hrest k Hin); split; [done|by apply Hset])).
      rewrite (filter_cons_False to_sandbox) by (unfold to_sandbox; simpl; rewrite Hp; intros [[=]|?]; done).
      rewrite !od_set_new by done. by rewrite <- !app_assoc.
  - rewrite IH by (done || (intros k Hin; destruct (Hrest k Hin); split; [by apply Hset|done])).
    rewrite (filter_cons_True to_sandbox) by by left. rewrite (filter_cons_False to_egress) by (unfold to_egress; simpl; congruence).
    rewrite !od_set_new by done. by rewrite <- !app_assoc.
Qed.

(** The environment of a request is split in order: the sandbox gets what has no
    egress prefix, and the switch of the transparent proxy; the sidecar gets what
    has the prefix, if every such key is allowed. *)
Theorem split_egress_env_spec env : NoDup (env.*1) ->
  split_egress_env env = if forallb may_pass env then Some (filter to_sandbox env, filter to_egress env) else None.
Proof. intros Hd. unfold split_egress_env. rewrite split_loop_spec; [done|done|]. intros key _. done. Qed.

(** So the sandbox sees no setting of the sidecar but that switch. *)
Lemma sandbox_env_clean env sandbox_env egress_env key value :
  NoDup (env.*1) -> split_egress_env env = Some (sandbox_env, egress_env) -> (key, value) ∈ sandbox_env ->
  (key, value) ∈ env /\ (is_egress key = true -> key = MITMPROXY_TRANSPARENT).
Proof.
  intros Hd. rewrite split_egress_env_spec by done. destruct (forallb may_pass env); [|done]. intros [= <- <-] [Hs Hin]%list_elem_of_filter.
  split; [done|]. intros He. destruct Hs as [Hs|Hs]; simpl in Hs; congruence.
Qed.

(** ** GPUs *)

Lemma gpu_request_positive value n : parse_gpu_request value = Some n -> n = -1 \/ 0 < n.
Proof.
  unfold parse_gpu_request. destruct (falsy value); [done|]. cbv zeta. case_match; [intros [= <-]; by left|].
  destruct (int_of_str _) as [c|]; [|done]. simpl. destruct (Z.leb_spec c 0); [done|]. intros [= <-]. by right.
Qed.

(** A pod's limits: the other keys as they are, no [gpu], and the GPUs as a
    positive integer or not at all; all of them is refused. *)
Theorem pod_limits_spec resource_limits :
  match translate_resource_limits_for_k8s resource_limits with
  | Raise e => e = HTTPException 400 "SANDBOX::INVALID_PARAMETER" /\
      exists raw, od_get "gpu" resource_limits = Some raw /\ lower (strip raw) = "all"
  | Ok pod =>
      od_get "gpu" pod = None /\
      (forall key, key <> "gpu" -> key <> "nvidia.com/gpu" -> od_get key pod = od_get key resource_limits) /\
      (od_get "nvidia.com/gpu" pod = od_get "nvidia.com/gpu" resource_limits \/
       exists n, 0 < n /\ parse_gpu_request (od_get "gpu" resource_limits) = Some n /\ od_get "nvidia.com/gpu" pod = Some (str_of_int n))
  end.
Proof.
  unfold translate_resource_limits_for_k8s. cbv zeta.
  assert (forall key, od_get key (filter (fun kv => kv.1 <> "gpu") resource_limits) = if decide (key <> "gpu") then od_get key resource_limits else None) as Hf
    by (intros key; exact (od_get_filter_keys (fun k => k <> "gpu") key resource_limits)).
  assert (od_get "gpu" (filter (fun kv => kv.1 <> "gpu") resource_limits) = None) as Hg by (rewrite Hf; by rewrite decide_False by (intros H; by apply H)).
  assert (forall key, key <> "gpu" -> od_get key (filter (fun kv => kv.1 <> "gpu") resource_limits) = od_get key resource_limits) as Ho
    by (intros key Hk; rewrite Hf; by rewrite decide_True).
  destruct (od_get "gpu" resource_limits) as [raw|] eqn:E.
  2: { split_and!; [done|intros key Hk _; by apply Ho|left; by apply Ho]. }
  destruct (lower (strip raw) =? "all")%string eqn:Ea; [apply String.eqb_eq in Ea; eauto|].
  destruct (parse_gpu_request (Some raw)) as [n|] eqn:En.
  2: { split_and!; [done|intros key Hk _; by apply Ho|left; by apply Ho]. }
  destruct (Z.leb_spec n 0).
  { split_and!; [done|intros key Hk _; by apply Ho|left; by apply Ho]. }
  split_and!.
  - by rewrite od_get_set_ne.
  - intros key Hk1 Hk2. rewrite od_get_set_ne by done. by apply Ho.
  - right. exists n. split_and!; [done|done|apply od_get_set_eq].
Qed.

(** ** Windows guests *)

Lemma size_gigabytes n : 0 <= n -> size_of (gigabytes n) = n.
Proof.
  intros Hn. unfold size_of, gigabytes. rewrite chars_app. change (chars "G") with ["G"%char]. rewrite removelast_last, of_chars_chars.
  by rewrite int_of_str_str.
Qed.

Lemma normalized_size value text : normalize_windows_size_env value = Ok (Some text) -> exists n, 0 < n /\ text = gigabytes n.
Proof.
  unfold normalize_windows_size_env. destruct (falsy value); [done|]. destruct (match_windows_size _) as [[ds unit]|]; [|done]. cbv zeta.
  destruct (Z.leb_spec (number_of ds) 0); [done|]. case_bool_decide; [intros [= <-]; eauto|].
  case_bool_decide.
  - destruct (ceil_ratio _ _) as [v|]; [|done]. simpl. intros [= <-]. exists (1 `max` v). split; [lia|done].
  - case_bool_decide; [|done]. intros [= <-]. exists (number_of ds * 1024). split; [lia|done].
Qed.

Lemma at_least_ok minimum limit : at_least minimum (Some limit) = Ok tt ->
  exists n, minimum <= n /\ normalize_windows_size_env (Some limit) = Ok (Some (gigabytes n)).
Proof.
  unfold at_least. destruct (normalize_windows_size_env (Some limit)) as [[text|]|e] eqn:E; simpl; try done.
  apply normalized_size in E as (n & Hn & ->). rewrite size_gigabytes by lia. destruct (Z.ltb_spec n minimum); [done|]. eauto.
Qed.

Lemma upserted key value env : (key +:+ "=" +:+ value) ∈ upsert_env key value env.
Proof. induction env as [|item env IH]; simpl; [by left|]. case_bool_decide; [by left|by right]. Qed.

Lemma upsert_keeps key value item env : env_key item <> Some key -> item ∈ env -> item ∈ upsert_env key value env.
Proof.
  intros Hk. induction env as [|x env IH]; [by intros ?%elem_of_nil|]. simpl. intros [->|Hin]%elem_of_cons.
  - rewrite bool_decide_eq_false_2 by done. by left.
  - case_bool_decide; right; [done|by apply IH].
Qed.

Lemma upsert_given_keeps key value item env : env_key item <> Some key -> item ∈ env -> item ∈ upsert_given key value env.
Proof. destruct value; [apply upsert_keeps|done]. Qed.

(** A guest whose limits were accepted is started with at least 2 CPUs' worth of
    time, 4G of memory and 64G of disk wherever the request gives a limit,
    whatever the environment of the request says. *)
Theorem windows_limits_enforced env resource_limits env' :
  validate_windows_resource_limits resource_limits = Ok tt ->
  inject_windows_resource_limits_env env resource_limits = Ok env' ->
  (forall cpu, od_get "cpu" resource_limits = Some cpu ->
     exists nanos cores, parse_nano_cpus (Some cpu) = Some nanos /\ 2000000000 <= nanos /\ ("CPU_CORES=" +:+ str_of_int cores) ∈ env') /\
  (forall memory, od_get "memory" resource_limits = Some memory -> exists n, 4 <= n /\ ("RAM_SIZE=" +:+ gigabytes n) ∈ env') /\
  (forall disk, disk_limit resource_limits = Some disk -> exists n, 64 <= n /\ ("DISK_SIZE=" +:+ gigabytes n) ∈ env').
Proof.
  unfold validate_windows_resource_limits, inject_windows_resource_limits_env. intros Hv Hi.
  apply res_bind_ok in Hv as ([] & Hcpu & Hv). apply res_bind_ok in Hv as ([] & Hmem & Hdisk).
  apply res_bind_ok in Hi as (cores & Hcores & Hi). apply res_bind_ok in Hi as (memory & Hmemory & Hi).
  apply res_bind_ok in Hi as (disk & Hdisk' & Hi). injection Hi as <-. split_and!.
  - intros cpu E. rewrite E in Hcpu, Hcores. destruct (parse_nano_cpus (Some cpu)) as [nanos|]; [|done].
    destruct (Z.ltb_spec nanos 2000000000); [done|]. unfold truthy in Hcores. destruct nanos as [|p|p]; [lia| |lia].
    apply res_bind_ok in Hcores as (n & _ & [= <-]). exists (Z.pos p), (1 `max` n). split_and!; [done|done|].
    apply upsert_given_keeps, upsert_given_keeps; [(unfold env_key; simpl; discriminate)..|]. apply (upserted "CPU_CORES").
  - intros m E. rewrite E in Hmem, Hmemory. apply at_least_ok in Hmem as (n & Hn & Hm). rewrite Hm in Hmemory. injection Hmemory as <-.
    exists n. split; [done|]. apply upsert_given_keeps; [unfold env_key; simpl; discriminate|]. apply (upserted "RAM_SIZE").
  - intros d E. rewrite E in Hdisk, Hdisk'. apply at_least_ok in Hdisk as (n & Hn & Hm). rewrite Hm in Hdisk'. injection Hdisk' as <-.
    exists n. split; [done|]. apply (upserted "DISK_SIZE").
Qed.

Lemma windows_limits_enforced_witness :
  exists n, 4 <= n /\ ("RAM_SIZE=" +:+ gigabytes n) ∈ ["USER=me"; "RAM_SIZE=8G"; "CPU_CORES=4"].
Proof.
  refine (proj1 (proj2 (windows_limits_enforced ["USER=me"; "RAM_SIZE=1G"] [("cpu", "3500m"); ("memory", "8192Mi")]
            ["USER=me"; "RAM_SIZE=8G"; "CPU_CORES=4"] _ _)) "8192Mi" _); vm_compute; reflexivity.
Defined.

(** ** What is not limited *)

(** A memory limit that Kubernetes takes, or one that is mistyped, is none at all
    on Docker, and a positive CPU limit below a billionth is none either. *)
Example limits_dropped :
  map parse_memory_limit [Some "512Mi"; Some "1.5Gi"; Some "512MiB"; Some "1Pi"; Some "1e9"] = [Some 536870912; None; None; None; None] /\
  hr_mem_limit (docker_resources false [("memory", "1.5Gi")]) = None /\
  translate_resource_limits_for_k8s [("memory", "1.5Gi")] = Ok [("memory", "1.5Gi")].
Proof. vm_compute. by split_and!. Qed.

Example tiny_cpu_unlimited :
  parse_nano_cpus (Some "0.0000000001") = Some 0 /\ hr_nano_cpus (docker_resources false [("cpu", "0.0000000001")]) = None.
Proof. vm_compute. by split. Qed.

(** Thousandths go through floats and are cut off: one billionth is lost. *)
Example millicores_lose_one : parse_nano_cpus (Some "1001m") = Some 1000999999.
Proof. vm_compute. reflexivity. Qed.

(** Unlike CPU limits, memory limits may exceed the daemon's 64 bits. *)
Example memory_limit_unbounded : parse_memory_limit (Some "8388608Ti") = Some (2 ^ 63).
Proof. vm_compute. reflexivity. Qed.
